(* ===== verification/_CoqProject ===== *)
-Q . S2P
Prelude.v
Returns.v
GenerationPolicy.v
PrefillBudget.v
PagedKv.v
SnapshotCache.v
SessionBindings.v
Sha256.v
LittleEndian.v
BlockFile.v
BlockStore.v
PrefixCache.v
PrefixCacheInv.v
PrefixCacheGenuine.v
PrefixCacheSteps.v
PrefixCacheLaws.v
MoeCache.v
Float.v
MoeArena.v
TextEmitter.v
ChatDiff.v
Inference.v
Generation.v
Scheduler.v
SchedulerInv.v
SchedulerSpec.v
Executor.v
ExecutorLaws.v
KvRatio.v
ContinuousBatch.v
BatchPolicy.v
BatchPolicyV1.v
DepthModel.v
DsparkController.v
DepthController.v
DepthPolicy.v
Grammar.v
GrammarParser.v
GrammarSem.v
GrammarSpec.v
GrammarText.v
Numbers.v
Speculation.v
SpeculationCompact.v
SpeculationExact.v
GrammarMask.v
PrefixService.v
SessionCache.v
SessionCacheLaws.v
SessionRuns.v
SessionReturns.v
SpeculativeOps.v
SpeculativeSequence.v
SpeculativeLaws.v
SpeculativeSteps.v
SpeculativeToy.v
SpeculativeLossless.v
GenerationFlow.v
GenerationFlowLaws.v
PackedRows.v
NintRows.v
NintIndex.v
NintSlice.v
NintRowsLaws.v
NintWire.v
NintGather.v
NintBatched.v
