(* ===== verification/Prelude.v ===== *)
(** * Verification of the MFQ runtime engine

    MFQ ([src/cpp_runtime]) runs quantised language models. Requests enter a
    scheduler, which drives an engine in rounds; the engine advances each request's
    generation by one quantum per step: it admits the prompt, runs the prefill in
    tiles under a memory budget, then decodes, drafting several tokens ahead when that
    pays, under the constraint of a grammar when there is one; the tokens become text,
    then events of the client's stream. Behind it, allocators and caches decide which
    pages, snapshots and experts stay on the device. This library models that host
    logic as functions on explicit states and proves what each part promises. The
    tensor programs of the backends are outside: where the logic calls one, it is a
    parameter.

    ** The parts

    - [Prelude]: machine integers as [Z] with their wrap-around written out, results
      that may be exceptions ([outcome]), a state and error monad, lemmas on lists,
      scans and stable sorting. [Returns] adds calls that wait for another thread and
      may never return, with triples for what holds if they do.
    - [Float]: IEEE formats as a class, over the Standard Library's [SpecFloat].
    - [GenerationPolicy] ([engine/src/generation_policy.cpp]): admission of a prompt,
      prefill tiles, the synchronous token loop.
    - [PrefillBudget] ([engine/include/prefill_budget.h], [prefill_retry.h],
      [kv_admission.h], [backends/cuda/engine/prefill_recovery.h]): tile size under a
      budget, retry of a tile out of memory, reservation of KV bytes.
    - [PagedKv] ([engine/include/paged_kv_allocator.h]): physical pages.
    - [SnapshotCache] ([engine/include/session_snapshot_cache.h]): snapshots of
      sessions by token prefix; the snapshot type is the class [SnapshotState].
    - [SessionBindings] ([engine/src/paged_session_bindings.cpp]): blocks by session.
    - [Sha256], [LittleEndian], [BlockFile], [BlockStore], [PrefixCache] ([core/mfq_paged_prefix_cache.cpp],
      [core/include/mfq/disk_budget.h]): the cache of key-value blocks by the hash of
      their tokens, in memory and in files: the hash function, the images of files, the
      calls on files and the budget of the volume, and the cache itself, a function for
      each section under its mutex. The order of unordered maps is the class [Visits].
      [PrefixCacheInv] and [PrefixCacheGenuine] keep its counters and its contents,
      [PrefixCacheSteps] runs its threads in any interleaving, and [PrefixCacheLaws]
      states what single operations do.
    - [PrefixService]: that cache as its client sees it: the class [PagedCache], what a
      client relies on ([PagedLaws], [PagedReturns]), and the threaded cache as their
      instance: the calls of the engine's thread, between whose sections the steps of the
      other threads are taken from a schedule.
    - [SessionCache] ([engine/include/session_cache.h]): snapshots, paged blocks and
      bindings behind one restore and one store, over the class [PagedCache], the codec
      of a backend ([Backend]) and the device ([Device]). [SessionCacheLaws] keeps its
      invariant, [SessionRuns] states what any run of calls restores and runs it on the
      threaded cache, [SessionReturns] that a restore returns.
    - [GenerationFlow] ([engine/include/generation_flow.h]): one request in its session,
      over [SessionCache] and the operations of a backend ([FlowOps]): the prefix it
      restores, the inner sequence it passes on, the snapshots it stores, its cleanup;
      and the media prepared before the prompt ([PreparationOps]). [GenerationFlowLaws]
      keeps the session cache under any requests.
    - [MoeCache], [MoeArena] ([engine/include/moe_cache_policy.h]): the slot book of
      cached experts, and the division of memory into arenas.
    - [PackedRows], [NintRows] ([core/include/mfq/packed_row_range.h], [core/nint_rows.cpp],
      [core/include/mfq/nint_rows.h], [nint_blob.h]): tensors of packed codes with a width
      per row: their index, slices of them, and rows gathered for a kernel, over a reader
      of bytes. [NintIndex] has what a table that opens knows of its bytes, [NintSlice] and
      [NintRowsLaws] what a slice is and says, [NintWire] what batches of rows say,
      [NintGather] and [NintBatched] how rows get there.
    - [TextEmitter] ([engine/src/text_emitter.cpp]): UTF-8 and stop sequences.
    - [ChatDiff] ([components/tokenizer/chat/chat.cpp]): differences of messages.
    - [Inference] ([engine/src/inference.cpp]): tokens to output of one request, over
      [TextEmitter] and [ChatDiff].
    - [Generation] ([engine/include/generation_step.h], [core/step_sequence.h]): the
      generation coroutine as a frame that is resumed, over [GenerationPolicy].
    - [Scheduler], [SchedulerInv], [SchedulerSpec] ([scheduler/src/scheduler.cpp]):
      the worker loop over the class [Engine]; its invariants for every engine that
      keeps [EngineLaws]; its promises over all reachable states.
    - [Executor], [ExecutorLaws] ([engine/src/request_executor.cpp]): the executor and
      the engine instance, an [Instance] of [Engine]; it keeps [EngineLaws], so what
      is proved of the scheduler holds of the two together.
    - [KvRatio] ([engine/include/kv_admission.h]): the share of new tokens admission
      reserves, on [double] and [long double].
    - [ContinuousBatch] ([engine/include/continuous_batch.h]): the batch that decodes
      the rows of all requests together: admission, packed prefills, decodes,
      retraction, and what each failure does to the requests. The backend's
      operations may throw anywhere.
    - [BatchPolicy], [BatchPolicyV1] ([engine/include/mtp_batch_policy.h],
      [mtp_batch_policy_v1.h]): the depth of batched speculation. The park memory is
      shared through the class [Parking].
    - [DepthModel], [DsparkController], [DepthController], [DepthPolicy]
      ([engine/include/mtp_depth_controller.h], [mtp_policy.h]): the depth one request
      drafts. The controllers share the estimates of [DepthModel]; the policy parks
      one and re-enters it, and uses a block predictor through [DepthChooser].
    - [Numbers]: [float] and [double] as the interface [Numbers], with the laws of
      zeros and signs that hold on the machine and among exact numbers.
    - [Speculation] ([engine/include/mtp_policy.h]): verification of drafted tokens,
      over [Numbers]; [SpeculationCompact] relates its compact form to vectors,
      [SpeculationExact] states its law in exact arithmetic.
    - [SpeculativeOps], [SpeculativeSequence] ([engine/include/speculative_sequence.h]):
      the coroutine that generates one request speculatively, over the operations of a
      backend (the class [Ops]) and a depth policy ([DepthControl], which [DepthPolicy]
      implements). [SpeculativeLaws] has what is assumed of a target model and plain
      decoding, [SpeculativeSteps] what each step does to the target, [SpeculativeLossless]
      the theorems, and [SpeculativeToy] a model that satisfies the laws.
    - [Grammar], [GrammarParser] ([components/tokenizer/src/mfq_grammar.cpp]): the
      matcher and the parser of grammar texts. [GrammarSem] defines the language of a
      grammar by derivations and relates it to stacks; [GrammarSpec], [GrammarMask]
      and [GrammarText] state what the matcher, its mask and the parser promise.

    A definition has the name of the function it models; a struct is a [Record], a
    mutating member a function that returns the new state. An exception is a value
    that, where the code leaves a partly updated object behind, comes with that
    object. Where code iterates over an unordered map, the order is a parameter.
    Where two threads share data (the outboxes of the scheduler), the other thread's
    actions are steps that may happen at each access.

    ** The theorems

    - Scheduler: a stream's terminal event is unique and last; outboxes stay within
      their budgets; events keep their order; a round ends whatever the engine
      throws; active requests own their sessions; cancellation settles a request; the
      engine instance meets the assumptions made of an engine.
    - Grammars: parsing ends and gives well-formed rules; a matcher accepts exactly
      the tokens that can be completed to a word of its grammar; the mask agrees with
      acceptance; the search ends on grammars the check for left recursion covers.
      Two counterexamples show where the check, and the mask on token elements, fall
      short, and [GrammarText.root_without_rule] a text whose root has no rule.
    - Caches and allocators: page operations refine operations on the set of live
      pages; the slot book's index, recency and free lists describe one table, the
      victim is never in flight, and a replacement can be undone; the snapshot cache
      counts bytes exactly, finds a longest prefix, and evicts the least recent; a
      binding evicts the least recently bound; arena plans are within their bounds.
    - Prefix cache: hashing in pieces is hashing the padded message; a file reads back
      as it was written and no other file is accepted; a write that stops anywhere
      leaves the old block, the new one or none; under any interleaving of threads and
      any failures, counters are exact, a match is a chain of stored blocks (or a
      collision of SHA-256), and loads return what was stored, or the payload of a file
      the cache did not write; evictions are least recently used first and end within
      the budget.
    - Session cache: what a restore gives the model is a state computed from exactly the
      first tokens of the prompt, wherever it was kept, provided that no two prefixes of
      the run have one hash and the codec decodes what it encoded; a stored snapshot is
      restored; a restore waits for nothing but an invalidation. Where only requests
      store, the same holds with no assumption on what is stored: requests that run to
      their end, are cancelled, throw or are dropped store computed states only, if the
      inner sequence keeps the model behind what it publishes.
    - Quantised rows: a slice of a tensor opens as a tensor whose rows hold, code by code,
      what the rows they were cut from hold; gathered rows are the rows asked for, in
      order, whether one thread reads them, several do, or one batch of reads; batches
      merge, and rows are copied between them, without a change of any code.
    - Memory of a prefill: the tile is the largest that fits; reservations are all or
      nothing; the retry ends; mapped pages are counted once.
    - Output: streaming in any pieces equals decoding at once, and is well-formed
      UTF-8; text deltas concatenate to the result; a client that applies message
      differences has the final message; token limits are kept.
    - Generation: prefill tiles partition the prompt. Continuous batching: rows and
      requests agree whatever the device throws; a step that throws has failed every
      request; a retraction gives up one row, never the last that can decode; packed
      prefills keep to their budget; releasing a request always forgets it.
    - Speculation: verified tokens have exactly the target's law in exact arithmetic,
      and under rounding lie in its support; compact and vector verification agree;
      greedy verification is greedy decoding; depths stay within bounds, calibration
      and parks end, whatever times were measured. A greedy speculative generation
      publishes what plain decoding publishes; in every mode the target's cache, the
      constraint and the session follow what was published; a generation ends. The laws
      of the target are exact: a kernel that rounds differently by the width of a pass is
      outside them. [bootstrap_passes_limit] is a token past the limit.

    ** Fuel

    Functions with fuel return [OutOfFuel] only if it is too small. The parser gives
    itself twice the length of the text and a constant, which [parse_total] shows to
    be enough; the check for left recursion gets one more than the number of rules
    ([matcher_terminates]). The search of [advance_stack] may have no bound
    ([undetected_left_recursion]); [matcher_terminates] gives the grammars for which
    enough fuel exists. The search for decode capacity gets one more than the rows
    ([capacity_loop_ends]). The eviction loops of the prefix cache get the number of
    entries, each turn taking one away, and the hash state one turn for each byte. The retry, the loops of the scheduler's round and the cache
    trimming have measures, and theorems that they end.

    ** Not modelled

    - Backends (Metal, CUDA, HIP) and models: device programs; their host code is
      mostly calls of tensor libraries. The engine sees them as parameters.
    - Vendored code: ggml, httplib, nlohmann/json; generated Unicode tables.
    - Transport (HTTP, stdio), file readers and model sources: input and output
      around third-party parsers.
    - Regular expressions, tokenizers and vocabularies: parameters.
    - Locks, condition variables and clocks, beyond the interleavings above.
    - The printers of grammars, logging, metrics getters, and [release_host_cache], which
      gives memory back to the system.
    - Of the prefix cache: the content of its identity file, the times it sets on
      files, and the capacities of vectors in its metrics. Counts of objects in memory
      (versions of a tail, active writes) are taken not to wrap, and a call that cannot
      throw has failed where a call's fault says it ends.
    - The text constraint of a request, which calls the tokenizer for each piece; the PEG
      parser of chat output ([components/tokenizer/chat/peg-parser.cpp]); rows of the other
      quantised formats ([core/nvq_rows.cpp]). *)

From stdpp Require Import base list gmap sets strings sorting relations.
From Stdlib Require Import ZArith Lia.

#[local] Set Default Proof Using "Type".

Declare Scope mfq_scope.
Delimit Scope mfq_scope with mfq.
Open Scope mfq_scope.

(** ** Machine integers

    A [w]-bit C++ integer is a [Z]; the wrap-around of unsigned arithmetic and
    of the narrowing casts is written out. *)

Definition u64_max : Z := 2 ^ 64 - 1.
Definition s64_max : Z := 2 ^ 63 - 1.
Definition s32_max : Z := 2 ^ 31 - 1.

(** [std::size_t] / [std::uint64_t] arithmetic. *)
Definition u64 (z : Z) : Z := z mod 2 ^ 64.

(** [static_cast<std::int64_t>] and [static_cast<std::int32_t>]. *)
Definition s64 (z : Z) : Z := (z + 2 ^ 63) mod 2 ^ 64 - 2 ^ 63.
Definition s32 (z : Z) : Z := (z + 2 ^ 31) mod 2 ^ 32 - 2 ^ 31.

Definition in_u64 (z : Z) : Prop := (0 <= z <= u64_max)%Z.
Definition in_s64 (z : Z) : Prop := (- 2 ^ 63 <= z <= s64_max)%Z.
Definition in_s32 (z : Z) : Prop := (- 2 ^ 31 <= z <= s32_max)%Z.

(** [v.empty()]. *)
Definition is_nil {A} (l : list A) : bool := match l with [] => true | _ => false end.

(** [v.size()] as a machine number. *)
Definition size_of {A} (l : list A) : Z := Z.of_nat (length l).

Lemma u64_range z : in_u64 (u64 z).
Proof.
  unfold in_u64, u64, u64_max.
  pose proof (Z.mod_pos_bound z (2 ^ 64) ltac:(lia)). lia.
Qed.

Lemma u64_small z : (0 <= z < 2 ^ 64)%Z -> u64 z = z.
Proof. intros. unfold u64. by apply Z.mod_small. Qed.

Lemma u64_add_l a b : u64 (u64 a + b) = u64 (a + b).
Proof. unfold u64. by rewrite Zplus_mod_idemp_l. Qed.

Lemma u64_add_r a b : u64 (a + u64 b) = u64 (a + b).
Proof. unfold u64. by rewrite Zplus_mod_idemp_r. Qed.

Lemma u64_sub_l a b : u64 (u64 a - b) = u64 (a - b).
Proof. unfold u64. by rewrite Zminus_mod_idemp_l. Qed.

Lemma u64_sub_r a b : u64 (a - u64 b) = u64 (a - b).
Proof. unfold u64. by rewrite Zminus_mod_idemp_r. Qed.

Lemma s64_small z : in_s64 z -> s64 z = z.
Proof.
  unfold in_s64, s64, s64_max. intros. rewrite Z.mod_small; lia.
Qed.

Lemma s32_small z : in_s32 z -> s32 z = z.
Proof.
  unfold in_s32, s32, s32_max. intros. rewrite Z.mod_small; lia.
Qed.

Lemma size_of_nonneg {A} (l : list A) : (0 <= size_of l)%Z.
Proof. unfold size_of. lia. Qed.

Lemma size_of_app {A} (l k : list A) :
  size_of (l ++ k) = (size_of l + size_of k)%Z.
Proof. unfold size_of. rewrite length_app. lia. Qed.

Lemma size_of_nil_iff {A} (l : list A) : size_of l = 0%Z <-> l = [].
Proof. unfold size_of. destruct l; simpl; split; intros; congruence || lia. Qed.

(** ** Exceptions

    The standard exception classes the sources throw, with their message; an
    operation that may throw returns an [outcome]. *)

Inductive exn : Type :=
  | InvalidArgument (what : string)
  | RuntimeError (what : string)
  | LogicError (what : string)
  | OutOfRange (what : string)
  | LengthError (what : string)
  | OverflowError (what : string)
  | BadAlloc
  | ResourceExhausted (what : string)
  | BackendFailure (what : string)
  | InputError (unsupported : bool) (what : string)
  | OtherException.

Inductive outcome (A : Type) : Type :=
  | Ok (a : A)
  | Throw (e : exn).
Arguments Ok {A} a.
Arguments Throw {A} e.

#[export] Instance exn_eq_dec : EqDecision exn.
Proof. solve_decision. Defined.

#[export] Instance outcome_eq_dec {A} `{EqDecision A} : EqDecision (outcome A).
Proof. solve_decision. Defined.

#[export] Instance outcome_ret : MRet outcome := fun A a => Ok a.
#[export] Instance outcome_bind : MBind outcome := fun A B k m =>
  match m with Ok a => k a | Throw e => Throw e end.

Definition is_ok {A} (o : outcome A) : bool :=
  match o with Ok _ => true | Throw _ => false end.

(** ** Stateful operations

    A member function that may throw: the state holds whatever was assigned
    before the throw. *)

Definition M (S A : Type) : Type := S -> outcome A * S.

Section StateMonad.
Context {S : Type}.

#[export] Instance M_ret : MRet (M S) := fun A a s => (Ok a, s).
#[export] Instance M_bind : MBind (M S) := fun A B k m s =>
  match m s with
  | (Ok a, s) => k a s
  | (Throw e, s) => (Throw e, s)
  end.

Definition throw {A} (e : exn) : M S A := fun s => (Throw e, s).
Definition get : M S S := fun s => (Ok s, s).
Definition modify (f : S -> S) : M S unit := fun s => (Ok tt, f s).

(** [try { m } catch (e) { h(e) }]. *)
Definition try_catch {A} (m : M S A) (h : exn -> M S A) : M S A := fun s =>
  match m s with
  | (Ok a, s) => (Ok a, s)
  | (Throw e, s) => h e s
  end.

(** [for (x : l) f(x);] *)
Fixpoint for_each {A} (l : list A) (f : A -> M S unit) : M S unit :=
  match l with
  | [] => mret tt
  | x :: l => f x ≫= fun _ => for_each l f
  end.

(** A loop that carries local variables. *)
Fixpoint fold_each {A B} (l : list A) (f : B -> A -> M S B) (b : B) : M S B :=
  match l with
  | [] => mret b
  | x :: l => f b x ≫= fun b => fold_each l f b
  end.

(** Running a sequence of operations. *)
Lemma bind_ok {A B} (m : M S A) (k : A -> M S B) s a s' :
  m s = (Ok a, s') -> (m ≫= k) s = k a s'.
Proof. intros Hm. unfold mbind, M_bind. by rewrite Hm. Qed.

Lemma bind_throw {A B} (m : M S A) (k : A -> M S B) s e s' :
  m s = (Throw e, s') -> (m ≫= k) s = (Throw e, s').
Proof. intros Hm. unfold mbind, M_bind. by rewrite Hm. Qed.

Lemma bind_modify {B} f (k : unit -> M S B) s : (modify f ≫= k) s = k tt (f s).
Proof. done. Qed.

Lemma bind_get {B} (k : S -> M S B) s : (get ≫= k) s = k s s.
Proof. done. Qed.

(** [m], started in a state satisfying [P], ends in one satisfying [Q] of its
    result, and in one satisfying [X] when it throws. *)
Definition hoare {A} (P : S -> Prop) (m : M S A) (Q : A -> S -> Prop) (X : S -> Prop) : Prop :=
  forall s, P s -> match m s with (Ok a, s') => Q a s' | (Throw _, s') => X s' end.

Lemma hoare_ret {A} (P : S -> Prop) (a : A) (Q : A -> S -> Prop) X :
  (forall s, P s -> Q a s) -> hoare P (mret a) Q X.
Proof. intros H s Hs. simpl. by apply H. Qed.

Lemma hoare_bind {A B} P (m : M S A) (k : A -> M S B) (R : A -> S -> Prop) Q X :
  hoare P m R X -> (forall a, hoare (R a) (k a) Q X) -> hoare P (m ≫= k) Q X.
Proof.
  intros Hm Hk s Hs. specialize (Hm s Hs). unfold mbind, M_bind.
  destruct (m s) as [[a|e] s']; [|done]. by apply (Hk a s').
Qed.

Lemma hoare_weaken {A} (P P' : S -> Prop) (m : M S A) (Q Q' : A -> S -> Prop) (X X' : S -> Prop) :
  hoare P' m Q' X' -> (forall s, P s -> P' s) -> (forall a s, Q' a s -> Q a s) ->
  (forall s, X' s -> X s) -> hoare P m Q X.
Proof.
  intros Hm HP HQ HX s Hs. specialize (Hm s (HP s Hs)).
  destruct (m s) as [[a|e] s']; auto.
Qed.

Lemma hoare_throw {A} (P : S -> Prop) e (Q : A -> S -> Prop) (X : S -> Prop) :
  (forall s, P s -> X s) -> hoare P (throw e) Q X.
Proof. intros H s Hs. simpl. by apply H. Qed.

Lemma hoare_modify (P : S -> Prop) f (Q : unit -> S -> Prop) X :
  (forall s, P s -> Q tt (f s)) -> hoare P (modify f) Q X.
Proof. intros H s Hs. simpl. by apply H. Qed.

Lemma hoare_get (P : S -> Prop) (Q : S -> S -> Prop) X :
  (forall s, P s -> Q s s) -> hoare P get Q X.
Proof. intros H s Hs. simpl. by apply H. Qed.

Lemma hoare_try {A} P (m : M S A) h (Q : A -> S -> Prop) (Y X : S -> Prop) :
  hoare P m Q Y -> (forall e, hoare Y (h e) Q X) -> hoare P (try_catch m h) Q X.
Proof.
  intros Hm Hh s Hs. specialize (Hm s Hs). unfold try_catch.
  destruct (m s) as [[a|e] s']; [done|]. by apply (Hh e s').
Qed.

(** A loop invariant. *)
Lemma hoare_for_each {A} (l : list A) (f : A -> M S unit) (I X : S -> Prop) :
  (forall x, x ∈ l -> hoare I (f x) (fun _ => I) X) ->
  hoare I (for_each l f) (fun _ => I) X.
Proof.
  induction l as [|x l IH]; intros Hf; simpl; [by apply hoare_ret|].
  eapply hoare_bind; [apply Hf; set_solver|]. intros []. apply IH. set_solver.
Qed.

Lemma hoare_fold_each {A B} (l : list A) (f : B -> A -> M S B) (I : B -> S -> Prop) X :
  (forall b x, x ∈ l -> hoare (I b) (f b x) I X) ->
  forall b, hoare (I b) (fold_each l f b) I X.
Proof.
  induction l as [|x l IH]; intros Hf b; simpl; [by apply hoare_ret|].
  eapply hoare_bind; [apply Hf; set_solver|]. intros b'. apply IH. set_solver.
Qed.
End StateMonad.

(** [if (cond) throw e;] *)
Notation "'throw_if' c 'with' e ; k" :=
  (if c then Throw e else k)
  (at level 100, c at level 99, e at level 99, k at level 200,
   format "'throw_if'  c  'with'  e ; '//' k") : mfq_scope.

(** ** Selection loops

    The eviction and match loops of the sources have one shape: walk the
    candidates, skip some, keep the first candidate that is strictly better
    than the one kept so far. *)

Section Scan.
Context {A : Type} (skip : A -> bool) (better : A -> A -> bool).

Fixpoint scan (best : option A) (l : list A) : option A :=
  match l with
  | [] => best
  | x :: l' =>
      if skip x then scan best l'
      else match best with
           | None => scan (Some x) l'
           | Some b => if better x b then scan (Some x) l' else scan best l'
           end
  end.

Lemma scan_some_start b l : exists r, scan (Some b) l = Some r.
Proof.
  revert b. induction l as [|x l IH]; intros b; simpl; [eauto|].
  destruct (skip x); [eauto|]. destruct (better x b); eauto.
Qed.

Lemma scan_elem best l r :
  scan best l = Some r -> best = Some r \/ (r ∈ l /\ skip r = false).
Proof.
  revert best. induction l as [|x l IH]; intros best; simpl; [by left|].
  intros Hs.
  assert (scan best l = Some r \/ (skip x = false /\ scan (Some x) l = Some r))
    as [H|[Hx H]].
  { destruct (skip x); [by left|]. destruct best as [b|]; [|by right].
    destruct (better x b); [by right|by left]. }
  - destruct (IH _ H) as [?|[??]]; [by left|right; split; [set_solver|done]].
  - destruct (IH _ H) as [[= ->]|[??]]; right; split; set_solver.
Qed.

Lemma scan_none l : scan None l = None -> forall x, x ∈ l -> skip x = true.
Proof.
  induction l as [|y l IH]; simpl; [set_solver|].
  destruct (skip y) eqn:Hy.
  - intros H x [->|Hx]%elem_of_cons; auto.
  - intros H. destruct (scan_some_start y l) as [r Hr]. congruence.
Qed.

(** With a comparison induced by a key, the kept element is minimal. *)
Context (key : A -> Z).
Hypothesis better_key : forall x y, better x y = true <-> (key x < key y)%Z.

Lemma scan_min best l r :
  scan best l = Some r ->
  (forall b, best = Some b -> (key r <= key b)%Z) /\
  (forall x, x ∈ l -> skip x = false -> (key r <= key x)%Z).
Proof using better_key.
  revert best. induction l as [|x l IH]; intros best; simpl.
  { intros ->. split; [intros b [= ->]; lia|set_solver]. }
  destruct (skip x) eqn:Hx.
  { intros H. destruct (IH _ H) as [H1 H2]. split; [done|].
    intros y [->|Hy]%elem_of_cons; [congruence|auto]. }
  destruct best as [b|].
  - destruct (better x b) eqn:Hb; intros H; destruct (IH _ H) as [H1 H2].
    + apply better_key in Hb. specialize (H1 _ eq_refl). split.
      * intros b' [= ->]. lia.
      * intros y [->|Hy]%elem_of_cons; auto.
    + assert (~ (key x < key b)%Z) by (rewrite <- better_key; congruence).
      specialize (H1 _ eq_refl) as Hrb. split; [done|].
      intros y [->|Hy]%elem_of_cons; [lia|auto].
  - intros H. destruct (IH _ H) as [H1 H2]. split; [done|].
    intros y [->|Hy]%elem_of_cons; auto.
Qed.
End Scan.

(** ** List lemmas *)

Lemma StronglySorted_mono {A} (R R' : relation A) l :
  (forall x y, R x y -> R' x y) -> StronglySorted R l -> StronglySorted R' l.
Proof.
  intros HR Hl. induction Hl as [|x l Hs IH Hx]; [constructor|].
  apply StronglySorted_cons. split; [|done]. eapply Forall_impl; [exact Hx|auto].
Qed.

Lemma filter_none {A} (P : A -> Prop) `{!forall x, Decision (P x)} (l : list A) :
  (forall x, x ∈ l -> ~ P x) -> filter P l = [].
Proof.
  intros HP. induction l as [|x l IH]; [done|].
  rewrite filter_cons_False by (apply HP; set_solver). apply IH. set_solver.
Qed.

Lemma filter_all {A} (P : A -> Prop) `{!forall x, Decision (P x)} (l : list A) :
  (forall x, x ∈ l -> P x) -> filter P l = l.
Proof.
  intros HP. induction l as [|x l IH]; [done|].
  rewrite filter_cons_True by (apply HP; set_solver). f_equal. apply IH. set_solver.
Qed.

(** ** [std::stable_sort]

    The result of a stable sort is determined by the comparison; insertion
    computes it. *)

Section StableSort.
Context {A : Type} (lt : A -> A -> bool).

Fixpoint stable_insert (x : A) (l : list A) : list A :=
  match l with
  | [] => [x]
  | y :: l' => if lt y x then y :: stable_insert x l' else x :: l
  end.

Fixpoint stable_sort (l : list A) : list A :=
  match l with
  | [] => []
  | x :: l' => stable_insert x (stable_sort l')
  end.

(** Neither element goes before the other. *)
Definition tied (x y : A) : bool := negb (lt x y) && negb (lt y x).

Lemma stable_insert_perm x l : stable_insert x l ≡ₚ x :: l.
Proof.
  induction l as [|y l IH]; simpl; [done|].
  destruct (lt y x); [|done]. rewrite IH. constructor.
Qed.

Lemma stable_sort_perm l : stable_sort l ≡ₚ l.
Proof.
  induction l as [|x l IH]; simpl; [done|]. by rewrite stable_insert_perm, IH.
Qed.

(** [lt] is a strict weak order. *)
Hypothesis lt_asym : forall x y, lt x y = true -> lt y x = false.
Hypothesis lt_weak : forall x y z, lt y x = false -> lt z y = false -> lt z x = false.

Lemma stable_insert_sorted x l :
  StronglySorted (fun a b => lt b a = false) l ->
  StronglySorted (fun a b => lt b a = false) (stable_insert x l).
Proof using lt_asym lt_weak.
  induction l as [|y l IH]; simpl; [repeat constructor|].
  intros [Hy Hl]%StronglySorted_cons. destruct (lt y x) eqn:E.
  - apply StronglySorted_cons. split; [|by apply IH].
    rewrite stable_insert_perm. constructor; [by apply lt_asym|done].
  - apply StronglySorted_cons. split; [|by apply StronglySorted_cons].
    constructor; [done|]. eapply Forall_impl; [exact Hy|].
    intros z Hz. by apply (lt_weak x y z).
Qed.

Lemma stable_sort_sorted l :
  StronglySorted (fun a b => lt b a = false) (stable_sort l).
Proof using lt_asym lt_weak.
  induction l as [|x l IH]; simpl; [constructor|by apply stable_insert_sorted].
Qed.

Lemma stable_insert_filter z x l :
  StronglySorted (fun a b => lt b a = false) l ->
  filter (fun y => tied z y = true) (stable_insert x l) =
  filter (fun y => tied z y = true) (x :: l).
Proof using lt_asym lt_weak.
  induction l as [|y l IH]; intros Hs; [done|]. cbn [stable_insert].
  destruct (lt y x) eqn:E; [|done].
  apply StronglySorted_cons in Hs as [_ Hs].
  assert (~ (tied z y = true /\ tied z x = true)) as Hne.
  { unfold tied. rewrite !andb_true_iff, !negb_true_iff.
    intros [[H1 H2] [H3 H4]]. rewrite (lt_weak x z y) in E; done. }
  rewrite (filter_cons _ y), IH by done. rewrite !filter_cons.
  repeat case_decide; try done. by destruct Hne.
Qed.

(** Ties keep their original order. *)
Lemma stable_sort_stable z l :
  filter (fun y => tied z y = true) (stable_sort l) =
  filter (fun y => tied z y = true) l.
Proof using lt_asym lt_weak.
  induction l as [|x l IH]; [done|]. cbn [stable_sort].
  rewrite stable_insert_filter by apply stable_sort_sorted.
  rewrite !filter_cons. by rewrite IH.
Qed.
End StableSort.

(** ** [std::vector] used as a stack *)

(** [back()] and [pop_back()]; [None] on an empty vector. *)
Definition pop_back {A} (l : list A) : option (list A * A) :=
  match reverse l with
  | [] => None
  | x :: r => Some (reverse r, x)
  end.

Lemma pop_back_None {A} (l : list A) : pop_back l = None <-> l = [].
Proof.
  unfold pop_back. split; [|by intros ->].
  destruct (reverse l) eqn:E; [|done]. intros _.
  by rewrite <- (reverse_involutive l), E.
Qed.

Lemma pop_back_Some {A} (l k : list A) x : pop_back l = Some (k, x) <-> l = k ++ [x].
Proof.
  unfold pop_back. split.
  - destruct (reverse l) as [|y r] eqn:E; [done|]. intros [= <- <-].
    by rewrite <- (reverse_involutive l), E, reverse_cons.
  - intros ->. by rewrite reverse_snoc, reverse_involutive.
Qed.

(** ** Counting set flags *)

Definition count_true (l : list bool) : nat := length (filter (fun b => b = true) l).

Lemma count_true_app l k : count_true (l ++ k) = (count_true l + count_true k)%nat.
Proof. unfold count_true. by rewrite filter_app, length_app. Qed.

Lemma count_true_le l : (count_true l <= length l)%nat.
Proof. apply length_filter. Qed.

Lemma count_true_set l i :
  l !! i = Some false -> count_true (<[i := true]> l) = S (count_true l).
Proof.
  revert i. induction l as [|b l IH]; intros [|i] H; simplify_eq/=; [done|].
  specialize (IH i H). unfold count_true in *. rewrite !filter_cons.
  case_decide; simpl; lia.
Qed.

Lemma count_true_clear l i :
  l !! i = Some true -> count_true l = S (count_true (<[i := false]> l)).
Proof.
  revert i. induction l as [|b l IH]; intros [|i] H; simplify_eq/=; [done|].
  specialize (IH i H). unfold count_true in *. rewrite !filter_cons.
  case_decide; simpl; lia.
Qed.

(** ** Sums over lists and maps *)

Definition Zsum {A} (f : A -> Z) (l : list A) : Z :=
  foldr (fun x acc => (f x + acc)%Z) 0%Z l.

Lemma Zsum_app {A} (f : A -> Z) l k : Zsum f (l ++ k) = (Zsum f l + Zsum f k)%Z.
Proof. induction l as [|x l IH]; simpl; [done|]. unfold Zsum in *. simpl. lia. Qed.

#[export] Instance Zsum_proper {A} (f : A -> Z) : Proper ((≡ₚ) ==> eq) (Zsum f).
Proof. intros l k Hp. induction Hp; unfold Zsum in *; simpl in *; lia. Qed.

Lemma Zsum_nonneg {A} (f : A -> Z) l : Forall (fun x => 0 <= f x)%Z l -> (0 <= Zsum f l)%Z.
Proof. induction 1; unfold Zsum in *; simpl; lia. Qed.

Lemma Zsum_elem_le {A} (f : A -> Z) l x :
  Forall (fun x => 0 <= f x)%Z l -> x ∈ l -> (f x <= Zsum f l)%Z.
Proof.
  intros Hf Hx. apply list_elem_of_split in Hx as (l1 & l2 & ->).
  rewrite Zsum_app. apply Forall_app in Hf as [H1 H2].
  apply Forall_cons in H2 as [H2 H3].
  pose proof (Zsum_nonneg _ _ H1). pose proof (Zsum_nonneg _ _ H3).
  unfold Zsum in *. simpl. lia.
Qed.

Lemma Zsum_delete {A} (f : A -> Z) l i x :
  l !! i = Some x -> Zsum f l = (f x + Zsum f (delete i l))%Z.
Proof. intros Hl. by rewrite (delete_Permutation l i x Hl) at 1. Qed.

(** Sums that differ in one element. *)
Lemma Zsum_update {A} (f g : A -> Z) l x :
  NoDup l -> x ∈ l -> (forall y, y ∈ l -> y <> x -> g y = f y) ->
  Zsum g l = (Zsum f l - f x + g x)%Z.
Proof.
  intros Hn Hx Hfg. apply list_elem_of_split in Hx as (l1 & l2 & ->).
  assert (forall k, (forall y, y ∈ k -> g y = f y) -> Zsum g k = Zsum f k) as Hext.
  { induction k as [|y k IH]; intros Hk; [done|]. unfold Zsum in *. simpl.
    rewrite (Hk y), IH by set_solver. done. }
  apply NoDup_app in Hn as (_ & Hd & Hn). apply NoDup_cons in Hn as [Hx2 _].
  rewrite !Zsum_app. unfold Zsum at 2 4. simpl. fold (Zsum f l2) (Zsum g l2).
  rewrite (Hext l1), (Hext l2); [lia| |].
  - intros y Hy. apply Hfg; [set_solver|]. by intros ->.
  - intros y Hy. apply Hfg; [set_solver|]. intros ->. apply (Hd x Hy). set_solver.
Qed.

Lemma Zsum_le {A} (f g : A -> Z) l :
  (forall x, x ∈ l -> f x <= g x)%Z -> (Zsum f l <= Zsum g l)%Z.
Proof.
  induction l as [|x l IH]; intros H; [done|]. unfold Zsum in *. simpl.
  pose proof (H x ltac:(set_solver)). specialize (IH ltac:(set_solver)). lia.
Qed.

(** The sum the wrapping loop [acc += f(x)] computes. *)
Definition u64_sum {A} (f : A -> Z) (l : list A) : Z :=
  foldl (fun acc x => u64 (acc + f x)) 0%Z l.

Lemma u64_sum_eq {A} (f : A -> Z) l : u64_sum f l = u64 (Zsum f l).
Proof.
  unfold u64_sum. enough (forall a, foldl (fun acc x => u64 (acc + f x)) (u64 a) l =
    u64 (a + Zsum f l)) as Hgen by exact (Hgen 0%Z).
  induction l as [|x l IH]; intros a; simpl; [by rewrite Z.add_0_r|].
  rewrite u64_add_l, IH. f_equal. unfold Zsum. simpl. lia.
Qed.

Definition msum `{Countable K} {V} (f : V -> Z) (m : gmap K V) : Z :=
  Zsum (fun kv => f kv.2) (map_to_list m).

Lemma msum_empty `{Countable K} {V} (f : V -> Z) : msum f (∅ : gmap K V) = 0%Z.
Proof. unfold msum. by rewrite map_to_list_empty. Qed.

Lemma msum_insert `{Countable K} {V} (f : V -> Z) (m : gmap K V) k v :
  m !! k = None -> msum f (<[k:=v]> m) = (f v + msum f m)%Z.
Proof. intros Hk. unfold msum. by rewrite map_to_list_insert. Qed.

Lemma msum_delete `{Countable K} {V} (f : V -> Z) (m : gmap K V) k v :
  m !! k = Some v -> msum f m = (f v + msum f (delete k m))%Z.
Proof.
  intros Hk. rewrite <- (insert_delete_id m k v Hk) at 1.
  apply msum_insert. apply lookup_delete_eq.
Qed.

Lemma msum_update `{Countable K} {V} (f : V -> Z) (m : gmap K V) k v w :
  m !! k = Some v -> msum f (<[k:=w]> m) = (msum f m - f v + f w)%Z.
Proof.
  intros Hk. rewrite (msum_delete f m k v Hk), <- insert_delete_eq.
  rewrite msum_insert by apply lookup_delete_eq. lia.
Qed.

Lemma msum_nonneg `{Countable K} {V} (f : V -> Z) (m : gmap K V) :
  map_Forall (fun _ v => 0 <= f v)%Z m -> (0 <= msum f m)%Z.
Proof.
  intros Hm. apply Zsum_nonneg, Forall_forall. intros [k v] Hkv.
  apply elem_of_map_to_list in Hkv. by apply (Hm k v).
Qed.

Lemma msum_elem_le `{Countable K} {V} (f : V -> Z) (m : gmap K V) k v :
  map_Forall (fun _ v => 0 <= f v)%Z m -> m !! k = Some v -> (f v <= msum f m)%Z.
Proof.
  intros Hm Hk. rewrite (msum_delete f m k v Hk).
  assert (0 <= msum f (delete k m))%Z; [|lia].
  apply msum_nonneg. by apply map_Forall_delete.
Qed.
