(* ===== verification/Returns.v ===== *)
(** * Operations that may wait

    A call that waits for another thread returns only if the other thread gets there.
    [N S A] is the monad of such calls on a state: [None] is a call that never returns.
    The operations of [Prelude.M] are those that always return ([returns]). *)

From stdpp Require Import base list sets.
From S2P Require Import Prelude.

#[local] Set Default Proof Using "Type".

Definition N (S A : Type) : Type := S -> option (outcome A * S).

Section Waiting.
Context {S : Type}.

#[export] Instance N_ret : MRet (N S) := fun A a s => Some (Ok a, s).
#[export] Instance N_bind : MBind (N S) := fun A B k m s =>
  match m s with
  | Some (Ok a, s) => k a s
  | Some (Throw e, s) => Some (Throw e, s)
  | None => None
  end.

Definition returns {A} (m : M S A) : N S A := fun s => Some (m s).
Definition read : N S S := fun s => Some (Ok s, s).
Definition write (f : S -> S) : N S unit := fun s => Some (Ok tt, f s).
Definition raise {A} (e : exn) : N S A := fun s => Some (Throw e, s).
Definition of_outcome {A} (o : outcome A) : N S A := fun s => Some (o, s).
Definition never {A} : N S A := fun _ => None.

(** [try { m } catch (e) { h(e) }]. *)
Definition try_with {A} (m : N S A) (h : exn -> N S A) : N S A := fun s =>
  match m s with
  | Some (Throw e, s) => h e s
  | r => r
  end.

(** A loop that carries local variables. *)
Fixpoint for_fold {A B} (l : list A) (f : B -> A -> N S B) (b : B) : N S B :=
  match l with
  | [] => mret b
  | x :: l => f b x ≫= fun b => for_fold l f b
  end.

(** [m], started in a state satisfying [P], ends, if it returns, in one satisfying [Q] of
    its result, and in one satisfying [X] if it throws. *)
Definition spec {A} (P : S -> Prop) (m : N S A) (Q : A -> S -> Prop) (X : S -> Prop) : Prop :=
  forall s, P s -> match m s with
                   | Some (Ok a, s') => Q a s'
                   | Some (Throw _, s') => X s'
                   | None => True
                   end.

Lemma spec_start {A} (P : S -> Prop) s (m : N S A) Q X : P s -> spec P m Q X -> spec (eq s) m Q X.
Proof. intros Hs Hm ? <-. by apply Hm. Qed.

Lemma spec_ret {A} (P : S -> Prop) (a : A) (Q : A -> S -> Prop) X : (forall s, P s -> Q a s) -> spec P (mret a) Q X.
Proof. intros H s Hs. by apply H. Qed.

Lemma spec_bind {A B} P (m : N S A) (k : A -> N S B) (R : A -> S -> Prop) Q X :
  spec P m R X -> (forall a, spec (R a) (k a) Q X) -> spec P (m ≫= k) Q X.
Proof.
  intros Hm Hk s Hs. specialize (Hm s Hs). unfold mbind, N_bind.
  destruct (m s) as [[[a|e] s']|]; [by apply (Hk a s')|done|done].
Qed.

Lemma spec_weaken {A} (P P' : S -> Prop) (m : N S A) (Q Q' : A -> S -> Prop) (X X' : S -> Prop) :
  spec P' m Q' X' -> (forall s, P s -> P' s) -> (forall a s, Q' a s -> Q a s) -> (forall s, X' s -> X s) ->
  spec P m Q X.
Proof.
  intros Hm HP HQ HX s Hs. specialize (Hm s (HP s Hs)). destruct (m s) as [[[a|e] s']|]; auto.
Qed.

Lemma spec_each {A} (P : S -> Prop) (m : N S A) (Q : A -> S -> Prop) (X : S -> Prop) :
  (forall s, P s -> spec (eq s) m Q X) -> spec P m Q X.
Proof. intros H s Hs. by apply (H s Hs s). Qed.

(** A call in a sequence, from a known state. *)
Lemma spec_seq {A B} s (m : N S A) (k : A -> N S B) (R : A -> S -> Prop) (Y : S -> Prop) (Q : B -> S -> Prop) X :
  spec (eq s) m R Y -> (forall s', Y s' -> X s') -> (forall a s', R a s' -> spec (eq s') (k a) Q X) ->
  spec (eq s) (m ≫= k) Q X.
Proof.
  intros Hm HX Hk. eapply spec_bind; [eapply spec_weaken; [exact Hm|done|intros ?? H; exact H|exact HX]|].
  intros a. apply spec_each. intros s'. apply Hk.
Qed.

Lemma spec_seq_read {B} s (k : S -> N S B) (Q : B -> S -> Prop) X : spec (eq s) (k s) Q X -> spec (eq s) (read ≫= k) Q X.
Proof. intros Hk s' <-. by apply (Hk s). Qed.

Lemma spec_done {A} s (a : A) (Q : A -> S -> Prop) X : Q a s -> spec (eq s) (mret a) Q X.
Proof. intros H s' <-. done. Qed.

Lemma spec_raised {A} s e (Q : A -> S -> Prop) (X : S -> Prop) : X s -> spec (eq s) (raise e) Q X.
Proof. intros H s' <-. done. Qed.

Lemma spec_read (P : S -> Prop) (Q : S -> S -> Prop) X : (forall s, P s -> Q s s) -> spec P read Q X.
Proof. intros H s Hs. by apply H. Qed.

Lemma spec_write (P : S -> Prop) f (Q : unit -> S -> Prop) X : (forall s, P s -> Q tt (f s)) -> spec P (write f) Q X.
Proof. intros H s Hs. by apply H. Qed.

Lemma spec_raise {A} (P : S -> Prop) e (Q : A -> S -> Prop) (X : S -> Prop) :
  (forall s, P s -> X s) -> spec P (raise e) Q X.
Proof. intros H s Hs. by apply H. Qed.

Lemma spec_outcome {A} (o : outcome A) (P : S -> Prop) (Q : A -> S -> Prop) (X : S -> Prop) :
  (forall a s, o = Ok a -> P s -> Q a s) -> (forall s, P s -> X s) -> spec P (of_outcome o) Q X.
Proof. intros H HX s Hs. unfold of_outcome. destruct o; auto. Qed.

Lemma spec_returns {A} (P : S -> Prop) (m : M S A) Q X : hoare P m Q X -> spec P (returns m) Q X.
Proof. intros H s Hs. specialize (H s Hs). unfold returns. by destruct (m s) as [[?|?] ?]. Qed.

Lemma spec_try {A} P (m : N S A) h (Q : A -> S -> Prop) (Y X : S -> Prop) :
  spec P m Q Y -> (forall e, spec Y (h e) Q X) -> spec P (try_with m h) Q X.
Proof.
  intros Hm Hh s Hs. specialize (Hm s Hs). unfold try_with.
  destruct (m s) as [[[a|e] s']|]; [done|by apply (Hh e s')|done].
Qed.

Lemma spec_for {A B} (l : list A) (f : B -> A -> N S B) (I : B -> S -> Prop) X :
  (forall b x, x ∈ l -> spec (I b) (f b x) I X) -> forall b, spec (I b) (for_fold l f b) I X.
Proof.
  induction l as [|x l IH]; intros Hf b; cbn [for_fold]; [by apply spec_ret|].
  eapply spec_bind; [apply Hf; set_solver|]. intros b'. apply IH. set_solver.
Qed.

(** A call returns if its parts do. *)
Lemma returns_seq {A B} s (m : N S A) (k : A -> N S B) (R : A -> S -> Prop) X :
  m s <> None -> spec (eq s) m R X -> (forall a s', R a s' -> k a s' <> None) -> (m ≫= k) s <> None.
Proof.
  intros Hm Hspec Hk. specialize (Hspec s eq_refl). unfold mbind, N_bind.
  destruct (m s) as [[[a|e] s']|]; [by apply Hk|done|done].
Qed.
End Waiting.
