(* ===== verification/GenerationPolicy.v ===== *)
(** * Generation policy ([engine/include/generation_policy.h],
    [engine/src/generation_policy.cpp])

    Admission of a prompt ([plan_generation]), the prefill tile
    ([next_prefill_chunk]), the prefill loop of [generate_sequence] that walks
    the tiles, and the synchronous token loop [generate_tokens]. *)

From stdpp Require Import base list strings.
From Stdlib Require Import ZArith Lia.
From S2P Require Import Prelude.

Open Scope Z_scope.

(** ** Data *)

Record GenerationPlan := {
  prompt_tokens : Z;
  stable_prefix_tokens : Z;
  generation_tokens : Z;
}.

Record PrefillChunk := {
  offset : Z;
  count : Z;
  last : bool;
}.

Record TokenGenerationResult := {
  tokens : Z;
  hit_eos : bool;
}.

(** ** Operations *)

Definition plan_generation (prompt : list Z) (vocab_size context_capacity
    requested_generation_tokens stable_prefix occupied_context : Z)
    : outcome GenerationPlan :=
  throw_if bool_decide (prompt = [])
    with InvalidArgument "generation prompt must not be empty";
  throw_if (vocab_size <=? 0) || (context_capacity <=? 0)
           || (u64 context_capacity <? size_of prompt)
    with InvalidArgument "generation prompt exceeds model capacity";
  throw_if requested_generation_tokens <? 0
    with InvalidArgument "generation token count must be non-negative";
  throw_if existsb (fun token => (token <? 0) || (vocab_size <=? token)) prompt
    with InvalidArgument "generation prompt token is outside the vocabulary";
  let occupied_context :=
    if occupied_context <? 0 then s64 (size_of prompt) else occupied_context in
  throw_if (occupied_context <? s64 (size_of prompt))
           || (context_capacity <? occupied_context)
    with InvalidArgument "generation occupied context is outside model capacity";
  let available := s64 (context_capacity - occupied_context) in
  let limit := Z.min requested_generation_tokens available in
  Ok {| prompt_tokens := size_of prompt;
        stable_prefix_tokens := Z.min stable_prefix (size_of prompt);
        generation_tokens := s32 limit |}.

Definition next_prefill_chunk (total_tokens offset chunk_size : Z)
    : outcome PrefillChunk :=
  throw_if (total_tokens <=? 0) || (offset <? 0) || (total_tokens <=? offset)
           || (chunk_size <=? 0)
    with InvalidArgument "invalid prefill chunk geometry";
  let count := Z.min chunk_size (s64 (total_tokens - offset)) in
  Ok {| offset := offset; count := count;
        last := s64 (offset + count) =? total_tokens |}.

(** The bound of the tile proposed at [offset]: a tile never crosses the
    boundary of the stable prefix (first lines of the loop body of
    [generate_sequence]). *)
Definition prefill_end (prompt_tokens stable_prefix offset : Z) : Z :=
  if offset <? stable_prefix then Z.min prompt_tokens stable_prefix
  else prompt_tokens.

(** The prefill loop of [generate_sequence] when the operations neither
    schedule nor resize the tiles and the output is not stopped: the tiles in
    order. One unit of fuel per tile. *)
Fixpoint prefill_chunks (fuel : nat) (prompt_tokens stable_prefix offset0 chunk_size : Z)
    : option (outcome (list PrefillChunk)) :=
  if offset0 <? prompt_tokens then
    match fuel with
    | O => None
    | S fuel =>
        match next_prefill_chunk (prefill_end prompt_tokens stable_prefix offset0)
                offset0 chunk_size with
        | Throw e => Some (Throw e)
        | Ok c =>
            match prefill_chunks fuel prompt_tokens stable_prefix
                    (s64 (offset0 + count c)) chunk_size with
            | None => None
            | Some (Throw e) => Some (Throw e)
            | Some (Ok cs) => Some (Ok (c :: cs))
            end
        end
    end
  else Some (Ok []).

(** [generate_tokens]: [Sample], [Accept], [Stop] and [Advance] are the
    callables the template receives; each may change the caller's state. *)
Section GenerateTokens.
Context {S T : Type} (sample : Z -> S -> T * S) (accept : T -> Z -> S -> S)
        (stop : T -> bool) (advance : T -> S -> S).

(** The [for] loop from [step]; [todo] counts the iterations left. *)
Fixpoint generate_from (limit step : Z) (todo : nat) (s : S)
    : TokenGenerationResult * S :=
  match todo with
  | O => ({| tokens := limit; hit_eos := false |}, s)
  | Datatypes.S todo =>
      let '(token, s) := sample step s in
      let s := accept token step s in
      if stop token then ({| tokens := step + 1; hit_eos := true |}, s)
      else
        let s := if step + 1 <? limit then advance token s else s in
        generate_from limit (step + 1) todo s
  end.

Definition generate_tokens (limit : Z) (s : S)
    : outcome (TokenGenerationResult * S) :=
  throw_if limit <? 0 with InvalidArgument "negative generation limit";
  Ok (generate_from limit 0 (Z.to_nat limit) s).
End GenerateTokens.

(** ** Lemmas *)

Lemma next_prefill_chunk_ok total off size :
  0 <= off < total -> 0 < size -> total <= s64_max ->
  next_prefill_chunk total off size =
    Ok {| offset := off; count := Z.min size (total - off);
          last := off + Z.min size (total - off) =? total |}.
Proof.
  intros Ho Hs Ht. unfold next_prefill_chunk.
  rewrite !(proj2 (Z.leb_gt _ _)) by lia. rewrite (proj2 (Z.ltb_ge _ _)) by lia.
  simpl. rewrite (s64_small (total - off)) by (unfold in_s64, s64_max in *; lia).
  rewrite s64_small by (unfold in_s64, s64_max in *; lia). done.
Qed.

Lemma prefill_end_bounds p st off :
  off < p -> off < prefill_end p st off <= p /\
  (off < st -> prefill_end p st off <= st).
Proof. unfold prefill_end. destruct (Z.ltb_spec off st); lia. Qed.

(** The tiles from [off] are contiguous, non-empty and end at [p]. *)
Inductive tiles (p st size : Z) : Z -> list PrefillChunk -> Prop :=
  | tiles_nil : tiles p st size p []
  | tiles_cons c cs :
      0 < count c <= size ->
      offset c + count c <= p ->
      (offset c < st -> offset c + count c <= st) ->
      tiles p st size (offset c + count c) cs ->
      tiles p st size (offset c) (c :: cs).

Lemma prefill_chunks_tiles p st size :
  0 < size -> p <= s64_max ->
  forall fuel off, 0 <= off <= p -> p - off <= Z.of_nat fuel ->
  exists cs, prefill_chunks fuel p st off size = Some (Ok cs) /\ tiles p st size off cs.
Proof.
  intros Hs Hp. induction fuel as [|fuel IH]; intros off Ho Hf.
  - assert (off = p) as -> by lia. exists []. simpl.
    rewrite Z.ltb_irrefl. split; [done|constructor].
  - simpl. destruct (Z.ltb_spec off p) as [Hlt|Hge].
    2:{ assert (off = p) as -> by lia. exists []. split; [done|constructor]. }
    destruct (prefill_end_bounds p st off Hlt) as [Hb Hst].
    rewrite next_prefill_chunk_ok by lia. simpl.
    set (c := Z.min size (prefill_end p st off - off)).
    rewrite s64_small by (unfold in_s64, s64_max in *; lia).
    destruct (IH (off + c)) as (cs & -> & Ht); [lia|lia|].
    eexists. split; [done|].
    by apply (tiles_cons p st size {| offset := off; count := c; last := _ |});
      simpl; [lia|lia|lia|].
Qed.

Lemma generate_from_count {S T} (sample : Z -> S -> T * S) accept stop advance
    limit step todo s :
  step + Z.of_nat todo = limit ->
  let r := (generate_from sample accept stop advance limit step todo s).1 in
  (hit_eos r = false -> tokens r = limit) /\
  (hit_eos r = true -> step < tokens r <= limit).
Proof.
  revert step s. induction todo as [|n IH]; intros step s Hl; simpl; [done|].
  destruct (sample step s) as [t s1]. destruct (stop t); simpl; [lia|].
  destruct (IH (step + 1) (if step + 1 <? limit then advance t (accept t step s1)
                           else accept t step s1)) as [H1 H2]; [lia|].
  split; [done|]. intros H. specialize (H2 H). lia.
Qed.

(** ** Properties *)

(** A prompt is admitted exactly when it is non-empty, its tokens lie in
    the vocabulary and it fits, with the occupied context, the capacity; the
    admitted plan never lets the generation outgrow the context, nor exceed
    the request, and gives all the room there is. *)
Theorem plan_generation_spec prompt vocab cap req stable occ plan :
  in_s64 cap -> in_s64 occ -> in_s32 req -> in_u64 stable ->
  size_of prompt <= s64_max ->
  plan_generation prompt vocab cap req stable occ = Ok plan <->
  (let used := if occ <? 0 then size_of prompt else occ in
   prompt <> [] /\ 0 < vocab /\ 0 <= req /\
   Forall (fun t => 0 <= t < vocab) prompt /\
   size_of prompt <= used <= cap /\
   plan = {| prompt_tokens := size_of prompt;
             stable_prefix_tokens := Z.min stable (size_of prompt);
             generation_tokens := Z.min req (cap - used) |}).
Proof.
  intros Hcap Hocc Hreq Hst Hp. pose proof (size_of_nonneg prompt) as Hnn.
  assert (existsb (fun token => (token <? 0) || (vocab <=? token)) prompt = false
          <-> Forall (fun t => 0 <= t < vocab) prompt) as Hvoc.
  { clear Hp Hnn. induction prompt as [|t l IH]; simpl; [split; constructor|].
    rewrite Forall_cons, <- IH, !orb_false_iff, Z.ltb_ge, Z.leb_gt. done. }
  unfold plan_generation. unfold in_s64, in_s32, in_u64, s64_max, s32_max in *.
  rewrite (s64_small (size_of prompt)) by (unfold in_s64, s64_max; lia).
  case_bool_decide as He; [by split; [|intros (?&_)]|].
  assert (0 < size_of prompt) as Hpos.
  { destruct prompt; [done|]. unfold size_of. simpl. lia. }
  set (used := if occ <? 0 then size_of prompt else occ).
  destruct (existsb _ prompt).
  { split; [repeat case_match; done|]. intros (_&_&_&Hf&_).
    by apply Hvoc in Hf. }
  destruct Hvoc as [Hvoc _]. specialize (Hvoc eq_refl).
  destruct (Z.leb_spec vocab 0); simpl; [by split; [|lia]|].
  destruct (Z.leb_spec cap 0); simpl; [by split; [|lia]|].
  rewrite u64_small by lia.
  destruct (Z.ltb_spec cap (size_of prompt)); simpl; [by split; [|lia]|].
  destruct (Z.ltb_spec req 0); [by split; [|lia]|].
  destruct (Z.ltb_spec used (size_of prompt)); simpl; [by split; [|lia]|].
  destruct (Z.ltb_spec cap used); simpl; [by split; [|lia]|].
  rewrite s64_small by (unfold in_s64, s64_max; lia).
  rewrite s32_small by (unfold in_s32, s32_max; lia).
  split; [intros [= <-]; repeat split; done || lia|by intros (?&?&?&?&?&->)].
Qed.

Lemma plan_generation_spec_witness :
  plan_generation [3; 1; 4] 10 8 100 2 (-1) =
    Ok {| prompt_tokens := 3; stable_prefix_tokens := 2; generation_tokens := 5 |}.
Proof.
  apply (plan_generation_spec [3; 1; 4] 10 8 100 2 (-1));
    [unfold in_s64, s64_max; lia|unfold in_s64, s64_max; lia
    |unfold in_s32, s32_max; lia|unfold in_u64, u64_max; lia|vm_compute; discriminate|].
  simpl. repeat split; try (vm_compute; congruence); try lia.
  repeat constructor; lia.
Defined.

(** The prefill loop terminates within [prompt - reused] iterations and
    its tiles partition the uncached part of the prompt: contiguous from the
    reused prefix to the end, each of 1 to [chunk_size] tokens, none crossing
    the boundary of the stable prefix (where the state is snapshotted). *)
Theorem prefill_chunks_partition prompt reused stable size :
  0 <= reused <= prompt -> prompt <= s64_max -> 0 < size ->
  exists cs, prefill_chunks (Z.to_nat (prompt - reused)) prompt stable reused size
               = Some (Ok cs) /\
             tiles prompt stable size reused cs.
Proof. intros. apply prefill_chunks_tiles; lia. Qed.

Lemma prefill_chunks_partition_witness :
  exists cs, prefill_chunks (Z.to_nat (10 - 1)) 10 6 1 4 = Some (Ok cs) /\
             tiles 10 6 4 1 cs.
Proof. apply (prefill_chunks_partition 10 1 6 4); unfold s64_max; lia. Defined.
