(* ===== verification/PrefillBudget.v ===== *)
(** * Prefill memory budgets ([engine/include/prefill_budget.h],
    [engine/include/prefill_retry.h], [engine/include/kv_admission.h],
    [backends/cuda/engine/prefill_recovery.h])

    Saturating [std::size_t] arithmetic, the choice of the prefill tile under a
    memory budget, the halving retry of a tile that ran out of memory, the
    all-or-nothing reservation of KV bytes over several arenas and the count of
    the physical pages a strided head layout touches. *)

From stdpp Require Import base list strings gmap sorting.
From Stdlib Require Import ZArith Lia.
From S2P Require Import Prelude.
From S2P Require Import GenerationPolicy.

Open Scope Z_scope.

Definition max_prefill_compute_chunk : Z := 8192.

(** ** Saturating arithmetic *)

Definition prefill_budget_add (a b : Z) : Z :=
  if u64_max - b <? a then u64_max else u64 (a + b).

Definition prefill_budget_multiply (a b : Z) : Z :=
  if negb (b =? 0) && (u64_max / b <? a) then u64_max else u64 (a * b).

Definition kv_admission_multiply (a b : Z) : Z :=
  if negb (a =? 0) && (u64_max / a <? b) then u64_max else u64 (a * b).

Definition kv_admission_round_up (bytes quantum : Z) : outcome Z :=
  throw_if quantum =? 0 with InvalidArgument "KV allocation quantum must be positive";
  let remainder := bytes mod quantum in
  Ok (if remainder =? 0 then bytes
      else prefill_budget_add bytes (u64 (quantum - remainder))).

(** ** Workspace geometry *)

(** [sizeof(float) * 8] is 32. *)
Definition prefill_workspace_row_bytes (hidden streams heads head_width : Z) : Z :=
  prefill_budget_multiply
    (Z.max (prefill_budget_multiply hidden streams)
           (prefill_budget_multiply heads head_width)) (4 * 8).

Definition prefill_workspace_headroom (limit row_bytes : Z) : Z :=
  let maximum := Z.shiftl 1 30 in
  if limit =? 0 then maximum
  else
    let tile := if maximum / 32 <? row_bytes then maximum else u64 (row_bytes * 32) in
    let minimum := prefill_budget_add (Z.shiftl 16 20) tile in
    Z.min maximum (Z.max (limit / 16) minimum).

Record PrefillMoeGeometry := {
  routes : Z;
  intermediate : Z;
  quant_group : Z;
}.

Definition activation_bytes_per_token (g : PrefillMoeGeometry) : Z :=
  if (routes g =? 0) || (intermediate g =? 0) || (quant_group g =? 0) then 0
  else
    let groups := u64 (intermediate g / quant_group g +
                       (if intermediate g mod quant_group g =? 0 then 0 else 1)) in
    prefill_budget_multiply (routes g)
      (prefill_budget_multiply groups (prefill_budget_add (quant_group g) 4)).

(** ** The prefill tile *)

Definition budget_rows (available fixed_bytes row_bytes : Z) : Z :=
  if fixed_bytes <? available then u64 (available - fixed_bytes) / row_bytes else 0.

Definition select_prefill_chunk (tokens limit available fixed_bytes row_bytes : Z)
    : outcome Z :=
  throw_if (tokens <=? 0) || (limit <=? 0) || (row_bytes =? 0)
    with InvalidArgument "invalid prefill workspace geometry";
  let wanted := Z.min (Z.min tokens limit) max_prefill_compute_chunk in
  let rows := budget_rows available fixed_bytes row_bytes in
  let selected := s64 (Z.min (u64 wanted) rows) in
  if selected =? wanted then Ok selected
  else
    let minimum := Z.min wanted 256 in
    if selected <? minimum then Ok 0
    else Ok (Z.quot selected 256 * 256).

Definition pressure_prefill_chunk (tokens limit available fixed_bytes row_bytes : Z)
    : outcome Z :=
  preferred ← select_prefill_chunk tokens limit available fixed_bytes row_bytes;
  if negb (preferred =? 0) then Ok preferred
  else
    let rows := budget_rows available fixed_bytes row_bytes in
    Ok (Z.max 1 (s64 (Z.min (Z.min (Z.min (u64 tokens) (u64 limit))
                                   (u64 max_prefill_compute_chunk)) rows))).

(** ** Retry of a tile that exhausted a resource *)

(** [error.what()]; [OtherException] stands for a value not derived from
    [std::exception]. *)
Definition exn_what (e : exn) : option string :=
  match e with
  | InvalidArgument w | RuntimeError w | LogicError w | OutOfRange w | LengthError w
  | OverflowError w | ResourceExhausted w | BackendFailure w | InputError _ w => Some w
  | BadAlloc => Some "std::bad_alloc"%string
  | OtherException => None
  end.

Definition prefill_resource_failure (failure : exn) : bool :=
  match failure with
  | ResourceExhausted _ => true
  | BadAlloc => true
  | OtherException => false
  | _ =>
      match exn_what failure with
      | None => false
      | Some message =>
          String.prefix "CUDA pinned allocation failed:" message
          || String.prefix "CUDA process VRAM limit exceeded:" message
          || String.prefix "CUDA VRAM limit exceeded:" message
          || String.prefix "insufficient VRAM for context growth;" message
          || String.prefix "kv_memory_insufficient:" message
      end
  end.

Definition prefill_failure_message (failure : exn) : string :=
  match exn_what failure with
  | Some message => message
  | None => "unknown resource failure"
  end.

Definition smaller_prefill_chunk (current : Z) (failure : exn) : outcome Z :=
  if negb (prefill_resource_failure failure) then Throw failure
  else
    throw_if current <=? 1
      with ResourceExhausted ("prefill resource exhausted at minimum chunk=1: "
                              +:+ prefill_failure_message failure);
    Ok (Z.max 1 (Z.quot current 2)).

(** [retry_batch_prefill] replays the uncommitted row in smaller tiles after a
    resource failure. The backend's operations are the arguments:
    [prefill_once] runs one tile, [discard_prefill] and [reclaim] drop the
    failed row's state. *)
Section RetryBatchPrefill.
Context {S Sample : Type}
        (prefill_once : PrefillChunk -> S -> outcome Sample * S)
        (discard_prefill reclaim : S -> S)
        (prompt_size : Z).

(** The [for] loop of the lambda [run]; at most one unit of fuel per tile. *)
Fixpoint run_tiles (fuel : nat) (width end_ off : Z) (result : Sample) (s : S)
    : option (outcome Sample * S) :=
  if off <? end_ then
    match fuel with
    | O => None
    | Datatypes.S fuel =>
        let count := Z.min width (end_ - off) in
        match prefill_once {| offset := off; count := count;
                              last := off + count =? prompt_size |} s with
        | (Throw e, s) => Some (Throw e, s)
        | (Ok result, s) => run_tiles fuel width end_ (off + count) result s
        end
    end
  else Some (Ok result, s).

(** [run(start)]. *)
Definition run (width start end_ : Z) (zero : Sample) (s : S) :=
  run_tiles (Z.to_nat (end_ - start)) width end_ start zero s.

(** The [for (;;)] loop: discard, reclaim, halve the width, replay from 0.
    The last component is [request->prefill_retry_width]. *)
Fixpoint retry_loop (fuel : nat) (width retry_width end_ : Z) (zero : Sample)
    (failure : exn) (s : S) : option (outcome Sample * S * Z) :=
  match fuel with
  | O => None
  | Datatypes.S fuel =>
      let s := reclaim (discard_prefill s) in
      match smaller_prefill_chunk width failure with
      | Throw e => Some (Throw e, s, retry_width)
      | Ok width =>
          match run width 0 end_ zero s with
          | None => None
          | Some (Ok result, s) => Some (Ok result, s, width)
          | Some (Throw failure, s) =>
              if negb (prefill_resource_failure failure)
              then Some (Throw failure, s, width)
              else retry_loop fuel width width end_ zero failure s
          end
      end
  end.

(** The function body; [failure] is the optional failure of an earlier
    attempt, [retry_width] the request's [prefill_retry_width]. *)
Definition retry_batch_prefill (fuel : nat) (chunk : PrefillChunk)
    (retry_width : Z) (failure : option exn) (zero : Sample) (s : S)
    : option (outcome Sample * S * Z) :=
  let width := if 0 <? retry_width then Z.min (count chunk) retry_width
               else count chunk in
  let end_ := offset chunk + count chunk in
  let replay failure s :=
    if negb (prefill_resource_failure failure) then Some (Throw failure, s, retry_width)
    else retry_loop fuel width retry_width end_ zero failure s in
  match failure with
  | Some failure => replay failure s
  | None =>
      match run width (offset chunk) end_ zero s with
      | None => None
      | Some (Ok result, s) => Some (Ok result, s, retry_width)
      | Some (Throw failure, s) => replay failure s
      end
  end.
End RetryBatchPrefill.

(** ** Reservation over arenas *)

(** [KvAdmissionBytes]: free bytes by arena. *)
Abbreviation KvAdmissionBytes := (gmap Z Z).

Definition arena_fits (remaining : KvAdmissionBytes) (d : Z * Z) : bool :=
  match remaining !! d.1 with
  | None => false
  | Some free => negb (free <? d.2)
  end.

Definition arena_take (remaining : KvAdmissionBytes) (d : Z * Z) : KvAdmissionBytes :=
  alter (fun free => u64 (free - d.2)) d.1 remaining.

(** [KvAdmissionBudget::reserve]: the first loop checks, the second commits. *)
Definition reserve (remaining demand : KvAdmissionBytes) : bool * KvAdmissionBytes :=
  if forallb (arena_fits remaining) (map_to_list demand)
  then (true, foldl arena_take remaining (map_to_list demand))
  else (false, remaining).

(** ** Pages of a strided head layout *)

(** One iteration of the loop over heads; the state is
    [(pages, previous_end)]. *)
Definition mapping_head (stride extent quantum head : Z) (st : Z * Z) : Z * Z :=
  let '(pages, previous_end) := st in
  let begin := kv_admission_multiply head stride in
  let end_ := prefill_budget_add begin extent in
  let first := Z.max (begin / quantum) previous_end in
  let last := u64 (end_ / quantum + (if end_ mod quantum =? 0 then 0 else 1)) in
  (if first <? last then prefill_budget_add pages (u64 (last - first)) else pages,
   Z.max previous_end last).

Fixpoint mapping_heads (stride extent quantum head : Z) (todo : nat) (st : Z * Z)
    : Z * Z :=
  match todo with
  | O => st
  | S todo =>
      mapping_heads stride extent quantum (u64 (head + 1)) todo
        (mapping_head stride extent quantum head st)
  end.

Definition kv_admission_mapping_bytes (heads maximum tokens row_bytes quantum : Z)
    : outcome Z :=
  throw_if (quantum =? 0) || (maximum <? tokens)
    with InvalidArgument "invalid KV mapping geometry";
  if tokens =? 0 then Ok 0
  else
    let stride := kv_admission_multiply maximum row_bytes in
    let extent := kv_admission_multiply tokens row_bytes in
    let '(pages, _) :=
      mapping_heads stride extent quantum 0 (Z.to_nat heads) (0, 0) in
    Ok (kv_admission_multiply pages quantum).

(** ** Lemmas *)

Lemma prefill_budget_add_sat a b :
  in_u64 a -> in_u64 b -> prefill_budget_add a b = Z.min u64_max (a + b).
Proof.
  unfold prefill_budget_add, in_u64, u64_max. intros Ha Hb.
  destruct (Z.ltb_spec (2 ^ 64 - 1 - b) a); [lia|]. rewrite u64_small; lia.
Qed.

Lemma sat_mul_guard a b :
  0 < b -> 0 <= a -> u64_max / b < a <-> u64_max < a * b.
Proof.
  intros Hb Ha. split; intros H.
  - pose proof (Z.mul_succ_div_gt u64_max b Hb). nia.
  - apply Z.div_lt_upper_bound; lia.
Qed.

Lemma prefill_budget_multiply_sat a b :
  in_u64 a -> in_u64 b -> prefill_budget_multiply a b = Z.min u64_max (a * b).
Proof.
  unfold prefill_budget_multiply, in_u64. intros Ha Hb.
  destruct (Z.eqb_spec b 0) as [->|Hb0]; simpl.
  { rewrite Z.mul_0_r. done. }
  destruct (Z.ltb_spec (u64_max / b) a) as [H|H].
  - apply sat_mul_guard in H; lia.
  - assert (~ u64_max < a * b) by (rewrite <- sat_mul_guard; lia).
    rewrite u64_small; unfold u64_max in *; nia.
Qed.

Lemma kv_admission_multiply_sat a b :
  in_u64 a -> in_u64 b -> kv_admission_multiply a b = Z.min u64_max (a * b).
Proof.
  intros. rewrite Z.mul_comm, <- prefill_budget_multiply_sat by done.
  unfold kv_admission_multiply, prefill_budget_multiply.
  by rewrite (Z.mul_comm a b).
Qed.

Lemma budget_rows_spec available fixed row :
  in_u64 available -> in_u64 fixed -> 0 < row ->
  forall n, 0 < n -> n <= budget_rows available fixed row <-> fixed + n * row <= available.
Proof.
  unfold in_u64, u64_max, budget_rows. intros Ha Hf Hr n Hn.
  destruct (Z.ltb_spec fixed available).
  - rewrite u64_small by lia. split; intros H'.
    + pose proof (Z.mul_div_le (available - fixed) row Hr). nia.
    + apply Z.div_le_lower_bound; lia.
  - split; nia.
Qed.

Lemma budget_rows_range available fixed row :
  in_u64 available -> in_u64 fixed -> 0 < row ->
  0 <= budget_rows available fixed row <= u64_max.
Proof.
  unfold in_u64, u64_max, budget_rows. intros Ha Hf Hr.
  destruct (Z.ltb_spec fixed available); [|lia].
  rewrite u64_small by lia. split; [apply Z.div_pos; lia|].
  apply Z.div_le_upper_bound; nia.
Qed.

(** The tile [select_prefill_chunk] returns, in closed form. *)
Lemma select_prefill_chunk_eq tokens limit available fixed row :
  0 < tokens <= s64_max -> 0 < limit <= s64_max -> 0 < row ->
  in_u64 available -> in_u64 fixed ->
  select_prefill_chunk tokens limit available fixed row =
    Ok (let wanted := Z.min (Z.min tokens limit) max_prefill_compute_chunk in
        let selected := Z.min wanted (budget_rows available fixed row) in
        if selected =? wanted then wanted
        else if selected <? Z.min wanted 256 then 0
        else selected / 256 * 256).
Proof.
  intros Ht Hl Hr Ha Hf. unfold select_prefill_chunk, max_prefill_compute_chunk.
  rewrite !(proj2 (Z.leb_gt _ _)) by lia. rewrite (proj2 (Z.eqb_neq row 0)) by lia.
  cbn [orb]. pose proof (budget_rows_range available fixed row Ha Hf Hr).
  unfold s64_max, u64_max in *.
  rewrite (u64_small (Z.min _ _)) by lia.
  rewrite s64_small by (unfold in_s64, s64_max; lia).
  destruct (Z.eqb_spec (Z.min (Z.min (Z.min tokens limit) 8192)
    (budget_rows available fixed row)) (Z.min (Z.min tokens limit) 8192)) as [->|];
    [done|].
  destruct (Z.ltb_spec (Z.min (Z.min (Z.min tokens limit) 8192)
    (budget_rows available fixed row)) (Z.min (Z.min (Z.min tokens limit) 8192) 256));
    [done|].
  by rewrite Z.quot_div_nonneg by lia.
Qed.

(** ** Properties *)

(** The tile chosen under a memory budget fits it. A non-zero tile [r]
    needs at most [available] bytes, never exceeds the prompt, the caller's
    limit or 8192 rows, is the whole wanted tile or a multiple of 256, and no
    larger such tile fits; zero is returned only when not even
    [min(wanted, 256)] rows fit. *)
Theorem select_prefill_chunk_fits tokens limit available fixed row :
  0 < tokens <= s64_max -> 0 < limit <= s64_max -> 0 < row ->
  in_u64 available -> in_u64 fixed ->
  let wanted := Z.min (Z.min tokens limit) max_prefill_compute_chunk in
  let fits n := fixed + n * row <= available in
  exists r, select_prefill_chunk tokens limit available fixed row = Ok r /\
    ((r = 0 /\ ~ fits (Z.min wanted 256)) \/
     (0 < r <= wanted /\ fits r /\
      (r = wanted \/ (r mod 256 = 0 /\ ~ fits wanted /\
                      forall n, n <= wanted -> n mod 256 = 0 -> fits n -> n <= r)))).
Proof.
  intros Ht Hl Hr Ha Hf wanted fits. rewrite select_prefill_chunk_eq by done.
  fold wanted. set (rows := budget_rows available fixed row).
  assert (0 < wanted <= 8192) by (unfold wanted, max_prefill_compute_chunk; lia).
  assert (forall n, 0 < n -> n <= rows <-> fits n) as Hfits
    by (apply budget_rows_spec; done).
  eexists. split; [done|]. cbv zeta.
  destruct (Z.eqb_spec (Z.min wanted rows) wanted) as [He|He].
  { right. split; [lia|]. split; [apply Hfits; lia|by left]. }
  destruct (Z.ltb_spec (Z.min wanted rows) (Z.min wanted 256)).
  { left. split; [done|]. rewrite <- Hfits; lia. }
  right. assert (Z.min wanted rows = rows) as -> by lia.
  pose proof (Z.mul_div_le rows 256 ltac:(lia)) as H1.
  assert (0 < rows / 256) by (apply Z.div_str_pos; lia).
  split; [lia|]. split; [apply Hfits; lia|]. right.
  split; [by rewrite Z.mod_mul|]. split; [rewrite <- Hfits; lia|].
  intros n Hn Hm Hfn. destruct (Z.le_gt_cases n 0); [lia|].
  apply Hfits in Hfn; [|lia].
  apply Z.div_exact in Hm; [|lia]. rewrite Hm.
  pose proof (Z.div_le_mono n rows 256 ltac:(lia) Hfn). lia.
Qed.

Lemma select_prefill_chunk_fits_witness :
  exists r, select_prefill_chunk 5000 4096 100000 20000 32 = Ok r /\ r = 2304 /\
            20000 + r * 32 <= 100000.
Proof.
  destruct (select_prefill_chunk_fits 5000 4096 100000 20000 32)
    as (r & Hr & _); [unfold s64_max; lia|unfold s64_max; lia|lia
      |unfold in_u64, u64_max; lia|unfold in_u64, u64_max; lia|].
  exists r. split; [exact Hr|]. vm_compute in Hr. injection Hr as <-. lia.
Defined.

(** The pressure tile always makes progress: it is at least one row and
    at most the prompt, the limit and 8192 rows; whenever at least one row
    fits the budget, the tile it returns fits. *)
Theorem pressure_prefill_chunk_progress tokens limit available fixed row :
  0 < tokens <= s64_max -> 0 < limit <= s64_max -> 0 < row ->
  in_u64 available -> in_u64 fixed ->
  exists r, pressure_prefill_chunk tokens limit available fixed row = Ok r /\
    1 <= r <= Z.min (Z.min tokens limit) max_prefill_compute_chunk /\
    (fixed + 1 * row <= available -> fixed + r * row <= available).
Proof.
  intros Ht Hl Hr Ha Hf. unfold pressure_prefill_chunk.
  destruct (select_prefill_chunk_fits tokens limit available fixed row)
    as (p & -> & Hp); [done..|]. simpl.
  destruct (Z.eqb_spec p 0) as [->|Hne]; simpl.
  2:{ exists p. split; [done|]. destruct Hp as [[??]|(?&?&_)]; [done|]. lia. }
  pose proof (budget_rows_range available fixed row Ha Hf Hr).
  unfold max_prefill_compute_chunk in *. unfold s64_max, u64_max in *.
  rewrite !u64_small by lia.
  rewrite s64_small by (unfold in_s64, s64_max; lia).
  eexists. split; [done|]. split; [lia|]. intros H1.
  apply budget_rows_spec in H1; [|done..|lia].
  apply (budget_rows_spec available fixed row Ha Hf Hr); lia.
Qed.

Lemma pressure_prefill_chunk_progress_witness :
  exists r, pressure_prefill_chunk 5000 4096 21000 20000 32 = Ok r /\ 1 <= r.
Proof.
  destruct (pressure_prefill_chunk_progress 5000 4096 21000 20000 32)
    as (r & Hr & Hb & _); [unfold s64_max; lia|unfold s64_max; lia|lia
      |unfold in_u64, u64_max; lia|unfold in_u64, u64_max; lia|].
  exists r. split; [exact Hr|lia].
Defined.

Lemma foldl_arena_take_lookup l : forall (m : KvAdmissionBytes) k,
  NoDup l.*1 ->
  foldl arena_take m l !! k =
    match (list_to_map l : KvAdmissionBytes) !! k with
    | None => m !! k
    | Some bytes => (fun free => u64 (free - bytes)) <$> m !! k
    end.
Proof.
  induction l as [|[a b] l IH]; intros m k Hnd; [simpl; by rewrite lookup_empty|].
  apply NoDup_cons in Hnd as [Ha Hnd]. simpl in *. rewrite IH by done.
  unfold arena_take. simpl. rewrite lookup_alter, lookup_insert.
  destruct (decide (a = k)) as [->|]; [|done].
  by rewrite (not_elem_of_list_to_map_1 l k).
Qed.

(** A KV reservation over several arenas is all-or-nothing. It is granted
    exactly when every arena of the demand exists and has the bytes free; then
    each arena loses exactly its demand (never wrapping below zero) and no
    other arena changes. A refused demand leaves every arena as it was. *)
Theorem reserve_atomic (remaining demand : KvAdmissionBytes) :
  map_Forall (fun _ v => in_u64 v) remaining ->
  map_Forall (fun _ v => in_u64 v) demand ->
  let fits := forall a d, demand !! a = Some d -> exists f, remaining !! a = Some f /\ d <= f in
  let '(granted, after) := reserve remaining demand in
  (granted = true <-> fits) /\
  (granted = false -> after = remaining) /\
  (granted = true -> forall a,
     after !! a = (fun f => f - default 0 (demand !! a)) <$> remaining !! a) /\
  map_Forall (fun _ v => in_u64 v) after.
Proof.
  intros Hr Hd fits. unfold reserve.
  assert (forallb (arena_fits remaining) (map_to_list demand) = true <-> fits) as Hfits.
  { rewrite forallb_forall. unfold fits, arena_fits. split.
    - intros H a d Ha. specialize (H (a, d)). simpl in H.
      rewrite <- list_elem_of_In, elem_of_map_to_list in H. specialize (H Ha).
      destruct (remaining !! a) as [f|]; [|done]. exists f. split; [done|].
      destruct (Z.ltb_spec f d); [done|lia].
    - intros H [a d] Hin. apply list_elem_of_In, elem_of_map_to_list in Hin. simpl.
      destruct (H a d Hin) as (f & -> & Hle).
      destruct (Z.ltb_spec f d); [lia|done]. }
  destruct (forallb _ _) eqn:Hb.
  2:{ split; [by rewrite Hfits|]. split; [done|]. split; [done|done]. }
  specialize (proj1 Hfits eq_refl) as Hf.
  assert (forall a, foldl arena_take remaining (map_to_list demand) !! a =
            (fun f => f - default 0 (demand !! a)) <$> remaining !! a) as Hafter.
  { intros a. rewrite foldl_arena_take_lookup by apply NoDup_fst_map_to_list.
    rewrite list_to_map_to_list. destruct (demand !! a) as [d|] eqn:Ha.
    - destruct (Hf a d Ha) as (f & Hfa & Hle). rewrite Hfa. simpl.
      specialize (Hr _ _ Hfa). specialize (Hd _ _ Ha).
      unfold in_u64, u64_max in *. rewrite u64_small by lia. done.
    - destruct (remaining !! a); simpl; [by rewrite Z.sub_0_r|done]. }
  split; [done|]. split; [done|]. split; [done|].
  intros a v Hv. simpl in *. rewrite Hafter in Hv.
  destruct (remaining !! a) as [f|] eqn:Hfa; [|done]. injection Hv as <-.
  specialize (Hr _ _ Hfa). destruct (demand !! a) as [d|] eqn:Ha; simpl.
  - destruct (Hf a d Ha) as (f' & Hfa' & Hle). specialize (Hd _ _ Ha).
    unfold in_u64 in *. simplify_eq. lia.
  - unfold in_u64 in *. lia.
Qed.

Lemma reserve_atomic_witness :
  (reserve {[0 := 100; 1 := 50]} {[0 := 60; 1 := 50]}).2 !! 0 = Some 40.
Proof.
  assert (map_Forall (fun _ v : Z => in_u64 v) ({[0 := 100; 1 := 50]} : KvAdmissionBytes)) as H1.
  { apply map_Forall_insert_2; [unfold in_u64, u64_max; lia|].
    apply map_Forall_singleton. unfold in_u64, u64_max; lia. }
  assert (map_Forall (fun _ v : Z => in_u64 v) ({[0 := 60; 1 := 50]} : KvAdmissionBytes)) as H2.
  { apply map_Forall_insert_2; [unfold in_u64, u64_max; lia|].
    apply map_Forall_singleton. unfold in_u64, u64_max; lia. }
  pose proof (reserve_atomic _ _ H1 H2) as H. cbv zeta in H.
  destruct (reserve _ _) as [g after] eqn:E.
  destruct H as (_ & _ & H & _).
  assert (g = true) as Hg by (vm_compute in E; congruence).
  exact (H Hg 0).
Defined.

(** ** Pages touched by a strided layout *)

(** Head [h] owns the bytes [h * stride, h * stride + extent); [page] is
    touched when it holds one of them. *)
Definition touches (stride extent quantum h page : Z) : Prop :=
  exists byte, h * stride <= byte < h * stride + extent /\ byte / quantum = page.

Lemma touches_iff stride extent q h page :
  0 < q -> 0 < extent ->
  touches stride extent q h page <->
  h * stride / q <= page < (h * stride + extent + (q - 1)) / q.
Proof.
  intros Hq He. unfold touches. set (b := h * stride). split.
  - intros (x & Hx & <-). split; [apply Z.div_le_mono; lia|].
    apply Z.lt_le_trans with (x / q + 1); [lia|].
    replace (x / q + 1) with ((x + 1 * q) / q) by (rewrite Z.div_add; lia).
    apply Z.div_le_mono; lia.
  - intros [H1 H2]. exists (Z.max b (page * q)).
    assert (page * q < b + extent).
    { pose proof (Z.mul_div_le (b + extent + (q - 1)) q Hq). nia. }
    split; [lia|]. symmetry. apply Z.div_unique_pos with (Z.max b (page * q) - q * page).
    + pose proof (Z.mul_succ_div_gt b q Hq). nia.
    + lia.
Qed.

Lemma ceil_div_guard x q :
  0 < q -> 0 <= x -> x / q + (if x mod q =? 0 then 0 else 1) = (x + (q - 1)) / q.
Proof.
  intros Hq Hx. pose proof (Z.div_mod x q ltac:(lia)) as Hd.
  pose proof (Z.mod_pos_bound x q Hq) as Hm.
  destruct (Z.eqb_spec (x mod q) 0) as [E|E].
  - apply Z.div_unique_pos with (q - 1); lia.
  - apply Z.div_unique_pos with (x mod q - 1); lia.
Qed.

(** The loop invariant: after the heads below [h] the count is the number of
    distinct pages they touch, and [previous_end] bounds those pages. *)
Definition mapping_inv (stride extent q h : Z) (st : Z * Z) : Prop :=
  exists ps : list Z,
    NoDup ps /\ size_of ps = st.1 /\
    (forall p, p ∈ ps <-> exists h', 0 <= h' < h /\ touches stride extent q h' p) /\
    st.2 = (if h =? 0 then 0 else ((h - 1) * stride + extent + (q - 1)) / q) /\
    (forall p, p ∈ ps -> p < st.2) /\ st.1 <= st.2.

Lemma mapping_inv_step stride extent q h st :
  0 < q -> 0 < extent -> extent <= stride -> 0 <= h ->
  (h + 1) * stride + extent + q <= u64_max ->
  mapping_inv stride extent q h st ->
  mapping_inv stride extent q (h + 1) (mapping_head stride extent q h st).
Proof.
  intros Hq He Hs Hh Hmax (ps & Hnd & Hsz & Hps & Hend & Hlt & Hle).
  destruct st as [pages pend]. simpl in *.
  assert (0 <= h * stride) by nia.
  assert (h * stride + stride + extent + q <= u64_max) as Hm by lia.
  assert (h <= h * stride) by nia.
  assert (in_u64 h /\ in_u64 stride /\ in_u64 extent /\ in_u64 (h * stride))
    as (?&?&?&?) by (unfold in_u64, u64_max in *; lia).
  unfold mapping_head. rewrite kv_admission_multiply_sat by done.
  rewrite (Z.min_r u64_max (h * stride)) by lia.
  rewrite prefill_budget_add_sat by done.
  rewrite (Z.min_r u64_max (h * stride + extent)) by lia.
  rewrite ceil_div_guard by lia.
  set (b := h * stride) in *. set (e := (b + extent + (q - 1)) / q).
  assert (b / q < e) as Hbe.
  { apply Z.lt_le_trans with (b / q + 1); [lia|].
    replace (b / q + 1) with ((b + 1 * q) / q) by (rewrite Z.div_add; lia).
    apply Z.div_le_mono; lia. }
  assert (0 <= b / q) by (apply Z.div_pos; lia).
  assert (e <= u64_max) by (apply Z.div_le_upper_bound; nia).
  rewrite (u64_small e) by (unfold u64_max in *; lia).
  assert (0 <= pend <= e) as Hpe.
  { rewrite Hend. destruct (Z.eqb_spec h 0); [lia|].
    split; [apply Z.div_pos; nia|apply Z.div_le_mono; nia]. }
  assert (forall p, b / q <= p < pend -> p ∈ ps) as Hold.
  { intros p Hp. apply Hps. destruct (Z.eqb_spec h 0) as [->|Hh0]; [lia|].
    exists (h - 1). split; [lia|]. apply touches_iff; [lia..|].
    rewrite <- Hend. split; [|lia].
    apply Z.le_trans with (b / q); [apply Z.div_le_mono; nia|lia]. }
  set (first := Z.max (b / q) pend).
  assert (forall p, touches stride extent q h p <-> b / q <= p < e) as Htouch
    by (intros; by apply touches_iff).
  set (fresh := (fun i => first + Z.of_nat i) <$> seq 0 (Z.to_nat (e - first))).
  assert (forall p, p ∈ fresh <-> first <= p < e) as Hfresh.
  { intros p. unfold fresh. rewrite list_elem_of_fmap. setoid_rewrite elem_of_seq.
    split; [intros (i & -> & ?); lia|].
    intros Hp. exists (Z.to_nat (p - first)). lia. }
  assert (size_of fresh = Z.max 0 (e - first)) as Hfsz.
  { unfold size_of, fresh. rewrite length_fmap, length_seq. lia. }
  pose proof (size_of_nonneg ps).
  exists (ps ++ fresh). split.
  { apply NoDup_app. split; [done|]. split.
    - intros p Hp Hp'%Hfresh. specialize (Hlt _ Hp). unfold first in *. lia.
    - apply NoDup_fmap_2_strong; [intros; lia|apply NoDup_seq]. }
  simpl. rewrite size_of_app, Hfsz. split.
  { destruct (Z.ltb_spec first e); [|lia].
    rewrite u64_small by (unfold first, u64_max in *; lia).
    rewrite prefill_budget_add_sat by (unfold first, in_u64, u64_max in *; lia).
    unfold first in *. lia. }
  split.
  { intros p. rewrite elem_of_app, Hps, Hfresh. split.
    - intros [(h' & ? & ?)|Hp]; [exists h'; split; [lia|done]|].
      exists h. split; [lia|]. apply Htouch. unfold first in *. lia.
    - intros (h' & Hh' & Ht). destruct (decide (h' = h)) as [->|].
      + apply Htouch in Ht. destruct (decide (p < pend)); [|right; unfold first; lia].
        left. apply Hps, Hold. lia.
      + left. exists h'. split; [lia|done]. }
  split.
  { rewrite (proj2 (Z.eqb_neq (h + 1) 0)) by lia.
    replace (h + 1 - 1) with h by lia. fold b. fold e. lia. }
  split.
  { intros p [Hp|Hp%Hfresh]%elem_of_app; [specialize (Hlt _ Hp)|]; lia. }
  destruct (Z.ltb_spec first e); [|lia].
  rewrite u64_small by (unfold first, u64_max in *; lia).
  rewrite prefill_budget_add_sat by (unfold first, in_u64, u64_max in *; lia).
  unfold first in *. lia.
Qed.

Lemma mapping_heads_inv stride extent q todo : forall h st,
  0 < q -> 0 < extent -> extent <= stride -> 0 <= h ->
  (h + Z.of_nat todo) * stride + extent + q <= u64_max ->
  mapping_inv stride extent q h st ->
  mapping_inv stride extent q (h + Z.of_nat todo)
    (mapping_heads stride extent q h todo st).
Proof.
  induction todo as [|todo IH]; intros h st Hq He Hs Hh Hmax Hinv; cbn [mapping_heads].
  { by rewrite Z.add_0_r. }
  replace (h + Z.of_nat (S todo)) with (h + 1 + Z.of_nat todo) in * by lia.
  assert ((h + 1) * stride <= (h + 1 + Z.of_nat todo) * stride)
    by (apply Z.mul_le_mono_nonneg_r; lia).
  assert (h + 1 <= (h + 1) * stride) by nia.
  rewrite u64_small by (unfold u64_max in *; lia).
  apply IH; [done..|lia|done|]. apply mapping_inv_step; [done..|lia|done].
Qed.

(** The mapping-page count is exact. When the layout fits the address
    space, the bytes returned are the quantum times the number of distinct
    physical pages that hold at least one byte of a head's prefix, although
    neighbouring heads may share a page. *)
Theorem kv_admission_mapping_bytes_union heads maximum tokens row quantum :
  0 < quantum -> 0 < row -> 0 <= heads -> 0 < tokens <= maximum ->
  heads * (maximum * row) + tokens * row + quantum <= u64_max ->
  (heads * (maximum * row) + tokens * row + quantum) * quantum <= u64_max ->
  exists ps : list Z,
    NoDup ps /\
    (forall p, p ∈ ps <->
       exists h, 0 <= h < heads /\ touches (maximum * row) (tokens * row) quantum h p) /\
    kv_admission_mapping_bytes heads maximum tokens row quantum
      = Ok (size_of ps * quantum).
Proof.
  intros Hq Hr Hh Ht Hmax Hmaxq. unfold kv_admission_mapping_bytes.
  rewrite (proj2 (Z.eqb_neq quantum 0)) by lia.
  rewrite (proj2 (Z.ltb_ge maximum tokens)) by lia. cbn [orb].
  rewrite (proj2 (Z.eqb_neq tokens 0)) by lia.
  destruct (Z.eq_dec heads 0) as [->|Hh0].
  { simpl. exists []. split; [constructor|]. split; [|done].
    intros p. split; [set_solver|]. intros (h & ? & _). lia. }
  assert (0 < tokens * row) by nia. assert (tokens * row <= maximum * row) by nia.
  assert (maximum <= maximum * row) by nia. assert (row <= maximum * row) by nia.
  assert (maximum * row <= heads * (maximum * row)) by nia.
  rewrite !kv_admission_multiply_sat by (unfold in_u64; lia).
  rewrite !Z.min_r by lia.
  set (stride := maximum * row) in *. set (extent := tokens * row) in *.
  destruct (mapping_heads_inv stride extent quantum (Z.to_nat heads) 0 (0, 0))
    as (ps & Hnd & Hsz & Hps & Hend & _ & Hle); [lia..| |].
  { exists []. repeat split; try done; try constructor; try set_solver.
    intros (h' & ? & _). lia. }
  destruct (mapping_heads _ _ _ _ _ _) as [pages pend]. cbn [fst snd] in *.
  rewrite Z.add_0_l, Z2Nat.id in * by lia. exists ps. split; [done|]. split; [done|].
  rewrite (proj2 (Z.eqb_neq heads 0)) in Hend by lia.
  assert (pend <= heads * stride + extent + quantum).
  { rewrite Hend. apply Z.div_le_upper_bound; nia. }
  pose proof (size_of_nonneg ps).
  rewrite kv_admission_multiply_sat by (unfold in_u64 in *; lia).
  rewrite Z.min_r by nia. by rewrite Hsz.
Qed.

Lemma kv_admission_mapping_bytes_union_witness :
  exists ps : list Z, kv_admission_mapping_bytes 3 10 4 100 512 = Ok (size_of ps * 512).
Proof.
  destruct (kv_admission_mapping_bytes_union 3 10 4 100 512) as (ps & _ & _ & H);
    [lia|lia|lia|lia|vm_compute; discriminate|vm_compute; discriminate|].
  exists ps. exact H.
Defined.

(** ** Retraction order *)

Section RetractionOrder.
Context {R : Type} (produced prompt_size : R -> Z).

(** The comparison of [retraction_order]: fewer produced tokens first, then
    the longer prompt. *)
Definition retract_before (a b : R) : bool :=
  if negb (produced a =? produced b) then produced a <? produced b
  else prompt_size b <? prompt_size a.

Definition retraction_order (requests : list R) : list R :=
  stable_sort retract_before requests.

(** Rows are retracted cheapest replay first. The order is a permutation
    of the running rows, no row precedes one with fewer produced tokens, nor
    one with as many tokens and a longer prompt, and equal rows keep their
    arrival order. *)
Theorem retraction_order_sorted (requests : list R) :
  retraction_order requests ≡ₚ requests /\
  StronglySorted (fun a b => produced a < produced b \/
    (produced a = produced b /\ prompt_size b <= prompt_size a))
    (retraction_order requests) /\
  (forall p n, filter (fun r => produced r = p /\ prompt_size r = n)
                 (retraction_order requests) =
               filter (fun r => produced r = p /\ prompt_size r = n) requests).
Proof.
  assert (forall x y, retract_before x y = true -> retract_before y x = false) as Hasym.
  { unfold retract_before. intros x y.
    destruct (Z.eqb_spec (produced x) (produced y)),
      (Z.eqb_spec (produced y) (produced x)); simpl; lia. }
  assert (forall x y z, retract_before y x = false -> retract_before z y = false ->
            retract_before z x = false) as Hweak.
  { unfold retract_before. intros x y z.
    destruct (Z.eqb_spec (produced y) (produced x)),
      (Z.eqb_spec (produced z) (produced y)),
      (Z.eqb_spec (produced z) (produced x)); simpl; lia. }
  unfold retraction_order. split; [apply stable_sort_perm|]. split.
  - eapply StronglySorted_mono; [|by apply stable_sort_sorted].
    intros a b. unfold retract_before.
    destruct (Z.eqb_spec (produced b) (produced a)); simpl; lia.
  - intros p n. destruct (decide (Exists (fun r => produced r = p /\ prompt_size r = n)
      requests)) as [(z & Hz & <- & <-)%list.Exists_exists|Hno].
    + rewrite (list_filter_iff _ (fun y => tied retract_before z y = true)
        (stable_sort _ _)), (list_filter_iff _ (fun y => tied retract_before z y = true)
        requests); [by apply stable_sort_stable|..].
      all: intros y; unfold tied, retract_before;
        destruct (Z.eqb_spec (produced z) (produced y)),
          (Z.eqb_spec (produced y) (produced z)); simpl; lia.
    + rewrite !filter_none; [done|..]; intros y Hy HP; apply Hno, list.Exists_exists;
        exists y; (split; [|done]); [done|].
      by rewrite <- (stable_sort_perm retract_before requests).
Qed.
End RetractionOrder.

(** ** Termination of the prefill retry *)

Section RetryLemmas.
Context {S Sample : Type}
        (prefill_once : PrefillChunk -> S -> outcome Sample * S)
        (discard_prefill reclaim : S -> S)
        (prompt_size : Z).

Lemma run_tiles_total width end_ fuel : forall off result s,
  1 <= width -> end_ - off <= Z.of_nat fuel ->
  is_Some (run_tiles prefill_once prompt_size fuel width end_ off result s).
Proof.
  induction fuel as [|fuel IH]; intros off result s Hw Hf; cbn [run_tiles].
  - rewrite (proj2 (Z.ltb_ge _ _)) by lia. eauto.
  - destruct (Z.ltb_spec off end_); [|eauto].
    destruct (prefill_once _ s) as [[r|e] s']; [|eauto].
    apply IH; lia.
Qed.

Lemma run_total width start end_ zero s :
  1 <= width -> is_Some (run prefill_once prompt_size width start end_ zero s).
Proof. intros. apply run_tiles_total; lia. Qed.

Definition exhausted (e : exn) : Prop :=
  exists m, e = ResourceExhausted
    ("prefill resource exhausted at minimum chunk=1: " +:+ m).

Lemma retry_loop_total end_ zero fuel : forall width retry_width failure s,
  1 <= width -> width < 2 ^ Z.of_nat fuel ->
  prefill_resource_failure failure = true ->
  exists o s' w', retry_loop prefill_once discard_prefill reclaim prompt_size
      fuel width retry_width end_ zero failure s = Some (o, s', w') /\
    match o with
    | Ok r => 1 <= w' < width /\
        exists s0, run prefill_once prompt_size w' 0 end_ zero s0 = Some (Ok r, s')
    | Throw e => prefill_resource_failure e = false \/
                 (exhausted e /\ (width = 1 \/ w' = 1))
    end.
Proof.
  induction fuel as [|fuel IH]; intros width rw failure s Hw Hf Hr; [simpl in Hf; lia|].
  cbn [retry_loop]. unfold smaller_prefill_chunk. rewrite Hr. cbn [negb].
  destruct (Z.leb_spec width 1).
  { do 3 eexists. split; [done|]. right. split; [eexists; done|]. left; lia. }
  rewrite Z.quot_div_nonneg by lia.
  assert (1 <= width / 2 < width) by
    (split; [apply Z.div_le_lower_bound; lia|apply Z.div_lt; lia]).
  rewrite Z.max_r by lia.
  destruct (run_total (width / 2) 0 end_ zero (reclaim (discard_prefill s)))
    as [[o s'] Hrun]; [lia|]. rewrite Hrun.
  destruct o as [r|e].
  { do 3 eexists. split; [done|]. split; [lia|]. eauto. }
  destruct (prefill_resource_failure e) eqn:He; cbn [negb].
  2:{ do 3 eexists. split; [done|]. by left. }
  destruct (IH (width / 2) (width / 2) e s') as (o & s2 & w2 & Heq & Ho); [lia| |done|].
  { apply Z.div_lt_upper_bound; [lia|]. rewrite <- Z.pow_succ_r by lia.
    by rewrite <- Nat2Z.inj_succ. }
  do 3 eexists. split; [done|]. destruct o as [r|e'].
  - destruct Ho as [? [s0 ?]]. split; [lia|]. eauto.
  - destruct Ho as [?|[? Hx]]; [by left|]. right. split; [done|].
    destruct Hx as [Hx| ->]; [|by right]. right.
    clear IH Hrun. destruct fuel as [|fuel]; [simpl in Hf; lia|].
    cbn [retry_loop] in Heq. unfold smaller_prefill_chunk in Heq.
    rewrite He in Heq. cbn [negb] in Heq.
    rewrite (proj2 (Z.leb_le (width / 2) 1)) in Heq by lia.
    injection Heq as <- <- <-. lia.
Qed.

(** The replay of a batched prefill terminates after at most
    [log2(width) + 1] attempts. A sample it returns comes from an attempt
    that ran every tile; the failure it reports is either not a resource
    failure, or the exhaustion reported only after a one-token tile. *)
Theorem retry_batch_prefill_terminates fuel chunk retry_width failure zero s :
  1 <= count chunk < 2 ^ Z.of_nat fuel ->
  exists o s' w',
    retry_batch_prefill prefill_once discard_prefill reclaim prompt_size
      fuel chunk retry_width failure zero s = Some (o, s', w') /\
    match o with
    | Ok r => exists w start s0, 1 <= w <= count chunk /\
        (start = 0 \/ start = offset chunk) /\
        run prefill_once prompt_size w start (offset chunk + count chunk) zero s0
          = Some (Ok r, s')
    | Throw e => prefill_resource_failure e = false \/ exhausted e
    end.
Proof.
  intros Hc. unfold retry_batch_prefill.
  set (width := if 0 <? retry_width then Z.min (count chunk) retry_width
                else count chunk).
  assert (1 <= width <= count chunk) as Hw
    by (unfold width; destruct (Z.ltb_spec 0 retry_width); lia).
  assert (forall failure s, exists o s' w',
    (if negb (prefill_resource_failure failure) then Some (Throw failure, s, retry_width)
     else retry_loop prefill_once discard_prefill reclaim prompt_size fuel width
            retry_width (offset chunk + count chunk) zero failure s) = Some (o, s', w') /\
    match o with
    | Ok r => exists w start s0, 1 <= w <= count chunk /\
        (start = 0 \/ start = offset chunk) /\
        run prefill_once prompt_size w start (offset chunk + count chunk) zero s0
          = Some (Ok r, s')
    | Throw e => prefill_resource_failure e = false \/ exhausted e
    end) as Hreplay.
  { intros e s1. destruct (prefill_resource_failure e) eqn:He; cbn [negb].
    2:{ do 3 eexists. split; [done|]. by left. }
    destruct (retry_loop_total (offset chunk + count chunk) zero fuel width
      retry_width e s1) as (o & s2 & w2 & -> & Ho); [lia|lia|done|].
    do 3 eexists. split; [done|]. destruct o as [r|e']; [|by destruct Ho as [?|[??]]; auto].
    destruct Ho as [? [s0 ?]]. exists w2, 0, s0. split; [lia|]. auto. }
  destruct failure as [e|]; [apply Hreplay|].
  destruct (run_total width (offset chunk) (offset chunk + count chunk) zero s)
    as [[o s'] Hrun]; [lia|]. rewrite Hrun.
  destruct o as [r|e]; [|apply Hreplay].
  do 3 eexists. split; [done|]. exists width, (offset chunk), s. auto.
Qed.
End RetryLemmas.

(** A backend whose tile fits only up to 3 rows. *)
Definition small_backend (c : PrefillChunk) (log : list Z) : outcome Z * list Z :=
  if 3 <? count c then (Throw BadAlloc, log) else (Ok (offset c + count c), log ++ [count c]).

Lemma retry_batch_prefill_terminates_witness :
  exists o s' w', retry_batch_prefill small_backend (fun _ => []) id 10 4
      {| offset := 0; count := 10; last := true |} 0 None 0 [] = Some (o, s', w') /\
    o = Ok 10 /\ s' = [2; 2; 2; 2; 2].
Proof.
  destruct (retry_batch_prefill_terminates small_backend (fun _ => []) id 10 4
      {| offset := 0; count := 10; last := true |} 0 None 0 [])
    as (o & s' & w' & H & _); [vm_compute; split; discriminate || reflexivity|].
  exists o, s', w'. split; [exact H|].
  vm_compute in H. injection H as <- <- _. split; reflexivity.
Defined.

Lemma kv_admission_round_up_spec bytes quantum :
  in_u64 bytes -> 0 < quantum -> in_u64 quantum -> bytes + quantum <= u64_max ->
  exists r, kv_admission_round_up bytes quantum = Ok r /\
            r mod quantum = 0 /\ bytes <= r < bytes + quantum.
Proof.
  unfold in_u64, u64_max. intros Hb Hq Hqm Hs. unfold kv_admission_round_up.
  rewrite (proj2 (Z.eqb_neq quantum 0)) by lia. eexists. split; [done|].
  pose proof (Z.mod_pos_bound bytes quantum Hq) as Hm.
  pose proof (Z.div_mod bytes quantum ltac:(lia)) as Hd.
  destruct (Z.eqb_spec (bytes mod quantum) 0) as [E|E]; [lia|].
  rewrite u64_small by lia.
  rewrite prefill_budget_add_sat by (unfold in_u64, u64_max; lia).
  unfold u64_max. rewrite Z.min_r by lia. split; [|lia].
  replace (bytes + (quantum - bytes mod quantum)) with ((bytes / quantum + 1) * quantum) by lia.
  apply Z.mod_mul. lia.
Qed.
