(* ===== verification/PagedKv.v ===== *)
(** * Physical pages of the paged KV cache ([engine/include/paged_kv_allocator.h])

    [PagedKvPageAllocator]: a free list over a growing prefix of the page pool.
    Exceptions carry the state they leave behind. *)

From stdpp Require Import base list strings gmap.
From Stdlib Require Import ZArith Lia.
From S2P Require Import Prelude.

Open Scope Z_scope.

Record PagedKvPageAllocator := {
  maximum_pages : Z;
  high_watermark : Z;
  live_pages : Z;
  peak_live_pages : Z;
  allocation_count : Z;
  reuse_count : Z;
  release_count : Z;
  allocated : list bool;
  free_pages : list Z;
}.

(** ** Operations *)

Definition make (maximum_pages : Z) : outcome PagedKvPageAllocator :=
  throw_if (maximum_pages =? 0) || (u64 s32_max <? maximum_pages)
    with InvalidArgument "Paged KV physical page count must fit int32";
  Ok {| maximum_pages := maximum_pages; high_watermark := 0; live_pages := 0;
        peak_live_pages := 0; allocation_count := 0; reuse_count := 0;
        release_count := 0; allocated := []; free_pages := [] |}.

(** [allocated_[static_cast<std::size_t>(page)] = flag]. *)
Definition set_flag (page : Z) (flag : bool) (flags : list bool) : list bool :=
  <[Z.to_nat (u64 page) := flag]> flags.

(** First [while] of [allocate]: reuse freed pages. [todo] is
    [count - pages.size()]. *)
Fixpoint reuse_pages (todo : nat) (pages : list Z) (a : PagedKvPageAllocator)
    : nat * list Z * PagedKvPageAllocator :=
  match todo, pop_back (free_pages a) with
  | O, _ | _, None => (todo, pages, a)
  | S todo', Some (rest, page) =>
      reuse_pages todo' (pages ++ [page])
        {| maximum_pages := maximum_pages a; high_watermark := high_watermark a;
           live_pages := live_pages a; peak_live_pages := peak_live_pages a;
           allocation_count := allocation_count a;
           reuse_count := u64 (reuse_count a + 1);
           release_count := release_count a;
           allocated := set_flag page true (allocated a);
           free_pages := rest |}
  end.

(** Second [while]: extend the watermark; it may throw with the pages taken so
    far. *)
Fixpoint fresh_pages (todo : nat) (pages : list Z) (a : PagedKvPageAllocator)
    : option exn * list Z * PagedKvPageAllocator :=
  match todo with
  | O => (None, pages, a)
  | S todo' =>
      if maximum_pages a <=? high_watermark a
      then (Some (RuntimeError "Paged KV physical page pool exhausted"), pages, a)
      else
        fresh_pages todo' (pages ++ [s32 (high_watermark a)])
          {| maximum_pages := maximum_pages a;
             high_watermark := u64 (high_watermark a + 1);
             live_pages := live_pages a; peak_live_pages := peak_live_pages a;
             allocation_count := allocation_count a; reuse_count := reuse_count a;
             release_count := release_count a;
             allocated := allocated a ++ [true]; free_pages := free_pages a |}
  end.

Definition set_pages (flags : list bool) (free : list Z) (a : PagedKvPageAllocator) :=
  {| maximum_pages := maximum_pages a; high_watermark := high_watermark a;
     live_pages := live_pages a; peak_live_pages := peak_live_pages a;
     allocation_count := allocation_count a; reuse_count := reuse_count a;
     release_count := release_count a; allocated := flags; free_pages := free |}.

Definition release_page (page : Z) (a : PagedKvPageAllocator) : PagedKvPageAllocator :=
  set_pages (set_flag page false (allocated a)) (free_pages a ++ [page]) a.

Definition release_unchecked (pages : list Z) (a : PagedKvPageAllocator)
    : PagedKvPageAllocator :=
  foldl (fun a page =>
    match allocated a !! Z.to_nat (u64 page) with
    | Some true => release_page page a
    | _ => a
    end) a pages.

Definition allocate (count : Z) (a : PagedKvPageAllocator)
    : outcome (list Z) * PagedKvPageAllocator :=
  if u64 (maximum_pages a - live_pages a) <? count
  then (Throw (RuntimeError "Paged KV physical page pool exhausted"), a)
  else
    let '(todo, pages, a) := reuse_pages (Z.to_nat count) [] a in
    match fresh_pages todo pages a with
    | (Some e, pages, a) => (Throw e, release_unchecked pages a)
    | (None, pages, a) =>
        let live := u64 (live_pages a + size_of pages) in
        (Ok pages,
         {| maximum_pages := maximum_pages a; high_watermark := high_watermark a;
            live_pages := live; peak_live_pages := Z.max (peak_live_pages a) live;
            allocation_count := u64 (allocation_count a + size_of pages);
            reuse_count := reuse_count a; release_count := release_count a;
            allocated := allocated a; free_pages := free_pages a |})
    end.

(** The check [owns] makes, also the first three conditions of [release]. *)
Definition owns (a : PagedKvPageAllocator) (page : Z) : bool :=
  (0 <=? page) && (u64 page <? size_of (allocated a)) &&
  default false (allocated a !! Z.to_nat (u64 page)).

(** The validation loop of [release]; [unique] is the set of pages seen. *)
Fixpoint releasable (a : PagedKvPageAllocator) (unique : gset Z) (pages : list Z) : bool :=
  match pages with
  | [] => true
  | page :: pages =>
      if negb (owns a page) || bool_decide (page ∈ unique) then false
      else releasable a ({[page]} ∪ unique) pages
  end.

Definition release (pages : list Z) (a : PagedKvPageAllocator)
    : outcome unit * PagedKvPageAllocator :=
  if negb (releasable a ∅ pages)
  then (Throw (LogicError "Paged KV attempted to release an invalid physical page"), a)
  else
    let a := foldl (fun a page => release_page page a) a pages in
    (Ok tt,
     {| maximum_pages := maximum_pages a; high_watermark := high_watermark a;
        live_pages := u64 (live_pages a - size_of pages);
        peak_live_pages := peak_live_pages a;
        allocation_count := allocation_count a; reuse_count := reuse_count a;
        release_count := u64 (release_count a + size_of pages);
        allocated := allocated a; free_pages := free_pages a |}).

(** ** Invariant *)

(** The page tables are consistent: the flags cover the watermark, and the free
    list holds exactly the cleared pages, once each. *)
Record tables_ok (a : PagedKvPageAllocator) : Prop := {
  ok_max : 0 < maximum_pages a <= s32_max;
  ok_high : size_of (allocated a) = high_watermark a;
  ok_bound : high_watermark a <= maximum_pages a;
  ok_nodup : NoDup (free_pages a);
  ok_free : forall p, p ∈ free_pages a <->
              0 <= p /\ allocated a !! Z.to_nat p = Some false;
}.

Record alloc_inv (a : PagedKvPageAllocator) : Prop := {
  inv_tables : tables_ok a;
  inv_live : live_pages a = Z.of_nat (count_true (allocated a));
  inv_peak : live_pages a <= peak_live_pages a <= maximum_pages a;
  inv_count : u64 (allocation_count a - release_count a) = live_pages a;
}.

(** The set of pages handed out and not yet released. *)
Definition live (a : PagedKvPageAllocator) (p : Z) : Prop :=
  0 <= p /\ allocated a !! Z.to_nat p = Some true.

(** ** Lemmas *)

Lemma owns_live a p : in_s32 p -> owns a p = true <-> live a p.
Proof.
  unfold in_s32, s32_max, owns, live. intros Hp.
  destruct (Z.leb_spec 0 p); simpl; [|split; [done|lia]].
  rewrite u64_small by lia. split.
  - intros [_ H']%andb_true_iff. split; [done|].
    destruct (allocated a !! Z.to_nat p) as [[]|]; done.
  - intros [_ Hl]. rewrite Hl. simpl. rewrite andb_true_r. apply Z.ltb_lt.
    unfold size_of. assert (Z.to_nat p < length (allocated a))%nat; [|lia].
    by eapply lookup_lt_Some.
Qed.

Lemma table_range a p b :
  tables_ok a -> 0 <= p -> allocated a !! Z.to_nat p = Some b ->
  0 <= p < high_watermark a /\ in_s32 p /\ u64 p = p.
Proof.
  intros Ha Hp Hl. apply lookup_lt_Some in Hl.
  pose proof (ok_high _ Ha). pose proof (ok_bound _ Ha). pose proof (ok_max _ Ha).
  unfold in_s32, size_of, s32_max in *. rewrite u64_small by lia. lia.
Qed.

Definition same_counters (a b : PagedKvPageAllocator) : Prop :=
  maximum_pages b = maximum_pages a /\ live_pages b = live_pages a /\
  peak_live_pages b = peak_live_pages a /\
  allocation_count b = allocation_count a /\ release_count b = release_count a.

(** What a loop of [allocate] does: the pages [got] move from not live to
    live. *)
Record takes (a b : PagedKvPageAllocator) (got : list Z) : Prop := {
  takes_ok : tables_ok b;
  takes_counters : same_counters a b;
  takes_nodup : NoDup got;
  takes_fresh : forall p, p ∈ got -> ~ live a p;
  takes_live : forall p, live b p <-> live a p \/ p ∈ got;
  takes_count : count_true (allocated b) = (count_true (allocated a) + length got)%nat;
}.

Lemma takes_refl a : tables_ok a -> takes a a [].
Proof.
  intros Ha. split; [done|repeat split|by apply NoDup_nil_2|set_solver|set_solver|simpl; lia].
Qed.

Lemma takes_cons a b c p got :
  takes a b [p] -> takes b c got -> takes a c (p :: got).
Proof.
  intros [? (?&?&?&?&?) ? Hf1 Hl1 Hc1] [? (?&?&?&?&?) ? Hf2 Hl2 Hc2].
  split; [done|repeat split; congruence| | | |].
  - apply NoDup_cons. split; [|done]. intros Hp. apply (Hf2 _ Hp), Hl1. set_solver.
  - intros q [->|Hq]%elem_of_cons; [apply Hf1; set_solver|].
    intros Hlq. apply (Hf2 _ Hq), Hl1. by left.
  - intros q. rewrite Hl2, Hl1. set_solver.
  - simpl in *. lia.
Qed.

Lemma reuse_one a rest page :
  tables_ok a -> free_pages a = rest ++ [page] ->
  takes a {| maximum_pages := maximum_pages a; high_watermark := high_watermark a;
             live_pages := live_pages a; peak_live_pages := peak_live_pages a;
             allocation_count := allocation_count a;
             reuse_count := u64 (reuse_count a + 1);
             release_count := release_count a;
             allocated := set_flag page true (allocated a);
             free_pages := rest |} [page].
Proof.
  intros Ha Hfree. pose proof (ok_nodup _ Ha) as Hnd. rewrite Hfree in Hnd.
  apply NoDup_app in Hnd as (Hnd & Hdisj & _).
  assert (page ∈ free_pages a) as Hin by (rewrite Hfree; set_solver).
  apply (ok_free _ Ha) in Hin as [Hp0 Hpf].
  destruct (table_range _ _ _ Ha Hp0 Hpf) as (Hr & _ & Hu).
  assert (forall q, 0 <= q -> q <> page -> Z.to_nat page <> Z.to_nat q) as Hne by lia.
  unfold set_flag. rewrite Hu. split; simpl.
  - destruct Ha as [Hm Hh Hb _ Hf]. split; simpl; try done.
    + unfold size_of in *. by rewrite length_insert.
    + intros q. split.
      * intros Hq. assert (q ∈ free_pages a) as Hq' by (rewrite Hfree; set_solver).
        apply Hf in Hq' as [Hq0 Hqf]. split; [done|].
        rewrite list_lookup_insert_ne; [done|]. apply Hne; [done|].
        intros ->. apply (Hdisj _ Hq). set_solver.
      * intros [Hq0 Hq]. destruct (decide (q = page)) as [->|Hqp].
        { rewrite list_lookup_insert_eq in Hq by (by eapply lookup_lt_Some). done. }
        rewrite list_lookup_insert_ne in Hq by auto.
        assert (q ∈ free_pages a) as Hq' by (by apply Hf). rewrite Hfree in Hq'.
        set_solver.
  - repeat split.
  - apply NoDup_singleton.
  - intros q ->%list_elem_of_singleton [_ Hq]. congruence.
  - intros q. unfold live. simpl. rewrite list_elem_of_singleton.
    destruct (decide (q = page)) as [->|Hqp].
    + rewrite list_lookup_insert_eq by (by eapply lookup_lt_Some). tauto.
    + destruct (decide (0 <= q)); [|tauto].
      rewrite list_lookup_insert_ne by auto. tauto.
  - rewrite count_true_set by done. lia.
Qed.

Lemma reuse_pages_spec todo : forall pages a,
  tables_ok a ->
  exists todo' got b, reuse_pages todo pages a = (todo', pages ++ got, b) /\
    takes a b got /\ todo = (todo' + length got)%nat /\
    high_watermark b = high_watermark a /\ (todo' = O \/ free_pages b = []).
Proof.
  induction todo as [|todo IH]; intros pages a Ha; cbn [reuse_pages].
  { exists O, [], a. rewrite app_nil_r. split; [done|]. split; [by apply takes_refl|].
    auto. }
  destruct (pop_back (free_pages a)) as [[rest page]|] eqn:Hpop.
  - apply pop_back_Some in Hpop. pose proof (reuse_one _ _ _ Ha Hpop) as Ht.
    destruct (IH (pages ++ [page]) _ (takes_ok _ _ _ Ht))
      as (todo' & got & b & -> & Hb & -> & Hh & Hd).
    exists todo', (page :: got), b. rewrite <- app_assoc. split; [done|].
    split; [by eapply takes_cons|]. split; [simpl; lia|]. done.
  - apply pop_back_None in Hpop. exists (S todo), [], a.
    rewrite app_nil_r. split; [done|]. split; [by apply takes_refl|].
    split; [simpl; lia|]. auto.
Qed.

Lemma fresh_one a :
  tables_ok a -> high_watermark a < maximum_pages a ->
  takes a {| maximum_pages := maximum_pages a;
             high_watermark := u64 (high_watermark a + 1);
             live_pages := live_pages a; peak_live_pages := peak_live_pages a;
             allocation_count := allocation_count a; reuse_count := reuse_count a;
             release_count := release_count a;
             allocated := allocated a ++ [true]; free_pages := free_pages a |}
    [s32 (high_watermark a)].
Proof.
  intros Ha Hlt. destruct Ha as [Hm Hh Hb Hnd Hf]. unfold s32_max in Hm.
  pose proof (size_of_nonneg (allocated a)).
  rewrite u64_small by lia. rewrite s32_small by (unfold in_s32, s32_max; lia).
  assert (forall q, 0 <= q -> q <> high_watermark a ->
    (allocated a ++ [true]) !! Z.to_nat q = allocated a !! Z.to_nat q) as Hne.
  { intros q Hq0 Hq. unfold size_of in *.
    destruct (decide (Z.to_nat q < length (allocated a))%nat).
    - by rewrite lookup_app_l.
    - rewrite (lookup_ge_None_2 (allocated a)) by lia.
      apply lookup_ge_None_2. rewrite length_app. simpl. lia. }
  assert ((allocated a ++ [true]) !! Z.to_nat (high_watermark a) = Some true) as Heq.
  { unfold size_of in *. rewrite lookup_app_r by lia.
    replace (Z.to_nat (high_watermark a) - length (allocated a))%nat with O by lia.
    done. }
  assert (allocated a !! Z.to_nat (high_watermark a) = None) as Hnone.
  { apply lookup_ge_None_2. unfold size_of in *. lia. }
  split; simpl.
  - split; simpl; try done.
    + rewrite size_of_app. unfold size_of at 2. simpl. lia.
    + lia.
    + intros q. rewrite Hf. destruct (decide (q = high_watermark a)) as [->|Hq].
      * rewrite Heq, Hnone. naive_solver.
      * split; intros [? Hl]; (split; [done|]); [rewrite Hne|rewrite Hne in Hl]; done.
  - repeat split.
  - apply NoDup_singleton.
  - intros q ->%list_elem_of_singleton [_ Hq]. congruence.
  - intros q. unfold live. simpl. rewrite list_elem_of_singleton.
    destruct (decide (q = high_watermark a)) as [->|Hq].
    + rewrite Heq. split; [tauto|]. intros _. split; [lia|done].
    + destruct (decide (0 <= q)); [|tauto]. rewrite Hne by done. tauto.
  - rewrite count_true_app. done.
Qed.

Lemma fresh_pages_spec todo : forall pages a,
  tables_ok a -> high_watermark a + Z.of_nat todo <= maximum_pages a ->
  exists got b, fresh_pages todo pages a = (None, pages ++ got, b) /\
    takes a b got /\ length got = todo.
Proof.
  induction todo as [|todo IH]; intros pages a Ha Hle; cbn [fresh_pages].
  { exists [], a. rewrite app_nil_r. split; [done|]. split; [by apply takes_refl|done]. }
  rewrite (proj2 (Z.leb_gt _ _)) by lia.
  pose proof (fresh_one a Ha ltac:(lia)) as Ht.
  pose proof (ok_max _ Ha). pose proof (ok_bound _ Ha). unfold s32_max in *.
  pose proof (ok_high _ Ha). pose proof (size_of_nonneg (allocated a)).
  destruct (IH (pages ++ [s32 (high_watermark a)]) _ (takes_ok _ _ _ Ht))
    as (got & b & -> & Hb & Hlen); [simpl; rewrite u64_small by lia; lia|].
  exists (s32 (high_watermark a) :: got), b. rewrite <- app_assoc. split; [done|].
  split; [by eapply takes_cons|]. simpl. lia.
Qed.

Lemma takes_trans a b c l k : takes a b l -> takes b c k -> takes a c (l ++ k).
Proof.
  intros [? (?&?&?&?&?) ? Hf1 Hl1 Hc1] [? (?&?&?&?&?) ? Hf2 Hl2 Hc2].
  split; [done|repeat split; congruence| | | |].
  - apply NoDup_app. split; [done|]. split; [|done].
    intros q Hq Hk. apply (Hf2 _ Hk), Hl1. by right.
  - intros q [Hq|Hq]%elem_of_app; [by apply Hf1|].
    intros Hlq. apply (Hf2 _ Hq), Hl1. by left.
  - intros q. rewrite Hl2, Hl1, elem_of_app. tauto.
  - rewrite length_app. lia.
Qed.

Lemma all_live_count l : (forall i, l !! i <> Some false) -> count_true l = length l.
Proof.
  induction l as [|b l IH]; intros H; [done|].
  assert (b = true) as -> by (destruct b; [done|by destruct (H O)]).
  unfold count_true in *. rewrite filter_cons_True by done. simpl. f_equal.
  apply IH. intros i. apply (H (S i)).
Qed.

Lemma alloc_room a todo :
  alloc_inv a -> Z.of_nat todo <= maximum_pages a - live_pages a ->
  exists got b, takes a b got /\ length got = todo /\
    (let '(todo', pages, a') := reuse_pages todo [] a in fresh_pages todo' pages a')
      = (None, got, b).
Proof.
  intros [Ha Hl _ _] Hroom.
  destruct (reuse_pages_spec todo [] a Ha) as (todo' & got & b & -> & Hb & -> & Hh & Hd).
  destruct (fresh_pages_spec todo' ([] ++ got) b (takes_ok _ _ _ Hb))
    as (got' & c & -> & Hc & Hlen).
  { pose proof (ok_bound _ (takes_ok _ _ _ Hb)) as Hbb.
    destruct (takes_counters _ _ _ Hb) as (-> & _).
    destruct Hd as [->|Hd]; [destruct (takes_counters _ _ _ Hb) as (<- & _); lia|].
    assert (count_true (allocated b) = length (allocated b)) as Hall.
    { apply all_live_count. intros i Hi.
      assert (Z.of_nat i ∈ free_pages b) as Hin.
      { apply (ok_free _ (takes_ok _ _ _ Hb)). rewrite Nat2Z.id. split; [lia|done]. }
      rewrite Hd in Hin. set_solver. }
    pose proof (takes_count _ _ _ Hb). pose proof (ok_high _ (takes_ok _ _ _ Hb)).
    unfold size_of in *. lia. }
  exists (got ++ got'), c. split; [by eapply takes_trans|].
  split; [rewrite length_app; lia|done].
Qed.

(** Releasing one live page. *)
Lemma release_one a p :
  tables_ok a -> live a p ->
  let b := release_page p a in
  tables_ok b /\ same_counters a b /\ high_watermark b = high_watermark a /\
  (forall q, live b q <-> live a q /\ q <> p) /\
  count_true (allocated a) = S (count_true (allocated b)).
Proof.
  intros Ha [Hp0 Hp]. destruct (table_range _ _ _ Ha Hp0 Hp) as (Hr & _ & Hu).
  unfold release_page, set_pages, set_flag. rewrite Hu. simpl.
  destruct Ha as [Hm Hh Hb Hnd Hf].
  assert (forall q, 0 <= q -> q <> p ->
    <[Z.to_nat p:=false]> (allocated a) !! Z.to_nat q = allocated a !! Z.to_nat q) as Hne.
  { intros q Hq Hqp. apply list_lookup_insert_ne. lia. }
  assert (<[Z.to_nat p:=false]> (allocated a) !! Z.to_nat p = Some false) as Heq.
  { apply list_lookup_insert_eq. by eapply lookup_lt_Some. }
  assert (p ∉ free_pages a) as Hpf.
  { intros [_ Hpf]%Hf. congruence. }
  split; [split; simpl|split; [repeat split|split; [done|split]]].
  - done.
  - unfold size_of in *. by rewrite length_insert.
  - done.
  - apply NoDup_app. split; [done|]. split; [|apply NoDup_singleton]. set_solver.
  - intros q. rewrite elem_of_app, list_elem_of_singleton, Hf.
    destruct (decide (q = p)) as [->|Hqp].
    + rewrite Heq. naive_solver.
    + destruct (decide (0 <= q)); [|naive_solver lia]. rewrite Hne by done. tauto.
  - intros q. unfold live. simpl. destruct (decide (q = p)) as [->|Hqp].
    + rewrite Heq. naive_solver.
    + destruct (decide (0 <= q)); [|tauto]. rewrite Hne by done. tauto.
  - by apply count_true_clear.
Qed.

Lemma release_many pages : forall a,
  tables_ok a -> NoDup pages -> (forall p, p ∈ pages -> live a p) ->
  let b := foldl (fun a page => release_page page a) a pages in
  tables_ok b /\ same_counters a b /\
  (forall q, live b q <-> live a q /\ q ∉ pages) /\
  count_true (allocated a) = (count_true (allocated b) + length pages)%nat.
Proof.
  induction pages as [|p pages IH]; intros a Ha Hnd Hl; simpl.
  { split; [done|]. split; [repeat split|]. split; [set_solver|lia]. }
  apply NoDup_cons in Hnd as [Hp Hnd].
  destruct (release_one a p Ha (Hl p ltac:(set_solver))) as (H1 & H2 & _ & H3 & H4).
  destruct (IH _ H1 Hnd) as (I1 & I2 & I3 & I4).
  { intros q Hq. apply H3. split; [apply Hl; set_solver|]. by intros ->. }
  split; [done|]. split.
  { destruct H2 as (?&?&?&?&?), I2 as (?&?&?&?&?). repeat split; congruence. }
  split; [|lia]. intros q. rewrite I3, H3. set_solver.
Qed.

Lemma release_many_length pages : forall a,
  length (allocated (foldl (fun a page => release_page page a) a pages)) =
  length (allocated a).
Proof.
  induction pages as [|p pages IH]; intros a; [done|].
  simpl. rewrite IH. simpl. unfold set_flag. by rewrite length_insert.
Qed.

Lemma releasable_spec a pages : forall seen,
  (forall p, p ∈ pages -> in_s32 p) ->
  releasable a seen pages = true <->
  NoDup pages /\ (forall p, p ∈ pages -> live a p /\ p ∉ seen).
Proof.
  induction pages as [|p pages IH]; intros seen Hr; simpl.
  { split; [|done]. intros _. split; [by apply NoDup_nil_2|set_solver]. }
  assert (owns a p = true <-> live a p) as Ho by (apply owns_live, Hr; set_solver).
  specialize (IH ({[p]} ∪ seen) ltac:(set_solver)).
  destruct (owns a p) eqn:E; simpl.
  - case_bool_decide as Hs.
    + split; [done|]. intros [_ H']. destruct (H' p); set_solver.
    + rewrite IH, NoDup_cons. split.
      * intros [Hnd H']. split; [split; [|done]; intros Hp; destruct (H' p Hp); set_solver|].
        intros q [->|Hq]%elem_of_cons; [split; [by apply Ho|done]|].
        destruct (H' q Hq). set_solver.
      * intros [[Hp Hnd] H']. split; [done|]. intros q Hq.
        destruct (H' q ltac:(set_solver)). split; [done|]. set_solver.
  - split; [done|]. intros [_ H']. destruct (H' p ltac:(set_solver)) as [Hlp _].
    apply Ho in Hlp. done.
Qed.

Lemma allocate_correct a count :
  alloc_inv a -> 0 <= count <= s32_max ->
  let '(o, b) := allocate count a in
  alloc_inv b /\
  if count <=? maximum_pages a - live_pages a then
    exists pages, o = Ok pages /\ size_of pages = count /\ NoDup pages /\
      (forall p, p ∈ pages -> 0 <= p < maximum_pages a /\ ~ live a p) /\
      (forall p, live b p <-> live a p \/ p ∈ pages) /\
      live_pages b = live_pages a + count
  else o = Throw (RuntimeError "Paged KV physical page pool exhausted") /\ b = a.
Proof.
  intros Ha Hc. pose proof (ok_max _ (inv_tables _ Ha)) as Hmax.
  pose proof (inv_live _ Ha) as Hl. pose proof (inv_peak _ Ha) as Hp.
  pose proof (inv_count _ Ha) as Hcnt. unfold s32_max in *.
  unfold allocate. rewrite u64_small by lia.
  destruct (Z.ltb_spec (maximum_pages a - live_pages a) count).
  { rewrite (proj2 (Z.leb_gt _ _)) by lia. done. }
  rewrite (proj2 (Z.leb_le _ _)) by lia.
  destruct (alloc_room a (Z.to_nat count) Ha) as (got & b & Hb & Hlen & Heq); [lia|].
  destruct (reuse_pages _ _ _) as [[todo' pages] a']. rewrite Heq.
  destruct (takes_counters _ _ _ Hb) as (Hmx & Hlv & Hpk & Hac & Hrc).
  pose proof (takes_count _ _ _ Hb) as Hct.
  pose proof (takes_ok _ _ _ Hb) as Hok.
  assert (Z.of_nat (count_true (allocated b)) <= maximum_pages b) as Hle.
  { pose proof (count_true_le (allocated b)). pose proof (ok_high _ Hok).
    pose proof (ok_bound _ Hok). unfold size_of in *. lia. }
  assert (size_of got = count) as Hsz by (unfold size_of; lia).
  assert (u64 (live_pages b + size_of got) = live_pages a + count) as Hu.
  { rewrite u64_small; lia. }
  split.
  - split; simpl; rewrite ?Hu.
    + by destruct Hok; split.
    + lia.
    + rewrite Hmx in *. lia.
    + rewrite Hac, Hrc, Hsz. rewrite <- Hcnt. unfold u64 in *.
      rewrite Zminus_mod_idemp_l. rewrite <- (Z.mod_small (_ mod _ + count) (2 ^ 64)).
      * rewrite Zplus_mod_idemp_l. f_equal. lia.
      * lia.
  - exists got. split; [done|]. split; [done|]. split; [apply Hb|].
    split; [|split; [exact (takes_live _ _ _ Hb)|exact Hu]].
    intros p Hpg. split; [|by apply (takes_fresh _ _ _ Hb)].
    assert (live b p) as [Hp0 Hpl] by (apply (takes_live _ _ _ Hb); by right).
    destruct (table_range _ _ _ Hok Hp0 Hpl). pose proof (ok_bound _ Hok). lia.
Qed.

Lemma release_correct a pages :
  alloc_inv a -> (forall p, p ∈ pages -> in_s32 p) ->
  let '(o, b) := release pages a in
  alloc_inv b /\
  ((o = Ok tt /\ NoDup pages /\ (forall p, p ∈ pages -> live a p) /\
    (forall p, live b p <-> live a p /\ p ∉ pages) /\
    (forall p, p ∈ pages -> p ∈ free_pages b) /\
    live_pages b = live_pages a - size_of pages) \/
   (is_ok o = false /\ b = a /\ ~ (NoDup pages /\ forall p, p ∈ pages -> live a p))).
Proof.
  intros Ha Hr. unfold release.
  pose proof (releasable_spec a pages ∅ Hr) as Hrel.
  destruct (releasable a ∅ pages); simpl.
  2:{ split; [done|]. right. split; [done|]. split; [done|]. intros [Hnd Hl].
      destruct Hrel as [_ Hrel]. enough (false = true) by done. apply Hrel.
      set_solver. }
  destruct Hrel as [Hrel _]. destruct (Hrel eq_refl) as [Hnd Hl].
  assert (forall p, p ∈ pages -> live a p) as Hl' by (intros p Hp; by apply Hl).
  destruct (release_many pages a (inv_tables _ Ha) Hnd Hl') as (Hb & Hs & Hlive & Hct).
  set (b := foldl (fun a page => release_page page a) a pages) in *.
  destruct Hs as (Hmx & Hlv & Hpk & Hac & Hrc).
  pose proof (inv_live _ Ha) as Hla. pose proof (inv_peak _ Ha) as Hp.
  pose proof (inv_count _ Ha) as Hcnt. pose proof (ok_max _ (inv_tables _ Ha)) as Hmax.
  unfold s32_max in Hmax. pose proof (size_of_nonneg pages).
  assert (u64 (live_pages b - size_of pages) = live_pages a - size_of pages) as Hu.
  { rewrite u64_small; unfold size_of in *; lia. }
  split.
  - split; simpl; rewrite ?Hu.
    + by destruct Hb; split.
    + unfold size_of in *. lia.
    + rewrite Hpk, Hmx. lia.
    + rewrite Hac, Hrc, <- Hu, Hlv, <- Hcnt. unfold u64 in *.
      rewrite Zminus_mod_idemp_r, Zminus_mod_idemp_l. f_equal. lia.
  - left. split; [done|]. split; [done|]. split; [done|]. split; [done|].
    split; [|done].
    intros p Hp'. apply (ok_free _ Hb). destruct (Hl' p Hp') as [Hp0 Hpl].
    split; [done|]. destruct (allocated b !! Z.to_nat p) as [[]|] eqn:E; [|done|].
    + destruct (Hlive p) as [Hx _]. by destruct Hx.
    + apply lookup_ge_None in E. apply lookup_lt_Some in Hpl.
      pose proof (release_many_length pages a) as Hlen. fold b in Hlen. lia.
Qed.

(** States reachable from the constructor by calls whose pages are [int32]. *)
Inductive reachable : PagedKvPageAllocator -> Prop :=
  | reach_make n a : make n = Ok a -> 0 <= n -> reachable a
  | reach_allocate a count : reachable a -> 0 <= count <= s32_max ->
      reachable (allocate count a).2
  | reach_release a pages : reachable a -> (forall p, p ∈ pages -> in_s32 p) ->
      reachable (release pages a).2.

Lemma make_inv n a : make n = Ok a -> 0 <= n -> alloc_inv a.
Proof.
  unfold make. rewrite u64_small by (unfold s32_max; lia). intros Hm Hn.
  destruct (Z.eqb_spec n 0); [done|]. destruct (Z.ltb_spec s32_max n); [done|].
  injection Hm as <-. split; simpl; try done; try lia. split; simpl; try done; try lia.
  - by apply NoDup_nil_2.
  - intros p. split; [set_solver|]. intros [_ Hp]. done.
Qed.

Lemma reachable_inv a : reachable a -> alloc_inv a.
Proof.
  induction 1 as [n a Hm Hn|a count _ IH Hc|a pages _ IH Hr].
  - by eapply make_inv.
  - pose proof (allocate_correct a count IH Hc) as Hs.
    destruct (allocate count a). apply Hs.
  - pose proof (release_correct a pages IH Hr) as Hs.
    destruct (release pages a). apply Hs.
Qed.

(** ** Properties *)

(** C17: in every reachable state, allocation refines "take [count] pages that
    are not live". With room for the request it returns exactly [count]
    distinct pages of the pool, none of them live before, and precisely they
    become live; without room it fails and changes nothing, so the inner
    exhaustion error is unreachable. The counters stay consistent: the live
    counter is the number of live pages and the difference of the allocation
    and release counters. *)
Theorem allocate_refines a count :
  reachable a -> 0 <= count <= s32_max ->
  let '(o, b) := allocate count a in
  alloc_inv b /\
  if count <=? maximum_pages a - live_pages a then
    exists pages, o = Ok pages /\ size_of pages = count /\ NoDup pages /\
      (forall p, p ∈ pages -> 0 <= p < maximum_pages a /\ ~ live a p) /\
      (forall p, live b p <-> live a p \/ p ∈ pages) /\
      live_pages b = live_pages a + count
  else o = Throw (RuntimeError "Paged KV physical page pool exhausted") /\ b = a.
Proof. intros Ha Hc. apply allocate_correct; [by apply reachable_inv|done]. Qed.

(** In every reachable state, release refines "the pages stop being
    live". It succeeds exactly when the pages are distinct and all live (no
    double free, no foreign page); then exactly they stop being live and are on
    the free list. Otherwise it fails and changes nothing. *)
Theorem release_refines a pages :
  reachable a -> (forall p, p ∈ pages -> in_s32 p) ->
  let '(o, b) := release pages a in
  alloc_inv b /\
  ((o = Ok tt /\ NoDup pages /\ (forall p, p ∈ pages -> live a p) /\
    (forall p, live b p <-> live a p /\ p ∉ pages) /\
    (forall p, p ∈ pages -> p ∈ free_pages b) /\
    live_pages b = live_pages a - size_of pages) \/
   (is_ok o = false /\ b = a /\ ~ (NoDup pages /\ forall p, p ∈ pages -> live a p))).
Proof. intros Ha Hr. apply release_correct; [by apply reachable_inv|done]. Qed.

(** A pool of 4 pages after allocating three and releasing page 1. *)
Definition sample : PagedKvPageAllocator :=
  match make 4 with
  | Ok a => (release [1] (allocate 3 a).2).2
  | Throw _ => {| maximum_pages := 0; high_watermark := 0; live_pages := 0;
                  peak_live_pages := 0; allocation_count := 0; reuse_count := 0;
                  release_count := 0; allocated := []; free_pages := [] |}
  end.

Lemma sample_reachable : reachable sample.
Proof.
  apply (reach_release _ [1]).
  - apply reach_allocate; [|unfold s32_max; lia].
    apply (reach_make 4); [reflexivity|lia].
  - intros p ->%list_elem_of_singleton. unfold in_s32, s32_max; lia.
Qed.

Lemma allocate_refines_witness :
  (allocate 2 sample).1 = Ok [1; 3] /\ alloc_inv (allocate 2 sample).2.
Proof.
  pose proof (allocate_refines sample 2 sample_reachable ltac:(unfold s32_max; lia)) as H.
  split; [reflexivity|]. destruct (allocate 2 sample) as [o b]. exact (proj1 H).
Defined.

Lemma release_refines_witness :
  (release [2; 2] sample).1 =
    Throw (LogicError "Paged KV attempted to release an invalid physical page") /\
  alloc_inv (release [2; 2] sample).2.
Proof.
  pose proof (release_refines sample [2; 2] sample_reachable) as H.
  split; [reflexivity|]. destruct (release [2; 2] sample) as [o b].
  apply H. intros p Hp. assert (p = 2) as -> by set_solver.
  unfold in_s32, s32_max; lia.
Defined.
