(* ===== verification/SnapshotCache.v ===== *)
(** * The session snapshot cache ([engine/include/session_snapshot_cache.h])

    Snapshots of decoder state by session, matched by token prefix and evicted
    least recently used under a budget of sessions, snapshots per session and
    bytes. The snapshot type is the template's [State]; the cache only reads
    its tokens and bytes ([SnapshotState]). [states_] is an unordered map: the
    order its iteration visits the sessions is the parameter [iter], about
    which only the visited contents are known. *)

From stdpp Require Import base list strings gmap.
From Stdlib Require Import ZArith Lia.
From S2P Require Import Prelude.

Open Scope Z_scope.

Class SnapshotState (State : Type) := {
  snap_tokens : State -> list Z;
  snap_bytes : State -> Z;
}.

Record SessionSnapshotCacheConfig := {
  max_sessions : Z;
  max_snapshots_per_session : Z;
  max_bytes : Z;
}.

Record Entry (State : Type) := { state : State; last_used : Z }.
Arguments state {State} _.
Arguments last_used {State} _.
Add Printing Constructor Entry.

Record Cache (State : Type) := {
  config : SessionSnapshotCacheConfig;
  states : gmap string (list (Entry State));
  bytes : Z;
  clock : Z;
  queries : Z;
  hits : Z;
  hit_tokens : Z;
  metric_sessions : Z;
  metric_snapshots : Z;
  metric_tokens : Z;
  metric_bytes : Z;
}.
Arguments config {State} _.
Arguments states {State} _.
Arguments bytes {State} _.
Arguments clock {State} _.
Arguments queries {State} _.
Arguments hits {State} _.
Arguments hit_tokens {State} _.
Arguments metric_sessions {State} _.
Arguments metric_snapshots {State} _.
Arguments metric_tokens {State} _.
Arguments metric_bytes {State} _.

(** [Match::state] is the address of the entry [index] of [session_id]. *)
Record Match := { session_id : string; index : nat }.

Record StoreResult (State : Type) := {
  stored_state : State;
  session_snapshots : Z;
  total_bytes : Z;
}.
Arguments stored_state {State} _.
Arguments session_snapshots {State} _.
Arguments total_bytes {State} _.

Record CloseResult := { closed_snapshots : Z; closed_bytes : Z }.

Section SnapshotCache.
Context {State : Type} `{SnapshotState State}.
Implicit Types c : Cache State.

(** The order in which a loop over [states_] meets the sessions. *)
Context (iter : gmap string (list (Entry State)) -> list (string * list (Entry State))).

Definition make (cfg : SessionSnapshotCacheConfig) : Cache State :=
  {| config := cfg; states := ∅; bytes := 0; clock := 0; queries := 0; hits := 0;
     hit_tokens := 0; metric_sessions := 0; metric_snapshots := 0;
     metric_tokens := 0; metric_bytes := 0 |}.

(** Assignments to the members. *)
Definition set_store (m : gmap string (list (Entry State))) (b : Z) c : Cache State :=
  {| config := config c; states := m; bytes := b; clock := clock c;
     queries := queries c; hits := hits c; hit_tokens := hit_tokens c;
     metric_sessions := metric_sessions c; metric_snapshots := metric_snapshots c;
     metric_tokens := metric_tokens c; metric_bytes := metric_bytes c |}.

Definition set_clock (t : Z) c : Cache State :=
  {| config := config c; states := states c; bytes := bytes c; clock := t;
     queries := queries c; hits := hits c; hit_tokens := hit_tokens c;
     metric_sessions := metric_sessions c; metric_snapshots := metric_snapshots c;
     metric_tokens := metric_tokens c; metric_bytes := metric_bytes c |}.

Definition set_max_bytes (limit : Z) c : Cache State :=
  {| config := {| max_sessions := max_sessions (config c);
                  max_snapshots_per_session := max_snapshots_per_session (config c);
                  max_bytes := limit |};
     states := states c; bytes := bytes c; clock := clock c;
     queries := queries c; hits := hits c; hit_tokens := hit_tokens c;
     metric_sessions := metric_sessions c; metric_snapshots := metric_snapshots c;
     metric_tokens := metric_tokens c; metric_bytes := metric_bytes c |}.

Definition set_stats (q h t : Z) c : Cache State :=
  {| config := config c; states := states c; bytes := bytes c; clock := clock c;
     queries := q; hits := h; hit_tokens := t;
     metric_sessions := metric_sessions c; metric_snapshots := metric_snapshots c;
     metric_tokens := metric_tokens c; metric_bytes := metric_bytes c |}.

Definition enabled c : bool :=
  (0 <? max_sessions (config c)) && (0 <? max_snapshots_per_session (config c)) &&
  (0 <? max_bytes (config c)).

Definition entry_bytes (e : Entry State) : Z := snap_bytes (state e).
Definition entry_tokens (e : Entry State) : Z := size_of (snap_tokens (state e)).

Definition sync_metrics c : Cache State :=
  {| config := config c; states := states c; bytes := bytes c; clock := clock c;
     queries := queries c; hits := hits c; hit_tokens := hit_tokens c;
     metric_sessions := Z.of_nat (size (states c));
     metric_snapshots := u64_sum (fun s => size_of s.2) (iter (states c));
     metric_tokens := u64_sum entry_tokens (iter (states c) ≫= snd);
     metric_bytes := bytes c |}.

(** ** Eviction *)

Definition erase_snapshot (id : string) (i : nat) c : Cache State :=
  match states c !! id with
  | None => c
  | Some history =>
      match history !! i with
      | None => c
      | Some e =>
          let history := delete i history in
          sync_metrics
            (set_store (if bool_decide (history = []) then delete id (states c)
                        else <[id := history]> (states c))
                       (u64 (bytes c - entry_bytes e)) c)
      end
  end.

Definition close (id : string) c : CloseResult * Cache State :=
  match states c !! id with
  | None => ({| closed_snapshots := 0; closed_bytes := 0 |}, c)
  | Some history =>
      let released := u64_sum entry_bytes history in
      ({| closed_snapshots := size_of history; closed_bytes := released |},
       sync_metrics (set_store (delete id (states c)) (u64 (bytes c - released)) c))
  end.

(** One round of the loop: the victim among the unprotected snapshots. *)
Definition history_victim (protected_clock : Z) (history : list (Entry State))
    : option (nat * Entry State) :=
  scan (fun x => last_used x.2 =? protected_clock)
       (fun x best => last_used x.2 <? last_used best.2) None (imap pair history).

Fixpoint evict_history_loop (fuel : nat) (id : string) (protected_clock : Z) c
    : Cache State :=
  match fuel with
  | O => c
  | S fuel =>
      match states c !! id with
      | None => c
      | Some history =>
          if max_snapshots_per_session (config c) <? size_of history then
            match history_victim protected_clock history with
            | None => c
            | Some (victim, _) =>
                evict_history_loop fuel id protected_clock (erase_snapshot id victim c)
            end
          else c
      end
  end.

(** Each round erases a snapshot of the session. *)
Definition evict_history_to_limit (id : string) (protected_clock : Z) c : Cache State :=
  evict_history_loop (length (default [] (states c !! id))) id protected_clock c.

Definition session_last_used (history : list (Entry State)) : Z :=
  foldl (fun t e => Z.max t (last_used e)) 0 history.

Definition session_victim (protected_session : string) c
    : option (string * list (Entry State)) :=
  scan (fun s => bool_decide (s.1 = protected_session))
       (fun s best => session_last_used s.2 <? session_last_used best.2)
       None (iter (states c)).

Fixpoint evict_sessions_loop (fuel : nat) (protected_session : string) c : Cache State :=
  match fuel with
  | O => c
  | S fuel =>
      if max_sessions (config c) <? Z.of_nat (size (states c)) then
        match session_victim protected_session c with
        | None => c
        | Some (victim, _) =>
            evict_sessions_loop fuel protected_session (close victim c).2
        end
      else c
  end.

Definition all_snapshots (m : gmap string (list (Entry State)))
    : list (string * (nat * Entry State)) :=
  iter m ≫= fun s => pair s.1 <$> imap pair s.2.

Definition snapshot_victim (protected_session : string) (protected_clock : Z) c
    : option (string * (nat * Entry State)) :=
  scan (fun x => bool_decide (x.1 = protected_session) &&
                 (last_used x.2.2 =? protected_clock))
       (fun x best => last_used x.2.2 <? last_used best.2.2)
       None (all_snapshots (states c)).

Fixpoint evict_bytes_loop (fuel : nat) (protected_session : string)
    (protected_clock : Z) c : Cache State :=
  match fuel with
  | O => c
  | S fuel =>
      if max_bytes (config c) <? bytes c then
        match snapshot_victim protected_session protected_clock c with
        | None => c
        | Some (victim_session, (victim, _)) =>
            evict_bytes_loop fuel protected_session protected_clock
              (erase_snapshot victim_session victim c)
        end
      else c
  end.

(** Every round of the first loop closes a session, every round of the second
    erases a snapshot: the initial counts are enough rounds. *)
Definition evict_to_budget (protected_session : string) (protected_clock : Z) c
    : Cache State :=
  let c := evict_sessions_loop (size (states c)) protected_session c in
  evict_bytes_loop (length (all_snapshots (states c))) protected_session
    protected_clock c.

(** ** Operations *)

Definition trim (target_bytes : Z) c : Z * Cache State :=
  let previous := bytes c in
  let limit := max_bytes (config c) in
  let c := set_max_bytes (Z.min limit target_bytes) c in
  let c := evict_to_budget "" 0 c in
  let c := sync_metrics (set_max_bytes limit c) in
  (u64 (previous - bytes c), c).

Definition set_limit (limit : Z) c : Z * Cache State :=
  trim limit (set_max_bytes limit c).

(** The candidates of [find_best]: the negated [continue] condition, less its
    comparison with the length selected so far (in [select_step]). *)
Definition prefix_candidate (prompt : list Z) (maximum_prefix_tokens : Z)
    (eligible : State -> bool) (s : State) : bool :=
  let tokens := snap_tokens s in
  negb (bool_decide (tokens = [])) &&
  (size_of tokens <? size_of prompt) &&
  (size_of tokens <=? maximum_prefix_tokens) &&
  eligible s &&
  bool_decide (take (length tokens) prompt = tokens).

(** The selected [(session, index, length)]; an empty session means none. *)
Definition select_step (requested_session : string) (prompt : list Z)
    (maximum_prefix_tokens : Z) (eligible : State -> bool)
    (selected : string * nat * Z) (x : string * (nat * Entry State))
    : string * nat * Z :=
  let '(selected_session, selected_snapshot, selected_tokens) := selected in
  let '(id, (i, e)) := x in
  let n := entry_tokens e in
  if negb (prefix_candidate prompt maximum_prefix_tokens eligible (state e)) ||
     (n <? selected_tokens)
  then selected
  else
    let requested_tie := (n =? selected_tokens) && bool_decide (id = requested_session) &&
                         negb (bool_decide (selected_session = requested_session)) in
    if (selected_tokens <? n) || requested_tie then (id, i, n) else selected.

Definition find_best (requested_session : string) (prompt : list Z)
    (maximum_prefix_tokens : Z) (eligible : State -> bool) c
    : option Match * Cache State :=
  if bool_decide (requested_session = "") || negb (enabled c) then (None, c)
  else
    let c := set_stats (u64 (queries c + 1)) (hits c) (hit_tokens c) c in
    let '(selected_session, selected_snapshot, _) :=
      foldl (select_step requested_session prompt maximum_prefix_tokens eligible)
        (""%string, O, 0) (all_snapshots (states c)) in
    if bool_decide (selected_session = "") then (None, c)
    else (Some {| session_id := selected_session; index := selected_snapshot |}, c).

(** [same_address] decides [&found->second[match.index].state == match.state];
    when it holds, [match.tokens()] reads that entry. *)
Definition record_hit (same_address : bool) (m : Match) c : outcome unit * Cache State :=
  match states c !! session_id m with
  | None => (Throw (LogicError "session snapshot match is stale"), c)
  | Some history =>
      match history !! index m with
      | None => (Throw (LogicError "session snapshot match is stale"), c)
      | Some e =>
          if negb same_address
          then (Throw (LogicError "session snapshot match is stale"), c)
          else
            let t := u64 (clock c + 1) in
            let history := <[index m := {| state := state e; last_used := t |}]> history in
            let c := set_clock t (set_store (<[session_id m := history]> (states c)) (bytes c) c) in
            (Ok tt, set_stats (queries c) (u64 (hits c + 1))
                      (u64 (hit_tokens c + entry_tokens e)) c)
      end
  end.

Definition erase (m : Match) c : Cache State := erase_snapshot (session_id m) (index m) c.

Definition store (id : string) (st : State) (same_snapshot : State -> State -> bool) c
    : outcome (option (StoreResult State)) * Cache State :=
  if bool_decide (id = "") || negb (enabled c) || (max_bytes (config c) <? snap_bytes st)
  then (Ok None, c)
  else
    let protected_clock := u64 (clock c + 1) in
    let c := set_clock protected_clock c in
    let entry := {| state := st; last_used := protected_clock |} in
    let history := default [] (states c !! id) in
    let '(history, b) :=
      match list_find (fun saved => same_snapshot (state saved) st = true) history with
      | Some (previous, saved) =>
          (<[previous := entry]> history, u64 (bytes c - entry_bytes saved))
      | None => (history ++ [entry], bytes c)
      end in
    let c := set_store (<[id := history]> (states c)) b c in
    match list_find (fun saved => last_used saved = protected_clock) history with
    | None => (Throw (LogicError "stored session snapshot is unavailable"), c)
    | Some (_, stored) =>
        let c := set_store (states c) (u64 (bytes c + entry_bytes stored)) c in
        let c := evict_history_to_limit id protected_clock c in
        let c := sync_metrics (evict_to_budget id protected_clock c) in
        match states c !! id with
        | None => (Throw (OutOfRange "unordered_map::at"), c)
        | Some saved_history =>
            match list_find (fun candidate => last_used candidate = protected_clock)
                    saved_history with
            | None => (Throw (LogicError "protected session snapshot was evicted"), c)
            | Some (_, saved) =>
                (Ok (Some {| stored_state := state saved;
                             session_snapshots := size_of saved_history;
                             total_bytes := bytes c |}), c)
            end
        end
    end.

(** The copy loop of [fork]: every snapshot gets a fresh clock value. *)
Fixpoint fork_copies (t b : Z) (copied : list (Entry State))
    : list (Entry State) * Z * Z :=
  match copied with
  | [] => ([], t, b)
  | snapshot :: copied =>
      let t := u64 (t + 1) in
      let b := u64 (b + entry_bytes snapshot) in
      let '(rest, t', b') := fork_copies t b copied in
      ({| state := state snapshot; last_used := t |} :: rest, t', b')
  end.

Definition fork (source_session target_session : string) c : Z * Cache State :=
  if bool_decide (source_session = "") || bool_decide (target_session = "") ||
     bool_decide (source_session = target_session) || negb (enabled c)
  then (0, c)
  else
    match states c !! source_session with
    | None => (0, c)
    | Some copied =>
        let c := (close target_session c).2 in
        let '(target, t, b) := fork_copies (clock c) (bytes c) copied in
        let protected_clock := match last target with Some e => last_used e | None => 0 end in
        let c := set_clock t (set_store (<[target_session := target]> (states c)) b c) in
        let c := evict_history_to_limit target_session protected_clock c in
        let c := evict_to_budget target_session protected_clock c in
        let copied_snapshots :=
          match states c !! target_session with None => 0 | Some h => size_of h end in
        (copied_snapshots, sync_metrics c)
    end.

Definition clear c : Z * Cache State :=
  (u64_sum (fun s => size_of s.2) (iter (states c)), sync_metrics (set_store ∅ 0 c)).

(** ** Invariant *)

Hypothesis iter_perm : forall m, iter m ≡ₚ map_to_list m.

Definition total (m : gmap string (list (Entry State))) : Z := msum (Zsum entry_bytes) m.
Definition snapshots (m : gmap string (list (Entry State))) : Z := msum size_of m.

(** [e] is a snapshot of session [id]. *)
Definition holds (m : gmap string (list (Entry State))) (id : string) (e : Entry State) : Prop :=
  exists h, m !! id = Some h /\ e ∈ h.

Record history_ok (t : Z) (id : string) (h : list (Entry State)) : Prop := {
  h_id : id <> ""%string;
  h_nonempty : h <> [];
  h_bytes : Forall (fun e => 0 <= entry_bytes e) h;
  h_clock : Forall (fun e => 0 <= last_used e <= t) h;
  h_unique : NoDup (last_used <$> h);
}.

(** What holds at every point of an operation. *)
Record wf c : Prop := {
  wf_hist : map_Forall (history_ok (clock c)) (states c);
  wf_bytes : bytes c = total (states c);
  wf_small : total (states c) < 2 ^ 64;
}.

(** [b] is [a] after some evictions. *)
Record shrinks (a b : Cache State) : Prop := {
  sh_wf : wf b;
  sh_config : config b = config a;
  sh_clock : clock b = clock a;
  sh_stats : queries b = queries a /\ hits b = hits a /\ hit_tokens b = hit_tokens a;
  sh_bytes : bytes b <= bytes a;
  sh_size : (size (states b) <= size (states a))%nat;
  sh_sub : forall id h, states b !! id = Some h ->
             exists h', states a !! id = Some h' /\ h `sublist_of` h';
}.

Lemma shrinks_refl c : wf c -> shrinks c c.
Proof. intros Hw. split; try done. eauto. Qed.

Lemma shrinks_trans a b c : shrinks a b -> shrinks b c -> shrinks a c.
Proof.
  intros [? ? ? (?&?&?) ? ? Hs1] [? ? ? (?&?&?) ? ? Hs2].
  split; try done; try congruence; try lia.
  intros id h Hh. destruct (Hs2 _ _ Hh) as (h' & Hh' & ?).
    destruct (Hs1 _ _ Hh') as (h'' & Hh'' & ?). exists h''. split; [done|].
    by etrans.
Qed.

Lemma shrinks_holds a b id e : shrinks a b -> holds (states b) id e -> holds (states a) id e.
Proof.
  intros Hs (h & Hh & He). destruct (sh_sub _ _ Hs _ _ Hh) as (h' & Hh' & Hsub).
  exists h'. split; [done|]. by eapply elem_of_sublist.
Qed.

Lemma sublist_ok t id h h' :
  history_ok t id h' -> h <> [] -> h `sublist_of` h' -> history_ok t id h.
Proof.
  intros [? ? Hb Hc Hu] Hne Hsub. split; try done.
  - rewrite Forall_forall in *. intros e He. by eapply Hb, elem_of_sublist.
  - rewrite Forall_forall in *. intros e He. by eapply Hc, elem_of_sublist.
  - eapply sublist_NoDup; [exact Hu|by apply fmap_sublist].
Qed.

Lemma hist_total_nonneg c : wf c ->
  map_Forall (fun _ h => 0 <= Zsum entry_bytes h) (states c).
Proof.
  intros Hw id h Hh. apply Zsum_nonneg, (h_bytes _ _ _ (wf_hist _ Hw id h Hh)).
Qed.

Lemma hist_total_le c id h : wf c -> states c !! id = Some h ->
  0 <= Zsum entry_bytes h <= total (states c).
Proof.
  intros Hw Hh. pose proof (hist_total_nonneg c Hw) as Hn.
  split; [by apply (Hn id)|by apply (msum_elem_le _ _ id)].
Qed.

Lemma entry_total_le c id h e : wf c -> states c !! id = Some h -> e ∈ h ->
  0 <= entry_bytes e <= total (states c).
Proof.
  intros Hw Hh He. destruct (hist_total_le c id h Hw Hh) as [_ Hle].
  pose proof (h_bytes _ _ _ (wf_hist _ Hw id h Hh)) as Hb.
  pose proof (Zsum_elem_le entry_bytes h e Hb He).
  rewrite Forall_forall in Hb. specialize (Hb e He). lia.
Qed.

Lemma wf_set m b c :
  wf c -> map_Forall (history_ok (clock c)) m -> total m <= total (states c) ->
  b = total m -> wf (sync_metrics (set_store m b c)).
Proof.
  intros Hw Hm Ht ->. split; simpl; [done|done|].
  pose proof (wf_small _ Hw). lia.
Qed.

Lemma erase_shrinks c id h i e :
  wf c -> states c !! id = Some h -> h !! i = Some e ->
  let c' := erase_snapshot id i c in
  shrinks c c' /\ bytes c' = bytes c - entry_bytes e /\
  snapshots (states c') = snapshots (states c) - 1 /\
  default [] (states c' !! id) = delete i h /\
  (forall id', id' <> id -> states c' !! id' = states c !! id').
Proof.
  intros Hw Hh He. unfold erase_snapshot. rewrite Hh, He. cbv zeta.
  assert (e ∈ h) as Hin by (by eapply list_elem_of_lookup_2).
  pose proof (entry_total_le c id h e Hw Hh Hin) as Hle.
  pose proof (wf_small _ Hw) as Hs. pose proof (wf_bytes _ Hw) as Hb.
  assert (u64 (bytes c - entry_bytes e) = bytes c - entry_bytes e) as Hu
    by (apply u64_small; lia).
  pose proof (Zsum_delete entry_bytes h i e He) as Hzd.
  assert (size_of (delete i h) = size_of h - 1) as Hlen.
  { unfold size_of. rewrite length_delete by eauto.
    apply lookup_lt_Some in He. lia. }
  pose proof (wf_hist _ Hw id h Hh) as Hok.
  rewrite Hu. case_bool_decide as Hd.
  - assert (total (delete id (states c)) = bytes c - entry_bytes e) as Ht.
    { pose proof (msum_delete (Zsum entry_bytes) (states c) id h Hh) as Hmd.
      rewrite Hd in Hzd. unfold Zsum at 2 in Hzd. simpl in Hzd. unfold total in *. lia. }
    split; [split|]; simpl.
    + apply wf_set; [done|by apply map_Forall_delete, wf_hist|lia|done].
    + done.
    + done.
    + done.
    + lia.
    + rewrite map_size_delete_Some by eauto. lia.
    + intros id' h' Hl. apply lookup_delete_Some in Hl as [_ Hl]. eauto.
    + split; [done|]. split.
      * pose proof (msum_delete size_of (states c) id h Hh). unfold snapshots.
        rewrite Hd in Hlen. unfold size_of at 1 in Hlen. simpl in Hlen. lia.
      * rewrite lookup_delete_eq, Hd. split; [done|].
        intros. by rewrite lookup_delete_ne.
  - assert (total (<[id:=delete i h]> (states c)) = bytes c - entry_bytes e) as Ht.
    { pose proof (msum_update (Zsum entry_bytes) (states c) id h (delete i h) Hh).
      unfold total in *. lia. }
    assert (delete i h `sublist_of` h) as Hsub by apply sublist_delete.
    split; [split|]; simpl.
    + apply wf_set; [done| |lia|done].
      apply map_Forall_insert_2; [by eapply sublist_ok|apply wf_hist, Hw].
    + done.
    + done.
    + done.
    + lia.
    + rewrite map_size_insert_Some by eauto. lia.
    + intros id' h' Hl. apply lookup_insert_Some in Hl as [[<- <-]|[_ Hl]]; eauto.
    + split; [done|]. split.
      * pose proof (msum_update size_of (states c) id h (delete i h) Hh).
        unfold snapshots. lia.
      * rewrite lookup_insert_eq. split; [done|]. intros. by rewrite lookup_insert_ne.
Qed.

Lemma close_shrinks c id h :
  wf c -> states c !! id = Some h ->
  let c' := (close id c).2 in
  shrinks c c' /\ states c' = delete id (states c) /\
  bytes c' = bytes c - Zsum entry_bytes h /\
  (close id c).1 = {| closed_snapshots := size_of h; closed_bytes := Zsum entry_bytes h |}.
Proof.
  intros Hw Hh. unfold close. rewrite Hh. cbv zeta. simpl.
  pose proof (hist_total_le c id h Hw Hh) as Hle.
  pose proof (wf_small _ Hw) as Hs. pose proof (wf_bytes _ Hw) as Hb.
  rewrite !u64_sum_eq, !(u64_small (Zsum _ _)), !u64_small by lia.
  pose proof (msum_delete (Zsum entry_bytes) (states c) id h Hh) as Hmd.
  split; [split|]; simpl; try done.
  - apply wf_set; [done|by apply map_Forall_delete, wf_hist|unfold total in *; lia
                  |unfold total in *; lia].
  - lia.
  - rewrite map_size_delete_Some by eauto. lia.
  - intros id' h' Hl. apply lookup_delete_Some in Hl as [_ Hl]. eauto.
Qed.

(** The snapshot that an operation protects from eviction. *)
Definition protected (id : string) (t : Z) (x : string) (e : Entry State) : Prop :=
  x = id /\ last_used e = t.

(** An eviction that spares the protected snapshot. *)
Definition spares (id : string) (t : Z) (a b : Cache State) : Prop :=
  forall e, holds (states a) id e -> last_used e = t -> holds (states b) id e.

Lemma holds_erase c id h i e x y :
  wf c -> states c !! id = Some h -> h !! i = Some e -> holds (states c) x y ->
  (x = id /\ y = e) \/ holds (states (erase_snapshot id i c)) x y.
Proof.
  intros Hw Hh He (h' & Hh' & Hy).
  destruct (erase_shrinks c id h i e Hw Hh He) as (_ & _ & _ & Hd & Ho).
  destruct (decide (x = id)) as [->|Hx].
  - simplify_eq. rewrite (delete_Permutation _ _ _ He) in Hy.
    apply elem_of_cons in Hy as [->|Hy]; [by left|]. right.
    destruct (states (erase_snapshot id i c) !! id) as [h'|] eqn:E; simpl in Hd.
    + exists h'. subst. done.
    + rewrite <- Hd in Hy. set_solver.
  - right. exists h'. rewrite Ho by done. done.
Qed.

Lemma erase_spares c id h i e x t :
  wf c -> states c !! id = Some h -> h !! i = Some e ->
  (x = id -> last_used e <> t) -> spares x t c (erase_snapshot id i c).
Proof.
  intros Hw Hh He Hx y Hy Ht.
  destruct (holds_erase c id h i e x y Hw Hh He Hy) as [[-> ->]|]; [|done].
  by destruct Hx.
Qed.

Lemma spares_trans x t a b c : spares x t a b -> spares x t b c -> spares x t a c.
Proof. intros H1 H2 e He Ht. apply H2; [by apply H1|done]. Qed.

Lemma all_snapshots_elem m id i e :
  (id, (i, e)) ∈ all_snapshots m <-> exists h, m !! id = Some h /\ h !! i = Some e.
Proof using iter_perm.
  unfold all_snapshots. rewrite list_elem_of_bind. split.
  - intros ([k h] & Hx & Hin). rewrite iter_perm, elem_of_map_to_list in Hin.
    apply list_elem_of_fmap in Hx as ([j y] & [= -> -> ->] & Hx).
    apply elem_of_lookup_imap in Hx as (j' & y' & [= -> ->] & Hx). eauto.
  - intros (h & Hh & He). exists (id, h). split.
    + apply list_elem_of_fmap. exists (i, e). split; [done|].
      apply elem_of_lookup_imap. eauto.
    + by rewrite iter_perm, elem_of_map_to_list.
Qed.

Lemma all_snapshots_length m : size_of (all_snapshots m) = snapshots m.
Proof using iter_perm.
  unfold all_snapshots, snapshots, msum. rewrite <- iter_perm.
  induction (iter m) as [|[k h] l IH]; [done|].
  rewrite bind_cons, size_of_app, IH. unfold Zsum. cbn [foldr fst snd]. f_equal.
  unfold size_of. by rewrite length_fmap, length_imap.
Qed.

(** Rounds of the byte eviction: who may be evicted, and the exit test. *)
Lemma snapshot_victim_some pid t c id i e :
  snapshot_victim pid t c = Some (id, (i, e)) ->
  (exists h, states c !! id = Some h /\ h !! i = Some e) /\
  ~ protected pid t id e /\
  (forall id' e', holds (states c) id' e' -> ~ protected pid t id' e' ->
     last_used e <= last_used e').
Proof using iter_perm.
  intros Hv. pose proof Hv as Hm. apply scan_elem in Hv as [|[Hin Hsk]]; [done|].
  apply all_snapshots_elem in Hin. simpl in Hsk. split; [done|]. unfold protected. split.
  - intros [-> Ht]. rewrite bool_decide_true, (proj2 (Z.eqb_eq _ _)) in Hsk; done.
  - intros id' e' (h & Hh & He') Hnp. apply list_elem_of_lookup in He' as [j Hj].
    apply (scan_min _ _ (fun x => last_used x.2.2)) in Hm as [_ Hm];
      [|intros; apply Z.ltb_lt].
    apply (Hm (id', (j, e'))); [apply all_snapshots_elem; eauto|]. simpl.
    apply not_true_iff_false. rewrite andb_true_iff, bool_decide_eq_true, Z.eqb_eq. done.
Qed.

Lemma snapshot_victim_none pid t c :
  snapshot_victim pid t c = None ->
  forall id e, holds (states c) id e -> protected pid t id e.
Proof using iter_perm.
  intros Hv id e (h & Hh & He). apply list_elem_of_lookup in He as [i Hi].
  pose proof (scan_none _ _ _ Hv (id, (i, e))) as Hs. simpl in Hs.
  rewrite andb_true_iff, bool_decide_eq_true, Z.eqb_eq in Hs. apply Hs.
  apply all_snapshots_elem. eauto.
Qed.

(** When only the protected snapshot is left, it is the whole cache. *)
Lemma only_protected_total pid t c b :
  wf c -> 0 <= b ->
  (forall id e, holds (states c) id e -> protected pid t id e) ->
  (forall e, holds (states c) pid e -> last_used e = t -> entry_bytes e <= b) ->
  total (states c) <= b.
Proof.
  intros Hw Hb Honly Hle.
  destruct (decide (states c = ∅)) as [He|Hne].
  { rewrite He. unfold total. by rewrite msum_empty. }
  apply map_choose in Hne as (id & h & Hh).
  pose proof (wf_hist _ Hw id h Hh) as [_ Hhne _ _ Hu].
  destruct h as [|e h]; [done|].
  assert (holds (states c) id e) as Hhe by (exists (e :: h); split; [done|set_solver]).
  destruct (Honly id e Hhe) as [-> Ht].
  assert (h = []) as ->.
  { destruct h as [|e' h]; [done|]. exfalso.
    assert (holds (states c) pid e') as Hhe' by (eexists; split; [done|set_solver]).
    destruct (Honly pid e' Hhe') as [_ Ht'].
    rewrite !fmap_cons, NoDup_cons in Hu. destruct Hu as [Hu _]. set_solver. }
  assert (delete pid (states c) = ∅) as Hd.
  { apply map_eq. intros k. rewrite lookup_empty.
    destruct (delete pid (states c) !! k) as [h'|] eqn:E; [|done].
    apply lookup_delete_Some in E as [Hk E].
    pose proof (wf_hist _ Hw k h' E) as [_ Hh' _ _ _].
    destruct h' as [|e' h']; [done|].
    destruct (Honly k e') as [-> _]; [|done]. eexists. split; [done|set_solver]. }
  unfold total. rewrite (msum_delete _ _ pid _ Hh), Hd, msum_empty.
  specialize (Hle e Hhe Ht). unfold Zsum. simpl. lia.
Qed.

Lemma evict_bytes_spec pid t fuel : forall c,
  wf c -> snapshots (states c) <= Z.of_nat fuel -> 0 <= max_bytes (config c) ->
  (forall e, holds (states c) pid e -> last_used e = t ->
     entry_bytes e <= max_bytes (config c)) ->
  let c' := evict_bytes_loop fuel pid t c in
  shrinks c c' /\ spares pid t c c' /\ bytes c' <= max_bytes (config c) /\
  (forall id e, holds (states c) id e -> ~ holds (states c') id e ->
     forall id' e', holds (states c') id' e' -> ~ protected pid t id' e' ->
       last_used e <= last_used e').
Proof using iter_perm.
  induction fuel as [|fuel IH]; intros c Hw Hf Hmax Hp; cbn [evict_bytes_loop]; cbv zeta.
  { split; [by apply shrinks_refl|]. split; [by intros ?|]. split; [|done].
    rewrite (wf_bytes _ Hw). eapply only_protected_total; [done|done| |done].
    intros id e (h & Hh & He). pose proof (msum_elem_le size_of (states c) id h) as Hs.
    unfold snapshots in Hf. destruct h as [|e' h]; [set_solver|].
    unfold size_of in Hs at 2. simpl in Hs. exfalso.
    enough (Z.of_nat (S (length h)) <= 0)%Z by lia. etrans; [apply Hs|lia]; [|done].
    intros k h' _. apply size_of_nonneg. }
  destruct (Z.ltb_spec (max_bytes (config c)) (bytes c)).
  2:{ split; [by apply shrinks_refl|]. split; [by intros ?|]. done. }
  destruct (snapshot_victim pid t c) as [[id [i e]]|] eqn:Hv.
  2:{ split; [by apply shrinks_refl|]. split; [by intros ?|]. split; [|done].
      rewrite (wf_bytes _ Hw). eapply only_protected_total; [done|done| |done].
      by eapply snapshot_victim_none. }
  destruct (snapshot_victim_some _ _ _ _ _ _ Hv) as ((h & Hh & He) & Hnp & Hmin).
  destruct (erase_shrinks c id h i e Hw Hh He) as (Hs & _ & Hn & _ & _).
  destruct (IH (erase_snapshot id i c)) as (Hs' & Hk & Hb & Hl).
  { apply Hs. } { lia. } { by rewrite (sh_config _ _ Hs). }
  { rewrite (sh_config _ _ Hs). intros y Hy. apply Hp. by eapply shrinks_holds. }
  rewrite (sh_config _ _ Hs) in Hb.
  split; [by eapply shrinks_trans|]. split.
  { eapply spares_trans; [|exact Hk]. eapply erase_spares; [done..|].
    intros <- Ht. apply Hnp. done. }
  split; [done|]. intros x y Hx Hy id' e' Hi' Hnp'.
  destruct (holds_erase c id h i e x y Hw Hh He Hx) as [[-> ->]|Hxy].
  - apply Hmin with id'; [|done]. by eapply shrinks_holds, shrinks_holds.
  - by apply (Hl x y Hxy Hy id').
Qed.

Lemma session_victim_some pid c id h :
  session_victim pid c = Some (id, h) ->
  states c !! id = Some h /\ id <> pid /\
  (forall id' h', states c !! id' = Some h' -> id' <> pid ->
     session_last_used h <= session_last_used h').
Proof.
  intros Hv. pose proof Hv as Hm. apply scan_elem in Hv as [|[Hin Hsk]]; [done|].
  rewrite iter_perm, elem_of_map_to_list in Hin. simpl in Hsk.
  apply bool_decide_eq_false in Hsk. split; [done|]. split; [done|].
  intros id' h' Hh' Hne.
  apply (scan_min _ _ (fun s => session_last_used s.2)) in Hm as [_ Hm];
    [|intros; apply Z.ltb_lt].
  apply (Hm (id', h')); simpl; [by rewrite iter_perm, elem_of_map_to_list|].
  by apply bool_decide_eq_false.
Qed.

Lemma session_victim_none pid c :
  session_victim pid c = None -> forall id h, states c !! id = Some h -> id = pid.
Proof.
  intros Hv id h Hh. pose proof (scan_none _ _ _ Hv (id, h)) as Hs. simpl in Hs.
  apply bool_decide_eq_true in Hs; [done|]. by rewrite iter_perm, elem_of_map_to_list.
Qed.

Lemma evict_sessions_spec pid fuel : forall c,
  wf c -> (size (states c) <= fuel)%nat -> 0 <= max_sessions (config c) ->
  (is_Some (states c !! pid) -> 1 <= max_sessions (config c)) ->
  let c' := evict_sessions_loop fuel pid c in
  shrinks c c' /\ states c' !! pid = states c !! pid /\
  Z.of_nat (size (states c')) <= max_sessions (config c) /\
  states c' ⊆ states c /\
  (forall id h, states c !! id = Some h -> states c' !! id = None ->
     forall id' h', states c' !! id' = Some h' -> id' <> pid ->
       session_last_used h <= session_last_used h').
Proof.
  assert (forall c id h, states c !! id = Some h -> states c !! id = None -> False)
    as Hcontra by congruence.
  induction fuel as [|fuel IH]; intros c Hw Hf Hm Hp; cbn [evict_sessions_loop]; cbv zeta.
  { split; [by apply shrinks_refl|]. split; [done|]. split; [lia|]. split; [done|].
    intros id h Hh Hn. by destruct (Hcontra c id h). }
  destruct (Z.ltb_spec (max_sessions (config c)) (Z.of_nat (size (states c)))).
  2:{ split; [by apply shrinks_refl|]. split; [done|]. split; [done|]. split; [done|].
      intros id h Hh Hn. by destruct (Hcontra c id h). }
  destruct (session_victim pid c) as [[id h]|] eqn:Hv.
  2:{ split; [by apply shrinks_refl|]. split; [done|].
      split; [|split; [done|intros id h Hh Hn; by destruct (Hcontra c id h)]].
      pose proof (session_victim_none _ _ Hv) as Honly.
      destruct (states c !! pid) as [h|] eqn:E.
      - assert (delete pid (states c) = ∅) as Hd.
        { apply map_eq. intros k. rewrite lookup_empty.
          destruct (delete pid (states c) !! k) as [h'|] eqn:E'; [|done].
          apply lookup_delete_Some in E' as [Hk E']. apply Honly in E'. done. }
        pose proof (map_size_delete_Some pid (states c) ltac:(eauto)) as Hsz.
        rewrite Hd, map_size_empty in Hsz. specialize (Hp ltac:(eauto)). lia.
      - assert (states c = ∅) as He; [|rewrite He, map_size_empty; lia].
        apply map_eq. intros k. rewrite lookup_empty.
        destruct (states c !! k) as [h'|] eqn:E'; [|done].
        pose proof (Honly _ _ E') as ->. congruence. }
  destruct (session_victim_some _ _ _ _ Hv) as (Hh & Hne & Hmin).
  destruct (close_shrinks c id h Hw Hh) as (Hs & Hst & _ & _).
  assert (states (close id c).2 !! pid = states c !! pid) as Hpid
    by (rewrite Hst; by apply lookup_delete_ne).
  destruct (IH (close id c).2) as (Hs' & Hk & Hb & Hsub & Hl).
  { apply Hs. } { rewrite Hst, map_size_delete_Some by eauto. lia. }
  { by rewrite (sh_config _ _ Hs). } { by rewrite (sh_config _ _ Hs), Hpid. }
  rewrite (sh_config _ _ Hs) in Hb. rewrite Hst in Hsub at 1.
  assert (states (evict_sessions_loop fuel pid (close id c).2) ⊆ states c) as Hsub'.
  { etrans; [exact Hsub|apply delete_subseteq]. }
  split; [by eapply shrinks_trans|]. split; [congruence|]. split; [done|]. split; [done|].
  intros x hx Hx Hnx id' h' Hi' Hne'. destruct (decide (x = id)) as [->|Hxi].
  - simplify_eq. apply (Hmin id'); [|done]. by eapply lookup_weaken.
  - apply (Hl x hx) with id'; try done. rewrite Hst. by rewrite lookup_delete_ne.
Qed.

Lemma history_victim_some t h i e :
  history_victim t h = Some (i, e) -> h !! i = Some e /\ last_used e <> t.
Proof.
  intros Hv. apply scan_elem in Hv as [|[Hin Hsk]]; [done|].
  apply elem_of_lookup_imap in Hin as (j & y & [= -> ->] & Hin). simpl in Hsk.
  split; [done|]. by apply Z.eqb_neq.
Qed.

Lemma history_victim_none t h :
  history_victim t h = None -> forall e, e ∈ h -> last_used e = t.
Proof.
  intros Hv e He. apply list_elem_of_lookup in He as [i Hi].
  pose proof (scan_none _ _ _ Hv (i, e)) as Hs. simpl in Hs.
  apply Z.eqb_eq, Hs. apply elem_of_lookup_imap. eauto.
Qed.

Lemma unique_clock_short t h :
  NoDup (last_used <$> h) -> (forall e : Entry State, e ∈ h -> last_used e = t) ->
  size_of h <= 1.
Proof.
  intros Hu Ht. destruct h as [|a [|b h]]; [done|done|]. exfalso.
  rewrite !fmap_cons, NoDup_cons in Hu. destruct Hu as [Hu _].
  pose proof (Ht a ltac:(set_solver)). pose proof (Ht b ltac:(set_solver)). set_solver.
Qed.

Lemma evict_history_spec id t fuel : forall c,
  wf c -> (length (default [] (states c !! id)) <= fuel)%nat ->
  1 <= max_snapshots_per_session (config c) ->
  let c' := evict_history_loop fuel id t c in
  shrinks c c' /\ spares id t c c' /\
  size_of (default [] (states c' !! id)) <= max_snapshots_per_session (config c) /\
  (forall id', id' <> id -> states c' !! id' = states c !! id').
Proof.
  induction fuel as [|fuel IH]; intros c Hw Hf Hm; cbn [evict_history_loop]; cbv zeta.
  { split; [by apply shrinks_refl|]. split; [by intros ?|]. split; [|done].
    unfold size_of. lia. }
  destruct (states c !! id) as [h|] eqn:Hh; simpl in Hf.
  2:{ split; [by apply shrinks_refl|]. split; [by intros ?|]. split; [|done].
      rewrite Hh. unfold size_of. simpl. lia. }
  destruct (Z.ltb_spec (max_snapshots_per_session (config c)) (size_of h)).
  2:{ split; [by apply shrinks_refl|]. split; [by intros ?|]. split; [|done].
      by rewrite Hh. }
  destruct (history_victim t h) as [[i e]|] eqn:Hv.
  2:{ split; [by apply shrinks_refl|]. split; [by intros ?|]. split; [|done].
      rewrite Hh. simpl. pose proof (h_unique _ _ _ (wf_hist _ Hw id h Hh)) as Hu.
      pose proof (unique_clock_short t h Hu (history_victim_none _ _ Hv)). lia. }
  destruct (history_victim_some _ _ _ _ Hv) as [He Ht].
  destruct (erase_shrinks c id h i e Hw Hh He) as (Hs & _ & _ & Hd & Ho).
  destruct (IH (erase_snapshot id i c)) as (Hs' & Hk & Hlen & Ho').
  { apply Hs. }
  { rewrite Hd, length_delete by eauto. apply lookup_lt_Some in He. lia. }
  { by rewrite (sh_config _ _ Hs). }
  rewrite (sh_config _ _ Hs) in Hlen.
  split; [by eapply shrinks_trans|]. split.
  { eapply spares_trans; [|exact Hk]. by eapply erase_spares. }
  split; [done|]. intros id' Hne. rewrite Ho', Ho by done. done.
Qed.

Lemma evict_to_budget_spec pid t c :
  wf c -> 0 <= max_sessions (config c) -> 0 <= max_bytes (config c) ->
  (is_Some (states c !! pid) -> 1 <= max_sessions (config c)) ->
  (forall e, holds (states c) pid e -> last_used e = t ->
     entry_bytes e <= max_bytes (config c)) ->
  let c' := evict_to_budget pid t c in
  shrinks c c' /\ spares pid t c c' /\
  Z.of_nat (size (states c')) <= max_sessions (config c) /\
  bytes c' <= max_bytes (config c).
Proof.
  intros Hw Hms Hmb Hp1 Hp2. unfold evict_to_budget. cbv zeta.
  destruct (evict_sessions_spec pid (size (states c)) c) as (Hs & Hk & Hz & _ & _);
    [done..|].
  set (c1 := evict_sessions_loop _ _ _) in *.
  destruct (evict_bytes_spec pid t (length (all_snapshots (states c1))) c1)
    as (Hs' & Hk' & Hb & _).
  { apply Hs. } { rewrite <- all_snapshots_length. unfold size_of. lia. }
  { by rewrite (sh_config _ _ Hs). }
  { intros e He Ht. rewrite (sh_config _ _ Hs). apply Hp2; [|done].
    by eapply shrinks_holds. }
  rewrite (sh_config _ _ Hs) in Hb. split; [by eapply shrinks_trans|].
  split; [|split; [pose proof (sh_size _ _ Hs'); lia|done]].
  intros e (h & Hh & He) Ht. apply Hk'; [|done]. exists h. by rewrite Hk.
Qed.

Record metrics_synced c : Prop := {
  ms_sessions : metric_sessions c = Z.of_nat (size (states c));
  ms_snapshots : metric_snapshots c = u64 (snapshots (states c));
  ms_tokens : metric_tokens c = u64 (msum (Zsum entry_tokens) (states c));
  ms_bytes : metric_bytes c = bytes c;
}.

Lemma sync_metrics_synced c : metrics_synced (sync_metrics c).
Proof.
  split; simpl; [done| | |done]; rewrite u64_sum_eq; f_equal.
  - unfold snapshots, msum. by rewrite <- iter_perm.
  - unfold msum. rewrite <- iter_perm.
    induction (iter (states c)) as [|[k h] l IH]; [done|].
    rewrite bind_cons, Zsum_app, IH. done.
Qed.

(** What holds between operations. *)
Record inv c : Prop := {
  inv_wf : wf c;
  inv_config : 0 <= max_sessions (config c) /\
               0 <= max_snapshots_per_session (config c) /\
               0 <= max_bytes (config c) < 2 ^ 63;
  inv_clock : 0 <= clock c;
  inv_sessions : Z.of_nat (size (states c)) <= max_sessions (config c);
  inv_snapshots : map_Forall (fun _ h => size_of h <= max_snapshots_per_session (config c))
                    (states c);
  inv_bytes : bytes c <= max_bytes (config c);
  inv_metrics : metrics_synced c;
}.

Lemma shrinks_snapshots a b n :
  shrinks a b -> map_Forall (fun _ h => size_of h <= n) (states a) ->
  map_Forall (fun _ h => size_of h <= n) (states b).
Proof.
  intros Hs Ha id h Hh. destruct (sh_sub _ _ Hs _ _ Hh) as (h' & Hh' & Hsub).
  specialize (Ha _ _ Hh'). apply sublist_length in Hsub. unfold size_of in *. simpl in *. lia.
Qed.

(** An operation that only evicts, then publishes the metrics. *)
Lemma shrinks_inv a b : inv a -> shrinks a b -> metrics_synced b -> inv b.
Proof.
  intros [Hw Hc Ht Hz Hn Hb _] Hs Hm. destruct Hs as [Hw' Hcf Hck Hst Hb' Hz' Hsub'] eqn:E.
  split; rewrite ?Hcf; try done; try lia. by apply (shrinks_snapshots a b).
Qed.

(** ** The operations preserve the invariant *)

Lemma close_inv c id : inv c -> inv (close id c).2.
Proof.
  intros Hi. destruct (states c !! id) as [h|] eqn:Hh.
  - destruct (close_shrinks c id h (inv_wf _ Hi) Hh) as (Hs & _).
    eapply shrinks_inv; [exact Hi|exact Hs|].
    unfold close. rewrite Hh. apply sync_metrics_synced.
  - unfold close. by rewrite Hh.
Qed.

Lemma erase_snapshot_inv c id i : inv c -> inv (erase_snapshot id i c).
Proof.
  intros Hi. destruct (states c !! id) as [h|] eqn:Hh;
    [destruct (h !! i) as [e|] eqn:He|]; try (unfold erase_snapshot; by rewrite Hh, ?He).
  destruct (erase_shrinks c id h i e (inv_wf _ Hi) Hh He) as (Hs & _).
  eapply shrinks_inv; [exact Hi|exact Hs|].
  unfold erase_snapshot. rewrite Hh, He. apply sync_metrics_synced.
Qed.

Lemma wf_set_max_bytes n c : wf c -> wf (set_max_bytes n c).
Proof. intros []. by split. Qed.

Lemma no_empty_session c : wf c -> states c !! ""%string = None.
Proof.
  intros Hw. destruct (states c !! ""%string) as [h|] eqn:E; [|done].
  by destruct (h_id _ _ _ (wf_hist _ Hw _ _ E)).
Qed.

(** Everything but the byte bound, which [trim] establishes. *)
Lemma trim_spec n c :
  wf c -> 0 <= n -> 0 <= clock c ->
  0 <= max_sessions (config c) /\ 0 <= max_snapshots_per_session (config c) /\
    0 <= max_bytes (config c) < 2 ^ 63 ->
  Z.of_nat (size (states c)) <= max_sessions (config c) ->
  map_Forall (fun _ h => size_of h <= max_snapshots_per_session (config c)) (states c) ->
  let '(released, c') := trim n c in
  inv c' /\ config c' = config c /\ bytes c' <= Z.min (max_bytes (config c)) n /\
  released = bytes c - bytes c' /\
  (forall id h, states c' !! id = Some h ->
     exists h', states c !! id = Some h' /\ h `sublist_of` h').
Proof.
  intros Hw Hn Ht Hc Hz Hsn. unfold trim.
  pose proof (no_empty_session c Hw) as He.
  destruct (evict_to_budget_spec "" 0 (set_max_bytes (Z.min (max_bytes (config c)) n) c))
    as (Hs & _ & Hz' & Hb); simpl; [by apply wf_set_max_bytes|lia|lia| | |].
  { rewrite He. by intros [? ?]. }
  { intros e (h & Hh & _). simpl in Hh. congruence. }
  set (c1 := evict_to_budget _ _ _) in *. simpl in *.
  pose proof (sh_wf _ _ Hs) as Hw1. pose proof (sh_bytes _ _ Hs) as Hb1. simpl in Hb1.
  assert (0 <= bytes c1) as Hnn.
  { rewrite (wf_bytes _ Hw1). apply msum_nonneg. by apply hist_total_nonneg. }
  pose proof (wf_bytes _ Hw). pose proof (wf_small _ Hw).
  pose proof (sh_config _ _ Hs) as Hcf. simpl in Hcf.
  assert (config (sync_metrics (set_max_bytes (max_bytes (config c)) c1)) = config c) as Hcf'.
  { simpl. rewrite Hcf. simpl. by destruct (config c). }
  split; [split|].
  - destruct Hw1. by split.
  - by rewrite Hcf'.
  - simpl. by rewrite (sh_clock _ _ Hs).
  - rewrite Hcf'. done.
  - rewrite Hcf'. by apply (shrinks_snapshots _ _ _ Hs).
  - rewrite Hcf'. simpl. lia.
  - apply sync_metrics_synced.
  - split; [done|]. split; [done|]. split; [simpl; apply u64_small; lia|].
    intros id h Hh. simpl in Hh. exact (sh_sub _ _ Hs id h Hh).
Qed.

Lemma trim_inv n c : inv c -> 0 <= n -> inv (trim n c).2.
Proof.
  intros [Hw Hc Ht Hz Hsn Hb _] Hn. pose proof (trim_spec n c Hw Hn Ht Hc Hz Hsn) as Hs.
  destruct (trim n c). apply Hs.
Qed.

Lemma set_limit_inv n c : inv c -> 0 <= n < 2 ^ 63 -> inv (set_limit n c).2.
Proof.
  intros [Hw Hc Ht Hz Hsn Hb _] Hn. unfold set_limit.
  pose proof (trim_spec n (set_max_bytes n c)) as Hs. destruct (trim n _).
  apply Hs; simpl; try done; try lia. by apply wf_set_max_bytes.
Qed.

Lemma set_stats_inv q h t c : inv c -> inv (set_stats q h t c).
Proof.
  intros [[? ? ?] ? ? ? ? ? [? ? ? ?]]. split; [by split|done..|by split].
Qed.

Lemma find_best_inv r p m e c : inv c -> inv (find_best r p m e c).2.
Proof.
  intros Hi. unfold find_best. destruct (_ || _); [done|].
  destruct (foldl _ _ _) as [[??]?]. destruct (bool_decide _); by apply set_stats_inv.
Qed.

Lemma history_ok_weaken t t' id h : t <= t' -> history_ok t id h -> history_ok t' id h.
Proof.
  intros Ht [? ? ? Hc ?]. split; try done. eapply Forall_impl; [exact Hc|].
  simpl. lia.
Qed.

(** Replacing an entry of a history by one with a fresh clock value. *)
Lemma history_ok_replace t t' id h i e e' :
  history_ok t id h -> h !! i = Some e -> t < last_used e' <= t' -> 0 <= t ->
  0 <= entry_bytes e' -> history_ok t' id (<[i:=e']> h).
Proof.
  intros [Hid Hne Hb Hc Hu] Hi Ht Ht0 Hb'.
  pose proof (lookup_lt_Some _ _ _ Hi) as Hlt.
  assert (forall x, x ∈ <[i:=e']> h -> x = e' \/ x ∈ h) as Hin.
  { intros x [j Hj]%list_elem_of_lookup.
    apply list_lookup_insert_Some in Hj as [(_ & <- & _)|(_ & Hj)]; [by left|right].
    by eapply list_elem_of_lookup_2. }
  rewrite Forall_forall in Hb, Hc. split; [done| | | |].
  - intros Hnil. apply (f_equal length) in Hnil. rewrite length_insert in Hnil.
    simpl in Hnil. lia.
  - apply Forall_forall. intros x [->|Hx]%Hin; [done|by apply Hb].
  - apply Forall_forall. intros x [->|Hx]%Hin; [lia|]. specialize (Hc x Hx). lia.
  - rewrite list_fmap_insert. apply NoDup_alt. intros j k x Hj Hk.
    rewrite NoDup_alt in Hu.
    assert (forall j, (last_used <$> h) !! j <> Some (last_used e')) as Hfresh.
    { intros j' Hj'. apply list_lookup_fmap_Some in Hj' as (y & Heq & Hy).
      apply list_elem_of_lookup_2 in Hy. specialize (Hc y Hy). lia. }
    apply list_lookup_insert_Some in Hj as [(<- & <- & _)|(Hij & Hj)];
      apply list_lookup_insert_Some in Hk as [(<- & Hx & _)|(Hik & Hk)].
    + done.
    + by destruct (Hfresh k).
    + destruct (Hfresh j). congruence.
    + by eapply Hu.
Qed.

Lemma history_ok_app t t' id h e' :
  history_ok t id h \/ (h = [] /\ id <> ""%string) ->
  t < last_used e' <= t' -> 0 <= t -> 0 <= entry_bytes e' ->
  history_ok t' id (h ++ [e']).
Proof.
  intros Hh Ht Ht0 Hb'. split.
  - destruct Hh as [[]|[]]; done.
  - by destruct h.
  - apply Forall_app. split; [|by constructor]. destruct Hh as [[]|[-> _]]; done.
  - apply Forall_app. split; [|constructor; [lia|done]].
    destruct Hh as [[_ _ _ Hc _]|[-> _]]; [|done].
    eapply Forall_impl; [exact Hc|]. simpl. lia.
  - rewrite fmap_app. simpl. apply NoDup_app. split; [|split; [|apply NoDup_singleton]].
    + destruct Hh as [[]|[-> _]]; [done|constructor].
    + intros x Hx ->%list_elem_of_singleton.
      destruct Hh as [[_ _ _ Hc _]|[-> _]]; [|set_solver].
      apply list_elem_of_fmap in Hx as (y & Hy & Hin). rewrite Forall_forall in Hc.
      specialize (Hc y Hin). lia.
Qed.

(** ** Recording a hit *)

Lemma record_hit_inv a m c :
  inv c -> clock c + 1 < 2 ^ 64 -> inv (record_hit a m c).2.
Proof.
  intros Hi Ht. pose proof (inv_clock _ Hi). unfold record_hit.
  destruct (states c !! session_id m) as [h|] eqn:Hh; [|done].
  destruct (h !! index m) as [e|] eqn:He; [|done].
  destruct a; [|done]. cbn [negb snd]. rewrite u64_small by lia. apply set_stats_inv.
  set (e' := {| state := state e; last_used := clock c + 1 |}).
  set (h' := <[index m := e']> h).
  destruct Hi as [[Hw Hwb Hws] Hc _ Hz Hsn Hb [M1 M2 M3 M4]].
  assert (forall f : Entry State -> Z, f e' = f e -> Zsum f h' = Zsum f h) as Hsum.
  { intros f Hf. unfold h'. rewrite (Zsum_delete f h (index m) e He).
    rewrite (Zsum_delete f (<[index m := e']> h) (index m) e')
      by (apply list_lookup_insert_eq; by eapply lookup_lt_Some).
    rewrite Hf. f_equal. f_equal. apply list_eq. intros j.
    destruct (decide (j < index m)%nat) as [Hj|Hj].
    - rewrite !list_lookup_delete_lt, list_lookup_insert_ne by lia. done.
    - rewrite !list_lookup_delete_ge, list_lookup_insert_ne by lia. done. }
  assert (size_of h' = size_of h) as Hlen.
  { unfold h', size_of. by rewrite length_insert. }
  assert (forall f, f h' = f h -> msum f (<[session_id m := h']> (states c)) = msum f (states c))
    as Hms.
  { intros f Hf. rewrite (msum_update f _ _ h) by done. lia. }
  assert (total (<[session_id m := h']> (states c)) = total (states c)) as Htot
    by (apply Hms, Hsum; done).
  split; [split| | | | | |split]; simpl; try done; try lia; rewrite ?Htot; try done.
  - apply map_Forall_insert_2.
    + apply (history_ok_replace (clock c) _ _ _ _ e); simpl; [by apply Hw|done|lia..|].
      pose proof (h_bytes _ _ _ (Hw _ _ Hh)) as Hf. rewrite Forall_forall in Hf.
      apply (Hf e). by eapply list_elem_of_lookup_2.
    + intros k x Hx. eapply history_ok_weaken; [|by apply Hw]. lia.
  - rewrite map_size_insert_Some by eauto. done.
  - apply map_Forall_insert_2; [|done]. rewrite Hlen. by apply (Hsn (session_id m)).
  - rewrite map_size_insert_Some by eauto. done.
  - unfold snapshots. rewrite Hms; [done|]. done.
  - rewrite Hms; [done|]. apply Hsum. done.
Qed.

(** ** Publishing new snapshots: the end of [store] and of [fork] *)

Definition publish (id : string) (t : Z) c : Cache State :=
  sync_metrics (evict_to_budget id t (evict_history_to_limit id t c)).

Lemma publish_spec id t c :
  wf c -> 0 <= clock c ->
  1 <= max_sessions (config c) -> 1 <= max_snapshots_per_session (config c) ->
  0 <= max_bytes (config c) < 2 ^ 63 ->
  (forall id' h, id' <> id -> states c !! id' = Some h ->
     size_of h <= max_snapshots_per_session (config c)) ->
  (forall e, holds (states c) id e -> last_used e = t ->
     entry_bytes e <= max_bytes (config c)) ->
  inv (publish id t c) /\ shrinks c (publish id t c) /\ spares id t c (publish id t c).
Proof.
  intros Hw Ht Hm1 Hm2 Hm3 Hsz Hb. unfold publish, evict_history_to_limit.
  set (n := length _).
  destruct (evict_history_spec id t n c) as (Hs1 & Hk1 & Hl & Ho); [done..|].
  set (c1 := evict_history_loop _ _ _ _) in *.
  pose proof (sh_config _ _ Hs1) as Hcf1.
  destruct (evict_to_budget_spec id t c1) as (Hs2 & Hk2 & Hz & Hby);
    rewrite ?Hcf1; [apply Hs1|lia|lia|done| |].
  { intros e He Hte. apply Hb; [|done]. by eapply shrinks_holds. }
  set (c2 := evict_to_budget id t c1) in *.
  rewrite Hcf1 in Hz, Hby. pose proof (shrinks_trans _ _ _ Hs1 Hs2) as Hs.
  pose proof (sh_config _ _ Hs) as Hcf.
  assert (shrinks c (sync_metrics c2)) as Hs'.
  { destruct Hs as [[] ? ? ? ? ? ?]. split; try done. }
  split; [|split; [done|]].
  - split; [apply Hs'| | | | | |apply sync_metrics_synced]; simpl;
      rewrite ?Hcf, ?(sh_clock _ _ Hs); try done; try lia.
    apply (shrinks_snapshots c1 c2 _ Hs2). intros k h Hh.
    destruct (decide (k = id)) as [->|Hk]; [|rewrite Ho in Hh by done; eauto].
    rewrite Hh in Hl. done.
  - intros e He Hte. apply Hk2; [by apply Hk1|done].
Qed.

(** ** [store] *)

(** The assignment to [previous], or the [push_back]. *)
Definition put (same_snapshot : State -> State -> bool) (entry : Entry State)
    (h : list (Entry State)) (b : Z) : list (Entry State) * Z :=
  match list_find (fun saved => same_snapshot (state saved) (state entry) = true) h with
  | Some (previous, saved) =>
      (<[previous := entry]> h, u64 (b - entry_bytes saved))
  | None => (h ++ [entry], b)
  end.

Lemma history_total c id : wf c ->
  0 <= Zsum entry_bytes (default [] (states c !! id)) <= total (states c).
Proof.
  intros Hw. destruct (states c !! id) as [h|] eqn:Hh; simpl; [by apply (hist_total_le c id)|].
  split; [done|]. apply msum_nonneg. by apply hist_total_nonneg.
Qed.

Lemma total_insert m id h :
  total (<[id := h]> m) =
  total m - Zsum entry_bytes (default [] (m !! id)) + Zsum entry_bytes h.
Proof.
  unfold total. destruct (m !! id) as [h'|] eqn:E; simpl.
  - by rewrite (msum_update _ _ _ _ _ E).
  - rewrite msum_insert by done. lia.
Qed.

Lemma put_spec same entry c id :
  inv c -> id <> ""%string -> last_used entry = clock c + 1 ->
  0 <= entry_bytes entry <= max_bytes (config c) ->
  let h := default [] (states c !! id) in
  let '(h', b) := put same entry h (bytes c) in
  history_ok (clock c + 1) id h' /\ entry ∈ h' /\
  (forall x, x ∈ h' -> x = entry \/ x ∈ h) /\
  total (<[id := h']> (states c)) < 2 ^ 64 /\
  u64 (b + entry_bytes entry) = total (<[id := h']> (states c)).
Proof.
  intros [Hw (_ & _ & Hmb) Ht _ _ Hb _] Hid Hlu Hsz h.
  pose proof (history_total c id Hw) as Htot. pose proof (wf_bytes _ Hw) as Hbt. fold h in Htot.
  assert (history_ok (clock c) id h \/ (h = [] /\ id <> ""%string)) as Hok.
  { unfold h. destruct (states c !! id) as [h0|] eqn:E; [left|by right].
    by apply (wf_hist _ Hw). }
  unfold put. destruct (list_find _ h) as [[i saved]|] eqn:Hf.
  - apply list_find_Some in Hf as (Hi & _ & _).
    assert (saved ∈ h) as Hin by by eapply list_elem_of_lookup_2.
    destruct Hok as [Hok|[-> _]]; [|set_solver].
    pose proof (lookup_lt_Some _ _ _ Hi) as Hlt.
    assert (Zsum entry_bytes (<[i := entry]> h) =
            Zsum entry_bytes h - entry_bytes saved + entry_bytes entry) as Hsum.
    { rewrite (Zsum_delete entry_bytes h i saved Hi).
      rewrite (Zsum_delete entry_bytes (<[i := entry]> h) i entry)
        by by apply list_lookup_insert_eq.
      replace (delete i (<[i := entry]> h)) with (delete i h); [lia|].
      apply list_eq. intros j. destruct (decide (j < i)%nat) as [Hj|Hj].
      - by rewrite !list_lookup_delete_lt, list_lookup_insert_ne by lia.
      - by rewrite !list_lookup_delete_ge, list_lookup_insert_ne by lia. }
    pose proof (Zsum_elem_le entry_bytes h saved (h_bytes _ _ _ Hok) Hin) as Hle.
    pose proof (h_bytes _ _ _ Hok) as Hnn. rewrite Forall_forall in Hnn.
    specialize (Hnn _ Hin). simpl in Hnn.
    rewrite total_insert. fold h. rewrite Hsum. split; [|split; [|split; [|split]]].
    + apply (history_ok_replace (clock c) _ _ _ _ saved); try done; lia.
    + eapply list_elem_of_lookup_2, list_lookup_insert_eq, Hlt.
    + intros x [j Hj]%list_elem_of_lookup.
      apply list_lookup_insert_Some in Hj as [(_ & <- & _)|(_ & Hj)]; [by left|right].
      by eapply list_elem_of_lookup_2.
    + lia.
    + rewrite u64_add_l, u64_small; lia.
  - rewrite total_insert. fold h. rewrite Zsum_app. unfold Zsum at 3 6. cbn [foldr].
    split; [|split; [|split; [|split]]].
    + apply (history_ok_app (clock c)); [done|lia..].
    + set_solver.
    + set_solver.
    + lia.
    + rewrite u64_small; lia.
Qed.

(** The entry with the fresh clock value is the one just stored. *)
Lemma find_fresh t (h : list (Entry State)) (e : Entry State) :
  NoDup (last_used <$> h) -> e ∈ h -> last_used e = t ->
  exists i, list_find (fun x => last_used x = t) h = Some (i, e).
Proof.
  intros Hu He Ht. destruct (list_find_elem_of (fun x => last_used x = t) h e He Ht)
    as [[i x] Hf]. exists i. rewrite Hf. f_equal. f_equal.
  apply list_find_Some in Hf as (Hi & Hx & _).
  apply list_elem_of_lookup in He as [j Hj].
  assert (i = j) as ->; [|congruence].
  eapply NoDup_lookup; [exact Hu| |].
  - rewrite list_lookup_fmap, Hi. done.
  - rewrite list_lookup_fmap, Hj. simpl. congruence.
Qed.

(** The session entries a put makes held: the new one and old ones. *)
Lemma holds_insert m id h x e :
  holds (<[id := h]> m) x e -> (x = id /\ e ∈ h) \/ (x <> id /\ holds m x e).
Proof.
  intros (h' & Hh & He). apply lookup_insert_Some in Hh as [[-> ->]|[? Hh]];
    [by left|right]. split; [done|by exists h'].
Qed.

Lemma store_ok id st same c :
  inv c -> 0 <= snap_bytes st -> clock c + 1 < 2 ^ 64 ->
  id <> ""%string -> enabled c = true -> snap_bytes st <= max_bytes (config c) ->
  let e := {| state := st; last_used := clock c + 1 |} in
  exists r, (store id st same c).1 = Ok (Some r) /\
  let c' := (store id st same c).2 in
  inv c' /\ config c' = config c /\ clock c' = clock c + 1 /\
  stored_state r = st /\ total_bytes r = bytes c' /\
  session_snapshots r = size_of (default [] (states c' !! id)) /\
  holds (states c') id e /\
  (forall x y, holds (states c') x y -> (x = id /\ y = e) \/ holds (states c) x y).
Proof.
  intros Hi Hb0 Ht Hid Hen Hsz e. unfold store.
  rewrite (bool_decide_false (id = "")) by done. rewrite Hen.
  rewrite (proj2 (Z.ltb_ge _ _)) by lia. cbn [orb negb].
  pose proof (inv_clock _ Hi) as Ht0. rewrite u64_small by lia. fold e.
  pose proof (put_spec same e c id Hi Hid eq_refl ltac:(done)) as Hput.
  unfold put in Hput. cbn [set_clock states bytes]. cbn [state e] in Hput. cbv zeta in Hput.
  set (hb := match list_find _ _ with Some _ => _ | None => _ end).
  change (match list_find _ _ with Some _ => _ | None => _ end) with hb in Hput.
  destruct hb as [h' b]. destruct Hput as (Hok & Hin & Hold & Hsm & Htot).
  destruct (find_fresh (clock c + 1) h' e (h_unique _ _ _ Hok) Hin eq_refl) as [i ->].
  cbn [set_store states bytes]. rewrite Htot.
  match goal with |- context [evict_history_to_limit id _ ?x] => set (c1 := x) end.
  assert (wf c1) as Hw1.
  { split; simpl; [|done|done]. apply map_Forall_insert_2; [done|].
    intros k x Hk. eapply history_ok_weaken; [|by apply (wf_hist _ (inv_wf _ Hi))]. lia. }
  assert (forall x, holds (states c1) id x -> last_used x = clock c + 1 -> x = e) as Hfresh.
  { intros x Hx Hlu. apply holds_insert in Hx as [[_ Hx]|[? _]]; [|done].
    apply Hold in Hx as [->|Hx]; [done|]. exfalso.
    destruct (states c !! id) as [h|] eqn:E; simpl in Hx; [|set_solver].
    pose proof (h_clock _ _ _ (wf_hist _ (inv_wf _ Hi) _ _ E)) as Hc.
    rewrite Forall_forall in Hc. specialize (Hc _ Hx). simpl in Hc. lia. }
  unfold enabled in Hen. rewrite !andb_true_iff, !Z.ltb_lt in Hen.
  destruct (publish_spec id (clock c + 1) c1) as (Hi' & Hs & Hk); simpl; try lia; try done.
  { apply (inv_config _ Hi). }
  { intros k x Hk. rewrite lookup_insert_ne by done. apply (inv_snapshots _ Hi). }
  { intros x Hx Hlu. by rewrite (Hfresh x Hx Hlu). }
  unfold publish in Hi', Hs, Hk. set (c2 := sync_metrics _) in *.
  assert (holds (states c2) id e) as (hs & Hhs & Hes).
  { apply Hk; [|done]. exists h'. split; [by apply lookup_insert_eq|done]. }
  change (states (evict_to_budget _ _ _)) with (states c2).
  change (bytes (evict_to_budget _ _ _)) with (bytes c2). rewrite Hhs.
  destruct (find_fresh (clock c + 1) hs e
    (h_unique _ _ _ (wf_hist _ (inv_wf _ Hi') _ _ Hhs)) Hes eq_refl) as [j ->].
  eexists. split; [done|]. cbn [snd stored_state total_bytes session_snapshots].
  split; [done|]. split; [by rewrite (sh_config _ _ Hs)|]. split; [by rewrite (sh_clock _ _ Hs)|].
  split; [done|]. split; [done|]. split; [by rewrite Hhs|]. split; [by exists hs|].
  intros x y Hxy. apply (shrinks_holds _ _ _ _ Hs), holds_insert in Hxy as [[-> Hy]|[_ Hy]];
    [|by right].
  apply Hold in Hy as [->|Hy]; [by left|right].
  destruct (states c !! id) as [h|] eqn:E; simpl in Hy; [by exists h|set_solver].
Qed.

(** ** [fork] and [clear] *)

Lemma fork_copies_spec l : forall t b,
  0 <= t -> t + size_of l < 2 ^ 64 -> 0 <= b ->
  Forall (fun e => 0 <= entry_bytes e) l -> b + Zsum entry_bytes l < 2 ^ 64 ->
  let '(l', t', b') := fork_copies t b l in
  t' = t + size_of l /\ b' = b + Zsum entry_bytes l /\
  state <$> l' = state <$> l /\
  Forall (fun e => t < last_used e <= t') l' /\ NoDup (last_used <$> l') /\
  (forall e, last l' = Some e -> last_used e = t').
Proof.
  induction l as [|e l IH]; intros t b Ht0 Ht Hb0 Hnn Hb; cbn [fork_copies].
  { split; [unfold size_of; simpl; lia|]. split; [unfold Zsum; simpl; lia|].
    split; [done|]. split; [constructor|]. split; [constructor|done]. }
  apply Forall_cons in Hnn as [He Hnn]. pose proof (Zsum_nonneg _ _ Hnn) as Hz.
  assert (size_of (e :: l) = 1 + size_of l) as Hlen by (unfold size_of; simpl; lia).
  assert (Zsum entry_bytes (e :: l) = entry_bytes e + Zsum entry_bytes l) as Hsum by done.
  pose proof (size_of_nonneg l).
  rewrite (u64_small (t + 1)), (u64_small (b + entry_bytes e)) by lia.
  specialize (IH (t + 1) (b + entry_bytes e) ltac:(lia) ltac:(lia) ltac:(lia) Hnn ltac:(lia)).
  destruct (fork_copies (t + 1) (b + entry_bytes e) l) as [[l' t'] b'].
  destruct IH as (-> & -> & Hst & Hc & Hu & Hlast).
  split; [lia|]. split; [lia|]. split; [by rewrite !fmap_cons, Hst|].
  split; [|split].
  - constructor; simpl; [lia|]. eapply Forall_impl; [exact Hc|]. simpl. lia.
  - rewrite fmap_cons. apply NoDup_cons. split; [|done]. simpl.
    intros (x & Hx & Hin)%list_elem_of_fmap. rewrite Forall_forall in Hc.
    specialize (Hc x Hin). lia.
  - intros x Hx. destruct l' as [|y l'].
    + assert (l = []) as -> by (by destruct l). simplify_eq/=. unfold size_of. simpl. lia.
    + rewrite last_cons_cons in Hx. rewrite (Hlast x Hx). lia.
Qed.

(** The conditions under which [fork] copies. *)
Definition forks (source target : string) c (h : list (Entry State)) : Prop :=
  source <> ""%string /\ target <> ""%string /\ source <> target /\ enabled c = true /\
  states c !! source = Some h.

Lemma closed_inv c id : inv c ->
  inv (close id c).2 /\ states (close id c).2 = delete id (states c) /\
  config (close id c).2 = config c /\ clock (close id c).2 = clock c.
Proof.
  intros Hi. split; [by apply close_inv|].
  destruct (states c !! id) as [h|] eqn:Hh.
  - destruct (close_shrinks c id h (inv_wf _ Hi) Hh) as (Hs & Hst & _).
    split; [done|]. split; apply Hs.
  - unfold close. rewrite Hh. simpl. by rewrite delete_id.
Qed.

Lemma Zsum_states (l h : list (Entry State)) :
  state <$> l = state <$> h -> Zsum entry_bytes l = Zsum entry_bytes h.
Proof.
  revert h. induction l as [|x l IH]; intros [|y h] [=]; [done|].
  unfold Zsum in *. simpl. rewrite (IH h) by done. unfold entry_bytes. congruence.
Qed.

(** The target history before the evictions. *)
Lemma fork_target_ok c source target h l :
  inv c -> states c !! target = None -> target <> ""%string ->
  states c !! source = Some h -> state <$> l = state <$> h ->
  Forall (fun e => clock c < last_used e <= clock c + size_of h) l ->
  NoDup (last_used <$> l) ->
  wf (set_clock (clock c + size_of h)
        (set_store (<[target := l]> (states c)) (bytes c + Zsum entry_bytes h) c)) /\
  Forall (fun e => entry_bytes e <= max_bytes (config c)) l.
Proof.
  intros Hi Hnone Hid Hh Hst Hc Hu. pose proof (Zsum_states _ _ Hst) as Hzl.
  pose proof (hist_total_le c _ _ (inv_wf _ Hi) Hh) as Hzt.
  pose proof (wf_bytes _ (inv_wf _ Hi)) as Hbt. pose proof (inv_bytes _ Hi) as Hbm.
  destruct (inv_config _ Hi) as (_ & _ & Hmax). pose proof (inv_clock _ Hi) as Ht0.
  pose proof (wf_hist _ (inv_wf _ Hi) _ _ Hh) as Hok. pose proof (size_of_nonneg h) as Hn0.
  assert (Forall (fun e => 0 <= entry_bytes e) l) as Hnn.
  { apply Forall_forall. intros e He.
    assert (state e ∈ state <$> h) as Hx by (rewrite <- Hst; by apply list_elem_of_fmap_2).
    apply list_elem_of_fmap in Hx as (y & Hy & Hin).
    pose proof (h_bytes _ _ _ Hok) as Hb. rewrite Forall_forall in Hb.
    unfold entry_bytes. rewrite Hy. by apply (Hb y). }
  assert (total (<[target:=l]> (states c)) = bytes c + Zsum entry_bytes h) as Htot.
  { rewrite total_insert, Hnone, Hzl, Hbt. simpl. lia. }
  split.
  - split; simpl; [|by rewrite Htot|rewrite Htot; lia]. apply map_Forall_insert_2.
    + split; try done.
      * intros ->. destruct h; [by destruct Hok|done].
      * eapply Forall_impl; [exact Hc|]. simpl. lia.
    + intros k x Hk. eapply history_ok_weaken; [|by apply (wf_hist _ (inv_wf _ Hi))]. lia.
  - apply Forall_forall. intros e He. pose proof (Zsum_elem_le entry_bytes l e Hnn He). lia.
Qed.

Lemma fork_ok source target c h :
  inv c -> forks source target c h -> clock c + size_of h < 2 ^ 64 ->
  let '(n, c') := fork source target c in
  inv c' /\ config c' = config c /\ clock c' = clock c + size_of h /\
  n = size_of (default [] (states c' !! target)) /\
  (forall x e, holds (states c') x e -> x <> target -> holds (states c) x e) /\
  (forall e, holds (states c') target e -> state e ∈ state <$> h) /\
  (forall e, last h = Some e -> exists e', holds (states c') target e' /\ state e' = state e).
Proof.
  intros Hi (Hs & Ht & Hne & Hen & Hh) Hclk. unfold fork.
  rewrite !bool_decide_false, Hen, Hh by done. cbn [orb negb].
  destruct (closed_inv c target Hi) as (Hi0 & Hst0 & Hcf0 & Hck0).
  set (c0 := (close target c).2) in *. pose proof (inv_clock _ Hi) as Ht0.
  assert (states c0 !! source = Some h) as Hh0 by (by rewrite Hst0, lookup_delete_ne).
  pose proof (hist_total_le c0 _ _ (inv_wf _ Hi0) Hh0) as Hzt.
  pose proof (wf_bytes _ (inv_wf _ Hi0)) as Hbt. pose proof (inv_bytes _ Hi0) as Hbm.
  destruct (inv_config _ Hi0) as (_ & _ & Hmax).
  pose proof (wf_hist _ (inv_wf _ Hi) _ _ Hh) as Hok.
  pose proof (fork_copies_spec h (clock c0) (bytes c0) ltac:(lia) ltac:(lia) ltac:(lia)
    (h_bytes _ _ _ Hok) ltac:(lia)) as Hcp.
  destruct (fork_copies (clock c0) (bytes c0) h) as [[l t] b].
  destruct Hcp as (-> & -> & Hstl & Hcl & Hul & Hlast). rewrite Hck0 in Hcl, Hlast |- *.
  match goal with |- context [evict_history_to_limit target _ ?x] => set (c1 := x) end.
  destruct (fork_target_ok c0 source target h l) as [Hw1 Hbl]; rewrite ?Hck0; try done.
  { by rewrite Hst0, lookup_delete_eq. }
  rewrite Hck0 in Hw1. fold c1 in Hw1.
  unfold enabled in Hen. rewrite !andb_true_iff, !Z.ltb_lt in Hen. rewrite Hcf0 in Hmax.
  set (tl := match last l with Some _ => _ | None => _ end).
  destruct (publish_spec target tl c1) as (Hi' & Hsh & Hk); simpl; rewrite ?Hcf0; try done; try lia.
  { pose proof (size_of_nonneg h). lia. }
  { intros k x Hk. rewrite lookup_insert_ne by done. rewrite <- Hcf0.
    apply (inv_snapshots _ Hi0). }
  { intros e He _. apply holds_insert in He as [[_ He]|[? _]]; [|done].
    rewrite Forall_forall, Hcf0 in Hbl. by apply Hbl. }
  unfold publish in Hi', Hsh, Hk. set (c2 := sync_metrics _) in *.
  split; [done|]. split; [etrans; [exact (sh_config _ _ Hsh)|done]|].
  split; [exact (sh_clock _ _ Hsh)|].
  split; [change (states (evict_to_budget _ _ _)) with (states c2);
          by destruct (states c2 !! target)|].
  split; [|split].
  - intros x e (h' & Hx & He)%(shrinks_holds _ _ _ _ Hsh) Hxt. simpl in Hx.
    rewrite lookup_insert_ne, Hst0, lookup_delete_ne in Hx by done. by exists h'.
  - intros e He%(shrinks_holds _ _ _ _ Hsh).
    apply holds_insert in He as [[_ He]|[? _]]; [|done].
    rewrite <- Hstl. by apply list_elem_of_fmap_2.
  - intros e He.
    assert (state <$> last l = state <$> last h) as Hll by (by rewrite <- !fmap_last, Hstl).
    rewrite He in Hll. unfold tl in *. destruct (last l) as [e'|] eqn:El; [|done].
    exists e'. split; [|simpl in Hll; congruence]. apply Hk; [|done].
    exists l. split; [by apply lookup_insert_eq|].
    apply last_Some in El as [l'' ->]. set_solver.
Qed.

Lemma clear_inv c : inv c -> inv (clear c).2.
Proof.
  intros [Hw Hc Ht Hz Hsn Hb _].
  split; [split|..]; simpl; unfold total; rewrite ?msum_empty, ?map_size_empty;
    try done; try apply sync_metrics_synced; lia.
Qed.

Lemma make_cache_inv cfg :
  0 <= max_sessions cfg -> 0 <= max_snapshots_per_session cfg ->
  0 <= max_bytes cfg < 2 ^ 63 -> inv (make cfg).
Proof.
  intros. split; [split|..|split]; simpl; unfold total, snapshots;
    rewrite ?msum_empty, ?map_size_empty; try done; lia.
Qed.

(** ** [find_best] *)

(** The conditions of the search on a snapshot. *)
Record matches (prompt : list Z) (limit : Z) (eligible : State -> bool) (s : State)
    : Prop := {
  mt_nonempty : snap_tokens s <> [];
  mt_prefix : snap_tokens s `prefix_of` prompt;
  mt_proper : size_of (snap_tokens s) < size_of prompt;
  mt_limit : size_of (snap_tokens s) <= limit;
  mt_eligible : eligible s = true;
}.

Lemma prefix_candidate_spec prompt limit eligible s :
  prefix_candidate prompt limit eligible s = true <-> matches prompt limit eligible s.
Proof.
  unfold prefix_candidate.
  rewrite !andb_true_iff, negb_true_iff, bool_decide_eq_false, bool_decide_eq_true,
    Z.ltb_lt, Z.leb_le.
  split.
  - intros [[[[? ?] ?] ?] Ht]. split; try done. rewrite <- Ht. exists (drop (length (snap_tokens s)) prompt).
    by rewrite take_drop.
  - intros [? [k ->] ? ? ?]. by rewrite take_app_length.
Qed.

(** What the loop has selected after the snapshots [l]. *)
Definition selection (req : string) (prompt : list Z) (limit : Z) (eligible : State -> bool)
    (l : list (string * (nat * Entry State))) (sel : string * nat * Z) : Prop :=
  let '(id, i, n) := sel in
  let cand x := matches prompt limit eligible (state x.2.2) in
  if decide (id = ""%string) then n = 0 /\ (forall x, x ∈ l -> ~ cand x)
  else exists e, (id, (i, e)) ∈ l /\ cand (id, (i, e)) /\ entry_tokens e = n /\ 0 < n /\
    forall x, x ∈ l -> cand x ->
      entry_tokens x.2.2 <= n /\ (x.1 = req -> entry_tokens x.2.2 = n -> id = req).

Lemma select_step_spec req prompt limit eligible l sel x :
  x.1 <> ""%string -> selection req prompt limit eligible l sel ->
  selection req prompt limit eligible (l ++ [x])
    (select_step req prompt limit eligible sel x).
Proof.
  destruct sel as [[sid si] n], x as [id [i e]]. cbn [fst]. intros Hid Hsel.
  cbn [select_step]. pose proof (prefix_candidate_spec prompt limit eligible (state e)) as Hpc.
  destruct (prefix_candidate _ _ _ _); cbn [negb orb].
  2:{ assert (~ matches prompt limit eligible (state e)) as Hno by (by rewrite <- Hpc).
      unfold selection in *. case_decide.
      - destruct Hsel as [-> Hs]. split; [done|]. intros x [Hx|Hx]%elem_of_app; [by apply Hs|].
        apply list_elem_of_singleton in Hx as ->. done.
      - destruct Hsel as (e0 & Hin & Hc & Hn & Hn0 & Hs). exists e0.
        split; [set_solver|]. split; [done|]. split; [done|]. split; [done|].
        intros x [Hx|Hx]%elem_of_app; [by apply Hs|].
        apply list_elem_of_singleton in Hx as ->. done. }
  assert (matches prompt limit eligible (state e)) as Hm by (by apply Hpc).
  assert (0 < entry_tokens e) as Hpos.
  { pose proof (mt_nonempty _ _ _ _ Hm) as Hne. unfold entry_tokens, size_of.
    destruct (snap_tokens (state e)); [done|]. simpl. lia. }
  assert (forall b, (entry_tokens e < n -> b = false) -> (b = false -> id <> req \/ sid = req \/ entry_tokens e <> n) ->
    (b = false -> entry_tokens e <= n) -> (b = true -> n <= entry_tokens e) ->
    (b = true -> entry_tokens e = n -> id = req) ->
    selection req prompt limit eligible (l ++ [(id, (i, e))])
      (if b then (id, i, entry_tokens e) else (sid, si, n))) as Hgen.
  { intros [] H1 H2 H3 H4 H5; unfold selection in *.
    - rewrite decide_False by done. exists e. split; [set_solver|]. split; [done|].
      split; [done|]. split; [done|]. specialize (H4 eq_refl). specialize (H5 eq_refl).
      intros x [Hx|Hx]%elem_of_app Hcx.
      2:{ apply list_elem_of_singleton in Hx as ->. split; [simpl; lia|done]. }
      case_decide; [destruct Hsel as [_ Hs]; by destruct (Hs x)|].
      destruct Hsel as (e0 & _ & _ & _ & _ & Hs). destruct (Hs x Hx Hcx) as [Hle Hreq].
      split; [lia|]. intros Hxr Hxe. apply H5. lia.
    - specialize (H2 eq_refl). specialize (H3 eq_refl). case_decide; [destruct Hsel; lia|].
      destruct Hsel as (e0 & Hin & Hc & Hn & Hn0 & Hs). exists e0.
      split; [set_solver|]. split; [done|]. split; [done|]. split; [done|].
      intros x [Hx|Hx]%elem_of_app; [by apply Hs|].
      apply list_elem_of_singleton in Hx as ->. simpl. intros _. split; [done|].
      intros -> Hee. destruct H2 as [|[|]]; done. }
  destruct (Z.ltb_spec (entry_tokens e) n) as [Hlt|Hge].
  { apply (Hgen false); try done; intros; lia. }
  apply Hgen; [lia| | | |]; destruct (Z.ltb_spec n (entry_tokens e)),
    (Z.eqb_spec (entry_tokens e) n), (decide (id = req)), (decide (sid = req));
    rewrite ?(bool_decide_true (id = req)), ?(bool_decide_true (sid = req)),
      ?(bool_decide_false (id = req)), ?(bool_decide_false (sid = req)) by done;
    simpl; try done; try lia; auto.
Qed.

Lemma select_all req prompt limit eligible l :
  Forall (fun x => x.1 <> ""%string) l ->
  selection req prompt limit eligible l
    (foldl (select_step req prompt limit eligible) (""%string, O, 0) l).
Proof.
  induction l as [|x l IH] using rev_ind.
  { intros _. simpl. split; [done|set_solver]. }
  intros [Hl Hx]%Forall_app. apply Forall_cons in Hx as [Hx _]. rewrite foldl_snoc.
  apply select_step_spec; [done|by apply IH].
Qed.

Lemma find_best_ok req prompt limit eligible c :
  inv c -> req <> ""%string -> enabled c = true ->
  let '(r, c') := find_best req prompt limit eligible c in
  states c' = states c /\ queries c' = u64 (queries c + 1) /\
  match r with
  | None => forall id e, holds (states c) id e -> ~ matches prompt limit eligible (state e)
  | Some m => exists h e,
      states c !! session_id m = Some h /\ h !! index m = Some e /\
      matches prompt limit eligible (state e) /\
      forall id e', holds (states c) id e' -> matches prompt limit eligible (state e') ->
        entry_tokens e' <= entry_tokens e /\
        (id = req -> entry_tokens e' = entry_tokens e -> session_id m = req)
  end.
Proof.
  intros Hi Hreq Hen. unfold find_best. rewrite bool_decide_false, Hen by done. cbn [negb orb].
  cbn [set_stats states].
  pose proof (select_all req prompt limit eligible (all_snapshots (states c))) as Hsel.
  assert (forall id e, holds (states c) id e -> exists i, (id, (i, e)) ∈ all_snapshots (states c))
    as Hall.
  { intros id e (h & Hh & [i He]%list_elem_of_lookup). exists i.
    apply all_snapshots_elem. eauto. }
  destruct (foldl _ _ _) as [[sid si] n]. unfold selection in Hsel. cbn [fst snd] in Hsel.
  assert (Forall (fun x => x.1 <> ""%string) (all_snapshots (states c))) as Hids.
  { apply Forall_forall. intros [id [i e]] (h & Hh & _)%all_snapshots_elem.
    apply (h_id _ _ _ (wf_hist _ (inv_wf _ Hi) _ _ Hh)). }
  specialize (Hsel Hids). case_decide as Hs.
  - rewrite bool_decide_true by done. split; [done|]. split; [done|].
    intros id e [i Hx]%Hall. by apply Hsel in Hx.
  - rewrite bool_decide_false by done. split; [done|]. split; [done|]. cbn [session_id index].
    destruct Hsel as (e & Hin & Hc & <- & _ & Hmax).
    apply all_snapshots_elem in Hin as (h & Hh & He). exists h, e.
    split; [done|]. split; [done|]. split; [done|].
    intros id e' [i Hx]%Hall Hc'. by apply (Hmax _ Hx).
Qed.

(** ** [trim] evicts the least recently used snapshots *)

Lemma evict_sessions_none fuel pid c :
  Z.of_nat (size (states c)) <= max_sessions (config c) ->
  evict_sessions_loop fuel pid c = c.
Proof. intros Hz. destruct fuel; simpl; [done|]. by rewrite (proj2 (Z.ltb_ge _ _)). Qed.

Lemma trim_lru n c :
  inv c -> 0 <= n ->
  forall id e, holds (states c) id e -> ~ holds (states (trim n c).2) id e ->
  forall id' e', holds (states (trim n c).2) id' e' -> last_used e <= last_used e'.
Proof.
  intros Hi Hn id e. unfold trim. cbn [snd]. unfold evict_to_budget.
  rewrite evict_sessions_none by (simpl; apply Hi).
  set (c0 := set_max_bytes _ c). pose proof (no_empty_session c (inv_wf _ Hi)) as He.
  destruct (evict_bytes_spec "" 0 (length (all_snapshots (states c0))) c0)
    as (Hs & _ & _ & Hl).
  - apply wf_set_max_bytes, Hi.
  - rewrite <- all_snapshots_length. unfold size_of. lia.
  - pose proof (inv_config _ Hi). simpl. lia.
  - intros y (h & Hh & _). simpl in Hh. congruence.
  - intros Hx Hy id' e' Hx'. apply (Hl id e Hx Hy id' e' Hx'). intros [-> _].
    apply (shrinks_holds _ _ _ _ Hs) in Hx' as (h & Hh & _). simpl in Hh. congruence.
Qed.

End SnapshotCache.

(** ** The public operations and the reachable caches *)

Inductive op (State : Type) : Type :=
  | OFind (session : string) (prompt : list Z) (limit : Z) (eligible : State -> bool)
  | OHit (same_address : bool) (m : Match)
  | OErase (m : Match)
  | OStore (session : string) (st : State) (same_snapshot : State -> State -> bool)
  | OFork (source target : string)
  | OClose (session : string)
  | OClear
  | OTrim (target_bytes : Z)
  | OLimit (limit : Z).
Arguments OFind {State}.
Arguments OHit {State}.
Arguments OErase {State}.
Arguments OStore {State}.
Arguments OFork {State}.
Arguments OClose {State}.
Arguments OClear {State}.
Arguments OTrim {State}.
Arguments OLimit {State}.

Section Reachable.
Context {State : Type} `{SnapshotState State}.

Abbreviation order := (gmap string (list (Entry State)) -> list (string * list (Entry State))).

Definition apply (iter : order) (o : op State) (c : Cache State) : Cache State :=
  match o with
  | OFind session prompt limit eligible => (find_best iter session prompt limit eligible c).2
  | OHit same m => (record_hit same m c).2
  | OErase m => erase iter m c
  | OStore session st same => (store iter session st same c).2
  | OFork source target => (fork iter source target c).2
  | OClose session => (close iter session c).2
  | OClear => (clear iter c).2
  | OTrim n => (trim iter n c).2
  | OLimit n => (set_limit iter n c).2
  end.

(** Machine-width arguments, and a clock that has not wrapped: it counts the
    snapshots ever stored, copied or hit. *)
Definition op_ok (o : op State) (c : Cache State) : Prop :=
  match o with
  | OHit _ _ => clock c + 1 < 2 ^ 64
  | OStore _ st _ => 0 <= snap_bytes st /\ clock c + 1 < 2 ^ 64
  | OFork source _ => clock c + size_of (default [] (states c !! source)) < 2 ^ 64
  | OTrim n => 0 <= n
  | OLimit n => 0 <= n < 2 ^ 63
  | _ => True
  end.

(** Every operation may meet the sessions in another order. *)
Inductive reachable : Cache State -> Prop :=
  | reachable_make cfg :
      0 <= max_sessions cfg -> 0 <= max_snapshots_per_session cfg ->
      0 <= max_bytes cfg < 2 ^ 63 -> reachable (make cfg)
  | reachable_apply iter o c :
      (forall m, iter m ≡ₚ map_to_list m) -> op_ok o c -> reachable c ->
      reachable (apply iter o c).

Lemma fork_cases (iter : order) source target (c : Cache State) :
  fork iter source target c = (0, c) \/ exists h, forks source target c h.
Proof.
  unfold fork, forks. case_bool_decide; [by left|]. case_bool_decide; [by left|].
  case_bool_decide; [by left|]. destruct (enabled c); [|by left].
  destruct (states c !! source) as [h|] eqn:Hh; [|by left].
  right. by exists h.
Qed.

Lemma reachable_cache_inv c : reachable c -> inv c.
Proof.
  induction 1 as [cfg H1 H2 H3|iter o c Hp Hok Hr IH]; [by apply make_cache_inv|].
  destruct o as [r p l e|a m|m|id st same|src dst|id| |n|n]; simpl in *.
  - by apply find_best_inv.
  - by apply record_hit_inv.
  - by apply erase_snapshot_inv.
  - destruct (decide (id = ""%string)) as [->|Hid].
    { unfold store. by rewrite bool_decide_true. }
    destruct (enabled c) eqn:Hen.
    2:{ unfold store. by rewrite Hen, orb_true_r. }
    destruct (Z.ltb_spec (max_bytes (config c)) (snap_bytes st)) as [Hlt|Hle].
    { unfold store. rewrite (proj2 (Z.ltb_lt _ _)), orb_true_r by done. done. }
    destruct (store_ok iter Hp id st same c) as (x & _ & Hx & _); try done; apply Hok.
  - destruct (fork_cases iter src dst c) as [->|[h Hf]]; [done|].
    pose proof (fork_ok iter Hp src dst c h IH Hf) as Hx.
    destruct Hf as (_ & _ & _ & _ & Hh). rewrite Hh in Hok. simpl in Hok.
    specialize (Hx Hok). destruct (fork iter src dst c). apply Hx.
  - by apply close_inv.
  - by apply clear_inv.
  - by apply trim_inv.
  - by apply set_limit_inv.
Qed.


(** Storing a snapshot that fits never throws and never loses it: the
    result is the stored snapshot, held under a fresh clock value, and every
    other snapshot held afterwards was held before. *)
Theorem store_keeps_snapshot (iter : order) (c : Cache State) id st same :
  (forall m, iter m ≡ₚ map_to_list m) -> reachable c ->
  0 <= snap_bytes st -> clock c + 1 < 2 ^ 64 ->
  id <> ""%string -> enabled c = true -> snap_bytes st <= max_bytes (config c) ->
  exists r c', store iter id st same c = (Ok (Some r), c') /\
    stored_state r = st /\ total_bytes r = bytes c' /\
    session_snapshots r = size_of (default [] (states c' !! id)) /\
    holds (states c') id {| state := st; last_used := clock c + 1 |} /\
    (forall x y, holds (states c') x y ->
       (x = id /\ y = {| state := st; last_used := clock c + 1 |}) \/ holds (states c) x y).
Proof.
  intros Hp Hi%reachable_cache_inv H1 H2 H3 H4 H5.
  destruct (store_ok iter Hp id st same c Hi H1 H2 H3 H4 H5)
    as (r & Hr & _ & _ & _ & Hrs & Hrt & Hrn & Hh & Ho).
  exists r, (store iter id st same c).2. split; [by rewrite <- Hr; destruct (store _ _ _ _ _)|].
  done.
Qed.

(** The search returns a longest snapshot among the eligible proper
    prefixes of the prompt over all sessions, preferring the requested session
    on ties, and nothing exactly when there is no such prefix. *)
Theorem find_best_longest (iter : order) (c : Cache State) req prompt limit eligible :
  (forall m, iter m ≡ₚ map_to_list m) -> reachable c ->
  req <> ""%string -> enabled c = true ->
  match (find_best iter req prompt limit eligible c).1 with
  | None => forall id e, holds (states c) id e -> ~ matches prompt limit eligible (state e)
  | Some m => exists h e,
      states c !! session_id m = Some h /\ h !! index m = Some e /\
      matches prompt limit eligible (state e) /\
      forall id e', holds (states c) id e' -> matches prompt limit eligible (state e') ->
        entry_tokens e' <= entry_tokens e /\
        (id = req -> entry_tokens e' = entry_tokens e -> session_id m = req)
  end.
Proof.
  intros Hp Hi%reachable_cache_inv Hr He.
  pose proof (find_best_ok iter Hp req prompt limit eligible c Hi Hr He) as Hf.
  destruct (find_best _ _ _ _ _ _) as [r c']. apply Hf.
Qed.

(** [trim] reports exactly the bytes it released, ends within the target,
    and evicts in least-recently-used order: nothing evicted is newer than
    anything kept. *)
Theorem trim_least_recent (iter : order) (c : Cache State) n :
  (forall m, iter m ≡ₚ map_to_list m) -> reachable c -> 0 <= n ->
  let '(released, c') := trim iter n c in
  released = bytes c - bytes c' /\ bytes c' <= Z.min (max_bytes (config c)) n /\
  (forall id e, holds (states c') id e -> holds (states c) id e) /\
  forall id e, holds (states c) id e -> ~ holds (states c') id e ->
  forall id' e', holds (states c') id' e' -> last_used e <= last_used e'.
Proof.
  intros Hp Hi%reachable_cache_inv Hn.
  pose proof (trim_lru iter Hp n c Hi Hn) as Hl.
  pose proof (trim_spec iter Hp n c (inv_wf _ Hi) Hn (inv_clock _ Hi) (inv_config _ Hi)
    (inv_sessions _ Hi) (inv_snapshots _ Hi)) as Hs.
  destruct (trim iter n c) as [r c']. simpl in Hl. destruct Hs as (_ & _ & Hb & Hr & Hsub).
  split; [done|]. split; [done|]. split; [|done].
  intros id e (h & Hh & He). destruct (Hsub _ _ Hh) as (h' & Hh' & Hss).
  exists h'. split; [done|]. by eapply elem_of_sublist.
Qed.

(** A fork replaces the target session by copies of the source's
    snapshots with fresh clock values, keeps at least the newest of them
    within the budgets, and adds nothing to any other session. *)
Theorem fork_copies_session (iter : order) (c : Cache State) source target h :
  (forall m, iter m ≡ₚ map_to_list m) -> reachable c ->
  forks source target c h -> clock c + size_of h < 2 ^ 64 ->
  let '(n, c') := fork iter source target c in
  n = size_of (default [] (states c' !! target)) /\
  bytes c' = total (states c') /\ bytes c' <= max_bytes (config c') /\
  (forall x e, holds (states c') x e -> x <> target -> holds (states c) x e) /\
  (forall e, holds (states c') target e -> state e ∈ state <$> h) /\
  (forall e, last h = Some e -> exists e', holds (states c') target e' /\ state e' = state e).
Proof.
  intros Hp Hi%reachable_cache_inv Hf Hc.
  pose proof (fork_ok iter Hp source target c h Hi Hf Hc) as Hs.
  destruct (fork iter source target c) as [n c'].
  destruct Hs as (Hi' & _ & _ & Hn & Hx & Ht & Hl).
  split; [done|]. split; [apply (wf_bytes _ (inv_wf _ Hi'))|]. split; [apply Hi'|]. done.
Qed.
End Reachable.

(** ** Witnesses: two sessions under a budget of 100 bytes *)

Module SnapshotExample.
Record snapshot := { tokens : list Z; size : Z }.

#[export] Instance snapshot_state : SnapshotState snapshot :=
  {| snap_tokens := tokens; snap_bytes := size |}.

Definition cfg := {| max_sessions := 2; max_snapshots_per_session := 2; max_bytes := 100 |}.
Definition iter (m : gmap string (list (Entry snapshot))) := map_to_list m.
Definition same (a b : snapshot) : bool := bool_decide (tokens a = tokens b).
Definition a1 := {| tokens := [1; 2]; size := 40 |}.
Definition a2 := {| tokens := [1; 2; 3]; size := 50 |}.
Definition b1 := {| tokens := [1; 2; 4]; size := 30 |}.

Definition c1 := apply iter (OStore "a" a1 same) (make cfg).
Definition c2 := apply iter (OStore "a" a2 same) c1.

Lemma iter_ok m : iter m ≡ₚ map_to_list m.
Proof. done. Qed.

Lemma reachable_c2 : reachable c2.
Proof.
  apply reachable_apply; [apply iter_ok|by vm_compute|].
  apply reachable_apply; [apply iter_ok|by vm_compute|]. by apply reachable_make.
Qed.
End SnapshotExample.
Import SnapshotExample.


Lemma store_keeps_snapshot_witness :
  exists r c', store iter "b" b1 same c2 = (Ok (Some r), c') /\ stored_state r = b1 /\
  total_bytes r = bytes c'.
Proof.
  destruct (store_keeps_snapshot iter c2 "b" b1 same iter_ok reachable_c2)
    as (r & c' & H1 & H2 & H3 & _); [by vm_compute..|].
  exists r, c'. exact (conj H1 (conj H2 H3)).
Defined.

Lemma find_best_longest_witness :
  (find_best iter "b" [1; 2; 3; 4] 10 (fun _ => true) c2).1 =
    Some {| session_id := "a"; index := 1 |} /\
  forall id e', holds (states c2) id e' -> matches [1; 2; 3; 4] 10 (fun _ => true) (state e') ->
    entry_tokens e' <= 3.
Proof.
  pose proof (find_best_longest iter c2 "b" [1; 2; 3; 4] 10 (fun _ => true) iter_ok
    reachable_c2 ltac:(done) ltac:(by vm_compute)) as Hf.
  assert ((find_best iter "b" [1; 2; 3; 4] 10 (fun _ => true) c2).1 =
    Some {| session_id := "a"; index := 1 |}) as Hr by (by vm_compute).
  split; [exact Hr|]. rewrite Hr in Hf. destruct Hf as (h & e & Hh & He & _ & Hmax).
  vm_compute in Hh. injection Hh as <-. vm_compute in He. injection He as <-.
  intros id e' H1 H2. by destruct (Hmax id e' H1 H2).
Defined.

Lemma trim_least_recent_witness :
  let '(released, c') := trim iter 60 c2 in
  released = 40 /\ released = bytes c2 - bytes c' /\ bytes c' <= 60.
Proof.
  pose proof (trim_least_recent iter c2 60 iter_ok reachable_c2 ltac:(done)) as Ht.
  assert ((trim iter 60 c2).1 = 40) as Hr by (by vm_compute).
  destruct (trim iter 60 c2) as [r c']. destruct Ht as (H1 & H2 & _). simpl in Hr.
  split; [done|]. split; [done|]. etrans; [exact H2|]. apply Z.le_min_r.
Defined.

Lemma forks_c2 : forks "a" "b" c2
  [{| state := a1; last_used := 1 |}; {| state := a2; last_used := 2 |}].
Proof.
  split; [done|]. split; [done|]. split; [done|]. split; by vm_compute.
Qed.

Lemma fork_copies_session_witness :
  let '(n, c') := fork iter "a" "b" c2 in
  n = 2 /\
  n = size_of (default [] (states c' !! "b"%string)) /\
  forall e, holds (states c') "b" e -> state e = a1 \/ state e = a2.
Proof.
  assert ((fork iter "a" "b" c2).1 = 2) as Hr by (by vm_compute).
  pose proof (fork_copies_session iter c2 "a" "b" _ iter_ok reachable_c2 forks_c2
    ltac:(by vm_compute)) as Hf.
  destruct (fork iter "a" "b" c2) as [n c']. simpl in Hr.
  destruct Hf as (H1 & _ & _ & _ & H2 & _).
  split; [exact Hr|]. split; [exact H1|]. intros e He. specialize (H2 e He).
  rewrite !fmap_cons, fmap_nil in H2. cbn [state] in H2.
  apply elem_of_cons in H2 as [H2|H2]; [by left|right].
  by apply list_elem_of_singleton in H2.
Defined.
