(* ===== verification/SessionBindings.v ===== *)
(** * Logical session bindings of the paged cache
      ([engine/include/paged_session_bindings.h],
       [engine/src/paged_session_bindings.cpp])

    Which cache blocks each session owns, limited to [max_sessions] bindings
    with least-recently-bound eviction. Only the presence of the paged cache
    matters here ([has_cache]); blocks are copied, never read. The unordered
    map's iteration order is the parameter [iter]. *)

From stdpp Require Import base list strings gmap.
From Stdlib Require Import ZArith Lia.
From S2P Require Import Prelude.

#[local] Set Default Proof Using "Type".
Open Scope Z_scope.

(** [std::array<std::uint8_t, 32>]. *)
Abbreviation BlockHash := (list Z).

Record Binding := { blocks : list BlockHash; binding_tokens : Z; binding_used : Z }.

Record Bindings := {
  has_cache : bool;
  session_limit : Z;
  bindings : gmap string Binding;
  binding_clock : Z;
  sessions_metric : Z;
  tokens_metric : Z;
}.

Abbreviation binding_order := (gmap string Binding -> list (string * Binding)).

Section SessionBindings.
Implicit Types c : Bindings.
Context (iter : binding_order).

Definition make (cache : bool) (limit : Z) : Bindings :=
  {| has_cache := cache; session_limit := limit; bindings := ∅; binding_clock := 0;
     sessions_metric := 0; tokens_metric := 0 |}.

Definition set_bindings (m : gmap string Binding) (t : Z) c : Bindings :=
  {| has_cache := has_cache c; session_limit := session_limit c; bindings := m;
     binding_clock := t; sessions_metric := sessions_metric c;
     tokens_metric := tokens_metric c |}.

Definition sync_metrics c : Bindings :=
  {| has_cache := has_cache c; session_limit := session_limit c; bindings := bindings c;
     binding_clock := binding_clock c;
     sessions_metric := Z.of_nat (size (bindings c));
     tokens_metric := u64_sum (fun s => binding_tokens s.2) (iter (bindings c)) |}.

Definition close (id : string) c : Z * Bindings :=
  match bindings c !! id with
  | None => (0, c)
  | Some found =>
      (size_of (blocks found),
       sync_metrics (set_bindings (delete id (bindings c)) (binding_clock c) c))
  end.

Definition bind_victim (id : string) c : option (string * Binding) :=
  scan (fun candidate => bool_decide (candidate.1 = id))
       (fun candidate victim => binding_used candidate.2 <? binding_used victim.2)
       None (iter (bindings c)).

(** Every round closes a session: the initial count is enough rounds. *)
Fixpoint bind_loop (fuel : nat) (id : string) c : Bindings :=
  match fuel with
  | O => c
  | S fuel =>
      if session_limit c <? Z.of_nat (size (bindings c)) then
        match bind_victim id c with
        | None => c
        | Some (victim, _) => bind_loop fuel id (close victim c).2
        end
      else c
  end.

Definition bind (id : string) (bs : list BlockHash) (tokens : Z) c : Bindings :=
  if negb (has_cache c) || bool_decide (id = "") || (session_limit c =? 0) then c
  else
    let c := (close id c).2 in
    let t := u64 (binding_clock c + 1) in
    let b := {| blocks := bs; binding_tokens := tokens; binding_used := t |} in
    let c := set_bindings (<[id := b]> (bindings c)) t c in
    sync_metrics (bind_loop (size (bindings c)) id c).

Definition fork (source_session target_session : string) c : Z * Bindings :=
  match bindings c !! source_session with
  | None => (0, c)
  | Some source =>
      if bool_decide (source_session = "") || bool_decide (target_session = "") ||
         bool_decide (source_session = target_session)
      then (0, c)
      else (size_of (blocks source),
            bind target_session (blocks source) (binding_tokens source) c)
  end.

Definition clear c : Z * Bindings :=
  (Z.of_nat (size (bindings c)), sync_metrics (set_bindings ∅ (binding_clock c) c)).

(** ** Invariant *)

Hypothesis iter_perm : forall m, iter m ≡ₚ map_to_list m.

Record synced c : Prop := {
  sy_sessions : sessions_metric c = Z.of_nat (size (bindings c));
  sy_tokens : tokens_metric c = u64 (msum binding_tokens (bindings c));
}.

(** No binding is newer than the clock; no two were made at the same time. *)
Definition stamped c : Prop :=
  map_Forall (fun _ b => binding_used b <= binding_clock c) (bindings c) /\
  forall i j bi bj, bindings c !! i = Some bi -> bindings c !! j = Some bj ->
    binding_used bi = binding_used bj -> i = j.

Record inv c : Prop := {
  inv_ids : bindings c !! ""%string = None;
  inv_stamped : stamped c;
  inv_clock : 0 <= binding_clock c;
  inv_limit : 0 <= session_limit c /\ Z.of_nat (size (bindings c)) <= session_limit c;
  inv_synced : synced c;
}.

Lemma sync_bindings_synced c : synced (sync_metrics c).
Proof using iter_perm.
  split; simpl; [done|]. rewrite u64_sum_eq. unfold msum. by rewrite <- iter_perm.
Qed.

Lemma make_bindings_inv cache limit : 0 <= limit -> inv (make cache limit).
Proof.
  intros Hl. by split.
Qed.

Lemma delete_inv c m :
  inv c -> m ⊆ bindings c -> inv (sync_metrics (set_bindings m (binding_clock c) c)).
Proof using iter_perm.
  intros [Hid [Hs Hu] Ht Hl _] Hm. split; simpl; [| |done| |apply sync_bindings_synced].
  - by eapply lookup_weaken_None.
  - split; simpl.
    + intros i b Hb. apply (Hs i). by eapply lookup_weaken.
    + intros i j bi bj Hi Hj. apply (Hu i j); by eapply lookup_weaken.
  - pose proof (map_subseteq_size _ _ Hm). lia.
Qed.

Lemma close_binding_inv c id : inv c -> inv (close id c).2.
Proof using iter_perm.
  intros Hi. unfold close. destruct (bindings c !! id); [|done].
  apply delete_inv; [done|apply delete_subseteq].
Qed.

Lemma close_bindings c id :
  bindings (close id c).2 = delete id (bindings c) /\
  binding_clock (close id c).2 = binding_clock c /\
  session_limit (close id c).2 = session_limit c.
Proof.
  unfold close. destruct (bindings c !! id) as [b|] eqn:E; [done|].
  simpl. by rewrite delete_id.
Qed.

Lemma bind_victim_some id c k b :
  bind_victim id c = Some (k, b) ->
  bindings c !! k = Some b /\ k <> id /\
  forall k' b', bindings c !! k' = Some b' -> k' <> id -> binding_used b <= binding_used b'.
Proof using iter_perm.
  intros Hv. pose proof Hv as Hm. apply scan_elem in Hv as [|[Hin Hsk]]; [done|].
  rewrite iter_perm, elem_of_map_to_list in Hin. apply bool_decide_eq_false in Hsk.
  split; [done|]. split; [done|]. intros k' b' Hb' Hk'.
  apply (scan_min _ _ (fun s => binding_used s.2)) in Hm as [_ Hm]; [|intros; apply Z.ltb_lt].
  apply (Hm (k', b')); simpl; [by rewrite iter_perm, elem_of_map_to_list|].
  by apply bool_decide_eq_false.
Qed.

Lemma bind_victim_none id c :
  bind_victim id c = None -> forall k b, bindings c !! k = Some b -> k = id.
Proof using iter_perm.
  intros Hv k b Hb. pose proof (scan_none _ _ _ Hv (k, b)) as Hs. simpl in Hs.
  apply bool_decide_eq_true in Hs; [done|]. by rewrite iter_perm, elem_of_map_to_list.
Qed.

Lemma only_one (m : gmap string Binding) id :
  (forall k b, m !! k = Some b -> k = id) -> (size m <= 1)%nat.
Proof.
  intros Ho. destruct (m !! id) as [b|] eqn:E.
  - assert (delete id m = ∅) as Hd.
    { apply map_eq. intros k. rewrite lookup_empty.
      destruct (delete id m !! k) eqn:Ek; [|done].
      apply lookup_delete_Some in Ek as [Hne Ek]. by destruct (Ho _ _ Ek). }
    pose proof (map_size_delete_Some id m ltac:(eauto)) as Hsz.
    rewrite Hd, map_size_empty in Hsz. lia.
  - assert (m = ∅) as ->; [|by rewrite map_size_empty; lia].
    apply map_eq. intros k. rewrite lookup_empty.
    destruct (m !! k) eqn:Ek; [|done]. apply Ho in Ek as He. congruence.
Qed.

(** The eviction closes the least recently bound sessions but [id]. *)
Lemma bind_loop_spec id fuel : forall c,
  (size (bindings c) <= fuel)%nat -> 1 <= session_limit c ->
  let c' := bind_loop fuel id c in
  bindings c' ⊆ bindings c /\ bindings c' !! id = bindings c !! id /\
  Z.of_nat (size (bindings c')) <= session_limit c /\
  session_limit c' = session_limit c /\ binding_clock c' = binding_clock c /\
  forall k b, bindings c !! k = Some b -> bindings c' !! k = None ->
  forall k' b', bindings c' !! k' = Some b' -> k' <> id -> binding_used b <= binding_used b'.
Proof using iter_perm.
  assert (forall c k b, bindings c !! k = Some b -> bindings c !! k = None -> False)
    as Hcontra by congruence.
  induction fuel as [|fuel IH]; intros c Hf Hl; cbn [bind_loop]; cbv zeta.
  { do 2 (split; [done|]). split; [lia|]. do 2 (split; [done|]).
    intros k b Hb Hn. by destruct (Hcontra c k b). }
  destruct (Z.ltb_spec (session_limit c) (Z.of_nat (size (bindings c)))).
  2:{ do 5 (split; [done|]). intros k b Hb Hn. by destruct (Hcontra c k b). }
  destruct (bind_victim id c) as [[v bv]|] eqn:Hv.
  2:{ pose proof (only_one _ _ (bind_victim_none _ _ Hv)).
      do 2 (split; [done|]). split; [lia|]. do 2 (split; [done|]).
      intros k b Hb Hn. by destruct (Hcontra c k b). }
  destruct (bind_victim_some _ _ _ _ Hv) as (Hb & Hne & Hmin).
  destruct (close_bindings c v) as (Hcb & Hcc & Hcl).
  destruct (IH (close v c).2) as (Hsub & Hid & Hsz & Hsl & Hck & Hlru).
  { rewrite Hcb, map_size_delete_Some by eauto. lia. } { by rewrite Hcl. }
  rewrite Hcb in Hsub, Hid, Hlru. rewrite Hcl in Hsz, Hsl. rewrite Hcc in Hck.
  split; [etrans; [exact Hsub|apply delete_subseteq]|].
  split; [by rewrite Hid, lookup_delete_ne|]. do 3 (split; [done|]).
  intros k b Hk Hn k' b' Hk' Hne'. destruct (decide (k = v)) as [->|Hkv].
  - simplify_eq. apply (Hmin k'); [|done]. pose proof (lookup_weaken _ _ _ _ Hk' Hsub) as Hx.
    by apply lookup_delete_Some in Hx as [_ Hx].
  - apply (Hlru k b) with k'; [|done..]. by rewrite lookup_delete_ne.
Qed.

Lemma bind_counters_ok id bs tokens c :
  inv c -> has_cache c = true -> id <> ""%string -> 0 < session_limit c ->
  binding_clock c + 1 < 2 ^ 64 ->
  let c' := bind id bs tokens c in
  let new := {| blocks := bs; binding_tokens := tokens; binding_used := binding_clock c + 1 |} in
  inv c' /\ bindings c' !! id = Some new /\
  (forall k b, k <> id -> bindings c' !! k = Some b -> bindings c !! k = Some b) /\
  (forall k b, k <> id -> bindings c !! k = Some b -> bindings c' !! k = None ->
   forall k' b', bindings c' !! k' = Some b' -> binding_used b <= binding_used b').
Proof using iter_perm.
  intros Hi Hc Hid Hl Ht. unfold bind. rewrite Hc, bool_decide_false by done.
  rewrite (proj2 (Z.eqb_neq _ _)) by lia. cbn [negb orb].
  destruct (close_bindings c id) as (Hcb & Hcc & Hcl). pose proof (close_binding_inv c id Hi) as Hi0.
  set (c0 := (close id c).2) in *. pose proof (inv_clock _ Hi) as H0.
  rewrite Hcc, u64_small by lia. set (new := {| blocks := bs |}).
  set (c1 := set_bindings _ _ c0). cbv zeta.
  destruct (bind_loop_spec id (size (bindings c1)) c1 ltac:(done)) as
    (Hsub & Hk & Hsz & Hsl & Hck & Hlru); [simpl; lia|].
  set (c2 := bind_loop _ _ _) in *. simpl in Hsub, Hk, Hsz, Hsl, Hck, Hlru. rewrite Hcb in *.
  rewrite lookup_insert_eq in Hk. rewrite insert_delete_eq in *.
  assert (forall k b, k <> id -> bindings c2 !! k = Some b -> bindings c !! k = Some b) as Hold.
  { intros k b Hne Hb. pose proof (lookup_weaken _ _ _ _ Hb Hsub) as Hx.
    by rewrite lookup_insert_ne in Hx. }
  destruct (inv_stamped _ Hi) as [Hs Hu].
  assert (forall k b, bindings c2 !! k = Some b -> k <> id -> binding_used b <= binding_clock c)
    as Hle by (intros k b Hb Hne; apply (Hs k), Hold; done).
  split; [split|split; [done|split; [done|]]]; simpl; [| |by rewrite Hck; lia| | |].
  - destruct (bindings c2 !! ""%string) eqn:E; [|done].
    apply Hold in E; [|done]. rewrite (inv_ids _ Hi) in E. done.
  - split; simpl.
    + rewrite Hck. intros k b Hb. destruct (decide (k = id)) as [->|Hne].
      * rewrite Hk in Hb. injection Hb as <-. simpl. lia.
      * specialize (Hle k b Hb Hne). simpl. lia.
    + intros i j bi bj Hbi Hbj He.
      destruct (decide (i = id)) as [->|Hii]; destruct (decide (j = id)) as [->|Hjj]; [done| | |].
      * rewrite Hk in Hbi. injection Hbi as <-. specialize (Hle j bj Hbj Hjj). simpl in He. lia.
      * rewrite Hk in Hbj. injection Hbj as <-. specialize (Hle i bi Hbi Hii). simpl in He. lia.
      * apply (Hu i j bi bj); [by apply Hold..|done].
  - rewrite Hsl. pose proof (inv_limit _ Hi0). lia.
  - apply sync_bindings_synced.
  - intros k b Hne Hb Hn k' b' Hb'. destruct (decide (k' = id)) as [->|Hne'].
    + rewrite Hk in Hb'. injection Hb' as <-. simpl. specialize (Hs k b Hb). simpl in Hs. lia.
    + apply (Hlru k b) with k'; [by rewrite lookup_insert_ne|done..].
Qed.

Lemma bind_inv id bs tokens c :
  inv c -> binding_clock c + 1 < 2 ^ 64 -> inv (bind id bs tokens c).
Proof using iter_perm.
  intros Hi Ht. destruct (has_cache c) eqn:Hc.
  2:{ unfold bind. by rewrite Hc. }
  destruct (decide (id = ""%string)) as [Hid|Hid].
  { unfold bind. by rewrite Hc, bool_decide_true. }
  destruct (Z.eqb_spec (session_limit c) 0) as [Hl|Hl].
  { unfold bind. rewrite Hc, bool_decide_false by done. by rewrite Hl. }
  pose proof (inv_limit _ Hi). apply bind_counters_ok; try done. lia.
Qed.

Lemma fork_inv s t c :
  inv c -> binding_clock c + 1 < 2 ^ 64 -> inv (fork s t c).2.
Proof using iter_perm.
  intros Hi Ht. unfold fork. destruct (bindings c !! s); [|done].
  destruct (_ || _); [done|]. by apply bind_inv.
Qed.

Lemma clear_bindings_inv c : inv c -> inv (clear c).2.
Proof using iter_perm. intros Hi. apply delete_inv; [done|apply map_empty_subseteq]. Qed.
End SessionBindings.

(** ** Reachable states *)

Inductive binding_op :=
  | BBind (id : string) (bs : list BlockHash) (tokens : Z)
  | BFork (source target : string)
  | BClose (id : string)
  | BClear.

Definition apply_binding (iter : binding_order) (o : binding_op) (c : Bindings) : Bindings :=
  match o with
  | BBind id bs tokens => bind iter id bs tokens c
  | BFork source target => (fork iter source target c).2
  | BClose id => (close iter id c).2
  | BClear => (clear iter c).2
  end.

Inductive bound : Bindings -> Prop :=
  | bound_make cache limit : 0 <= limit -> bound (make cache limit)
  | bound_apply iter o c :
      (forall m, iter m ≡ₚ map_to_list m) -> binding_clock c + 1 < 2 ^ 64 ->
      bound c -> bound (apply_binding iter o c).

Lemma bound_inv c : bound c -> inv c.
Proof.
  induction 1 as [cache limit Hl|iter o c Hp Ht Hb IH]; [by apply make_bindings_inv|].
  destruct o; simpl;
    [by apply bind_inv|by apply fork_inv|by apply close_binding_inv|by apply clear_bindings_inv].
Qed.

(** Binding a session replaces its binding, stays within the session
    limit, and evicts only bindings that are at most as recent as every
    binding kept; the published counters are the current ones. *)
Theorem bind_least_recent iter c id bs tokens :
  (forall m, iter m ≡ₚ map_to_list m) -> bound c -> binding_clock c + 1 < 2 ^ 64 ->
  has_cache c = true -> id <> ""%string -> 0 < session_limit c ->
  let c' := bind iter id bs tokens c in
  bindings c' !! id =
    Some {| blocks := bs; binding_tokens := tokens; binding_used := binding_clock c + 1 |} /\
  Z.of_nat (size (bindings c')) <= session_limit c' /\
  sessions_metric c' = Z.of_nat (size (bindings c')) /\
  tokens_metric c' = u64 (msum binding_tokens (bindings c')) /\
  (forall k b, k <> id -> bindings c' !! k = Some b -> bindings c !! k = Some b) /\
  (forall k b, k <> id -> bindings c !! k = Some b -> bindings c' !! k = None ->
   forall k' b', bindings c' !! k' = Some b' -> binding_used b <= binding_used b').
Proof.
  intros Hp Hi%bound_inv Ht Hc Hid Hl c'.
  destruct (bind_counters_ok iter Hp id bs tokens c Hi Hc Hid Hl Ht) as (Hi' & Hb & Ho & Hlru).
  split; [done|]. split; [apply (inv_limit _ Hi')|].
  destruct (inv_synced _ Hi'). done.
Qed.

(** Two sessions bound, limit two. *)
Definition two_bound : Bindings :=
  apply_binding map_to_list (BBind "b" [] 20)
    (apply_binding map_to_list (BBind "a" [[1]] 10) (make true 2)).

Lemma two_bound_bound : bound two_bound.
Proof.
  apply bound_apply; [done|by vm_compute|]. apply bound_apply; [done|by vm_compute|].
  by apply bound_make.
Qed.

Lemma bind_least_recent_witness :
  let c := bind map_to_list "c" [[2]; [3]] 30 two_bound in
  bindings c !! "a"%string = None /\ tokens_metric c = 50 /\
  Z.of_nat (size (bindings c)) <= session_limit c.
Proof.
  destruct (bind_least_recent map_to_list two_bound "c" [[2]; [3]] 30 ltac:(done)
    two_bound_bound) as (_ & Hsz & _); [by vm_compute..|].
  split; [by vm_compute|]. split; [by vm_compute|]. exact Hsz.
Defined.
