(* ===== verification/Sha256.v ===== *)
(** * SHA-256

    The hash function of the block cache ([src/cpp_runtime/core/mfq_paged_prefix_cache.cpp]):
    [Sha256State], which takes its input in pieces through a block of 64 bytes, and
    [sha256]. Bytes and words are [Z]. [sha256_streams] states that the pieces do not
    matter: the digest is the one of the padded message, compressed block by block. *)

From stdpp Require Import base list.
From Stdlib Require Import ZArith Lia.
From S2P Require Import Prelude.

#[local] Set Default Proof Using "Type".
#[local] Open Scope Z_scope.

(** ** Words of 32 bits *)

Definition u32 (z : Z) : Z := z mod 2 ^ 32.
Definition byte_of (z : Z) : Z := z mod 2 ^ 8.
Definition is_byte (z : Z) : Prop := 0 <= z < 256.

Definition rotate_right (value count : Z) : Z :=
  Z.lor (Z.shiftr value count) (u32 (Z.shiftl value (32 - count))).

(** [kShaConstants], in decimal, eight to a line as their hexadecimal table. *)
Definition sha_constants : list Z :=
  [1116352408; 1899447441; 3049323471; 3921009573; 961987163; 1508970993; 2453635748; 2870763221;
   3624381080; 310598401; 607225278; 1426881987; 1925078388; 2162078206; 2614888103; 3248222580;
   3835390401; 4022224774; 264347078; 604807628; 770255983; 1249150122; 1555081692; 1996064986;
   2554220882; 2821834349; 2952996808; 3210313671; 3336571891; 3584528711; 113926993; 338241895;
   666307205; 773529912; 1294757372; 1396182291; 1695183700; 1986661051; 2177026350; 2456956037;
   2730485921; 2820302411; 3259730800; 3345764771; 3516065817; 3600352804; 4094571909; 275423344;
   430227734; 506948616; 659060556; 883997877; 958139571; 1322822218; 1537002063; 1747873779;
   1955562222; 2024104815; 2227730452; 2361852424; 2428436474; 2756734187; 3204031479; 3329325298].

(** The working variables of a round. *)
Record Working := { va : Z; vb : Z; vc : Z; vd : Z; ve : Z; vf : Z; vg : Z; vh : Z }.

(** [state_] as working variables, and back. *)
Definition working (l : list Z) : Working :=
  {| va := nth 0 l 0; vb := nth 1 l 0; vc := nth 2 l 0; vd := nth 3 l 0;
     ve := nth 4 l 0; vf := nth 5 l 0; vg := nth 6 l 0; vh := nth 7 l 0 |}.

Definition added (l : list Z) (w : Working) : list Z :=
  [u32 (nth 0 l 0 + va w); u32 (nth 1 l 0 + vb w); u32 (nth 2 l 0 + vc w); u32 (nth 3 l 0 + vd w);
   u32 (nth 4 l 0 + ve w); u32 (nth 5 l 0 + vf w); u32 (nth 6 l 0 + vg w); u32 (nth 7 l 0 + vh w)].

(** The sixteen words of a block, most significant byte first. *)
Definition word_at (block : list Z) (index : nat) : Z :=
  let b i := nth (index * 4 + i) block 0 in
  Z.lor (Z.lor (Z.lor (Z.shiftl (b 0%nat) 24) (Z.shiftl (b 1%nat) 16)) (Z.shiftl (b 2%nat) 8)) (b 3%nat).

(** One further word of the schedule. *)
Definition extend (words : list Z) (index : nat) : list Z :=
  let w i := nth (index - i) words 0 in
  let s0 := Z.lxor (Z.lxor (rotate_right (w 15%nat) 7) (rotate_right (w 15%nat) 18)) (Z.shiftr (w 15%nat) 3) in
  let s1 := Z.lxor (Z.lxor (rotate_right (w 2%nat) 17) (rotate_right (w 2%nat) 19)) (Z.shiftr (w 2%nat) 10) in
  words ++ [u32 (w 16%nat + s0 + w 7%nat + s1)].

Definition schedule (block : list Z) : list Z :=
  foldl extend (word_at block <$> seq 0 16) (seq 16 48).

Definition round (v : Working) (kw : Z * Z) : Working :=
  let '(constant, word) := kw in
  let sum1 := Z.lxor (Z.lxor (rotate_right (ve v) 6) (rotate_right (ve v) 11)) (rotate_right (ve v) 25) in
  let choose := Z.lxor (Z.land (ve v) (vf v)) (Z.land (u32 (Z.lnot (ve v))) (vg v)) in
  let temp1 := u32 (vh v + sum1 + choose + constant + word) in
  let sum0 := Z.lxor (Z.lxor (rotate_right (va v) 2) (rotate_right (va v) 13)) (rotate_right (va v) 22) in
  let majority := Z.lxor (Z.lxor (Z.land (va v) (vb v)) (Z.land (va v) (vc v))) (Z.land (vb v) (vc v)) in
  let temp2 := u32 (sum0 + majority) in
  {| va := u32 (temp1 + temp2); vb := va v; vc := vb v; vd := vc v;
     ve := u32 (vd v + temp1); vf := ve v; vg := vf v; vh := vg v |}.

Definition transform (block : list Z) (words : list Z) : list Z :=
  added words (foldl round (working words) (zip sha_constants (schedule block))).

(** ** [Sha256State] *)

Record Sha256State := {
  state_ : list Z;
  block_ : list Z;
  block_size_ : nat;
  total_bytes_ : Z;
}.

Definition first_state : list Z :=
  [1779033703; 3144134277; 1013904242; 2773480762; 1359893119; 2600822924; 528734635; 1541459225].

Definition new_state : Sha256State :=
  {| state_ := first_state; block_ := replicate 64 0; block_size_ := 0; total_bytes_ := 0 |}.

(** [std::memcpy] and [std::fill] into the block. *)
Definition put (block : list Z) (at_ : nat) (bytes : list Z) : list Z :=
  take at_ block ++ bytes ++ drop (at_ + length bytes) block.

(** One turn of the loop of [update]: [count] bytes enter the block, which is compressed
    when it is full. *)
Definition take_piece (count : nat) (s : Sha256State) (bytes : list Z) : Sha256State :=
  let block := put (block_ s) (block_size_ s) (take count bytes) in
  let size := (block_size_ s + count)%nat in
  if (size =? 64)%nat
  then {| state_ := transform block (state_ s); block_ := block; block_size_ := 0; total_bytes_ := total_bytes_ s |}
  else {| state_ := state_ s; block_ := block; block_size_ := size; total_bytes_ := total_bytes_ s |}.

(** The second component is what is left to read. *)
Fixpoint update_loop (fuel : nat) (s : Sha256State) (bytes : list Z) : Sha256State * list Z :=
  match fuel with
  | O => (s, bytes)
  | S fuel =>
      if is_nil bytes then (s, bytes)
      else
        let count := Nat.min (length bytes) (64 - block_size_ s) in
        update_loop fuel (take_piece count s bytes) (drop count bytes)
  end.

Definition count_bytes (s : Sha256State) (size : Z) : Sha256State :=
  {| state_ := state_ s; block_ := block_ s; block_size_ := block_size_ s; total_bytes_ := u64 (total_bytes_ s + size) |}.

Definition update (s : Sha256State) (bytes : list Z) : Sha256State :=
  (update_loop (length bytes) (count_bytes s (size_of bytes)) bytes).1.

(** The last eight bytes of the padding. *)
Definition length_bytes (bit_count : Z) : list Z :=
  (fun index => byte_of (Z.shiftr bit_count (Z.of_nat (7 - index) * 8))) <$> seq 0 8.

Definition word_bytes (w : Z) : list Z :=
  [byte_of (Z.shiftr w 24); byte_of (Z.shiftr w 16); byte_of (Z.shiftr w 8); byte_of w].

Definition finish (s : Sha256State) : list Z :=
  let bit_count := u64 (total_bytes_ s * 8) in
  let block := put (block_ s) (block_size_ s) [0x80] in
  let size := S (block_size_ s) in
  let '(words, block, size) :=
    if (56 <? size)%nat
    then let block := put block size (replicate (64 - size) 0) in (transform block (state_ s), block, 0%nat)
    else (state_ s, block, size) in
  let block := put block size (replicate (56 - size) 0) in
  let block := put block 56 (length_bytes bit_count) in
  mjoin (word_bytes <$> transform block words).

Definition sha256 (bytes : list Z) : list Z := finish (update new_state bytes).

(** ** The digest of a message *)

(** The compression of the first [n] blocks of [l]. *)
Fixpoint digest_blocks (n : nat) (words l : list Z) : list Z :=
  match n with
  | O => words
  | S n => digest_blocks n (transform (take 64 l) words) (drop 64 l)
  end.

(** A one bit, zeros up to eight bytes before the end of a block, the number of bits. *)
Definition padding (size : Z) : list Z :=
  0x80 :: replicate (Z.to_nat ((55 - size) mod 64)) 0 ++ length_bytes (u64 (size * 8)).

Definition digest (m : list Z) : list Z :=
  let padded := m ++ padding (size_of m) in
  mjoin (word_bytes <$> digest_blocks (length padded / 64) first_state padded).

(** [s] has read [m]. *)
Record absorbed (m : list Z) (s : Sha256State) : Prop := {
  ab_parts : exists full rest, m = full ++ rest /\ length full = (64 * (length full / 64))%nat /\
    state_ s = digest_blocks (length full / 64) first_state full /\
    take (block_size_ s) (block_ s) = rest;
  ab_size : (block_size_ s < 64)%nat;
  ab_block : length (block_ s) = 64%nat;
}.

Lemma digest_blocks_app n k words l r :
  length l = (64 * n)%nat ->
  digest_blocks (n + k) words (l ++ r) = digest_blocks k (digest_blocks n words l) r.
Proof.
  revert words l. induction n as [|n IH]; intros words l Hl; simpl.
  - by rewrite (nil_length_inv l).
  - rewrite take_app_le, drop_app_le by lia. apply IH. rewrite length_drop. lia.
Qed.

Lemma digest_blocks_one words l : length l = 64%nat -> digest_blocks 1 words l = transform l words.
Proof. intros. simpl. by rewrite take_ge by lia. Qed.

(** Writing over the tail of a list. *)
Lemma put_app a b bytes :
  (length bytes <= length b)%nat ->
  put (a ++ b) (length a) bytes = a ++ bytes ++ drop (length bytes) b.
Proof.
  intros. unfold put. rewrite take_app_length, drop_app_ge by lia.
  by replace (length a + length bytes - length a)%nat with (length bytes) by lia.
Qed.

Lemma put_app_at a b n bytes :
  length a = n -> (length bytes <= length b)%nat -> put (a ++ b) n bytes = a ++ bytes ++ drop (length bytes) b.
Proof. intros <-. apply put_app. Qed.

Lemma put_length block at_ bytes :
  (at_ + length bytes <= length block)%nat -> length (put block at_ bytes) = length block.
Proof. intros. unfold put. rewrite !length_app, length_take, length_drop. lia. Qed.

Lemma take_put block at_ bytes :
  (at_ <= length block)%nat -> take (at_ + length bytes) (put block at_ bytes) = take at_ block ++ bytes.
Proof.
  intros. unfold put. rewrite app_assoc. apply take_app_length'.
  rewrite length_app, length_take. lia.
Qed.

Lemma new_absorbed : absorbed [] new_state.
Proof. split; [exists [], []; done|simpl; lia|done]. Qed.

(** A block that fills is compressed. *)
Lemma absorb_full m s bytes :
  absorbed m s -> length bytes = (64 - block_size_ s)%nat ->
  let block := put (block_ s) (block_size_ s) bytes in
  length block = 64%nat /\
  exists full, m ++ bytes = full /\ length full = (64 * (length full / 64))%nat /\
    transform block (state_ s) = digest_blocks (length full / 64) first_state full.
Proof.
  intros [(full & rest & -> & Hfull & Hstate & Hrest) Hsize Hblock] Hbytes block.
  assert (block = rest ++ bytes) as Hb.
  { rewrite <- (take_ge block 64) by (unfold block; rewrite put_length; lia).
    replace 64%nat with (block_size_ s + length bytes)%nat by lia.
    unfold block. rewrite take_put by lia. by rewrite Hrest. }
  assert (length (rest ++ bytes) = 64%nat) as Hlen.
  { rewrite length_app, <- Hrest, length_take. lia. }
  split; [by rewrite Hb|]. exists (full ++ rest ++ bytes).
  assert (length (full ++ rest ++ bytes) = (64 * (length full / 64 + 1))%nat) as Hl.
  { rewrite length_app, Hlen. lia. }
  rewrite <- app_assoc. split; [done|].
  replace (length (full ++ rest ++ bytes) / 64)%nat with (length full / 64 + 1)%nat
    by (rewrite Hl, (Nat.mul_comm 64), Nat.div_mul; lia).
  split; [done|]. rewrite digest_blocks_app, digest_blocks_one by done. by rewrite Hb, Hstate.
Qed.

Lemma piece_absorbed count s bytes m :
  absorbed m s -> (count <= length bytes)%nat -> (count <= 64 - block_size_ s)%nat ->
  absorbed (m ++ take count bytes) (take_piece count s bytes) /\
  total_bytes_ (take_piece count s bytes) = total_bytes_ s.
Proof.
  intros Hs Hle Hroom. pose proof (ab_size _ _ Hs). pose proof (ab_block _ _ Hs).
  assert (length (take count bytes) = count) as Hcount by (rewrite length_take; lia).
  unfold take_piece. destruct (Nat.eqb_spec (block_size_ s + count) 64) as [He|He]; split; try done.
  - destruct (absorb_full m s (take count bytes) Hs) as (Hlen & full & -> & Hq & Hd); [lia|].
    split; simpl; [|lia|done]. exists full, []. by rewrite app_nil_r.
  - destruct Hs as [(full & rest & -> & Hq & Hd & Hr) _ _].
    split; simpl; [|lia|by rewrite put_length; lia].
    exists full, (rest ++ take count bytes). rewrite app_assoc. split_and!; [done..|].
    rewrite <- Hcount at 1. rewrite take_put by lia. by rewrite Hr.
Qed.

Lemma update_loop_absorbs fuel s bytes m :
  absorbed m s -> (length bytes <= fuel)%nat ->
  exists s', update_loop fuel s bytes = (s', []) /\ absorbed (m ++ bytes) s' /\ total_bytes_ s' = total_bytes_ s.
Proof.
  revert s bytes m. induction fuel as [|fuel IH]; intros s bytes m Hs Hfuel.
  { destruct bytes; [|simpl in *; lia]. exists s. by rewrite app_nil_r. }
  cbn [update_loop]. destruct (is_nil bytes) eqn:Hnil.
  { destruct bytes; [|done]. exists s. by rewrite app_nil_r. }
  cbv zeta. pose proof (ab_size _ _ Hs) as Hsize. set (count := Nat.min (length bytes) (64 - block_size_ s)).
  assert (1 <= length bytes)%nat by (destruct bytes; [done|simpl; lia]).
  destruct (piece_absorbed count s bytes m) as [Hnext Ht]; [done|lia..|].
  destruct (IH _ (drop count bytes) _ Hnext) as (s' & -> & Hs' & Ht').
  { rewrite length_drop. lia. }
  exists s'. rewrite <- app_assoc, take_drop in Hs'. by rewrite Ht', Ht.
Qed.

(** The loop of [update] reads all its bytes. *)
Lemma update_absorbs s bytes m :
  absorbed m s -> total_bytes_ s = u64 (size_of m) ->
  absorbed (m ++ bytes) (update s bytes) /\ total_bytes_ (update s bytes) = u64 (size_of (m ++ bytes)).
Proof.
  intros Hs Ht. unfold update.
  destruct (update_loop_absorbs (length bytes) (count_bytes s (size_of bytes)) bytes m) as (s' & -> & Hs' & Ht').
  - destruct Hs. by split.
  - lia.
  - simpl. split; [done|]. by rewrite Ht', size_of_app; simpl; rewrite Ht, u64_add_l.
Qed.

Lemma pieces_absorbed pieces s m :
  absorbed m s -> total_bytes_ s = u64 (size_of m) ->
  absorbed (m ++ mjoin pieces) (foldl update s pieces) /\
  total_bytes_ (foldl update s pieces) = u64 (size_of (m ++ mjoin pieces)).
Proof.
  revert s m. induction pieces as [|piece pieces IH]; intros s m Hs Ht; simpl; [by rewrite app_nil_r|].
  destruct (update_absorbs s piece m Hs Ht). rewrite app_assoc. by apply IH.
Qed.

Lemma length_bytes_length b : length (length_bytes b) = 8%nat.
Proof. unfold length_bytes. by rewrite length_fmap, length_seq. Qed.

(** [std::fill] after [a], then the length: the end of the last block. *)
Lemma last_block a block bits :
  length block = 64%nat -> (length a <= 56)%nat -> take (length a) block = a ->
  put (put block (length a) (replicate (56 - length a) 0)) 56 (length_bytes bits) =
  a ++ replicate (56 - length a) 0 ++ length_bytes bits.
Proof.
  intros Hb Ha Ht. rewrite <- (take_drop (length a) block), Ht.
  rewrite put_app by (rewrite length_replicate, length_drop; lia).
  rewrite length_replicate, app_assoc.
  assert (length (a ++ replicate (56 - length a) 0) = 56%nat) as Hl
    by (rewrite length_app, length_replicate; lia).
  rewrite (put_app_at _ _ 56) by (rewrite ?length_bytes_length, ?length_drop; lia).
  rewrite length_bytes_length, !drop_drop.
  rewrite (drop_ge block) by lia. by rewrite app_nil_r, <- app_assoc.
Qed.

(** The padding of a message that leaves [rest] in its last block. *)
Lemma padding_short n r :
  Z.of_nat r = n mod 64 -> (r < 56)%nat ->
  padding n = 0x80 :: replicate (55 - r) 0 ++ length_bytes (u64 (n * 8)).
Proof.
  intros Hr Hlt. unfold padding. do 3 f_equal.
  rewrite Zminus_mod, <- Hr, Zminus_mod_idemp_l. rewrite Z.mod_small; lia.
Qed.

Lemma padding_long n r :
  Z.of_nat r = n mod 64 -> (56 <= r < 64)%nat ->
  padding n = 0x80 :: replicate (63 - r) 0 ++ replicate 56 0 ++ length_bytes (u64 (n * 8)).
Proof.
  intros Hr Hlt. unfold padding. rewrite app_assoc, <- replicate_add. do 3 f_equal.
  rewrite Zminus_mod, <- Hr, Zminus_mod_idemp_l.
  replace (55 - Z.of_nat r) with (119 - Z.of_nat r + (-1) * 64) by lia.
  rewrite Z.mod_add, Z.mod_small; lia.
Qed.

Lemma blocks_of full l k :
  length full = (64 * (length full / 64))%nat -> length l = (64 * k)%nat ->
  digest_blocks (length (full ++ l) / 64) first_state (full ++ l) =
  digest_blocks k (digest_blocks (length full / 64) first_state full) l.
Proof.
  intros Hf Hl. rewrite <- digest_blocks_app by done. f_equal.
  rewrite length_app, Hl, Hf at 1. rewrite <- Nat.mul_add_distr_l, Nat.mul_comm. by rewrite Nat.div_mul.
Qed.

Lemma finish_digest m s :
  absorbed m s -> total_bytes_ s = u64 (size_of m) -> finish s = digest m.
Proof.
  intros [(full & rest & -> & Hfull & Hstate & Hrest) Hsize Hblock] Ht.
  unfold finish, digest. rewrite Ht.
  replace (u64 (u64 (size_of (full ++ rest)) * 8)) with (u64 (size_of (full ++ rest) * 8))
    by (unfold u64; by rewrite Zmult_mod_idemp_l).
  set (n := size_of (full ++ rest)).
  assert (length rest = block_size_ s) as Hlen by (rewrite <- Hrest, length_take; lia).
  assert (Z.of_nat (block_size_ s) = n mod 64) as Hr.
  { subst n. unfold size_of. rewrite length_app, Hfull, Hlen, Nat2Z.inj_add, Nat2Z.inj_mul.
    rewrite Z.add_comm, Z.mul_comm, Z.mod_add by lia. symmetry. apply Z.mod_small. lia. }
  assert (take (S (block_size_ s)) (put (block_ s) (block_size_ s) [0x80]) = rest ++ [0x80]) as Hput.
  { pose proof (take_put (block_ s) (block_size_ s) [0x80]) as Hp. simpl length in Hp.
    rewrite Nat.add_1_r in Hp. rewrite Hp by lia. by rewrite Hrest. }
  assert (length (rest ++ [0x80]) = S (block_size_ s)) as Hl1 by (rewrite length_app; simpl; lia).
  assert (length (put (block_ s) (block_size_ s) [0x80]) = 64%nat) as Hl2 by (rewrite put_length; simpl; lia).
  f_equal. f_equal. rewrite <- app_assoc. destruct (Nat.ltb_spec 56 (S (block_size_ s))) as [Hlong|Hshort].
  - rewrite (padding_long n (block_size_ s)) by (done || lia).
    assert (put (put (block_ s) (block_size_ s) [0x80]) (S (block_size_ s))
              (replicate (64 - S (block_size_ s)) 0) =
            rest ++ 0x80 :: replicate (63 - block_size_ s) 0) as ->.
    { rewrite <- (take_drop (S (block_size_ s)) (put _ _ [_])) at 1. rewrite Hput.
      rewrite (put_app_at (rest ++ [0x80]) _ (S (block_size_ s))) by (rewrite ?length_replicate, ?length_drop; lia).
      rewrite length_replicate, drop_drop, (drop_ge (put _ _ _)) by lia.
      rewrite app_nil_r, <- app_assoc. cbn [app]. do 3 f_equal. }
    set (first := rest ++ 0x80 :: replicate (63 - block_size_ s) 0).
    assert (length first = 64%nat) as Hf
      by (subst first; rewrite length_app; simpl; rewrite length_replicate; lia).
    rewrite (last_block [] first) by (done || simpl; lia). simpl app at 1.
    replace (rest ++ 0x80 :: _ ++ _ ++ _) with (first ++ replicate 56 0 ++ length_bytes (u64 (n * 8)))
      by (subst first; by rewrite <- app_assoc).
    rewrite (blocks_of full _ 2) by (try done; rewrite !length_app, length_replicate, length_bytes_length; lia).
    change 2%nat with (1 + 1)%nat. rewrite digest_blocks_app by lia.
    rewrite !digest_blocks_one by (rewrite ?length_app, ?length_replicate, ?length_bytes_length; lia).
    by rewrite Hstate.
  - rewrite (padding_short n (block_size_ s)) by (done || lia).
    rewrite <- Hl1. rewrite last_block by (rewrite ?Hl1; try done; lia).
    rewrite Hl1, <- !app_assoc. cbn [app].
    replace (56 - S (block_size_ s))%nat with (55 - block_size_ s)%nat by lia.
    rewrite (blocks_of full _ 1)
      by (try done; rewrite length_app; cbn [length]; rewrite length_app, length_replicate, length_bytes_length; lia).
    rewrite digest_blocks_one
      by (rewrite length_app; cbn [length]; rewrite length_app, length_replicate, length_bytes_length; lia).
    by rewrite Hstate.
Qed.

(** ** Theorems *)

(** C20: However a message is cut into pieces, the digest is the one of the whole message:
    its blocks and its padding compressed one after the other. *)
Theorem sha256_streams (pieces : list (list Z)) :
  finish (foldl update new_state pieces) = digest (mjoin pieces).
Proof. destruct (pieces_absorbed pieces new_state [] new_absorbed eq_refl). by apply finish_digest. Qed.

Lemma sha256_digest bytes : sha256 bytes = digest bytes.
Proof. destruct (update_absorbs new_state bytes [] new_absorbed eq_refl). by apply finish_digest. Qed.

Lemma pieces_digest pieces : finish (foldl update new_state pieces) = sha256 (mjoin pieces).
Proof.
  rewrite sha256_digest. destruct (pieces_absorbed pieces new_state [] new_absorbed eq_refl).
  by apply finish_digest.
Qed.

(** A digest is 32 bytes. *)
Lemma byte_of_is_byte z : is_byte (byte_of z).
Proof. unfold is_byte, byte_of. apply (Z.mod_pos_bound z (2 ^ 8)). lia. Qed.

Lemma word_bytes_all words :
  length (mjoin (word_bytes <$> words)) = (4 * length words)%nat /\ Forall is_byte (mjoin (word_bytes <$> words)).
Proof.
  induction words as [|w words [IH1 IH2]]; [done|].
  change (mjoin (word_bytes <$> w :: words)) with (word_bytes w ++ mjoin (word_bytes <$> words)).
  rewrite length_app, IH1. split; [unfold word_bytes; simpl; lia|].
  apply Forall_app. split; [|done]. unfold word_bytes. repeat constructor; apply byte_of_is_byte.
Qed.

Lemma finish_bytes s : length (finish s) = 32%nat /\ Forall is_byte (finish s).
Proof.
  unfold finish. destruct (if (56 <? S (block_size_ s))%nat then _ else _) as [[words block] size].
  pose proof (word_bytes_all (transform (put (put block size (replicate (56 - size) 0)) 56
    (length_bytes (u64 (total_bytes_ s * 8)))) words)) as [H ?]. split; [|done]. rewrite H. done.
Qed.

Lemma sha256_bytes bytes : length (sha256 bytes) = 32%nat /\ Forall is_byte (sha256 bytes).
Proof. apply finish_bytes. Qed.

(** The constants are the first 32 bits of the fractional parts of the cube roots of the
    first 64 primes, and the first words those of the square roots of the first eight. *)
Definition primes : list Z :=
  [2; 3; 5; 7; 11; 13; 17; 19; 23; 29; 31; 37; 41; 43; 47; 53; 59; 61; 67; 71; 73; 79; 83; 89; 97; 101; 103; 107;
   109; 113; 127; 131; 137; 139; 149; 151; 157; 163; 167; 173; 179; 181; 191; 193; 197; 199; 211; 223; 227; 229;
   233; 239; 241; 251; 257; 263; 269; 271; 277; 281; 283; 293; 307; 311].

Definition root_bits (power p c : Z) : bool :=
  existsb (fun whole =>
    let r := whole * 2 ^ 32 + c in
    (r ^ power <=? p * 2 ^ (32 * power)) && (p * 2 ^ (32 * power) <? (r + 1) ^ power)) (seqZ 0 18).

Lemma sha_table :
  forallb (fun pc => root_bits 3 pc.1 pc.2) (zip primes sha_constants) = true /\ length sha_constants = 64%nat /\
  forallb (fun pc => root_bits 2 pc.1 pc.2) (zip primes first_state) = true /\ length first_state = 8%nat.
Proof. by vm_compute. Qed.

Example sha256_abc :
  sha256 [97; 98; 99] =
  [186; 120; 22; 191; 143; 1; 207; 234; 65; 65; 64; 222; 93; 174; 34; 35; 176; 3; 97; 163; 150; 23; 122; 156; 180;
   16; 255; 97; 242; 0; 21; 173].
Proof. by vm_compute. Qed.
