(* ===== verification/LittleEndian.v ===== *)
(** * Numbers as bytes, the least significant first

    Of the files of the prefix cache ([core/mfq_paged_prefix_cache.cpp]): [le_bytes] writes
    the low bytes of a number, [le_value] reads bytes as one number, [from_le] reads them
    as the code does, by shifts. *)

From stdpp Require Import base list.
From Stdlib Require Import ZArith Lia.
From S2P Require Import Prelude Sha256.

#[local] Set Default Proof Using "Type".
#[local] Open Scope Z_scope.

Definition le_bytes (count : nat) (converted : Z) : list Z :=
  (fun index => byte_of (Z.shiftr converted (Z.of_nat index * 8))) <$> seq 0 count.

Fixpoint from_le (index converted : Z) (bytes : list Z) : Z :=
  match bytes with
  | [] => converted
  | b :: bytes => from_le (index + 1) (Z.lor converted (Z.shiftl b (index * 8))) bytes
  end.

Fixpoint le_value (bytes : list Z) : Z :=
  match bytes with [] => 0 | b :: bytes => b + 256 * le_value bytes end.

Lemma lor_shiftl c b k : 0 <= k -> 0 <= c < 2 ^ k -> Z.lor c (Z.shiftl b k) = c + b * 2 ^ k.
Proof.
  intros Hk Hc. rewrite <- Z.shiftl_mul_pow2 by done.
  assert (Z.land c (Z.shiftl b k) = 0) as Hland.
  { apply Z.bits_inj_0. intros i. rewrite Z.land_spec. destruct (decide (i < k)).
    - rewrite Z.shiftl_spec_low by done. apply andb_false_r.
    - rewrite <- (Z.mod_small c (2 ^ k)), Z.mod_pow2_bits_high by lia. done. }
  rewrite Z.add_nocarry_lxor by done. symmetry. by apply Z.lxor_lor.
Qed.

Lemma le_value_range bytes : Forall is_byte bytes -> 0 <= le_value bytes < 2 ^ (8 * size_of bytes).
Proof.
  induction 1 as [|b bytes [??] _ IH]; simpl; [unfold size_of; simpl; lia|].
  replace (8 * size_of (b :: bytes)) with (8 + 8 * size_of bytes) by (unfold size_of; simpl; lia).
  rewrite Z.pow_add_r by (unfold size_of; lia). lia.
Qed.

Lemma from_le_value bytes k c :
  Forall is_byte bytes -> 0 <= k -> 0 <= c < 2 ^ (k * 8) ->
  from_le k c bytes = c + 2 ^ (k * 8) * le_value bytes.
Proof.
  intros Hb. revert k c. induction Hb as [|b bytes [??] _ IH]; intros k c Hk Hc; simpl; [lia|].
  assert (2 ^ ((k + 1) * 8) = 256 * 2 ^ (k * 8)) as Hp
    by (rewrite Z.mul_add_distr_r, Z.pow_add_r by lia; lia).
  rewrite lor_shiftl by lia. rewrite IH, Hp by (rewrite ?Hp; nia). lia.
Qed.

Lemma le_bytes_cons n v : le_bytes (S n) v = byte_of v :: le_bytes n (Z.shiftr v 8).
Proof.
  unfold le_bytes. rewrite <- cons_seq, fmap_cons, <- fmap_S_seq, <- list_fmap_compose.
  f_equal. apply list_fmap_ext. intros i x _. simpl.
  f_equal. rewrite Z.shiftr_shiftr by lia. f_equal. lia.
Qed.

Lemma le_bytes_length n v : length (le_bytes n v) = n.
Proof. unfold le_bytes. by rewrite length_fmap, length_seq. Qed.

Lemma le_bytes_are_bytes n v : Forall is_byte (le_bytes n v).
Proof. apply Forall_fmap, Forall_true. intros. apply byte_of_is_byte. Qed.

Lemma le_value_bytes n v : le_value (le_bytes n v) = v mod 2 ^ (8 * Z.of_nat n).
Proof.
  revert v. induction n as [|n IH]; intros v; [by rewrite Z.mod_1_r|].
  rewrite le_bytes_cons. simpl. rewrite IH. unfold byte_of.
  replace (8 * Z.of_nat (S n)) with (8 + 8 * Z.of_nat n) by lia.
  rewrite Z.pow_add_r, Z.rem_mul_r by lia. by rewrite Z.shiftr_div_pow2 by lia.
Qed.

Lemma le_bytes_value bytes : Forall is_byte bytes -> le_bytes (length bytes) (le_value bytes) = bytes.
Proof.
  induction 1 as [|b bytes [??] _ IH]; [done|]. cbn [length le_value]. rewrite le_bytes_cons. f_equal.
  - unfold byte_of. rewrite Z.mul_comm, Z.mod_add by lia. by apply Z.mod_small.
  - rewrite Z.shiftr_div_pow2 by lia. change (2 ^ 8) with 256.
    rewrite Z.mul_comm, Z.div_add, Z.div_small by lia. done.
Qed.

Lemma from_le_bytes n v : from_le 0 0 (le_bytes n v) = v mod 2 ^ (8 * Z.of_nat n).
Proof.
  rewrite from_le_value, le_value_bytes; [|apply le_bytes_are_bytes|lia..]. simpl Z.pow. lia.
Qed.
