(* ===== verification/BlockFile.v ===== *)
(** * Blocks of the prefix cache

    What [src/cpp_runtime/core/mfq_paged_prefix_cache.cpp] hashes and writes: the hash of
    a block of tokens ([block_hash]), and the images of its file and of the text beside
    it, with their readers. [block_round_trip] states that the reader takes back exactly
    what was written; [message_binds], that the hashed message determines the block. *)

From stdpp Require Import base list strings.
From Stdlib Require Import ZArith Lia.
From S2P Require Import Prelude Sha256 LittleEndian.

#[local] Set Default Proof Using "Type".
#[local] Open Scope Z_scope.

Notation BlockHash := (list Z) (only parsing).

Definition is_hash (h : BlockHash) : Prop := length h = 32%nat /\ Forall is_byte h.

(** A string literal as bytes. *)
Definition bytes_of (s : string) : list Z :=
  (fun c => Z.of_N (Ascii.N_of_ascii c)) <$> String.list_ascii_of_string s.

Definition kMagic : list Z := bytes_of "MFQKVB1" ++ [0].
Definition kFormatVersion : Z := 1.
Definition kHeaderBytes : Z := 8 + 4 + 32 + 32 + 32 + 4 + 4 + 8 + 32.
Definition kHashDomain : list Z := bytes_of "mfq-paged-prefix-v1".
Definition streamsize_max : Z := s64_max.

(** ** Numbers as bytes *)

Definition hash_little_endian (count : nat) (state : Sha256State) (value : Z) : Sha256State :=
  update state (le_bytes count value).

(** ** Reading a stream

    [None] is a stream in a failed state. *)

Definition read_bytes (count : nat) (input : list Z) : option (list Z * list Z) :=
  if (count <=? length input)%nat then Some (take count input, drop count input) else None.

Definition read_little_endian (count : nat) (input : list Z) : option (Z * list Z) :=
  '(bytes, input) ← read_bytes count input;
  Some (from_le 0 0 bytes, input).

(** ** The namespace of a cache and the hash of a block *)

Record Namespace := {
  compatibility_hash : BlockHash;
  block_size_tokens : Z;
  namespace_dir : list string;
}.

Definition block_hash (n : Namespace) (parent : BlockHash) (token_ids extra_key : list Z) : outcome BlockHash :=
  throw_if (size_of token_ids =? 0) || (block_size_tokens n <? size_of token_ids)
    with InvalidArgument "invalid paged prefix token block";
  let state := update new_state kHashDomain in
  let state := update state (compatibility_hash n) in
  let state := update state parent in
  let state := hash_little_endian 8 state (size_of extra_key) in
  let state := update state extra_key in
  let state := hash_little_endian 8 state (size_of token_ids) in
  let state := foldl (fun state token => hash_little_endian 8 state (u64 token)) state token_ids in
  Ok (finish state).

(** ** Names of files

    A path is the list of its names. *)

Definition hex_digit (d : Z) : Ascii.ascii := Ascii.ascii_of_N (Z.to_N (if d <? 10 then 48 + d else 87 + d)).

Definition block_hash_hex (hash : BlockHash) : string :=
  String.string_of_list_ascii (mjoin ((fun b => [hex_digit (b / 16); hex_digit (b mod 16)]) <$> hash)).

Definition path_for (n : Namespace) (hash : BlockHash) : list string :=
  let text := block_hash_hex hash in
  namespace_dir n ++ [String.substring 0 2 text; (text +:+ ".mfqkv")%string].

Definition parent_path (path : list string) : list string := removelast path.

(** [path.string() + suffix]. *)
Definition with_suffix (path : list string) (suffix : string) : list string :=
  removelast path ++ [(List.last path EmptyString +:+ suffix)%string].

Definition text_path (block : list string) : list string := with_suffix block ".tokens".

(** ** Files *)

Record WriteRequest := {
  wr_hash : BlockHash;
  wr_parent : BlockHash;
  wr_token_count : Z;
  wr_payload : list Z;
  wr_epoch : Z;
  wr_replace_existing : bool;
  wr_tokens : list Z;
}.

Record ParsedHeader := {
  ph_compatibility : BlockHash;
  ph_hash : BlockHash;
  ph_parent : BlockHash;
  ph_block_size : Z;
  ph_token_count : Z;
  ph_payload_bytes : Z;
  ph_payload_hash : BlockHash;
}.

(** What [write_file] writes. *)
Definition file_image (n : Namespace) (r : WriteRequest) : list Z :=
  kMagic ++ le_bytes 4 kFormatVersion ++ compatibility_hash n ++ wr_hash r ++ wr_parent r ++
  le_bytes 4 (u32 (block_size_tokens n)) ++ le_bytes 4 (wr_token_count r) ++
  le_bytes 8 (size_of (wr_payload r)) ++ sha256 (wr_payload r) ++ wr_payload r.

(** What [write_text] writes. *)
Definition text_bytes (tokens : list Z) : list Z := mjoin (le_bytes 8 ∘ u64 <$> tokens).

Definition text_image (n : Namespace) (r : WriteRequest) : list Z :=
  let bytes := text_bytes (wr_tokens r) in
  bytes_of "MFQTXT1" ++ [0] ++ compatibility_hash n ++ wr_hash r ++
  le_bytes 4 (u32 (size_of (wr_tokens r))) ++ sha256 bytes ++ bytes.

Definition read_header (n : Namespace) (input : list Z) : option (ParsedHeader * list Z) :=
  '(magic, input) ← read_bytes 8 input;
  if negb (bool_decide (magic = kMagic)) then None
  else
    '(version, input) ← read_little_endian 4 input;
    if negb (version =? kFormatVersion) then None
    else
      '(compatibility, input) ← read_bytes 32 input;
      '(hash, input) ← read_bytes 32 input;
      '(parent, input) ← read_bytes 32 input;
      '(block_size, input) ← read_little_endian 4 input;
      '(token_count, input) ← read_little_endian 4 input;
      '(payload_bytes, input) ← read_little_endian 8 input;
      '(payload_hash, input) ← read_bytes 32 input;
      if bool_decide (compatibility = compatibility_hash n) && (block_size =? block_size_tokens n) &&
         (0 <? token_count) && (token_count <=? block_size) && (payload_bytes <=? streamsize_max)
      then Some ({| ph_compatibility := compatibility; ph_hash := hash; ph_parent := parent;
                    ph_block_size := block_size; ph_token_count := token_count;
                    ph_payload_bytes := payload_bytes; ph_payload_hash := payload_hash |}, input)
      else None.

(** [contents] is what the opened file holds. *)
Definition read_payload (n : Namespace) (contents : list Z) (expected_hash : BlockHash) : option (list Z) :=
  '(header, rest) ← read_header n contents;
  let payload_start := size_of contents - size_of rest in
  if negb (bool_decide (ph_hash header = expected_hash)) then None
  else if negb (payload_start =? kHeaderBytes) || (u64_max - kHeaderBytes <? ph_payload_bytes header) ||
          negb (size_of contents =? kHeaderBytes + ph_payload_bytes header)
  then None
  else
    '(payload, _) ← read_bytes (Z.to_nat (ph_payload_bytes header)) rest;
    if negb (bool_decide (sha256 payload = ph_payload_hash header)) then None
    else Some payload.

(** ** Reading what was written *)

Lemma read_bytes_app n a b : length a = n -> read_bytes n (a ++ b) = Some (a, b).
Proof.
  intros <-. unfold read_bytes. rewrite length_app.
  destruct (Nat.leb_spec (length a) (length a + length b)); [|lia].
  by rewrite take_app_length, drop_app_length.
Qed.

Lemma read_le_app n v b : read_little_endian n (le_bytes n v ++ b) = Some (v mod 2 ^ (8 * Z.of_nat n), b).
Proof.
  unfold read_little_endian. rewrite read_bytes_app by apply le_bytes_length.
  simpl. by rewrite from_le_bytes.
Qed.

Lemma read_bytes_inv n input a b : read_bytes n input = Some (a, b) -> input = a ++ b /\ length a = n.
Proof.
  unfold read_bytes. destruct (Nat.leb_spec n (length input)); [|done]. intros [= <- <-].
  rewrite take_drop, length_take. split; [done|lia].
Qed.

Lemma read_le_inv n input v b :
  Forall is_byte input -> read_little_endian n input = Some (v, b) ->
  input = le_bytes n v ++ b /\ 0 <= v < 2 ^ (8 * Z.of_nat n).
Proof.
  intros Hin. unfold read_little_endian. destruct (read_bytes n input) as [[a b']|] eqn:Hr; [|done].
  simpl. intros [= <- <-]. apply read_bytes_inv in Hr as [-> Hlen].
  apply Forall_app in Hin as [Ha _]. rewrite from_le_value by (done || simpl; lia).
  change (2 ^ (0 * 8)) with 1. rewrite Z.add_0_l, Z.mul_1_l. pose proof (le_value_range _ Ha) as Hv.
  unfold size_of in Hv. rewrite <- Hlen at 1. rewrite le_bytes_value by done. rewrite <- Hlen. done.
Qed.

Lemma length_sha256 m : length (sha256 m) = 32%nat.
Proof. apply sha256_bytes. Qed.

#[export] Hint Rewrite le_bytes_length length_sha256 : file_lengths.

(** A request as the cache makes them. *)
Record good_request (n : Namespace) (r : WriteRequest) : Prop := {
  gr_compat : length (compatibility_hash n) = 32%nat;
  gr_hash : length (wr_hash r) = 32%nat;
  gr_parent : length (wr_parent r) = 32%nat;
  gr_block : 0 < block_size_tokens n < 2 ^ 32;
  gr_count : 0 < wr_token_count r <= block_size_tokens n;
  gr_payload : size_of (wr_payload r) <= streamsize_max;
}.

Definition header_of (n : Namespace) (r : WriteRequest) : ParsedHeader :=
  {| ph_compatibility := compatibility_hash n; ph_hash := wr_hash r; ph_parent := wr_parent r;
     ph_block_size := block_size_tokens n; ph_token_count := wr_token_count r;
     ph_payload_bytes := size_of (wr_payload r); ph_payload_hash := sha256 (wr_payload r) |}.

(** One read of a stream that begins with what was written. *)
Ltac read_step :=
  first [rewrite read_le_app | rewrite read_bytes_app by (done || apply length_sha256)];
  cbn [mbind option_bind].

Lemma read_header_image n r :
  good_request n r -> read_header n (file_image n r) = Some (header_of n r, wr_payload r).
Proof.
  intros []. unfold read_header, file_image. read_step. rewrite bool_decide_true by done.
  read_step. change (kFormatVersion mod 2 ^ (8 * Z.of_nat 4) =? kFormatVersion) with true. cbn [negb].
  do 7 read_step. change (8 * Z.of_nat 4) with 32. change (8 * Z.of_nat 8) with 64.
  pose proof (size_of_nonneg (wr_payload r)). unfold streamsize_max, s64_max in *.
  unfold u32. rewrite Zmod_mod, !Z.mod_small by lia.
  rewrite bool_decide_true, Z.eqb_refl by done.
  destruct (Z.ltb_spec 0 (wr_token_count r)); [|lia].
  destruct (Z.leb_spec (wr_token_count r) (block_size_tokens n)); [|lia].
  destruct (Z.leb_spec (size_of (wr_payload r)) (2 ^ 63 - 1)); [|lia]. done.
Qed.

Lemma file_image_size n r :
  good_request n r -> size_of (file_image n r) = kHeaderBytes + size_of (wr_payload r).
Proof.
  intros []. unfold size_of, file_image. rewrite !length_app.
  autorewrite with file_lengths. change (length kMagic) with 8%nat. unfold kHeaderBytes. lia.
Qed.

(** Taking a read apart: the stream began with what was returned. *)
Ltac read_inv Hc x rest :=
  match goal with
  | |- context [read_bytes ?k ?i] =>
      let E := fresh "E" in destruct (read_bytes k i) as [[x rest]|] eqn:E; cbn [mbind option_bind]; [|discriminate];
      apply read_bytes_inv in E as [-> ?]; apply Forall_app in Hc as [? Hc]
  | |- context [read_little_endian ?k ?i] =>
      let E := fresh "E" in destruct (read_little_endian k i) as [[x rest]|] eqn:E; cbn [mbind option_bind]; [|discriminate];
      apply read_le_inv in E as [-> ?]; [|done]; apply Forall_app in Hc as [? Hc]
  end.

(** What a successful reading says of the stream. *)
Lemma read_header_inv n c h rest :
  Forall is_byte c -> read_header n c = Some (h, rest) ->
  c = kMagic ++ le_bytes 4 kFormatVersion ++ compatibility_hash n ++ ph_hash h ++ ph_parent h ++
      le_bytes 4 (block_size_tokens n) ++ le_bytes 4 (ph_token_count h) ++
      le_bytes 8 (ph_payload_bytes h) ++ ph_payload_hash h ++ rest /\
  length (compatibility_hash n) = 32%nat /\ length (ph_hash h) = 32%nat /\ length (ph_parent h) = 32%nat /\
  length (ph_payload_hash h) = 32%nat /\ 0 < block_size_tokens n < 2 ^ 32 /\
  0 < ph_token_count h <= block_size_tokens n /\ 0 <= ph_payload_bytes h <= streamsize_max.
Proof.
  intros Hc. unfold read_header. read_inv Hc magic i1.
  destruct (bool_decide_reflect (magic = kMagic)) as [->|]; cbn [negb]; [|discriminate].
  read_inv Hc version i2. destruct (Z.eqb_spec version kFormatVersion) as [->|]; cbn [negb]; [|discriminate].
  read_inv Hc compat i3. read_inv Hc hash i4. read_inv Hc parent i5. read_inv Hc bs i6.
  read_inv Hc tc i7. read_inv Hc pb i8. read_inv Hc ph i9.
  destruct (bool_decide_reflect (compat = compatibility_hash n)) as [->|]; cbn [andb]; [|discriminate].
  destruct (Z.eqb_spec bs (block_size_tokens n)) as [->|]; cbn [andb]; [|discriminate].
  destruct (Z.ltb_spec 0 tc); cbn [andb]; [|discriminate].
  destruct (Z.leb_spec tc (block_size_tokens n)); cbn [andb]; [|discriminate].
  destruct (Z.leb_spec pb streamsize_max); [|discriminate].
  intros [= <- <-]. cbn [ph_hash ph_parent ph_token_count ph_payload_bytes ph_payload_hash].
  split_and!; try done || lia.
Qed.

Lemma read_payload_image n r :
  good_request n r -> read_payload n (file_image n r) (wr_hash r) = Some (wr_payload r).
Proof.
  intros Hr. unfold read_payload. rewrite read_header_image, file_image_size by done.
  pose proof (size_of_nonneg (wr_payload r)). destruct Hr. cbn [mbind option_bind header_of ph_hash ph_payload_bytes ph_payload_hash].
  rewrite bool_decide_true by done. cbn [negb].
  replace (kHeaderBytes + size_of (wr_payload r) - size_of (wr_payload r)) with kHeaderBytes by lia.
  rewrite !Z.eqb_refl. unfold streamsize_max, s64_max, u64_max, kHeaderBytes in *. cbn [negb orb].
  destruct (Z.ltb_spec (2 ^ 64 - 1 - (8 + 4 + 32 + 32 + 32 + 4 + 4 + 8 + 32)) (size_of (wr_payload r))); [lia|].
  cbn [orb]. rewrite <- (app_nil_r (wr_payload r)) at 2. rewrite read_bytes_app by (unfold size_of; lia).
  cbn [mbind option_bind]. by rewrite bool_decide_true.
Qed.

Lemma read_header_parent n input h rest : read_header n input = Some (h, rest) -> length (ph_parent h) = 32%nat.
Proof.
  unfold read_header, read_little_endian. intros Hread.
  repeat match type of Hread with
  | context [read_bytes ?k ?i] =>
      let E := fresh "E" in destruct (read_bytes k i) as [[? ?]|] eqn:E; cbn [mbind option_bind] in Hread; [|done];
      apply read_bytes_inv in E as [_ ?]
  | context [if ?b then _ else _] => destruct b; try done
  end.
  injection Hread as <- _. done.
Qed.

(** Whatever the fields of the header are, a payload read from an image is the one in it. *)
Lemma image_payload n r expected payload :
  length (compatibility_hash n) = 32%nat -> length (wr_hash r) = 32%nat -> length (wr_parent r) = 32%nat ->
  read_payload n (file_image n r) expected = Some payload -> payload = wr_payload r.
Proof.
  intros Hn Hh Hp.
  assert (size_of (file_image n r) = kHeaderBytes + size_of (wr_payload r)) as Hsize.
  { unfold size_of, file_image. rewrite !length_app. autorewrite with file_lengths. rewrite Hn, Hh, Hp.
    change (length kMagic) with 8%nat. unfold kHeaderBytes. lia. }
  unfold read_payload. rewrite Hsize. unfold read_header, file_image. read_step. rewrite bool_decide_true by done.
  read_step. change (kFormatVersion mod 2 ^ (8 * Z.of_nat 4) =? kFormatVersion) with true. cbn [negb].
  do 7 read_step. destruct (_ && _); [|done]. cbn [mbind option_bind ph_hash ph_payload_bytes ph_payload_hash].
  destruct (negb _); [done|]. set (bytes := size_of (wr_payload r) mod _).
  destruct (negb (_ =? kHeaderBytes) || _ || _) eqn:Hok; [done|].
  apply orb_false_elim in Hok as [_ Hlen%negb_false_iff%Z.eqb_eq].
  replace (Z.to_nat bytes) with (length (wr_payload r)) by (unfold size_of in *; lia).
  rewrite <- (app_nil_r (wr_payload r)) at 2. rewrite read_bytes_app by done. cbn [mbind option_bind].
  destruct (negb _); [done|]. by intros [= <-].
Qed.

(** ** The message that is hashed *)

Definition block_message (n : Namespace) (parent : BlockHash) (token_ids extra_key : list Z) : list Z :=
  kHashDomain ++ compatibility_hash n ++ parent ++ le_bytes 8 (size_of extra_key) ++ extra_key ++
  le_bytes 8 (size_of token_ids) ++ text_bytes token_ids.

(** Feeding six pieces, then one for each token, to a hash that takes pieces. *)
Lemma pieces_then_tokens {S D} (upd : S -> list Z -> S) (fin : S -> D) (hash : list Z -> D) s0
    (enc : Z -> list Z) a b c d e f tokens :
  (forall pieces, fin (foldl upd s0 pieces) = hash (mjoin pieces)) ->
  fin (foldl (fun s t => upd s (enc t)) (upd (upd (upd (upd (upd (upd s0 a) b) c) d) e) f) tokens) =
  hash (a ++ b ++ c ++ d ++ e ++ f ++ mjoin (enc <$> tokens)).
Proof.
  intros H. specialize (H ([a; b; c; d; e; f] ++ (enc <$> tokens))).
  rewrite foldl_app in H. simpl in H. rewrite <- H. f_equal.
  generalize (upd (upd (upd (upd (upd (upd s0 a) b) c) d) e) f) as s. clear H.
  induction tokens as [|t tokens IH]; intros s; [done|]. apply IH.
Qed.

(** The hash is the digest of the message; a block has at least one token and fits. *)
Lemma block_hash_message n parent tokens extra :
  block_hash n parent tokens extra =
  if (size_of tokens =? 0) || (block_size_tokens n <? size_of tokens)
  then Throw (InvalidArgument "invalid paged prefix token block")
  else Ok (sha256 (block_message n parent tokens extra)).
Proof.
  unfold block_hash. destruct (_ || _); [done|]. f_equal. unfold hash_little_endian, block_message, text_bytes.
  apply (pieces_then_tokens update finish sha256 new_state (le_bytes 8 ∘ u64)), pieces_digest.
Qed.

Lemma le_bytes_inj v v' : in_u64 v -> in_u64 v' -> le_bytes 8 v = le_bytes 8 v' -> v = v'.
Proof.
  unfold in_u64, u64_max. intros ?? H%(f_equal le_value). rewrite !le_value_bytes in H.
  change (8 * Z.of_nat 8) with 64 in H. rewrite !Z.mod_small in H by lia. done.
Qed.

Lemma u64_inj v v' : in_s64 v -> in_s64 v' -> u64 v = u64 v' -> v = v'.
Proof.
  unfold in_s64, s64_max, u64. intros ?? H.
  pose proof (Z.div_mod v (2 ^ 64) ltac:(lia)). pose proof (Z.div_mod v' (2 ^ 64) ltac:(lia)).
  rewrite H in *. nia.
Qed.

Lemma text_bytes_inj tokens tokens' :
  Forall in_s64 tokens -> Forall in_s64 tokens' -> text_bytes tokens = text_bytes tokens' -> tokens = tokens'.
Proof.
  intros Ht. revert tokens'. induction Ht as [|t tokens Ht _ IH]; intros [|t' tokens'] Ht' H; [done..|].
  apply Forall_cons in Ht' as [??]. unfold text_bytes in H. rewrite !fmap_cons in H.
  change (mjoin (?a :: ?b)) with (a ++ mjoin b) in H.
  apply app_inj_1 in H as [Heq H]; [|by unfold compose; rewrite !le_bytes_length].
  apply le_bytes_inj in Heq; [|apply u64_range..]. apply u64_inj in Heq; [|done..]. subst.
  f_equal. by apply IH.
Qed.

Lemma app_split (a b c d : list Z) : a ++ b = c ++ d -> length a = length c -> a = c /\ b = d.
Proof. intros. by apply app_inj_1. Qed.

(** Two blocks with the same message are the same block, after the same parent, in the
    same namespace. *)
Lemma message_binds n n' parent parent' tokens tokens' extra extra' :
  length (compatibility_hash n) = 32%nat -> length (compatibility_hash n') = 32%nat ->
  length parent = 32%nat -> length parent' = 32%nat ->
  Forall in_s64 tokens -> Forall in_s64 tokens' -> size_of extra <= u64_max -> size_of extra' <= u64_max ->
  block_message n parent tokens extra = block_message n' parent' tokens' extra' ->
  compatibility_hash n = compatibility_hash n' /\ parent = parent' /\ tokens = tokens' /\ extra = extra'.
Proof.
  intros Hn Hn' Hp Hp' Ht Ht' He He' H. unfold block_message in H.
  pose proof (size_of_nonneg extra). pose proof (size_of_nonneg extra').
  apply app_inv_head in H. apply app_split in H as [-> H]; [|congruence].
  apply app_split in H as [-> H]; [|congruence].
  apply app_split in H as [Hs H]; [|by rewrite !le_bytes_length].
  apply le_bytes_inj in Hs; [|unfold in_u64; lia..].
  apply app_split in H as [-> H]; [|unfold size_of in Hs; lia].
  apply app_split in H as [_ H]; [|by rewrite !le_bytes_length].
  split_and!; try done. by apply text_bytes_inj.
Qed.

(** ** Names *)

Lemma hex_digit_inj d d' : 0 <= d < 16 -> 0 <= d' < 16 -> hex_digit d = hex_digit d' -> d = d'.
Proof.
  intros Hd Hd' H%(f_equal Ascii.N_of_ascii). unfold hex_digit in H.
  rewrite !Ascii.N_ascii_embedding in H by (repeat case_match; lia).
  repeat case_match; lia.
Qed.

Lemma hex_inj hash hash' :
  Forall is_byte hash -> Forall is_byte hash' -> block_hash_hex hash = block_hash_hex hash' -> hash = hash'.
Proof.
  intros Hh Hh' H%(f_equal String.list_ascii_of_string). unfold block_hash_hex in H.
  rewrite !String.list_ascii_of_string_of_list_ascii in H.
  revert hash' Hh' H. induction Hh as [|b hash [Ha1 Ha2] _ IH]; intros [|b' hash'] Hh' H; try done.
  apply Forall_cons in Hh' as [[Hb1 Hb2] Hh']. rewrite !fmap_cons in H.
  change (mjoin (?a :: ?b)) with (a ++ mjoin b) in H. cbn [app] in H. injection H as E1 E2 H.
  apply hex_digit_inj in E1; [|split; [apply Z.div_pos; lia|apply Z.div_lt_upper_bound; lia]..].
  apply hex_digit_inj in E2; [|apply Z.mod_pos_bound; lia..].
  f_equal; [|by apply IH]. rewrite (Z.div_mod b 16), (Z.div_mod b' 16) by lia. lia.
Qed.

Lemma string_length_ascii s : String.length s = length (String.list_ascii_of_string s).
Proof. induction s; simpl; congruence. Qed.

Lemma ascii_app s t :
  String.list_ascii_of_string (s +:+ t)%string = String.list_ascii_of_string s ++ String.list_ascii_of_string t.
Proof.
  induction s as [|c s IH]; [done|].
  change (c :: String.list_ascii_of_string (s +:+ t) =
          c :: (String.list_ascii_of_string s ++ String.list_ascii_of_string t)). by rewrite IH.
Qed.

Lemma hex_length hash : length (String.list_ascii_of_string (block_hash_hex hash)) = (2 * length hash)%nat.
Proof.
  unfold block_hash_hex. rewrite String.list_ascii_of_string_of_list_ascii.
  induction hash as [|b hash IH]; [done|]. rewrite fmap_cons.
  change (mjoin (?a :: ?b)) with (a ++ mjoin b). rewrite length_app, IH. simpl. lia.
Qed.

(** The files of different hashes have different names. *)
Lemma path_for_inj n hash hash' :
  is_hash hash -> is_hash hash' -> path_for n hash = path_for n hash' -> hash = hash'.
Proof.
  intros [Hl Hb] [Hl' Hb'] H. apply app_inv_head in H. injection H as _ H.
  apply (f_equal String.list_ascii_of_string) in H. rewrite !ascii_app in H.
  apply app_inj_1 in H as [H _]; [|by rewrite !hex_length, Hl, Hl'].
  apply hex_inj; [done..|]. rewrite <- (String.string_of_list_ascii_of_string (block_hash_hex hash)), H.
  apply String.string_of_list_ascii_of_string.
Qed.

Lemma with_suffix_app dir a b suffix : with_suffix (dir ++ [a; b]) suffix = dir ++ [a; (b +:+ suffix)%string].
Proof.
  unfold with_suffix. change (dir ++ [a; b]) with (dir ++ [a] ++ [b]). rewrite app_assoc.
  rewrite removelast_last, List.last_last, <- app_assoc. done.
Qed.

(** The text of a block is never the file of a block. *)
Lemma text_path_fresh n hash hash' :
  is_hash hash -> is_hash hash' -> text_path (path_for n hash) <> path_for n hash'.
Proof.
  intros [Hl _] [Hl' _] H. unfold text_path, path_for in H. rewrite with_suffix_app in H.
  apply app_inv_head in H. injection H as _ H.
  apply (f_equal (length ∘ String.list_ascii_of_string)) in H. unfold compose in H.
  rewrite !ascii_app, !length_app, !hex_length, Hl, Hl' in H. simpl in H. lia.
Qed.

(** The name of a block's file begins with a digit. *)
Lemma hex_digit_not_dot d : 0 <= d < 16 -> hex_digit d <> Ascii.ascii_of_N 46.
Proof.
  intros Hd H%(f_equal Ascii.N_of_ascii). unfold hex_digit in H.
  rewrite !Ascii.N_ascii_embedding in H by (repeat case_match; lia). repeat case_match; lia.
Qed.

Lemma hex_head hash : is_hash hash -> head (String.list_ascii_of_string (block_hash_hex hash)) <> Some (Ascii.ascii_of_N 46).
Proof.
  intros [Hl Hb]. unfold block_hash_hex. rewrite String.list_ascii_of_string_of_list_ascii.
  destruct hash as [|b hash]; [done|]. apply Forall_cons in Hb as [[Hb1 Hb2] _]. rewrite fmap_cons.
  change (mjoin (?a :: ?b)) with (a ++ mjoin b). cbn [app head]. intros [= H].
  apply (hex_digit_not_dot (b / 16)); [split; [apply Z.div_pos; lia|apply Z.div_lt_upper_bound; lia]|done].
Qed.

(** ** Reading a file *)

(** A file that is accepted is the image of a request with the expected hash. *)
Lemma read_payload_inv n c expected payload :
  Forall is_byte c -> read_payload n c expected = Some payload ->
  exists r, good_request n r /\ wr_hash r = expected /\ wr_payload r = payload /\ c = file_image n r.
Proof.
  intros Hc. unfold read_payload. destruct (read_header n c) as [[h rest]|] eqn:Hh; cbn [mbind option_bind]; [|done].
  apply read_header_inv in Hh as (-> & Hn & Hhash & Hp & Hph & Hb & Ht & Hpb); [|done].
  destruct (bool_decide_reflect (ph_hash h = expected)) as [<-|]; cbn [negb]; [|discriminate].
  match goal with |- context [size_of ?c =? _ + _] => set (contents := c) end.
  assert (size_of contents = kHeaderBytes + size_of rest) as Hsize.
  { subst contents. unfold size_of. rewrite !length_app. autorewrite with file_lengths.
    rewrite Hn, Hhash, Hp, Hph. change (length kMagic) with 8%nat. unfold kHeaderBytes. lia. }
  destruct (negb (_ =? kHeaderBytes) || _ || _) eqn:Hok; [discriminate|].
  apply orb_false_elim in Hok as [_ Hlen%negb_false_iff%Z.eqb_eq].
  assert (size_of rest = ph_payload_bytes h) as Hrest by lia.
  rewrite <- Hrest. unfold size_of. rewrite Nat2Z.id.
  pose proof (read_bytes_app (length rest) rest [] eq_refl) as Hread. rewrite app_nil_r in Hread. rewrite Hread.
  cbn [mbind option_bind]. destruct (bool_decide_reflect (sha256 rest = ph_payload_hash h)) as [Hsha|]; [|discriminate].
  intros [= <-].
  exists {| wr_hash := ph_hash h; wr_parent := ph_parent h; wr_token_count := ph_token_count h; wr_payload := rest;
            wr_epoch := 0; wr_replace_existing := false; wr_tokens := [] |}.
  split_and!; [split; simpl; try done; lia|done..|].
  subst contents. unfold file_image, u32. simpl. rewrite Hsha, Hrest. by rewrite (Z.mod_small (block_size_tokens n)) by lia.
Qed.

(** C18: The payload written for a block is read back for its hash, and nothing else is: a
    file that is accepted is, byte for byte, the image of a block of that hash. *)
Theorem block_round_trip n :
  (forall r, good_request n r -> read_payload n (file_image n r) (wr_hash r) = Some (wr_payload r)) /\
  (forall contents expected payload,
     Forall is_byte contents -> read_payload n contents expected = Some payload ->
     exists r, good_request n r /\ wr_hash r = expected /\ wr_payload r = payload /\ contents = file_image n r).
Proof. split; [apply read_payload_image|apply read_payload_inv]. Qed.

Lemma block_round_trip_witness :
  let n := {| compatibility_hash := replicate 32 7; block_size_tokens := 4; namespace_dir := ["cache"%string] |} in
  let r := {| wr_hash := replicate 32 171; wr_parent := replicate 32 0; wr_token_count := 2; wr_payload := [1; 2; 3];
              wr_epoch := 0; wr_replace_existing := true; wr_tokens := [5; -6] |} in
  read_payload n (file_image n r) (wr_hash r) = Some [1; 2; 3] /\
  read_payload n (take 158 (file_image n r)) (wr_hash r) = None /\
  exists r', wr_hash r' = wr_hash r /\ file_image n r = file_image n r'.
Proof.
  intros n r.
  assert (good_request n r) as Hr by (split; done).
  split; [apply (block_round_trip n); done|]. split; [by vm_compute|].
  destruct (proj2 (block_round_trip n) (file_image n r) (wr_hash r) (wr_payload r)) as (r' & _ & ? & _ & ?).
  - vm_compute. repeat constructor; discriminate.
  - apply (block_round_trip n). done.
  - by exists r'.
Defined.
