(* ===== verification/BlockStore.v ===== *)
(** * The files of the block cache

    The calls [src/cpp_runtime/core/mfq_paged_prefix_cache.cpp] makes on files, and the
    budget of the volume they share with other processes ([core/include/mfq/disk_budget.h]).
    [write_file] publishes a block through a temporary file; [Published.write_file_atomic]
    states that wherever it stops, other blocks are untouched and the block's own file is
    the one before, the complete new one or, when a replacement had to remove the old file,
    absent. *)

From stdpp Require Import base list gmap strings pretty.
From Stdlib Require Import ZArith Lia.
From S2P Require Import Prelude Sha256 LittleEndian BlockFile.

#[local] Set Default Proof Using "Type".
#[local] Open Scope Z_scope.

Notation Path := (list string) (only parsing).

(** ** The budget of a volume *)

(** A reservation file: whether another process holds its lock, and the numbers read from
    it (the device and the bytes), if there are two. *)
Record Lease := { lease_held : bool; lease_numbers : option (Z * Z) }.

(** What the system answers: [std::filesystem::space] of the directory ([None] is an
    error), the directory of the budget and its lock, the device of the directory, and
    the reservations in the order of the directory. *)
Record Volume := {
  vol_available : option Z;
  vol_directory : bool;
  vol_lock : bool;
  vol_device : option Z;
  vol_leases : list Lease;
}.

Definition disk_volume (v : Volume) : outcome Z :=
  match vol_device v with Some d => Ok d | None => Throw (RuntimeError "cannot identify SSD volume") end.

Fixpoint disk_reserved_locked (leases : list Lease) (device reserved : Z) : outcome Z :=
  match leases with
  | [] => Ok reserved
  | lease :: leases =>
      if negb (lease_held lease) then disk_reserved_locked leases device reserved
      else
        match lease_numbers lease with
        | None => Throw (RuntimeError "invalid SSD reservation")
        | Some (owner, bytes) =>
            if owner =? device
            then throw_if u64_max - reserved <? bytes with RuntimeError "SSD reservation overflow";
                 disk_reserved_locked leases device (reserved + bytes)
            else disk_reserved_locked leases device reserved
        end
  end.

Definition space_available (v : Volume) : outcome Z :=
  match vol_available v with Some z => Ok z | None => Throw OtherException end.

(** Entering the budget: its directory is created and its lock taken. *)
Definition budget_locked (v : Volume) : outcome unit :=
  throw_if negb (vol_directory v) with OtherException;
  throw_if negb (vol_lock v) with RuntimeError "cannot lock SSD budget";
  Ok tt.

(** [DiskWriteGuard(directory, bytes, margin).allowed()]. *)
Definition write_allowed (v : Volume) (bytes margin : Z) : outcome bool :=
  budget_locked v ≫= fun _ =>
  free ← space_available v;
  device ← disk_volume v;
  reserved ← disk_reserved_locked (vol_leases v) device 0;
  let available := if reserved <? free then free - reserved else 0 in
  Ok ((margin <=? available) && (bytes <=? available - margin)).

Definition unreserved_disk_space (v : Volume) (managed : Z) : outcome Z :=
  budget_locked v ≫= fun _ =>
  available ← space_available v;
  let free := if u64_max - available <? managed then u64_max else managed + available in
  device ← disk_volume v;
  reserved ← disk_reserved_locked (vol_leases v) device 0;
  Ok (if reserved <? free then free - reserved else 0).

(** ** Calls on files

    The world is the regular files by path, the volume, and how the next calls turn out:
    a call works, fails with an error code having written [n] bytes, or ends the operation
    there, by an exception or because the process stops. *)

Inductive Fault := Works | Fails (written : nat) | Ends (written : nat).

Record World := {
  files : gmap (list string) (list Z);
  faults : list Fault;
  volume : Volume;
}.

Definition set_files (f : gmap (list string) (list Z)) (w : World) : World :=
  {| files := f; faults := faults w; volume := volume w |}.
Definition set_faults (l : list Fault) (w : World) : World :=
  {| files := files w; faults := l; volume := volume w |}.

Definition call {A} (work : World -> A * World) (failed : nat -> World -> outcome A * World) : M World A := fun w =>
  match faults w with
  | [] => let '(a, w) := work w in (Ok a, w)
  | f :: rest =>
      let w := set_faults rest w in
      match f with
      | Works => let '(a, w) := work w in (Ok a, w)
      | Fails n => failed n w
      | Ends n => (Throw OtherException, (failed n w).2)
      end
  end.

(** A call with an [error_code], returned as whether it is set. *)
Definition coded (effect : World -> bool * World) : M World bool :=
  call effect (fun _ w => (Ok true, w)).

Definition fs_create_directories : M World bool := coded (fun w => (false, w)).
Definition fs_permissions : M World bool := coded (fun w => (false, w)).
Definition fs_remove (p : Path) : M World bool := coded (fun w => (false, set_files (delete p (files w)) w)).
Definition fs_create_hard_link (from to : Path) : M World bool := coded (fun w =>
  match files w !! from, files w !! to with
  | Some data, None => (false, set_files (<[to := data]> (files w)) w)
  | _, _ => (true, w)
  end).
Definition fs_rename (from to : Path) : M World bool := coded (fun w =>
  match files w !! from with
  | Some data => (false, set_files (<[to := data]> (delete from (files w))) w)
  | None => (true, w)
  end).

(** Calls that say whether they worked. *)
Definition fs_space : M World (option Z) := call (fun w => (vol_available (volume w), w)) (fun _ w => (Ok None, w)).
Definition fs_open (p : Path) : M World bool :=
  call (fun w => (true, set_files (<[p := []]> (files w)) w)) (fun _ w => (Ok false, w)).
Definition fs_write (p : Path) (data : list Z) : M World bool :=
  call (fun w => (true, set_files (<[p := data]> (files w)) w))
       (fun n w => (Ok false, set_files (<[p := take n data]> (files w)) w)).
Definition sync_regular_file (p : Path) : M World bool := call (fun w => (true, w)) (fun _ w => (Ok false, w)).
Definition sync_directory_best_effort (p : Path) : M World unit := call (fun w => (tt, w)) (fun _ w => (Ok tt, w)).
(** The overload of [exists] without an [error_code]. *)
Definition fs_exists (p : Path) : M World bool :=
  call (fun w => (bool_decide (is_Some (files w !! p)), w)) (fun _ w => (Throw OtherException, w)).

Definition guarded (bytes margin : Z) : M World bool := fun w => (write_allowed (volume w) bytes margin, w).

Definition fs_file_size (p : Path) : M World (option Z) :=
  call (fun w => (size_of <$> files w !! p, w)) (fun _ w => (Ok None, w)).
(** Whether the file is known to be gone, with an [error_code]. *)
Definition fs_gone (p : Path) : M World bool :=
  call (fun w => (bool_decide (files w !! p = None), w)) (fun _ w => (Ok false, w)).

(** ** Writing *)

Definition remove_text (block : Path) : M World unit := fs_remove (text_path block) ≫= fun _ => mret tt.

Definition write_text (n : Namespace) (margin : Z) (tick : N) (r : WriteRequest) : M World unit :=
  allowed ← guarded (u64 (108 + size_of (wr_tokens r) * 8)) margin;
  if negb (allowed : bool) then mret tt
  else
    let target := text_path (path_for n (wr_hash r)) in
    let temporary := with_suffix target (".tmp." +:+ pretty tick) in
    opened ← fs_open temporary;
    if negb (opened : bool) then mret tt
    else
      output ← fs_write temporary (text_image n r);
      (if (output : bool)
       then error ← fs_permissions;
            if (error : bool) then mret tt else fs_rename temporary target ≫= fun _ => mret tt
       else mret tt) ≫= fun _ =>
      fs_remove temporary ≫= fun _ => mret tt.

(** The publication of a finished temporary file. *)
Definition publish_new (temporary final_path : Path) : M World bool :=
  error ← fs_create_hard_link temporary final_path;
  if negb (error : bool)
  then fs_remove temporary ≫= fun _ => sync_directory_best_effort (parent_path final_path) ≫= fun _ => mret true
  else
    present ← fs_exists final_path;
    fs_remove temporary ≫= fun _ => mret (present : bool).

Definition publish_over (temporary final_path : Path) : M World bool :=
  error ← fs_rename temporary final_path;
  if negb (error : bool) then sync_directory_best_effort (parent_path final_path) ≫= fun _ => mret true
  else
    present ← fs_exists final_path;
    error ← (if (present : bool)
             then error ← fs_remove final_path;
                  if (error : bool) then mret true else fs_rename temporary final_path
             else mret true);
    if negb (error : bool) then sync_directory_best_effort (parent_path final_path) ≫= fun _ => mret true
    else fs_remove temporary ≫= fun _ => mret false.

Definition temporary_path (final_path : Path) (tick counter : N) : Path :=
  parent_path final_path ++ [".mfqkv.tmp." +:+ pretty tick +:+ "." +:+ pretty counter].

(** The space a block needs beside its payload, and the check against the free space. *)
Definition write_overhead (r : WriteRequest) : Z := u64 (kHeaderBytes + 108 + size_of (wr_tokens r) * 8).

Definition low_space (available : option Z) (margin overhead bytes : Z) : bool :=
  match available with
  | None => true
  | Some free => (free <? margin) || (free - margin <? overhead) || (free - margin - overhead <? bytes)
  end.

Inductive WriteOutcome := Written | NotWritten | LowSpace.

Definition of_bool (b : bool) : WriteOutcome := if b then Written else NotWritten.

(** [LowSpace] is a failure that is also counted in [low_disk_space_skips]. *)
Definition write_file (n : Namespace) (margin : Z) (tick counter : N) (r : WriteRequest) : M World WriteOutcome :=
  let final_path := path_for n (wr_hash r) in
  error ← fs_create_directories;
  if (error : bool) then mret NotWritten
  else
    space ← fs_space;
    let bytes := size_of (wr_payload r) in
    let overhead := write_overhead r in
    if low_space space margin overhead bytes then mret LowSpace
    else
      let temporary := temporary_path final_path tick counter in
      allowed ← guarded (u64 (bytes + overhead)) margin;
      if negb (allowed : bool) then mret NotWritten
      else
        opened ← fs_open temporary;
        if negb (opened : bool) then mret NotWritten
        else
          output ← fs_write temporary (file_image n r);
          if negb (output : bool) then fs_remove temporary ≫= fun _ => mret NotWritten
          else
            synced ← sync_regular_file temporary;
            if negb (synced : bool) then fs_remove temporary ≫= fun _ => mret NotWritten
            else
              fs_permissions ≫= fun _ =>
              (if negb (wr_replace_existing r)
               then publish_new temporary final_path
               else publish_over temporary final_path) ≫= fun success => mret (of_bool success).

(** ** Laws of the calls *)

Module Published.

Notation Files := (gmap (list string) (list Z)).

(** A property of the files, of the state. *)
Definition on_files (P : Files -> Prop) : World -> Prop := fun w => P (files w).

Lemma hoare_call {A} (work : World -> A * World) (failed : nat -> World -> outcome A * World) (P : Files -> Prop) (Q : A -> Files -> Prop) (X : Files -> Prop) :
  (forall w, P (files w) -> Q (work w).1 (files (work w).2)) ->
  (forall k w, P (files w) -> match failed k w with
                              | (Ok a, w') => Q a (files w')
                              | (Throw _, w') => X (files w')
                              end) ->
  (forall k w, P (files w) -> X (files (failed k w).2)) ->
  hoare (on_files P) (call work failed) (fun a => on_files (Q a)) (on_files X).
Proof.
  intros Hw Hf Hx w HP. unfold call, on_files in *.
  assert (forall w', P (files w') -> match (let '(a, w'') := work w' in (Ok a, w'')) with
            | (Ok a, s') => Q a (files s') | (Throw _, s') => X (files s') end) as Hwork.
  { intros w' HP'. specialize (Hw w' HP'). by destruct (work w'). }
  destruct (faults w) as [|[|k|k] rest]; [by apply Hwork|by apply Hwork|by apply Hf|by apply Hx].
Qed.

(** A call that leaves the files alone. *)
Lemma hoare_quiet {A} (answer : World -> A) (failed : nat -> World -> outcome A * World) (P X : Files -> Prop) :
  (forall k w, (failed k w).2 = w) -> (forall f, P f -> X f) ->
  hoare (on_files P) (call (fun w => (answer w, w)) failed) (fun _ => on_files P) (on_files X).
Proof.
  intros Hf HX. apply hoare_call; [done|..]; intros k w HP; pose proof (Hf k w) as E.
  - destruct (failed k w) as [[a|e] w']; simpl in E; subst; auto.
  - rewrite E. auto.
Qed.

(** A call with an error code, and what it leaves when it works. *)
Lemma hoare_coded (effect : World -> bool * World) (P X : Files -> Prop) (Q : bool -> Files -> Prop) :
  (forall w, P (files w) -> Q (effect w).1 (files (effect w).2)) ->
  (forall f, P f -> Q true f) -> (forall f, P f -> X f) ->
  hoare (on_files P) (coded effect) (fun a => on_files (Q a)) (on_files X).
Proof. intros Hw Hq HX. apply hoare_call; auto. Qed.

Lemma hoare_allowed (bytes margin : Z) (P X : Files -> Prop) :
  (forall f, P f -> X f) ->
  hoare (on_files P) (guarded bytes margin) (fun _ => on_files P) (on_files X).
Proof.
  intros HX w HP. unfold guarded. destruct (write_allowed _ _ _); [done|by apply HX].
Qed.

(** ** Publication of a block *)

Section Publish.
Context (n : Namespace) (r : WriteRequest) (tick counter : N) (before : Files).

Let final_path := path_for n (wr_hash r).
Let temporary := temporary_path final_path tick counter.

Definition others (f : Files) : Prop :=
  forall p, p <> path_for n (wr_hash r) -> p <> temporary_path (path_for n (wr_hash r)) tick counter ->
  f !! p = before !! p.

(** The block's file is not touched yet; its image is in the temporary file. *)
Definition untouched (f : Files) : Prop :=
  others f /\ f !! path_for n (wr_hash r) = before !! path_for n (wr_hash r).
Definition prepared (f : Files) : Prop :=
  untouched f /\ f !! temporary_path (path_for n (wr_hash r)) tick counter = Some (file_image n r).

(** The new image is in place; only a replacement takes the place of a file. *)
Definition in_place (f : Files) : Prop :=
  others f /\ f !! path_for n (wr_hash r) = Some (file_image n r) /\
  (wr_replace_existing r = true \/ before !! path_for n (wr_hash r) = None).

(** A replacement whose rename failed has removed the old file. *)
Definition removed (f : Files) : Prop :=
  others f /\ wr_replace_existing r = true /\ f !! path_for n (wr_hash r) = None.

(** Where a write may stop. *)
Definition consistent (f : Files) : Prop := untouched f \/ in_place f \/ removed f.

(** Where it reports success: a new block found in place is kept. *)
Definition published (f : Files) : Prop :=
  in_place f \/
  untouched f /\ wr_replace_existing r = false /\ is_Some (before !! path_for n (wr_hash r)).

(** The temporary file is in the place of no block. *)
Lemma temporary_apart hash : is_hash hash -> temporary <> path_for n hash.
Proof.
  intros Hhash H. pose proof (proj1 Hhash) as Hl. subst temporary final_path. unfold temporary_path, parent_path, path_for in H.
  set (text := block_hash_hex hash) in H. set (text' := block_hash_hex (wr_hash r)) in H.
  change [String.substring 0 2 text'; text' +:+ ".mfqkv"]%string
    with ([String.substring 0 2 text'] ++ [text' +:+ ".mfqkv"]%string) in H.
  rewrite app_assoc, removelast_last, <- app_assoc in H. apply app_inv_head in H. injection H as _ H.
  apply (f_equal (fun s => head (String.list_ascii_of_string s))) in H.
  rewrite !ascii_app in H. pose proof (hex_head hash Hhash) as Hhead.
  pose proof (hex_length hash) as E. rewrite Hl in E. fold text in Hhead, E.
  destruct (String.list_ascii_of_string text) as [|c l]; [done|]. apply Hhead. symmetry. exact H.
Qed.

Lemma temporary_fresh : is_hash (wr_hash r) -> temporary <> final_path.
Proof. apply temporary_apart. Qed.

(** *** The calls on the way *)

Hypothesis Hhash : is_hash (wr_hash r).
#[local] Set Default Proof Using "All".

Lemma others_insert p data f :
  p = final_path \/ p = temporary -> others f -> others (<[p := data]> f).
Proof. intros Hp Hf q Hq1 Hq2. rewrite lookup_insert_ne; [by apply Hf|]. by destruct Hp as [-> | ->]. Qed.

Lemma others_delete p f : p = final_path \/ p = temporary -> others f -> others (delete p f).
Proof. intros Hp Hf q Hq1 Hq2. rewrite lookup_delete_ne; [by apply Hf|]. by destruct Hp as [-> | ->]. Qed.

Lemma untouched_insert data f : untouched f -> untouched (<[temporary := data]> f).
Proof.
  intros [Ho Hf]. split; [apply others_insert; auto|].
  rewrite lookup_insert_ne; [done|]. by apply temporary_fresh.
Qed.

Lemma untouched_delete f : untouched f -> untouched (delete temporary f).
Proof.
  intros [Ho Hf]. split; [apply others_delete; auto|].
  rewrite lookup_delete_ne; [done|]. by apply temporary_fresh.
Qed.

Lemma in_place_delete f : in_place f -> in_place (delete temporary f).
Proof.
  intros (Ho & Hf & Hr). split_and!; [apply others_delete; auto| |done].
  rewrite lookup_delete_ne; [done|]. by apply temporary_fresh.
Qed.

Lemma removed_delete f : removed f -> removed (delete temporary f).
Proof.
  intros (Ho & Hr & Hf). split_and!; [apply others_delete; auto|done|].
  rewrite lookup_delete_ne; [done|]. by apply temporary_fresh.
Qed.

Lemma consistent_delete f : consistent f -> consistent (delete temporary f).
Proof.
  intros [H|[H|H]]; [left; by apply untouched_delete|right; left; by apply in_place_delete|].
  right; right. by apply removed_delete.
Qed.

(** Removing the temporary file keeps what does not depend on it. *)
Lemma hoare_remove_temporary (P : Files -> Prop) (X : Files -> Prop) :
  (forall f, P f -> P (delete temporary f)) -> (forall f, P f -> X f) ->
  hoare (on_files P) (fs_remove temporary) (fun _ => on_files P) (on_files X).
Proof. intros HP HX. apply (hoare_coded _ P X (fun _ => P)); auto. simpl. auto. Qed.

(** The end of a publication: the answer, once the temporary file is gone. *)
Lemma hoare_cleanup (P : Files -> Prop) (b : bool) (Q : bool -> World -> Prop) :
  (forall f, P f -> P (delete temporary f)) -> (forall f, P f -> consistent f) ->
  (forall w, P (files w) -> Q b w) ->
  hoare (on_files P) (fs_remove temporary ≫= fun _ => mret b) Q (on_files consistent).
Proof.
  intros HP HX HQ. eapply hoare_bind; [by apply hoare_remove_temporary|].
  intros ?. apply hoare_ret. auto.
Qed.

(** The outcome of a publication: [true] if the block's file is there. *)
Definition answered (b : bool) : World -> Prop :=
  on_files (fun f => consistent f /\ (b = true -> published f)).

Lemma publish_new_safe :
  wr_replace_existing r = false ->
  hoare (on_files prepared) (publish_new temporary final_path) answered (on_files consistent).
Proof.
  intros Hr. unfold publish_new. eapply hoare_bind.
  { apply (hoare_coded _ prepared consistent (fun error f => if error then prepared f else in_place f)).
    - intros w [[Ho Hf] Ht]. unfold temporary, final_path in *. rewrite Ht, Hf.
      destruct (before !! path_for n (wr_hash r)) eqn:Hb; simpl; [by rewrite <- Hf in Hb|].
      split_and!; [by apply others_insert; auto|by rewrite lookup_insert_eq|by right].
    - done.
    - intros f [? _]. by left. }
  intros [|]; simpl.
  - eapply hoare_bind.
    + apply (hoare_call _ _ prepared (fun present f => untouched f /\ (present = true -> is_Some (before !! final_path)))
               consistent); simpl.
      * intros w [[Ho Hf] _]. split; [done|]. intros H%bool_decide_eq_true.
        unfold final_path in *. by rewrite <- Hf.
      * intros _ w [? _]. by left.
      * intros _ w [? _]. by left.
    + intros present. apply (hoare_cleanup (fun f => untouched f /\ (present = true -> is_Some (before !! final_path)))).
      * intros f [Hu ?]. split; [by apply untouched_delete|done].
      * intros f [Hu _]. by left.
      * intros w [Hu Hp]. split; [by left|]. intros ->. right. auto.
  - eapply hoare_bind; [apply (hoare_remove_temporary in_place consistent)|].
    { apply in_place_delete. } { intros f ?. by right; left. }
    intros ?. eapply hoare_bind; [apply (hoare_quiet (fun _ => tt) _ in_place consistent); [done|]|].
    { intros f ?. by right; left. }
    intros ?. apply hoare_ret. intros w Hw. split; [by right; left|]. by left.
Qed.

(** The temporary file replaces the block's file, or everything stays. *)
Lemma hoare_rename (P : Files -> Prop) :
  wr_replace_existing r = true ->
  (forall f, P f -> others f /\ f !! temporary = Some (file_image n r)) -> (forall f, P f -> consistent f) ->
  hoare (on_files P) (fs_rename temporary final_path)
    (fun error => on_files (fun f => if (error : bool) then P f else in_place f)) (on_files consistent).
Proof.
  intros Hr HP HC. apply (hoare_coded _ P consistent (fun error f => if error then P f else in_place f)); [|done..].
  intros w Hw. destruct (HP _ Hw) as [Ho Ht]. rewrite Ht. simpl.
  split_and!; [apply others_insert, others_delete; auto|by rewrite lookup_insert_eq|by left].
Qed.

(** The end of a publication that put the file in place. *)
Lemma hoare_synced :
  hoare (on_files in_place) (sync_directory_best_effort (parent_path final_path) ≫= fun _ => mret true)
    answered (on_files consistent).
Proof.
  eapply hoare_bind; [apply (hoare_quiet (fun _ => tt) _ in_place consistent); [done|]|].
  { intros f ?. by right; left. }
  intros ?. apply hoare_ret. intros w Hw. split; [by right; left|]. by left.
Qed.

Lemma publish_over_safe :
  wr_replace_existing r = true ->
  hoare (on_files prepared) (publish_over temporary final_path) answered (on_files consistent).
Proof.
  intros Hr. unfold publish_over.
  set (gone := fun f => removed f /\ f !! temporary = Some (file_image n r)).
  assert (forall f, prepared f -> consistent f) as Hprep by (intros f [? _]; by left).
  assert (forall f, gone f -> consistent f) as Hgone by (intros f [? _]; by right; right).
  eapply hoare_bind; [apply (hoare_rename prepared); [done| |done]|].
  { intros f [[? _] ?]. done. }
  intros [|]; simpl; [|apply hoare_synced].
  eapply hoare_bind; [apply (hoare_quiet _ _ prepared consistent); [done|done]|]. intros present.
  apply (hoare_bind _ _ _ (fun error => on_files (fun f => if (error : bool) then consistent f else in_place f))).
  - destruct present; [|apply hoare_ret; intros w; apply Hprep].
    apply (hoare_bind _ _ _ (fun error => on_files (fun f => if (error : bool) then prepared f else gone f))).
    + apply (hoare_coded _ prepared consistent (fun error f => if error then prepared f else gone f)); [|done..].
      intros w [[Ho Hf] Ht]. simpl. split; [|by rewrite lookup_delete_ne by (symmetry; by apply temporary_fresh)].
      split_and!; [apply others_delete; auto|done|by rewrite lookup_delete_eq].
    + intros [|]; [apply hoare_ret; intros w; apply Hprep|].
      eapply hoare_weaken; [apply (hoare_rename gone Hr)|..]; try done.
      * intros f [(? & _ & _) ?]. done.
      * intros [|] w; [by apply Hgone|done].
  - intros [|]; simpl; [|apply hoare_synced].
    apply (hoare_cleanup consistent); [apply consistent_delete|done|].
    intros w Hw. by split.
Qed.

Lemma written_published b :
  hoare (answered b) (mret (of_bool b))
    (fun o => on_files (fun f => consistent f /\ (o = Written -> published f))) (on_files consistent).
Proof. apply hoare_ret. intros w [? Hp]. split; [done|]. destruct b; [auto|done]. Qed.

(** A write that gives up early. *)
Lemma hoare_give_up (P : Files -> Prop) (o : WriteOutcome) :
  o <> Written -> (forall f, P f -> consistent f) ->
  hoare (on_files P) (mret o)
    (fun o => on_files (fun f => consistent f /\ (o = Written -> published f))) (on_files consistent).
Proof. intros Ho HP. apply hoare_ret. intros w Hw. split; [by apply HP|done]. Qed.

Lemma untouched_consistent f : untouched f -> consistent f.
Proof. by left. Qed.

Lemma hoare_abandon :
  hoare (on_files untouched) (fs_remove temporary ≫= fun _ => mret NotWritten)
    (fun o => on_files (fun f => consistent f /\ (o = Written -> published f))) (on_files consistent).
Proof.
  eapply hoare_bind; [apply (hoare_remove_temporary untouched); [apply untouched_delete|apply untouched_consistent]|].
  intros ?. by apply hoare_give_up; [|apply untouched_consistent].
Qed.

Lemma write_file_safe margin :
  hoare (on_files untouched) (write_file n margin tick counter r)
    (fun o => on_files (fun f => consistent f /\ (o = Written -> published f))) (on_files consistent).
Proof.
  pose proof untouched_consistent as Hu. unfold write_file.
  eapply hoare_bind; [apply (hoare_quiet _ _ untouched consistent); done|]. intros [|]; [by apply hoare_give_up|].
  eapply hoare_bind; [apply (hoare_quiet _ _ untouched consistent); done|]. intros space.
  cbv zeta. destruct (low_space _ _ _ _); [by apply hoare_give_up|].
  eapply hoare_bind; [by apply (hoare_allowed _ _ untouched consistent)|]. intros [|]; cbn [negb]; [|by apply hoare_give_up].
  eapply hoare_bind; [apply (hoare_call _ _ untouched (fun _ => untouched) consistent)|].
  { intros w ?. by apply untouched_insert. } { done. } { intros _ w ?. by apply Hu. }
  intros [|]; cbn [negb]; [|by apply hoare_give_up].
  eapply hoare_bind.
  { apply (hoare_call _ _ untouched (fun good f => if good : bool then prepared f else untouched f) consistent); simpl.
    - intros w ?. split; [by apply untouched_insert|]. apply lookup_insert_eq.
    - intros k w ?. by apply untouched_insert.
    - intros k w ?. by apply Hu, untouched_insert. }
  intros [|]; cbn [negb]; [|apply hoare_abandon].
  assert (forall f, prepared f -> untouched f) as Hp by (by intros f [? _]).
  eapply hoare_bind; [apply (hoare_quiet _ _ prepared consistent); auto|]. intros [|]; cbn [negb].
  2: { eapply hoare_weaken; [apply hoare_abandon|..]; [|done..]. intros w; apply Hp. }
  eapply hoare_bind; [apply (hoare_quiet _ _ prepared consistent); auto|]. intros ?.
  eapply hoare_bind; [|apply written_published].
  destruct (wr_replace_existing r) eqn:Hr; cbn [negb]; [by apply publish_over_safe|by apply publish_new_safe].
Qed.
End Publish.

(** ** Theorems *)



(** A block that was written reads back. *)
Lemma written_reads_back n r margin tick counter w w' :
  good_request n r -> is_hash (wr_hash r) -> files w !! path_for n (wr_hash r) = None \/ wr_replace_existing r = true ->
  write_file n margin tick counter r w = (Ok Written, w') ->
  exists contents, files w' !! path_for n (wr_hash r) = Some contents /\
    read_payload n contents (wr_hash r) = Some (wr_payload r).
Proof.
  intros Hr Hhash Hnew Hw.
  pose proof (write_file_safe n r tick counter (files w) Hhash margin w (conj (fun _ _ _ => eq_refl) eq_refl)) as H.
  rewrite Hw in H. destruct H as [_ H]. exists (file_image n r). split; [|by apply read_payload_image].
  destruct (H eq_refl) as [(_ & ? & _)|(_ & Hf & Hs)]; [done|].
  destruct Hnew as [Hn|Hn]; [by rewrite Hn in Hs; destruct Hs|congruence].
Qed.

(** Writing the text of a block touches no block. *)
Lemma write_text_keeps n margin tick r hash :
  is_hash (wr_hash r) -> is_hash hash ->
  forall w, files (write_text n margin tick r w).2 !! path_for n hash = files w !! path_for n hash.
Proof.
  intros Hr Hh w. set (data := files w !! path_for n hash).
  set (P := fun f : Files => f !! path_for n hash = data).
  assert (text_path (path_for n (wr_hash r)) <> path_for n hash) as Ht by by apply text_path_fresh.
  set (temporary := with_suffix (text_path (path_for n (wr_hash r))) (".tmp." +:+ pretty tick)).
  assert (temporary <> path_for n hash) as Htmp.
  { unfold temporary, text_path, path_for. rewrite !with_suffix_app. intros E.
    apply app_inv_head in E. injection E as _ E.
    apply (f_equal (length ∘ String.list_ascii_of_string)) in E. unfold compose in E.
    rewrite !ascii_app, !length_app, !hex_length in E. rewrite (proj1 Hr), (proj1 Hh) in E.
    cbn [length String.list_ascii_of_string] in E. lia. }
  enough (hoare (on_files P) (write_text n margin tick r) (fun _ => on_files P) (on_files P)) as H.
  { specialize (H w eq_refl). by destruct (write_text n margin tick r w) as [[?|?] ?]. }
  unfold write_text. eapply hoare_bind; [by apply (hoare_allowed _ _ P P)|].
  intros [|]; cbn [negb]; [|by apply hoare_ret]. fold temporary.
  assert (forall q, q <> path_for n hash -> forall f, P f -> P (delete q f)) as Hdel.
  { intros q Hq f Hf. unfold P. by rewrite lookup_delete_ne. }
  assert (forall q d, q <> path_for n hash -> forall f, P f -> P (<[q := d]> f)) as Hins.
  { intros q d Hq f Hf. unfold P. by rewrite lookup_insert_ne. }
  eapply hoare_bind; [apply (hoare_call _ _ P (fun _ => P) P); simpl; auto|].
  intros [|]; cbn [negb]; [|by apply hoare_ret].
  eapply hoare_bind; [apply (hoare_call _ _ P (fun _ => P) P); simpl; auto|]. intros output.
  eapply (hoare_bind _ _ _ (fun _ => on_files P)).
  - destruct output; [|by apply hoare_ret].
    eapply hoare_bind; [apply (hoare_quiet _ _ P P); auto|]. intros [|]; [by apply hoare_ret|].
    eapply hoare_bind; [apply (hoare_coded _ P P (fun _ => P)); auto|by intros; apply hoare_ret].
    intros w' Hw'. simpl. destruct (files w' !! temporary); simpl; auto.
  - intros ?. eapply hoare_bind; [apply (hoare_coded _ P P (fun _ => P)); simpl; auto|by intros; apply hoare_ret].
Qed.

(** A write is allowed only if it fits beside the margin and what others have reserved. *)
Lemma disk_reserved_bound leases device reserved total :
  0 <= reserved -> (forall l owner bytes, l ∈ leases -> lease_numbers l = Some (owner, bytes) -> 0 <= bytes) ->
  disk_reserved_locked leases device reserved = Ok total -> reserved <= total.
Proof.
  revert reserved. induction leases as [|l leases IH]; intros reserved H0 Hpos H; simpl in H; [injection H; lia|].
  assert (forall l' owner bytes, l' ∈ leases -> lease_numbers l' = Some (owner, bytes) -> 0 <= bytes) as Hpos'
    by (intros; eapply Hpos; [by right|done]).
  destruct (negb _); [by apply IH|]. destruct (lease_numbers l) as [[owner bytes]|] eqn:Hl; [|done].
  pose proof (Hpos l owner bytes ltac:(set_solver) Hl). destruct (owner =? device); [|by apply IH].
  destruct (_ <? _); [done|]. apply IH in H; [lia|lia|done].
Qed.

Lemma write_allowed_fits v bytes margin :
  0 <= margin -> 0 <= bytes -> write_allowed v bytes margin = Ok true ->
  exists free device reserved,
    vol_available v = Some free /\ vol_device v = Some device /\
    disk_reserved_locked (vol_leases v) device 0 = Ok reserved /\
    (bytes + margin = 0 \/ reserved + margin + bytes <= free).
Proof.
  intros Hm Hb. unfold write_allowed, budget_locked, space_available, disk_volume.
  destruct (vol_directory v); [|done]. destruct (vol_lock v); [|done]. cbn.
  destruct (vol_available v) as [free|]; [|done]. cbn. destruct (vol_device v) as [device|]; [|done]. cbn.
  destruct (disk_reserved_locked _ _ _) as [reserved|] eqn:Hres; [|done]. cbn. intros [= H].
  exists free, device, reserved. split_and!; [done..|].
  apply andb_prop in H as [H1%Z.leb_le H2%Z.leb_le]. destruct (Z.ltb_spec reserved free); lia.
Qed.

End Published.
