(* ===== verification/PrefixCache.v ===== *)
(** * The paged prefix cache

    [PagedPrefixCache::Implementation] ([src/cpp_runtime/core/mfq_paged_prefix_cache.cpp]):
    blocks of key-value data by the hash of their tokens, in memory ([hot_]), on disk, and
    in between as pending writes. A member function that holds the mutex throughout is a
    function on [Cache]; one that releases it is a function for each section. What the
    threads may interleave is in [PrefixCacheSteps]. The order in which an unordered map is
    visited is the class [Visits]; calls on files go to the [world] and may fail. *)

From stdpp Require Import base list gmap strings sorting.
From Stdlib Require Import ZArith Lia.
From S2P Require Import Prelude Sha256 LittleEndian BlockFile BlockStore.

#[local] Set Default Proof Using "Type".
#[local] Open Scope Z_scope.

(** ** State *)

(** [PagedPrefixCacheConfig], the directory and the compatibility key as a namespace. *)
Record Config := {
  space : Namespace;
  max_disk_bytes : Z;
  max_hot_bytes : Z;
  max_pending_writes : Z;
  max_pending_bytes : Z;
  retain_tail_versions : Z;
  min_disk_free_bytes : Z;
  spill_hot_on_eviction : bool;
  min_free_ram_bytes : Z;
}.

Record DiskEntry := {
  de_path : list string;
  de_parent : BlockHash;
  de_token_count : Z;
  de_payload_bytes : Z;
  de_file_bytes : Z;
  de_last_used : Z;
  de_pins : Z;
}.

Record HotEntry := { he_payload : list Z; he_last_used : Z }.

(** The members of [PagedPrefixCacheMetrics] that the cache stores. *)
Inductive Counter :=
  | Queries | Hits | HitTokens | DiskHits | HotHits | Writes | DeduplicatedWrites | FailedWrites
  | CorruptBlocks | Evictions | SupersededBlocks | LowDiskSpaceSkips | HotPressureBytes
  | DiskBlocks | DiskBytes | HotBlocks | HotBytes | PendingWrites | PendingBytes | PendingMaxBytes.

#[export] Instance Counter_eq_dec : EqDecision Counter.
Proof. solve_decision. Defined.

Record Tiers := {
  ti_disk : gmap BlockHash DiskEntry;
  ti_hot : gmap BlockHash HotEntry;
  ti_pending : gmap BlockHash (list Z);
  ti_deferred : gmap BlockHash WriteRequest;
  ti_writes : list WriteRequest;
  ti_pins : gmap BlockHash Z;
}.

Record Tails := {
  ta_tail_lengths : gmap BlockHash (gmap Z Z);
  ta_tail_metadata : gmap BlockHash (BlockHash * Z);
  ta_tail_cleanup : gmap BlockHash (list BlockHash);
}.

Record Totals := {
  to_disk_bytes : Z;
  to_hot_bytes : Z;
  to_pending_write_bytes : Z;
  to_clock : Z;
}.

Record Work := {
  wo_cache_epoch : Z;
  wo_active_writes : Z;
  wo_stopping : bool;
  wo_disk_budget_pending : bool;
  wo_disk_identity_pending : bool;
  wo_clearing : bool;
}.

Record Cache := {
  config : Config;
  tiers : Tiers;
  tails : Tails;
  totals : Totals;
  work : Work;
  metrics : Counter -> Z;
  world : World;
}.

(** The members, by their names. *)
Definition disk (c : Cache) : gmap BlockHash DiskEntry := ti_disk (tiers c).
Definition hot (c : Cache) : gmap BlockHash HotEntry := ti_hot (tiers c).
Definition pending (c : Cache) : gmap BlockHash (list Z) := ti_pending (tiers c).
Definition deferred (c : Cache) : gmap BlockHash WriteRequest := ti_deferred (tiers c).
Definition writes (c : Cache) : list WriteRequest := ti_writes (tiers c).
Definition pins (c : Cache) : gmap BlockHash Z := ti_pins (tiers c).
Definition tail_lengths (c : Cache) : gmap BlockHash (gmap Z Z) := ta_tail_lengths (tails c).
Definition tail_metadata (c : Cache) : gmap BlockHash (BlockHash * Z) := ta_tail_metadata (tails c).
Definition tail_cleanup (c : Cache) : gmap BlockHash (list BlockHash) := ta_tail_cleanup (tails c).
Definition disk_bytes (c : Cache) : Z := to_disk_bytes (totals c).
Definition hot_bytes (c : Cache) : Z := to_hot_bytes (totals c).
Definition pending_write_bytes (c : Cache) : Z := to_pending_write_bytes (totals c).
Definition clock (c : Cache) : Z := to_clock (totals c).
Definition cache_epoch (c : Cache) : Z := wo_cache_epoch (work c).
Definition active_writes (c : Cache) : Z := wo_active_writes (work c).
Definition stopping (c : Cache) : bool := wo_stopping (work c).
Definition disk_budget_pending (c : Cache) : bool := wo_disk_budget_pending (work c).
Definition disk_identity_pending (c : Cache) : bool := wo_disk_identity_pending (work c).
Definition clearing (c : Cache) : bool := wo_clearing (work c).

Definition set_config (v : Config) (c : Cache) : Cache :=
  {| config := v; tiers := tiers c; tails := tails c; totals := totals c; work := work c; metrics := metrics c;
     world := world c |}.
Definition set_tiers (v : Tiers) (c : Cache) : Cache :=
  {| config := config c; tiers := v; tails := tails c; totals := totals c; work := work c; metrics := metrics c;
     world := world c |}.
Definition set_tails (v : Tails) (c : Cache) : Cache :=
  {| config := config c; tiers := tiers c; tails := v; totals := totals c; work := work c; metrics := metrics c;
     world := world c |}.
Definition set_totals (v : Totals) (c : Cache) : Cache :=
  {| config := config c; tiers := tiers c; tails := tails c; totals := v; work := work c; metrics := metrics c;
     world := world c |}.
Definition set_work (v : Work) (c : Cache) : Cache :=
  {| config := config c; tiers := tiers c; tails := tails c; totals := totals c; work := v; metrics := metrics c;
     world := world c |}.
Definition set_metrics (v : Counter -> Z) (c : Cache) : Cache :=
  {| config := config c; tiers := tiers c; tails := tails c; totals := totals c; work := work c; metrics := v;
     world := world c |}.
Definition set_world (v : World) (c : Cache) : Cache :=
  {| config := config c; tiers := tiers c; tails := tails c; totals := totals c; work := work c; metrics := metrics c;
     world := v |}.

Definition set_disk (v : gmap BlockHash DiskEntry) (c : Cache) : Cache :=
  set_tiers {| ti_disk := v; ti_hot := ti_hot (tiers c); ti_pending := ti_pending (tiers c);
    ti_deferred := ti_deferred (tiers c); ti_writes := ti_writes (tiers c);
    ti_pins := ti_pins (tiers c) |} c.
Definition set_hot (v : gmap BlockHash HotEntry) (c : Cache) : Cache :=
  set_tiers {| ti_disk := ti_disk (tiers c); ti_hot := v; ti_pending := ti_pending (tiers c);
    ti_deferred := ti_deferred (tiers c); ti_writes := ti_writes (tiers c);
    ti_pins := ti_pins (tiers c) |} c.
Definition set_pending (v : gmap BlockHash (list Z)) (c : Cache) : Cache :=
  set_tiers {| ti_disk := ti_disk (tiers c); ti_hot := ti_hot (tiers c); ti_pending := v;
    ti_deferred := ti_deferred (tiers c); ti_writes := ti_writes (tiers c);
    ti_pins := ti_pins (tiers c) |} c.
Definition set_deferred (v : gmap BlockHash WriteRequest) (c : Cache) : Cache :=
  set_tiers {| ti_disk := ti_disk (tiers c); ti_hot := ti_hot (tiers c); ti_pending := ti_pending (tiers c);
    ti_deferred := v; ti_writes := ti_writes (tiers c); ti_pins := ti_pins (tiers c) |} c.
Definition set_writes (v : list WriteRequest) (c : Cache) : Cache :=
  set_tiers {| ti_disk := ti_disk (tiers c); ti_hot := ti_hot (tiers c); ti_pending := ti_pending (tiers c);
    ti_deferred := ti_deferred (tiers c); ti_writes := v; ti_pins := ti_pins (tiers c) |} c.
Definition set_pins (v : gmap BlockHash Z) (c : Cache) : Cache :=
  set_tiers {| ti_disk := ti_disk (tiers c); ti_hot := ti_hot (tiers c); ti_pending := ti_pending (tiers c);
    ti_deferred := ti_deferred (tiers c); ti_writes := ti_writes (tiers c); ti_pins := v |} c.
Definition set_tail_lengths (v : gmap BlockHash (gmap Z Z)) (c : Cache) : Cache :=
  set_tails {| ta_tail_lengths := v; ta_tail_metadata := ta_tail_metadata (tails c);
    ta_tail_cleanup := ta_tail_cleanup (tails c) |} c.
Definition set_tail_metadata (v : gmap BlockHash (BlockHash * Z)) (c : Cache) : Cache :=
  set_tails {| ta_tail_lengths := ta_tail_lengths (tails c); ta_tail_metadata := v;
    ta_tail_cleanup := ta_tail_cleanup (tails c) |} c.
Definition set_tail_cleanup (v : gmap BlockHash (list BlockHash)) (c : Cache) : Cache :=
  set_tails {| ta_tail_lengths := ta_tail_lengths (tails c); ta_tail_metadata := ta_tail_metadata (tails c);
    ta_tail_cleanup := v |} c.
Definition set_disk_bytes (v : Z) (c : Cache) : Cache :=
  set_totals {| to_disk_bytes := v; to_hot_bytes := to_hot_bytes (totals c);
    to_pending_write_bytes := to_pending_write_bytes (totals c); to_clock := to_clock (totals c) |} c.
Definition set_hot_bytes (v : Z) (c : Cache) : Cache :=
  set_totals {| to_disk_bytes := to_disk_bytes (totals c); to_hot_bytes := v;
    to_pending_write_bytes := to_pending_write_bytes (totals c); to_clock := to_clock (totals c) |} c.
Definition set_pending_write_bytes (v : Z) (c : Cache) : Cache :=
  set_totals {| to_disk_bytes := to_disk_bytes (totals c); to_hot_bytes := to_hot_bytes (totals c);
    to_pending_write_bytes := v; to_clock := to_clock (totals c) |} c.
Definition set_clock (v : Z) (c : Cache) : Cache :=
  set_totals {| to_disk_bytes := to_disk_bytes (totals c); to_hot_bytes := to_hot_bytes (totals c);
    to_pending_write_bytes := to_pending_write_bytes (totals c); to_clock := v |} c.
Definition set_cache_epoch (v : Z) (c : Cache) : Cache :=
  set_work {| wo_cache_epoch := v; wo_active_writes := wo_active_writes (work c);
    wo_stopping := wo_stopping (work c); wo_disk_budget_pending := wo_disk_budget_pending (work c);
    wo_disk_identity_pending := wo_disk_identity_pending (work c);
    wo_clearing := wo_clearing (work c) |} c.
Definition set_active_writes (v : Z) (c : Cache) : Cache :=
  set_work {| wo_cache_epoch := wo_cache_epoch (work c); wo_active_writes := v;
    wo_stopping := wo_stopping (work c); wo_disk_budget_pending := wo_disk_budget_pending (work c);
    wo_disk_identity_pending := wo_disk_identity_pending (work c);
    wo_clearing := wo_clearing (work c) |} c.
Definition set_stopping (v : bool) (c : Cache) : Cache :=
  set_work {| wo_cache_epoch := wo_cache_epoch (work c); wo_active_writes := wo_active_writes (work c);
    wo_stopping := v; wo_disk_budget_pending := wo_disk_budget_pending (work c);
    wo_disk_identity_pending := wo_disk_identity_pending (work c);
    wo_clearing := wo_clearing (work c) |} c.
Definition set_disk_budget_pending (v : bool) (c : Cache) : Cache :=
  set_work {| wo_cache_epoch := wo_cache_epoch (work c); wo_active_writes := wo_active_writes (work c);
    wo_stopping := wo_stopping (work c); wo_disk_budget_pending := v;
    wo_disk_identity_pending := wo_disk_identity_pending (work c);
    wo_clearing := wo_clearing (work c) |} c.
Definition set_disk_identity_pending (v : bool) (c : Cache) : Cache :=
  set_work {| wo_cache_epoch := wo_cache_epoch (work c); wo_active_writes := wo_active_writes (work c);
    wo_stopping := wo_stopping (work c); wo_disk_budget_pending := wo_disk_budget_pending (work c);
    wo_disk_identity_pending := v; wo_clearing := wo_clearing (work c) |} c.
Definition set_clearing (v : bool) (c : Cache) : Cache :=
  set_work {| wo_cache_epoch := wo_cache_epoch (work c); wo_active_writes := wo_active_writes (work c);
    wo_stopping := wo_stopping (work c); wo_disk_budget_pending := wo_disk_budget_pending (work c);
    wo_disk_identity_pending := wo_disk_identity_pending (work c); wo_clearing := v |} c.

Definition set_metric (k : Counter) (v : Z) (c : Cache) : Cache :=
  set_metrics (fun k' => if decide (k' = k) then v else metrics c k') c.
Definition bump (k : Counter) (c : Cache) : Cache := set_metric k (u64 (metrics c k + 1)) c.

Definition count_of {A} (m : gmap BlockHash A) : Z := Z.of_nat (base.size m).
Definition has {A} (h : BlockHash) (m : gmap BlockHash A) : bool := bool_decide (is_Some (m !! h)).

Definition sync_metrics (c : Cache) : Cache :=
  set_metric PendingMaxBytes (max_pending_bytes (config c))
    (set_metric PendingBytes (pending_write_bytes c)
      (set_metric PendingWrites (count_of (pending c))
        (set_metric HotBytes (hot_bytes c)
          (set_metric HotBlocks (count_of (hot c))
            (set_metric DiskBytes (disk_bytes c)
              (set_metric DiskBlocks (count_of (disk c)) c)))))).

(** [++clock_]. *)
Definition tick (c : Cache) : Cache := set_clock (u64 (clock c + 1)) c.

(** Calls on files by a cache operation; one that cannot throw has failed instead. *)
Definition io {A} (m : M World A) (failed : A) (c : Cache) : A * Cache :=
  match m (world c) with
  | (Ok a, w) => (a, set_world w c)
  | (Throw _, w) => (failed, set_world w c)
  end.

Definition io_ {A} (m : M World A) (c : Cache) : Cache :=
  set_world (m (world c)).2 c.

(** The order in which a loop over an unordered map meets its entries. *)
Class Visits := {
  visit : forall {A}, gmap BlockHash A -> list (BlockHash * A);
  visit_all : forall {A} (m : gmap BlockHash A), visit m ≡ₚ map_to_list m;
}.

#[export] Instance visits_keys : Visits.
Proof. refine {| visit := fun A m => map_to_list m |}. reflexivity. Defined.

Section Cache.
Context `{Visits}.

(** ** Versions of a tail

    Of the blocks shorter than [block_size_tokens], the lengths stored after each parent.
    The counts are of objects in memory, so they do not wrap. *)

Definition remember_tail_locked (hash parent : BlockHash) (count : Z) (c : Cache) : Cache :=
  if (block_size_tokens (space (config c)) <=? count) || has hash (tail_metadata c) then c
  else
    let lengths := default ∅ (tail_lengths c !! parent) in
    set_tail_lengths (<[parent := <[count := default 0 (lengths !! count) + 1]> lengths]> (tail_lengths c))
      (set_tail_metadata (<[hash := (parent, count)]> (tail_metadata c)) c).

(** One version of a length less; empty maps are erased. *)
Definition drop_length (parent : BlockHash) (count : Z) (m : gmap BlockHash (gmap Z Z)) : gmap BlockHash (gmap Z Z) :=
  match m !! parent with
  | None => m
  | Some lengths =>
      let lengths :=
        match lengths !! count with
        | None => lengths
        | Some n => if n - 1 =? 0 then delete count lengths else <[count := n - 1]> lengths
        end in
      if bool_decide (lengths = ∅) then delete parent m else <[parent := lengths]> m
  end.

Definition forget_tail_if_unused_locked (hash : BlockHash) (c : Cache) : Cache :=
  if has hash (disk c) || has hash (pending c) || has hash (hot c) then c
  else
    match tail_metadata c !! hash with
    | None => c
    | Some (parent, count) =>
        set_tail_metadata (delete hash (tail_metadata c))
          (set_tail_lengths (drop_length parent count (tail_lengths c)) c)
    end.

(** ** The memory tier *)

Definition drop_hot (hash : BlockHash) (c : Cache) : Cache :=
  match hot c !! hash with
  | None => c
  | Some entry => set_hot (delete hash (hot c)) (set_hot_bytes (u64 (hot_bytes c - size_of (he_payload entry))) c)
  end.

(** An eviction may skip a block with no copy on disk that a session has pinned. *)
Definition hot_victim (c : Cache) : option (BlockHash * HotEntry) :=
  scan (fun x => negb (spill_hot_on_eviction (config c)) && negb (has x.1 (disk c)) && has x.1 (pins c))
       (fun x y => he_last_used x.2 <? he_last_used y.2) None (visit (hot c)).

(** A block that was never written goes to the queue. *)
Definition spill (hash : BlockHash) (c : Cache) : Cache :=
  match deferred c !! hash with
  | None => c
  | Some dirty =>
      let c :=
        if 0 <? max_disk_bytes (config c)
        then set_pending (<[hash := wr_payload dirty]> (pending c))
               (set_pending_write_bytes (u64 (pending_write_bytes c + size_of (wr_payload dirty)))
                 (set_writes (writes c ++ [dirty]) c))
        else c in
      set_deferred (delete hash (deferred c)) c
  end.

Definition evict_hot (hash : BlockHash) (c : Cache) : Cache :=
  forget_tail_if_unused_locked hash (drop_hot hash (spill hash c)).

Fixpoint trim_hot_loop (fuel : nat) (target : Z) (c : Cache) : Cache :=
  match fuel with
  | O => c
  | S fuel =>
      if target <? hot_bytes c
      then match hot_victim c with
           | None => c
           | Some (hash, _) => trim_hot_loop fuel target (evict_hot hash c)
           end
      else c
  end.

(** Every turn takes an entry away, so the number of entries is enough fuel. *)
Definition trim_hot_locked (target : Z) (c : Cache) : Cache := trim_hot_loop (base.size (hot c)) target c.

Definition trim_for_ram_pressure_locked (ram : option Z) (c : Cache) : Cache :=
  match ram with
  | None => c
  | Some available =>
      if (hot_bytes c =? 0) || (min_free_ram_bytes (config c) <=? available) then c
      else
        let shortage := min_free_ram_bytes (config c) - available in
        sync_metrics (trim_hot_locked (if shortage <? hot_bytes c then hot_bytes c - shortage else 0) c)
  end.

Definition put_hot_locked (hash : BlockHash) (payload : list Z) (c : Cache) : Cache :=
  let c := drop_hot hash c in
  let needed := u64 (hot_bytes c + size_of payload) in
  let c :=
    if max_hot_bytes (config c) <? needed
    then set_metric HotPressureBytes (Z.max (metrics c HotPressureBytes) needed) c
    else c in
  if (max_hot_bytes (config c) =? 0) || (max_hot_bytes (config c) <? size_of payload) then sync_metrics c
  else
    let c := tick c in
    let c := set_hot (<[hash := {| he_payload := payload; he_last_used := clock c |}]> (hot c)) c in
    let c := set_hot_bytes (u64 (hot_bytes c + size_of payload)) c in
    sync_metrics (trim_hot_locked (max_hot_bytes (config c)) c).

(** ** The disk tier *)

Definition drop_disk (hash : BlockHash) (c : Cache) : Cache :=
  match disk c !! hash with
  | None => c
  | Some entry => set_disk (delete hash (disk c)) (set_disk_bytes (u64 (disk_bytes c - de_file_bytes entry)) c)
  end.

(** The file of a block and its text; whether the file could not be removed. *)
Definition remove_block (path : list string) (c : Cache) : bool * Cache := io (fs_remove path) true c.

Definition erase_corrupt_locked (hash : BlockHash) (c : Cache) : bool * Cache :=
  let removed := has hash (disk c) || has hash (hot c) in
  let c := set_deferred (delete hash (deferred c)) c in
  let c :=
    match disk c !! hash with
    | None => c
    | Some entry => drop_disk hash (io_ (remove_text (de_path entry)) (remove_block (de_path entry) c).2)
    end in
  let c := drop_hot hash c in
  (removed, if removed then sync_metrics (bump CorruptBlocks (forget_tail_if_unused_locked hash c)) else c).

Definition kDiskSafeDenominator : Z := 10.

Definition effective_disk_budget_locked (c : Cache) : Z * Cache :=
  let '(space, c) := io fs_space None c in
  match space with
  | None => (max_disk_bytes (config c), c)
  | Some _ =>
      match unreserved_disk_space (volume (world c)) (disk_bytes c) with
      | Throw _ => (0, c)
      | Ok managed_and_available =>
          let safe_available := managed_and_available - managed_and_available / kDiskSafeDenominator in
          (Z.min (max_disk_bytes (config c)) safe_available, c)
      end
  end.

(** Blocks being read or written stay; session pins count unless sessions are disposable. *)
Definition disk_victim (c : Cache) : option (BlockHash * DiskEntry) :=
  scan (fun x =>
          let session_pins := default 0 (pins c !! x.1) in
          ((if spill_hot_on_eviction (config c) then session_pins else 0) <? de_pins x.2) || has x.1 (pending c))
       (fun x y => de_last_used x.2 <? de_last_used y.2) None (visit (disk c)).

(** The copy in memory of a block that leaves the disk is to be written again. *)
Definition defer_again (hash : BlockHash) (entry : DiskEntry) (c : Cache) : Cache :=
  match hot c !! hash with
  | Some cached =>
      if spill_hot_on_eviction (config c) && negb (has hash (deferred c))
      then set_deferred (<[hash :=
             {| wr_hash := hash; wr_parent := de_parent entry; wr_token_count := de_token_count entry;
                wr_payload := he_payload cached; wr_epoch := cache_epoch c; wr_replace_existing := false;
                wr_tokens := [] |}]> (deferred c)) c
      else c
  | None => c
  end.

Definition evict_disk (hash : BlockHash) (entry : DiskEntry) (c : Cache) : Cache :=
  bump Evictions (forget_tail_if_unused_locked hash
    (drop_disk hash (defer_again hash entry (io_ (remove_text (de_path entry)) c)))).

Fixpoint evict_loop (fuel : nat) (target max_evictions evicted : Z) (c : Cache) : Z * Cache :=
  match fuel with
  | O => (evicted, c)
  | S fuel =>
      if target <? disk_bytes c
      then match disk_victim c with
           | None => (evicted, c)
           | Some (hash, entry) =>
               let '(error, c) := remove_block (de_path entry) c in
               if error : bool then (evicted, c)
               else
                 let c := evict_disk hash entry c in
                 if max_evictions <=? evicted + 1 then (evicted + 1, c)
                 else evict_loop fuel target max_evictions (evicted + 1) c
           end
      else (evicted, c)
  end.

Definition enforce_disk_budget_locked (reserved_bytes max_evictions : Z) (c : Cache) : bool * Cache :=
  let '(budget, c) := effective_disk_budget_locked c in
  let target := if budget <=? reserved_bytes then 0 else budget - reserved_bytes in
  let '(evicted, c) := evict_loop (base.size (disk c)) target max_evictions 0 c in
  let c := sync_metrics c in
  ((target <? disk_bytes c) && (evicted =? max_evictions), c).

(** With the default arguments. *)
Definition enforce (c : Cache) : Cache := (enforce_disk_budget_locked 0 u64_max c).2.

(** ** Superseded versions *)

(** [M] operations on the cache. *)
Abbreviation Op := (M Cache).

(** The lengths stored after a parent, the longest first. *)
Definition lengths_down (lengths : gmap Z Z) : list Z := merge_sort Z.ge (map_to_list lengths).*1.

(** [operator[]]. *)
Definition victims_of (hash : BlockHash) (c : Cache) : list BlockHash := default [] (tail_cleanup c !! hash).

Definition schedule_tail_cleanup_locked (hash parent : BlockHash) (tokens extra_key : list Z) : Op unit :=
  c ← get;
  if (retain_tail_versions (config c) =? 0) || (block_size_tokens (space (config c)) <? size_of tokens) then mret tt
  else
    match tail_lengths c !! parent with
    | None => mret tt
    | Some tails =>
        modify (fun c => set_tail_cleanup (<[hash := victims_of hash c]> (tail_cleanup c)) c) ≫= fun _ =>
        fold_each (lengths_down tails) (fun retained length =>
          if size_of tokens <=? length then mret retained
          else
            match block_hash (space (config c)) parent (take (Z.to_nat length) tokens) extra_key with
            | Throw e => throw e
            | Ok previous =>
                c ← get;
                if negb (has previous (tail_metadata c)) then mret retained
                else
                  (if retain_tail_versions (config c) <=? retained
                   then modify (fun c =>
                          set_tail_cleanup (<[hash := victims_of hash c ++ [previous]]> (tail_cleanup c)) c)
                   else mret tt) ≫= fun _ =>
                  mret (retained + 1)
            end) 1 ≫= fun _ =>
        modify (fun c => if is_nil (victims_of hash c) then set_tail_cleanup (delete hash (tail_cleanup c)) c else c)
    end.

(** One superseded version; whether it stays on the list. *)
Definition prune_victim (victim : BlockHash) (c : Cache) : bool * Cache :=
  let leased := match disk c !! victim with Some entry => negb (de_pins entry =? 0) | None => false end in
  if has victim (pending c) || has victim (pins c) || leased then (true, c)
  else
    let '(error, c) :=
      match disk c !! victim with
      | None => (false, c)
      | Some entry =>
          let '(error, c) := remove_block (de_path entry) c in
          if error : bool then (true, c)
          else (false, drop_disk victim (io_ (remove_text (de_path entry)) c))
      end in
    if error : bool then (true, c)
    else
      let c := drop_hot victim c in
      let c := set_deferred (delete victim (deferred c)) c in
      (false, bump SupersededBlocks (forget_tail_if_unused_locked victim c)).

Fixpoint prune_victims (victims : list BlockHash) (c : Cache) : list BlockHash * Cache :=
  match victims with
  | [] => ([], c)
  | victim :: victims =>
      let '(stays, c) := prune_victim victim c in
      let '(kept, c) := prune_victims victims c in
      (if stays : bool then victim :: kept else kept, c)
  end.

Definition prune_entry (c : Cache) (entry : BlockHash * list BlockHash) : Cache :=
  let '(hash, victims) := entry in
  let on_disk := negb (max_disk_bytes (config c) =? 0) in
  if on_disk && negb (has hash (disk c))
  then if has hash (pending c) then c else set_tail_cleanup (delete hash (tail_cleanup c)) c
  else if negb on_disk && negb (has hash (hot c)) then set_tail_cleanup (delete hash (tail_cleanup c)) c
  else
    let '(kept, c) := prune_victims victims c in
    if is_nil kept then set_tail_cleanup (delete hash (tail_cleanup c)) c
    else set_tail_cleanup (<[hash := kept]> (tail_cleanup c)) c.

Definition prune_tail_cleanup_locked (c : Cache) : Cache := foldl prune_entry c (visit (tail_cleanup c)).

(** ** Matching a prompt *)

Record PrefixMatch := { matched_tokens : Z; blocks : list BlockHash }.

Definition available (hash : BlockHash) (c : Cache) : bool :=
  has hash (disk c) || has hash (pending c) || has hash (hot c).

(** A block on disk under this hash with another parent or length is corrupt. *)
Definition check_block (hash parent : BlockHash) (count : Z) (c : Cache) : Cache :=
  match disk c !! hash with
  | Some entry =>
      if negb (bool_decide (de_parent entry = parent)) || negb (de_token_count entry =? count)
      then (erase_corrupt_locked hash c).2 else c
  | None => c
  end.

(** The section of [match] for a full block, and for a shorter last block. *)
Definition match_block (parent : BlockHash) (tokens extra_key : list Z) : Op (option BlockHash) :=
  c ← get;
  match block_hash (space (config c)) parent tokens extra_key with
  | Throw e => throw e
  | Ok hash =>
      modify (check_block hash parent (size_of tokens)) ≫= fun _ =>
      c ← get;
      mret (if available hash c then Some hash else None)
  end.

Fixpoint match_full (count : nat) (parent : BlockHash) (tokens extra_key : list Z) (result : PrefixMatch) :
    Op (BlockHash * list Z * PrefixMatch) :=
  match count with
  | O => mret (parent, tokens, result)
  | S count =>
      c ← get;
      let size := Z.to_nat (block_size_tokens (space (config c))) in
      found ← match_block parent (take size tokens) extra_key;
      match found : option BlockHash with
      | None => mret (parent, tokens, result)
      | Some hash =>
          match_full count hash (drop size tokens) extra_key
            {| matched_tokens := matched_tokens result + Z.of_nat size; blocks := blocks result ++ [hash] |}
      end
  end.

Fixpoint match_tail (lengths : list Z) (parent : BlockHash) (tokens extra_key : list Z) (result : PrefixMatch) :
    Op PrefixMatch :=
  match lengths with
  | [] => mret result
  | count :: lengths =>
      found ← match_block parent (take (Z.to_nat count) tokens) extra_key;
      match found : option BlockHash with
      | None => match_tail lengths parent tokens extra_key result
      | Some hash => mret {| matched_tokens := matched_tokens result + count; blocks := blocks result ++ [hash] |}
      end
  end.

Definition zero_hash : BlockHash := replicate 32 0.

Definition count_hit (matched : Z) (c : Cache) : Cache :=
  if 0 <? matched then set_metric HitTokens (u64 (metrics c HitTokens + matched)) (bump Hits c) else c.

Definition match_prefix (token_ids extra_key : list Z) (record_query : bool) : Op PrefixMatch :=
  c ← get;
  let full_blocks := size_of token_ids / block_size_tokens (space (config c)) in
  modify (fun c => if record_query then bump Queries c else c) ≫= fun _ =>
  '(parent, rest, result) ← match_full (Z.to_nat full_blocks) zero_hash token_ids extra_key
                              {| matched_tokens := 0; blocks := [] |};
  c ← get;
  let lengths := filter (fun count => count <= size_of rest) (lengths_down (default ∅ (tail_lengths c !! parent))) in
  result ← match_tail lengths parent rest extra_key result;
  modify (fun c => if record_query then count_hit (matched_tokens result) c else c) ≫= fun _ =>
  mret result.

Definition record_match (matched : Z) (c : Cache) : Cache := count_hit matched (bump Queries c).

(** ** Storing *)

(** What is left to do once the mutex is released: nothing, to wait for the queue to drain,
    to wake the writer, or to write the block here. *)
Inductive AfterStore := Settled | Drain | Queued | Inline (request : WriteRequest).

Definition request_for (hash parent : BlockHash) (tokens payload : list Z) (replace_existing : bool) (c : Cache) :
    WriteRequest :=
  {| wr_hash := hash; wr_parent := parent; wr_token_count := u32 (size_of tokens); wr_payload := payload;
     wr_epoch := cache_epoch c; wr_replace_existing := replace_existing; wr_tokens := tokens |}.

Definition saturated_add (a b : Z) : Z := if u64_max - b <? a then u64_max else a + b.

(** The bytes the pending writes and this one will take on disk. *)
Definition reserved_for (payload_bytes : Z) (c : Cache) : Z :=
  let pending_files := u64 (count_of (pending c) + 1) in
  let pending_headers := if u64_max / kHeaderBytes <? pending_files then u64_max else pending_files * kHeaderBytes in
  saturated_add (saturated_add (pending_write_bytes c) payload_bytes) pending_headers.

(** A disposable memory tier writes its blocks when they are evicted. *)
Definition store_spilling (hash parent : BlockHash) (tokens payload : list Z) (replace_existing : bool)
    (ram : option Z) (c : Cache) : AfterStore * Cache :=
  match hot c !! hash, replace_existing with
  | Some entry, false =>
      let c := tick c in
      let c := set_hot (<[hash := {| he_payload := he_payload entry; he_last_used := clock c |}]> (hot c)) c in
      (Settled, bump DeduplicatedWrites c)
  | _, _ =>
      let c := set_deferred (<[hash := request_for hash parent tokens payload replace_existing c]> (deferred c)) c in
      let c := put_hot_locked hash payload c in
      let c := remember_tail_locked hash parent (size_of tokens) c in
      let c := prune_tail_cleanup_locked c in
      let c := trim_for_ram_pressure_locked ram c in
      (if (max_pending_bytes (config c) <? pending_write_bytes c) ||
          (max_pending_writes (config c) <=? size_of (writes c)) then Drain else Settled, c)
  end.

(** Without a disk the block lives in memory only. *)
Definition store_in_memory (hash parent : BlockHash) (tokens payload : list Z) (replace_existing : bool) (c : Cache) :
    Cache :=
  if negb replace_existing && has hash (hot c) then bump DeduplicatedWrites c
  else
    let c := put_hot_locked hash payload c in
    let c := if has hash (hot c) then remember_tail_locked hash parent (size_of tokens) c else c in
    sync_metrics (prune_tail_cleanup_locked c).

Definition add_pending (hash : BlockHash) (payload : list Z) (c : Cache) : Cache :=
  set_pending (<[hash := payload]> (pending c))
    (set_pending_write_bytes (u64 (pending_write_bytes c + size_of payload)) c).

Definition store_pending (hash parent : BlockHash) (tokens payload : list Z) (replace_existing : bool) (c : Cache) :
    AfterStore * Cache :=
  let bytes := size_of payload in
  let c := (enforce_disk_budget_locked (reserved_for bytes c) u64_max c).2 in
  let c := put_hot_locked hash payload c in
  let request := request_for hash parent tokens payload replace_existing c in
  let limit := max_pending_bytes (config c) in
  let pending_bytes_full := (limit =? 0) || (limit <? bytes) || (limit - bytes <? pending_write_bytes c) in
  let write_inline := (max_pending_writes (config c) <=? size_of (writes c)) || pending_bytes_full in
  let c := add_pending hash payload (if write_inline then c else set_writes (writes c ++ [request]) c) in
  let c := remember_tail_locked hash parent (size_of tokens) c in
  let c := if write_inline then set_active_writes (active_writes c + 1) c else c in
  (if write_inline then Inline request else Queued, sync_metrics c).

(** The wait before the section of [store]. *)
Definition store_ready (hash : BlockHash) (replace_existing : bool) (c : Cache) : bool :=
  negb (clearing c) && (negb replace_existing || negb (has hash (pending c))).

Definition store_locked (hash parent : BlockHash) (tokens payload extra_key : list Z) (replace_existing : bool)
    (ram : option Z) : Op AfterStore :=
  c ← (get : Op Cache);
  if negb replace_existing && (has hash (disk c) || has hash (pending c))
  then modify (bump DeduplicatedWrites) ≫= fun _ => mret Settled
  else
    schedule_tail_cleanup_locked hash parent tokens extra_key ≫= fun _ =>
    c ← get;
    if spill_hot_on_eviction (config c) && (size_of payload <=? max_hot_bytes (config c)) &&
       negb (max_hot_bytes (config c) =? 0)
    then (fun c => let '(after, c) := store_spilling hash parent tokens payload replace_existing ram c in (Ok after, c)) : Op AfterStore
    else
      modify (fun c => set_deferred (delete hash (deferred c)) c) ≫= fun _ =>
      if max_disk_bytes (config c) =? 0
      then modify (store_in_memory hash parent tokens payload replace_existing) ≫= fun _ => mret Settled
      else (fun c => let '(after, c) := store_pending hash parent tokens payload replace_existing c in (Ok after, c)).

(** [store] and [replace], up to the end of the section. *)
Definition store (parent : BlockHash) (tokens : list Z) (payload : option (list Z)) (extra_key : list Z)
    (replace_existing : bool) (ram : option Z) : Op (BlockHash * AfterStore) :=
  c ← get;
  match payload with
  | None => throw (InvalidArgument "paged prefix payload is null")
  | Some payload =>
      match block_hash (space (config c)) parent tokens extra_key with
      | Throw e => throw e
      | Ok hash =>
          after ← store_locked hash parent tokens payload extra_key replace_existing ram;
          mret (hash, after : AfterStore)
      end
  end.

(** ** Writing *)

(** The write of a request, outside the mutex; an exception is a failure. *)
Definition write_request (tick counter : N) (r : WriteRequest) (c : Cache) : bool * Cache :=
  let '(outcome, c) := io (write_file (space (config c)) (min_disk_free_bytes (config c)) tick counter r) NotWritten c in
  match outcome with
  | Written => (true, c)
  | NotWritten => (false, c)
  | LowSpace => (false, bump LowDiskSpaceSkips c)
  end.

Definition settle_pending (hash : BlockHash) (c : Cache) : Cache :=
  match pending c !! hash with
  | None => c
  | Some payload =>
      let bytes := size_of payload in
      set_pending (delete hash (pending c))
        (set_pending_write_bytes (if pending_write_bytes c <? bytes then 0 else pending_write_bytes c - bytes) c)
  end.

(** The block enters the index of the disk with the pins it had. *)
Definition index_written (r : WriteRequest) (path : list string) (file_bytes : Z) (c : Cache) : Cache :=
  let session_pins := default 0 (pins c !! wr_hash r) in
  let '(disk_pins, c) :=
    match disk c !! wr_hash r with
    | None => (session_pins, c)
    | Some previous => (Z.max session_pins (de_pins previous), set_disk_bytes (u64 (disk_bytes c - de_file_bytes previous)) c)
    end in
  let c := tick c in
  set_disk (<[wr_hash r :=
      {| de_path := path; de_parent := wr_parent r; de_token_count := wr_token_count r;
         de_payload_bytes := size_of (wr_payload r); de_file_bytes := file_bytes; de_last_used := clock c;
         de_pins := disk_pins |}]> (disk c))
    (set_disk_bytes (u64 (disk_bytes c + file_bytes)) c).

Definition finish_write (text_tick : N) (r : WriteRequest) (success : bool) (c : Cache) : Cache :=
  let c := settle_pending (wr_hash r) c in
  let path := path_for (space (config c)) (wr_hash r) in
  let c :=
    if success && (wr_epoch r =? cache_epoch c) then
      let c := io_ (write_text (space (config c)) (min_disk_free_bytes (config c)) text_tick r) c in
      let '(file_bytes, c) := io (fs_file_size path) None c in
      match file_bytes with
      | Some file_bytes => enforce (bump Writes (index_written r path file_bytes c))
      | None => bump FailedWrites c
      end
    else if negb success then bump FailedWrites c
    else io_ (sync_directory_best_effort (parent_path path)) (io_ (remove_text path) (io_ (fs_remove path) c)) in
  sync_metrics (prune_tail_cleanup_locked (forget_tail_if_unused_locked (wr_hash r) c)).

(** The writer's section, and that after a write. *)
Definition writer_turn (ram : option Z) (c : Cache) : option WriteRequest * Cache :=
  let c := if clearing c then c else trim_for_ram_pressure_locked ram c in
  if disk_budget_pending c then
    let c := set_disk_identity_pending false c in
    let '(again, c) := enforce_disk_budget_locked 0 1 c in
    (None, set_disk_budget_pending again c)
  else
    match writes c with
    | [] => (None, c)
    | request :: rest => (Some request, set_active_writes (active_writes c + 1) (set_writes rest c))
    end.

Definition write_ended (c : Cache) : Cache := set_active_writes (active_writes c - 1) c.

(** ** Loading *)

Inductive LoadSource := Hot | Pending | Disk.
#[export] Instance LoadSource_eq_dec : EqDecision LoadSource.
Proof. solve_decision. Defined.

Record LoadRequest := {
  lr_hash : BlockHash;
  lr_source : LoadSource;
  lr_payload : list Z;
  lr_path : list string;
}.

Record LoadJob := { lj_epoch : Z; lj_requests : list LoadRequest; lj_bytes : Z }.

Definition set_de_pins (v : Z) (e : DiskEntry) : DiskEntry :=
  {| de_path := de_path e; de_parent := de_parent e; de_token_count := de_token_count e;
     de_payload_bytes := de_payload_bytes e; de_file_bytes := de_file_bytes e; de_last_used := de_last_used e;
     de_pins := v |}.
Definition set_de_last_used (v : Z) (e : DiskEntry) : DiskEntry :=
  {| de_path := de_path e; de_parent := de_parent e; de_token_count := de_token_count e;
     de_payload_bytes := de_payload_bytes e; de_file_bytes := de_file_bytes e; de_last_used := v;
     de_pins := de_pins e |}.

(** The chain is planned up to the first block that is nowhere; a file is leased. *)
Fixpoint plan_loads (hashes : list BlockHash) (bytes : Z) (c : Cache) : list LoadRequest * Z * Cache :=
  match hashes with
  | [] => ([], bytes, c)
  | hash :: hashes =>
      let plan request size c :=
        let '(requests, bytes, c) := plan_loads hashes (u64 (bytes + size)) c in
        (request :: requests, bytes, c) in
      match hot c !! hash, pending c !! hash, disk c !! hash with
      | Some e, _, _ =>
          plan {| lr_hash := hash; lr_source := Hot; lr_payload := he_payload e; lr_path := [] |}
               (size_of (he_payload e)) c
      | None, Some payload, _ =>
          plan {| lr_hash := hash; lr_source := Pending; lr_payload := payload; lr_path := [] |} (size_of payload) c
      | None, None, Some e =>
          plan {| lr_hash := hash; lr_source := Disk; lr_payload := []; lr_path := de_path e |} (de_payload_bytes e)
               (set_disk (<[hash := set_de_pins (u64 (de_pins e + 1)) e]> (disk c)) c)
      | None, None, None => ([], bytes, c)
      end
  end.

Definition load_begin (hashes : list BlockHash) (c : Cache) : LoadJob * Cache :=
  let '(requests, bytes, c) := plan_loads hashes 0 c in
  ({| lj_epoch := cache_epoch c; lj_requests := requests; lj_bytes := bytes |}, c).

(** [read_cold], outside the mutex; requests that need no file read nothing. *)
Definition fs_read (p : list string) : M World (option (list Z)) :=
  call (fun w => (files w !! p, w)) (fun _ w => (Ok None, w)).

Definition read_cold (n : Namespace) (r : LoadRequest) : M World (option (list Z)) :=
  match lr_source r with
  | Disk =>
      contents ← fs_read (lr_path r);
      mret (match contents : option (list Z) with
            | Some contents => read_payload n contents (lr_hash r)
            | None => None
            end)
  | _ => mret None
  end.

Fixpoint read_all (n : Namespace) (requests : list LoadRequest) : M World (list (option (list Z))) :=
  match requests with
  | [] => mret []
  | r :: requests =>
      payload ← read_cold n r;
      payloads ← read_all n requests;
      mret ((payload : option (list Z)) :: payloads)
  end.

Definition use_disk (hash : BlockHash) (c : Cache) : Cache :=
  match disk c !! hash with
  | None => c
  | Some e => let c := tick c in set_disk (<[hash := set_de_last_used (clock c) e]> (disk c)) c
  end.

Definition use_hot (hash : BlockHash) (c : Cache) : Cache :=
  match hot c !! hash with
  | None => c
  | Some e =>
      let c := tick c in set_hot (<[hash := {| he_payload := he_payload e; he_last_used := clock c |}]> (hot c)) c
  end.

(** A file that could not be used: it is gone, or corrupt. *)
Definition lost_file (r : LoadRequest) (c : Cache) : Cache :=
  let '(gone, c) := io (fs_gone (lr_path r)) false c in
  if gone : bool then
    match disk c !! lr_hash r with
    | None => c
    | Some _ => bump Evictions (forget_tail_if_unused_locked (lr_hash r) (drop_disk (lr_hash r) c))
    end
  else (erase_corrupt_locked (lr_hash r) c).2.

(** The time set on a loaded file is not modelled. *)
Fixpoint settle_loads (requests : list (LoadRequest * option (list Z))) (c : Cache) : list (list Z) * Cache :=
  match requests with
  | [] => ([], c)
  | (r, cold) :: requests =>
      match lr_source r, cold with
      | Disk, None => ([], lost_file r c)
      | Disk, Some payload =>
          let c := bump DiskHits (use_disk (lr_hash r) (put_hot_locked (lr_hash r) payload c)) in
          let '(payloads, c) := settle_loads requests c in (payload :: payloads, c)
      | Hot, _ =>
          let '(payloads, c) := settle_loads requests (bump HotHits (use_hot (lr_hash r) c)) in
          (lr_payload r :: payloads, c)
      | Pending, _ =>
          let '(payloads, c) := settle_loads requests (bump HotHits c) in (lr_payload r :: payloads, c)
      end
  end.

Definition unlease (c : Cache) (r : LoadRequest) : Cache :=
  match lr_source r, disk c !! lr_hash r with
  | Disk, Some e => if 0 <? de_pins e then set_disk (<[lr_hash r := set_de_pins (de_pins e - 1) e]> (disk c)) c else c
  | _, _ => c
  end.

Definition release_disk_read_pins_locked (requests : list LoadRequest) (c : Cache) : Cache :=
  enforce (foldl unlease c requests).

(** A cache cleared meanwhile gives nothing. *)
Definition load_finish (job : LoadJob) (cold : list (option (list Z))) (c : Cache) : list (list Z) * Cache :=
  if negb (lj_epoch job =? cache_epoch c) then ([], c)
  else
    let '(payloads, c) := settle_loads (zip (lj_requests job) cold) c in
    (payloads, release_disk_read_pins_locked (lj_requests job) c).

(** Memory could not be reserved, or a reader threw. *)
Definition load_abort (job : LoadJob) (c : Cache) : Cache :=
  if lj_epoch job =? cache_epoch c then release_disk_read_pins_locked (lj_requests job) c else c.

(** [load_prefix] when nothing else happens in between; [reserve] is the callback. *)
Definition load_prefix (reserve : Z -> outcome unit) (hashes : list BlockHash) : Op (list (list Z)) := fun c =>
  let '(job, c) := load_begin hashes c in
  match reserve (lj_bytes job) with
  | Throw e => (Throw e, load_abort job c)
  | Ok _ =>
      match read_all (space (config c)) (lj_requests job) (world c) with
      | (Throw e, w) => (Throw e, load_abort job (set_world w c))
      | (Ok cold, w) => let '(payloads, c) := load_finish job cold (set_world w c) in (Ok payloads, c)
      end
  end.

Definition load (reserve : Z -> outcome unit) (hash : BlockHash) : Op (option (list Z)) :=
  payloads ← load_prefix reserve [hash];
  mret (head (payloads : list (list Z))).

(** ** Pins and limits *)

Definition pin_block (c : Cache) (block : BlockHash) : Cache :=
  let c := set_pins (<[block := u64 (default 0 (pins c !! block) + 1)]> (pins c)) c in
  match disk c !! block with
  | None => c
  | Some e => set_disk (<[block := set_de_pins (u64 (de_pins e + 1)) e]> (disk c)) c
  end.

Definition pin (blocks : list BlockHash) (c : Cache) : Cache := foldl pin_block c blocks.

Definition unpin_block (c : Cache) (block : BlockHash) : Cache :=
  let c :=
    match pins c !! block with
    | None => c
    | Some n =>
        if u64 (n - 1) =? 0 then set_pins (delete block (pins c)) c
        else set_pins (<[block := u64 (n - 1)]> (pins c)) c
    end in
  match disk c !! block with
  | None => c
  | Some e => if 0 <? de_pins e then set_disk (<[block := set_de_pins (de_pins e - 1) e]> (disk c)) c else c
  end.

Definition unpin (blocks : list BlockHash) (c : Cache) : Cache := enforce (foldl unpin_block c blocks).

(** The section of [trim_hot]; the bytes given back. *)
Definition trim_hot (target : Z) (c : Cache) : Z * Cache :=
  let trimmed := trim_hot_locked target c in
  (u64 (hot_bytes c - hot_bytes trimmed), sync_metrics trimmed).

(** The memory tier's target for an allocation; [None] if there is room for it. *)
Definition reserve_target (allocation : Z) (ram : option Z) (c : Cache) : option Z :=
  match ram with
  | None => None
  | Some available =>
      let reserve := min_free_ram_bytes (config c) in
      let free := if reserve <? available then available - reserve else 0 in
      if allocation <=? free then None
      else
        let shortage := allocation - free in
        Some (if shortage <? hot_bytes c then hot_bytes c - shortage else 0)
  end.

Definition reserve_ram (allocation : Z) (ram : option Z) (c : Cache) : Z * Cache :=
  match reserve_target allocation ram c with
  | None => (0, c)
  | Some target => trim_hot target c
  end.

Definition set_limits (disk_limit hot_limit : Z) (c : Cache) : Cache :=
  let g := config c in
  set_config {| space := space g; max_disk_bytes := disk_limit; max_hot_bytes := hot_limit;
                max_pending_writes := max_pending_writes g; max_pending_bytes := max_pending_bytes g;
                retain_tail_versions := retain_tail_versions g; min_disk_free_bytes := min_disk_free_bytes g;
                spill_hot_on_eviction := spill_hot_on_eviction g; min_free_ram_bytes := min_free_ram_bytes g |} c.

Definition set_hot_limit (max_bytes : Z) (c : Cache) : Z * Cache :=
  trim_hot max_bytes (set_metric HotPressureBytes 0 (set_limits (max_disk_bytes (config c)) max_bytes c)).

(** The budget is enforced by the writer. *)
Definition set_disk_limit (max_bytes : Z) (c : Cache) : Cache :=
  if max_disk_bytes (config c) =? max_bytes then c
  else
    let enabled := (max_disk_bytes (config c) =? 0) && (0 <? max_bytes) in
    set_disk_budget_pending true
      (set_limits max_bytes (max_hot_bytes (config c))
        (set_disk_identity_pending (disk_identity_pending c || enabled) c)).

(** The waits of [flush] and of [refresh_disk_index]. *)
Definition quiescent (c : Cache) : bool := is_nil (writes c) && (active_writes c =? 0).
Definition flushed (c : Cache) : bool := quiescent c && negb (disk_budget_pending c).

Definition refresh_entry (result : Z * Cache) (entry : BlockHash * DiskEntry) : Z * Cache :=
  let '(removed, c) := result in
  let '(gone, c) := io (fs_gone (de_path entry.2)) false c in
  if negb (gone : bool) then (removed, c)
  else
    let c := drop_hot entry.1 (drop_disk entry.1 c) in
    let c := set_deferred (delete entry.1 (deferred c)) c in
    (removed + 1, forget_tail_if_unused_locked entry.1 c).

Definition refresh_disk_index (c : Cache) : Z * Cache :=
  let '(removed, c) := foldl refresh_entry (0, c) (visit (disk c)) in
  (removed, sync_metrics c).

Definition invalidate_ready (hash : BlockHash) (c : Cache) : bool := negb (has hash (pending c)).
Definition invalidate (hash : BlockHash) (c : Cache) : bool * Cache := erase_corrupt_locked hash c.

(** ** Clearing *)

(** [remove] also says whether there was a file. *)
Definition clear_file (result : Z * Cache) (entry : BlockHash * DiskEntry) : Z * Cache :=
  let '(removed, c) := result in
  let present := bool_decide (is_Some (files (world c) !! de_path entry.2)) in
  let '(error, c) := remove_block (de_path entry.2) c in
  (if present && negb (error : bool) then removed + 1 else removed, io_ (remove_text (de_path entry.2)) c).

Definition clear_begin (c : Cache) : Z * Cache :=
  let c := set_clearing true (set_cache_epoch (u64 (cache_epoch c + 1)) c) in
  let c := set_pending_write_bytes 0 (set_pending ∅ (set_writes [] c)) in
  let '(removed, c) := foldl clear_file (0, c) (visit (disk c)) in
  let c := set_pins ∅ (set_pending ∅ (set_deferred ∅ (set_hot ∅ (set_disk ∅ c)))) in
  let c := set_tail_metadata ∅ (set_tail_lengths ∅ (set_tail_cleanup ∅ c)) in
  (removed, sync_metrics (set_hot_bytes 0 (set_disk_bytes 0 c))).

Definition clear_ready (c : Cache) : bool := negb (clearing c).
Definition clear_end_ready (c : Cache) : bool := active_writes c =? 0.
Definition clear_end (c : Cache) : Cache := set_clearing false c.

(** ** Opening a directory *)

(** An entry of the directory tree, as the iterator gives it: its path, and what the
    system says of it; [None] for the time or the size is an error. *)
Record DirectoryEntry := {
  dir_path : list string;
  dir_regular : bool;
  dir_symlink : option bool;
  dir_modified : option Z;
}.

Definition string_contains (needle haystack : string) : bool :=
  match String.index 0 needle haystack with Some _ => true | None => false end.

Definition ends_with (suffix s : string) : bool :=
  let n := String.length s in let k := String.length suffix in
  (k <? n)%nat && String.eqb (String.substring (n - k) k s) suffix.

Record ScannedEntry := { sc_hash : BlockHash; sc_entry : DiskEntry; sc_modified : Z }.

Definition reject (path : list string) (c : Cache) : Cache :=
  bump CorruptBlocks (io_ (remove_text path) (remove_block path c).2).

(** [time_min] is [file_time_type::min()]. *)
Definition scan_entry (time_min : Z) (result : list ScannedEntry * Cache) (e : DirectoryEntry) :
    list ScannedEntry * Cache :=
  let '(scanned, c) := result in
  let path := dir_path e in
  let filename := List.last path EmptyString in
  if negb (dir_regular e) then (scanned, c)
  else if string_contains ".tmp." filename then (scanned, (remove_block path c).2)
  else if negb (ends_with ".mfqkv" filename) then (scanned, c)
  else
    match dir_symlink e with
    | None => (scanned, c)
    | Some true => (scanned, reject path c)
    | Some false =>
        let '(contents, c) := io (fs_read path) None c in
        match contents ≫= read_header (space (config c)) with
        | None => (scanned, reject path c)
        | Some (header, _) =>
            if negb (bool_decide (path = path_for (space (config c)) (ph_hash header))) then (scanned, reject path c)
            else
              let '(file_bytes, c) := io (fs_file_size path) None c in
              match file_bytes with
              | None => (scanned, c)
              | Some file_bytes =>
                  if (u64_max - kHeaderBytes <? ph_payload_bytes header) ||
                     negb (file_bytes =? kHeaderBytes + ph_payload_bytes header)
                  then (scanned, reject path c)
                  else
                    (scanned ++ [{| sc_hash := ph_hash header;
                                    sc_entry := {| de_path := path; de_parent := ph_parent header;
                                                   de_token_count := ph_token_count header;
                                                   de_payload_bytes := ph_payload_bytes header;
                                                   de_file_bytes := file_bytes; de_last_used := 0; de_pins := 0 |};
                                    sc_modified := default time_min (dir_modified e) |}], c)
              end
        end
    end.

(** A scanned block enters the index, the oldest first. *)
Definition index_scanned (c : Cache) (e : ScannedEntry) : Cache :=
  let c := tick c in
  match disk c !! sc_hash e with
  | Some _ => c
  | None =>
      let entry := set_de_last_used (clock c) (sc_entry e) in
      remember_tail_locked (sc_hash e) (de_parent entry) (de_token_count entry)
        (set_disk_bytes (u64 (disk_bytes c + de_file_bytes entry))
          (set_disk (<[sc_hash e := entry]> (disk c)) c))
  end.

(** [order] is [std::sort] by time, then by the native form of the path. *)
Definition open_directory (order : list ScannedEntry -> list ScannedEntry) (time_min : Z)
    (listing : list DirectoryEntry) (c : Cache) : Cache :=
  let '(scanned, c) := foldl (scan_entry time_min) ([], c) listing in
  sync_metrics (enforce (foldl index_scanned c (order scanned))).

(** ** A new cache *)

Definition make_config (g : Config) (directory_empty key_empty : bool) : outcome Config :=
  throw_if directory_empty with InvalidArgument "paged prefix cache directory is empty";
  throw_if key_empty with InvalidArgument "paged prefix compatibility key is empty";
  throw_if (block_size_tokens (space g) =? 0) || (2 ^ 32 - 1 <? block_size_tokens (space g))
    with InvalidArgument "invalid paged prefix block size";
  Ok {| space := space g; max_disk_bytes := max_disk_bytes g; max_hot_bytes := max_hot_bytes g;
        max_pending_writes := if max_pending_writes g =? 0 then 1 else max_pending_writes g;
        max_pending_bytes := max_pending_bytes g; retain_tail_versions := retain_tail_versions g;
        min_disk_free_bytes := min_disk_free_bytes g; spill_hot_on_eviction := spill_hot_on_eviction g;
        min_free_ram_bytes := min_free_ram_bytes g |}.

Definition empty_cache (g : Config) (w : World) : Cache :=
  {| config := g;
     tiers := {| ti_disk := ∅; ti_hot := ∅; ti_pending := ∅; ti_deferred := ∅; ti_writes := []; ti_pins := ∅ |};
     tails := {| ta_tail_lengths := ∅; ta_tail_metadata := ∅; ta_tail_cleanup := ∅ |};
     totals := {| to_disk_bytes := 0; to_hot_bytes := 0; to_pending_write_bytes := 0; to_clock := 0 |};
     work := {| wo_cache_epoch := 0; wo_active_writes := 0; wo_stopping := false; wo_disk_budget_pending := false;
                wo_disk_identity_pending := false; wo_clearing := false |};
     metrics := fun _ => 0; world := w |}.

End Cache.
