(* ===== verification/PrefixCacheInv.v ===== *)
(** * The accounts of the prefix cache

    What every operation of [PrefixCache] keeps: the byte counts of both tiers, the count
    of versions of each tail, and, when the memory tier is disposable, its limit. *)

From stdpp Require Import base list gmap strings sorting.
From Stdlib Require Import ZArith Lia.
From S2P Require Import Prelude Sha256 LittleEndian BlockFile BlockStore PrefixCache.

#[local] Set Default Proof Using "Type".
#[local] Open Scope Z_scope.

(** ** The invariant *)

Definition hot_size (e : HotEntry) : Z := size_of (he_payload e).
Definition hot_total (c : Cache) : Z := msum hot_size (hot c).
Definition disk_total (c : Cache) : Z := msum de_file_bytes (disk c).

(** The blocks remembered with this parent and length. *)
Definition versions (parent : BlockHash) (count : Z) (m : gmap BlockHash (BlockHash * Z)) : Z :=
  msum (fun v => if decide (v = (parent, count)) then 1 else 0) m.

Definition recorded (parent : BlockHash) (count : Z) (m : gmap BlockHash (gmap Z Z)) : Z :=
  default 0 (m !! parent ≫= (.!! count)).

(** [lengths] counts the blocks of [metadata], with no empty map and no zero. *)
Record counts_versions (lengths : gmap BlockHash (gmap Z Z)) (metadata : gmap BlockHash (BlockHash * Z)) : Prop := {
  cv_count : forall parent count, recorded parent count lengths = versions parent count metadata;
  cv_positive : forall parent m, lengths !! parent = Some m -> m <> ∅ /\ forall count n, m !! count = Some n -> 0 < n;
}.

(** The byte counts and the versions, under the configuration [g]. A disposable memory tier
    exempts no block, so it holds at most [bound] bytes, its limit between operations. *)
Record accounted (g : Config) (bound : Z) (c : Cache) : Prop := {
  ac_config : config c = g;
  ac_hot : hot_bytes c = u64 (hot_total c);
  ac_disk : disk_bytes c = u64 (disk_total c);
  ac_tails : counts_versions (tail_lengths c) (tail_metadata c);
  ac_within : spill_hot_on_eviction g = true -> hot_total c <= bound;
}.

Create HintDb cache.

(** An operation that touches none of the accounts. *)
Ltac untouched := intros []; split; assumption.

(** ** Sums *)

Lemma hot_size_nonneg m : map_Forall (fun _ e => 0 <= hot_size e) (m : gmap BlockHash HotEntry).
Proof. intros ???. apply size_of_nonneg. Qed.

Lemma hot_total_nonneg c : 0 <= hot_total c.
Proof. apply msum_nonneg, hot_size_nonneg. Qed.

Lemma hot_total_delete c hash e :
  hot c !! hash = Some e -> hot_total c = hot_size e + msum hot_size (delete hash (hot c)).
Proof. apply msum_delete. Qed.

Section Inv.
Context `{Visits}.

(** ** Operations outside the accounts *)

Lemma set_metric_accounted {g : Config} {B : Z} k v c : accounted g B c -> accounted g B (set_metric k v c).
Proof. untouched. Qed.

Lemma sync_metrics_accounted {g : Config} {B : Z} c : accounted g B c -> accounted g B (sync_metrics c).
Proof. untouched. Qed.

Lemma tick_accounted {g : Config} {B : Z} c : accounted g B c -> accounted g B (tick c).
Proof. untouched. Qed.

Lemma io_accounted {g : Config} {B : Z} {A} (m : M World A) failed c : accounted g B c -> accounted g B (io m failed c).2.
Proof. unfold io. destruct (m (world c)) as [[?|?] ?]; untouched. Qed.

Lemma io__accounted {g : Config} {B : Z} {A} (m : M World A) c : accounted g B c -> accounted g B (io_ m c).
Proof. untouched. Qed.

Lemma set_deferred_accounted {g : Config} {B : Z} v c : accounted g B c -> accounted g B (set_deferred v c).
Proof. untouched. Qed.

Lemma set_pending_accounted {g : Config} {B : Z} v c : accounted g B c -> accounted g B (set_pending v c).
Proof. untouched. Qed.

Lemma set_cleanup_accounted {g : Config} {B : Z} v c : accounted g B c -> accounted g B (set_tail_cleanup v c).
Proof. untouched. Qed.

Lemma set_pins_accounted {g : Config} {B : Z} v c : accounted g B c -> accounted g B (set_pins v c).
Proof. untouched. Qed.

Lemma spill_accounted {g : Config} {B : Z} hash c : accounted g B c -> accounted g B (spill hash c).
Proof. unfold spill. destruct (deferred c !! hash); [|done]. destruct (0 <? _); untouched. Qed.

Lemma add_pending_accounted {g : Config} {B : Z} hash payload c : accounted g B c -> accounted g B (add_pending hash payload c).
Proof. untouched. Qed.

Lemma settle_pending_accounted {g : Config} {B : Z} hash c : accounted g B c -> accounted g B (settle_pending hash c).
Proof. unfold settle_pending. destruct (pending c !! hash); [untouched|done]. Qed.

Lemma defer_again_accounted {g : Config} {B : Z} hash entry c : accounted g B c -> accounted g B (defer_again hash entry c).
Proof. unfold defer_again. destruct (hot c !! hash); [|done]. destruct (_ && _); [untouched|done]. Qed.

(** ** Tails *)

Lemma recorded_insert parent m lengths p k :
  recorded p k (<[parent := m]> lengths) = if decide (p = parent) then default 0 (m !! k) else recorded p k lengths.
Proof.
  unfold recorded. destruct (decide (p = parent)) as [->|Hne].
  - by rewrite lookup_insert_eq.
  - by rewrite lookup_insert_ne.
Qed.

Lemma versions_insert hash parent count metadata p k :
  metadata !! hash = None ->
  versions p k (<[hash := (parent, count)]> metadata) =
  (if decide ((parent, count) = (p, k)) then 1 else 0) + versions p k metadata.
Proof. intros Hn. unfold versions. by rewrite msum_insert. Qed.

Lemma versions_delete hash parent count metadata p k :
  metadata !! hash = Some (parent, count) ->
  versions p k (delete hash metadata) =
  versions p k metadata - (if decide ((parent, count) = (p, k)) then 1 else 0).
Proof. intros Hs. unfold versions. rewrite (msum_delete _ metadata hash _ Hs). lia. Qed.

Lemma versions_nonneg p k metadata : 0 <= versions p k metadata.
Proof. apply msum_nonneg. intros ???. by case_decide. Qed.

Lemma remember_counts lengths metadata hash parent count :
  metadata !! hash = None -> counts_versions lengths metadata ->
  counts_versions (<[parent := <[count := default 0 (default ∅ (lengths !! parent) !! count) + 1]>
                                 (default ∅ (lengths !! parent))]> lengths)
                  (<[hash := (parent, count)]> metadata).
Proof.
  intros Hn [Hc Hp].
  assert (forall k, default 0 (default ∅ (lengths !! parent) !! k) = versions parent k metadata) as Hold.
  { intros k. rewrite <- Hc. unfold recorded. destruct (lengths !! parent); simpl; [done|]. by rewrite lookup_empty. }
  split.
  - intros p k. rewrite recorded_insert, versions_insert by done.
    destruct (decide (p = parent)) as [->|Hne].
    + destruct (decide (k = count)) as [->|Hk].
      * rewrite lookup_insert_eq, decide_True by done. simpl. rewrite Hold. lia.
      * rewrite lookup_insert_ne, decide_False by congruence. by rewrite Hold.
    + rewrite decide_False by congruence. by rewrite Hc.
  - intros p m. destruct (decide (p = parent)) as [->|Hne].
    + rewrite lookup_insert_eq. intros [= <-]. split; [apply insert_non_empty|].
      intros k n. destruct (decide (k = count)) as [->|Hk].
      * rewrite lookup_insert_eq. intros [= <-]. rewrite Hold. pose proof (versions_nonneg parent count metadata). lia.
      * rewrite lookup_insert_ne by done. destruct (lengths !! parent) eqn:Hl; simpl; [|by rewrite lookup_empty].
        by apply (Hp parent).
    + rewrite lookup_insert_ne by done. apply Hp.
Qed.

Lemma forget_counts lengths metadata hash parent count :
  metadata !! hash = Some (parent, count) -> counts_versions lengths metadata ->
  counts_versions (drop_length parent count lengths) (delete hash metadata).
Proof.
  intros Hs [Hc Hp].
  assert (1 <= versions parent count metadata) as H1.
  { unfold versions. rewrite (msum_delete _ metadata hash _ Hs). rewrite decide_True by done.
    pose proof (versions_nonneg parent count (delete hash metadata)). unfold versions in *. lia. }
  pose proof (Hc parent count) as Hpc. unfold recorded in Hpc.
  destruct (lengths !! parent) as [m|] eqn:Hm; [|simpl in Hpc; lia]. cbn [mbind option_bind] in Hpc.
  destruct (m !! count) as [n|] eqn:Hn; [|simpl in Hpc; lia]. simpl in Hpc. subst n.
  destruct (Hp parent m Hm) as [Hne Hpos].
  set (m' := if versions parent count metadata - 1 =? 0 then delete count m
             else <[count := versions parent count metadata - 1]> m).
  assert (drop_length parent count lengths = if bool_decide (m' = ∅) then delete parent lengths else <[parent := m']> lengths)
    as ->. { unfold drop_length. by rewrite Hm, Hn. }
  assert (forall k, default 0 (m' !! k) = versions parent k (delete hash metadata)) as Hm'.
  { intros k. rewrite (versions_delete hash parent count) by done. rewrite <- (Hc parent k). unfold recorded. rewrite Hm.
    cbn [mbind option_bind]. subst m'. destruct (decide (k = count)) as [->|Hk].
    - rewrite decide_True, Hn by done. simpl. destruct (Z.eqb_spec (versions parent count metadata - 1) 0) as [E|E].
      + rewrite lookup_delete_eq. simpl. lia.
      + by rewrite lookup_insert_eq.
    - rewrite decide_False by congruence. rewrite Z.sub_0_r.
      destruct (_ =? _); [by rewrite lookup_delete_ne|by rewrite lookup_insert_ne]. }
  assert (forall p k, p <> parent -> versions p k (delete hash metadata) = recorded p k lengths) as Hother.
  { intros p k Hne'. rewrite (versions_delete hash parent count) by done. rewrite decide_False by congruence.
    rewrite Hc. lia. }
  split.
  - intros p k. destruct (bool_decide_reflect (m' = ∅)) as [He|He].
    + destruct (decide (p = parent)) as [->|Hne'].
      * unfold recorded. rewrite lookup_delete_eq. rewrite <- Hm', He, lookup_empty. done.
      * rewrite Hother by done. unfold recorded. by rewrite lookup_delete_ne.
    + rewrite recorded_insert. destruct (decide (p = parent)) as [->|Hne']; [apply Hm'|by rewrite Hother].
  - intros p m2. destruct (bool_decide_reflect (m' = ∅)) as [He|He].
    + rewrite lookup_delete_Some. intros [? ?]. by apply (Hp p).
    + rewrite lookup_insert_Some. intros [[<- <-]|[? ?]]; [|by apply (Hp p)]. split; [done|].
      intros k n Hk. subst m'. destruct (Z.eqb_spec (versions parent count metadata - 1) 0) as [E|E].
      * apply lookup_delete_Some in Hk as [_ Hk]. by apply (Hpos k).
      * apply lookup_insert_Some in Hk as [[<- <-]|[_ Hk]]; [lia|by apply (Hpos k)].
Qed.

Lemma remember_tail_accounted {g : Config} {B : Z} hash parent count c : accounted g B c -> accounted g B (remember_tail_locked hash parent count c).
Proof.
  unfold remember_tail_locked. destruct (_ || has hash _) eqn:Hb; [done|].
  apply orb_false_elim in Hb as [_ Hb%bool_decide_eq_false]. apply eq_None_not_Some in Hb.
  intros []. split; try assumption. by apply remember_counts.
Qed.

Lemma forget_tail_accounted {g : Config} {B : Z} hash c : accounted g B c -> accounted g B (forget_tail_if_unused_locked hash c).
Proof.
  unfold forget_tail_if_unused_locked. destruct (_ || _); [done|].
  destruct (tail_metadata c !! hash) as [[parent count]|] eqn:Hm; [|done].
  intros []. split; try assumption. by eapply forget_counts.
Qed.

#[local] Hint Resolve set_metric_accounted sync_metrics_accounted tick_accounted io_accounted io__accounted
  set_deferred_accounted set_pending_accounted set_cleanup_accounted set_pins_accounted spill_accounted
  add_pending_accounted settle_pending_accounted defer_again_accounted remember_tail_accounted
  forget_tail_accounted : cache.

Lemma bump_accounted {g : Config} {B : Z} k c : accounted g B c -> accounted g B (bump k c).
Proof. apply set_metric_accounted. Qed.
#[local] Hint Resolve bump_accounted : cache.

(** ** The memory tier *)

Lemma drop_hot_accounted {g : Config} {B : Z} hash c : accounted g B c -> accounted g B (drop_hot hash c).
Proof.
  unfold drop_hot. destruct (hot c !! hash) as [e|] eqn:He; [|done].
  intros [Hg Hh Hd Ht Hw]. pose proof (hot_total_delete c hash e He) as Htot.
  split; [done| |done..|].
  - change (u64 (hot_bytes c - hot_size e) = u64 (msum hot_size (delete hash (hot c)))).
    rewrite Hh, u64_sub_l. f_equal. lia.
  - intros Hs. specialize (Hw Hs). change (msum hot_size (delete hash (hot c)) <= B).
    pose proof (size_of_nonneg (he_payload e)). unfold hot_size in *. lia.
Qed.
#[local] Hint Resolve drop_hot_accounted : cache.

Lemma drop_hot_entries hash c : hot (drop_hot hash c) = delete hash (hot c).
Proof.
  unfold drop_hot. destruct (hot c !! hash) eqn:He; [done|]. symmetry. by apply delete_id.
Qed.

Lemma spill_hot hash c : hot (spill hash c) = hot c.
Proof. unfold spill. destruct (deferred c !! hash); [|done]. by destruct (0 <? _). Qed.

Lemma forget_hot hash c : hot (forget_tail_if_unused_locked hash c) = hot c.
Proof.
  unfold forget_tail_if_unused_locked. destruct (_ || _); [done|]. by destruct (tail_metadata c !! hash) as [[? ?]|].
Qed.

Lemma evict_hot_entries hash c : hot (evict_hot hash c) = delete hash (hot c).
Proof. unfold evict_hot. by rewrite forget_hot, drop_hot_entries, spill_hot. Qed.

Lemma evict_hot_accounted {g : Config} {B : Z} hash c : accounted g B c -> accounted g B (evict_hot hash c).
Proof. unfold evict_hot. auto with cache. Qed.

Lemma hot_victim_elem c hash e : hot_victim c = Some (hash, e) -> hot c !! hash = Some e.
Proof.
  intros Hv. apply scan_elem in Hv as [?|[Hv _]]; [done|].
  rewrite visit_all in Hv. by apply elem_of_map_to_list in Hv.
Qed.

Lemma trim_hot_loop_accounted {g : Config} {B : Z} fuel target c :
  accounted g B c -> accounted g B (trim_hot_loop fuel target c).
Proof.
  revert c. induction fuel as [|fuel IH]; intros c Hc; simpl; [done|].
  destruct (target <? hot_bytes c); [|done]. destruct (hot_victim c) as [[hash e]|]; [|done].
  by apply IH, evict_hot_accounted.
Qed.

Lemma trim_hot_accounted {g : Config} {B : Z} target c : accounted g B c -> accounted g B (trim_hot_locked target c).
Proof. apply trim_hot_loop_accounted. Qed.
#[local] Hint Resolve evict_hot_accounted trim_hot_accounted : cache.

Lemma hot_bytes_exact {g : Config} {B : Z} c : accounted g B c -> hot_total c < 2 ^ 64 -> hot_bytes c = hot_total c.
Proof. intros [_ Hh _ _ _] Hlt. rewrite Hh. apply u64_small. pose proof (hot_total_nonneg c). lia. Qed.

Lemma disposable_victim c : spill_hot_on_eviction (config c) = true -> hot_victim c = None -> hot c = ∅.
Proof.
  intros Hs Hv. apply map_empty. intros h. destruct (hot c !! h) as [e|] eqn:He; [|done].
  assert ((h, e) ∈ visit (hot c)) as Hin by (rewrite visit_all; by apply elem_of_map_to_list).
  apply (scan_none _ _ _ Hv) in Hin. by rewrite Hs in Hin.
Qed.

Lemma trim_hot_loop_fits {g : Config} {B : Z} fuel target c :
  spill_hot_on_eviction g = true -> B < 2 ^ 64 -> 0 <= target ->
  accounted g B c -> (base.size (hot c) <= fuel)%nat ->
  accounted g target (trim_hot_loop fuel target c).
Proof.
  intros Hs HB Ht. revert c. induction fuel as [|fuel IH]; intros c Hc Hfuel; cbn [trim_hot_loop].
  - assert (hot c = ∅) as He by (apply map_size_empty_inv; lia).
    destruct Hc. split; try done. intros _. unfold hot_total. rewrite He. by rewrite msum_empty.
  - pose proof (ac_within _ _ _ Hc Hs) as Hw.
    rewrite (hot_bytes_exact c Hc) by lia.
    destruct (Z.ltb_spec target (hot_total c)) as [Hlt|Hle]; [|by destruct Hc; split].
    destruct (hot_victim c) as [[hash e]|] eqn:Hv.
    + apply IH; [by apply evict_hot_accounted|]. rewrite evict_hot_entries.
      apply hot_victim_elem in Hv. rewrite map_size_delete_Some by done. lia.
    + apply disposable_victim in Hv; [|by rewrite (ac_config _ _ _ Hc)].
      unfold hot_total in Hlt. rewrite Hv, msum_empty in Hlt. lia.
Qed.

Lemma trim_hot_fits {g : Config} {B : Z} target c :
  spill_hot_on_eviction g = true -> B < 2 ^ 64 -> 0 <= target ->
  accounted g B c -> accounted g target (trim_hot_locked target c).
Proof. intros. by apply (trim_hot_loop_fits (B := B)). Qed.

Lemma accounted_any {g : Config} {B B' : Z} c :
  spill_hot_on_eviction g = false -> accounted g B c -> accounted g B' c.
Proof. intros Hs []. split; try done. by rewrite Hs. Qed.

Lemma trim_ram_accounted {g : Config} {B : Z} ram c :
  accounted g B c -> accounted g B (trim_for_ram_pressure_locked ram c).
Proof.
  unfold trim_for_ram_pressure_locked. destruct ram; [|done]. destruct (_ || _); [done|]. auto with cache.
Qed.
#[local] Hint Resolve trim_ram_accounted : cache.

(** Inserting a block in memory, before the tier is trimmed. *)
Lemma insert_hot_accounted {g : Config} {B : Z} hash e c :
  hot c !! hash = None -> accounted g B c ->
  accounted g (B + hot_size e) (set_hot_bytes (u64 (hot_bytes c + hot_size e)) (set_hot (<[hash := e]> (hot c)) c)).
Proof.
  intros Hn [Hg Hh Hd Ht Hw].
  assert (hot_total (set_hot (<[hash := e]> (hot c)) c) = hot_size e + hot_total c) as Htot
    by (unfold hot_total; change (hot (set_hot ?m _)) with m; by rewrite msum_insert).
  split; [done| |done..|].
  - change (u64 (hot_bytes c + hot_size e) = u64 (hot_total (set_hot (<[hash := e]> (hot c)) c))).
    rewrite Htot, Hh, u64_add_l. f_equal. lia.
  - intros Hs. specialize (Hw Hs). change (hot_total (set_hot (<[hash := e]> (hot c)) c) <= B + hot_size e). lia.
Qed.

Definition limits_ok (g : Config) : Prop := 0 <= max_hot_bytes g < 2 ^ 63.

Lemma put_hot_accounted {g : Config} hash payload c :
  limits_ok g -> accounted g (max_hot_bytes g) c -> accounted g (max_hot_bytes g) (put_hot_locked hash payload c).
Proof.
  intros Hl Hc. unfold put_hot_locked.
  pose proof (drop_hot_accounted hash c Hc) as Hd. pose proof (drop_hot_entries hash c) as Hhot.
  set (c1 := drop_hot hash c) in *. clearbody c1.
  set (c2 := if max_hot_bytes (config c1) <? u64 (hot_bytes c1 + size_of payload) then _ else c1).
  assert (accounted g (max_hot_bytes g) c2 /\ hot c2 = hot c1) as [H2 Hh2].
  { subst c2. destruct (_ <? _); split; auto with cache. }
  clearbody c2. rewrite (ac_config _ _ _ H2).
  destruct (_ || _) eqn:Hfit; [auto with cache|].
  apply orb_false_elim in Hfit as [_ Hfit%Z.ltb_ge].
  set (e := {| he_payload := payload; he_last_used := clock (tick c2) |}).
  assert (hot (tick c2) !! hash = None) as Hn.
  { change (hot (tick c2)) with (hot c2). rewrite Hh2, Hhot. apply lookup_delete_eq. }
  pose proof (insert_hot_accounted hash e (tick c2) Hn (tick_accounted c2 H2)) as Hi.
  apply sync_metrics_accounted.
  match goal with |- accounted _ _ (trim_hot_locked _ ?t) =>
    change t with (set_hot_bytes (u64 (hot_bytes (tick c2) + hot_size e)) (set_hot (<[hash := e]> (hot (tick c2))) (tick c2)))
  end.
  change (config (set_hot_bytes _ _)) with (config c2). rewrite (ac_config _ _ _ H2).
  destruct (spill_hot_on_eviction g) eqn:Hs.
  - unfold limits_ok in Hl. change (hot_size e) with (size_of payload) in Hi.
    apply (trim_hot_fits (B := max_hot_bytes g + size_of payload)); [done|lia..|exact Hi].
  - apply trim_hot_accounted. by apply (accounted_any _ Hs Hi).
Qed.
#[local] Hint Resolve put_hot_accounted : cache.

(** ** The disk tier *)

Lemma drop_disk_accounted {g : Config} {B : Z} hash c : accounted g B c -> accounted g B (drop_disk hash c).
Proof.
  unfold drop_disk. destruct (disk c !! hash) as [e|] eqn:He; [|done].
  intros [Hg Hh Hd Ht Hw]. split; try done.
  change (u64 (disk_bytes c - de_file_bytes e) = u64 (msum de_file_bytes (delete hash (disk c)))).
  rewrite Hd, u64_sub_l. unfold disk_total. rewrite (msum_delete _ (disk c) hash e He). f_equal. lia.
Qed.

(** An entry changed without its file. *)
Lemma touch_disk_accounted {g : Config} {B : Z} hash e e' c :
  disk c !! hash = Some e -> de_file_bytes e' = de_file_bytes e ->
  accounted g B c -> accounted g B (set_disk (<[hash := e']> (disk c)) c).
Proof.
  intros He Hf [Hg Hh Hd Ht Hw]. split; try done.
  change (disk_bytes c = u64 (msum de_file_bytes (<[hash := e']> (disk c)))).
  rewrite Hd. unfold disk_total. rewrite (msum_update _ (disk c) hash e e' He). f_equal. lia.
Qed.

Lemma use_disk_accounted {g : Config} {B : Z} hash c : accounted g B c -> accounted g B (use_disk hash c).
Proof.
  intros Hc. unfold use_disk. destruct (disk c !! hash) as [e|] eqn:He; [|done].
  apply (touch_disk_accounted hash e _ (tick c)); auto with cache.
Qed.

Lemma use_hot_accounted {g : Config} {B : Z} hash c : accounted g B c -> accounted g B (use_hot hash c).
Proof.
  unfold use_hot. destruct (hot c !! hash) as [e|] eqn:He; [|done]. intros [Hg Hh Hd Ht Hw].
  set (e' := {| he_payload := he_payload e; he_last_used := clock (tick c) |}).
  assert (msum hot_size (<[hash := e']> (hot c)) = hot_total c) as Htot.
  { rewrite (msum_update _ (hot c) hash e e' He). unfold hot_total. change (hot_size e') with (hot_size e). lia. }
  split; try done.
  - change (hot_bytes c = u64 (msum hot_size (<[hash := e']> (hot c)))). by rewrite Htot.
  - intros Hs. change (msum hot_size (<[hash := e']> (hot c)) <= B). rewrite Htot. auto.
Qed.

Lemma evict_disk_accounted {g : Config} {B : Z} hash entry c : accounted g B c -> accounted g B (evict_disk hash entry c).
Proof. intros. unfold evict_disk. pose proof @drop_disk_accounted. auto 10 with cache. Qed.

#[local] Hint Resolve drop_disk_accounted use_disk_accounted use_hot_accounted evict_disk_accounted : cache.

(** Naming the state a call leaves. *)
Ltac after_io :=
  match goal with
  | |- context [io ?m ?f ?c] =>
      let H := fresh "Hio" in
      assert (forall g B, accounted g B c -> accounted g B (io m f c).2) as H by (intros; by apply io_accounted);
      destruct (io m f c); cbn [snd] in H
  end.

Lemma remove_block_accounted {g : Config} {B : Z} path c : accounted g B c -> accounted g B (remove_block path c).2.
Proof. apply io_accounted. Qed.
#[local] Hint Resolve remove_block_accounted : cache.

Lemma erase_corrupt_accounted {g : Config} {B : Z} hash c : accounted g B c -> accounted g B (erase_corrupt_locked hash c).2.
Proof.
  intros Hc. unfold erase_corrupt_locked. cbn [snd].
  set (c1 := set_deferred _ c). assert (accounted g B c1) as H1 by (unfold c1; auto with cache). clearbody c1.
  set (c2 := match disk c1 !! hash with Some _ => _ | None => _ end).
  assert (accounted g B c2) as H2 by (unfold c2; destruct (disk c1 !! hash); auto with cache). clearbody c2.
  destruct (_ || _); auto 6 with cache.
Qed.
#[local] Hint Resolve erase_corrupt_accounted : cache.

Lemma budget_accounted {g : Config} {B : Z} c : accounted g B c -> accounted g B (effective_disk_budget_locked c).2.
Proof.
  intros Hc. unfold effective_disk_budget_locked. after_io. destruct o; [|auto].
  destruct (unreserved_disk_space _ _); auto.
Qed.

Lemma evict_loop_accounted {g : Config} {B : Z} fuel target maximum evicted c :
  accounted g B c -> accounted g B (evict_loop fuel target maximum evicted c).2.
Proof.
  revert evicted c. induction fuel as [|fuel IH]; intros evicted c Hc; cbn [evict_loop]; [done|].
  destruct (target <? disk_bytes c); [|done]. destruct (disk_victim c) as [[hash entry]|]; [|done].
  unfold remove_block. after_io. destruct b; [auto|].
  destruct (maximum <=? _); [|apply IH]; cbn [snd]; auto with cache.
Qed.

Lemma enforce_budget_accounted {g : Config} {B : Z} reserved maximum c :
  accounted g B c -> accounted g B (enforce_disk_budget_locked reserved maximum c).2.
Proof.
  intros Hc%budget_accounted. unfold enforce_disk_budget_locked.
  destruct (effective_disk_budget_locked c) as [budget c1]. cbn [snd] in Hc.
  pose proof (evict_loop_accounted (base.size (disk c1)) (if budget <=? reserved then 0 else budget - reserved)
    maximum 0 c1 Hc) as H1.
  destruct (evict_loop _ _ _ _ _) as [evicted c2]. cbn [snd] in *. auto with cache.
Qed.

Lemma enforce_accounted {g : Config} {B : Z} c : accounted g B c -> accounted g B (enforce c).
Proof. apply enforce_budget_accounted. Qed.
#[local] Hint Resolve enforce_budget_accounted enforce_accounted : cache.

(** ** Superseded versions *)

Lemma prune_victim_accounted {g : Config} {B : Z} victim c : accounted g B c -> accounted g B (prune_victim victim c).2.
Proof.
  intros Hc. unfold prune_victim. set (leased := match disk c !! victim with Some e => _ | None => _ end).
  destruct (_ || leased); [done|]. destruct (disk c !! victim) as [entry|].
  - unfold remove_block. after_io. destruct b; cbn [snd]; auto 10 with cache.
  - cbn [snd]. auto 10 with cache.
Qed.

Lemma prune_victims_accounted {g : Config} {B : Z} victims c :
  accounted g B c -> accounted g B (prune_victims victims c).2.
Proof.
  revert c. induction victims as [|victim victims IH]; intros c Hc; cbn [prune_victims]; [done|].
  apply (prune_victim_accounted victim) in Hc. destruct (prune_victim victim c) as [stays c1]. cbn [snd] in Hc.
  apply IH in Hc. by destruct (prune_victims victims c1).
Qed.

Lemma prune_entry_accounted {g : Config} {B : Z} entry c : accounted g B c -> accounted g B (prune_entry c entry).
Proof.
  intros Hc. destruct entry as [hash victims]. cbn [prune_entry].
  destruct (_ && _); [destruct (has _ _); auto with cache|]. destruct (_ && _); [auto with cache|].
  apply (prune_victims_accounted victims) in Hc. destruct (prune_victims victims c) as [kept c1].
  destruct (is_nil kept); auto with cache.
Qed.

(** A property kept by the body of a loop is kept by the loop. *)
Lemma foldl_keeps {A C} (P : C -> Prop) (f : C -> A -> C) l c : (forall c x, P c -> P (f c x)) -> P c -> P (foldl f c l).
Proof. intros Hf. revert c. induction l as [|x l IH]; intros c Hc; [done|]. apply IH. auto. Qed.

Lemma prune_accounted {g : Config} {B : Z} c : accounted g B c -> accounted g B (prune_tail_cleanup_locked c).
Proof. apply foldl_keeps. intros. by apply prune_entry_accounted. Qed.
#[local] Hint Resolve prune_accounted : cache.

Lemma schedule_accounted {g : Config} {B : Z} hash parent tokens extra :
  hoare (accounted g B) (schedule_tail_cleanup_locked hash parent tokens extra) (fun _ => accounted g B) (accounted g B).
Proof.
  unfold schedule_tail_cleanup_locked. eapply hoare_bind; [apply (hoare_get _ (fun _ => accounted g B)); done|].
  intros c. destruct (_ || _); [by apply hoare_ret|]. destruct (tail_lengths c !! parent); [|by apply hoare_ret].
  eapply hoare_bind; [apply (hoare_modify _ _ (fun _ => accounted g B)); auto with cache|]. intros ?.
  eapply hoare_bind; [apply (hoare_fold_each _ _ (fun _ => accounted g B))|].
  - intros retained length _. destruct (_ <=? length); [by apply hoare_ret|].
    destruct (block_hash _ _ _ _); [|by apply hoare_throw].
    eapply hoare_bind; [apply (hoare_get _ (fun _ => accounted g B)); done|]. intros c'.
    destruct (negb _); [by apply hoare_ret|].
    apply (hoare_bind _ _ _ (fun _ => accounted g B)); [|intros ?; by apply hoare_ret].
    destruct (_ <=? retained); [apply hoare_modify; auto with cache|by apply hoare_ret].
  - intros ?. apply hoare_modify. intros c' Hc'. destruct (is_nil _); auto with cache.
Qed.

(** ** Matching and storing *)

Lemma check_block_accounted {g : Config} {B : Z} hash parent count c :
  accounted g B c -> accounted g B (check_block hash parent count c).
Proof. intros Hc. unfold check_block. destruct (disk c !! hash); [|done]. destruct (_ || _); auto with cache. Qed.

Lemma match_block_accounted {g : Config} {B : Z} parent tokens extra :
  hoare (accounted g B) (match_block parent tokens extra) (fun _ => accounted g B) (accounted g B).
Proof.
  unfold match_block. eapply hoare_bind; [apply (hoare_get _ (fun _ => accounted g B)); done|]. intros c.
  destruct (block_hash _ _ _ _); [|by apply hoare_throw].
  eapply hoare_bind; [apply (hoare_modify _ _ (fun _ => accounted g B)); intros; by apply check_block_accounted|].
  intros ?. eapply hoare_bind; [apply (hoare_get _ (fun _ => accounted g B)); done|]. intros ?. by apply hoare_ret.
Qed.

Lemma set_writes_accounted {g : Config} {B : Z} v c : accounted g B c -> accounted g B (set_writes v c).
Proof. untouched. Qed.

Lemma set_active_accounted {g : Config} {B : Z} v c : accounted g B c -> accounted g B (set_active_writes v c).
Proof. untouched. Qed.
#[local] Hint Resolve set_writes_accounted set_active_accounted check_block_accounted : cache.

Section Storing.
Context {g : Config} (Hl : limits_ok g).
Let B := max_hot_bytes g.

Lemma store_spilling_accounted hash parent tokens payload replace ram c :
  accounted g B c -> accounted g B (store_spilling hash parent tokens payload replace ram c).2.
Proof using Hl.
  intros Hc. unfold store_spilling.
  assert (accounted g B (trim_for_ram_pressure_locked ram (prune_tail_cleanup_locked (remember_tail_locked hash parent
    (size_of tokens) (put_hot_locked hash payload
      (set_deferred (<[hash := request_for hash parent tokens payload replace c]> (deferred c)) c)))))) as Hput
    by (subst B; auto 10 with cache).
  destruct (hot c !! hash) as [e|] eqn:He; [|exact Hput]. destruct replace; [exact Hput|]. cbn [snd].
  apply bump_accounted. pose proof (use_hot_accounted hash c Hc) as Hu. unfold use_hot in Hu. by rewrite He in Hu.
Qed.

Lemma store_in_memory_accounted hash parent tokens payload replace c :
  accounted g B c -> accounted g B (store_in_memory hash parent tokens payload replace c).
Proof using Hl.
  intros Hc. unfold store_in_memory. destruct (_ && _); [auto with cache|].
  destruct (has hash (hot (put_hot_locked hash payload c))); subst B; auto 10 with cache.
Qed.

Lemma store_pending_accounted hash parent tokens payload replace c :
  accounted g B c -> accounted g B (store_pending hash parent tokens payload replace c).2.
Proof using Hl.
  intros Hc. unfold store_pending.
  set (c1 := put_hot_locked _ _ _). assert (accounted g B c1) as H1 by (unfold c1, B in *; auto with cache).
  clearbody c1. destruct (_ || _); cbn [snd]; auto 10 with cache.
Qed.

Lemma store_accounted parent tokens payload extra replace ram :
  hoare (accounted g B) (store parent tokens payload extra replace ram) (fun _ => accounted g B) (accounted g B).
Proof using Hl.
  unfold store. eapply hoare_bind; [apply (hoare_get _ (fun _ => accounted g B)); done|]. intros c0.
  destruct payload as [payload|]; [|by apply hoare_throw]. destruct (block_hash _ _ _ _) as [hash|]; [|by apply hoare_throw].
  apply (hoare_bind _ _ _ (fun _ => accounted g B)); [|intros ?; by apply hoare_ret].
  unfold store_locked. eapply hoare_bind; [apply (hoare_get _ (fun _ => accounted g B)); done|]. intros c1.
  destruct (_ && _).
  { eapply hoare_bind; [apply (hoare_modify _ _ (fun _ => accounted g B)); auto with cache|].
    intros ?. by apply hoare_ret. }
  eapply hoare_bind; [apply schedule_accounted|]. intros ?.
  eapply hoare_bind; [apply (hoare_get _ (fun _ => accounted g B)); done|]. intros c2.
  destruct (_ && negb _).
  { intros c Hc. pose proof (store_spilling_accounted hash parent tokens payload replace ram c Hc).
    by destruct (store_spilling _ _ _ _ _ _ _). }
  eapply hoare_bind; [apply (hoare_modify _ _ (fun _ => accounted g B)); auto with cache|]. intros ?.
  destruct (_ =? 0).
  - apply (hoare_bind _ _ _ (fun _ => accounted g B)); [|intros ?; by apply hoare_ret].
    apply hoare_modify. intros. by apply store_in_memory_accounted.
  - intros c Hc. pose proof (store_pending_accounted hash parent tokens payload replace c Hc).
    by destruct (store_pending _ _ _ _ _ _).
Qed.
End Storing.

(** ** Writing *)

Lemma write_request_accounted {g : Config} {B : Z} tick counter r c :
  accounted g B c -> accounted g B (write_request tick counter r c).2.
Proof. intros Hc. unfold write_request. after_io. destruct w; cbn [snd]; auto with cache. Qed.

Lemma index_written_accounted {g : Config} {B : Z} r path file_bytes c :
  accounted g B c -> accounted g B (index_written r path file_bytes c).
Proof.
  intros [Hg Hh Hd Ht Hw]. unfold index_written.
  destruct (disk c !! wr_hash r) as [e|] eqn:He; split; try done; cbn -[Z.max u64].
  - change (u64 (u64 (disk_bytes c - de_file_bytes e) + file_bytes) = u64 (disk_total
      (set_disk (<[wr_hash r := {| de_path := path; de_parent := wr_parent r; de_token_count := wr_token_count r;
         de_payload_bytes := size_of (wr_payload r); de_file_bytes := file_bytes; de_last_used := clock (tick c);
         de_pins := Z.max (default 0 (pins c !! wr_hash r)) (de_pins e) |}]> (disk c)) c))).
    unfold disk_total. change (disk (set_disk ?m _)) with m. rewrite (msum_update _ _ _ e) by done. cbn [de_file_bytes].
    rewrite Hd, u64_sub_l, u64_add_l. done.
  - change (u64 (disk_bytes c + file_bytes) = u64 (disk_total
      (set_disk (<[wr_hash r := {| de_path := path; de_parent := wr_parent r; de_token_count := wr_token_count r;
         de_payload_bytes := size_of (wr_payload r); de_file_bytes := file_bytes; de_last_used := clock (tick c);
         de_pins := default 0 (pins c !! wr_hash r) |}]> (disk c)) c))).
    unfold disk_total. change (disk (set_disk ?m _)) with m. rewrite msum_insert by done. cbn [de_file_bytes].
    rewrite Hd, u64_add_l. f_equal. unfold disk_total. lia.
Qed.
#[local] Hint Resolve index_written_accounted : cache.

Lemma finish_write_accounted {g : Config} {B : Z} tick r success c :
  accounted g B c -> accounted g B (finish_write tick r success c).
Proof.
  intros Hc. unfold finish_write. cbv zeta. apply sync_metrics_accounted, prune_accounted, forget_tail_accounted.
  pose proof (settle_pending_accounted (wr_hash r) c Hc) as H1. set (c1 := settle_pending (wr_hash r) c) in *. clearbody c1.
  destruct (success && _).
  - after_io. destruct o; auto 10 with cache.
  - destruct (negb success); auto 10 with cache.
Qed.

Lemma writer_turn_accounted {g : Config} {B : Z} ram c : accounted g B c -> accounted g B (writer_turn ram c).2.
Proof.
  intros Hc. unfold writer_turn.
  set (c1 := if clearing c then c else _). assert (accounted g B c1) as H1 by (unfold c1; destruct (clearing c); auto with cache).
  clearbody c1. destruct (disk_budget_pending c1).
  - assert (accounted g B (set_disk_identity_pending false c1)) as H2 by (revert H1; untouched).
    apply (enforce_budget_accounted 0 1) in H2. destruct (enforce_disk_budget_locked _ _ _) as [again c2].
    cbn [snd] in *. revert H2; untouched.
  - destruct (writes c1); cbn [snd]; auto with cache.
Qed.

(** ** Loading *)

Lemma plan_loads_accounted {g : Config} {B : Z} hashes bytes c :
  accounted g B c -> accounted g B (plan_loads hashes bytes c).2.
Proof.
  revert bytes c. induction hashes as [|hash hashes IH]; intros bytes c Hc; cbn [plan_loads]; [done|].
  destruct (hot c !! hash) as [e|].
  { specialize (IH (u64 (bytes + size_of (he_payload e))) c Hc).
    by destruct (plan_loads hashes _ c) as [[? ?] ?]. }
  destruct (pending c !! hash) as [payload|].
  { specialize (IH (u64 (bytes + size_of payload)) c Hc). by destruct (plan_loads hashes _ c) as [[? ?] ?]. }
  destruct (disk c !! hash) as [e|] eqn:He; [|done].
  pose proof (touch_disk_accounted hash e (set_de_pins (u64 (de_pins e + 1)) e) c He eq_refl Hc) as H1.
  specialize (IH (u64 (bytes + de_payload_bytes e)) _ H1). by destruct (plan_loads hashes _ _) as [[? ?] ?].
Qed.

Lemma load_begin_accounted {g : Config} {B : Z} hashes c : accounted g B c -> accounted g B (load_begin hashes c).2.
Proof.
  intros Hc%(plan_loads_accounted hashes 0). unfold load_begin. by destruct (plan_loads hashes 0 c) as [[? ?] ?].
Qed.

Lemma lost_file_accounted {g : Config} {B : Z} r c : accounted g B c -> accounted g B (lost_file r c).
Proof.
  intros Hc. unfold lost_file. after_io. destruct b; [|auto with cache]. destruct (disk _ !! _); auto 10 with cache.
Qed.
#[local] Hint Resolve lost_file_accounted : cache.

Lemma settle_loads_accounted {g : Config} requests c :
  limits_ok g -> accounted g (max_hot_bytes g) c -> accounted g (max_hot_bytes g) (settle_loads requests c).2.
Proof.
  intros Hl. revert c. induction requests as [|[r cold] requests IH]; intros c Hc; cbn [settle_loads]; [done|].
  destruct (lr_source r); [| |destruct cold as [payload|]; [|cbn [snd]; auto with cache]];
    (match goal with |- context [settle_loads requests ?t] =>
       assert (accounted g (max_hot_bytes g) t) as Ht by auto 10 with cache;
       apply IH in Ht; by destruct (settle_loads requests t)
     end).
Qed.

Lemma unlease_accounted {g : Config} {B : Z} c r : accounted g B c -> accounted g B (unlease c r).
Proof.
  intros Hc. unfold unlease. destruct (lr_source r); [done..|]. destruct (disk c !! lr_hash r) as [e|] eqn:He; [|done].
  destruct (0 <? _); [|done]. by apply (touch_disk_accounted _ e).
Qed.

Lemma release_accounted {g : Config} {B : Z} requests c :
  accounted g B c -> accounted g B (release_disk_read_pins_locked requests c).
Proof. intros Hc. apply enforce_accounted. apply foldl_keeps; [|done]. intros. by apply unlease_accounted. Qed.
#[local] Hint Resolve release_accounted : cache.

Lemma load_finish_accounted {g : Config} job cold c :
  limits_ok g -> accounted g (max_hot_bytes g) c -> accounted g (max_hot_bytes g) (load_finish job cold c).2.
Proof.
  intros Hl Hc. unfold load_finish. destruct (negb _); [done|].
  apply (settle_loads_accounted (zip (lj_requests job) cold)) in Hc; [|done].
  destruct (settle_loads _ c); cbn [snd] in *; auto with cache.
Qed.

Lemma load_abort_accounted {g : Config} {B : Z} job c : accounted g B c -> accounted g B (load_abort job c).
Proof. intros. unfold load_abort. destruct (_ =? _); auto with cache. Qed.

(** ** Pins, limits and the directory *)

Lemma pin_accounted {g : Config} {B : Z} blocks c : accounted g B c -> accounted g B (pin blocks c).
Proof.
  apply foldl_keeps. intros c' block Hc. unfold pin_block.
  set (c1 := set_pins _ c'). assert (accounted g B c1) as H1 by (unfold c1; auto with cache). clearbody c1.
  destruct (disk c1 !! block) as [e|] eqn:He; [|done]. by apply (touch_disk_accounted _ e).
Qed.

Lemma unpin_accounted {g : Config} {B : Z} blocks c : accounted g B c -> accounted g B (unpin blocks c).
Proof.
  intros Hc. apply enforce_accounted. apply foldl_keeps; [|done]. intros c' block Hc'. unfold unpin_block.
  set (c1 := match pins c' !! block with Some _ => _ | None => _ end).
  assert (accounted g B c1) as H1 by (unfold c1; destruct (pins c' !! block); [destruct (_ =? 0)|]; auto with cache).
  clearbody c1. destruct (disk c1 !! block) as [e|] eqn:He; [|done]. destruct (0 <? _); [|done].
  by apply (touch_disk_accounted _ e).
Qed.

Lemma trim_hot_section_accounted {g : Config} {B : Z} target c : accounted g B c -> accounted g B (trim_hot target c).2.
Proof. intros. cbn. auto with cache. Qed.

Lemma reserve_ram_accounted {g : Config} {B : Z} allocation ram c :
  accounted g B c -> accounted g B (reserve_ram allocation ram c).2.
Proof. intros. unfold reserve_ram. destruct (reserve_target _ _ _); [by apply trim_hot_section_accounted|done]. Qed.

(** The configuration with other limits. *)
Definition limited (disk_limit hot_limit : Z) (g : Config) : Config :=
  {| space := space g; max_disk_bytes := disk_limit; max_hot_bytes := hot_limit;
     max_pending_writes := max_pending_writes g; max_pending_bytes := max_pending_bytes g;
     retain_tail_versions := retain_tail_versions g; min_disk_free_bytes := min_disk_free_bytes g;
     spill_hot_on_eviction := spill_hot_on_eviction g; min_free_ram_bytes := min_free_ram_bytes g |}.

Lemma set_limits_accounted {g : Config} {B : Z} d h c :
  accounted g B c -> accounted (limited d h g) B (set_limits d h c).
Proof. intros [<- Hh Hd Ht Hw]. by split. Qed.

Lemma set_hot_limit_accounted {g : Config} h c :
  limits_ok g -> 0 <= h -> accounted g (max_hot_bytes g) c ->
  accounted (limited (max_disk_bytes g) h g) h (set_hot_limit h c).2.
Proof.
  intros Hl Hh Hc. unfold set_hot_limit, trim_hot. cbn [snd].
  pose proof (set_limits_accounted (max_disk_bytes g) h c Hc) as H1. rewrite (ac_config _ _ _ Hc).
  apply (set_metric_accounted HotPressureBytes 0) in H1. set (c1 := set_metric _ _ _) in *. clearbody c1.
  apply sync_metrics_accounted. destruct (spill_hot_on_eviction g) eqn:Hs.
  - unfold limits_ok in Hl. by apply (trim_hot_fits (B := max_hot_bytes g)); [|lia..|].
  - apply trim_hot_accounted. by apply (accounted_any (B := max_hot_bytes g)).
Qed.

Lemma set_disk_limit_accounted {g : Config} {B : Z} d c :
  accounted g B c -> accounted (limited d (max_hot_bytes g) g) B (set_disk_limit d c).
Proof.
  intros Hc. unfold set_disk_limit. rewrite (ac_config _ _ _ Hc). destruct (Z.eqb_spec (max_disk_bytes g) d) as [<-|Hne].
  - by destruct g.
  - apply (set_limits_accounted d (max_hot_bytes g)) in Hc as []. by split.
Qed.

Lemma refresh_accounted {g : Config} {B : Z} c : accounted g B c -> accounted g B (refresh_disk_index c).2.
Proof.
  intros Hc. unfold refresh_disk_index.
  assert (accounted g B (foldl refresh_entry (0, c) (visit (disk c))).2) as H1.
  { apply (foldl_keeps (fun x => accounted g B x.2)); [|done]. intros [removed c'] [hash e] Hc'.
    cbn [refresh_entry fst snd] in *. after_io. destruct (negb _); cbn [snd]; auto 10 with cache. }
  destruct (foldl _ _ _). cbn [snd] in *. auto with cache.
Qed.

Lemma clear_files_keep l r : (* the files of a cleared cache change only the world *)
  tiers (foldl clear_file r l).2 = tiers r.2 /\ tails (foldl clear_file r l).2 = tails r.2 /\
  config (foldl clear_file r l).2 = config r.2 /\ work (foldl clear_file r l).2 = work r.2.
Proof.
  revert r. induction l as [|e l IH]; intros [n c]; [done|]. cbn [foldl].
  destruct (IH (clear_file (n, c) e)) as (-> & -> & -> & ->). unfold clear_file, remove_block, io.
  by destruct (fs_remove _ (world c)) as [[?|?] ?].
Qed.

Lemma clear_begin_accounted {g : Config} {B : Z} c : 0 <= B -> accounted g B c -> accounted g B (clear_begin c).2.
Proof.
  intros HB [Hg _ _ _ _]. unfold clear_begin.
  match goal with |- context [foldl clear_file (0, ?t) ?l] =>
    destruct (clear_files_keep l (0, t)) as (_ & _ & Hcfg & _); destruct (foldl clear_file (0, t) l) as [removed c1]
  end. cbn [snd] in *. split.
  - change (config c1 = g). rewrite Hcfg. exact Hg.
  - cbn. unfold hot_total. cbn. by rewrite msum_empty.
  - cbn. unfold disk_total. cbn. by rewrite msum_empty.
  - split; [|intros p m; cbn; by rewrite lookup_empty].
    intros p k. cbn. unfold recorded, versions. rewrite lookup_empty. by rewrite msum_empty.
  - intros _. unfold hot_total. cbn. by rewrite msum_empty.
Qed.

Lemma scan_entry_accounted {g : Config} {B : Z} t r e : accounted g B r.2 -> accounted g B (scan_entry t r e).2.
Proof.
  destruct r as [scanned c]. cbn [snd]. intros Hc. unfold scan_entry.
  assert (forall path, accounted g B (reject path c)) as Hr by (intros; unfold reject; auto with cache).
  destruct (negb (dir_regular e)); [done|]. destruct (string_contains _ _); [cbn [snd]; auto with cache|].
  destruct (negb (ends_with _ _)); [done|]. destruct (dir_symlink e) as [[|]|]; [by apply Hr| |done].
  after_io. apply Hio in Hc. destruct (o ≫= _) as [[header ?]|]; [|cbn [snd]; unfold reject; auto with cache].
  destruct (negb _); [cbn [snd]; unfold reject; auto with cache|].
  after_io. destruct o0; [|cbn [snd]; auto].
  destruct (_ || _); cbn [snd]; unfold reject; auto with cache.
Qed.

Lemma index_scanned_accounted {g : Config} {B : Z} c e : accounted g B c -> accounted g B (index_scanned c e).
Proof.
  intros Hc. unfold index_scanned. apply tick_accounted in Hc. set (c1 := tick c) in *. clearbody c1.
  destruct (disk c1 !! sc_hash e) eqn:He; [done|]. apply remember_tail_accounted.
  destruct Hc as [Hg Hh Hd Ht Hw]. split; try done.
  set (entry := set_de_last_used (clock c1) (sc_entry e)).
  change (u64 (disk_bytes c1 + de_file_bytes entry) = u64 (msum de_file_bytes (<[sc_hash e := entry]> (disk c1)))).
  rewrite msum_insert, Hd, u64_add_l by done. f_equal. unfold disk_total. lia.
Qed.

Lemma open_directory_accounted {g : Config} {B : Z} order t listing c :
  accounted g B c -> accounted g B (open_directory order t listing c).
Proof.
  intros Hc. unfold open_directory.
  assert (accounted g B (foldl (scan_entry t) ([], c) listing).2) as H1.
  { apply (foldl_keeps (fun r => accounted g B r.2)); [|done]. intros. by apply scan_entry_accounted. }
  destruct (foldl _ _ _) as [scanned c1]. cbn [snd] in H1.
  apply sync_metrics_accounted, enforce_accounted. apply foldl_keeps; [|done]. intros. by apply index_scanned_accounted.
Qed.

Lemma empty_accounted g w : limits_ok g -> accounted g (max_hot_bytes g) (empty_cache g w).
Proof.
  intros [??]. assert (counts_versions ∅ ∅) as Hv.
  { split; [|intros p m; by rewrite lookup_empty]. intros p k. unfold recorded, versions.
    rewrite lookup_empty. by rewrite msum_empty. }
  split; [done| | |exact Hv|intros _]; unfold hot_total, disk_total; cbn; by rewrite msum_empty.
Qed.

End Inv.
