(* ===== verification/PrefixCacheGenuine.v ===== *)
(** * What the prefix cache holds

    Every block the operations of [PrefixCache] hold is under the hash it was given for: a
    payload in memory, queued or set aside is one that was stored for its hash, and so is
    what can be read from a file in the place of a block, unless the file came from
    elsewhere. [known] and [origin] stand for those facts; [PrefixCacheSteps] instantiates
    them with the history of a run. *)

From stdpp Require Import base list gmap strings sorting.
From Stdlib Require Import ZArith Lia.
From S2P Require Import Prelude Sha256 LittleEndian BlockFile BlockStore PrefixCache PrefixCacheInv.

#[local] Set Default Proof Using "Type".
#[local] Open Scope Z_scope.

Section Genuine.
Context `{Visits} (n : Namespace) (known : BlockHash -> Prop) (origin : BlockHash -> list Z -> Prop).

Definition fine_request (r : WriteRequest) : Prop :=
  known (wr_hash r) /\ origin (wr_hash r) (wr_payload r) /\ length (wr_parent r) = 32%nat.

(** An entry of the index of the disk is at the place of its block. *)
Definition fine_entry (h : BlockHash) (e : DiskEntry) : Prop :=
  known h /\ de_path e = path_for n h /\ length (de_parent e) = 32%nat.

(** A file at the place of a block reads as a payload of the block, if at all. *)
Definition honest (w : World) : Prop :=
  forall h contents p, is_hash h -> files w !! path_for n h = Some contents -> read_payload n contents h = Some p ->
    origin h p.

Record genuine (c : Cache) : Prop := {
  ge_space : space (config c) = n;
  ge_files : honest (world c);
  ge_disk : forall h e, disk c !! h = Some e -> fine_entry h e;
  ge_hot : forall h e, hot c !! h = Some e -> known h /\ origin h (he_payload e);
  ge_pending : forall h p, pending c !! h = Some p -> known h /\ origin h p;
  ge_deferred : forall h r, deferred c !! h = Some r -> wr_hash r = h /\ fine_request r;
  ge_writes : forall r, r ∈ writes c -> fine_request r;
}.

Ltac same := intros []; split; assumption.

(** ** Operations that hold the same blocks *)

Lemma set_metric_genuine k v c : genuine c -> genuine (set_metric k v c).
Proof. same. Qed.
Lemma bump_genuine k c : genuine c -> genuine (bump k c).
Proof. same. Qed.
Lemma sync_metrics_genuine c : genuine c -> genuine (sync_metrics c).
Proof. same. Qed.
Lemma tick_genuine c : genuine c -> genuine (tick c).
Proof. same. Qed.

(** Calls on files that put none in the place of a block. *)
Definition keeps_honest {A} (m : M World A) : Prop := forall w, honest w -> honest (m w).2.

Lemma delete_honest q w : honest w -> honest (set_files (delete q (files w)) w).
Proof. intros Hw h contents p Hh. cbn. rewrite lookup_delete_Some. intros [_ Hf]. by apply (Hw h). Qed.

Lemma call_keeps {A} (work : World -> A * World) (failed : nat -> World -> outcome A * World) :
  (forall w, honest w -> honest (work w).2) -> (forall k w, honest w -> honest (failed k w).2) ->
  keeps_honest (call work failed).
Proof.
  intros Hw Hf w H0. unfold call.
  assert (forall w, honest w -> honest (let '(a, w) := work w in (Ok a, w)).2) as Hwork
    by (intros w1 H1; specialize (Hw w1 H1); by destruct (work w1)).
  destruct (faults w) as [|[|k|k] rest]; [by apply Hwork|by apply Hwork|by apply Hf|by apply Hf].
Qed.

Lemma quiet_keeps {A} (answer : World -> A) (failed : nat -> World -> outcome A * World) :
  (forall k w, (failed k w).2 = w) -> keeps_honest (call (fun w => (answer w, w)) failed).
Proof. intros Hf. apply call_keeps; [done|]. intros k w. by rewrite Hf. Qed.

Lemma fs_remove_keeps q : keeps_honest (fs_remove q).
Proof. apply call_keeps; [intros w; apply delete_honest|done]. Qed.
Lemma fs_space_keeps : keeps_honest fs_space.
Proof. by apply quiet_keeps. Qed.
Lemma fs_file_size_keeps q : keeps_honest (fs_file_size q).
Proof. by apply quiet_keeps. Qed.
Lemma fs_gone_keeps q : keeps_honest (fs_gone q).
Proof. by apply quiet_keeps. Qed.
Lemma fs_read_keeps q : keeps_honest (fs_read q).
Proof. by apply quiet_keeps. Qed.
Lemma sync_keeps q : keeps_honest (sync_directory_best_effort q).
Proof. by apply quiet_keeps. Qed.

Lemma remove_text_keeps q : keeps_honest (remove_text q).
Proof.
  intros w Hw%(fs_remove_keeps (text_path q)). unfold remove_text, mbind, M_bind.
  by destruct (fs_remove _ w) as [[?|?] ?].
Qed.

Lemma read_cold_keeps r : keeps_honest (read_cold n r).
Proof.
  intros w Hw. unfold read_cold. destruct (lr_source r); [done..|].
  pose proof (fs_read_keeps (lr_path r) w Hw) as H1. unfold mbind, M_bind.
  by destruct (fs_read _ w) as [[?|?] ?].
Qed.

(** The files of blocks are those there were. *)
Lemma honest_as_before w w' :
  (forall h, is_hash h -> files w' !! path_for n h = files w !! path_for n h) -> honest w -> honest w'.
Proof. intros Hf Hw h contents p Hh Hc. rewrite Hf in Hc by done. by apply (Hw h). Qed.

Lemma write_text_honest margin tick r : is_hash (wr_hash r) -> keeps_honest (write_text n margin tick r).
Proof. intros Hr w. apply honest_as_before. intros h Hh. by apply Published.write_text_keeps. Qed.

(** Writing a block puts its image in its place, and reading the image gives the payload. *)
Lemma write_file_honest margin tick counter r :
  length (compatibility_hash n) = 32%nat -> is_hash (wr_hash r) -> fine_request r ->
  keeps_honest (write_file n margin tick counter r).
Proof.
  intros Hn Hr (_ & Ho & Hparent) w Hw.
  pose proof (Published.write_file_safe n r tick counter (files w) Hr margin w (conj (fun _ _ _ => eq_refl) eq_refl)) as Hsafe.
  assert (Published.consistent n r tick counter (files w) (files (write_file n margin tick counter r w).2)) as Hc
    by (destruct (write_file n margin tick counter r w) as [[?|?] ?]; [by destruct Hsafe|done]).
  clear Hsafe. intros h contents p Hh Hf Hp.
  assert (path_for n h <> temporary_path (path_for n (wr_hash r)) tick counter) as Htmp
    by (intros E; by apply (Published.temporary_apart n r tick counter h)).
  destruct (decide (path_for n h = path_for n (wr_hash r))) as [E|E].
  2: { apply (Hw h contents p Hh); [|done]. rewrite <- Hf. symmetry.
       by destruct Hc as [[Hoth _]|[(Hoth & _)|(Hoth & _)]]; apply Hoth. }
  apply path_for_inj in E; [|done..]. subst h.
  destruct Hc as [[_ E]|[(_ & E & _)|(_ & _ & E)]]; rewrite E in Hf.
  - by apply (Hw _ contents p).
  - injection Hf as <-. apply image_payload in Hp; [by subst p|done|apply Hr|done].
  - done.
Qed.

Lemma io_genuine {A} (m : M World A) failed c : keeps_honest m -> genuine c -> genuine (io m failed c).2.
Proof.
  intros Hm []. specialize (Hm (world c) ge_files0). unfold io.
  destruct (m (world c)) as [[?|?] ?]; split; assumption.
Qed.
Lemma io__genuine {A} (m : M World A) c : keeps_honest m -> genuine c -> genuine (io_ m c).
Proof. intros Hm []. split; try assumption. by apply Hm. Qed.
Lemma set_cleanup_genuine v c : genuine c -> genuine (set_tail_cleanup v c).
Proof. same. Qed.
Lemma set_pins_genuine v c : genuine c -> genuine (set_pins v c).
Proof. same. Qed.
Lemma set_active_genuine v c : genuine c -> genuine (set_active_writes v c).
Proof. same. Qed.

Lemma remember_tail_genuine hash parent count c : genuine c -> genuine (remember_tail_locked hash parent count c).
Proof. unfold remember_tail_locked. destruct (_ || _); [done|same]. Qed.
Lemma forget_tail_genuine hash c : genuine c -> genuine (forget_tail_if_unused_locked hash c).
Proof.
  unfold forget_tail_if_unused_locked. destruct (_ || _); [done|].
  destruct (tail_metadata c !! hash) as [[? ?]|]; [same|done].
Qed.

#[local] Hint Resolve fs_remove_keeps fs_space_keeps fs_file_size_keeps fs_gone_keeps fs_read_keeps sync_keeps
  remove_text_keeps read_cold_keeps : cache.
#[local] Hint Resolve set_metric_genuine bump_genuine sync_metrics_genuine tick_genuine io_genuine io__genuine
  set_cleanup_genuine set_pins_genuine set_active_genuine remember_tail_genuine forget_tail_genuine : cache.

(** ** Blocks taken away *)

Lemma delete_deferred_genuine hash c : genuine c -> genuine (set_deferred (delete hash (deferred c)) c).
Proof. intros []. split; try assumption. intros h r. cbn. rewrite lookup_delete_Some. intros [_ Hr]. auto. Qed.

Lemma drop_hot_genuine hash c : genuine c -> genuine (drop_hot hash c).
Proof.
  unfold drop_hot. destruct (hot c !! hash); [|done]. intros []. split; try assumption.
  intros k e. cbn. rewrite lookup_delete_Some. intros [_ He]. eauto.
Qed.

Lemma drop_disk_genuine hash c : genuine c -> genuine (drop_disk hash c).
Proof.
  unfold drop_disk. destruct (disk c !! hash); [|done]. intros []. split; try assumption.
  intros k e. cbn. rewrite lookup_delete_Some. intros [_ He]. eauto.
Qed.

Lemma settle_pending_genuine hash c : genuine c -> genuine (settle_pending hash c).
Proof.
  unfold settle_pending. destruct (pending c !! hash); [|done]. intros []. split; try assumption.
  intros k p. cbn. rewrite lookup_delete_Some. intros [_ Hp]. auto.
Qed.

(** ** Blocks that change place *)

Lemma spill_genuine hash c : genuine c -> genuine (spill hash c).
Proof.
  unfold spill. destruct (deferred c !! hash) as [r|] eqn:Hr; [|done]. intros Hc.
  pose proof (ge_deferred c Hc hash r Hr) as [<- Hf]. pose proof Hf as (? & ? & _). apply delete_deferred_genuine.
  destruct (0 <? _); [|done]. destruct Hc. split; try assumption.
  - intros h p. cbn. rewrite lookup_insert_Some. intros [[<- <-]|[_ Hp]]; [done|auto].
  - intros r'. cbn. rewrite list_elem_of_In, in_app_iff. intros [Hr'|[<-|[]]]; [|done].
    apply ge_writes0. by apply list_elem_of_In.
Qed.

Lemma defer_again_genuine hash e c : disk c !! hash = Some e -> genuine c -> genuine (defer_again hash e c).
Proof.
  intros He. unfold defer_again. destruct (hot c !! hash) as [cached|] eqn:Hh; [|done].
  destruct (_ && _); [|done]. intros Hc. pose proof (ge_hot c Hc hash cached Hh) as [Hk Ho].
  pose proof (ge_disk c Hc hash e He) as (_ & _ & Hparent). destruct Hc. split; try assumption.
  intros h r. cbn. rewrite lookup_insert_Some. intros [[<- <-]|[_ Hr]]; [done|auto].
Qed.

(** ** Blocks that come in *)

Lemma insert_hot_genuine hash payload used c :
  known hash -> origin hash payload -> genuine c ->
  genuine (set_hot (<[hash := {| he_payload := payload; he_last_used := used |}]> (hot c)) c).
Proof.
  intros Hk Ho []. split; try assumption.
  intros h e. cbn. rewrite lookup_insert_Some. intros [[<- <-]|[_ He]]; [done|eauto].
Qed.

Lemma insert_disk_genuine hash e c : fine_entry hash e -> genuine c -> genuine (set_disk (<[hash := e]> (disk c)) c).
Proof.
  intros Hk []. split; try assumption. intros h e'. cbn. rewrite lookup_insert_Some. intros [[<- <-]|[_ He]]; [done|eauto].
Qed.

Lemma insert_deferred_genuine r c :
  fine_request r -> genuine c -> genuine (set_deferred (<[wr_hash r := r]> (deferred c)) c).
Proof.
  intros Hf []. split; try assumption. intros h r'. cbn. rewrite lookup_insert_Some. intros [[<- <-]|[_ Hr]]; [done|auto].
Qed.

Lemma add_pending_genuine hash payload c :
  known hash -> origin hash payload -> genuine c -> genuine (add_pending hash payload c).
Proof.
  intros Hk Ho []. split; try assumption. intros h p. cbn. rewrite lookup_insert_Some. intros [[<- <-]|[_ Hp]]; [done|auto].
Qed.

Lemma queue_genuine r c : fine_request r -> genuine c -> genuine (set_writes (writes c ++ [r]) c).
Proof.
  intros Hf []. split; try assumption. intros r'. cbn. rewrite list_elem_of_In, in_app_iff.
  intros [Hr'|[<-|[]]]; [|done]. apply ge_writes0. by apply list_elem_of_In.
Qed.

#[local] Hint Resolve delete_deferred_genuine drop_hot_genuine drop_disk_genuine settle_pending_genuine spill_genuine
  insert_hot_genuine insert_disk_genuine insert_deferred_genuine add_pending_genuine queue_genuine : cache.

(** ** The memory tier *)

Lemma evict_hot_genuine hash c : genuine c -> genuine (evict_hot hash c).
Proof. unfold evict_hot. auto with cache. Qed.

Lemma trim_hot_genuine target c : genuine c -> genuine (trim_hot_locked target c).
Proof.
  unfold trim_hot_locked. generalize (base.size (hot c)) as fuel. intros fuel. revert c.
  induction fuel as [|fuel IH]; intros c Hc; cbn [trim_hot_loop]; [done|].
  destruct (target <? hot_bytes c); [|done]. destruct (hot_victim c) as [[hash e]|]; [|done].
  by apply IH, evict_hot_genuine.
Qed.
#[local] Hint Resolve evict_hot_genuine trim_hot_genuine : cache.

Lemma trim_ram_genuine ram c : genuine c -> genuine (trim_for_ram_pressure_locked ram c).
Proof. unfold trim_for_ram_pressure_locked. destruct ram; [|done]. destruct (_ || _); auto with cache. Qed.

Lemma put_hot_genuine hash payload c :
  known hash -> origin hash payload -> genuine c -> genuine (put_hot_locked hash payload c).
Proof.
  intros Hk Ho Hc%(drop_hot_genuine hash). unfold put_hot_locked. set (c1 := drop_hot hash c) in *. clearbody c1.
  set (c2 := if _ <? u64 (hot_bytes c1 + _) then _ else c1).
  assert (genuine c2) as H2 by (unfold c2; destruct (_ <? _); auto with cache). clearbody c2.
  destruct (_ || _); [auto with cache|]. apply sync_metrics_genuine, trim_hot_genuine.
  pose proof (insert_hot_genuine hash payload (clock (tick c2)) (tick c2) Hk Ho (tick_genuine c2 H2)) as H3.
  revert H3; same.
Qed.

Lemma use_hot_genuine hash c : genuine c -> genuine (use_hot hash c).
Proof.
  intros Hc. unfold use_hot. destruct (hot c !! hash) as [e|] eqn:He; [|done].
  destruct (ge_hot c Hc hash e He). apply insert_hot_genuine; auto with cache.
Qed.

(** ** The disk tier *)

Lemma use_disk_genuine hash c : genuine c -> genuine (use_disk hash c).
Proof.
  intros Hc. unfold use_disk. destruct (disk c !! hash) as [e|] eqn:He; [|done].
  apply insert_disk_genuine; [by apply (ge_disk c Hc hash e)|auto with cache].
Qed.

Lemma evict_disk_genuine hash e c : disk c !! hash = Some e -> genuine c -> genuine (evict_disk hash e c).
Proof.
  intros He Hc. unfold evict_disk. apply bump_genuine, forget_tail_genuine, drop_disk_genuine, defer_again_genuine; auto with cache.
Qed.

#[local] Hint Resolve trim_ram_genuine put_hot_genuine use_hot_genuine use_disk_genuine evict_disk_genuine : cache.

Ltac after_io :=
  match goal with
  | |- context [io ?m ?f ?c] =>
      let H := fresh "Hio" in let K := fresh "Hkeep" in
      assert (genuine c -> genuine (io m f c).2) as H by (apply io_genuine; auto with cache);
      assert (disk (io m f c).2 = disk c) as K by (unfold io; by destruct (m (world c)) as [[?|?] ?]);
      destruct (io m f c); cbn [snd] in H, K
  end.

Lemma erase_corrupt_genuine hash c : genuine c -> genuine (erase_corrupt_locked hash c).2.
Proof.
  intros Hc. unfold erase_corrupt_locked. cbn [snd].
  set (c1 := set_deferred _ c). assert (genuine c1) as H1 by (unfold c1; auto with cache). clearbody c1.
  set (c2 := match disk c1 !! hash with Some _ => _ | None => _ end).
  assert (genuine c2) as H2 by (unfold c2, remove_block; destruct (disk c1 !! hash); auto with cache). clearbody c2.
  destruct (_ || _); auto 6 with cache.
Qed.
#[local] Hint Resolve erase_corrupt_genuine : cache.

Lemma disk_victim_elem c hash e : disk_victim c = Some (hash, e) -> disk c !! hash = Some e.
Proof.
  intros Hv. apply scan_elem in Hv as [?|[Hv _]]; [done|].
  rewrite visit_all in Hv. by apply elem_of_map_to_list in Hv.
Qed.

Lemma enforce_budget_genuine reserved maximum c : genuine c -> genuine (enforce_disk_budget_locked reserved maximum c).2.
Proof.
  intros Hc. unfold enforce_disk_budget_locked, effective_disk_budget_locked. after_io. apply Hio in Hc.
  set (p := match o with Some _ => _ | None => _ end).
  assert (p.2 = c0) as Hp by (subst p; destruct o; [destruct (unreserved_disk_space _ _)|]; done).
  destruct p as [budget c1]. cbn [snd] in Hp. subst c1.
  assert (forall fuel target evicted c, genuine c -> genuine (evict_loop fuel target maximum evicted c).2) as Hloop.
  { clear. intros fuel target. induction fuel as [|fuel IH]; intros evicted c Hc; cbn [evict_loop]; [done|].
    destruct (target <? disk_bytes c); [|done]. destruct (disk_victim c) as [[hash e]|] eqn:Hv; [|done].
    apply disk_victim_elem in Hv. unfold remove_block. after_io. destruct b; [auto|].
    assert (genuine (evict_disk hash e c0)) by (apply evict_disk_genuine; [by rewrite Hkeep|auto]).
    destruct (maximum <=? _); [done|by apply IH]. }
  specialize (Hloop (base.size (disk c0)) (if budget <=? reserved then 0 else budget - reserved) 0 c0 Hc).
  destruct (evict_loop _ _ _ _ _). cbn [snd] in *. auto with cache.
Qed.

Lemma enforce_genuine c : genuine c -> genuine (enforce c).
Proof. apply enforce_budget_genuine. Qed.
#[local] Hint Resolve enforce_budget_genuine enforce_genuine : cache.

(** ** Superseded versions *)

Lemma prune_victim_genuine victim c : genuine c -> genuine (prune_victim victim c).2.
Proof.
  intros Hc. unfold prune_victim. set (leased := match disk c !! victim with Some e => _ | None => _ end).
  destruct (_ || leased); [done|]. destruct (disk c !! victim) as [entry|].
  - unfold remove_block. after_io. destruct b; cbn [snd]; auto 10 with cache.
  - cbn [snd]. auto 10 with cache.
Qed.

Lemma prune_genuine c : genuine c -> genuine (prune_tail_cleanup_locked c).
Proof.
  apply foldl_keeps. intros c' [hash victims] Hc. cbn [prune_entry].
  destruct (_ && _); [destruct (has _ _); auto with cache|]. destruct (_ && _); [auto with cache|].
  assert (genuine (prune_victims victims c').2) as H1.
  { clear -Hc. revert c' Hc. induction victims as [|victim victims IH]; intros c Hc; cbn [prune_victims]; [done|].
    apply (prune_victim_genuine victim) in Hc. destruct (prune_victim victim c) as [stays c1]. cbn [snd] in Hc.
    apply IH in Hc. by destruct (prune_victims victims c1). }
  destruct (prune_victims victims c') as [kept c1]. destruct (is_nil kept); auto with cache.
Qed.
#[local] Hint Resolve prune_genuine : cache.

(** ** Matching and storing *)

Lemma check_block_genuine hash parent count c : genuine c -> genuine (check_block hash parent count c).
Proof. intros Hc. unfold check_block. destruct (disk c !! hash); [|done]. destruct (_ || _); auto with cache. Qed.

Lemma match_block_genuine parent tokens extra :
  hoare genuine (match_block parent tokens extra) (fun _ => genuine) genuine.
Proof.
  unfold match_block. eapply hoare_bind; [apply (hoare_get _ (fun _ => genuine)); done|]. intros c.
  destruct (block_hash _ _ _ _); [|by apply hoare_throw].
  eapply hoare_bind; [apply (hoare_modify _ _ (fun _ => genuine)); intros; by apply check_block_genuine|].
  intros ?. eapply hoare_bind; [apply (hoare_get _ (fun _ => genuine)); done|]. intros ?. by apply hoare_ret.
Qed.

Lemma schedule_genuine hash parent tokens extra :
  hoare genuine (schedule_tail_cleanup_locked hash parent tokens extra) (fun _ => genuine) genuine.
Proof.
  unfold schedule_tail_cleanup_locked. eapply hoare_bind; [apply (hoare_get _ (fun _ => genuine)); done|].
  intros c. destruct (_ || _); [by apply hoare_ret|]. destruct (tail_lengths c !! parent); [|by apply hoare_ret].
  eapply hoare_bind; [apply (hoare_modify _ _ (fun _ => genuine)); auto with cache|]. intros ?.
  eapply hoare_bind; [apply (hoare_fold_each _ _ (fun _ => genuine))|].
  - intros retained length _. destruct (_ <=? length); [by apply hoare_ret|].
    destruct (block_hash _ _ _ _); [|by apply hoare_throw].
    eapply hoare_bind; [apply (hoare_get _ (fun _ => genuine)); done|]. intros c'.
    destruct (negb _); [by apply hoare_ret|].
    apply (hoare_bind _ _ _ (fun _ => genuine)); [|intros ?; by apply hoare_ret].
    destruct (_ <=? retained); [apply hoare_modify; auto with cache|by apply hoare_ret].
  - intros ?. apply hoare_modify. intros c' Hc'. destruct (is_nil _); auto with cache.
Qed.

Section Storing.
Context (hash parent : BlockHash) (payload : list Z).
Context (Hk : known hash) (Ho : origin hash payload) (Hparent : length parent = 32%nat).
#[local] Set Default Proof Using "All".

Lemma store_spilling_genuine tokens replace ram c :
  genuine c -> genuine (store_spilling hash parent tokens payload replace ram c).2.
Proof.
  intros Hc. unfold store_spilling.
  assert (genuine (trim_for_ram_pressure_locked ram (prune_tail_cleanup_locked (remember_tail_locked hash parent
    (size_of tokens) (put_hot_locked hash payload
      (set_deferred (<[hash := request_for hash parent tokens payload replace c]> (deferred c)) c)))))) as Hput.
  { pose proof (insert_deferred_genuine (request_for hash parent tokens payload replace c) c (conj Hk (conj Ho Hparent)) Hc).
    auto 10 with cache. }
  destruct (hot c !! hash) as [e|] eqn:He; [|exact Hput]. destruct replace; [exact Hput|]. cbn [snd].
  apply bump_genuine. pose proof (use_hot_genuine hash c Hc) as Hu. unfold use_hot in Hu. by rewrite He in Hu.
Qed.

Lemma store_in_memory_genuine tokens replace c :
  genuine c -> genuine (store_in_memory hash parent tokens payload replace c).
Proof.
  intros Hc. unfold store_in_memory. destruct (_ && _); [auto with cache|].
  destruct (has hash (hot (put_hot_locked hash payload c))); auto 10 with cache.
Qed.

(** The request left to write is of the block. *)
Definition fine_after (after : AfterStore) : Prop := match after with Inline r => fine_request r | _ => True end.

Lemma store_pending_genuine tokens replace c :
  genuine c -> genuine (store_pending hash parent tokens payload replace c).2 /\
  fine_after (store_pending hash parent tokens payload replace c).1.
Proof.
  intros Hc. unfold store_pending.
  set (c1 := put_hot_locked _ _ _). assert (genuine c1) as H1 by (unfold c1; auto with cache).
  clearbody c1. assert (fine_request (request_for hash parent tokens payload replace c1)) as Hr by done.
  destruct (_ || _); cbn [fst snd]; (split; [auto 10 with cache|done]).
Qed.

Lemma store_locked_genuine tokens extra replace ram :
  hoare genuine (store_locked hash parent tokens payload extra replace ram)
    (fun after c => genuine c /\ fine_after after) genuine.
Proof.
  unfold store_locked. eapply hoare_bind; [apply (hoare_get _ (fun _ => genuine)); done|]. intros c1.
  destruct (_ && _).
  { eapply hoare_bind; [apply (hoare_modify _ _ (fun _ => genuine)); auto with cache|].
    intros ?. by apply hoare_ret. }
  eapply hoare_bind; [apply schedule_genuine|]. intros ?.
  eapply hoare_bind; [apply (hoare_get _ (fun _ => genuine)); done|]. intros c2.
  destruct (_ && negb _).
  { intros c Hc. pose proof (store_spilling_genuine tokens replace ram c Hc) as H1.
    assert (fine_after (store_spilling hash parent tokens payload replace ram c).1).
    { unfold store_spilling. destruct (hot c !! hash), replace; cbn [fst]; by repeat case_match. }
    by destruct (store_spilling _ _ _ _ _ _ _). }
  eapply hoare_bind; [apply (hoare_modify _ _ (fun _ => genuine)); auto with cache|]. intros ?.
  destruct (_ =? 0).
  - apply (hoare_bind _ _ _ (fun _ => genuine)); [|intros ?; by apply hoare_ret].
    apply hoare_modify. intros. by apply store_in_memory_genuine.
  - intros c Hc. pose proof (store_pending_genuine tokens replace c Hc).
    by destruct (store_pending _ _ _ _ _ _).
Qed.
End Storing.

Lemma store_genuine parent tokens payload extra replace ram c :
  (forall hash p, payload = Some p -> block_hash (space (config c)) parent tokens extra = Ok hash ->
     known hash /\ origin hash p /\ length parent = 32%nat) ->
  genuine c ->
  match store parent tokens payload extra replace ram c with
  | (Ok (hash, after), c') => genuine c' /\ known hash /\ fine_after after
  | (Throw _, c') => genuine c'
  end.
Proof.
  intros Hnew Hc. unfold store, mbind, M_bind, get. destruct payload as [p|]; [|done].
  destruct (block_hash _ _ _ _) as [hash|e]; [|done]. destruct (Hnew hash p eq_refl eq_refl) as (Hk & Ho & Hparent).
  pose proof (store_locked_genuine hash parent p Hk Ho Hparent tokens extra replace ram c Hc) as H1.
  destruct (store_locked _ _ _ _ _ _ _ c) as [[after|?] c']; [|done]. by destruct H1.
Qed.

(** ** Writing *)

Lemma write_request_genuine tick counter r c :
  length (compatibility_hash n) = 32%nat -> is_hash (wr_hash r) -> fine_request r ->
  genuine c -> genuine (write_request tick counter r c).2.
Proof.
  intros Hn Hh Hr Hc. unfold write_request. rewrite (ge_space c Hc).
  pose proof (write_file_honest (min_disk_free_bytes (config c)) tick counter r Hn Hh Hr). after_io. 
  destruct w; cbn [snd]; auto with cache.
Qed.

Lemma index_written_genuine r file_bytes c :
  fine_request r -> genuine c -> genuine (index_written r (path_for n (wr_hash r)) file_bytes c).
Proof.
  intros (Hk & _ & Hparent) Hc. unfold index_written.
  destruct (disk c !! wr_hash r) as [e|]; (match goal with |- genuine (set_disk (<[_ := ?e]> _) _) =>
    pose proof (insert_disk_genuine (wr_hash r) e c (conj Hk (conj eq_refl Hparent)) Hc) as H1 end); revert H1; same.
Qed.
#[local] Hint Resolve index_written_genuine : cache.

Lemma finish_write_genuine tick r success c :
  is_hash (wr_hash r) -> fine_request r -> genuine c -> genuine (finish_write tick r success c).
Proof.
  intros Hh Hr Hc. unfold finish_write. cbv zeta. apply sync_metrics_genuine, prune_genuine, forget_tail_genuine.
  pose proof (settle_pending_genuine (wr_hash r) c Hc) as H1. set (c1 := settle_pending (wr_hash r) c) in *. clearbody c1.
  rewrite (ge_space c1 H1). destruct (success && _).
  - pose proof (write_text_honest (min_disk_free_bytes (config c1)) tick r Hh). after_io. destruct o; auto 10 with cache.
  - destruct (negb success); auto 10 with cache.
Qed.

Lemma writer_turn_genuine ram c :
  genuine c -> genuine (writer_turn ram c).2 /\ forall r, (writer_turn ram c).1 = Some r -> fine_request r.
Proof.
  intros Hc. unfold writer_turn.
  set (c1 := if clearing c then c else _). assert (genuine c1) as H1 by (unfold c1; destruct (clearing c); auto with cache).
  clearbody c1. destruct (disk_budget_pending c1).
  - assert (genuine (set_disk_identity_pending false c1)) as H2 by (revert H1; same).
    apply (enforce_budget_genuine 0 1) in H2. destruct (enforce_disk_budget_locked _ _ _) as [again c2].
    cbn [fst snd] in *. split; [|done]. revert H2; same.
  - destruct (writes c1) as [|r rest] eqn:Hw; cbn [fst snd]; [done|]. split.
    + apply set_active_genuine. destruct H1. split; try assumption.
      intros r' Hr'. apply ge_writes0. rewrite Hw. by right.
    + intros r' [= <-]. apply (ge_writes _ H1). rewrite Hw. by left.
Qed.

(** ** Loading *)

(** A planned load has its payload, or reads the file of a known block. *)
Definition fine_load (r : LoadRequest) : Prop :=
  known (lr_hash r) /\
  match lr_source r with
  | Disk => lr_path r = path_for n (lr_hash r)
  | _ => origin (lr_hash r) (lr_payload r)
  end.

Lemma plan_loads_genuine hashes bytes c :
  genuine c -> genuine (plan_loads hashes bytes c).2 /\ Forall fine_load (plan_loads hashes bytes c).1.1 /\
  prefix (lr_hash <$> (plan_loads hashes bytes c).1.1) hashes.
Proof.
  revert bytes c. induction hashes as [|hash hashes IH]; intros bytes c Hc; cbn [plan_loads]; [done|].
  assert (forall r size c', lr_hash r = hash -> fine_load r -> genuine c' ->
    let '(requests, bytes, c) := (let '(requests, bytes, c) := plan_loads hashes (u64 (bytes + size)) c' in
                                   (r :: requests, bytes, c)) in
    genuine c /\ Forall fine_load requests /\ prefix (lr_hash <$> requests) (hash :: hashes)) as Hplan.
  { intros r size c' <- Hr Hc'. specialize (IH (u64 (bytes + size)) c' Hc').
    destruct (plan_loads hashes _ c') as [[requests ?] ?]. destruct IH as (? & ? & Hp).
    split_and!; [done|by constructor|]. by apply prefix_cons. }
  destruct (hot c !! hash) as [e|] eqn:He.
  { destruct (ge_hot c Hc hash e He).
    specialize (Hplan {| lr_hash := hash; lr_source := Hot; lr_payload := he_payload e; lr_path := [] |}
      (size_of (he_payload e)) c eq_refl ltac:(by split) Hc). by destruct (plan_loads hashes _ c) as [[? ?] ?]. }
  destruct (pending c !! hash) as [payload|] eqn:Hp.
  { destruct (ge_pending c Hc hash payload Hp).
    specialize (Hplan {| lr_hash := hash; lr_source := Pending; lr_payload := payload; lr_path := [] |}
      (size_of payload) c eq_refl ltac:(by split) Hc). by destruct (plan_loads hashes _ c) as [[? ?] ?]. }
  destruct (disk c !! hash) as [e|] eqn:Hd; [|split_and!; [done|done|apply prefix_nil]].
  pose proof (ge_disk c Hc hash e Hd) as Hk.
  pose proof (insert_disk_genuine hash (set_de_pins (u64 (de_pins e + 1)) e) c Hk Hc) as H1.
  specialize (Hplan {| lr_hash := hash; lr_source := Disk; lr_payload := []; lr_path := de_path e |}
    (de_payload_bytes e) _ eq_refl ltac:(by destruct Hk as (? & ? & _)) H1). by destruct (plan_loads hashes _ _) as [[? ?] ?].
Qed.

Lemma lost_file_genuine r c : genuine c -> genuine (lost_file r c).
Proof.
  intros Hc. unfold lost_file. after_io. destruct b; [|auto with cache]. destruct (disk _ !! _); auto 10 with cache.
Qed.
#[local] Hint Resolve lost_file_genuine : cache.

(** What was read for a request, if anything. *)
Definition fine_read (rc : LoadRequest * option (list Z)) : Prop :=
  fine_load rc.1 /\ forall p, rc.2 = Some p -> lr_source rc.1 = Disk -> origin (lr_hash rc.1) p.

Lemma settle_loads_genuine requests c :
  Forall fine_read requests -> genuine c ->
  genuine (settle_loads requests c).2 /\
  Forall2 (fun h p => origin h p) (take (length (settle_loads requests c).1) (lr_hash <$> (fst <$> requests)))
    (settle_loads requests c).1.
Proof.
  intros Hr. revert c. induction Hr as [|[r cold] requests [[Hk Hp] Hcold] _ IH]; intros c Hc; [done|].
  cbn [settle_loads fst snd] in *.
  assert (forall payload c', origin (lr_hash r) payload -> genuine c' ->
    let '(payloads, c) := (let '(payloads, c) := settle_loads requests c' in (payload :: payloads, c)) in
    genuine c /\ Forall2 (fun h p => origin h p) (take (length payloads) (lr_hash <$> (fst <$> (r, cold) :: requests))) payloads)
    as Hnext.
  { intros payload c' Ho Hc'. destruct (IH c' Hc') as [H1 H2]. destruct (settle_loads requests c') as [payloads c''].
    cbn [fst snd] in *. split; [done|]. cbn. by constructor. }
  cbn [fst] in Hk, Hp. destruct (lr_source r) eqn:Hs.
  - specialize (Hnext (lr_payload r) (bump HotHits (use_hot (lr_hash r) c)) Hp ltac:(auto with cache)).
    by destruct (settle_loads requests _).
  - specialize (Hnext (lr_payload r) (bump HotHits c) Hp ltac:(auto with cache)).
    by destruct (settle_loads requests _).
  - destruct cold as [payload|]; [|cbn [fst snd]; auto with cache].
    specialize (Hnext payload (bump DiskHits (use_disk (lr_hash r) (put_hot_locked (lr_hash r) payload c)))
      ltac:(by apply Hcold) ltac:(auto 10 with cache)).
    by destruct (settle_loads requests _).
Qed.

Lemma unlease_genuine c r : genuine c -> genuine (unlease c r).
Proof.
  intros Hc. unfold unlease. destruct (lr_source r); [done..|]. destruct (disk c !! lr_hash r) as [e|] eqn:He; [|done].
  destruct (0 <? _); [|done]. apply insert_disk_genuine; [by apply (ge_disk c Hc _ e)|done].
Qed.

Lemma release_genuine requests c : genuine c -> genuine (release_disk_read_pins_locked requests c).
Proof. intros Hc. apply enforce_genuine. apply foldl_keeps; [|done]. intros. by apply unlease_genuine. Qed.
#[local] Hint Resolve release_genuine : cache.

Lemma load_abort_genuine job c : genuine c -> genuine (load_abort job c).
Proof. intros. unfold load_abort. destruct (_ =? _); auto with cache. Qed.

(** ** Pins, limits and the directory *)

Lemma pin_genuine blocks c : genuine c -> genuine (pin blocks c).
Proof.
  apply foldl_keeps. intros c' block Hc. unfold pin_block.
  set (c1 := set_pins _ c'). assert (genuine c1) as H1 by (unfold c1; auto with cache). clearbody c1.
  destruct (disk c1 !! block) as [e|] eqn:He; [|done]. apply insert_disk_genuine; [by apply (ge_disk c1 H1 _ e)|done].
Qed.

Lemma unpin_genuine blocks c : genuine c -> genuine (unpin blocks c).
Proof.
  intros Hc. apply enforce_genuine. apply foldl_keeps; [|done]. intros c' block Hc'. unfold unpin_block.
  set (c1 := match pins c' !! block with Some _ => _ | None => _ end).
  assert (genuine c1) as H1 by (unfold c1; destruct (pins c' !! block); [destruct (_ =? 0)|]; auto with cache).
  clearbody c1. destruct (disk c1 !! block) as [e|] eqn:He; [|done]. destruct (0 <? _); [|done].
  apply insert_disk_genuine; [by apply (ge_disk c1 H1 _ e)|done].
Qed.

Lemma trim_hot_section_genuine target c : genuine c -> genuine (trim_hot target c).2.
Proof. intros. cbn. auto with cache. Qed.

Lemma reserve_ram_genuine allocation ram c : genuine c -> genuine (reserve_ram allocation ram c).2.
Proof. intros. unfold reserve_ram. destruct (reserve_target _ _ _); [by apply trim_hot_section_genuine|done]. Qed.

Lemma set_limits_genuine d h c : genuine c -> genuine (set_limits d h c).
Proof. same. Qed.

Lemma set_hot_limit_genuine h c : genuine c -> genuine (set_hot_limit h c).2.
Proof. intros. by apply trim_hot_section_genuine, set_metric_genuine, set_limits_genuine. Qed.

Lemma set_disk_limit_genuine d c : genuine c -> genuine (set_disk_limit d c).
Proof. unfold set_disk_limit. destruct (_ =? d); [done|same]. Qed.

Lemma refresh_genuine c : genuine c -> genuine (refresh_disk_index c).2.
Proof.
  intros Hc. unfold refresh_disk_index.
  assert (genuine (foldl refresh_entry (0, c) (visit (disk c))).2) as H1.
  { apply (foldl_keeps (fun x => genuine x.2)); [|done]. intros [removed c'] [hash e] Hc'.
    cbn [refresh_entry fst snd] in *. after_io. destruct (negb _); cbn [snd]; auto 10 with cache. }
  destruct (foldl _ _ _). cbn [snd] in *. auto with cache.
Qed.

Lemma clear_file_genuine r e : genuine r.2 -> genuine (clear_file r e).2.
Proof.
  destruct r as [removed c]. intros Hc. unfold clear_file, remove_block. cbn [snd] in Hc.
  after_io. apply io__genuine; auto with cache.
Qed.

Lemma clear_begin_genuine c : genuine c -> genuine (clear_begin c).2.
Proof.
  intros Hc. unfold clear_begin.
  match goal with |- context [foldl clear_file (0, ?t) ?l] =>
    assert (genuine t -> genuine (foldl clear_file (0, t) l).2) as Hg
      by (intros H1; apply (foldl_keeps (fun r => genuine r.2)); [|done]; intros; by apply clear_file_genuine);
    assert (genuine t) as H1; [|destruct (foldl clear_file (0, t) l) as [removed c1]] end.
  { destruct Hc. split; try assumption; cbn; [intros ? ?; by rewrite lookup_empty|]. intros r Hr. set_solver. }
  cbn [snd] in *. apply Hg in H1. destruct H1. split; try assumption; cbn; intros ? ?; by rewrite lookup_empty.
Qed.

(** A scanned entry is at the place of the block its header names. *)
Definition fine_scanned (e : ScannedEntry) : Prop :=
  de_path (sc_entry e) = path_for n (sc_hash e) /\ length (de_parent (sc_entry e)) = 32%nat.

Definition scanning (r : list ScannedEntry * Cache) : Prop := genuine r.2 /\ Forall fine_scanned r.1.

Lemma reject_genuine path c : genuine c -> genuine (reject path c).
Proof. intros. unfold reject, remove_block. auto with cache. Qed.

Lemma scan_entry_genuine t r e : scanning r -> scanning (scan_entry t r e).
Proof.
  destruct r as [scanned c]. intros [Hc Hs]. cbn [fst snd] in *. unfold scan_entry.
  destruct (negb (dir_regular e)); [done|].
  destruct (string_contains _ _); [split; [cbn [snd]; unfold remove_block; auto with cache|done]|].
  destruct (negb (ends_with _ _)); [done|].
  destruct (dir_symlink e) as [[|]|]; [split; [by apply reject_genuine|done]| |done].
  after_io. apply Hio in Hc. rewrite (ge_space c0 Hc).
  destruct (o ≫= _) as [[header rest]|] eqn:Hh; [|split; [by apply reject_genuine|done]].
  destruct (negb _) eqn:Hp; [split; [by apply reject_genuine|done]|].
  apply negb_false_iff, bool_decide_eq_true in Hp. after_io. destruct o0 as [bytes|]; [|split; cbn [fst snd]; auto].
  destruct (_ || _); [split; cbn [fst snd]; [apply reject_genuine; auto|done]|]. split; cbn [fst snd]; [auto|].
  apply Forall_app. split; [done|]. apply Forall_singleton. split; [done|]. cbn.
  destruct o as [contents|]; [|done]. by eapply read_header_parent.
Qed.

(** A directory is indexed under any hashes that are known. *)
Lemma open_directory_genuine order t listing c :
  (forall h, known h) -> (forall l, order l ≡ₚ l) -> genuine c -> genuine (open_directory order t listing c).
Proof.
  intros Hall Horder Hc. unfold open_directory.
  assert (scanning (foldl (scan_entry t) ([], c) listing)) as H1.
  { apply (foldl_keeps scanning); [|done]. intros. by apply scan_entry_genuine. }
  destruct (foldl _ _ _) as [scanned c1]. destruct H1 as [H1 Hs]. cbn [fst snd] in *.
  rewrite <- (Horder scanned) in Hs.
  apply sync_metrics_genuine, enforce_genuine. revert c1 H1.
  induction Hs as [|e l [Hpath Hparent] _ IH]; intros c2 H2; cbn [foldl]; [done|]. apply IH. unfold index_scanned.
  apply tick_genuine in H2. set (c3 := tick c2) in *. clearbody c3.
  destruct (disk c3 !! sc_hash e); [done|]. apply remember_tail_genuine.
  pose proof (insert_disk_genuine (sc_hash e) (set_de_last_used (clock c3) (sc_entry e)) c3
    (conj (Hall _) (conj Hpath Hparent)) H2) as H4.
  revert H4; same.
Qed.

Lemma empty_genuine g w : space g = n -> honest w -> genuine (empty_cache g w).
Proof. intros Hg Hw. split; cbn; try done; try (intros ? ?; by rewrite lookup_empty). intros r Hr. set_solver. Qed.

End Genuine.

(** ** An opened directory has only blocks on disk *)

Section Dry.
Context `{Visits}.

Definition dry (c : Cache) : Prop := hot c = ∅ /\ pending c = ∅ /\ deferred c = ∅ /\ writes c = [].

Ltac still := intros (? & ? & ? & ?); split_and!; assumption.

Lemma bump_dry k c : dry c -> dry (bump k c).
Proof. still. Qed.
Lemma io_dry {A} (m : M World A) failed c : dry c -> dry (io m failed c).2.
Proof. unfold io. destruct (m (world c)) as [[?|?] ?]; still. Qed.
Lemma io__dry {A} (m : M World A) c : dry c -> dry (io_ m c).
Proof. still. Qed.
Lemma drop_disk_dry hash c : dry c -> dry (drop_disk hash c).
Proof. unfold drop_disk. destruct (disk c !! hash); [still|done]. Qed.
Lemma forget_tail_dry hash c : dry c -> dry (forget_tail_if_unused_locked hash c).
Proof.
  unfold forget_tail_if_unused_locked. destruct (_ || _); [done|].
  destruct (tail_metadata c !! hash) as [[? ?]|]; [still|done].
Qed.
Lemma remember_tail_dry hash parent count c : dry c -> dry (remember_tail_locked hash parent count c).
Proof. unfold remember_tail_locked. destruct (_ || _); [done|still]. Qed.
Lemma defer_again_dry hash e c : dry c -> dry (defer_again hash e c).
Proof. intros Hc. pose proof Hc as (Eh & _). unfold defer_again. by rewrite Eh, lookup_empty. Qed.
#[local] Hint Resolve bump_dry io_dry io__dry drop_disk_dry forget_tail_dry remember_tail_dry defer_again_dry : cache.

Lemma enforce_dry c : dry c -> dry (enforce c).
Proof.
  intros Hc. unfold enforce, enforce_disk_budget_locked, effective_disk_budget_locked.
  pose proof (io_dry fs_space None c Hc) as H1. destruct (io fs_space None c) as [o c1]. cbn [snd] in H1.
  set (p := match o with Some _ => _ | None => _ end).
  assert (p.2 = c1) as Hp by (subst p; destruct o; [destruct (unreserved_disk_space _ _)|]; done).
  destruct p as [budget c2]. cbn [snd] in Hp. subst c2.
  assert (forall fuel target maximum evicted c, dry c -> dry (evict_loop fuel target maximum evicted c).2) as Hloop.
  { clear. intros fuel target maximum. induction fuel as [|fuel IH]; intros evicted c Hc; cbn [evict_loop]; [done|].
    destruct (target <? disk_bytes c); [|done]. destruct (disk_victim c) as [[hash e]|]; [|done].
    pose proof (io_dry (fs_remove (de_path e)) true c Hc) as H1. unfold remove_block.
    destruct (io _ _ _) as [error c1]. cbn [snd] in H1. destruct error; [done|].
    assert (dry (evict_disk hash e c1)) by (unfold evict_disk; auto 10 with cache).
    destruct (maximum <=? _); [done|by apply IH]. }
  specialize (Hloop (base.size (disk c1)) (if budget <=? 0 then 0 else budget - 0) u64_max 0 c1 H1).
  destruct (evict_loop _ _ _ _ _). cbn [snd] in *. revert Hloop. still.
Qed.

Lemma reject_dry path c : dry c -> dry (reject path c).
Proof. intros. unfold reject, remove_block. auto with cache. Qed.

Lemma scan_entry_dry t r e : dry r.2 -> dry (scan_entry t r e).2.
Proof.
  destruct r as [scanned c]. cbn [snd]. intros Hc. unfold scan_entry.
  destruct (negb (dir_regular e)); [done|].
  destruct (string_contains _ _); [cbn [snd]; unfold remove_block; auto with cache|].
  destruct (negb (ends_with _ _)); [done|]. destruct (dir_symlink e) as [[|]|]; [by apply reject_dry| |done].
  pose proof (io_dry (fs_read (dir_path e)) None c Hc) as H1. destruct (io _ _ _) as [o c1]. cbn [snd] in H1.
  destruct (o ≫= _) as [[header ?]|]; [|by apply reject_dry]. destruct (negb _); [by apply reject_dry|].
  pose proof (io_dry (fs_file_size (dir_path e)) None c1 H1) as H2. destruct (io _ _ c1) as [o' c2]. cbn [snd] in H2.
  destruct o'; [|done]. destruct (_ || _); [by apply reject_dry|done].
Qed.

Lemma open_directory_dry order t listing g w : dry (open_directory order t listing (empty_cache g w)).
Proof.
  unfold open_directory.
  assert (dry (foldl (scan_entry t) ([], empty_cache g w) listing).2) as H1
    by (apply (foldl_keeps (fun r => dry r.2)); [intros; by apply scan_entry_dry|done]).
  destruct (foldl _ _ _) as [scanned c1]. cbn [snd] in H1.
  assert (dry (foldl index_scanned c1 (order scanned))) as H2.
  { apply foldl_keeps; [|done]. intros c2 e (? & ? & ? & ?). unfold index_scanned.
    destruct (disk (tick c2) !! sc_hash e); [by split_and!|]. by apply remember_tail_dry. }
  apply enforce_dry in H2. revert H2. still.
Qed.
End Dry.
