(* ===== verification/PrefixCacheSteps.v ===== *)
(** * Runs of the prefix cache

    The threads of [PagedPrefixCache] as steps: each action is one section under the mutex
    of [PrefixCache], one write or read of a file outside it, or a change of the files and
    the volume by others. [cache_accounts], [loads_are_genuine] and [match_is_stored] hold
    after any sequence of actions. *)

From stdpp Require Import base list gmap strings relations.
From Stdlib Require Import ZArith Lia.
From S2P Require Import Prelude Sha256 LittleEndian BlockFile BlockStore PrefixCache PrefixCacheInv PrefixCacheGenuine.

#[local] Set Default Proof Using "Type".
#[local] Open Scope Z_scope.

(** A write on its way: before the file, after it, and after [finish_write]. *)
Inductive Phase := Writing (r : WriteRequest) | Wrote (r : WriteRequest) (success : bool) | Finished.

(** A load on its way, with what was read for each request so far. *)
Record Loading := { ld_job : LoadJob; ld_cold : list (option (option (list Z))) }.

(** A block as its caller gave it. *)
Record StoredBlock := { sb_parent : BlockHash; sb_tokens : list Z; sb_extra : list Z; sb_payload : list Z }.

(** The history: [sys_stored] is the blocks given to [store] and [replace]; [sys_foreign],
    the contents of the files that were there when the directory was opened or that others
    put there since. *)
Record System := {
  sys_cache : Cache;
  sys_flight : list Phase;
  sys_loads : list Loading;
  sys_stored : list StoredBlock;
  sys_foreign : list (list Z);
}.

Inductive Action :=
  | AStore (parent : BlockHash) (tokens : list Z) (payload : option (list Z)) (extra : list Z) (replace_existing : bool)
      (ram : option Z)
  | ATurn (ram : option Z)
  | AWrite (i : nat) (tick counter : N)
  | AFinish (i : nat) (tick : N)
  | AEnd (i : nat)
  | ALoad (hashes : list BlockHash)
  | ARead (i j : nat)
  | ALoadEnd (i : nat)
  | AAbort (i : nat)
  | AMatch (parent : BlockHash) (tokens extra : list Z)
  | ARecord (matched : Z)
  | APin (blocks : list BlockHash)
  | AUnpin (blocks : list BlockHash)
  | ATrim (target : Z)
  | AReserve (allocation : Z) (ram : option Z)
  | AHotLimit (max_bytes : Z)
  | ADiskLimit (max_bytes : Z)
  | ARefresh
  | AInvalidate (hash : BlockHash)
  | AClear
  | AClearEnd
  | AWorld (w : World).

Section Steps.
Context `{Visits}.

Definition at_cache (c : Cache) (s : System) : System :=
  {| sys_cache := c; sys_flight := sys_flight s; sys_loads := sys_loads s; sys_stored := sys_stored s;
     sys_foreign := sys_foreign s |}.
Definition at_flight (l : list Phase) (s : System) : System :=
  {| sys_cache := sys_cache s; sys_flight := l; sys_loads := sys_loads s; sys_stored := sys_stored s;
     sys_foreign := sys_foreign s |}.
Definition at_loads (l : list Loading) (s : System) : System :=
  {| sys_cache := sys_cache s; sys_flight := sys_flight s; sys_loads := l; sys_stored := sys_stored s;
     sys_foreign := sys_foreign s |}.
Definition remember (b : StoredBlock) (s : System) : System :=
  {| sys_cache := sys_cache s; sys_flight := sys_flight s; sys_loads := sys_loads s; sys_stored := b :: sys_stored s;
     sys_foreign := sys_foreign s |}.
(** What the files of a world hold that were not so in another. *)
Definition new_contents (before after : World) : list (list Z) :=
  (filter (fun x => files before !! x.1 <> Some x.2) (map_to_list (files after))).*2.
Definition contents_of (w : World) : list (list Z) := (map_to_list (files w)).*2.
Definition found_files (w : World) (s : System) : System :=
  {| sys_cache := set_world w (sys_cache s); sys_flight := sys_flight s; sys_loads := sys_loads s;
     sys_stored := sys_stored s; sys_foreign := new_contents (world (sys_cache s)) w ++ sys_foreign s |}.

Definition namespace (s : System) : Namespace := space (config (sys_cache s)).

(** What the types of the arguments say. *)
Definition typed (parent : BlockHash) (tokens extra : list Z) : bool :=
  (length parent =? 32)%nat && forallb (fun t => (- 2 ^ 63 <=? t) && (t <=? s64_max)) tokens &&
  (size_of extra <=? u64_max).

Definition typed_block (b : StoredBlock) : bool := typed (sb_parent b) (sb_tokens b) (sb_extra b).

Definition do_store (parent : BlockHash) (tokens : list Z) (payload : option (list Z)) (extra : list Z)
    (replace_existing : bool) (ram : option Z) (s : System) : option System :=
  let c := sys_cache s in
  match block_hash (space (config c)) parent tokens extra, payload with
  | Ok hash, Some p =>
      if store_ready hash replace_existing c && typed parent tokens extra then
        let '(result, c) := store parent tokens payload extra replace_existing ram c in
        let s := remember {| sb_parent := parent; sb_tokens := tokens; sb_extra := extra; sb_payload := p |} (at_cache c s) in
        Some (match result with
              | Ok (_, Inline r) => at_flight (sys_flight s ++ [Writing r]) s
              | _ => s
              end)
      else None
  | _, _ => Some (at_cache (store parent tokens payload extra replace_existing ram c).2 s)
  end.

Definition do_read (i j : nat) (s : System) : option System :=
  match sys_loads s !! i with
  | None => None
  | Some l =>
      match lj_requests (ld_job l) !! j with
      | None => None
      | Some r =>
          let '(cold, c) := io (read_cold (namespace s) r) None (sys_cache s) in
          Some (at_loads (<[i := {| ld_job := ld_job l; ld_cold := <[j := Some cold]> (ld_cold l) |}]> (sys_loads s))
                 (at_cache c s))
      end
  end.

(** What was read, once everything is. *)
Definition all_read (l : Loading) : option (list (option (list Z))) := mapM id (ld_cold l).

Definition guard_with (b : bool) (s : System) : option System := if b then Some s else None.

Definition perform (a : Action) (s : System) : option System :=
  let c := sys_cache s in
  match a with
  | AStore parent tokens payload extra replace_existing ram => do_store parent tokens payload extra replace_existing ram s
  | ATurn ram =>
      let '(r, c) := writer_turn ram c in
      Some (at_flight (sys_flight s ++ match r with Some r => [Writing r] | None => [] end) (at_cache c s))
  | AWrite i tick counter =>
      match sys_flight s !! i with
      | Some (Writing r) =>
          let '(success, c) := write_request tick counter r c in
          Some (at_flight (<[i := Wrote r success]> (sys_flight s)) (at_cache c s))
      | _ => None
      end
  | AFinish i tick =>
      match sys_flight s !! i with
      | Some (Wrote r success) =>
          Some (at_flight (<[i := Finished]> (sys_flight s)) (at_cache (finish_write tick r success c) s))
      | _ => None
      end
  | AEnd i =>
      match sys_flight s !! i with
      | Some Finished => Some (at_flight (delete i (sys_flight s)) (at_cache (write_ended c) s))
      | _ => None
      end
  | ALoad hashes =>
      let '(job, c) := load_begin hashes c in
      Some (at_loads (sys_loads s ++ [{| ld_job := job; ld_cold := replicate (length (lj_requests job)) None |}])
             (at_cache c s))
  | ARead i j => do_read i j s
  | ALoadEnd i =>
      match sys_loads s !! i with
      | Some l =>
          match all_read l with
          | Some cold => Some (at_loads (delete i (sys_loads s)) (at_cache (load_finish (ld_job l) cold c).2 s))
          | None => None
          end
      | None => None
      end
  | AAbort i =>
      match sys_loads s !! i with
      | Some l => Some (at_loads (delete i (sys_loads s)) (at_cache (load_abort (ld_job l) c) s))
      | None => None
      end
  | AMatch parent tokens extra => Some (at_cache (match_block parent tokens extra c).2 s)
  | ARecord matched => Some (at_cache (record_match matched c) s)
  | APin blocks => Some (at_cache (pin blocks c) s)
  | AUnpin blocks => Some (at_cache (unpin blocks c) s)
  | ATrim target => Some (at_cache (trim_hot target c).2 s)
  | AReserve allocation ram => Some (at_cache (reserve_ram allocation ram c).2 s)
  | AHotLimit max_bytes => guard_with ((0 <=? max_bytes) && (max_bytes <? 2 ^ 63)) (at_cache (set_hot_limit max_bytes c).2 s)
  | ADiskLimit max_bytes => Some (at_cache (set_disk_limit max_bytes c) s)
  | ARefresh => guard_with (quiescent c) (at_cache (refresh_disk_index c).2 s)
  | AInvalidate hash => guard_with (invalidate_ready hash c) (at_cache (invalidate hash c).2 s)
  | AClear => guard_with (clear_ready c) (at_cache (clear_begin c).2 s)
  | AClearEnd => guard_with (clearing c && clear_end_ready c) (at_cache (clear_end c) s)
  | AWorld w => Some (found_files w s)
  end.

Definition step (s s' : System) : Prop := exists a, perform a s = Some s'.

(** ** Where a run begins *)

Definition hash_of (n : Namespace) (b : StoredBlock) : outcome BlockHash :=
  block_hash n (sb_parent b) (sb_tokens b) (sb_extra b).

(** A hash of a block in the history. *)
Definition known_in (n : Namespace) (stored : list StoredBlock) (h : BlockHash) : Prop :=
  exists b, b ∈ stored /\ hash_of n b = Ok h.

(** A payload given for a block of this hash, or that of a file from elsewhere. *)
Definition origin_in (n : Namespace) (stored : list StoredBlock) (foreign : list (list Z)) (h : BlockHash) (p : list Z) :
    Prop :=
  (exists b, b ∈ stored /\ hash_of n b = Ok h /\ sb_payload b = p) \/
  exists contents, contents ∈ foreign /\ read_payload n contents h = Some p.

(** The cache of an opened directory, whose files are of the blocks in [stored]. *)
Inductive starts (g : Config) : System -> Prop :=
  | Starts given order time_min listing w stored :
      make_config given false false = Ok g -> 0 <= block_size_tokens (space g) -> limits_ok g ->
      (forall l, order l ≡ₚ l) ->
      length (compatibility_hash (space g)) = 32%nat -> Forall (fun b => typed_block b = true) stored ->
      let c := open_directory order time_min listing (empty_cache g w) in
      (forall h, disk c !! h <> None -> known_in (space g) stored h) ->
      starts g {| sys_cache := c; sys_flight := []; sys_loads := []; sys_stored := stored; sys_foreign := contents_of w |}.

Definition reaches (g : Config) (s : System) : Prop := exists s0, starts g s0 /\ rtc step s0 s.

(** A sequence of actions; one whose guard does not hold is left out. *)
Definition run_from (l : list Action) (s : System) : System := foldl (fun s a => default s (perform a s)) s l.

Lemma run_reaches g l s : reaches g s -> reaches g (run_from l s).
Proof.
  revert s. induction l as [|a l IH]; intros s Hs; [done|]. apply IH.
  destruct (perform a s) as [s'|] eqn:Ha; [|done]. destruct Hs as (s0 & H0 & Hrun).
  exists s0. split; [done|]. eapply rtc_r; [done|]. by exists a.
Qed.

(** ** The invariant of a run *)

Lemma genuine_mono n (known known' : BlockHash -> Prop) (origin origin' : BlockHash -> list Z -> Prop) c :
  (forall h, known h -> known' h) -> (forall h p, origin h p -> origin' h p) ->
  genuine n known origin c -> genuine n known' origin' c.
Proof.
  intros Hk Ho [Hn Hf Hd Hh Hp Hr Hw]. split.
  - done.
  - intros h contents p Hh' Hc Hread. by eapply Ho, Hf.
  - intros h e He. destruct (Hd h e He) as (? & ? & ?). split_and!; auto.
  - intros h e He. destruct (Hh h e He). auto.
  - intros h p Hpp. destruct (Hp h p Hpp). split; auto.
  - intros h r Hrr. destruct (Hr h r Hrr) as (? & ? & ? & ?). repeat split; auto.
  - intros r Hrr. destruct (Hw r Hrr) as (? & ? & ?). repeat split; auto.
Qed.

Section Fine.
Context (n : Namespace) (stored : list StoredBlock) (foreign : list (list Z)).

Definition fine_phase (ph : Phase) : Prop :=
  match ph with
  | Writing r | Wrote r _ => fine_request (known_in n stored) (origin_in n stored foreign) r
  | Finished => True
  end.

Record fine_loading (l : Loading) : Prop := {
  fl_length : length (ld_cold l) = length (lj_requests (ld_job l));
  fl_requests : Forall (fine_load n (known_in n stored) (origin_in n stored foreign)) (lj_requests (ld_job l));
  fl_cold : forall j r p, lj_requests (ld_job l) !! j = Some r -> ld_cold l !! j = Some (Some (Some p)) ->
              origin_in n stored foreign (lr_hash r) p;
}.

Definition counted (c : Cache) : Prop :=
  exists g, limits_ok g /\ space g = n /\ accounted g (max_hot_bytes g) c.

(** The cache holds the blocks of the history. *)
Definition holds (c : Cache) : Prop := genuine n (known_in n stored) (origin_in n stored foreign) c.
End Fine.

Record sys_ok (n : Namespace) (s : System) : Prop := {
  ok_counted : counted n (sys_cache s);
  ok_genuine : holds n (sys_stored s) (sys_foreign s) (sys_cache s);
  ok_flight : Forall (fine_phase n (sys_stored s) (sys_foreign s)) (sys_flight s);
  ok_loads : Forall (fine_loading n (sys_stored s) (sys_foreign s)) (sys_loads s);
  ok_typed : Forall (fun b => typed_block b = true) (sys_stored s);
  ok_compatible : length (compatibility_hash n) = 32%nat;
}.

Lemma counted_space n c : counted n c -> space (config c) = n.
Proof. intros (g & _ & <- & Hc). by rewrite (ac_config _ _ _ Hc). Qed.

(** An operation on the cache alone, for every configuration. *)
Lemma counted_by (f : Cache -> Cache) n c :
  (forall g, limits_ok g -> accounted g (max_hot_bytes g) c -> accounted g (max_hot_bytes g) (f c)) ->
  counted n c -> counted n (f c).
Proof. intros Hf (g & Hl & Hn & Hc). exists g. auto. Qed.

Lemma at_cache_ok n c s :
  sys_ok n s -> counted n c -> holds n (sys_stored s) (sys_foreign s) c -> sys_ok n (at_cache c s).
Proof. intros [_ _ Hf Hl Ht Hn] Hc Hg. by split. Qed.

(** The same operation, for accounts and blocks at once. *)
Lemma cache_step_ok (f : Cache -> Cache) n s :
  (forall g c, limits_ok g -> accounted g (max_hot_bytes g) c -> accounted g (max_hot_bytes g) (f c)) ->
  (forall known origin c, genuine n known origin c -> genuine n known origin (f c)) ->
  sys_ok n s -> sys_ok n (at_cache (f (sys_cache s)) s).
Proof.
  intros Ha Hg Hs. apply at_cache_ok; [done| |apply Hg, Hs].
  apply counted_by; [|apply Hs]. intros. by apply Ha.
Qed.

Lemma hoare_run {A} (m : M Cache A) (P : Cache -> Prop) c : hoare P m (fun _ => P) P -> P c -> P (m c).2.
Proof. intros Hm Hc. specialize (Hm c Hc). by destruct (m c) as [[?|?] ?]. Qed.

Lemma known_mono n stored stored' h : stored ⊆ stored' -> known_in n stored h -> known_in n stored' h.
Proof. intros Hs (b & Hb & Hh). exists b. auto. Qed.

Lemma origin_mono n stored stored' foreign foreign' h p :
  stored ⊆ stored' -> foreign ⊆ foreign' -> origin_in n stored foreign h p -> origin_in n stored' foreign' h p.
Proof. intros Hs Hf [(b & Hb & Hh)|(contents & Hc & Hr)]; [left; exists b; auto|right; exists contents; auto]. Qed.

(** A longer history. *)
Lemma history_ok n s stored foreign :
  sys_stored s ⊆ stored -> sys_foreign s ⊆ foreign -> Forall (fun b => typed_block b = true) stored ->
  sys_ok n s ->
  sys_ok n {| sys_cache := sys_cache s; sys_flight := sys_flight s; sys_loads := sys_loads s; sys_stored := stored;
              sys_foreign := foreign |}.
Proof.
  intros Hstored Hforeign Ht [Hc Hg Hf Hl _ Hn].
  assert (forall h, known_in n (sys_stored s) h -> known_in n stored h) as Hk by (intros h; by apply known_mono).
  assert (forall h p, origin_in n (sys_stored s) (sys_foreign s) h p -> origin_in n stored foreign h p) as Ho
    by (intros h p; by apply origin_mono).
  split; cbn; [done| | | |done|done].
  - by eapply genuine_mono; [exact Hk|exact Ho|].
  - eapply Forall_impl; [exact Hf|]. intros [r|r ?|] Hr; [..|done]; destruct Hr as (? & ? & ?); repeat split; auto.
  - eapply Forall_impl; [exact Hl|]. intros l [Hlen Hr Hcold]. split; [done| |].
    + eapply Forall_impl; [exact Hr|]. intros r [? Hp]. split; [auto|]. destruct (lr_source r); auto.
    + intros. eapply Ho, Hcold; done.
Qed.

Lemma remember_ok n b s : typed_block b = true -> sys_ok n s -> sys_ok n (remember b s).
Proof.
  intros Hb Hs. apply (history_ok n s (b :: sys_stored s) (sys_foreign s)); [set_solver|done| |done].
  constructor; [done|apply Hs].
Qed.

Lemma typed_spec parent tokens extra :
  typed parent tokens extra = true <-> length parent = 32%nat /\ Forall in_s64 tokens /\ size_of extra <= u64_max.
Proof.
  unfold typed. rewrite !andb_true_iff, Nat.eqb_eq, forallb_forall, Z.leb_le, Forall_forall.
  split; intros H1; (destruct H1 as [[? Ht] ?] || destruct H1 as (? & Ht & ?)); split_and!; try done;
    intros t Hin; specialize (Ht t); rewrite list_elem_of_In in *; specialize (Ht Hin).
  - apply andb_prop in Ht as [?%Z.leb_le ?%Z.leb_le]. by split.
  - destruct Ht. apply andb_true_intro. split; by apply Z.leb_le.
Qed.

Lemma block_hash_ok n parent tokens extra hash :
  block_hash n parent tokens extra = Ok hash -> hash = sha256 (block_message n parent tokens extra) /\ is_hash hash.
Proof.
  rewrite block_hash_message. destruct (_ || _); [done|]. intros [= <-]. split; [done|]. apply sha256_bytes.
Qed.

Lemma known_is_hash n stored h : known_in n stored h -> is_hash h.
Proof. intros (b & _ & [_ Hh]%block_hash_ok). done. Qed.

(** ** Every action keeps it *)

Lemma store_refused n known origin parent tokens payload extra replace ram c :
  (forall hash p, payload = Some p -> block_hash (space (config c)) parent tokens extra <> Ok hash) ->
  genuine n known origin c -> genuine n known origin (store parent tokens payload extra replace ram c).2.
Proof.
  intros Hno Hc. pose proof (store_genuine n known origin parent tokens payload extra replace ram c
    (fun hash p Hp Hh => False_ind _ (Hno hash p Hp Hh)) Hc) as Hg.
  destruct (store parent tokens payload extra replace ram c) as [[[hash after]|e] c']; [by destruct Hg|done].
Qed.

Lemma store_action_ok n parent tokens payload extra replace ram s s' :
  sys_ok n s -> do_store parent tokens payload extra replace ram s = Some s' -> sys_ok n s'.
Proof.
  intros Hs. unfold do_store. rewrite (counted_space n) by apply Hs.
  assert (counted n (store parent tokens payload extra replace ram (sys_cache s)).2) as Hcount.
  { destruct (ok_counted _ _ Hs) as (g & Hl & Hn & Hc). exists g. split_and!; [done..|].
    apply (hoare_run _ (accounted g (max_hot_bytes g))); [by apply store_accounted|done]. }
  destruct (block_hash n parent tokens extra) as [hash|e] eqn:Hb.
  2: { intros [= <-]. apply at_cache_ok; [done..|]. apply store_refused; [|apply Hs].
       intros h p _. rewrite (counted_space n) by apply Hs. by rewrite Hb. }
  destruct payload as [p|].
  2: { intros [= <-]. apply at_cache_ok; [done|done|apply Hs]. }
  destruct (store_ready hash replace (sys_cache s) && typed parent tokens extra) eqn:Hready; [|done].
  apply andb_prop in Hready as [_ Htyped].
  set (b := {| sb_parent := parent; sb_tokens := tokens; sb_extra := extra; sb_payload := p |}).
  pose proof (remember_ok n b s Htyped Hs) as Hr.
  assert (known_in n (b :: sys_stored s) hash) as Hk by (exists b; split; [by left|done]).
  assert (origin_in n (b :: sys_stored s) (sys_foreign s) hash p) as Ho by (left; exists b; split_and!; [by left|done..]).
  assert (length parent = 32%nat) as Hparent by (by apply typed_spec in Htyped as [? _]).
  pose proof (store_genuine n _ _ parent tokens (Some p) extra replace ram (sys_cache s)
    ltac:(rewrite (counted_space n) by apply Hs; intros h q [= <-] Hh; rewrite Hb in Hh; injection Hh as <-; by split_and!)
    (ok_genuine _ _ Hr)) as Hg.
  destruct (store parent tokens (Some p) extra replace ram (sys_cache s)) as [result c']. cbn [snd] in Hcount.
  intros [= <-]. destruct Hr as [_ _ Hf Hl Ht Hn].
  destruct result as [[h [| | |r]]|e]; try (destruct Hg as (Hg & _ & Hafter)); split; try done.
  cbn. apply Forall_app. split; [done|]. by apply Forall_singleton.
Qed.

Lemma forall_insert {A} (P : A -> Prop) l i x : Forall P l -> P x -> Forall P (<[i := x]> l).
Proof. intros Hl Hx. by apply Forall_insert. Qed.

Lemma forall_at {A} (P : A -> Prop) l i x : Forall P l -> l !! i = Some x -> P x.
Proof. intros Hl Hx. by apply (Forall_lookup_1 P l i x). Qed.

Lemma turn_ok n ram s s' : sys_ok n s -> perform (ATurn ram) s = Some s' -> sys_ok n s'.
Proof.
  intros Hs. cbn [perform].
  assert (counted n (writer_turn ram (sys_cache s)).2) as Hcount
    by (apply (counted_by (fun c => (writer_turn ram c).2)); [intros; by apply writer_turn_accounted|apply Hs]).
  pose proof (writer_turn_genuine n _ _ ram _ (ok_genuine _ _ Hs)) as [Hg Hr].
  destruct (writer_turn ram (sys_cache s)) as [[r|] c]; cbn [fst snd] in *; intros [= <-];
    (split; cbn; [done|done| |apply Hs..]); apply Forall_app; (split; [apply Hs|]); [|done].
  apply Forall_singleton. by apply Hr.
Qed.

Lemma write_ok n i tick counter s s' : sys_ok n s -> perform (AWrite i tick counter) s = Some s' -> sys_ok n s'.
Proof.
  intros Hs. cbn [perform]. destruct (sys_flight s !! i) as [[r|r ?|]|] eqn:Hi; [|done..].
  pose proof (forall_at _ _ _ _ (ok_flight _ _ Hs) Hi) as Hr.
  assert (counted n (write_request tick counter r (sys_cache s)).2) as Hcount
    by (apply (counted_by (fun c => (write_request tick counter r c).2)); [intros; by apply write_request_accounted|apply Hs]).
  pose proof (known_is_hash _ _ _ (proj1 Hr)) as Hh.
  pose proof (write_request_genuine n _ _ tick counter r _ (ok_compatible _ _ Hs) Hh Hr (ok_genuine _ _ Hs)) as Hg.
  destruct (write_request tick counter r (sys_cache s)) as [b c]. intros [= <-].
  split; cbn; [done|done| |apply Hs..]. apply forall_insert; [apply Hs|done].
Qed.

Lemma finish_ok n i tick s s' : sys_ok n s -> perform (AFinish i tick) s = Some s' -> sys_ok n s'.
Proof.
  intros Hs. cbn [perform]. destruct (sys_flight s !! i) as [[r|r b|]|] eqn:Hi; [done| |done..].
  pose proof (forall_at _ _ _ _ (ok_flight _ _ Hs) Hi) as Hr. intros [= <-]. split; cbn.
  - apply (counted_by (finish_write tick r b)); [intros; by apply finish_write_accounted|apply Hs].
  - apply finish_write_genuine; [by eapply known_is_hash, Hr|done|apply Hs].
  - apply forall_insert; [apply Hs|done].
  - apply Hs.
  - apply Hs.
  - apply Hs.
Qed.

Lemma end_ok n i s s' : sys_ok n s -> perform (AEnd i) s = Some s' -> sys_ok n s'.
Proof.
  intros Hs. cbn [perform]. destruct (sys_flight s !! i) as [[r|r b|]|]; try done. intros [= <-]. split; cbn.
  - apply (counted_by write_ended); [intros; by apply set_active_accounted|apply Hs].
  - apply set_active_genuine, Hs.
  - apply Forall_delete, Hs.
  - apply Hs.
  - apply Hs.
  - apply Hs.
Qed.

Lemma load_ok n hashes s s' : sys_ok n s -> perform (ALoad hashes) s = Some s' -> sys_ok n s'.
Proof.
  intros Hs. cbn [perform]. unfold load_begin.
  assert (counted n (plan_loads hashes 0 (sys_cache s)).2) as Hcount
    by (apply (counted_by (fun c => (plan_loads hashes 0 c).2)); [intros; by apply plan_loads_accounted|apply Hs]).
  pose proof (plan_loads_genuine n _ _ hashes 0 _ (ok_genuine _ _ Hs)) as (Hg & Hr & _).
  destruct (plan_loads hashes 0 (sys_cache s)) as [[requests bytes] c]. cbn [fst snd] in *. intros [= <-].
  split; cbn; [done|done|apply Hs| |apply Hs..]. apply Forall_app. split; [apply Hs|]. apply Forall_singleton.
  split; cbn; [apply length_replicate|done|]. intros j r p _ [[=] _]%lookup_replicate.
Qed.

Lemma fs_read_answer q w contents : (fs_read q w).1 = Ok (Some contents) -> files w !! q = Some contents.
Proof. unfold fs_read, call. destruct (faults w) as [|[]]; cbn; congruence. Qed.

Lemma read_ok n i j s s' : sys_ok n s -> do_read i j s = Some s' -> sys_ok n s'.
Proof.
  intros Hs. unfold do_read. destruct (sys_loads s !! i) as [l|] eqn:Hi; [|done].
  destruct (lj_requests (ld_job l) !! j) as [r|] eqn:Hj; [|done]. unfold namespace. rewrite (counted_space n) by apply Hs.
  pose proof (forall_at _ _ _ _ (ok_loads _ _ Hs) Hi) as [Hlen Hr Hcold].
  pose proof (forall_at _ _ _ _ Hr Hj) as [Hknown Hpath].
  assert (forall p, (io (read_cold n r) None (sys_cache s)).1 = Some p ->
    origin_in n (sys_stored s) (sys_foreign s) (lr_hash r) p) as Hread.
  { intros p. unfold io, read_cold. destruct (lr_source r); cbn; [done..|]. unfold mbind, M_bind.
    pose proof (fs_read_answer (lr_path r) (world (sys_cache s))) as Ha.
    destruct (fs_read _ _) as [[contents|?] w]; cbn; [|done]. destruct contents as [contents|]; [|done].
    apply (ge_files _ _ _ _ (ok_genuine _ _ Hs)); [by eapply known_is_hash|]. rewrite <- Hpath. by apply Ha. }
  assert (counted n (io (read_cold n r) None (sys_cache s)).2) as Hcount
    by (apply (counted_by (fun c => (io (read_cold n r) None c).2)); [intros; by apply io_accounted|apply Hs]).
  pose proof (io_genuine n _ _ (read_cold n r) None _ (read_cold_keeps _ _ r) (ok_genuine _ _ Hs)) as Hg.
  destruct (io (read_cold n r) None (sys_cache s)) as [cold c]. cbn [fst snd] in *. intros [= <-].
  split; cbn; [done|done|apply Hs| |apply Hs..]. apply forall_insert; [apply Hs|]. split; cbn; [by rewrite length_insert|done|].
  intros j' r' p Hj' Hp. apply list_lookup_insert_Some in Hp as [(<- & [= ->] & _)|[_ Hp]].
  - rewrite Hj in Hj'. injection Hj' as <-. by apply Hread.
  - by apply (Hcold j').
Qed.

(** What a finished load returns for each hash. *)
Lemma load_end_fine n stored foreign l cold c :
  fine_loading n stored foreign l -> all_read l = Some cold -> holds n stored foreign c ->
  holds n stored foreign (load_finish (ld_job l) cold c).2 /\
  Forall2 (origin_in n stored foreign) (take (length (load_finish (ld_job l) cold c).1) (lr_hash <$> lj_requests (ld_job l)))
    (load_finish (ld_job l) cold c).1.
Proof.
  intros [Hlen Hr Hcold] Hall Hc. unfold all_read in Hall. apply mapM_Some_1 in Hall.
  unfold load_finish. destruct (negb _); [cbn; done|].
  assert (length cold = length (lj_requests (ld_job l))) as Hlen' by (rewrite <- Hlen; symmetry; by apply Forall2_length in Hall).
  assert (Forall (fine_read n (known_in n stored) (origin_in n stored foreign)) (zip (lj_requests (ld_job l)) cold)) as Hz.
  { apply Forall_lookup. intros j [r o] Hj. apply lookup_zip_with_Some in Hj as (r' & o' & [= <- <-] & Hj & Ho).
    split; [by apply (forall_at _ _ _ _ Hr Hj)|]. cbn. intros p -> _. apply (Hcold j r p Hj).
    apply (Forall2_lookup_r _ _ _ _ _ Hall) in Ho as (x & Hx & Hid). unfold id in Hid. by subst x. }
  pose proof (settle_loads_genuine n _ _ _ c Hz Hc) as [Hg Hp].
  destruct (settle_loads _ c) as [payloads c']. cbn [fst snd] in *.
  split; [by apply release_genuine|]. rewrite fst_zip in Hp by lia. done.
Qed.

Lemma load_end_ok n i s s' : sys_ok n s -> perform (ALoadEnd i) s = Some s' -> sys_ok n s'.
Proof.
  intros Hs. cbn [perform]. destruct (sys_loads s !! i) as [l|] eqn:Hi; [|done].
  destruct (all_read l) as [cold|] eqn:Hall; [|done]. intros [= <-].
  pose proof (forall_at _ _ _ _ (ok_loads _ _ Hs) Hi) as Hl. split; cbn.
  - apply (counted_by (fun c => (load_finish (ld_job l) cold c).2)); [intros; by apply load_finish_accounted|apply Hs].
  - apply load_end_fine; [done..|apply Hs].
  - apply Hs.
  - apply Forall_delete, Hs.
  - apply Hs.
  - apply Hs.
Qed.

Lemma abort_ok n i s s' : sys_ok n s -> perform (AAbort i) s = Some s' -> sys_ok n s'.
Proof.
  intros Hs. cbn [perform]. destruct (sys_loads s !! i) as [l|]; [|done]. intros [= <-]. split; cbn.
  - apply (counted_by (load_abort (ld_job l))); [intros; by apply load_abort_accounted|apply Hs].
  - apply load_abort_genuine, Hs.
  - apply Hs.
  - apply Forall_delete, Hs.
  - apply Hs.
  - apply Hs.
Qed.

(** The operations that change the limits. *)
Lemma hot_limit_counted n h c : 0 <= h < 2 ^ 63 -> counted n c -> counted n (set_hot_limit h c).2.
Proof.
  intros Hh (g & Hl & Hn & Hc). exists (limited (max_disk_bytes g) h g). split_and!; [done..|].
  apply set_hot_limit_accounted; [done|lia|done].
Qed.

Lemma disk_limit_counted n d c : counted n c -> counted n (set_disk_limit d c).
Proof. intros (g & Hl & Hn & Hc). exists (limited d (max_hot_bytes g) g). split_and!; [done..|]. by apply set_disk_limit_accounted. Qed.

(** Files from elsewhere. *)
Lemma found_ok n w s : sys_ok n s -> sys_ok n (found_files w s).
Proof.
  intros Hs. set (new := new_contents (world (sys_cache s)) w).
  pose proof (history_ok n s (sys_stored s) (new ++ sys_foreign s)) as Hlong.
  destruct Hlong as [Hc Hg Hf Hl Ht Hn]; [done|set_solver|apply Hs|done|]. cbn in *. split; cbn; try done.
  - apply (counted_by (set_world w)); [|done]. intros ? _ []; by split.
  - destruct Hg as [? Hfiles]. split; try assumption. intros h contents p Hh Hfile Hp.
    destruct (decide (files (world (sys_cache s)) !! path_for n h = Some contents)) as [E|E]; [by eapply Hfiles|].
    right. exists contents. split; [|done]. apply elem_of_app. left. apply list_elem_of_fmap.
    exists (path_for n h, contents). split; [done|]. apply list_elem_of_filter. split; [done|]. by apply elem_of_map_to_list.
Qed.

Lemma perform_ok n a s s' : sys_ok n s -> perform a s = Some s' -> sys_ok n s'.
Proof.
  intros Hs Ha. destruct a;
    [by eapply store_action_ok|by eapply turn_ok|by eapply write_ok|by eapply finish_ok|by eapply end_ok|
     by eapply load_ok|by eapply read_ok|by eapply load_end_ok|by eapply abort_ok|..];
    cbn [perform] in Ha; unfold guard_with in Ha.
  all: try (match type of Ha with (if ?b then _ else _) = _ => destruct b eqn:Hb; [|done] end).
  all: injection Ha as <-.
  - apply (cache_step_ok (fun c => (match_block parent tokens extra c).2)); [| |done].
    + intros. by apply (hoare_run _ (accounted g (max_hot_bytes g))); [apply match_block_accounted|].
    + intros. by apply (hoare_run _ (genuine n known origin)); [apply match_block_genuine|].
  - apply (cache_step_ok (record_match matched)); [| |done].
    + intros. unfold record_match, count_hit. destruct (0 <? matched); auto using set_metric_accounted, bump_accounted.
    + intros. unfold record_match, count_hit. destruct (0 <? matched); auto using set_metric_genuine, bump_genuine.
  - apply (cache_step_ok (pin blocks)); [| |done]; intros; [by apply pin_accounted|by apply pin_genuine].
  - apply (cache_step_ok (unpin blocks)); [| |done]; intros; [by apply unpin_accounted|by apply unpin_genuine].
  - apply (cache_step_ok (fun c => (trim_hot target c).2)); [| |done]; intros;
      [by apply trim_hot_section_accounted|by apply trim_hot_section_genuine].
  - apply (cache_step_ok (fun c => (reserve_ram allocation ram c).2)); [| |done]; intros;
      [by apply reserve_ram_accounted|by apply reserve_ram_genuine].
  - apply andb_prop in Hb as [?%Z.leb_le ?%Z.ltb_lt].
    apply at_cache_ok; [done|apply hot_limit_counted; [lia|apply Hs]|apply set_hot_limit_genuine, Hs].
  - apply at_cache_ok; [done|apply disk_limit_counted, Hs|apply set_disk_limit_genuine, Hs].
  - apply (cache_step_ok (fun c => (refresh_disk_index c).2)); [| |done]; intros; [by apply refresh_accounted|by apply refresh_genuine].
  - apply (cache_step_ok (fun c => (invalidate hash c).2)); [| |done]; intros;
      [by apply erase_corrupt_accounted|by apply erase_corrupt_genuine].
  - apply (cache_step_ok (fun c => (clear_begin c).2)); [| |done]; intros;
      [apply clear_begin_accounted; [by destruct H0|done]|by apply clear_begin_genuine].
  - apply (cache_step_ok clear_end); [| |done]; [intros ?? _ []; by split|intros ??? []; by split].
  - by apply found_ok.
Qed.

Lemma starts_ok g s : starts g s -> sys_ok (space g) s.
Proof.
  intros [given order t listing w stored _ _ Hl Horder Hn Ht c Hcover]. split; cbn; [|..|done|done|done|done].
  - exists g. split_and!; [done..|]. by apply open_directory_accounted, empty_accounted.
  - set (origin := fun h p => exists contents, contents ∈ contents_of w /\ read_payload (space g) contents h = Some p).
    assert (genuine (space g) (fun _ => True) origin c) as Hg.
    { apply open_directory_genuine; [done|done|]. apply empty_genuine; [done|].
      intros h contents p _ Hf Hp. exists contents. split; [|done]. unfold contents_of. apply list_elem_of_fmap.
      exists (path_for (space g) h, contents). split; [done|]. by apply elem_of_map_to_list. }
    assert (forall h p, origin h p -> origin_in (space g) stored (contents_of w) h p) as Ho by (intros h p ?; by right).
    assert (genuine (space g) (fun _ => True) (origin_in (space g) stored (contents_of w)) c) as Hg'
      by (by eapply genuine_mono; [|exact Ho|exact Hg]).
    destruct (open_directory_dry order t listing g w) as (Eh & Ep & Ed & Ew). fold c in Eh, Ep, Ed, Ew.
    destruct Hg' as [Hspace Hfiles Hdisk _ _ _ _]. split; [done|done|..].
    + intros h e He. pose proof (Hdisk h e He) as (_ & ? & ?). split_and!; [|done..]. apply Hcover. by rewrite He.
    + intros h e He. by rewrite Eh, lookup_empty in He.
    + intros h p Hp. by rewrite Ep, lookup_empty in Hp.
    + intros h r Hr. by rewrite Ed, lookup_empty in Hr.
    + intros r Hr. rewrite Ew in Hr. set_solver.
Qed.

Lemma reaches_sys_ok g s : reaches g s -> sys_ok (space g) s.
Proof.
  intros (s0 & Hs0%starts_ok & Hrun). induction Hrun as [|s1 s2 s3 [a Ha] _ IH]; [done|].
  by apply IH, (perform_ok _ a s1).
Qed.

Lemma reaches_space g s :
  reaches g s -> length (compatibility_hash (space g)) = 32%nat /\ 0 < block_size_tokens (space g).
Proof.
  intros (s0 & [given order t listing w stored Hg Hb _ _ Hn _ c _] & _). split; [done|].
  unfold make_config in Hg. cbv beta iota in Hg. destruct (_ || _) eqn:He; [done|].
  injection Hg as <-. cbn in *. apply orb_false_elim in He as [He%Z.eqb_neq _]. lia.
Qed.

(** ** Matching *)

(** A stored block is this one, or the two messages collide under SHA-256. *)
Definition same_or_collision (n : Namespace) (b : StoredBlock) (parent : BlockHash) (tokens extra : list Z) : Prop :=
  sb_parent b = parent /\ sb_tokens b = tokens /\ sb_extra b = extra \/
  block_message n (sb_parent b) (sb_tokens b) (sb_extra b) <> block_message n parent tokens extra /\
  sha256 (block_message n (sb_parent b) (sb_tokens b) (sb_extra b)) = sha256 (block_message n parent tokens extra).

(** Successive blocks after [parent], each of a stored block. *)
Inductive stored_chain (n : Namespace) (stored : list StoredBlock) (extra : list Z) :
    BlockHash -> list (list Z) -> list BlockHash -> Prop :=
  | ChainEnd parent : stored_chain n stored extra parent [] []
  | ChainBlock parent part parts hash hashes b :
      block_hash n parent part extra = Ok hash -> b ∈ stored -> hash_of n b = Ok hash ->
      same_or_collision n b parent part extra ->
      stored_chain n stored extra hash parts hashes ->
      stored_chain n stored extra parent (part :: parts) (hash :: hashes).

(** A block whose hash is known was stored. *)
Lemma known_block n stored parent tokens extra hash :
  length (compatibility_hash n) = 32%nat -> Forall (fun b => typed_block b = true) stored ->
  typed parent tokens extra = true -> block_hash n parent tokens extra = Ok hash -> known_in n stored hash ->
  exists b, b ∈ stored /\ hash_of n b = Ok hash /\ same_or_collision n b parent tokens extra.
Proof.
  intros Hn Ht Hty Hh (b & Hb & Hhb). exists b. split_and!; [done..|].
  destruct (decide (block_message n (sb_parent b) (sb_tokens b) (sb_extra b) = block_message n parent tokens extra)) as [E|E].
  - left. apply (proj1 (Forall_forall _ _) Ht) in Hb. apply typed_spec in Hb as (? & ? & ?). apply typed_spec in Hty as (? & ? & ?).
    by apply message_binds in E as (_ & ? & ? & ?).
  - right. split; [done|]. apply block_hash_ok in Hh as [<- _]. by apply block_hash_ok in Hhb as [<- _].
Qed.

Definition matchable (n : Namespace) (stored : list StoredBlock) (foreign : list (list Z)) (c : Cache) : Prop :=
  counted n c /\ holds n stored foreign c.

Lemma available_known n stored foreign hash c :
  holds n stored foreign c -> available hash c = true -> known_in n stored hash.
Proof.
  intros Hg. unfold available, has. rewrite !orb_true_iff, !bool_decide_eq_true.
  intros [[[e He]|[p Hp]]|[e He]].
  - by apply (ge_disk _ _ _ _ Hg hash e).
  - by apply (ge_pending _ _ _ _ Hg hash p).
  - by apply (ge_hot _ _ _ _ Hg hash e).
Qed.

(** The section of [match]: what it finds is known, and what it leaves is as before. *)
Lemma match_block_spec n stored foreign parent tokens extra c :
  matchable n stored foreign c ->
  match match_block parent tokens extra c with
  | (Ok (Some hash), c') => matchable n stored foreign c' /\ block_hash n parent tokens extra = Ok hash /\ known_in n stored hash
  | (_, c') => matchable n stored foreign c'
  end.
Proof.
  intros [Hc Hg].
  assert (matchable n stored foreign (match_block parent tokens extra c).2) as Hkeep.
  { split.
    - apply (counted_by (fun c => (match_block parent tokens extra c).2)); [|done]. intros g _ Ha.
      by apply (hoare_run _ (accounted g (max_hot_bytes g))); [apply match_block_accounted|].
    - by apply (hoare_run _ (holds n stored foreign)); [apply match_block_genuine|]. }
  revert Hkeep. unfold match_block, mbind, M_bind, get, modify. rewrite (counted_space n) by done.
  destruct (block_hash n parent tokens extra) as [hash|e]; [|done]. cbn.
  destruct (available hash _) eqn:Ha; [|done]. intros Hkeep. split_and!; [done..|].
  eapply available_known; [apply Hkeep|exact Ha].
Qed.

Lemma chain_app n stored extra parent parts parts' hashes hashes' :
  stored_chain n stored extra parent parts hashes ->
  stored_chain n stored extra (default parent (last hashes)) parts' hashes' ->
  stored_chain n stored extra parent (parts ++ parts') (hashes ++ hashes').
Proof.
  induction 1 as [parent|parent part parts hash hashes b Hh Hb Hs Hsame _ IH]; intros Hc; [done|].
  cbn [app]. econstructor; [done..|]. apply IH. rewrite last_cons in Hc. by destruct (last hashes).
Qed.

Lemma zero_hash_length : length zero_hash = 32%nat.
Proof. done. Qed.

Section Matching.
Context (n : Namespace) (stored : list StoredBlock) (foreign : list (list Z)) (extra : list Z).
Context (Hn : length (compatibility_hash n) = 32%nat) (Hstored : Forall (fun b => typed_block b = true) stored).
Context (Hextra : size_of extra <= u64_max).
#[local] Set Default Proof Using "All".

(** [parts] were matched after [parent], as the blocks [hashes], before [rest]. *)
Record extends (parent : BlockHash) (tokens rest : list Z) (before after : PrefixMatch) (parts : list (list Z))
    (hashes : list BlockHash) : Prop := {
  ex_parts : tokens = mjoin parts ++ rest;
  ex_chain : stored_chain n stored extra parent parts hashes;
  ex_blocks : blocks after = blocks before ++ hashes;
  ex_tokens : matched_tokens after + size_of rest = matched_tokens before + size_of tokens;
}.

Lemma extends_nothing parent tokens r : extends parent tokens tokens r r [] [].
Proof. split; [done|constructor|by rewrite app_nil_r|done]. Qed.

(** The sizes of the parts: all full but the last, which is not empty. *)
Definition full_parts (parts : list (list Z)) : Prop := Forall (fun part => size_of part = block_size_tokens n) parts.
Definition last_part (parts : list (list Z)) : Prop :=
  parts = [] \/ exists part, parts = [part] /\ 0 < size_of part <= block_size_tokens n.

Lemma chain_block parent part hash :
  Forall in_s64 part -> length parent = 32%nat -> block_hash n parent part extra = Ok hash -> known_in n stored hash ->
  forall parts hashes, stored_chain n stored extra hash parts hashes ->
    stored_chain n stored extra parent (part :: parts) (hash :: hashes).
Proof.
  intros Hp Hl Hh Hk parts hashes Hc.
  destruct (known_block n stored parent part extra hash) as (b & ? & ? & ?); [done|done|by apply typed_spec|done|done|].
  by econstructor.
Qed.

Lemma match_full_spec count parent tokens r c :
  matchable n stored foreign c -> length parent = 32%nat -> Forall in_s64 tokens ->
  Z.of_nat count * block_size_tokens n <= size_of tokens -> 0 <= block_size_tokens n ->
  match match_full count parent tokens extra r c with
  | (Ok (parent', rest, r'), c') =>
      matchable n stored foreign c' /\ length parent' = 32%nat /\ Forall in_s64 rest /\
      exists parts hashes, extends parent tokens rest r r' parts hashes /\ full_parts parts /\
        parent' = default parent (last hashes)
  | (Throw _, c') => matchable n stored foreign c'
  end.
Proof.
  revert parent tokens r c. induction count as [|count IH]; intros parent tokens r c Hc Hl Ht Hsize Hbs; cbn [match_full].
  { cbn. split_and!; [done..|]. exists [], []. split_and!; [apply extends_nothing|constructor|done]. }
  unfold mbind, M_bind, get at 1. rewrite (counted_space n) by apply Hc.
  set (size := Z.to_nat (block_size_tokens n)).
  pose proof (match_block_spec n stored foreign parent (take size tokens) extra c Hc) as Hm.
  destruct (match_block parent (take size tokens) extra c) as [[[hash|]|e] c']; [|by cbn; split_and!; [..|exists [], []; split_and!; [apply extends_nothing|constructor|]]|done].
  destruct Hm as (Hc' & Hh & Hk).
  assert (length hash = 32%nat) as Hlh by (by apply block_hash_ok in Hh as [_ [? _]]).
  specialize (IH hash (drop size tokens)
    {| matched_tokens := matched_tokens r + Z.of_nat size; blocks := blocks r ++ [hash] |} c' Hc' Hlh
    (Forall_drop _ _ _ Ht)).
  assert (size_of (drop size tokens) = size_of tokens - Z.of_nat size) as Hd.
  { unfold size_of in *. rewrite length_drop. unfold size. nia. }
  specialize (IH ltac:(rewrite Hd; unfold size; nia) Hbs).
  destruct (match_full count hash (drop size tokens) extra _ c') as [[[[parent' rest] r']|e] c'']; [|done].
  destruct IH as (? & ? & ? & parts & hashes & [Hp Hch Hb Hm] & Hfull & Hlast). split_and!; [done..|].
  exists (take size tokens :: parts), (hash :: hashes). split_and!; [split|..].
  - change (mjoin (?a :: ?b)) with (a ++ mjoin b). rewrite <- app_assoc, <- Hp. by rewrite take_drop.
  - by apply chain_block; [apply Forall_take| | | |].
  - rewrite Hb. cbn. by rewrite <- app_assoc.
  - cbn in Hm. lia.
  - constructor; [|done]. unfold size_of in *. rewrite length_take. unfold size. nia.
  - rewrite Hlast, last_cons. by destruct (last hashes).
Qed.

Lemma match_tail_spec lengths parent tokens r c :
  matchable n stored foreign c -> length parent = 32%nat -> Forall in_s64 tokens ->
  Forall (fun count => count <= size_of tokens) lengths ->
  match match_tail lengths parent tokens extra r c with
  | (Ok r', c') => matchable n stored foreign c' /\ exists rest parts hashes,
      extends parent tokens rest r r' parts hashes /\ last_part parts
  | (Throw _, c') => matchable n stored foreign c'
  end.
Proof.
  intros Hc Hl Ht Hlen. revert c Hc. induction Hlen as [|count lengths Hcount _ IH]; intros c Hc; cbn [match_tail].
  { cbn. split; [done|]. exists tokens, [], []. split; [apply extends_nothing|by left]. }
  unfold mbind, M_bind. pose proof (match_block_spec n stored foreign parent (take (Z.to_nat count) tokens) extra c Hc) as Hm.
  destruct (match_block parent (take (Z.to_nat count) tokens) extra c) as [[[hash|]|e] c']; [|by apply IH|done].
  destruct Hm as (Hc' & Hh & Hk). cbn. split; [done|].
  exists (drop (Z.to_nat count) tokens), [take (Z.to_nat count) tokens], [hash].
  assert (0 < count) as Hpos.
  { destruct (Z.leb_spec count 0); [|lia]. by replace (Z.to_nat count) with 0%nat in Hh by lia. }
  split; [split; cbn|right; exists (take (Z.to_nat count) tokens); split; [done|]].
  - by rewrite app_nil_r, take_drop.
  - by apply chain_block; [apply Forall_take| | | |constructor].
  - done.
  - unfold size_of in *. rewrite length_drop. lia.
  - assert (size_of (take (Z.to_nat count) tokens) = count) as -> by (unfold size_of in *; rewrite length_take; lia).
    split; [done|]. rewrite block_hash_message in Hh. destruct (_ || _) eqn:Hb; [done|].
    apply orb_false_elim in Hb as [_ Hb%Z.ltb_ge]. unfold size_of in *. rewrite length_take in Hb. lia.
Qed.

Lemma bump_matchable k c : matchable n stored foreign c -> matchable n stored foreign (bump k c).
Proof.
  intros [Hc Hg]. split; [|by apply bump_genuine]. apply (counted_by (bump k)); [|done]. intros. by apply bump_accounted.
Qed.

Lemma set_metric_matchable k v c : matchable n stored foreign c -> matchable n stored foreign (set_metric k v c).
Proof.
  intros [Hc Hg]. split; [|by apply set_metric_genuine].
  apply (counted_by (set_metric k v)); [|done]. intros. by apply set_metric_accounted.
Qed.

Lemma count_hit_matchable matched c : matchable n stored foreign c -> matchable n stored foreign (count_hit matched c).
Proof. intros. unfold count_hit. destruct (0 <? matched); [by apply set_metric_matchable, bump_matchable|done]. Qed.

Lemma match_prefix_spec tokens record_query c :
  matchable n stored foreign c -> Forall in_s64 tokens -> 0 < block_size_tokens n ->
  match match_prefix tokens extra record_query c with
  | (Ok result, c') =>
      matchable n stored foreign c' /\
      exists fulls tail rest, let parts := fulls ++ tail in
        tokens = mjoin parts ++ rest /\ matched_tokens result = size_of (mjoin parts) /\
        full_parts fulls /\ last_part tail /\ stored_chain n stored extra zero_hash parts (blocks result)
  | (Throw _, c') => matchable n stored foreign c'
  end.
Proof.
  intros Hc Htokens Hbs. unfold match_prefix, mbind, M_bind, get at 1, modify at 1. rewrite (counted_space n) by apply Hc.
  set (c0 := if record_query then _ else c).
  assert (matchable n stored foreign c0) as H0 by (subst c0; destruct record_query; [by apply bump_matchable|done]).
  clearbody c0. pose proof (size_of_nonneg tokens) as Hsize.
  pose proof (match_full_spec (Z.to_nat (size_of tokens / block_size_tokens n)) zero_hash tokens
    {| matched_tokens := 0; blocks := [] |} c0 H0 zero_hash_length Htokens) as Hfull.
  specialize (Hfull ltac:(rewrite Z2Nat.id by (apply Z.div_pos; lia); rewrite Z.mul_comm; apply Z.mul_div_le; lia) ltac:(lia)).
  destruct (match_full _ zero_hash tokens extra _ c0) as [[[[parent rest] r1]|e] c1]; [|done].
  destruct Hfull as (H1 & Hlp & Hrest & parts & hashes & [Hparts Hchain Hblocks Hcount] & Hfp & Hlast).
  unfold get at 1. set (lengths := filter _ _).
  assert (Forall (fun count => count <= size_of rest) lengths) as Hlengths
    by (apply Forall_forall; intros k Hk; by apply list_elem_of_filter in Hk as [? _]).
  pose proof (match_tail_spec lengths parent rest r1 c1 H1 Hlp Hrest Hlengths) as Htail.
  destruct (match_tail lengths parent rest extra r1 c1) as [[r2|e] c2]; [|done].
  destruct Htail as (H2 & rest' & parts' & hashes' & [Hparts' Hchain' Hblocks' Hcount'] & Htp).
  cbn. split; [destruct record_query; [by apply count_hit_matchable|done]|].
  exists parts, parts', rest'. cbn in *.
  rewrite join_app, <- app_assoc, <- Hparts'. split; [done|].
  assert (size_of tokens = size_of (mjoin parts) + size_of (mjoin parts') + size_of rest') as Hsum
    by (rewrite Hparts, Hparts', !size_of_app; lia).
  split; [rewrite size_of_app; lia|]. split; [done|]. split; [done|]. rewrite Hblocks', Hblocks. apply chain_app; [done|]. by rewrite <- Hlast.
Qed.
End Matching.

Lemma sys_matchable n s : sys_ok n s -> matchable n (sys_stored s) (sys_foreign s) (sys_cache s).
Proof. intros Hs. split; apply Hs. Qed.

(** ** Theorems *)

(** C12: After any run, a match of a prompt is a chain of blocks that were stored: each
    matched part of the prompt, with its extra key and the hash of the block before, is
    what was given to the cache for that block, or its message and the stored block's
    message are a collision of SHA-256. *)
Theorem match_is_stored g s tokens extra record_query result c'
    (Hrun : reaches g s) (Htokens : Forall in_s64 tokens) (Hextra : size_of extra <= u64_max)
    (Hmatch : match_prefix tokens extra record_query (sys_cache s) = (Ok result, c')) :
  exists parts rest, tokens = mjoin parts ++ rest /\ matched_tokens result = size_of (mjoin parts) /\
    stored_chain (space g) (sys_stored s) extra zero_hash parts (blocks result).
Proof.
  pose proof (reaches_sys_ok g s Hrun) as Hs. destruct (reaches_space g s Hrun) as [Hn Hbs].
  pose proof (match_prefix_spec (space g) _ _ extra Hn (ok_typed _ _ Hs) Hextra tokens record_query _
    (sys_matchable _ _ Hs) Htokens Hbs) as Hspec.
  rewrite Hmatch in Hspec. destruct Hspec as (_ & fulls & tail & rest & Hparts & Hm & _ & _ & Hchain).
  by exists (fulls ++ tail), rest.
Qed.

(** C19: After any run, and so at any interleaving of the threads, the byte counts of the
    tiers are those of their blocks (modulo 2^64), the recorded versions of a tail are the
    blocks remembered for it, and a disposable memory tier is within its limit. *)
Theorem cache_accounts g s (Hrun : reaches g s) :
  let c := sys_cache s in
  hot_bytes c = u64 (hot_total c) /\ disk_bytes c = u64 (disk_total c) /\
  (forall parent count, recorded parent count (tail_lengths c) = versions parent count (tail_metadata c)) /\
  (spill_hot_on_eviction (config c) = true -> hot_bytes c = hot_total c /\ hot_total c <= max_hot_bytes (config c)).
Proof.
  intros c. destruct (ok_counted _ _ (reaches_sys_ok g s Hrun)) as (g' & Hl & _ & Hc).
  subst c. split_and!; [apply Hc..|]. rewrite (ac_config _ _ _ Hc). intros Hs. pose proof (ac_within _ _ _ Hc Hs).
  unfold limits_ok in Hl. split; [|done]. apply (hot_bytes_exact _ Hc). lia.
Qed.

(** C21: After any run, each payload a load returns for a hash was given to the cache for a
    block of that hash, or is that of a file the cache did not write: one that was there
    when the directory was opened, or that others put there since. *)
Theorem loads_are_genuine g s i l cold
    (Hrun : reaches g s) (Hload : sys_loads s !! i = Some l) (Hread : all_read l = Some cold) :
  let payloads := (load_finish (ld_job l) cold (sys_cache s)).1 in
  Forall2 (origin_in (space g) (sys_stored s) (sys_foreign s)) (take (length payloads) (lr_hash <$> lj_requests (ld_job l))) payloads.
Proof.
  pose proof (reaches_sys_ok g s Hrun) as Hs. apply load_end_fine; [|done|apply Hs].
  by apply (forall_at _ _ _ _ (ok_loads _ _ Hs) Hload).
Qed.

End Steps.

(** ** A run

    A block of two tokens and a shorter one after it are stored, the first is written and
    leaves the memory tier, and is being loaded from its file. *)

Definition example_config : Config :=
  {| space := {| compatibility_hash := replicate 32 7; block_size_tokens := 2; namespace_dir := ["cache"%string] |};
     max_disk_bytes := 4000; max_hot_bytes := 100; max_pending_writes := 4; max_pending_bytes := 100;
     retain_tail_versions := 2; min_disk_free_bytes := 16; spill_hot_on_eviction := false; min_free_ram_bytes := 0 |}.

Definition example_world : World :=
  {| files := ∅; faults := [];
     volume := {| vol_available := Some 8000; vol_directory := true; vol_lock := true; vol_device := Some 1; vol_leases := [] |} |}.

Definition example_start : System :=
  {| sys_cache := open_directory id 0 [] (empty_cache example_config example_world);
     sys_flight := []; sys_loads := []; sys_stored := []; sys_foreign := [] |}.

Definition example_hash : BlockHash :=
  match block_hash (space example_config) zero_hash [5; 6] [] with Ok h => h | Throw _ => [] end.

Definition example_run : System :=
  run_from [AStore zero_hash [5; 6] (Some [1; 2; 3]) [] false None; AStore example_hash [7] (Some [4]) [] false None;
            ATurn None; AWrite 0 1 1; AFinish 0 2; AEnd 0; ATrim 0; ALoad [example_hash]; ARead 0 0] example_start.

Lemma example_reaches : reaches example_config example_run.
Proof.
  apply run_reaches. exists example_start. split; [|done].
  apply (Starts example_config example_config id 0 [] example_world []); try done.
Qed.

Lemma match_is_stored_witness :
  exists result c', match_prefix [5; 6; 7; 8] [] true (sys_cache example_run) = (Ok result, c') /\
    matched_tokens result = 3 /\
    exists parts rest, [5; 6; 7; 8] = mjoin parts ++ rest /\ matched_tokens result = size_of (mjoin parts) /\
      stored_chain (space example_config) (sys_stored example_run) [] zero_hash parts (blocks result).
Proof.
  assert (match (match_prefix [5; 6; 7; 8] [] true (sys_cache example_run)).1 with
          | Ok r => matched_tokens r | Throw _ => 0 end = 3) as E by (by vm_compute).
  destruct (match_prefix [5; 6; 7; 8] [] true (sys_cache example_run)) as [[result|e] c'] eqn:Hm; [|done].
  exists result, c'. split; [reflexivity|]. split; [exact E|].
  refine (match_is_stored example_config example_run [5; 6; 7; 8] [] true result c' example_reaches _ _ Hm).
  - repeat constructor; unfold s64_max; lia.
  - by vm_compute.
Defined.

Lemma cache_accounts_witness :
  let c := sys_cache example_run in
  (hot_bytes c, disk_bytes c) = (0, 159) /\
  hot_bytes c = u64 (hot_total c) /\ disk_bytes c = u64 (disk_total c) /\
  (forall parent count, recorded parent count (tail_lengths c) = versions parent count (tail_metadata c)) /\
  (spill_hot_on_eviction (config c) = true -> hot_bytes c = hot_total c /\ hot_total c <= max_hot_bytes (config c)).
Proof. split; [by vm_compute|]. apply (cache_accounts example_config example_run example_reaches). Defined.

Lemma loads_are_genuine_witness :
  exists l cold, sys_loads example_run !! 0%nat = Some l /\ all_read l = Some cold /\
    (load_finish (ld_job l) cold (sys_cache example_run)).1 = [[1; 2; 3]] /\
    sys_foreign example_run = [] /\
    Forall2 (origin_in (space example_config) (sys_stored example_run) (sys_foreign example_run))
      (take 1 (lr_hash <$> lj_requests (ld_job l))) [[1; 2; 3]].
Proof.
  assert (match sys_loads example_run !! 0%nat with
          | Some l => match all_read l with
                      | Some cold => (load_finish (ld_job l) cold (sys_cache example_run)).1
                      | None => [] end
          | None => [] end = [[1; 2; 3]]) as E by (by vm_compute).
  destruct (sys_loads example_run !! 0%nat) as [l|] eqn:Hl; [|done].
  destruct (all_read l) as [cold|] eqn:Hc; [|done]. exists l, cold. split; [reflexivity|]. split; [exact Hc|]. split; [exact E|]. split; [by vm_compute|].
  pose proof (loads_are_genuine example_config example_run 0 l cold example_reaches Hl Hc) as Hg.
  cbv zeta in Hg. by rewrite E in Hg.
Defined.
