(* ===== verification/PrefixCacheLaws.v ===== *)
(** * What the prefix cache does with one block

    The order of evictions ([eviction_order]), the budget of the disk ([budget_enforced]),
    and a block that is stored and loaded again ([stored_block_loads]). *)

From stdpp Require Import base list gmap strings sorting.
From Stdlib Require Import ZArith Lia.
From S2P Require Import Prelude Sha256 LittleEndian BlockFile BlockStore PrefixCache PrefixCacheInv PrefixCacheGenuine PrefixCacheSteps.

#[local] Set Default Proof Using "Type".
#[local] Open Scope Z_scope.

Section Laws.
Context `{Visits}.

(** ** The order of evictions *)

(** A session's block that has no other copy stays, unless the tier is disposable. *)
Definition may_leave_memory (h : BlockHash) (c : Cache) : bool :=
  spill_hot_on_eviction (config c) || has h (disk c) || negb (has h (pins c)).

(** A file that is read or being written stays, and so does a session's block unless
    sessions are disposable. *)
Definition may_leave_disk (h : BlockHash) (e : DiskEntry) (c : Cache) : bool :=
  (de_pins e <=? if spill_hot_on_eviction (config c) then default 0 (pins c !! h) else 0) && negb (has h (pending c)).

Lemma visit_elem {A} (m : gmap BlockHash A) h x : (h, x) ∈ visit m <-> m !! h = Some x.
Proof. rewrite visit_all. apply elem_of_map_to_list. Qed.

(** A scan that compares a key finds a least one among those it does not skip. *)
Lemma least_used_spec {A} (m : gmap BlockHash A) (skip : BlockHash * A -> bool) (key : A -> Z) :
  match scan skip (fun x y => key x.2 <? key y.2) None (visit m) with
  | Some (h, x) =>
      m !! h = Some x /\ skip (h, x) = false /\
      forall h' x', m !! h' = Some x' -> skip (h', x') = false -> key x <= key x'
  | None => forall h x, m !! h = Some x -> skip (h, x) = true
  end.
Proof.
  destruct (scan _ _ None (visit m)) as [[h x]|] eqn:Hs.
  - pose proof (scan_elem _ _ None (visit m) (h, x) Hs) as [?|[Hin Hskip]]; [done|].
    split; [by apply visit_elem|]. split; [done|]. intros h' x' Hx' Hs'.
    pose proof (scan_min skip (fun x y => key x.2 <? key y.2) (fun x => key x.2) (fun a b => Z.ltb_lt (key a.2) (key b.2))
      None (visit m) (h, x) Hs) as [_ Hmin].
    by apply (Hmin (h', x')); [apply visit_elem|].
  - intros h x Hx. by apply (scan_none _ _ _ Hs), visit_elem.
Qed.

(** The block that leaves memory, and the one that leaves the disk, is a least recently
    used one of those that may leave; none leaves only if none may. *)
Theorem eviction_order c :
  match hot_victim c with
  | Some (h, e) =>
      hot c !! h = Some e /\ may_leave_memory h c = true /\
      forall h' e', hot c !! h' = Some e' -> may_leave_memory h' c = true -> he_last_used e <= he_last_used e'
  | None => forall h e, hot c !! h = Some e -> may_leave_memory h c = false
  end /\
  match disk_victim c with
  | Some (h, e) =>
      disk c !! h = Some e /\ may_leave_disk h e c = true /\
      forall h' e', disk c !! h' = Some e' -> may_leave_disk h' e' c = true -> de_last_used e <= de_last_used e'
  | None => forall h e, disk c !! h = Some e -> may_leave_disk h e c = false
  end.
Proof.
  assert (forall h, may_leave_memory h c =
    negb (negb (spill_hot_on_eviction (config c)) && negb (has h (disk c)) && has h (pins c))) as Hm.
  { intros h. unfold may_leave_memory. by destruct (spill_hot_on_eviction _), (has h (disk c)), (has h (pins c)). }
  assert (forall h e, may_leave_disk h e c = negb (((if spill_hot_on_eviction (config c) then default 0 (pins c !! h) else 0)
    <? de_pins e) || has h (pending c))) as Hd.
  { intros h e. unfold may_leave_disk. rewrite negb_orb. f_equal. symmetry. by rewrite Z.ltb_antisym, negb_involutive. }
  split.
  - pose proof (least_used_spec (hot c) (fun x => negb (spill_hot_on_eviction (config c)) && negb (has x.1 (disk c)) &&
      has x.1 (pins c)) he_last_used) as Hv. unfold hot_victim. destruct (scan _ _ None _) as [[h e]|].
    + destruct Hv as (? & Hs & Hmin). split; [done|]. cbn in Hs. split; [by rewrite Hm, Hs|].
      intros h' e' Hh' Hl'. apply (Hmin h' e'); [done|]. cbn. rewrite Hm in Hl'. by apply negb_true_iff.
    + intros h e Hh. specialize (Hv h e Hh). cbn in Hv. by rewrite Hm, Hv.
  - pose proof (least_used_spec (disk c) (fun x => ((if spill_hot_on_eviction (config c) then default 0 (pins c !! x.1) else 0)
      <? de_pins x.2) || has x.1 (pending c)) de_last_used) as Hv. unfold disk_victim. destruct (scan _ _ None _) as [[h e]|].
    + destruct Hv as (? & Hs & Hmin). split; [done|]. cbn in Hs. split; [by rewrite Hd, Hs|].
      intros h' e' Hh' Hl'. apply (Hmin h' e'); [done|]. cbn. rewrite Hd in Hl'. by apply negb_true_iff.
    + intros h e Hh. specialize (Hv h e Hh). cbn in Hv. by rewrite Hd, Hv.
Qed.

(** ** The budget of the disk *)

(** No call fails from here on. *)
Definition calls_work (c : Cache) : Prop := faults (world c) = [].

Lemma forget_tail_frame hash c :
  world (forget_tail_if_unused_locked hash c) = world c /\ disk (forget_tail_if_unused_locked hash c) = disk c.
Proof.
  unfold forget_tail_if_unused_locked. destruct (_ || _); [done|]. by destruct (tail_metadata c !! hash) as [[? ?]|].
Qed.

Lemma defer_again_frame hash e c : world (defer_again hash e c) = world c /\ disk (defer_again hash e c) = disk c.
Proof. unfold defer_again. destruct (hot c !! hash); [|done]. by destruct (_ && _). Qed.

Lemma drop_disk_frame hash c : world (drop_disk hash c) = world c /\ disk (drop_disk hash c) = delete hash (disk c).
Proof. unfold drop_disk. destruct (disk c !! hash) eqn:He; [split; reflexivity|]. split; [reflexivity|]. symmetry. by apply delete_id. Qed.

Lemma remove_works path c :
  calls_work c -> (remove_block path c).1 = false /\ calls_work (remove_block path c).2 /\
  disk (remove_block path c).2 = disk c.
Proof. unfold calls_work, remove_block, io, fs_remove, coded, call. intros E. rewrite E. done. Qed.

Lemma remove_text_works path c : calls_work c -> calls_work (io_ (remove_text path) c).
Proof.
  unfold calls_work, io_, remove_text, fs_remove, coded, call, mbind, M_bind. intros E. rewrite E. done.
Qed.

Lemma evict_disk_works hash e c :
  calls_work c -> calls_work (evict_disk hash e c) /\ disk (evict_disk hash e c) = delete hash (disk c).
Proof.
  intros Hc%(remove_text_works (de_path e)). unfold evict_disk, calls_work in *.
  change (world (bump ?k ?c)) with (world c). change (disk (bump ?k ?c)) with (disk c).
  set (c1 := io_ _ c) in *. assert (disk c1 = disk c) as Hd by done. clearbody c1.
  destruct (forget_tail_frame hash (drop_disk hash (defer_again hash e c1))) as [-> ->].
  destruct (drop_disk_frame hash (defer_again hash e c1)) as [-> ->].
  destruct (defer_again_frame hash e c1) as [-> ->]. by rewrite Hd.
Qed.

Lemma evict_loop_enforces fuel target evicted c :
  calls_work c -> (base.size (disk c) <= fuel)%nat -> evicted + Z.of_nat (base.size (disk c)) < u64_max ->
  disk_bytes (evict_loop fuel target u64_max evicted c).2 <= target \/
  disk_victim (evict_loop fuel target u64_max evicted c).2 = None.
Proof.
  revert evicted c. induction fuel as [|fuel IH]; intros evicted c Hc Hfuel Hroom; cbn [evict_loop].
  - right. cbn. destruct (disk_victim c) as [[h e]|] eqn:Hv; [|done]. apply disk_victim_elem in Hv.
    assert (disk c = ∅) as He by (apply map_size_empty_inv; lia). by rewrite He in Hv.
  - destruct (Z.ltb_spec target (disk_bytes c)) as [_|Hle]; [|by left].
    destruct (disk_victim c) as [[h e]|] eqn:Hv; [|by right]. apply disk_victim_elem in Hv.
    destruct (remove_works (de_path e) c Hc) as (Herr & Hc1 & Hd1).
    destruct (remove_block (de_path e) c) as [error c1]. cbn [fst snd] in *. subst error.
    destruct (evict_disk_works h e c1 Hc1) as [Hc2 Hd2]. rewrite Hd1 in Hd2.
    assert (base.size (delete h (disk c)) = pred (base.size (disk c))) as Hsize by (apply map_size_delete_Some; by exists e).
    assert (base.size (disk c) <> 0)%nat as Hpos by (intros E; apply map_size_empty_inv in E; by rewrite E in Hv).
    destruct (Z.leb_spec u64_max (evicted + 1)); [lia|]. apply IH; rewrite ?Hd2; [done|lia|lia].
Qed.

(** C40: When no file resists, enforcing the budget ends with the disk within it, the bytes
    about to be written counted, or with only blocks that are read, written or pinned. *)
Theorem budget_enforced reserved c
    (Hcalls : calls_work c) (Hcount : count_of (disk c) < u64_max) :
  let budget := (effective_disk_budget_locked c).1 in
  let c' := (enforce_disk_budget_locked reserved u64_max c).2 in
  disk_bytes c' <= (if budget <=? reserved then 0 else budget - reserved) \/
  forall h e, disk c' !! h = Some e -> may_leave_disk h e c' = false.
Proof.
  intros budget c'. subst budget c'. unfold enforce_disk_budget_locked.
  assert (calls_work (effective_disk_budget_locked c).2 /\ disk (effective_disk_budget_locked c).2 = disk c) as [Hc1 Hd1].
  { unfold effective_disk_budget_locked, io, fs_space, call, calls_work in *. rewrite Hcalls.
    destruct (vol_available _); [|done]. destruct (unreserved_disk_space _ _); done. }
  destruct (effective_disk_budget_locked c) as [budget c1]. cbn [fst snd] in *.
  set (target := if budget <=? reserved then 0 else budget - reserved).
  pose proof (evict_loop_enforces (base.size (disk c1)) target 0 c1 Hc1 ltac:(lia)
    ltac:(unfold count_of in Hcount; rewrite Hd1; lia)) as Hloop.
  destruct (evict_loop _ target u64_max 0 c1) as [evicted c2]. cbn [snd] in *.
  destruct Hloop as [?|Hv]; [by left|]. right. intros h e Hh.
  change (disk c2 !! h = Some e) in Hh. change (may_leave_disk h e c2 = false).
  pose proof (least_used_spec (disk c2) (fun x => ((if spill_hot_on_eviction (config c2) then default 0 (pins c2 !! x.1) else 0)
    <? de_pins x.2) || has x.1 (pending c2)) de_last_used) as Hs. unfold disk_victim in Hv. rewrite Hv in Hs.
  specialize (Hs h e Hh). cbn in Hs. unfold may_leave_disk.
  apply orb_prop in Hs as [Hs|Hs]; [|rewrite Hs; apply andb_false_r].
  apply andb_false_intro1. rewrite <- (negb_involutive (_ <=? _)), <- Z.ltb_antisym. by rewrite Hs.
Qed.

(** ** A block stored and loaded *)

Lemma trim_hot_lookup target c h :
  hot (trim_hot_locked target c) !! h = None \/ hot (trim_hot_locked target c) !! h = hot c !! h.
Proof.
  unfold trim_hot_locked. generalize (base.size (hot c)) as fuel. intros fuel. revert c.
  induction fuel as [|fuel IH]; intros c; cbn [trim_hot_loop]; [by right|].
  destruct (target <? hot_bytes c); [|by right]. destruct (hot_victim c) as [[k e]|]; [|by right].
  destruct (IH (evict_hot k c)) as [?|Hl]; [by left|]. rewrite evict_hot_entries in Hl. rewrite Hl.
  destruct (decide (k = h)) as [->|Hne]; [left; apply lookup_delete_eq|right; by apply lookup_delete_ne].
Qed.

(** What [put_hot_locked] leaves under its hash. *)
Lemma put_hot_lookup hash payload c e :
  hot (put_hot_locked hash payload c) !! hash = Some e -> he_payload e = payload.
Proof.
  unfold put_hot_locked. pose proof (drop_hot_entries hash c) as Hd. set (c1 := drop_hot hash c) in *. clearbody c1.
  set (c2 := if _ <? u64 (hot_bytes c1 + _) then _ else c1).
  assert (hot c2 = hot c1) as H2 by (unfold c2; by destruct (_ <? _)). clearbody c2.
  destruct (_ || _).
  { change (hot (sync_metrics c2)) with (hot c2). by rewrite H2, Hd, lookup_delete_eq. }
  match goal with |- context [trim_hot_locked ?t ?c3] => destruct (trim_hot_lookup t c3 hash) as [E|E];
    change (hot (sync_metrics (trim_hot_locked t c3))) with (hot (trim_hot_locked t c3)); rewrite E; [done|] end.
  cbn. rewrite lookup_insert_eq. by intros [= <-].
Qed.

Lemma remember_tail_frame hash parent count c :
  let c' := remember_tail_locked hash parent count c in
  hot c' = hot c /\ pending c' = pending c /\ cache_epoch c' = cache_epoch c.
Proof. unfold remember_tail_locked. by destruct (_ || _). Qed.

Lemma store_pending_holds hash parent tokens payload replace c :
  let c' := (store_pending hash parent tokens payload replace c).2 in
  pending c' !! hash = Some payload /\ forall e, hot c' !! hash = Some e -> he_payload e = payload.
Proof.
  unfold store_pending. set (c0 := (enforce_disk_budget_locked _ _ c).2). clearbody c0.
  pose proof (put_hot_lookup hash payload c0) as Hh. set (c1 := put_hot_locked hash payload c0) in *. clearbody c1.
  cbv zeta. set (full := _ || _). set (c2 := if full then c1 else _).
  assert (hot c2 = hot c1) as H2 by (unfold c2; by destruct full). clearbody c2.
  destruct (remember_tail_frame hash parent (size_of tokens) (add_pending hash payload c2)) as (H3 & H4 & _).
  set (c3 := remember_tail_locked _ _ _ _) in *. clearbody c3.
  assert (forall c4, c4 = (if full then set_active_writes (active_writes c3 + 1) c3 else c3) ->
    pending (sync_metrics c4) = pending c3 /\ hot (sync_metrics c4) = hot c3) as H5.
  { intros c4 ->. by destruct full. }
  destruct (H5 _ eq_refl) as [Hp Hhot].
  change (hot (add_pending hash payload c2)) with (hot c2) in H3. rewrite H2 in H3.
  assert (pending (add_pending hash payload c2) !! hash = Some payload) as H6 by apply lookup_insert_eq.
  destruct full; cbn [snd]; rewrite Hp, Hhot, H3, H4; by split.
Qed.

Lemma schedule_config g hash parent tokens extra :
  hoare (fun c => config c = g) (schedule_tail_cleanup_locked hash parent tokens extra)
    (fun _ c => config c = g) (fun c => config c = g).
Proof.
  set (P := fun c : Cache => config c = g).
  unfold schedule_tail_cleanup_locked. eapply hoare_bind; [apply (hoare_get _ (fun _ => P)); done|].
  intros c. destruct (_ || _); [by apply hoare_ret|]. destruct (tail_lengths c !! parent); [|by apply hoare_ret].
  eapply hoare_bind; [by apply (hoare_modify _ _ (fun _ => P))|]. intros ?.
  eapply hoare_bind; [apply (hoare_fold_each _ _ (fun _ => P))|].
  - intros retained length _. destruct (_ <=? length); [by apply hoare_ret|].
    destruct (block_hash _ _ _ _); [|by apply hoare_throw].
    eapply hoare_bind; [apply (hoare_get _ (fun _ => P)); done|]. intros c'.
    destruct (negb _); [by apply hoare_ret|].
    apply (hoare_bind _ _ _ (fun _ => P)); [|intros ?; by apply hoare_ret].
    destruct (_ <=? retained); [by apply hoare_modify|by apply hoare_ret].
  - intros ?. apply hoare_modify. intros c' Hc'. by destruct (is_nil _).
Qed.

Lemma load_one hash payload c :
  (pending c !! hash = Some payload /\ forall e, hot c !! hash = Some e -> he_payload e = payload) ->
  (load_prefix (fun _ => Ok tt) [hash] c).1 = Ok [payload].
Proof.
  intros [Hp Hh]. unfold load_prefix, load_begin. cbn [plan_loads].
  assert (forall r w, lr_source r <> Disk -> read_all (space (config c)) [r] w = (Ok [None], w)) as Hread
    by (intros r w Hr; cbn; unfold read_cold; by destruct (lr_source r)).
  destruct (hot c !! hash) as [e|] eqn:He; [|rewrite Hp]; cbn [lj_bytes lj_requests];
    rewrite Hread by done; unfold load_finish; cbn [lj_epoch];
    change (cache_epoch (set_world (world c) c)) with (cache_epoch c); rewrite Z.eqb_refl; cbn.
  - by rewrite (Hh e eq_refl).
  - done.
Qed.

Lemma load_stored hash payload c :
  (pending c !! hash = Some payload /\ forall e, hot c !! hash = Some e -> he_payload e = payload) ->
  (load (fun _ => Ok tt) hash c).1 = Ok (Some payload).
Proof.
  intros Hc. pose proof (load_one hash payload c Hc) as E. unfold load, mbind, M_bind.
  destruct (load_prefix _ _ c) as [r c']. cbn in E. by subst r.
Qed.

(** Neither on disk nor on its way there. *)
Definition not_written (hash : BlockHash) (c : Cache) : Prop := disk c !! hash = None /\ pending c !! hash = None.

(** A block given to a cache that keeps its sessions' blocks and has a disk is loaded
    back from the moment [store] returns, unless [store] found the block present and kept
    that one. *)
Theorem stored_block_loads parent tokens payload extra replace_existing ram c c' hash after
    (Hspill : spill_hot_on_eviction (config c) = false) (Hdisk : 0 < max_disk_bytes (config c))
    (Hnew : replace_existing = true \/ not_written hash c)
    (Hstore : store parent tokens (Some payload) extra replace_existing ram c = (Ok (hash, after), c')) :
  (load (fun _ => Ok tt) hash c').1 = Ok (Some payload).
Proof.
  apply load_stored. revert Hstore. unfold store, mbind, M_bind, get at 1.
  destruct (block_hash _ _ _ _) as [h|]; [|done].
  destruct (store_locked h parent tokens payload extra replace_existing ram c) as [[a|]?] eqn:Hs; [|done].
  intros [= -> -> ->]. revert Hs. unfold store_locked, mbind, M_bind, get at 1.
  assert (negb replace_existing && (has hash (disk c) || has hash (pending c)) = false) as ->.
  { destruct Hnew as [->|[Hd Hp]]; [done|]. unfold has. rewrite Hd, Hp, !bool_decide_eq_false_2 by (by intros [? ?]).
    apply andb_false_r. }
  pose proof (schedule_config (config c) hash parent tokens extra c eq_refl) as Hcfg.
  destruct (schedule_tail_cleanup_locked hash parent tokens extra c) as [[?|] c1]; [|done].
  unfold get at 1. rewrite Hcfg, Hspill. cbn [andb]. unfold modify at 1.
  destruct (Z.eqb_spec (max_disk_bytes (config c)) 0); [lia|].
  pose proof (store_pending_holds hash parent tokens payload replace_existing (set_deferred (delete hash (deferred c1)) c1)) as Hh.
  destruct (store_pending _ _ _ _ _ _). by intros [= -> ->].
Qed.

End Laws.

(** ** A block of the example *)

Lemma stored_block_loads_witness :
  exists hash after c',
    store zero_hash [5; 6] (Some [1; 2; 3]) [] false None (sys_cache example_start) = (Ok (hash, after), c') /\
    (load (fun _ => Ok tt) hash c').1 = Ok (Some [1; 2; 3]).
Proof.
  assert (is_ok (store zero_hash [5; 6] (Some [1; 2; 3]) [] false None (sys_cache example_start)).1 = true) as E
    by (by vm_compute).
  destruct (store zero_hash [5; 6] (Some [1; 2; 3]) [] false None (sys_cache example_start)) as [[[hash after]|e] c'] eqn:Hs;
    [|done].
  exists hash, after, c'. split; [reflexivity|].
  refine (stored_block_loads _ _ _ _ _ _ _ _ _ _ _ _ _ Hs); [reflexivity|reflexivity|].
  right. split; vm_compute; reflexivity.
Defined.

(** The written block of the example, when the limit of the disk has become 10 bytes. *)
Definition example_full : Cache :=
  set_limits 10 100 (sys_cache (run_from
    [AStore zero_hash [5; 6] (Some [1; 2; 3]) [] false None; ATurn None; AWrite 0 1 1; AFinish 0 2; AEnd 0] example_start)).

Lemma budget_enforced_witness :
  (disk_bytes example_full, disk_bytes (enforce_disk_budget_locked 0 u64_max example_full).2) = (159, 0) /\
  let budget := (effective_disk_budget_locked example_full).1 in
  let c' := (enforce_disk_budget_locked 0 u64_max example_full).2 in
  disk_bytes c' <= (if budget <=? 0 then 0 else budget - 0) \/
  forall h e, disk c' !! h = Some e -> may_leave_disk h e c' = false.
Proof.
  split; [by vm_compute|]. apply (budget_enforced 0 example_full); by vm_compute.
Defined.
