(* ===== verification/MoeCache.v ===== *)
(** * The expert cache slot book ([engine/include/moe_cache_policy.h])

    Which expert occupies which cache slot, in least-recently-used order, with
    in-flight slots pinned, generation-checked leases, and two-phase
    replacement. [Slot::position] (an iterator into [lru_]) is the occurrence
    of the slot's index in the list [lru]; node handles extracted from
    [by_key_] are optional pairs. Vector capacity reservations have no effect
    on the state and are left out. *)

From stdpp Require Import base list strings gmap sorting.
From Stdlib Require Import ZArith Lia.
From S2P Require Import Prelude.

#[local] Set Default Proof Using "Type".
Open Scope Z_scope.

Record MoeCacheKey := { source : Z; cohort : Z; expert : Z }.

#[export] Instance key_eq_dec : EqDecision MoeCacheKey.
Proof. solve_decision. Defined.

#[export] Instance key_countable : Countable MoeCacheKey.
Proof.
  apply (inj_countable' (fun k => (source k, cohort k, expert k))
           (fun x => {| source := x.1.1; cohort := x.1.2; expert := x.2 |})).
  by intros [].
Defined.

Record MoeCacheSlotLease := {
  lease_slot : Z;
  lease_generation : Z;
  lease_hit : bool;
  lease_replaced : option MoeCacheKey;
}.

Record Slot := { key : option MoeCacheKey; generation : Z; inflight : bool; listed : bool }.

Record Book := {
  slots : list Slot;
  low_priority_sources : list Z;
  free : list nat;
  lru : list nat;
  by_key : gmap MoeCacheKey nat;
}.

Record Replacement := {
  r_slot : Z;
  r_expected : MoeCacheKey;
  r_replacement : MoeCacheKey;
  r_generation : Z;
  r_committed : bool;
  r_incoming : option (MoeCacheKey * nat);
  r_original : option (MoeCacheKey * nat);
}.

Definition empty_slot : Slot :=
  {| key := None; generation := 0; inflight := false; listed := false |}.

(** Member assignments. *)
Definition set_slot (i : nat) (s : Slot) (b : Book) : Book :=
  {| slots := <[i := s]> (slots b); low_priority_sources := low_priority_sources b;
     free := free b; lru := lru b; by_key := by_key b |}.
Definition set_free (l : list nat) (b : Book) : Book :=
  {| slots := slots b; low_priority_sources := low_priority_sources b;
     free := l; lru := lru b; by_key := by_key b |}.
Definition set_lru (l : list nat) (b : Book) : Book :=
  {| slots := slots b; low_priority_sources := low_priority_sources b;
     free := free b; lru := l; by_key := by_key b |}.
Definition set_by_key (m : gmap MoeCacheKey nat) (b : Book) : Book :=
  {| slots := slots b; low_priority_sources := low_priority_sources b;
     free := free b; lru := lru b; by_key := m |}.
Definition set_slots (l : list Slot) (b : Book) : Book :=
  {| slots := l; low_priority_sources := low_priority_sources b;
     free := free b; lru := lru b; by_key := by_key b |}.
Definition set_key (k : option MoeCacheKey) (s : Slot) : Slot :=
  {| key := k; generation := generation s; inflight := inflight s; listed := listed s |}.
Definition set_inflight (f : bool) (s : Slot) : Slot :=
  {| key := key s; generation := generation s; inflight := f; listed := listed s |}.
Definition set_listed (f : bool) (s : Slot) : Slot :=
  {| key := key s; generation := generation s; inflight := inflight s; listed := f |}.
(** [state.key = k; ++state.generation; state.inflight = false]. *)
Definition occupy (k : MoeCacheKey) (s : Slot) : Slot :=
  {| key := Some k; generation := u64 (generation s + 1); inflight := false;
     listed := listed s |}.

Definition capacity (b : Book) : Z := size_of (slots b).
Definition book_size (b : Book) : Z := Z.of_nat (size (by_key b)).

(** The constructor sizes the vector before it checks the capacity, so a
    negative capacity, converted to [size_t], exceeds [max_size()]. *)
Definition make_book (capacity : Z) : outcome Book :=
  if capacity <? 0 then Throw (LengthError "cannot create std::vector larger than max_size()")
  else if capacity =? 0 then
    Throw (InvalidArgument "MoE cache capacity must be positive")
  else Ok {| slots := replicate (Z.to_nat capacity) empty_slot; low_priority_sources := [];
             free := reverse (seq 0 (Z.to_nat capacity)); lru := []; by_key := ∅ |}.

Definition checked (slot : Z) (b : Book) : outcome (nat * Slot) :=
  if (slot <? 0) || (capacity b <=? slot) then
    Throw (OutOfRange "MoE cache slot is out of range")
  else
    match slots b !! Z.to_nat slot with
    | Some s => Ok (Z.to_nat slot, s)
    | None => Throw (OutOfRange "MoE cache slot is out of range")
    end.

(** [lru_.erase(state.position)]. *)
Definition unlink (i : nat) (l : list nat) : list nat := filter (fun j => j <> i) l.

Definition erase_lru (i : nat) (b : Book) : Book :=
  match slots b !! i with
  | Some s =>
      if listed s then set_lru (unlink i (lru b)) (set_slot i (set_listed false s) b) else b
  | None => b
  end.

Definition append_lru (i : nat) (b : Book) : Book :=
  match slots b !! i with
  | Some s => set_lru (lru b ++ [i]) (set_slot i (set_listed true s) b)
  | None => b
  end.

(** [lru_.splice(lru_.end(), lru_, state.position)]. *)
Definition splice_back (i : nat) (b : Book) : Book :=
  set_lru (unlink i (lru b) ++ [i]) b.

Definition splice_listed (i : nat) (b : Book) : Book :=
  match slots b !! i with
  | Some s => if listed s then splice_back i b else b
  | None => b
  end.

Definition prepare_resize (cap : Z) (b : Book) : outcome unit :=
  if cap <=? 0 then Throw (InvalidArgument "MoE cache capacity must be positive")
  else if existsb inflight (slots b)
  then Throw (RuntimeError "cannot resize an in-flight MoE cache")
  else Ok tt.

(** The body of the shrinking loop. *)
Definition drop_slot (b : Book) (i : nat) : Book :=
  match slots b !! i with
  | Some s =>
      let b := match key s with
               | Some k => set_by_key (delete k (by_key b)) b
               | None => b
               end in
      erase_lru i b
  | None => b
  end.

Definition resize (cap : Z) (b : Book) : outcome Book :=
  _ ← prepare_resize cap b;
  let previous := length (slots b) in
  let cap := Z.to_nat cap in
  let b :=
    if (cap <? previous)%nat then
      let b := foldl drop_slot b (seq cap (previous - cap)) in
      set_free (filter (fun i => ~ (cap <= i)%nat) (free b)) b
    else b in
  let b := set_slots (take cap (slots b) ++ replicate (cap - previous) empty_slot) b in
  Ok (set_free (free b ++ reverse (seq previous (cap - previous))) b).

(** [std::unique] on adjacent equal elements. *)
Fixpoint unique_adjacent (l : list Z) : list Z :=
  match l with
  | x :: ((y :: _) as r) => if x =? y then unique_adjacent r else x :: unique_adjacent r
  | _ => l
  end.

Definition set_low_priority_sources (sources : list Z) (b : Book) : Book :=
  {| slots := slots b; low_priority_sources := unique_adjacent (stable_sort Z.ltb sources);
     free := free b; lru := lru b; by_key := by_key b |}.

(** [std::binary_search]: the first element not below [x] is not above it. *)
Definition binary_search (l : list Z) (x : Z) : bool :=
  match list_find (fun y => (y <? x) = false) l with
  | Some (_, y) => negb (x <? y)
  | None => false
  end.

Definition slot_for (k : MoeCacheKey) (b : Book) : Z :=
  match by_key b !! k with Some i => Z.of_nat i | None => -1 end.

Definition key_for (slot : Z) (b : Book) : outcome (option MoeCacheKey) :=
  '(_, s) ← checked slot b; mret (key s).

Definition is_inflight (slot : Z) (b : Book) : outcome bool :=
  '(_, s) ← checked slot b; mret (inflight s).

Definition touch_listed (i : nat) (s : Slot) (b : Book) : Book :=
  if listed s then splice_back i b else append_lru i b.

Definition touch (slot : Z) (b : Book) : outcome Book :=
  '(i, s) ← checked slot b;
  match key s with
  | None => Throw (RuntimeError "cannot touch an empty MoE cache slot")
  | Some _ => Ok (touch_listed i s b)
  end.

Definition low_priority (b : Book) (i : nat) : bool :=
  match slots b !! i with
  | Some s =>
      negb (inflight s) &&
      match key s with
      | Some k => binary_search (low_priority_sources b) (source k)
      | None => false
      end
  | None => false
  end.

Definition idle (b : Book) (i : nat) : bool :=
  match slots b !! i with Some s => negb (inflight s) | None => false end.

(** The slot whose expert makes room. *)
Definition victim (b : Book) : option nat :=
  let low := if bool_decide (low_priority_sources b = []) then None
             else snd <$> list_find (fun i => low_priority b i = true) (lru b) in
  match low with
  | Some i => Some i
  | None => snd <$> list_find (fun i => idle b i = true) (lru b)
  end.

(** The end of [acquire] on a miss. *)
Definition install (i : nat) (k : MoeCacheKey) (replaced : option MoeCacheKey) (b : Book)
    : outcome MoeCacheSlotLease * Book :=
  match slots b !! i with
  | None => (Throw (OutOfRange "MoE cache slot is out of range"), b)
  | Some s =>
      let s := occupy k s in
      let b := append_lru i (set_by_key (<[k := i]> (by_key b)) (set_slot i s b)) in
      (Ok {| lease_slot := Z.of_nat i; lease_generation := generation s;
             lease_hit := false; lease_replaced := replaced |}, b)
  end.

Definition acquire (k : MoeCacheKey) (b : Book) : outcome MoeCacheSlotLease * Book :=
  match by_key b !! k with
  | Some i =>
      match slots b !! i with
      | None => (Throw (OutOfRange "MoE cache slot is out of range"), b)
      | Some s =>
          match touch (Z.of_nat i) b with
          | Throw e => (Throw e, b)
          | Ok b =>
              (Ok {| lease_slot := Z.of_nat i; lease_generation := generation s;
                     lease_hit := true; lease_replaced := None |}, b)
          end
      end
  | None =>
      match pop_back (free b) with
      | Some (rest, i) => install i k None (set_free rest b)
      | None =>
          match victim b with
          | None => (Throw (RuntimeError "all MoE cache slots are in-flight"), b)
          | Some i =>
              match slots b !! i with
              | None => (Throw (OutOfRange "MoE cache slot is out of range"), b)
              | Some s =>
                  let b := match key s with
                           | Some old => set_by_key (delete old (by_key b)) b
                           | None => b
                           end in
                  install i k (key s) (erase_lru i b)
              end
          end
      end
  end.

Definition mark_inflight (slot : Z) (b : Book) : outcome Book :=
  '(i, s) ← checked slot b;
  match key s with
  | None => Throw (RuntimeError "cannot mark an empty MoE cache slot in-flight")
  | Some _ => Ok (set_slot i (set_inflight true s) b)
  end.

Definition clear_inflight (slot : Z) (b : Book) : outcome Book :=
  '(i, s) ← checked slot b; mret (set_slot i (set_inflight false s) b).

Definition discard (k : MoeCacheKey) (slot gen : Z) (b : Book) : outcome (bool * Book) :=
  '(i, s) ← checked slot b;
  if bool_decide (key s = Some k) && (generation s =? gen) then
    let b := set_by_key (delete k (by_key b)) b in
    let b := set_slot i (set_inflight false (set_key None s)) b in
    let b := erase_lru i b in
    Ok (true, set_free (free b ++ [i]) b)
  else Ok (false, b).

Definition replace (slot : Z) (expected replacement : MoeCacheKey) (b : Book)
    : outcome (bool * Book) :=
  '(i, s) ← checked slot b;
  if negb (bool_decide (key s = Some expected)) || bool_decide (is_Some (by_key b !! replacement))
  then Ok (false, b)
  else
    let b := set_by_key (delete expected (<[replacement := i]> (by_key b))) b in
    Ok (true, splice_listed i (set_slot i (occupy replacement s) b)).

Definition prepare_replace (slot : Z) (expected replacement : MoeCacheKey) (b : Book)
    : outcome Replacement :=
  '(i, s) ← checked slot b;
  if negb (bool_decide (key s = Some expected)) || bool_decide (is_Some (by_key b !! replacement))
  then Throw (RuntimeError "MoE replacement no longer owns its slot")
  else Ok {| r_slot := slot; r_expected := expected; r_replacement := replacement;
             r_generation := generation s; r_committed := false;
             r_incoming := Some (replacement, i); r_original := None |}.

Definition replacement_valid (r : Replacement) (b : Book) : outcome bool :=
  '(_, s) ← checked (r_slot r) b;
  Ok (negb (r_committed r) && bool_decide (key s = Some (r_expected r)) &&
      (generation s =? r_generation r) &&
      bool_decide (by_key b !! r_replacement r = None)).

(** [by_key_.extract(k)]. *)
Definition extract (k : MoeCacheKey) (m : gmap MoeCacheKey nat)
    : option (MoeCacheKey * nat) * gmap MoeCacheKey nat :=
  (pair k <$> m !! k, delete k m).

(** [by_key_.insert(std::move(node))]: an empty node, or one whose key is
    present, is handed back. *)
Definition insert_node (node : option (MoeCacheKey * nat)) (m : gmap MoeCacheKey nat)
    : bool * gmap MoeCacheKey nat :=
  match node with
  | Some (k, i) => if bool_decide (m !! k = None) then (true, <[k := i]> m) else (false, m)
  | None => (false, m)
  end.

Definition commit_replace (r : Replacement) (b : Book)
    : outcome (bool * Replacement * Book) :=
  valid ← replacement_valid r b;
  if negb valid then Ok (false, r, b)
  else
    let '(inserted, m) := insert_node (r_incoming r) (by_key b) in
    if negb inserted then Ok (false, r, b)
    else
      let '(original, m) := extract (r_expected r) m in
      let b := set_by_key m b in
      '(i, s) ← checked (r_slot r) b;
      let b := splice_listed i (set_slot i (occupy (r_replacement r) s) b) in
      Ok (true, {| r_slot := r_slot r; r_expected := r_expected r;
                   r_replacement := r_replacement r; r_generation := r_generation r;
                   r_committed := true; r_incoming := None; r_original := original |}, b).

Definition rollback_replace (r : Replacement) (b : Book) : outcome (Replacement * Book) :=
  '(i, s) ← checked (r_slot r) b;
  if r_committed r then
    if negb (bool_decide (key s = Some (r_replacement r))) ||
       negb (generation s =? u64 (r_generation r + 1))
    then Throw (RuntimeError "MoE replacement changed during rollback")
    else
      let '(incoming, m) := extract (r_replacement r) (by_key b) in
      let '(inserted, m) := insert_node (r_original r) m in
      let s := {| key := Some (r_expected r); generation := r_generation r;
                  inflight := false; listed := listed s |} in
      Ok ({| r_slot := r_slot r; r_expected := r_expected r;
             r_replacement := r_replacement r; r_generation := r_generation r;
             r_committed := false; r_incoming := incoming; r_original := None |},
          set_slot i s (set_by_key m b))
  else if bool_decide (key s = Some (r_expected r)) && (generation s =? r_generation r)
  then Ok (r, set_slot i (set_inflight false s) b)
  else Ok (r, b).

(** ** Invariant *)

(** An occupied slot is mapped and listed; an empty one is free and idle. *)
Definition slot_ok (i : nat) (s : Slot) (b : Book) : Prop :=
  match key s with
  | Some k => by_key b !! k = Some i /\ listed s = true /\ i ∈ lru b /\ i ∉ free b
  | None => listed s = false /\ inflight s = false /\ i ∈ free b /\ i ∉ lru b
  end.

Record lists_ok (b : Book) : Prop := {
  lo_lru : NoDup (lru b);
  lo_free : NoDup (free b);
  lo_lru_bound : forall i, i ∈ lru b -> (i < length (slots b))%nat;
  lo_free_bound : forall i, i ∈ free b -> (i < length (slots b))%nat;
}.

Record book_ok (b : Book) : Prop := {
  bo_slots : forall i s, slots b !! i = Some s -> slot_ok i s b;
  bo_map : forall k i, by_key b !! k = Some i -> exists s, slots b !! i = Some s /\ key s = Some k;
  bo_lists : lists_ok b;
}.

(** Slot [i] is taken out of every structure, the rest is consistent. *)
Record detached (i : nat) (b : Book) : Prop := {
  de_slots : forall j s, j <> i -> slots b !! j = Some s -> slot_ok j s b;
  de_self : exists s, slots b !! i = Some s /\ listed s = false;
  de_lru : i ∉ lru b;
  de_free : i ∉ free b;
  de_map : forall k j, by_key b !! k = Some j ->
             j <> i /\ exists s, slots b !! j = Some s /\ key s = Some k;
  de_lists : lists_ok b;
}.

Lemma unlink_elem i j l : j ∈ unlink i l <-> j ∈ l /\ j <> i.
Proof. unfold unlink. rewrite list_elem_of_filter. tauto. Qed.

Lemma unlink_NoDup i l : NoDup l -> NoDup (unlink i l).
Proof. apply NoDup_filter. Qed.

Lemma unlink_perm i l : NoDup l -> i ∈ l -> unlink i l ++ [i] ≡ₚ l.
Proof.
  intros Hn Hi. apply NoDup_Permutation; [|done|].
  - apply NoDup_app. split; [by apply unlink_NoDup|]. split; [|apply NoDup_singleton].
    intros j [_ Hj]%unlink_elem. by intros ->%list_elem_of_singleton.
  - intros j. rewrite elem_of_app, unlink_elem, list_elem_of_singleton.
    destruct (decide (j = i)) as [->|]; naive_solver.
Qed.

Lemma lookup_set_slot i j s' s b :
  slots (set_slot i s' b) !! j = Some s ->
  (j = i /\ s = s') \/ (j <> i /\ slots b !! j = Some s).
Proof. simpl. intros [(-> & -> & _)|[? ?]]%list_lookup_insert_Some; [by left|by right]. Qed.

Lemma set_lru_ok b l : book_ok b -> l ≡ₚ lru b -> book_ok (set_lru l b).
Proof.
  intros [Hs Hm [Hl Hf Hlb Hfb]] Hp. split; simpl; [|done|].
  - intros i s Hi. specialize (Hs i s Hi). unfold slot_ok in *. simpl.
    destruct (key s); by rewrite Hp.
  - split; simpl; [by rewrite Hp|done| |done]. intros i. rewrite Hp. apply Hlb.
Qed.

Lemma occupied b i s k : book_ok b -> slots b !! i = Some s -> key s = Some k ->
  by_key b !! k = Some i /\ listed s = true /\ i ∈ lru b /\ i ∉ free b.
Proof. intros Hb Hi Hk. pose proof (bo_slots _ Hb i s Hi) as Hs. unfold slot_ok in Hs. by rewrite Hk in Hs. Qed.

Lemma splice_listed_ok b i : book_ok b -> book_ok (splice_listed i b).
Proof.
  intros Hb. unfold splice_listed. destruct (slots b !! i) as [s|] eqn:Hi; [|done].
  destruct (listed s) eqn:Hl; [|done]. apply set_lru_ok; [done|].
  apply unlink_perm; [apply Hb|].
  pose proof (bo_slots _ Hb i s Hi) as Hs. unfold slot_ok in Hs.
  destruct (key s); [apply Hs|]. destruct Hs as [Hl' _]. congruence.
Qed.

(** Detaching an occupied slot, with any unlisted contents left in it. *)
Lemma detach_occupied b i s k s' :
  book_ok b -> slots b !! i = Some s -> key s = Some k -> listed s' = false ->
  detached i (set_lru (unlink i (lru b)) (set_slot i s' (set_by_key (delete k (by_key b)) b))).
Proof.
  intros Hb Hi Hk Hl. destruct (occupied b i s k Hb Hi Hk) as (Hm & _ & _ & Hfr).
  destruct Hb as [Hs Hmap [Hln Hfn Hlb Hfb]]. pose proof (lookup_lt_Some _ _ _ Hi) as Hlt.
  split; simpl.
  - intros j t Hne Ht. rewrite list_lookup_insert_ne in Ht by done.
    specialize (Hs j t Ht). unfold slot_ok in *. simpl. destruct (key t) as [k'|] eqn:Hk'.
    + destruct Hs as (? & ? & ? & ?). split; [|split; [done|]].
      * rewrite lookup_delete_ne; [done|]. intros ->. congruence.
      * split; [by apply unlink_elem|done].
    + destruct Hs as (? & ? & ? & ?). do 3 (split; [done|]). rewrite unlink_elem. naive_solver.
  - exists s'. split; [by apply list_lookup_insert_eq|done].
  - rewrite unlink_elem. naive_solver.
  - done.
  - intros k' j Hj. apply lookup_delete_Some in Hj as [Hne Hj].
    destruct (Hmap k' j Hj) as (t & Ht & Hkt).
    assert (j <> i) as Hji by (intros ->; congruence). split; [done|].
    exists t. by rewrite list_lookup_insert_ne.
  - split; simpl; [by apply unlink_NoDup|done| |]; intros j Hj; rewrite length_insert; [|auto].
    apply unlink_elem in Hj as [Hj _]. auto.
Qed.

Lemma detach_free b rest i :
  book_ok b -> free b = rest ++ [i] -> detached i (set_free rest b).
Proof.
  intros [Hs Hmap [Hln Hfn Hlb Hfb]] Hf. rewrite Hf in Hfn, Hfb.
  apply NoDup_app in Hfn as (Hrn & Hd & _).
  assert (i ∉ rest) as Hir by (intros Hr; apply (Hd i Hr); set_solver).
  destruct (lookup_lt_is_Some_2 (slots b) i (Hfb i ltac:(set_solver))) as [s Hi].
  assert (i ∈ free b) as Hif by (rewrite Hf; set_solver).
  assert (key s = None /\ listed s = false /\ i ∉ lru b) as (Hk & Hl & Hnl).
  { pose proof (Hs i s Hi) as Hx. unfold slot_ok in Hx. destruct (key s); naive_solver. }
  split; simpl; try done.
  - intros j t Hne Ht. specialize (Hs j t Ht). unfold slot_ok in *. simpl.
    rewrite Hf in Hs. destruct (key t); set_solver.
  - eauto.
  - intros k j Hj. destruct (Hmap k j Hj) as (t & Ht & Hkt).
    split; [intros ->; congruence|eauto].
  - split; simpl; try done. set_solver.
Qed.

Lemma attach_free b i s :
  detached i b -> slots b !! i = Some s -> key s = None -> inflight s = false ->
  book_ok (set_free (free b ++ [i]) b).
Proof.
  intros [Hs (s0 & Hi0 & Hl0) Hnl Hnf Hmap [Hln Hfn Hlb Hfb]] Hi Hk Hfl. simplify_eq.
  split; simpl.
  - intros j t Ht. destruct (decide (j = i)) as [->|Hne].
    + simplify_eq. unfold slot_ok. rewrite Hk. simpl. set_solver.
    + specialize (Hs j t Hne Ht). unfold slot_ok in *. simpl. destruct (key t); set_solver.
  - intros k j Hj. by destruct (Hmap k j Hj).
  - split; simpl; try done.
    + apply NoDup_app. split; [done|]. split; [set_solver|apply NoDup_singleton].
    + intros j [Hj| ->%list_elem_of_singleton]%elem_of_app; [auto|].
      by eapply lookup_lt_Some.
Qed.

(** The book after a miss puts [k] in slot [i]. *)
Lemma install_ok b i k replaced :
  detached i b -> by_key b !! k = None ->
  exists s, slots b !! i = Some s /\
  install i k replaced b =
    (Ok {| lease_slot := Z.of_nat i; lease_generation := u64 (generation s + 1);
           lease_hit := false; lease_replaced := replaced |}, (install i k replaced b).2) /\
  let b' := (install i k replaced b).2 in
  book_ok b' /\
  slots b' = <[i := set_listed true (occupy k s)]> (slots b) /\
  by_key b' = <[k := i]> (by_key b) /\ lru b' = lru b ++ [i] /\ free b' = free b.
Proof.
  intros [Hs (s & Hi & Hl) Hnl Hnf Hmap [Hln Hfn Hlb Hfb]] Hk. exists s. split; [done|].
  pose proof (lookup_lt_Some _ _ _ Hi) as Hlt.
  unfold install. rewrite Hi. unfold append_lru. simpl.
  rewrite list_lookup_insert_eq by done. simpl. rewrite !list_insert_insert_eq.
  split; [done|]. simpl. split; [|done]. split; simpl; rewrite ?list_insert_insert_eq.
  - intros j t [(-> & <- & _)|[Hne Ht]]%list_lookup_insert_Some; unfold slot_ok; simpl.
    + rewrite lookup_insert_eq. set_solver.
    + specialize (Hs j t (not_eq_sym Hne) Ht). unfold slot_ok in Hs. destruct (key t) as [k'|].
      * rewrite lookup_insert_ne by naive_solver. set_solver.
      * set_solver.
  - intros k' j Hj. apply lookup_insert_Some in Hj as [[<- <-]|[Hne Hj]].
    + eexists. split; [by apply list_lookup_insert_eq|done].
    + destruct (Hmap k' j Hj) as (Hji & t & Ht & Hkt). exists t.
      by rewrite list_lookup_insert_ne.
  - split; simpl; rewrite ?list_insert_insert_eq, ?length_insert; [|done| |auto].
    + apply NoDup_app. split; [done|]. split; [set_solver|apply NoDup_singleton].
    + intros j [Hj| ->%list_elem_of_singleton]%elem_of_app; auto.
Qed.

(** Changing the key of an occupied slot in place. *)
Lemma rekey_ok b i s k k' s' :
  book_ok b -> slots b !! i = Some s -> key s = Some k -> by_key b !! k' = None ->
  key s' = Some k' -> listed s' = listed s ->
  book_ok (set_slot i s' (set_by_key (<[k' := i]> (delete k (by_key b))) b)).
Proof.
  intros Hb Hi Hk Hn Hk' Hl'. destruct (occupied b i s k Hb Hi Hk) as (Hm & Hl & Hir & Hfr).
  destruct Hb as [Hs Hmap [Hln Hfn Hlb Hfb]]. pose proof (lookup_lt_Some _ _ _ Hi) as Hlt.
  split; simpl.
  - intros j t [(-> & <- & _)|[Hne Ht]]%list_lookup_insert_Some; unfold slot_ok; simpl.
    + rewrite Hk', lookup_insert_eq. split; [done|]. split; [congruence|done].
    + specialize (Hs j t Ht). unfold slot_ok in Hs. destruct (key t) as [kt|]; [|done].
      destruct Hs as (Hkt & Hs). split; [|done].
      rewrite lookup_insert_ne by congruence. rewrite lookup_delete_ne by congruence. done.
  - intros k2 j Hj. apply lookup_insert_Some in Hj as [[<- <-]|[Hne Hj]].
    + exists s'. split; [by apply list_lookup_insert_eq|done].
    + apply lookup_delete_Some in Hj as [Hne' Hj]. destruct (Hmap k2 j Hj) as (t & Ht & Hkt).
      exists t. rewrite list_lookup_insert_ne; [done|]. intros ->. congruence.
  - split; simpl; try done; intros j; rewrite length_insert; auto.
Qed.

(** Changing the in-flight flag or the generation of an occupied slot. *)
Lemma flag_ok b i s s' :
  book_ok b -> slots b !! i = Some s -> key s' = key s -> listed s' = listed s ->
  (key s = None -> inflight s' = false) -> book_ok (set_slot i s' b).
Proof.
  intros [Hs Hmap [Hln Hfn Hlb Hfb]] Hi Hk Hl Hf. pose proof (lookup_lt_Some _ _ _ Hi) as Hlt.
  split; simpl.
  - intros j t [(-> & <- & _)|[Hne Ht]]%list_lookup_insert_Some; unfold slot_ok; simpl; [|by apply Hs].
    specialize (Hs j s Hi). unfold slot_ok in Hs. rewrite Hk, Hl. destruct (key s); [done|].
    destruct Hs as (? & ? & ?). split; [done|]. split; [auto|done].
  - intros k j Hj. destruct (Hmap k j Hj) as (t & Ht & Hkt).
    destruct (decide (j = i)) as [->|Hne].
    + exists s'. split; [by apply list_lookup_insert_eq|congruence].
    + exists t. by rewrite list_lookup_insert_ne.
  - split; simpl; try done; intros j; rewrite length_insert; auto.
Qed.

(** ** Low-priority sources *)

Lemma unique_adjacent_elem l x : x ∈ unique_adjacent l <-> x ∈ l.
Proof.
  induction l as [|a l IH]; [done|]. destruct l as [|b l]; [done|].
  cbn [unique_adjacent]. cbn [unique_adjacent] in IH.
  destruct (Z.eqb_spec a b) as [->|Hne]; rewrite ?elem_of_cons, IH, ?elem_of_cons; tauto.
Qed.

Lemma unique_adjacent_sorted l :
  StronglySorted Z.le l -> StronglySorted Z.le (unique_adjacent l).
Proof.
  induction l as [|a l IH]; [done|]. intros [Ha Hl]%StronglySorted_cons. specialize (IH Hl).
  destruct l as [|b l]; [repeat constructor|].
  change (StronglySorted Z.le
    (if a =? b then unique_adjacent (b :: l) else a :: unique_adjacent (b :: l))).
  destruct (a =? b); [done|]. apply StronglySorted_cons. split; [|done].
  rewrite Forall_forall in Ha |- *. intros x Hx. rewrite unique_adjacent_elem in Hx. by apply Ha.
Qed.

Lemma sources_sorted l : StronglySorted Z.le (unique_adjacent (stable_sort Z.ltb l)).
Proof.
  apply unique_adjacent_sorted. eapply StronglySorted_mono; [|apply stable_sort_sorted].
  - intros x y Hxy%Z.ltb_ge. done.
  - intros x y Hxy%Z.ltb_lt. apply Z.ltb_ge. lia.
  - intros x y z Hy%Z.ltb_ge Hz%Z.ltb_ge. apply Z.ltb_ge. lia.
Qed.

Lemma binary_search_spec l x :
  StronglySorted Z.le l -> binary_search l x = true <-> x ∈ l.
Proof.
  intros Hs. unfold binary_search.
  destruct (list_find _ l) as [[i y]|] eqn:Hf.
  - apply list_find_Some in Hf as (Hi & Hy & Hbefore). apply Z.ltb_ge in Hy.
    rewrite negb_true_iff, Z.ltb_ge. split.
    + intros. assert (x = y) as -> by lia. by eapply list_elem_of_lookup_2.
    + intros [j Hj]%list_elem_of_lookup. destruct (decide (j < i)%nat) as [Hlt|Hge].
      { specialize (Hbefore j x Hj Hlt). rewrite Z.ltb_irrefl in Hbefore. done. }
      destruct (decide (j = i)) as [->|Hne]; [simplify_eq; lia|].
      rewrite <- (take_drop_middle l i y Hi) in Hs, Hj.
      rewrite lookup_app_r in Hj by (rewrite length_take; lia).
      rewrite length_take, Nat.min_l in Hj by (apply lookup_lt_Some in Hi; lia).
      destruct (j - i)%nat as [|n] eqn:Hn; [lia|]. simpl in Hj.
      apply StronglySorted_app in Hs as (_ & _ & Hs).
      apply StronglySorted_cons in Hs as [Hfa _]. rewrite Forall_forall in Hfa.
      apply Hfa. by eapply list_elem_of_lookup_2.
  - apply list_find_None in Hf. split; [done|]. intros Hx.
    rewrite Forall_forall in Hf. specialize (Hf x Hx). simpl in Hf.
    rewrite Z.ltb_irrefl in Hf. done.
Qed.

(** ** [acquire] *)

(** [i] is the first element of [l] satisfying [P]. *)
Definition first_of (P : nat -> Prop) (l : list nat) (i : nat) : Prop :=
  exists l1 l2, l = l1 ++ i :: l2 /\ P i /\ Forall (fun j => ~ P j) l1.

Lemma list_find_first (f : nat -> bool) l :
  match list_find (fun i => f i = true) l with
  | Some (_, i) => first_of (fun i => f i = true) l i
  | None => forall i, i ∈ l -> f i = false
  end.
Proof.
  destruct (list_find _ l) as [[n i]|] eqn:Hf.
  - apply list_find_Some in Hf as (Hi & Hfi & Hb).
    exists (take n l), (drop (S n) l). split; [by rewrite take_drop_middle|]. split; [done|].
    apply Forall_forall. intros j [m Hm]%list_elem_of_lookup.
    apply lookup_take_Some in Hm as [Hm Hlt]. by apply (Hb m j).
  - apply list_find_None in Hf. rewrite Forall_forall in Hf.
    intros i Hi. apply not_true_iff_false. by apply Hf.
Qed.

(** An unpinned slot whose expert belongs to a low-priority source. *)
Definition low (b : Book) (i : nat) : Prop :=
  exists s k, slots b !! i = Some s /\ inflight s = false /\ key s = Some k /\
    source k ∈ low_priority_sources b.
Definition unpinned (b : Book) (i : nat) : Prop :=
  exists s, slots b !! i = Some s /\ inflight s = false.

Lemma low_priority_spec b i :
  StronglySorted Z.le (low_priority_sources b) -> low_priority b i = true <-> low b i.
Proof.
  intros Hs. unfold low_priority, low. destruct (slots b !! i) as [s|]; [|naive_solver].
  rewrite andb_true_iff, negb_true_iff. destruct (key s) as [k|] eqn:Hk.
  - rewrite binary_search_spec by done. split.
    + intros [? ?]. exists s, k. done.
    + intros (t & k' & [= <-] & Hf & Hkt & Hin). split; congruence.
  - split; [by intros [_ ?]|]. intros (t & k' & [= <-] & _ & Hkt & _). congruence.
Qed.

Lemma idle_spec b i : idle b i = true <-> unpinned b i.
Proof.
  unfold idle, unpinned. destruct (slots b !! i) as [s|]; [|naive_solver].
  rewrite negb_true_iff. naive_solver.
Qed.

Lemma first_of_iff P Q l i : (forall j, P j <-> Q j) -> first_of P l i -> first_of Q l i.
Proof.
  intros HPQ (l1 & l2 & Hl & Hi & Hb). exists l1, l2. split; [done|].
  split; [by apply HPQ|]. eapply Forall_impl; [exact Hb|]. simpl. intros j Hj. by rewrite <- HPQ.
Qed.

Lemma first_of_elem P l i : first_of P l i -> i ∈ l /\ P i.
Proof. intros (l1 & l2 & -> & Hi & _). set_solver. Qed.

(** The victim: the least recently used low-priority slot when there is one,
    else the least recently used unpinned slot. *)
Definition victim_choice (b : Book) (i : nat) : Prop :=
  first_of (low b) (lru b) i \/
  ((forall j, j ∈ lru b -> ~ low b j) /\ first_of (unpinned b) (lru b) i).

Lemma victim_spec b :
  StronglySorted Z.le (low_priority_sources b) ->
  match victim b with
  | Some i => victim_choice b i
  | None => forall i, i ∈ lru b -> ~ unpinned b i
  end.
Proof.
  intros Hs. unfold victim, victim_choice.
  pose proof (list_find_first (low_priority b) (lru b)) as Hlow.
  pose proof (list_find_first (idle b) (lru b)) as Hidle.
  assert (forall j, low_priority b j = true <-> low b j) as Hl
    by (intros; by apply low_priority_spec).
  assert (low_priority_sources b = [] -> forall j, ~ low b j) as Hemp.
  { intros He j (? & ? & _ & _ & _ & Hin). rewrite He in Hin. set_solver. }
  case_bool_decide as He.
  - destruct (list_find (fun i => idle b i = true) (lru b)) as [[n i]|]; simpl.
    + right. split; [intros; by apply Hemp|]. eapply first_of_iff; [|exact Hidle]. apply idle_spec.
    + intros i Hi. rewrite <- idle_spec, Hidle; done.
  - destruct (list_find (fun i => low_priority b i = true) (lru b)) as [[n i]|]; simpl.
    { left. eapply first_of_iff; [|exact Hlow]. done. }
    destruct (list_find (fun i => idle b i = true) (lru b)) as [[n i]|]; simpl.
    + right. split; [intros j Hj; rewrite <- Hl, Hlow; done|].
      eapply first_of_iff; [|exact Hidle]. apply idle_spec.
    + intros i Hi. rewrite <- idle_spec, Hidle; done.
Qed.

Lemma victim_choice_spec b i : victim_choice b i -> i ∈ lru b /\ unpinned b i.
Proof.
  intros [H%first_of_elem|[_ H%first_of_elem]]; [|done].
  destruct H as [? (s & k & ? & ? & _)]. split; [done|]. by exists s.
Qed.

(** Every listed slot of a consistent book is occupied. *)
Lemma lru_occupied b i : book_ok b -> i ∈ lru b ->
  exists s k, slots b !! i = Some s /\ key s = Some k.
Proof.
  intros Hb Hi. destruct (lookup_lt_is_Some_2 _ _ (lo_lru_bound _ (bo_lists _ Hb) i Hi)) as [s Hs].
  exists s. pose proof (bo_slots _ Hb i s Hs) as Hok. unfold slot_ok in Hok.
  destruct (key s) as [k|]; [by exists k|]. destruct Hok as (_ & _ & _ & Hno). done.
Qed.

Lemma mapped_touch b k i : book_ok b -> by_key b !! k = Some i ->
  exists s, slots b !! i = Some s /\ key s = Some k /\
    checked (Z.of_nat i) b = Ok (i, s) /\ touch (Z.of_nat i) b = Ok (splice_back i b).
Proof.
  intros Hb Hk. destruct (bo_map _ Hb k i Hk) as (s & Hs & Hks). exists s.
  destruct (occupied b i s k Hb Hs Hks) as (_ & Hl & _ & _).
  assert (checked (Z.of_nat i) b = Ok (i, s)) as Hc.
  { unfold checked, capacity, size_of. pose proof (lookup_lt_Some _ _ _ Hs).
    rewrite (proj2 (Z.ltb_ge _ _)), (proj2 (Z.leb_gt _ _)), Nat2Z.id, Hs by lia. done. }
  split; [done|]. split; [done|]. split; [done|].
  unfold touch. rewrite Hc. simpl. rewrite Hks. unfold touch_listed. by rewrite Hl.
Qed.

(** What a successful [acquire] of an absent key does with slot [i]. *)
Record installed (k : MoeCacheKey) (i : nat) (s : Slot) (b b' : Book) : Prop := {
  in_slots : slots b' = <[i := {| key := Some k; generation := u64 (generation s + 1);
                                 inflight := false; listed := true |}]> (slots b);
  in_map : by_key b' = <[k := i]> (match key s with Some old => delete old (by_key b)
                                   | None => by_key b end);
  in_lru : lru b' = unlink i (lru b) ++ [i];
  in_free : free b' = unlink i (free b);
  in_sources : low_priority_sources b' = low_priority_sources b;
}.

Lemma unlink_id i l : i ∉ l -> unlink i l = l.
Proof.
  intros Hi. unfold unlink. induction l as [|j l IH]; [done|].
  rewrite filter_cons_True by set_solver. f_equal. set_solver.
Qed.

Lemma install_sources i k r b :
  low_priority_sources (install i k r b).2 = low_priority_sources b.
Proof.
  unfold install. destruct (slots b !! i); [|done]. unfold append_lru.
  simpl. by destruct (_ !! i).
Qed.

Lemma acquire_free b k rest i :
  book_ok b -> by_key b !! k = None -> free b = rest ++ [i] ->
  exists s b', slots b !! i = Some s /\ key s = None /\ inflight s = false /\
    acquire k b = (Ok {| lease_slot := Z.of_nat i; lease_generation := u64 (generation s + 1);
                         lease_hit := false; lease_replaced := None |}, b') /\
    book_ok b' /\ installed k i s b b'.
Proof.
  intros Hb Hk Hf. pose proof (detach_free b rest i Hb Hf) as Hd.
  destruct (install_ok (set_free rest b) i k None Hd Hk) as (s & Hs & Heq & Hok & H1 & H2 & H3 & H4).
  simpl in *. exists s, (install i k None (set_free rest b)).2.
  pose proof (bo_slots _ Hb i s Hs) as Hslot. unfold slot_ok in Hslot.
  assert (i ∈ free b) as Hin by (rewrite Hf; set_solver).
  destruct (key s) eqn:Hks; [by destruct Hslot as (_ & _ & _ & ?)|].
  destruct Hslot as (Hl & Hfl & _ & Hnl).
  split; [done|]. split; [done|]. split; [done|]. split.
  { unfold acquire. rewrite Hk. rewrite (proj2 (pop_back_Some _ rest i) Hf). exact Heq. }
  split; [done|]. split; [exact H1|by rewrite Hks|by rewrite unlink_id|
    |exact (install_sources i k None (set_free rest b))].
  rewrite H4, Hf. unfold unlink. rewrite filter_app, filter_cons_False by naive_solver.
  rewrite filter_nil, app_nil_r. symmetry. apply (unlink_id i rest).
  pose proof (lo_free _ (bo_lists _ Hb)) as Hn. rewrite Hf in Hn.
  apply NoDup_app in Hn as (_ & Hdis & _). intros Hr. apply (Hdis i Hr). set_solver.
Qed.

Lemma acquire_evict b k i :
  book_ok b -> by_key b !! k = None -> free b = [] -> victim b = Some i -> i ∈ lru b ->
  exists s b', slots b !! i = Some s /\
    acquire k b = (Ok {| lease_slot := Z.of_nat i; lease_generation := u64 (generation s + 1);
                         lease_hit := false; lease_replaced := key s |}, b') /\
    book_ok b' /\ installed k i s b b'.
Proof.
  intros Hb Hk Hf Hv Hi. destruct (lru_occupied b i Hb Hi) as (s & old & Hs & Hks).
  pose proof (detach_occupied b i s old (set_listed false s) Hb Hs Hks eq_refl) as Hd.
  destruct (occupied b i s old Hb Hs Hks) as (Hm & Hl & _ & Hnf).
  set (b1 := set_lru _ _) in Hd.
  destruct (install_ok b1 i k (key s) Hd) as (s' & Hs' & Heq & Hok & H1 & H2 & H3 & H4).
  { simpl. by rewrite lookup_delete_ne by congruence. }
  pose proof (lookup_lt_Some _ _ _ Hs) as Hlt.
  simpl in Hs'. rewrite list_lookup_insert_eq in Hs' by done. injection Hs' as <-.
  exists s, (install i k (key s) b1).2. split; [done|]. split.
  { unfold acquire. rewrite Hk. rewrite (proj2 (pop_back_None _) Hf), Hv, Hs, Hks.
    unfold erase_lru. simpl. rewrite Hs, Hl. rewrite Hks in Heq. exact Heq. }
  split; [done|]. split.
  - rewrite H1. simpl. by rewrite list_insert_insert_eq.
  - by rewrite H2, Hks.
  - by rewrite H3.
  - rewrite H4. simpl. symmetry. by apply unlink_id.
  - by rewrite install_sources.
Qed.

Lemma acquire_stuck b k :
  book_ok b -> by_key b !! k = None -> free b = [] -> victim b = None ->
  acquire k b = (Throw (RuntimeError "all MoE cache slots are in-flight"), b).
Proof.
  intros Hb Hk Hf Hv. unfold acquire. by rewrite Hk, (proj2 (pop_back_None _) Hf), Hv.
Qed.

(** ** The other operations *)

Lemma checked_ok slot b i s :
  checked slot b = Ok (i, s) <-> slot = Z.of_nat i /\ slots b !! i = Some s.
Proof.
  unfold checked, capacity, size_of. split.
  - destruct (Z.ltb_spec slot 0); [done|]. destruct (Z.leb_spec (Z.of_nat (length (slots b))) slot);
      [done|]. simpl. destruct (slots b !! Z.to_nat slot) eqn:E; [|done].
    intros [= <- <-]. split; [lia|done].
  - intros [-> Hs]. pose proof (lookup_lt_Some _ _ _ Hs).
    rewrite (proj2 (Z.ltb_ge _ _)), (proj2 (Z.leb_gt _ _)), Nat2Z.id, Hs by lia. done.
Qed.

Lemma touch_ok slot b b' : book_ok b -> touch slot b = Ok b' -> book_ok b'.
Proof.
  intros Hb. unfold touch. destruct (checked slot b) as [[i s]|] eqn:Hc; [|done].
  apply checked_ok in Hc as [-> Hs]. simpl. destruct (key s) as [k|] eqn:Hk; [|done].
  intros [= <-]. unfold touch_listed. destruct (occupied b i s k Hb Hs Hk) as (_ & Hl & Hi & _).
  rewrite Hl. apply set_lru_ok; [done|]. by apply unlink_perm; [apply Hb|].
Qed.

Lemma mark_inflight_ok slot b b' : book_ok b -> mark_inflight slot b = Ok b' -> book_ok b'.
Proof.
  intros Hb. unfold mark_inflight. destruct (checked slot b) as [[i s]|] eqn:Hc; [|done].
  apply checked_ok in Hc as [-> Hs]. simpl. destruct (key s) as [k|] eqn:Hk; [|done].
  intros [= <-]. apply (flag_ok b i s); try done. congruence.
Qed.

Lemma clear_inflight_ok slot b b' : book_ok b -> clear_inflight slot b = Ok b' -> book_ok b'.
Proof.
  intros Hb. unfold clear_inflight. destruct (checked slot b) as [[i s]|] eqn:Hc; [|done].
  apply checked_ok in Hc as [-> Hs]. simpl. intros [= <-]. by apply (flag_ok b i s).
Qed.

Lemma discard_ok k slot gen b r b' :
  book_ok b -> discard k slot gen b = Ok (r, b') -> book_ok b'.
Proof.
  intros Hb. unfold discard. destruct (checked slot b) as [[i s]|] eqn:Hc; [|done].
  apply checked_ok in Hc as [-> Hs]. simpl. case_bool_decide as Hk; simpl; [|congruence].
  destruct (generation s =? gen); [|congruence]. intros [= <- <-].
  destruct (occupied b i s k Hb Hs Hk) as (_ & Hl & _ & _).
  set (t := set_listed false (set_inflight false (set_key None s))).
  pose proof (detach_occupied b i s k t Hb Hs Hk eq_refl) as Hd.
  pose proof (lookup_lt_Some _ _ _ Hs) as Hlt.
  unfold erase_lru. simpl. rewrite list_lookup_insert_eq by done. simpl. rewrite Hl.
  match type of Hd with detached _ ?x =>
    assert (book_ok (set_free (free x ++ [i]) x)) as Hok end.
  { apply (attach_free _ _ t); [done|by apply list_lookup_insert_eq|done..]. }
  unfold set_slot, set_lru, set_by_key, set_free in *. simpl in *.
  by rewrite list_insert_insert_eq.
Qed.

(** Moving the occupant of [i] under a new key, then to the recent end. *)
Lemma rekey_splice_ok b i s k k' :
  book_ok b -> slots b !! i = Some s -> key s = Some k -> by_key b !! k' = None ->
  book_ok (splice_listed i (set_slot i (occupy k' s)
             (set_by_key (<[k' := i]> (delete k (by_key b))) b))).
Proof.
  intros Hb Hs Hk Hn. apply splice_listed_ok. by apply (rekey_ok b i s k k').
Qed.

Lemma replace_ok slot k k' b r b' :
  book_ok b -> replace slot k k' b = Ok (r, b') -> book_ok b'.
Proof.
  intros Hb. unfold replace. destruct (checked slot b) as [[i s]|] eqn:Hc; [|done].
  apply checked_ok in Hc as [-> Hs]. simpl.
  case_bool_decide as Hk; simpl; [|congruence].
  case_bool_decide as Hn; simpl; [congruence|]. intros [= <- <-].
  assert (by_key b !! k' = None) as Hn' by (by apply eq_None_not_Some).
  destruct (occupied b i s k Hb Hs Hk) as (Hm & _).
  rewrite delete_insert_ne by congruence. by apply rekey_splice_ok.
Qed.

(** A replacement prepared for slot [i] whose node has not been used. *)
Definition prepared (r : Replacement) (i : nat) : Prop :=
  r_slot r = Z.of_nat i /\ r_committed r = false /\ r_incoming r = Some (r_replacement r, i).

Definition committed (r : Replacement) (i : nat) : Replacement :=
  {| r_slot := r_slot r; r_expected := r_expected r;
     r_replacement := r_replacement r; r_generation := r_generation r;
     r_committed := true; r_incoming := None; r_original := Some (r_expected r, i) |}.

Lemma commit_valid r b i s :
  book_ok b -> prepared r i -> slots b !! i = Some s -> key s = Some (r_expected r) ->
  generation s = r_generation r -> by_key b !! r_replacement r = None ->
  commit_replace r b =
    Ok (true, committed r i,
        splice_listed i (set_slot i (occupy (r_replacement r) s)
          (set_by_key (<[r_replacement r := i]> (delete (r_expected r) (by_key b))) b))).
Proof.
  intros Hb (Hsl & Hcm & Hin) Hs Hk Hg Hn. unfold commit_replace, replacement_valid.
  rewrite Hcm, Hsl, (proj2 (checked_ok (Z.of_nat i) b i s)) by done. simpl.
  rewrite bool_decide_true, (proj2 (Z.eqb_eq _ _)), bool_decide_true by done. simpl.
  destruct (occupied b i s _ Hb Hs Hk) as (Hm & _).
  assert (r_replacement r <> r_expected r) as Hne by congruence.
  rewrite Hin. simpl. rewrite bool_decide_true by done. simpl.
  rewrite (proj2 (checked_ok (Z.of_nat i) _ i s)) by done. simpl.
  rewrite lookup_insert_ne, Hm, delete_insert_ne by done. simpl. by rewrite <- Hsl.
Qed.

Lemma commit_cases r b i x r' b' :
  book_ok b -> prepared r i -> commit_replace r b = Ok (x, r', b') ->
  b' = b \/ exists s, slots b !! i = Some s /\ key s = Some (r_expected r) /\
    by_key b !! r_replacement r = None /\
    b' = splice_listed i (set_slot i (occupy (r_replacement r) s)
           (set_by_key (<[r_replacement r := i]> (delete (r_expected r) (by_key b))) b)).
Proof.
  intros Hb Hp Hc. pose proof Hc as Hc'. revert Hc'. destruct Hp as (Hsl & Hcm & Hin) eqn:Ep.
  unfold commit_replace at 1, replacement_valid. rewrite Hcm, Hsl.
  destruct (checked (Z.of_nat i) b) as [[j s]|e] eqn:Hck; cbn [mbind outcome_bind]; [|done].
  apply checked_ok in Hck as [Hj%Nat2Z.inj Hs]. subst j.
  case_bool_decide as Hk; simpl; [|intros; left; congruence].
  destruct (Z.eqb_spec (generation s) (r_generation r)) as [Hg|]; simpl; [|intros; left; congruence].
  case_bool_decide as Hn; simpl; [|intros; left; congruence]. intros _. right. exists s.
  rewrite (commit_valid r b i s) in Hc by done. by simplify_eq.
Qed.

Lemma commit_replace_ok r i b x r' b' :
  book_ok b -> prepared r i -> commit_replace r b = Ok (x, r', b') -> book_ok b'.
Proof.
  intros Hb Hp Hc. destruct (commit_cases r b i x r' b' Hb Hp Hc) as [->|(s & Hi & Hk & Hn & ->)];
    [done|by apply rekey_splice_ok].
Qed.

(** A committed replacement, not undone since: its old key has no slot. *)
Definition revertible (r : Replacement) (i : nat) (b : Book) : Prop :=
  r_slot r = Z.of_nat i /\
  (r_committed r = true ->
     r_original r = Some (r_expected r, i) /\ by_key b !! r_expected r = None).

Lemma rollback_replace_ok r i b r' b' :
  book_ok b -> revertible r i b -> rollback_replace r b = Ok (r', b') -> book_ok b'.
Proof.
  intros Hb (Hsl & Hrev). unfold rollback_replace. rewrite Hsl.
  destruct (checked (Z.of_nat i) b) as [[j s]|] eqn:Hc; [|done]. cbn [mbind outcome_bind].
  apply checked_ok in Hc as [Hj%Nat2Z.inj Hs]. subst j.
  destruct (r_committed r).
  - destruct (Hrev eq_refl) as [Ho Hn]. case_bool_decide as Hk; [|done]. simpl.
    destruct (negb _); [done|]. rewrite Ho. simpl.
    destruct (occupied b i s _ Hb Hs Hk) as (Hm & _).
    rewrite bool_decide_true by (by rewrite lookup_delete_ne by congruence).
    intros [= _ <-]. by apply (rekey_ok b i s (r_replacement r) (r_expected r)).
  - destruct (_ && _); intros [= _ <-]; [|done]. by apply (flag_ok b i s).
Qed.

(** ** [resize] *)

(** The book while the shrinking loop has processed the slots [cap..n-1]. *)
Record dropped (cap n : nat) (b b' : Book) : Prop := {
  dr_length : length (slots b') = length (slots b);
  dr_slots : forall j, (j < cap \/ n <= j)%nat -> slots b' !! j = slots b !! j;
  dr_map : forall k i, by_key b' !! k = Some i <->
             by_key b !! k = Some i /\ (i < cap \/ n <= i)%nat;
  dr_lru : lru b' = filter (fun i => i < cap \/ n <= i)%nat (lru b);
  dr_free : free b' = free b;
  dr_sources : low_priority_sources b' = low_priority_sources b;
}.

Lemma drop_slot_step cap n b b' :
  book_ok b -> (cap <= n)%nat -> (n < length (slots b))%nat -> dropped cap n b b' ->
  dropped cap (S n) b (drop_slot b' n).
Proof.
  intros Hb Hcn Hn [Hlen Hsl Hmap Hlru Hfree Hsrc].
  destruct (lookup_lt_is_Some_2 _ _ Hn) as [s Hs].
  assert (slots b' !! n = Some s) as Hs' by (rewrite Hsl; [done|by right]).
  pose proof (bo_slots _ Hb n s Hs) as Hok. unfold slot_ok in Hok.
  assert (unlink n (lru b') = filter (fun i => i < cap \/ S n <= i)%nat (lru b)) as Hun.
  { rewrite Hlru. unfold unlink. rewrite list_filter_filter. apply list_filter_iff. lia. }
  unfold drop_slot. rewrite Hs'. destruct (key s) as [k|] eqn:Hk.
  - destruct Hok as (Hm & Hl & _). unfold erase_lru. simpl. rewrite Hs', Hl.
    split; simpl; try done.
    + by rewrite length_insert.
    + intros j Hj. rewrite list_lookup_insert_ne by lia. apply Hsl. lia.
    + intros k' i. rewrite lookup_delete_Some, Hmap. split.
      * intros (Hne & Hi & Hr). split; [done|]. destruct (decide (i = n)) as [->|]; [|lia].
        destruct (bo_map _ Hb _ _ Hi) as (t & Ht & Hkt). congruence.
      * intros (Hi & Hr). split; [intros ->; rewrite Hm in Hi; injection Hi; lia|].
        split; [done|lia].
  - destruct Hok as (Hl & _ & _ & Hnl). unfold erase_lru. rewrite Hs', Hl.
    split; try done.
    + intros j Hj. apply Hsl. lia.
    + intros k' i. rewrite Hmap. split; [|intros [? ?]; split; [done|lia]].
      intros (Hi & Hr). split; [done|]. destruct (decide (i = n)) as [->|]; [|lia].
      destruct (bo_map _ Hb _ _ Hi) as (t & Ht & Hkt). congruence.
    + rewrite <- Hun. symmetry. apply unlink_id. rewrite Hlru, list_elem_of_filter. tauto.
Qed.

Lemma drop_slots cap m b :
  book_ok b -> (cap + m <= length (slots b))%nat ->
  dropped cap (cap + m) b (foldl drop_slot b (seq cap m)).
Proof.
  intros Hb. induction m as [|m IH]; intros Hm; [rewrite Nat.add_0_r|].
  - simpl. split; try done.
    + intros k i. split; [intros Hi; split; [done|lia]|tauto].
    + symmetry. apply filter_all. intros i _. lia.
  - rewrite seq_S, foldl_snoc. rewrite Nat.add_succ_r.
    apply drop_slot_step; [done|lia|lia|apply IH; lia].
Qed.

(** The book with the slots from [cap] on gone. *)
Lemma shrink_ok cap b :
  book_ok b -> (cap <= length (slots b))%nat ->
  let b1 := foldl drop_slot b (seq cap (length (slots b) - cap)) in
  book_ok (set_slots (take cap (slots b1))
             (set_free (filter (fun i => ~ (cap <= i)%nat) (free b1)) b1)).
Proof.
  intros Hb Hc b1. pose proof (drop_slots cap (length (slots b) - cap) b Hb ltac:(lia)) as Hd.
  fold b1 in Hd. replace (cap + (length (slots b) - cap))%nat with (length (slots b)) in Hd by lia.
  destruct Hd as [Hlen Hsl Hmap Hlru Hfree _]. destruct Hb as [Hs Hm [Hln Hfn Hlb Hfb]].
  assert (forall i s, take cap (slots b1) !! i = Some s <-> (i < cap)%nat /\ slots b !! i = Some s)
    as Htk.
  { intros i s. rewrite lookup_take_Some. split.
    - intros [Hi Hlt]. rewrite Hsl in Hi by lia. done.
    - intros [Hlt Hi]. rewrite Hsl by lia. done. }
  split; simpl.
  - intros i s [Hi His]%Htk. specialize (Hs i s His). unfold slot_ok in *. simpl.
    rewrite Hlru, Hfree. destruct (key s) as [k|]; rewrite !list_elem_of_filter.
    + destruct Hs as (Hk & ? & ? & ?). split; [apply Hmap; split; [done|lia]|].
      split; [done|]. split; [split; [lia|done]|tauto].
    + destruct Hs as (? & ? & ? & ?). do 2 (split; [done|]). split; [split; [lia|done]|tauto].
  - intros k i [Hk Hi]%Hmap. destruct (Hm k i Hk) as (s & His & Hks).
    pose proof (lookup_lt_Some _ _ _ His). exists s. split; [apply Htk; split; [lia|done]|done].
  - split; simpl.
    + rewrite Hlru. by apply NoDup_filter.
    + rewrite Hfree. by apply NoDup_filter.
    + intros i. rewrite Hlru, list_elem_of_filter, length_take, Hlen.
      intros [? Hi]. specialize (Hlb i Hi). lia.
    + intros i. rewrite Hfree, list_elem_of_filter, length_take, Hlen.
      intros [? Hi]. specialize (Hfb i Hi). lia.
Qed.

Lemma grow_ok n b :
  book_ok b ->
  let b1 := set_slots (slots b ++ replicate n empty_slot) b in
  book_ok (set_free (free b1 ++ reverse (seq (length (slots b)) n)) b1).
Proof.
  intros [Hs Hm [Hln Hfn Hlb Hfb]]. simpl. split; simpl.
  - intros i s [Hi|[Hge Hi]]%lookup_app_Some; unfold slot_ok; simpl.
    + pose proof (lookup_lt_Some _ _ _ Hi). specialize (Hs i s Hi). unfold slot_ok in Hs.
      destruct (key s); rewrite elem_of_app, elem_of_reverse, elem_of_seq; [|tauto].
      destruct Hs as (? & ? & ? & ?). do 3 (split; [done|]). intros [?|?]; [done|lia].
    + apply lookup_replicate in Hi as [-> Hlt]. simpl.
      rewrite elem_of_app, elem_of_reverse, elem_of_seq. do 2 (split; [done|]).
      split; [right; lia|]. intros Hx%Hlb. lia.
  - intros k i Hk. destruct (Hm k i Hk) as (s & Hi & Hks). exists s.
    split; [by apply lookup_app_l_Some|done].
  - split; simpl; [done| | |].
    + apply NoDup_app. split; [done|]. split; [|rewrite reverse_Permutation; apply NoDup_seq].
      intros i Hi%Hfb. rewrite elem_of_reverse, elem_of_seq. lia.
    + intros i Hi%Hlb. rewrite length_app. lia.
    + intros i. rewrite elem_of_app, elem_of_reverse, elem_of_seq, length_app, length_replicate.
      intros [Hi%Hfb|?]; lia.
Qed.

Lemma resize_ok cap b b' : book_ok b -> resize cap b = Ok b' -> book_ok b'.
Proof.
  intros Hb. unfold resize. destruct (prepare_resize cap b) eqn:Hp; [|done].
  unfold prepare_resize in Hp. destruct (Z.leb_spec cap 0); [done|].
  cbn [mbind outcome_bind]. intros [= <-].
  set (n := Z.to_nat cap). set (p := length (slots b)). destruct (Nat.ltb_spec n p) as [Hlt|Hge].
  - pose proof (shrink_ok n b Hb ltac:(lia)) as Hsh. cbv zeta in Hsh. fold p in Hsh.
    pose proof (grow_ok 0 _ Hsh) as Hg. cbv zeta in Hg.
    replace (n - p)%nat with 0%nat by lia. exact Hg.
  - rewrite take_ge by done. exact (grow_ok (n - p) b Hb).
Qed.

Lemma make_book_ok cap b : make_book cap = Ok b -> book_ok b.
Proof.
  unfold make_book. destruct (cap <? 0); [done|]. destruct (cap =? 0); [done|]. intros [= <-].
  split; simpl; [|done|].
  - intros i s [-> Hlt]%lookup_replicate. unfold slot_ok. simpl.
    rewrite elem_of_reverse, elem_of_seq. do 2 (split; [done|]). split; [lia|set_solver].
  - split; simpl; [constructor|rewrite reverse_Permutation; apply NoDup_seq|set_solver|].
    intros i. rewrite elem_of_reverse, elem_of_seq, length_replicate. lia.
Qed.

(** ** Reachable books *)

(** One call of a public operation; a call that throws changes nothing. A
    [Replacement] is used on the slot it was prepared for, and rolled back only
    while its old key has no slot. *)
Inductive book_step : Book -> Book -> Prop :=
  | st_acquire k b : book_step b (acquire k b).2
  | st_touch slot b b' : touch slot b = Ok b' -> book_step b b'
  | st_mark slot b b' : mark_inflight slot b = Ok b' -> book_step b b'
  | st_clear slot b b' : clear_inflight slot b = Ok b' -> book_step b b'
  | st_discard k slot gen r b b' : discard k slot gen b = Ok (r, b') -> book_step b b'
  | st_replace slot k k' r b b' : replace slot k k' b = Ok (r, b') -> book_step b b'
  | st_commit r i x r' b b' :
      prepared r i -> commit_replace r b = Ok (x, r', b') -> book_step b b'
  | st_rollback r i r' b b' :
      revertible r i b -> rollback_replace r b = Ok (r', b') -> book_step b b'
  | st_resize cap b b' : resize cap b = Ok b' -> book_step b b'
  | st_low sources b : book_step b (set_low_priority_sources sources b).

Inductive reachable_book : Book -> Prop :=
  | rb_make cap b : make_book cap = Ok b -> reachable_book b
  | rb_step b b' : reachable_book b -> book_step b b' -> reachable_book b'.

Definition low_sorted (b : Book) : Prop := StronglySorted Z.le (low_priority_sources b).

(** The three outcomes of [acquire]. *)
Definition acquire_result (k : MoeCacheKey) (b : Book) : Prop :=
  let '(r, b') := acquire k b in
  match by_key b !! k with
  | Some i => exists s,
      slots b !! i = Some s /\ key s = Some k /\ b' = splice_back i b /\
      r = Ok {| lease_slot := Z.of_nat i; lease_generation := generation s;
                lease_hit := true; lease_replaced := None |}
  | None =>
      match r with
      | Throw e =>
          e = RuntimeError "all MoE cache slots are in-flight" /\ b' = b /\ free b = [] /\
          forall i s, slots b !! i = Some s -> inflight s = true
      | Ok l => exists i s,
          slots b !! i = Some s /\ inflight s = false /\
          (last (free b) = Some i \/ (free b = [] /\ victim_choice b i)) /\
          l = {| lease_slot := Z.of_nat i; lease_generation := u64 (generation s + 1);
                 lease_hit := false; lease_replaced := key s |} /\
          installed k i s b b'
      end
  end.

Lemma acquire_correct k b :
  book_ok b -> low_sorted b -> acquire_result k b /\ book_ok (acquire k b).2.
Proof.
  intros Hb Hs. unfold acquire_result. destruct (by_key b !! k) as [i|] eqn:Hk.
  - destruct (mapped_touch b k i Hb Hk) as (s & Hi & Hks & _ & Ht).
    unfold acquire. rewrite Hk, Hi, Ht. split; [by exists s|].
    destruct (occupied b i s k Hb Hi Hks) as (_ & _ & Hil & _).
    apply set_lru_ok; [done|]. by apply unlink_perm; [apply Hb|].
  - destruct (pop_back (free b)) as [[rest i]|] eqn:Hf.
    + apply pop_back_Some in Hf.
      destruct (acquire_free b k rest i Hb Hk Hf) as (s & b' & Hi & Hks & Hfl & -> & Hok & Hin).
      split; [|done]. exists i, s. rewrite Hks. split; [done|]. split; [done|].
      split; [left; by rewrite Hf, last_snoc|done].
    + apply pop_back_None in Hf. pose proof (victim_spec b Hs) as Hv.
      destruct (victim b) as [i|] eqn:Ev.
      * destruct (victim_choice_spec b i Hv) as (Hil & t & Ht & Hfl).
        destruct (acquire_evict b k i Hb Hk Hf Ev Hil) as (s & b' & Hi & -> & Hok & Hin).
        split; [|done]. assert (t = s) as -> by congruence. exists i, s. split; [done|]. split; [done|].
        split; [by right|done].
      * rewrite (acquire_stuck b k Hb Hk Hf Ev). split; [|done]. do 3 (split; [done|]).
        intros i s Hi. pose proof (bo_slots _ Hb i s Hi) as Hok. unfold slot_ok in Hok.
        rewrite Hf in Hok. apply not_false_iff_true. intros Hfl. destruct (key s).
        -- apply (Hv i); [apply Hok|by exists s].
        -- destruct Hok as (_ & _ & Hin & _). set_solver.
Qed.

Lemma erase_lru_sources i b : low_priority_sources (erase_lru i b) = low_priority_sources b.
Proof. unfold erase_lru. destruct (slots b !! i) as [s|]; [|done]. by destruct (listed s). Qed.

Lemma drop_slots_sources l b :
  low_priority_sources (foldl drop_slot b l) = low_priority_sources b.
Proof.
  revert b. induction l as [|i l IH]; intros b; simpl; [done|]. rewrite IH.
  unfold drop_slot. destruct (slots b !! i) as [s|]; [|done]. rewrite erase_lru_sources.
  by destruct (key s).
Qed.

Lemma splice_listed_sources i b :
  low_priority_sources (splice_listed i b) = low_priority_sources b.
Proof. unfold splice_listed. destruct (slots b !! i) as [s|]; [|done]. by destruct (listed s). Qed.

Lemma acquire_sources k b : low_priority_sources (acquire k b).2 = low_priority_sources b.
Proof.
  unfold acquire. destruct (by_key b !! k) as [i|].
  - destruct (slots b !! i) as [s|]; [|done]. unfold touch.
    destruct (checked _ b) as [[j t]|]; [|done]. simpl. destruct (key t); [|done].
    unfold touch_listed. destruct (listed t); [done|]. unfold append_lru. by destruct (slots b !! j).
  - destruct (pop_back _) as [[rest i]|]; [by rewrite install_sources|].
    destruct (victim b) as [i|]; [|done]. destruct (slots b !! i) as [s|]; [|done].
    rewrite install_sources, erase_lru_sources. by destruct (key s).
Qed.

Lemma step_sources b b' :
  book_step b b' ->
  low_priority_sources b' = low_priority_sources b \/ low_sorted b'.
Proof.
  destruct 1 as [k b|slot b b' Hs|slot b b' Hs|slot b b' Hs|k slot gen r b b' Hs|slot k k' r b b' Hs
    |r i x r' b b' Hp Hs|r i r' b b' Hp Hs|cap b b' Hs|sources b]; [left..|].
  - apply acquire_sources.
  - unfold touch in Hs. destruct (checked slot b) as [[i s]|]; [|done]. simpl in Hs.
    destruct (key s); [|done]. injection Hs as <-. unfold touch_listed.
    destruct (listed s); [done|]. unfold append_lru. by destruct (slots b !! i).
  - unfold mark_inflight in Hs. destruct (checked slot b) as [[i s]|]; [|done]. simpl in Hs.
    destruct (key s); [|done]. by injection Hs as <-.
  - unfold clear_inflight in Hs. destruct (checked slot b) as [[i s]|]; [|done].
    by injection Hs as <-.
  - unfold discard in Hs. destruct (checked slot b) as [[i s]|]; [|done]. simpl in Hs.
    destruct (_ && _); injection Hs as <- <-; [|done]. simpl. by rewrite erase_lru_sources.
  - unfold replace in Hs. destruct (checked slot b) as [[i s]|]; [|done]. simpl in Hs.
    destruct (_ || _); injection Hs as <- <-; [done|]. by rewrite splice_listed_sources.
  - unfold commit_replace in Hs. destruct (replacement_valid r b) as [v|]; [|done]. simpl in Hs.
    destruct (negb v); [by simplify_eq|]. destruct (insert_node _ _) as [ins m].
    destruct (negb ins); [by simplify_eq|]. simpl in Hs.
    destruct (checked _ _) as [[j t]|]; [|done]. simpl in Hs. simplify_eq.
    by rewrite splice_listed_sources.
  - unfold rollback_replace in Hs. destruct (checked _ b) as [[j s]|]; [|done]. simpl in Hs.
    destruct (r_committed r); [|by destruct (_ && _); simplify_eq].
    destruct (_ || _); [done|]. destruct (insert_node _ _). by simplify_eq.
  - unfold resize in Hs. destruct (prepare_resize cap b); [|done]. cbn [mbind outcome_bind] in Hs.
    injection Hs as <-. simpl. destruct (_ <? _)%nat; [|done]. simpl. apply drop_slots_sources.
  - right. apply sources_sorted.
Qed.

Lemma reachable_book_ok b : reachable_book b -> book_ok b /\ low_sorted b.
Proof.
  induction 1 as [cap b Hm|b b' Hr [Hb Hl] Hs].
  - split; [by eapply make_book_ok|]. unfold make_book in Hm. destruct (cap <? 0); [done|].
    destruct (cap =? 0); [done|]. injection Hm as <-. constructor.
  - split; [|destruct (step_sources b b' Hs) as [He|]; [unfold low_sorted; by rewrite He|done]].
    destruct Hs as [k b|slot b b' Hs|slot b b' Hs|slot b b' Hs|k slot gen r b b' Hs|slot k k' r b b' Hs
      |r i x r' b b' Hp Hs|r i r' b b' Hp Hs|cap b b' Hs|sources b].
    + by apply acquire_correct.
    + by eapply touch_ok.
    + by eapply mark_inflight_ok.
    + by eapply clear_inflight_ok.
    + by eapply discard_ok.
    + by eapply replace_ok.
    + by eapply commit_replace_ok.
    + by eapply rollback_replace_ok.
    + by eapply resize_ok.
    + destruct Hb as [H1 H2 [H3 H4 H5 H6]]. by split; [| |split].
Qed.

(** C35: in every reachable book the key index is exactly the slot table, and
    every slot is either occupied and in the recency list once, or empty, not
    in flight and in the free list once. *)
Theorem book_consistent (b : Book) :
  reachable_book b ->
  (forall k i, by_key b !! k = Some i <-> exists s, slots b !! i = Some s /\ key s = Some k) /\
  lru b ++ free b ≡ₚ seq 0 (length (slots b)) /\
  (forall i s, slots b !! i = Some s ->
     (is_Some (key s) <-> i ∈ lru b) /\ (key s = None -> inflight s = false)).
Proof.
  intros [Hb _]%reachable_book_ok. destruct (bo_lists _ Hb) as [Hln Hfn Hlb Hfb].
  assert (forall i s, slots b !! i = Some s -> slot_ok i s b) as Hs by apply Hb.
  split; [|split].
  - intros k i. split; [apply Hb|]. intros (s & Hi & Hk). by destruct (occupied b i s k Hb Hi Hk).
  - apply NoDup_Permutation; [|apply NoDup_seq|].
    + apply NoDup_app. split; [done|]. split; [|done]. intros i Hi.
      destruct (lru_occupied b i Hb Hi) as (s & k & His & Hk).
      by destruct (occupied b i s k Hb His Hk) as (_ & _ & _ & ?).
    + intros i. rewrite elem_of_app, elem_of_seq. split; [intros [?%Hlb|?%Hfb]; lia|].
      intros [_ Hi]. destruct (lookup_lt_is_Some_2 _ _ Hi) as [s His].
      specialize (Hs i s His). unfold slot_ok in Hs. destruct (key s); [left|right]; apply Hs.
  - intros i s Hi. specialize (Hs i s Hi). unfold slot_ok in Hs. destruct (key s).
    + split; [|done]. split; [intros _; apply Hs|done].
    + destruct Hs as (_ & Hf & _ & Hl). split; [|done]. split; [by intros [? ?]|done].
Qed.

(** C22: acquiring an expert that is cached returns its slot, with its
    generation, as most recently used. Otherwise it takes a free slot, or the
    least recently used low-priority slot, or the least recently used slot
    that is not in flight, starting a new generation; and it throws, changing
    nothing, exactly when every slot is in flight. *)
Theorem acquire_spec (k : MoeCacheKey) (b : Book) :
  reachable_book b -> acquire_result k b /\ book_ok (acquire k b).2.
Proof. intros [Hb Hs]%reachable_book_ok. by apply acquire_correct. Qed.

(** Undoing a replacement right after its commit. *)
Lemma rollback_committed r i s b :
  prepared r i -> r_original r = None -> r_generation r = generation s ->
  slots b !! i = Some (occupy (r_replacement r) s) ->
  by_key b !! r_expected r = None -> by_key b !! r_replacement r = Some i ->
  rollback_replace (committed r i) b =
    Ok (r, set_slot i {| key := Some (r_expected r); generation := r_generation r;
                         inflight := false; listed := listed s |}
             (set_by_key (<[r_expected r := i]> (delete (r_replacement r) (by_key b))) b)).
Proof.
  intros (Hsl & Hcm & Hin) Ho Hg Hs He Hr. unfold rollback_replace. cbn [r_slot committed].
  rewrite Hsl, (proj2 (checked_ok (Z.of_nat i) b i _)) by done. simpl.
  rewrite bool_decide_true, Hg, Z.eqb_refl by done. simpl. rewrite Hr.
  rewrite bool_decide_true by (rewrite lookup_delete_ne; [done|congruence]). simpl.
  destruct r; simpl in *; subst. done.
Qed.

(** A prepared replacement commits, and rolling it back restores the key
    index, the keys and the generations of all slots; the slot is released
    from flight and becomes the most recently used one. *)
Theorem replacement_roundtrip (b : Book) slot k k' r :
  reachable_book b -> prepare_replace slot k k' b = Ok r ->
  exists i s r' b' b'',
    slot = Z.of_nat i /\ slots b !! i = Some s /\ key s = Some k /\
    commit_replace r b = Ok (true, r', b') /\
    by_key b' = <[k' := i]> (delete k (by_key b)) /\
    rollback_replace r' b' = Ok (r, b'') /\
    by_key b'' = by_key b /\ slots b'' = <[i := set_inflight false s]> (slots b) /\
    lru b'' = unlink i (lru b) ++ [i] /\ free b'' = free b.
Proof.
  intros [Hb _]%reachable_book_ok. unfold prepare_replace.
  destruct (checked slot b) as [[i s]|] eqn:Hc; [|done].
  apply checked_ok in Hc as [-> Hs]. simpl. case_bool_decide as Hk; simpl; [|done].
  case_bool_decide as Hn; simpl; [done|]. intros [= <-]. apply eq_None_not_Some in Hn.
  destruct (occupied b i s k Hb Hs Hk) as (Hm & Hl & _ & _).
  set (r := {| r_slot := Z.of_nat i |}).
  pose proof (commit_valid r b i s Hb ltac:(done) Hs Hk eq_refl Hn) as Hc. simpl in Hc.
  unfold splice_listed in Hc. simpl in Hc.
  rewrite list_lookup_insert_eq in Hc by (by eapply lookup_lt_Some). simpl in Hc. rewrite Hl in Hc.
  exists i, s. do 3 eexists. do 3 (split; [done|]). split; [exact Hc|]. split; [done|].
  split.
  { apply (rollback_committed r i s); simpl; try done.
    - by rewrite list_lookup_insert_eq by (by eapply lookup_lt_Some).
    - rewrite lookup_insert_ne by congruence. apply lookup_delete_eq.
    - apply lookup_insert_eq. }
  simpl. rewrite list_insert_insert_eq. split; [|split; [by destruct s; simpl in *; subst|done]].
  rewrite delete_insert_id by (rewrite lookup_delete_ne by congruence; done).
  by apply insert_delete_id.
Qed.

(** ** Witnesses: two slots, two experts, the first slot in flight *)

Definition expert_key (s e : Z) : MoeCacheKey := {| source := s; cohort := 0; expert := e |}.

Definition sample_book : Book :=
  let b := {| slots := [empty_slot; empty_slot]; low_priority_sources := [];
              free := [1; 0]%nat; lru := []; by_key := ∅ |} in
  (acquire (expert_key 2 7) (acquire (expert_key 1 3) b).2).2.

Definition pinned_book : Book :=
  match mark_inflight 0 sample_book with Ok b => b | Throw _ => sample_book end.

Lemma sample_book_reachable : reachable_book sample_book.
Proof.
  eapply rb_step; [|apply st_acquire]. eapply rb_step; [|apply st_acquire].
  by apply (rb_make 2).
Qed.

Lemma pinned_book_reachable : reachable_book pinned_book.
Proof.
  eapply rb_step; [apply sample_book_reachable|]. by apply (st_mark 0).
Qed.

Lemma book_consistent_witness :
  lru pinned_book ++ free pinned_book ≡ₚ seq 0 2 /\
  exists s, slots pinned_book !! 0%nat = Some s /\ key s = Some (expert_key 1 3).
Proof.
  destruct (book_consistent pinned_book pinned_book_reachable) as (Hm & Hp & _).
  split; [exact Hp|]. apply Hm. by vm_compute.
Defined.

(** The pinned slot is passed over. *)
Lemma acquire_spec_witness :
  acquire_result (expert_key 9 9) pinned_book /\
  (acquire (expert_key 9 9) pinned_book).1 =
    Ok {| lease_slot := 1; lease_generation := 2; lease_hit := false;
          lease_replaced := Some (expert_key 2 7) |}.
Proof.
  split; [apply (acquire_spec (expert_key 9 9) pinned_book pinned_book_reachable)|by vm_compute].
Defined.

Lemma replacement_roundtrip_witness :
  exists r r' b' b'', prepare_replace 0 (expert_key 1 3) (expert_key 4 4) pinned_book = Ok r /\
    commit_replace r pinned_book = Ok (true, r', b') /\
    rollback_replace r' b' = Ok (r, b'') /\ by_key b'' = by_key pinned_book.
Proof.
  destruct (prepare_replace 0 (expert_key 1 3) (expert_key 4 4) pinned_book) as [r|] eqn:Hr;
    [|by vm_compute in Hr].
  destruct (replacement_roundtrip pinned_book 0 _ _ r pinned_book_reachable Hr)
    as (i & s & r' & b' & b'' & _ & _ & _ & Hc & _ & Hb & Hk & _).
  exists r, r', b', b''. exact (conj eq_refl (conj Hc (conj Hb Hk))).
Defined.

(** A negative capacity never reaches the constructor's check. *)
Example make_book_negative :
  make_book (-1) = Throw (LengthError "cannot create std::vector larger than max_size()").
Proof. reflexivity. Qed.
