(* ===== verification/Float.v ===== *)
(** * Floating-point arithmetic

    IEEE 754 formats as the Standard Library specifies them ([SpecFloat]):
    round to nearest even, with infinities and one NaN. A format is an instance
    of [FloatFormat]; [binary64] is C++'s [double], [extended80] the [long
    double] of x86 Linux. *)

From stdpp Require Import base tactics.
From Stdlib Require Import ZArith Lia SpecFloat.
From S2P Require Import Prelude.

#[local] Set Default Proof Using "Type".
Open Scope Z_scope.

Class FloatFormat := {
  fl_prec : Z;
  fl_emax : Z;
  fl_prec_ok : 32 <= fl_prec;
  fl_emax_ok : fl_prec < fl_emax;
}.

Section Float.
Context {F : FloatFormat}.

Abbreviation float := spec_float.

Definition fl_of_Z (z : Z) : float := binary_normalize fl_prec fl_emax z 0 false.
Definition fl_add : float -> float -> float := SFadd fl_prec fl_emax.
Definition fl_sub : float -> float -> float := SFsub fl_prec fl_emax.
Definition fl_mul : float -> float -> float := SFmul fl_prec fl_emax.
Definition fl_div : float -> float -> float := SFdiv fl_prec fl_emax.
Definition fl_ltb : float -> float -> bool := SFltb.
Definition fl_leb : float -> float -> bool := SFleb.

(** [std::isfinite]. *)
Definition fl_finite (f : float) : bool :=
  match f with S754_zero _ | S754_finite _ _ _ => true | _ => false end.

(** [std::min] and [std::max]. *)
Definition fl_min (a b : float) : float := if fl_ltb b a then b else a.
Definition fl_max (a b : float) : float := if fl_ltb a b then b else a.

(** A decimal literal [n / d], correctly rounded. *)
Definition fl_lit (n d : Z) : float := fl_div (fl_of_Z n) (fl_of_Z d).

(** The value truncated toward zero; [None] when there is none. *)
Definition fl_trunc (f : float) : option Z :=
  match f with
  | S754_zero _ => Some 0
  | S754_finite s m e =>
      let a := if 0 <=? e then Zpos m * 2 ^ e else Zpos m / 2 ^ (- e) in
      Some (if s then - a else a)
  | _ => None
  end.

(** A cast to a [w]-bit signed integer. Out of range the behaviour is
    undefined: the value is then [junk]. *)
Definition fl_to_int (w : Z) (junk : Z) (f : float) : Z :=
  match fl_trunc f with
  | Some z => if (- 2 ^ (w - 1) <=? z) && (z <? 2 ^ (w - 1)) then z else junk
  | None => junk
  end.

(** Not NaN and not below zero. *)
Definition fl_nonneg (f : float) : bool :=
  match f with
  | S754_zero _ | S754_finite false _ _ | S754_infinity false => true
  | _ => false
  end.

(** ** Digits *)

Lemma digits2_log2 p : Zpos (digits2_pos p) = Z.log2 (Zpos p) + 1.
Proof.
  induction p as [p IH|p IH|]; simpl digits2_pos; [| |done]; rewrite Pos2Z.inj_succ, IH.
  - change (Zpos p~1) with (2 * Zpos p + 1). rewrite Z.log2_succ_double by lia. lia.
  - change (Zpos p~0) with (2 * Zpos p). rewrite Z.log2_double by lia. lia.
Qed.

Lemma digits2_iter_xO p n : Zpos (digits2_pos (Pos.iter xO p n)) = Zpos (digits2_pos p) + Zpos n.
Proof.
  induction n as [|n IH] using Pos.peano_ind; simpl; [lia|].
  rewrite Pos.iter_succ. simpl. rewrite Pos2Z.inj_succ, IH. lia.
Qed.

(** Small integers are represented without an exponent overflow. *)
Lemma fl_of_Z_small z :
  0 < z < 2 ^ 31 -> exists m e, fl_of_Z z = S754_finite false m e.
Proof.
  intros Hz. destruct z as [|p|p]; [lia| |lia]. pose proof fl_prec_ok. pose proof fl_emax_ok.
  assert (Zpos (digits2_pos p) <= 31) as Hd.
  { rewrite digits2_log2. pose proof (Z.log2_lt_pow2 (Zpos p) 31 ltac:(lia)). lia. }
  unfold fl_of_Z, binary_normalize, binary_round.
  assert (fexp fl_prec fl_emax (Zpos (digits2_pos p) + 0) = Zpos (digits2_pos p) - fl_prec) as ->
    by (unfold fexp, emin; lia).
  set (e := Zpos (digits2_pos p) - fl_prec).
  assert (exists n, Z.sub e 0 = Zneg n /\ Zpos (digits2_pos p) + Zpos n = fl_prec) as (n & Hn & Hpn).
  { exists (Z.to_pos (- e)). split; [|unfold e; lia]. rewrite Z.sub_0_r.
    rewrite <- Pos2Z.opp_pos, Z2Pos.id by (unfold e; lia). lia. }
  unfold shl_align. rewrite Hn. set (m := Pos.iter xO p n).
  assert (Zpos (digits2_pos m) = fl_prec) as Hm by (unfold m; rewrite digits2_iter_xO; lia).
  assert (forall x, fexp fl_prec fl_emax (Zpos (digits2_pos m) + e) - e = x -> x = 0) as Hfe.
  { intros x <-. rewrite Hm. unfold fexp, emin, e. lia. }
  exists m, e. unfold binary_round_aux, shr_fexp. cbn [Zdigits2].
  rewrite (Hfe _ eq_refl). simpl. rewrite (Hfe _ eq_refl). simpl.
  rewrite (proj2 (Z.leb_le _ _)); [done|]. unfold e. lia.
Qed.

Lemma fl_minus_one : exists m e, binary_round fl_prec fl_emax true 1 0 = S754_finite true m e.
Proof.
  pose proof fl_prec_ok. pose proof fl_emax_ok. unfold binary_round.
  assert (fexp fl_prec fl_emax (Zpos (digits2_pos 1) + 0) = 1 - fl_prec) as ->
    by (unfold fexp, emin; simpl digits2_pos; lia).
  assert (exists n, Z.sub (1 - fl_prec) 0 = Zneg n /\ 1 + Zpos n = fl_prec) as (n & Hn & Hpn).
  { exists (Z.to_pos (fl_prec - 1)). split; [|lia]. rewrite Z.sub_0_r.
    rewrite <- Pos2Z.opp_pos, Z2Pos.id by lia. lia. }
  unfold shl_align. rewrite Hn. set (m := Pos.iter xO 1%positive n).
  assert (Zpos (digits2_pos m) = fl_prec) as Hm.
  { unfold m. rewrite digits2_iter_xO. simpl digits2_pos. lia. }
  assert (forall x, fexp fl_prec fl_emax (Zpos (digits2_pos m) + (1 - fl_prec)) - (1 - fl_prec) = x ->
    x = 0) as Hfe.
  { intros x <-. rewrite Hm. unfold fexp, emin. lia. }
  exists m, (1 - fl_prec). unfold binary_round_aux, shr_fexp. cbn [Zdigits2].
  rewrite (Hfe _ eq_refl). simpl. rewrite (Hfe _ eq_refl). simpl.
  rewrite (proj2 (Z.leb_le _ _)); [done|]. lia.
Qed.

(** ** Signs *)

Lemma shr_1_nonneg r : 0 <= shr_m r -> 0 <= shr_m (shr_1 r).
Proof. destruct r as [[|[p|p|]|p] a b]; simpl; lia. Qed.

Lemma iter_shr_nonneg n : forall r, 0 <= shr_m r -> 0 <= shr_m (iter_pos shr_1 n r).
Proof.
  induction n as [n IH|n IH|]; intros r Hr; simpl.
  - apply IH, IH. by apply shr_1_nonneg.
  - by apply IH, IH.
  - by apply shr_1_nonneg.
Qed.

Lemma shr_fexp_nonneg m e l :
  0 <= m -> 0 <= shr_m (fst (shr_fexp fl_prec fl_emax m e l)).
Proof.
  intros Hm. unfold shr_fexp, shr.
  assert (0 <= shr_m (shr_record_of_loc m l)) by (by destruct l as [|[]]).
  destruct (_ - _); simpl; try done. by apply iter_shr_nonneg.
Qed.

Lemma binary_round_aux_nonneg m e l :
  0 <= m -> fl_nonneg (binary_round_aux fl_prec fl_emax false m e l) = true.
Proof.
  intros Hm. unfold binary_round_aux.
  pose proof (shr_fexp_nonneg m e l Hm) as H1.
  destruct (shr_fexp _ _ m e l) as [r1 e1]. simpl in H1.
  assert (0 <= round_nearest_even (shr_m r1) (loc_of_shr_record r1)) as H2.
  { destruct (loc_of_shr_record r1) as [|[]]; simpl; try lia. destruct (Z.even _); lia. }
  pose proof (shr_fexp_nonneg _ e1 loc_Exact H2) as H3.
  destruct (shr_fexp _ _ _ e1 loc_Exact) as [r2 e2]. simpl in H3.
  destruct (shr_m r2); simpl; [done| |lia]. by destruct (_ <=? _).
Qed.

Lemma fl_div_nonneg m1 e1 m2 e2 :
  fl_nonneg (fl_div (S754_finite false m1 e1) (S754_finite false m2 e2)) = true.
Proof.
  unfold fl_div. cbn [SFdiv xorb].
  destruct (SFdiv_core_binary _ _ _ _ _ _) as [[q e] l] eqn:E.
  apply binary_round_aux_nonneg. unfold SFdiv_core_binary in E.
  match type of E with (let '(_, _) := Z.div_eucl ?a ?b in _) = _ =>
    assert (0 <= a) as Ha;
      [|pose proof (Z.div_pos a b Ha ltac:(lia)) as Hq; unfold Z.div in Hq;
        destruct (Z.div_eucl a b); simplify_eq; lia] end.
  destruct (_ - _ - _); [lia| |lia]. by apply Z.shiftl_nonneg.
Qed.

(** A non-negative value is above every finite negative one. *)
Lemma fl_ltb_neg m e f : fl_nonneg f = true -> fl_ltb (S754_finite true m e) f = true.
Proof. unfold fl_ltb, SFltb. by destruct f as [[]|[]| |[]]. Qed.

(** A ratio of small positive integers is above [-1]. *)
Lemma fl_ratio_above a b m e :
  0 < a < 2 ^ 31 -> 0 < b < 2 ^ 31 ->
  fl_ltb (S754_finite true m e) (fl_div (fl_of_Z a) (fl_of_Z b)) = true.
Proof.
  intros Ha Hb. apply fl_ltb_neg.
  destruct (fl_of_Z_small a Ha) as (ma & ea & ->), (fl_of_Z_small b Hb) as (mb & eb & ->).
  apply fl_div_nonneg.
Qed.
End Float.

#[export] Instance binary64 : FloatFormat.
Proof. by refine {| fl_prec := 53; fl_emax := 1024 |}. Defined.

(** Not an instance found by default: [long double] is named where used. *)
Definition extended80 : FloatFormat.
Proof. by refine {| fl_prec := 64; fl_emax := 16384 |}. Defined.
