(* ===== verification/MoeArena.v ===== *)
(** * Planning the expert cache arenas ([plan_moe_arena_slots] of
      [engine/include/moe_cache_policy.h])

    Splits a byte budget over arenas of equally sized slots: at least the
    decode working set of every arena, then a share proportional to the
    registered bytes, then one slot at a time to the arena with the largest
    relative deficit. [long double] is the format [F]; a float-to-int cast out
    of range gives [junk]. *)

From stdpp Require Import base list strings gmap.
From Stdlib Require Import ZArith Lia SpecFloat.
From S2P Require Import Prelude Float.

#[local] Set Default Proof Using "Type".
Open Scope Z_scope.

Record MoeArenaDemand := {
  signature : string;
  slot_bytes : Z;
  minimum_slots : Z;
  registered_experts : Z;
}.

#[export] Instance demand_eq_dec : EqDecision MoeArenaDemand.
Proof. solve_decision. Defined.

Section MoeArena.
Context {F : FloatFormat} (junk : Z).
Implicit Types (d : MoeArenaDemand) (demands : list MoeArenaDemand) (result : gmap string Z).

Definition registered_bytes d : spec_float :=
  fl_mul (fl_of_Z (slot_bytes d)) (fl_of_Z (registered_experts d)).

(** The validation loop: the signatures met, the minimum slots, the minimum
    bytes and the total registered bytes. *)
Fixpoint validate_demands (demands : list MoeArenaDemand) (signatures : gset string)
    (result : gmap string Z) (minimum_bytes : Z) (total : spec_float)
    : outcome (gmap string Z * Z * spec_float) :=
  match demands with
  | [] => Ok (result, minimum_bytes, total)
  | d :: demands =>
      throw_if bool_decide (signature d = "") || bool_decide (signature d ∈ signatures) with
        InvalidArgument "MoE cache arena signatures must be unique and non-empty";
      throw_if (slot_bytes d <=? 0) || (minimum_slots d <=? 0) ||
               (registered_experts d <? minimum_slots d) with
        InvalidArgument "invalid MoE cache arena demand";
      throw_if s64_max / minimum_slots d <? slot_bytes d with
        OverflowError "MoE cache minimum byte count overflows int64";
      validate_demands demands ({[signature d]} ∪ signatures)
        (<[signature d := minimum_slots d]> result)
        (s64 (minimum_bytes + s64 (slot_bytes d * minimum_slots d)))
        (fl_add total (registered_bytes d))
  end.

(** The proportional share of one arena, kept between its bounds. *)
Definition target_slots (budget : Z) (total : spec_float) d : Z :=
  let target_bytes := fl_div (fl_mul (fl_of_Z budget) (registered_bytes d)) total in
  Z.min (registered_experts d)
    (Z.max (minimum_slots d) (fl_to_int 32 junk (fl_div target_bytes (fl_of_Z (slot_bytes d))))).

Definition share_step (budget : Z) (total : spec_float) (st : gmap string Z * Z) d
    : gmap string Z * Z :=
  let '(result, used_bytes) := st in
  let target := target_slots budget total d in
  let current := default 0 (result !! signature d) in
  let additional_bytes := s64 (s32 (target - current) * slot_bytes d) in
  if additional_bytes <=? s64 (budget - used_bytes)
  then (<[signature d := target]> result, s64 (used_bytes + additional_bytes))
  else st.

Definition arena_skip (budget used_bytes : Z) result d : bool :=
  (registered_experts d <=? default 0 (result !! signature d)) ||
  (s64 (budget - used_bytes) <? slot_bytes d).

Definition deficit result d : spec_float :=
  fl_div (fl_of_Z (s32 (registered_experts d - default 0 (result !! signature d))))
    (fl_of_Z (registered_experts d)).

(** One step of the search for the neediest arena. *)
Definition neediest_step (budget used_bytes : Z) result
    (best : option MoeArenaDemand * spec_float) d : option MoeArenaDemand * spec_float :=
  if arena_skip budget used_bytes result d then best
  else if fl_ltb best.2 (deficit result d) then (Some d, deficit result d) else best.

(** [-1.0L]. *)
Definition minus_one : spec_float := fl_of_Z (-1).

Definition neediest (budget used_bytes : Z) result demands : option MoeArenaDemand :=
  (foldl (neediest_step budget used_bytes result) (None, minus_one) demands).1.

Fixpoint fill_loop (fuel : nat) (budget used_bytes : Z) result demands : gmap string Z :=
  match fuel with
  | O => result
  | S fuel =>
      match neediest budget used_bytes result demands with
      | None => result
      | Some best =>
          fill_loop fuel budget (s64 (used_bytes + slot_bytes best))
            (<[signature best := s32 (default 0 (result !! signature best) + 1)]> result) demands
      end
  end.

(** Every round of the filling loop adds a slot to an arena that is below its
    registered experts: their total number is enough rounds. *)
Definition fill_fuel demands : nat := Z.to_nat (Zsum registered_experts demands).

Definition plan_moe_arena_slots (budget : Z) demands : outcome (gmap string Z) :=
  throw_if budget <=? 0 with InvalidArgument "MoE cache budget must be positive";
  throw_if bool_decide (demands = []) with
    InvalidArgument "MoE cache planner requires at least one arena";
  '(result, minimum_bytes, total) ← validate_demands demands ∅ ∅ 0 (S754_zero false);
  throw_if budget <? minimum_bytes with
    RuntimeError "MoE cache budget is below the minimum decode working set";
  let '(result, used_bytes) :=
    foldl (share_step budget total) (result, minimum_bytes) demands in
  Ok (fill_loop (fill_fuel demands) budget used_bytes result demands).

(** ** Correctness *)

(** Demands whose registered experts have a byte count of 63 bits. *)
Record demands_ok demands : Prop := {
  dm_nonempty : demands <> [];
  dm_unique : NoDup (signature <$> demands);
  dm_each : Forall (fun d => signature d <> ""%string /\ 0 < slot_bytes d /\
              0 < minimum_slots d <= registered_experts d /\
              registered_experts d < 2 ^ 31) demands;
  dm_bytes : Zsum (fun d => slot_bytes d * registered_experts d) demands < 2 ^ 63;
}.

Definition used result demands : Z :=
  Zsum (fun d => slot_bytes d * default 0 (result !! signature d)) demands.

(** Every arena is between its bounds and the bytes are counted right. *)
Record planned (budget used_bytes : Z) result demands : Prop := {
  pl_bounds : forall d, d ∈ demands ->
    minimum_slots d <= default 0 (result !! signature d) <= registered_experts d;
  pl_used : used_bytes = used result demands;
  pl_budget : used_bytes <= budget;
  pl_dom : forall s, is_Some (result !! s) <-> s ∈ signature <$> demands;
}.

Lemma demand_facts demands d :
  demands_ok demands -> d ∈ demands ->
  signature d <> ""%string /\ 0 < slot_bytes d /\ 0 < minimum_slots d <= registered_experts d /\
  registered_experts d < 2 ^ 31 /\ slot_bytes d * registered_experts d < 2 ^ 63.
Proof.
  intros [_ _ He Hb] Hd. rewrite Forall_forall in He.
  destruct (He d Hd) as (H1 & H2 & H3 & H4). do 4 (split; [done|]).
  eapply Z.le_lt_trans; [|exact Hb].
  apply (Zsum_elem_le (fun d => slot_bytes d * registered_experts d)); [|done].
  apply Forall_forall. intros x Hx. destruct (He x Hx) as (_ & ? & ? & _). nia.
Qed.

Lemma demand_sig demands d d' :
  demands_ok demands -> d ∈ demands -> d' ∈ demands -> signature d = signature d' -> d = d'.
Proof.
  intros [_ Hu _ _] [i Hi]%list_elem_of_lookup [j Hj]%list_elem_of_lookup He.
  assert (i = j) as ->; [|congruence].
  eapply NoDup_lookup; [exact Hu|by rewrite list_lookup_fmap, Hi|].
  rewrite list_lookup_fmap, Hj. simpl. congruence.
Qed.

Lemma demands_NoDup demands : demands_ok demands -> NoDup demands.
Proof. intros [_ Hu _ _]. by eapply NoDup_fmap_1. Qed.

Lemma used_insert result demands d n :
  demands_ok demands -> d ∈ demands ->
  used (<[signature d := n]> result) demands =
  used result demands + slot_bytes d * (n - default 0 (result !! signature d)).
Proof.
  intros Hok Hd. unfold used.
  rewrite (Zsum_update (fun d => slot_bytes d * default 0 (result !! signature d)) _ demands d);
    [|by apply demands_NoDup|done|].
  - simpl. rewrite lookup_insert_eq. simpl. lia.
  - intros y Hy Hne. simpl. rewrite lookup_insert_ne; [done|].
    intros Hs. apply Hne. by eapply demand_sig.
Qed.

Lemma used_range budget u result demands :
  demands_ok demands -> planned budget u result demands -> 0 <= u < 2 ^ 63.
Proof.
  intros Hok Hp. rewrite (pl_used _ _ _ _ Hp). split.
  - apply Zsum_nonneg, Forall_forall. intros d Hd.
    destruct (demand_facts _ d Hok Hd) as (_ & ? & ? & _). pose proof (pl_bounds _ _ _ _ Hp d Hd).
    nia.
  - eapply Z.le_lt_trans; [|apply (dm_bytes _ Hok)]. apply Zsum_le. intros d Hd.
    destruct (demand_facts _ d Hok Hd) as (_ & ? & ? & _). pose proof (pl_bounds _ _ _ _ Hp d Hd).
    nia.
Qed.

(** Giving arena [d] [n] slots. *)
Lemma planned_insert budget u result demands d n :
  demands_ok demands -> planned budget u result demands -> d ∈ demands ->
  minimum_slots d <= n <= registered_experts d ->
  u + slot_bytes d * (n - default 0 (result !! signature d)) <= budget ->
  planned budget (u + slot_bytes d * (n - default 0 (result !! signature d)))
    (<[signature d := n]> result) demands.
Proof.
  intros Hok Hp Hd Hn Hb. split.
  - intros y Hy. destruct (decide (signature y = signature d)) as [Hs|Hs].
    + pose proof (demand_sig _ _ _ Hok Hy Hd Hs) as ->. by rewrite lookup_insert_eq.
    + rewrite lookup_insert_ne by done. by apply (pl_bounds _ _ _ _ Hp).
  - rewrite used_insert by done. by rewrite (pl_used _ _ _ _ Hp).
  - done.
  - intros s. rewrite <- (pl_dom _ _ _ _ Hp s). rewrite lookup_insert_is_Some'.
    split; [intros [<-|]; [|done]|by right]. apply (pl_dom _ _ _ _ Hp). by apply list_elem_of_fmap_2.
Qed.

Lemma share_step_planned budget total u result demands d :
  demands_ok demands -> in_s64 budget -> planned budget u result demands -> d ∈ demands ->
  let st := share_step budget total (result, u) d in planned budget st.2 st.1 demands.
Proof.
  intros Hok Hbud Hp Hd. unfold share_step. set (t := target_slots budget total d).
  destruct (demand_facts _ d Hok Hd) as (_ & Hsb & Hmin & Hreg & Hbytes).
  assert (minimum_slots d <= t <= registered_experts d) as Ht by (unfold t, target_slots; lia).
  pose proof (pl_bounds _ _ _ _ Hp d Hd) as Hc.
  pose proof (used_range _ _ _ _ Hok Hp) as Hu. pose proof (pl_budget _ _ _ _ Hp) as Hub.
  set (c := default 0 (result !! signature d)) in *.
  assert (- (slot_bytes d * registered_experts d) <= (t - c) * slot_bytes d
          <= slot_bytes d * registered_experts d) as Hadd by nia.
  unfold in_s64, s64_max in Hbud.
  rewrite (s32_small (t - c)) by (unfold in_s32, s32_max; lia).
  rewrite (s64_small ((t - c) * _)) by (unfold in_s64, s64_max; lia).
  rewrite (s64_small (budget - u)) by (unfold in_s64, s64_max; lia).
  destruct (Z.leb_spec ((t - c) * slot_bytes d) (budget - u)) as [Hle|]; [|done]. simpl.
  pose proof (planned_insert budget u result demands d t Hok Hp Hd Ht) as Hi. fold c in Hi.
  specialize (Hi ltac:(lia)). pose proof (used_range _ _ _ _ Hok Hi) as Hr.
  replace (s64 _) with (u + slot_bytes d * (t - c)); [done|].
  rewrite s64_small by (unfold in_s64, s64_max; lia). lia.
Qed.

Lemma share_planned budget total demands l u result :
  demands_ok demands -> in_s64 budget -> planned budget u result demands ->
  (forall d, d ∈ l -> d ∈ demands) ->
  let st := foldl (share_step budget total) (result, u) l in planned budget st.2 st.1 demands.
Proof.
  intros Hok Hbud Hp. revert u result Hp. induction l as [|d l IH]; intros u result Hp Hl; [done|].
  cbn [foldl]. pose proof (share_step_planned budget total u result demands d Hok Hbud Hp
    ltac:(set_solver)) as Hs. cbv zeta in Hs |- *.
  destruct (share_step budget total (result, u) d) as [r' u']. apply IH; [done|set_solver].
Qed.

(** ** The filling loop *)

Lemma arena_skip_false budget u result demands d :
  demands_ok demands -> in_s64 budget -> planned budget u result demands -> d ∈ demands ->
  arena_skip budget u result d = false <->
  default 0 (result !! signature d) < registered_experts d /\ slot_bytes d <= budget - u.
Proof.
  intros Hok Hbud Hp Hd. unfold arena_skip. pose proof (used_range _ _ _ _ Hok Hp).
  pose proof (pl_budget _ _ _ _ Hp). unfold in_s64, s64_max in Hbud.
  rewrite s64_small by (unfold in_s64, s64_max; lia).
  rewrite orb_false_iff, Z.leb_gt, Z.ltb_ge. done.
Qed.

(** The search finds an arena exactly when one can take a slot. *)
Lemma neediest_some budget u result demands :
  demands_ok demands -> planned budget u result demands ->
  match neediest budget u result demands with
  | Some d => d ∈ demands /\ arena_skip budget u result d = false
  | None => forall d, d ∈ demands -> arena_skip budget u result d = true
  end.
Proof.
  intros Hok Hp. unfold neediest.
  enough (forall l, (forall d, d ∈ l -> d ∈ demands) ->
    let b := foldl (neediest_step budget u result) (None, minus_one) l in
    match b.1 with
    | Some d => d ∈ l /\ arena_skip budget u result d = false
    | None => b.2 = minus_one /\ forall d, d ∈ l -> arena_skip budget u result d = true
    end) as Hgen.
  { specialize (Hgen demands ltac:(done)). cbv zeta in Hgen. destruct (foldl _ _ demands).1;
      [done|apply Hgen]. }
  intros l. induction l as [|d l IH] using rev_ind; intros Hl; cbv zeta.
  { simpl. split; [done|set_solver]. }
  rewrite foldl_snoc. specialize (IH ltac:(set_solver)). cbv zeta in IH.
  destruct (foldl _ _ l) as [best bd]. simpl in IH. unfold neediest_step.
  destruct (arena_skip budget u result d) eqn:Hs.
  - simpl. destruct best; [set_solver|]. destruct IH as [-> IH]. split; [done|].
    intros d' [Hd'| ->%list_elem_of_singleton]%elem_of_app; auto.
  - destruct best as [b|].
    { destruct (fl_ltb _ _); simpl; set_solver. }
    destruct IH as [-> IH].
    assert (fl_ltb minus_one (deficit result d) = true) as Hlt.
    { assert (d ∈ demands) as Hd by set_solver.
      destruct (demand_facts _ d Hok Hd) as (_ & _ & Hmin & Hreg & _).
      pose proof (pl_bounds _ _ _ _ Hp d Hd) as Hb. unfold arena_skip in Hs.
      apply orb_false_iff in Hs as [Hs%Z.leb_gt _].
      unfold deficit. rewrite s32_small by (unfold in_s32, s32_max; lia).
      unfold minus_one, fl_of_Z. simpl binary_normalize.
      assert (exists m e, binary_round fl_prec fl_emax true 1 0 = S754_finite true m e)
        as (m & e & ->) by apply fl_minus_one.
      apply fl_ratio_above; lia. }
    simpl. rewrite Hlt. simpl. set_solver.
Qed.

(** The slots still to be given out. *)
Definition room result demands : Z :=
  Zsum (fun d => registered_experts d - default 0 (result !! signature d)) demands.

Lemma room_insert result demands d :
  demands_ok demands -> d ∈ demands ->
  room (<[signature d := default 0 (result !! signature d) + 1]> result) demands =
  room result demands - 1.
Proof.
  intros Hok Hd. unfold room.
  rewrite (Zsum_update (fun d => registered_experts d - default 0 (result !! signature d)) _
             demands d); [|by apply demands_NoDup|done|].
  - simpl. rewrite lookup_insert_eq. simpl. lia.
  - intros y Hy Hne. simpl. rewrite lookup_insert_ne; [done|].
    intros Hs. apply Hne. by eapply demand_sig.
Qed.

Definition saturated (budget u : Z) result demands : Prop :=
  forall d, d ∈ demands ->
    default 0 (result !! signature d) = registered_experts d \/ budget - u < slot_bytes d.

Lemma fill_loop_spec budget demands fuel : forall u result,
  demands_ok demands -> in_s64 budget -> planned budget u result demands ->
  room result demands <= Z.of_nat fuel ->
  let r := fill_loop fuel budget u result demands in
  planned budget (used r demands) r demands /\ saturated budget (used r demands) r demands.
Proof.
  induction fuel as [|fuel IH]; intros u result Hok Hbud Hp Hf; cbn [fill_loop]; cbv zeta.
  { rewrite <- (pl_used _ _ _ _ Hp). split; [done|]. intros d Hd. left.
    pose proof (pl_bounds _ _ _ _ Hp) as Hb.
    assert (registered_experts d - default 0 (result !! signature d) <= 0); [|specialize (Hb d Hd); lia].
    etrans; [|exact Hf]. apply (Zsum_elem_le (fun d => registered_experts d -
      default 0 (result !! signature d))); [|done].
    apply Forall_forall. intros y Hy. specialize (Hb y Hy). lia. }
  pose proof (neediest_some budget u result demands Hok Hp) as Hn.
  destruct (neediest budget u result demands) as [d|].
  - destruct Hn as [Hd Hs]. rewrite (arena_skip_false _ _ _ _ _ Hok Hbud Hp Hd) in Hs.
    destruct Hs as [Hlt Hsb]. destruct (demand_facts _ d Hok Hd) as (_ & Hb0 & Hmin & Hreg & _).
    pose proof (pl_bounds _ _ _ _ Hp d Hd) as Hb.
    rewrite s32_small by (unfold in_s32, s32_max; lia).
    set (n := default 0 (result !! signature d)) in *.
    pose proof (planned_insert budget u result demands d (n + 1) Hok Hp Hd ltac:(lia)) as Hi.
    fold n in Hi. replace (slot_bytes d * (n + 1 - n)) with (slot_bytes d) in Hi by lia.
    specialize (Hi ltac:(lia)). pose proof (used_range _ _ _ _ Hok Hi).
    rewrite s64_small by (unfold in_s64, s64_max; lia).
    apply IH; [done|done|done|]. unfold n. rewrite room_insert by done. lia.
  - rewrite <- (pl_used _ _ _ _ Hp). split; [done|]. intros d Hd. specialize (Hn d Hd).
    pose proof (pl_bounds _ _ _ _ Hp d Hd).
    destruct (decide (default 0 (result !! signature d) = registered_experts d)); [by left|right].
    apply Z.nle_gt. intros Hle. apply not_true_iff_false in Hn; [done|].
    apply (arena_skip_false _ _ _ _ _ Hok Hbud Hp Hd). lia.
Qed.

Lemma validate_spec demands : forall sigs result m total,
  Forall (fun d => signature d <> ""%string /\ 0 < slot_bytes d /\
    0 < minimum_slots d <= registered_experts d /\ registered_experts d < 2 ^ 31) demands ->
  NoDup (signature <$> demands) -> (forall d, d ∈ demands -> signature d ∉ sigs) ->
  0 <= m -> m + Zsum (fun d => slot_bytes d * minimum_slots d) demands < 2 ^ 63 ->
  exists total',
    validate_demands demands sigs result m total =
      Ok (foldl (fun r d => <[signature d := minimum_slots d]> r) result demands,
          m + Zsum (fun d => slot_bytes d * minimum_slots d) demands, total').
Proof.
  induction demands as [|d demands IH]; intros sigs result m total He Hu Hs Hm Hb.
  { exists total. simpl. rewrite Z.add_0_r. done. }
  apply Forall_cons in He as [(H1 & H2 & H3 & H4) He]. rewrite fmap_cons, NoDup_cons in Hu.
  destruct Hu as [Hd Hu]. cbn [validate_demands].
  assert (Zsum (fun d => slot_bytes d * minimum_slots d) (d :: demands) =
    slot_bytes d * minimum_slots d + Zsum (fun d => slot_bytes d * minimum_slots d) demands) as Hz
    by done.
  assert (0 <= Zsum (fun d => slot_bytes d * minimum_slots d) demands) as Hnn.
  { apply Zsum_nonneg. eapply Forall_impl; [exact He|]. intros x. simpl. nia. }
  rewrite bool_decide_false, bool_decide_false by set_solver. simpl.
  rewrite !(proj2 (Z.leb_gt _ _)), (proj2 (Z.ltb_ge _ _)) by lia. simpl.
  assert (0 < slot_bytes d * minimum_slots d < 2 ^ 63) as Hp by nia.
  rewrite (proj2 (Z.ltb_ge _ _)) by (apply Z.div_le_lower_bound; unfold s64_max; lia).
  rewrite (s64_small (slot_bytes d * _)), s64_small by (unfold in_s64, s64_max; lia).
  destruct (IH ({[signature d]} ∪ sigs) (<[signature d:=minimum_slots d]> result)
    (m + slot_bytes d * minimum_slots d) (fl_add total (registered_bytes d)) He Hu) as [t Ht].
  - intros y Hy. rewrite not_elem_of_union, not_elem_of_singleton. split; [|set_solver].
    intros Heq. apply Hd. rewrite <- Heq. by apply list_elem_of_fmap_2.
  - lia.
  - lia.
  - exists t. rewrite Ht. do 3 f_equal. unfold Zsum. simpl. lia.
Qed.

(** The state after the validation loop: the minimum slots. *)
Lemma minimum_result demands : forall result d,
  NoDup (signature <$> demands) -> d ∈ demands ->
  foldl (fun r d => <[signature d := minimum_slots d]> r) result demands !! signature d =
    Some (minimum_slots d).
Proof.
  induction demands as [|x demands IH] using rev_ind; intros result d Hu Hd; [set_solver|].
  rewrite foldl_snoc. rewrite fmap_app in Hu. apply NoDup_app in Hu as (Hu & Hx & _).
  apply elem_of_app in Hd as [Hd| ->%list_elem_of_singleton]; [|apply lookup_insert_eq].
  rewrite lookup_insert_ne; [by apply IH|]. intros Heq.
  apply (Hx (signature d)); [by apply list_elem_of_fmap_2|]. rewrite <- Heq. set_solver.
Qed.

Lemma minimum_dom demands : forall result s,
  is_Some (foldl (fun r d => <[signature d := minimum_slots d]> r) result demands !! s) <->
  is_Some (result !! s) \/ s ∈ signature <$> demands.
Proof.
  induction demands as [|x demands IH]; intros result s; simpl.
  { split; [by left|]. intros [|Hs]; [done|set_solver]. }
  rewrite IH, lookup_insert_is_Some', elem_of_cons. naive_solver.
Qed.

Lemma minimum_planned budget demands :
  demands_ok demands ->
  Zsum (fun d => slot_bytes d * minimum_slots d) demands <= budget ->
  planned budget (Zsum (fun d => slot_bytes d * minimum_slots d) demands)
    (foldl (fun r d => <[signature d := minimum_slots d]> r) ∅ demands) demands.
Proof.
  intros Hok Hb. split; [| |done|].
  - intros d Hd. rewrite minimum_result by (done || apply Hok). simpl.
    destruct (demand_facts _ d Hok Hd) as (_ & _ & ? & _). lia.
  - unfold used. apply Z.le_antisymm; apply Zsum_le; intros d Hd;
      rewrite minimum_result by (done || apply Hok); simpl; lia.
  - intros s. rewrite minimum_dom, lookup_empty. split; [|by right].
    intros [[? ?]|]; done.
Qed.

Lemma plan_correct budget demands :
  demands_ok demands -> 0 < budget < 2 ^ 63 ->
  if budget <? Zsum (fun d => slot_bytes d * minimum_slots d) demands
  then plan_moe_arena_slots budget demands =
    Throw (RuntimeError "MoE cache budget is below the minimum decode working set")
  else exists result, plan_moe_arena_slots budget demands = Ok result /\
    planned budget (used result demands) result demands /\
    saturated budget (used result demands) result demands.
Proof.
  intros Hok Hbud. unfold plan_moe_arena_slots.
  rewrite (proj2 (Z.leb_gt _ _)), bool_decide_false by (lia || apply Hok).
  assert (Zsum (fun d => slot_bytes d * minimum_slots d) demands < 2 ^ 63) as Hmin.
  { eapply Z.le_lt_trans; [|apply (dm_bytes _ Hok)]. apply Zsum_le. intros d Hd.
    destruct (demand_facts _ d Hok Hd) as (_ & ? & ? & _). nia. }
  destruct (validate_spec demands ∅ ∅ 0 (S754_zero false) (dm_each _ Hok) (dm_unique _ Hok))
    as [total Hv]; [set_solver|lia|lia|].
  rewrite Hv. cbn [mbind outcome_bind]. rewrite Z.add_0_l.
  destruct (Z.ltb_spec budget (Zsum (fun d => slot_bytes d * minimum_slots d) demands)); [done|].
  pose proof (share_planned budget total demands demands _ _ Hok
    ltac:(unfold in_s64, s64_max; lia) (minimum_planned budget demands Hok ltac:(done)) ltac:(done))
    as Hs. cbv zeta in Hs.
  destruct (foldl (share_step budget total) _ demands) as [result u]. simpl in Hs.
  eexists. split; [done|].
  apply (fill_loop_spec budget demands (fill_fuel demands) u result Hok
           ltac:(unfold in_s64, s64_max; lia) Hs).
  unfold fill_fuel. rewrite Z2Nat.id.
  - apply Zsum_le. intros d Hd. pose proof (pl_bounds _ _ _ _ Hs d Hd).
    destruct (demand_facts _ d Hok Hd) as (_ & _ & ? & _). lia.
  - apply Zsum_nonneg, Forall_forall. intros d Hd.
    destruct (demand_facts _ d Hok Hd) as (_ & _ & ? & _). lia.
Qed.
End MoeArena.

(** For valid demands the plan fails exactly when the budget is below the
    decode working set; otherwise it gives every arena a number of slots
    between its minimum and its registered experts, stays within the budget,
    and leaves no arena that could still take a slot, whatever the rounding of
    the proportional shares. *)
Theorem plan_moe_arena_slots_spec (F : FloatFormat) junk budget demands :
  demands_ok demands -> 0 < budget < 2 ^ 63 ->
  if budget <? Zsum (fun d => slot_bytes d * minimum_slots d) demands
  then @plan_moe_arena_slots F junk budget demands =
    Throw (RuntimeError "MoE cache budget is below the minimum decode working set")
  else exists result, @plan_moe_arena_slots F junk budget demands = Ok result /\
    (forall s, is_Some (result !! s) <-> s ∈ signature <$> demands) /\
    (forall d, d ∈ demands -> exists n, result !! signature d = Some n /\
       minimum_slots d <= n <= registered_experts d /\
       (n = registered_experts d \/ budget - used result demands < slot_bytes d)) /\
    used result demands <= budget.
Proof.
  intros Hok Hb. pose proof (plan_correct junk budget demands Hok Hb) as Hp.
  destruct (budget <? _); [done|]. destruct Hp as (result & Hr & Hp & Hs).
  exists result. split; [done|]. split; [apply Hp|]. split; [|apply Hp].
  intros d Hd. destruct (proj2 (pl_dom _ _ _ _ Hp (signature d)) ltac:(by apply list_elem_of_fmap_2))
    as [n Hn]. exists n. pose proof (pl_bounds _ _ _ _ Hp d Hd) as Hbd.
  specialize (Hs d Hd). rewrite Hn in Hbd, Hs. done.
Qed.

(** Two arenas of 3 and 5 byte slots under 40 bytes. *)
Definition sample_demands : list MoeArenaDemand :=
  [{| signature := "gate"; slot_bytes := 3; minimum_slots := 1; registered_experts := 8 |};
   {| signature := "down"; slot_bytes := 5; minimum_slots := 2; registered_experts := 8 |}].

Lemma plan_moe_arena_slots_spec_witness :
  exists result, @plan_moe_arena_slots extended80 0 40 sample_demands = Ok result /\
    result = {["gate"%string := 5; "down"%string := 5]} /\
    used result sample_demands <= 40.
Proof.
  assert (demands_ok sample_demands) as Hok.
  { split; [done|by vm_compute; repeat constructor; set_solver| |done].
    repeat constructor; done. }
  destruct (plan_moe_arena_slots_spec extended80 0 40 sample_demands Hok ltac:(done))
    as (result & Hr & _ & _ & Hu).
  exists result. split; [exact Hr|]. split; [|exact Hu].
  vm_compute in Hr. injection Hr as <-. by vm_compute.
Defined.
