(* ===== verification/TextEmitter.v ===== *)
(** * Streaming text output ([engine/include/text_emitter.h],
      [engine/src/text_emitter.cpp])

    Model output arrives in byte pieces that may split code points and stop
    sequences anywhere. The emitter releases well-formed UTF-8, withholds bytes
    that may start a stop sequence, and stops at the first one. A
    [std::string] is a list of byte values; [value[i]] at [i = size()] reads
    the terminating zero. *)

From stdpp Require Import base list sets.
From Stdlib Require Import ZArith Lia.
From S2P Require Import Prelude.

#[local] Set Default Proof Using "Type".
Open Scope Z_scope.

Abbreviation bytes := (list Z).

Definition byte_at (value : bytes) (i : nat) : Z := default 0 (value !! i).

(** U+FFFD. *)
Definition kReplacement : bytes := [0xEF; 0xBF; 0xBD].

Record Utf8Step := { width : nat; valid : bool; truncated : bool }.

(** The loop over the continuation bytes: [j] is the next one, [n] are left. *)
Fixpoint utf8_tail (value : bytes) (i limit : nat) (low high : Z) (j n : nat) : Utf8Step :=
  match n with
  | O => {| width := j; valid := true; truncated := false |}
  | S n =>
      if (limit <=? i + j)%nat then {| width := j; valid := false; truncated := true |}
      else
        let next := byte_at value (i + j) in
        if (next <? (if (j =? 1)%nat then low else 0x80)) ||
           ((if (j =? 1)%nat then high else 0xBF) <? next)
        then {| width := j; valid := false; truncated := false |}
        else utf8_tail value i limit low high (S j) n
  end.

Definition utf8_step (value : bytes) (i limit : nat) : Utf8Step :=
  let lead := byte_at value i in
  if lead <? 0x80 then {| width := 1; valid := true; truncated := false |}
  else if (0xC2 <=? lead) && (lead <=? 0xDF) then utf8_tail value i limit 0x80 0xBF 1 1
  else if (0xE0 <=? lead) && (lead <=? 0xEF) then
    utf8_tail value i limit (if lead =? 0xE0 then 0xA0 else 0x80)
      (if lead =? 0xED then 0x9F else 0xBF) 1 2
  else if (0xF0 <=? lead) && (lead <=? 0xF4) then
    utf8_tail value i limit (if lead =? 0xF0 then 0x90 else 0x80)
      (if lead =? 0xF4 then 0x8F else 0xBF) 1 3
  else {| width := 1; valid := false; truncated := false |}.

(** Every round consumes at least one byte: [limit] rounds are enough. *)
Fixpoint utf8_loop (fuel : nat) (value : bytes) (i limit : nat) (at_end : bool) (out : bytes)
    : nat * bytes :=
  match fuel with
  | O => (i, out)
  | S fuel =>
      if (i <? limit)%nat then
        let step := utf8_step value i limit in
        if truncated step && negb at_end then (i, out)
        else
          utf8_loop fuel value (i + width step) limit at_end
            (out ++ (if valid step then take (width step) (drop i value) else kReplacement))
      else (i, out)
  end.

Definition append_utf8_prefix (value : bytes) (limit : nat) (at_end : bool) (out : bytes)
    : nat * bytes :=
  let limit := Nat.min limit (length value) in
  utf8_loop limit value 0 limit at_end out.

Record Emitter := { stops : list bytes; output : bytes; pending : bytes; stopped : bool }.

Definition make_emitter (stops : list bytes) : Emitter :=
  {| stops := filter (fun s => s <> []) stops; output := []; pending := []; stopped := false |}.

Definition take_output (e : Emitter) : bytes * Emitter :=
  (output e, {| stops := stops e; output := []; pending := pending e; stopped := stopped e |}).

Definition emit_prefix (limit : nat) (at_end : bool) (e : Emitter) : bool * Emitter :=
  let '(consumed, out) := append_utf8_prefix (pending e) limit at_end (output e) in
  (true, {| stops := stops e; output := out; pending := drop consumed (pending e);
            stopped := stopped e |}).

(** [std::string::find]. *)
Fixpoint find_sub (stop l : bytes) : option nat :=
  if bool_decide (take (length stop) l = stop) then Some O
  else match l with
       | [] => None
       | _ :: l => S <$> find_sub stop l
       end.

(** The loop that keeps the leftmost stop sequence. *)
Definition earliest_stop (pending : bytes) (stops : list bytes) : option nat :=
  foldl (fun stop_pos stop =>
           match find_sub stop pending with
           | None => stop_pos
           | Some pos =>
               match stop_pos with
               | None => Some pos
               | Some best => if (pos <? best)%nat then Some pos else stop_pos
               end
           end) None stops.

(** How many trailing bytes may start [stop]. *)
Definition retain_for (pending stop : bytes) (retain : nat) : nat :=
  let max_prefix := Nat.min (length stop - 1) (length pending) in
  foldl (fun retain n =>
           if bool_decide (drop (length pending - n) pending = take n stop)
           then Nat.max retain n else retain) retain (seq 1 max_prefix).

Definition retained (pending : bytes) (stops : list bytes) : nat :=
  foldl (fun retain stop => retain_for pending stop retain) O stops.

Definition append (piece : bytes) (e : Emitter) : bool * Emitter :=
  if stopped e then (false, e)
  else
    let e := {| stops := stops e; output := output e; pending := pending e ++ piece;
                stopped := stopped e |} in
    match earliest_stop (pending e) (stops e) with
    | Some stop_pos =>
        let '(ok, e) := emit_prefix stop_pos true e in
        if negb ok then (false, e)
        else (false, {| stops := stops e; output := output e; pending := []; stopped := true |})
    | None => emit_prefix (length (pending e) - retained (pending e) (stops e)) false e
    end.

Definition flush (e : Emitter) : bool * Emitter :=
  emit_prefix (length (pending e)) true e.

(** ** Batch decoding

    The specification: the whole text decoded at once, each maximal ill-formed
    subpart replaced. *)

Definition step1 (l : bytes) : Utf8Step := utf8_step l 0 (length l).

Definition emitted (l : bytes) : bytes :=
  if valid (step1 l) then take (width (step1 l)) l else kReplacement.

Fixpoint decode_fuel (fuel : nat) (l : bytes) : bytes :=
  match fuel, l with
  | O, _ | _, [] => []
  | S fuel, _ => emitted l ++ decode_fuel fuel (drop (width (step1 l)) l)
  end.

Definition decode (l : bytes) : bytes := decode_fuel (length l) l.

(** ** Steps *)

(** The tail reads only the bytes of the window. *)
Lemma utf8_tail_window value i limit low high n : forall j,
  (limit <= length value)%nat ->
  utf8_tail value i limit low high j n =
  utf8_tail (drop i (take limit value)) 0 (limit - i) low high j n.
Proof.
  induction n as [|n IH]; intros j Hl; simpl; [done|].
  destruct (Nat.leb_spec limit (i + j)) as [H1|H1];
    destruct (Nat.leb_spec (limit - i) j) as [H2|H2]; try lia; [done|].
  assert (byte_at value (i + j) = byte_at (drop i (take limit value)) j) as ->.
  { unfold byte_at. rewrite lookup_drop, lookup_take_lt; [done|lia]. }
  destruct (_ || _); [done|]. by apply IH.
Qed.

Lemma utf8_step_window value i limit :
  (i < limit)%nat -> (limit <= length value)%nat ->
  utf8_step value i limit = step1 (drop i (take limit value)).
Proof.
  intros Hi Hl. unfold step1, utf8_step. rewrite length_drop, length_take, Nat.min_l by lia.
  assert (byte_at value i = byte_at (drop i (take limit value)) 0) as ->.
  { unfold byte_at. rewrite lookup_drop, Nat.add_0_r, lookup_take_lt; [done|lia]. }
  rewrite !(utf8_tail_window value i limit) by done. done.
Qed.

Lemma utf8_tail_width l low high n : forall j,
  (j <= length l)%nat ->
  let st := utf8_tail l 0 (length l) low high j n in
  (j <= width st <= length l)%nat /\ (width st <= j + n)%nat /\
  (truncated st = true -> width st = length l /\ valid st = false).
Proof.
  induction n as [|n IH]; intros j Hj; simpl; [lia|].
  destruct (Nat.leb_spec (length l) j) as [H|H]; simpl; [lia|].
  destruct (_ || _); simpl; [split; [lia|]; split; [lia|done]|].
  destruct (IH (S j) ltac:(lia)) as (H1 & H2 & H3). split; [lia|]. split; [lia|done].
Qed.

Lemma step1_width l :
  l <> [] ->
  (1 <= width (step1 l) <= length l)%nat /\
  (truncated (step1 l) = true -> width (step1 l) = length l /\ valid (step1 l) = false).
Proof.
  intros Hl. assert (1 <= length l)%nat as Hlen by (destruct l; simpl; [done|lia]).
  unfold step1, utf8_step.
  destruct (_ <? _); [simpl; lia|].
  do 3 (destruct (_ && _); [match goal with |- context [utf8_tail l 0 _ ?a ?b 1 ?n] =>
    destruct (utf8_tail_width l a b n 1 Hlen) as (H1 & _ & H2); split; [exact H1|exact H2] end|]).
  simpl. lia.
Qed.

(** A step that is not cut off is determined by its bytes and the next one: it
    is the same on every prefix [z], at least as long, of a continuation. *)
Lemma utf8_tail_prefix l r z low high n : forall j,
  z `prefix_of` l ++ r ->
  let st := utf8_tail l 0 (length l) low high j n in
  truncated st = false -> (width st <= length z)%nat ->
  width (utf8_tail z 0 (length z) low high j n) = width st /\
  valid (utf8_tail z 0 (length z) low high j n) = valid st.
Proof.
  intros j Hz. revert j. induction n as [|n IH]; intros j; simpl; [done|].
  destruct (Nat.leb_spec (length l) j) as [H|H]; [done|].
  assert (j < length z -> byte_at z j = byte_at l j)%nat as Hbyte.
  { intros Hj. unfold byte_at. destruct Hz as [k Hk].
    rewrite <- (lookup_app_l l r) by done. by rewrite Hk, lookup_app_l. }
  destruct (_ || _) eqn:Hr; cbn [width valid truncated].
  - intros _ Hle. destruct (Nat.leb_spec (length z) j) as [|Hj]; [done|].
    rewrite Hbyte, Hr by done. done.
  - intros Ht Hw. destruct (utf8_tail_width l low high n (S j) ltac:(lia)) as [Hjw _].
    rewrite (proj2 (Nat.leb_gt _ _)), Hbyte, Hr by lia. by apply IH.
Qed.

Lemma step1_prefix l r z :
  l <> [] -> z `prefix_of` l ++ r -> truncated (step1 l) = false ->
  (width (step1 l) <= length z)%nat ->
  width (step1 z) = width (step1 l) /\ emitted z = emitted l.
Proof.
  intros Hl Hz Ht Hw. destruct (step1_width l Hl) as [Hwl _].
  assert (take (width (step1 l)) z = take (width (step1 l)) l) as Htk.
  { destruct Hz as [k Hk]. rewrite <- (take_app_le l r), Hk, take_app_le by lia. done. }
  assert (byte_at z 0 = byte_at l 0) as Hb.
  { unfold byte_at. destruct Hz as [k Hk]. rewrite <- (lookup_app_l l r) by lia.
    by rewrite Hk, lookup_app_l by lia. }
  assert (width (step1 z) = width (step1 l) /\ valid (step1 z) = valid (step1 l)) as [H1 H2].
  { revert Ht Hw. unfold step1, utf8_step.
    rewrite Hb. destruct (_ <? _); [done|].
    do 3 (destruct (_ && _); [by apply (utf8_tail_prefix l r z)|]). done. }
  split; [done|]. unfold emitted. by rewrite H2, H1, Htk.
Qed.

Lemma decode_fuel_enough n : forall m l,
  (length l <= n)%nat -> (length l <= m)%nat -> decode_fuel n l = decode_fuel m l.
Proof.
  induction n as [|n IH]; intros m l Hn Hm.
  { destruct l; [by destruct m|simpl in Hn; lia]. }
  destruct l as [|b l]; [by destruct m|]. destruct m as [|m]; [simpl in Hm; lia|].
  cbn [decode_fuel]. f_equal. destruct (step1_width (b :: l) ltac:(done)) as [Hw _].
  apply IH; rewrite length_drop; simpl in *; lia.
Qed.

Lemma decode_step l :
  l <> [] -> decode l = emitted l ++ decode (drop (width (step1 l)) l).
Proof.
  intros Hl. unfold decode. destruct l as [|b l]; [done|]. cbn [length decode_fuel]. f_equal.
  destruct (step1_width (b :: l) ltac:(done)) as [Hw _].
  apply decode_fuel_enough; rewrite ?length_drop; simpl in *; lia.
Qed.

(** ** The loop against batch decoding *)

Lemma window_emit (value : bytes) i limit n :
  (i + n <= limit)%nat -> take n (drop i value) = take n (drop i (take limit value)).
Proof.
  intros Hn. rewrite !take_drop_commute, take_take.
  by replace (Nat.min (i + n) limit) with (i + n)%nat by lia.
Qed.

Lemma loop_at_end fuel : forall value i limit out,
  (limit - i <= fuel)%nat -> (i <= limit <= length value)%nat ->
  utf8_loop fuel value i limit true out = (limit, out ++ decode (drop i (take limit value))).
Proof.
  induction fuel as [|fuel IH]; intros value i limit out Hf Hi.
  { replace i with limit by lia. simpl. rewrite drop_ge by (rewrite length_take; lia).
    unfold decode. simpl. by rewrite app_nil_r. }
  cbn [utf8_loop]. destruct (Nat.ltb_spec i limit) as [Hlt|Hge].
  2:{ replace i with limit by lia. rewrite drop_ge by (rewrite length_take; lia).
      unfold decode. simpl. by rewrite app_nil_r. }
  set (w := drop i (take limit value)).
  assert (length w = limit - i)%nat as Hw by (unfold w; rewrite length_drop, length_take; lia).
  assert (w <> []) as Hne by (intros He; rewrite He in Hw; simpl in Hw; lia).
  rewrite utf8_step_window by lia. fold w. rewrite andb_false_r.
  destruct (step1_width w Hne) as [Hwd _].
  rewrite IH by lia. rewrite (decode_step w Hne). unfold emitted.
  rewrite (window_emit value i limit) by lia. fold w.
  rewrite <- app_assoc. f_equal. f_equal. f_equal. unfold w. by rewrite drop_drop.
Qed.

(** Without [at_end] the loop consumes a part whose decoding does not depend on
    where the text that follows ends. *)
Lemma loop_partial fuel : forall value i limit out,
  (i <= limit <= length value)%nat ->
  exists i' x, utf8_loop fuel value i limit false out = (i', out ++ x) /\
    (i <= i' <= limit)%nat /\
    forall ext z, z `prefix_of` drop i' (value ++ ext) ->
      decode (drop i (take i' value) ++ z) = x ++ decode z.
Proof.
  assert (forall value i out, exists i' x, (i, out) = (i', out ++ x) /\ (i' = i) /\
    forall z : bytes, decode (drop i (take i' value) ++ z) = x ++ decode z) as Hstop.
  { intros value i out. exists i, []. rewrite app_nil_r. split; [done|]. split; [done|].
    intros z. rewrite drop_ge by (rewrite length_take; lia). done. }
  induction fuel as [|fuel IH]; intros value i limit out Hi; cbn [utf8_loop].
  { destruct (Hstop value i out) as (i' & x & Heq & -> & Hd). exists i, x. split; [done|]. split; [lia|auto]. }
  destruct (Nat.ltb_spec i limit) as [Hlt|Hge].
  2:{ destruct (Hstop value i out) as (i' & x & Heq & -> & Hd). exists i, x. split; [done|]. split; [lia|auto]. }
  set (w := drop i (take limit value)).
  assert (length w = limit - i)%nat as Hw by (unfold w; rewrite length_drop, length_take; lia).
  assert (w <> []) as Hne by (intros He; rewrite He in Hw; simpl in Hw; lia).
  rewrite utf8_step_window by lia. fold w.
  destruct (truncated (step1 w)) eqn:Ht; cbn [andb negb].
  { destruct (Hstop value i out) as (i' & x & Heq & -> & Hd). exists i, x. split; [done|]. split; [lia|auto]. }
  destruct (step1_width w Hne) as [Hwd _].
  rewrite (window_emit value i limit) by lia. fold w. fold (emitted w).
  destruct (IH value (i + width (step1 w))%nat limit (out ++ emitted w) ltac:(lia))
    as (i' & x & Hl & Hi' & Hd).
  exists i', (emitted w ++ x). split; [by rewrite app_assoc|]. split; [lia|].
  intros ext z Hz. set (y := drop i (take i' value) ++ z).
  assert (length (drop i (take i' value)) = i' - i)%nat as Hlen
    by (rewrite length_drop, length_take; lia).
  assert (y `prefix_of` w ++ (drop limit value ++ ext)) as Hy.
  { assert (w ++ (drop limit value ++ ext) = drop i (take i' value) ++ drop i' (value ++ ext)) as ->.
    { unfold w. rewrite app_assoc.
      rewrite <- (drop_app_le (take limit value) (drop limit value)) by (rewrite length_take; lia).
      rewrite take_drop, (drop_app_le value ext i'), app_assoc by lia. f_equal.
      rewrite <- (take_drop i' value) at 1. rewrite drop_app_le; [done|rewrite length_take; lia]. }
    unfold y. by apply prefix_app. }
  destruct (step1_prefix w _ y Hne Hy Ht) as [H1 H2].
  { unfold y. rewrite length_app. lia. }
  rewrite (decode_step y), H2, H1.
  2:{ intros Hnil. apply (f_equal length) in Hnil. unfold y in Hnil. rewrite length_app in Hnil.
      simpl in Hnil. lia. }
  rewrite <- app_assoc. f_equal. rewrite <- (Hd ext z Hz). unfold y.
  rewrite drop_app_le by lia. by rewrite drop_drop.
Qed.

(** ** Stop sequences *)

(** [s] occurs in [l] at position [p]. *)
Definition occurs (s l : bytes) (p : nat) : Prop := s `prefix_of` drop p l.

Lemma prefix_take_iff (s l : bytes) : take (length s) l = s <-> s `prefix_of` l.
Proof.
  split; [intros <-; apply prefix_take|]. intros [k ->]. by rewrite take_app_length.
Qed.

Lemma find_sub_spec s l :
  match find_sub s l with
  | Some p => occurs s l p /\ forall q, (q < p)%nat -> ~ occurs s l q
  | None => forall q, (q <= length l)%nat -> ~ occurs s l q
  end.
Proof.
  induction l as [|b l IH]; cbn [find_sub]; case_bool_decide as Hb; rewrite prefix_take_iff in Hb.
  - split; [done|lia].
  - intros q _ Hq. unfold occurs in Hq. rewrite drop_nil in Hq. done.
  - split; [done|lia].
  - destruct (find_sub s l) as [p|]; simpl.
    + destruct IH as [IH1 IH2]. split; [done|]. intros [|q] Hq; [done|]. apply IH2. lia.
    + intros [|q] Hq; [done|]. simpl in Hq. apply IH. lia.
Qed.

Lemma occurs_bound s l p : s <> [] -> occurs s l p -> (p < length l)%nat.
Proof.
  intros Hs [k Hk]. apply (f_equal length) in Hk. rewrite length_drop, length_app in Hk.
  destruct s; [done|]. simpl in Hk. lia.
Qed.

(** [p] is the first position of [l] where some stop sequence occurs. *)
Definition first_stop (ss : list bytes) (l : bytes) (p : nat) : Prop :=
  (exists s, s ∈ ss /\ occurs s l p) /\
  (forall s q, s ∈ ss -> (q < p)%nat -> ~ occurs s l q).

Definition stop_free (ss : list bytes) (l : bytes) : Prop :=
  forall s q, s ∈ ss -> ~ occurs s l q.

Lemma earliest_stop_spec l ss :
  Forall (fun s => s <> []) ss ->
  match earliest_stop l ss with
  | Some p => first_stop ss l p
  | None => stop_free ss l
  end.
Proof.
  unfold earliest_stop. induction ss as [|s ss IH] using rev_ind; intros Hne.
  { simpl. intros s q Hs. set_solver. }
  apply Forall_app in Hne as [Hne Hs]. apply Forall_cons in Hs as [Hs _].
  rewrite foldl_snoc. specialize (IH Hne). pose proof (find_sub_spec s l) as Hf.
  set (r := foldl _ None ss) in *. destruct (find_sub s l) as [p|].
  - destruct Hf as [Hp Hmin].
    assert (forall b, first_stop ss l b \/ (stop_free ss l /\ (p < b)%nat) -> (p < b)%nat ->
      first_stop (ss ++ [s]) l p) as Hnew.
    { intros b Hb Hlt. split; [exists s; split; [set_solver|done]|].
      intros t q [Ht| ->%list_elem_of_singleton]%elem_of_app Hq; [|by apply Hmin].
      destruct Hb as [[_ Hb]|[Hb _]]; [apply Hb; [done|lia]|by apply Hb]. }
    destruct r as [b|]; [|apply (Hnew (S p)); [right; split; [done|lia]|lia]].
    destruct (Nat.ltb_spec p b) as [Hlt|Hge]; [apply (Hnew b); [by left|done]|].
    destruct IH as [(t & Ht & Hob) Hb]. split; [exists t; split; [set_solver|done]|].
    intros u q [Hu| ->%list_elem_of_singleton]%elem_of_app Hq; [by apply Hb|].
    apply Hmin. lia.
  - destruct r as [b|].
    + destruct IH as [(t & Ht & Hob) Hb]. split; [exists t; split; [set_solver|done]|].
      intros u q [Hu| ->%list_elem_of_singleton]%elem_of_app Hq; [by apply Hb|].
      apply Hf. pose proof (occurs_bound t l b) as Hbd. rewrite Forall_forall in Hne.
      specialize (Hbd (Hne t Ht) Hob). lia.
    + intros u q [Hu| ->%list_elem_of_singleton]%elem_of_app; [by apply IH|].
      intros Ho. pose proof (occurs_bound s l q Hs Ho). apply (Hf q); [lia|done].
Qed.

Lemma retain_for_ge l s r : (r <= retain_for l s r)%nat.
Proof.
  unfold retain_for. induction (seq 1 _) as [|n ns IH] using rev_ind; [done|].
  rewrite foldl_snoc. case_bool_decide; lia.
Qed.

Lemma retain_for_spec l s r n :
  (1 <= n)%nat -> (n <= length s - 1)%nat -> (n <= length l)%nat ->
  drop (length l - n) l = take n s -> (n <= retain_for l s r)%nat.
Proof.
  intros H1 H2 H3 He. unfold retain_for.
  assert (n ∈ seq 1 (Nat.min (length s - 1) (length l))) as Hin by (apply elem_of_seq; lia).
  induction (seq 1 _) as [|m ns IH] using rev_ind; [set_solver|]. rewrite foldl_snoc.
  apply elem_of_app in Hin as [Hin| ->%list_elem_of_singleton].
  - specialize (IH Hin). case_bool_decide; lia.
  - rewrite bool_decide_true by done. lia.
Qed.

Lemma retain_for_le l s r : (r <= length l)%nat -> (retain_for l s r <= length l)%nat.
Proof.
  intros Hr. unfold retain_for.
  assert (forall n, n ∈ seq 1 (Nat.min (length s - 1) (length l)) -> (n <= length l)%nat) as Hb
    by (intros n; rewrite elem_of_seq; lia).
  induction (seq 1 _) as [|m ns IH] using rev_ind; [done|]. rewrite foldl_snoc.
  specialize (IH ltac:(set_solver)). pose proof (Hb m ltac:(set_solver)).
  case_bool_decide; lia.
Qed.

Lemma retained_le l ss : (retained l ss <= length l)%nat.
Proof.
  unfold retained. induction ss as [|s ss IH] using rev_ind; [simpl; lia|].
  rewrite foldl_snoc. by apply retain_for_le.
Qed.

Lemma retained_spec l ss s n :
  s ∈ ss -> (1 <= n)%nat -> (n <= length s - 1)%nat -> (n <= length l)%nat ->
  drop (length l - n) l = take n s -> (n <= retained l ss)%nat.
Proof.
  intros Hs H1 H2 H3 He. unfold retained.
  induction ss as [|t ss IH] using rev_ind; [set_solver|]. rewrite foldl_snoc.
  apply elem_of_app in Hs as [Hs| ->%list_elem_of_singleton].
  - etrans; [by apply IH|apply retain_for_ge].
  - by apply retain_for_spec.
Qed.

(** A withheld-byte count is enough: a stop sequence that starts before the
    withheld bytes cannot be completed by what follows. *)
Lemma no_partial_stop l ss s q :
  stop_free ss l -> s ∈ ss -> (q < length l - retained l ss)%nat -> ~ drop q l `prefix_of` s.
Proof.
  intros Hfree Hs Hq [k Hk].
  assert (length s = length l - q + length k)%nat as Hlen.
  { rewrite Hk, length_app, length_drop. done. }
  destruct k as [|b k].
  { apply (Hfree s q Hs). rewrite app_nil_r in Hk. unfold occurs. by rewrite Hk. }
  simpl in Hlen.
  assert (length l - q <= retained l ss)%nat; [|lia].
  apply (retained_spec l ss s); [done|lia..|].
  replace (length l - (length l - q))%nat with q by lia.
  rewrite Hk, take_app_le by (rewrite length_drop; lia).
  by rewrite take_ge by (rewrite length_drop; lia).
Qed.

(** ** Streams *)

Inductive emit_op := EAppend (piece : bytes) | ETake.

(** The bytes taken so far and the emitter. *)
Definition emit_step (st : bytes * Emitter) (o : emit_op) : bytes * Emitter :=
  match o with
  | EAppend piece => (st.1, (append piece st.2).2)
  | ETake => let '(out, e) := take_output st.2 in (st.1 ++ out, e)
  end.

Definition run_emitter (ss : list bytes) (ops : list emit_op) : bytes * Emitter :=
  foldl emit_step ([], make_emitter ss) ops.

Definition text_of (ops : list emit_op) : bytes :=
  ops ≫= fun o => match o with EAppend piece => piece | ETake => [] end.

Definition real_stops (ss : list bytes) : list bytes := filter (fun s => s <> []) ss.

(** While running: [pending] is the tail of the text, what was released is the
    decoding of the rest wherever the text ends, and no stop sequence starts before [pending]. *)
Record running (ss : list bytes) (T out : bytes) (e : Emitter) : Prop := {
  ru_text : exists c, T = c ++ pending e /\
    (forall ext z, z `prefix_of` pending e ++ ext -> decode (c ++ z) = out ++ decode z) /\
    (forall s q, s ∈ ss -> (q < length c)%nat -> ~ occurs s T q /\ ~ drop q T `prefix_of` s);
  ru_free : stop_free ss T;
}.

(** Stopped: the text was cut at the first stop sequence of the text up to the
    piece that completed one. *)
Definition cut (ss : list bytes) (ops : list emit_op) (out : bytes) : Prop :=
  exists ops1 piece ops2 p, ops = ops1 ++ EAppend piece :: ops2 /\
    stop_free ss (text_of ops1) /\ first_stop ss (text_of ops1 ++ piece) p /\
    out = decode (take p (text_of ops1 ++ piece)).

Definition emitter_inv (ss : list bytes) (ops : list emit_op) (st : bytes * Emitter) : Prop :=
  stops st.2 = real_stops ss /\
  if stopped st.2
  then pending st.2 = [] /\ cut (real_stops ss) ops (st.1 ++ output st.2)
  else running (real_stops ss) (text_of ops) (st.1 ++ output st.2) st.2.

Lemma text_of_app ops ops' : text_of (ops ++ ops') = text_of ops ++ text_of ops'.
Proof. unfold text_of. apply bind_app. Qed.

Lemma occurs_app s l r q : s <> [] -> occurs s l q -> occurs s (l ++ r) q.
Proof.
  intros Hs Ho. pose proof (occurs_bound s l q Hs Ho). unfold occurs.
  rewrite drop_app_le by lia. by apply prefix_app_r.
Qed.

(** An occurrence in a longer text either lies in the shorter one or is cut
    off by its end. *)
Lemma occurs_shorten s l r q :
  (q <= length l)%nat -> occurs s (l ++ r) q -> occurs s l q \/ drop q l `prefix_of` s.
Proof.
  intros Hq. unfold occurs. rewrite drop_app_le by done. intros Hp.
  destruct (prefix_weak_total s (drop q l) (drop q l ++ r)) as [?|?]; [done|by apply prefix_app_r|..];
    auto.
Qed.

Lemma cut_snoc ss ops o out : cut ss ops out -> cut ss (ops ++ [o]) out.
Proof.
  intros (ops1 & piece & ops2 & p & -> & H1 & H2 & H3).
  exists ops1, piece, (ops2 ++ [o]), p. split; [by rewrite <- app_assoc|done].
Qed.

Lemma append_prefix_end value limit out :
  (limit <= length value)%nat ->
  append_utf8_prefix value limit true out = (limit, out ++ decode (take limit value)).
Proof.
  intros Hl. unfold append_utf8_prefix. rewrite Nat.min_l by done.
  rewrite loop_at_end by lia. by rewrite drop_0.
Qed.

(** A piece that completes a stop sequence. *)
Lemma append_stops ss T piece out e taken p :
  Forall (fun s => s <> []) ss -> stops e = ss -> stopped e = false ->
  running ss T out e -> out = taken ++ output e ->
  earliest_stop (pending e ++ piece) ss = Some p ->
  let e' := (append piece e).2 in
  stops e' = ss /\ stopped e' = true /\ pending e' = [] /\
  exists q, first_stop ss (T ++ piece) q /\ taken ++ output e' = decode (take q (T ++ piece)).
Proof.
  intros Hne Hss Hst [(c & HT & Hdec & Hno) Hfree] Ho Hp.
  unfold append. rewrite Hst, Hss. cbn [pending stops]. rewrite Hp.
  pose proof (earliest_stop_spec (pending e ++ piece) ss Hne) as Hsp. rewrite Hp in Hsp.
  destruct Hsp as [(s & Hs & Hso) Hmin]. rewrite Forall_forall in Hne.
  pose proof (occurs_bound s _ p (Hne s Hs) Hso) as Hb.
  unfold emit_prefix. cbn [pending output]. rewrite append_prefix_end by lia. cbn.
  do 3 (split; [done|]). exists (length c + p)%nat. subst T. rewrite <- app_assoc. split; [split|].
  - exists s. split; [done|]. unfold occurs. by rewrite drop_app_add.
  - intros t q Ht Hq Hoq. destruct (decide (q < length c)%nat) as [Hqc|Hqc].
    + destruct (Hno t q Ht Hqc) as [H1 H2]. rewrite app_assoc in Hoq.
      apply occurs_shorten in Hoq as [?|?]; [done|done|]. rewrite length_app. lia.
    + apply (Hmin t (q - length c)%nat Ht); [lia|]. unfold occurs in *.
      replace q with (length c + (q - length c))%nat in Hoq by lia. by rewrite drop_app_add in Hoq.
  - rewrite take_app_add, (app_assoc taken), <- Ho. symmetry. apply (Hdec piece). apply prefix_take.
Qed.

(** A piece that completes none. *)
Lemma append_continues ss T piece out e taken :
  Forall (fun s => s <> []) ss -> stops e = ss -> stopped e = false ->
  running ss T out e -> out = taken ++ output e ->
  earliest_stop (pending e ++ piece) ss = None ->
  let e' := (append piece e).2 in
  stops e' = ss /\ stopped e' = false /\ running ss (T ++ piece) (taken ++ output e') e'.
Proof.
  intros Hne Hss Hst [(c & HT & Hdec & Hno) Hfree] Ho Hp.
  unfold append. rewrite Hst, Hss. cbn [pending stops]. rewrite Hp.
  pose proof (earliest_stop_spec (pending e ++ piece) ss Hne) as Hsf. rewrite Hp in Hsf.
  unfold emit_prefix. cbn [pending output stops stopped].
  set (v := pending e ++ piece) in *. pose proof (retained_le v ss) as Hr.
  set (limit := (length v - retained v ss)%nat) in *. unfold append_utf8_prefix.
  rewrite Nat.min_l by lia.
  destruct (loop_partial limit v 0 limit (output e) ltac:(lia)) as (i & x & -> & Hi & Hx).
  cbn [snd stops stopped]. do 2 (split; [done|]).
  assert (T ++ piece = c ++ v) as HTv by (subst T v; by rewrite <- app_assoc).
  assert (forall s q, s ∈ ss -> (q < length c)%nat ->
    ~ occurs s (T ++ piece) q /\ ~ drop q (T ++ piece) `prefix_of` s) as Hno'.
  { intros s q Hs Hq. destruct (Hno s q Hs Hq) as [H1 H2].
    assert (q <= length T)%nat as HqT by (subst T; rewrite length_app; lia). split.
    - intros Ho'. apply occurs_shorten in Ho' as [|]; done.
    - intros Hpre. apply H2. rewrite drop_app_le in Hpre by done.
      etrans; [|exact Hpre]. by apply prefix_app_r. }
  split.
  - exists (c ++ take i v). cbn [pending]. split; [|split].
    + rewrite HTv, <- app_assoc. by rewrite take_drop.
    + intros ext z Hz. rewrite <- drop_app_le in Hz by lia.
      cbn [output]. rewrite <- (app_assoc c), (app_assoc taken), <- Ho.
      pose proof (Hx ext z Hz) as Hd. rewrite drop_0 in Hd.
      rewrite (Hdec (piece ++ ext)).
      * rewrite Hd. by rewrite app_assoc.
      * rewrite app_assoc. fold v. destruct Hz as [k Hk]. exists k. rewrite <- app_assoc, <- Hk.
        rewrite drop_app_le by lia. rewrite app_assoc. by rewrite take_drop.
    + intros s q Hs Hq. destruct (decide (q < length c)%nat) as [Hqc|Hqc]; [by apply Hno'|].
      rewrite length_app, length_take in Hq. unfold occurs. rewrite HTv.
      replace q with (length c + (q - length c))%nat by lia. rewrite drop_app_add. split.
      * by apply Hsf.
      * apply (no_partial_stop v ss); [done|done|]. fold limit. lia.
  - intros s q Hs Hoq. destruct (decide (q < length c)%nat) as [Hqc|Hqc].
    + by destruct (Hno' s q Hs Hqc).
    + apply (Hsf s (q - length c)%nat Hs). unfold occurs in *. rewrite HTv in Hoq.
      replace q with (length c + (q - length c))%nat in Hoq by lia. by rewrite drop_app_add in Hoq.
Qed.

Lemma real_stops_nonempty ss : Forall (fun s => s <> []) (real_stops ss).
Proof.
  apply Forall_forall. intros s Hs. by apply list_elem_of_filter in Hs as [? _].
Qed.

Lemma run_emitter_inv ss ops : emitter_inv ss ops (run_emitter ss ops).
Proof.
  induction ops as [|o ops IH] using rev_ind.
  { split; [done|]. simpl. split; [exists []; split; [done|]|].
    - split; [done|]. intros s q _ Hq. simpl in Hq. lia.
    - intros s q Hs Ho. pose proof (real_stops_nonempty ss) as Hne. rewrite Forall_forall in Hne.
      apply (occurs_bound s _ q (Hne s Hs)) in Ho. simpl in Ho. lia. }
  unfold run_emitter in *. rewrite foldl_snoc.
  destruct (foldl emit_step ([], make_emitter ss) ops) as [taken e].
  destruct IH as [Hss Hrun]. cbn [fst snd] in *. destruct o as [piece|]; cbn [emit_step fst snd].
  - unfold emitter_inv. cbn [fst snd]. destruct (stopped e) eqn:Hst.
    + unfold append. rewrite Hst. cbn [snd]. rewrite Hst. split; [done|].
      destruct Hrun as [Hp Hc]. split; [done|by apply cut_snoc].
    + destruct (earliest_stop (pending e ++ piece) (real_stops ss)) as [p|] eqn:Hp.
      * destruct (append_stops (real_stops ss) (text_of ops) piece _ e taken p
          (real_stops_nonempty ss) Hss Hst Hrun eq_refl Hp) as (H1 & H2 & H3 & q & Hq & Hout).
        rewrite H2. split; [done|]. split; [done|]. exists ops, piece, [], q.
        split; [done|]. split; [apply (ru_free _ _ _ _ Hrun)|done].
      * destruct (append_continues (real_stops ss) (text_of ops) piece _ e taken
          (real_stops_nonempty ss) Hss Hst Hrun eq_refl Hp) as (H1 & H2 & H3).
        rewrite H2. split; [done|]. rewrite text_of_app. unfold text_of at 2. simpl.
        by rewrite app_nil_r.
  - unfold emitter_inv. cbn [take_output fst snd stops stopped pending output].
    rewrite app_nil_r. split; [done|]. destruct (stopped e).
    + destruct Hrun as [Hp Hc]. split; [done|by apply cut_snoc].
    + rewrite text_of_app. unfold text_of at 2. simpl. rewrite app_nil_r.
      destruct Hrun as [H1 H2]. by split.
Qed.

(** ** UTF-8 *)

(** The encoding of a Unicode scalar value. *)
Definition scalar (cp : Z) : Prop := 0 <= cp <= 0x10FFFF /\ ~ 0xD800 <= cp <= 0xDFFF.

Definition utf8_encode (cp : Z) : bytes :=
  if cp <? 0x80 then [cp]
  else if cp <? 0x800 then [0xC0 + cp / 64; 0x80 + cp mod 64]
  else if cp <? 0x10000 then
    [0xE0 + cp / 4096; 0x80 + (cp / 64) mod 64; 0x80 + cp mod 64]
  else [0xF0 + cp / 262144; 0x80 + (cp / 4096) mod 64; 0x80 + (cp / 64) mod 64; 0x80 + cp mod 64].

Definition utf8_text (l : bytes) : Prop :=
  exists cps, Forall scalar cps /\ l = cps ≫= utf8_encode.

Definition is_byte (b : Z) : Prop := 0 <= b < 256.

(** Table 3-7 of the Unicode standard. *)
Definition continuation (b : Z) : Prop := 0x80 <= b <= 0xBF.

Definition well_formed (c : bytes) : Prop :=
  match c with
  | [a] => 0 <= a <= 0x7F
  | [a; b] => 0xC2 <= a <= 0xDF /\ continuation b
  | [a; b; c] => 0xE0 <= a <= 0xEF /\ continuation b /\ continuation c /\
      (a = 0xE0 -> 0xA0 <= b) /\ (a = 0xED -> b <= 0x9F)
  | [a; b; c; d] => 0xF0 <= a <= 0xF4 /\ continuation b /\ continuation c /\ continuation d /\
      (a = 0xF0 -> 0x90 <= b) /\ (a = 0xF4 -> b <= 0x8F)
  | _ => False
  end.

Ltac div_lia := Z.to_euclidean_division_equations; lia.

Lemma encode_well_formed cp : scalar cp -> well_formed (utf8_encode cp).
Proof.
  intros [Hr Hs]. unfold utf8_encode.
  destruct (Z.ltb_spec cp 0x80); [simpl; lia|].
  destruct (Z.ltb_spec cp 0x800); [unfold well_formed, continuation; div_lia|].
  destruct (Z.ltb_spec cp 0x10000); unfold well_formed, continuation; div_lia.
Qed.

Lemma well_formed_encode c : well_formed c -> exists cp, scalar cp /\ utf8_encode cp = c.
Proof.
  unfold scalar, utf8_encode.
  destruct c as [|a [|b [|c [|d [|? ?]]]]]; simpl; try done; unfold continuation; intros Hw.
  - exists a. rewrite (proj2 (Z.ltb_lt _ _)) by lia. split; [lia|done].
  - exists ((a - 0xC0) * 64 + (b - 0x80)). split; [lia|].
    rewrite (proj2 (Z.ltb_ge _ _)), (proj2 (Z.ltb_lt _ _)) by lia. repeat f_equal; div_lia.
  - exists ((a - 0xE0) * 4096 + (b - 0x80) * 64 + (c - 0x80)). split; [lia|].
    rewrite !(proj2 (Z.ltb_ge _ _)), (proj2 (Z.ltb_lt _ _)) by lia. repeat f_equal; div_lia.
  - exists ((a - 0xF0) * 262144 + (b - 0x80) * 4096 + (c - 0x80) * 64 + (d - 0x80)).
    split; [lia|]. rewrite !(proj2 (Z.ltb_ge _ _)) by lia. repeat f_equal; div_lia.
Qed.

Ltac case_bytes :=
  repeat (match goal with
    | |- context [(?x =? ?y)] => destruct (Z.eqb_spec x y); try lia
    | |- context [(?x <? ?y)] => destruct (Z.ltb_spec x y); try lia
    | |- context [(?x <=? ?y)] => destruct (Z.leb_spec x y); try lia
    end; cbn [andb orb]).

Lemma tail_valid_rest l low high n : forall j,
  (2 <= j)%nat -> valid (utf8_tail l 0 (length l) low high j n) = true ->
  width (utf8_tail l 0 (length l) low high j n) = (j + n)%nat /\
  exists t r, drop j l = t ++ r /\ length t = n /\ Forall continuation t.
Proof.
  induction n as [|n IH]; intros j Hj; cbn [utf8_tail].
  { intros _. cbn [width]. split; [lia|]. by exists [], (drop j l). }
  cbn [Nat.add]. destruct (Nat.leb_spec (length l) j) as [|Hlt]; [done|].
  rewrite (proj2 (Nat.eqb_neq j 1)) by lia.
  destruct (lookup_lt_is_Some_2 l j Hlt) as [b Hb]. unfold byte_at. rewrite Hb. cbn [default id].
  destruct (_ || _) eqn:Hr; [done|]. apply orb_false_iff in Hr as [Hr1%Z.ltb_ge Hr2%Z.ltb_ge].
  intros Hv. destruct (IH (S j) ltac:(lia) Hv) as (Hw & t & r & Hd & Ht & Hc).
  split; [lia|]. exists (b :: t), r. rewrite (drop_S _ _ _ Hb), Hd.
  split; [done|]. split; [simpl; lia|]. by constructor.
Qed.

(** A valid multi-byte step. *)
Lemma tail_valid a l low high n :
  valid (utf8_tail (a :: l) 0 (length (a :: l)) low high 1 (S n)) = true ->
  width (utf8_tail (a :: l) 0 (length (a :: l)) low high 1 (S n)) = S (S n) /\
  exists b t r, l = b :: t ++ r /\ low <= b <= high /\ length t = n /\ Forall continuation t.
Proof.
  cbn [utf8_tail]. cbn [Nat.add]. destruct (Nat.leb_spec (length (a :: l)) 1) as [|Hlt]; [done|].
  destruct l as [|b l]; [simpl in Hlt; lia|]. cbn [Nat.eqb].
  change (byte_at (a :: b :: l) 1) with b.
  destruct (_ || _) eqn:Hr; [done|]. apply orb_false_iff in Hr as [Hr1%Z.ltb_ge Hr2%Z.ltb_ge].
  intros Hv. destruct (tail_valid_rest (a :: b :: l) low high n 2 ltac:(lia) Hv)
    as (Hw & t & r & Hd & Ht & Hc).
  split; [lia|]. exists b, t, r. change (l = t ++ r) in Hd. by rewrite Hd.
Qed.

(** The decoder accepts exactly the well-formed sequences. *)
Lemma step1_valid l :
  l <> [] -> Forall is_byte l -> valid (step1 l) = true -> well_formed (take (width (step1 l)) l).
Proof.
  intros Hne Hb. destruct l as [|a l]; [done|]. apply Forall_cons in Hb as [Ha _].
  unfold is_byte in Ha. unfold step1, utf8_step. change (byte_at (a :: l) 0) with a.
  destruct (Z.ltb_spec a 0x80); [simpl; lia|].
  assert (forall low high n, 0x80 <= low -> high <= 0xBF ->
    (forall b t, low <= b <= high -> length t = n -> Forall continuation t ->
       well_formed (a :: b :: t)) ->
    valid (utf8_tail (a :: l) 0 (length (a :: l)) low high 1 (S n)) = true ->
    well_formed (take (width (utf8_tail (a :: l) 0 (length (a :: l)) low high 1 (S n))) (a :: l)))
    as Hgen.
  { intros low high n Hl Hh Hw Hv. destruct (tail_valid a l low high n Hv)
      as (-> & b & t & r & -> & Hbr & Ht & Hc).
    cbn [take firstn]. rewrite take_app_length' by done. by apply Hw. }
  destruct (_ && _) eqn:E2.
  { apply andb_true_iff in E2 as [?%Z.leb_le ?%Z.leb_le]. apply Hgen; [lia..|].
    intros b [|c t]; [|done]. unfold well_formed, continuation. lia. }
  destruct ((0xE0 <=? a) && _) eqn:E3.
  { apply andb_true_iff in E3 as [?%Z.leb_le ?%Z.leb_le]. apply Hgen; [case_bytes|case_bytes|].
    intros b [|c [|d t]] Hbr Hlen Hc; try done. apply Forall_cons in Hc as [Hc _].
    unfold well_formed, continuation in *. revert Hbr. case_bytes. }
  destruct ((0xF0 <=? a) && _) eqn:E4; [|done].
  apply andb_true_iff in E4 as [?%Z.leb_le ?%Z.leb_le]. apply Hgen; [case_bytes|case_bytes|].
  intros b [|c [|d [|? ?]]] Hbr Hlen Hc; try done.
  apply Forall_cons in Hc as [Hc Hd]. apply Forall_cons in Hd as [Hd _].
  unfold well_formed, continuation in *. revert Hbr. case_bytes.
Qed.

Lemma step1_well_formed c r :
  well_formed c -> step1 (c ++ r) = {| width := length c; valid := true; truncated := false |}.
Proof.
  unfold step1, utf8_step.
  destruct c as [|a [|b [|d [|e [|? ?]]]]]; simpl app; try done; unfold well_formed, continuation;
    intros Hw; change (byte_at (a :: _) 0) with a.
  - by case_bytes.
  - cbn [length utf8_tail Nat.leb Nat.add Nat.eqb]. change (byte_at (a :: b :: r) 1) with b.
    by case_bytes.
  - cbn [length utf8_tail Nat.leb Nat.add Nat.eqb]. change (byte_at (a :: b :: d :: r) 1) with b.
    change (byte_at (a :: b :: d :: r) 2) with d. by case_bytes.
  - cbn [length utf8_tail Nat.leb Nat.add Nat.eqb]. change (byte_at (a :: b :: d :: e :: r) 1) with b.
    change (byte_at (a :: b :: d :: e :: r) 2) with d.
    change (byte_at (a :: b :: d :: e :: r) 3) with e. by case_bytes.
Qed.

(** Decoding yields well-formed text and leaves well-formed text alone. *)
Lemma decode_utf8 n : forall l,
  (length l <= n)%nat -> Forall is_byte l -> utf8_text (decode l).
Proof.
  induction n as [|n IH]; intros l Hn Hb; destruct l as [|a l]; try (simpl in Hn; lia);
    [by exists []..|].
  rewrite decode_step by done. destruct (step1_width (a :: l) ltac:(done)) as [Hw _].
  destruct (IH (drop (width (step1 (a :: l))) (a :: l))) as (cps & Hs & ->).
  { rewrite length_drop. simpl in *. lia. } { by apply Forall_drop. }
  assert (exists cp, scalar cp /\ utf8_encode cp = emitted (a :: l)) as (cp & Hcp & <-).
  { unfold emitted. destruct (valid (step1 (a :: l))) eqn:Hv.
    - apply well_formed_encode. by apply step1_valid.
    - exists 0xFFFD. split; [unfold scalar; lia|done]. }
  exists (cp :: cps). split; [by constructor|done].
Qed.

Lemma decode_encoded cps : Forall scalar cps -> decode (cps ≫= utf8_encode) = cps ≫= utf8_encode.
Proof.
  induction 1 as [|cp cps Hcp Hs IH]; [done|]. rewrite bind_cons.
  pose proof (encode_well_formed cp Hcp) as Hw.
  assert (utf8_encode cp <> []) as Hne by (intros He; by rewrite He in Hw).
  rewrite decode_step by (intros He; by apply app_eq_nil in He as [? _]).
  unfold emitted. rewrite step1_well_formed by done. cbn [valid width].
  rewrite take_app_length, drop_app_length, IH. done.
Qed.

(** ** Properties *)

(** Everything a client receives: the bytes taken, then those of the flush. *)
Definition finish (st : bytes * Emitter) : bytes := st.1 ++ output (flush st.2).2.

Lemma flush_output e :
  output (flush e).2 = output e ++ decode (pending e).
Proof.
  unfold flush, emit_prefix. rewrite append_prefix_end by done. simpl. by rewrite take_ge.
Qed.

Lemma append_result piece e : (append piece e).1 = negb (stopped (append piece e).2).
Proof.
  unfold append. destruct (stopped e) eqn:Hs; simpl; [by rewrite Hs|].
  destruct (earliest_stop _ _); unfold emit_prefix; simpl; [by destruct (append_utf8_prefix _ _ _ _)|].
  destruct (append_utf8_prefix _ _ _ _). simpl. by rewrite ?Hs.
Qed.

Lemma finish_spec ss ops :
  let st := run_emitter ss ops in
  if stopped st.2 then pending st.2 = [] /\ cut (real_stops ss) ops (finish st)
  else stop_free (real_stops ss) (text_of ops) /\ finish st = decode (text_of ops).
Proof.
  pose proof (run_emitter_inv ss ops) as [_ Hi]. cbv zeta. unfold finish. rewrite flush_output.
  destruct (run_emitter ss ops) as [taken e]. cbn [fst snd] in *. destruct (stopped e).
  - destruct Hi as [-> Hc]. unfold decode. simpl. by rewrite app_nil_r.
  - destruct Hi as [(c & Ht & Hd & _) Hf]. split; [done|].
    rewrite app_assoc, Ht. symmetry. apply (Hd []). by rewrite app_nil_r.
Qed.

(** C36: whatever way the text is split into pieces and taken, the client
    receives the batch decoding of the whole text when no stop sequence occurs
    in it; otherwise the batch decoding of the text before the first stop
    sequence of the text up to the piece that completes one. [append] returns
    false from then on. *)
Theorem stream_is_batch ss ops :
  (let st := run_emitter ss ops in
   if stopped st.2 then cut (real_stops ss) ops (finish st)
   else stop_free (real_stops ss) (text_of ops) /\ finish st = decode (text_of ops)) /\
  (forall piece e, (append piece e).1 = negb (stopped (append piece e).2)).
Proof.
  split; [|apply append_result]. pose proof (finish_spec ss ops) as Hf. cbv zeta in *.
  destruct (stopped _); [apply Hf|exact Hf].
Qed.

(** The bytes received so far decode a part of the text. *)
Lemma received_utf8 ss ops :
  Forall is_byte (text_of ops) ->
  let st := run_emitter ss ops in utf8_text (st.1 ++ output st.2) /\ utf8_text (finish st).
Proof.
  intros Hb. pose proof (run_emitter_inv ss ops) as [_ Hi]. cbv zeta. unfold finish.
  rewrite flush_output. destruct (run_emitter ss ops) as [taken e]. cbn [fst snd] in *.
  destruct (stopped e).
  - destruct Hi as [-> (ops1 & piece & ops2 & p & Ho & _ & _ & Heq)].
    unfold decode at 1. simpl. rewrite app_nil_r. rewrite Heq.
    enough (utf8_text (decode (take p (text_of ops1 ++ piece)))) by done.
    eapply decode_utf8; [done|]. apply Forall_take.
    rewrite Ho in Hb. change (EAppend piece :: ops2) with ([EAppend piece] ++ ops2) in Hb.
    rewrite !text_of_app in Hb. apply Forall_app in Hb as [H1 H2]. apply Forall_app in H2 as [H2 _].
    unfold text_of in H2. simpl in H2. rewrite app_nil_r in H2. by apply Forall_app.
  - destruct Hi as [(c & Ht & Hd & _) Hf]. rewrite Ht in Hb.
    assert (Forall is_byte c) as Hc by by apply Forall_app in Hb as [? _].
    split.
    + assert (taken ++ output e = decode c) as ->; [|by eapply decode_utf8].
      rewrite <- (app_nil_r c). rewrite (Hd [] []) by apply prefix_nil. unfold decode. simpl.
      by rewrite app_nil_r.
    + rewrite app_assoc, <- (Hd [] (pending e)) by by rewrite app_nil_r. by eapply decode_utf8.
Qed.

(** C37: at every moment, whatever bytes the model produces and wherever they
    are split, the client has received a sequence of UTF-8 encoded Unicode
    scalar values, and still has after the flush. *)
Theorem output_is_utf8 ss ops :
  Forall is_byte (text_of ops) ->
  utf8_text ((run_emitter ss ops).1 ++ output (run_emitter ss ops).2) /\
  utf8_text (finish (run_emitter ss ops)).
Proof. apply received_utf8. Qed.

(** Well-formed UTF-8 text without a stop sequence is delivered
    unchanged, however its bytes are split. *)
Theorem utf8_unchanged ss ops :
  utf8_text (text_of ops) -> stop_free (real_stops ss) (text_of ops) ->
  finish (run_emitter ss ops) = text_of ops.
Proof.
  intros (cps & Hs & Ht) Hfree. pose proof (run_emitter_inv ss ops) as [_ Hi]. unfold finish.
  rewrite flush_output. destruct (run_emitter ss ops) as [taken e]. cbn [fst snd] in *.
  destruct (stopped e).
  - exfalso. destruct Hi as [_ (ops1 & piece & ops2 & p & Ho & _ & [(s & Hs' & Hoc) _] & _)].
    apply (Hfree s p Hs'). rewrite Ho.
    change (EAppend piece :: ops2) with ([EAppend piece] ++ ops2). rewrite !text_of_app, app_assoc.
    unfold text_of at 2. simpl. rewrite app_nil_r. apply occurs_app; [|done].
    pose proof (real_stops_nonempty ss) as Hne. rewrite Forall_forall in Hne. by apply Hne.
  - destruct Hi as [(c & Hc & Hd & _) _].
    rewrite app_assoc, <- (Hd [] (pending e)) by by rewrite app_nil_r.
    rewrite <- Hc, Ht. by apply decode_encoded.
Qed.

(** ** Witnesses: "hé" split inside the two bytes of the é, with a stop *)

Definition sample_ops : list emit_op := [EAppend [104; 0xC3]; ETake; EAppend [0xA9; 10]].

Lemma output_is_utf8_witness :
  (run_emitter [[120]] sample_ops).1 = [104] /\
  utf8_text (finish (run_emitter [[120]] sample_ops)).
Proof.
  split; [by vm_compute|].
  apply (output_is_utf8 [[120]] sample_ops).
  change (Forall is_byte [104; 0xC3; 0xA9; 10]). unfold is_byte.
  repeat constructor; lia.
Defined.

Lemma utf8_unchanged_witness :
  finish (run_emitter [[120]] sample_ops) = [104; 0xC3; 0xA9; 10].
Proof.
  apply (utf8_unchanged [[120]] sample_ops).
  - exists [104; 0xE9; 10]. split; [|by vm_compute].
    repeat constructor; unfold scalar; lia.
  - intros s q Hs. simpl in Hs. apply list_elem_of_singleton in Hs as ->. intros Ho.
    pose proof (occurs_bound [120] (text_of sample_ops) q ltac:(done) Ho) as Hq. simpl in Hq.
    destruct Ho as [k Hk]. unfold text_of in Hq, Hk. simpl in Hq, Hk.
    destruct q as [|[|[|[|q]]]]; simpl in Hk; done || lia.
Defined.

(** The stop sequence "b" cuts the text before it. *)
Example stops_at_b :
  finish (run_emitter [[98]] [EAppend [97]; EAppend [98; 99]]) = [97].
Proof. vm_compute. reflexivity. Qed.
