(* ===== verification/ChatDiff.v ===== *)
(** * Message differences ([components/tokenizer/chat/chat.h],
      [components/tokenizer/chat/chat.cpp])

    While a reply is generated its text is parsed again and again; what goes to
    the client is the difference to the message sent before. Strings are byte
    lists. *)

From stdpp Require Import base list strings gmap pretty.
From Stdlib Require Import ZArith Lia Ascii.
From Stdlib Require String.
From S2P Require Import Prelude TextEmitter.

#[local] Set Default Proof Using "Type".
Open Scope Z_scope.

(** Between byte lists and literals. *)
Definition bytes_of (s : string) : bytes := (fun a => Z.of_N (N_of_ascii a)) <$> String.list_ascii_of_string s.
Definition text_of_bytes (l : bytes) : string :=
  String.string_of_list_ascii ((fun b => ascii_of_N (Z.to_N b)) <$> l).

Record ToolCall := { call_name : bytes; call_arguments : bytes; call_id : bytes }.
Record ContentPart := { part_type : bytes; part_text : bytes }.

#[export] Instance tool_call_eq_dec : EqDecision ToolCall.
Proof. solve_decision. Defined.

Record Msg := {
  role : bytes;
  content : bytes;
  content_parts : list ContentPart;
  tool_calls : list ToolCall;
  reasoning_content : bytes;
  tool_name : bytes;
  tool_call_id : bytes;
  extra_fields : list (bytes * bytes);
}.

Definition empty_msg : Msg :=
  {| role := []; content := []; content_parts := []; tool_calls := []; reasoning_content := [];
     tool_name := []; tool_call_id := []; extra_fields := [] |}.

Definition set_tool_calls (calls : list ToolCall) (m : Msg) : Msg :=
  {| role := role m; content := content m; content_parts := content_parts m; tool_calls := calls;
     reasoning_content := reasoning_content m; tool_name := tool_name m;
     tool_call_id := tool_call_id m; extra_fields := extra_fields m |}.


Definition msg_empty (m : Msg) : bool :=
  is_nil (content m) && is_nil (content_parts m) && is_nil (tool_calls m) &&
  is_nil (reasoning_content m) && is_nil (tool_name m) && is_nil (tool_call_id m) &&
  is_nil (extra_fields m).

(** One turn of the loop of [set_tool_call_ids]: the [i]-th call; [gen] is
    applied to the cache it captures. *)
Definition assign_id (gen : list bytes -> bytes) (st : list bytes * list ToolCall) (tc : ToolCall)
    : list bytes * list ToolCall :=
  let '(ids, done) := st in
  let i := length done in
  let ids :=
    if (length ids <=? i)%nat
    then ids ++ [if is_nil (call_id tc) then gen ids else call_id tc]
    else ids in
  (ids, done ++ [{| call_name := call_name tc; call_arguments := call_arguments tc;
                    call_id := nth i ids [] |}]).

Definition set_tool_call_ids (gen : list bytes -> bytes) (ids : list bytes) (m : Msg)
    : list bytes * Msg :=
  let '(ids, calls) := foldl (assign_id gen) (ids, []) (tool_calls m) in
  (ids, set_tool_calls calls m).

Record MsgDiff := {
  reasoning_content_delta : bytes;
  content_delta : bytes;
  tool_call_index : option nat;
  tool_call_delta : ToolCall;
}.

Definition no_call : ToolCall := {| call_name := []; call_arguments := []; call_id := [] |}.

Definition starts_with (value prefix : bytes) : bool :=
  bool_decide (take (length prefix) value = prefix).

Definition string_diff (last current : bytes) : outcome bytes :=
  if is_nil last then Ok current
  else if negb (starts_with current last) then
    if starts_with last current then Ok []
    else Throw (RuntimeError ("Invalid diff: '" +:+ text_of_bytes last +:+
                              "' not found at start of '" +:+ text_of_bytes current +:+ "'"))
  else Ok (drop (length last) current).

Definition describe_calls (calls : list ToolCall) : string :=
  foldl (fun err tc => err +:+ "    - name: '" +:+ text_of_bytes (call_name tc) +:+ "', args: '" +:+
                       text_of_bytes (call_arguments tc) +:+ "'
") "" calls.

Definition fewer_calls (prv new : Msg) : string :=
  "Invalid diff: now finding less tool calls!
" +:+ "  Previous (" +:+ pretty (N.of_nat (length (tool_calls prv))) +:+ "):
" +:+ describe_calls (tool_calls prv) +:+
  "  Current (" +:+ pretty (N.of_nat (length (tool_calls new))) +:+ "):
" +:+ describe_calls (tool_calls new) +:+
  "  Current msg text content:
" +:+ text_of_bytes (content new) +:+ "
".

(** The text of one field, when it changed. *)
Definition text_diff (mk : bytes -> MsgDiff) (last current : bytes) : outcome (list MsgDiff) :=
  if bool_decide (last = current) then Ok []
  else d ← string_diff last current; Ok [mk d].

Definition reasoning_diff (d : bytes) : MsgDiff :=
  {| reasoning_content_delta := d; content_delta := []; tool_call_index := None;
     tool_call_delta := no_call |}.
Definition content_diff (d : bytes) : MsgDiff :=
  {| reasoning_content_delta := []; content_delta := d; tool_call_index := None;
     tool_call_delta := no_call |}.
Definition call_diff (i : nat) (tc : ToolCall) : MsgDiff :=
  {| reasoning_content_delta := []; content_delta := []; tool_call_index := Some i;
     tool_call_delta := tc |}.

(** The last tool call sent before. *)
Definition last_call_diff (idx : nat) (pref newf : ToolCall) : outcome (list MsgDiff) :=
  if negb (bool_decide (call_name pref = call_name newf)) && negb (is_nil (call_name pref)) &&
     negb (is_nil (call_name newf)) && negb (starts_with (call_name newf) (call_name pref))
  then Throw (RuntimeError "Invalid diff: tool call mismatch!")
  else
    args ← string_diff (call_arguments pref) (call_arguments newf);
    let renamed := negb (bool_decide (call_id pref = call_id newf)) ||
                   negb (bool_decide (call_name pref = call_name newf)) in
    Ok (if negb (is_nil args) || renamed
        then [call_diff idx
                {| call_name := if renamed then call_name newf else [];
                   call_arguments := args;
                   call_id := if renamed then call_id newf else [] |}]
        else []).

Definition new_call_diffs (n : nat) (calls : list ToolCall) : list MsgDiff :=
  imap (fun i tc => call_diff (n + i) tc) calls.

Definition compute_diffs (prv new : Msg) : outcome (list MsgDiff) :=
  d1 ← text_diff reasoning_diff (reasoning_content prv) (reasoning_content new);
  d2 ← text_diff content_diff (content prv) (content new);
  if (length (tool_calls new) <? length (tool_calls prv))%nat
  then Throw (RuntimeError (fewer_calls prv new))
  else
    d3 ← (if is_nil (tool_calls prv) then Ok []
          else let idx := (length (tool_calls prv) - 1)%nat in
               last_call_diff idx (nth idx (tool_calls prv) no_call)
                                  (nth idx (tool_calls new) no_call));
    Ok (d1 ++ d2 ++ d3 ++
        new_call_diffs (length (tool_calls prv))
          (drop (length (tool_calls prv)) (tool_calls new))).

(** ** What the client rebuilds *)

(** The visible part of a message. *)
Record View := { v_reasoning : bytes; v_content : bytes; v_calls : list ToolCall }.

Definition view (m : Msg) : View :=
  {| v_reasoning := reasoning_content m; v_content := content m; v_calls := tool_calls m |}.

(** A client appends the text and, for a call, sets id and name when they are
    sent and appends the arguments. *)
Definition apply_call (old delta : ToolCall) : ToolCall :=
  let named := negb (is_nil (call_id delta)) || negb (is_nil (call_name delta)) in
  {| call_name := if named then call_name delta else call_name old;
     call_arguments := call_arguments old ++ call_arguments delta;
     call_id := if named then call_id delta else call_id old |}.

Definition apply_diff (v : View) (d : MsgDiff) : View :=
  {| v_reasoning := v_reasoning v ++ reasoning_content_delta d;
     v_content := v_content v ++ content_delta d;
     v_calls :=
       match tool_call_index d with
       | None => v_calls v
       | Some i =>
           match v_calls v !! i with
           | Some old => <[i := apply_call old (tool_call_delta d)]> (v_calls v)
           | None => v_calls v ++ [tool_call_delta d]
           end
       end |}.

(** The new message extends the old one: the texts grow, the calls before the
    last are kept, the last one may still grow, and calls have identities. *)
Definition grows (prv new : Msg) : Prop :=
  reasoning_content prv `prefix_of` reasoning_content new /\
  content prv `prefix_of` content new /\
  match tool_calls prv with
  | [] => True
  | _ => exists before pref newf after,
      tool_calls prv = before ++ [pref] /\ tool_calls new = before ++ newf :: after /\
      call_arguments pref `prefix_of` call_arguments newf /\
      (call_name pref = [] \/ call_name pref `prefix_of` call_name newf) /\
      call_id newf <> []
  end.

Lemma starts_with_iff v p : starts_with v p = true <-> p `prefix_of` v.
Proof. unfold starts_with. rewrite bool_decide_eq_true. apply prefix_take_iff. Qed.

Lemma string_diff_prefix last current :
  last `prefix_of` current -> exists d, string_diff last current = Ok d /\ current = last ++ d.
Proof.
  intros Hp. unfold string_diff. destruct last as [|b last]; [by exists current|].
  cbn [is_nil]. rewrite (proj2 (starts_with_iff _ _) Hp). cbn [negb].
  destruct Hp as [k ->]. exists k. split; [|done]. by rewrite drop_app_length.
Qed.

Lemma text_diff_apply mk last current :
  last `prefix_of` current ->
  exists ds, text_diff mk last current = Ok ds /\
    ((ds = [] /\ current = last) \/ exists d, ds = [mk d] /\ current = last ++ d).
Proof.
  intros Hp. unfold text_diff. case_bool_decide as Heq; [exists []; auto|].
  destruct (string_diff_prefix _ _ Hp) as (d & -> & Hd). exists [mk d]. split; [done|].
  right. by exists d.
Qed.

Lemma new_calls_apply calls : forall v,
  foldl apply_diff v (new_call_diffs (length (v_calls v)) calls) =
  {| v_reasoning := v_reasoning v; v_content := v_content v; v_calls := v_calls v ++ calls |}.
Proof.
  unfold new_call_diffs.
  induction calls as [|tc calls IH]; intros v; [simpl; rewrite app_nil_r; by destruct v|].
  rewrite imap_cons. cbn [foldl].
  assert (apply_diff v (call_diff (length (v_calls v) + 0) tc) =
    {| v_reasoning := v_reasoning v; v_content := v_content v; v_calls := v_calls v ++ [tc] |}) as ->.
  { unfold apply_diff. simpl. rewrite Nat.add_0_r, lookup_ge_None_2 by lia.
    by rewrite !app_nil_r. }
  specialize (IH {| v_reasoning := v_reasoning v; v_content := v_content v;
                    v_calls := v_calls v ++ [tc] |}). cbn [v_calls v_content v_reasoning] in IH.
  rewrite <- app_assoc in IH. cbn [app] in IH. rewrite <- IH. f_equal.
  apply imap_ext. intros i x _. simpl. rewrite length_app. simpl. f_equal. lia.
Qed.

Lemma last_call_apply v before pref newf rest :
  v_calls v = before ++ [pref] -> call_id newf <> [] ->
  call_arguments pref `prefix_of` call_arguments newf ->
  (call_name pref = [] \/ call_name pref `prefix_of` call_name newf) ->
  exists ds, last_call_diff (length before) pref newf = Ok ds /\
    foldl apply_diff v (ds ++ rest) =
    foldl apply_diff {| v_reasoning := v_reasoning v; v_content := v_content v;
                        v_calls := before ++ [newf] |} rest.
Proof.
  intros Hv Hid Hargs Hname. unfold last_call_diff.
  assert (negb (bool_decide (call_name pref = call_name newf)) && negb (is_nil (call_name pref)) &&
     negb (is_nil (call_name newf)) && negb (starts_with (call_name newf) (call_name pref)) = false) as ->.
  { destruct Hname as [->|Hp]; [by rewrite andb_false_r|].
    by rewrite (proj2 (starts_with_iff _ _) Hp), andb_false_r. }
  destruct (string_diff_prefix _ _ Hargs) as (d & -> & Hd). cbv zeta. cbn [mbind outcome_bind].
  eexists. split; [reflexivity|]. rewrite foldl_app. f_equal.
  destruct (negb (bool_decide (call_id pref = call_id newf)) ||
            negb (bool_decide (call_name pref = call_name newf))) eqn:Er.
  - rewrite orb_true_r. cbn [foldl apply_diff call_diff tool_call_index v_calls].
    unfold apply_diff. simpl. rewrite Hv, lookup_app_r, Nat.sub_diag by lia. simpl.
    rewrite insert_app_r_alt, Nat.sub_diag, !app_nil_r by lia. simpl. f_equal. f_equal. f_equal.
    unfold apply_call. simpl. destruct (call_id newf) eqn:Ei; [done|]. simpl.
    rewrite <- Hd, <- Ei. by destruct newf.
  - apply orb_false_iff in Er as [Ei%negb_false_iff En%negb_false_iff].
    apply bool_decide_eq_true in Ei, En. rewrite orb_false_r.
    destruct d as [|b d]; simpl.
    + rewrite app_nil_r in Hd. assert (pref = newf) as -> by (destruct pref, newf; simpl in *; congruence).
      rewrite <- Hv. by destruct v.
    + unfold apply_diff. simpl. rewrite Hv, lookup_app_r, Nat.sub_diag by lia. simpl.
      rewrite insert_app_r_alt, Nat.sub_diag, !app_nil_r by lia. simpl. f_equal. f_equal. f_equal.
      unfold apply_call. simpl. rewrite <- Hd, Ei, En. by destruct newf.
Qed.

Lemma texts_apply prv new v :
  reasoning_content prv `prefix_of` reasoning_content new -> content prv `prefix_of` content new ->
  v_reasoning v = reasoning_content prv -> v_content v = content prv ->
  exists d1 d2, text_diff reasoning_diff (reasoning_content prv) (reasoning_content new) = Ok d1 /\
    text_diff content_diff (content prv) (content new) = Ok d2 /\
    foldl apply_diff v (d1 ++ d2) =
      {| v_reasoning := reasoning_content new; v_content := content new; v_calls := v_calls v |}.
Proof.
  intros Hr Hc Hvr Hvc.
  destruct (text_diff_apply reasoning_diff _ _ Hr) as (d1 & -> & H1).
  destruct (text_diff_apply content_diff _ _ Hc) as (d2 & -> & H2).
  exists d1, d2. do 2 (split; [done|]). rewrite foldl_app.
  destruct H1 as [[-> H1]|(k1 & -> & H1)], H2 as [[-> H2]|(k2 & -> & H2)]; simpl;
    unfold apply_diff; simpl; rewrite ?app_nil_r, ?Hvr, ?Hvc, ?H1, ?H2; try done.
  rewrite <- Hvr, <- Hvc. by destruct v.
Qed.

Lemma compute_diffs_view prv new :
  grows prv new ->
  exists ds, compute_diffs prv new = Ok ds /\ foldl apply_diff (view prv) ds = view new.
Proof.
  intros (Hr & Hc & Hcalls). unfold compute_diffs.
  destruct (texts_apply prv new (view prv) Hr Hc eq_refl eq_refl) as (d1 & d2 & -> & -> & Hd).
  cbn [mbind outcome_bind].
  set (v1 := {| v_reasoning := reasoning_content new; v_content := content new;
                v_calls := tool_calls prv |}).
  change (foldl apply_diff (view prv) (d1 ++ d2) = v1) in Hd.
  destruct (tool_calls prv) as [|c cs] eqn:Hprv.
  - cbn [length Nat.ltb Nat.leb is_nil mbind outcome_bind]. rewrite drop_0. eexists.
    split; [reflexivity|]. rewrite !app_assoc, app_nil_r, foldl_app, Hd.
    pose proof (new_calls_apply (tool_calls new) v1) as Hnew. unfold v1 in *.
    cbn [v_calls v_reasoning v_content] in *. rewrite ?Hprv in Hnew. exact Hnew.
  - destruct Hcalls as (before & pref & newf & after & Hp & Hn & Hargs & Hname & Hid).
    assert (length (c :: cs) = S (length before)) as Hlen
      by (rewrite Hp, length_app; simpl; lia).
    assert ((length (tool_calls new) <? length (c :: cs))%nat = false) as ->
      by (apply Nat.ltb_ge; rewrite Hn, Hlen, length_app; simpl; lia).
    cbn [is_nil]. rewrite Hlen. replace (S (length before) - 1)%nat with (length before) by lia.
    assert (nth (length before) (c :: cs) no_call = pref) as ->
      by (rewrite Hp, app_nth2, Nat.sub_diag by lia; done).
    assert (nth (length before) (tool_calls new) no_call = newf) as ->
      by (rewrite Hn, app_nth2, Nat.sub_diag by lia; done).
    assert (drop (S (length before)) (tool_calls new) = after) as ->.
    { rewrite Hn, cons_middle, app_assoc. apply drop_app_length'. rewrite length_app. simpl. lia. }
    destruct (last_call_apply v1 before pref newf (new_call_diffs (S (length before)) after) Hp Hid
      Hargs Hname) as (d3 & -> & Hd3).
    eexists. split; [reflexivity|]. rewrite !app_assoc, <- (app_assoc (d1 ++ d2)), foldl_app, Hd, Hd3.
    pose proof (new_calls_apply after {| v_reasoning := v_reasoning v1; v_content := v_content v1;
      v_calls := before ++ [newf] |}) as Hnew.
    cbn [v_calls v_reasoning v_content] in Hnew. rewrite length_app, Nat.add_1_r in Hnew.
    rewrite Hnew. unfold view, v1. simpl. f_equal. by rewrite Hn, <- app_assoc.
Qed.

(** When the new message extends the old one, the differences are computed
    without an exception and a client that applies them to what it saw of the
    old message sees exactly the new one: its texts, its tool calls with their
    names, identities and arguments. *)
Theorem compute_diffs_roundtrip prv new :
  grows prv new ->
  exists ds, compute_diffs prv new = Ok ds /\ foldl apply_diff (view prv) ds = view new.
Proof. apply compute_diffs_view. Qed.

Local Definition sample_call (arguments : bytes) : ToolCall :=
  {| call_name := [110]; call_arguments := arguments; call_id := [49] |}.
Local Definition sample_msg (text : bytes) (calls : list ToolCall) : Msg :=
  {| role := []; content := text; content_parts := []; tool_calls := calls;
     reasoning_content := []; tool_name := []; tool_call_id := []; extra_fields := [] |}.

Lemma compute_diffs_roundtrip_witness :
  exists ds, compute_diffs (sample_msg [104] [sample_call [123]])
      (sample_msg [104; 105] [sample_call [123; 125]; sample_call []]) = Ok ds /\
    length ds = 3%nat /\
    foldl apply_diff (view (sample_msg [104] [sample_call [123]])) ds =
    view (sample_msg [104; 105] [sample_call [123; 125]; sample_call []]).
Proof.
  destruct (compute_diffs_roundtrip (sample_msg [104] [sample_call [123]])
      (sample_msg [104; 105] [sample_call [123; 125]; sample_call []])) as (ds & Heq & Hv).
  - split; [by apply prefix_nil|]. split; [by exists [105]|].
    exists [], (sample_call [123]), (sample_call [123; 125]), [sample_call []].
    do 2 (split; [reflexivity|]). split; [by exists [125]|]. split; [by right|done].
  - exists ds. split; [exact Heq|]. split; [|exact Hv].
    vm_compute in Heq. injection Heq as <-. reflexivity.
Defined.

(** ** Tool call identities *)

Definition with_id (id : bytes) (tc : ToolCall) : ToolCall :=
  {| call_name := call_name tc; call_arguments := call_arguments tc; call_id := id |}.

Lemma nth_prefix {A} (l k : list A) i d : l `prefix_of` k -> (i < length l)%nat -> nth i k d = nth i l d.
Proof. intros [r ->] Hi. by rewrite app_nth1. Qed.

Lemma assign_ids_spec gen calls : forall ids done,
  (length done <= length ids)%nat ->
  let '(ids', calls') := foldl (assign_id gen) (ids, done) calls in
  ids `prefix_of` ids' /\
  (length done + length calls <= length ids')%nat /\
  calls' = done ++ imap (fun k tc => with_id (nth (length done + k) ids' []) tc) calls /\
  ((forall c, gen c <> []) -> Forall (fun id => id <> []) ids -> Forall (fun id => id <> []) ids').
Proof.
  induction calls as [|c calls IH]; intros ids done Hl; cbn [foldl].
  { split; [done|]. simpl. rewrite app_nil_r. split; [lia|]. done. }
  set (ids1 := if (length ids <=? length done)%nat
               then ids ++ [if is_nil (call_id c) then gen ids else call_id c] else ids).
  set (done1 := done ++ [with_id (nth (length done) ids1 []) c]).
  change (assign_id gen (ids, done) c) with (ids1, done1).
  assert (ids `prefix_of` ids1) as Hp1.
  { unfold ids1. destruct (_ <=? _)%nat; [by apply prefix_app_r|done]. }
  assert (length done < length ids1)%nat as Hl1.
  { unfold ids1. destruct (length ids <=? length done)%nat eqn:E.
    - rewrite length_app. simpl. apply Nat.leb_le in E. lia.
    - apply Nat.leb_gt in E. lia. }
  assert (length done1 = S (length done)) as Hd1
    by (unfold done1; rewrite length_app; simpl; lia).
  specialize (IH ids1 done1 ltac:(lia)).
  destruct (foldl (assign_id gen) (ids1, done1) calls) as [ids' calls'].
  destruct IH as (Hp & Hlen & -> & Hne). rewrite Hd1 in *.
  split; [by etrans|]. split; [simpl; lia|]. split.
  - rewrite imap_cons, Nat.add_0_r, (nth_prefix _ _ _ _ Hp Hl1). unfold done1.
    rewrite <- app_assoc. cbn [app]. f_equal. f_equal. apply imap_ext. intros k tc _. simpl.
    by rewrite Nat.add_succ_r.
  - intros Hgen Hids. apply Hne; [done|]. unfold ids1. destruct (_ <=? _)%nat; [|done].
    apply Forall_app. split; [done|]. constructor; [|constructor].
    destruct (call_id c) as [|b i] eqn:Ei; simpl; [apply Hgen|done].
Qed.

(** Assigning identities keeps every identity given before, gives the
    [k]-th call the [k]-th identity, changes nothing else of the message, and
    never gives an empty one. *)
Theorem tool_call_ids_stable gen ids m ids' m' :
  set_tool_call_ids gen ids m = (ids', m') ->
  ids `prefix_of` ids' /\ (length (tool_calls m) <= length ids')%nat /\
  m' = set_tool_calls (imap (fun k tc => with_id (nth k ids' []) tc) (tool_calls m)) m /\
  ((forall c, gen c <> []) -> Forall (fun id => id <> []) ids ->
   forall tc, tc ∈ tool_calls m' -> call_id tc <> []).
Proof.
  intros Hset. unfold set_tool_call_ids in Hset.
  pose proof (assign_ids_spec gen (tool_calls m) ids [] ltac:(simpl; lia)) as Hs.
  destruct (foldl (assign_id gen) (ids, []) (tool_calls m)) as [ids1 calls1].
  injection Hset as <- <-. destruct Hs as (Hp & Hl & Hc & Hne). cbn [length Nat.add app] in *.
  split; [done|]. split; [done|]. split; [by rewrite Hc|].
  intros Hgen Hids tc Htc. specialize (Hne Hgen Hids). cbn [tool_calls set_tool_calls] in Htc.
  rewrite Hc in Htc. apply list_elem_of_lookup in Htc as [k Hk].
  rewrite list_lookup_imap in Hk. apply fmap_Some_1 in Hk as (c & Hck & ->). simpl.
  rewrite Forall_forall in Hne. apply Hne. apply list_elem_of_In, nth_In.
  apply lookup_lt_Some in Hck. lia.
Qed.

Lemma tool_call_ids_stable_witness :
  exists ids m, set_tool_call_ids (fun c => [Z.of_nat (length c)]) [[7]]
      (sample_msg [] [sample_call []; no_call]) = (ids, m) /\
    [[7]] `prefix_of` ids /\ call_id <$> tool_calls m = [[7]; [1]].
Proof.
  destruct (set_tool_call_ids (fun c => [Z.of_nat (length c)]) [[7]]
      (sample_msg [] [sample_call []; no_call])) as [ids m] eqn:E.
  destruct (tool_call_ids_stable _ _ _ _ _ E) as (Hp & _ & Hm & _).
  exists ids, m. split; [reflexivity|]. split; [exact Hp|].
  vm_compute in E. injection E as <- <-. reflexivity.
Defined.
