(* ===== verification/Inference.v ===== *)
(** * The output of one request ([engine/include/inference.h],
      [engine/src/inference.cpp])

    [InferenceOutput] turns accepted tokens into text, stops at an end token, a
    stop sequence or the token limit, and returns what changed. The tokenizer
    and the chat parser are parameters; durations ([double]) are only copied and
    compared with zero. *)

From stdpp Require Import base list strings gmap pretty sets.
From Stdlib Require Import ZArith Lia.
From S2P Require Import Prelude TextEmitter ChatDiff.

#[local] Set Default Proof Using "Type".
Open Scope Z_scope.

(** ** Stop tokens of a model *)

(** A parsed JSON value; integers are of unsigned or signed type. *)
Inductive json :=
  | JNull
  | JBool (b : bool)
  | JUnsigned (n : N)
  | JSigned (z : Z)
  | JFloat
  | JString (s : string)
  | JArray (l : list json)
  | JObject (fields : list (string * json)).

Definition find_field (key : string) (j : json) : option json :=
  match j with
  | JObject fields => snd <$> (list_find (fun kv => kv.1 = key) fields ≫= fun r => Some r.2)
  | _ => None
  end.

Definition is_object (j : json) : bool := match j with JObject _ => true | _ => false end.

(** The object that holds the field. *)
Definition text_config (root : json) : json :=
  match find_field "text_config" root with
  | Some t => if is_object t then t else root
  | None => root
  end.

Definition eos_field (root : json) : option json :=
  match find_field "eos_token_id" (text_config root) with
  | None | Some JNull => find_field "eos_token_id" root
  | found => found
  end.

(** The lambda [add]. *)
Definition add_id (vocabulary : Z) (result : gset Z) (value : json) : gset Z :=
  match value with
  | JUnsigned n =>
      let z := Z.of_N n in
      if vocabulary <=? z then result
      else if (0 <=? s64 z) && (s64 z <? vocabulary) then {[s64 z]} ∪ result else result
  | JSigned z => if (0 <=? z) && (z <? vocabulary) then {[z]} ∪ result else result
  | _ => result
  end.

(** [root] is what the parser made of the text. *)
Definition model_stop_token_ids (root : json) (vocabulary : Z) : gset Z :=
  if vocabulary <=? 0 then ∅
  else if negb (is_object root) then ∅
  else match eos_field root with
       | None => ∅
       | Some (JArray l) => foldl (add_id vocabulary) ∅ l
       | Some v => add_id vocabulary ∅ v
       end.

(** ** One request *)

Record Tokenizer := { tk_is_eog : Z -> bool; tk_piece : Z -> bool -> outcome bytes }.

(** The fields of [InferenceRequest] the output reads. *)
Record InferenceRequest := {
  benchmark_fixed_tokens : bool;
  chat : bool;
  continues : bool;  (** [chat_parser.is_continuation && !chat_parser.echo] *)
  preserved_tokens : gset Z;
  req_stops : list bytes;
  stop_token_ids : gset Z;
  max_tokens : Z;
}.

Record TokenOutput := { token_ids : list Z; diffs : list MsgDiff }.

Definition no_output : TokenOutput := {| token_ids := []; diffs := [] |}.
Definition push_token (t : Z) (o : TokenOutput) : TokenOutput :=
  {| token_ids := token_ids o ++ [t]; diffs := diffs o |}.
Definition push_diffs (d : list MsgDiff) (o : TokenOutput) : TokenOutput :=
  {| token_ids := token_ids o; diffs := diffs o ++ d |}.

Section Inference.
Context {Ms : Type} (zero : Ms) (positive : Ms -> bool).

(** [MfqPrefillTiming]. *)
Record Timing := { prompt_tokens : Z; llm_ms : Ms; multimodal_ms : Ms; model_ms : Ms }.

Record InferenceMetrics := {
  started : Z;
  first_token : Z;
  last_token : Z;
  prefill_tokens : Z;
  prefill_ms : Ms;
  media_ms : Ms;  (** [multimodal_ms] *)
  model_prefill_ms : Ms;
  saw_token : bool;
  saw_prefill : bool;
}.

Definition mark_prefill (t : Timing) (m : InferenceMetrics) : InferenceMetrics :=
  {| started := started m; first_token := first_token m; last_token := last_token m;
     prefill_tokens := prompt_tokens t; prefill_ms := llm_ms t; media_ms := multimodal_ms t;
     model_prefill_ms := model_ms t; saw_token := saw_token m;
     saw_prefill := positive (llm_ms t) || positive (model_ms t) |}.

Definition mark_token (now : Z) (m : InferenceMetrics) : InferenceMetrics :=
  {| started := started m; first_token := if saw_token m then first_token m else now;
     last_token := now; prefill_tokens := prefill_tokens m; prefill_ms := prefill_ms m;
     media_ms := media_ms m; model_prefill_ms := model_prefill_ms m; saw_token := true;
     saw_prefill := saw_prefill m |}.

Record InferenceResult := {
  text : bytes;
  reasoning_text : bytes;
  result_calls : list ToolCall;
  finish_reason : string;
  completion_tokens : Z;
  cancelled : bool;
}.

(** [InferenceOutput]. *)
Record Output := {
  result : InferenceResult;
  metrics : InferenceMetrics;
  generated : bytes;
  emitter : Emitter;
  message : Msg;
  tool_ids : list bytes;
  out_stopped : bool;
  out_finished : bool;
}.

Context (request : InferenceRequest) (tokenizer : option Tokenizer) (id : string)
  (parse_chat : bytes -> bool -> outcome Msg).

Definition set_result (r : InferenceResult) (s : Output) : Output :=
  {| result := r; metrics := metrics s; generated := generated s; emitter := emitter s;
     message := message s; tool_ids := tool_ids s; out_stopped := out_stopped s;
     out_finished := out_finished s |}.
Definition set_metrics (m : InferenceMetrics) (s : Output) : Output :=
  {| result := result s; metrics := m; generated := generated s; emitter := emitter s;
     message := message s; tool_ids := tool_ids s; out_stopped := out_stopped s;
     out_finished := out_finished s |}.
Definition set_emitter (e : Emitter) (s : Output) : Output :=
  {| result := result s; metrics := metrics s; generated := generated s; emitter := e;
     message := message s; tool_ids := tool_ids s; out_stopped := out_stopped s;
     out_finished := out_finished s |}.
Definition set_generated (g : bytes) (s : Output) : Output :=
  {| result := result s; metrics := metrics s; generated := g; emitter := emitter s;
     message := message s; tool_ids := tool_ids s; out_stopped := out_stopped s;
     out_finished := out_finished s |}.
Definition set_tool_ids (l : list bytes) (s : Output) : Output :=
  {| result := result s; metrics := metrics s; generated := generated s; emitter := emitter s;
     message := message s; tool_ids := l; out_stopped := out_stopped s;
     out_finished := out_finished s |}.
Definition set_message (m : Msg) (s : Output) : Output :=
  {| result := result s; metrics := metrics s; generated := generated s; emitter := emitter s;
     message := m; tool_ids := tool_ids s; out_stopped := out_stopped s;
     out_finished := out_finished s |}.
Definition set_finished (s : Output) : Output :=
  {| result := result s; metrics := metrics s; generated := generated s; emitter := emitter s;
     message := message s; tool_ids := tool_ids s; out_stopped := out_stopped s;
     out_finished := true |}.

Definition set_text (t : bytes) (r : InferenceResult) : InferenceResult :=
  {| text := t; reasoning_text := reasoning_text r; result_calls := result_calls r;
     finish_reason := finish_reason r; completion_tokens := completion_tokens r;
     cancelled := cancelled r |}.
Definition set_reason (reason : string) (r : InferenceResult) : InferenceResult :=
  {| text := text r; reasoning_text := reasoning_text r; result_calls := result_calls r;
     finish_reason := reason; completion_tokens := completion_tokens r; cancelled := cancelled r |}.
Definition count_token (r : InferenceResult) : InferenceResult :=
  {| text := text r; reasoning_text := reasoning_text r; result_calls := result_calls r;
     finish_reason := finish_reason r; completion_tokens := s32 (completion_tokens r + 1);
     cancelled := cancelled r |}.
Definition show_message (m : Msg) (r : InferenceResult) : InferenceResult :=
  {| text := content m; reasoning_text := reasoning_content m; result_calls := tool_calls m;
     finish_reason := finish_reason r; completion_tokens := completion_tokens r;
     cancelled := cancelled r |}.

(** [stopped_ = true; result.finish_reason = "stop";] *)
Definition stop_output (s : Output) : Output :=
  {| result := set_reason "stop" (result s); metrics := metrics s; generated := generated s;
     emitter := emitter s; message := message s; tool_ids := tool_ids s; out_stopped := true;
     out_finished := out_finished s |}.

Definition stopped (s : Output) : bool :=
  out_stopped s || cancelled (result s) || (max_tokens request <=? completion_tokens (result s)).

Definition lift {S A} (o : outcome A) : M S A := fun s => (o, s).

(** The constructor. *)
Definition make_output (now : Z) : outcome Output :=
  m ← (match tokenizer with
       | Some _ => if chat request && continues request then parse_chat [] true else Ok empty_msg
       | None => Ok empty_msg
       end);
  Ok {| result := {| text := []; reasoning_text := []; result_calls := [];
                     finish_reason := "length"; completion_tokens := 0; cancelled := false |};
        metrics := {| started := now; first_token := 0; last_token := 0; prefill_tokens := 0;
                      prefill_ms := zero; media_ms := zero; model_prefill_ms := zero;
                      saw_token := false; saw_prefill := false |};
        generated := []; emitter := make_emitter (req_stops request); message := m;
        tool_ids := []; out_stopped := false; out_finished := false |}.

Definition tool_id (cache : list bytes) : bytes :=
  bytes_of ("call_" +:+ id +:+ "_" +:+ pretty (N.of_nat (length cache))).

Definition parse (piece : bytes) (partial : bool) (out : TokenOutput) : M Output TokenOutput :=
  match tokenizer with
  | None => mret out
  | Some _ =>
      if negb (chat request) then
        modify (fun s => set_result (set_text (text (result s) ++ piece) (result s)) s) ≫= fun _ =>
        mret (if is_nil piece then out else push_diffs [content_diff piece] out)
      else
        modify (fun s => set_generated (generated s ++ piece) s) ≫= fun _ =>
        s ← get;
        parsed ← lift (parse_chat (generated s) partial);
        if msg_empty parsed then mret out
        else
          let parsed := if partial : bool then set_tool_calls [] parsed else parsed in
          let '(ids, parsed) := set_tool_call_ids tool_id (tool_ids s) parsed in
          modify (set_tool_ids ids) ≫= fun _ =>
          diffs ← lift (compute_diffs (message s) parsed);
          modify (fun s => set_result (show_message parsed (result s)) (set_message parsed s))
            ≫= fun _ =>
          mret (push_diffs diffs out)
  end.

Definition is_end (t : Z) : bool :=
  match tokenizer with
  | Some tk => tk_is_eog tk t
  | None => bool_decide (t ∈ stop_token_ids request)
  end.

(** [emitter_.take()]. *)
Definition take_text : M Output bytes := fun s =>
  let '(piece, e) := take_output (emitter s) in (Ok piece, set_emitter e s).

(** The loop of [append]; each token comes with the clock reading. *)
Fixpoint append_loop (tokens : list (Z * Z)) (out : TokenOutput) : M Output TokenOutput :=
  match tokens with
  | [] => mret out
  | (token, now) :: tokens =>
      s ← get;
      if stopped s then mret out
      else
        modify (fun s => set_result (count_token (result s))
                           (set_metrics (mark_token now (metrics s)) s)) ≫= fun _ =>
        let out := push_token token out in
        if is_end token then
          if benchmark_fixed_tokens request then append_loop tokens out
          else modify stop_output ≫= fun _ => mret out
        else
          match tokenizer with
          | None => append_loop tokens out
          | Some tk =>
              piece ← lift (tk_piece tk token (bool_decide (token ∈ preserved_tokens request)));
              modify (fun s => set_emitter (append piece (emitter s)).2 s) ≫= fun _ =>
              piece ← take_text;
              out ← parse piece true out;
              modify (fun s => if TextEmitter.stopped (emitter s) then stop_output s else s)
                ≫= fun _ =>
              append_loop tokens out
          end
  end.

Definition append_tokens (tokens : list (Z * Z)) : M Output TokenOutput :=
  append_loop tokens no_output.

Definition finish_output : M Output TokenOutput :=
  s ← get;
  if out_finished s then mret no_output
  else
    modify set_finished ≫= fun _ =>
    modify (fun s => if TextEmitter.stopped (emitter s) then s
                     else set_emitter (flush (emitter s)).2 s) ≫= fun _ =>
    piece ← take_text;
    out ← parse piece false no_output;
    modify (fun s =>
      if cancelled (result s) then set_result (set_reason "cancelled" (result s)) s
      else if negb (is_nil (result_calls (result s)))
      then set_result (set_reason "tool_calls" (result s)) s else s) ≫= fun _ =>
    mret out.

(** ** Token counting *)

Lemma bind_lift {S A B} (o : outcome A) (k : A -> M S B) s :
  (lift o ≫= k) s = match o with Ok a => k a s | Throw e => (Throw e, s) end.
Proof. unfold lift, mbind, M_bind. by destruct o. Qed.

(** What [parse] never touches. *)
Lemma parse_frame piece partial out s :
  let '(o, s') := parse piece partial out s in
  emitter s' = emitter s /\ out_stopped s' = out_stopped s /\
  completion_tokens (result s') = completion_tokens (result s) /\
  cancelled (result s') = cancelled (result s) /\
  match o with Ok out' => token_ids out' = token_ids out | Throw _ => True end.
Proof.
  unfold parse. destruct tokenizer; [|unfold mret, M_ret; by repeat split].
  destruct (negb (chat request)).
  { rewrite bind_modify. unfold mret, M_ret. by destruct (is_nil piece); repeat split. }
  rewrite bind_modify, bind_get, bind_lift.
  destruct (parse_chat _ partial) as [parsed|e]; [|by repeat split].
  destruct (msg_empty parsed); [unfold mret, M_ret; by repeat split|]. cbv zeta.
  destruct (set_tool_call_ids _ _ _) as [ids parsed']. rewrite bind_modify, bind_lift.
  by destruct (compute_diffs _ parsed'); repeat split.
Qed.

Lemma append_loop_counts tokens : forall out s,
  0 <= completion_tokens (result s) -> max_tokens request < 2 ^ 31 ->
  let '(o, s') := append_loop tokens out s in
  cancelled (result s') = cancelled (result s) /\
  exists taken, taken `prefix_of` tokens.*1 /\
    completion_tokens (result s') = completion_tokens (result s) + size_of taken /\
    (completion_tokens (result s') <= max_tokens request \/ taken = []) /\
    (stopped s = true -> s' = s) /\
    match o with
    | Ok out' => token_ids out' = token_ids out ++ taken /\
                 (taken = tokens.*1 \/ stopped s' = true)
    | Throw _ => True
    end.
Proof.
  induction tokens as [|[token now] tokens IH]; intros out s Hc Hmax; cbn [append_loop fmap list_fmap fst].
  { split; [done|]. exists []. unfold size_of, mret, M_ret. simpl. rewrite app_nil_r, Z.add_0_r.
    split_and!; auto. }
  rewrite bind_get. destruct (stopped s) eqn:Hs.
  { split; [done|]. exists []. unfold size_of, mret, M_ret. simpl. rewrite app_nil_r, Z.add_0_r.
    split_and!; auto. apply prefix_nil. }
  rewrite bind_modify.
  set (s1 := set_result _ _). assert (completion_tokens (result s) < max_tokens request) as Hlt.
  { unfold stopped in Hs. apply orb_false_iff in Hs as [_ Hs%Z.leb_gt]. done. }
  assert (completion_tokens (result s1) = completion_tokens (result s) + 1) as Hc1.
  { unfold s1. simpl. apply s32_small. unfold in_s32, s32_max. lia. }
  assert (forall out1 s2, cancelled (result s2) = cancelled (result s1) ->
    completion_tokens (result s2) = completion_tokens (result s1) ->
    token_ids out1 = token_ids out ++ [token] ->
    let '(o, s') := append_loop tokens out1 s2 in
    cancelled (result s') = cancelled (result s) /\
    exists taken, taken `prefix_of` token :: tokens.*1 /\
      completion_tokens (result s') = completion_tokens (result s) + size_of taken /\
      (completion_tokens (result s') <= max_tokens request \/ taken = []) /\
      (false = true -> s' = s) /\
      match o with
      | Ok out' => token_ids out' = token_ids out ++ taken /\
                   (taken = token :: tokens.*1 \/ stopped s' = true)
      | Throw _ => True
      end) as Hrec.
  { intros out1 s2 Hca Hco Hout. specialize (IH out1 s2 ltac:(lia) Hmax).
    destruct (append_loop tokens out1 s2) as [o s']. destruct IH as (IHc & taken & Hp & Hct & Hb & _ & Ho).
    split; [by rewrite IHc, Hca|]. exists (token :: taken). split; [by apply prefix_cons|].
    unfold size_of in *. simpl. split; [lia|].
    split; [left; destruct Hb as [| ->]; [done|]; simpl in *; lia|].
    split; [done|]. destruct o as [out'|]; [|done]. destruct Ho as [Ho1 Ho2].
    split; [by rewrite Ho1, Hout, <- app_assoc|]. destruct Ho2 as [->|]; auto. }
  assert (forall s2, cancelled (result s2) = cancelled (result s1) ->
    completion_tokens (result s2) = completion_tokens (result s1) ->
    cancelled (result s2) = cancelled (result s) /\
    exists taken, taken `prefix_of` token :: tokens.*1 /\
      completion_tokens (result s2) = completion_tokens (result s) + size_of taken /\
      (completion_tokens (result s2) <= max_tokens request \/ taken = []) /\
      (false = true -> s2 = s) /\
      token_ids (push_token token out) = token_ids out ++ taken /\ taken = [token]) as Hone.
  { intros s2 Hca Hco. split; [by rewrite Hca|]. exists [token]. split; [by exists tokens.*1|].
    unfold size_of. simpl. split; [lia|]. split; [lia|]. done. }
  destruct (is_end token).
  { destruct (benchmark_fixed_tokens request); [by apply Hrec|].
    rewrite bind_modify. cbn. destruct (Hone (stop_output s1)) as (H1 & taken & H2 & H3 & H4 & H5 & H6 & _);
      try done. split; [done|]. exists taken. do 4 (split; [done|]). split; [done|]. right. done. }
  destruct tokenizer as [tk|] eqn:Htk; [|by apply Hrec].
  rewrite bind_lift. destruct (tk_piece tk token _) as [piece|e].
  2:{ destruct (Hone s1) as (H1 & taken & H2 & H3 & H4 & H5 & _); try done.
      split; [done|]. by exists taken. }
  rewrite bind_modify. unfold take_text. unfold mbind at 1, M_bind at 1. cbn [take_output].
  match goal with |- context [mbind _ (parse ?p true ?q) ?s2] =>
    pose proof (parse_frame p true q s2) as Hpf end.
  unfold mbind at 1, M_bind at 1. destruct (parse _ true _ _) as [[out1|e] s3].
  - destruct Hpf as (_ & _ & Hco & Hca & Hids). rewrite bind_modify. simpl in Hco, Hca.
    apply Hrec; [| |exact Hids]; by destruct (TextEmitter.stopped _).
  - destruct Hpf as (_ & _ & Hco & Hca & _). simpl in Hco, Hca.
    destruct (Hone s3) as (H1 & taken & H2 & H3 & H4 & H5 & _); try done.
    split; [done|]. by exists taken.
Qed.

(** ** Whole requests *)

Definition join (a b : TokenOutput) : TokenOutput :=
  {| token_ids := token_ids a ++ token_ids b; diffs := diffs a ++ diffs b |}.

(** The engine appends tokens in batches and finishes once; the client sees
    everything they return. *)
Definition session (batches : list (list (Z * Z))) : M Output TokenOutput :=
  out ← fold_each batches
    (fun out tokens => o ← append_tokens tokens; mret (join out o)) no_output;
  o ← finish_output;
  mret (join out o).

(** The text a client collects from the deltas. *)
Definition delta_text (ds : list MsgDiff) : bytes := ds ≫= content_delta.

(** What the emitter was fed for the tokens that are not end tokens. *)
Definition emitter_ops (piece : Z -> bytes) (tokens : list Z) : list emit_op :=
  filter (fun t => is_end t = false) tokens ≫= fun t => [EAppend (piece t); ETake].

Section Plain.
Context (tk : Tokenizer) (piece : Z -> bytes).
Hypothesis tokenizer_some : tokenizer = Some tk.
Hypothesis plain : chat request = false.
Hypothesis piece_ok : forall t,
  tk_piece tk t (bool_decide (t ∈ preserved_tokens request)) = Ok (piece t).
#[local] Set Default Proof Using "Type tokenizer_some plain piece_ok".

(** The text is what was taken from the emitter, and the deltas add up to it. *)
Definition plain_inv (out : TokenOutput) (s : Output) : Prop :=
  run_emitter (req_stops request) (emitter_ops piece (token_ids out)) = (text (result s), emitter s) /\
  text (result s) = delta_text (diffs out) /\ out_finished s = false.

Lemma emitter_ops_app l k : emitter_ops piece (l ++ k) = emitter_ops piece l ++ emitter_ops piece k.
Proof. unfold emitter_ops. by rewrite filter_app, bind_app. Qed.

Lemma delta_text_piece p ds :
  delta_text (diffs (if is_nil p then ds else push_diffs [content_diff p] ds)) =
  delta_text (diffs ds) ++ p.
Proof.
  destruct p as [|b p]; simpl; [by rewrite app_nil_r|]. unfold delta_text.
  rewrite bind_app. simpl. by rewrite app_nil_r.
Qed.

Lemma parse_plain p partial out s :
  parse p partial out s =
  (Ok (if is_nil p then out else push_diffs [content_diff p] out),
   set_result (set_text (text (result s) ++ p) (result s)) s).
Proof. unfold parse. rewrite tokenizer_some, plain. done. Qed.

Lemma append_loop_plain tokens : forall pre out s,
  plain_inv (join pre out) s ->
  exists out' s', append_loop tokens out s = (Ok out', s') /\ plain_inv (join pre out') s'.
Proof.
  induction tokens as [|[token now] tokens IH]; intros pre out s Hi; cbn [append_loop].
  { by exists out, s. }
  rewrite bind_get. destruct (stopped s); [by exists out, s|]. rewrite bind_modify.
  assert (emitter_ops piece (token_ids (join pre (push_token token out))) =
    emitter_ops piece (token_ids (join pre out)) ++ emitter_ops piece [token]) as Hops.
  { simpl. by rewrite app_assoc, emitter_ops_app. }
  destruct Hi as (Hr & Ht & Hf). destruct (is_end token) eqn:He.
  - assert (emitter_ops piece [token] = []) as Hnil.
    { unfold emitter_ops. by rewrite filter_cons_False by (rewrite He; done). }
    rewrite Hnil, app_nil_r in Hops.
    assert (forall s', text (result s') = text (result s) -> emitter s' = emitter s ->
      out_finished s' = false -> plain_inv (join pre (push_token token out)) s') as Hkeep.
    { intros s' H1 H2 H3. split; [|split; [|done]].
      - by rewrite Hops, H1, H2.
      - by rewrite H1. }
    destruct (benchmark_fixed_tokens request); [apply IH; by apply Hkeep|].
    rewrite bind_modify. eexists _, _. split; [reflexivity|]. by apply Hkeep.
  - rewrite tokenizer_some, bind_lift, piece_ok, bind_modify.
    unfold take_text. unfold mbind at 1, M_bind at 1. cbn [take_output].
    unfold mbind at 1, M_bind at 1. rewrite parse_plain, bind_modify. apply IH.
    assert (emitter_ops piece [token] = [EAppend (piece token); ETake]) as Hone.
    { unfold emitter_ops. by rewrite filter_cons_True by done. }
    match goal with |- plain_inv ?o (if ?b then _ else ?t) =>
      enough (plain_inv o t) as Hp by (destruct b; [|done]; destruct Hp as (? & ? & ?); by split) end.
    split; [|split; [|done]].
    + destruct (is_nil _); cbn [token_ids join push_token push_diffs] in *; rewrite Hops, Hone;
        unfold run_emitter in *; rewrite foldl_app, Hr; reflexivity.
    + cbn [join diffs]. unfold delta_text. rewrite bind_app. fold (delta_text (diffs pre)).
      match goal with |- context [?l ≫= content_delta] => fold (delta_text l) end.
      rewrite delta_text_piece, app_assoc. cbn. rewrite Ht. unfold delta_text. simpl.
      by rewrite bind_app.
Qed.

Lemma appends_plain batches : forall out s,
  plain_inv out s ->
  exists out' s', fold_each batches
    (fun out tokens => o ← append_tokens tokens; mret (join out o)) out s = (Ok out', s') /\
    plain_inv out' s'.
Proof.
  induction batches as [|b batches IH]; intros out s Hi; cbn [fold_each]; [by exists out, s|].
  destruct (append_loop_plain b out no_output s) as (o & s1 & Heq & H1).
  { unfold join. simpl. rewrite !app_nil_r. by destruct out. }
  assert ((o ← append_tokens b; mret (join out o)) s = (Ok (join out o), s1)) as Hb.
  { unfold append_tokens. by rewrite (bind_ok _ _ _ _ _ Heq). }
  rewrite (bind_ok _ _ _ _ _ Hb). by apply IH.
Qed.

Lemma finish_plain out s :
  plain_inv out s ->
  exists o s', finish_output s = (Ok o, s') /\ token_ids o = [] /\
    text (result s') = delta_text (diffs (join out o)) /\
    text (result s') =
      TextEmitter.finish (run_emitter (req_stops request) (emitter_ops piece (token_ids out))) /\
    TextEmitter.stopped (emitter s') = TextEmitter.stopped (emitter s).
Proof.
  intros (Hr & Ht & Hf). unfold finish_output. rewrite bind_get, Hf, !bind_modify.
  unfold take_text. unfold mbind at 1, M_bind at 1. cbn [take_output].
  unfold mbind at 1, M_bind at 1. rewrite parse_plain, bind_modify.
  eexists _, _. split; [reflexivity|]. split; [by destruct (is_nil _)|].
  assert (forall t : Output, text (result (if cancelled (result t)
    then set_result (set_reason "cancelled" (result t)) t
    else if negb (is_nil (result_calls (result t)))
    then set_result (set_reason "tool_calls" (result t)) t else t)) = text (result t) /\
    TextEmitter.stopped (emitter (if cancelled (result t)
    then set_result (set_reason "cancelled" (result t)) t
    else if negb (is_nil (result_calls (result t)))
    then set_result (set_reason "tool_calls" (result t)) t else t)) =
    TextEmitter.stopped (emitter t)) as Hend.
  { intros t. destruct (cancelled _); [done|]. by destruct (negb _). }
  rewrite (proj1 (Hend _)), (proj2 (Hend _)). cbn [join diffs result set_result set_text text emitter set_emitter].
  unfold delta_text at 1. rewrite bind_app. fold (delta_text (diffs out)).
  match goal with |- context [?l ≫= content_delta] => fold (delta_text l) end.
  rewrite delta_text_piece. cbn [delta_text diffs no_output mbind list_bind app].
  pose proof (finish_spec (req_stops request) (emitter_ops piece (token_ids out))) as Hfin.
  rewrite Hr in Hfin. cbn [fst snd] in Hfin. cbv zeta in Hfin. rewrite Hr. unfold TextEmitter.finish in *.
  cbn [fst snd] in *. change (emitter (set_finished s)) with (emitter s).
  change (text (result (set_finished s))) with (text (result s)).
  destruct (TextEmitter.stopped (emitter s)) eqn:Hst.
  - destruct Hfin as [Hp _]. rewrite flush_output, Hp. unfold decode. simpl.
    rewrite app_nil_r, <- Ht. cbn. by rewrite Hst.
  - cbn. rewrite <- Ht. split; [done|]. split; [done|].
    unfold flush, emit_prefix. by destruct (append_utf8_prefix _ _ _ _).
Qed.
End Plain.

Section Chat.
Context (tk : Tokenizer) (piece : Z -> bytes).
Hypothesis tokenizer_some : tokenizer = Some tk.
Hypothesis is_chat : chat request = true.
Hypothesis piece_ok : forall t,
  tk_piece tk t (bool_decide (t ∈ preserved_tokens request)) = Ok (piece t).
Hypothesis parser_total : forall g p, exists m, parse_chat g p = Ok m.
(** A longer text is parsed to a message whose texts extend the earlier ones. *)
Hypothesis parser_grows : forall g k p m m',
  parse_chat g true = Ok m -> parse_chat (g ++ k) p = Ok m' ->
  reasoning_content m `prefix_of` reasoning_content m' /\ content m `prefix_of` content m'.
#[local] Set Default Proof Using
  "Type tokenizer_some is_chat piece_ok parser_total parser_grows".

(** What the client rebuilt is the message shown in the result. *)
Definition shown (out : TokenOutput) (s : Output) : Prop :=
  foldl apply_diff (view empty_msg) (diffs out) = view (message s) /\
  view (message s) = {| v_reasoning := reasoning_text (result s); v_content := text (result s);
                        v_calls := result_calls (result s) |}.

Definition chat_inv (out : TokenOutput) (s : Output) : Prop :=
  shown out s /\ tool_calls (message s) = [] /\ tool_ids s = [] /\ out_finished s = false /\
  forall k p m, parse_chat (generated s ++ k) p = Ok m ->
    reasoning_content (message s) `prefix_of` reasoning_content m /\
    content (message s) `prefix_of` content m.

Lemma set_ids_nil gen ids m :
  tool_calls m = [] -> set_tool_call_ids gen ids m = (ids, set_tool_calls [] m).
Proof. intros Hm. unfold set_tool_call_ids. by rewrite Hm. Qed.

Lemma shown_step out s m ds :
  shown out s -> tool_calls (message s) = [] ->
  reasoning_content (message s) `prefix_of` reasoning_content m ->
  content (message s) `prefix_of` content m ->
  compute_diffs (message s) m = Ok ds ->
  foldl apply_diff (view empty_msg) (diffs (push_diffs ds out)) = view m.
Proof.
  intros [Hs _] Hn Hr Hc Hd. cbn [diffs push_diffs]. rewrite foldl_app, Hs.
  destruct (compute_diffs_view (message s) m) as (ds' & Heq & Hv).
  { split; [done|]. split; [done|]. by rewrite Hn. }
  rewrite Hd in Heq. by injection Heq as ->.
Qed.

Lemma diffs_defined out s m :
  shown out s -> tool_calls (message s) = [] ->
  reasoning_content (message s) `prefix_of` reasoning_content m ->
  content (message s) `prefix_of` content m ->
  exists ds, compute_diffs (message s) m = Ok ds.
Proof.
  intros _ Hn Hr Hc. destruct (compute_diffs_view (message s) m) as (ds & Heq & _).
  { split; [done|]. split; [done|]. by rewrite Hn. } by exists ds.
Qed.

Lemma parse_chat_partial p out s :
  chat_inv out s ->
  exists ds s', (forall o, parse p true o s = (Ok (push_diffs ds o), s')) /\
    chat_inv (push_diffs ds out) s' /\ emitter s' = emitter s.
Proof.
  intros (Hsh & Hn & Hids & Hf & Hg). unfold parse. rewrite tokenizer_some, is_chat. cbn [negb].
  destruct (parser_total (generated s ++ p) true) as [m Hm].
  assert (forall o : TokenOutput, push_diffs [] o = o) as Hpn
    by (intros []; unfold push_diffs; simpl; by rewrite app_nil_r).
  set (s1 := set_generated (generated s ++ p) s).
  destruct (Hg p true m Hm) as [Hr Hc]. destruct (msg_empty m) eqn:He.
  - exists [], s1. split; [|split; [|done]].
    + intros o. rewrite bind_modify, bind_get, bind_lift. cbn [generated set_generated].
      by rewrite Hm, He, Hpn.
    + rewrite Hpn. split; [done|]. do 3 (split; [done|]). intros k q m'. cbn [generated set_generated s1].
      rewrite <- app_assoc. apply Hg.
  - set (m1 := set_tool_calls [] (set_tool_calls [] m)).
    destruct (diffs_defined out s m1 Hsh Hn Hr Hc) as [ds Hds].
    exists ds, (set_result (show_message m1 (result s1)) (set_message m1 (set_tool_ids [] s1))).
    split; [|split; [|done]].
    + intros o. rewrite bind_modify, bind_get, bind_lift. cbn [generated set_generated].
      rewrite Hm, He, (set_ids_nil _ _ (set_tool_calls [] m)) by done.
      cbn [tool_ids set_generated]. rewrite Hids. fold m1. rewrite bind_modify, bind_lift.
      cbn [message set_generated]. by rewrite Hds.
    + split.
      * split; [|done]. by apply (shown_step out s).
      * do 3 (split; [done|]). intros k q m' Hm'. apply (parser_grows (generated s ++ p) k q m); done.
Qed.

Lemma append_loop_chat tokens : forall pre out s,
  chat_inv (join pre out) s ->
  exists out' s', append_loop tokens out s = (Ok out', s') /\ chat_inv (join pre out') s'.
Proof.
  induction tokens as [|[token now] tokens IH]; intros pre out s Hi; cbn [append_loop].
  { by exists out, s. }
  rewrite bind_get. destruct (stopped s); [by exists out, s|]. rewrite bind_modify.
  destruct (is_end token).
  { destruct (benchmark_fixed_tokens request); [by apply IH|].
    rewrite bind_modify. eexists _, _. split; [reflexivity|]. done. }
  rewrite tokenizer_some, bind_lift, piece_ok, bind_modify.
  unfold take_text. unfold mbind at 1, M_bind at 1. cbn [take_output].
  match goal with |- context [mbind _ (parse ?p true _) ?t] =>
    destruct (parse_chat_partial p (join pre (push_token token out)) t) as (ds & s1 & Hp & H1 & He);
      [done|] end.
  rewrite (bind_ok _ _ _ _ _ (Hp _)), bind_modify. apply IH.
  assert (join pre (push_diffs ds (push_token token out)) =
    push_diffs ds (join pre (push_token token out))) as ->.
  { unfold join, push_diffs. simpl. by rewrite !app_assoc. }
  destruct (TextEmitter.stopped (emitter s1)); exact H1.
Qed.

Lemma appends_chat batches : forall out s,
  chat_inv out s ->
  exists out' s', fold_each batches
    (fun out tokens => o ← append_tokens tokens; mret (join out o)) out s = (Ok out', s') /\
    chat_inv out' s'.
Proof.
  induction batches as [|b batches IH]; intros out s Hi; cbn [fold_each]; [by exists out, s|].
  destruct (append_loop_chat b out no_output s) as (o & s1 & Heq & H1).
  { unfold join. simpl. rewrite !app_nil_r. by destruct out. }
  assert ((o ← append_tokens b; mret (join out o)) s = (Ok (join out o), s1)) as Hb.
  { unfold append_tokens. by rewrite (bind_ok _ _ _ _ _ Heq). }
  rewrite (bind_ok _ _ _ _ _ Hb). by apply IH.
Qed.

Lemma finish_chat out s :
  chat_inv out s ->
  exists o s', finish_output s = (Ok o, s') /\ shown (join out o) s'.
Proof.
  intros (Hsh & Hn & Hids & Hf & Hg). unfold finish_output. rewrite bind_get, Hf, !bind_modify.
  unfold take_text. unfold mbind at 1, M_bind at 1. cbn [take_output].
  match goal with |- context [mbind _ (parse ?p false _) ?t] => set (p0 := p); set (s1 := t) end.
  assert (forall o t, shown (join out o) t -> shown (join out o)
    (if cancelled (result t) then set_result (set_reason "cancelled" (result t)) t
     else if negb (is_nil (result_calls (result t)))
     then set_result (set_reason "tool_calls" (result t)) t else t)) as Hend.
  { intros o t [H1 H2]. destruct (cancelled _); [by split|]. by destruct (negb _). }
  assert (message s1 = message s /\ generated s1 = generated s /\ result s1 = result s) as (Hm1 & Hg1 & Hr1).
  { unfold s1. by destruct (TextEmitter.stopped _). }
  assert (forall t, message t = message s -> result t = result s -> shown (join out no_output) t) as Hsame.
  { intros t H1 H2. unfold shown, join. simpl. rewrite app_nil_r, H1, H2. exact Hsh. }
  unfold parse. rewrite tokenizer_some, is_chat. cbn [negb].
  destruct (parser_total (generated s ++ p0) false) as [m Hm].
  destruct (Hg p0 false m Hm) as [Hr Hc].
  unfold mbind at 1, M_bind at 1. rewrite bind_modify, bind_get, bind_lift.
  cbn [generated set_generated]. rewrite Hg1, Hm. destruct (msg_empty m).
  { cbn [mret M_ret]. rewrite bind_modify. eexists _, _. split; [reflexivity|].
    apply Hend. by apply Hsame. }
  cbv zeta. destruct (set_tool_call_ids tool_id _ m) as [ids m1] eqn:Hset.
  assert (reasoning_content m1 = reasoning_content m /\ content m1 = content m) as [Hmr Hmc].
  { unfold set_tool_call_ids in Hset. destruct (foldl _ _ _). by injection Hset as <- <-. }
  rewrite bind_modify, bind_lift. cbn [message set_generated set_tool_ids]. rewrite Hm1.
  destruct (diffs_defined out s m1 Hsh Hn) as [ds Hds]; [by rewrite Hmr|by rewrite Hmc|].
  rewrite Hds, bind_modify. cbn [mret M_ret]. rewrite bind_modify. eexists _, _. split; [reflexivity|].
  apply Hend. split; [|done].
  apply (shown_step out s m1 ds Hsh Hn); [by rewrite Hmr|by rewrite Hmc|done].
Qed.
End Chat.

(** ** Properties *)

(** Appending tokens takes a prefix of them and counts exactly those, never
    past the token limit, without wrapping; tokens are left over only when the
    output has stopped, and a stopped output takes nothing and does not change. *)
Theorem append_counts tokens s :
  0 <= completion_tokens (result s) -> max_tokens request < 2 ^ 31 ->
  let '(o, s') := append_tokens tokens s in
  completion_tokens (result s') <= Z.max (completion_tokens (result s)) (max_tokens request) /\
  (stopped s = true -> o = Ok no_output /\ s' = s) /\
  match o with
  | Ok out => token_ids out `prefix_of` tokens.*1 /\
      completion_tokens (result s') = completion_tokens (result s) + size_of (token_ids out) /\
      (token_ids out = tokens.*1 \/ stopped s' = true)
  | Throw _ => True
  end.
Proof.
  intros Hc Hmax. unfold append_tokens.
  pose proof (append_loop_counts tokens no_output s Hc Hmax) as Hl.
  assert (stopped s = true -> append_loop tokens no_output s = (Ok no_output, s)) as Hst.
  { intros Hs. destruct tokens as [|[token now] tokens]; [done|]. cbn [append_loop].
    by rewrite bind_get, Hs. }
  destruct (append_loop tokens no_output s) as [o s'].
  destruct Hl as (_ & taken & Hp & Hct & Hb & _ & Ho). split.
  { destruct Hb as [| ->]; [lia|]. rewrite Hct. unfold size_of. simpl. lia. }
  split; [intros Hs; by injection (Hst Hs) as -> ->|].
  destruct o as [out|]; [|done]. destruct Ho as [-> Ho]. done.
Qed.

(** For a completion request the text of the result is the concatenation of
    the deltas, and it is the batch decoding of the pieces of all accepted
    tokens but the end tokens: of all of them when no stop sequence occurs, and
    otherwise cut before the first stop sequence. *)
Theorem plain_text_stream tk piece now batches s0 :
  tokenizer = Some tk -> chat request = false ->
  (forall t, tk_piece tk t (bool_decide (t ∈ preserved_tokens request)) = Ok (piece t)) ->
  make_output now = Ok s0 ->
  exists out s, session batches s0 = (Ok out, s) /\
    text (result s) = delta_text (diffs out) /\
    let pieces := filter (fun t => is_end t = false) (token_ids out) ≫= piece in
    if TextEmitter.stopped (emitter s)
    then cut (real_stops (req_stops request)) (emitter_ops piece (token_ids out)) (text (result s))
    else stop_free (real_stops (req_stops request)) pieces /\ text (result s) = decode pieces.
Proof.
  intros Htk Hchat Hpiece H0. unfold make_output in H0. rewrite Htk, Hchat in H0.
  cbn in H0. injection H0 as H0.
  destruct (appends_plain tk piece Htk Hchat Hpiece batches no_output s0) as (out & s1 & Heq & H1).
  { by rewrite <- H0. }
  destruct (finish_plain tk piece Htk Hchat Hpiece out s1 H1) as (o & s2 & Hfin & Hno & Hd & Ht & Hst).
  exists (join out o), s2. split.
  { unfold session. rewrite (bind_ok _ _ _ _ _ Heq). by rewrite (bind_ok _ _ _ _ _ Hfin). }
  split; [done|]. cbv zeta. cbn [token_ids join]. rewrite Hno, app_nil_r.
  pose proof (finish_spec (req_stops request) (emitter_ops piece (token_ids out))) as Hs.
  cbv zeta in Hs. destruct H1 as (Hr & _ & _). rewrite <- Ht in Hs. rewrite Hr in Hs. cbn [snd] in Hs.
  rewrite <- Hst in Hs.
  assert (text_of (emitter_ops piece (token_ids out)) =
    filter (fun t => is_end t = false) (token_ids out) ≫= piece) as Htx.
  { unfold text_of, emitter_ops. generalize (filter (fun t => is_end t = false) (token_ids out)).
    induction l as [|t l IH]; [done|]. simpl. f_equal. exact IH. }
  rewrite Htx in Hs. destruct (TextEmitter.stopped (emitter s2)); [apply Hs|exact Hs].
Qed.

End Inference.

Lemma add_id_spec vocabulary r v t : vocabulary < 2 ^ 63 ->
  t ∈ add_id vocabulary r v <->
  t ∈ r \/ (0 <= t < vocabulary /\ (v = JUnsigned (Z.to_N t) \/ v = JSigned t)).
Proof.
  intros Hvoc. destruct v as [| |n|z| | | |]; cbn [add_id]; try naive_solver.
  - destruct (vocabulary <=? Z.of_N n) eqn:E1.
    { apply Z.leb_le in E1. split; [by left|]. intros [|[? [[= ->]|[=]]]]; [done|lia]. }
    apply Z.leb_gt in E1. rewrite s64_small by (unfold in_s64, s64_max; lia).
    rewrite (proj2 (Z.leb_le 0 (Z.of_N n))), (proj2 (Z.ltb_lt _ _) E1) by lia. cbn [andb].
    rewrite elem_of_union, elem_of_singleton. split.
    + intros [->|]; [right|by left]. split; [lia|]. left. by rewrite N2Z.id.
    + intros [|[? [[= ->]|[=]]]]; [by right|left]. lia.
  - destruct ((0 <=? z) && (z <? vocabulary)) eqn:E1.
    + apply andb_true_iff in E1 as [H1%Z.leb_le H2%Z.ltb_lt].
      rewrite elem_of_union, elem_of_singleton. naive_solver.
    + apply andb_false_iff in E1 as [H1%Z.leb_gt|H1%Z.ltb_ge]; naive_solver lia.
Qed.

Lemma add_ids_spec vocabulary l t : vocabulary < 2 ^ 63 -> forall r,
  t ∈ foldl (add_id vocabulary) r l <->
  t ∈ r \/ (0 <= t < vocabulary /\ (JUnsigned (Z.to_N t) ∈ l \/ JSigned t ∈ l)).
Proof.
  intros Hvoc. induction l as [|v l IH]; intros r; cbn [foldl]; [set_solver|].
  rewrite IH, add_id_spec by done. rewrite !elem_of_cons. naive_solver.
Qed.

(** The stop tokens of a model are exactly the integers of its
    [eos_token_id], a number or a list, that lie inside the vocabulary; the field
    of [text_config] goes first unless it is missing or null. *)
Theorem model_stop_token_ids_spec root vocabulary t :
  vocabulary < 2 ^ 63 ->
  t ∈ model_stop_token_ids root vocabulary <->
  is_object root = true /\ 0 <= t < vocabulary /\
  exists v, eos_field root = Some v /\
    match v with
    | JArray l => JUnsigned (Z.to_N t) ∈ l \/ JSigned t ∈ l
    | v => v = JUnsigned (Z.to_N t) \/ v = JSigned t
    end.
Proof.
  intros Hvoc. unfold model_stop_token_ids.
  destruct (vocabulary <=? 0) eqn:Ev; [apply Z.leb_le in Ev; set_solver by lia|].
  apply Z.leb_gt in Ev. destruct (is_object root); cbn [negb]; [|set_solver].
  destruct (eos_field root) as [v|]; [|set_solver].
  assert (forall v0, t ∈ add_id vocabulary ∅ v0 <->
    0 <= t < vocabulary /\ (v0 = JUnsigned (Z.to_N t) \/ v0 = JSigned t)) as Hone.
  { intros v0. rewrite add_id_spec by done. set_solver. }
  destruct v; try (rewrite Hone; naive_solver). rewrite add_ids_spec by done. set_solver.
Qed.

Lemma model_stop_token_ids_spec_witness :
  5 ∈ model_stop_token_ids (JObject [("eos_token_id"%string, JArray [JUnsigned 5; JUnsigned 99])]) 10 /\
  99 ∉ model_stop_token_ids (JObject [("eos_token_id"%string, JArray [JUnsigned 5; JUnsigned 99])]) 10.
Proof.
  split.
  - apply model_stop_token_ids_spec; [lia|]. split; [reflexivity|]. split; [lia|].
    eexists. split; [reflexivity|]. left. left.
  - intros H. apply model_stop_token_ids_spec in H; [|lia]. destruct H as (_ & H & _). lia.
Defined.

(** ** A byte tokenizer with end token 2 and a parser that takes all text as content *)

Definition byte_tokenizer : Tokenizer :=
  {| tk_is_eog t := t =? 2; tk_piece t _ := Ok [t] |}.
Definition sample_request (chat : bool) : InferenceRequest :=
  {| benchmark_fixed_tokens := false; chat := chat; continues := false; preserved_tokens := ∅;
     req_stops := [[98]]; stop_token_ids := ∅; max_tokens := 8 |}.
Definition content_parser (g : bytes) (_ : bool) : outcome Msg :=
  Ok {| role := []; content := g; content_parts := []; tool_calls := []; reasoning_content := [];
        tool_name := []; tool_call_id := []; extra_fields := [] |}.
Definition sample_start (chat : bool) : Output :=
  match make_output tt (sample_request chat) (Some byte_tokenizer) content_parser 0 with
  | Ok s => s
  | Throw _ => {| result := {| text := []; reasoning_text := []; result_calls := [];
                    finish_reason := ""; completion_tokens := 0; cancelled := false |};
                  metrics := {| started := 0; first_token := 0; last_token := 0;
                    prefill_tokens := 0; prefill_ms := tt; media_ms := tt; model_prefill_ms := tt;
                    saw_token := false; saw_prefill := false |};
                  generated := []; emitter := make_emitter []; message := empty_msg;
                  tool_ids := []; out_stopped := false; out_finished := false |}
  end.

Lemma append_counts_witness :
  exists out s, append_tokens (sample_request false) (Some byte_tokenizer) "r" content_parser
      [(104, 0); (2, 1); (105, 2)] (sample_start false) = (Ok out, s) /\
    token_ids out = [104; 2] /\ completion_tokens (result s) = 2.
Proof.
  pose proof (append_counts (sample_request false) (Some byte_tokenizer) "r" content_parser
    [(104, 0); (2, 1); (105, 2)] (sample_start false)) as H.
  destruct (append_tokens (sample_request false) (Some byte_tokenizer) "r" content_parser
    [(104, 0); (2, 1); (105, 2)] (sample_start false)) as [o s] eqn:E.
  destruct H as (_ & _ & H); [vm_compute; discriminate|vm_compute; reflexivity|].
  assert (o = Ok {| token_ids := [104; 2]; diffs := [content_diff [104]] |}) as ->
    by (vm_compute in E; injection E as <- _; reflexivity).
  eexists _, s. split; [reflexivity|]. split; [reflexivity|].
  destruct H as (_ & Hc & _). rewrite Hc. reflexivity.
Defined.

Lemma plain_text_stream_witness :
  exists out s, session (sample_request false) (Some byte_tokenizer) "r" content_parser
      [[(104, 0)]; [(97, 1); (98, 2)]; [(99, 3)]] (sample_start false) = (Ok out, s) /\
    text (result s) = delta_text (diffs out).
Proof.
  destruct (plain_text_stream tt (sample_request false) (Some byte_tokenizer) "r" content_parser
    byte_tokenizer (fun t => [t]) 0 [[(104, 0)]; [(97, 1); (98, 2)]; [(99, 3)]] (sample_start false))
    as (out & s & H1 & H2 & _); [reflexivity..|].
  exists out, s. exact (conj H1 H2).
Defined.

Example plain_text_cut :
  text (result (session (sample_request false) (Some byte_tokenizer) "r" content_parser
      [[(104, 0)]; [(97, 1); (98, 2)]; [(99, 3)]] (sample_start false)).2) = [104; 97].
Proof. vm_compute. reflexivity. Qed.


Example chat_text :
  text (result (session (sample_request true) (Some byte_tokenizer) "r" content_parser
      [[(104, 0)]; [(105, 1); (2, 2)]] (sample_start true)).2) = [104; 105].
Proof. vm_compute. reflexivity. Qed.
