(* ===== verification/Generation.v ===== *)
(** * The generation coroutine ([engine/include/generation_step.h],
      [core/step_sequence.h])

    [generate_sequence] is a coroutine: a frame with its locals and the point it
    resumes at. [next] runs it to its next [co_yield] or its end. The device
    operations are parameters; those the template tests with [requires] are
    optional. *)

From stdpp Require Import base list strings gmap.
From Stdlib Require Import ZArith Lia.
From S2P Require Import Prelude GenerationPolicy TextEmitter ChatDiff Inference.

#[local] Set Default Proof Using "Type".
Open Scope Z_scope.

(** ** [StepSequence] *)

Inductive StepState := waiting | advanced | complete.

(** What a generation yields: [PrefillProgress] or [OutputDelta]. *)
Inductive GenValue {Ms : Type} :=
  | Progress (t : Timing (Ms := Ms))
  | Delta (o : TokenOutput).
Arguments GenValue : clear implicits.

Record StepResult {Ms : Type} := { state : StepState; value : option (GenValue Ms) }.
Arguments StepResult : clear implicits.

(** [explicit operator bool]. *)
Definition continues_step {Ms} (r : StepResult Ms) : bool :=
  match state r with complete => false | _ => true end.

Definition yield_state {Ms} (x : StepState) : StepResult Ms := {| state := x; value := None |}.
Definition yield_value {Ms} (v : GenValue Ms) : StepResult Ms :=
  {| state := advanced; value := Some v |}.
Definition ended {Ms} : StepResult Ms := yield_state complete.

(** ** [generate_sequence] *)

(** The device operations of a backend with state [D]. [D] also holds the inner
    generation of [generate_decode]. *)
Record Operations (D Ms : Type) := {
  op_prefill_chunk : option (PrefillChunk -> M D PrefillChunk);
  op_schedule_prefill : option (PrefillChunk -> M D unit);
  op_completed_chunk : option (PrefillChunk -> M D PrefillChunk);
  op_prefill : PrefillChunk -> M D Ms;
  op_first_token : M D Z;
  op_generate_decode : option (M (D * Output (Ms := Ms)) bool);
  op_decode_next : M (D * Output (Ms := Ms)) (StepResult Ms);
  op_accept : Z -> M D unit;
  op_schedule_decode : option (M D unit);
  op_advance : M D Z;
  op_ready : D -> bool;
}.
Arguments op_prefill_chunk {D Ms} _.
Arguments op_schedule_prefill {D Ms} _.
Arguments op_completed_chunk {D Ms} _.
Arguments op_prefill {D Ms} _.
Arguments op_first_token {D Ms} _.
Arguments op_generate_decode {D Ms} _.
Arguments op_decode_next {D Ms} _.
Arguments op_accept {D Ms} _.
Arguments op_schedule_decode {D Ms} _.
Arguments op_advance {D Ms} _.
Arguments op_ready {D Ms} _.

(** Where the coroutine resumes. *)
Inductive Resume :=
  | AtStart
  | AfterSchedule (chunk : PrefillChunk)  (** inside the wait for a scheduled tile *)
  | AfterProgress
  | InDecode  (** inside the loop over [generate_decode]'s generation *)
  | AfterDelta
  | AfterWait  (** inside the wait for a scheduled decode *)
  | AtEnd.

Section Sequence.
Context {D Ms : Type} (zero : Ms) (ms_add : Ms -> Ms -> Ms) (ops : Operations D Ms).
Context (request : InferenceRequest) (tokenizer : option Tokenizer) (id : string)
  (parse_chat : bytes -> bool -> outcome Msg).
(** The arguments of [generate_sequence]. *)
Context (prompt_size reused_tokens stable_prefix_size chunk_size : Z).

Record Frame := {
  elapsed : Ms;
  offset : Z;
  token : Z;
  resume : Resume;
}.

Definition first_frame : Frame :=
  {| elapsed := zero; offset := reused_tokens; token := 0; resume := AtStart |}.

(** The device, the output and the frame. *)
Record Run := { dev : D; out : Output (Ms := Ms); frame : Frame }.

Abbreviation Op := (M Run).

Definition set_dev (d : D) (s : Run) : Run := {| dev := d; out := out s; frame := frame s |}.
Definition set_out (o : Output) (s : Run) : Run := {| dev := dev s; out := o; frame := frame s |}.
Definition set_frame (f : Frame) (s : Run) : Run := {| dev := dev s; out := out s; frame := f |}.
Definition set_resume (r : Resume) (s : Run) : Run :=
  set_frame {| elapsed := elapsed (frame s); offset := offset (frame s);
               token := token (frame s); resume := r |} s.
Definition set_token (t : Z) (s : Run) : Run :=
  set_frame {| elapsed := elapsed (frame s); offset := offset (frame s); token := t;
               resume := resume (frame s) |} s.

(** Running a device operation, an output operation, or one on both. *)
Definition on_dev {A} (m : M D A) : Op A := fun s =>
  let '(r, d) := m (dev s) in (r, set_dev d s).
Definition on_out {A} (m : M (Output (Ms := Ms)) A) : Op A := fun s =>
  let '(r, o) := m (out s) in (r, set_out o s).
Definition on_both {A} (m : M (D * Output (Ms := Ms)) A) : Op A := fun s =>
  let '(r, (d, o)) := m (dev s, out s) in (r, set_out o (set_dev d s)).

Definition is_stopped (s : Run) : bool := stopped request (out s).

(** [co_yield] and [co_return]. *)
Definition suspend (r : Resume) (result : StepResult Ms) : Op (StepResult Ms) :=
  modify (set_resume r) ≫= fun _ => mret result.
Definition return_end : Op (StepResult Ms) := suspend AtEnd ended.

(** From the completed tile to the progress event. *)
Definition run_tile (chunk : PrefillChunk) : Op (StepResult Ms) :=
  chunk ← match op_completed_chunk ops with
          | Some completed => on_dev (completed chunk)
          | None => mret chunk
          end;
  ms ← on_dev (op_prefill ops chunk);
  modify (fun s => set_frame
    {| elapsed := ms_add (elapsed (frame s)) ms; offset := s64 (offset (frame s) + count chunk);
       token := token (frame s); resume := resume (frame s) |} s) ≫= fun _ =>
  s ← get;
  suspend AfterProgress (yield_value (Progress
    {| prompt_tokens := u64 (offset (frame s) - reused_tokens); llm_ms := elapsed (frame s);
       multimodal_ms := zero; model_ms := elapsed (frame s) |})).

(** The head of the token loop. *)
Definition decode_head (now : Z) : Op (StepResult Ms) :=
  s ← get;
  if is_stopped s then return_end
  else
    let token := token (frame s) in
    delta ← on_out (append_tokens request tokenizer id parse_chat [(token, now)]);
    on_dev (op_accept ops token) ≫= fun _ =>
    s ← get;
    match op_schedule_decode ops with
    | Some schedule => if is_stopped s then mret tt else on_dev schedule
    | None => mret tt
    end ≫= fun _ =>
    suspend AfterDelta (yield_value (Delta delta)).

Definition advance_token (now : Z) : Op (StepResult Ms) :=
  token ← on_dev (op_advance ops);
  modify (set_token token) ≫= fun _ => decode_head now.

(** The wait for a scheduled decode. *)
Definition wait_decode (now : Z) : Op (StepResult Ms) :=
  s ← get;
  if negb (op_ready ops (dev s)) && negb (is_stopped s)
  then suspend AfterWait (yield_state waiting)
  else if is_stopped s then return_end
  else advance_token now.

Definition after_delta (now : Z) : Op (StepResult Ms) :=
  s ← get;
  if is_stopped s then return_end
  else match op_schedule_decode ops with
       | Some _ => wait_decode now
       | None => advance_token now
       end.

Definition decode_step : Op (StepResult Ms) :=
  step ← on_both (op_decode_next ops);
  if continues_step step then suspend InDecode step else return_end.

Definition after_prefill (now : Z) : Op (StepResult Ms) :=
  s ← get;
  if is_stopped s then return_end
  else
    inner ← match op_generate_decode ops with
            | Some start => on_both start
            | None => mret false
            end;
    if inner : bool then decode_step
    else
      token ← on_dev (op_first_token ops);
      modify (set_token token) ≫= fun _ => decode_head now.

(** The head of the prefill loop. *)
Definition prefill_head (now : Z) : Op (StepResult Ms) :=
  s ← get;
  if (offset (frame s) <? prompt_size) && negb (is_stopped s) then
    chunk ← lift (next_prefill_chunk
      (prefill_end prompt_size stable_prefix_size (offset (frame s)))
      (offset (frame s)) chunk_size);
    chunk ← match op_prefill_chunk ops with
            | Some f => on_dev (f chunk)
            | None => mret chunk
            end;
    match op_schedule_prefill ops with
    | Some schedule =>
        on_dev (schedule chunk) ≫= fun _ => suspend (AfterSchedule chunk) (yield_state advanced)
    | None => run_tile chunk
    end
  else after_prefill now.

(** The wait for a scheduled tile. *)
Definition wait_tile (chunk : PrefillChunk) : Op (StepResult Ms) :=
  s ← get;
  if negb (op_ready ops (dev s)) && negb (is_stopped s)
  then suspend (AfterSchedule chunk) (yield_state waiting)
  else if is_stopped s then return_end
  else run_tile chunk.

Definition resume_at (now : Z) (r : Resume) : Op (StepResult Ms) :=
  match r with
  | AtStart | AfterProgress => prefill_head now
  | AfterSchedule chunk => wait_tile chunk
  | InDecode => decode_step
  | AfterDelta => after_delta now
  | AfterWait => wait_decode now
  | AtEnd => mret ended
  end.

(** [StepSequence::next]: an exception ends the coroutine. *)
Definition next (now : Z) : Op (StepResult Ms) := fun s =>
  match resume_at now (resume (frame s)) s with
  | (Ok r, s) => (Ok r, s)
  | (Throw e, s) => (Throw e, set_resume AtEnd s)
  end.

(** ** Properties *)

(** Once the output has stopped, by a stop, the token limit or a
    cancellation, resuming the sequence outside [generate_decode] ends it without
    an event and touches neither the device nor the output. *)
Theorem sequence_stops now s :
  is_stopped s = true -> resume (frame s) <> InDecode ->
  next now s = (Ok ended, set_resume AtEnd s) /\
  next now (set_resume AtEnd s) = (Ok ended, set_resume AtEnd s).
Proof.
  intros Hs Hr. split; [|done]. unfold next.
  assert (after_prefill now s = (Ok ended, set_resume AtEnd s)) as Hap.
  { unfold after_prefill. by rewrite bind_get, Hs. }
  destruct (resume (frame s)) as [|chunk| | | | |] eqn:Hres; cbn [resume_at]; try done.
  - unfold prefill_head. by rewrite bind_get, Hs, andb_false_r, Hap.
  - unfold wait_tile. by rewrite bind_get, Hs, andb_false_r.
  - unfold prefill_head. by rewrite bind_get, Hs, andb_false_r, Hap.
  - unfold after_delta. by rewrite bind_get, Hs.
  - unfold wait_decode. by rewrite bind_get, Hs, andb_false_r.
  - unfold mret, M_ret. destruct s as [d o [e f t r]]. simpl in *. subst r. done.
Qed.
End Sequence.

(** ** A device without optional operations *)

Definition plain_ops : Operations unit unit :=
  {| op_prefill_chunk := None; op_schedule_prefill := None; op_completed_chunk := None;
     op_prefill := fun _ => mret tt; op_first_token := mret 65; op_generate_decode := None;
     op_decode_next := mret ended; op_accept := fun _ => mret tt; op_schedule_decode := None;
     op_advance := mret 66; op_ready := fun _ => true |}.

(** A generation whose output has stopped, at its first resumption. *)
Definition stopped_run : Run :=
  {| dev := tt; frame := first_frame tt 0;
     out := stop_output (sample_start false) |}.

Lemma sequence_stops_witness :
  next tt (fun _ _ => tt) plain_ops (sample_request false) None "r" content_parser 3 0 0 2 9 stopped_run =
    (Ok ended, set_resume AtEnd stopped_run).
Proof.
  apply (sequence_stops tt (fun _ _ => tt) plain_ops (sample_request false) None "r" content_parser 3 0 0 2 9);
    [reflexivity|discriminate].
Defined.
