(* ===== verification/Scheduler.v ===== *)
(** * The request scheduler ([scheduler/include/scheduler.h],
      [scheduler/src/scheduler.cpp])

    One worker thread owns the requests and drives the engine in rounds; each
    client holds an outbox it drains at any time. Data the scheduler passes on
    without reading is of type [Payload]. The engine is the interface class
    [Engine]: the virtual functions of [engine/include/engine.h], each of which
    may throw. The locks order the accesses to an outbox: before each access of
    the worker, [yield] lets the clients drain any outboxes the environment
    [env] names, so every interleaving of drains and rounds is a run of the
    model. [std::unordered_map] iterates in the order [iter]. Byte counts are
    sizes of live objects; their sums do not wrap. *)

From stdpp Require Import base list strings gmap sorting.
From Stdlib Require Import ZArith Lia.
From S2P Require Import Prelude.

#[local] Set Default Proof Using "Type".
Open Scope Z_scope.

(** ** Engine data ([engine/include/engine.h]) *)

Inductive Admission := accepted | deferred.
Inductive SessionKind :=
  | kfork | kclose | kclear | ktrim | kbudget | krefresh | kmemory_budget | kmetrics.

#[export] Instance admission_eq_dec : EqDecision Admission.
Proof. solve_decision. Defined.
#[export] Instance session_kind_eq_dec : EqDecision SessionKind.
Proof. solve_decision. Defined.

Record EngineStatus := { available : Z; status_healthy : bool }.
Record Failed := { code : string; message : string; retryable : bool }.
(** The sizes of the text fields of a [common_chat_msg_diff]. *)
Record Diff := { content_size : Z; reasoning_size : Z; name_size : Z; arguments_size : Z; diff_id_size : Z }.

Record SessionCommand := {
  kind : SessionKind;
  source : string;
  target : string;
  command_bytes : Z;  (** [bytes] *)
  disk_bytes : option Z;
  weight_bytes : option Z;
  ram_bytes : option Z;
}.
Section Types.
Context {Payload : Type}.

Record EngineRequest := {
  req_id : string;
  req_session : string;  (** [input.cache_plan.session_id] *)
  req_deadline : option Z;
  req_priority : Z;
  req_payload : Payload;
}.

Inductive EventData :=
  | PrefillProgress (p : Payload)
  | OutputDelta (tokens : list Z) (diffs : list Diff)
  | UsageUpdate (p : Payload)
  | Completed (finish_reason : string) (p : Payload)
  | Cancelled (p : option Payload)
  | FailedEvent (f : Failed).

Record EngineEvent := { ev_id : string; ev_data : EventData }.

Record EngineStepResult := {
  advanced : list string;
  events : list EngineEvent;
  result_status : EngineStatus;
  has_work : bool;
  result_wake_at : option Z;
}.

(** Metric values are passed on. *)
Definition Metrics := list (string * Payload).

Record SessionResult := { session_count : Z; session_metrics : Metrics }.

Inductive ControlRequest :=
  | DecodeTokens (p : Payload) | PrepareDuplex (p : Payload) | PrepareDuplexStep (p : Payload)
  | DuplexSessionParams (p : Payload) | DuplexStepInput (p : Payload) | StopDuplex
  | RuntimeMetrics | CountTokens (p : Payload) | ScoreText (p : Payload) | ScoreTokens (p : Payload).

Inductive ControlResult :=
  | MetricsResult (m : Metrics)
  | OtherResult (p : Payload).
End Types.
Arguments EngineRequest : clear implicits.
Arguments EventData : clear implicits.
Arguments EngineEvent : clear implicits.
Arguments EngineStepResult : clear implicits.
Arguments Metrics : clear implicits.
Arguments SessionResult : clear implicits.
Arguments ControlRequest : clear implicits.
Arguments ControlResult : clear implicits.

(** The virtual functions; a call that throws may have changed the engine.
    [status] and [info] are read-only and do not throw. *)
Class Engine (E Payload : Type) := {
  eng_info : E -> Payload;
  eng_status : E -> EngineStatus;
  eng_admit : EngineRequest Payload -> E -> outcome Admission * E;
  eng_cancel : string -> E -> outcome unit * E;
  eng_step : list string -> E -> outcome (EngineStepResult Payload) * E;
  eng_session : SessionCommand -> E -> outcome (SessionResult Payload) * E;
  eng_reload : Z -> E -> outcome Z * E;
  eng_shutdown : E -> outcome unit * E;
  eng_control : ControlRequest Payload -> E -> outcome (ControlResult Payload) * E;
}.

(** ** Scheduler data *)

Record Limits := { limit_events : Z; limit_bytes : Z }.

Section SchedulerTypes.
Context {Payload : Type}.

(** [MfqScheduledRequest]. [taken] records the events the client has drained. *)
Record Outbox := {
  ob_events : list (EngineEvent Payload);
  ob_bytes : Z;
  ob_terminal : bool;
  ob_taken : list (EngineEvent Payload);
}.

Record Request := {
  input : EngineRequest Payload;
  outbox : nat;
  admitted : bool;
  cancelling : bool;
  finished : bool;
  failure : option Failed;
  pending : list (EngineEvent Payload);
}.

(** [reply] identifies the promise. *)
Inductive Command :=
  | Submit (r : EngineRequest Payload) (reply : nat)
  | Cancel (id : string) (session all : bool) (reply : nat)
  | Control (r : ControlRequest Payload) (reply : nat)
  | Session (r : SessionCommand) (reply : nat)
  | Status (reply : nat)
  | Reload (context : Z) (reply : nat).

Inductive Reply :=
  | ReplyUnit
  | ReplyBool (b : bool)
  | ReplyControl (r : ControlResult Payload)
  | ReplySession (r : SessionResult Payload)
  | ReplyStatus (s : EngineStatus)
  | ReplyContext (context : Z)
  | ReplyException (e : exn).

Record Snapshot := {
  snap_status : EngineStatus;
  snap_runtime : Metrics Payload;
  snap_session : Metrics Payload;
  snap_captured : Z;
}.
End SchedulerTypes.
Arguments Outbox : clear implicits.
Arguments Request : clear implicits.
Arguments Command : clear implicits.
Arguments Reply : clear implicits.
Arguments Snapshot : clear implicits.

(** The worker's state: the members and the locals of [loop] that outlive a
    round ([reload], [healthy], [duplex_active]). [boxes] is the heap of
    outboxes, [replies] the promises kept, [env] what the clients will do. *)
Record Sched (E Payload : Type) := {
  engine : E;
  requests : gmap string (Request Payload);
  order : list string;
  boxes : list (Outbox Payload);
  reload : option (Z * nat);
  healthy : bool;
  duplex_active : bool;
  info : Payload;
  snapshot : Snapshot Payload;
  replies : list (nat * Reply Payload);
  env : list (list nat);
}.
Arguments engine {E Payload} _.
Arguments requests {E Payload} _.
Arguments order {E Payload} _.
Arguments boxes {E Payload} _.
Arguments reload {E Payload} _.
Arguments healthy {E Payload} _.
Arguments duplex_active {E Payload} _.
Arguments info {E Payload} _.
Arguments snapshot {E Payload} _.
Arguments replies {E Payload} _.
Arguments env {E Payload} _.

Section Scheduler.
Context {E Payload : Type} `{Engine E Payload}.
Context (limits : Limits) (sizeof_event sizeof_diff : Z).
Context (iter : gmap string (Request Payload) -> list string).

Abbreviation Event := (EngineEvent Payload).
Abbreviation State := (Sched E Payload).
Abbreviation Op := (M (Sched E Payload)).

(** Member assignments. *)
Definition set_engine (e : E) (s : State) : State :=
  {| engine := e; requests := requests s; order := order s; boxes := boxes s;
     reload := reload s; healthy := healthy s; duplex_active := duplex_active s;
     info := info s; snapshot := snapshot s; replies := replies s; env := env s |}.
Definition set_requests (m : gmap string (Request Payload)) (o : list string) (s : State) : State :=
  {| engine := engine s; requests := m; order := o; boxes := boxes s;
     reload := reload s; healthy := healthy s; duplex_active := duplex_active s;
     info := info s; snapshot := snapshot s; replies := replies s; env := env s |}.
Definition set_boxes (b : list (Outbox Payload)) (s : State) : State :=
  {| engine := engine s; requests := requests s; order := order s; boxes := b;
     reload := reload s; healthy := healthy s; duplex_active := duplex_active s;
     info := info s; snapshot := snapshot s; replies := replies s; env := env s |}.
Definition set_flags (r : option (Z * nat)) (h d : bool) (s : State) : State :=
  {| engine := engine s; requests := requests s; order := order s; boxes := boxes s;
     reload := r; healthy := h; duplex_active := d;
     info := info s; snapshot := snapshot s; replies := replies s; env := env s |}.
Definition set_healthy (h : bool) (s : State) : State :=
  set_flags (reload s) h (duplex_active s) s.
Definition set_info (i : Payload) (s : State) : State :=
  {| engine := engine s; requests := requests s; order := order s; boxes := boxes s;
     reload := reload s; healthy := healthy s; duplex_active := duplex_active s;
     info := i; snapshot := snapshot s; replies := replies s; env := env s |}.
Definition set_snapshot (x : Snapshot Payload) (s : State) : State :=
  {| engine := engine s; requests := requests s; order := order s; boxes := boxes s;
     reload := reload s; healthy := healthy s; duplex_active := duplex_active s;
     info := info s; snapshot := x; replies := replies s; env := env s |}.
Definition add_reply (n : nat) (r : Reply Payload) (s : State) : State :=
  {| engine := engine s; requests := requests s; order := order s; boxes := boxes s;
     reload := reload s; healthy := healthy s; duplex_active := duplex_active s;
     info := info s; snapshot := snapshot s; replies := replies s ++ [(n, r)]; env := env s |}.
Definition set_env (x : list (list nat)) (s : State) : State :=
  {| engine := engine s; requests := requests s; order := order s; boxes := boxes s;
     reload := reload s; healthy := healthy s; duplex_active := duplex_active s;
     info := info s; snapshot := snapshot s; replies := replies s; env := x |}.

Definition put_request (id : string) (r : Request Payload) (s : State) : State :=
  set_requests (<[id := r]> (requests s)) (order s) s.
Definition put_box (b : nat) (x : Outbox Payload) (s : State) : State :=
  set_boxes (<[b := x]> (boxes s)) s.

Definition set_finished (f : bool) (r : Request Payload) : Request Payload :=
  {| input := input r; outbox := outbox r; admitted := admitted r; cancelling := cancelling r;
     finished := f; failure := failure r; pending := pending r |}.
Definition set_failure (f : option Failed) (r : Request Payload) : Request Payload :=
  {| input := input r; outbox := outbox r; admitted := admitted r; cancelling := cancelling r;
     finished := finished r; failure := f; pending := pending r |}.
Definition set_pending (p : list Event) (r : Request Payload) : Request Payload :=
  {| input := input r; outbox := outbox r; admitted := admitted r; cancelling := cancelling r;
     finished := finished r; failure := failure r; pending := p |}.
Definition set_cancelling (c : bool) (r : Request Payload) : Request Payload :=
  {| input := input r; outbox := outbox r; admitted := admitted r; cancelling := c;
     finished := finished r; failure := failure r; pending := pending r |}.
Definition set_admitted (a : bool) (r : Request Payload) : Request Payload :=
  {| input := input r; outbox := outbox r; admitted := a; cancelling := cancelling r;
     finished := finished r; failure := failure r; pending := pending r |}.

(** A call into the engine. *)
Definition call {A} (f : E -> outcome A * E) : Op A := fun s =>
  let '(r, e) := f (engine s) in (r, set_engine e s).

(** [requests_.at(id)], used as a reference. *)
Definition request_at (id : string) : Op (Request Payload) := fun s =>
  match requests s !! id with
  | Some r => (Ok r, s)
  | None => (Throw (OutOfRange "unordered_map::at"), s)
  end.

Definition box_at (b : nat) : Op (Outbox Payload) := fun s =>
  match boxes s !! b with
  | Some x => (Ok x, s)
  | None => (Throw (LogicError "null outbox"), s)
  end.

Definition reply (n : nat) (r : Reply Payload) : Op unit := modify (add_reply n r).

(** ** Outboxes *)

Definition terminal (d : EventData Payload) : bool :=
  match d with Completed _ _ | Cancelled _ | FailedEvent _ => true | _ => false end.

Definition str_size (x : string) : Z := Z.of_nat (String.length x).
(** [x.resize(std::min(x.size(), n))]. *)
Definition resize_min (n : nat) (x : string) : string := String.substring 0 n x.

Definition terminal_reserve : Z := sizeof_event + 128 + 64 + 512.

Definition diff_text (d : Diff) : Z :=
  content_size d + reasoning_size d + (name_size d + arguments_size d + diff_id_size d).

Definition event_bytes (d : EventData Payload) : Z :=
  sizeof_event +
  match d with
  | OutputDelta tokens diffs =>
      size_of tokens * 8 + size_of diffs * sizeof_diff + Zsum diff_text diffs
  | Completed finish_reason _ => str_size finish_reason
  | FailedEvent f => str_size (code f) + str_size (message f)
  | _ => 0
  end.

Definition total_bytes (ev : Event) : Z := event_bytes (ev_data ev) + str_size (ev_id ev).

(** [MfqScheduledRequest::wait], when it returns: everything is taken. *)
Definition drain_box (x : Outbox Payload) : Outbox Payload :=
  {| ob_events := []; ob_bytes := 0; ob_terminal := ob_terminal x;
     ob_taken := ob_taken x ++ ob_events x |}.
(** [wait] blocks until this holds. *)
Definition wait_ready (x : Outbox Payload) : bool :=
  ob_terminal x || negb (bool_decide (length (ob_events x) = 0)%nat).
Definition box_done (x : Outbox Payload) : bool :=
  ob_terminal x && bool_decide (length (ob_events x) = 0)%nat.

Definition drain (b : nat) (s : State) : State :=
  match boxes s !! b with
  | Some x => if wait_ready x then put_box b (drain_box x) s else s
  | None => s
  end.

Definition yield : Op unit := modify (fun s =>
  match env s with
  | [] => s
  | d :: rest => foldl (fun s b => drain b s) (set_env rest s) d
  end).

(** The three assignments that put an event into an outbox. *)
Definition deliver (ev : Event) (x : Outbox Payload) : Outbox Payload :=
  {| ob_events := ob_events x ++ [ev]; ob_bytes := ob_bytes x + total_bytes ev;
     ob_terminal := terminal (ev_data ev); ob_taken := ob_taken x |}.

(** A non-terminal event of [n] bytes has to wait. *)
Definition no_room (n : Z) (x : Outbox Payload) : bool :=
  (limit_events limits - 1 <=? size_of (ob_events x)) ||
  (limit_bytes limits - terminal_reserve <? ob_bytes x + n).

(** The text fields are cut to their bounds. *)
Definition truncate (d : EventData Payload) : EventData Payload :=
  match d with
  | FailedEvent f =>
      FailedEvent {| code := resize_min 64 (code f); message := resize_min 512 (message f);
                     retryable := retryable f |}
  | Completed finish_reason p => Completed (resize_min 64 finish_reason) p
  | _ => d
  end.

Definition output_limit : Failed :=
  {| code := "output_limit"; message := "engine output exceeds the request outbox budget";
     retryable := false |}.

(** [cancel], given the [publish] it calls. *)
Definition cancel_with (publish : string -> Event -> Op unit) (id : string) : Op unit :=
  r ← request_at id;
  if finished r then
    match pop_back (pending r) with
    | None => mret tt
    | Some (_, last) =>
        modify (put_request id (set_pending [] r)) ≫= fun _ => publish id last
    end
  else if cancelling r then mret tt
  else
    let r := set_pending [] (set_cancelling true r) in
    modify (put_request id r) ≫= fun _ =>
    if admitted r then call (eng_cancel (req_id (input r)))
    else publish id {| ev_id := req_id (input r); ev_data := Cancelled None |}.

(** [publish], given the [cancel] it calls on an oversized event. *)
Definition publish_with (cancel : string -> Op unit) (id : string) (ev : Event) : Op unit :=
  yield ≫= fun _ =>
  r ← request_at id;
  x ← box_at (outbox r);
  if ob_terminal x then mret tt
  else
    let ended := terminal (ev_data ev) in
    let r := set_finished (finished r || ended) r in
    modify (put_request id r) ≫= fun _ =>
    if bool_decide (is_Some (failure r)) && negb ended then mret tt
    else
      let data := match failure r with Some f => FailedEvent f | None => ev_data ev end in
      let ev := {| ev_id := ev_id ev; ev_data := truncate data |} in
      let n := total_bytes ev in
      if negb ended && (limit_bytes limits - terminal_reserve <? n) then
        modify (put_request id (set_failure (Some output_limit) r)) ≫= fun _ => cancel id
      else if negb (bool_decide (pending r = [])) || (negb ended && no_room n x) then
        modify (put_request id (set_pending (pending r ++ [ev]) r))
      else modify (put_box (outbox r) (deliver ev x)).

(** [publish] and [cancel] call each other. The event that [cancel] publishes is
    terminal, or was accepted into [pending] before, so it is not oversized:
    one level of nesting is enough. *)
Definition publish_accepted : string -> Event -> Op unit := publish_with (fun _ => mret tt).
Definition cancel : string -> Op unit := cancel_with publish_accepted.
Definition publish : string -> Event -> Op unit := publish_with cancel.

(** The loop of [flush] over the pending events; what remains and the box. *)
Fixpoint flush_loop (p : list Event) (x : Outbox Payload) : list Event * Outbox Payload :=
  match p with
  | [] => ([], x)
  | ev :: rest =>
      if negb (terminal (ev_data ev)) && no_room (total_bytes ev) x then (p, x)
      else flush_loop rest (deliver ev x)
  end.

Definition flush (id : string) : Op unit :=
  yield ≫= fun _ =>
  r ← request_at id;
  x ← box_at (outbox r);
  let '(p, x) := flush_loop (pending r) x in
  modify (fun s => put_box (outbox r) x (put_request id (set_pending p r) s)).

Definition deadline_exceeded : Failed :=
  {| code := "deadline_exceeded";
     message := "request deadline expired before the engine completed the request";
     retryable := false |}.

Definition expire (id : string) : Op unit :=
  r ← request_at id;
  if cancelling r || finished r then mret tt
  else modify (put_request id (set_failure (Some deadline_exceeded) r)) ≫= fun _ => cancel id.

(** ** Commands *)

(** The checks of [submit] and of the constructor, on the client's thread. *)
Definition submit_check (r : EngineRequest Payload) : outcome unit :=
  if bool_decide (req_id r = "") || (128 <? str_size (req_id r))
  then Throw (InvalidArgument "request ID must contain 1-128 bytes") else Ok tt.

Definition limits_check : outcome unit :=
  if (limit_events limits <? 4) || (limit_bytes limits <? 4096)
  then Throw (InvalidArgument "outbox requires at least 4 events and 4096 bytes") else Ok tt.

(** [refresh_snapshot]; [now] is the clock. *)
Definition merge_one (target : Metrics Payload) (value : string * Payload) : Metrics Payload :=
  match list_find (fun existing => existing.1 = value.1) target with
  | None => target ++ [value]
  | Some (i, existing) => <[i := (existing.1, value.2)]> target
  end.
Definition merge (target updates : Metrics Payload) : Metrics Payload :=
  foldl merge_one target updates.

Definition metrics_command : SessionCommand :=
  {| kind := kmetrics; source := ""; target := ""; command_bytes := 0; disk_bytes := None;
     weight_bytes := None; ram_bytes := None |}.

Definition refresh_snapshot (now : Z) (healthy blocked metrics : bool) : Op unit :=
  s ← get;
  let status := eng_status (engine s) in
  let ok := status_healthy status && healthy in
  let status := {| available := if blocked || negb ok then 0 else available status;
                   status_healthy := ok |} in
  runtime ← (if metrics then
               try_catch (res ← call (eng_control RuntimeMetrics);
                          mret (match res with MetricsResult m => Some m | OtherResult _ => None end))
                 (fun _ => mret None)
             else mret None);
  session ← (if metrics then
               try_catch (res ← call (eng_session metrics_command); mret (Some (session_metrics res)))
                 (fun _ => mret None)
             else mret None);
  modify (fun s =>
    let old := snapshot s in
    set_snapshot
      {| snap_status := status;
         snap_runtime := match runtime with Some m => merge (snap_runtime old) m
                         | None => snap_runtime old end;
         snap_session := match session with Some m => merge (snap_session old) m
                         | None => snap_session old end;
         snap_captured := match runtime, session with Some _, Some _ => now
                          | _, _ => snap_captured old end |} s).

Definition is_some {A} (o : option A) : bool := match o with Some _ => true | None => false end.

Definition no_requests (s : State) : bool := bool_decide (size (requests s) = 0%nat).

(** Some active request belongs to a session satisfying [f]. *)
Definition any_session (f : string -> bool) (s : State) : bool :=
  existsb (fun kv => f (req_session (input kv.2))) (map_to_list (requests s)).

Definition new_request (r : EngineRequest Payload) (b : nat) : Request Payload :=
  {| input := r; outbox := b; admitted := false; cancelling := false; finished := false;
     failure := None; pending := [] |}.

Definition empty_box : Outbox Payload :=
  {| ob_events := []; ob_bytes := 0; ob_terminal := false; ob_taken := [] |}.

(** The outbox is made by [submit], on the client's thread, before the command
    is queued. *)
Definition do_submit (stopping : bool) (r : EngineRequest Payload) (n : nat) : Op unit :=
  s ← get;
  if stopping || negb (healthy s) || is_some (reload s) || duplex_active s
  then throw (RuntimeError "scheduler is not accepting requests")
  else if bool_decide (is_Some (requests s !! req_id r))
  then throw (InvalidArgument "request ID is already active")
  else if negb (bool_decide (req_session r = "")) &&
          any_session (fun other => bool_decide (other = req_session r)) s
  then throw (InvalidArgument "session already has an active request")
  else
    let b := length (boxes s) in
    modify (fun s => set_requests (<[req_id r := new_request r b]> (requests s))
                       (order s ++ [req_id r]) (set_boxes (boxes s ++ [empty_box]) s)) ≫= fun _ =>
    reply n ReplyUnit.

Definition cancel_matches (id : string) (session all : bool) (key : string) (r : Request Payload)
    : bool :=
  all || (if session then bool_decide (req_session (input r) = id) else bool_decide (key = id)).

Definition do_cancel (id : string) (session all : bool) (n : nat) : Op unit :=
  s ← get;
  found ← fold_each (iter (requests s))
    (fun found key =>
       r ← request_at key;
       if cancel_matches id session all key r
       then cancel key ≫= fun _ => mret true else mret found) false;
  reply n (ReplyBool found).

Definition is_scoring (r : ControlRequest Payload) : bool :=
  match r with ScoreText _ | ScoreTokens _ => true | _ => false end.
Definition is_duplex (r : ControlRequest Payload) : bool :=
  match r with DuplexSessionParams _ | DuplexStepInput _ | StopDuplex => true | _ => false end.
Definition starts_duplex (r : ControlRequest Payload) : bool :=
  match r with DuplexSessionParams _ => true | _ => false end.
Definition stops_duplex (r : ControlRequest Payload) : bool :=
  match r with StopDuplex => true | _ => false end.

Definition do_control (now : Z) (stopping : bool) (r : ControlRequest Payload) (n : nat)
    : Op unit :=
  s ← get;
  if is_scoring r && (duplex_active s || negb (no_requests s))
  then throw (RuntimeError "probability scoring requires an idle runtime")
  else if is_some (reload s) then throw (RuntimeError "reload is pending")
  else if is_duplex r && negb (no_requests s)
  then throw (RuntimeError "duplex conflicts with active generation")
  else
    result ← call (eng_control r);
    modify (fun s => set_flags (reload s) (healthy s)
      (if stops_duplex r then false else if starts_duplex r then true else duplex_active s) s)
      ≫= fun _ =>
    s ← get;
    refresh_snapshot now (healthy s) (duplex_active s || stopping) true ≫= fun _ =>
    reply n (ReplyControl result).

(** The session command touches the session of an active request. *)
Definition session_conflict (c : SessionCommand) (session : string) : bool :=
  match kind c with
  | kclear | kmemory_budget | krefresh => true
  | kfork | kclose => bool_decide (session = source c) || bool_decide (session = target c)
  | _ => false
  end.

Definition do_session (now : Z) (stopping : bool) (c : SessionCommand) (n : nat)
    : Op unit :=
  s ← get;
  if negb (bool_decide (kind c = kmetrics)) && (duplex_active s || is_some (reload s))
  then throw (RuntimeError "session operation conflicts with runtime control")
  else if negb (bool_decide (kind c = kmetrics)) && any_session (session_conflict c) s
  then throw (RuntimeError "session operation conflicts with active generation")
  else
    result ← call (eng_session c);
    s ← get;
    refresh_snapshot now (healthy s) (is_some (reload s) || duplex_active s || stopping) true
      ≫= fun _ =>
    reply n (ReplySession result).

Definition do_status (stopping : bool) (n : nat) : Op unit :=
  s ← get;
  let status := eng_status (engine s) in
  let ok := status_healthy status && healthy s in
  reply n (ReplyStatus
    {| available := if negb ok || is_some (reload s) || duplex_active s || stopping
                    then 0 else available status;
       status_healthy := ok |}).

Definition do_reload (context : Z) (n : nat) : Op unit :=
  s ← get;
  if is_some (reload s) then throw (RuntimeError "reload already pending")
  else
    (if duplex_active s then
       call (eng_control StopDuplex) ≫= fun _ =>
       modify (fun s => set_flags (reload s) (healthy s) false s)
     else mret tt) ≫= fun _ =>
    s ← get;
    for_each (iter (requests s)) cancel ≫= fun _ =>
    modify (fun s => set_flags (Some (context, n)) (healthy s) (duplex_active s) s).

Definition command_reply (c : Command Payload) : nat :=
  match c with
  | Submit _ n | Cancel _ _ _ n | Control _ n | Session _ n | Status n | Reload _ n => n
  end.

Definition do_command (now : Z) (stopping : bool) (c : Command Payload) : Op unit :=
  match c with
  | Submit r n => do_submit stopping r n
  | Cancel id session all n => do_cancel id session all n
  | Control r n => do_control now stopping r n
  | Session r n => do_session now stopping r n
  | Status n => do_status stopping n
  | Reload context n => do_reload context n
  end.

Definition is_backend_failure (e : exn) : bool :=
  match e with BackendFailure _ => true | _ => false end.

(** One command with the handlers around it. *)
Definition run_command (now : Z) (stopping : bool) (c : Command Payload) : Op unit :=
  try_catch (do_command now stopping c) (fun e =>
    modify (fun s => if is_backend_failure e then set_healthy false s else s) ≫= fun _ =>
    reply (command_reply c) (ReplyException e)).

(** ** A round *)

(** The locals of the scheduling phase. *)
Record Plan := {
  eligible : list string;
  admission_blocked : bool;
  executable : bool;
  wake_at : option Z;  (** [None] is [time_point::max()] *)
}.

Definition min_time (a b : option Z) : option Z :=
  match a, b with
  | Some x, Some y => Some (Z.min x y)
  | Some x, None => Some x
  | None, b => b
  end.

(** The handlers around [engine_.admit]: the failure to publish, or [None] when
    the exception is not caught there. *)
Definition admission_failure (e : exn) : option Failed :=
  match e with
  | InputError unsupported what =>
      Some {| code := if unsupported then "unsupported_input" else "invalid_request";
              message := what; retryable := false |}
  | InvalidArgument what =>
      Some {| code := "invalid_request"; message := what; retryable := false |}
  | BackendFailure _ | OtherException => None
  | ResourceExhausted what =>
      Some {| code := "resource_exhausted"; message := what; retryable := true |}
  | RuntimeError what | LogicError what | OutOfRange what | LengthError what
  | OverflowError what =>
      Some {| code := "backend_failure"; message := what; retryable := false |}
  | BadAlloc => Some {| code := "backend_failure"; message := "std::bad_alloc"; retryable := false |}
  end.

(** [true] when the loop goes on to the eligibility test. *)
Definition try_admit (id : string) (r : Request Payload) (p : Plan) : Op (bool * Plan) := fun s =>
  match eng_admit (input r) (engine s) with
  | (Ok a, e) =>
      let ok := bool_decide (a = accepted) in
      (Ok (true, {| eligible := eligible p; admission_blocked := negb ok;
                    executable := executable p; wake_at := wake_at p |}),
       put_request id (set_admitted ok r) (set_engine e s))
  | (Throw ex, e) =>
      match admission_failure ex with
      | Some f =>
          (publish id {| ev_id := id; ev_data := FailedEvent f |} ≫= fun _ => mret (false, p))
            (set_engine e s)
      | None => (Throw ex, set_engine e s)
      end
  end.

(** Room for one quantum and the separate terminal slot. *)
Definition has_quantum_room (x : Outbox Payload) : bool :=
  negb (ob_terminal x) && (size_of (ob_events x) + 3 <? limit_events limits) &&
  (ob_bytes x <? (limit_bytes limits - terminal_reserve) / 2).

Definition test_eligible (id : string) (p : Plan) : Op Plan :=
  r ← request_at id;
  if negb (admitted r) then mret p
  else if negb (bool_decide (pending r = [])) then mret p
  else
    yield ≫= fun _ =>
    x ← box_at (outbox r);
    mret (if has_quantum_room x
          then {| eligible := eligible p ++ [id]; admission_blocked := admission_blocked p;
                  executable := executable p; wake_at := wake_at p |}
          else p).

(** The body of the loop over the ordered requests; [now] is the clock reading
    at each request. *)
Definition visit (now : string -> Z) (stopping : bool) (p : Plan) (id : string) : Op Plan :=
  flush id ≫= fun _ =>
  s ← get;
  r ← request_at id;
  (if stopping || negb (healthy s) then cancel id
   else match req_deadline (input r) with
        | Some d => if d <=? now id then expire id else mret tt
        | None => mret tt
        end) ≫= fun _ =>
  r ← request_at id;
  if finished r then mret p
  else
    let p := {| eligible := eligible p; admission_blocked := admission_blocked p;
                executable := executable p;
                wake_at := if cancelling r then wake_at p
                           else min_time (wake_at p) (req_deadline (input r)) |} in
    if cancelling r then
      mret {| eligible := eligible p; admission_blocked := admission_blocked p;
              executable := executable p || admitted r; wake_at := wake_at p |}
    else
      s ← get;
      if negb (admitted r) && negb (is_some (reload s)) && negb (admission_blocked p) &&
         (0 <? available (eng_status (engine s)))
      then
        '(go, p) ← try_admit id r p;
        if go : bool then test_eligible id p else mret p
      else test_eligible id p.

Definition request_priority (s : State) (id : string) : Z :=
  match requests s !! id with Some r => req_priority (input r) | None => 0 end.

(** [std::stable_sort] by descending priority; [requests_.at] throws on an id
    without a request. *)
Definition ordered (s : State) : list string :=
  stable_sort (fun a b => request_priority s b <? request_priority s a) (order s).

Definition initial_plan : Plan :=
  {| eligible := []; admission_blocked := false; executable := false; wake_at := None |}.

Definition publish_found (ev : Event) : Op unit :=
  s ← get;
  if bool_decide (is_Some (requests s !! ev_id ev)) then publish (ev_id ev) ev else mret tt.

(** The engine step and the publication of its events; the new [executable]
    and [wake_at]. *)
Definition run_step (now : Z) (stopping : bool) (p : Plan) : Op (bool * option Z) :=
  result ← call (eng_step (eligible p));
  s ← get;
  (if negb (has_work result) && existsb (fun ev => terminal (ev_data ev)) (events result)
   then refresh_snapshot now (healthy s && status_healthy (result_status result))
          (is_some (reload s) || duplex_active s || stopping) true
   else mret tt) ≫= fun _ =>
  for_each (events result) publish_found ≫= fun _ =>
  if negb (status_healthy (result_status result)) then throw (RuntimeError "engine is unhealthy")
  else mret (negb (bool_decide (length (advanced result) = 0)%nat) ||
             negb (bool_decide (length (events result) = 0)%nat),
             min_time (wake_at p) (result_wake_at result)).

Definition schedule (now : Z) (nows : string -> Z) (stopping : bool) : Op (bool * option Z) :=
  s ← get;
  for_each (order s) (fun id => request_at id ≫= fun _ => mret tt) ≫= fun _ =>
  p ← fold_each (ordered s) (visit nows stopping) initial_plan;
  let ready := executable p || negb (bool_decide (length (eligible p) = 0)%nat) in
  if ready
  then run_step now stopping
         {| eligible := eligible p; admission_blocked := admission_blocked p;
            executable := ready; wake_at := wake_at p |}
  else mret (false, wake_at p).

Definition exn_message (e : exn) : string :=
  match e with
  | InvalidArgument w | RuntimeError w | LogicError w | OutOfRange w | LengthError w
  | OverflowError w | ResourceExhausted w | BackendFailure w | InputError _ w => w
  | BadAlloc => "std::bad_alloc"
  | OtherException => "unknown backend error"
  end.

(** [try { m } catch (...) {}]. *)
Definition swallow (m : Op unit) : Op unit := try_catch m (fun _ => mret tt).

Definition fail_unfinished (what : string) : Op unit :=
  s ← get;
  for_each (iter (requests s)) (fun id =>
    r ← request_at id;
    if finished r then mret tt
    else swallow (publish id
           {| ev_id := id; ev_data := FailedEvent {| code := "backend_failure"; message := what;
                                                     retryable := false |} |})).

(** The handlers around the scheduling phase. *)
Definition recover (e : exn) : Op unit :=
  match e with
  | OtherException =>
      modify (set_healthy false) ≫= fun _ => fail_unfinished "unknown backend error"
  | _ =>
      modify (fun s => set_healthy (healthy s && negb (is_backend_failure e) &&
                                    status_healthy (eng_status (engine s))) s) ≫= fun _ =>
      s ← get;
      for_each (iter (requests s)) (fun id =>
        r ← request_at id;
        if admitted r then swallow (call (eng_cancel id)) else mret tt) ≫= fun _ =>
      try_catch
        (result ← call (eng_step []);
         modify (fun s => set_healthy (healthy s && status_healthy (result_status result)) s))
        (fun _ => modify (set_healthy false)) ≫= fun _ =>
      fail_unfinished (exn_message e)
  end.

(** The loop that drops the requests whose outbox is terminal: the ids kept. *)
Fixpoint retire_loop (ids : list string) : Op (list string) :=
  match ids with
  | [] => mret []
  | id :: ids =>
      yield ≫= fun _ =>
      r ← request_at id;
      x ← box_at (outbox r);
      if ob_terminal x then
        modify (fun s => set_requests (delete id (requests s)) (order s) s) ≫= fun _ =>
        retire_loop ids
      else kept ← retire_loop ids; mret (id :: kept)
  end.

Definition retire : Op unit :=
  s ← get;
  kept ← retire_loop (order s);
  modify (fun s => set_requests (requests s) kept s).

Definition finish_reload : Op unit :=
  s ← get;
  match reload s with
  | Some (context, n) =>
      if no_requests s then
        try_catch
          (result ← call (eng_reload context);
           modify (fun s => set_healthy true (set_info (eng_info (engine s)) s)) ≫= fun _ =>
           reply n (ReplyContext result))
          (fun e => modify (set_healthy false) ≫= fun _ => reply n (ReplyException e)) ≫= fun _ =>
        modify (fun s => set_flags None (healthy s) (duplex_active s) s)
      else mret tt
  | None => mret tt
  end.

Definition rotate : Op unit := modify (fun s =>
  match order s with
  | [] => s
  | id :: rest => set_requests (requests s) (rest ++ [id]) s
  end).

(** One iteration of [loop] on the commands it swapped out of the mailbox;
    [true] when the loop returns. [snapshot_requested] is the flag exchanged
    at its end. *)
Definition round (now : Z) (nows : string -> Z) (stopping snapshot_requested : bool)
    (commands : list (Command Payload)) : Op bool :=
  for_each commands (run_command now stopping) ≫= fun _ =>
  try_catch (schedule now nows stopping ≫= fun _ => mret tt) recover ≫= fun _ =>
  retire ≫= fun _ =>
  finish_reload ≫= fun _ =>
  rotate ≫= fun _ =>
  s ← get;
  if stopping && no_requests s then
    swallow (call eng_shutdown) ≫= fun _ => mret true
  else
    refresh_snapshot now (healthy s) (is_some (reload s) || duplex_active s || stopping)
      (negb (bool_decide (length commands = 0)%nat) || snapshot_requested) ≫= fun _ =>
    mret false.
End Scheduler.

(** ** The visiting order *)

Section Order.
Context {E Payload : Type} (s : Sched E Payload).

(** A round visits the active requests by descending priority, and those
    of the same priority in the order of the queue. *)
Theorem ordered_spec p :
  ordered s ≡ₚ order s /\
  StronglySorted (fun a b => request_priority s b <= request_priority s a) (ordered s) /\
  filter (fun id => request_priority s id = p) (ordered s) =
    filter (fun id => request_priority s id = p) (order s).
Proof.
  set (lt := fun a b => request_priority s b <? request_priority s a).
  assert (forall a b, lt a b = true -> lt b a = false) as Hasym by (unfold lt; lia).
  assert (forall a b c, lt b a = false -> lt c b = false -> lt c a = false) as Hweak
    by (unfold lt; lia).
  split; [apply stable_sort_perm|]. split.
  - eapply StronglySorted_mono; [|apply (stable_sort_sorted lt Hasym Hweak)].
    intros a b. unfold lt. lia.
  - unfold ordered. fold lt. destruct (filter (fun id => request_priority s id = p) (order s))
      as [|z zs] eqn:Ef.
    + apply filter_none. intros id. rewrite (stable_sort_perm lt). intros Hid Hp.
      assert (id ∈ filter (fun id => request_priority s id = p) (order s)) as Hin
        by (by apply list_elem_of_filter). rewrite Ef in Hin. by apply elem_of_nil in Hin.
    + rewrite <- Ef. assert (request_priority s z = p) as Hz.
      { assert (z ∈ filter (fun id => request_priority s id = p) (order s)) as Hin
          by (rewrite Ef; by left). by apply list_elem_of_filter in Hin as [? _]. }
      pose proof (stable_sort_stable lt Hasym Hweak z (order s)) as Hst.
      assert (forall l : list string, filter (fun y => tied lt z y = true) l =
        filter (fun id => request_priority s id = p) l) as Hfe.
      { intros l. apply list_filter_iff. intros y. unfold tied, lt. rewrite Hz.
        rewrite andb_true_iff, !negb_true_iff, !Z.ltb_ge. lia. }
      by rewrite !Hfe in Hst.
Qed.
End Order.
