(* ===== verification/SchedulerInv.v ===== *)
(** * The scheduler's invariants

    What every round preserves: each active request owns one outbox within its
    budgets, its stream ends with at most one terminal event, and the engine
    only runs requests the scheduler still waits for. The engine is any
    implementation of the interface [Engine] that keeps the laws below. *)

From stdpp Require Import base list strings gmap sorting.
From Stdlib Require Import ZArith Lia.
From S2P Require Import Prelude Scheduler.

#[local] Set Default Proof Using "Type".
Open Scope Z_scope.

(** What the scheduler relies on ([engine/include/engine.h]): [runs] are the
    requests the engine works on, [halted] those it was told to cancel. An
    accepted request runs until its terminal event, after which it has no more
    events; a step ends the cancelled ones; cancelling does not throw. *)
Class EngineLaws (E Payload : Type) `{Engine E Payload} := {
  runs : E -> gset string;
  halted : E -> gset string;
  law_cancel : forall id e, exists e', eng_cancel id e = (Ok tt, e') /\ runs e' = runs e /\
    halted e ⊆ halted e' /\ (id ∈ runs e -> id ∈ halted e');
  law_admit : forall r e, runs (eng_admit r e).2 =
    match (eng_admit r e).1 with Ok accepted => {[req_id r]} ∪ runs e | _ => runs e end;
  law_step : forall ids e,
    match eng_step ids e with
    | (Ok result, e') =>
        runs e' ⊆ runs e ∖ halted e /\
        forall i ev, events result !! i = Some ev ->
          ev_id ev ∈ runs e /\
          (terminal (ev_data ev) = true -> ev_id ev ∉ runs e' /\
             forall j ev', events result !! j = Some ev' -> (i < j)%nat -> ev_id ev' <> ev_id ev)
    | (Throw _, e') => runs e' ⊆ runs e
    end;
  law_session : forall c e, runs (eng_session c e).2 = runs e;
  law_control : forall c e, runs (eng_control c e).2 = runs e;
  law_reload : forall context e n, (eng_reload context e).1 = Ok n ->
    runs (eng_reload context e).2 = ∅;
  law_shutdown : forall e, runs (eng_shutdown e).2 ⊆ runs e;
}.

Section SchedulerInv.
Context {E Payload : Type} `{EngineLaws E Payload}.
Context (limits : Limits) (sizeof_event sizeof_diff : Z).
Context (iter : gmap string (Request Payload) -> list string).

Abbreviation Event := (EngineEvent Payload).
Abbreviation State := (Sched E Payload).
Abbreviation Op := (M (Sched E Payload)).
Abbreviation reserve := (terminal_reserve sizeof_event).
Abbreviation ev_bytes := (total_bytes (Payload := Payload) sizeof_event sizeof_diff).
Abbreviation publish_with := (Scheduler.publish_with limits sizeof_event sizeof_diff).
Abbreviation publish_accepted := (Scheduler.publish_accepted limits sizeof_event sizeof_diff).
Abbreviation cancel := (Scheduler.cancel limits sizeof_event sizeof_diff).
Abbreviation publish := (Scheduler.publish limits sizeof_event sizeof_diff).
Abbreviation flush := (Scheduler.flush limits sizeof_event sizeof_diff).
Abbreviation flush_loop := (Scheduler.flush_loop (Payload := Payload) limits sizeof_event sizeof_diff).
Abbreviation deliver := (Scheduler.deliver (Payload := Payload) sizeof_event sizeof_diff).

Implicit Types (r : Request Payload) (x : Outbox Payload) (s : State) (ev : Event).

Definition ended (ev : Event) : bool := terminal (ev_data ev).
Definition ordinary (ev : Event) : Prop := ended ev = false.

(** ** Well-formed outboxes and requests *)

(** All the events a request has delivered, in order. *)
Definition stream (x : Outbox Payload) : list Event := ob_taken x ++ ob_events x.

Record box_ok (x : Outbox Payload) : Prop := {
  bx_bytes : ob_bytes x = Zsum ev_bytes (ob_events x);
  bx_stream :
    if ob_terminal x
    then exists l t, stream x = l ++ [t] /\ Forall ordinary l /\ ended t = true
    else Forall ordinary (stream x);
  bx_room :
    if ob_terminal x
    then size_of (ob_events x) <= limit_events limits /\ ob_bytes x <= limit_bytes limits
    else size_of (ob_events x) <= limit_events limits - 1 /\
         ob_bytes x <= limit_bytes limits - reserve;
}.

(** An event that fits: an ordinary one in the budget, a terminal one in the
    reserve. *)
Definition fits (ev : Event) : Prop :=
  if ended ev then ev_bytes ev <= reserve
  else ev_bytes ev <= limit_bytes limits - reserve.

(** What waits ends with the terminal event when the request is finished. *)
Definition pending_ok (fin : bool) (p : list Event) : Prop :=
  if fin then exists l t, p = l ++ [t] /\ Forall ordinary l /\ ended t = true
  else Forall ordinary p.

Record request_ok (id : string) (r : Request Payload) (x : Outbox Payload) : Prop := {
  rq_id : req_id (input r) = id;
  rq_size : str_size id <= 128;
  rq_events : Forall (fun ev => ev_id ev = id /\ fits ev) (pending r);
  rq_pending :
    if ob_terminal x then finished r = true /\ pending r = []
    else pending_ok (finished r) (pending r);
}.

Record core (s : State) : Prop := {
  co_req : forall id r, requests s !! id = Some r ->
    exists x, boxes s !! outbox r = Some x /\ request_ok id r x;
  co_inj : forall i j ri rj, requests s !! i = Some ri -> requests s !! j = Some rj ->
    outbox ri = outbox rj -> i = j;
  co_box : Forall box_ok (boxes s);
  co_sessions : forall i j ri rj, requests s !! i = Some ri -> requests s !! j = Some rj ->
    req_session (input ri) <> ""%string -> req_session (input ri) = req_session (input rj) -> i = j;
}.

Definition keys (s : State) : Prop :=
  NoDup (order s) /\ forall id, id ∈ order s <-> is_Some (requests s !! id).

(** The engine only runs admitted requests that are not finished. *)
Definition owned (s : State) : Prop :=
  healthy s = true -> forall id, id ∈ runs (engine s) ->
  exists r, requests s !! id = Some r /\ admitted r = true /\ finished r = false.

(** The outbox of [r] has received its terminal event. *)
Definition has_terminal (s : State) (r : Request Payload) : Prop :=
  exists x, boxes s !! outbox r = Some x /\ ob_terminal x = true.

(** How an operation may change the state; [F] are the admitted requests it may
    finish. *)
Record evolves (F : string -> Prop) (s s' : State) : Prop := {
  ev_order : order s' = order s;
  ev_healthy : healthy s' = healthy s;
  ev_reload : reload s' = reload s;
  ev_duplex : duplex_active s' = duplex_active s;
  ev_runs : runs (engine s') = runs (engine s);
  ev_halted : halted (engine s) ⊆ halted (engine s');
  ev_requests : forall id,
    match requests s !! id, requests s' !! id with
    | Some r, Some r' =>
        input r' = input r /\ outbox r' = outbox r /\ admitted r' = admitted r /\
        (finished r' = true ->
           finished r = true \/ F id \/ (admitted r = false /\ has_terminal s' r'))
    | None, None => True
    | _, _ => False
    end;
  ev_boxes : forall b,
    match boxes s !! b, boxes s' !! b with
    | Some x, Some x' => ob_terminal x = true -> ob_terminal x' = true
    | None, None => True
    | _, _ => False
    end;
}.

Lemma evolves_refl F s : evolves F s s.
Proof.
  split; try done.
  - intros id. destruct (requests s !! id); [|done]. tauto.
  - intros b. by destruct (boxes s !! b).
Qed.

Lemma has_terminal_mono s s' r r' :
  (forall b, match boxes s !! b, boxes s' !! b with
             | Some x, Some x' => ob_terminal x = true -> ob_terminal x' = true
             | None, None => True
             | _, _ => False
             end) ->
  outbox r' = outbox r -> has_terminal s r -> has_terminal s' r'.
Proof.
  intros Hb Ho (x & Hx & Ht). specialize (Hb (outbox r)). rewrite Hx in Hb.
  destruct (boxes s' !! outbox r) as [x'|] eqn:Hx'; [|done].
  exists x'. rewrite Ho. auto.
Qed.

Lemma evolves_trans (F1 F2 F : string -> Prop) a b c :
  evolves F1 a b -> evolves F2 b c -> (forall id, F1 id \/ F2 id -> F id) -> evolves F a c.
Proof.
  intros [? ? ? ? ? ? Hr1 Hb1] [? ? ? ? ? ? Hr2 Hb2] HF.
  split; try (etrans; eassumption).
  - intros id. specialize (Hr1 id). specialize (Hr2 id).
    destruct (requests a !! id) as [ra|], (requests b !! id) as [rb|],
      (requests c !! id) as [rc|]; try done.
    destruct Hr1 as (? & ? & Ha & Hf1), Hr2 as (? & Ho & ? & Hf2).
    do 3 (split; [etrans; eassumption|]). intros Hf. destruct (Hf2 Hf) as [Hx|[Hx|[Hx Hc]]].
    + destruct (Hf1 Hx) as [|[|[? Hc]]]; [auto|auto|right; right].
      split; [done|]. by eapply has_terminal_mono.
    + auto.
    + rewrite Ha in Hx. auto.
  - intros n. specialize (Hb1 n). specialize (Hb2 n).
    destruct (boxes a !! n), (boxes b !! n), (boxes c !! n); try done. auto.
Qed.

Lemma evolves_then (F : string -> Prop) a b c :
  evolves (fun _ => False) a b -> evolves F b c -> evolves F a c.
Proof. intros Hab Hbc. eapply evolves_trans; [exact Hab|exact Hbc|]. intuition. Qed.

Lemma evolves_mono (F1 F2 : string -> Prop) a b :
  evolves F1 a b -> (forall id, F1 id -> F2 id) -> evolves F2 a b.
Proof. intros Hab HF. eapply (evolves_trans F1 F1); [exact Hab|apply evolves_refl|]. intuition. Qed.

Lemma evolves_some F s s' id r :
  evolves F s s' -> requests s !! id = Some r -> exists r', requests s' !! id = Some r' /\
    input r' = input r /\ outbox r' = outbox r /\ admitted r' = admitted r /\
    (finished r' = true ->
       finished r = true \/ F id \/ (admitted r = false /\ has_terminal s' r')).
Proof.
  intros He Hr. pose proof (ev_requests _ _ _ He id) as Hi. rewrite Hr in Hi.
  destruct (requests s' !! id) as [r'|]; [|done]. by exists r'.
Qed.

Lemma evolves_dom F s s' id :
  evolves F s s' -> is_Some (requests s' !! id) <-> is_Some (requests s !! id).
Proof.
  intros He. pose proof (ev_requests _ _ _ He id) as Hi.
  destruct (requests s !! id), (requests s' !! id); try done; split; intros [? ?]; eauto; done.
Qed.

Lemma evolves_keys F s s' : evolves F s s' -> keys s -> keys s'.
Proof.
  intros He [Hn Hk]. unfold keys. rewrite (ev_order _ _ _ He). split; [done|].
  intros id. rewrite Hk. symmetry. by eapply evolves_dom.
Qed.

Lemma evolves_owned F s s' :
  evolves F s s' -> owned s -> (forall id, F id -> id ∉ runs (engine s)) -> owned s'.
Proof.
  intros He Ho HF. unfold owned. rewrite (ev_healthy _ _ _ He), (ev_runs _ _ _ He).
  intros Hh id Hid. destruct (Ho Hh id Hid) as (r & Hr & Ha & Hf).
  destruct (evolves_some _ _ _ _ _ He Hr) as (r' & Hr' & _ & _ & Ha' & Hf').
  exists r'. split; [done|]. split; [congruence|]. apply not_true_iff_false. intros Ht.
  destruct (Hf' Ht) as [?|[Hx|[? _]]]; [congruence|by apply (HF id)|congruence].
Qed.

(** ** Updating one request and its outbox *)

Definition update (id : string) (r : Request Payload) (x : Outbox Payload) (s : State) : State :=
  put_box (outbox r) x (put_request id r s).

Lemma update_core id r x r' x' s :
  core s -> requests s !! id = Some r -> boxes s !! outbox r = Some x ->
  input r' = input r -> outbox r' = outbox r -> request_ok id r' x' -> box_ok x' ->
  core (update id r' x' s).
Proof.
  intros [Hreq Hinj Hbox Hses] Hr Hx Hin Hout Hok Hbok.
  pose proof (lookup_lt_Some _ _ _ Hx) as Hlt. split; simpl.
  - intros i ri Hi. apply lookup_insert_Some in Hi as [[<- <-]|[Hne Hi]].
    + exists x'. split; [|done]. rewrite Hout. by apply list_lookup_insert_eq.
    + destruct (Hreq i ri Hi) as (xi & Hxi & Hoki). exists xi. split; [|done].
      rewrite list_lookup_insert_ne; [done|]. rewrite Hout. intros Heq.
      apply Hne. by eapply Hinj.
  - intros i j ri rj Hi Hj.
    apply lookup_insert_Some in Hi as [[<- <-]|[? Hi]];
      apply lookup_insert_Some in Hj as [[<- <-]|[? Hj]]; try done; rewrite ?Hout; eauto.
  - apply Forall_insert; done.
  - intros i j ri rj Hi Hj.
    apply lookup_insert_Some in Hi as [[<- <-]|[? Hi]];
      apply lookup_insert_Some in Hj as [[<- <-]|[? Hj]]; try done; rewrite ?Hin; eauto.
Qed.

Lemma update_evolves (F : string -> Prop) id r x r' x' s :
  requests s !! id = Some r -> boxes s !! outbox r = Some x ->
  input r' = input r -> outbox r' = outbox r -> admitted r' = admitted r ->
  (finished r' = true -> finished r = true \/ F id) ->
  (ob_terminal x = true -> ob_terminal x' = true) ->
  evolves F s (update id r' x' s).
Proof.
  intros Hr Hx Hin Hout Ha Hf Ht. split; simpl; try done.
  - intros i. destruct (decide (i = id)) as [->|Hne].
    + rewrite Hr, lookup_insert_eq. tauto.
    + rewrite lookup_insert_ne by done. destruct (requests s !! i); tauto.
  - intros b. destruct (decide (b = outbox r')) as [->|Hne].
    + rewrite Hout, Hx, list_lookup_insert_eq by (by eapply lookup_lt_Some). done.
    + rewrite list_lookup_insert_ne by done. by destruct (boxes s !! b).
Qed.

(** Only the request changes. *)
Lemma put_request_update id r x r' s :
  boxes s !! outbox r = Some x -> outbox r' = outbox r ->
  put_request id r' s = update id r' x s.
Proof.
  intros Hx Ho. unfold update, put_request, put_box, set_boxes, set_requests. simpl.
  rewrite Ho, list_insert_id by done. done.
Qed.

Lemma update_update id r1 x1 r2 x2 s :
  outbox r2 = outbox r1 -> update id r2 x2 (update id r1 x1 s) = update id r2 x2 s.
Proof.
  intros Ho. unfold update, put_request, put_box, set_boxes, set_requests. simpl.
  by rewrite Ho, insert_insert_eq, list_insert_insert_eq.
Qed.

Lemma update_lookup id r x s :
  requests (update id r x s) !! id = Some r.
Proof. simpl. apply lookup_insert_eq. Qed.

Lemma update_box id r x s :
  is_Some (boxes s !! outbox r) -> boxes (update id r x s) !! outbox r = Some x.
Proof. intros [y Hy]. simpl. apply list_lookup_insert_eq. by eapply lookup_lt_Some. Qed.

Hypothesis limits_ok : 4 <= limit_events limits /\ 0 <= sizeof_event /\ reserve <= limit_bytes limits.
#[local] Set Default Proof Using "Type H H0 limits_ok".

(** ** Clients draining their outboxes *)

Definition drained (x x' : Outbox Payload) : Prop :=
  ob_terminal x' = ob_terminal x /\ stream x' = stream x /\ (box_ok x -> box_ok x').

Lemma drained_box x : drained x (drain_box x).
Proof.
  split; [done|]. split; [unfold stream; simpl; by rewrite app_nil_r|].
  intros [Hb Hs Hr]. split; simpl; [done| |].
  - unfold stream in *. simpl. by rewrite app_nil_r.
  - unfold terminal_reserve in *. destruct (ob_terminal x); unfold size_of; simpl; lia.
Qed.

Lemma drained_refl x : drained x x.
Proof. done. Qed.

Lemma drained_trans x y z : drained x y -> drained y z -> drained x z.
Proof. intros (? & ? & ?) (? & ? & ?). split; [by etrans|]. split; [by etrans|auto]. Qed.

Lemma Forall2_drained_refl l : Forall2 drained l l.
Proof. induction l; constructor; [apply drained_refl|done]. Qed.

Lemma Forall2_drained_trans l1 l2 l3 :
  Forall2 drained l1 l2 -> Forall2 drained l2 l3 -> Forall2 drained l1 l3.
Proof.
  intros H12. revert l3. induction H12; intros l3 H23; inversion H23; subst; constructor; auto.
  by eapply drained_trans.
Qed.

Lemma drain_eq b s : exists l, drain b s = set_boxes l s /\ Forall2 drained (boxes s) l.
Proof.
  unfold drain. destruct (boxes s !! b) as [x|] eqn:Hx; [destruct (wait_ready x)|].
  - exists (<[b := drain_box x]> (boxes s)). split; [done|].
    rewrite <- (list_insert_id (boxes s) b x) at 1 by done.
    apply Forall2_insert; [apply Forall2_drained_refl|apply drained_box].
  - exists (boxes s). split; [by destruct s|apply Forall2_drained_refl].
  - exists (boxes s). split; [by destruct s|apply Forall2_drained_refl].
Qed.

Lemma drains_eq d : forall s,
  exists l, foldl (fun s b => drain b s) s d = set_boxes l s /\ Forall2 drained (boxes s) l.
Proof.
  induction d as [|b d IH]; intros s; simpl.
  { exists (boxes s). split; [by destruct s|apply Forall2_drained_refl]. }
  destruct (drain_eq b s) as (l & -> & Hl). destruct (IH (set_boxes l s)) as (l' & -> & Hl').
  exists l'. split; [done|]. by eapply Forall2_drained_trans.
Qed.

(** [yield] changes only the outboxes and the environment. *)
Lemma yield_eq s : exists e l, yield s = (Ok tt, set_env e (set_boxes l s)) /\
  Forall2 drained (boxes s) l.
Proof.
  unfold yield. unfold modify. destruct (env s) as [|d rest] eqn:He.
  { exists [], (boxes s). split; [|apply Forall2_drained_refl]. rewrite <- He. by destruct s. }
  destruct (drains_eq d (set_env rest s)) as (l & Heq & Hl). rewrite Heq.
  by exists rest, l.
Qed.

Lemma drained_core e l s : core s -> Forall2 drained (boxes s) l -> core (set_env e (set_boxes l s)).
Proof.
  intros [Hreq Hinj Hbox Hses] Hl. split; simpl; try done.
  - intros id r Hr. destruct (Hreq id r Hr) as (x & Hx & [H1 H2 H3 H4]).
    destruct (Forall2_lookup_l _ _ _ _ _ Hl Hx) as (x' & Hx' & Ht & _).
    exists x'. split; [done|]. split; [done..|]. by rewrite Ht.
  - apply Forall_lookup. intros i x' Hx'.
    destruct (Forall2_lookup_r _ _ _ _ _ Hl Hx') as (x & Hx & _ & _ & Hok).
    apply Hok. by eapply Forall_lookup.
Qed.

Lemma drained_evolves F e l s : Forall2 drained (boxes s) l -> evolves F s (set_env e (set_boxes l s)).
Proof.
  intros Hl. split; simpl; try done.
  - intros id. destruct (requests s !! id); tauto.
  - intros b. destruct (boxes s !! b) as [x|] eqn:Hx.
    + destruct (Forall2_lookup_l _ _ _ _ _ Hl Hx) as (x' & -> & Ht & _). congruence.
    + destruct (l !! b) as [x'|] eqn:Hx'; [|done].
      destruct (Forall2_lookup_r _ _ _ _ _ Hl Hx') as (x & Hx2 & _). congruence.
Qed.

(** ** Bounds of terminal events *)

Lemma substring_length n : forall (t : string), (String.length (String.substring 0 n t) <= n)%nat.
Proof. induction n as [|n IH]; intros [|c t]; simpl; try lia. specialize (IH t). lia. Qed.

Lemma truncate_terminal (d : EventData Payload) : terminal (truncate d) = terminal d.
Proof. by destruct d. Qed.

Lemma truncate_fits id (d : EventData Payload) :
  str_size id <= 128 -> terminal d = true ->
  ev_bytes {| ev_id := id; ev_data := truncate d |} <= reserve.
Proof.
  intros Hid Ht. unfold total_bytes, event_bytes, terminal_reserve, str_size, resize_min in *.
  destruct d as [| | |reason p| |f]; try done; cbn [truncate ev_data ev_id code message];
    unfold resize_min.
  - pose proof (substring_length 64 reason). lia.
  - lia.
  - pose proof (substring_length 64 (code f)). pose proof (substring_length 512 (message f)). lia.
Qed.

(** ** [publish] *)

Lemma request_at_ok id s r : requests s !! id = Some r -> request_at id s = (Ok r, s).
Proof. intros Hr. unfold request_at. by rewrite Hr. Qed.

Lemma box_at_ok b s x : boxes s !! b = Some x -> box_at b s = (Ok x, s).
Proof. intros Hx. unfold box_at. by rewrite Hx. Qed.

(** The event that goes out for [ev]: the failure recorded for the request
    replaces it, and its text is cut to size. *)
Definition outgoing (r : Request Payload) (ev : Event) : Event :=
  {| ev_id := ev_id ev;
     ev_data := truncate (match failure r with Some f => FailedEvent f | None => ev_data ev end) |}.

Lemma outgoing_ended r ev :
  bool_decide (is_Some (failure r)) && negb (ended ev) = false ->
  ended (outgoing r ev) = ended ev.
Proof.
  unfold ended, outgoing. simpl. rewrite truncate_terminal.
  destruct (failure r); [|done]. rewrite bool_decide_true by eauto. simpl.
  by destruct (terminal (ev_data ev)).
Qed.

Lemma publish_exec c id ev s s1 r x :
  yield s = (Ok tt, s1) -> requests s1 !! id = Some r -> boxes s1 !! outbox r = Some x ->
  publish_with c id ev s =
  if ob_terminal x then (Ok tt, s1)
  else
    let r1 := set_finished (finished r || ended ev) r in
    if bool_decide (is_Some (failure r)) && negb (ended ev) then (Ok tt, put_request id r1 s1)
    else
      let ev' := outgoing r ev in
      if negb (ended ev) && (limit_bytes limits - reserve <? ev_bytes ev')
      then c id (put_request id (set_failure (Some output_limit) r1) (put_request id r1 s1))
      else if negb (bool_decide (pending r = [])) ||
              (negb (ended ev) && no_room limits sizeof_event (ev_bytes ev') x)
      then (Ok tt, put_request id (set_pending (pending r ++ [ev']) r1) (put_request id r1 s1))
      else (Ok tt, put_box (outbox r) (deliver ev' x) (put_request id r1 s1)).
Proof.
  intros Hy Hr Hx. unfold Scheduler.publish_with. rewrite (bind_ok _ _ _ _ _ Hy).
  rewrite (bind_ok _ _ _ _ _ (request_at_ok _ _ _ Hr)).
  rewrite (bind_ok _ _ _ _ _ (box_at_ok _ _ _ Hx)).
  destruct (ob_terminal x); [done|]. rewrite bind_modify. cbv zeta. cbn [failure set_finished pending outbox].
  destruct (bool_decide (is_Some (failure r)) && negb (terminal (ev_data ev))) eqn:E1.
  { unfold ended. by rewrite E1. }
  unfold ended. rewrite E1. fold (outgoing r ev).
  destruct (negb (terminal (ev_data ev)) && _) eqn:E2; [by rewrite bind_modify|].
  by destruct (_ || _).
Qed.

(** What delivering an event does to a box that is not terminal. *)
Lemma deliver_ok ev x :
  box_ok x -> ob_terminal x = false -> fits ev ->
  (ended ev = false -> no_room limits sizeof_event (ev_bytes ev) x = false) ->
  box_ok (deliver ev x).
Proof.
  intros [Hb Hs Hr] Ht Hf Hroom. rewrite Ht in Hs, Hr. unfold fits in Hf.
  assert (stream (deliver ev x) = stream x ++ [ev]) as Hst
    by (unfold stream; simpl; by rewrite app_assoc).
  split.
  - simpl. rewrite Zsum_app, Hb. unfold Zsum at 3. simpl. lia.
  - rewrite Hst. simpl. fold (ended ev). destruct (ended ev) eqn:He; [by exists (stream x), ev|].
    apply Forall_app. split; [done|]. by constructor.
  - simpl. fold (ended ev). rewrite size_of_app. unfold size_of at 2 4. simpl.
    destruct (ended ev) eqn:He.
    + unfold terminal_reserve in *. lia.
    + specialize (Hroom eq_refl). unfold no_room in Hroom.
      apply orb_false_iff in Hroom as [H1%Z.leb_gt H2%Z.ltb_ge]. lia.
Qed.

(** A [cancel] that [publish] may call. *)
Definition cancels (c : string -> Op unit) : Prop := forall id s r,
  core s -> requests s !! id = Some r -> finished r = false ->
  exists s', c id s = (Ok tt, s') /\ core s' /\ evolves (fun _ => False) s s'.

(** The request is gone from the client's point of view. *)
Definition box_closed (id : string) (s : State) : Prop :=
  exists r x, requests s !! id = Some r /\ boxes s !! outbox r = Some x /\ ob_terminal x = true.

Definition publishable (id : string) (s : State) : Prop :=
  (exists r, requests s !! id = Some r /\ finished r = false) \/ box_closed id s.

Lemma request_box id r s : core s -> requests s !! id = Some r ->
  exists x, boxes s !! outbox r = Some x /\ request_ok id r x /\ box_ok x.
Proof.
  intros Hc Hr. destruct (co_req _ Hc id r Hr) as (x & Hx & Hok).
  exists x. split; [done|]. split; [done|]. pose proof (co_box _ Hc) as Hb.
  rewrite Forall_lookup in Hb. by eapply Hb.
Qed.

(** An unfinished request whose box is open, in the drained state. *)
Lemma publish_open c id ev s s1 r x :
  cancels c -> core s1 -> yield s = (Ok tt, s1) ->
  requests s1 !! id = Some r -> boxes s1 !! outbox r = Some x ->
  ob_terminal x = false -> finished r = false -> ev_id ev = id ->
  exists s', publish_with c id ev s = (Ok tt, s') /\ core s' /\
    evolves (fun i => i = id /\ ended ev = true) s1 s' /\
    (ended ev = true -> pending r = [] -> box_closed id s').
Proof.
  intros Hc Hco Hy Hr Hx Ht Hfin Hid.
  destruct (request_box id r s1 Hco Hr) as (x0 & Hx0 & Hok & Hbok). simplify_eq.
  rewrite (publish_exec c (ev_id ev) ev s s1 r x Hy Hr Hx), Ht. cbv zeta. rewrite Hfin. cbn [orb].
  destruct Hok as [Hrid Hsz Hpe Hpo]. rewrite Ht in Hpo. unfold pending_ok in Hpo. rewrite Hfin in Hpo.
  set (r1 := set_finished (ended ev) r).
  destruct (bool_decide (is_Some (failure r)) && negb (ended ev)) eqn:Efl.
  { apply andb_true_iff in Efl as [_ He%negb_true_iff]. rewrite He in *.
    rewrite (put_request_update _ r x r1) by done. eexists. split; [done|]. split.
    { apply (update_core _ r x); try done. split; try done. rewrite Ht. unfold r1. by rewrite He. }
    split; [|done]. apply (update_evolves _ _ r x); try done. unfold r1. simpl. by rewrite He. }
  pose proof (outgoing_ended r ev Efl) as Hoe. set (ev' := outgoing r ev) in *.
  assert (fits ev' \/ (ended ev = false /\ limit_bytes limits - reserve < ev_bytes ev')) as Hfits.
  { unfold fits. rewrite Hoe. destruct (ended ev) eqn:He.
    - left. unfold ev', outgoing. apply truncate_fits; [done|]. rewrite <- truncate_terminal. exact Hoe.
    - destruct (Z.le_gt_cases (ev_bytes ev') (limit_bytes limits - reserve)); [by left|by right]. }
  destruct (negb (ended ev) && (limit_bytes limits - reserve <? ev_bytes ev')) eqn:Eov.
  { apply andb_true_iff in Eov as [He%negb_true_iff _]. rewrite He in *.
    set (r2 := set_failure (Some output_limit) r1).
    rewrite (put_request_update _ r x r1) by done.
    rewrite (put_request_update _ r1 x r2) by (done || (apply update_box; eauto)).
    rewrite update_update by done.
    destruct (Hc (ev_id ev) (update (ev_id ev) r2 x s1) r2) as (s' & -> & Hcs & Hev).
    - apply (update_core _ r x); try done. split; try done. rewrite Ht. unfold r2, r1. by rewrite He.
    - apply update_lookup.
    - unfold r2, r1. simpl. done.
    - exists s'. split; [done|]. split; [done|]. split; [|done].
      assert (evolves (fun _ => False) s1 (update (ev_id ev) r2 x s1)) as Hup.
      { apply (update_evolves _ _ r x); try done. unfold r2, r1. simpl. by rewrite He. }
      eapply evolves_trans; [exact Hup|exact Hev|]. intros i [[]|[]]. }
  assert (fits ev') as Hfit.
  { destruct Hfits as [|[He Hlt]]; [done|]. rewrite He in Eov. simpl in Eov. apply Z.ltb_ge in Eov. lia. }
  assert (ev_id ev' = ev_id ev) as Hevid by done.
  destruct (negb (bool_decide (pending r = [])) || _) eqn:Epe.
  { set (r2 := set_pending (pending r ++ [ev']) r1).
    rewrite (put_request_update _ r x r1) by done.
    rewrite (put_request_update _ r1 x r2) by (done || (apply update_box; eauto)).
    rewrite update_update by done. eexists. split; [done|]. split; [|split].
    - apply (update_core _ r x); try done. split; try done.
      + apply Forall_app. split; [done|]. by constructor.
      + rewrite Ht. unfold pending_ok, r2, r1. simpl. destruct (ended ev).
        * by exists (pending r), ev'.
        * apply Forall_app. split; [done|]. by constructor.
    - apply (update_evolves _ _ r x); try done. unfold r2, r1. simpl. intros He. by right.
    - intros He Hp. rewrite He, bool_decide_true in Epe by done. done. }
  apply orb_false_iff in Epe as [Hp%negb_false_iff Hroom]. apply bool_decide_eq_true in Hp.
  change (put_box (outbox r) (deliver ev' x) (put_request (ev_id ev) r1 s1))
    with (update (ev_id ev) r1 (deliver ev' x) s1).
  eexists. split; [done|]. split; [|split].
  - apply (update_core _ r x); try done.
    + split; try done. change (ob_terminal (deliver ev' x)) with (ended ev'). rewrite Hoe.
      unfold r1. cbn [finished set_finished pending].
      destruct (ended ev); [done|]. unfold pending_ok. by rewrite Hp.
    + apply deliver_ok; [done|done|done|]. rewrite Hoe. intros He. by rewrite He in Hroom.
  - apply (update_evolves _ _ r x); try done; [|by rewrite Ht]. unfold r1. simpl. tauto.
  - intros He _. exists r1, (deliver ev' x). split; [apply update_lookup|]. split.
    + apply update_box. eauto.
    + change (ob_terminal (deliver ev' x)) with (ended ev'). by rewrite Hoe.
Qed.

Lemma publish_with_ok c id ev s :
  cancels c -> core s -> publishable id s -> ev_id ev = id ->
  exists s', publish_with c id ev s = (Ok tt, s') /\ core s' /\
    evolves (fun i => i = id /\ ended ev = true) s s' /\
    (ended ev = true -> (forall r, requests s !! id = Some r -> pending r = []) ->
     box_closed id s').
Proof.
  intros Hc Hco Hp Hid. destruct (yield_eq s) as (e & l & Hy & Hl).
  set (s1 := set_env e (set_boxes l s)) in *.
  pose proof (drained_core e l s Hco Hl) as Hco1. fold s1 in Hco1.
  assert (forall F, evolves F s s1) as Hev1 by (intros F; by apply drained_evolves).
  assert (forall r x, requests s !! id = Some r -> boxes s1 !! outbox r = Some x ->
    ob_terminal x = true -> exists s', publish_with c id ev s = (Ok tt, s') /\ core s' /\
    evolves (fun i => i = id /\ ended ev = true) s s' /\
    (ended ev = true -> (forall r, requests s !! id = Some r -> pending r = []) ->
     box_closed id s')) as Hclosed.
  { intros r x Hr Hx Ht. rewrite (publish_exec c id ev s s1 r x Hy Hr Hx), Ht.
    exists s1. split; [done|]. split; [done|]. split; [apply Hev1|].
    intros _ _. exists r, x. done. }
  assert (exists r, requests s !! id = Some r) as [r Hr].
  { destruct Hp as [(r & ? & _)|(r & x & ? & _)]; eauto. }
  destruct (request_box id r s1 Hco1 Hr) as (x & Hx & Hok & _).
  destruct (ob_terminal x) eqn:Ht; [by eapply Hclosed|].
  assert (finished r = false) as Hfin.
  { destruct Hp as [(r' & Hr' & Hf)|(r' & x' & Hr' & Hx' & Ht')]; [congruence|].
    assert (r' = r) as -> by congruence. exfalso. pose proof (ev_boxes _ _ _ (Hev1 (fun _ => True)) (outbox r)) as Hb.
    rewrite Hx', Hx in Hb. specialize (Hb Ht'). congruence. }
  destruct (publish_open c id ev s s1 r x Hc Hco1 Hy Hr Hx Ht Hfin Hid)
    as (s' & Heq & Hcs & Hev & Hcl).
  exists s'. split; [done|]. split; [done|]. split.
  - eapply evolves_trans; [apply (Hev1 (fun _ => False))|exact Hev|]. intros i [[]|]. done.
  - intros He Hpe. apply Hcl; [done|by apply Hpe].
Qed.

(** Re-publishing the terminal event that waits, alone, for its outbox. *)
Lemma publish_last c id r x l t s :
  core s -> requests s !! id = Some r -> boxes s !! outbox r = Some x ->
  ob_terminal x = false -> finished r = true -> pending r = l ++ [t] -> ended t = true ->
  exists s', publish_with c id t (put_request id (set_pending [] r) s) = (Ok tt, s') /\
    core s' /\ evolves (fun _ => False) s s' /\ box_closed id s'.
Proof.
  intros Hco Hr Hx Ht Hf Hp He. set (r0 := set_pending [] r). set (s0 := put_request id r0 s).
  destruct (yield_eq s0) as (e & bs & Hy & Hbs). change (boxes s0) with (boxes s) in Hbs.
  set (s1 := set_env e (set_boxes bs s)).
  pose proof (drained_core e bs s Hco Hbs) as Hco1. fold s1 in Hco1.
  change (set_env e (set_boxes bs s0)) with (put_request id r0 s1) in Hy.
  destruct (Forall2_lookup_l _ _ _ _ _ Hbs Hx) as (x1 & Hx1 & Ht1 & _).
  change bs with (boxes s1) in Hx1. rewrite Ht in Ht1.
  destruct (request_box id r s1 Hco1 Hr) as (x1' & Hx1' & [Hrid Hsz Hpe _] & Hbok).
  assert (x1' = x1) as -> by congruence.
  rewrite Hp in Hpe. apply Forall_app in Hpe as [_ Hpt]. apply Forall_cons in Hpt as [[Htid _] _].
  rewrite (publish_exec c _ t s0 (put_request id r0 s1) r0 x1 Hy);
    [|apply lookup_insert_eq|done].
  rewrite Ht1, He. cbn [negb andb orb]. rewrite andb_false_r. cbn [pending r0 set_pending].
  rewrite bool_decide_true by done. cbn [negb orb]. set (ev' := outgoing r0 t).
  assert (ended ev' = true) as Hev'.
  { unfold ev'. rewrite outgoing_ended; [done|]. rewrite He. apply andb_false_r. }
  set (r1 := set_finished (finished r0 || true) r0).
  assert (put_box (outbox r0) (deliver ev' x1) (put_request id r1 (put_request id r0 s1)) =
          update id r1 (deliver ev' x1) s1) as ->.
  { unfold update, put_request, set_requests. simpl. by rewrite insert_insert_eq. }
  assert (fits ev') as Hfit.
  { unfold fits. rewrite Hev'. apply truncate_fits; [congruence|].
    rewrite <- truncate_terminal. exact Hev'. }
  assert (forall b, finished r0 || b = true) as Hfr by (intros b; simpl; by rewrite Hf).
  eexists. split; [done|]. split; [|split].
  - apply (update_core id r x1); try done.
    + split; try done; try by constructor. change (ob_terminal (deliver ev' x1)) with (ended ev').
      rewrite Hev'. split; [apply Hfr|done].
    + apply deliver_ok; [done|done|done|]. congruence.
  - eapply evolves_trans; [apply (drained_evolves (fun _ => False) e bs s Hbs)| |].
    + apply (update_evolves (fun _ => False) id r x1); try done; by left.
    + intros i [[]|[]].
  - exists r1, (deliver ev' x1). split; [apply update_lookup|]. split.
    + apply update_box. eauto.
    + exact Hev'.
Qed.

(** ** [cancel] *)

Lemma box_closed_finished id s r :
  core s -> box_closed id s -> requests s !! id = Some r -> finished r = true /\ pending r = [].
Proof.
  intros Hco (r' & x & Hr & Hx & Ht) Hr'. assert (r' = r) as -> by congruence.
  destruct (co_req _ Hco id r Hr) as (x' & Hx' & Hok). assert (x' = x) as -> by congruence.
  pose proof (rq_pending _ _ _ Hok) as Hp. by rewrite Ht in Hp.
Qed.

(** What holds of a request after [cancel]: a finished one is closed. *)
Definition settled (id : string) (s : State) : Prop :=
  forall r, requests s !! id = Some r ->
    (finished r = true -> box_closed id s) /\ (finished r = true \/ cancelling r = true).

Lemma set_engine_core e s : core s -> core (set_engine e s).
Proof. intros []. by split. Qed.

Lemma set_engine_evolves F e s :
  runs e = runs (engine s) -> halted (engine s) ⊆ halted e -> evolves F s (set_engine e s).
Proof.
  intros. split; simpl; try done.
  - intros id. destruct (requests s !! id); tauto.
  - intros b. by destruct (boxes s !! b).
Qed.

Lemma cancel_with_ok c id s r :
  cancels c -> core s -> requests s !! id = Some r ->
  exists s', cancel_with (publish_with c) id s = (Ok tt, s') /\ core s' /\
    evolves (fun _ => False) s s' /\ settled id s'.
Proof.
  intros Hc Hco Hr. unfold cancel_with.
  rewrite (bind_ok _ _ _ _ _ (request_at_ok _ _ _ Hr)).
  destruct (request_box id r s Hco Hr) as (x & Hx & Hok & Hbok).
  assert (id = req_id (input r)) as Hid by (symmetry; apply Hok).
  destruct (finished r) eqn:Hf.
  { pose proof (rq_pending _ _ _ Hok) as Hp. destruct (ob_terminal x) eqn:Ht.
    - destruct Hp as [_ Hp]. rewrite Hp. cbn. exists s. split; [done|]. split; [done|].
      split; [apply evolves_refl|]. intros r' Hr'. assert (r' = r) as -> by congruence.
      split; [|by left]. intros _. by exists r, x.
    - unfold pending_ok in Hp. rewrite Hf in Hp. destruct Hp as (l & t & Hp & _ & He).
      rewrite (proj2 (pop_back_Some _ _ _) Hp), bind_modify.
      destruct (publish_last c id r x l t s Hco Hr Hx Ht Hf Hp He) as (s' & Heq & Hcs & Hev & Hcl).
      exists s'. split; [done|]. split; [done|]. split; [done|]. intros r' Hr'.
      destruct (box_closed_finished id s' r' Hcs Hcl Hr'). split; [done|by left]. }
  destruct (cancelling r) eqn:Hcg.
  { exists s. split; [done|]. split; [done|]. split; [apply evolves_refl|].
    intros r' Hr'. assert (r' = r) as -> by congruence. rewrite Hf. split; [done|by right]. }
  rewrite bind_modify. set (r2 := set_pending [] (set_cancelling true r)).
  rewrite (put_request_update id r x r2) by done.
  destruct Hok as [Hrid Hsz Hpe Hpo]. rewrite Hf in Hpo.
  destruct (ob_terminal x) eqn:Ht; [by destruct Hpo|].
  assert (core (update id r2 x s)) as Hco2.
  { apply (update_core id r x); try done. split; try done; try by constructor. rewrite Ht.
    unfold pending_ok, r2. simpl. by rewrite Hf. }
  assert (evolves (fun _ => False) s (update id r2 x s)) as Hev2.
  { apply (update_evolves _ id r x); try done. unfold r2. simpl. congruence. }
  assert (finished r2 = false) as Hf2 by done. assert (cancelling r2 = true) as Hc2 by done.
  change (admitted r2) with (admitted r). destruct (admitted r) eqn:Ha.
  - unfold call. destruct (law_cancel (req_id (input r2)) (engine (update id r2 x s)))
      as (e' & Heq & Hru & Hha & _). rewrite Heq.
    exists (set_engine e' (update id r2 x s)). split; [done|]. split; [by apply set_engine_core|].
    split.
    + eapply evolves_trans; [exact Hev2|apply (set_engine_evolves (fun _ => False)); [done|]|].
      * exact Hha.
      * intros i [[]|[]].
    + intros r' Hr'. change (requests (update id r2 x s) !! id = Some r') in Hr'.
      rewrite update_lookup in Hr'. injection Hr' as <-. rewrite Hf2. split; [done|by right].
  - destruct (publish_with_ok c id {| ev_id := req_id (input r2); ev_data := Cancelled None |}
      (update id r2 x s) Hc Hco2) as (s' & Heq & Hcs & Hev & Hcl).
    + left. exists r2. split; [apply update_lookup|done].
    + done.
    + exists s'. split; [done|]. split; [done|].
      assert (box_closed id s') as Hbc.
      { apply Hcl; [done|]. intros r' Hr'. rewrite update_lookup in Hr'. by injection Hr' as <-. }
      split; [|intros r' Hr'; destruct (box_closed_finished id s' r' Hcs Hbc Hr'); split; [done|by left]].
      (* the request is not admitted, so it may finish *)
      destruct Hev as [Hv1 Hv2 Hv3 Hv4 Hv5 Hv6 Hv7 Hv8].
      eapply (evolves_trans (fun _ => False) (fun _ => False)); [exact Hev2| |intros i [[]|[]]].
      split; try done. intros i. specialize (Hv7 i).
      destruct (requests (update id r2 x s) !! i) as [ri|] eqn:Hri,
        (requests s' !! i) as [ri'|] eqn:Hri'; try done.
      destruct Hv7 as (? & ? & ? & Hfi). do 3 (split; [done|]). intros Hft.
      destruct (Hfi Hft) as [|[[-> _]|]]; [by left| |by right; right].
      right. right. rewrite update_lookup in Hri. injection Hri as <-. split; [done|].
      destruct Hbc as (r3 & x3 & Hr3 & Hx3 & Ht3). assert (r3 = ri') as -> by congruence.
      by exists x3.
Qed.

Lemma cancels_accepted : cancels (fun _ => mret tt).
Proof.
  intros id s r Hco _ _. exists s. split; [done|]. split; [done|apply evolves_refl].
Qed.

Lemma cancel_ok id s r :
  core s -> requests s !! id = Some r ->
  exists s', cancel id s = (Ok tt, s') /\ core s' /\ evolves (fun _ => False) s s' /\
    settled id s'.
Proof. apply cancel_with_ok, cancels_accepted. Qed.

Lemma cancels_cancel : cancels cancel.
Proof.
  intros id s r Hco Hr _. destruct (cancel_ok id s r Hco Hr) as (s' & ? & ? & ? & _).
  by exists s'.
Qed.

Lemma publish_ok id ev s :
  core s -> publishable id s -> ev_id ev = id ->
  exists s', publish id ev s = (Ok tt, s') /\ core s' /\
    evolves (fun i => i = id /\ ended ev = true) s s' /\
    (ended ev = true -> (forall r, requests s !! id = Some r -> pending r = []) ->
     box_closed id s').
Proof. apply publish_with_ok, cancels_cancel. Qed.

(** ** [flush] and [expire] *)

Lemma flush_loop_ok fin p : forall x,
  box_ok x -> Forall fits p ->
  (if ob_terminal x then fin = true /\ p = [] else pending_ok fin p) ->
  let '(p', x') := flush_loop p x in
  box_ok x' /\ (if ob_terminal x' then fin = true /\ p' = [] else pending_ok fin p') /\
  (exists k, p = k ++ p') /\ (ob_terminal x = true -> ob_terminal x' = true).
Proof.
  induction p as [|ev p IH]; intros x Hx Hf Hp; cbn [Scheduler.flush_loop].
  { do 2 (split; [done|]). split; [by exists []|done]. }
  destruct (ob_terminal x) eqn:Ht; [by destruct Hp|].
  apply Forall_cons in Hf as [Hfe Hf]. fold (ended ev).
  destruct (negb (ended ev) && no_room limits sizeof_event (ev_bytes ev) x) eqn:Er.
  { rewrite Ht. do 2 (split; [done|]). split; [by exists []|done]. }
  assert (box_ok (deliver ev x)) as Hd.
  { apply deliver_ok; [done|done|done|]. intros He. rewrite He in Er. done. }
  assert (if ob_terminal (deliver ev x) then fin = true /\ p = [] else pending_ok fin p) as Hp'.
  { change (ob_terminal (deliver ev x)) with (ended ev). unfold pending_ok in *.
    destruct fin.
    - destruct Hp as (l & t & Hl & Hord & He). destruct l as [|e l]; simplify_eq/=.
      + by rewrite He.
      + apply Forall_cons in Hord as [Ho Hord]. rewrite Ho. by exists l, t.
    - apply Forall_cons in Hp as [Ho Hp]. by rewrite Ho. }
  specialize (IH (deliver ev x) Hd Hf Hp').
  destruct (flush_loop p (deliver ev x)) as [p' x']. destruct IH as (H1 & H2 & [k Hk] & _).
  do 2 (split; [done|]). split; [exists (ev :: k); by rewrite Hk|congruence].
Qed.

Lemma flush_ok id s r :
  core s -> requests s !! id = Some r ->
  exists s', flush id s = (Ok tt, s') /\ core s' /\ evolves (fun _ => False) s s'.
Proof.
  intros Hco Hr. destruct (yield_eq s) as (e & l & Hy & Hl).
  set (s1 := set_env e (set_boxes l s)) in *.
  pose proof (drained_core e l s Hco Hl) as Hco1. fold s1 in Hco1.
  destruct (request_box id r s1 Hco1 Hr) as (x & Hx & [Hrid Hsz Hpe Hpo] & Hbok).
  unfold Scheduler.flush. rewrite (bind_ok _ _ _ _ _ Hy).
  rewrite (bind_ok _ _ _ _ _ (request_at_ok id s1 r Hr)).
  rewrite (bind_ok _ _ _ _ _ (box_at_ok _ _ _ Hx)).
  pose proof (flush_loop_ok (finished r) (pending r) x Hbok) as Hfl.
  destruct (flush_loop (pending r) x) as [p' x'].
  destruct Hfl as (Hb' & Hp' & [k Hk] & Ht').
  { eapply Forall_impl; [exact Hpe|]. by intros ? [_ ?]. } { done. }
  eexists. split; [done|].
  change (put_box (outbox r) x' (put_request id (set_pending p' r) s1))
    with (update id (set_pending p' r) x' s1).
  split.
  - apply (update_core id r x); try done. split; try done. simpl. rewrite Hk in Hpe.
    by apply Forall_app in Hpe as [_ ?].
  - eapply evolves_then; [by apply (drained_evolves _ e l s)|].
    apply (update_evolves _ id r x); try done. by left.
Qed.

Lemma expire_ok id s r :
  core s -> requests s !! id = Some r ->
  exists s', expire limits sizeof_event sizeof_diff id s = (Ok tt, s') /\ core s' /\
    evolves (fun _ => False) s s'.
Proof.
  intros Hco Hr. unfold expire. rewrite (bind_ok _ _ _ _ _ (request_at_ok _ _ _ Hr)).
  destruct (cancelling r || finished r) eqn:Efin.
  { exists s. split; [done|]. split; [done|apply evolves_refl]. }
  rewrite bind_modify. destruct (request_box id r s Hco Hr) as (x & Hx & [Hrid Hsz Hpe Hpo] & Hbok).
  set (r2 := set_failure (Some deadline_exceeded) r). rewrite (put_request_update id r x r2) by done.
  assert (core (update id r2 x s)) as Hco2 by (by apply (update_core id r x)).
  destruct (cancel_ok id (update id r2 x s) r2 Hco2 (update_lookup _ _ _ _))
    as (s' & -> & Hcs & Hev & _).
  exists s'. split; [done|]. split; [done|].
  eapply evolves_then; [|exact Hev].
  apply (update_evolves _ id r x); try done. by left.
Qed.

(** ** Visits *)

(** What also holds when a request is admitted. *)
Record moves (F : string -> Prop) (s s' : State) : Prop := {
  mv_order : order s' = order s;
  mv_healthy : healthy s' = healthy s;
  mv_reload : reload s' = reload s;
  mv_duplex : duplex_active s' = duplex_active s;
  mv_requests : forall id,
    match requests s !! id, requests s' !! id with
    | Some r, Some r' =>
        input r' = input r /\ outbox r' = outbox r /\
        (finished r' = true -> finished r = true \/ F id \/ has_terminal s' r')
    | None, None => True
    | _, _ => False
    end;
  mv_boxes : forall b,
    match boxes s !! b, boxes s' !! b with
    | Some x, Some x' => ob_terminal x = true -> ob_terminal x' = true
    | None, None => True
    | _, _ => False
    end;
}.

Lemma evolves_moves F s s' : evolves F s s' -> moves F s s'.
Proof.
  intros [? ? ? ? ? ? Hr ?]. split; try done. intros id. specialize (Hr id).
  destruct (requests s !! id), (requests s' !! id); tauto.
Qed.

Lemma moves_trans (F1 F2 F : string -> Prop) a b c :
  moves F1 a b -> moves F2 b c -> (forall id, F1 id \/ F2 id -> F id) -> moves F a c.
Proof.
  intros [? ? ? ? Hr1 Hb1] [? ? ? ? Hr2 Hb2] HF. split; try (etrans; eassumption).
  - intros id. specialize (Hr1 id). specialize (Hr2 id).
    destruct (requests a !! id), (requests b !! id), (requests c !! id); try done.
    destruct Hr1 as (? & ? & Hf1), Hr2 as (? & ? & Hf2).
    do 2 (split; [etrans; eassumption|]). intros Hf. destruct (Hf2 Hf) as [Hx|[Hx|Hx]]; auto.
    destruct (Hf1 Hx) as [|[|Hc]]; auto. right. right. by eapply has_terminal_mono.
  - intros n. specialize (Hb1 n). specialize (Hb2 n).
    destruct (boxes a !! n), (boxes b !! n), (boxes c !! n); try done. auto.
Qed.

Lemma moves_refl F s : moves F s s.
Proof. apply evolves_moves, evolves_refl. Qed.

Lemma moves_dom F s s' id : moves F s s' -> is_Some (requests s' !! id) <-> is_Some (requests s !! id).
Proof.
  intros He. pose proof (mv_requests _ _ _ He id) as Hi.
  destruct (requests s !! id), (requests s' !! id); try done; split; intros [? ?]; eauto; done.
Qed.

(** Every finished request of [l] is closed. *)
Definition all_closed (l : list string) (s : State) : Prop :=
  forall id r, id ∈ l -> requests s !! id = Some r -> finished r = true -> has_terminal s r.

Lemma all_closed_moves l s s' :
  moves (fun _ => False) s s' -> all_closed l s -> all_closed l s'.
Proof.
  intros Hm Ha id r' Hid Hr' Hf. pose proof (mv_requests _ _ _ Hm id) as Hq. rewrite Hr' in Hq.
  destruct (requests s !! id) as [r|] eqn:Hr; [|done]. destruct Hq as (_ & Ho & Hq).
  destruct (Hq Hf) as [Hx|[[]|Hx]]; [|done].
  eapply has_terminal_mono; [apply (mv_boxes _ _ _ Hm)|exact Ho|by eapply Ha].
Qed.

(** The result of an operation of the scheduling phase on request [id]. *)
Definition phase (id : string) (s s' : State) : Prop :=
  core s' /\ owned s' /\ moves (fun i => i = id /\ healthy s = true) s s' /\
  (healthy s = false -> all_closed [id] s').

Lemma test_eligible_ok id p s r :
  core s -> requests s !! id = Some r ->
  exists p' s', test_eligible limits sizeof_event id p s = (Ok p', s') /\ core s' /\
    evolves (fun _ => False) s s'.
Proof.
  intros Hco Hr. unfold test_eligible. rewrite (bind_ok _ _ _ _ _ (request_at_ok _ _ _ Hr)).
  destruct (negb (admitted r)); [exists p, s; split; [done|]; split; [done|apply evolves_refl]|].
  destruct (negb _); [exists p, s; split; [done|]; split; [done|apply evolves_refl]|].
  destruct (yield_eq s) as (e & l & Hy & Hl). rewrite (bind_ok _ _ _ _ _ Hy).
  pose proof (drained_core e l s Hco Hl) as Hco1.
  destruct (request_box id r _ Hco1 Hr) as (x & Hx & _).
  rewrite (bind_ok _ _ _ _ _ (box_at_ok _ _ _ Hx)). eexists _, _. split; [done|].
  split; [done|by apply drained_evolves].
Qed.

Lemma try_admit_ok id p s r :
  core s -> owned s -> healthy s = true -> requests s !! id = Some r ->
  admitted r = false -> finished r = false ->
  let '(o, s') := try_admit limits sizeof_event sizeof_diff id r p s in
  core s' /\ owned s' /\ moves (fun i => i = id) s s'.
Proof.
  intros Hco Ho Hh Hr Ha Hf. unfold try_admit.
  destruct (request_box id r s Hco Hr) as (x & Hx & Hok & Hbok).
  assert (id ∉ runs (engine s)) as Hnr.
  { intros Hid. destruct (Ho Hh id Hid) as (r' & Hr' & Ha' & _). congruence. }
  pose proof (law_admit (input r) (engine s)) as Hlaw. rewrite (rq_id _ _ _ Hok) in Hlaw.
  destruct (eng_admit (input r) (engine s)) as [[a|ex] e]; simpl in Hlaw.
  - set (ok := bool_decide (a = accepted)). set (r' := set_admitted ok r).
    change (put_request id r' (set_engine e s)) with (set_engine e (put_request id r' s)).
    rewrite (put_request_update id r x r') by done.
    assert (core (update id r' x s)) as Hcu.
    { apply (update_core id r x); try done. by destruct Hok. }
    split; [by apply set_engine_core|]. split.
    + intros _ i Hi. simpl in Hi. simpl.
      assert (i ∈ runs (engine s) \/ (i = id /\ ok = true)) as [Hi'|[-> Hok']].
      { unfold ok. destruct a; rewrite Hlaw in Hi; [|by left].
        apply elem_of_union in Hi as [->%elem_of_singleton|]; [by right|by left]. }
      * rewrite lookup_insert_ne by (intros <-; done). by apply Ho.
      * exists r'. rewrite lookup_insert_eq. done.
    + split; try done.
      * intros i. simpl. destruct (decide (i = id)) as [->|Hne].
        -- rewrite Hr, lookup_insert_eq. simpl. tauto.
        -- rewrite lookup_insert_ne by done. destruct (requests s !! i); tauto.
      * intros b. simpl. destruct (decide (b = outbox r)) as [->|Hne].
        -- rewrite Hx, list_lookup_insert_eq by (by eapply lookup_lt_Some). done.
        -- rewrite list_lookup_insert_ne by done. by destruct (boxes s !! b).
  - assert (runs e = runs (engine s)) as Hre by (by destruct ex).
    assert (owned (set_engine e s)) as Ho1.
    { unfold owned. simpl. rewrite Hre. apply Ho. }
    destruct (admission_failure ex) as [f|].
    + destruct (publish_ok id {| ev_id := id; ev_data := FailedEvent f |} (set_engine e s))
        as (s' & Heq & Hcs & Hev & _).
      { by apply set_engine_core. } { left. by exists r. } { done. }
      rewrite (bind_ok _ _ _ _ _ Heq). simpl. split; [done|]. split.
      * eapply evolves_owned; [exact Hev|done|]. intros i [-> _]. simpl. by rewrite Hre.
      * apply evolves_moves in Hev. destruct Hev as [? ? ? ? Hq ?]. split; try done.
        intros i. specialize (Hq i). simpl in Hq.
        destruct (requests s !! i), (requests s' !! i); try done.
        destruct Hq as (? & ? & Hq). split; [done|]. split; [done|]. intros Hft.
        destruct (Hq Hft) as [|[[? _]|]]; auto.
    + split; [by apply set_engine_core|]. split; [done|]. split; try done.
      * intros i. simpl. destruct (requests s !! i); tauto.
      * intros b. simpl. by destruct (boxes s !! b).
Qed.

Lemma visit_ok now stopping p id s :
  core s -> owned s -> is_Some (requests s !! id) ->
  phase id s (visit limits sizeof_event sizeof_diff now stopping p id s).2.
Proof.
  intros Hco Ho [r Hr]. unfold visit.
  destruct (flush_ok id s r Hco Hr) as (s1 & Hfl & Hc1 & Hev1).
  rewrite (bind_ok _ _ _ _ _ Hfl), bind_get.
  destruct (evolves_some _ _ _ _ _ Hev1 Hr) as (r1 & Hr1 & _).
  rewrite (bind_ok _ _ _ _ _ (request_at_ok _ _ _ Hr1)).
  assert (exists s2, (if stopping || negb (healthy s1) then cancel id
      else match req_deadline (input r1) with
           | Some d => if d <=? now id then expire limits sizeof_event sizeof_diff id else mret tt
           | None => mret tt
           end) s1 = (Ok tt, s2) /\ core s2 /\ evolves (fun _ => False) s1 s2 /\
      (healthy s1 = false -> settled id s2)) as (s2 & Hst & Hc2 & Hev2 & Hset).
  { destruct (stopping || negb (healthy s1)) eqn:Est.
    - destruct (cancel_ok id s1 r1 Hc1 Hr1) as (s2 & ? & ? & ? & ?). by exists s2.
    - apply orb_false_iff in Est as [_ Hh%negb_false_iff].
      destruct (req_deadline (input r1)) as [d|]; [destruct (d <=? now id)|].
      + destruct (expire_ok id s1 r1 Hc1 Hr1) as (s2 & ? & ? & ?). exists s2.
        do 3 (split; [done|]). congruence.
      + exists s1. do 2 (split; [done|]). split; [apply evolves_refl|congruence].
      + exists s1. do 2 (split; [done|]). split; [apply evolves_refl|congruence]. }
  rewrite (bind_ok _ _ _ _ _ Hst).
  assert (evolves (fun _ => False) s s2) as Hev12
    by (eapply evolves_then; [exact Hev1|exact Hev2]).
  assert (owned s2) as Ho2 by (eapply evolves_owned; [exact Hev12|done|done]).
  destruct (evolves_some _ _ _ _ _ Hev12 Hr) as (r2 & Hr2 & _).
  rewrite (bind_ok _ _ _ _ _ (request_at_ok _ _ _ Hr2)).
  pose proof (evolves_moves _ _ _ Hev12) as Hm12. rewrite (ev_healthy _ _ _ Hev1) in Hset.
  assert (forall s3, core s3 -> evolves (fun _ => False) s2 s3 -> phase id s s3) as Hdone.
  { intros s3 Hc3 Hev3. pose proof (evolves_moves _ _ _ Hev3) as Hm3.
    split; [done|]. split; [eapply evolves_owned; [exact Hev3|done|done]|]. split.
    - eapply moves_trans; [exact Hm12|exact Hm3|]. intros i [[]|[]].
    - intros Hh. eapply all_closed_moves; [exact Hm3|]. intros i ri Hi Hri Hf.
      apply list_elem_of_singleton in Hi as ->. destruct (Hset Hh ri Hri) as [Hcl _].
      destruct (Hcl Hf) as (ri' & x & Hri' & Hx & Ht).
      assert (ri' = ri) as -> by congruence. by exists x. }
  destruct (finished r2) eqn:Hf2; [by apply Hdone, evolves_refl|].
  destruct (cancelling r2) eqn:Hc2'; [by apply Hdone, evolves_refl|].
  assert (healthy s = true) as Hh.
  { apply not_false_iff_true. intros Hh. destruct (Hset Hh r2 Hr2) as [_ [|]]; congruence. }
  rewrite bind_get. destruct (_ && _) eqn:Econd.
  2:{ match goal with |- context [test_eligible _ _ id ?q s2] =>
        destruct (test_eligible_ok id q s2 r2 Hc2 Hr2) as (p' & s3 & -> & Hc3 & Hev3) end.
      by apply Hdone. }
  apply andb_true_iff in Econd as [Econd _]. apply andb_true_iff in Econd as [Econd _].
  apply andb_true_iff in Econd as [Ha%negb_true_iff _].
  match goal with |- context [try_admit _ _ _ id r2 ?q] =>
    pose proof (try_admit_ok id q s2 r2 Hc2 Ho2) as Hta; set (p2 := q) in * end.
  rewrite (ev_healthy _ _ _ Hev12) in Hta. specialize (Hta Hh Hr2 Ha Hf2).
  unfold mbind, M_bind. destruct (try_admit _ _ _ id r2 p2 s2) as [o s3].
  destruct Hta as (Hc3 & Ho3 & Hm3).
  assert (forall s4, core s4 -> evolves (fun _ => False) s3 s4 -> phase id s s4) as Hdone3.
  { intros s4 Hc4 Hev4. split; [done|]. split; [eapply evolves_owned; [exact Hev4|done|done]|].
    split; [|congruence]. eapply moves_trans; [exact Hm12| |].
    - eapply moves_trans; [exact Hm3|apply evolves_moves, Hev4|].
      intros i Hi. exact Hi.
    - intros i [[]|[->|[]]]. done. }
  destruct o as [[[] p']|ex]; [|by apply Hdone3, evolves_refl..].
  destruct (moves_dom _ _ _ id Hm3) as [_ Hd]. destruct Hd as [r3 Hr3]; [by exists r2|].
  destruct (test_eligible_ok id p' s3 r3 Hc3 Hr3) as (p'' & s4 & -> & Hc4 & Hev4).
  by apply Hdone3.
Qed.

(** ** The visits of a round *)

Definition inv (s : State) : Prop := core s /\ keys s /\ owned s.

Lemma moves_keys F s s' : moves F s s' -> keys s -> keys s'.
Proof.
  intros He [Hn Hk]. unfold keys. rewrite (mv_order _ _ _ He). split; [done|].
  intros id. rewrite Hk. symmetry. by eapply moves_dom.
Qed.

Lemma all_closed_phase id l s s' : phase id s s' -> healthy s = false ->
  all_closed l s -> all_closed l s'.
Proof.
  intros (_ & _ & Hm & _) Hh. apply all_closed_moves.
  destruct Hm as [? ? ? ? Hq ?]. split; try done. intros i. specialize (Hq i).
  destruct (requests s !! i), (requests s' !! i); try done.
  destruct Hq as (? & ? & Hq). do 2 (split; [done|]). intros Hf.
  destruct (Hq Hf) as [|[[_ ?]|]]; [tauto|congruence|tauto].
Qed.

(** The requests of [l] were visited. *)
Definition visited (h : bool) (o l : list string) (s : State) : Prop :=
  inv s /\ healthy s = h /\ order s = o /\ (h = false -> all_closed l s).

Lemma visit_inv h o now stopping p id l s :
  visited h o l s -> is_Some (requests s !! id) ->
  visited h o (l ++ [id]) (visit limits sizeof_event sizeof_diff now stopping p id s).2.
Proof.
  intros ((Hco & Hk & Ho) & Hh & Hor & Ha) Hid.
  pose proof (visit_ok now stopping p id s Hco Ho Hid) as Hph.
  pose proof Hph as (Hc' & Ho' & Hm & Hcl). split.
  { split; [done|]. split; [by eapply moves_keys|done]. }
  split; [by rewrite (mv_healthy _ _ _ Hm)|]. split; [by rewrite (mv_order _ _ _ Hm)|].
  intros ->.
  intros i r [Hi|Hi]%elem_of_app; [|by apply Hcl].
  by apply (all_closed_phase id l s _ Hph Hh (Ha eq_refl)).
Qed.

Lemma visits_inv h o now stopping ids : forall p l s,
  visited h o l s -> (forall id, id ∈ ids -> is_Some (requests s !! id)) ->
  match fold_each ids (visit limits sizeof_event sizeof_diff now stopping) p s with
  | (Ok _, s') => visited h o (l ++ ids) s'
  | (Throw _, s') => inv s'
  end.
Proof.
  induction ids as [|id ids IH]; intros p l s Hv Hids; simpl.
  { by rewrite app_nil_r. }
  assert (is_Some (requests s !! id)) as Hid by (apply Hids; set_solver).
  pose proof (visit_inv h o now stopping p id l s Hv Hid) as Hv1.
  destruct Hv as ((Hco & Hk & Ho) & _).
  destruct (visit_ok now stopping p id s Hco Ho Hid) as (_ & _ & Hm & _).
  unfold mbind, M_bind. destruct (visit _ _ _ now stopping p id s) as [[p'|e] s'];
    [|by destruct Hv1].
  replace (l ++ id :: ids) with ((l ++ [id]) ++ ids) by (by rewrite <- app_assoc).
  apply IH; [done|]. intros i Hi. eapply moves_dom; [exact Hm|]. apply Hids. set_solver.
Qed.

(** ** Publishing the events of a step *)

(** Each event of [evs] may be published: the ones after a terminal event
    belong to other requests. *)
Definition may_publish (evs : list Event) (s : State) : Prop :=
  (forall i ev, evs !! i = Some ev -> is_Some (requests s !! ev_id ev) ->
     publishable (ev_id ev) s) /\
  (forall i j ev ev', evs !! i = Some ev -> evs !! j = Some ev' -> ended ev = true ->
     (i < j)%nat -> ev_id ev' <> ev_id ev).

Lemma box_closed_evolves F id s s' : evolves F s s' -> box_closed id s -> box_closed id s'.
Proof.
  intros He (r & x & Hr & Hx & Ht). destruct (evolves_some _ _ _ _ _ He Hr)
    as (r' & Hr' & _ & Ho & _).
  destruct (has_terminal_mono s s' r r' (ev_boxes _ _ _ He) Ho) as (x' & ? & ?);
    [by exists x|by exists r', x'].
Qed.

Lemma publishable_evolves F id s s' :
  evolves F s s' -> ~ F id -> publishable id s -> publishable id s'.
Proof.
  intros He HF [(r & Hr & Hf)|Hc]; [|right; by eapply box_closed_evolves].
  destruct (evolves_some _ _ _ _ _ He Hr) as (r' & Hr' & _ & _ & _ & Hf').
  destruct (finished r') eqn:E'; [|left; by exists r'].
  destruct (Hf' eq_refl) as [?|[?|[_ (x & Hx & Ht)]]]; [congruence|done|].
  right. by exists r', x.
Qed.

Lemma publish_events evs : forall s,
  core s -> may_publish evs s ->
  exists s', for_each evs (publish_found limits sizeof_event sizeof_diff) s = (Ok tt, s') /\
    core s' /\ evolves (fun id => exists ev, ev ∈ evs /\ ev_id ev = id /\ ended ev = true) s s'.
Proof.
  induction evs as [|ev evs IH]; intros s Hco [Hp Hd]; simpl.
  { exists s. split; [done|]. split; [done|apply evolves_refl]. }
  assert (exists s1, publish_found limits sizeof_event sizeof_diff ev s = (Ok tt, s1) /\ core s1 /\
    evolves (fun i => i = ev_id ev /\ ended ev = true) s s1) as (s1 & Heq & Hc1 & Hev1).
  { unfold publish_found. rewrite bind_get. destruct (bool_decide _) eqn:Eb.
    - apply bool_decide_eq_true in Eb.
      destruct (publish_ok (ev_id ev) ev s Hco) as (s1 & ? & ? & ? & _);
        [by apply (Hp 0%nat)|done|]. by exists s1.
    - exists s. split; [done|]. split; [done|apply evolves_refl]. }
  rewrite (bind_ok _ _ _ _ _ Heq). destruct (IH s1 Hc1) as (s' & Heq' & Hc' & Hev').
  { split.
    - intros i e Hi Hs. eapply publishable_evolves; [exact Hev1| |].
      + intros [Hx Ht]. exact (Hd 0%nat (S i) ev e eq_refl Hi Ht ltac:(lia) Hx).
      + apply (Hp (S i)); [done|]. by apply (evolves_dom _ _ _ _ Hev1).
    - intros i j e e' Hi Hj He Hij. apply (Hd (S i) (S j) e e' Hi Hj He). lia. }
  exists s'. split; [done|]. split; [done|]. eapply evolves_trans; [exact Hev1|exact Hev'|].
  intros id [[-> ?]|(e & ? & ? & ?)]; [exists ev|exists e]; split; try done; set_solver.
Qed.

(** ** The engine step *)

(** The state apart from the engine's internals, the snapshot and the replies. *)
Record same (s s' : State) : Prop := {
  sm_requests : requests s' = requests s;
  sm_order : order s' = order s;
  sm_boxes : boxes s' = boxes s;
  sm_healthy : healthy s' = healthy s;
  sm_reload : reload s' = reload s;
  sm_duplex : duplex_active s' = duplex_active s;
  sm_runs : runs (engine s') = runs (engine s);
}.

Lemma same_refl s : same s s.
Proof. by split. Qed.

Lemma same_trans a b c : same a b -> same b c -> same a c.
Proof. intros [] []. split; congruence. Qed.

(** [core] and [keys] look at the requests, the order and the outboxes only. *)
Lemma core_eq s s' :
  requests s' = requests s -> boxes s' = boxes s -> core s -> core s'.
Proof. intros Hr Hb []. split; rewrite ?Hr, ?Hb; done. Qed.

Lemma keys_eq s s' : requests s' = requests s -> order s' = order s -> keys s -> keys s'.
Proof. intros Hr Ho. unfold keys. by rewrite Hr, Ho. Qed.

Lemma inv_eq s s' :
  requests s' = requests s -> order s' = order s -> boxes s' = boxes s ->
  (healthy s' = true -> healthy s = true /\ runs (engine s') ⊆ runs (engine s)) ->
  inv s -> inv s'.
Proof.
  intros Hr Ho Hb Hh (Hc & Hk & Hw). split; [by eapply core_eq|]. split; [by eapply keys_eq|].
  intros Ht id Hid. destruct (Hh Ht) as [Hs Hsub]. rewrite Hr. apply Hw; [done|set_solver].
Qed.

Lemma same_inv s s' : same s s' -> inv s -> inv s'.
Proof. intros []. apply inv_eq; try done. intros. split; [congruence|set_solver]. Qed.

Lemma call_same {A} (f : E -> outcome A * E) s o s' :
  call f s = (o, s') -> runs (f (engine s)).2 = runs (engine s) -> same s s'.
Proof. unfold call. destruct (f (engine s)) as [? e]. intros [= <- <-] Hr. by split. Qed.

Lemma try_call_same {A B} (f : E -> outcome A * E) (k : A -> B) (d : B) s :
  runs (f (engine s)).2 = runs (engine s) ->
  exists b s', try_catch (res ← call f; mret (k res)) (fun _ => mret d) s = (Ok b, s') /\
    same s s'.
Proof.
  intros Hr. unfold try_catch, mbind, M_bind. destruct (call f s) as [[a|e] s'] eqn:Hc;
    (eexists _, s'; split; [reflexivity|by eapply call_same]).
Qed.

Lemma refresh_snapshot_ok now h b m s : exists s',
  refresh_snapshot now h b m s = (Ok tt, s') /\ same s s'.
Proof.
  unfold refresh_snapshot. rewrite bind_get. cbv zeta.
  match goal with |- context [mbind ?k ?x s] => set (k1 := k); set (x1 := x) end.
  assert (exists a s1, x1 s = (Ok a, s1) /\ same s s1) as (a & s1 & Hx & Hs1).
  { unfold x1. destruct m; [|by exists None, s].
    apply (try_call_same _ (fun res => match res with MetricsResult m => Some m
                                        | OtherResult _ => None end)).
    apply law_control. }
  change (exists s', (x1 ≫= k1) s = (Ok tt, s') /\ same s s'). rewrite (bind_ok _ _ _ _ _ Hx).
  unfold k1. match goal with |- context [mbind ?k ?x s1] => set (k2 := k); set (x2 := x) end.
  assert (exists a s2, x2 s1 = (Ok a, s2) /\ same s1 s2) as (a' & s2 & Hx2 & Hs2).
  { unfold x2. destruct m; [|by exists None, s1].
    apply (try_call_same _ (fun res => Some (session_metrics res))). apply law_session. }
  change (exists s', (x2 ≫= k2) s1 = (Ok tt, s') /\ same s s'). rewrite (bind_ok _ _ _ _ _ Hx2).
  eexists. split; [reflexivity|]. eapply same_trans; [exact Hs1|].
  eapply same_trans; [exact Hs2|]. by split.
Qed.

Lemma all_publishable h s id :
  inv s -> healthy s = h -> (h = false -> all_closed (order s) s) ->
  id ∈ runs (engine s) -> is_Some (requests s !! id) -> publishable id s.
Proof.
  intros (Hc & [_ Hk] & Ho) Hh Ha Hid [r Hr]. destruct (finished r) eqn:Hf; [|left; by exists r].
  destruct h.
  - destruct (Ho Hh id Hid) as (r' & Hr' & _ & Hf'). congruence.
  - right. destruct (Ha eq_refl id r) as (x & Hx & Ht); [apply Hk; by eexists|done|done|].
    by exists r, x.
Qed.

Lemma run_step_inv now stopping p s :
  inv s -> (healthy s = false -> all_closed (order s) s) ->
  inv (run_step limits sizeof_event sizeof_diff now stopping p s).2.
Proof.
  intros Hinv Ha. unfold run_step. unfold call. unfold mbind at 1, M_bind at 1.
  pose proof (law_step (eligible p) (engine s)) as Hlaw.
  pose proof Hinv as (Hc & Hk & Ho).
  destruct (eng_step (eligible p) (engine s)) as [[res|e] e'].
  2:{ by apply (inv_eq s). }
  destruct Hlaw as [Hruns Hev].
  set (s1 := set_engine e' s).
  assert (inv s1) as Hinv1.
  { apply (inv_eq s); try done. intros. split; [done|]. simpl. set_solver. }
  rewrite bind_get. match goal with |- context [mbind ?k ?x s1] => set (k1 := k); set (x1 := x) end.
  assert (exists s2, x1 s1 = (Ok tt, s2) /\ same s1 s2) as (s2 & Hx & Hs2).
  { unfold x1. destruct (_ && _); [apply refresh_snapshot_ok|]. by exists s1. }
  change (inv ((x1 ≫= k1) s1).2). rewrite (bind_ok _ _ _ _ _ Hx). unfold k1.
  pose proof (same_inv _ _ Hs2 Hinv1) as (Hc2 & Hk2 & Ho2).
  destruct (publish_events (events res) s2 Hc2) as (s3 & Heq & Hc3 & Hev3).
  { destruct Hs2 as [Hr2 Hor2 Hb2 Hh2 _ _ _]. split.
    - intros i ev Hi Hs. destruct (Hev i ev Hi) as [Hid _].
      destruct (all_publishable (healthy s) s (ev_id ev)) as [(r & Hr & Hf)|(r & x & Hr & Hx' & Ht)];
        try done.
      + by rewrite Hr2 in Hs.
      + left. exists r. by rewrite Hr2.
      + right. exists r, x. by rewrite Hr2, Hb2.
    - intros i j ev ev' Hi Hj He Hij. destruct (Hev i ev Hi) as [_ Ht].
      by apply (proj2 (Ht He) j ev'). }
  rewrite (bind_ok _ _ _ _ _ Heq).
  assert (inv s3) as Hinv3.
  { split; [done|]. split; [by eapply evolves_keys|]. eapply evolves_owned; [exact Hev3|done|].
    intros id (ev & Hin & <- & He). apply list_elem_of_lookup in Hin as [i Hi].
    destruct (Hev i ev Hi) as [_ Ht]. rewrite (sm_runs _ _ Hs2). by apply Ht. }
  by destruct (negb _).
Qed.

Lemma ordered_perm s : ordered s ≡ₚ order s.
Proof. apply stable_sort_perm. Qed.

Lemma schedule_inv now nows stopping s :
  inv s -> inv (schedule limits sizeof_event sizeof_diff now nows stopping s).2.
Proof.
  intros Hinv. pose proof Hinv as (Hc & [Hn Hk] & Ho). unfold schedule. rewrite bind_get.
  assert (forall l, (forall id, id ∈ l -> is_Some (requests s !! id)) ->
    for_each l (fun id => request_at id ≫= fun _ => mret tt) s = (Ok tt, s)) as Hat.
  { induction l as [|id l IH]; intros Hl; simpl; [done|].
    destruct (Hl id) as [r Hr]; [set_solver|].
    rewrite (bind_ok _ _ _ tt s); [apply IH; set_solver|].
    by rewrite (bind_ok _ _ _ _ _ (request_at_ok _ _ _ Hr)). }
  rewrite (bind_ok _ _ _ _ _ (Hat (order s) (fun id Hid => proj1 (Hk id) Hid))).
  pose proof (visits_inv (healthy s) (order s) nows stopping (ordered s) initial_plan [] s) as Hv.
  assert (visited (healthy s) (order s) [] s) as Hv0.
  { split; [done|]. do 2 (split; [done|]). intros _ i r Hi. by apply elem_of_nil in Hi. }
  specialize (Hv Hv0). unfold mbind at 1, M_bind at 1.
  destruct (fold_each (ordered s) _ initial_plan s) as [[p|e] s'].
  - destruct Hv as (Hinv' & Hh & Hor & Ha).
    + intros id. rewrite ordered_perm. apply Hk.
    + cbv zeta. destruct (executable p || _); [|done]. apply run_step_inv; [done|].
      intros Hf i r Hi. apply Ha; [congruence|]. simpl. by rewrite ordered_perm, <- Hor.
  - simpl. apply Hv. intros id. rewrite ordered_perm. apply Hk.
Qed.

(** ** Loops over the request map *)

Hypothesis iter_keys : forall m, iter m ≡ₚ (map_to_list m).*1.
#[local] Set Default Proof Using "Type H H0 limits_ok iter_keys".

Lemma iter_in m id : id ∈ iter m <-> is_Some (m !! id).
Proof.
  rewrite iter_keys, list_elem_of_fmap. split.
  - intros ([k r] & -> & Hkr). apply elem_of_map_to_list in Hkr. by exists r.
  - intros [r Hr]. exists (id, r). split; [done|]. by apply elem_of_map_to_list.
Qed.

Lemma for_each_evolves F (Q : string -> State -> Prop) (f : string -> Op unit) l :
  (forall i s, i ∈ l -> core s -> is_Some (requests s !! i) ->
     exists s', f i s = (Ok tt, s') /\ core s' /\ evolves F s s' /\ Q i s') ->
  (forall i s s', evolves F s s' -> Q i s -> Q i s') ->
  forall s, core s -> (forall i, i ∈ l -> is_Some (requests s !! i)) ->
  exists s', for_each l f s = (Ok tt, s') /\ core s' /\ evolves F s s' /\ forall i, i ∈ l -> Q i s'.
Proof.
  intros Hf HQ. induction l as [|i l IH]; intros s Hc Hl; simpl.
  { exists s. do 2 (split; [done|]). split; [apply evolves_refl|]. set_solver. }
  destruct (Hf i s) as (s1 & Heq & Hc1 & Hev1 & HQ1); [set_solver|done|apply Hl; set_solver|].
  rewrite (bind_ok _ _ _ _ _ Heq). destruct IH with (s := s1) as (s' & Heq' & Hc' & Hev' & HQ').
  - intros y t Hy. apply Hf. set_solver.
  - done.
  - intros y Hy. apply (evolves_dom _ _ _ _ Hev1). apply Hl. set_solver.
  - exists s'. do 2 (split; [done|]). split; [eapply evolves_trans; [done..|]; tauto|].
    intros y [->|Hy]%elem_of_cons; [by eapply HQ|by apply HQ'].
Qed.

Lemma fail_unfinished_ok what s : core s ->
  exists s', fail_unfinished limits sizeof_event sizeof_diff iter what s = (Ok tt, s') /\ core s' /\
    evolves (fun _ => True) s s'.
Proof.
  intros Hc. unfold fail_unfinished. rewrite bind_get.
  destruct (for_each_evolves (fun _ => True) (fun _ _ => True) (fun id =>
    r ← request_at id;
    if finished r then mret tt
    else swallow (publish id
           {| ev_id := id; ev_data := FailedEvent {| code := "backend_failure"; message := what;
                                                     retryable := false |} |}))
    (iter (requests s))) with (s := s) as (s' & ? & ? & ? & _).
  - intros id t _ Ht [r Hr]. rewrite (bind_ok _ _ _ _ _ (request_at_ok _ _ _ Hr)).
    destruct (finished r) eqn:Hf.
    { exists t. do 2 (split; [done|]). split; [apply evolves_refl|done]. }
    match goal with |- context [publish id ?ev] =>
      destruct (publish_ok id ev t Ht) as (t' & Heq & Hc' & Hev & _) end;
      [left; by exists r|done|].
    exists t'. unfold swallow, try_catch. rewrite Heq. do 2 (split; [done|]). split; [|done].
    by eapply evolves_mono.
  - done.
  - done.
  - intros i Hi. by apply iter_in.
  - by exists s'.
Qed.

Lemma halt_admitted s : core s ->
  exists s', for_each (iter (requests s)) (fun id =>
      r ← request_at id;
      if admitted r then swallow (call (eng_cancel id)) else mret tt) s = (Ok tt, s') /\
    core s' /\ evolves (fun _ => False) s s' /\
    forall id r, requests s' !! id = Some r -> admitted r = true ->
      id ∈ runs (engine s') -> id ∈ halted (engine s').
Proof.
  intros Hc. destruct (for_each_evolves (fun _ => False) (fun id t => forall r,
      requests t !! id = Some r -> admitted r = true -> id ∈ runs (engine t) ->
      id ∈ halted (engine t)) (fun id =>
      r ← request_at id;
      if admitted r then swallow (call (eng_cancel id)) else mret tt) (iter (requests s)))
    with (s := s) as (s' & Heq & Hc' & Hev & HQ); [| |done|intros i; by apply iter_in|].
  - intros id t _ Ht [r Hr]. rewrite (bind_ok _ _ _ _ _ (request_at_ok _ _ _ Hr)).
    destruct (admitted r) eqn:Ha.
    + destruct (law_cancel id (engine t)) as (e' & Heq & Hru & Hha & Hin).
      exists (set_engine e' t). unfold swallow, try_catch, call. rewrite Heq.
      split; [done|]. split; [by apply set_engine_core|].
      split; [by apply set_engine_evolves|]. intros _ _ _. simpl. rewrite Hru. exact Hin.
    + exists t. do 2 (split; [done|]). split; [apply evolves_refl|]. intros; congruence.
  - intros id t t' Hev HQ r' Hr' Ha. rewrite (ev_runs _ _ _ Hev). intros Hru.
    apply (ev_halted _ _ _ Hev).
    pose proof (ev_requests _ _ _ Hev id) as Hq. rewrite Hr' in Hq.
    destruct (requests t !! id) as [r|]; [|done]. destruct Hq as (_ & _ & Haa & _).
    apply (HQ r); [done|congruence|done].
  - exists s'. do 3 (split; [done|]). intros id r Hr. apply (HQ id); [|done]. apply iter_in.
    apply (evolves_dom _ _ _ _ Hev). by exists r.
Qed.

(** A failed round leaves no running request in a healthy engine. *)
Lemma owned_idle s : (healthy s = true -> runs (engine s) = ∅) -> owned s.
Proof. intros Hi Hh id Hid. rewrite Hi in Hid by done. set_solver. Qed.

Lemma fail_unfinished_inv what s :
  core s -> keys s -> (healthy s = true -> runs (engine s) = ∅) ->
  exists s', fail_unfinished limits sizeof_event sizeof_diff iter what s = (Ok tt, s') /\ inv s'.
Proof.
  intros Hc Hk Hi. destruct (fail_unfinished_ok what s Hc) as (s' & Heq & Hc' & Hev).
  exists s'. split; [done|]. split; [done|]. split; [by eapply evolves_keys|].
  apply owned_idle. intros Hh. rewrite (ev_runs _ _ _ Hev). apply Hi.
  by rewrite <- (ev_healthy _ _ _ Hev).
Qed.

Lemma recover_inv e s : inv s ->
  exists s', recover limits sizeof_event sizeof_diff iter e s = (Ok tt, s') /\ inv s'.
Proof.
  intros (Hc & Hk & Ho). destruct (decide (e = OtherException)) as [->|Hne].
  { simpl. rewrite bind_modify. apply fail_unfinished_inv; [by apply (core_eq s)| |done].
    by apply (keys_eq s). }
  set (s1 := set_healthy (healthy s && negb (is_backend_failure e) &&
                          status_healthy (eng_status (engine s))) s).
  assert (core s1) as Hc1 by (by apply (core_eq s)).
  assert (keys s1) as Hk1 by (by apply (keys_eq s)).
  assert (owned s1) as Ho1.
  { intros Hh. apply Ho. simpl in Hh. by destruct (healthy s). }
  destruct (halt_admitted s1 Hc1) as (s2 & Heq2 & Hc2 & Hev2 & Hha).
  assert (recover limits sizeof_event sizeof_diff iter e s =
    (try_catch (result ← call (eng_step []);
         modify (fun s => set_healthy (healthy s && status_healthy (result_status result)) s))
        (fun _ => modify (set_healthy false)) ≫= fun _ =>
      fail_unfinished limits sizeof_event sizeof_diff iter (exn_message e)) s2) as ->.
  { destruct e; try done; simpl; rewrite bind_modify, bind_get; by rewrite (bind_ok _ _ _ _ _ Heq2). }
  assert (owned s2) as Ho2 by (by apply (evolves_owned _ _ _ Hev2)).
  assert (keys s2) as Hk2 by (by eapply evolves_keys).
  unfold call, try_catch, mbind, M_bind.
  pose proof (law_step [] (engine s2)) as Hlaw.
  destruct (eng_step [] (engine s2)) as [[res|ex] e'].
  - destruct Hlaw as [Hru _]. apply fail_unfinished_inv; [by apply (core_eq s2)|by apply (keys_eq s2)|].
    simpl. intros Hh. apply andb_true_iff in Hh as [Hh _]. apply elem_of_equiv_empty_L.
    intros id Hid. assert (id ∈ runs (engine s2) /\ id ∉ halted (engine s2)) as [H1 H2]
      by set_solver.
    destruct (Ho2 Hh id H1) as (r & Hr & Ha & _). by apply H2, (Hha id r Hr Ha).
  - apply fail_unfinished_inv; [by apply (core_eq s2)|by apply (keys_eq s2)|done].
Qed.

(** ** Retiring requests *)

Lemma core_delete id s :
  core s -> core (set_requests (delete id (requests s)) (order s) s).
Proof.
  intros [Hreq Hinj Hbox Hses]. split; simpl.
  - intros i r Hi. apply lookup_delete_Some in Hi as [_ Hi]. by apply Hreq.
  - intros i j ri rj Hi Hj. apply lookup_delete_Some in Hi as [_ Hi].
    apply lookup_delete_Some in Hj as [_ Hj]. by apply Hinj.
  - done.
  - intros i j ri rj Hi Hj. apply lookup_delete_Some in Hi as [_ Hi].
    apply lookup_delete_Some in Hj as [_ Hj]. by apply Hses.
Qed.

(** The members that [retire] leaves alone. *)
Record kept_members (s s' : State) : Prop := {
  rt_engine : engine s' = engine s;
  rt_order : order s' = order s;
  rt_healthy : healthy s' = healthy s;
  rt_reload : reload s' = reload s;
  rt_boxes : Forall2 drained (boxes s) (boxes s');
}.

Lemma kept_trans a b c : kept_members a b -> kept_members b c -> kept_members a c.
Proof.
  intros [] []. split; try congruence. by eapply Forall2_drained_trans.
Qed.

Lemma kept_terminal s s' r : kept_members s s' -> has_terminal s' r <-> has_terminal s r.
Proof.
  intros [_ _ _ _ Hb]. split; intros (x & Hx & Ht).
  - destruct (Forall2_lookup_r _ _ _ _ _ Hb Hx) as (y & Hy & Hd & _). exists y.
    split; [done|congruence].
  - destruct (Forall2_lookup_l _ _ _ _ _ Hb Hx) as (y & Hy & Hd & _). exists y.
    split; [done|congruence].
Qed.

Lemma retire_loop_ok ids : forall s,
  core s -> NoDup ids -> (forall id, id ∈ ids -> is_Some (requests s !! id)) ->
  exists kept s', retire_loop ids s = (Ok kept, s') /\ core s' /\ kept_members s s' /\ NoDup kept /\
    kept ⊆ ids /\
    (forall id, id ∉ ids -> requests s' !! id = requests s !! id) /\
    (forall id r, id ∈ ids -> requests s !! id = Some r ->
       (id ∈ kept /\ ~ has_terminal s' r /\ requests s' !! id = Some r) \/
       (id ∉ kept /\ has_terminal s' r /\ requests s' !! id = None)).
Proof.
  induction ids as [|id ids IH]; intros s Hc Hn Hids; simpl.
  { exists [], s. do 2 (split; [done|]). split; [split; try done; apply Forall2_drained_refl|].
    split; [constructor|]. split; [done|]. split; [done|]. set_solver. }
  apply NoDup_cons in Hn as [Hni Hn].
  destruct (yield_eq s) as (e & l & Hy & Hl). set (s1 := set_env e (set_boxes l s)) in *.
  pose proof (drained_core e l s Hc Hl) as Hc1. fold s1 in Hc1.
  assert (kept_members s s1) as Hrt by (by split).
  destruct (Hids id) as [r Hr]; [set_solver|].
  destruct (request_box id r s1 Hc1 Hr) as (x & Hx & Hok & _).
  rewrite (bind_ok _ _ _ _ _ Hy). rewrite (bind_ok _ _ _ _ _ (request_at_ok id s1 r Hr)).
  rewrite (bind_ok _ _ _ _ _ (box_at_ok _ _ _ Hx)).
  destruct (ob_terminal x) eqn:Ht.
  - rewrite bind_modify. set (s2 := set_requests (delete id (requests s1)) (order s1) s1).
    destruct (IH s2) as (kept & s' & Heq & Hc' & Hrt' & Hnk & Hsub & Hout & Hin).
    + by apply core_delete.
    + done.
    + intros i Hi. simpl. rewrite lookup_delete_ne by (intros <-; done). apply Hids. set_solver.
    + exists kept, s'. split; [done|]. split; [done|]. split.
      { eapply kept_trans; [exact Hrt|]. destruct Hrt'. by split. }
      split; [done|]. split; [set_solver|]. split.
      * intros i Hi. rewrite Hout by set_solver. simpl. apply lookup_delete_ne. set_solver.
      * intros i ri [->|Hi]%elem_of_cons Hri.
        -- right. split; [set_solver|]. assert (ri = r) as -> by congruence. split.
           ++ apply (kept_terminal _ _ _ Hrt'). by exists x.
           ++ rewrite Hout by done. apply lookup_delete_eq.
        -- apply Hin; [done|]. simpl. rewrite lookup_delete_ne by (intros <-; done). done.
  - destruct (IH s1) as (kept & s' & Heq & Hc' & Hrt' & Hnk & Hsub & Hout & Hin).
    + done.
    + done.
    + intros i Hi. apply Hids. set_solver.
    + exists (id :: kept), s'. rewrite (bind_ok _ _ _ _ _ Heq).
      split; [done|]. split; [done|]. split; [by eapply kept_trans|].
      split; [constructor; [set_solver|done]|]. split; [set_solver|]. split.
      * intros i Hi. apply Hout. set_solver.
      * intros i ri [->|Hi]%elem_of_cons Hri.
        -- left. split; [set_solver|]. assert (ri = r) as -> by congruence. split.
           ++ rewrite (kept_terminal _ _ _ Hrt'). intros (y & Hy' & Hty).
              change (boxes s1 !! outbox r = Some y) in Hy'. congruence.
           ++ by rewrite Hout.
        -- destruct (Hin i ri Hi Hri) as [(? & ? & ?)|(? & ? & ?)]; [left|right]; set_solver.
Qed.

(** No active request has a terminal outbox. *)
Definition all_open (s : State) : Prop :=
  forall id r, requests s !! id = Some r -> ~ has_terminal s r.

Lemma retire_inv s : inv s ->
  exists s', retire s = (Ok tt, s') /\ inv s' /\ all_open s'.
Proof.
  intros (Hc & [Hn Hk] & Ho). unfold retire. rewrite bind_get.
  destruct (retire_loop_ok (order s) s Hc Hn) as (kept & s' & Heq & Hc' & Hrt & Hnk & Hsub & Hout & Hin).
  { intros id. apply Hk. }
  rewrite (bind_ok _ _ _ _ _ Heq). eexists. split; [reflexivity|].
  assert (forall id r, requests s' !! id = Some r ->
    requests s !! id = Some r /\ id ∈ kept /\ ~ has_terminal s' r) as Hback.
  { intros id r Hr. destruct (decide (id ∈ order s)) as [Hi|Hi].
    - destruct (proj1 (Hk id) Hi) as [ri Hri].
      destruct (Hin id ri Hi Hri) as [(? & ? & ?)|(? & ? & ?)]; [|congruence].
      assert (ri = r) as -> by congruence. done.
    - rewrite Hout in Hr by done. destruct Hi. apply Hk. by exists r. }
  split; [split; [by apply (core_eq s')|split]|].
  - split; [done|]. simpl. intros id. split.
    + intros Hi. assert (id ∈ order s) as Hio by (by apply Hsub).
      destruct (proj1 (Hk id) Hio) as [r Hr].
      destruct (Hin id r Hio Hr) as [(? & ? & ?)|(? & ? & ?)]; [by eexists|done].
    + intros [r Hr]. by apply (Hback id r).
  - intros Hh id Hid. simpl in *. rewrite (rt_healthy _ _ Hrt) in Hh.
    rewrite (rt_engine _ _ Hrt) in Hid. destruct (Ho Hh id Hid) as (r & Hr & Ha & Hf).
    exists r. split; [|done].
    destruct (Hin id r) as [(? & ? & ?)|(_ & Hterm & _)];
      [apply Hk; by eexists|done|done|]. exfalso.
    apply (kept_terminal _ _ _ Hrt) in Hterm as (x & Hx & Ht).
    destruct (request_box id r s Hc Hr) as (x' & Hx' & [_ _ _ Hp] & _).
    assert (x' = x) as -> by congruence. rewrite Ht in Hp. destruct Hp. congruence.
  - intros id r Hr. by apply (Hback id r Hr).
Qed.

(** ** The rest of a round *)

Lemma no_requests_true s : no_requests s = true -> requests s = ∅.
Proof. unfold no_requests. intros Hz%bool_decide_eq_true. by apply map_size_empty_inv. Qed.

Lemma finish_reload_inv s : inv s ->
  exists s', finish_reload s = (Ok tt, s') /\ inv s' /\ requests s' = requests s /\
    boxes s' = boxes s.
Proof.
  intros Hi. unfold finish_reload. rewrite bind_get.
  destruct (reload s) as [[context n]|]; [|by exists s].
  destruct (no_requests s) eqn:He; [|by exists s]. apply no_requests_true in He.
  unfold try_catch, call, mbind, M_bind. destruct (eng_reload context (engine s)) as [[c|e] e'] eqn:Hr;
    (eexists; split; [reflexivity|]; split; [|done]).
  - destruct Hi as (Hc & Hk & Ho). split; [by apply (core_eq s)|]. split; [by apply (keys_eq s)|].
    apply owned_idle. intros _. simpl. pose proof (law_reload context (engine s) c) as Hl.
    rewrite Hr in Hl. by apply Hl.
  - by apply (inv_eq s).
Qed.

Lemma rotate_inv s : inv s ->
  exists s', rotate s = (Ok tt, s') /\ inv s' /\ requests s' = requests s /\ boxes s' = boxes s.
Proof.
  intros (Hc & [Hn Hk] & Ho). unfold rotate, modify. eexists. split; [reflexivity|].
  destruct (order s) as [|id rest] eqn:Hor.
  { split; [|done]. split; [done|]. split; [|done]. split; rewrite Hor; done. }
  split; [|done]. split; [by apply (core_eq s)|]. split; [|done].
  assert (rest ++ [id] ≡ₚ id :: rest) as Hp by (by rewrite Permutation_app_comm).
  split; simpl; [by rewrite Hp|]. intros i. rewrite Hp. apply Hk.
Qed.

(** ** Commands *)

Lemma inv_same_but s s' :
  requests s' = requests s -> order s' = order s -> boxes s' = boxes s ->
  engine s' = engine s -> (healthy s' = true -> healthy s = true) -> inv s -> inv s'.
Proof.
  intros ? ? ? He Hh. apply inv_eq; try done. intros. rewrite He. auto.
Qed.

Lemma any_session_false f s id r :
  any_session f s = false -> requests s !! id = Some r -> f (req_session (input r)) = false.
Proof.
  intros Ha Hr. apply not_true_iff_false. intros Ht. apply not_true_iff_false in Ha. apply Ha.
  apply existsb_exists. exists (id, r). split; [|done].
  by apply list_elem_of_In, elem_of_map_to_list.
Qed.

Lemma box_empty_ok : box_ok empty_box.
Proof.
  split; simpl; [done|constructor|]. unfold size_of, terminal_reserve in *. simpl. lia.
Qed.

Lemma submit_core (r : EngineRequest Payload) s :
  core s -> submit_check r = Ok tt -> requests s !! req_id r = None ->
  (req_session r <> ""%string -> any_session (fun o => bool_decide (o = req_session r)) s = false) ->
  core (set_requests (<[req_id r := new_request r (length (boxes s))]> (requests s))
          (order s ++ [req_id r]) (set_boxes (boxes s ++ [empty_box]) s)).
Proof.
  intros Hc Hchk Hnone Hses.
  assert (forall i ri, requests s !! i = Some ri -> (outbox ri < length (boxes s))%nat) as Hlt.
  { intros i ri Hi. destruct (co_req _ Hc i ri Hi) as (x & Hx & _). by eapply lookup_lt_Some. }
  assert (forall i ri, requests s !! i = Some ri -> req_session r <> ""%string ->
    req_session (input ri) <> req_session r) as Hdiff.
  { intros i ri Hi Hne Heq. specialize (Hses Hne).
    pose proof (any_session_false _ _ _ _ Hses Hi) as Hb. by rewrite Heq, bool_decide_true in Hb. }
  destruct Hc as [Hreq Hinj Hbox Hs]. split; simpl.
  - intros i ri Hi. apply lookup_insert_Some in Hi as [[<- <-]|[_ Hi]].
    + exists empty_box. simpl. rewrite lookup_app_r, Nat.sub_diag by lia. split; [done|].
      split; simpl; try done; try constructor.
      unfold submit_check in Hchk. destruct (_ || _) eqn:Ec; [done|].
      apply orb_false_iff in Ec as [_ Ec%Z.ltb_ge]. lia.
    + destruct (Hreq i ri Hi) as (x & Hx & Hok). exists x. split; [|done].
      by apply lookup_app_l_Some.
  - intros i j ri rj Hi Hj.
    apply lookup_insert_Some in Hi as [[<- <-]|[_ Hi]];
      apply lookup_insert_Some in Hj as [[<- <-]|[_ Hj]]; simpl; try done; eauto.
    + specialize (Hlt j rj Hj). lia.
    + specialize (Hlt i ri Hi). lia.
  - apply Forall_app. split; [done|]. constructor; [apply box_empty_ok|constructor].
  - intros i j ri rj Hi Hj.
    apply lookup_insert_Some in Hi as [[<- <-]|[_ Hi]];
      apply lookup_insert_Some in Hj as [[<- <-]|[_ Hj]]; simpl; try done; eauto.
    + intros Hne Heq. by destruct (Hdiff j rj Hj Hne).
    + intros Hne Heq. destruct (Hdiff i ri Hi); congruence.
Qed.

Lemma do_submit_inv stopping (r : EngineRequest Payload) n s :
  inv s -> submit_check r = Ok tt -> inv (do_submit stopping r n s).2.
Proof.
  intros Hinv Hchk. pose proof Hinv as (Hc & [Hn Hk] & Ho). unfold do_submit. rewrite bind_get.
  destruct (stopping || _ || _ || _); [exact Hinv|].
  destruct (bool_decide (is_Some _)) eqn:Eid; [exact Hinv|]. apply bool_decide_eq_false in Eid.
  destruct (negb _ && _) eqn:Eses; [exact Hinv|]. rewrite bind_modify. simpl.
  assert (requests s !! req_id r = None) as Hnone by (by apply eq_None_not_Some).
  match goal with |- inv (add_reply _ _ ?t) => assert (inv t) as Hi; [|by apply (inv_same_but t)] end.
  split.
  - apply submit_core; try done. intros Hne. apply andb_false_iff in Eses as [Eb|]; [|done].
    by rewrite bool_decide_false in Eb.
  - split; [split|]; simpl.
    + apply NoDup_app. split; [done|]. split; [|apply NoDup_singleton].
      intros i Hi ->%list_elem_of_singleton. apply Hk in Hi. by destruct Eid.
    + intros i. rewrite elem_of_app, list_elem_of_singleton, Hk, lookup_insert_is_Some'. naive_solver.
    + intros Hh i Hi. destruct (Ho Hh i Hi) as (ri & Hri & Ha & Hf). exists ri. split; [|done].
      simpl. rewrite lookup_insert_ne; [done|]. intros <-. congruence.
Qed.

Definition same_keys (s s' : State) : Prop :=
  forall id, is_Some (requests s' !! id) <-> is_Some (requests s !! id).

Lemma cancel_inv id s : inv s -> is_Some (requests s !! id) ->
  exists s', cancel id s = (Ok tt, s') /\ inv s' /\ same_keys s s'.
Proof.
  intros (Hc & Hk & Ho) [r Hr]. destruct (cancel_ok id s r Hc Hr) as (s' & Heq & Hc' & Hev & _).
  exists s'. split; [done|]. split.
  - split; [done|]. split; [by eapply evolves_keys|by apply (evolves_owned _ _ _ Hev)].
  - intros i. by eapply evolves_dom.
Qed.

Lemma do_cancel_inv id session all n s :
  inv s -> inv (do_cancel limits sizeof_event sizeof_diff iter id session all n s).2.
Proof.
  intros Hinv. unfold do_cancel. rewrite bind_get.
  enough (hoare (fun t => inv t /\ same_keys s t)
    (fold_each (iter (requests s)) (fun found key =>
       r ← request_at key;
       if cancel_matches id session all key r
       then cancel key ≫= fun _ => mret true else mret found) false)
    (fun _ t => inv t /\ same_keys s t) (fun _ => False)) as Hfold.
  { specialize (Hfold s). unfold mbind at 1, M_bind at 1.
    destruct (fold_each _ _ false s) as [[b|e] s']; [|by destruct Hfold].
    destruct Hfold as [Hinv' _]; [done|]. by apply (inv_same_but s'). }
  apply (hoare_fold_each _ _ (fun _ t => inv t /\ same_keys s t)).
  intros b key Hkey t [Ht Hd]. apply iter_in, Hd in Hkey. pose proof Hkey as [r Hr].
  rewrite (bind_ok _ _ _ _ _ (request_at_ok _ _ _ Hr)).
  destruct (cancel_matches _ _ _ _ _); [|done].
  destruct (cancel_inv key t Ht Hkey) as (t' & Heq & Ht' & Hd').
  rewrite (bind_ok _ _ _ _ _ Heq). split; [done|]. intros i. by rewrite (Hd' i).
Qed.

Lemma do_control_inv now stopping (q : ControlRequest Payload) n s :
  inv s -> inv (do_control now stopping q n s).2.
Proof.
  intros Hinv. unfold do_control. rewrite bind_get.
  destruct (is_scoring _ && _); [exact Hinv|]. destruct (is_some _); [exact Hinv|].
  destruct (is_duplex _ && _); [exact Hinv|]. unfold mbind at 1, M_bind at 1.
  destruct (call (eng_control q) s) as [[c|e] s1] eqn:Hcall;
    pose proof (same_inv _ _ (call_same _ _ _ _ Hcall (law_control q (engine s))) Hinv) as H1;
    [|exact H1].
  rewrite bind_modify, bind_get.
  match goal with |- context [refresh_snapshot ?a ?b ?c ?d] => 
    match goal with |- context [(mbind _ _) ?t] =>
      destruct (refresh_snapshot_ok a b c d t) as (s2 & Heq & Hs2);
      rewrite (bind_ok _ _ _ _ _ Heq); apply (inv_same_but s2); try done;
      apply (same_inv _ _ Hs2); by apply (inv_same_but s1)
    end end.
Qed.

Lemma do_session_inv now stopping (c : SessionCommand) n s :
  inv s -> inv (do_session now stopping c n s).2.
Proof.
  intros Hinv. unfold do_session. rewrite bind_get.
  destruct (negb _ && (duplex_active s || _)); [exact Hinv|].
  destruct (negb _ && _); [exact Hinv|]. unfold mbind at 1, M_bind at 1.
  destruct (call (eng_session c) s) as [[d|e] s1] eqn:Hcall;
    pose proof (same_inv _ _ (call_same _ _ _ _ Hcall (law_session c (engine s))) Hinv) as H1;
    [|exact H1].
  rewrite bind_get.
  match goal with |- context [refresh_snapshot ?a ?b ?c ?d] =>
    destruct (refresh_snapshot_ok a b c d s1) as (s2 & Heq & Hs2) end.
  rewrite (bind_ok _ _ _ _ _ Heq). apply (inv_same_but s2); try done. by apply (same_inv s1).
Qed.

Lemma do_reload_inv context n s :
  inv s -> inv (do_reload limits sizeof_event sizeof_diff iter context n s).2.
Proof.
  intros Hinv. unfold do_reload. rewrite bind_get. destruct (is_some _); [exact Hinv|].
  match goal with |- context [mbind ?k ?x s] => set (k1 := k); set (x1 := x) end.
  assert (inv (x1 s).2) as H1.
  { unfold x1. destruct (duplex_active s); [|exact Hinv]. unfold mbind, M_bind.
    destruct (call (eng_control StopDuplex) s) as [[c|e] s1] eqn:Hcall;
      pose proof (same_inv _ _ (call_same _ _ _ _ Hcall (law_control _ (engine s))) Hinv) as H1;
      [|exact H1]. by apply (inv_same_but s1). }
  change (inv ((x1 ≫= k1) s).2). unfold mbind, M_bind.
  destruct (x1 s) as [[[]|e] s1]; [|exact H1]. simpl in H1.
  change (k1 tt s1) with ((get ≫= fun t : State => for_each (iter (requests t)) cancel ≫= fun _ =>
    modify (fun s => set_flags (Some (context, n)) (healthy s) (duplex_active s) s)) s1).
  rewrite bind_get.
  destruct (for_each_evolves (fun _ => False) (fun _ _ => True) cancel (iter (requests s1)))
    with (s := s1) as (s2 & Heq & Hc2 & Hev & _).
  - intros i t _ Ht [r Hr]. destruct (cancel_ok i t r Ht Hr) as (t' & ? & ? & ? & _). by exists t'.
  - done.
  - apply H1.
  - intros i. apply iter_in.
  - rewrite (bind_ok _ _ _ _ _ Heq). destruct H1 as (_ & Hk1 & Ho1).
    assert (inv s2) as H2.
    { split; [done|]. split; [by eapply evolves_keys|by apply (evolves_owned _ _ _ Hev)]. }
    by apply (inv_same_but s2).
Qed.

(** Clients only submit requests that pass the checks of [submit]. *)
Definition command_checked (c : Command Payload) : Prop :=
  match c with Submit q _ => submit_check q = Ok tt | _ => True end.

Lemma do_command_inv now stopping c s :
  inv s -> command_checked c -> inv (do_command limits sizeof_event sizeof_diff iter now stopping c s).2.
Proof.
  intros Hinv Hc. destruct c; simpl.
  - by apply do_submit_inv.
  - by apply do_cancel_inv.
  - by apply do_control_inv.
  - by apply do_session_inv.
  - by apply (inv_same_but s).
  - by apply do_reload_inv.
Qed.

Lemma run_command_inv now stopping c s :
  inv s -> command_checked c ->
  exists s', run_command limits sizeof_event sizeof_diff iter now stopping c s = (Ok tt, s') /\
    inv s'.
Proof.
  intros Hinv Hc. pose proof (do_command_inv now stopping c s Hinv Hc) as Hd.
  unfold run_command, try_catch. destruct (do_command _ _ _ _ now stopping c s) as [[[]|e] s1].
  { by exists s1. }
  rewrite bind_modify. eexists. split; [reflexivity|]. simpl in Hd.
  apply (inv_same_but s1); try done; by destruct (is_backend_failure e).
Qed.

Lemma commands_inv now stopping cs : forall s, inv s -> Forall command_checked cs ->
  exists s', for_each cs (run_command limits sizeof_event sizeof_diff iter now stopping) s =
    (Ok tt, s') /\ inv s'.
Proof.
  induction cs as [|c cs IH]; intros s Hs Hcs; simpl; [by exists s|].
  apply Forall_cons in Hcs as [Hc Hcs].
  destruct (run_command_inv now stopping c s Hs Hc) as (s1 & Heq & H1).
  rewrite (bind_ok _ _ _ _ _ Heq). by apply IH.
Qed.

Lemma round_inv now nows stopping req cs s : inv s -> Forall command_checked cs ->
  exists b s', round limits sizeof_event sizeof_diff iter now nows stopping req cs s = (Ok b, s') /\
    inv s' /\ all_open s'.
Proof.
  intros Hs Hcs. unfold round. destruct (commands_inv now stopping cs s Hs Hcs) as (s1 & Heq1 & H1).
  rewrite (bind_ok _ _ _ _ _ Heq1).
  assert (exists s2, try_catch (schedule limits sizeof_event sizeof_diff now nows stopping ≫=
    fun _ => mret tt) (recover limits sizeof_event sizeof_diff iter) s1 = (Ok tt, s2) /\ inv s2)
    as (s2 & Heq2 & H2).
  { pose proof (schedule_inv now nows stopping s1 H1) as Hsch. unfold try_catch, mbind, M_bind.
    destruct (schedule _ _ _ now nows stopping s1) as [[p|e] t]; [by exists t|].
    by apply recover_inv. }
  rewrite (bind_ok _ _ _ _ _ Heq2). destruct (retire_inv s2 H2) as (s3 & Heq3 & H3 & Hop3).
  rewrite (bind_ok _ _ _ _ _ Heq3).
  destruct (finish_reload_inv s3 H3) as (s4 & Heq4 & H4 & Hr4 & Hb4). rewrite (bind_ok _ _ _ _ _ Heq4).
  destruct (rotate_inv s4 H4) as (s5 & Heq5 & H5 & Hr5 & Hb5). rewrite (bind_ok _ _ _ _ _ Heq5).
  assert (forall t, requests t = requests s5 -> boxes t = boxes s5 -> all_open t) as Hop.
  { intros t Hr Hb id r. unfold has_terminal. rewrite Hr, Hb, Hr5, Hb5, Hr4, Hb4. apply Hop3. }
  rewrite bind_get. destruct (stopping && no_requests s5).
  - pose proof (law_shutdown (engine s5)) as Hl. unfold swallow, try_catch, call, mbind, M_bind.
    destruct (eng_shutdown (engine s5)) as [[[]|e] e']; (eexists true, _; split; [reflexivity|];
      split; [by apply (inv_eq s5)|by apply Hop]).
  - match goal with |- context [refresh_snapshot ?a ?b ?c ?d] =>
      destruct (refresh_snapshot_ok a b c d s5) as (s6 & Heq6 & H6) end.
    rewrite (bind_ok _ _ _ _ _ Heq6). exists false, s6. split; [done|].
    split; [by apply (same_inv s5)|]. apply Hop; apply H6.
Qed.

(** ** Reachable states *)

Definition initial (e : E) (i : Payload) (sn : Snapshot Payload) : State :=
  {| engine := e; requests := ∅; order := []; boxes := []; reload := None; healthy := true;
     duplex_active := false; info := i; snapshot := sn; replies := []; env := [] |}.

(** Rounds of the worker and drains of the clients, in any order. *)
Inductive reachable : State -> Prop :=
  | reach_initial e i sn : runs e = ∅ -> reachable (initial e i sn)
  | reach_env s l : reachable s -> reachable (set_env l s)
  | reach_drain s b : reachable s -> reachable (drain b s)
  | reach_round s now nows stopping req cs :
      reachable s -> Forall command_checked cs ->
      reachable (round limits sizeof_event sizeof_diff iter now nows stopping req cs s).2.

Lemma scheduler_inv s : reachable s -> inv s.
Proof.
  induction 1 as [e i sn He|s l _ IH|s b _ IH|s now nows stopping req cs _ IH Hcs].
  - split; [split; try done; constructor|]. split; [|by apply owned_idle].
    split; [constructor|]. intros id. simpl. rewrite lookup_empty. split; [|by intros [? ?]].
    by intros ?%elem_of_nil.
  - by apply (inv_same_but s).
  - destruct (drain_eq b s) as (l & -> & Hl).
    assert (set_boxes l s = set_env (env s) (set_boxes l s)) as -> by done.
    destruct IH as (Hc & Hk & Ho). split; [by apply drained_core|].
    pose proof (drained_evolves (fun _ => False) (env s) l s Hl) as Hev.
    split; [by eapply evolves_keys|by apply (evolves_owned _ _ _ Hev)].
  - destruct (round_inv now nows stopping req cs s IH Hcs) as (b & s' & -> & Hs' & _). exact Hs'.
Qed.

(** ** The order of events *)

(** What was sent to the client or waits to be. *)
Definition sent (id : string) (s : State) : list Event :=
  match requests s !! id with
  | Some r => match boxes s !! outbox r with
              | Some x => stream x ++ pending r
              | None => []
              end
  | None => []
  end.

Lemma stream_deliver ev x : stream (deliver ev x) = stream x ++ [ev].
Proof. unfold stream. simpl. by rewrite app_assoc. Qed.

Lemma flush_loop_stream p : forall x,
  let '(p', x') := flush_loop p x in stream x' ++ p' = stream x ++ p.
Proof.
  induction p as [|ev p IH]; intros x; cbn [Scheduler.flush_loop]; [done|].
  destruct (_ && _); [done|]. specialize (IH (deliver ev x)). destruct (flush_loop _ _).
  by rewrite IH, stream_deliver, <- app_assoc.
Qed.

Lemma sent_update id r x s :
  is_Some (boxes s !! outbox r) -> sent id (update id r x s) = stream x ++ pending r.
Proof. intros Hx. unfold sent. by rewrite update_lookup, update_box. Qed.

Lemma flush_sent id s : core s -> is_Some (requests s !! id) ->
  sent id (flush id s).2 = sent id s.
Proof.
  intros Hc [r Hr]. destruct (yield_eq s) as (e & l & Hy & Hl).
  set (s1 := set_env e (set_boxes l s)) in *.
  destruct (request_box id r s Hc Hr) as (x & Hx & _).
  destruct (Forall2_lookup_l _ _ _ _ _ Hl Hx) as (x1 & Hx1 & _ & Hst & _).
  change l with (boxes s1) in Hx1.
  unfold Scheduler.flush. rewrite (bind_ok _ _ _ _ _ Hy).
  rewrite (bind_ok _ _ _ _ _ (request_at_ok id s1 r Hr)).
  rewrite (bind_ok _ _ _ _ _ (box_at_ok _ _ _ Hx1)).
  pose proof (flush_loop_stream (pending r) x1) as Hfl.
  destruct (flush_loop (pending r) x1) as [p' x']. unfold modify. cbn [snd].
  change (put_box (outbox r) x' (put_request id (set_pending p' r) s1))
    with (update id (set_pending p' r) x' s1).
  rewrite sent_update by (by exists x1). cbn [pending set_pending].
  rewrite Hfl, Hst. unfold sent. by rewrite Hr, Hx.
Qed.

Lemma publish_sent id ev s r x : core s -> requests s !! id = Some r ->
  boxes s !! outbox r = Some x -> ob_terminal x = false -> failure r = None ->
  (ended ev = false -> ev_bytes ev <= limit_bytes limits - reserve) ->
  sent id (publish id ev s).2 =
    sent id s ++ [{| ev_id := ev_id ev; ev_data := truncate (ev_data ev) |}].
Proof.
  intros Hc Hr Hx Ht Hf Hb. destruct (yield_eq s) as (e & l & Hy & Hl).
  set (s1 := set_env e (set_boxes l s)) in *.
  destruct (Forall2_lookup_l _ _ _ _ _ Hl Hx) as (x1 & Hx1 & Ht1 & Hst & _).
  change l with (boxes s1) in Hx1. rewrite Ht in Ht1.
  unfold Scheduler.publish. rewrite (publish_exec _ _ ev s s1 r x1 Hy Hr Hx1), Ht1, Hf. cbv zeta.
  unfold outgoing. rewrite Hf. rewrite bool_decide_false by (intros [? ?]; done). cbn [andb].
  set (ev' := {| ev_id := ev_id ev; ev_data := truncate (ev_data ev) |}).
  destruct (negb (ended ev) && (limit_bytes limits - reserve <? ev_bytes ev')) eqn:Eov.
  { apply andb_true_iff in Eov as [He%negb_true_iff Hlt%Z.ltb_lt].
    assert (ev' = ev) as Heq; [|rewrite Heq in Hlt; specialize (Hb He); lia].
    unfold ev'. destruct ev as [i d]. simpl in *. by destruct d. }
  set (r1 := set_finished (finished r || ended ev) r).
  assert (sent id s = stream x1 ++ pending r) as Hs
    by (unfold sent; rewrite Hr, Hx; congruence).
  destruct (negb (bool_decide (pending r = [])) || _) eqn:Ep; cbn [snd].
  - rewrite (put_request_update id r x1 r1) by done.
    set (r2 := set_pending (pending r ++ [ev']) r1).
    rewrite (put_request_update id r1 x1 r2) by (done || (apply update_box; eauto)).
    rewrite update_update by done. rewrite sent_update by (by exists x1). unfold r2.
    cbn [pending set_pending]. by rewrite Hs, <- app_assoc.
  - change (put_box (outbox r) (deliver ev' x1) (put_request id r1 s1))
      with (update id r1 (deliver ev' x1) s1).
    rewrite sent_update by (by exists x1). apply orb_false_iff in Ep as [Ep%negb_false_iff _].
    apply bool_decide_eq_true in Ep. rewrite Hs, stream_deliver. cbn [pending r1 set_finished].
    by rewrite Ep, !app_nil_r.
Qed.
End SchedulerInv.
