(* ===== verification/SchedulerSpec.v ===== *)
(** * What the scheduler promises

    The properties of the scheduler over all reachable states (rounds of the
    worker and drains of the clients in any order), for every engine that keeps
    [EngineLaws]. [Echo] is such an engine: it admits one request at a time and
    completes it in the first step in which it is eligible. *)

From stdpp Require Import base list strings gmap sorting.
From Stdlib Require Import ZArith Lia.
From S2P Require Import Prelude Scheduler SchedulerInv.

#[local] Set Default Proof Using "Type".
Open Scope Z_scope.

(** The constructor accepted the limits, an event object is small enough that
    the terminal reserve fits, and [iter] enumerates the map. *)
Record setting {Payload} (limits : Limits) (sizeof_event : Z)
    (iter : gmap string (Request Payload) -> list string) : Prop := {
  se_limits : limits_check limits = Ok tt;
  se_event : 0 <= sizeof_event <= 3392;
  se_iter : forall m, iter m ≡ₚ (map_to_list m).*1;
}.

Lemma setting_limits {Payload} limits sizeof_event
    (iter : gmap string (Request Payload) -> list string) :
  setting limits sizeof_event iter ->
  4 <= limit_events limits /\ 0 <= sizeof_event /\
  terminal_reserve sizeof_event <= limit_bytes limits.
Proof.
  intros [Hl He _]. unfold limits_check in Hl. destruct (_ || _) eqn:Eb; [done|].
  apply orb_false_iff in Eb as [?%Z.ltb_ge ?%Z.ltb_ge]. unfold terminal_reserve. lia.
Qed.

(** ** An engine *)

Module Echo.
Record State := { running : gset string; stopped : gset string }.

Definition done (ids : list string) (e : State) : gset string :=
  running e ∩ (stopped e ∪ list_to_set ids).

Definition event (e : State) (id : string) : EngineEvent unit :=
  {| ev_id := id;
     ev_data := if decide (id ∈ stopped e) then Cancelled None else Completed "stop" tt |}.

#[global] Instance engine : Engine State unit := {
  eng_info _ := tt;
  eng_status _ := {| available := 1; status_healthy := true |};
  eng_admit r e :=
    if decide (running e = ∅)
    then (Ok accepted, {| running := {[req_id r]} ∪ running e; stopped := stopped e |})
    else (Ok deferred, e);
  eng_cancel id e := (Ok tt, {| running := running e; stopped := {[id]} ∪ stopped e |});
  eng_step ids e :=
    (Ok {| advanced := ids; events := event e <$> elements (done ids e);
           result_status := {| available := 1; status_healthy := true |};
           has_work := false; result_wake_at := None |},
     {| running := running e ∖ done ids e; stopped := stopped e |});
  eng_session _ e := (Ok {| session_count := 0; session_metrics := [] |}, e);
  eng_reload context e := (Ok context, {| running := ∅; stopped := ∅ |});
  eng_shutdown e := (Ok tt, e);
  eng_control _ e := (Ok (MetricsResult []), e);
}.

#[global] Instance laws : EngineLaws State unit.
Proof.
  refine {| runs := running; halted := stopped |}.
  - intros id e. eexists. split; [reflexivity|]. split; [done|]. simpl. set_solver.
  - intros r e. simpl. by destruct (decide _).
  - intros ids e. simpl. split; [unfold done; set_solver|]. intros i ev Hi.
    rewrite list_lookup_fmap in Hi. apply fmap_Some_1 in Hi as (id & Hid & ->). simpl.
    assert (id ∈ done ids e) as Hd by (apply elem_of_elements; by eapply list_elem_of_lookup_2).
    split; [unfold done in Hd; set_solver|]. intros _. split; [set_solver|].
    intros j ev' Hj Hij. rewrite list_lookup_fmap in Hj.
    apply fmap_Some_1 in Hj as (id' & Hid' & ->). simpl. intros ->.
    pose proof (NoDup_lookup _ _ _ _ (NoDup_elements (done ids e)) Hid Hid'). lia.
  - done.
  - done.
  - intros context e n. done.
  - done.
Defined.
End Echo.

Section Spec.
Context {E Payload : Type} `{EngineLaws E Payload}.
Context (limits : Limits) (sizeof_event sizeof_diff : Z).
Context (iter : gmap string (Request Payload) -> list string).

Implicit Types (r : Request Payload) (x : Outbox Payload) (s : Sched E Payload).

Abbreviation reachable := (reachable (E := E) limits sizeof_event sizeof_diff iter).

(** C31: in every reachable state a round, whatever the engine throws, ends
    without an exception, and afterwards the outbox of every active request is
    still open: a request that got its terminal event is gone. *)
Theorem round_total now nows stopping snapshot_requested commands s :
  setting limits sizeof_event iter -> reachable s -> Forall command_checked commands ->
  exists b s',
    round limits sizeof_event sizeof_diff iter now nows stopping snapshot_requested commands s =
      (Ok b, s') /\
    forall id r, requests s' !! id = Some r ->
      exists x, boxes s' !! outbox r = Some x /\ ob_terminal x = false.
Proof.
  intros Hset Hs Hcs. pose proof (setting_limits _ _ _ Hset) as Hlim. destruct Hset as [_ _ Hit].
  pose proof (scheduler_inv _ _ _ _ Hlim Hit _ Hs) as Hinv.
  destruct (round_inv _ _ sizeof_diff _ Hlim Hit now nows stopping snapshot_requested commands s Hinv Hcs)
    as (b & s' & Heq & Hinv' & Hop).
  exists b, s'. split; [done|]. intros id r Hr.
  destruct Hinv' as (Hc & _ & _). destruct (co_req _ _ _ _ Hc id r Hr) as (x & Hx & _).
  exists x. split; [done|]. apply not_true_iff_false. intros Ht. apply (Hop id r Hr). by exists x.
Qed.

(** C25: in every reachable state the admission order lists each active request
    exactly once, no two active requests share a session or an outbox, and a
    healthy engine only runs admitted requests that have not finished. *)
Theorem active_requests_exclusive s :
  setting limits sizeof_event iter -> reachable s ->
  order s ≡ₚ (map_to_list (requests s)).*1 /\
  (forall i j ri rj, requests s !! i = Some ri -> requests s !! j = Some rj -> i <> j ->
     outbox ri <> outbox rj /\
     (req_session (input ri) = req_session (input rj) -> req_session (input ri) = ""%string)) /\
  (healthy s = true -> forall id, id ∈ runs (engine s) ->
     exists r, requests s !! id = Some r /\ admitted r = true /\ finished r = false).
Proof.
  intros Hset Hs. pose proof (setting_limits _ _ _ Hset) as Hlim. destruct Hset as [_ _ Hit].
  destruct (scheduler_inv _ _ _ _ Hlim Hit _ Hs) as (Hc & [Hn Hk] & Ho). split; [|split; [|exact Ho]].
  - apply NoDup_Permutation; [done|apply NoDup_fst_map_to_list|]. intros id.
    rewrite Hk, list_elem_of_fmap. split.
    + intros [r Hr]. exists (id, r). split; [done|]. by apply elem_of_map_to_list.
    + intros ([k r] & -> & Hkr%elem_of_map_to_list). by exists r.
  - intros i j ri rj Hi Hj Hij. split.
    + intros Heq. apply Hij. by apply (co_inj _ _ _ _ Hc i j ri rj).
    + intros Heq. destruct (decide (req_session (input ri) = ""%string)) as [|Hne]; [done|].
      destruct Hij. by apply (co_sessions _ _ _ _ Hc i j ri rj).
Qed.

(** C15: in every reachable state the byte counter of every outbox is the exact
    size of the events it holds, and events and bytes are within the limits. *)
Theorem outbox_within_budget s b x :
  setting limits sizeof_event iter -> reachable s -> boxes s !! b = Some x ->
  ob_bytes x = Zsum (total_bytes sizeof_event sizeof_diff) (ob_events x) /\
  size_of (ob_events x) <= limit_events limits /\ ob_bytes x <= limit_bytes limits.
Proof.
  intros Hset Hs Hb. pose proof (setting_limits _ _ _ Hset) as Hlim. destruct Hset as [_ _ Hit].
  destruct (scheduler_inv _ _ _ _ Hlim Hit _ Hs) as (Hc & _).
  pose proof (co_box _ _ _ _ Hc) as Hbox. rewrite Forall_lookup in Hbox.
  destruct (Hbox b x Hb) as [Hby _ Hroom]. split; [done|]. unfold terminal_reserve in *.
  destruct (ob_terminal x); lia.
Qed.

(** C1: what a client receives plus what its outbox still holds is a sequence
    of ordinary events with at most one terminal event, which is the last; the
    outbox is marked terminal exactly when that event is there. *)
Theorem terminal_is_last s b x :
  setting limits sizeof_event iter -> reachable s -> boxes s !! b = Some x ->
  exists l, Forall (fun ev => terminal (ev_data ev) = false) l /\
    if ob_terminal x
    then exists t, ob_taken x ++ ob_events x = l ++ [t] /\ terminal (ev_data t) = true
    else ob_taken x ++ ob_events x = l.
Proof.
  intros Hset Hs Hb. pose proof (setting_limits _ _ _ Hset) as Hlim. destruct Hset as [_ _ Hit].
  destruct (scheduler_inv _ _ _ _ Hlim Hit _ Hs) as (Hc & _).
  pose proof (co_box _ _ _ _ Hc) as Hbox. rewrite Forall_lookup in Hbox.
  destruct (Hbox b x Hb) as [_ Hst _]. destruct (ob_terminal x).
  - destruct Hst as (l & t & Heq & Hl & Ht). exists l. split; [exact Hl|]. by exists t.
  - exists (stream x). split; [exact Hst|done].
Qed.

(** No event is lost, duplicated or reordered. Publishing an event for an
    open request without a recorded failure, when the event fits the budget,
    appends it to what was sent or waits; moving waiting events to the outbox
    changes nothing of that sequence. *)
Theorem events_in_order s id r x ev :
  setting limits sizeof_event iter -> reachable s -> requests s !! id = Some r ->
  boxes s !! outbox r = Some x ->
  sent id (flush limits sizeof_event sizeof_diff id s).2 = sent id s /\
  (ob_terminal x = false -> failure r = None ->
   (terminal (ev_data ev) = false ->
      total_bytes sizeof_event sizeof_diff ev <= limit_bytes limits - terminal_reserve sizeof_event) ->
   sent id (publish limits sizeof_event sizeof_diff id ev s).2 =
     sent id s ++ [{| ev_id := ev_id ev; ev_data := truncate (ev_data ev) |}]).
Proof.
  intros Hset Hs Hr Hx. pose proof (setting_limits _ _ _ Hset) as Hlim. destruct Hset as [_ _ Hit].
  destruct (scheduler_inv _ _ _ _ Hlim Hit _ Hs) as (Hc & _). split.
  - eapply flush_sent; [done|exact Hit|done|by exists r].
  - intros Ht Hf Hb. by eapply publish_sent.
Qed.

(** Cancelling an active request never throws; afterwards it is finished
    with its terminal event delivered, or marked as cancelling for the engine to
    end. The queue and the engine's running requests are unchanged. *)
Theorem cancel_settles s id r :
  setting limits sizeof_event iter -> reachable s -> requests s !! id = Some r ->
  exists s', cancel limits sizeof_event sizeof_diff id s = (Ok tt, s') /\
    order s' = order s /\ runs (engine s') = runs (engine s) /\
    exists r', requests s' !! id = Some r' /\ input r' = input r /\ outbox r' = outbox r /\
      ((finished r' = true /\ exists x, boxes s' !! outbox r = Some x /\ ob_terminal x = true) \/
       (finished r' = false /\ cancelling r' = true)).
Proof.
  intros Hset Hs Hr. pose proof (setting_limits _ _ _ Hset) as Hlim. destruct Hset as [_ _ Hit].
  destruct (scheduler_inv _ _ _ _ Hlim Hit _ Hs) as (Hc & _).
  destruct (cancel_ok _ _ _ Hlim id s r Hc Hr) as (s' & Heq & _ & Hev & Hset).
  exists s'. split; [done|]. split; [apply Hev|]. split; [apply Hev|].
  destruct (evolves_some _ _ _ _ _ Hev Hr) as (r' & Hr' & Hin & Ho & _).
  exists r'. do 3 (split; [done|]). destruct (Hset r' Hr') as [Hcl Hor].
  destruct (finished r') eqn:Hf.
  - left. split; [done|]. destruct (Hcl eq_refl) as (r2 & x & Hr2 & Hx & Ht).
    exists x. rewrite <- Ho. by replace r' with r2 by congruence.
  - right. split; [done|]. by destruct Hor.
Qed.
End Spec.

(** ** A run *)

Section Run.
Local Definition run_limits : Limits := {| limit_events := 64; limit_bytes := 1048576 |}.
Local Definition run_iter (m : gmap string (Request unit)) : list string := (map_to_list m).*1.

Local Definition run_request (id session : string) (priority : Z) : EngineRequest unit :=
  {| req_id := id; req_session := session; req_deadline := None; req_priority := priority;
     req_payload := tt |}.

Local Definition run_start : Sched Echo.State unit :=
  initial {| Echo.running := ∅; Echo.stopped := ∅ |} tt
    {| snap_status := {| available := 1; status_healthy := true |};
       snap_runtime := []; snap_session := []; snap_captured := 0 |}.

Local Definition run_commands : list (Command unit) :=
  [Submit (run_request "a" "s" 0) 0; Submit (run_request "b" "" 0) 1;
   Submit (run_request "c" "t" 1) 2].

(** Three requests in one round: "c" goes first and completes, "a" and "b" wait. *)
Local Definition run_round : Sched Echo.State unit :=
  (round run_limits 200 150 run_iter 0 (fun _ => 0) false false run_commands run_start).2.

Lemma run_setting : setting run_limits 200 run_iter.
Proof. split; [reflexivity|lia|done]. Qed.

Lemma run_checked : Forall command_checked run_commands.
Proof. repeat constructor. Qed.

Lemma run_reachable : reachable run_limits 200 150 run_iter run_round.
Proof.
  apply reach_round; [|apply run_checked]. apply reach_initial. done.
Qed.

Example run_order : order run_round = ["b"; "a"]%string.
Proof. vm_compute. reflexivity. Qed.

Lemma round_total_witness :
  exists b s',
    round run_limits 200 150 run_iter 1 (fun _ => 1) true false [Cancel "" false true 3] run_round =
      (Ok b, s') /\
    forall id r, requests s' !! id = Some r ->
      exists x, boxes s' !! outbox r = Some x /\ ob_terminal x = false.
Proof.
  apply round_total; [apply run_setting|apply run_reachable|]. repeat constructor.
Defined.

Lemma active_requests_exclusive_witness :
  order run_round ≡ₚ ["a"; "b"]%string /\
  forall ra rb, requests run_round !! "a"%string = Some ra ->
    requests run_round !! "b"%string = Some rb -> outbox ra <> outbox rb.
Proof.
  destruct (active_requests_exclusive run_limits 200 150 run_iter run_round run_setting
    run_reachable) as (H1 & H2 & _). split.
  - rewrite H1. apply (bool_decide_unpack _). vm_compute. exact I.
  - intros ra rb Ha Hb. by apply (H2 "a" "b")%string.
Defined.

Lemma outbox_within_budget_witness : exists x, boxes run_round !! 2%nat = Some x /\
  ob_bytes x = 205 /\ size_of (ob_events x) <= 64.
Proof.
  eexists. split; [vm_compute; reflexivity|].
  match goal with |- ob_bytes ?x = _ /\ _ =>
    destruct (outbox_within_budget run_limits 200 150 run_iter run_round 2%nat x run_setting
      run_reachable) as (H1 & H2 & _); [vm_compute; reflexivity|] end.
  split; [rewrite H1; vm_compute; reflexivity|exact H2].
Defined.

Lemma terminal_is_last_witness : exists x l t, boxes run_round !! 2%nat = Some x /\
  ob_taken x ++ ob_events x = l ++ [t] /\ terminal (ev_data t) = true.
Proof.
  destruct (boxes run_round !! 2%nat) as [x|] eqn:Hx; [|vm_compute in Hx; discriminate Hx].
  destruct (terminal_is_last run_limits 200 150 run_iter run_round 2%nat x run_setting
    run_reachable Hx) as (l & _ & Hl).
  assert (ob_terminal x = true) as Ht by (vm_compute in Hx; injection Hx as <-; reflexivity).
  rewrite Ht in Hl. destruct Hl as (t & Heq & Hte).
  exists x, l, t. exact (conj eq_refl (conj Heq Hte)).
Defined.

Lemma events_in_order_witness : exists r x,
  requests run_round !! "a"%string = Some r /\ boxes run_round !! outbox r = Some x /\
  sent "a" (publish run_limits 200 150 "a"
    {| ev_id := "a"; ev_data := OutputDelta [7] [] |} run_round).2 =
  sent "a" run_round ++ [{| ev_id := "a"; ev_data := OutputDelta [7] [] |}].
Proof.
  destruct (requests run_round !! "a"%string) as [r|] eqn:Hr; [|vm_compute in Hr; discriminate Hr].
  destruct (boxes run_round !! outbox r) as [x|] eqn:Hx;
    [|vm_compute in Hr; injection Hr as <-; vm_compute in Hx; discriminate Hx].
  exists r, x. split; [reflexivity|]. split; [exact Hx|].
  apply (events_in_order run_limits 200 150 run_iter run_round "a" r x
    {| ev_id := "a"; ev_data := OutputDelta [7] [] |} run_setting run_reachable Hr Hx);
    [| |intros _; vm_compute; discriminate].
  - vm_compute in Hr. injection Hr as <-. vm_compute in Hx. injection Hx as <-. reflexivity.
  - vm_compute in Hr. injection Hr as <-. reflexivity.
Defined.

Lemma cancel_settles_witness : exists r s', requests run_round !! "b"%string = Some r /\
  cancel run_limits 200 150 "b" run_round = (Ok tt, s') /\
  exists r', requests s' !! "b"%string = Some r' /\ (finished r' = true \/ cancelling r' = true).
Proof.
  destruct (requests run_round !! "b"%string) as [r|] eqn:Hr; [|vm_compute in Hr; discriminate Hr].
  destruct (cancel_settles run_limits 200 150 run_iter run_round "b" r run_setting run_reachable Hr)
    as (s' & Heq & _ & _ & r' & Hr' & _ & _ & Hc).
  exists r, s'. split; [reflexivity|]. split; [exact Heq|]. exists r'. split; [exact Hr'|].
  destruct Hc as [[Hf _]|[_ Hc]]; [left; exact Hf|right; exact Hc].
Defined.
End Run.
