(* ===== verification/Executor.v ===== *)
(** * The request executor and the engine instance
      ([engine/include/request_executor.h], [engine/src/request_executor.cpp])

    The executor owns the generations of the running requests and advances each
    by one quantum per step; [EngineInstance] puts it behind the interface
    [Engine] the scheduler drives. The backend is a parameter: its state is [B],
    a generation is [G]. *)

From stdpp Require Import base list strings gmap sets.
From Stdlib Require Import ZArith Lia.
From S2P Require Import Prelude GenerationPolicy TextEmitter ChatDiff Inference.
From S2P Require Import Generation Scheduler SchedulerInv.

#[local] Set Default Proof Using "Type".
Open Scope Z_scope.

(** ** Session commands *)

(** The prefix cache of a backend; functions tested with [requires] are
    optional. *)
Record CacheOps (B Payload : Type) := {
  fork_session : string -> string -> M B Z;
  close_session : string -> M B Z;
  clear_cache : M B Z;
  trim_hot : Z -> M B Z;
  set_limits : option ((Z -> M B unit) * (Z -> M B Z));  (** [set_disk_limit], [set_hot_limit] *)
  set_ram_limit : option (Z -> M B Z);
  cache_metrics : M B (Metrics Payload);
  refresh_disk_index : option (M B Z);
}.
Arguments fork_session {B Payload} _.
Arguments close_session {B Payload} _.
Arguments clear_cache {B Payload} _.
Arguments trim_hot {B Payload} _.
Arguments set_limits {B Payload} _.
Arguments set_ram_limit {B Payload} _.
Arguments cache_metrics {B Payload} _.
Arguments refresh_disk_index {B Payload} _.

Definition counted {B Payload} (m : M B Z) : M B (SessionResult Payload) :=
  n ← m; mret {| session_count := n; session_metrics := [] |}.

Definition control_session {B Payload} (cache : CacheOps B Payload) (c : SessionCommand)
    : M B (SessionResult Payload) :=
  match kind c with
  | kfork => counted (fork_session cache (source c) (target c))
  | kclose => counted (close_session cache (source c))
  | kclear => counted (clear_cache cache)
  | ktrim => counted (trim_hot cache (command_bytes c))
  | kbudget =>
      match set_limits cache with
      | Some (set_disk_limit, set_hot_limit) =>
          match disk_bytes c with
          | Some n => set_disk_limit n
          | None => mret tt
          end ≫= fun _ =>
          released ← set_hot_limit (command_bytes c);
          match set_ram_limit cache, ram_bytes c with
          | Some set_ram, Some n =>
              more ← set_ram n;
              mret {| session_count := u64 (released + more); session_metrics := [] |}
          | _, _ => mret {| session_count := released; session_metrics := [] |}
          end
      | None => throw (InvalidArgument "prefix cache budgets are unavailable")
      end
  | kmetrics => m ← cache_metrics cache; mret {| session_count := 0; session_metrics := m |}
  | krefresh =>
      match refresh_disk_index cache with
      | Some f => counted f
      | None => throw (InvalidArgument "prefix cache refresh is unavailable")
      end
  | kmemory_budget =>
      throw (InvalidArgument "online resident memory budgets are unavailable for this backend")
  end.

(** ** Requests *)

(** What the executor and a generation share: [input], the tokenizer and parser
    [output] refers to, [output] and its [cleanup_failure]. *)
Record Shared {Ms : Type} := {
  sh_prompt : list Z;
  sh_request : InferenceRequest;
  sh_stable_prefix : Z;
  sh_tokenizer : option Tokenizer;
  sh_parser : bytes -> bool -> outcome Msg;
  sh_output : Output (Ms := Ms);
  sh_cleanup : option exn;
}.
Arguments Shared : clear implicits.

Definition set_output {Ms} (o : Output (Ms := Ms)) (x : Shared Ms) : Shared Ms :=
  {| sh_prompt := sh_prompt x; sh_request := sh_request x; sh_stable_prefix := sh_stable_prefix x;
     sh_tokenizer := sh_tokenizer x; sh_parser := sh_parser x; sh_output := o; sh_cleanup := sh_cleanup x |}.
Definition set_cleanup {Ms} (c : option exn) (x : Shared Ms) : Shared Ms :=
  {| sh_prompt := sh_prompt x; sh_request := sh_request x; sh_stable_prefix := sh_stable_prefix x;
     sh_tokenizer := sh_tokenizer x; sh_parser := sh_parser x; sh_output := sh_output x; sh_cleanup := c |}.

Record ExecutionRequest {Ms G : Type} := {
  shared : Shared Ms;
  generation : option G;  (** [None] is the empty handle *)
  er_failure : option exn;
  started : bool;
  batched : bool;
  done : bool;
}.
Arguments ExecutionRequest : clear implicits.

(** [EngineInfo]; the fields that are only reported are one value. *)
Record EngineInfo {Payload : Type} := {
  max_requests : Z;
  max_context : Z;
  vocab_size : Z;
  info_stop_tokens : gset Z;
  info_rest : Payload;
}.
Arguments EngineInfo : clear implicits.

(** The backend: [ops] of [backend.visit]. [T] is the text processor. *)
Record Backend (B G T Ms Payload : Type) := {
  b_exclusive : B -> bool;
  b_can_batch : EngineRequest Payload -> B -> bool;
  b_execute : list string -> M B unit;
  b_generate : string -> Shared Ms -> M B G;
  (** Resuming and destroying a generation. *)
  b_next : G -> Shared Ms -> B -> outcome (StepResult Ms) * (G * Shared Ms * B);
  b_destroy : G -> Shared Ms -> B -> option exn * B;
  b_session : option (SessionCommand -> M B (SessionResult Payload));
  b_cache : CacheOps B Payload;
  b_control : ControlRequest Payload -> M B (ControlResult Payload);
  b_load : M B (EngineInfo Payload * option T);
  b_unload : M B unit;
  b_set_context : Z -> B -> B;
  (** The text processor: [prepare] and its control functions. *)
  t_prepare : T -> EngineRequest Payload -> Z ->
    outcome (list Z * InferenceRequest * Z * Tokenizer * (bytes -> bool -> outcome Msg));
  t_control : T -> EngineInfo Payload -> ControlRequest Payload -> outcome (ControlResult Payload);
  t_chat : T -> EngineInfo Payload -> EngineInfo Payload;
  (** The fields of a request: [token_ids], sampling and cache plan. *)
  q_token_ids : EngineRequest Payload -> list Z;
  q_request : EngineRequest Payload -> gset Z -> InferenceRequest;
  q_stable_prefix : EngineRequest Payload -> Z;
  (** Event payloads. *)
  p_timing : Timing (Ms := Ms) -> Payload;
  p_usage : Z -> Z -> Payload;
  p_final : Z -> Z -> InferenceMetrics (Ms := Ms) -> Payload;
  p_info : EngineInfo Payload -> Payload;
}.
Arguments b_exclusive {B G T Ms Payload} _.
Arguments b_can_batch {B G T Ms Payload} _.
Arguments b_execute {B G T Ms Payload} _.
Arguments b_generate {B G T Ms Payload} _.
Arguments b_next {B G T Ms Payload} _.
Arguments b_destroy {B G T Ms Payload} _.
Arguments b_session {B G T Ms Payload} _.
Arguments b_cache {B G T Ms Payload} _.
Arguments b_control {B G T Ms Payload} _.
Arguments b_load {B G T Ms Payload} _.
Arguments b_unload {B G T Ms Payload} _.
Arguments b_set_context {B G T Ms Payload} _.
Arguments t_prepare {B G T Ms Payload} _.
Arguments t_control {B G T Ms Payload} _.
Arguments t_chat {B G T Ms Payload} _.
Arguments q_token_ids {B G T Ms Payload} _.
Arguments q_request {B G T Ms Payload} _.
Arguments q_stable_prefix {B G T Ms Payload} _.
Arguments p_timing {B G T Ms Payload} _.
Arguments p_usage {B G T Ms Payload} _.
Arguments p_final {B G T Ms Payload} _.
Arguments p_info {B G T Ms Payload} _.

Section Executor.
Context {B G T Ms Payload : Type} (zero : Ms) (positive : Ms -> bool)
  (ops : Backend B G T Ms Payload).
(** The iteration order of [std::unordered_map]. *)
Context (iter : gmap string (ExecutionRequest Ms G) -> list string).

Abbreviation Event := (EngineEvent Payload).
Abbreviation Req := (ExecutionRequest Ms G).

(** [RequestExecutor]. *)
Record Executor := {
  capacity : Z;
  ex_healthy : bool;
  ex_requests : gmap string Req;
}.

(** [EngineInstance]. *)
Record Instance := {
  backend : B;
  text_processor : option T;
  inst_info : EngineInfo Payload;
  executor : Executor;
  loaded : bool;
}.

Abbreviation Op := (M Instance).

Definition set_backend (b : B) (s : Instance) : Instance :=
  {| backend := b; text_processor := text_processor s; inst_info := inst_info s;
     executor := executor s; loaded := loaded s |}.
Definition set_executor (x : Executor) (s : Instance) : Instance :=
  {| backend := backend s; text_processor := text_processor s; inst_info := inst_info s;
     executor := x; loaded := loaded s |}.
Definition set_requests (m : gmap string Req) (x : Executor) : Executor :=
  {| capacity := capacity x; ex_healthy := ex_healthy x; ex_requests := m |}.
Definition set_health (h : bool) (x : Executor) : Executor :=
  {| capacity := capacity x; ex_healthy := h; ex_requests := ex_requests x |}.
Definition put_req (id : string) (r : Req) (s : Instance) : Instance :=
  set_executor (set_requests (<[id := r]> (ex_requests (executor s))) (executor s)) s.

Definition on_backend {A} (m : M B A) : Op A := fun s =>
  let '(r, b) := m (backend s) in (r, set_backend b s).

Definition set_shared (x : Shared Ms) (r : Req) : Req :=
  {| shared := x; generation := generation r; er_failure := er_failure r; started := started r;
     batched := batched r; done := done r |}.
Definition set_generation (g : option G) (r : Req) : Req :=
  {| shared := shared r; generation := g; er_failure := er_failure r; started := started r;
     batched := batched r; done := done r |}.
Definition set_started (r : Req) : Req :=
  {| shared := shared r; generation := generation r; er_failure := er_failure r; started := true;
     batched := batched r; done := done r |}.
Definition set_er_failure (e : option exn) (r : Req) : Req :=
  {| shared := shared r; generation := generation r; er_failure := e; started := started r;
     batched := batched r; done := done r |}.

(** [ExecutionRequest::complete]. *)
Definition complete_request (e : option exn) (r : Req) : Req :=
  {| shared := shared r; generation := generation r; er_failure := e; started := started r;
     batched := batched r; done := true |}.

Definition is_cancelled (r : Req) : bool := cancelled (result (sh_output (shared r))).

Definition executor_empty (x : Executor) : bool := bool_decide (size (ex_requests x) = 0)%nat.

(** [RequestExecutor::status]. *)
Definition executor_status (exclusive : bool) (x : Executor) : EngineStatus :=
  if negb (ex_healthy x) then {| available := 0; status_healthy := false |}
  else if exclusive then {| available := 0; status_healthy := true |}
  else if existsb (fun kv => negb (batched kv.2)) (map_to_list (ex_requests x))
  then {| available := 0; status_healthy := true |}
  else {| available := u64 (capacity x - Z.of_nat (size (ex_requests x)));
          status_healthy := true |}.

(** [RequestExecutor::admit]. *)
Definition executor_admit (now : Z) (r : EngineRequest Payload) : Op Admission :=
  s ← get;
  let x := executor s in
  if bool_decide (is_Some (ex_requests x !! req_id r))
  then throw (InvalidArgument "duplicate request ID")
  else
    let batched := b_can_batch ops r (backend s) in
    if (available (executor_status (b_exclusive ops (backend s)) x) =? 0) ||
       (negb batched && negb (executor_empty x))
    then mret deferred
    else
      '(prompt, input, stable, tokenizer, parser) ←
        lift (if negb (is_nil (q_token_ids ops r))
              then Ok (q_token_ids ops r, q_request ops r (info_stop_tokens (inst_info s)),
                       q_stable_prefix ops r, None, fun _ _ => Ok empty_msg)
              else match text_processor s with
                   | None => Throw (InvalidArgument "text input requires a tokenizer")
                   | Some t =>
                       p ← t_prepare ops t r (max_context (inst_info s));
                       let '(prompt, input, stable, tokenizer, parser) := p in
                       Ok (prompt, input, stable, Some tokenizer, parser)
                   end);
      plan ← lift (plan_generation prompt (vocab_size (inst_info s)) (max_context (inst_info s))
                     (max_tokens input) stable (-1));
      let input := {| benchmark_fixed_tokens := benchmark_fixed_tokens input; chat := chat input;
                      continues := continues input; preserved_tokens := preserved_tokens input;
                      req_stops := req_stops input; stop_token_ids := stop_token_ids input;
                      max_tokens := generation_tokens plan |} in
      output ← lift (make_output zero input tokenizer parser now);
      modify (put_req (req_id r)
        {| shared := {| sh_prompt := prompt; sh_request := input;
                        sh_stable_prefix := stable_prefix_tokens plan; sh_tokenizer := tokenizer;
                        sh_parser := parser; sh_output := output; sh_cleanup := None |};
           generation := None; er_failure := None; started := false; batched := batched;
           done := false |}) ≫= fun _ =>
      mret accepted.

(** [RequestExecutor::cancel]. *)
Definition cancel_output (o : Output (Ms := Ms)) : Output :=
  set_result {| text := text (result o); reasoning_text := reasoning_text (result o);
                result_calls := result_calls (result o); finish_reason := finish_reason (result o);
                completion_tokens := completion_tokens (result o); cancelled := true |} o.
Definition cancel_req (r : Req) : Req :=
  set_shared (set_output (cancel_output (sh_output (shared r))) (shared r)) r.
Definition executor_cancel (id : string) : Op unit := modify (fun s =>
  match ex_requests (executor s) !! id with
  | Some r => put_req id (cancel_req r) s
  | None => s
  end).

(** [current.generation = {}]: the destructor may record a cleanup failure. *)
Definition drop_generation (r : Req) (b : B) : Req * B :=
  match generation r with
  | None => (r, b)
  | Some g =>
      let '(failure, b) := b_destroy ops g (shared r) b in
      (set_generation None
         (match failure with
          | Some e => set_shared (set_cleanup (Some e) (shared r)) r
          | None => r
          end), b)
  end.

(** [RequestExecutor::clear]: the cleanup failure to rethrow. *)
Definition executor_clear : Op (option exn) := fun s =>
  let '(failure, b) := foldl (fun '(failure, b) id =>
      match ex_requests (executor s) !! id with
      | Some r =>
          let '(r, b) := drop_generation r b in
          (match sh_cleanup (shared r) with Some e => Some e | None => failure end, b)
      | None => (failure, b)
      end) (None, backend s) (iter (ex_requests (executor s))) in
  (Ok failure, set_executor (set_requests ∅ (executor s)) (set_backend b s)).

(** ** A step *)

(** The accumulated [EngineStepResult]. *)
Record StepEvents := { st_advanced : list string; st_events : list Event }.

Definition push_event (id : string) (d : EventData Payload) (r : StepEvents) : StepEvents :=
  {| st_advanced := st_advanced r; st_events := st_events r ++ [{| ev_id := id; ev_data := d |}] |}.
Definition push_advanced (id : string) (r : StepEvents) : StepEvents :=
  {| st_advanced := st_advanced r ++ [id]; st_events := st_events r |}.

(** The sizes of a difference. *)
Definition diff_sizes (d : MsgDiff) : Scheduler.Diff :=
  {| content_size := size_of (content_delta d); reasoning_size := size_of (reasoning_content_delta d);
     name_size := size_of (call_name (tool_call_delta d));
     arguments_size := size_of (call_arguments (tool_call_delta d));
     diff_id_size := size_of (call_id (tool_call_delta d)) |}.
Definition delta_event (o : TokenOutput) : EventData Payload :=
  OutputDelta (token_ids o) (diff_sizes <$> diffs o).
Definition value_event (v : GenValue Ms) : EventData Payload :=
  match v with Progress t => PrefillProgress (p_timing ops t) | Delta o => delta_event o end.

(** The event of the handler that catches the failure, and the engine's health
    after it. *)
Definition failed (code message : string) (retryable : bool) : EventData Payload :=
  FailedEvent {| code := code; message := message; retryable := retryable |}.
Definition failure_event (healthy : bool) (e : exn) : EventData Payload * bool :=
  match e with
  | ResourceExhausted what =>
      (failed (if healthy then "resource_exhausted" else "backend_failure") what healthy, healthy)
  | InputError unsupported what =>
      (failed (if negb healthy then "backend_failure"
               else if unsupported then "unsupported_input" else "invalid_request") what false, healthy)
  | InvalidArgument what =>
      (failed (if healthy then "invalid_request" else "backend_failure") what false, healthy)
  | BackendFailure what => (failed "backend_failure" what false, false)
  | OtherException => (failed "backend_failure" "unknown execution failure" false, false)
  | e => (failed "backend_failure" (exn_message e) false, healthy)
  end.

(** [RequestExecutor::finish]; the request is erased after it. *)
Definition finish_request (id : string) (r : Req) (healthy : bool) (result0 : StepEvents)
    : StepEvents * bool :=
  let x := shared r in
  match (match er_failure r with
         | Some e => Throw e
         | None =>
             match finish_output (sh_request x) (sh_tokenizer x) id (sh_parser x) (sh_output x) with
             | (Ok delta, o) => Ok (delta, o)
             | (Throw e, _) => Throw e
             end
         end) with
  | Ok (delta, o) =>
      let events := if is_nil (diffs delta) then result0
                    else push_event id (delta_event delta) result0 in
      let prompt := size_of (sh_prompt x) in
      let completion := u64 (completion_tokens (result o)) in
      let events := push_event id (UsageUpdate (p_usage ops prompt completion)) events in
      (push_event id
         (if cancelled (result o) then Cancelled (Some (p_final ops prompt completion (metrics o)))
          else Completed (finish_reason (result o)) (p_final ops prompt completion (metrics o)))
         events, healthy)
  | Throw e =>
      let '(ev, healthy) := failure_event healthy e in (push_event id ev result0, healthy)
  end.

(** One quantum of the generation of a request. *)
Definition advance_request (id : string) (r : Req) (result0 : StepEvents) (b : B)
    : Req * StepEvents * B :=
  match (if started r then (Ok (generation r), b)
         else match b_generate ops id (shared r) b with
              | (Ok g, b) => (Ok (Some g), b)
              | (Throw e, b) => (Throw e, b)
              end) with
  | (Throw e, b) => (complete_request (Some e) (set_started r), result0, b)
  | (Ok None, b) => (complete_request None (set_started r), result0, b)
  | (Ok (Some g), b) =>
      let r := set_started r in
      match b_next ops g (shared r) b with
      | (Throw e, (g, x, b)) =>
          (complete_request (Some e) (set_generation (Some g) (set_shared x r)), result0, b)
      | (Ok step, (g, x, b)) =>
          let r := set_generation (Some g) (set_shared x r) in
          let result0 := match state step with Generation.advanced => push_advanced id result0 | _ => result0 end in
          let '(r, result0) :=
            match value step with
            | Some v =>
                (match v with
                 | Progress t =>
                     let o := sh_output (shared r) in
                     set_shared (set_output (set_metrics (mark_prefill positive t (metrics o)) o)
                                   (shared r)) r
                 | Delta _ => r
                 end, push_event id (value_event v) result0)
            | None => (r, result0)
            end in
          (if continues_step step then r else complete_request None r, result0, b)
      end
  end.

(** The body of the loop over the requests. *)
Definition step_request (eligible : list string) (result0 : StepEvents) (id : string)
    : Op StepEvents := fun s =>
  match ex_requests (executor s) !! id with
  | None => (Ok result0, s)
  | Some r =>
      let '(r, result0, b) :=
        if negb (done r) && (is_cancelled r || bool_decide (id ∈ eligible))
        then advance_request id r result0 (backend s)
        else (r, result0, backend s) in
      let s := put_req id r (set_backend b s) in
      if negb (done r) then (Ok result0, s)
      else
        let '(r, b) := drop_generation r b in
        let '(r, healthy) :=
          match sh_cleanup (shared r) with
          | Some e => (set_er_failure (Some e) r, false)
          | None => (r, ex_healthy (executor s))
          end in
        let '(result0, healthy) := finish_request id r healthy result0 in
        (Ok result0,
         set_executor {| capacity := capacity (executor s); ex_healthy := healthy;
                         ex_requests := delete id (ex_requests (executor s)) |} (set_backend b s))
  end.

(** The handlers around [ops.execute]: the requests they complete. *)
Definition complete_all (e : exn) (which : string -> bool) (s : Instance) : Instance :=
  set_executor (set_requests
    (map_imap (fun id r => Some (if which id then complete_request (Some e) r else r))
       (ex_requests (executor s))) (executor s)) s.

Definition execute (eligible : list string) : Op unit :=
  try_catch (on_backend (b_execute ops eligible)) (fun e =>
    match e with
    | OtherException =>
        modify (fun s => complete_all e (fun _ => true) (set_executor (set_health false (executor s)) s))
    | _ =>
        modify (fun s => complete_all e
          (fun id => is_backend_failure e || bool_decide (id ∈ eligible))
          (set_executor (set_health (ex_healthy (executor s) && negb (is_backend_failure e))
                           (executor s)) s))
    end).

(** [RequestExecutor::step]. *)
Definition executor_step (eligible : list string) : Op (EngineStepResult Payload) :=
  execute eligible ≫= fun _ =>
  s ← get;
  r ← fold_each (iter (ex_requests (executor s))) (step_request eligible)
        {| st_advanced := []; st_events := [] |};
  s ← get;
  mret {| advanced := st_advanced r; events := st_events r;
          result_status := executor_status (b_exclusive ops (backend s)) (executor s);
          has_work := negb (executor_empty (executor s)); result_wake_at := None |}.

(** ** The engine instance *)

Definition instance_status (s : Instance) : EngineStatus :=
  if loaded s then executor_status (b_exclusive ops (backend s)) (executor s)
  else {| available := 0; status_healthy := false |}.

Definition instance_session (c : SessionCommand) : Op (SessionResult Payload) :=
  s ← get;
  if bool_decide (kind c = kmemory_budget) && negb (executor_empty (executor s))
  then throw (RuntimeError "memory budgeting requires a quiescent engine")
  else on_backend (match b_session ops with
                   | Some f => f c
                   | None => control_session (b_cache ops) c
                   end).

Definition is_text_control (q : ControlRequest Payload) : bool :=
  match q with
  | DecodeTokens _ | CountTokens _ | PrepareDuplex _ | PrepareDuplexStep _ => true
  | _ => false
  end.

Definition instance_control (q : ControlRequest Payload) : Op (ControlResult Payload) :=
  s ← get;
  if negb (loaded s) then throw (RuntimeError "engine is unloaded")
  else if is_text_control q then
    match text_processor s with
    | None => throw (InvalidArgument "text control requires a tokenizer")
    | Some t => lift (t_control ops t (inst_info s) q)
    end
  else on_backend (b_control ops q).

Definition instance_shutdown : Op unit :=
  modify (fun s => {| backend := backend s; text_processor := text_processor s;
                      inst_info := inst_info s; executor := executor s; loaded := false |}) ≫= fun _ =>
  failure ← executor_clear;
  modify (fun s => {| backend := backend s; text_processor := None; inst_info := inst_info s;
                      executor := executor s; loaded := loaded s |}) ≫= fun _ =>
  on_backend (b_unload ops) ≫= fun _ =>
  match failure with Some e => throw e | None => mret tt end.

Definition instance_load : Op unit :=
  try_catch
    ('(info, text) ← on_backend (b_load ops);
     let info := match text with Some t => t_chat ops t info | None => info end in
     modify (fun s => {| backend := backend s; text_processor := text; inst_info := info;
       executor := {| capacity := max_requests info; ex_healthy := true; ex_requests := ∅ |};
       loaded := true |}))
    (fun e => instance_shutdown ≫= fun _ => throw e).

Definition instance_reload (context : Z) : Op Z :=
  s ← get;
  if context <? 1 then throw (InvalidArgument "reload context must be positive")
  else if negb (executor_empty (executor s))
  then throw (RuntimeError "reload requires a quiescent engine")
  else
    instance_shutdown ≫= fun _ =>
    modify (fun s => set_backend (b_set_context ops context (backend s)) s) ≫= fun _ =>
    instance_load ≫= fun _ =>
    s ← get;
    mret (max_context (inst_info s)).

(** [EngineInstance] implements [Engine]. The clock is read at admission. *)
Definition instance_engine (now : Z) : Engine Instance Payload := {|
  eng_info s := p_info ops (inst_info s);
  eng_status := instance_status;
  eng_admit := executor_admit now;
  eng_cancel := executor_cancel;
  eng_step := executor_step;
  eng_session := instance_session;
  eng_reload := instance_reload;
  eng_shutdown := instance_shutdown;
  eng_control := instance_control;
|}.
End Executor.
