(* ===== verification/ExecutorLaws.v ===== *)
(** * The engine instance keeps the scheduler's assumptions

    [EngineInstance] over any backend whose generations end when they are
    resumed after a cancellation (as [generate_sequence] does,
    [Generation.sequence_stops]) is an engine the scheduler's theorems apply to. *)

From stdpp Require Import base list strings gmap sets.
From Stdlib Require Import ZArith Lia.
From S2P Require Import Prelude GenerationPolicy TextEmitter ChatDiff Inference.
From S2P Require Import Generation Scheduler SchedulerInv Executor.

#[local] Set Default Proof Using "Type".
Open Scope Z_scope.

(** ** Sequences of events *)

Section Events.
Context {Payload : Type}.
Implicit Types (evs : list (EngineEvent Payload)).

(** Nothing follows the terminal event of a request. *)
Definition terminal_last evs : Prop :=
  forall i j ev ev', evs !! i = Some ev -> evs !! j = Some ev' ->
    terminal (ev_data ev) = true -> (i < j)%nat -> ev_id ev' <> ev_id ev.

Lemma terminal_last_app l k :
  terminal_last l -> terminal_last k ->
  (forall ev ev', ev ∈ l -> ev' ∈ k -> ev_id ev' <> ev_id ev) -> terminal_last (l ++ k).
Proof.
  intros Hl Hk Hd i j ev ev' Hi Hj Ht Hij.
  apply lookup_app_Some in Hi as [Hi|[Hi1 Hi]]; apply lookup_app_Some in Hj as [Hj|[Hj1 Hj]].
  - by apply (Hl i j ev ev').
  - apply Hd; by eapply list_elem_of_lookup_2.
  - apply lookup_lt_Some in Hj. lia.
  - apply (Hk (i - length l)%nat (j - length l)%nat ev ev'); try done. lia.
Qed.

Lemma terminal_last_ordinary evs :
  Forall (fun ev => terminal (ev_data ev) = false) evs -> terminal_last evs.
Proof.
  intros Hf i j ev ev' Hi _ Ht. rewrite Forall_lookup in Hf. specialize (Hf i ev Hi). congruence.
Qed.

Lemma terminal_last_snoc evs ev :
  Forall (fun ev => terminal (ev_data ev) = false) evs -> terminal_last (evs ++ [ev]).
Proof.
  intros Hf i j e e' Hi Hj Ht Hij. rewrite Forall_lookup in Hf.
  apply lookup_app_Some in Hi as [Hi|[Hi1 Hi]]; [specialize (Hf i e Hi); congruence|].
  apply lookup_lt_Some in Hj. rewrite length_app in Hj. apply lookup_lt_Some in Hi.
  simpl in *. lia.
Qed.
End Events.

Section Laws.
Context {B G T Ms Payload : Type} (zero : Ms) (positive : Ms -> bool)
  (ops : Backend B G T Ms Payload)
  (iter : gmap string (ExecutionRequest Ms G) -> list string) (now : Z).
Abbreviation Inst := (Instance (B := B) (G := G) (T := T) (Ms := Ms) (Payload := Payload)).
Implicit Types (s : Inst) (r : ExecutionRequest Ms G).

Definition requests_of s := ex_requests (executor s).
Definition running_ids s : gset string := dom (requests_of s).
Definition cancelled_ids s : gset string :=
  dom (filter (fun kv => is_cancelled kv.2 = true) (requests_of s)).

Lemma running_iff s id : id ∈ running_ids s <-> is_Some (requests_of s !! id).
Proof. apply elem_of_dom. Qed.

Lemma cancelled_iff s id :
  id ∈ cancelled_ids s <-> exists r, requests_of s !! id = Some r /\ is_cancelled r = true.
Proof.
  unfold cancelled_ids. rewrite elem_of_dom. split.
  - intros [r Hr]. apply map_lookup_filter_Some in Hr as [Hr Hc]. by exists r.
  - intros (r & Hr & Hc). exists r. by apply map_lookup_filter_Some.
Qed.

(** What an operation of the backend leaves alone. *)
Lemma on_backend_executor {A} (m : M B A) s : executor (on_backend m s).2 = executor s.
Proof. unfold on_backend. by destruct (m (backend s)). Qed.

(** ** [finish] *)

Lemma finish_request_events id r h acc :
  exists evs last, st_events (finish_request ops id r h acc).1 = st_events acc ++ evs ++ [last] /\
    Forall (fun ev => ev_id ev = id /\ terminal (ev_data ev) = false) evs /\
    ev_id last = id /\ terminal (ev_data last) = true.
Proof.
  unfold finish_request.
  match goal with |- context [match ?x with Ok _ => _ | Throw _ => _ end] =>
    destruct x as [[delta o]|e] end.
  - cbn [fst].
    assert (forall u (l : StepEvents (Payload := Payload)), st_events (push_event id u l) = st_events l ++ [{| ev_id := id; ev_data := u |}])
      as Hpush by done.
    rewrite !Hpush.
    exists ((if is_nil (diffs delta) then [] else [{| ev_id := id; ev_data := delta_event delta |}]) ++
      [{| ev_id := id; ev_data := UsageUpdate (p_usage ops (size_of (sh_prompt (shared r)))
                                    (u64 (completion_tokens (result o)))) |}]).
    eexists. split.
    { destruct (is_nil _); cbn [app]; rewrite ?Hpush, <- ?app_assoc; reflexivity. }
    split; [|split; [done|by destruct (cancelled _)]].
    apply Forall_app. split; [destruct (is_nil _)|]; repeat constructor.
  - destruct (failure_event h e) as [ev h'] eqn:Ef. cbn [fst st_events push_event].
    exists [], {| ev_id := id; ev_data := ev |}. split; [done|]. split; [done|]. split; [done|].
    simpl. destruct e; simpl in Ef; injection Ef as <- _; done.
Qed.

(** ** One request *)

(** Generations end when they are resumed after a cancellation. *)
Hypothesis stops_cancelled : forall g x b,
  cancelled (result (sh_output x)) = true ->
  match (b_next ops g x b).1 with Ok step => continues_step step = false | Throw _ => True end.
#[local] Set Default Proof Using "Type stops_cancelled".

Lemma advance_request_spec id r acc b :
  let '(r', acc', b') := advance_request positive ops id r acc b in
  (exists evs, st_events acc' = st_events acc ++ evs /\
    Forall (fun ev => ev_id ev = id /\ terminal (ev_data ev) = false) evs) /\
  (is_cancelled r = true -> done r' = true).
Proof.
  unfold advance_request.
  match goal with |- context [match ?x with (_, _) => _ end] =>
    destruct x as [[[g|]|e] b1] eqn:Ex end.
  2, 3: split; [exists []; by rewrite app_nil_r|done].
  pose proof (stops_cancelled g (shared (set_started r)) b1) as Hst.
  destruct (b_next ops g (shared (set_started r)) b1) as [[step|e] [[g' x] b']].
  2: split; [exists []; by rewrite app_nil_r|done].
  cbn [fst] in Hst.
  set (acc1 := match state step with Generation.advanced => push_advanced id acc | _ => acc end).
  assert (st_events acc1 = st_events acc) as Hacc by (unfold acc1; by destruct (state step)).
  destruct (value step) as [v|]; destruct (continues_step step) eqn:Ec.
  - split; [|intros Hc; by specialize (Hst Hc)].
    exists [{| ev_id := id; ev_data := value_event ops v |}]. cbn [st_events push_event].
    rewrite Hacc. split; [done|]. repeat constructor. by destruct v.
  - split; [|done]. exists [{| ev_id := id; ev_data := value_event ops v |}].
    cbn [st_events push_event]. rewrite Hacc. split; [done|]. repeat constructor. by destruct v.
  - split; [|intros Hc; by specialize (Hst Hc)]. exists []. by rewrite Hacc, app_nil_r.
  - split; [|done]. exists []. by rewrite Hacc, app_nil_r.
Qed.

Lemma step_request_spec eligible acc id s :
  exists acc' s', step_request positive ops eligible acc id s = (Ok acc', s') /\
    (forall j, j <> id -> requests_of s' !! j = requests_of s !! j) /\
    (id ∈ cancelled_ids s -> requests_of s' !! id = None) /\
    (is_Some (requests_of s' !! id) -> is_Some (requests_of s !! id)) /\
    exists evs, st_events acc' = st_events acc ++ evs /\ terminal_last evs /\
      forall ev, ev ∈ evs -> ev_id ev = id /\ is_Some (requests_of s !! id) /\
        (terminal (ev_data ev) = true -> requests_of s' !! id = None).
Proof.
  unfold step_request. fold (requests_of s). destruct (requests_of s !! id) as [r|] eqn:Hr.
  2:{ exists acc, s. rewrite Hr. split; [done|]. split; [done|]. split; [done|]. split; [done|].
      exists []. rewrite app_nil_r. split; [done|]. split; [by intros ? ? ? ? ?|].
      intros ev Hev. by apply elem_of_nil in Hev. }
  set (go := negb (done r) && (is_cancelled r || bool_decide (id ∈ eligible))).
  destruct (if go then advance_request positive ops id r acc (backend s) else (r, acc, backend s))
    as [[r1 acc1] b1] eqn:Ea.
  assert ((exists evs, st_events acc1 = st_events acc ++ evs /\
      Forall (fun ev => ev_id ev = id /\ terminal (ev_data ev) = false) evs) /\
      (is_cancelled r = true -> done r1 = true)) as [(evs & Hevs & Hf) Hdone].
  { destruct go eqn:Eg.
    - pose proof (advance_request_spec id r acc (backend s)) as Hs. by rewrite Ea in Hs.
    - injection Ea as <- <- _. split; [exists []; by rewrite app_nil_r|].
      intros Hc. unfold go in Eg. rewrite Hc in Eg. simpl in Eg. rewrite andb_true_r in Eg.
      by apply negb_false_iff in Eg. }
  assert (forall s', requests_of s' = <[id := r1]> (requests_of s) \/
    requests_of s' = delete id (<[id := r1]> (requests_of s)) ->
    (forall j, j <> id -> requests_of s' !! j = requests_of s !! j) /\
    (is_Some (requests_of s' !! id) -> is_Some (requests_of s !! id))) as Hmap.
  { intros s' Hs'. rewrite Hr. split; [|by eexists]. intros j Hj. destruct Hs' as [-> | ->].
    - by rewrite lookup_insert_ne.
    - by rewrite lookup_delete_ne, lookup_insert_ne. }
  destruct (done r1) eqn:Hd; cbn [negb].
  2:{ eexists _, _. split; [reflexivity|].
      match goal with |- context [requests_of ?t] => destruct (Hmap t) as [H1 H2]; [by left|] end.
      split; [done|]. split.
      { intros (r' & Hr' & Hc)%cancelled_iff. rewrite Hr in Hr'. injection Hr' as <-.
        specialize (Hdone Hc). congruence. }
      split; [done|]. exists evs. split; [done|].
      split; [apply terminal_last_ordinary; eapply Forall_impl; [exact Hf|by intros ? [_ ?]]|].
      intros ev Hev. rewrite Forall_forall in Hf. destruct (Hf ev Hev) as [Hid Ht].
      split; [done|]. split; [by eexists|]. congruence. }
  destruct (drop_generation ops r1 b1) as [r2 b2]. cbv zeta.
  match goal with |- context [match sh_cleanup (shared r2) with Some e => _ | None => _ end] =>
    destruct (match sh_cleanup (shared r2) with
          | Some e => (set_er_failure (Some e) r2, false)
          | None => (r2, ex_healthy (executor (put_req id r1 (set_backend b1 s))))
          end) as [r3 h3] end.
  destruct (finish_request_events id r3 h3 acc1) as (fevs & last & Hfe & Hff & Hlid & Hlt).
  destruct (finish_request ops id r3 h3 acc1) as [acc2 h4]. cbn [fst] in Hfe.
  eexists _, _. split; [reflexivity|].
  match goal with |- context [requests_of ?t] =>
    assert (requests_of t = delete id (<[id := r1]> (requests_of s))) as Hreq by done;
    destruct (Hmap t) as [H1 H2]; [by right|] end.
  split; [done|]. rewrite !Hreq. split; [intros _; apply lookup_delete_eq|].
  split; [by eexists|]. exists (evs ++ fevs ++ [last]). split; [by rewrite Hfe, Hevs, <- app_assoc|].
  assert (Forall (fun ev => ev_id ev = id /\ terminal (ev_data ev) = false) (evs ++ fevs)) as Hall
    by (by apply Forall_app).
  split.
  - rewrite app_assoc. apply terminal_last_snoc. eapply Forall_impl; [exact Hall|by intros ? [_ ?]].
  - intros ev Hev. rewrite app_assoc in Hev. split; [|split; [by eexists|intros _; apply lookup_delete_eq]].
    apply elem_of_app in Hev as [Hev|Hev].
    + rewrite Forall_forall in Hall. by apply Hall.
    + apply list_elem_of_singleton in Hev as ->. done.
Qed.

(** ** All requests *)

Lemma step_requests_spec eligible ids : NoDup ids -> forall acc s,
  exists acc' s', fold_each ids (step_request positive ops eligible) acc s = (Ok acc', s') /\
    (forall j, j ∉ ids -> requests_of s' !! j = requests_of s !! j) /\
    (forall j, j ∈ ids -> j ∈ cancelled_ids s -> requests_of s' !! j = None) /\
    (forall j, is_Some (requests_of s' !! j) -> is_Some (requests_of s !! j)) /\
    exists evs, st_events acc' = st_events acc ++ evs /\ terminal_last evs /\
      forall ev, ev ∈ evs -> ev_id ev ∈ ids /\ is_Some (requests_of s !! ev_id ev) /\
        (terminal (ev_data ev) = true -> requests_of s' !! ev_id ev = None).
Proof.
  induction 1 as [|id ids Hni Hn IH]; intros acc s; cbn [fold_each].
  { exists acc, s. split; [done|]. split; [done|]. split; [set_solver|]. split; [done|].
    exists []. rewrite app_nil_r. split; [done|]. split; [by intros ? ? ? ? ?|set_solver]. }
  destruct (step_request_spec eligible acc id s) as (acc1 & s1 & Heq & H1 & H2 & H3 & evs1 & He1 & Ht1 & Hev1).
  rewrite (bind_ok _ _ _ _ _ Heq).
  destruct (IH acc1 s1) as (acc2 & s2 & Heq2 & H4 & H5 & H6 & evs2 & He2 & Ht2 & Hev2).
  exists acc2, s2. split; [done|]. split; [|split; [|split]].
  - intros j Hj. rewrite H4, H1 by set_solver. done.
  - intros j [->|Hj]%elem_of_cons Hc.
    + rewrite H4 by done. by apply H2.
    + apply H5; [done|]. apply cancelled_iff in Hc as (r & Hr & Hc). apply cancelled_iff.
      exists r. split; [|done]. rewrite H1; [done|]. by intros ->.
  - intros j Hj. destruct (decide (j = id)) as [->|Hne].
    + apply H3. rewrite <- H4 by done. done.
    + rewrite <- H1 by done. by apply H6.
  - exists (evs1 ++ evs2). split; [by rewrite He2, He1, <- app_assoc|]. split.
    + apply terminal_last_app; [done|done|]. intros ev ev' Hi Hj.
      destruct (Hev1 ev Hi) as [-> _]. destruct (Hev2 ev' Hj) as [Hin _]. by intros <-.
    + intros ev [Hi|Hi]%elem_of_app.
      * destruct (Hev1 ev Hi) as (-> & Hs & Ht). split; [by left|]. split; [done|].
        intros Hte. rewrite H4 by done. by apply Ht.
      * destruct (Hev2 ev Hi) as (Hin & Hs & Ht). split; [by right|]. split; [|done].
        rewrite <- H1; [done|]. by intros <-.
Qed.

Lemma execute_spec eligible s :
  exists s', execute ops eligible s = (Ok tt, s') /\
    running_ids s' = running_ids s /\ cancelled_ids s ⊆ cancelled_ids s'.
Proof.
  assert (forall e which t, requests_of t = requests_of s ->
    running_ids (complete_all e which t) = running_ids s /\
    cancelled_ids s ⊆ cancelled_ids (complete_all e which t)) as Hall.
  { intros e which t Ht.
    assert (forall id, requests_of (complete_all e which t) !! id =
      (fun r => if which id then complete_request (Some e) r else r) <$> requests_of s !! id) as Hlk.
    { intros id. unfold requests_of, complete_all. simpl. rewrite map_lookup_imap.
      unfold requests_of in Ht. rewrite Ht. by destruct (ex_requests (executor s) !! id). }
    split.
    - apply set_eq. intros id. rewrite !running_iff, Hlk. apply fmap_is_Some.
    - intros id (r & Hr & Hc)%cancelled_iff. apply cancelled_iff.
      exists (if which id then complete_request (Some e) r else r). rewrite Hlk, Hr.
      split; [done|]. by destruct (which id). }
  unfold execute, try_catch. pose proof (on_backend_executor (b_execute ops eligible) s) as Hex.
  destruct (on_backend (b_execute ops eligible) s) as [[[]|e] s1]; cbn [snd] in Hex.
  - exists s1. split; [done|]. unfold running_ids, cancelled_ids, requests_of. by rewrite Hex.
  - assert (forall h, requests_of (set_executor (set_health h (executor s1)) s1) = requests_of s) as Hh.
    { intros h. unfold requests_of. simpl. by rewrite Hex. }
    destruct e; (eexists; split; [reflexivity|]; apply Hall; apply Hh).
Qed.

Hypothesis iter_keys : forall m, iter m ≡ₚ (map_to_list m).*1.
#[local] Set Default Proof Using "Type stops_cancelled iter_keys".

Lemma iter_spec (m : gmap string (ExecutionRequest Ms G)) :
  NoDup (iter m) /\ forall id, id ∈ iter m <-> is_Some (m !! id).
Proof.
  split; [rewrite iter_keys; apply NoDup_fst_map_to_list|]. intros id.
  rewrite iter_keys, list_elem_of_fmap. split.
  - intros ([k r] & -> & Hkr). apply elem_of_map_to_list in Hkr. by exists r.
  - intros [r Hr]. exists (id, r). split; [done|]. by apply elem_of_map_to_list.
Qed.

Lemma executor_step_spec eligible s :
  exists result s', executor_step positive ops iter eligible s = (Ok result, s') /\
    running_ids s' ⊆ running_ids s ∖ cancelled_ids s /\
    terminal_last (events result) /\
    forall ev, ev ∈ events result -> ev_id ev ∈ running_ids s /\
      (terminal (ev_data ev) = true -> ev_id ev ∉ running_ids s').
Proof.
  unfold executor_step. destruct (execute_spec eligible s) as (s1 & Heq & Hrun & Hcan).
  rewrite (bind_ok _ _ _ _ _ Heq), bind_get.
  destruct (iter_spec (ex_requests (executor s1))) as [Hnd Hin].
  destruct (step_requests_spec eligible _ Hnd {| st_advanced := []; st_events := [] |} s1)
    as (acc & s2 & Heq2 & H1 & H2 & H3 & evs & He & Ht & Hev).
  rewrite (bind_ok _ _ _ _ _ Heq2), bind_get. eexists _, s2. split; [reflexivity|].
  cbn [events]. simpl in He. rewrite He. split; [|split; [done|]].
  - intros id Hid%running_iff. pose proof (H3 id Hid) as Hs1. apply elem_of_difference.
    split; [rewrite <- Hrun; by apply running_iff|]. intros Hc%Hcan.
    rewrite H2 in Hid; [by destruct Hid| |done]. by apply Hin.
  - intros ev Hi. destruct (Hev ev Hi) as (_ & Hs & Hte). split.
    + rewrite <- Hrun. by apply running_iff.
    + intros Htt. rewrite running_iff, (Hte Htt). by intros [? ?].
Qed.

(** ** The other calls *)

Lemma executor_admit_running (r : EngineRequest Payload) s :
  running_ids (executor_admit zero ops now r s).2 =
  match (executor_admit zero ops now r s).1 with
  | Ok accepted => {[req_id r]} ∪ running_ids s
  | _ => running_ids s
  end.
Proof.
  unfold executor_admit. rewrite bind_get. cbv zeta. destruct (bool_decide _); [done|].
  destruct (_ || _); [done|]. rewrite bind_lift.
  match goal with |- context [match ?x with Ok _ => _ | Throw _ => _ end] =>
    destruct x as [[[[[prompt input] stable] tokenizer] parser]|e]; [|done] end.
  rewrite bind_lift. destruct (plan_generation _ _ _ _ _ _) as [plan|e]; [|done].
  rewrite bind_lift. destruct (make_output _ _ _ _ _) as [o|e]; [|done].
  rewrite bind_modify. unfold mret, M_ret. cbn [fst snd]. unfold running_ids, requests_of. simpl.
  by rewrite dom_insert_L.
Qed.

Lemma executor_cancel_spec id s :
  exists s', executor_cancel id s = (Ok tt, s') /\ running_ids s' = running_ids s /\
    cancelled_ids s ⊆ cancelled_ids s' /\ (id ∈ running_ids s -> id ∈ cancelled_ids s').
Proof.
  unfold executor_cancel, modify. fold (requests_of s). eexists. split; [reflexivity|].
  destruct (requests_of s !! id) as [r|] eqn:Hr.
  - assert (requests_of (put_req id (cancel_req r) s) = <[id := cancel_req r]> (requests_of s)) as Hreq
      by done.
    split; [|split].
    + unfold running_ids. rewrite Hreq, dom_insert_lookup_L; [done|by eexists].
    + intros j (rj & Hj & Hc)%cancelled_iff. apply cancelled_iff. rewrite Hreq.
      destruct (decide (j = id)) as [->|Hne].
      * exists (cancel_req r). by rewrite lookup_insert_eq.
      * exists rj. by rewrite lookup_insert_ne.
    + intros _. apply cancelled_iff. exists (cancel_req r). by rewrite Hreq, lookup_insert_eq.
  - split; [done|]. split; [done|]. intros Hid%running_iff. rewrite Hr in Hid. by destruct Hid.
Qed.

Lemma instance_shutdown_empty s : running_ids (instance_shutdown ops iter s).2 = ∅.
Proof.
  unfold instance_shutdown. rewrite bind_modify. unfold executor_clear.
  unfold mbind at 1, M_bind at 1. cbv beta.
  match goal with |- context [foldl ?f ?a ?l] => destruct (foldl f a l) as [failure b] end.
  rewrite bind_modify.
  match goal with |- context [mbind ?k ?m ?t] =>
    pose proof (on_backend_executor (b_unload ops) t) as Hex;
    assert (requests_of t = ∅) as Ht by done;
    unfold mbind, M_bind; destruct (on_backend (b_unload ops) t) as [[[]|e] s1] end;
    cbn [snd] in Hex.
  - assert (running_ids s1 = ∅) as H1
      by (unfold running_ids, requests_of in *; rewrite Hex, Ht; apply dom_empty_L).
    by destruct failure.
  - unfold running_ids, requests_of in *. cbn [snd]. rewrite Hex, Ht. apply dom_empty_L.
Qed.

Lemma instance_load_empty s :
  (instance_load ops iter s).1 = Ok tt -> running_ids (instance_load ops iter s).2 = ∅.
Proof.
  unfold instance_load, try_catch. unfold mbind at 1 3, M_bind at 1 3.
  destruct (on_backend (b_load ops) s) as [[[info text]|e] s1].
  - intros _. simpl. unfold running_ids, requests_of. simpl. apply dom_empty_L.
  - unfold mbind, M_bind. by destruct (instance_shutdown ops iter s1) as [[[]|e'] s2].
Qed.

Lemma instance_reload_empty context s n :
  (instance_reload ops iter context s).1 = Ok n ->
  running_ids (instance_reload ops iter context s).2 = ∅.
Proof.
  unfold instance_reload. rewrite bind_get. destruct (context <? 1); [done|].
  destruct (negb _); [done|].
  destruct (instance_shutdown ops iter s) as [[[]|e] s1] eqn:E1;
    [|by rewrite (bind_throw _ _ _ _ _ E1)].
  rewrite (bind_ok _ _ _ _ _ E1), bind_modify.
  pose proof (instance_load_empty (set_backend (b_set_context ops context (backend s1)) s1)) as Hl.
  destruct (instance_load ops iter _) as [[[]|e] s2] eqn:E2;
    [|by rewrite (bind_throw _ _ _ _ _ E2)].
  rewrite (bind_ok _ _ _ _ _ E2). intros _. simpl. by apply Hl.
Qed.

Lemma on_backend_running {A} (m : M B A) s : running_ids (on_backend m s).2 = running_ids s.
Proof. unfold running_ids, requests_of. by rewrite on_backend_executor. Qed.

End Laws.

(** ** A backend that generates the tokens 104, 105 *)

Local Definition toy_next (g : list Z) (x : Shared unit) (b : unit)
    : outcome (StepResult unit) * (list Z * Shared unit * unit) :=
  match g with
  | t :: g =>
      if stopped (sh_request x) (sh_output x) then (Ok Generation.ended, ([], x, b))
      else
        match append_tokens (sh_request x) (sh_tokenizer x) "" (sh_parser x) [(t, 0)] (sh_output x) with
        | (Ok delta, o) => (Ok (yield_value (Delta delta)), (g, set_output o x, b))
        | (Throw e, o) => (Throw e, ([], set_output o x, b))
        end
  | [] => (Ok Generation.ended, ([], x, b))
  end.

Local Definition toy_info : EngineInfo unit :=
  {| max_requests := 2; max_context := 16; vocab_size := 256; info_stop_tokens := {[105]};
     info_rest := tt |}.

Local Definition toy_backend : Backend unit (list Z) unit unit unit := {|
  b_exclusive _ := false;
  b_can_batch _ _ := true;
  b_execute _ b := (Ok tt, b);
  b_generate _ _ b := (Ok [104; 105], b);
  b_next := toy_next;
  b_destroy _ _ b := (None, b);
  b_session := None;
  b_cache := {| fork_session _ _ := mret 0; close_session _ := mret 0; clear_cache := mret 0;
                trim_hot _ := mret 0; set_limits := None; set_ram_limit := None;
                cache_metrics := mret []; refresh_disk_index := None |};
  b_control _ := mret (MetricsResult []);
  b_load := mret (toy_info, None);
  b_unload := mret tt;
  b_set_context _ b := b;
  t_prepare _ _ _ := Throw (InvalidArgument "");
  t_control _ _ _ := Throw (InvalidArgument "");
  t_chat _ i := i;
  q_token_ids _ := [1; 2];
  q_request _ ids := {| benchmark_fixed_tokens := false; chat := false; continues := false;
    preserved_tokens := ∅; req_stops := []; stop_token_ids := ids; max_tokens := 8 |};
  q_stable_prefix _ := 0;
  p_timing _ := tt;
  p_usage _ _ := tt;
  p_final _ _ _ := tt;
  p_info _ := tt;
|}.

Local Definition toy_iter (m : gmap string (ExecutionRequest unit (list Z))) : list string :=
  (map_to_list m).*1.

Local Definition toy_start : Instance (B := unit) (G := list Z) (T := unit) (Ms := unit) (Payload := unit) :=
  {| backend := tt; text_processor := None; inst_info := toy_info;
     executor := {| capacity := 2; ex_healthy := true; ex_requests := ∅ |}; loaded := true |}.

(** Admission and three steps of one request. *)
Local Definition toy_run :
    M (Instance (B := unit) (G := list Z) (T := unit) (Ms := unit) (Payload := unit))
      (list (list (EngineEvent unit))) :=
  executor_admit tt toy_backend 0
    {| req_id := "a"; req_session := ""; req_deadline := None; req_priority := 0; req_payload := tt |}
    ≫= fun _ =>
  r1 ← executor_step (fun _ => false) toy_backend toy_iter ["a"%string];
  r2 ← executor_step (fun _ => false) toy_backend toy_iter ["a"%string];
  r3 ← executor_step (fun _ => false) toy_backend toy_iter ["a"%string];
  mret [events r1; events r2; events r3].

