(* ===== verification/KvRatio.v ===== *)
(** * The ratio of new tokens ([NewTokenRatioTracker] of
      [engine/include/kv_admission.h])

    Admission reserves room for a fraction of the tokens a request may still produce.
    The fraction decays while steps succeed and is measured anew when a request had to
    be retracted. [double] is the format [F], [long double] the format [L]; a cast out
    of range gives [junk]. *)

From stdpp Require Import base list strings.
From Stdlib Require Import ZArith Lia SpecFloat.
From S2P Require Import Prelude Float.

#[local] Set Default Proof Using "Type".
Open Scope Z_scope.

(** [std::ceil]. *)
Definition fl_ceil {F : FloatFormat} (f : spec_float) : spec_float :=
  match f with
  | S754_finite s m e =>
      if 0 <=? e then f
      else
        let d := 2 ^ (- e) in
        let z := if s then - (Zpos m / d) else - (- Zpos m / d) in
        if z =? 0 then S754_zero s else fl_of_Z z
  | f => f
  end.

(** A value of the format [L] as a [double]. *)
Definition fl_convert {F : FloatFormat} (f : spec_float) : spec_float :=
  match f with
  | S754_finite s m e => binary_normalize fl_prec fl_emax (cond_Zopp s (Zpos m)) e s
  | f => f
  end.

Section Tracker.
Context {F : FloatFormat} (junk : Z).

Record KvAdmissionConfig := {
  initial_ratio : spec_float;
  minimum_ratio_factor : spec_float;
  conservativeness : spec_float;
  decay_steps : Z;
  retract_steps : Z;
  decode_token_clip : Z;
}.

Definition default_admission : KvAdmissionConfig := {|
  initial_ratio := fl_lit 7 10;
  minimum_ratio_factor := fl_lit 14 100;
  conservativeness := fl_of_Z 1;
  decay_steps := 600;
  retract_steps := 20;
  decode_token_clip := 4096;
|}.

Record NewTokenRatioTracker := {
  config : KvAdmissionConfig;
  initial : spec_float;
  minimum : spec_float;
  decay : spec_float;
  current : spec_float;
}.

Definition zero : spec_float := S754_zero false.
Definition one : spec_float := fl_of_Z 1.

Definition sane_config (c : KvAdmissionConfig) : bool :=
  fl_finite (initial_ratio c) && fl_ltb zero (initial_ratio c) && fl_leb (initial_ratio c) one &&
  fl_finite (minimum_ratio_factor c) && fl_ltb zero (minimum_ratio_factor c) &&
  fl_leb (minimum_ratio_factor c) one &&
  fl_finite (conservativeness c) && fl_ltb zero (conservativeness c) &&
  negb (decay_steps c =? 0) && negb (retract_steps c =? 0) && (0 <? decode_token_clip c).

Definition make_tracker (c : KvAdmissionConfig) : outcome NewTokenRatioTracker :=
  if negb (sane_config c) then Throw (InvalidArgument "invalid KV admission ratio configuration")
  else
    let initial := fl_min (fl_mul (initial_ratio c) (conservativeness c)) one in
    let minimum := fl_mul initial (minimum_ratio_factor c) in
    Ok {| config := c; initial := initial; minimum := minimum;
          decay := fl_div (fl_sub initial minimum) (fl_of_Z (decay_steps c)); current := initial |}.

Definition set_current (x : spec_float) (t : NewTokenRatioTracker) : NewTokenRatioTracker :=
  {| config := config t; initial := initial t; minimum := minimum t; decay := decay t; current := x |}.

Definition reset (t : NewTokenRatioTracker) : NewTokenRatioTracker := set_current (initial t) t.

Definition decay_step (t : NewTokenRatioTracker) : NewTokenRatioTracker :=
  set_current (fl_max (minimum t) (fl_sub (current t) (decay t))) t.

Definition expected (t : NewTokenRatioTracker) (maximum produced : Z) : Z :=
  let remaining := Z.min (Z.max 0 (s64 (maximum - produced))) (decode_token_clip (config t)) in
  let estimate := fl_ceil (fl_mul (fl_of_Z remaining) (current t)) in
  if fl_leb (fl_of_Z remaining) estimate then remaining else fl_to_int 64 junk estimate.

(** [running]: the tokens produced and the limit of each request. *)
Definition after_retraction (L : FloatFormat) (running : list (Z * Z)) (t : NewTokenRatioTracker) : NewTokenRatioTracker :=
  let add := fl_add (F := L) in
  let of_Z := fl_of_Z (F := L) in
  let decoded := foldl (fun sum r => add sum (of_Z r.1)) zero running in
  let maximum := foldl (fun sum r => add sum (of_Z r.2)) (of_Z 1) running in
  let reserve := fl_mul (F := L) (of_Z (retract_steps (config t))) (of_Z (size_of running)) in
  set_current (fl_min (fl_convert (F := F) (fl_div (F := L) (add decoded reserve) maximum)) (fl_of_Z (F := F) 1)) t.
End Tracker.

(** The defaults reserve 70 % of at most 4096 tokens. *)
Example default_ratio :
  (t ← make_tracker default_admission;
   Ok (expected 0 t 1000 0, expected 0 t 100000 0, expected 0 t 10 10, expected 0 (decay_step t) 1000 0)) =
  Ok (700, 2868, 0, 699).
Proof. vm_compute. reflexivity. Qed.
