(* ===== verification/ContinuousBatch.v ===== *)
(** * Continuous batching ([engine/include/continuous_batch.h])

    Requests generate as coroutines; each schedules a prefill tile or a decode and waits
    for the batch, which executes in each step either one decode of all eligible rows or
    one prefill. A request's [Work] is shared between its coroutine, the map of requests
    and the list of active rows: here the map holds it, and rows are ids. The device
    operations are parameters that may throw; those the template tests with [requires]
    are optional. The unordered map's iteration order is the parameter [iter]. *)

From stdpp Require Import base list strings gmap sorting.
From Stdlib Require Import ZArith Lia SpecFloat.
From S2P Require Import Prelude GenerationPolicy PrefillBudget Float KvRatio.

#[local] Set Default Proof Using "Type".
Open Scope Z_scope.

(** ** Data *)

Record BatchRequest := {
  req_id : string;
  prompt_size : Z;
  generation_limit : Z;
  produced : Z;
  pending_token : Z;
  eligible : bool;
  accepted_tokens : list Z;
  replay_offset : Z;
  prefill_offset : Z;
  cache_length : Z;
}.

Definition new_request (id : string) (prompt_size max_tokens : Z) : BatchRequest :=
  {| req_id := id; prompt_size := prompt_size; generation_limit := max_tokens; produced := 0;
     pending_token := 0; eligible := false; accepted_tokens := []; replay_offset := -1;
     prefill_offset := 0; cache_length := 0 |}.

Definition replay_length (r : BatchRequest) : Z := prompt_size r + Z.max 0 (produced r - 1).

Definition set_eligible (b : bool) (r : BatchRequest) : BatchRequest :=
  {| req_id := req_id r; prompt_size := prompt_size r; generation_limit := generation_limit r;
     produced := produced r; pending_token := pending_token r; eligible := b;
     accepted_tokens := accepted_tokens r; replay_offset := replay_offset r;
     prefill_offset := prefill_offset r; cache_length := cache_length r |}.
Definition set_replay (offset : Z) (r : BatchRequest) : BatchRequest :=
  {| req_id := req_id r; prompt_size := prompt_size r; generation_limit := generation_limit r;
     produced := produced r; pending_token := pending_token r; eligible := eligible r;
     accepted_tokens := accepted_tokens r; replay_offset := offset;
     prefill_offset := prefill_offset r; cache_length := cache_length r |}.
Definition set_prefill_offset (offset : Z) (r : BatchRequest) : BatchRequest :=
  {| req_id := req_id r; prompt_size := prompt_size r; generation_limit := generation_limit r;
     produced := produced r; pending_token := pending_token r; eligible := eligible r;
     accepted_tokens := accepted_tokens r; replay_offset := replay_offset r;
     prefill_offset := offset; cache_length := cache_length r |}.
Definition set_cache_length (n : Z) (r : BatchRequest) : BatchRequest :=
  {| req_id := req_id r; prompt_size := prompt_size r; generation_limit := generation_limit r;
     produced := produced r; pending_token := pending_token r; eligible := eligible r;
     accepted_tokens := accepted_tokens r; replay_offset := replay_offset r;
     prefill_offset := prefill_offset r; cache_length := n |}.
(** The assignments of [accept]. *)
Definition take_token (token : Z) (keep : bool) (r : BatchRequest) : BatchRequest :=
  {| req_id := req_id r; prompt_size := prompt_size r; generation_limit := generation_limit r;
     produced := produced r + 1; pending_token := token; eligible := eligible r;
     accepted_tokens := if keep then accepted_tokens r ++ [token] else accepted_tokens r;
     replay_offset := replay_offset r; prefill_offset := prefill_offset r;
     cache_length := cache_length r |}.

Definition chunk_of (offset count : Z) : PrefillChunk :=
  {| GenerationPolicy.offset := offset; GenerationPolicy.count := count; last := false |}.

(** The device operations; [B] is the backend's state, [S] a sample, [D] what a
    decode returns. *)
Record Admission (B : Type) := {
  admission_available : M B KvAdmissionBytes;
  admission_cost : BatchRequest -> Z -> M B KvAdmissionBytes;
  admission_chunk : BatchRequest -> PrefillChunk -> M B PrefillChunk;
}.
Arguments admission_available {B} _.
Arguments admission_cost {B} _.
Arguments admission_chunk {B} _.

Record PrefillBatch (B S : Type) := {
  batch_prefill : list (BatchRequest * PrefillChunk) -> M B (list (S + exn));
  batch_limit : option (M B Z);
  batch_token_budget : option (M B Z);
}.
Arguments batch_prefill {B S} _.
Arguments batch_limit {B S} _.
Arguments batch_token_budget {B S} _.

Record BatchOps (B S D : Type) := {
  op_suspend_decode : M B unit;
  op_resume_decode : Z -> M B unit;
  op_discard_prefill : BatchRequest -> M B unit;
  op_retire : list BatchRequest -> Z -> M B unit;
  op_activate : BatchRequest -> S -> M B unit;
  op_decode : list BatchRequest -> M B D;
  op_sample : BatchRequest -> D -> M B S;
  op_prefill : BatchRequest -> PrefillChunk -> M B S;
  op_accept : BatchRequest -> S -> M B unit;
  op_recover : list BatchRequest -> M B unit;
  op_admission : option (Admission B);
  op_release_idle : option (M B unit);
  op_reclaim : option (BatchRequest -> M B unit);
  op_retract : option (BatchRequest -> M B unit);
  op_capacity : option (list BatchRequest -> M B bool);
  op_synchronize : option (list BatchRequest -> M B unit);
  op_ready_decode : option (list BatchRequest -> list string -> M B bool);
  op_cache_length : option (BatchRequest -> M B Z);
  op_replay_prefill : option (BatchRequest -> PrefillChunk -> M B unit);
  op_prefill_batch : option (PrefillBatch B S);
  op_prepare : option (BatchRequest -> M B Z);
  op_prefix_tokens : option (BatchRequest -> M B Z);
  op_sequence_chunk : option (BatchRequest -> PrefillChunk -> M B PrefillChunk);
  op_invalidate : option (M B unit);
  isolate_context_growth_failures : bool;
  isolate_prefill_failures : bool;
  op_recoverable : option (exn -> bool);
}.
Arguments op_suspend_decode {B S D} _.
Arguments op_resume_decode {B S D} _.
Arguments op_discard_prefill {B S D} _.
Arguments op_retire {B S D} _.
Arguments op_activate {B S D} _.
Arguments op_decode {B S D} _.
Arguments op_sample {B S D} _.
Arguments op_prefill {B S D} _.
Arguments op_accept {B S D} _.
Arguments op_recover {B S D} _.
Arguments op_admission {B S D} _.
Arguments op_release_idle {B S D} _.
Arguments op_reclaim {B S D} _.
Arguments op_retract {B S D} _.
Arguments op_capacity {B S D} _.
Arguments op_synchronize {B S D} _.
Arguments op_ready_decode {B S D} _.
Arguments op_cache_length {B S D} _.
Arguments op_replay_prefill {B S D} _.
Arguments op_prefill_batch {B S D} _.
Arguments op_prepare {B S D} _.
Arguments op_prefix_tokens {B S D} _.
Arguments op_sequence_chunk {B S D} _.
Arguments op_invalidate {B S D} _.
Arguments isolate_context_growth_failures {B S D} _.
Arguments isolate_prefill_failures {B S D} _.
Arguments op_recoverable {B S D} _.

Section Batch.
Context {F : FloatFormat} (L : FloatFormat) (junk : Z).
Context {B S D : Type} (no_sample : S) (ops : BatchOps B S D).
(** An [InferenceInputError] with the code [ContextLength]. *)
Context (capacity_failure : exn -> bool).

Record Work := {
  request : BatchRequest;
  prefill : option PrefillChunk;
  completed_prefill : option PrefillChunk;
  result : option S;
  failure : option exn;
  decode : bool;
  is_active : bool;
  admitted : bool;
}.

Context (iter : gmap string Work -> list (string * Work)).
(** The arguments of the constructor. *)
Context (prefill_chunk_size prefill_token_budget : Z).

(** What the handlers of [step] read of its locals. *)
Record Locals := {
  prefilling_operation : bool;
  decoding_operation : bool;
  prefill_work : list string;
}.

Record Batch := {
  backend : B;
  active : list string;
  works : gmap string Work;
  decode_next : bool;
  ratio : NewTokenRatioTracker;
  admission_deferrals : Z;
  admission_failures : Z;
  retractions : Z;
  admissions : Z;
  prefill_chunks : Z;
  prefill_yields : Z;
  locals : Locals;
}.

Abbreviation Op := (M Batch).

(** ** Assignments *)

Definition on_request (f : BatchRequest -> BatchRequest) (w : Work) : Work :=
  {| request := f (request w); prefill := prefill w; completed_prefill := completed_prefill w;
     result := result w; failure := failure w; decode := decode w; is_active := is_active w;
     admitted := admitted w |}.
Definition set_prefill (p : option PrefillChunk) (w : Work) : Work :=
  {| request := request w; prefill := p; completed_prefill := completed_prefill w;
     result := result w; failure := failure w; decode := decode w; is_active := is_active w;
     admitted := admitted w |}.
Definition set_completed (p : option PrefillChunk) (w : Work) : Work :=
  {| request := request w; prefill := prefill w; completed_prefill := p;
     result := result w; failure := failure w; decode := decode w; is_active := is_active w;
     admitted := admitted w |}.
Definition set_result (r : option S) (w : Work) : Work :=
  {| request := request w; prefill := prefill w; completed_prefill := completed_prefill w;
     result := r; failure := failure w; decode := decode w; is_active := is_active w;
     admitted := admitted w |}.
Definition set_failure (e : exn) (w : Work) : Work :=
  {| request := request w; prefill := prefill w; completed_prefill := completed_prefill w;
     result := result w; failure := Some e; decode := decode w; is_active := is_active w;
     admitted := admitted w |}.
Definition set_decode (b : bool) (w : Work) : Work :=
  {| request := request w; prefill := prefill w; completed_prefill := completed_prefill w;
     result := result w; failure := failure w; decode := b; is_active := is_active w;
     admitted := admitted w |}.
Definition set_is_active (b : bool) (w : Work) : Work :=
  {| request := request w; prefill := prefill w; completed_prefill := completed_prefill w;
     result := result w; failure := failure w; decode := decode w; is_active := b;
     admitted := admitted w |}.
Definition set_admitted (b : bool) (w : Work) : Work :=
  {| request := request w; prefill := prefill w; completed_prefill := completed_prefill w;
     result := result w; failure := failure w; decode := decode w; is_active := is_active w;
     admitted := b |}.

Definition set_backend (b : B) (s : Batch) : Batch :=
  {| backend := b; active := active s; works := works s; decode_next := decode_next s; ratio := ratio s;
     admission_deferrals := admission_deferrals s; admission_failures := admission_failures s;
     retractions := retractions s; admissions := admissions s; prefill_chunks := prefill_chunks s;
     prefill_yields := prefill_yields s; locals := locals s |}.
Definition set_active (l : list string) (s : Batch) : Batch :=
  {| backend := backend s; active := l; works := works s; decode_next := decode_next s; ratio := ratio s;
     admission_deferrals := admission_deferrals s; admission_failures := admission_failures s;
     retractions := retractions s; admissions := admissions s; prefill_chunks := prefill_chunks s;
     prefill_yields := prefill_yields s; locals := locals s |}.
Definition set_works (m : gmap string Work) (s : Batch) : Batch :=
  {| backend := backend s; active := active s; works := m; decode_next := decode_next s; ratio := ratio s;
     admission_deferrals := admission_deferrals s; admission_failures := admission_failures s;
     retractions := retractions s; admissions := admissions s; prefill_chunks := prefill_chunks s;
     prefill_yields := prefill_yields s; locals := locals s |}.
Definition set_decode_next (b : bool) (s : Batch) : Batch :=
  {| backend := backend s; active := active s; works := works s; decode_next := b; ratio := ratio s;
     admission_deferrals := admission_deferrals s; admission_failures := admission_failures s;
     retractions := retractions s; admissions := admissions s; prefill_chunks := prefill_chunks s;
     prefill_yields := prefill_yields s; locals := locals s |}.
Definition set_ratio (t : NewTokenRatioTracker) (s : Batch) : Batch :=
  {| backend := backend s; active := active s; works := works s; decode_next := decode_next s; ratio := t;
     admission_deferrals := admission_deferrals s; admission_failures := admission_failures s;
     retractions := retractions s; admissions := admissions s; prefill_chunks := prefill_chunks s;
     prefill_yields := prefill_yields s; locals := locals s |}.
Definition set_locals (x : Locals) (s : Batch) : Batch :=
  {| backend := backend s; active := active s; works := works s; decode_next := decode_next s; ratio := ratio s;
     admission_deferrals := admission_deferrals s; admission_failures := admission_failures s;
     retractions := retractions s; admissions := admissions s; prefill_chunks := prefill_chunks s;
     prefill_yields := prefill_yields s; locals := x |}.

(** The counters of the metrics. *)
Inductive Counter := Deferral | AdmissionFailure | Retraction | NewRow | Chunk | Yield.
Definition bump (c : Counter) (s : Batch) : Batch :=
  let n d x := if d : bool then x + 1 else x in
  {| backend := backend s; active := active s; works := works s; decode_next := decode_next s; ratio := ratio s;
     admission_deferrals := n (match c with Deferral => true | _ => false end) (admission_deferrals s);
     admission_failures := n (match c with AdmissionFailure => true | _ => false end) (admission_failures s);
     retractions := n (match c with Retraction => true | _ => false end) (retractions s);
     admissions := n (match c with NewRow => true | _ => false end) (admissions s);
     prefill_chunks := n (match c with Chunk => true | _ => false end) (prefill_chunks s);
     prefill_yields := n (match c with Yield => true | _ => false end) (prefill_yields s);
     locals := locals s |}.

Definition on_backend {A} (m : M B A) : Op A := fun s =>
  let '(r, b) := m (backend s) in (r, set_backend b s).

(** [*requests.at(id)]. *)
Definition work_at (id : string) : Op Work := fun s =>
  match works s !! id with
  | Some w => (Ok w, s)
  | None => (Throw (OutOfRange "unordered_map::at"), s)
  end.

(** Assignments to the fields of a work. *)
Definition assign (id : string) (f : Work -> Work) : Op unit :=
  modify (fun s => set_works (alter f id (works s)) s).
Definition erase_row (id : string) : Op unit :=
  modify (fun s => set_active (filter (fun i => i <> id) (active s)) s).

(** The requests of the active rows. *)
Definition rows (s : Batch) : list BatchRequest := omap (fun id => request <$> works s !! id) (active s).

Definition mem (id : string) (l : list string) : bool := bool_decide (id ∈ l).

(** ** Admission *)

Definition reserves (budget demand : KvAdmissionBytes) : bool * KvAdmissionBytes := reserve budget demand.

Definition expected_tokens (s : Batch) (r : BatchRequest) : Z :=
  expected (F := F) junk (ratio s) (generation_limit r) (produced r).

(** The admitted requests take their share: whether there are any, and what is left;
    [None] when it does not suffice. *)
Fixpoint reserve_admitted (adm : Admission B) (l : list (string * Work)) (budget : KvAdmissionBytes)
    (occupied : bool) : Op (option (KvAdmissionBytes * bool)) :=
  match l with
  | [] => mret (Some (budget, occupied))
  | (_, w) :: l =>
      if negb (admitted w) || bool_decide (is_Some (failure w)) then reserve_admitted adm l budget occupied
      else
        s ← get;
        demand ← on_backend (admission_cost adm (request w) (expected_tokens s (request w)));
        let '(fits, budget) := reserves budget demand in
        if fits : bool then reserve_admitted adm l budget true
        else modify (bump Deferral) ≫= fun _ => mret None
  end.

Definition try_solitary (adm : Admission B) (r : BatchRequest) : Op bool :=
  available ← on_backend (admission_available adm);
  demand ← on_backend (admission_cost adm r 1);
  mret (reserves available demand).1.

Definition when_some {A} (o : option A) (f : A -> Op unit) : Op unit :=
  match o with Some a => f a | None => mret tt end.

Definition can_admit (id : string) : Op bool :=
  match op_admission ops with
  | None => mret true
  | Some adm =>
      w ← work_at id;
      if admitted w then mret true
      else if bool_decide (is_Some (failure w)) then mret false
      else
        budget ← on_backend (admission_available adm);
        s ← get;
        left ← reserve_admitted adm (iter (works s)) budget false;
        match left with
        | None => mret false
        | Some (budget, occupied) =>
            s ← get;
            demand ← on_backend (admission_cost adm (request w) (expected_tokens s (request w)));
            if (reserves budget demand).1 then mret true
            else if occupied : bool then modify (bump Deferral) ≫= fun _ => mret false
            else
              alone ← try_solitary adm (request w);
              if alone : bool then mret true
              else
                s ← get;
                (if is_nil (active s) then when_some (op_release_idle ops) on_backend else (mret tt : Op unit)) ≫= fun _ =>
                when_some (op_reclaim ops) (fun reclaim => on_backend (reclaim (request w))) ≫= fun _ =>
                alone ← try_solitary adm (request w);
                if alone : bool then mret true
                else
                  assign id (fun w => set_prefill None (set_failure
                    (InputError false "insufficient memory to admit request; reduce concurrent requests or prompt length") w)) ≫= fun _ =>
                  modify (bump AdmissionFailure) ≫= fun _ => mret false
        end
  end.

(** ** Retraction *)

Definition cache_position (s : Batch) : Z := foldl (fun p r => Z.max p (cache_length r)) 0 (rows s).

Definition eligible_rows (s : Batch) : nat := length (filter (fun r => eligible r = true) (rows s)).

Definition retract_row (retract : BatchRequest -> M B unit) (r : BatchRequest) : Op unit :=
  on_backend (retract r) ≫= fun _ =>
  erase_row (req_id r) ≫= fun _ =>
  assign (req_id r) (fun w =>
    set_prefill (Some (chunk_of 0 (Z.min prefill_chunk_size (replay_length (request w)))))
      (on_request (fun r => set_cache_length 0 (set_replay 0 (set_eligible false r)))
        (set_admitted false (set_is_active false w)))) ≫= fun _ =>
  modify (bump Retraction) ≫= fun _ =>
  modify (fun s => set_ratio (after_retraction (F := F) L
    (map (fun r => (produced r, generation_limit r)) (rows s)) (ratio s)) s).

Fixpoint retract_first (retract : BatchRequest -> M B unit) (l : list BatchRequest) : Op bool :=
  match l with
  | [] => mret false
  | r :: l =>
      w ← work_at (req_id r);
      s ← get;
      if negb (decode w) || (eligible r && (eligible_rows s <=? 1)%nat) then retract_first retract l
      else retract_row retract r ≫= fun _ => mret true
  end.

Definition retract_one : Op bool :=
  match op_retract ops with
  | None => mret false
  | Some retract =>
      s ← get;
      if (length (active s) <=? 1)%nat then mret false
      else retract_first retract (retraction_order produced prompt_size (rows s))
  end.

(** ** Failure and release *)

Definition fail_work (e : exn) (w : Work) : Work :=
  set_is_active false (set_decode false (set_prefill None (set_failure e w))).

Definition recover (e : exn) : Op unit :=
  s ← get;
  let failed := map (fun kv => request kv.2) (iter (works s)) in
  modify (fun s => set_active [] (set_works (fail_work e <$> works s) s)) ≫= fun _ =>
  on_backend (op_recover ops failed).

Definition erase_work (id : string) : Op unit := modify (fun s => set_works (delete id (works s)) s).

Definition release (id : string) : Op unit :=
  s ← get;
  match works s !! id with
  | None => mret tt
  | Some w =>
      try_catch
        (if is_active w then
           erase_row id ≫= fun _ =>
           s ← get;
           on_backend (op_retire ops [request w] (cache_position s))
         else if bool_decide (is_Some (failure w)) then mret tt
         else
           on_backend (op_suspend_decode ops) ≫= fun _ =>
           on_backend (op_discard_prefill ops (request w)) ≫= fun _ =>
           s ← get;
           on_backend (op_resume_decode ops (cache_position s)))
        (fun e =>
           e ← try_catch (recover e ≫= fun _ => mret e) mret;
           erase_work id ≫= fun _ => throw e) ≫= fun _ =>
      erase_work id ≫= fun _ =>
      modify (fun s => if bool_decide (works s = ∅) then set_ratio (reset (ratio s)) s else s)
  end.

(** ** What a request's coroutine does ([generate] and [SequenceOps]) *)

Definition new_work (id : string) (prompt_size max_tokens : Z) : Work :=
  {| request := new_request id prompt_size max_tokens; prefill := None; completed_prefill := None;
     result := None; failure := None; decode := false; is_active := false; admitted := false |}.

Definition query (o : option (BatchRequest -> M B Z)) (r : BatchRequest) : Op Z :=
  match o with Some f => on_backend (f r) | None => mret 0 end.

(** The head of [generate]: the reused tokens and the stable prefix. The cleanup runs
    when it throws. *)
Definition begin_request (id : string) (prompt_size max_tokens : Z) : Op (Z * Z) :=
  s ← get;
  match works s !! id with
  | Some _ => throw (InvalidArgument "duplicate batch request id")
  | None =>
      modify (fun s => set_works (<[id := new_work id prompt_size max_tokens]> (works s)) s) ≫= fun _ =>
      try_catch
        (w ← work_at id;
         reused ← query (op_prepare ops) (request w);
         assign id (on_request (set_prefill_offset reused)) ≫= fun _ =>
         w ← work_at id;
         prefix ← query (op_prefix_tokens ops) (request w);
         mret (reused, prefix))
        (fun e => try_catch (release id) (fun _ => mret tt) ≫= fun _ => throw e)
  end.

(** [SequenceOps::prefill_chunk]: with admission the tile is cut when it runs. *)
Definition sequence_chunk (id : string) (chunk : PrefillChunk) : Op PrefillChunk :=
  match op_admission ops, op_sequence_chunk ops with
  | None, Some f => w ← work_at id; on_backend (f (request w) chunk)
  | _, _ => mret chunk
  end.

Definition schedule_prefill (id : string) (chunk : PrefillChunk) : Op unit :=
  assign id (fun w => set_prefill (Some chunk) (set_completed None (set_result None w))).

Definition completed_prefill_chunk (id : string) (chunk : PrefillChunk) : Op PrefillChunk :=
  w ← work_at id; mret (default chunk (completed_prefill w)).

Definition schedule_decode (id : string) : Op unit :=
  assign id (fun w => set_decode true (set_result None w)).

Definition ready (id : string) : Op bool :=
  w ← work_at id; mret (bool_decide (is_Some (result w)) || bool_decide (is_Some (failure w))).

Definition sample (id : string) : Op S :=
  w ← work_at id;
  match failure w, result w with
  | Some e, _ => throw e
  | None, Some x => mret x
  | None, None => throw (OutOfRange "bad_optional_access")
  end.

Definition accept (id : string) (token : Z) : Op unit :=
  w ← work_at id;
  (if produced (request w) =? 0 then (mret tt : Op unit)
   else x ← sample id; on_backend (op_accept ops (request w) x)) ≫= fun _ =>
  assign id (on_request (take_token token (bool_decide (is_Some (op_retract ops))))).

(** ** The step *)

(** Which active rows may decode. *)
Definition mark_eligible (ids : list string) (id : string) : Op unit :=
  w ← work_at id;
  assign id (on_request (set_eligible (decode w && mem id ids))).

(** The first eligible request with a tile that is admitted. *)
Fixpoint select_prefill (ids : list string) : Op (option string) :=
  match ids with
  | [] => mret None
  | id :: ids =>
      s ← get;
      match works s !! id with
      | Some w =>
          match prefill w with
          | Some _ =>
              ok ← can_admit id;
              if ok : bool then mret (Some id) else select_prefill ids
          | None => select_prefill ids
          end
      | None => select_prefill ids
      end
  end.

Definition row_ready (s : Batch) (ids : list string) (id : string) : bool :=
  negb (mem id ids) || match works s !! id with Some w => decode w | None => false end.

(** [while (!decode_has_capacity) if (!retract_one()) break;]: one row less each time. *)
Fixpoint make_capacity (fuel : nat) (capacity : list BatchRequest -> M B bool) : Op unit :=
  match fuel with
  | O => mret tt
  | Datatypes.S fuel =>
      s ← get;
      enough ← on_backend (capacity (rows s));
      if enough : bool then mret tt
      else
        retracted ← retract_one;
        if retracted : bool then make_capacity fuel capacity else mret tt
  end.

Definition set_phase (prefilling decoding : bool) : Op unit :=
  modify (fun s => set_locals {| prefilling_operation := prefilling; decoding_operation := decoding;
                                 prefill_work := prefill_work (locals s) |} s).

Definition finish_decode (decoded : D) (r : BatchRequest) : Op unit :=
  x ← on_backend (op_sample ops r decoded);
  n ← match op_cache_length ops with
      | Some f => on_backend (f r)
      | None => mret (cache_length r + 1)
      end;
  assign (req_id r) (fun w => set_decode false (on_request (set_cache_length n) (set_result (Some x) w))).

Definition run_decode_step : Op unit :=
  s ← get;
  when_some (op_capacity ops) (make_capacity (Datatypes.S (length (active s)))) ≫= fun _ =>
  set_phase false true ≫= fun _ =>
  s ← get;
  decoded ← on_backend (op_decode ops (rows s));
  set_phase false false ≫= fun _ =>
  modify (fun s => set_ratio (decay_step (F := F) (ratio s)) s) ≫= fun _ =>
  for_each (filter (fun r => eligible r = true) (rows s)) (finish_decode decoded).

(** *** A prefill *)

Definition add_group (id : string) : Op unit :=
  modify (fun s => set_locals {| prefilling_operation := prefilling_operation (locals s);
                                 decoding_operation := decoding_operation (locals s);
                                 prefill_work := prefill_work (locals s) ++ [id] |} s).

Definition admission_tile (r : BatchRequest) (chunk : PrefillChunk) : Op PrefillChunk :=
  match op_admission ops with
  | Some adm => on_backend (admission_chunk adm r chunk)
  | None => mret chunk
  end.

Definition tile_of (w : Work) : PrefillChunk := default (chunk_of 0 0) (prefill w).

(** The requests whose tiles fit beside the first. *)
Fixpoint fill_group (limit : Z) (ids : list string) (remaining : Z) (items : list (string * PrefillChunk))
    : Op (list (string * PrefillChunk)) :=
  match ids with
  | [] => mret items
  | id :: ids =>
      s ← get;
      match works s !! id with
      | None => fill_group limit ids remaining items
      | Some w =>
          match prefill w with
          | None => fill_group limit ids remaining items
          | Some chunk =>
              if mem id (prefill_work (locals s)) || (0 <=? replay_offset (request w)) ||
                 (limit <=? size_of items) || (remaining <? count chunk)
              then fill_group limit ids remaining items
              else
                ok ← can_admit id;
                if negb ok then fill_group limit ids remaining items
                else
                  assign id (set_admitted true) ≫= fun _ =>
                  chunk ← admission_tile (request w) chunk;
                  add_group id ≫= fun _ =>
                  fill_group limit ids (remaining - count chunk) (items ++ [(id, chunk)])
          end
      end
  end.

Definition read_or (o : option (M B Z)) (d : Z) : Op Z :=
  match o with Some m => on_backend m | None => mret d end.

Definition group_items (ids : list string) (replaying : bool) (first : string * PrefillChunk)
    : Op (list (string * PrefillChunk)) :=
  match op_prefill_batch ops with
  | None => mret [first]
  | Some pb =>
      let budget := if bool_decide (is_Some (batch_limit pb)) then prefill_token_budget else prefill_chunk_size in
      most ← read_or (batch_token_budget pb) budget;
      limit ← read_or (batch_limit pb) (size_of ids);
      if replaying then mret [first]
      else fill_group limit ids (Z.min budget most - count first.2) [first]
  end.

Definition with_request (item : string * PrefillChunk) : Op (BatchRequest * PrefillChunk) :=
  w ← work_at item.1; mret (request w, item.2).

(** The samples of the tiles. *)
Definition run_tiles (replaying : bool) (first : string * PrefillChunk) (items : list (string * PrefillChunk))
    : Op (list (S + exn)) :=
  front ← with_request first;
  samples ← match op_replay_prefill ops with
            | Some replay => if replaying then on_backend (replay front.1 front.2) ≫= fun _ => mret [inl no_sample]
                             else mret []
            | None => mret []
            end;
  samples ← match op_prefill_batch ops with
            | Some pb =>
                if ((1 <? size_of items) || negb (bool_decide (is_Some (batch_limit pb)))) && negb replaying
                then
                  requests ← fold_each items (fun l item => r ← with_request item; mret (l ++ [r])) [];
                  on_backend (batch_prefill pb requests)
                else mret samples
            | None => mret samples
            end;
  if is_nil samples : bool then x ← on_backend (op_prefill ops front.1 front.2); mret [inl x] else mret samples.

(** One row of the results. *)
Definition finish_replay (id : string) (chunk : PrefillChunk) : Op unit :=
  let done := offset chunk + count chunk in
  assign id (on_request (fun r => set_cache_length done (set_replay done r))) ≫= fun _ =>
  modify (bump Chunk) ≫= fun _ =>
  w ← work_at id;
  if replay_offset (request w) =? replay_length (request w) then
    assign id (on_request (set_replay (-1))) ≫= fun _ =>
    modify (fun s => set_active (active s ++ [id]) s) ≫= fun _ =>
    assign id (fun w => set_prefill None (set_is_active true w))
  else
    assign id (set_prefill (Some (chunk_of (replay_offset (request w))
      (Z.min prefill_chunk_size (replay_length (request w) - replay_offset (request w)))))) ≫= fun _ =>
    modify (bump Yield).

Definition finish_prefill (id : string) (chunk : PrefillChunk) (x : S) : Op unit :=
  assign id (on_request (set_prefill_offset (offset chunk + count chunk))) ≫= fun _ =>
  modify (bump Chunk) ≫= fun _ =>
  w ← work_at id;
  (if prefill_offset (request w) =? prompt_size (request w) then
     assign id (on_request (set_cache_length (prompt_size (request w)))) ≫= fun _ =>
     w ← work_at id;
     on_backend (op_activate ops (request w) x) ≫= fun _ =>
     modify (fun s => set_active (active s ++ [id]) s) ≫= fun _ =>
     assign id (set_is_active true) ≫= fun _ =>
     modify (bump NewRow)
   else modify (bump Yield)) ≫= fun _ =>
  assign id (fun w => set_result (Some x) (set_completed (Some chunk) w)).

Definition finish_row (replaying : bool) (row : (string * PrefillChunk) * (S + exn)) : Op unit :=
  let '((id, chunk), r) := row in
  match r with
  | inl x =>
      if replaying then finish_replay id chunk
      else finish_prefill id chunk x ≫= fun _ => assign id (set_prefill None)
  | inr e =>
      w ← work_at id;
      assign id (set_failure e) ≫= fun _ =>
      on_backend (op_discard_prefill ops (request w)) ≫= fun _ =>
      assign id (set_prefill None)
  end.

Definition run_prefill_step (ids : list string) (id : string) : Op unit :=
  on_backend (op_suspend_decode ops) ≫= fun _ =>
  set_phase true false ≫= fun _ =>
  add_group id ≫= fun _ =>
  assign id (set_admitted true) ≫= fun _ =>
  w ← work_at id;
  chunk ← (if replay_offset (request w) <? 0 then admission_tile (request w) (tile_of w) else mret (tile_of w));
  assign id (set_prefill (Some chunk)) ≫= fun _ =>
  let replaying := 0 <=? replay_offset (request w) in
  items ← group_items ids replaying (id, chunk);
  samples ← run_tiles replaying (id, chunk) items;
  set_phase false false ≫= fun _ =>
  if negb (length samples =? length items)%nat
  then throw (RuntimeError "invalid packed prefill result count")
  else
    for_each (zip items samples) (finish_row replaying) ≫= fun _ =>
    s ← get;
    on_backend (op_resume_decode ops (cache_position s)).

(** *** The handlers *)

(** [throw] after recovering from a failure of the cleanup itself. *)
Definition or_recover (m : Op unit) : Op unit :=
  try_catch m (fun e => recover e ≫= fun _ => throw e).

(** The newest eligible row gives way. *)
Definition evict_row (e : exn) (r : BatchRequest) : Op unit :=
  assign (req_id r) (fun w => set_decode false (set_failure e w)) ≫= fun _ =>
  erase_row (req_id r) ≫= fun _ =>
  or_recover
    (w ← work_at (req_id r);
     s ← get;
     on_backend (op_retire ops [request w] (cache_position s)) ≫= fun _ =>
     assign (req_id r) (set_is_active false)).

Definition fail_group (e : exn) (deactivate : bool) : Op unit :=
  s ← get;
  for_each (prefill_work (locals s)) (fun id =>
    assign id (fun w => set_decode false (set_prefill None (set_failure e w))) ≫= fun _ =>
    (if deactivate then assign id (set_is_active false) ≫= fun _ => erase_row id else (mret tt : Op unit)) ≫= fun _ =>
    w ← work_at id;
    on_backend (op_discard_prefill ops (request w))) ≫= fun _ =>
  s ← get;
  on_backend (op_resume_decode ops (cache_position s)).

Definition fail_all (e : exn) : Op unit := recover e ≫= fun _ => throw e.

Definition recoverable (e : exn) : bool :=
  match op_recoverable ops with Some f => f e | None => false end.

Definition last_handler (run_decode : bool) (chosen : option string) (e : exn) : Op unit :=
  if recoverable e then
    if negb run_decode && bool_decide (is_Some chosen) then fail_group e true else recover e
  else fail_all e.

Definition prefill_handler (run_decode : bool) (chosen : option string) (e : exn) : Op unit :=
  s ← get;
  if isolate_prefill_failures ops && prefilling_operation (locals s) && bool_decide (is_Some chosen)
  then or_recover (fail_group e false)
  else last_handler run_decode chosen e.

Definition handle (run_decode : bool) (chosen : option string) (e : exn) : Op unit :=
  s ← get;
  if isolate_context_growth_failures ops && decoding_operation (locals s) && capacity_failure e
  then
    retracted ← retract_one;
    if retracted : bool then mret tt
    else
      s ← get;
      match head (reverse (filter (fun r => eligible r = true) (rows s))) with
      | Some r => evict_row e r
      | None => prefill_handler run_decode chosen e
      end
  else prefill_handler run_decode chosen e.

Definition step (ids : list string) : Op unit :=
  modify (set_locals {| prefilling_operation := false; decoding_operation := false; prefill_work := [] |}) ≫= fun _ =>
  s ← get;
  for_each (active s) (mark_eligible ids) ≫= fun _ =>
  chosen ← select_prefill ids;
  s ← get;
  let has_decode := forallb (row_ready s ids) (active s) && existsb eligible (rows s) in
  let run_decode := has_decode && (negb (bool_decide (is_Some chosen)) || decode_next s) in
  run_decode ← (match op_ready_decode ops with
                | Some f => if run_decode : bool then on_backend (f (rows s) ids) else mret false
                | None => mret run_decode
                end);
  try_catch
    (s ← get;
     when_some (op_synchronize ops) (fun f => on_backend (f (rows s))) ≫= fun _ =>
     (if run_decode : bool then run_decode_step
      else match chosen with
           | Some id => run_prefill_step ids id
           | None => mret tt
           end) ≫= fun _ =>
     modify (fun s => set_decode_next (negb (decode_next s)) s))
    (handle run_decode chosen).

(** ** The rest of the interface *)

(** The constructor; a default tracker when the operations configure none. *)
Definition make_chunk_size (chunk_size token_budget : Z) : outcome Z :=
  let size := Z.min chunk_size token_budget in
  if size <=? 0 then Throw (InvalidArgument "continuous batching requires a positive prefill chunk") else Ok size.

Definition new_batch (b : B) (t : NewTokenRatioTracker) : Batch :=
  {| backend := b; active := []; works := ∅; decode_next := true; ratio := t;
     admission_deferrals := 0; admission_failures := 0; retractions := 0; admissions := 0;
     prefill_chunks := 0; prefill_yields := 0;
     locals := {| prefilling_operation := false; decoding_operation := false; prefill_work := [] |} |}.

Definition empty (s : Batch) : bool := bool_decide (works s = ∅).

Definition invalidate_runtime_policy : Op unit := when_some (op_invalidate ops) on_backend.

Definition release_idle_buffers : Op unit :=
  s ← get;
  if negb (empty s) then throw (RuntimeError "cannot release active batch buffers")
  else match op_release_idle ops with
       | Some m => on_backend m
       | None => on_backend (op_suspend_decode ops)
       end.

(** Counts are exact as [double]s below 2^53. *)
Definition metrics (operation_metrics : list (string * spec_float)) (s : Batch) : list (string * spec_float) :=
  let count (n : Z) := fl_of_Z (F := F) n in
  operation_metrics ++
  (if bool_decide (is_Some (op_admission ops)) then
     [("continuous_batching_admission_deferred"%string, count (admission_deferrals s));
      ("continuous_batching_admission_failures"%string, count (admission_failures s));
      ("continuous_batching_retractions"%string, count (retractions s));
      ("continuous_batching_new_token_ratio"%string, current (ratio s))]
   else []) ++
  [("continuous_batching_active"%string, count (size_of (active s)));
   ("continuous_batching_prefilling"%string, count (Z.of_nat (size (works s)) - size_of (active s)));
   ("continuous_batching_requests"%string, count (admissions s));
   ("continuous_batching_admissions"%string, count (admissions s));
   ("continuous_batching_prefill_chunks"%string, count (prefill_chunks s));
   ("continuous_batching_prefill_yields"%string, count (prefill_yields s))].

(** ** What the executor and the coroutines do to a batch *)

Inductive Command :=
  | Begin (id : string) (prompt_size max_tokens : Z)
  | Release (id : string)
  | SchedulePrefill (id : string) (chunk : PrefillChunk)
  | ScheduleDecode (id : string)
  | Accept (id : string) (token : Z)
  | Step (ids : list string)
  | Invalidate
  | ReleaseIdle.

Definition command (c : Command) : Op unit :=
  match c with
  | Begin id n m => begin_request id n m ≫= fun _ => mret tt
  | Release id => release id
  | SchedulePrefill id chunk => schedule_prefill id chunk
  | ScheduleDecode id => schedule_decode id
  | Accept id token => accept id token
  | Step ids => step ids
  | Invalidate => invalidate_runtime_policy
  | ReleaseIdle => release_idle_buffers
  end.

(** A prompt's tiles are scheduled before the request has a row. *)
Definition legal (s : Batch) (c : Command) : Prop :=
  match c with SchedulePrefill id _ => id ∉ active s | _ => True end.

(** The batches a run goes through, whether its operations return or throw. *)
Inductive reached (b : B) (t : NewTokenRatioTracker) : Batch -> Prop :=
  | reached_new : reached b t (new_batch b t)
  | reached_command s c : reached b t s -> legal s c -> reached b t (command c s).2.

(** ** Rows and requests agree *)

(** The rows are the requests marked active, each once; an active one has no tile. *)
Definition rows_ok (s : Batch) : Prop :=
  NoDup (active s) /\
  (forall id, id ∈ active s <-> exists w, works s !! id = Some w /\ is_active w = true) /\
  (forall id w, works s !! id = Some w -> req_id (request w) = id /\ (is_active w = true -> prefill w = None)).

(** No row is left and every request has failed. *)
Definition all_failed (s : Batch) : Prop :=
  active s = [] /\
  forall id w, works s !! id = Some w ->
    is_Some (failure w) /\ prefill w = None /\ decode w = false /\ is_active w = false.

(** A property of the rows and the requests alone. *)
Definition structural (P : Batch -> Prop) : Prop :=
  forall s s', active s = active s' -> works s = works s' -> P s -> P s'.

Lemma structural_rows_ok : structural rows_ok.
Proof. intros s s' Ha Hw. unfold rows_ok. by rewrite Ha, Hw. Qed.

Lemma structural_all_failed : structural all_failed.
Proof. intros s s' Ha Hw. unfold all_failed. by rewrite Ha, Hw. Qed.

Lemma structural_and P Q : structural P -> structural Q -> structural (fun s => P s /\ Q s).
Proof. intros HP HQ s s' Ha Hw [? ?]. split; [by eapply HP|by eapply HQ]. Qed.

Lemma structural_const (X : Prop) : structural (fun _ => X).
Proof. by intros s s' _ _. Qed.

Lemma structural_active (Q : list string -> Prop) : structural (fun s => Q (active s)).
Proof. by intros s s' <- _. Qed.

Lemma structural_works (Q : gmap string Work -> Prop) : structural (fun s => Q (works s)).
Proof. by intros s s' _ <-. Qed.

(** A device operation that does not throw. *)
Definition quiet {A} (m : M B A) : Prop := forall b, exists a b', m b = (Ok a, b').

Lemma hoare_backend {A} P (m : M B A) X :
  structural P -> quiet m \/ (forall s, P s -> X s) -> hoare P (on_backend m) (fun _ => P) X.
Proof.
  intros HP Hm s Hs. unfold on_backend. destruct (m (backend s)) as [[a|e] b] eqn:E.
  - by eapply HP; [..|exact Hs].
  - destruct Hm as [Hq|HX]; [destruct (Hq (backend s)) as (a & b' & E'); congruence|].
    apply HX. by eapply HP; [..|exact Hs].
Qed.

(** Inside a handler that takes any state with the invariant. *)
Lemma hoare_device {A} P (m : M B A) : structural P -> hoare P (on_backend m) (fun _ => P) P.
Proof. intros HP. apply hoare_backend; auto. Qed.

Lemma hoare_structural P (f : Batch -> Batch) X :
  structural P -> (forall s, active (f s) = active s /\ works (f s) = works s) ->
  hoare P (modify f) (fun _ => P) X.
Proof. intros HP Hf. apply hoare_modify. intros s Hs. destruct (Hf s). by eapply HP; [..|exact Hs]. Qed.

Lemma hoare_bump P c X : structural P -> hoare P (modify (bump c)) (fun _ => P) X.
Proof. intros HP. by apply hoare_structural. Qed.

(** *** Assignments *)

(** Fields that rows do not depend on. *)
Definition gentle (f : Work -> Work) : Prop := forall w,
  is_active (f w) = is_active w /\ req_id (request (f w)) = req_id (request w) /\
  (prefill w = None -> prefill (f w) = None).

Lemma rows_ok_assign id f s :
  rows_ok s ->
  (forall w, works s !! id = Some w -> is_active (f w) = is_active w /\
     req_id (request (f w)) = req_id (request w) /\ (is_active w = true -> prefill (f w) = None)) ->
  rows_ok (set_works (alter f id (works s)) s).
Proof.
  intros (Hd & Ha & Hw) Hf. split; [done|]. cbn [active works set_works]. split.
  - intros i. rewrite Ha. destruct (decide (i = id)) as [->|Hne].
    + rewrite lookup_alter_eq. destruct (works s !! id) as [w|]; [|by split; intros (? & ? & ?)].
      destruct (Hf w eq_refl) as (E & _). cbn. split; intros (w' & [= <-] & Hact); eexists; (split; [done|congruence]).
    + by rewrite lookup_alter_ne.
  - intros i w. destruct (decide (i = id)) as [->|Hne]; [|rewrite lookup_alter_ne by done; apply Hw].
    rewrite lookup_alter_eq. destruct (works s !! id) as [w'|] eqn:El; [|done]. intros [= <-].
    destruct (Hf w' eq_refl) as (Ea & Er & Ep). destruct (Hw id w' El) as [Hr Hp]. rewrite Er, Ea. auto.
Qed.

Lemma rows_ok_gentle id f s : rows_ok s -> gentle f -> rows_ok (set_works (alter f id (works s)) s).
Proof.
  intros Hs Hf. apply rows_ok_assign; [done|]. intros w Hl. destruct (Hf w) as (? & ? & Hp).
  split; [done|]. split; [done|]. intros Hact. apply Hp. destruct Hs as (_ & _ & Hw). by apply (Hw id w Hl).
Qed.

(** Rows alone decide whether a request is idle. *)
Lemma idle_inactive s id w : rows_ok s -> id ∉ active s -> works s !! id = Some w -> is_active w = false.
Proof.
  intros (_ & Ha & _) Hn Hl. destruct (is_active w) eqn:E; [|done]. exfalso. apply Hn, Ha. by exists w.
Qed.

Lemma tile_idle s id w : rows_ok s -> works s !! id = Some w -> prefill w <> None -> id ∉ active s.
Proof.
  intros (_ & Ha & Hw) Hl Hp [w' [Hl' Hact]]%Ha. rewrite Hl in Hl'. injection Hl' as <-.
  by apply Hp, (Hw id w Hl).
Qed.

Lemma rows_ok_idle id f s :
  rows_ok s -> id ∉ active s ->
  (forall w, is_active (f w) = is_active w /\ req_id (request (f w)) = req_id (request w)) ->
  rows_ok (set_works (alter f id (works s)) s).
Proof.
  intros Hs Hn Hf. apply rows_ok_assign; [done|]. intros w Hl. destruct (Hf w). split; [done|]. split; [done|].
  rewrite (idle_inactive s id w) by done. done.
Qed.

(** A row leaves: its flag with it. *)
Lemma rows_ok_leave id f s :
  rows_ok s ->
  (forall w, is_active (f w) = false /\ req_id (request (f w)) = req_id (request w)) ->
  rows_ok (set_works (alter f id (works s)) (set_active (filter (fun i => i <> id) (active s)) s)).
Proof.
  intros (Hd & Ha & Hw) Hf. split; [by apply NoDup_filter|]. cbn [active works set_works set_active]. split.
  - intros i. rewrite list_elem_of_filter, Ha. destruct (decide (i = id)) as [->|Hne].
    + rewrite lookup_alter_eq. split; [by intros [? _]|]. intros (w & Hl & Hact).
      destruct (works s !! id); [|done]. injection Hl as <-. by rewrite (proj1 (Hf _)) in Hact.
    + rewrite lookup_alter_ne by done. tauto.
  - intros i w. destruct (decide (i = id)) as [->|Hne]; [|rewrite lookup_alter_ne by done; apply Hw].
    rewrite lookup_alter_eq. destruct (works s !! id) as [w'|] eqn:El; [|done]. intros [= <-].
    destruct (Hf w') as (Ea & Er). rewrite Er, Ea. split; [by apply (Hw id w' El)|done].
Qed.

(** A row enters. *)
Lemma rows_ok_enter id f s :
  rows_ok s -> id ∉ active s -> is_Some (works s !! id) ->
  (forall w, is_active (f w) = true /\ prefill (f w) = None /\ req_id (request (f w)) = req_id (request w)) ->
  rows_ok (set_works (alter f id (works s)) (set_active (active s ++ [id]) s)).
Proof.
  intros (Hd & Ha & Hw) Hn [w0 Hl0] Hf. split.
  { cbn. apply NoDup_app. split; [done|]. split; [|apply NoDup_singleton].
    intros i Hi ->%list_elem_of_singleton. done. }
  cbn [active works set_works set_active]. split.
  - intros i. rewrite elem_of_app, list_elem_of_singleton, Ha. destruct (decide (i = id)) as [->|Hne].
    + rewrite lookup_alter_eq, Hl0. cbn. split; [|by right]. intros _. eexists. split; [done|apply Hf].
    + rewrite lookup_alter_ne by done. tauto.
  - intros i w. destruct (decide (i = id)) as [->|Hne]; [|rewrite lookup_alter_ne by done; apply Hw].
    rewrite lookup_alter_eq, Hl0. cbn. intros [= <-]. destruct (Hf w0) as (? & Hp & Er). rewrite Er.
    split; [by apply (Hw id w0 Hl0)|done].
Qed.

Lemma hoare_gentle id f X : gentle f -> hoare rows_ok (assign id f) (fun _ => rows_ok) X.
Proof. intros Hf. apply hoare_modify. intros s Hs. by apply rows_ok_gentle. Qed.

(** ** The invariant during a step *)

Section Step.
Context (d : gset string) (X : Batch -> Prop).

(** The requests [d] stay the same through a step, and so do those of the group. *)
Definition stepping (s : Batch) : Prop :=
  rows_ok s /\ dom (works s) = d /\ Forall (fun id => id ∈ d) (prefill_work (locals s)).

(** With the rows [a] and the group [g]. *)
Definition stepping_with (a g : list string) (s : Batch) : Prop :=
  stepping s /\ active s = a /\ prefill_work (locals s) = g.

(** What no backend operation changes. *)
Definition same (s s' : Batch) : Prop :=
  active s = active s' /\ works s = works s' /\ prefill_work (locals s) = prefill_work (locals s').
Definition steady (P : Batch -> Prop) : Prop := forall s s', same s s' -> P s -> P s'.

Lemma steady_stepping : steady stepping.
Proof.
  intros s s' (Ha & Hw & Hl) (Hr & Hd & Hg). split; [by eapply structural_rows_ok|]. by rewrite <- Hw, <- Hl.
Qed.

Lemma steady_with a g : steady (stepping_with a g).
Proof.
  intros s s' H (Hs & <- & <-). split; [by eapply steady_stepping|]. by destruct H as (-> & _ & ->).
Qed.

Lemma steady_structural P : structural P -> steady P.
Proof. intros HP s s' (? & ? & _). by apply HP. Qed.

Lemma steady_and P Q : steady P -> steady Q -> steady (fun s => P s /\ Q s).
Proof. intros HP HQ s s' ? [? ?]. split; [by eapply HP|by eapply HQ]. Qed.

(** An operation that does not throw, or may throw here. *)
Definition safe {A} (m : M B A) : Prop := quiet m \/ forall s, stepping s -> X s.

Lemma hoare_dev {A} P (m : M B A) :
  steady P -> (forall s, P s -> stepping s) -> safe m -> hoare P (on_backend m) (fun _ => P) X.
Proof.
  intros HP HI Hm s Hs. unfold on_backend. destruct (m (backend s)) as [[a|e] b] eqn:E.
  - by eapply HP; [..|exact Hs].
  - destruct Hm as [Hq|HX]; [destruct (Hq (backend s)) as (a & b' & E'); congruence|].
    apply HX, HI. by eapply HP; [..|exact Hs].
Qed.

Lemma hoare_same P f : steady P -> (forall s, same s (f s)) -> hoare P (modify f) (fun _ => P) X.
Proof. intros HP Hf. apply hoare_modify. intros s Hs. by eapply HP. Qed.

Lemma hoare_at P id :
  (forall s, P s -> is_Some (works s !! id)) ->
  hoare P (work_at id) (fun w s => P s /\ works s !! id = Some w) X.
Proof. intros HP s Hs. unfold work_at. destruct (HP s Hs) as [w Hw]. rewrite Hw. done. Qed.

(** A continuation that reads the state. *)
Lemma hoare_read {A} P (k : Batch -> Op A) Q :
  (forall s, P s -> hoare P (k s) Q X) -> hoare P (get ≫= k) Q X.
Proof. intros Hk s Hs. by apply (Hk s Hs). Qed.

Lemma stepping_some s id : stepping s -> id ∈ d -> is_Some (works s !! id).
Proof. intros (_ & <- & _). by apply elem_of_dom. Qed.

Lemma hoare_at_step P id : (forall s, P s -> stepping s) -> id ∈ d -> hoare P (work_at id) (fun _ => P) X.
Proof.
  intros HP Hd. eapply hoare_weaken; [apply (hoare_at P id)|done|by intros w s []|done].
  intros s Hs. by apply stepping_some; [apply HP|].
Qed.

Lemma hoare_at_with a g id : id ∈ d -> hoare (stepping_with a g) (work_at id) (fun _ => stepping_with a g) X.
Proof. apply hoare_at_step. by intros ? []. Qed.

Lemma stepping_alter s id f :
  stepping s -> rows_ok (set_works (alter f id (works s)) s) -> stepping (set_works (alter f id (works s)) s).
Proof. intros (_ & Hd & Hg) Hr. split; [done|]. split; [cbn; by rewrite dom_alter_L|done]. Qed.

Lemma hoare_assign_gentle id f : gentle f -> hoare stepping (assign id f) (fun _ => stepping) X.
Proof. intros Hf. apply hoare_modify. intros s Hs. apply stepping_alter, rows_ok_gentle; [done|apply Hs|done]. Qed.

Lemma hoare_assign_with a g id f : gentle f -> hoare (stepping_with a g) (assign id f) (fun _ => stepping_with a g) X.
Proof.
  intros Hf. apply hoare_modify. intros s (Hs & Ha & Hg). split; [|done].
  apply stepping_alter, rows_ok_gentle; [done|apply Hs|done].
Qed.

Lemma hoare_assign_idle a g id f :
  id ∉ a -> (forall w, is_active (f w) = is_active w /\ req_id (request (f w)) = req_id (request w)) ->
  hoare (stepping_with a g) (assign id f) (fun _ => stepping_with a g) X.
Proof.
  intros Hn Hf. apply hoare_modify. intros s (Hs & Ha & Hg). split; [|done].
  apply stepping_alter, rows_ok_idle; [done|apply Hs|congruence|done].
Qed.

(** *** Admission *)

Record safe_admission : Prop := {
  safe_available : forall adm, op_admission ops = Some adm -> safe (admission_available adm);
  safe_cost : forall adm r n, op_admission ops = Some adm -> safe (admission_cost adm r n);
  safe_idle : forall m, op_release_idle ops = Some m -> safe m;
  safe_reclaim : forall f r, op_reclaim ops = Some f -> safe (f r);
}.

Section Admitting.
Hypothesis Hadm : safe_admission.

Lemma dev_with {A} a g (m : M B A) : safe m -> hoare (stepping_with a g) (on_backend m) (fun _ => stepping_with a g) X.
Proof. apply hoare_dev; [apply steady_with|by intros ? []]. Qed.

Lemma hoare_bump_with a g c : hoare (stepping_with a g) (modify (bump c)) (fun _ => stepping_with a g) X.
Proof. apply hoare_same; [apply steady_with|done]. Qed.

Lemma hoare_reserve_admitted a g adm l : op_admission ops = Some adm -> forall budget occupied,
  hoare (stepping_with a g) (reserve_admitted adm l budget occupied) (fun _ => stepping_with a g) X.
Proof using All.
  intros Ho. induction l as [|[id w] l IH]; intros budget occupied; cbn [reserve_admitted].
  { by apply hoare_ret. }
  destruct (_ || _); [apply IH|]. apply hoare_read. intros s _.
  eapply hoare_bind; [apply dev_with, safe_cost; done|]. intros demand.
  destruct (reserves budget demand) as [[] left]; [apply IH|].
  eapply hoare_bind; [apply hoare_bump_with|]. intros []. by apply hoare_ret.
Qed.

Lemma hoare_try_solitary a g adm r : op_admission ops = Some adm ->
  hoare (stepping_with a g) (try_solitary adm r) (fun _ => stepping_with a g) X.
Proof using All.
  intros Ho. eapply hoare_bind; [by apply dev_with, safe_available|]. intros available.
  eapply hoare_bind; [by apply dev_with, safe_cost|]. intros demand. by apply hoare_ret.
Qed.

Lemma hoare_can_admit a g id :
  id ∈ d -> id ∉ a -> hoare (stepping_with a g) (can_admit id) (fun _ => stepping_with a g) X.
Proof using All.
  intros Hd Hn. unfold can_admit. destruct (op_admission ops) as [adm|] eqn:Ho; [|by apply hoare_ret].
  eapply hoare_bind; [by apply hoare_at_with|]. intros w.
  destruct (admitted w); [by apply hoare_ret|]. case_bool_decide; [by apply hoare_ret|].
  eapply hoare_bind; [by apply dev_with, safe_available|]. intros budget.
  apply hoare_read. intros s _.
  eapply hoare_bind; [by apply hoare_reserve_admitted|]. intros [[left occupied]|]; [|by apply hoare_ret].
  apply hoare_read. intros s2 _.
  eapply hoare_bind; [by apply dev_with, safe_cost|]. intros demand.
  destruct (reserves left demand).1; [by apply hoare_ret|]. destruct occupied.
  { eapply hoare_bind; [apply hoare_bump_with|]. intros []. by apply hoare_ret. }
  eapply hoare_bind; [by apply hoare_try_solitary|]. intros []; [by apply hoare_ret|].
  apply hoare_read. intros s3 _. apply (hoare_bind _ _ _ (fun _ => stepping_with a g)).
  { destruct (is_nil _); [|by apply hoare_ret]. destruct (op_release_idle ops) eqn:E; [|by apply hoare_ret].
    by apply dev_with, safe_idle. }
  intros []. apply (hoare_bind _ _ _ (fun _ => stepping_with a g)).
  { destruct (op_reclaim ops) eqn:E; [|by apply hoare_ret]. by apply dev_with, (safe_reclaim Hadm). }
  intros []. eapply hoare_bind; [by apply hoare_try_solitary|]. intros []; [by apply hoare_ret|].
  eapply hoare_bind; [by apply hoare_assign_idle|]. intros [].
  eapply hoare_bind; [apply hoare_bump_with|]. intros []. by apply hoare_ret.
Qed.

(** The request chosen for a prefill has no row. *)
Lemma hoare_select_prefill a g ids :
  hoare (stepping_with a g) (select_prefill ids)
    (fun o s => stepping_with a g s /\ forall id, o = Some id -> id ∈ d /\ id ∉ a) X.
Proof using All.
  induction ids as [|id ids IH]; cbn [select_prefill]; [by apply hoare_ret|].
  apply hoare_read. intros s (Hs & Ha & _).
  destruct (works s !! id) as [w|] eqn:El; [|done]. destruct (prefill w) as [p|] eqn:Ep; [|done].
  assert (id ∈ d /\ id ∉ a) as [Hd Hn].
  { split; [|rewrite <- Ha; eapply tile_idle; [apply Hs|done|congruence]].
    destruct Hs as (_ & <- & _). by apply elem_of_dom_2 in El. }
  eapply hoare_bind; [by apply hoare_can_admit|]. intros []; [|done].
  apply hoare_ret. intros s' Hs'. split; [done|]. by intros ? [= <-].
Qed.
End Admitting.

(** *** Rows that give way *)

Definition named (s : Batch) : Prop := forall id w, works s !! id = Some w -> req_id (request w) = id.

Lemma rows_named s : rows_ok s -> named s.
Proof. intros (_ & _ & Hw) id w Hl. by apply (Hw id w). Qed.

Lemma hoare_recover e :
  hoare named (recover e) (fun _ s => rows_ok s /\ all_failed s) (fun s => rows_ok s /\ all_failed s).
Proof.
  intros s Hs. unfold recover, on_backend, mbind, M_bind, get, modify. cbn.
  destruct (op_recover ops _ _) as [r b].
  enough (rows_ok (set_backend b (set_active [] (set_works (fail_work e <$> works s) s))) /\
          all_failed (set_backend b (set_active [] (set_works (fail_work e <$> works s) s)))) by by destruct r.
  split; split.
  - by constructor.
  - cbn. split.
    + intros id. split; [by intros ?%not_elem_of_nil|]. intros (w & Hl & Hact).
      rewrite lookup_fmap in Hl. destruct (works s !! id); by simplify_eq/=.
    + intros id w. rewrite lookup_fmap. destruct (works s !! id) as [w'|] eqn:El; [|done].
      cbn. intros [= <-]. split; [exact (Hs id w' El)|done].
  - done.
  - cbn. intros id w. rewrite lookup_fmap. destruct (works s !! id) as [w'|]; [|done].
    cbn. intros [= <-]. by eauto.
Qed.

(** A row off the list, its flag still set. *)
Definition leaving (id : string) (s : Batch) : Prop :=
  exists s0, stepping s0 /\ id ∈ d /\ active s = filter (fun i => i <> id) (active s0) /\
    works s = works s0 /\ prefill_work (locals s) = prefill_work (locals s0).

Lemma steady_leaving id : steady (leaving id).
Proof.
  intros s s' (Ha & Hw & Hl) (s0 & Hs & Hd & Ea & Ew & El). exists s0. by rewrite <- Ha, <- Hw, <- Hl.
Qed.

Lemma hoare_erase_row a g id : id ∈ d -> id ∈ a ->
  hoare (stepping_with a g) (erase_row id)
    (fun _ s => leaving id s /\ (length (active s) < length a)%nat) X.
Proof.
  intros Hd Hin. apply hoare_modify. intros s (Hs & Ha & Hg). split; [by exists s|].
  cbn. rewrite Ha. apply length_filter_lt with id; [done|]. by intros [].
Qed.

Lemma leaving_flag id f s :
  leaving id s -> (forall w, is_active (f w) = false /\ req_id (request (f w)) = req_id (request w)) ->
  stepping (set_works (alter f id (works s)) s).
Proof.
  intros (s0 & (Hr & Hd & Hg) & _ & Ea & Ew & El) Hf. split; [|cbn; by rewrite Ew, El, dom_alter_L].
  eapply structural_rows_ok; [| |apply (rows_ok_leave id f s0 Hr Hf)]; cbn; congruence.
Qed.

Lemma hoare_retract_row a g retract r :
  (forall r, safe (retract r)) -> req_id r ∈ d -> req_id r ∈ a ->
  hoare (stepping_with a g) (retract_row retract r)
    (fun _ s => stepping s /\ (length (active s) < length a)%nat) X.
Proof.
  intros Hsafe Hd Hin. eapply hoare_bind; [by apply dev_with|]. intros [].
  eapply hoare_bind; [by apply hoare_erase_row|]. intros []. cbn beta.
  apply (hoare_bind _ _ _ (fun _ s => stepping s /\ (length (active s) < length a)%nat)).
  { apply hoare_modify. intros s [Hs Hlen]. split; [|done]. by apply leaving_flag. }
  assert (steady (fun s => stepping s /\ (length (active s) < length a)%nat)) as Hst.
  { apply steady_and; [apply steady_stepping|]. by intros s s' [<- _]. }
  intros []. eapply hoare_bind; [by apply hoare_same|]. intros []. by apply hoare_same.
Qed.

Lemma hoare_retract_first a g retract l :
  (forall r, safe (retract r)) -> Forall (fun r => req_id r ∈ d /\ req_id r ∈ a) l ->
  hoare (stepping_with a g) (retract_first retract l)
    (fun b s => if b : bool then stepping s /\ (length (active s) < length a)%nat else stepping_with a g s) X.
Proof.
  intros Hsafe. induction 1 as [|r l [Hd Ha] _ IH]; cbn [retract_first]; [by apply hoare_ret|].
  eapply hoare_bind; [by apply hoare_at_with|]. intros w. apply hoare_read. intros s _.
  destruct (_ || _); [apply IH|]. eapply hoare_bind; [by apply hoare_retract_row|]. intros []. by apply hoare_ret.
Qed.

Lemma rows_elem s r : rows_ok s -> r ∈ rows s ->
  exists w, works s !! req_id r = Some w /\ request w = r /\ req_id r ∈ active s.
Proof.
  intros Hs [id [Hin Hl]]%list_elem_of_omap.
  destruct (works s !! id) as [w|] eqn:El; [|done]. injection Hl as <-.
  destruct Hs as (_ & _ & Hw). destruct (Hw id w El) as [-> _]. by exists w.
Qed.

Lemma rows_in_step s r : stepping s -> r ∈ rows s -> req_id r ∈ d /\ req_id r ∈ active s.
Proof.
  intros Hs Hr. destruct (rows_elem s r) as (w & Hl & _ & Ha); [apply Hs|done|].
  split; [|done]. destruct Hs as (_ & <- & _). by apply elem_of_dom_2 in Hl.
Qed.

Lemma hoare_retract_one a g :
  (forall f r, op_retract ops = Some f -> safe (f r)) ->
  hoare (stepping_with a g) retract_one
    (fun b s => if b : bool then stepping s /\ (length (active s) < length a)%nat else stepping_with a g s) X.
Proof.
  intros Hsafe. unfold retract_one. destruct (op_retract ops) as [f|] eqn:E; [|by apply hoare_ret].
  apply hoare_read. intros s (Hs & <- & _). destruct (_ <=? _)%nat; [by apply hoare_ret|].
  apply hoare_retract_first; [by eauto|]. apply Forall_forall. intros r Hr.
  apply rows_in_step; [done|]. unfold retraction_order in Hr. by rewrite (stable_sort_perm _ (rows s)) in Hr.
Qed.

(** *** A decode *)

(** Operations inside the [try] may throw when the handler takes over. *)
Hypothesis HX : forall s, stepping s -> X s.
#[local] Set Default Proof Using "All".

Lemma any_safe {A} (m : M B A) : safe m.
Proof. by right. Qed.

Lemma dev_step {A} (m : M B A) : hoare stepping (on_backend m) (fun _ => stepping) X.
Proof. apply hoare_dev; [apply steady_stepping|done|apply any_safe]. Qed.

Lemma hoare_in_step {A} (m : Op A) : (forall a g, hoare (stepping_with a g) m (fun _ => stepping) X) ->
  hoare stepping m (fun _ => stepping) X.
Proof. intros Hm s Hs. by apply (Hm (active s) (prefill_work (locals s)) s). Qed.

Lemma hoare_make_capacity f fuel :
  hoare stepping (make_capacity fuel f) (fun _ => stepping) X.
Proof.
  induction fuel as [|fuel IH]; cbn [make_capacity]; [by apply hoare_ret|].
  apply hoare_read. intros s _. eapply hoare_bind; [apply dev_step|]. intros []; [by apply hoare_ret|].
  apply (hoare_bind _ _ _ (fun _ => stepping)); [|intros []; [exact IH|by apply hoare_ret]].
  intros s' Hs'. pose proof (hoare_retract_one (active s') (prefill_work (locals s')) (fun _ _ _ => any_safe _) s' (conj Hs' (conj eq_refl eq_refl))) as H.
  destruct (retract_one s') as [[[]|e] s'']; [by apply H|by apply H|done].
Qed.

Lemma hoare_phase P p q : steady P -> hoare P (set_phase p q) (fun _ => P) X.
Proof. intros HP. by apply hoare_same. Qed.

Lemma hoare_finish_decode decoded r :
  hoare stepping (finish_decode decoded r) (fun _ => stepping) X.
Proof.
  eapply hoare_bind; [apply dev_step|]. intros x.
  apply (hoare_bind _ _ _ (fun _ => stepping)).
  { destruct (op_cache_length ops); [apply dev_step|by apply hoare_ret]. }
  intros n. by apply hoare_assign_gentle.
Qed.

Lemma hoare_run_decode : hoare stepping run_decode_step (fun _ => stepping) X.
Proof.
  apply hoare_read. intros s _. apply (hoare_bind _ _ _ (fun _ => stepping)).
  { destruct (op_capacity ops); [apply hoare_make_capacity|by apply hoare_ret]. }
  intros []. eapply hoare_bind; [apply hoare_phase, steady_stepping|]. intros [].
  apply hoare_read. intros s2 _. eapply hoare_bind; [apply dev_step|]. intros decoded.
  eapply hoare_bind; [apply hoare_phase, steady_stepping|]. intros [].
  eapply hoare_bind; [by apply hoare_same; [apply steady_stepping|]|]. intros [].
  apply hoare_for_each. intros r _. apply hoare_finish_decode.
Qed.

(** *** A prefill *)

Lemma any_admission : safe_admission.
Proof. constructor; intros; apply any_safe. Qed.

(** Requests that have no row. *)
Definition idle_in (a ids : list string) : Prop := Forall (fun id => id ∈ d /\ id ∉ a) ids.

Definition group_ok (a : list string) (items : list (string * PrefillChunk)) : Prop :=
  NoDup items.*1 /\ idle_in a items.*1.

Lemma hoare_add_group a g id : id ∈ d ->
  hoare (stepping_with a g) (add_group id) (fun _ => stepping_with a (g ++ [id])) X.
Proof.
  intros Hd. apply hoare_modify. intros s ((Hr & Hdom & Hg) & Ha & <-). split; [|done]. split; [done|].
  split; [done|]. apply Forall_app. split; [done|by constructor].
Qed.

Lemma hoare_admission_tile a g r chunk :
  hoare (stepping_with a g) (admission_tile r chunk) (fun _ => stepping_with a g) X.
Proof.
  unfold admission_tile. destruct (op_admission ops); [apply dev_with, any_safe|by apply hoare_ret].
Qed.

Lemma hoare_read_or a g o n : hoare (stepping_with a g) (read_or o n) (fun _ => stepping_with a g) X.
Proof. destruct o; [apply dev_with, any_safe|by apply hoare_ret]. Qed.

(** A group holds distinct requests without a row, in the order of [prefill_work]. *)
Lemma hoare_fill_group a limit ids : forall remaining items, group_ok a items ->
  hoare (stepping_with a items.*1) (fill_group limit ids remaining items)
    (fun items s => stepping_with a items.*1 s /\ group_ok a items) X.
Proof.
  induction ids as [|id ids IH]; intros remaining items Hok; cbn [fill_group]; [by apply hoare_ret|].
  apply hoare_read. intros s (Hs & Ha & Hg). destruct (works s !! id) as [w|] eqn:El; [|by apply IH].
  destruct (prefill w) as [chunk|] eqn:Ep; [|by apply IH]. destruct (_ || _) eqn:Eskip; [by apply IH|].
  assert (id ∉ items.*1) as Hnew.
  { rewrite <- Hg. intros Hin. unfold mem in Eskip. by rewrite bool_decide_true in Eskip. }
  assert (id ∈ d) as Hd by (destruct Hs as (_ & <- & _); by apply elem_of_dom_2 in El).
  assert (id ∉ a) as Hn by (rewrite <- Ha; eapply tile_idle; [apply Hs|done|congruence]).
  eapply hoare_bind; [by apply hoare_can_admit; [apply any_admission|..]|]. intros []; [|by apply IH].
  eapply hoare_bind; [by apply hoare_assign_with|]. intros [].
  eapply hoare_bind; [apply hoare_admission_tile|]. intros chunk'.
  eapply hoare_bind; [by apply hoare_add_group|]. intros [].
  replace (items.*1 ++ [id]) with (items ++ [(id, chunk')]).*1 by by rewrite fmap_app. apply IH.
  destruct Hok as [Hnd Hidle]. unfold group_ok, idle_in. rewrite fmap_app. split.
  - apply NoDup_app. split; [done|]. split; [by intros i Hi ->%list_elem_of_singleton|apply NoDup_singleton].
  - apply Forall_app. split; [done|]. by constructor.
Qed.

Lemma hoare_group_items a ids replaying first : group_ok a [first] ->
  hoare (stepping_with a [first.1]) (group_items ids replaying first)
    (fun items s => stepping_with a items.*1 s /\ group_ok a items) X.
Proof.
  intros Hok. unfold group_items. destruct (op_prefill_batch ops) as [pb|]; [|by apply hoare_ret].
  eapply hoare_bind; [apply hoare_read_or|]. intros most. eapply hoare_bind; [apply hoare_read_or|].
  intros limit. destruct replaying; [by apply hoare_ret|]. by apply (hoare_fill_group a limit ids _ [first]).
Qed.

Lemma hoare_with_request a g item : item.1 ∈ d ->
  hoare (stepping_with a g) (with_request item) (fun _ => stepping_with a g) X.
Proof. intros Hd. eapply hoare_bind; [by apply hoare_at_with|]. intros w. by apply hoare_ret. Qed.

Lemma hoare_run_tiles a g replaying first items : first.1 ∈ d -> idle_in a items.*1 ->
  hoare (stepping_with a g) (run_tiles replaying first items) (fun _ => stepping_with a g) X.
Proof.
  intros Hf Hi. eapply hoare_bind; [by apply hoare_with_request|]. intros front.
  apply (hoare_bind _ _ _ (fun _ => stepping_with a g)).
  { destruct (op_replay_prefill ops); [|by apply hoare_ret]. destruct replaying; [|by apply hoare_ret].
    eapply hoare_bind; [apply dev_with, any_safe|]. intros u. by apply hoare_ret. }
  intros samples. apply (hoare_bind _ _ _ (fun _ => stepping_with a g)).
  { destruct (op_prefill_batch ops) as [pb|]; [|by apply hoare_ret]. destruct (_ && _); [|by apply hoare_ret].
    eapply hoare_bind; [|intros requests; apply dev_with, any_safe].
    apply (hoare_fold_each _ _ (fun _ => stepping_with a g)). intros l item Hin.
    eapply hoare_bind; [apply (hoare_with_request a g)|intros r; by apply hoare_ret].
    apply (Forall_forall (fun i => i ∈ d /\ i ∉ a) items.*1); [done|]. by apply list_elem_of_fmap_2. }
  intros samples2. destruct (is_nil _); [|by apply hoare_ret].
  eapply hoare_bind; [apply dev_with, any_safe|]. intros x. by apply hoare_ret.
Qed.

(** **** The rows of the results *)

(** The requests still to be finished have no row. *)
Definition idle_rows (ids : list string) (s : Batch) : Prop := stepping s /\ idle_in (active s) ids.

Lemma steady_idle ids : steady (idle_rows ids).
Proof. intros s s' H [Hs Hi]. split; [by eapply steady_stepping|]. destruct H as [<- _]. done. Qed.

Lemma idle_tail id ids s : idle_rows (id :: ids) s -> idle_rows ids s.
Proof. intros [Hs Hi]. split; [done|by inversion Hi]. Qed.

Lemma idle_head id ids s : idle_rows (id :: ids) s -> id ∈ d /\ id ∉ active s.
Proof. intros [_ Hi]. by inversion Hi. Qed.

Definition plain (f : Work -> Work) : Prop := forall w,
  is_active (f w) = is_active w /\ req_id (request (f w)) = req_id (request w).

Lemma hoare_idle_assign id ids f : plain f ->
  hoare (idle_rows (id :: ids)) (assign id f) (fun _ => idle_rows (id :: ids)) X.
Proof.
  intros Hf. apply hoare_modify. intros s Hs. split; [|apply Hs].
  apply stepping_alter; [apply Hs|]. apply rows_ok_idle; [apply Hs|by apply (idle_head id ids)|done].
Qed.

Lemma alter_twice (f g : Work -> Work) id (m : gmap string Work) :
  alter f id (alter g id m) = alter (fun w => f (g w)) id m.
Proof.
  apply map_eq. intros i. destruct (decide (i = id)) as [->|]; [|by rewrite !lookup_alter_ne].
  rewrite !lookup_alter_eq. by destruct (m !! id).
Qed.

(** On the list, with the flag or about to get it; its tile not yet cleared. *)
Definition entering (flag : bool) (id : string) (ids : list string) (s : Batch) : Prop :=
  exists s0 f, idle_rows (id :: ids) s0 /\ active s = active s0 ++ [id] /\ works s = alter f id (works s0) /\
    prefill_work (locals s) = prefill_work (locals s0) /\
    forall w, is_active (f w) = (if flag then true else is_active w) /\ req_id (request (f w)) = req_id (request w).

Lemma hoare_push id ids :
  hoare (idle_rows (id :: ids)) (modify (fun s => set_active (active s ++ [id]) s)) (fun _ => entering false id ids) X.
Proof.
  apply hoare_modify. intros s Hs. exists s, (fun w => w). split; [done|]. split; [done|]. split; [|done].
  cbn. symmetry. apply map_eq. intros i. destruct (decide (i = id)) as [->|]; [|by rewrite lookup_alter_ne].
  rewrite lookup_alter_eq. by destruct (works s !! id).
Qed.

Lemma hoare_entering flag id ids f (flag' : bool) :
  (forall w, is_active (f w) = (if flag' then true else is_active w) /\ req_id (request (f w)) = req_id (request w)) ->
  hoare (entering flag id ids) (assign id f) (fun _ => entering (flag || flag') id ids) X.
Proof.
  intros Hf. apply hoare_modify. intros s (s0 & g & Hs & Ha & Hw & Hl & Hg). exists s0, (fun w => f (g w)).
  split; [done|]. split; [done|]. split; [cbn; by rewrite Hw, alter_twice|]. split; [done|].
  intros w. destruct (Hf (g w)) as [-> ->], (Hg w) as [-> ->]. by destruct flag, flag'.
Qed.

Lemma hoare_entered flag id ids f (flag' : bool) : id ∉ ids -> flag || flag' = true ->
  (forall w, is_active (f w) = (if flag' then true else is_active w) /\ prefill (f w) = None /\
     req_id (request (f w)) = req_id (request w)) ->
  hoare (entering flag id ids) (assign id f) (fun _ => idle_rows ids) X.
Proof.
  intros Hni Hflag Hf s (s0 & g & Hs & Ha & Hw & Hl & Hg). destruct (idle_head _ _ _ Hs) as [Hd Hn].
  destruct Hs as [Hs Hi]. pose proof (stepping_some s0 id Hs Hd) as Hsome. destruct Hs as (Hr & Hdom & Hgr).
  split; [split|].
  - eapply structural_rows_ok; [| |apply (rows_ok_enter id (fun w => f (g w)) s0 Hr Hn Hsome)].
    + by cbn.
    + cbn. by rewrite Hw, alter_twice.
    + intros w. destruct (Hf (g w)) as (-> & -> & ->), (Hg w) as [-> ->]. by destruct flag, flag'.
  - cbn. by rewrite Hw, !dom_alter_L, Hl.
  - cbn. rewrite Ha. inversion Hi as [|? ? _ Hrest]. eapply Forall_impl; [apply Forall_and; split; [exact Hrest|]|].
    + apply Forall_forall. exact (fun i Hin => Hin).
    + intros i [[? ?] Hin]. split; [done|]. rewrite elem_of_app, list_elem_of_singleton. intros [?| ->]; done.
Qed.

Lemma hoare_finish_replay id chunk ids : id ∈ d -> id ∉ ids ->
  hoare (idle_rows (id :: ids)) (finish_replay id chunk) (fun _ => idle_rows ids) X.
Proof.
  intros Hd Hni. eapply hoare_bind; [by apply hoare_idle_assign|]. intros [].
  eapply hoare_bind; [apply hoare_same; [apply steady_idle|done]|]. intros [].
  eapply hoare_bind; [apply hoare_at_step; [by intros ? []|done]|]. intros w. destruct (_ =? _).
  - eapply hoare_bind; [by apply hoare_idle_assign|]. intros []. eapply hoare_bind; [apply hoare_push|].
    intros []. by apply (hoare_entered false id ids _ true).
  - eapply hoare_bind; [by apply hoare_idle_assign|]. intros [].
    eapply hoare_weaken; [apply (hoare_same (idle_rows ids)); [apply steady_idle|done]|apply idle_tail|done|done].
Qed.

(** A row that was admitted, or a request whose prompt goes on. *)
Definition finished (id : string) (ids : list string) (s : Batch) : Prop :=
  entering true id ids s \/ idle_rows (id :: ids) s.

Lemma hoare_or {A} P P' (m : Op A) Q :
  hoare P m Q X -> hoare P' m Q X -> hoare (fun s => P s \/ P' s) m Q X.
Proof. intros H H' s [Hs|Hs]; [by apply H|by apply H']. Qed.

Lemma hoare_finished_assign id ids f : plain f ->
  hoare (finished id ids) (assign id f) (fun _ => finished id ids) X.
Proof.
  intros Hf. apply hoare_or.
  - eapply hoare_weaken; [by apply (hoare_entering true id ids f false)|done|by left|done].
  - eapply hoare_weaken; [by apply (hoare_idle_assign id ids)|done|by right|done].
Qed.

Lemma hoare_finished_clear id ids : id ∉ ids ->
  hoare (finished id ids) (assign id (set_prefill None)) (fun _ => idle_rows ids) X.
Proof.
  intros Hni. apply hoare_or.
  - by apply (hoare_entered true id ids _ false).
  - eapply hoare_weaken; [by apply (hoare_idle_assign id ids)|done|by intros ? s; apply idle_tail|done].
Qed.

Lemma dev_idle {A} ids (m : M B A) : hoare (idle_rows ids) (on_backend m) (fun _ => idle_rows ids) X.
Proof. apply hoare_dev; [apply steady_idle|by intros ? []|apply any_safe]. Qed.

Lemma steady_entering flag id ids : steady (entering flag id ids).
Proof.
  intros s s' (Ha & Hw & Hl) (s0 & f & Hs & Ea & Ew & El & Hf). exists s0, f. by rewrite <- Ha, <- Hw, <- Hl.
Qed.

Lemma hoare_finish_prefill id chunk x ids : id ∈ d -> id ∉ ids ->
  hoare (idle_rows (id :: ids)) (finish_prefill id chunk x) (fun _ => finished id ids) X.
Proof.
  intros Hd Hni. eapply hoare_bind; [by apply hoare_idle_assign|]. intros [].
  eapply hoare_bind; [apply hoare_same; [apply steady_idle|done]|]. intros [].
  eapply hoare_bind; [apply hoare_at_step; [by intros ? []|done]|]. intros w.
  apply (hoare_bind _ _ _ (fun _ => finished id ids)); [|intros []; by apply hoare_finished_assign].
  destruct (_ =? _).
  - eapply hoare_bind; [by apply hoare_idle_assign|]. intros [].
    eapply hoare_bind; [apply hoare_at_step; [by intros ? []|done]|]. intros w'.
    eapply hoare_bind; [apply dev_idle|]. intros []. eapply hoare_bind; [apply hoare_push|]. intros [].
    eapply hoare_bind; [by apply (hoare_entering false id ids _ true)|]. intros [].
    eapply hoare_weaken; [apply (hoare_same (entering true id ids)); [apply steady_entering|done]|done|by left|done].
  - eapply hoare_weaken; [apply (hoare_same (idle_rows (id :: ids))); [apply steady_idle|done]|done|by right|done].
Qed.

Lemma hoare_finish_row replaying id chunk r ids : id ∈ d -> id ∉ ids ->
  hoare (idle_rows (id :: ids)) (finish_row replaying ((id, chunk), r)) (fun _ => idle_rows ids) X.
Proof.
  intros Hd Hni. destruct r as [x|e]; cbn [finish_row].
  - destruct replaying; [by apply hoare_finish_replay|].
    eapply hoare_bind; [by apply hoare_finish_prefill|]. intros []. by apply hoare_finished_clear.
  - eapply hoare_bind; [apply hoare_at_step; [by intros ? []|done]|]. intros w.
    eapply hoare_bind; [by apply hoare_idle_assign|]. intros []. eapply hoare_bind; [apply dev_idle|]. intros [].
    eapply hoare_weaken; [by apply (hoare_idle_assign id ids)|done|by intros ? s; apply idle_tail|done].
Qed.

Lemma hoare_finish_rows replaying : forall l, NoDup l.*1.*1 -> Forall (fun id => id ∈ d) l.*1.*1 ->
  hoare (idle_rows l.*1.*1) (for_each l (finish_row replaying)) (fun _ => stepping) X.
Proof.
  induction l as [|[[id chunk] r] l IH]; cbn [for_each fmap list_fmap fst]; intros Hnd Hd.
  { apply hoare_ret. by intros s []. }
  inversion Hnd; subst. inversion Hd; subst. eapply hoare_bind; [by apply hoare_finish_row|]. intros []. by apply IH.
Qed.

Lemma hoare_run_prefill a ids id : id ∈ d -> id ∉ a ->
  hoare (stepping_with a []) (run_prefill_step ids id) (fun _ => stepping) X.
Proof.
  intros Hd Hn. eapply hoare_bind; [apply dev_with, any_safe|]. intros [].
  eapply hoare_bind; [apply hoare_phase, steady_with|]. intros [].
  eapply hoare_bind; [by apply hoare_add_group|]. intros [].
  eapply hoare_bind; [by apply hoare_assign_with|]. intros [].
  eapply hoare_bind; [by apply hoare_at_with|]. intros w.
  apply (hoare_bind _ _ _ (fun _ => stepping_with a [id])).
  { destruct (_ <? _); [apply hoare_admission_tile|by apply hoare_ret]. }
  intros chunk. eapply hoare_bind; [by apply hoare_assign_idle|]. intros [].
  eapply hoare_bind; [apply (hoare_group_items a _ _ (id, chunk))|].
  { split; [apply NoDup_singleton|by constructor]. }
  intros items. intros s [Hs [Hnd Hidle]]. revert s Hs.
  enough (hoare (stepping_with a items.*1)
    (samples ← run_tiles (0 <=? replay_offset (request w)) (id, chunk) items;
     set_phase false false ≫= fun _ =>
     if negb (length samples =? length items)%nat then throw (RuntimeError "invalid packed prefill result count")
     else for_each (zip items samples) (finish_row (0 <=? replay_offset (request w))) ≫= fun _ =>
       s ← get; on_backend (op_resume_decode ops (cache_position s))) (fun _ => stepping) X) as Hall by exact Hall.
  eapply hoare_bind; [by apply hoare_run_tiles|]. intros samples.
  eapply hoare_bind; [apply hoare_phase, steady_with|]. intros [].
  destruct (length samples =? length items)%nat eqn:E; cbn [negb]; [|apply hoare_throw; by intros s [? _]; apply HX].
  apply Nat.eqb_eq in E. apply (hoare_bind _ _ _ (fun _ => stepping)); [|intros []; apply hoare_read; intros s _; apply dev_step].
  eapply hoare_weaken; [apply hoare_finish_rows|..].
  - by rewrite fst_zip by lia.
  - rewrite fst_zip by lia. eapply Forall_impl; [exact Hidle|]. by intros i [].
  - intros s (Hs & Ha & _). split; [done|]. rewrite fst_zip by lia. by rewrite Ha.
  - done.
  - done.
Qed.
End Step.

(** *** Failures *)

Section Handling.
Context (d : gset string) (X : Batch -> Prop).

(** What a handled failure leaves behind. *)
Hypothesis HF : forall s, rows_ok s /\ all_failed s -> X s.
Hypothesis Hadm : safe_admission d X.
Hypothesis Hretract : forall f r, op_retract ops = Some f -> safe d X (f r).
Hypothesis Hready : forall f l ids, op_ready_decode ops = Some f -> safe d X (f l ids).
Hypothesis Hcleanup : forall e, recoverable e = true ->
  (forall r, safe d X (op_discard_prefill ops r)) /\ forall z, safe d X (op_resume_decode ops z).
#[local] Set Default Proof Using "All".

Lemma stepping_named s : stepping d s -> named s.
Proof using Type. intros [Hr _]. by apply rows_named. Qed.

Lemma leaving_named id s : leaving d id s -> named s.
Proof using Type.
  intros (s0 & Hs & _ & _ & Ew & _). unfold named. rewrite Ew. by apply stepping_named.
Qed.

Lemma hoare_recovers P e : (forall s, P s -> named s) -> hoare P (recover e) (fun _ => rows_ok) X.
Proof using HF. intros HP. eapply hoare_weaken; [apply hoare_recover|done|by intros ? s []|done]. Qed.

Lemma hoare_fail_all P e : (forall s, P s -> named s) -> hoare P (fail_all e) (fun _ => rows_ok) X.
Proof using HF.
  intros HP. eapply hoare_bind.
  - eapply hoare_weaken; [apply hoare_recover|exact HP|intros ? s Hs; exact Hs|done].
  - intros []. by apply hoare_throw.
Qed.

Lemma hoare_or_recover P m :
  hoare P m (fun _ => rows_ok) named -> hoare P (or_recover m) (fun _ => rows_ok) X.
Proof using HF. intros Hm. eapply hoare_try; [exact Hm|]. intros e. by apply hoare_fail_all. Qed.

Lemma hoare_evict_row a g e r : req_id r ∈ d -> req_id r ∈ a ->
  hoare (stepping_with d a g) (evict_row e r) (fun _ => rows_ok) X.
Proof using HF.
  intros Hd Ha. eapply hoare_bind; [by apply hoare_assign_with|]. intros [].
  apply (hoare_bind _ _ _ (fun _ => leaving d (req_id r))).
  { eapply hoare_weaken; [by apply hoare_erase_row|done|by intros ? s []|]. done. }
  intros []. apply hoare_or_recover. apply (hoare_bind _ _ _ (fun _ => leaving d (req_id r))).
  { eapply hoare_weaken; [apply (hoare_at named (leaving d (req_id r)))|done|by intros w s []|done].
    intros s (s0 & Hs & _ & _ & -> & _). by apply (stepping_some d). }
  intros w. apply hoare_read. intros s _. apply (hoare_bind _ _ _ (fun _ => leaving d (req_id r))).
  { intros s' Hs'. unfold on_backend. destruct (op_retire ops _ _ _) as [[]].
    - by eapply steady_leaving; [|exact Hs'].
    - apply (leaving_named (req_id r)). by eapply steady_leaving; [|exact Hs']. }
  intros []. apply hoare_modify. intros s' Hs'.
  assert (stepping d (set_works (alter (set_is_active false) (req_id r) (works s')) s')) as [Hr _]; [|done].
  by apply leaving_flag with (d := d).
Qed.

(** A row's flag is cleared, then it leaves the list. *)
Lemma hoare_deactivate id Y : 
  hoare (stepping d) (assign id (set_is_active false) ≫= fun _ => erase_row id) (fun _ => stepping d) Y.
Proof using Type.
  intros s (Hr & Hd & Hg). cbn. split; [|cbn; by rewrite dom_alter_L].
  eapply structural_rows_ok; [| |by apply (rows_ok_leave id (set_is_active false) s Hr)]; done.
Qed.

Lemma hoare_fail_group Y e deactivate :
  (forall r, safe d Y (op_discard_prefill ops r)) -> (forall z, safe d Y (op_resume_decode ops z)) ->
  hoare (stepping d) (fail_group e deactivate) (fun _ => stepping d) Y.
Proof using Type.
  intros Hdis Hres. apply hoare_read. intros s Hs. apply (hoare_bind _ _ _ (fun _ => stepping d)).
  - apply hoare_for_each. intros id Hin.
    assert (id ∈ d) as Hd by (destruct Hs as (_ & _ & Hg); by eapply Forall_forall in Hg).
    eapply hoare_bind; [by apply hoare_assign_gentle|]. intros [].
    apply (hoare_bind _ _ _ (fun _ => stepping d)).
    { destruct deactivate; [apply hoare_deactivate|by apply hoare_ret]. }
    intros []. eapply hoare_bind; [by apply (hoare_at_step d)|]. intros w.
    by apply (hoare_dev d); [apply steady_stepping|..].
  - intros []. apply hoare_read. intros s' _. by apply (hoare_dev d); [apply steady_stepping|..].
Qed.

Lemma hoare_last_handler run_decode chosen e :
  hoare (stepping d) (last_handler run_decode chosen e) (fun _ => rows_ok) X.
Proof using HF Hcleanup.
  unfold last_handler. destruct (recoverable e) eqn:Er; [|apply hoare_fail_all, stepping_named].
  destruct (_ && _); [|apply hoare_recovers, stepping_named]. destruct (Hcleanup e Er).
  eapply hoare_weaken; [by apply hoare_fail_group|done|by intros ? s []|done].
Qed.

Lemma hoare_prefill_handler run_decode chosen e :
  hoare (stepping d) (prefill_handler run_decode chosen e) (fun _ => rows_ok) X.
Proof using HF Hcleanup.
  apply hoare_read. intros s _. destruct (_ && _); [|apply hoare_last_handler].
  apply hoare_or_recover. eapply hoare_weaken; [apply (hoare_fail_group named)|done|by intros ? s' []|done].
  all: intros; right; apply stepping_named.
Qed.

Lemma hoare_with {A} (m : Op A) Q Y :
  (forall a g, hoare (stepping_with d a g) m Q Y) -> hoare (stepping d) m Q Y.
Proof using Type. intros Hm s Hs. by apply (Hm (active s) (prefill_work (locals s)) s). Qed.

Lemma hoare_handle run_decode chosen e : hoare (stepping d) (handle run_decode chosen e) (fun _ => rows_ok) X.
Proof using HF Hcleanup Hretract.
  apply hoare_read. intros s0 _. destruct (_ && _); [|apply hoare_prefill_handler].
  apply hoare_with. intros a g. eapply hoare_bind; [by apply hoare_retract_one|].
  intros []; [apply hoare_ret; by intros s [[]]|]. apply hoare_read. intros s (Hs & <- & <-).
  destruct (head _) as [r|] eqn:Eh.
  - apply head_Some_elem_of, elem_of_reverse, list_elem_of_filter in Eh as [_ Hr].
    destruct (rows_in_step d s r Hs Hr). by apply hoare_evict_row.
  - eapply hoare_weaken; [apply hoare_prefill_handler|by intros ? []|done|done].
Qed.

Lemma hoare_mark_eligible a g Y ids id : id ∈ d ->
  hoare (stepping_with d a g) (mark_eligible ids id) (fun _ => stepping_with d a g) Y.
Proof using Type.
  intros Hd. eapply hoare_bind; [by apply hoare_at_with|]. intros w. by apply hoare_assign_with.
Qed.

(** The guarded part of a step. *)
Lemma hoare_guarded ids run_decode chosen a :
  (forall id, chosen = Some id -> id ∈ d /\ id ∉ a) ->
  hoare (stepping_with d a [])
    ((if run_decode : bool then run_decode_step
      else match chosen with Some id => run_prefill_step ids id | None => mret tt end) ≫= fun _ =>
     modify (fun s => set_decode_next (negb (decode_next s)) s))
    (fun _ => rows_ok) (stepping d).
Proof using capacity_failure no_sample prefill_token_budget.
  intros Hc. apply (hoare_bind _ _ _ (fun _ => stepping d)).
  - destruct run_decode.
    + eapply hoare_weaken; [by apply (hoare_run_decode d)|by intros ? []|done|done].
    + destruct chosen as [id|]; [|apply hoare_ret; by intros ? []].
      destruct (Hc id eq_refl). by apply hoare_run_prefill.
  - intros []. apply hoare_modify. intros s [Hr _]. by eapply structural_rows_ok; [..|exact Hr].
Qed.

Lemma hoare_step_from a ids :
  hoare (fun s => rows_ok s /\ dom (works s) = d /\ active s = a) (step ids) (fun _ => rows_ok) X.
Proof.
  apply (hoare_bind _ _ _ (fun _ => stepping_with d a [])).
  { apply hoare_modify. intros s (Hr & Hd & Ha). split; [|done]. split; [done|]. split; [done|]. by constructor. }
  intros []. apply hoare_read. intros s0 (Hs0 & Ea & _).
  apply (hoare_bind _ _ _ (fun _ => stepping_with d a [])).
  { apply hoare_for_each. intros id Hin. apply hoare_mark_eligible.
    destruct Hs0 as ((_ & Hact & _) & <- & _). apply Hact in Hin as (w & Hl & _). by apply elem_of_dom_2 in Hl. }
  intros []. eapply hoare_bind; [by apply hoare_select_prefill|]. intros chosen s [Hs Hc].
  revert s Hs. match goal with |- forall s, _ -> match ?m s with _ => _ end =>
    enough (hoare (stepping_with d a []) m (fun _ => rows_ok) X) as Hall by exact Hall end.
  apply hoare_read. intros s _.
  match goal with |- hoare _ (let h := ?h in _) _ _ => generalize h; intros has_decode end. cbv zeta.
  apply (hoare_bind _ _ _ (fun _ => stepping_with d a [])).
  { destruct (op_ready_decode ops) as [f|] eqn:Ef; [|by apply hoare_ret]. destruct (_ && _); [|by apply hoare_ret].
    apply (hoare_dev d); [apply steady_with|by intros ? []|by apply Hready]. }
  intros run_decode. eapply hoare_try; [|intros e; apply hoare_handle].
  apply hoare_read. intros s' _. apply (hoare_bind _ _ _ (fun _ => stepping_with d a [])).
  { destruct (op_synchronize ops); [|by apply hoare_ret].
    apply (hoare_dev d); [apply steady_with|by intros ? []|by right]. }
  intros []. by apply hoare_guarded.
Qed.

Lemma hoare_step ids s :
  rows_ok s -> dom (works s) = d -> 
  match step ids s with (Ok _, s') => rows_ok s' | (Throw _, s') => X s' end.
Proof. intros Hr Hd. by apply (hoare_step_from (active s)). Qed.
End Handling.

(** ** Outside the step *)

Lemma hoare_at_any P id : hoare P (work_at id) (fun _ => P) P.
Proof. intros s Hs. unfold work_at. by destruct (works s !! id). Qed.

(** A request off the list of rows, about to leave the map. *)
Definition off (id : string) (s : Batch) : Prop :=
  exists s0, rows_ok s0 /\ active s = filter (fun i => i <> id) (active s0) /\ works s = works s0.

Lemma structural_off id : structural (off id).
Proof. intros s s' Ha Hw (s0 & ?). exists s0. by rewrite <- Ha, <- Hw. Qed.

Lemma off_named id s : off id s -> named s.
Proof. intros (s0 & Hs & _ & Ew). unfold named. rewrite Ew. by apply rows_named. Qed.

Lemma off_inactive id s : rows_ok s -> id ∉ active s -> off id s.
Proof.
  intros Hs Hn. exists s. split; [done|]. split; [|done]. rewrite filter_all; [done|]. by intros i Hi ->.
Qed.

Lemma off_erased id s : off id s -> rows_ok (set_works (delete id (works s)) s).
Proof.
  intros (s0 & (Hd & Ha & Hw) & Ea & Ew). unfold rows_ok. cbn. rewrite Ea, Ew. split; [by apply NoDup_filter|].
  split; intros i.
  - rewrite list_elem_of_filter, Ha. destruct (decide (i = id)) as [->|Hne].
    + rewrite lookup_delete_eq. split; [by intros []|by intros (? & ? & ?)].
    + rewrite lookup_delete_ne by done. tauto.
  - intros w [_ Hl]%lookup_delete_Some. by apply Hw.
Qed.

(** The request is gone, whatever [release] meets. *)
Definition gone (id : string) (s : Batch) : Prop := rows_ok s /\ works s !! id = None.

Lemma hoare_erase_work id X : hoare (off id) (erase_work id) (fun _ => gone id) X.
Proof. apply hoare_modify. intros s Hs. split; [by apply off_erased|]. cbn. by rewrite lookup_delete_eq. Qed.

Lemma hoare_recover_off id e X :
  hoare (off id) (try_catch (recover e ≫= fun _ => mret e) mret) (fun _ => off id) X.
Proof.
  apply (hoare_try _ _ _ _ (fun s => rows_ok s /\ all_failed s)).
  2: { intros e'. apply hoare_ret. intros s [Hr [Ha _]]. apply off_inactive; [done|]. rewrite Ha. set_solver. }
  eapply hoare_bind.
  - eapply hoare_weaken; [apply hoare_recover|apply off_named|intros ? s Hs; exact Hs|done].
  - intros u. apply hoare_ret. intros s [Hr [Ha _]]. apply off_inactive; [done|]. rewrite Ha. set_solver.
Qed.

Lemma hoare_release id : hoare rows_ok (release id) (fun _ => gone id) (gone id).
Proof.
  intros s Hs. unfold release. rewrite bind_get. destruct (works s !! id) as [w|] eqn:El; [|by split].
  revert s Hs El. match goal with |- forall s, _ -> _ -> match ?m s with _ => _ end =>
    enough (hoare (fun s => rows_ok s /\ works s !! id = Some w) m (fun _ => gone id) (gone id)) as Hall
      by (intros s Hs El; exact (Hall s (conj Hs El))) end.
  apply (hoare_bind _ _ _ (fun _ => off id)).
  - apply (hoare_try _ _ _ _ (off id)).
    + destruct (is_active w) eqn:Ew.
      * apply (hoare_bind _ _ _ (fun _ => off id)); [apply hoare_modify; intros s [Hs _]; by exists s|].
        intros []. apply hoare_read. intros s _. apply hoare_device, structural_off.
      * eapply (hoare_weaken _ (off id)); [|intros s [Hs El]|intros ? s H; exact H|done].
        -- case_bool_decide; [by apply hoare_ret|].
           eapply hoare_bind; [apply hoare_device, structural_off|]. intros [].
           eapply hoare_bind; [apply hoare_device, structural_off|]. intros [].
           apply hoare_read. intros s _. apply hoare_device, structural_off.
        -- apply off_inactive; [done|]. destruct Hs as (_ & Ha & _). intros (w' & El' & Hact)%Ha. congruence.
    + intros e. eapply hoare_bind; [apply hoare_recover_off|]. intros e'.
      eapply hoare_bind; [apply hoare_erase_work|]. intros []. by apply hoare_throw.
  - intros []. eapply hoare_bind; [apply hoare_erase_work|]. intros [].
    apply hoare_modify. intros s [Hr Hn]. case_bool_decide; [|done]. split; [|done].
    by eapply structural_rows_ok; [..|exact Hr].
Qed.

Lemma hoare_query o r : hoare rows_ok (query o r) (fun _ => rows_ok) rows_ok.
Proof. destruct o; [apply hoare_device, structural_rows_ok|by apply hoare_ret]. Qed.

Lemma rows_ok_insert id w s :
  rows_ok s -> works s !! id = None -> req_id (request w) = id -> is_active w = false ->
  rows_ok (set_works (<[id := w]> (works s)) s).
Proof.
  intros (Hd & Ha & Hw) Hn Hr Hact. split; [done|]. cbn. split; intros i.
  - rewrite Ha. destruct (decide (i = id)) as [->|Hne]; [|by rewrite lookup_insert_ne].
    rewrite lookup_insert_eq, Hn. split; [by intros (? & ? & ?)|]. intros (? & [= <-] & ?). congruence.
  - intros w' [[<- <-]|[_ Hl]]%lookup_insert_Some; [|by apply Hw]. split; [done|congruence].
Qed.

Lemma hoare_begin_request id n m : hoare rows_ok (begin_request id n m) (fun _ => rows_ok) rows_ok.
Proof.
  intros s Hs. unfold begin_request. rewrite bind_get. destruct (works s !! id) as [w|] eqn:El; [done|].
  rewrite bind_modify. pose proof (rows_ok_insert id (new_work id n m) s Hs El eq_refl eq_refl) as Hins.
  revert Hins. generalize (set_works (<[id := new_work id n m]> (works s)) s). 
  match goal with |- forall s, _ -> match ?m s with _ => _ end =>
    enough (hoare rows_ok m (fun _ => rows_ok) rows_ok) as Hall by exact Hall end.
  apply (hoare_try _ _ _ _ rows_ok).
  - eapply hoare_bind; [apply hoare_at_any|]. intros w. eapply hoare_bind; [apply hoare_query|]. intros reused.
    eapply hoare_bind; [by apply hoare_gentle|]. intros [].
    eapply hoare_bind; [apply hoare_at_any|]. intros w'. eapply hoare_bind; [apply hoare_query|]. intros prefix.
    by apply hoare_ret.
  - intros e. apply (hoare_bind _ _ _ (fun _ => rows_ok)); [|intros []; by apply hoare_throw].
    apply (hoare_try _ _ _ _ rows_ok); [|intros e'; by apply hoare_ret].
    eapply hoare_weaken; [apply hoare_release|done|by intros ? ? []|by intros ? []].
Qed.

Lemma hoare_accept id token : hoare rows_ok (accept id token) (fun _ => rows_ok) rows_ok.
Proof.
  eapply hoare_bind; [apply hoare_at_any|]. intros w. apply (hoare_bind _ _ _ (fun _ => rows_ok)).
  - destruct (_ =? _); [by apply hoare_ret|]. apply (hoare_bind _ _ _ (fun _ => rows_ok)).
    + eapply hoare_bind; [apply hoare_at_any|]. intros w'.
      destruct (failure w'); [by apply hoare_throw|]. destruct (result w'); [by apply hoare_ret|by apply hoare_throw].
    + intros x. apply hoare_device, structural_rows_ok.
  - intros []. by apply hoare_gentle.
Qed.

(** ** Properties *)

Lemma hoare_command c : hoare (fun s => rows_ok s /\ legal s c) (command c) (fun _ => rows_ok) rows_ok.
Proof.
  destruct c as [id n m|id|id chunk|id|id token|ids| |]; cbn [command legal].
  - eapply hoare_bind.
    + eapply hoare_weaken; [apply hoare_begin_request|by intros ? []|intros ? s Hs; exact Hs|done].
    + intros p. by apply hoare_ret.
  - eapply hoare_weaken; [apply hoare_release|by intros ? []|by intros ? ? []|by intros ? []].
  - apply hoare_modify. intros s [Hs Hn]. by apply rows_ok_idle.
  - eapply hoare_weaken; [by apply (hoare_gentle id)|by intros ? []|done|done].
  - eapply hoare_weaken; [apply hoare_accept|by intros ? []|done|done].
  - intros s [Hs _]. assert (forall s, rows_ok s /\ all_failed s -> rows_ok s) as HF by by intros ? [].
    apply (hoare_step (dom (works s)) rows_ok HF); [| | | |done|done].
    1: constructor. all: intros; (split || idtac); intros; right; intros ? [Hr _]; exact Hr.
  - apply (hoare_weaken _ rows_ok _ _ (fun _ => rows_ok) _ rows_ok); [|by intros ? []|done|done].
    unfold invalidate_runtime_policy, when_some.
    destruct (op_invalidate ops); [apply hoare_device, structural_rows_ok|by apply hoare_ret].
  - apply (hoare_weaken _ rows_ok _ _ (fun _ => rows_ok) _ rows_ok); [|by intros ? []|done|done].
    apply hoare_read. intros s _. destruct (negb _); [by apply hoare_throw|].
    destruct (op_release_idle ops); apply hoare_device, structural_rows_ok.
Qed.

(** C27: Rows and requests agree in every batch a run reaches, whatever the device
    operations return or throw and wherever they do: the active rows are distinct,
    they are exactly the requests marked active, the map holds each request under its
    own id, and a request with a row has no prefill tile pending. *)
Theorem rows_agree b t s : reached b t s -> rows_ok s.
Proof.
  induction 1 as [|s c _ IH Hlegal].
  - split; [constructor|]. cbn. split; intros id.
    + rewrite lookup_empty. split; [by intros ?%not_elem_of_nil|by intros (w & ? & _)].
    + intros w. by rewrite lookup_empty.
  - pose proof (hoare_command c s (conj IH Hlegal)) as H. by destruct (command c s) as [[]].
Qed.

(** The operations that [step] runs outside its [try] or in a handler without a second
    one do not throw. *)
Record quiet_outside : Prop := {
  quiet_available : forall adm, op_admission ops = Some adm -> quiet (admission_available adm);
  quiet_cost : forall adm r n, op_admission ops = Some adm -> quiet (admission_cost adm r n);
  quiet_idle : forall m, op_release_idle ops = Some m -> quiet m;
  quiet_reclaim : forall f r, op_reclaim ops = Some f -> quiet (f r);
  quiet_retract : forall f r, op_retract ops = Some f -> quiet (f r);
  quiet_ready : forall f l ids, op_ready_decode ops = Some f -> quiet (f l ids);
  quiet_discard : forall e r, recoverable e = true -> quiet (op_discard_prefill ops r);
  quiet_resume : forall e z, recoverable e = true -> quiet (op_resume_decode ops z);
}.


(** [release] always forgets its request: whether the device returns or throws
    while the row is retired or the prefill discarded, the request has left the map
    and the rows, and rows and requests still agree. *)
Theorem release_forgets id s :
  rows_ok s -> rows_ok (release id s).2 /\ works (release id s).2 !! id = None.
Proof. intros Hs. pose proof (hoare_release id s Hs) as H. by destruct (release id s) as [[]]. Qed.

(** *** Packing *)

Definition total (items : list (string * PrefillChunk)) : Z := foldr Z.add 0 (map (fun item => count item.2) items).

Definition shrinking : Prop := forall adm r chunk b chunk' b',
  op_admission ops = Some adm -> admission_chunk adm r chunk b = (Ok chunk', b') -> count chunk' <= count chunk.

Lemma hoare_pure_bind {A A'} (m : Op A) (k : A -> Op A') (Q : A' -> Prop) :
  (forall a, hoare (fun _ => True) (k a) (fun a _ => Q a) (fun _ => True)) ->
  hoare (fun _ => True) (m ≫= k) (fun a _ => Q a) (fun _ => True).
Proof.
  intros Hk. apply (hoare_bind _ _ _ (fun _ _ => True)); [|exact Hk]. intros s _. by destruct (m s) as [[]].
Qed.

Lemma tile_shrinks r chunk : shrinking ->
  hoare (fun _ => True) (admission_tile r chunk) (fun chunk' _ => count chunk' <= count chunk) (fun _ => True).
Proof.
  intros Hshrink s _. unfold admission_tile. destruct (op_admission ops) as [adm|] eqn:E; [|apply Z.le_refl].
  unfold on_backend. destruct (admission_chunk adm r chunk (backend s)) as [[chunk'|] b] eqn:Er; [|done].
  by eapply Hshrink.
Qed.

(** What [fill_group] adds. *)
Definition fits (limit : Z) (ids : list string) (remaining : Z) (items result : list (string * PrefillChunk)) : Prop :=
  exists added, result = items ++ added /\ added.*1 `sublist_of` ids /\
    size_of result <= Z.max limit (size_of items) /\ total added <= Z.max 0 remaining.

Lemma fits_skip limit id ids remaining items result :
  fits limit ids remaining items result -> fits limit (id :: ids) remaining items result.
Proof. intros (added & -> & Hsub & ?). exists added. split; [done|]. split; [by constructor|done]. Qed.

Lemma fill_group_fits limit ids : shrinking -> forall remaining items,
  hoare (fun _ => True) (fill_group limit ids remaining items)
    (fun result _ => fits limit ids remaining items result) (fun _ => True).
Proof.
  intros Hshrink. induction ids as [|id ids IH]; intros remaining items; cbn [fill_group].
  { apply hoare_ret. intros ? ?. exists []. rewrite app_nil_r. split; [done|]. split; [done|]. cbn. lia. }
  assert (hoare (fun _ => True) (fill_group limit ids remaining items)
    (fun result _ => fits limit (id :: ids) remaining items result) (fun _ => True)) as Hskip.
  { eapply hoare_weaken; [apply IH|done|intros ? ?; apply fits_skip|done]. }
  apply hoare_read. intros s _. destruct (works s !! id) as [w|]; [|done].
  destruct (prefill w) as [chunk|]; [|done]. destruct (_ || _) eqn:Eskip; [done|].
  apply orb_false_elim in Eskip as [[_ Hlimit]%orb_false_elim Hcount]. apply Z.leb_gt in Hlimit. apply Z.ltb_ge in Hcount.
  apply hoare_pure_bind. intros []; [|done]. apply hoare_pure_bind. intros [].
  eapply hoare_bind; [by apply tile_shrinks|]. intros chunk'. cbn beta.
  intros s1 Hle. revert s1 Hle.
  enough (count chunk' <= count chunk -> hoare (fun _ => True)
    (add_group id ≫= fun _ => fill_group limit ids (remaining - count chunk') (items ++ [(id, chunk')]))
    (fun result _ => fits limit (id :: ids) remaining items result) (fun _ => True)) as Hall.
  { intros s1 Hle. by apply Hall. }
  intros Hle. apply hoare_pure_bind. intros []. eapply hoare_weaken; [apply IH|done| |done].
  intros result ? (added & -> & Hsub & Hsize & Htotal). exists ((id, chunk') :: added).
  rewrite <- app_assoc. split; [done|]. split; [by constructor|].
  unfold size_of in *. rewrite !length_app in *. cbn [length total map foldr snd] in *. unfold total in *. lia.
Qed.

(** A packed prefill keeps to its limits: besides the tile that was chosen, the
    group holds tiles of requests in their order in [ids], never more rows than the
    limit nor more tokens than the budget allows beside the first tile, provided
    admission only ever shrinks a tile. *)
Theorem group_within_budget limit ids budget first s items s' :
  shrinking -> fill_group limit ids (budget - count first.2) [first] s = (Ok items, s') ->
  exists added, items = first :: added /\ added.*1 `sublist_of` ids /\
    size_of items <= Z.max limit 1 /\ total items <= Z.max (count first.2) budget.
Proof.
  intros Hshrink Hrun. pose proof (fill_group_fits limit ids Hshrink (budget - count first.2) [first] s I) as H.
  rewrite Hrun in H. destruct H as (added & -> & Hsub & Hsize & Htotal). exists added. split; [done|].
  split; [done|]. split; [done|]. cbn. unfold total in *. lia.
Qed.

(** *** Retraction *)

(** The request goes back to replay its prompt and what it has produced. *)
Definition replays (w : Work) : Work :=
  set_prefill (Some (chunk_of 0 (Z.min prefill_chunk_size (replay_length (request w)))))
    (on_request (fun r => set_cache_length 0 (set_replay 0 (set_eligible false r)))
      (set_admitted false (set_is_active false w))).

Lemma retract_first_row retract l : forall s s', retract_first retract l s = (Ok true, s') ->
  exists r w, r ∈ l /\ works s !! req_id r = Some w /\ decode w = true /\
    (eligible r = true -> (1 < eligible_rows s)%nat) /\
    active s' = filter (fun i => i <> req_id r) (active s) /\ works s' = alter replays (req_id r) (works s) /\
    retractions s' = retractions s + 1.
Proof.
  induction l as [|r l IH]; intros s s'; cbn [retract_first]; [done|].
  unfold mbind at 1, M_bind at 1. unfold work_at at 1. destruct (works s !! req_id r) as [w|] eqn:El; [|done].
  rewrite bind_get. destruct (negb (decode w) || _) eqn:Eskip.
  { intros (r' & w' & Hin & ?)%IH. exists r', w'. split; [by right|done]. }
  apply orb_false_elim in Eskip as [Hdec%negb_false_iff Hlast].
  unfold retract_row, on_backend, mbind, M_bind. destruct (retract r (backend s)) as [[[]|] b]; [|done].
  cbn. intros [= <-]. exists r, w. split; [by left|]. split; [done|]. split; [done|]. split; [|done].
  intros He. rewrite He in Hlast. by apply Nat.leb_gt in Hlast.
Qed.

Lemma rows_lookup s id w : works s !! id = Some w -> id ∈ active s -> request w ∈ rows s.
Proof. intros Hl Hin. apply list_elem_of_omap. exists id. by rewrite Hl. Qed.

Lemma retract_one_row s s' : rows_ok s -> retract_one s = (Ok true, s') ->
  exists id w, (1 < length (active s))%nat /\ id ∈ active s /\ works s !! id = Some w /\ decode w = true /\
    (eligible (request w) = true -> (1 < eligible_rows s)%nat) /\
    active s' = filter (fun i => i <> id) (active s) /\ works s' = alter replays id (works s) /\
    retractions s' = retractions s + 1.
Proof.
  intros Hs. unfold retract_one. destruct (op_retract ops) as [retract|]; [|done].
  rewrite bind_get. destruct (_ <=? _)%nat eqn:Elen; [done|]. apply Nat.leb_gt in Elen.
  intros (r & w & Hin & Hl & Hdec & He & Ha & Hw & Hn)%retract_first_row.
  unfold retraction_order in Hin. rewrite (stable_sort_perm _ (rows s)) in Hin.
  destruct (rows_elem s r Hs Hin) as (w' & Hl' & <- & Hact). rewrite Hl in Hl'. injection Hl' as <-.
  exists (req_id (request w)), w. done.
Qed.

(** The eligible rows, by their ids. *)
Definition eligible_id (s : Batch) (id : string) : bool :=
  match works s !! id with Some w => eligible (request w) | None => false end.

Lemma eligible_rows_ids s : eligible_rows s = length (filter (fun id => eligible_id s id = true) (active s)).
Proof.
  unfold eligible_rows, rows, eligible_id. induction (active s) as [|id l IH]; [done|]. cbn [omap list_omap].
  rewrite filter_cons. destruct (works s !! id) as [w|]; cbn [fmap option_fmap option_map].
  - rewrite filter_cons. destruct (decide _); cbn [length]; by rewrite IH.
  - rewrite IH. by destruct (decide _).
Qed.

Lemma one_less (id : string) l : NoDup l -> (length l <= Datatypes.S (length (filter (fun i => i <> id) l)))%nat.
Proof.
  induction 1 as [|x l Hx Hl IH]; [cbn; lia|]. rewrite filter_cons. destruct (decide (x <> id)) as [|Hid].
  - cbn. lia.
  - apply dec_stable in Hid as ->. rewrite filter_all; [done|]. by intros i Hi ->.
Qed.

Lemma eligible_rows_left s s' id w : rows_ok s ->
  works s !! id = Some w -> (eligible (request w) = true -> (1 < eligible_rows s)%nat) ->
  active s' = filter (fun i => i <> id) (active s) -> works s' = alter replays id (works s) ->
  (0 < eligible_rows s)%nat -> (0 < eligible_rows s')%nat.
Proof.
  intros (Hd & _) Hl He Ha Hw. rewrite !eligible_rows_ids in *. rewrite Ha.
  assert (filter (fun i => eligible_id s' i = true) (filter (fun i => i <> id) (active s)) =
          filter (fun i => i <> id) (filter (fun i => eligible_id s i = true) (active s))) as ->.
  { rewrite !list_filter_filter. apply list_filter_iff. intros i. unfold eligible_id. rewrite Hw.
    destruct (decide (i = id)) as [->|Hne]; [|by rewrite lookup_alter_ne; [tauto|]]. tauto. }
  intros Hpos. destruct (eligible (request w)) eqn:Ee.
  - specialize (He eq_refl). pose proof (one_less id _ (NoDup_filter (fun i => eligible_id s i = true) _ Hd)). lia.
  - rewrite filter_all; [done|]. intros i [Hi _]%list_elem_of_filter ->. unfold eligible_id in Hi.
    rewrite Hl in Hi. congruence.
Qed.

(** C28: A retraction moves exactly one row out of the way and loses nothing: it is one of
    at least two rows, one that waits for a decode; it leaves the rows while every other
    request stays as it is; its request is no longer admitted and starts again at
    position 0 with a tile of the replay of its prompt and accepted tokens; and when
    some row could decode before, some row still can. *)
Theorem retraction_gives_way s s' :
  rows_ok s -> retract_one s = (Ok true, s') ->
  exists id w, id ∈ active s /\ works s !! id = Some w /\ decode w = true /\
    active s' = filter (fun i => i <> id) (active s) /\ (1 < length (active s))%nat /\
    works s' !! id = Some (replays w) /\ (forall i, i <> id -> works s' !! i = works s !! i) /\
    retractions s' = retractions s + 1 /\ ((0 < eligible_rows s)%nat -> (0 < eligible_rows s')%nat).
Proof.
  intros Hs Hret. destruct (retract_one_row s s' Hs Hret) as (id & w & Hlen & Hin & Hl & Hdec & He & Ha & Hw & Hn).
  exists id, w. split; [done|]. split; [done|]. split; [done|]. split; [done|]. split; [done|].
  split; [by rewrite Hw, lookup_alter_eq, Hl|]. split; [intros i Hi; by rewrite Hw, lookup_alter_ne|].
  split; [done|]. by eapply eligible_rows_left.
Qed.

Lemma retract_one_rows_ok s s' : rows_ok s -> retract_one s = (Ok true, s') -> rows_ok s'.
Proof.
  intros Hs Hret. destruct (retract_one_row s s' Hs Hret) as (id & w & _ & Hin & Hl & _ & _ & Ha & Hw & _).
  eapply structural_rows_ok; [| |by apply (rows_ok_leave id replays s Hs)]; by cbn.
Qed.

Lemma capacity_fuel capacity fuel : forall s n,
  rows_ok s -> (length (active s) < fuel)%nat -> (fuel <= n)%nat ->
  make_capacity n capacity s = make_capacity fuel capacity s.
Proof.
  induction fuel as [|fuel IH]; intros s [|n] Hs Hlen Hn; [done|lia|lia|]. cbn [make_capacity]. rewrite !bind_get.
  unfold on_backend, mbind, M_bind. destruct (capacity (rows s) (backend s)) as [[[]|] b]; [done| |done].
  destruct (retract_one (set_backend b s)) as [[[]|] s'] eqn:Er; [|done|done].
  assert (rows_ok (set_backend b s)) as Hs' by (by eapply structural_rows_ok; [..|exact Hs]).
  destruct (retract_one_row _ _ Hs' Er) as (id & w & _ & Hin & _ & _ & _ & Ha & _).
  apply IH; [by eapply retract_one_rows_ok|rewrite Ha|lia].
  pose proof (length_filter_lt (fun i => i <> id) _ id Hin ltac:(tauto)). cbn in *. lia.
Qed.

(** The search for capacity ends: each round gives up a row, so the fuel of one
    more than the rows, which a decode starts with, is as good as any larger one. *)
Theorem capacity_loop_ends capacity n s :
  rows_ok s -> (length (active s) < n)%nat ->
  make_capacity n capacity s = make_capacity (Datatypes.S (length (active s))) capacity s.
Proof. intros Hs Hn. apply capacity_fuel; [done|lia|lia]. Qed.

End Batch.

(** ** A small device

    Two arenas of admission, a decode that throws on demand. *)

#[local] Abbreviation op_result := (M unit Z).

Definition device_admission : Admission unit :=
  {| admission_available := mret {[ 0 := 100 ]};
     admission_cost := fun r tokens => mret {[ 0 := prompt_size r + tokens ]};
     admission_chunk := fun _ chunk => mret chunk |}.

Definition device_ops (decode_fails : bool) : BatchOps unit Z unit :=
  {| op_suspend_decode := mret tt; op_resume_decode := fun _ => mret tt;
     op_discard_prefill := fun _ => mret tt; op_retire := fun _ _ => mret tt;
     op_activate := fun _ _ => mret tt;
     op_decode := fun _ => if decode_fails then throw (RuntimeError "decode") else mret tt;
     op_sample := fun r _ => mret (produced r + 7);
     op_prefill := fun _ _ => mret 5; op_accept := fun _ _ => mret tt; op_recover := fun _ => mret tt;
     op_admission := Some device_admission; op_release_idle := None; op_reclaim := None;
     op_retract := Some (fun _ => mret tt);
     op_capacity := Some (fun rows => mret (length rows <=? 1)%nat); op_synchronize := None;
     op_ready_decode := None; op_cache_length := None; op_replay_prefill := None;
     op_prefill_batch := Some {| batch_prefill := fun items => mret (map (fun _ => inl 5) items);
                                 batch_limit := Some (mret 4); batch_token_budget := None |};
     op_prepare := None; op_prefix_tokens := None; op_sequence_chunk := None; op_invalidate := None;
     isolate_context_growth_failures := true; isolate_prefill_failures := true;
     op_recoverable := None |}.

Definition no_capacity_failure (e : exn) : bool :=
  match e with InputError _ _ => true | _ => false end.

Definition first_tracker : NewTokenRatioTracker :=
  match make_tracker (F := binary64) default_admission with
  | Ok t => t
  | Throw _ => {| config := default_admission (F := binary64); initial := zero; minimum := zero; decay := zero; current := zero |}
  end.

Definition device_batch : Batch := new_batch (S := Z) tt first_tracker.

Definition device_command (decode_fails : bool) : Command -> M Batch unit :=
  command (F := binary64) extended80 0 0 (device_ops decode_fails) no_capacity_failure (@map_to_list string _ _ _) 8 16.

(** Two requests whose prompts are done wait for a decode. *)
Definition two_rows : list Command :=
  [Begin "a" 3 10; Begin "b" 4 10; SchedulePrefill "a" (chunk_of 0 3); SchedulePrefill "b" (chunk_of 0 4);
   Step ["a"; "b"]; ScheduleDecode "a"; ScheduleDecode "b"].

Definition play (decode_fails : bool) (cs : list Command) (s : Batch) : Batch :=
  foldl (fun s c => (device_command decode_fails c s).2) s cs.

Example one_step_prefills_both : 
  (active (play false two_rows device_batch), prefill_chunks (play false two_rows device_batch)) = (["a"; "b"], 2).
Proof. vm_compute. reflexivity. Qed.

(** The decode has room for one row: the cheapest replay gives way, the other decodes. *)
Example decode_retracts :
  let s := play false (two_rows ++ [Step ["a"; "b"]]) device_batch in
  (active s, retractions s, (fun w => result w) <$> works s !! "a", (fun w => prefill w) <$> works s !! "b") =
  (["a"], 1, Some (Some 7), Some (Some (chunk_of 0 4))).
Proof. vm_compute. reflexivity. Qed.

Lemma command_rows_ok fails c s : rows_ok s -> legal s c -> rows_ok (device_command fails c s).2.
Proof.
  intros Hs Hc. unfold device_command.
  pose proof (hoare_command (F := binary64) extended80 0 0 (device_ops fails) no_capacity_failure
    (@map_to_list string _ _ _) 8 16 c s (conj Hs Hc)) as H.
  by destruct (command _ _ _ _ _ _ _ _ c s) as [[]].
Qed.

Lemma two_rows_reached : 
  reached (F := binary64) extended80 0 0 (device_ops false) no_capacity_failure (@map_to_list string _ _ _) 8 16
    tt first_tracker (play false two_rows device_batch).
Proof.
  unfold play, two_rows. cbn [foldl].
  repeat (apply reached_command; [|first [exact I|apply (bool_decide_unpack _); vm_compute; exact I]]).
  apply reached_new.
Defined.

Lemma two_rows_ok : rows_ok (play false two_rows device_batch).
Proof.
  unfold play, two_rows. cbn [foldl].
  repeat (apply command_rows_ok; [|first [exact I|apply (bool_decide_unpack _); vm_compute; exact I]]).
  split; [constructor|]. cbn. split; intros id.
  - rewrite lookup_empty. split; [by intros ?%not_elem_of_nil|by intros (w & ? & _)].
  - intros w. by rewrite lookup_empty.
Qed.

Lemma rows_agree_witness :
  active (play false two_rows device_batch) = ["a"; "b"] /\ rows_ok (play false two_rows device_batch).
Proof.
  split; [vm_compute; reflexivity|].
  apply (rows_agree (F := binary64) extended80 0 0 (device_ops false) no_capacity_failure
    (@map_to_list string _ _ _) 8 16 tt first_tracker), two_rows_reached.
Defined.

Lemma device_quiet fails : quiet_outside (device_ops fails).
Proof. constructor; intros; simplify_eq/=; intros []; do 2 eexists; reflexivity. Qed.


Lemma release_forgets_witness :
  let s := play false two_rows device_batch in
  let s' := (release (device_ops false) (@map_to_list string _ _ _) "a" s).2 in
  active s' = ["b"] /\ rows_ok s' /\ works s' !! "a" = None.
Proof.
  intros s s'. split; [vm_compute; reflexivity|].
  exact (release_forgets (device_ops false) (@map_to_list string _ _ _) "a" s two_rows_ok).
Defined.

Definition device_retract : M Batch bool :=
  retract_one (F := binary64) extended80 (device_ops false) 8.

(** The eligible rows ["a"] and ["b"] of a step without capacity. *)
Definition marked : Batch := play false (two_rows ++ [Step []]) device_batch.

Lemma retraction_gives_way_witness :
  exists id w, active marked = ["a"; "b"] /\ active (device_retract marked).2 = ["a"] /\
    works marked !! id = Some w /\ works (device_retract marked).2 !! id = Some (replays 8 w).
Proof.
  destruct (retraction_gives_way (F := binary64) extended80 (device_ops false) 8 marked (device_retract marked).2)
    as (id & w & _ & Hl & _ & _ & _ & Hr & _).
  - unfold marked, play. rewrite foldl_app. cbn [foldl]. apply command_rows_ok; [apply two_rows_ok|exact I].
  - vm_compute. reflexivity.
  - exists id, w. split; [vm_compute; reflexivity|]. split; [vm_compute; reflexivity|]. split; [exact Hl|exact Hr].
Defined.

Lemma capacity_loop_ends_witness :
  make_capacity (F := binary64) extended80 (device_ops false) 8 9 (fun rows => mret (length rows <=? 1)%nat) marked =
  make_capacity (F := binary64) extended80 (device_ops false) 8 3 (fun rows => mret (length rows <=? 1)%nat) marked.
Proof.
  apply (capacity_loop_ends (F := binary64) extended80 (device_ops false) 8 _ 9 marked).
  - unfold marked, play. rewrite foldl_app. cbn [foldl]. apply command_rows_ok; [apply two_rows_ok|exact I].
  - vm_compute. lia.
Defined.

(** Three tiles pending, of which two fit the budget. *)
Definition three_tiles : Batch :=
  play false [Begin "a" 3 10; Begin "b" 9 10; Begin "c" 4 10; SchedulePrefill "a" (chunk_of 0 3);
              SchedulePrefill "b" (chunk_of 0 8); SchedulePrefill "c" (chunk_of 0 4)] device_batch.

Definition device_group : M Batch (list (string * PrefillChunk)) :=
  fill_group (F := binary64) 0 (device_ops false) (@map_to_list string _ _ _) 4 ["a"; "b"; "c"] (8 - 3) [("a", chunk_of 0 3)].

Lemma group_within_budget_witness :
  exists items, (device_group (set_locals {| prefilling_operation := true; decoding_operation := false;
                                           prefill_work := ["a"] |} three_tiles)).1 = Ok items /\
    items = [("a", chunk_of 0 3); ("c", chunk_of 0 4)] /\ total items <= 8.
Proof.
  set (s := set_locals _ _). exists [("a", chunk_of 0 3); ("c", chunk_of 0 4)].
  assert ((device_group s).1 = Ok [("a", chunk_of 0 3); ("c", chunk_of 0 4)]) as Hr by (vm_compute; reflexivity).
  split; [exact Hr|]. split; [reflexivity|].
  destruct (group_within_budget (F := binary64) 0 (device_ops false) (@map_to_list string _ _ _) 4 ["a"; "b"; "c"]
    8 ("a", chunk_of 0 3) s [("a", chunk_of 0 3); ("c", chunk_of 0 4)] (device_group s).2) as (_ & _ & _ & _ & H).
  - intros adm r chunk b chunk' b' [= <-] [= <- _]. lia.
  - rewrite <- Hr. apply surjective_pairing.
  - exact H.
Defined.
