(* ===== verification/BatchPolicy.v ===== *)
(** * The depth of batched speculation
      ([engine/include/mtp_batch_policy.h])

    A batch of requests drafts up to five tokens ahead when measurements say it
    pays: the policy compares the expected tokens per millisecond of each depth
    with plain decoding, probes rivals, and parks speculation that loses. A
    memory of parks outlives the batches. [double] is any [FloatFormat]; a time
    point counts nanoseconds. *)

From stdpp Require Import base list strings gmap.
From Stdlib Require Import ZArith Lia SpecFloat.
From S2P Require Import Prelude Float.

#[local] Set Default Proof Using "Type".
Open Scope Z_scope.

(** [for (i = 0; i < n; ++i)]. *)
Definition upto (n : Z) : list Z := seqZ 0 n.

Section Times.
Context {F : FloatFormat}.
Abbreviation float := spec_float.

Definition zero : float := fl_of_Z 0.
Definition one : float := fl_of_Z 1.

(** [std::max(1e-6, duration<double, std::milli>(finished - begin).count())]. *)
Definition milliseconds (start finish : Z) : float :=
  fl_max (fl_lit 1 1000000) (fl_div (fl_of_Z (s64 (finish - start))) (fl_of_Z 1000000)).

(** [append]: a window of eight samples. *)
Definition append_sample (values : list float) (value : float) : list float :=
  (if bool_decide (length values = 8)%nat then tail values else values) ++ [value].

(** The median. *)
Definition median (values : list float) : option float :=
  match values with
  | [] => None
  | _ =>
      let sorted := stable_sort fl_ltb values in
      let middle := (length sorted / 2)%nat in
      Some (if bool_decide (length sorted mod 2 = 1)%nat then nth middle sorted zero
            else fl_mul (fl_add (nth (middle - 1) sorted zero) (nth middle sorted zero)) (fl_lit 5 10))
  end.

Lemma append_sample_length values v :
  (length values <= 8)%nat -> (length (append_sample values v) <= 8)%nat.
Proof.
  intros Hl. unfold append_sample. rewrite length_app. case_bool_decide as Hb; simpl; [|lia].
  destruct values; simpl in *; lia.
Qed.
End Times.

(** ** The policy *)

Record BatchAcceptance := { drafted : Z; accepted : Z }.

Section Policy.
Context {F : FloatFormat}.
Abbreviation float := spec_float.

Record Policy := {
  requests : list string;
  ordinary_requests : Z;
  maximum : Z;
  current : Z;
  standard_warmup : Z;
  losing : Z;
  clear_losing : Z;
  last_depth : Z;
  acceptance : list (option float);
  acceptance_weight : list float;
  costs : list (list float);
  standard : list float;
  last_seen : list float;
  elapsed_ms : float;
  last_probe_ms : float;
  baseline_probe : bool;
  baseline_verified : bool;
  parked_samples : Z;
  finished : option Z;
  remaining : Z;
  cooldown : Z;
  decisions : Z;
  parks : Z;
}.

Definition first_acceptance : list (option float) := Some (fl_lit 6 10) :: replicate 4 None.

Definition make_policy (requests : list string) (maximum ordinary_requests : Z) : Policy :=
  let maximum := Z.max 1 (Z.min maximum 5) in
  {| requests := requests; ordinary_requests := ordinary_requests; maximum := maximum;
     current := maximum; standard_warmup := 2; losing := 0; clear_losing := 0; last_depth := -1;
     acceptance := first_acceptance; acceptance_weight := replicate 5 zero;
     costs := replicate 6 []; standard := []; last_seen := replicate 6 zero; elapsed_ms := zero;
     last_probe_ms := zero; baseline_probe := false; baseline_verified := false;
     parked_samples := 0; finished := None; remaining := 0; cooldown := 128; decisions := 0;
     parks := 0 |}.

(** Assignments to groups of members. *)
Definition set_clock (f : option Z) (d : Z) (p : Policy) : Policy :=
  {| requests := requests p; ordinary_requests := ordinary_requests p; maximum := maximum p;
     current := current p; standard_warmup := standard_warmup p; losing := losing p;
     clear_losing := clear_losing p; last_depth := d; acceptance := acceptance p;
     acceptance_weight := acceptance_weight p; costs := costs p; standard := standard p;
     last_seen := last_seen p; elapsed_ms := elapsed_ms p; last_probe_ms := last_probe_ms p;
     baseline_probe := baseline_probe p; baseline_verified := baseline_verified p;
     parked_samples := parked_samples p; finished := f; remaining := remaining p;
     cooldown := cooldown p; decisions := decisions p; parks := parks p |}.
Definition set_elapsed (e : float) (p : Policy) : Policy :=
  {| requests := requests p; ordinary_requests := ordinary_requests p; maximum := maximum p;
     current := current p; standard_warmup := standard_warmup p; losing := losing p;
     clear_losing := clear_losing p; last_depth := last_depth p; acceptance := acceptance p;
     acceptance_weight := acceptance_weight p; costs := costs p; standard := standard p;
     last_seen := last_seen p; elapsed_ms := e; last_probe_ms := last_probe_ms p;
     baseline_probe := baseline_probe p; baseline_verified := baseline_verified p;
     parked_samples := parked_samples p; finished := finished p; remaining := remaining p;
     cooldown := cooldown p; decisions := decisions p; parks := parks p |}.
Definition set_acceptance (a : list (option float)) (w : list float) (p : Policy) : Policy :=
  {| requests := requests p; ordinary_requests := ordinary_requests p; maximum := maximum p;
     current := current p; standard_warmup := standard_warmup p; losing := losing p;
     clear_losing := clear_losing p; last_depth := last_depth p; acceptance := a;
     acceptance_weight := w; costs := costs p; standard := standard p;
     last_seen := last_seen p; elapsed_ms := elapsed_ms p; last_probe_ms := last_probe_ms p;
     baseline_probe := baseline_probe p; baseline_verified := baseline_verified p;
     parked_samples := parked_samples p; finished := finished p; remaining := remaining p;
     cooldown := cooldown p; decisions := decisions p; parks := parks p |}.
Definition set_samples (c : list (list float)) (s l : list float) (p : Policy) : Policy :=
  {| requests := requests p; ordinary_requests := ordinary_requests p; maximum := maximum p;
     current := current p; standard_warmup := standard_warmup p; losing := losing p;
     clear_losing := clear_losing p; last_depth := last_depth p; acceptance := acceptance p;
     acceptance_weight := acceptance_weight p; costs := c; standard := s;
     last_seen := l; elapsed_ms := elapsed_ms p; last_probe_ms := last_probe_ms p;
     baseline_probe := baseline_probe p; baseline_verified := baseline_verified p;
     parked_samples := parked_samples p; finished := finished p; remaining := remaining p;
     cooldown := cooldown p; decisions := decisions p; parks := parks p |}.
Definition set_current (c : Z) (p : Policy) : Policy :=
  {| requests := requests p; ordinary_requests := ordinary_requests p; maximum := maximum p;
     current := c; standard_warmup := standard_warmup p; losing := losing p;
     clear_losing := clear_losing p; last_depth := last_depth p; acceptance := acceptance p;
     acceptance_weight := acceptance_weight p; costs := costs p; standard := standard p;
     last_seen := last_seen p; elapsed_ms := elapsed_ms p; last_probe_ms := last_probe_ms p;
     baseline_probe := baseline_probe p; baseline_verified := baseline_verified p;
     parked_samples := parked_samples p; finished := finished p; remaining := remaining p;
     cooldown := cooldown p; decisions := decisions p; parks := parks p |}.
Definition set_probe (t : float) (p : Policy) : Policy :=
  {| requests := requests p; ordinary_requests := ordinary_requests p; maximum := maximum p;
     current := current p; standard_warmup := standard_warmup p; losing := losing p;
     clear_losing := clear_losing p; last_depth := last_depth p; acceptance := acceptance p;
     acceptance_weight := acceptance_weight p; costs := costs p; standard := standard p;
     last_seen := last_seen p; elapsed_ms := elapsed_ms p; last_probe_ms := t;
     baseline_probe := baseline_probe p; baseline_verified := baseline_verified p;
     parked_samples := parked_samples p; finished := finished p; remaining := remaining p;
     cooldown := cooldown p; decisions := decisions p; parks := parks p |}.
(** Warmup, losing streaks and the baseline flags. *)
Definition set_state (w l c : Z) (probe verified : bool) (p : Policy) : Policy :=
  {| requests := requests p; ordinary_requests := ordinary_requests p; maximum := maximum p;
     current := current p; standard_warmup := w; losing := l; clear_losing := c;
     last_depth := last_depth p; acceptance := acceptance p;
     acceptance_weight := acceptance_weight p; costs := costs p; standard := standard p;
     last_seen := last_seen p; elapsed_ms := elapsed_ms p; last_probe_ms := last_probe_ms p;
     baseline_probe := probe; baseline_verified := verified;
     parked_samples := parked_samples p; finished := finished p; remaining := remaining p;
     cooldown := cooldown p; decisions := decisions p; parks := parks p |}.
(** The counters of a park. *)
Definition set_park (n r c d k : Z) (p : Policy) : Policy :=
  {| requests := requests p; ordinary_requests := ordinary_requests p; maximum := maximum p;
     current := current p; standard_warmup := standard_warmup p; losing := losing p;
     clear_losing := clear_losing p; last_depth := last_depth p; acceptance := acceptance p;
     acceptance_weight := acceptance_weight p; costs := costs p; standard := standard p;
     last_seen := last_seen p; elapsed_ms := elapsed_ms p; last_probe_ms := last_probe_ms p;
     baseline_probe := baseline_probe p; baseline_verified := baseline_verified p;
     parked_samples := n; finished := finished p; remaining := r; cooldown := c; decisions := d;
     parks := k |}.

Definition interrupt (p : Policy) : Policy := set_clock None (-1) p.

Definition depth (p : Policy) : Z :=
  if negb (standard_warmup p =? 0) || (size_of (standard p) <? 3) || negb (remaining p =? 0)
  then 0 else current p.

(** [costs_.at(depth)] throws past the array. *)
Definition cost (p : Policy) (depth : Z) : outcome (option float) :=
  if depth =? 0 then Ok (median (standard p))
  else if (depth <? 0) || (6 <=? depth) then Throw (OutOfRange "array::at")
  else Ok (median (nth (Z.to_nat depth) (costs p) [])).

(** The loop of [conditional_acceptance]; below position 0 the read is undefined
    and the model throws. *)
Fixpoint known_acceptance (a : list (option float)) (position : nat) : outcome float :=
  match nth position a None with
  | Some v => Ok v
  | None => match position with
            | O => Throw (LogicError "read before the array")
            | S position => known_acceptance a position
            end
  end.

Definition conditional_acceptance (p : Policy) (position : Z) : outcome float :=
  if (position <? 0) || (maximum p <=? position)
  then Throw (OutOfRange "batch MTP acceptance position is out of range")
  else known_acceptance (acceptance p) (Z.to_nat position).

(** One round of the loop of [score]. *)
Definition expect (p : Policy) (acc : outcome (float * float)) (position : Z)
    : outcome (float * float) :=
  er ← acc;
  a ← conditional_acceptance p position;
  let reach := fl_mul er.2 a in
  Ok (fl_add er.1 reach, reach).

Definition score (p : Policy) (depth : Z) : outcome float :=
  c ← cost p depth;
  match c with
  | None => Ok zero
  | Some ms =>
      r ← foldl (expect p) (Ok (one, one)) (upto depth);
      Ok (fl_div (fl_add (fl_of_Z (ordinary_requests p))
                         (fl_mul (fl_of_Z (size_of (requests p))) r.1)) ms)
  end.

(** [for (candidate = 2; candidate <= maximum_; ++candidate)]. *)
Definition candidates (p : Policy) : list Z := seqZ 2 (maximum p - 1).

Definition better (p : Policy) (acc : outcome Z) (candidate : Z) : outcome Z :=
  best ← acc;
  a ← score p candidate;
  b ← score p best;
  Ok (if fl_ltb b a then candidate else best).

Definition best_depth (p : Policy) : outcome Z := foldl (better p) (Ok 1) (candidates p).

Definition start_parked (r next : Z) (p : Policy) : Policy :=
  set_park 0 r (if next =? 0 then Z.min 4096 (u64 (r * 2)) else next) 0 (parks p) p.

Definition park (p : Policy) : Policy :=
  let p := start_parked (cooldown p) 0 p in
  let p := set_state 2 0 0 (baseline_probe p) (baseline_verified p) p in
  set_park (parked_samples p) (remaining p) (cooldown p) (decisions p) (u64 (parks p + 1)) p.

Definition resume (restart : bool) (p : Policy) : outcome Policy :=
  let p := set_park (parked_samples p) 0 (cooldown p) (decisions p) (parks p) p in
  let p := set_state (standard_warmup p) 0 0 false (baseline_verified p) p in
  if restart then
    let p := set_samples (replicate 6 []) (standard p) (replicate 6 zero) p in
    let p := set_acceptance first_acceptance (replicate 5 zero) p in
    let p := set_state (standard_warmup p) (losing p) (clear_losing p) (baseline_probe p) false p in
    Ok (set_current (maximum p) p)
  else best ← best_depth p; Ok (set_current best p).

(** *** [observe] *)

Definition invalid_sample (p : Policy) (s : BatchAcceptance) : bool :=
  (drafted s <? 0) || (maximum p <? drafted s) || (accepted s <? 0) || (drafted s <? accepted s).

(** How many samples reached the position, and hit it. *)
Definition reached_hits (position : Z) (l : list BatchAcceptance) : Z * Z :=
  foldl (fun '(reached, hits) s =>
    if position <? drafted s
    then (reached + (if position <=? accepted s then 1 else 0),
          hits + (if position <? accepted s then 1 else 0))
    else (reached, hits)) (0, 0) l.

Definition update_position (position reached hits : Z) (p : Policy) : outcome Policy :=
  let i := Z.to_nat position in
  a ← match nth i (acceptance p) None with
      | Some a => Ok a
      | None => conditional_acceptance p position
      end;
  let w := nth i (acceptance_weight p) zero in
  let w := fl_add w (fl_mul (fl_lit 8 100) (fl_sub one w)) in
  let a := fl_add a (fl_mul (fl_div (fl_lit 8 100) w)
                       (fl_sub (fl_div (fl_of_Z hits) (fl_of_Z reached)) a)) in
  Ok (set_acceptance (<[i := Some a]> (acceptance p)) (<[i := w]> (acceptance_weight p)) p).

Fixpoint update_acceptance (positions : list Z) (l : list BatchAcceptance) (p : Policy)
    : outcome Policy :=
  match positions with
  | [] => Ok p
  | position :: positions =>
      let '(reached, hits) := reached_hits position l in
      if reached =? 0 then Ok p
      else p ← update_position position reached hits p; update_acceptance positions l p
  end.

(** [score(a) > score(b) * n / d]. *)
Definition beats (p : Policy) (a b n d : Z) : outcome bool :=
  x ← score p a;
  y ← score p b;
  Ok (fl_ltb (fl_mul y (fl_lit n d)) x).

(** A sample of plain decoding. *)
Definition observe_standard (ms : float) (p : Policy) : outcome Policy :=
  let p :=
    if negb (standard_warmup p =? 0)
    then set_state (standard_warmup p - 1) (losing p) (clear_losing p) (baseline_probe p)
           (baseline_verified p) p
    else
      let p := set_samples (costs p) (append_sample (standard p) ms)
                 (<[0%nat := elapsed_ms p]> (last_seen p)) p in
      if negb (remaining p =? 0)
      then set_park (u64 (parked_samples p + 1)) (remaining p) (cooldown p) (decisions p) (parks p) p
      else p in
  if negb (remaining p =? 0) then
    let p := set_park (parked_samples p) (remaining p - 1) (cooldown p) (decisions p) (parks p) p in
    if remaining p =? 0 then resume true p
    else if 3 <=? parked_samples p then
      best ← best_depth p;
      b ← beats p best 0 103 100;
      if b : bool then resume false p else Ok p
    else Ok p
  else if baseline_probe p && (3 <=? size_of (standard p)) then
    let p := set_state (standard_warmup p) (losing p) (clear_losing p) false true p in
    best ← best_depth p;
    let p := set_current best p in
    let p := set_state (standard_warmup p) 0 0 (baseline_probe p) (baseline_verified p) p in
    b ← beats p (current p) 0 103 100;
    Ok (if b : bool then p else park p)
  else Ok p.

(** The least recently seen depth. *)
Definition rival_depth (p : Policy) : Z :=
  foldl (fun rival candidate =>
    if fl_ltb (nth (Z.to_nat candidate) (last_seen p) zero) (nth (Z.to_nat rival) (last_seen p) zero)
    then candidate else rival) 1 (candidates p).

(** The largest depth with fewer than three samples. *)
Definition unmeasured (p : Policy) : option Z :=
  find (fun candidate => size_of (nth (Z.to_nat candidate) (costs p) []) <? 3)
    (reverse (seqZ 1 (maximum p))).

Definition probe_rival (best : Z) (p : Policy) : outcome Policy :=
  if negb (fl_leb (fl_of_Z 1000) (fl_sub (elapsed_ms p) (last_probe_ms p))) then Ok p
  else
    let rival := rival_depth p in
    if rival =? current p then Ok p
    else
      r ← score p rival;
      b ← score p best;
      if fl_leb b (fl_mul r (fl_lit 115 100)) ||
         fl_leb (fl_of_Z 5000)
           (fl_sub (elapsed_ms p) (nth (Z.to_nat rival) (last_seen p) zero))
      then Ok (set_probe (elapsed_ms p) (set_current rival p))
      else Ok p.

(** The verdict after a losing streak. *)
Definition judge (p : Policy) : Policy :=
  if (16 <=? losing p) || (4 <=? clear_losing p) then
    if negb (baseline_verified p) ||
       fl_leb (fl_of_Z 1000) (fl_sub (elapsed_ms p) (nth 0 (last_seen p) zero))
    then set_state 2 0 0 true (baseline_verified p) (set_samples (costs p) [] (last_seen p) p)
    else park p
  else p.

(** A sample at a positive depth. *)
Definition observe_depth (depth : Z) (ms : float) (p : Policy) : outcome Policy :=
  let i := Z.to_nat depth in
  let p := set_samples (<[i := append_sample (nth i (costs p) []) ms]> (costs p)) (standard p)
             (<[i := elapsed_ms p]> (last_seen p)) p in
  if negb (remaining p =? 0) || baseline_probe p then Ok p
  else match unmeasured p with
       | Some candidate => Ok (set_current candidate p)
       | None =>
           let p := set_park (parked_samples p) (remaining p) (cooldown p) (u64 (decisions p + 1))
                      (parks p) p in
           best ← best_depth p;
           b ← beats p best (current p) 103 100;
           let p := if b : bool then set_current best p else p in
           s ← score p best;
           t ← score p 0;
           let p := set_state (standard_warmup p)
             (if fl_leb s (fl_mul t (fl_lit 103 100)) then losing p + 1 else 0)
             (if fl_ltb s (fl_mul t (fl_lit 9 10)) then clear_losing p + 1 else 0)
             (baseline_probe p) (baseline_verified p) p in
           p ← probe_rival best p;
           Ok (judge p)
       end.

Definition observe (observations : list BatchAcceptance) (start finish : Z)
    (time_sample interrupted : bool) (p : Policy) : outcome Policy :=
  match observations with
  | [] => Throw (InvalidArgument "batch MTP observations cannot be empty")
  | first :: _ =>
      if existsb (invalid_sample p) observations
      then Throw (InvalidArgument "batch MTP acceptance observation is invalid")
      else
        p ← update_acceptance (upto (maximum p)) observations p;
        let depth := drafted first in
        if negb time_sample || interrupted ||
           existsb (fun s => negb (drafted s =? depth)) observations
        then Ok (interrupt p)
        else
          let same := last_depth p =? depth in
          let begin := match finished p with
                       | Some t => if same then t else start
                       | None => start
                       end in
          let p := set_clock (Some finish) depth p in
          let ms := milliseconds begin finish in
          let p := set_elapsed (fl_add (elapsed_ms p) ms) p in
          if depth =? 0 then observe_standard ms p
          else if negb same then Ok p
          else observe_depth depth ms p
  end.

Definition held_up (p : Policy) : bool := 32 <=? decisions p.
End Policy.

(** ** The memory of parks

    [BatchParkMemory] reads a policy's shape, its park and whether it held up;
    both versions of the policy offer that much. *)

Definition Key : Type := Z * Z * Z.

Class Parking (P : Type) := {
  key : P -> Key;
  park_left : P -> Z;
  park_cooldown : P -> Z;
  park_held : P -> bool;
  park_start : Z -> Z -> P -> P;
}.

#[export] Instance policy_parking : Parking Policy := {|
  key p := (size_of (requests p), ordinary_requests p, maximum p);
  park_left := remaining;
  park_cooldown := cooldown;
  park_held := held_up;
  park_start := start_parked;
|}.

Record Verdict := { until : Z; verdict_cooldown : Z }.

Record Memory := {
  clock : Z;
  verdicts : gmap Key Verdict;
}.

Definition make_memory : Memory := {| clock := 0; verdicts := ∅ |}.

Definition tick (m : Memory) : Memory :=
  {| clock := u64 (clock m + 1); verdicts := verdicts m |}.

Section Memory.
Context {P : Type} `{Parking P}.

Definition seed (m : Memory) (p : P) : P :=
  match verdicts m !! key p with
  | Some v => if clock m <? until v
              then park_start (u64 (until v - clock m)) (verdict_cooldown v) p else p
  | None => p
  end.

Definition parked (p : P) (m : Memory) : Memory :=
  {| clock := clock m;
     verdicts := <[key p := {| until := u64 (clock m + park_left p);
                               verdict_cooldown := park_cooldown p |}]> (verdicts m) |}.

Definition resumed (p : P) (m : Memory) : Memory :=
  {| clock := clock m; verdicts := delete (key p) (verdicts m) |}.

Definition retired (p : P) (m : Memory) : Memory :=
  if park_held p then resumed p m else m.

Lemma ticks_clock k m :
  0 <= clock m -> clock m + Z.of_nat k < 2 ^ 64 ->
  Nat.iter k tick m = {| clock := clock m + Z.of_nat k; verdicts := verdicts m |}.
Proof.
  intros H0 Hk. induction k as [|k IH]; [destruct m; cbn; f_equal; lia|].
  rewrite Nat.iter_succ, IH by lia. unfold tick. cbn. f_equal. rewrite u64_small; [lia|].
  unfold in_u64, u64_max. lia.
Qed.

(** Whatever the policy, a batch of the same shape that starts [k] ticks after
    a park is seeded with the rest of it, and with nothing once it is over or has
    been cleared; a batch of another shape is not affected. *)
Theorem park_memory_replays m p q k :
  0 <= clock m -> 0 <= park_left p -> clock m + park_left p < 2 ^ 64 ->
  clock m + Z.of_nat k < 2 ^ 64 ->
  let later := Nat.iter k tick (parked p m) in
  (key q = key p ->
   seed later q = (if Z.of_nat k <? park_left p
                   then park_start (park_left p - Z.of_nat k) (park_cooldown p) q else q) /\
   seed (resumed p later) q = q) /\
  (key q <> key p -> seed later q = seed (Nat.iter k tick m) q).
Proof.
  intros Hc Hr Hsum Hk. cbv zeta.
  rewrite (ticks_clock k (parked p m)), (ticks_clock k m) by done. cbn [parked clock verdicts].
  rewrite u64_small by (unfold in_u64, u64_max; lia). unfold seed, resumed. cbn [clock verdicts].
  split.
  - intros ->. rewrite lookup_insert_eq, lookup_delete_eq. split; [|done]. cbn [until verdict_cooldown].
    destruct (Z.ltb_spec (Z.of_nat k) (park_left p)),
      (Z.ltb_spec (clock m + Z.of_nat k) (clock m + park_left p)); try lia; [|done].
    rewrite u64_small by (unfold in_u64, u64_max; lia). f_equal. lia.
  - intros Hne. by rewrite lookup_insert_ne by done.
Qed.
End Memory.

(** ** Well-formed policies *)

Section Invariant.
Context {F : FloatFormat}.

Record Good (p : Policy) : Prop := {
  good_maximum : 1 <= maximum p <= 5;
  good_current : 1 <= current p <= maximum p;
  good_warmup : 0 <= standard_warmup p <= 2;
  good_losing : 0 <= losing p <= 16;
  good_clear : 0 <= clear_losing p <= 4;
  good_acceptance : length (acceptance p) = 5%nat;
  good_first : exists v, acceptance p !! 0%nat = Some (Some v);
  good_costs : length (costs p) = 6%nat;
  good_cost : Forall (fun c => (length c <= 8)%nat) (costs p);
  good_standard : (length (standard p) <= 8)%nat;
  good_remaining : 0 <= remaining p < 2 ^ 64;
  good_cooldown : 0 <= cooldown p < 2 ^ 64;
}.

(** Between observations the losing streaks have not run out. *)
Definition Settled (p : Policy) : Prop := losing p < 16 /\ clear_losing p < 4.

Lemma known_acceptance_ok (a : list (option spec_float)) v i :
  a !! 0%nat = Some (Some v) -> exists x, known_acceptance a i = Ok x.
Proof.
  intros H0. induction i as [|i [x IH]]; cbn [known_acceptance].
  - rewrite (nth_lookup_Some _ _ _ _ H0). by eexists.
  - destruct (nth (S i) a None); [by eexists|]. by exists x.
Qed.

Lemma conditional_acceptance_ok p i :
  Good p -> 0 <= i < maximum p -> exists x, conditional_acceptance p i = Ok x.
Proof.
  intros H Hi. unfold conditional_acceptance. destruct (good_first p H) as [v Hv].
  destruct (_ || _) eqn:E; [lia|]. by apply known_acceptance_ok with v.
Qed.

Lemma cost_ok p d : 0 <= d <= 5 -> exists c, cost p d = Ok c.
Proof.
  intros Hd. unfold cost. destruct (d =? 0); [by eexists|].
  destruct (_ || _) eqn:E; [lia|by eexists].
Qed.

Lemma score_ok p d : Good p -> 0 <= d <= maximum p -> exists x, score p d = Ok x.
Proof.
  intros H Hd. pose proof (good_maximum p H). unfold score.
  destruct (cost_ok p d) as [[ms|] ->]; [lia| |by eexists]. cbn [mbind outcome_bind].
  assert (Forall (fun i => 0 <= i < maximum p) (upto d)) as Hup.
  { apply Forall_forall. intros i. unfold upto. rewrite elem_of_seqZ. lia. }
  assert (forall er, exists x, foldl (expect p) (Ok er) (upto d) = Ok x) as Hf.
  { induction Hup as [|i l Hi _ IH]; intros er; [by eexists|]. cbn [foldl].
    destruct (conditional_acceptance_ok p i H Hi) as [a Ha].
    unfold expect at 2. cbn [mbind outcome_bind]. rewrite Ha. apply IH. }
  destruct (Hf (one, one)) as [x ->]. by eexists.
Qed.

Lemma best_depth_ok p : Good p -> exists b, best_depth p = Ok b /\ 1 <= b <= maximum p.
Proof.
  intros H. pose proof (good_maximum p H) as Hm. unfold best_depth, candidates.
  assert (Forall (fun i => 2 <= i <= maximum p) (seqZ 2 (maximum p - 1))) as Hc.
  { apply Forall_forall. intros i. rewrite elem_of_seqZ. lia. }
  enough (forall b, 1 <= b <= maximum p -> exists b',
    foldl (better p) (Ok b) (seqZ 2 (maximum p - 1)) = Ok b' /\ 1 <= b' <= maximum p) as He
    by (apply He; lia).
  induction Hc as [|i l Hi _ IH]; intros b Hb; [by exists b|]. cbn [foldl].
  destruct (score_ok p i H) as [x Hx]; [lia|]. destruct (score_ok p b H) as [y Hy]; [lia|].
  unfold better at 2. cbn [mbind outcome_bind]. rewrite Hx. cbn [mbind outcome_bind].
  rewrite Hy. apply IH. destruct (fl_ltb y x); lia.
Qed.

Lemma beats_ok p a b n d :
  Good p -> 0 <= a <= maximum p -> 0 <= b <= maximum p -> exists x, beats p a b n d = Ok x.
Proof.
  intros H Ha Hb. unfold beats. destruct (score_ok p a H Ha) as [x ->].
  destruct (score_ok p b H Hb) as [y ->]. by eexists.
Qed.

Lemma good_park n r c d k p : 
  Good p -> 0 <= r < 2 ^ 64 -> 0 <= c < 2 ^ 64 -> Good (set_park n r c d k p).
Proof. intros [] Hr Hc. by constructor. Qed.

Lemma good_state w l c b v p :
  Good p -> 0 <= w <= 2 -> 0 <= l <= 16 -> 0 <= c <= 4 -> Good (set_state w l c b v p).
Proof. intros [] Hw Hl Hc. by constructor. Qed.

Lemma good_move c p : Good p -> 1 <= c <= maximum p -> Good (set_current c p).
Proof. intros [] Hc. by constructor. Qed.

Lemma good_clock f d p : Good p -> Good (set_clock f d p).
Proof. intros []. by constructor. Qed.

Lemma good_elapsed e p : Good p -> Good (set_elapsed e p).
Proof. intros []. by constructor. Qed.

Lemma good_probe t p : Good p -> Good (set_probe t p).
Proof. intros []. by constructor. Qed.

Lemma good_learned a w p :
  Good p -> length a = 5%nat -> (exists v, a !! 0%nat = Some (Some v)) -> Good (set_acceptance a w p).
Proof. intros [] Ha Hv. by constructor. Qed.

Lemma good_samples c s l p :
  Good p -> length c = 6%nat -> Forall (fun c => (length c <= 8)%nat) c -> (length s <= 8)%nat ->
  Good (set_samples c s l p).
Proof. intros [] Hc Hf Hs. by constructor. Qed.

Lemma good_first_acceptance : exists v : spec_float, first_acceptance !! 0%nat = Some (Some v).
Proof. by eexists. Qed.

Lemma good_empty_costs : Forall (fun c : list spec_float => (length c <= 8)%nat) (replicate 6 []).
Proof. repeat constructor; simpl; lia. Qed.

Lemma good_start r n p :
  Good p -> 0 <= r < 2 ^ 64 -> 0 <= n < 2 ^ 64 -> Good (start_parked r n p).
Proof.
  intros H Hr Hn. apply good_park; [done..|]. pose proof (u64_range (r * 2)) as Hu. unfold in_u64, u64_max in Hu.
  destruct (n =? 0); lia.
Qed.

Lemma make_policy_good requests m o :
  Good (make_policy requests m o) /\ Settled (make_policy requests m o).
Proof.
  split; [constructor; cbn; try lia; try reflexivity|split; cbn; lia].
  - by eexists.
  - apply good_empty_costs.
Qed.

Lemma park_good p : Good p -> Good (park p) /\ Settled (park p).
Proof.
  intros H. pose proof (good_cooldown p H) as Hc. split; [|split; cbn; lia]. unfold park.
  assert (Good (start_parked (cooldown p) 0 p)) as H1 by (apply good_start; [done..|lia]).
  apply good_park; [|apply H1..]. apply good_state; [done|lia..].
Qed.

Lemma resume_good restart p :
  Good p -> exists p', resume restart p = Ok p' /\ Good p' /\ Settled p' /\ remaining p' = 0.
Proof.
  intros H. pose proof (good_maximum p H) as Hm. unfold resume. cbv zeta.
  set (q := set_park _ _ _ _ _ p).
  assert (Good q) as H1 by (apply good_park; [done|lia|apply H]).
  apply (good_state (standard_warmup q) 0 0 false (baseline_verified q)) in H1;
    [|apply H|lia..].
  destruct restart.
  - eexists. split; [reflexivity|]. split; [|by repeat split].
    apply good_move; [|cbn; lia]. apply good_state; [|apply H|cbn; lia..].
    apply good_learned; [|reflexivity|apply good_first_acceptance].
    apply good_samples; [done|reflexivity|apply good_empty_costs|apply H].
  - destruct (best_depth_ok _ H1) as (b & Hb & Hr). rewrite Hb. eexists. split; [reflexivity|]. split; [by apply good_move|by repeat split].
Qed.

(** The counters an observation never touches before its timing. *)
Definition same_counters (p q : Policy) : Prop :=
  maximum q = maximum p /\ remaining q = remaining p /\ losing q = losing p /\
  clear_losing q = clear_losing p /\ standard_warmup q = standard_warmup p /\
  standard q = standard p.

Lemma update_position_good i r h p :
  Good p -> 0 <= i < maximum p ->
  exists q, update_position i r h p = Ok q /\ Good q /\ same_counters p q.
Proof.
  intros H Hi. pose proof (good_maximum p H). pose proof (good_acceptance p H) as Hl.
  destruct (good_first p H) as [v Hv]. unfold update_position.
  assert (exists a, match nth (Z.to_nat i) (acceptance p) None with
      | Some a => Ok a | None => conditional_acceptance p i end = Ok a) as [a ->].
  { destruct (nth _ _ _); [by eexists|by apply conditional_acceptance_ok]. }
  eexists. split; [reflexivity|]. split; [|by repeat split].
  apply good_learned; [done|by rewrite length_insert|].
  destruct (decide (Z.to_nat i = 0%nat)) as [->|Hne].
  - eexists. apply list_lookup_insert_eq. lia.
  - exists v. by rewrite list_lookup_insert_ne.
Qed.

Lemma same_counters_trans p q r : same_counters p q -> same_counters q r -> same_counters p r.
Proof. intros (?&?&?&?&?&?) (?&?&?&?&?&?). repeat split; congruence. Qed.

Lemma update_acceptance_good ps l p :
  Good p -> Forall (fun i => 0 <= i < maximum p) ps ->
  exists q, update_acceptance ps l p = Ok q /\ Good q /\ same_counters p q.
Proof.
  intros H Hi. revert p H Hi. induction ps as [|i ps IH]; intros p H Hi; cbn [update_acceptance].
  { by exists p. }
  destruct (reached_hits i l) as [r h]. destruct (r =? 0); [by exists p|].
  apply Forall_cons in Hi as [Hi His].
  destruct (update_position_good i r h p H Hi) as (q & Hq & Hgq & Hs). rewrite Hq.
  cbn [mbind outcome_bind]. destruct (IH q Hgq) as (q' & Hq' & Hg' & Hs').
  { destruct Hs as [Hm _]. by rewrite Hm. }
  exists q'. eauto using same_counters_trans.
Qed.

(** The samples of plain decoding keep a parked policy counting down. *)
Lemma observe_standard_good ms p :
  Good p -> Settled p ->
  exists q, observe_standard ms p = Ok q /\ Good q /\ Settled q /\
    (remaining p <> 0 -> remaining q = remaining p - 1 \/ remaining q = 0).
Proof.
  intros H Hs. pose proof (good_warmup p H) as Hw. unfold observe_standard. cbv zeta.
  set (p1 := if negb (standard_warmup p =? 0) then _ else _).
  assert (Good p1 /\ Settled p1 /\ remaining p1 = remaining p) as (H1 & Hs1 & Hr1).
  { unfold p1. destruct (standard_warmup p =? 0) eqn:Ew; cbn [negb].
    - set (p2 := set_samples _ _ _ p).
      assert (Good p2) as H2.
      { apply good_samples; [done|apply H..|]. apply append_sample_length, H. }
      destruct (negb (remaining p2 =? 0)); [|done].
      split; [by apply good_park; apply H2 || done|done].
    - apply Z.eqb_neq in Ew. split; [|done]. apply good_state; [done|lia|apply H|apply H]. }
  clearbody p1. rewrite <- Hr1. clear Hr1 H Hs Hw p. rename p1 into p, H1 into H, Hs1 into Hs.
  pose proof (good_remaining p H) as Hr.
  destruct (remaining p =? 0) eqn:Er; cbn [negb].
  - apply Z.eqb_eq in Er. destruct (baseline_probe p && _); [|by exists p].
    set (q := set_state _ _ _ _ _ p).
    assert (Good q) as Hq by (apply good_state; [done|apply H..]).
    destruct (best_depth_ok q Hq) as (b & Hb & Hrange). rewrite Hb. cbn [mbind outcome_bind].
    set (q1 := set_state _ 0 0 _ _ (set_current b q)).
    assert (Good q1) as Hq1.
    { apply good_state; [by apply good_move|apply Hq|lia..]. }
    destruct (beats_ok q1 (current q1) 0 103 100 Hq1) as [x ->];
      [change (0 <= b <= maximum p); change (1 <= b <= maximum p) in Hrange; lia
      |pose proof (good_maximum q1 Hq1); lia|].
    cbn [mbind outcome_bind]. destruct x.
    + exists q1. split; [done|]. split; [done|]. split; [split; cbn; lia|done].
    + exists (park q1). destruct (park_good q1 Hq1). split; [done|]. split; [done|]. split; [done|lia].
  - apply Z.eqb_neq in Er. set (q := set_park _ (remaining p - 1) _ _ _ p).
    assert (Good q) as Hq by (apply good_park; [done|lia|apply H]).
    destruct (remaining q =? 0) eqn:Erq.
    { destruct (resume_good true q Hq) as (q' & -> & Hg & Hs' & Hz). exists q'. tauto. }
    assert (Settled q) as Hsq by done.
    destruct (3 <=? parked_samples q); [|exists q; split; [done|]; split; [done|]; split; [done|by intros _; left]].
    destruct (best_depth_ok q Hq) as (b & -> & Hrange). cbn [mbind outcome_bind].
    destruct (beats_ok q b 0 103 100 Hq) as [x ->]; [lia..|]. cbn [mbind outcome_bind].
    destruct x.
    + destruct (resume_good false q Hq) as (q' & -> & Hg & Hs' & Hz). exists q'. tauto.
    + exists q. split; [done|]. split; [done|]. split; [done|by intros _; left].
Qed.

Lemma rival_range p : 1 <= maximum p -> 1 <= rival_depth p <= maximum p.
Proof.
  intros Hm. unfold rival_depth, candidates.
  assert (Forall (fun i => 2 <= i <= maximum p) (seqZ 2 (maximum p - 1))) as Hc.
  { apply Forall_forall. intros i. rewrite elem_of_seqZ. lia. }
  enough (forall b, 1 <= b <= maximum p -> 1 <= foldl (fun rival candidate =>
    if fl_ltb (nth (Z.to_nat candidate) (last_seen p) zero)
              (nth (Z.to_nat rival) (last_seen p) zero)
    then candidate else rival) b (seqZ 2 (maximum p - 1)) <= maximum p) as He by (apply He; lia).
  induction Hc as [|i l Hi _ IH]; intros b Hb; [done|]. cbn [foldl]. apply IH. destruct (fl_ltb _ _); lia.
Qed.

Lemma unmeasured_range p c : unmeasured p = Some c -> 1 <= c <= maximum p.
Proof.
  intros Hc. apply find_some in Hc as [Hc _]. apply list_elem_of_In in Hc.
  rewrite elem_of_reverse, elem_of_seqZ in Hc. lia.
Qed.

Lemma probe_rival_good best p :
  Good p -> 0 <= best <= maximum p ->
  exists q, probe_rival best p = Ok q /\ Good q.
Proof.
  intros H Hb. pose proof (good_maximum p H) as Hm. unfold probe_rival.
  destruct (fl_leb _ _); cbn [negb]; [|by exists p].
  pose proof (rival_range p ltac:(lia)) as Hr. cbv zeta.
  destruct (_ =? _); [by exists p|].
  destruct (score_ok p (rival_depth p) H) as [r ->]; [lia|].
  destruct (score_ok p best H Hb) as [b ->]. cbn [mbind outcome_bind].
  destruct (_ || _); [|by exists p].
  eexists. split; [reflexivity|]. by apply good_probe, good_move.
Qed.

Lemma judge_good p : Good p -> Good (judge p) /\ Settled (judge p).
Proof.
  intros H. unfold judge. destruct ((16 <=? losing p) || (4 <=? clear_losing p)) eqn:E.
  - destruct (negb (baseline_verified p) || _); [|by apply park_good].
    split; [|split; cbn; lia]. apply good_state; [|lia..].
    apply good_samples; [done|apply H..|simpl; lia].
  - split; [done|]. split; lia.
Qed.

Lemma observe_depth_good d ms p :
  Good p -> Settled p -> 0 < d <= maximum p ->
  exists q, observe_depth d ms p = Ok q /\ Good q /\ Settled q.
Proof.
  intros H Hs Hd. unfold observe_depth. cbv zeta. set (p1 := set_samples _ _ _ p).
  assert (Good p1) as H1.
  { apply good_samples; [done| |apply Forall_insert; [apply H|]|apply H].
    - rewrite length_insert. apply H.
    - apply append_sample_length.
      destruct (nth_in_or_default (Z.to_nat d) (costs p) []) as [Hin| ->]; [|simpl; lia].
      apply list_elem_of_In in Hin. exact (proj1 (Forall_forall _ _) (good_cost p H) _ Hin). }
  destruct (_ || _); [by exists p1|]. destruct (unmeasured p1) as [c|] eqn:Hu.
  { eexists. split; [reflexivity|]. split; [by apply good_move, unmeasured_range|done]. }
  set (p2 := set_park _ _ _ _ _ p1). assert (Good p2) as H2 by (apply good_park; [done|apply H..]).
  pose proof (good_maximum p2 H2) as Hm. pose proof (good_current p2 H2) as Hc.
  destruct (best_depth_ok p2 H2) as (best & -> & Hb). cbn [mbind outcome_bind].
  destruct (beats_ok p2 best (current p2) 103 100 H2) as [x ->]; [lia..|]. cbn [mbind outcome_bind].
  set (p3 := if x : bool then set_current best p2 else p2).
  assert (Good p3 /\ Settled p3 /\ maximum p3 = maximum p2) as (H3 & Hs3 & Hm3).
  { unfold p3. destruct x; [|done]. split; [by apply good_move|done]. }
  destruct (score_ok p3 best H3) as [s ->]; [lia|]. destruct (score_ok p3 0 H3) as [t ->]; [lia|].
  cbn [mbind outcome_bind]. destruct Hs3 as [Hl3 Hc3].
  pose proof (good_losing p3 H3) as Hlo. pose proof (good_clear p3 H3) as Hcl.
  set (p4 := set_state _ _ _ _ _ p3).
  assert (Good p4) as H4.
  { apply good_state; [done|apply H3|destruct (fl_leb _ _); lia|destruct (fl_ltb _ _); lia]. }
  destruct (probe_rival_good best p4 H4) as (q & -> & Hq); [change (maximum p4) with (maximum p3); lia|].
  eexists. split; [reflexivity|]. by apply judge_good.
Qed.

(** *** [observe] as a whole *)

Lemma observe_valid l start finish t i p :
  l <> [] -> existsb (invalid_sample p) l = false -> Good p -> Settled p ->
  exists q, observe l start finish t i p = Ok q /\ Good q /\ Settled q /\
    (t = true -> i = false -> Forall (fun s => drafted s = 0) l -> remaining p <> 0 ->
     remaining q = remaining p - 1 \/ remaining q = 0).
Proof.
  intros Hne Hv H Hs. pose proof (good_maximum p H) as Hm. unfold observe.
  destruct l as [|x l]; [done|]. rewrite Hv.
  destruct (update_acceptance_good (upto (maximum p)) (x :: l) p H) as (p1 & -> & H1 & Hc).
  { apply Forall_forall. intros j. unfold upto. rewrite elem_of_seqZ. lia. }
  destruct Hc as (Hm1 & Hr1 & Hl1 & Hc1 & _). cbn [mbind outcome_bind]. cbv zeta.
  assert (Settled p1) as Hs1 by (unfold Settled; rewrite Hl1, Hc1; exact Hs).
  destruct (negb t || i || existsb _ _) eqn:Eskip.
  { eexists. split; [reflexivity|]. split; [by apply good_clock|]. split; [done|].
    intros -> -> Hz _. exfalso. cbn [negb orb] in Eskip. apply existsb_exists in Eskip as (y & Hy & Hd).
    rewrite Forall_forall in Hz. apply list_elem_of_In, Hz in Hy.
    assert (drafted x = 0) by (apply Hz; left). rewrite Hy, H0 in Hd. done. }
  set (ms := milliseconds _ _). set (p2 := set_elapsed _ _).
  assert (Good p2) as H2 by (by apply good_elapsed, good_clock).
  destruct (drafted x =? 0) eqn:Ed.
  - destruct (observe_standard_good ms p2 H2 Hs1) as (q & Hq & Hg & Hsq & Hr). exists q.
    split; [done|]. split; [done|]. split; [done|]. intros _ _ _ Hp.
    change (remaining p2) with (remaining p1) in Hr. rewrite Hr1 in Hr. by apply Hr.
  - apply Z.eqb_neq in Ed. destruct (last_depth p1 =? drafted x); cbn [negb].
    2:{ exists p2. split; [done|]. split; [done|]. split; [done|]. intros _ _ Hz _.
        apply Forall_cons in Hz as [Hz _]. lia. }
    cbn [existsb] in Hv. apply orb_false_iff in Hv as [Hv _]. unfold invalid_sample in Hv.
    destruct (observe_depth_good (drafted x) ms p2 H2 Hs1) as (q & Hq & Hg & Hsq).
    { change (maximum p2) with (maximum p1). rewrite Hm1. lia. }
    exists q. split; [done|]. split; [done|]. split; [done|]. intros _ _ Hz _.
    apply Forall_cons in Hz as [Hz _]. lia.
Qed.
End Invariant.

(** ** Properties *)

Section Properties.
Context {F : FloatFormat}.

(** The policies a batch can be in. *)
Inductive Reaches : Policy -> Prop :=
  | reaches_make requests m o : Reaches (make_policy requests m o)
  | reaches_observe p q l start finish t i :
      Reaches p -> observe l start finish t i p = Ok q -> Reaches q
  | reaches_interrupt p : Reaches p -> Reaches (interrupt p)
  | reaches_start p r n :
      Reaches p -> 0 <= r < 2 ^ 64 -> 0 <= n < 2 ^ 64 -> Reaches (start_parked r n p).

Lemma observe_invalid l start finish t i p :
  (l = [] \/ existsb (invalid_sample p) l = true) ->
  exists what, observe l start finish t i p = Throw (InvalidArgument what).
Proof.
  intros Hl. unfold observe. destruct l as [|x l]; [by eexists|].
  destruct Hl as [Hl | ->]; [done|by eexists].
Qed.

Lemma reaches_good p : Reaches p -> Good p /\ Settled p.
Proof.
  induction 1 as [requests m o|p q l start finish t i _ [IH Hs] Ho|p _ [IH Hs]|p r n _ [IH Hs] Hr Hn].
  - apply make_policy_good.
  - destruct (decide (l = [] \/ existsb (invalid_sample p) l = true)) as [Hb|Hb].
    + destruct (observe_invalid l start finish t i p Hb) as [w Hw]. congruence.
    + destruct (observe_valid l start finish t i p) as (q' & Hq & Hg & Hs' & _);
        [naive_solver|destruct (existsb _ _); naive_solver|done..|]. by replace q with q' by congruence.
  - split; [by apply good_clock|done].
  - split; [by apply good_start|done].
Qed.

(** A reachable policy asks for plain decoding or for a depth within its
    maximum, for plain decoding while it is parked; an observation throws
    [invalid_argument], and only that, exactly when it is empty or inconsistent
    with the maximum, and otherwise keeps the windows and counters in range. *)
Theorem depth_policy_sound p l start finish t i :
  Reaches p ->
  (depth p = 0 \/ 1 <= depth p <= maximum p) /\ maximum p <= 5 /\
  (remaining p <> 0 -> depth p = 0) /\
  if bool_decide (l = []) || existsb (invalid_sample p) l
  then exists what, observe l start finish t i p = Throw (InvalidArgument what)
  else exists q, observe l start finish t i p = Ok q /\
    1 <= current q <= maximum q /\ 0 <= losing q < 16 /\ 0 <= clear_losing q < 4 /\
    Forall (fun c => (length c <= 8)%nat) (standard q :: costs q) /\ 0 <= remaining q < 2 ^ 64.
Proof.
  intros H. destruct (reaches_good p H) as [Hg Hs].
  pose proof (good_maximum p Hg). pose proof (good_current p Hg). unfold depth.
  split; [destruct (_ || _ || _); [by left|right; lia]|]. split; [lia|]. split.
  { intros Hr. apply Z.eqb_neq in Hr. by rewrite Hr, orb_true_r. }
  destruct (bool_decide _ || _) eqn:E.
  - apply observe_invalid. apply orb_true_iff in E as [E|E]; [|by right].
    left. by apply bool_decide_eq_true in E.
  - apply orb_false_iff in E as [E1 E2]. apply bool_decide_eq_false in E1.
    destruct (observe_valid l start finish t i p E1 E2 Hg Hs) as (q & Hq & Hgq & [Hl Hc] & _).
    exists q. destruct Hgq. split; [done|]. repeat split; try done; try lia. by constructor.
Qed.

(** Timed observations, one after the other. *)
Definition observe_all (l : list (list BatchAcceptance * Z * Z)) (p : Policy) : outcome Policy :=
  foldl (fun acc s => p ← acc; observe s.1.1 s.1.2 s.2 true false p) (Ok p) l.

(** A sample of plain decoding. *)
Definition plain_sample (s : list BatchAcceptance * Z * Z) : Prop :=
  s.1.1 <> [] /\ Forall (fun a => drafted a = 0 /\ accepted a = 0) s.1.1.

Lemma plain_valid s p :
  1 <= maximum p -> plain_sample s ->
  existsb (invalid_sample p) s.1.1 = false /\ Forall (fun a => drafted a = 0) s.1.1.
Proof.
  intros Hm [_ Hs]. split.
  - induction Hs as [|a l [Hd Ha] _ IH]; [done|]. cbn [existsb]. rewrite IH, orb_false_r.
    unfold invalid_sample. rewrite Hd, Ha. lia.
  - apply (Forall_impl _ _ _ Hs). tauto.
Qed.

Lemma park_countdown l p :
  Good p -> Settled p -> Forall plain_sample l -> remaining p <= Z.of_nat (length l) ->
  exists k q, (k <= length l)%nat /\ observe_all (take k l) p = Ok q /\ remaining q = 0 /\ Good q /\
    forall j, (j < k)%nat -> exists r, observe_all (take j l) p = Ok r /\ depth r = 0.
Proof.
  intros Hg Hs Hl. revert p Hg Hs. induction Hl as [|s l Hs0 _ IH]; intros p Hg Hs Hr;
    pose proof (good_remaining p Hg) as Hrange;
    (destruct (decide (remaining p = 0)) as [Hz|Hz];
      [exists 0%nat, p; split; [lia|]; split; [by rewrite take_0|]; split; [done|]; split; [done|]; intros; lia|]).
  { simpl in Hr. lia. }
  destruct (plain_valid s p) as [Hv Hd]; [pose proof (good_maximum p Hg); lia|done|].
  destruct (observe_valid s.1.1 s.1.2 s.2 true false p (proj1 Hs0) Hv Hg Hs)
    as (p1 & Hp1 & Hg1 & Hs1 & Hr1).
  specialize (Hr1 eq_refl eq_refl Hd Hz).
  pose proof (good_remaining p1 Hg1). simpl in Hr.
  destruct (IH p1 Hg1 Hs1) as (k & q & Hk & Hq & Hzq & Hgq & Hbefore); [lia|].
  exists (S k), q. split; [simpl; lia|]. unfold observe_all in *. simpl take. cbn [foldl mbind outcome_bind].
  rewrite Hp1. split; [done|]. split; [done|]. split; [done|]. intros [|j] Hj.
  - exists p. split; [done|]. unfold depth. apply Z.eqb_neq in Hz. by rewrite Hz, orb_true_r.
  - cbn [take foldl mbind outcome_bind]. rewrite Hp1. apply Hbefore. lia.
Qed.

(** A park is temporary: after at most [remaining] timed samples of plain
    decoding, whatever they measure, the policy has resumed, and until then it
    asks for plain decoding. *)
Theorem park_is_temporary l p :
  Reaches p -> Forall plain_sample l -> remaining p = Z.of_nat (length l) ->
  exists k q, (k <= length l)%nat /\ observe_all (take k l) p = Ok q /\ remaining q = 0 /\
    forall j, (j < k)%nat -> exists r, observe_all (take j l) p = Ok r /\ depth r = 0.
Proof.
  intros H Hl Hr. destruct (reaches_good p H) as [Hg Hs].
  destruct (park_countdown l p Hg Hs Hl) as (k & q & ?); [lia|]. exists k, q. tauto.
Qed.
End Properties.

(** ** A parked batch of two requests *)

Definition parked_pair : Policy :=
  start_parked 3 0 (make_policy ["a"; "b"] 4 0).

Definition idle_samples : list (list BatchAcceptance * Z * Z) :=
  replicate 3 ([{| drafted := 0; accepted := 0 |}; {| drafted := 0; accepted := 0 |}], 0, 4000000).

Lemma parked_pair_reaches : Reaches parked_pair.
Proof. apply reaches_start; [constructor|lia|lia]. Qed.

Lemma depth_policy_sound_witness :
  depth parked_pair = 0 /\
  exists what, observe [{| drafted := 5; accepted := 0 |}] 0 1 true false parked_pair =
    Throw (InvalidArgument what).
Proof.
  destruct (depth_policy_sound parked_pair [{| drafted := 5; accepted := 0 |}] 0 1 true false)
    as (_ & _ & H2 & H3); [exact parked_pair_reaches|].
  split; [apply H2; discriminate|exact H3].
Defined.

Lemma park_is_temporary_witness :
  exists k q, (k <= 3)%nat /\ observe_all (take k idle_samples) parked_pair = Ok q /\ remaining q = 0.
Proof.
  destruct (park_is_temporary idle_samples parked_pair) as (k & q & H1 & H2 & H3 & _).
  - exact parked_pair_reaches.
  - repeat constructor; discriminate.
  - reflexivity.
  - exists k, q. exact (conj H1 (conj H2 H3)).
Defined.

Lemma park_memory_replays_witness :
  seed (Nat.iter 1 tick (parked parked_pair make_memory)) (make_policy ["c"; "d"] 4 0) =
    start_parked 2 6 (make_policy ["c"; "d"] 4 0).
Proof.
  destruct (park_memory_replays make_memory parked_pair (make_policy ["c"; "d"] 4 0) 1) as [H _];
    [cbn; lia..|]. exact (proj1 (H eq_refl)).
Defined.
