(* ===== verification/BatchPolicyV1.v ===== *)
(** * The frozen depth policy of the CUDA backend
      ([engine/include/mtp_batch_policy_v1.h])

    The earlier version of [BatchPolicy]: no validation of its observations, no
    baseline probe, and a park that always runs to its end. Its memory of parks is
    the one of [BatchPolicy], through the interface [Parking]. *)

From stdpp Require Import base list strings gmap.
From Stdlib Require Import ZArith Lia SpecFloat.
From S2P Require Import Prelude Float BatchPolicy.

#[local] Set Default Proof Using "Type".
Open Scope Z_scope.

Section Policy.
Context {F : FloatFormat}.
Abbreviation float := spec_float.

Record Policy := {
  requests : list string;
  ordinary_requests : Z;
  maximum : Z;
  current : Z;
  standard_warmup : Z;
  losing : Z;
  clear_losing : Z;
  last_depth : Z;
  acceptance : list float;
  costs : list (list float);
  standard : list float;
  last_seen : list float;
  elapsed_ms : float;
  last_probe_ms : float;
  finished : option Z;
  remaining : Z;
  cooldown : Z;
  decisions : Z;
  parks : Z;
}.

Definition make_policy (requests : list string) (maximum ordinary_requests : Z) : Policy :=
  let maximum := Z.max 1 (Z.min maximum 5) in
  {| requests := requests; ordinary_requests := ordinary_requests; maximum := maximum;
     current := maximum; standard_warmup := 2; losing := 0; clear_losing := 0; last_depth := -1;
     acceptance := replicate 5 (fl_lit 6 10); costs := replicate 6 []; standard := [];
     last_seen := replicate 6 zero; elapsed_ms := zero; last_probe_ms := zero; finished := None;
     remaining := 0; cooldown := 128; decisions := 0; parks := 0 |}.

(** Assignments to groups of members. *)
Definition set_clock (f : option Z) (d : Z) (p : Policy) : Policy :=
  {| requests := requests p; ordinary_requests := ordinary_requests p; maximum := maximum p;
     current := current p; standard_warmup := standard_warmup p; losing := losing p;
     clear_losing := clear_losing p; last_depth := d; acceptance := acceptance p;
     costs := costs p; standard := standard p; last_seen := last_seen p;
     elapsed_ms := elapsed_ms p; last_probe_ms := last_probe_ms p; finished := f;
     remaining := remaining p; cooldown := cooldown p; decisions := decisions p; parks := parks p |}.
Definition set_learned (a : list float) (c : list (list float)) (s l : list float) (e : float)
    (p : Policy) : Policy :=
  {| requests := requests p; ordinary_requests := ordinary_requests p; maximum := maximum p;
     current := current p; standard_warmup := standard_warmup p; losing := losing p;
     clear_losing := clear_losing p; last_depth := last_depth p; acceptance := a;
     costs := c; standard := s; last_seen := l; elapsed_ms := e;
     last_probe_ms := last_probe_ms p; finished := finished p; remaining := remaining p;
     cooldown := cooldown p; decisions := decisions p; parks := parks p |}.
Definition set_choice (c w l cl : Z) (probe : float) (p : Policy) : Policy :=
  {| requests := requests p; ordinary_requests := ordinary_requests p; maximum := maximum p;
     current := c; standard_warmup := w; losing := l; clear_losing := cl;
     last_depth := last_depth p; acceptance := acceptance p; costs := costs p;
     standard := standard p; last_seen := last_seen p; elapsed_ms := elapsed_ms p;
     last_probe_ms := probe; finished := finished p; remaining := remaining p;
     cooldown := cooldown p; decisions := decisions p; parks := parks p |}.
Definition set_park (r c d k : Z) (p : Policy) : Policy :=
  {| requests := requests p; ordinary_requests := ordinary_requests p; maximum := maximum p;
     current := current p; standard_warmup := standard_warmup p; losing := losing p;
     clear_losing := clear_losing p; last_depth := last_depth p; acceptance := acceptance p;
     costs := costs p; standard := standard p; last_seen := last_seen p;
     elapsed_ms := elapsed_ms p; last_probe_ms := last_probe_ms p; finished := finished p;
     remaining := r; cooldown := c; decisions := d; parks := k |}.

Definition interrupt (p : Policy) : Policy := set_clock None (-1) p.

Definition depth (p : Policy) : Z :=
  if negb (standard_warmup p =? 0) || (size_of (standard p) <? 3) || negb (remaining p =? 0)
  then 0 else current p.

Definition cost (p : Policy) (depth : Z) : outcome (option float) :=
  if depth =? 0 then Ok (median (standard p))
  else if (depth <? 0) || (6 <=? depth) then Throw (OutOfRange "array::at")
  else Ok (median (nth (Z.to_nat depth) (costs p) [])).

(** One round of the loop of [score]. *)
Definition expect (p : Policy) (er : float * float) (position : Z) : float * float :=
  let reach := fl_mul er.2 (nth (Z.to_nat position) (acceptance p) zero) in
  (fl_add er.1 reach, reach).

(** Callers pass at most [maximum_], which the acceptance array covers. *)
Definition score (p : Policy) (depth : Z) : outcome float :=
  c ← cost p depth;
  match c with
  | None => Ok zero
  | Some ms => Ok (fl_div (fl_mul (fl_of_Z (size_of (requests p)))
                             (foldl (expect p) (one, one) (upto depth)).1) ms)
  end.

Definition start_parked (r next : Z) (p : Policy) : Policy :=
  set_park r (if next =? 0 then Z.min 4096 (u64 (r * 2)) else next) 0 (parks p) p.

Definition held_up (p : Policy) : bool := 32 <=? decisions p.

(** *** [observe] *)

Definition candidates (p : Policy) : list Z := seqZ 2 (maximum p - 1).

Definition better (p : Policy) (acc : outcome Z) (candidate : Z) : outcome Z :=
  best ← acc;
  a ← score p candidate;
  b ← score p best;
  Ok (if fl_ltb b a then candidate else best).

Definition best_depth (p : Policy) : outcome Z := foldl (better p) (Ok 1) (candidates p).

Definition rival_depth (p : Policy) : Z :=
  foldl (fun rival candidate =>
    if fl_ltb (nth (Z.to_nat candidate) (last_seen p) zero) (nth (Z.to_nat rival) (last_seen p) zero)
    then candidate else rival) 1 (candidates p).

Definition unmeasured (p : Policy) : option Z :=
  find (fun candidate => size_of (nth (Z.to_nat candidate) (costs p) []) <? 3)
    (reverse (seqZ 1 (maximum p))).

(** A sample of plain decoding. *)
Definition observe_standard (ms : float) (p : Policy) : Policy :=
  let p :=
    if negb (standard_warmup p =? 0)
    then set_choice (current p) (standard_warmup p - 1) (losing p) (clear_losing p)
           (last_probe_ms p) p
    else set_learned (acceptance p) (costs p) (append_sample (standard p) ms) (last_seen p)
           (elapsed_ms p) p in
  if remaining p =? 0 then p
  else
    let p := set_park (remaining p - 1) (cooldown p) (decisions p) (parks p) p in
    if negb (remaining p =? 0) then p
    else
      let p := set_learned (replicate 5 (fl_lit 6 10)) (replicate 6 []) (standard p)
                 (replicate 6 zero) (elapsed_ms p) p in
      set_choice (maximum p) (standard_warmup p) 0 0 (last_probe_ms p) p.

(** [reached] and [hits] at a position. *)
Definition reached_hits (position : Z) (accepted : list Z) : Z * Z :=
  (size_of (filter (fun count => position <= count) accepted),
   size_of (filter (fun count => position < count) accepted)).

Fixpoint update_acceptance (positions : list Z) (accepted : list Z) (a : list float) : list float :=
  match positions with
  | [] => a
  | position :: positions =>
      let '(reached, hits) := reached_hits position accepted in
      if reached =? 0 then a
      else
        let i := Z.to_nat position in
        let v := nth i a zero in
        update_acceptance positions accepted
          (<[i := fl_add v (fl_mul (fl_lit 8 100)
                     (fl_sub (fl_div (fl_of_Z hits) (fl_of_Z reached)) v))]> a)
  end.

Definition probe_rival (best : Z) (p : Policy) : outcome Policy :=
  if negb (fl_leb (fl_of_Z 1000) (fl_sub (elapsed_ms p) (last_probe_ms p))) then Ok p
  else
    let rival := rival_depth p in
    if rival =? current p then Ok p
    else
      r ← score p rival;
      b ← score p best;
      if fl_leb b (fl_mul r (fl_lit 115 100)) ||
         fl_leb (fl_of_Z 5000)
           (fl_sub (elapsed_ms p) (nth (Z.to_nat rival) (last_seen p) zero))
      then Ok (set_choice rival (standard_warmup p) (losing p) (clear_losing p) (elapsed_ms p) p)
      else Ok p.

(** The verdict after a losing streak. *)
Definition judge (p : Policy) : Policy :=
  if (16 <=? losing p) || (4 <=? clear_losing p) then
    let p := start_parked (cooldown p) 0 p in
    let p := set_choice (current p) 2 0 0 (last_probe_ms p) p in
    set_park (remaining p) (cooldown p) (decisions p) (u64 (parks p + 1)) p
  else p.

(** The choice once every depth has been measured. *)
Definition decide_depth (p : Policy) : outcome Policy :=
  let p := set_park (remaining p) (cooldown p) (u64 (decisions p + 1)) (parks p) p in
  best ← best_depth p;
  a ← score p best;
  b ← score p (current p);
  z ← score p 0;
  let p := set_choice (if fl_ltb (fl_mul b (fl_lit 103 100)) a then best else current p)
    (standard_warmup p)
    (if fl_leb a (fl_mul z (fl_lit 103 100)) then losing p + 1 else 0)
    (if fl_ltb a (fl_mul z (fl_lit 9 10)) then clear_losing p + 1 else 0) (last_probe_ms p) p in
  p ← probe_rival best p;
  Ok (judge p).

(** Outside [0..5] the accesses are undefined, and the model throws. *)
Definition observe (depth : Z) (accepted : list Z) (start finish : Z) (stable interrupted : bool)
    (p : Policy) : outcome Policy :=
  if negb stable || interrupted then Ok (interrupt p)
  else if (depth <? 0) || (6 <=? depth) then Throw (LogicError "depth outside the arrays")
  else
    let same := last_depth p =? depth in
    let begin := match finished p with Some t => if same then t else start | None => start end in
    let p := set_clock (Some finish) depth p in
    let ms := milliseconds begin finish in
    if depth =? 0 then Ok (observe_standard ms p)
    else
      let p := set_learned (update_acceptance (upto depth) accepted (acceptance p)) (costs p)
                 (standard p) (last_seen p) (fl_add (elapsed_ms p) ms) p in
      if negb same then Ok p
      else
        let i := Z.to_nat depth in
        let p := set_learned (acceptance p) (<[i := append_sample (nth i (costs p) []) ms]> (costs p))
                   (standard p) (<[i := elapsed_ms p]> (last_seen p)) (elapsed_ms p) p in
        match unmeasured p with
        | Some c => Ok (set_choice c (standard_warmup p) (losing p) (clear_losing p)
                          (last_probe_ms p) p)
        | None => decide_depth p
        end.
End Policy.

#[export] Instance policy_parking : Parking Policy := {|
  key p := (size_of (requests p), ordinary_requests p, maximum p);
  park_left := remaining;
  park_cooldown := cooldown;
  park_held := held_up;
  park_start := start_parked;
|}.

(** ** Properties *)

Section Properties.
Context {F : FloatFormat}.

Record Good (p : Policy) : Prop := {
  good_maximum : 1 <= maximum p <= 5;
  good_current : 1 <= current p <= maximum p;
  good_warmup : 0 <= standard_warmup p <= 2;
  good_costs : length (costs p) = 6%nat;
  good_cost : Forall (fun c => (length c <= 8)%nat) (costs p);
  good_standard : (length (standard p) <= 8)%nat;
  good_remaining : 0 <= remaining p < 2 ^ 64;
  good_cooldown : 0 <= cooldown p < 2 ^ 64;
}.

Definition Settled (p : Policy) : Prop := 0 <= losing p < 16 /\ 0 <= clear_losing p < 4.

Lemma v1_clock_good f d p : Good p -> Good (set_clock f d p).
Proof. intros []. by constructor. Qed.

Lemma v1_learned_good a c s l e p :
  Good p -> length c = 6%nat -> Forall (fun c => (length c <= 8)%nat) c -> (length s <= 8)%nat ->
  Good (set_learned a c s l e p).
Proof. intros []. by constructor. Qed.

Lemma v1_choice_good c w l cl t p :
  Good p -> 1 <= c <= maximum p -> 0 <= w <= 2 -> Good (set_choice c w l cl t p).
Proof. intros []. by constructor. Qed.

Lemma v1_park_good r c d k p :
  Good p -> 0 <= r < 2 ^ 64 -> 0 <= c < 2 ^ 64 -> Good (set_park r c d k p).
Proof. intros []. by constructor. Qed.

Lemma v1_score_ok p d : 0 <= d <= 5 -> exists x, score p d = Ok x.
Proof.
  intros Hd. unfold score, cost. destruct (d =? 0); [destruct (median _); by eexists|].
  destruct (_ || _) eqn:E; [lia|]. cbn [mbind outcome_bind]. destruct (median _); by eexists.
Qed.

Lemma v1_best_ok p : 1 <= maximum p <= 5 -> exists b, best_depth p = Ok b /\ 1 <= b <= maximum p.
Proof.
  intros Hm. unfold best_depth, candidates.
  assert (Forall (fun i => 2 <= i <= maximum p) (seqZ 2 (maximum p - 1))) as Hc.
  { apply Forall_forall. intros i. rewrite elem_of_seqZ. lia. }
  enough (forall b, 1 <= b <= maximum p -> exists b',
    foldl (better p) (Ok b) (seqZ 2 (maximum p - 1)) = Ok b' /\ 1 <= b' <= maximum p) as He
    by (apply He; lia).
  induction Hc as [|i l Hi _ IH]; intros b Hb; [by exists b|]. cbn [foldl].
  destruct (v1_score_ok p i) as [x Hx]; [lia|]. destruct (v1_score_ok p b) as [y Hy]; [lia|].
  unfold better at 2. cbn [mbind outcome_bind]. rewrite Hx. cbn [mbind outcome_bind].
  rewrite Hy. apply IH. destruct (fl_ltb y x); lia.
Qed.

Lemma v1_rival_range p : 1 <= maximum p -> 1 <= rival_depth p <= maximum p.
Proof.
  intros Hm. unfold rival_depth, candidates.
  assert (Forall (fun i => 2 <= i <= maximum p) (seqZ 2 (maximum p - 1))) as Hc.
  { apply Forall_forall. intros i. rewrite elem_of_seqZ. lia. }
  assert (forall b, 1 <= b <= maximum p -> forall l, Forall (fun i => 2 <= i <= maximum p) l ->
    1 <= foldl (fun rival candidate =>
    if fl_ltb (nth (Z.to_nat candidate) (last_seen p) zero)
              (nth (Z.to_nat rival) (last_seen p) zero)
    then candidate else rival) b l <= maximum p) as He; [|by apply He; [lia|]].
  intros b Hb l Hl. revert b Hb. induction Hl as [|i l Hi _ IH]; intros b Hb; [done|].
  cbn [foldl]. apply IH. destruct (fl_ltb _ _); lia.
Qed.

Lemma v1_standard_good ms p :
  Good p -> Settled p ->
  let q := observe_standard ms p in
  Good q /\ Settled q /\ remaining q = Z.max 0 (remaining p - 1).
Proof.
  intros H Hs. pose proof (good_warmup p H) as Hw. unfold observe_standard. cbv zeta.
  set (p1 := if negb (standard_warmup p =? 0) then _ else _).
  assert (Good p1 /\ Settled p1 /\ remaining p1 = remaining p) as (H1 & Hs1 & Hr1).
  { unfold p1. destruct (standard_warmup p =? 0) eqn:Ew; cbn [negb].
    - split; [|done]. apply v1_learned_good; [done|apply H..|apply append_sample_length, H].
    - apply Z.eqb_neq in Ew. split; [|done]. apply v1_choice_good; [done|apply H|lia]. }
  clearbody p1. rewrite <- Hr1. pose proof (good_remaining p1 H1) as Hr.
  destruct (remaining p1 =? 0) eqn:Er; [split; [done|]; split; [done|lia]|].
  apply Z.eqb_neq in Er. set (q := set_park _ _ _ _ p1).
  assert (Good q) as Hq by (apply v1_park_good; [done|lia|apply H1]).
  assert (remaining q = remaining p1 - 1) as Hrq by done.
  destruct (remaining q =? 0) eqn:Eq; cbn [negb].
  - apply Z.eqb_eq in Eq. split; [|split; [split; cbn; lia|]].
    2:{ change (remaining q = Z.max 0 (remaining p1 - 1)). lia. }
    pose proof (good_maximum q Hq).
    apply v1_choice_good; [|change (1 <= maximum q <= maximum q); lia|apply Hq].
    apply v1_learned_good; [done|reflexivity|apply good_empty_costs|apply Hq].
  - split; [done|]. split; [done|]. lia.
Qed.

Lemma v1_decide_good p :
  Good p -> Settled p -> exists q, decide_depth p = Ok q /\ Good q /\ Settled q.
Proof.
  intros H Hs. unfold decide_depth. cbv zeta. set (p1 := set_park _ _ _ _ p).
  assert (Good p1) as H1 by (apply v1_park_good; [done|apply H..]).
  pose proof (good_maximum p1 H1) as Hm. pose proof (good_current p1 H1) as Hc.
  destruct (v1_best_ok p1 Hm) as (best & -> & Hb). cbn [mbind outcome_bind].
  destruct (v1_score_ok p1 best) as [a ->]; [lia|].
  destruct (v1_score_ok p1 (current p1)) as [b ->]; [lia|].
  destruct (v1_score_ok p1 0) as [z ->]; [lia|]. cbn [mbind outcome_bind].
  set (p2 := set_choice _ _ _ _ _ p1).
  assert (Good p2) as H2.
  { apply v1_choice_good; [done|destruct (fl_ltb _ _); lia|apply H1]. }
  assert (maximum p2 = maximum p1) as Hm2 by done.
  assert (0 <= losing p2 <= 16 /\ 0 <= clear_losing p2 <= 4) as Hl.
  { destruct Hs as [Hlo Hcl]. unfold p2, p1. cbn. split; case_match; lia. }
  clearbody p2.
  assert (exists q, probe_rival best p2 = Ok q /\ Good q /\ losing q = losing p2 /\
    clear_losing q = clear_losing p2) as (q & -> & Hq & Hlq & Hcq).
  { unfold probe_rival. destruct (fl_leb _ _); cbn [negb]; [|by exists p2].
    pose proof (v1_rival_range p2 ltac:(lia)) as Hr. cbv zeta.
    destruct (_ =? _); [by exists p2|].
    destruct (v1_score_ok p2 (rival_depth p2)) as [r ->]; [lia|].
    destruct (v1_score_ok p2 best) as [s ->]; [lia|]. cbn [mbind outcome_bind].
    destruct (_ || _); [|by exists p2]. eexists. split; [reflexivity|].
    split; [by apply v1_choice_good; [|lia|apply H2]|done]. }
  cbn [mbind outcome_bind]. eexists. split; [reflexivity|]. unfold judge. cbv zeta.
  destruct ((16 <=? losing q) || (4 <=? clear_losing q)) eqn:E;
    [|split; [done|split; lia]].
  split; [|split; cbn; lia]. pose proof (good_cooldown q Hq) as Hcd.
  pose proof (u64_range (cooldown q * 2)) as Hu. unfold in_u64, u64_max in Hu.
  assert (Good (start_parked (cooldown q) 0 q)) as Hsp.
  { apply v1_park_good; [done..|]. cbn. lia. }
  apply v1_park_good; [|apply Hsp..]. apply v1_choice_good; [done|apply Hsp|lia].
Qed.

Lemma v1_observe_good d l start finish st i p :
  Good p -> Settled p -> 0 <= d <= maximum p ->
  exists q, observe d l start finish st i p = Ok q /\ Good q /\ Settled q /\
    (st = true -> i = false -> d = 0 -> remaining q = Z.max 0 (remaining p - 1)).
Proof.
  intros H Hs Hd. pose proof (good_maximum p H) as Hm. unfold observe.
  destruct (negb st || i) eqn:E.
  { eexists. split; [reflexivity|]. split; [by apply v1_clock_good|]. split; [done|].
    by intros -> ->. }
  destruct ((d <? 0) || _) eqn:Ed; [lia|]. cbv zeta.
  set (ms := milliseconds _ _). set (p1 := set_clock _ _ p).
  assert (Good p1) as H1 by by apply v1_clock_good.
  destruct (Z.eqb_spec d 0) as [Hz|Hz].
  { destruct (v1_standard_good ms p1 H1 Hs) as (Hg & Hsg & Hr). by eexists. }
  set (p2 := set_learned _ _ _ _ _ p1).
  assert (Good p2) as H2 by (apply v1_learned_good; [done|apply H1..]).
  destruct (last_depth p =? d); cbn [negb]; [|by exists p2].
  set (p3 := set_learned _ _ _ _ _ p2).
  assert (Good p3) as H3.
  { apply v1_learned_good; [done| |apply Forall_insert; [apply H2|]|apply H2].
    - rewrite length_insert. apply H2.
    - apply append_sample_length.
      destruct (nth_in_or_default (Z.to_nat d) (costs p2) []) as [Hin| ->]; [|simpl; lia].
      apply list_elem_of_In in Hin. exact (proj1 (Forall_forall _ _) (good_cost p2 H2) _ Hin). }
  destruct (unmeasured p3) as [c|] eqn:Hu.
  - eexists. split; [reflexivity|]. split; [|by split].
    apply v1_choice_good; [done| |apply H3]. apply find_some in Hu as [Hc _].
    apply list_elem_of_In in Hc. rewrite elem_of_reverse, elem_of_seqZ in Hc. lia.
  - destruct (v1_decide_good p3 H3 Hs) as (q & -> & Hq & Hsq). by exists q.
Qed.

(** The policies a batch can be in: the depths observed are those it chose from. *)
Inductive Reaches : Policy -> Prop :=
  | reaches_make requests m o : Reaches (make_policy requests m o)
  | reaches_observe p q d l start finish st i :
      Reaches p -> 0 <= d <= maximum p -> observe d l start finish st i p = Ok q -> Reaches q
  | reaches_start p r n :
      Reaches p -> 0 <= r < 2 ^ 64 -> 0 <= n < 2 ^ 64 -> Reaches (start_parked r n p).

Lemma v1_reaches_good p : Reaches p -> Good p /\ Settled p.
Proof.
  induction 1 as [requests m o|p q d l start finish st i _ [IH Hs] Hd Ho|p r n _ [IH Hs] Hr Hn].
  - split; [constructor; cbn; try lia; try reflexivity; apply good_empty_costs|split; cbn; lia].
  - destruct (v1_observe_good d l start finish st i p IH Hs Hd) as (q' & Hq & ? & ? & _).
    by replace q with q' by congruence.
  - split; [|done]. pose proof (u64_range (r * 2)) as Hu. unfold in_u64, u64_max in Hu.
    apply v1_park_good; [done..|]. destruct (n =? 0); lia.
Qed.

(** A reachable frozen policy asks for a depth within its maximum; at such a
    depth no observation throws, the windows, streaks and counters stay in range,
    and a timed sample of plain decoding shortens a park by exactly one. *)
Theorem v1_policy_sound p d l start finish st i :
  Reaches p -> 0 <= d <= maximum p ->
  0 <= depth p <= maximum p /\ maximum p <= 5 /\ (remaining p <> 0 -> depth p = 0) /\
  exists q, observe d l start finish st i p = Ok q /\
    1 <= current q <= maximum q /\ 0 <= losing q < 16 /\ 0 <= clear_losing q < 4 /\
    Forall (fun c => (length c <= 8)%nat) (standard q :: costs q) /\ 0 <= remaining q < 2 ^ 64 /\
    (st = true -> i = false -> d = 0 -> remaining q = Z.max 0 (remaining p - 1)).
Proof.
  intros H Hd. destruct (v1_reaches_good p H) as [Hg Hs].
  pose proof (good_maximum p Hg). pose proof (good_current p Hg). unfold depth.
  split; [destruct (_ || _ || _); lia|]. split; [lia|]. split.
  { intros Hr. apply Z.eqb_neq in Hr. by rewrite Hr, orb_true_r. }
  destruct (v1_observe_good d l start finish st i p Hg Hs Hd) as (q & Hq & Hgq & [Hl Hc] & Hr).
  exists q. destruct Hgq. repeat split; try done; try lia. by constructor.
Qed.
End Properties.

Lemma v1_policy_sound_witness :
  let p := start_parked 2 0 (make_policy ["a"] 3 1) in
  exists q, observe 0 [0] 0 2000000 true false p = Ok q /\ remaining q = 1.
Proof.
  set (p := start_parked 2 0 (make_policy ["a"] 3 1)). cbv zeta.
  destruct (v1_policy_sound p 0 [0] 0 2000000 true false) as (_ & _ & _ & q & Hq & _ & _ & _ & _ & _ & Hr).
  - apply reaches_start; [constructor|lia|lia].
  - cbn. lia.
  - exists q. split; [exact Hq|]. rewrite Hr; reflexivity.
Defined.
