(* ===== verification/DepthModel.v ===== *)
(** * The cost model of drafting depths

    What the depth controllers of [engine/include/mtp_depth_controller.h] and
    [engine/include/mtp_policy.h] compute alike from the measured time of a cycle at each
    depth and the chance that a draft is accepted: the expected time of an unmeasured
    depth, the expected tokens per millisecond, the best depth, its best rival and the
    one measured longest ago. [double] is any [FloatFormat]. *)

From stdpp Require Import base list.
From Stdlib Require Import ZArith Lia SpecFloat.
From S2P Require Import Prelude Float.

#[local] Set Default Proof Using "Type".
Open Scope Z_scope.

(** [std::clamp] on integers. *)
Definition clamp (v low high : Z) : Z := if v <? low then low else if high <? v then high else v.

Lemma clamp_range v low high : low <= high -> low <= clamp v low high <= high.
Proof. unfold clamp. intros H. destruct (v <? low) eqn:?, (high <? v) eqn:?; lia. Qed.

Lemma clamp_id v low high : low <= v <= high -> clamp v low high = v.
Proof. unfold clamp. intros H. destruct (v <? low) eqn:?, (high <? v) eqn:?; lia. Qed.

Section Model.
Context {F : FloatFormat}.
Abbreviation float := spec_float.

Definition zero : float := S754_zero false.
Definition one : float := fl_of_Z 1.
Definition infinity : float := S754_infinity false.

(** [std::clamp] on [double]. *)
Definition fl_clamp (v low high : float) : float :=
  if fl_ltb v low then low else if fl_ltb high v then high else v.

Definition at_depth {A} (l : list (option A)) (depth : Z) : option A := nth (Z.to_nat depth) l None.
Definition known {A} (o : option A) : bool := match o with Some _ => true | None => false end.

(** The depths [0..maximum]. *)
Definition depths (maximum : Z) : list Z := seqZ 0 (maximum + 1).

Section Estimates.
(** The measured cycles, the order candidates are tried in, the cost of a draft when
    nothing tells, and the greatest depth. *)
Context (cycle_ms : list (option float)) (order : list Z) (marginal_ms : float) (maximum : Z).

Definition marginal_estimate : float :=
  match filter (fun d => known (at_depth cycle_ms d) = true) (depths maximum) with
  | [] => marginal_ms
  | low :: rest =>
      let high := default low (last rest) in
      match at_depth cycle_ms low, at_depth cycle_ms high with
      | Some a, Some b =>
          if low <? high then
            let slope := fl_div (fl_sub b a) (fl_of_Z (high - low)) in
            if fl_ltb zero slope then slope else marginal_ms
          else marginal_ms
      | _, _ => marginal_ms
      end
  end.

(** The measured candidate nearest to [depth], the first such; [-1] for none. *)
Definition nearest (depth : Z) : Z :=
  foldl (fun reference candidate =>
    if known (at_depth cycle_ms candidate) &&
       ((reference <? 0) || (Z.abs (candidate - depth) <? Z.abs (reference - depth)))
    then candidate else reference) (-1) order.

Definition cheapest : float :=
  foldl (fun least candidate =>
    match at_depth cycle_ms candidate with Some ms => fl_min least ms | None => least end) infinity order.

Definition time_estimate (depth : Z) : float :=
  match at_depth cycle_ms depth with
  | Some ms => ms
  | None =>
      let reference := nearest depth in
      match at_depth cycle_ms reference with
      | Some ms =>
          if reference <? 0 then fl_add (fl_of_Z 30) (fl_mul marginal_ms (fl_of_Z depth))
          else if depth =? 0 then cheapest
          else fl_max (fl_lit 1 1000)
                 (fl_add ms (fl_mul marginal_estimate (fl_of_Z (depth - reference))))
      | None => fl_add (fl_of_Z 30) (fl_mul marginal_ms (fl_of_Z depth))
      end
  end.
End Estimates.

Section Choice.
(** The score of a depth, the ages of the measurements, the current depth and the
    greatest one. *)
Context (score : Z -> float) (cycle_age_ms : list (option float)) (current maximum : Z).

(** The first depth from [start] on with the greatest score, unless the current one is
    within 3 %. *)
Definition best_from (start : Z) (last : Z) : Z :=
  let '(best, best_score) := foldl (fun acc depth =>
    if fl_ltb acc.2 (score depth) then (depth, score depth) else acc)
    (current, fl_of_Z (-1)) (seqZ start (last + 1 - start)) in
  if negb (best =? current) && fl_ltb best_score (fl_mul (score current) (fl_lit 103 100)) then current
  else best.

(** The other depths, plain decoding last. *)
Definition others : list Z :=
  filter (fun d => d <> current) (seqZ 1 maximum ++ [0]).

Definition most_stale : option Z :=
  (foldl (fun acc depth =>
     let age := default infinity (at_depth cycle_age_ms depth) in
     if fl_ltb acc.2 age then (Some depth, age) else acc) (None, fl_of_Z (-1)) others).1.

Definition best_rival : option Z :=
  let current_score := score current in
  if fl_leb current_score zero then most_stale
  else
    let '(rival, rival_score) := foldl (fun acc depth =>
      if fl_ltb acc.2 (score depth) then (Some depth, score depth) else acc) (None, zero) others in
    if fl_leb (fl_div current_score (fl_lit 115 100)) rival_score then rival else None.
End Choice.

(** The expected tokens per millisecond. *)
Definition expected_score (acceptance : Z -> float) (time : float) (depth : Z) : float :=
  let '(expected, _) := foldl (fun er position =>
    let run := fl_mul er.2 (acceptance position) in (fl_add er.1 run, run)) (one, one) (seqZ 0 depth) in
  fl_div expected (fl_max (fl_lit 1 1000000) time).

(** A weighted average that follows [hit] with weight [0.08]. *)
Definition follow (keep estimate hit : float) : float :=
  fl_add (fl_mul keep estimate) (fl_mul (fl_lit 8 100) hit).

(** An exponential average over about 400 ms; a spike counts a quarter. *)
Definition smooth (exp : float -> float) (estimate ms : float) : float :=
  let alpha := fl_sub one (exp (fl_div (SFopp ms) (fl_of_Z 400))) in
  let alpha := if fl_ltb (fl_mul (fl_of_Z 2) estimate) ms then fl_mul alpha (fl_lit 1 4) else alpha in
  fl_add (fl_mul (fl_sub one alpha) estimate) (fl_mul alpha ms).

(** ** Where the choices lie *)

Lemma foldl_choice {A B} (f : B -> A -> B) (P : B -> Prop) l b :
  P b -> (forall b x, x ∈ l -> P b -> P (f b x)) -> P (foldl f b l).
Proof.
  revert b. induction l as [|x l IH]; intros b Hb Hf; [done|]. apply IH; [by apply Hf; [left|]|].
  intros b' y Hy. apply Hf. by right.
Qed.

Lemma best_from_choice score current start last :
  best_from score current start last = current \/ start <= best_from score current start last <= last.
Proof.
  unfold best_from.
  match goal with |- context [foldl ?f ?b ?l] =>
    assert ((foldl f b l).1 = current \/ start <= (foldl f b l).1 <= last) as H end.
  { apply (foldl_choice _ (fun acc => acc.1 = current \/ start <= acc.1 <= last)); [by left|].
    intros [b x] depth Hd Hb. cbn. destruct (fl_ltb _ _); [|done]. right. apply elem_of_seqZ in Hd. cbn. lia. }
  destruct (foldl _ _ _) as [best x]. cbn in H. destruct (_ && _); [by left|done].
Qed.

Lemma others_elem current maximum d : d ∈ others current maximum -> 0 <= maximum -> 0 <= d <= maximum /\ d <> current.
Proof.
  unfold others. rewrite list_elem_of_filter, elem_of_app, elem_of_seqZ, list_elem_of_singleton. lia.
Qed.

Lemma chosen_elem {A} (f : option A * float -> A -> option A * float) x l a :
  (forall acc y, (f acc y).1 = acc.1 \/ (f acc y).1 = Some y) ->
  (foldl f (None, x) l).1 = Some a -> a ∈ l.
Proof.
  intros Hf Ha. pose proof (foldl_choice f (fun acc => forall a, acc.1 = Some a -> a ∈ l) l (None, x)) as H.
  apply H; [done| |done]. intros acc y Hy Hacc a' Ha'. destruct (Hf acc y) as [E|E]; rewrite E in Ha'; [by apply Hacc|].
  by injection Ha' as <-.
Qed.

Lemma most_stale_elem age current maximum d :
  most_stale age current maximum = Some d -> d ∈ others current maximum.
Proof. apply chosen_elem. intros [a x] y. cbn. destruct (fl_ltb _ _); [by right|by left]. Qed.

Lemma best_rival_elem score age current maximum d :
  best_rival score age current maximum = Some d -> d ∈ others current maximum.
Proof.
  unfold best_rival. destruct (fl_leb _ _); [apply most_stale_elem|].
  destruct (foldl _ _ _) as [rival x] eqn:E. destruct (fl_leb _ _); [|done]. intros ->.
  eapply chosen_elem; [|by rewrite E]. intros [a y] z. cbn. destruct (fl_ltb _ _); [by right|by left].
Qed.
End Model.
