(* ===== verification/DsparkController.v ===== *)
(** * The depth controller of block predictors
      ([DsparkDepthController] of [engine/include/mtp_policy.h])

    The controller first measures a shallow depth and plain decoding, then drafts as
    deep as the cost model ([DepthModel]) finds best, and now and then probes another
    depth for four cycles. [double] is any [FloatFormat] and [std::exp] a parameter.
    The report of the first probe is not modelled. *)

From stdpp Require Import base list strings.
From Stdlib Require Import ZArith Lia SpecFloat.
From S2P Require Import Prelude Float DepthModel.

#[local] Set Default Proof Using "Type".
Open Scope Z_scope.

Definition maximum_draft_depth : Z := 5.

Section Controller.
Context {F : FloatFormat} (exp : spec_float -> spec_float).
Abbreviation float := spec_float.

Record Controller := {
  maximum_depth : Z;
  current_depth : Z;
  cycles : Z;
  probe_left : Z;
  since_probe : float;
  since_explore : float;
  acceptance : list float;
  warmup_accepts : list Z;
  warmup_trials : list Z;
  cycle_ms : list (option float);
  cycle_age_ms : list (option float);
  warmup : list Z;
}.

Definition make_controller (maximum_depth initial_depth : Z) : Controller :=
  let maximum := clamp maximum_depth 1 maximum_draft_depth in
  let current := clamp initial_depth 1 maximum in
  let n := Z.to_nat maximum in
  {| maximum_depth := maximum; current_depth := current; cycles := 0; probe_left := 0;
     since_probe := zero; since_explore := zero; acceptance := replicate n (fl_lit 6 10);
     warmup_accepts := replicate n 0; warmup_trials := replicate n 0;
     cycle_ms := replicate (S n) None; cycle_age_ms := replicate (S n) None;
     warmup := [current; current; 0; 0; 0; current] |}.

Definition depth (c : Controller) : Z := current_depth c.

(** *** Assignments *)

Definition set_course (current probe : Z) (w : list Z) (p e : float) (c : Controller) : Controller :=
  {| maximum_depth := maximum_depth c; current_depth := current; cycles := cycles c; probe_left := probe;
     since_probe := p; since_explore := e; acceptance := acceptance c;
     warmup_accepts := warmup_accepts c; warmup_trials := warmup_trials c; cycle_ms := cycle_ms c;
     cycle_age_ms := cycle_age_ms c; warmup := w |}.
Definition set_acceptance (a : list float) (accepts trials : list Z) (n : Z) (c : Controller) : Controller :=
  {| maximum_depth := maximum_depth c; current_depth := current_depth c; cycles := n;
     probe_left := probe_left c; since_probe := since_probe c; since_explore := since_explore c;
     acceptance := a; warmup_accepts := accepts; warmup_trials := trials; cycle_ms := cycle_ms c;
     cycle_age_ms := cycle_age_ms c; warmup := warmup c |}.
Definition set_times (ms ages : list (option float)) (c : Controller) : Controller :=
  {| maximum_depth := maximum_depth c; current_depth := current_depth c; cycles := cycles c;
     probe_left := probe_left c; since_probe := since_probe c; since_explore := since_explore c;
     acceptance := acceptance c; warmup_accepts := warmup_accepts c; warmup_trials := warmup_trials c;
     cycle_ms := ms; cycle_age_ms := ages; warmup := warmup c |}.

Definition set_depth (d : Z) (c : Controller) : Controller :=
  set_course d (probe_left c) (warmup c) (since_probe c) (since_explore c) c.

(** *** Estimates *)

Definition conditional_acceptance (c : Controller) (position : Z) : outcome float :=
  if (position <? 0) || (maximum_depth c <=? position)
  then Throw (OutOfRange "MTP acceptance position is out of range")
  else Ok (nth (Z.to_nat position) (acceptance c) zero).

Definition measured_cycle_ms (c : Controller) (depth : Z) : outcome (option float) :=
  if (depth <? 0) || (maximum_depth c <? depth) then Throw (OutOfRange "MTP measured depth is out of range")
  else Ok (at_depth (cycle_ms c) depth).

Definition marginal_ms : float := fl_of_Z 7.

Definition time_of (c : Controller) (depth : Z) : float :=
  time_estimate (cycle_ms c) (depths (maximum_depth c)) marginal_ms (maximum_depth c) depth.

Definition score (c : Controller) (depth : Z) : float :=
  expected_score (fun position => nth (Z.to_nat position) (acceptance c) zero) (time_of c depth) depth.

Definition best_depth (c : Controller) : Z :=
  best_from (score c) (current_depth c) (if known (at_depth (cycle_ms c) 0) then 0 else 1) (maximum_depth c).

Definition most_stale (c : Controller) : option Z :=
  DepthModel.most_stale (cycle_age_ms c) (current_depth c) (maximum_depth c).
Definition best_rival (c : Controller) : option Z :=
  DepthModel.best_rival (score c) (cycle_age_ms c) (current_depth c) (maximum_depth c).

(** *** [observe] *)

(** One position of the first loop. *)
Definition learn_position (accepted position : Z) (c : Controller) : Controller :=
  let i := Z.to_nat position in
  let hit := position <? accepted in
  if is_nil (warmup c) then
    set_acceptance (<[i := follow (fl_sub one (fl_lit 8 100)) (nth i (acceptance c) zero)
                             (if hit then one else zero)]> (acceptance c))
      (warmup_accepts c) (warmup_trials c) (cycles c) c
  else
    let accepts := nth i (warmup_accepts c) 0 + (if hit then 1 else 0) in
    let trials := nth i (warmup_trials c) 0 + 1 in
    set_acceptance (<[i := fl_div (fl_of_Z accepts) (fl_of_Z trials)]> (acceptance c))
      (<[i := accepts]> (warmup_accepts c)) (<[i := trials]> (warmup_trials c)) (cycles c) c.

(** The positions up to the first rejected draft. *)
Definition learn (used accepted : Z) (c : Controller) : Controller :=
  foldl (fun c position => learn_position accepted position c) c (seqZ 0 (Z.min used (accepted + 1))).

Definition update_time (depth : Z) (ms : float) (c : Controller) : Controller :=
  let i := Z.to_nat depth in
  let estimate :=
    match at_depth (cycle_ms c) depth with
    | None => ms
    | Some v => if is_nil (warmup c) then smooth exp v ms else fl_min v ms
    end in
  set_times (<[i := Some estimate]> (cycle_ms c)) (cycle_age_ms c) c.

(** The ages grow; the depth just measured is fresh. *)
Definition age_times (time_sample : bool) (used : Z) (ms : float) (c : Controller) : Controller :=
  let ages := map (fmap (fun age => fl_add age ms)) (cycle_age_ms c) in
  let ages := if time_sample then <[Z.to_nat used := Some zero]> ages else ages in
  set_course (current_depth c) (probe_left c) (warmup c) (fl_add (since_probe c) ms)
    (fl_add (since_explore c) ms) (set_times (cycle_ms c) ages c).

Definition probe_period : float := fl_of_Z 1000.
Definition period (ms : float) : float :=
  fl_max probe_period (fl_div (fl_mul (fl_of_Z 4) ms) (fl_lit 15 100)).

(** A probe of another depth, when one is due and its own cost allows. *)
Definition start_probe (ms : float) (c : Controller) : Controller :=
  let period_ms := period ms in
  if fl_ltb (since_probe c) period_ms then c
  else
    let explore_due := fl_leb (fl_max (fl_of_Z 5000) (fl_mul (fl_of_Z 2) period_ms)) (since_explore c) in
    match (if explore_due then most_stale c else best_rival c) with
    | None => c
    | Some d =>
        let target_period := fl_max period_ms (fl_div (fl_mul (fl_of_Z 4) (time_of c d)) (fl_lit 15 100)) in
        if fl_ltb (since_probe c) target_period then c
        else set_course d 4 (warmup c) zero (if explore_due then zero else since_explore c) c
    end.

(** What the sample decides. *)
Definition settle (used : Z) (ms : float) (time_sample : bool) (c : Controller) : Controller :=
  match warmup c with
  | front :: rest =>
      if negb time_sample || negb (used =? front) then c
      else
        let c := set_course (current_depth c) (probe_left c) rest (since_probe c) (since_explore c) c in
        match rest with
        | next :: _ => set_depth next c
        | [] => set_course (best_depth c) (probe_left c) [] zero (since_explore c) c
        end
  | [] =>
      if 0 <? probe_left c then
        if negb time_sample || negb (used =? current_depth c) then c
        else
          let c := set_course (current_depth c) (probe_left c - 1) [] (since_probe c) (since_explore c) c in
          if probe_left c =? 0 then set_course (best_depth c) 0 [] zero (since_explore c) c else c
      else
        let c := set_depth (best_depth c) c in
        if maximum_depth c <=? 1 then c else start_probe ms c
  end.

Definition observe (used accepted : Z) (ms : float) (time_sample : bool) (c : Controller) : Controller :=
  let c := set_acceptance (acceptance c) (warmup_accepts c) (warmup_trials c) (cycles c + 1) c in
  let used := clamp used 0 (maximum_depth c) in
  let accepted := clamp accepted 0 used in
  let c := learn used accepted c in
  let ms := fl_max zero ms in
  let c := if time_sample then update_time used ms c else c in
  let c := age_times time_sample used ms c in
  settle used ms time_sample c.

(** ** Properties *)

(** The state the code's indices rely on. *)
Record Good (c : Controller) : Prop := {
  good_maximum : 1 <= maximum_depth c <= maximum_draft_depth;
  good_current : 0 <= current_depth c <= maximum_depth c;
  good_probe : 0 <= probe_left c <= 4;
  good_acceptance : Z.of_nat (length (acceptance c)) = maximum_depth c;
  good_accepts : Z.of_nat (length (warmup_accepts c)) = maximum_depth c;
  good_trials : Z.of_nat (length (warmup_trials c)) = maximum_depth c;
  good_times : Z.of_nat (length (cycle_ms c)) = maximum_depth c + 1;
  good_ages : Z.of_nat (length (cycle_age_ms c)) = maximum_depth c + 1;
  good_warmup : Forall (fun d => 0 <= d <= maximum_depth c) (warmup c);
}.

Lemma dspark_make_good m i : Good (make_controller m i).
Proof.
  pose proof (clamp_range m 1 maximum_draft_depth ltac:(unfold maximum_draft_depth; lia)) as Hm.
  unfold make_controller. set (max := clamp m 1 maximum_draft_depth) in *.
  pose proof (clamp_range i 1 max ltac:(lia)) as Hi.
  constructor; cbn [maximum_depth current_depth probe_left acceptance warmup_accepts warmup_trials cycle_ms
    cycle_age_ms warmup]; rewrite ?length_replicate; try lia. repeat (constructor; [lia|]). constructor.
Qed.

Lemma course_good d p w a b c :
  Good c -> 0 <= d <= maximum_depth c -> 0 <= p <= 4 -> Forall (fun d => 0 <= d <= maximum_depth c) w ->
  Good (set_course d p w a b c).
Proof. intros []. by constructor. Qed.

Lemma depth_good d c : Good c -> 0 <= d <= maximum_depth c -> Good (set_depth d c).
Proof. intros Hc Hd. apply course_good; [done|done|apply Hc|apply Hc]. Qed.

Lemma acceptance_good a x y n c :
  Good c -> length a = length (acceptance c) -> length x = length (warmup_accepts c) ->
  length y = length (warmup_trials c) -> Good (set_acceptance a x y n c).
Proof. intros [] E1 E2 E3. constructor; cbn; congruence. Qed.

Lemma learn_position_good accepted position c :
  Good c -> Good (learn_position accepted position c) /\
  warmup (learn_position accepted position c) = warmup c /\
  maximum_depth (learn_position accepted position c) = maximum_depth c.
Proof.
  intros Hc. unfold learn_position. destruct (is_nil _); (split; [|done]).
  all: apply acceptance_good; [done|by rewrite ?length_insert..].
Qed.

Lemma dspark_learn_good used accepted c :
  Good c -> Good (learn used accepted c) /\ warmup (learn used accepted c) = warmup c /\
  current_depth (learn used accepted c) = current_depth c /\ probe_left (learn used accepted c) = probe_left c /\
  maximum_depth (learn used accepted c) = maximum_depth c.
Proof.
  unfold learn. generalize (seqZ 0 (Z.min used (accepted + 1))). intros l. revert c.
  induction l as [|position l IH]; intros c Hc; [done|]. cbn [foldl].
  destruct (learn_position_good accepted position c Hc) as (Hp & Ew & Em).
  destruct (IH _ Hp) as (Hg & Ew' & Ec & Ep & Em'). split; [done|]. rewrite Ew', Ew, Ec, Ep, Em', Em.
  unfold learn_position. by destruct (is_nil _).
Qed.

Lemma times_good ms ages c :
  Good c -> length ms = length (cycle_ms c) -> length ages = length (cycle_age_ms c) -> Good (set_times ms ages c).
Proof. intros [] E1 E2. constructor; cbn; congruence. Qed.

Lemma dspark_best_depth_range c : Good c -> 0 <= best_depth c <= maximum_depth c.
Proof.
  intros Hc. pose proof (good_current c Hc). unfold best_depth.
  destruct (best_from_choice (score c) (current_depth c)
    (if known (at_depth (cycle_ms c) 0) then 0 else 1) (maximum_depth c)) as [->|Hr]; [done|].
  destruct (known _); lia.
Qed.

Lemma dspark_start_probe_good ms c : Good c -> Good (start_probe ms c).
Proof.
  intros Hc. unfold start_probe. destruct (fl_ltb _ _); [done|].
  destruct (if fl_leb _ _ then _ else _) as [d|] eqn:Ed; [|done]. destruct (fl_ltb _ _); [done|].
  assert (d ∈ others (current_depth c) (maximum_depth c)) as Hd.
  { destruct (fl_leb _ _); [by eapply most_stale_elem|by eapply best_rival_elem]. }
  apply others_elem in Hd; [|pose proof (good_maximum c Hc); lia].
  apply course_good; [done|lia|lia|apply Hc].
Qed.

Lemma dspark_settle_good used ms t c : Good c -> Good (settle used ms t c).
Proof.
  intros Hc. unfold settle. pose proof (good_warmup c Hc) as Hw. pose proof (good_probe c Hc).
  pose proof (good_current c Hc). pose proof (good_maximum c Hc).
  destruct (warmup c) as [|front rest] eqn:Ew.
  - destruct (0 <? probe_left c) eqn:Ep.
    + destruct (_ || _); [done|].
      assert (Good (set_course (current_depth c) (probe_left c - 1) [] (since_probe c) (since_explore c) c)) as Hg
        by (apply course_good; [done|done|lia|constructor]).
      cbv zeta. destruct (_ =? 0); [|done].
      apply course_good; [done|by apply dspark_best_depth_range|lia|constructor].
    + pose proof (depth_good (best_depth c) c Hc (dspark_best_depth_range c Hc)) as Hg. cbv zeta.
      destruct (_ <=? 1); [done|by apply dspark_start_probe_good].
  - destruct (_ || _); [done|]. inversion Hw as [|? ? Hf Hr]; subst.
    assert (Good (set_course (current_depth c) (probe_left c) rest (since_probe c) (since_explore c) c)) as Hg
      by by apply course_good.
    cbv zeta. destruct rest as [|next rest].
    + apply course_good; [done|by apply dspark_best_depth_range|done|constructor].
    + apply depth_good; [done|by inversion Hr].
Qed.

(** The controller up to its decision. *)
Definition learned (used accepted : Z) (ms : float) (time_sample : bool) (c : Controller) : Controller :=
  let c := set_acceptance (acceptance c) (warmup_accepts c) (warmup_trials c) (cycles c + 1) c in
  let c := learn used accepted c in
  let c := if time_sample then update_time used ms c else c in
  age_times time_sample used ms c.

Lemma learned_good used accepted ms t c :
  Good c -> Good (learned used accepted ms t c) /\ warmup (learned used accepted ms t c) = warmup c /\
  current_depth (learned used accepted ms t c) = current_depth c /\
  probe_left (learned used accepted ms t c) = probe_left c /\
  maximum_depth (learned used accepted ms t c) = maximum_depth c.
Proof.
  intros Hc. unfold learned. set (c0 := set_acceptance _ _ _ _ c).
  assert (Good c0) as H0 by by apply acceptance_good.
  destruct (dspark_learn_good used accepted c0 H0) as (H1 & Ew & Ec & Ep & Em). set (c1 := learn used accepted c0) in *.
  set (c2 := if t then _ else _).
  assert (Good c2 /\ warmup c2 = warmup c1 /\ current_depth c2 = current_depth c1 /\
    probe_left c2 = probe_left c1 /\ maximum_depth c2 = maximum_depth c1) as (H2 & Ew2 & Ec2 & Ep2 & Em2).
  { unfold c2. destruct t; [|done]. split; [|done]. apply times_good; [done|by rewrite length_insert|done]. }
  unfold age_times. cbn [warmup current_depth probe_left maximum_depth set_course set_times].
  split; [|by rewrite Ew2, Ec2, Ep2, Em2, Ew, Ec, Ep, Em].
  apply course_good; [|apply H2|apply H2|apply H2].
  apply times_good; [done|done|]. destruct t; by rewrite ?length_insert, length_map.
Qed.

Lemma observe_learned used accepted ms t c :
  Good c -> observe used accepted ms t c =
    settle (clamp used 0 (maximum_depth c)) (fl_max zero ms) t
      (learned (clamp used 0 (maximum_depth c)) (clamp accepted 0 (clamp used 0 (maximum_depth c)))
         (fl_max zero ms) t c).
Proof. done. Qed.

Lemma dspark_observe_good used accepted ms t c : Good c -> Good (observe used accepted ms t c).
Proof. intros Hc. rewrite observe_learned by done. apply dspark_settle_good. by apply learned_good. Qed.

(** The controllers a run goes through. *)
Inductive Reaches : Controller -> Prop :=
  | reaches_make m i : Reaches (make_controller m i)
  | reaches_observe used accepted ms t c : Reaches c -> Reaches (observe used accepted ms t c).

(** A reachable controller is well-formed and asks for a depth within its maximum,
    whatever was observed, NaN and infinite times included: every array has an entry for
    each position or depth it is read at, so no access is out of bounds; acceptance and
    times can be read exactly for the positions and depths in range. *)
Theorem dspark_well_formed c : Reaches c ->
  Good c /\ 0 <= depth c <= maximum_depth c /\ maximum_depth c <= 5 /\
  (forall position, (exists x, conditional_acceptance c position = Ok x) <-> 0 <= position < maximum_depth c) /\
  (forall d, (exists x, measured_cycle_ms c d = Ok x) <-> 0 <= d <= maximum_depth c).
Proof.
  intros Hc. assert (Good c) as Hg by (induction Hc; [apply dspark_make_good|by apply dspark_observe_good]).
  split; [done|]. split; [apply Hg|]. split; [apply (good_maximum c Hg)|]. split; intros i.
  - unfold conditional_acceptance. destruct (_ || _) eqn:E; (split; [intros [x Hx]|intros Hi]); try done; try lia.
    by eexists.
  - unfold measured_cycle_ms. destruct (_ || _) eqn:E; (split; [intros [x Hx]|intros Hi]); try done; try lia.
    by eexists.
Qed.

(** Cycles at the depth the controller asks for, each timed. *)
Definition follow_cycles (cycles : list (Z * float)) (c : Controller) : Controller :=
  foldl (fun c cycle => observe (depth c) cycle.1 cycle.2 true c) c cycles.

Lemma timed_sample accepted ms c : Good c ->
  exists c', Good c' /\ warmup c' = warmup c /\ current_depth c' = current_depth c /\ probe_left c' = probe_left c /\
    observe (depth c) accepted ms true c = settle (current_depth c') (fl_max zero ms) true c'.
Proof.
  intros Hc. pose proof (good_current c Hc). rewrite observe_learned by done. unfold depth.
  rewrite (clamp_id (current_depth c)) by lia.
  destruct (learned_good (current_depth c) (clamp accepted 0 (current_depth c)) (fl_max zero ms) true c Hc)
    as (Hg & Ew & Ec & Ep & _).
  eexists. split; [exact Hg|]. rewrite Ec. done.
Qed.

Lemma warmup_sample accepted ms front rest c :
  Good c -> warmup c = front :: rest -> current_depth c = front ->
  let c' := observe (depth c) accepted ms true c in
  warmup c' = rest /\ (forall next l, rest = next :: l -> current_depth c' = next).
Proof.
  intros Hc Ew Ef. destruct (timed_sample accepted ms c Hc) as (c1 & Hg & Ew1 & Ec1 & _ & ->).
  unfold settle. rewrite Ew1, Ew, Ec1, Ef, Z.eqb_refl. cbn [negb orb]. destruct rest as [|next rest]; [done|].
  split; [done|]. by intros ? ? [= <- <-].
Qed.

Lemma warmup_consumed cycles : forall c, Good c -> (length cycles <= length (warmup c))%nat ->
  (forall d l, warmup c = d :: l -> current_depth c = d) ->
  warmup (follow_cycles cycles c) = drop (length cycles) (warmup c) /\
  (forall d l, warmup (follow_cycles cycles c) = d :: l -> depth (follow_cycles cycles c) = d).
Proof.
  induction cycles as [|[a ms] cycles IH]; intros c Hc Hlen Hfront; [by rewrite drop_0|].
  cbn [follow_cycles foldl length]. destruct (warmup c) as [|front rest] eqn:Ew; [cbn in Hlen; lia|].
  destruct (warmup_sample a ms front rest c Hc Ew (Hfront _ _ eq_refl)) as [Ew' Ef'].
  destruct (IH (observe (depth c) a ms true c)) as [E1 E2].
  - by apply dspark_observe_good.
  - rewrite Ew'. cbn in Hlen. lia.
  - rewrite Ew'. intros d l E. by eapply Ef'.
  - split; [|exact E2]. cbn [drop]. etrans; [exact E1|]. by rewrite Ew'.
Qed.

Lemma probe_sample accepted ms c :
  Good c -> warmup c = [] -> 0 < probe_left c ->
  let c' := observe (depth c) accepted ms true c in
  warmup c' = [] /\ probe_left c' = probe_left c - 1 /\ (1 < probe_left c -> depth c' = depth c).
Proof.
  intros Hc Ew Hp. destruct (timed_sample accepted ms c Hc) as (c1 & Hg & Ew1 & Ec1 & Ep1 & ->).
  unfold settle, depth. rewrite Ew1, Ew, Ep1, Z.eqb_refl. cbn [negb orb].
  rewrite (proj2 (Z.ltb_lt 0 _)) by lia. cbv zeta. cbn [probe_left set_course].
  destruct (_ =? 0) eqn:E; cbn; (split; [done|]); split; lia.
Qed.

(** Calibration and probes end. A new controller whose depth is followed with timed
    cycles measures the shallow depth twice, plain decoding three times and the shallow
    depth once more, whatever the times and acceptances; then it has left its warmup. *)
Theorem dspark_calibrates m i cycles :
  length cycles = 6%nat ->
  (forall k, (k < 6)%nat ->
     Some (depth (follow_cycles (take k cycles) (make_controller m i))) =
     [depth (make_controller m i); depth (make_controller m i); 0; 0; 0; depth (make_controller m i)] !! k) /\
  warmup (follow_cycles cycles (make_controller m i)) = [].
Proof.
  intros Hlen. pose proof (dspark_make_good m i) as Hg. assert (forall k, (k <= 6)%nat ->
    warmup (follow_cycles (take k cycles) (make_controller m i)) = drop k (warmup (make_controller m i)) /\
    forall d l, warmup (follow_cycles (take k cycles) (make_controller m i)) = d :: l ->
      depth (follow_cycles (take k cycles) (make_controller m i)) = d) as Hrun.
  { intros k Hk. assert (length (take k cycles) = k) as El by (rewrite length_take; lia).
    pose proof (warmup_consumed (take k cycles) (make_controller m i) Hg) as H. rewrite El in H.
    apply H; [cbn; lia|by intros d l [= <- <-]]. }
  split.
  - intros k Hk. destruct (Hrun k ltac:(lia)) as [Ew Ed]. cbn [warmup make_controller] in Ew.
    unfold depth at 2 3 4. cbn [current_depth make_controller].
    do 6 (destruct k as [|k]; [cbn [drop] in Ew; by rewrite (Ed _ _ Ew)|]). lia.
  - destruct (Hrun 6%nat ltac:(lia)) as [Ew _]. rewrite take_ge in Ew by lia. exact Ew.
Qed.

(** A probe keeps its depth for its four cycles, then the best depth is chosen. *)
Theorem dspark_probe_ends cycles : forall c,
  Good c -> warmup c = [] -> Z.of_nat (length cycles) = probe_left c ->
  probe_left (follow_cycles cycles c) = 0 /\ warmup (follow_cycles cycles c) = [].
Proof.
  induction cycles as [|[a ms] cycles IH]; intros c Hc Ew Hlen; [by split; [cbn in *; lia|]|].
  cbn [length] in Hlen. cbn [follow_cycles foldl].
  destruct (probe_sample a ms c Hc Ew ltac:(lia)) as (Ew' & Ep' & _).
  apply IH; [by apply dspark_observe_good|done|]. cbn [fst snd]. lia.
Qed.
End Controller.

(** ** A controller of three depths *)

Definition two_cycles : list (Z * spec_float) := replicate 2 (1, fl_of_Z (F := binary64) 20).
Definition shallow : Controller := make_controller (F := binary64) 3 2.

Lemma dspark_well_formed_witness :
  let c := follow_cycles (F := binary64) (fun x => x) two_cycles shallow in
  depth c = 0 /\ Good c.
Proof.
  intros c. split; [vm_compute; reflexivity|].
  apply (dspark_well_formed (F := binary64) (fun x => x) c).
  unfold c, follow_cycles, two_cycles. cbn [replicate foldl]. repeat apply reaches_observe. apply reaches_make.
Defined.

Lemma dspark_calibrates_witness :
  warmup (follow_cycles (F := binary64) (fun x => x) (two_cycles ++ two_cycles ++ two_cycles) shallow) = [].
Proof.
  apply (dspark_calibrates (F := binary64) (fun x => x) 3 2 (two_cycles ++ two_cycles ++ two_cycles)). reflexivity.
Defined.
