(* ===== verification/DepthController.v ===== *)
(** * The adaptive depth controller
      ([DepthController] of [engine/include/mtp_depth_controller.h])

    The controller measures every depth in a warmup, then drafts as deep as the cost model
    ([DepthModel]) finds best, probes other depths now and then, and counts the cycles in
    which speculation loses against plain decoding. With [gradual_warmup] it starts
    shallow, limits the width by latency for the first 48 tokens and skips widths that are
    predicted to lose. [double] is any [FloatFormat], [std::exp] a parameter. Log lines,
    and the flag that limits one of them, are not modelled. *)

From stdpp Require Import base list strings.
From Stdlib Require Import ZArith Lia SpecFloat.
From S2P Require Import Prelude Float DepthModel.

#[local] Set Default Proof Using "Type".
Open Scope Z_scope.

Section Controller.
Context {F : FloatFormat} (exp : spec_float -> spec_float).
Abbreviation float := spec_float.

(** ** State *)

(** The members that do not change after construction; the last two come from the
    environment. *)
Record Settings := {
  maximum_depth : Z;
  gradual_warmup : bool;
  cold_window_ms : float;
  marginal_ms : float;
  exit_margin : float;
  cost_window : bool;
  cache_resweep : bool;
}.

(** What was measured. *)
Record Measured := {
  acceptance : list (option float);
  cycle_ms : list (option float);
  cycle_age_ms : list (option float);
  measurement_order : list Z;
  baseline_warmup_ms : list float;
  baseline_warmup_count : Z;
  baseline_warmup_next : Z;
  width_baseline_ms : list float;
  width_cost_ms : list (list float);
  width_cost_count : list Z;
  width_cost_next : list Z;
}.

(** Where the controller is in its warmup, its probes and its losing streak. *)
Record Course := {
  current_depth : Z;
  warmup : list Z;
  post_baseline_shallow : bool;
  probe_left : Z;
  exit_streak : Z;
  cold_tokens_left : Z;
  cold_maximum_depth : Z;
  since_probe : float;
  since_explore : float;
}.

Record Controller := {
  settings : Settings;
  measured : Measured;
  course : Course;
}.

Definition top (c : Controller) : Z := maximum_depth (settings c).
Definition gradual (c : Controller) : bool := gradual_warmup (settings c).

Definition set_measured (m : Measured) (c : Controller) : Controller :=
  {| settings := settings c; measured := m; course := course c |}.
Definition set_course (x : Course) (c : Controller) : Controller :=
  {| settings := settings c; measured := measured c; course := x |}.

Definition set_acceptance (a : list (option float)) (m : Measured) : Measured :=
  {| acceptance := a; cycle_ms := cycle_ms m; cycle_age_ms := cycle_age_ms m;
     measurement_order := measurement_order m; baseline_warmup_ms := baseline_warmup_ms m;
     baseline_warmup_count := baseline_warmup_count m; baseline_warmup_next := baseline_warmup_next m;
     width_baseline_ms := width_baseline_ms m; width_cost_ms := width_cost_ms m;
     width_cost_count := width_cost_count m; width_cost_next := width_cost_next m |}.
Definition set_cycles (ms : list (option float)) (order : list Z) (m : Measured) : Measured :=
  {| acceptance := acceptance m; cycle_ms := ms; cycle_age_ms := cycle_age_ms m;
     measurement_order := order; baseline_warmup_ms := baseline_warmup_ms m;
     baseline_warmup_count := baseline_warmup_count m; baseline_warmup_next := baseline_warmup_next m;
     width_baseline_ms := width_baseline_ms m; width_cost_ms := width_cost_ms m;
     width_cost_count := width_cost_count m; width_cost_next := width_cost_next m |}.
Definition set_ages (ages : list (option float)) (m : Measured) : Measured :=
  {| acceptance := acceptance m; cycle_ms := cycle_ms m; cycle_age_ms := ages;
     measurement_order := measurement_order m; baseline_warmup_ms := baseline_warmup_ms m;
     baseline_warmup_count := baseline_warmup_count m; baseline_warmup_next := baseline_warmup_next m;
     width_baseline_ms := width_baseline_ms m; width_cost_ms := width_cost_ms m;
     width_cost_count := width_cost_count m; width_cost_next := width_cost_next m |}.
Definition set_baseline (ms : list float) (count next : Z) (m : Measured) : Measured :=
  {| acceptance := acceptance m; cycle_ms := cycle_ms m; cycle_age_ms := cycle_age_ms m;
     measurement_order := measurement_order m; baseline_warmup_ms := ms;
     baseline_warmup_count := count; baseline_warmup_next := next;
     width_baseline_ms := width_baseline_ms m; width_cost_ms := width_cost_ms m;
     width_cost_count := width_cost_count m; width_cost_next := width_cost_next m |}.
Definition set_width_baseline (ms : list float) (m : Measured) : Measured :=
  {| acceptance := acceptance m; cycle_ms := cycle_ms m; cycle_age_ms := cycle_age_ms m;
     measurement_order := measurement_order m; baseline_warmup_ms := baseline_warmup_ms m;
     baseline_warmup_count := baseline_warmup_count m; baseline_warmup_next := baseline_warmup_next m;
     width_baseline_ms := ms; width_cost_ms := width_cost_ms m;
     width_cost_count := width_cost_count m; width_cost_next := width_cost_next m |}.
Definition set_width_cost (ms : list (list float)) (count next : list Z) (m : Measured) : Measured :=
  {| acceptance := acceptance m; cycle_ms := cycle_ms m; cycle_age_ms := cycle_age_ms m;
     measurement_order := measurement_order m; baseline_warmup_ms := baseline_warmup_ms m;
     baseline_warmup_count := baseline_warmup_count m; baseline_warmup_next := baseline_warmup_next m;
     width_baseline_ms := width_baseline_ms m; width_cost_ms := ms;
     width_cost_count := count; width_cost_next := next |}.

Definition set_current (d : Z) (x : Course) : Course :=
  {| current_depth := d; warmup := warmup x; post_baseline_shallow := post_baseline_shallow x;
     probe_left := probe_left x; exit_streak := exit_streak x; cold_tokens_left := cold_tokens_left x;
     cold_maximum_depth := cold_maximum_depth x; since_probe := since_probe x; since_explore := since_explore x |}.
Definition set_warmup (w : list Z) (x : Course) : Course :=
  {| current_depth := current_depth x; warmup := w; post_baseline_shallow := post_baseline_shallow x;
     probe_left := probe_left x; exit_streak := exit_streak x; cold_tokens_left := cold_tokens_left x;
     cold_maximum_depth := cold_maximum_depth x; since_probe := since_probe x; since_explore := since_explore x |}.
Definition set_shallow (x : Course) : Course :=
  {| current_depth := current_depth x; warmup := warmup x; post_baseline_shallow := true;
     probe_left := probe_left x; exit_streak := exit_streak x; cold_tokens_left := cold_tokens_left x;
     cold_maximum_depth := cold_maximum_depth x; since_probe := since_probe x; since_explore := since_explore x |}.
Definition set_probe (n : Z) (x : Course) : Course :=
  {| current_depth := current_depth x; warmup := warmup x; post_baseline_shallow := post_baseline_shallow x;
     probe_left := n; exit_streak := exit_streak x; cold_tokens_left := cold_tokens_left x;
     cold_maximum_depth := cold_maximum_depth x; since_probe := since_probe x; since_explore := since_explore x |}.
Definition set_streak (n : Z) (x : Course) : Course :=
  {| current_depth := current_depth x; warmup := warmup x; post_baseline_shallow := post_baseline_shallow x;
     probe_left := probe_left x; exit_streak := n; cold_tokens_left := cold_tokens_left x;
     cold_maximum_depth := cold_maximum_depth x; since_probe := since_probe x; since_explore := since_explore x |}.
Definition set_cold (tokens width : Z) (x : Course) : Course :=
  {| current_depth := current_depth x; warmup := warmup x; post_baseline_shallow := post_baseline_shallow x;
     probe_left := probe_left x; exit_streak := exit_streak x; cold_tokens_left := tokens;
     cold_maximum_depth := width; since_probe := since_probe x; since_explore := since_explore x |}.
Definition set_since (p e : float) (x : Course) : Course :=
  {| current_depth := current_depth x; warmup := warmup x; post_baseline_shallow := post_baseline_shallow x;
     probe_left := probe_left x; exit_streak := exit_streak x; cold_tokens_left := cold_tokens_left x;
     cold_maximum_depth := cold_maximum_depth x; since_probe := p; since_explore := e |}.

(** ** Construction *)

(** The widths from the greatest down to 1. *)
Definition sweep (maximum : Z) : list Z := reverse (seqZ 1 maximum).

(** No seed, or one that has measured nothing. *)
Definition fresh (seed : option Controller) : bool :=
  match seed with None => true | Some c => is_nil (measurement_order (measured c)) end.

Definition first_sweep (maximum : Z) (gradual : bool) : list Z :=
  if gradual then [1; 0; 0; 0; 0; 1] ++ seqZ 2 (maximum - 1) else sweep maximum.

Definition first_warmup (maximum : Z) (gradual fresh : bool) : list Z :=
  first_sweep maximum gradual ++
  (if 1 <? maximum then
     (if gradual then [] else [0; 0; 0]) ++ sweep maximum ++ (if gradual && fresh then sweep maximum else [])
   else []) ++
  (if gradual then [0; 0; 0; 0] else []).

Definition blank (maximum : Z) : Measured :=
  {| acceptance := Some (fl_lit 6 10) :: replicate (Z.to_nat maximum - 1) None;
     cycle_ms := replicate (Z.to_nat maximum + 1) None; cycle_age_ms := replicate (Z.to_nat maximum + 1) None;
     measurement_order := []; baseline_warmup_ms := replicate 4 zero; baseline_warmup_count := 0;
     baseline_warmup_next := 0; width_baseline_ms := replicate 6 zero;
     width_cost_ms := replicate 6 (replicate 4 zero); width_cost_count := replicate 6 0;
     width_cost_next := replicate 6 0 |}.

(** The estimates of an earlier controller, as far as both reach; they count as old. *)
Definition inherit (maximum : Z) (seed : Controller) (m : Measured) : Measured :=
  let n := Z.to_nat (Z.min maximum (top seed)) in
  let old := measured seed in
  let ms := take (n + 1) (cycle_ms old) ++ drop (n + 1) (cycle_ms m) in
  set_width_baseline (width_baseline_ms old)
    (set_cycles ms (filter (fun d => d <= maximum) (measurement_order old))
      (set_ages (map (fmap (fun _ => infinity)) (take (n + 1) ms) ++ drop (n + 1) (cycle_age_ms m))
        (set_acceptance (take n (acceptance old) ++ drop n (acceptance m)) m))).

Definition make_controller (maximum_depth : Z) (seed : option Controller) (marginal exit_margin : float)
    (gradual_warmup : bool) (cold_window : float) (cost_window cache_resweep : bool) : Controller :=
  let maximum := clamp maximum_depth 1 5 in
  let cold := gradual_warmup && fl_ltb zero cold_window && fresh seed in
  {| settings := {| maximum_depth := maximum; gradual_warmup := gradual_warmup;
                    cold_window_ms := if cold then cold_window else zero;
                    marginal_ms := if fl_ltb zero marginal then marginal else fl_of_Z 7;
                    exit_margin := fl_clamp exit_margin one (fl_lit 15 10);
                    cost_window := cost_window; cache_resweep := cache_resweep |};
     measured := match seed with
                 | Some c => if fresh seed then blank maximum else inherit maximum c (blank maximum)
                 | None => blank maximum
                 end;
     course := {| current_depth := default maximum (head (first_sweep maximum gradual_warmup));
                  warmup := first_warmup maximum gradual_warmup (fresh seed);
                  post_baseline_shallow := false; probe_left := 0; exit_streak := 0;
                  cold_tokens_left := if cold then 48 else 0; cold_maximum_depth := 1;
                  since_probe := zero; since_explore := zero |} |}.

(** ** Estimates *)

Definition depth (c : Controller) : Z :=
  if 0 <? cold_tokens_left (course c) then Z.min (current_depth (course c)) (cold_maximum_depth (course c))
  else current_depth (course c).
Definition warming_up (c : Controller) : bool := negb (is_nil (warmup (course c))).
Definition should_exit (c : Controller) : bool := (if gradual c then 6 else 16) <=? exit_streak (course c).

(** The estimate at a position or the nearest one before it; the first one is always
    known. *)
Fixpoint known_acceptance (a : list (option float)) (position : nat) : float :=
  match nth position a None, position with
  | Some x, _ => x
  | None, O => zero
  | None, S position => known_acceptance a position
  end.

Definition acceptance_at (c : Controller) (position : Z) : float :=
  known_acceptance (acceptance (measured c)) (Z.to_nat position).

Definition conditional_acceptance (c : Controller) (position : Z) : outcome float :=
  if (position <? 0) || (top c <=? position)
  then Throw (OutOfRange "MTP acceptance position is out of range")
  else Ok (acceptance_at c position).

Definition measured_cycle_ms (c : Controller) (depth : Z) : outcome (option float) :=
  if (depth <? 0) || (top c <? depth) then Throw (OutOfRange "MTP measured depth is out of range")
  else Ok (at_depth (cycle_ms (measured c)) depth).

Definition time_of (c : Controller) (depth : Z) : float :=
  time_estimate (cycle_ms (measured c)) (measurement_order (measured c)) (marginal_ms (settings c)) (top c) depth.

Definition score (c : Controller) (depth : Z) : float :=
  expected_score (acceptance_at c) (time_of c depth) depth.

Definition widest (c : Controller) : Z :=
  if 0 <? cold_tokens_left (course c) then cold_maximum_depth (course c) else top c.

Definition best_depth (c : Controller) : Z :=
  best_from (score c) (current_depth (course c)) (if known (at_depth (cycle_ms (measured c)) 0) then 0 else 1)
    (widest c).

(** Plain decoding became a tenth cheaper since the width was measured. *)
Definition baseline_warmed (s : Settings) (m : Measured) (depth : Z) : bool :=
  let base := nth (Z.to_nat depth) (width_baseline_ms m) zero in
  gradual_warmup s && cache_resweep s && (0 <? depth) && fl_ltb zero base &&
  match at_depth (cycle_ms m) 0 with
  | Some plain => fl_ltb zero plain && fl_ltb plain (fl_mul (fl_lit 9 10) base)
  | None => false
  end.

(** [cycle_age_ms_[depth] == infinity]. *)
Definition inherited (m : Measured) (depth : Z) : bool :=
  match at_depth (cycle_age_ms m) depth with Some age => SFeqb age infinity | None => false end.

Definition width_needs_measurement (c : Controller) (depth : Z) : bool :=
  negb (known (at_depth (cycle_ms (measured c)) depth)) || inherited (measured c) depth ||
  baseline_warmed (settings c) (measured c) depth.

Definition needs_wider_measurement (c : Controller) : bool :=
  gradual c && post_baseline_shallow (course c) && negb (fl_ltb (acceptance_at c 0) (fl_lit 65 100)) &&
  existsb (width_needs_measurement c) (seqZ 2 (top c - 1)).

Definition unmeasured_width (c : Controller) : option Z :=
  if needs_wider_measurement c then find (width_needs_measurement c) (seqZ 2 (widest c - 1)) else None.

Definition speculation_losing (c : Controller) : bool :=
  if warming_up c || negb (known (at_depth (cycle_ms (measured c)) 0)) then false
  else if needs_wider_measurement c then false
  else
    let baseline := score c 0 in
    if fl_leb baseline zero then false
    else
      let best := foldl (fun best d => fl_max best (score c d)) zero (seqZ 1 (top c)) in
      fl_ltb best (fl_mul baseline (exit_margin (settings c))).

Definition most_stale (c : Controller) : option Z :=
  DepthModel.most_stale (cycle_age_ms (measured c)) (current_depth (course c)) (top c).
Definition best_rival (c : Controller) : option Z :=
  DepthModel.best_rival (score c) (cycle_age_ms (measured c)) (current_depth (course c)) (top c).

(** ** Learning *)

Definition learn_position (accepted position : Z) (c : Controller) : Controller :=
  let i := Z.to_nat position in
  let estimate := match nth i (acceptance (measured c)) None with
                  | Some x => x
                  | None => acceptance_at c position
                  end in
  let hit := if position <? accepted then one else zero in
  set_measured (set_acceptance (<[i := Some (follow (fl_lit 92 100) estimate hit)]> (acceptance (measured c)))
                  (measured c)) c.

Definition learn (used accepted : Z) (c : Controller) : Controller :=
  foldl (fun c position => learn_position accepted position c) c (seqZ 0 (Z.min used (accepted + 1))).

Definition sum_of (l : list float) : float := foldl fl_add zero l.

(** The scalar baseline: the mean of a window of four. *)
Definition update_baseline (ms : float) (m : Measured) : Measured :=
  let old := inherited m 0 in
  let count := if old then 0 else baseline_warmup_count m in
  let next := if old then 0 else baseline_warmup_next m in
  let window := <[Z.to_nat next := ms]> (baseline_warmup_ms m) in
  let count := Z.min (count + 1) 4 in
  let mean := fl_div (sum_of (take (Z.to_nat count) window)) (fl_of_Z count) in
  let order := if known (at_depth (cycle_ms m) 0) then measurement_order m else measurement_order m ++ [0] in
  set_cycles (<[0%nat := Some mean]> (cycle_ms m)) order
    (set_baseline window count ((next + 1) mod 4) m).

Definition seed_width_cost (s : Settings) (depth : Z) (ms : float) (m : Measured) : Measured :=
  if negb (gradual_warmup s) || negb (cost_window s) || (depth <=? 0) then m
  else
    let i := Z.to_nat depth in
    set_width_cost (<[i := <[0%nat := ms]> (nth i (width_cost_ms m) [])]> (width_cost_ms m))
      (<[i := 1]> (width_cost_count m)) (<[i := 1]> (width_cost_next m)) m.

(** A width's estimate as the mean of its window of four. *)
Definition update_window (s : Settings) (depth : Z) (estimate ms : float) (m : Measured) : Measured :=
  let i := Z.to_nat depth in
  let m := if nth i (width_cost_count m) 0 =? 0 then seed_width_cost s depth estimate m else m in
  let next := nth i (width_cost_next m) 0 in
  let samples := <[Z.to_nat next := ms]> (nth i (width_cost_ms m) []) in
  let count := Z.min (nth i (width_cost_count m) 0 + 1) 4 in
  let mean := fl_div (sum_of (take (Z.to_nat count) samples)) (fl_of_Z count) in
  set_cycles (<[i := Some mean]> (cycle_ms m)) (measurement_order m)
    (set_width_cost (<[i := samples]> (width_cost_ms m)) (<[i := count]> (width_cost_count m))
      (<[i := (next + 1) mod 4]> (width_cost_next m)) m).

Definition update_time (s : Settings) (warming : bool) (depth : Z) (ms : float) (m : Measured) : Measured :=
  let i := Z.to_nat depth in
  if gradual_warmup s && (depth =? 0) then update_baseline ms m
  else
    match at_depth (cycle_ms m) depth with
    | None =>
        seed_width_cost s depth ms
          (set_cycles (<[i := Some ms]> (cycle_ms m)) (measurement_order m ++ [depth]) m)
    | Some estimate =>
        if inherited m depth || baseline_warmed s m depth then
          seed_width_cost s depth ms (set_cycles (<[i := Some ms]> (cycle_ms m)) (measurement_order m) m)
        else if warming then
          seed_width_cost s depth (fl_min estimate ms)
            (set_cycles (<[i := Some (fl_min estimate ms)]> (cycle_ms m)) (measurement_order m) m)
        else if gradual_warmup s && cost_window s && (0 <? depth) then update_window s depth estimate ms m
        else set_cycles (<[i := Some (smooth exp estimate ms)]> (cycle_ms m)) (measurement_order m) m
    end.

Definition age_all (ms : float) (m : Measured) : Measured :=
  set_ages (map (fmap (fun age => fl_add age ms)) (cycle_age_ms m)) m.
Definition refresh (depth : Z) (m : Measured) : Measured :=
  set_ages (<[Z.to_nat depth := Some zero]> (cycle_age_ms m)) m.

(** ** [observe] *)

(** The first tokens spend the latency limit, which a fast cycle widens. *)
Definition spend_cold (used accepted : Z) (ms : float) (time_sample : bool) (c : Controller) : Controller :=
  let x := course c in
  if 0 <? cold_tokens_left x then
    let wider := time_sample && (used =? cold_maximum_depth x) && (used <? top c) &&
      fl_leb (fl_div (fl_mul ms (fl_of_Z (used + 2))) (fl_of_Z (used + 1))) (cold_window_ms (settings c)) in
    set_course (set_cold (Z.max 0 (cold_tokens_left x - accepted - 1))
      (if wider then cold_maximum_depth x + 1 else cold_maximum_depth x) x) c
  else c.

(** The measurements a cycle changes. *)
Definition take_sample (used : Z) (ms : float) (time_sample : bool) (c : Controller) : Controller :=
  let m := measured c in
  let m := if time_sample then
      let m := update_time (settings c) (warming_up c) used ms m in
      if gradual c && (0 <? used)
      then set_width_baseline
             (<[Z.to_nat used := default zero (at_depth (cycle_ms m) 0)]> (width_baseline_ms m)) m
      else m
    else m in
  let x := course c in
  let x := if time_sample && (used =? 1) && known (at_depth (cycle_ms m) 0) then set_shallow x else x in
  let m := age_all ms m in
  let m := if time_sample then refresh used m else m in
  set_course (set_since (fl_add (since_probe x) ms) (fl_add (since_explore x) ms) x) (set_measured m c).

Definition count_losses (time_sample : bool) (c : Controller) : Controller :=
  if time_sample then
    set_course (set_streak (if speculation_losing c then exit_streak (course c) + 1 else 0) (course c)) c
  else c.

(** A wide warmup entry that is not worth its time now. *)
Definition skippable (c : Controller) (next : Z) : bool :=
  (1 <? next) &&
  let cold_blocked := (0 <? cold_tokens_left (course c)) && (cold_maximum_depth (course c) <? next) &&
    fl_ltb (cold_window_ms (settings c)) (time_of c next) in
  negb (negb cold_blocked &&
        (fl_leb (score c 0) (score c next) || (width_needs_measurement c next && needs_wider_measurement c))).

Fixpoint drop_skippable (c : Controller) (l : list Z) : list Z :=
  match l with
  | next :: l' => if skippable c next then drop_skippable c l' else l
  | [] => []
  end.

(** Measure a wider depth next. *)
Definition measure_next (d : Z) (c : Controller) : Controller :=
  set_course (set_warmup [d] (set_current d (course c))) c.

Definition consume_warmup (rest : list Z) (c : Controller) : Controller :=
  let rest := if gradual c && post_baseline_shallow (course c) then drop_skippable c rest else rest in
  let c := set_course (set_warmup rest (course c)) c in
  match rest with
  | next :: _ => set_course (set_current next (course c)) c
  | [] =>
      let c := set_course (set_current (best_depth c) (course c)) c in
      let c := match unmeasured_width c with Some d => measure_next d c | None => c end in
      set_course (set_since zero (since_explore (course c)) (course c)) c
  end.

Definition period (ms : float) : float :=
  fl_max (fl_of_Z 1000) (fl_div (fl_mul (fl_of_Z 4) ms) (fl_lit 15 100)).

Definition start_probe (ms : float) (c : Controller) : Controller :=
  let x := course c in
  let period_ms := period ms in
  if fl_ltb (since_probe x) period_ms then c
  else
    let explore_due := fl_leb (fl_max (fl_of_Z 5000) (fl_mul (fl_of_Z 2) period_ms)) (since_explore x) in
    let baseline_due := gradual c && (0 <? current_depth x) &&
      fl_leb (fl_mul (fl_of_Z 2) period_ms) (default zero (at_depth (cycle_age_ms (measured c)) 0)) in
    let target :=
      if baseline_due then Some 0
      else if top c <=? 1 then None
      else if explore_due then most_stale c else best_rival c in
    match target with
    | None => c
    | Some d =>
        set_course (set_since zero (if explore_due && negb baseline_due then zero else since_explore x)
          (set_probe 4 (set_current d x))) c
    end.

Definition settle (used : Z) (ms : float) (time_sample : bool) (c : Controller) : Controller :=
  let x := course c in
  match warmup x with
  | front :: rest => if negb time_sample || negb (used =? front) then c else consume_warmup rest c
  | [] =>
      match unmeasured_width c with
      | Some d => measure_next d c
      | None =>
          if 0 <? probe_left x then
            if negb time_sample || negb (used =? current_depth x) then c
            else
              let c := set_course (set_probe (probe_left x - 1) x) c in
              if probe_left (course c) =? 0
              then set_course (set_since zero (since_explore x) (set_current (best_depth c) (course c))) c
              else c
          else
            let c := set_course (set_current (best_depth c) x) c in
            if (top c <=? 1) && negb (gradual c) then c else start_probe ms c
      end
  end.

Definition observe (used accepted : Z) (ms : float) (time_sample : bool) (c : Controller) : Controller :=
  let used := clamp used 0 (top c) in
  let accepted := clamp accepted 0 used in
  let c := spend_cold used accepted ms time_sample c in
  let c := learn used accepted c in
  let ms := fl_max zero ms in
  let c := take_sample used ms time_sample c in
  let c := count_losses time_sample c in
  settle used ms time_sample c.

(** Plain decoding while speculation is parked. *)
Definition observe_plain_time (ms : float) (time_sample : bool) (c : Controller) : Controller :=
  if negb (fl_finite ms) || fl_leb ms zero then c
  else
    let m := age_all ms (measured c) in
    let m := if time_sample then refresh 0 (update_time (settings c) (warming_up c) 0 ms m) else m in
    set_measured m c.

(** ** The invariant *)

(** A ring of four samples for each of six widths. *)
Record Rings (m : Measured) : Prop := {
  rings_baseline : length (baseline_warmup_ms m) = 4%nat;
  rings_count : 0 <= baseline_warmup_count m <= 4;
  rings_next : 0 <= baseline_warmup_next m < 4;
  rings_widths : length (width_baseline_ms m) = 6%nat;
  rings_costs : length (width_cost_ms m) = 6%nat;
  rings_cost : Forall (fun l => length l = 4%nat) (width_cost_ms m);
  rings_counts : length (width_cost_count m) = 6%nat;
  rings_cost_count : Forall (fun n => 0 <= n <= 4) (width_cost_count m);
  rings_nexts : length (width_cost_next m) = 6%nat;
  rings_cost_next : Forall (fun n => 0 <= n < 4) (width_cost_next m);
}.

Record Shape (max : Z) (m : Measured) : Prop := {
  shape_acceptance : Z.of_nat (length (acceptance m)) = max;
  shape_first : known (at_depth (acceptance m) 0) = true;
  shape_times : Z.of_nat (length (cycle_ms m)) = max + 1;
  shape_ages : Z.of_nat (length (cycle_age_ms m)) = max + 1;
  shape_order : Forall (fun d => 0 <= d <= max) (measurement_order m);
  shape_rings : Rings m;
}.

Record Sane (max : Z) (x : Course) : Prop := {
  sane_current : 0 <= current_depth x <= max;
  sane_warmup : Forall (fun d => 0 <= d <= max) (warmup x);
  sane_probe : 0 <= probe_left x <= 4;
  sane_streak : 0 <= exit_streak x;
  sane_tokens : 0 <= cold_tokens_left x <= 48;
  sane_cold : 1 <= cold_maximum_depth x <= max;
}.

Record Good (c : Controller) : Prop := {
  good_top : 1 <= top c <= 5;
  good_measured : Shape (top c) (measured c);
  good_course : Sane (top c) (course c);
}.

(** *** Construction *)

Lemma sweep_range max : Forall (fun d => 0 <= d <= max) (sweep max).
Proof. apply Forall_reverse, Forall_forall. intros d ?%elem_of_seqZ. lia. Qed.

Lemma first_sweep_range max g : 1 <= max -> Forall (fun d => 0 <= d <= max) (first_sweep max g).
Proof.
  intros Hm. unfold first_sweep. destruct g; [|apply sweep_range]. apply Forall_app. split.
  - repeat (constructor; [lia|]). constructor.
  - apply Forall_forall. intros d ?%elem_of_seqZ. lia.
Qed.

Lemma first_warmup_range max g f : 1 <= max -> Forall (fun d => 0 <= d <= max) (first_warmup max g f).
Proof.
  intros Hm. assert (forall l, Forall (fun d => d = 0) l -> Forall (fun d => 0 <= d <= max) l) as Hz.
  { intros l Hl. eapply Forall_impl; [exact Hl|]. intros d ->. lia. }
  unfold first_warmup. apply Forall_app. split; [by apply first_sweep_range|]. apply Forall_app. split.
  - destruct (1 <? max); [|done]. apply Forall_app. split; [destruct g; apply Hz; repeat constructor|].
    apply Forall_app. split; [apply sweep_range|]. destruct (_ && _); [apply sweep_range|done].
  - destruct g; apply Hz; repeat constructor.
Qed.

Lemma first_sweep_head max g : 1 <= max -> exists d l, first_sweep max g = d :: l.
Proof.
  intros Hm. unfold first_sweep. destruct g; [by eexists _, _|]. unfold sweep.
  destruct (reverse (seqZ 1 max)) as [|d l] eqn:E; [|by eexists _, _].
  apply (f_equal length) in E. rewrite length_reverse, length_seqZ in E. cbn in E. lia.
Qed.

Lemma blank_shape max : 1 <= max -> Shape max (blank max).
Proof.
  intros Hm. constructor; cbn [blank acceptance cycle_ms cycle_age_ms measurement_order];
    rewrite ?length_replicate; cbn [length]; rewrite ?length_replicate; try done; try lia.
  constructor; try done; cbn; try lia; repeat (constructor; [by (done || lia)|]); constructor.
Qed.

Lemma inherit_shape max c : 1 <= max -> Good c -> Shape max (inherit max c (blank max)).
Proof.
  intros Hm Hc. pose proof (good_top c Hc) as Ht. destruct (good_measured c Hc) as [Ha Hf Ht' Hg Ho Hr].
  set (n := Z.to_nat (Z.min max (top c))).
  assert (n + 0 <= length (acceptance (measured c)))%nat by lia.
  assert (n + 1 <= length (cycle_ms (measured c)))%nat by lia.
  constructor; cbn [inherit acceptance cycle_ms cycle_age_ms measurement_order set_width_baseline set_cycles
    set_ages set_acceptance].
  - rewrite length_app, length_take, length_drop. fold n. cbn [blank acceptance length]. rewrite length_replicate. lia.
  - fold n. unfold at_depth in *. cbn [Z.to_nat] in *. destruct (acceptance (measured c)) as [|a l]; [done|].
    destruct n eqn:En; [lia|]. exact Hf.
  - rewrite length_app, length_take, length_drop. fold n. cbn [blank cycle_ms]. rewrite length_replicate. lia.
  - rewrite length_app, length_map, length_take, length_app, length_take, !length_drop. fold n.
    cbn [blank cycle_ms cycle_age_ms]. rewrite !length_replicate. lia.
  - apply Forall_forall. intros d [Hd Hin]%list_elem_of_filter. rewrite Forall_forall in Ho. specialize (Ho d Hin). lia.
  - destruct (shape_rings _ _ (blank_shape max Hm)), Hr. by constructor.
Qed.

Lemma make_good max seed marginal margin g cold w r :
  (forall c, seed = Some c -> Good c) -> Good (make_controller max seed marginal margin g cold w r).
Proof.
  intros Hseed. pose proof (clamp_range max 1 5 ltac:(lia)) as Hm. set (m := clamp max 1 5) in *.
  constructor; unfold top, make_controller; fold m; cbn [settings measured course maximum_depth]; [done| |].
  - destruct seed as [c|]; [|by apply blank_shape; lia]. destruct (fresh _); [by apply blank_shape; lia|].
    apply inherit_shape; [lia|by apply Hseed].
  - destruct (first_sweep_head m g) as (d & l & Eh); [lia|].
    pose proof (first_sweep_range m g ltac:(lia)) as Hr. rewrite Eh in *. cbn [head default].
    inversion Hr; subst. constructor; cbn; try lia; [by apply first_warmup_range; lia|].
    destruct (_ && _); lia.
Qed.

(** *** Learning *)

Lemma known_insert (l : list (option float)) i j x :
  known (nth j l None) = true -> known (nth j (<[i := Some x]> l) None) = true.
Proof.
  rewrite !nth_lookup. destruct (decide (i = j)) as [->|Hne]; [|by rewrite list_lookup_insert_ne].
  destruct (l !! j) as [y|] eqn:El; [|done].
  by rewrite list_lookup_insert_eq by by eapply lookup_lt_Some.
Qed.

Lemma acceptance_shape max a m :
  Shape max m -> length a = length (acceptance m) -> known (at_depth a 0) = true -> Shape max (set_acceptance a m).
Proof. intros [] E Ha. constructor; try done; [by cbn; rewrite E|by destruct shape_rings0]. Qed.

Lemma cycles_shape max ms order m :
  Shape max m -> length ms = length (cycle_ms m) -> Forall (fun d => 0 <= d <= max) order ->
  Shape max (set_cycles ms order m).
Proof. intros [] E Ho. constructor; try done; [by cbn; rewrite E|by destruct shape_rings0]. Qed.

Lemma ages_shape max ages m :
  Shape max m -> length ages = length (cycle_age_ms m) -> Shape max (set_ages ages m).
Proof. intros [] E. constructor; try done; [by cbn; rewrite E|by destruct shape_rings0]. Qed.

Lemma width_baseline_shape max ms m :
  Shape max m -> length ms = length (width_baseline_ms m) -> Shape max (set_width_baseline ms m).
Proof. intros [] E. constructor; try done. destruct shape_rings0. constructor; try done. by cbn; rewrite E. Qed.

Lemma baseline_shape max ms count next m :
  Shape max m -> length ms = 4%nat -> 0 <= count <= 4 -> 0 <= next < 4 -> Shape max (set_baseline ms count next m).
Proof. intros [] E Hc Hn. constructor; try done. destruct shape_rings0. by constructor. Qed.

Lemma width_cost_shape max i l count next m :
  Shape max m -> length l = 4%nat -> 0 <= count <= 4 -> 0 <= next < 4 ->
  Shape max (set_width_cost (<[i := l]> (width_cost_ms m)) (<[i := count]> (width_cost_count m))
    (<[i := next]> (width_cost_next m)) m).
Proof.
  intros [] E Hc Hn. constructor; try done. destruct shape_rings0.
  constructor; cbn; rewrite ?length_insert; try done; by apply Forall_insert.
Qed.

Lemma good_set_measured m c : Good c -> Shape (top c) m -> Good (set_measured m c).
Proof. intros [] Hm. by constructor. Qed.

Lemma good_set_course x c : Good c -> Sane (top c) x -> Good (set_course x c).
Proof. intros [] Hx. by constructor. Qed.

Lemma learn_good used accepted c :
  Good c -> Good (learn used accepted c) /\ settings (learn used accepted c) = settings c /\
  course (learn used accepted c) = course c.
Proof.
  unfold learn. generalize (seqZ 0 (Z.min used (accepted + 1))). intros l. revert c.
  induction l as [|position l IH]; intros c Hc; [done|]. cbn [foldl].
  assert (Good (learn_position accepted position c)) as Hp.
  { apply good_set_measured; [done|]. apply acceptance_shape; [apply Hc|by rewrite length_insert|].
    apply known_insert, (shape_first _ _ (good_measured c Hc)). }
  destruct (IH _ Hp) as (Hg & Es & Ex). split; [done|]. by rewrite Es, Ex.
Qed.

Lemma nth_Forall {A} (P : A -> Prop) l i d : Forall P l -> P d -> P (nth i l d).
Proof. intros Hl Hd. rewrite nth_lookup. destruct (l !! i) as [x|] eqn:E; [|done]. by eapply Forall_lookup in Hl. Qed.

Lemma update_baseline_shape max ms m : 0 <= max -> Shape max m -> Shape max (update_baseline ms m).
Proof.
  intros Hmax Hm. pose proof (shape_rings _ _ Hm) as Hr. destruct (rings_count m Hr), (rings_next m Hr).
  unfold update_baseline. apply cycles_shape; cbn [set_baseline cycle_ms measurement_order].
  - apply baseline_shape; [done|rewrite length_insert; apply Hr| |].
    + destruct (inherited m 0); lia.
    + apply Z.mod_pos_bound. lia.
  - by rewrite length_insert.
  - pose proof (shape_order _ _ Hm). destruct (known _); [done|]. apply Forall_app. split; [done|].
    constructor; [lia|constructor].
Qed.

Lemma cost_ring m i : Rings m -> (i < 6)%nat -> length (nth i (width_cost_ms m) []) = 4%nat.
Proof.
  intros Hr Hi. rewrite nth_lookup. destruct (lookup_lt_is_Some_2 (width_cost_ms m) i) as [l Hl].
  { by rewrite (rings_costs m Hr). }
  rewrite Hl. pose proof (rings_cost m Hr) as Hf. by eapply Forall_lookup in Hf.
Qed.

Lemma seed_width_cost_shape max s d ms m : d <= max -> max <= 5 -> Shape max m -> Shape max (seed_width_cost s d ms m).
Proof.
  intros Hd Hmax Hm. unfold seed_width_cost. destruct (_ || _); [done|].
  apply width_cost_shape; [done| |lia|lia]. rewrite length_insert. apply cost_ring; [apply Hm|lia].
Qed.

Lemma update_window_shape max s d estimate ms m :
  0 <= d <= max -> max <= 5 -> Shape max m -> Shape max (update_window s d estimate ms m).
Proof.
  intros Hd Hmax Hm. unfold update_window. cbv zeta. set (m1 := if _ =? 0 then _ else m).
  assert (Shape max m1) as H1 by (unfold m1; destruct (_ =? 0); [apply seed_width_cost_shape; lia || done|done]).
  apply cycles_shape; cbn [set_width_cost cycle_ms measurement_order].
  - apply width_cost_shape; [done| | |].
    + rewrite length_insert. apply cost_ring; [apply H1|lia].
    + assert (0 <= nth (Z.to_nat d) (width_cost_count m1) 0 <= 4); [|lia].
      apply (nth_Forall (fun n => 0 <= n <= 4)); [apply (rings_cost_count m1), H1|lia].
    + apply Z.mod_pos_bound. lia.
  - by rewrite length_insert.
  - apply H1.
Qed.

Lemma update_time_shape max s warming d ms m :
  0 <= d <= max -> max <= 5 -> Shape max m -> Shape max (update_time s warming d ms m).
Proof.
  intros Hd Hmax Hm. pose proof (shape_order _ _ Hm) as Ho. unfold update_time.
  destruct (_ && (d =? 0)); [by apply update_baseline_shape; [lia|]|].
  assert (forall x, Shape max (set_cycles (<[Z.to_nat d := Some x]> (cycle_ms m)) (measurement_order m) m)) as Hset.
  { intros x. apply cycles_shape; [done|by rewrite length_insert|done]. }
  destruct (at_depth (cycle_ms m) d) as [estimate|].
  - destruct (_ || _); [by apply seed_width_cost_shape; [lia..|]|].
    destruct warming; [by apply seed_width_cost_shape; [lia..|]|].
    destruct (_ && _); [by apply update_window_shape|apply Hset].
  - apply seed_width_cost_shape; [lia|done|]. apply cycles_shape; [done|by rewrite length_insert|].
    apply Forall_app. split; [done|]. constructor; [lia|constructor].
Qed.

Lemma age_all_shape max ms m : Shape max m -> Shape max (age_all ms m).
Proof. intros Hm. apply ages_shape; [done|]. by rewrite length_map. Qed.

Lemma refresh_shape max d m : Shape max m -> Shape max (refresh d m).
Proof. intros Hm. apply ages_shape; [done|]. by rewrite length_insert. Qed.

(** *** [observe] *)

Lemma spend_cold_good used accepted ms t c :
  Good c -> 0 <= accepted -> Good (spend_cold used accepted ms t c).
Proof.
  intros Hc Ha. unfold spend_cold. destruct (0 <? _) eqn:Et; [|done]. apply good_set_course; [done|].
  destruct (good_course c Hc). constructor; cbn; try done; try lia.
  destruct (_ && fl_leb _ _) eqn:E; [|done]. lia.
Qed.

Lemma take_sample_good used ms t c : Good c -> 0 <= used <= top c -> Good (take_sample used ms t c).
Proof.
  intros Hc Hu. pose proof (good_top c Hc). pose proof (good_measured c Hc) as Hm. unfold take_sample. cbv zeta.
  apply good_set_course; [apply good_set_measured; [done|]|].
  - set (m1 := if t then _ else measured c).
    assert (Shape (top c) m1) as H1.
    { unfold m1. destruct t; [|done].
      assert (Shape (top c) (update_time (settings c) (warming_up c) used ms (measured c))) as Hu1
        by (apply update_time_shape; [done|lia|done]).
      destruct (_ && _); [|done]. apply width_baseline_shape; [done|]. by rewrite length_insert. }
    destruct t; [apply refresh_shape|]; by apply age_all_shape.
  - match goal with |- Sane _ (set_since _ _ ?x) => assert (Sane (top c) x) as Hx end.
    { destruct (_ && known _); [|apply Hc]. by destruct (good_course c Hc). }
    by destruct Hx.
Qed.

Lemma count_losses_good t c : Good c -> Good (count_losses t c).
Proof.
  intros Hc. unfold count_losses. destruct t; [|done]. apply good_set_course; [done|].
  destruct (good_course c Hc). constructor; cbn; try done. destruct (speculation_losing c); lia.
Qed.

Lemma widest_range c : Good c -> 1 <= widest c <= top c.
Proof. intros Hc. unfold widest. destruct (good_top c Hc), (sane_cold _ _ (good_course c Hc)). by destruct (0 <? _). Qed.

Lemma best_depth_range c : Good c -> 0 <= best_depth c <= top c.
Proof.
  intros Hc. pose proof (sane_current _ _ (good_course c Hc)). pose proof (widest_range c Hc). unfold best_depth.
  destruct (best_from_choice (score c) (current_depth (course c))
    (if known (at_depth (cycle_ms (measured c)) 0) then 0 else 1) (widest c)) as [->|Hr]; [done|].
  destruct (known _); lia.
Qed.

Lemma unmeasured_width_range c d : Good c -> unmeasured_width c = Some d ->
  2 <= d <= top c /\ width_needs_measurement c d = true.
Proof.
  intros Hc. unfold unmeasured_width. destruct (needs_wider_measurement c); [|done].
  intros [Hin Hn]%List.find_some. split; [|done]. apply list_elem_of_In, elem_of_seqZ in Hin.
  pose proof (widest_range c Hc). lia.
Qed.

Lemma sane_set_current max d x : Sane max x -> 0 <= d <= max -> Sane max (set_current d x).
Proof. intros [] Hd. by constructor. Qed.
Lemma sane_set_warmup max w x : Sane max x -> Forall (fun d => 0 <= d <= max) w -> Sane max (set_warmup w x).
Proof. intros [] Hw. by constructor. Qed.
Lemma sane_set_probe max n x : Sane max x -> 0 <= n <= 4 -> Sane max (set_probe n x).
Proof. intros [] Hn. by constructor. Qed.
Lemma sane_set_since max p e x : Sane max x -> Sane max (set_since p e x).
Proof. intros []. by constructor. Qed.

Lemma measure_next_good d c : Good c -> 0 <= d <= top c -> Good (measure_next d c).
Proof.
  intros Hc Hd. apply good_set_course; [done|]. apply sane_set_warmup; [|by constructor].
  by apply sane_set_current; [apply Hc|].
Qed.

Lemma drop_skippable_suffix c l : exists k, drop_skippable c l = drop k l.
Proof.
  induction l as [|d l [k IH]]; [by exists 0%nat|]. cbn [drop_skippable].
  destruct (skippable c d); [exists (S k); by rewrite IH|by exists 0%nat].
Qed.

Lemma consume_warmup_good rest c :
  Good c -> Forall (fun d => 0 <= d <= top c) rest -> Good (consume_warmup rest c).
Proof.
  intros Hc Hr. unfold consume_warmup. cbv zeta.
  set (l := if _ && _ then _ else rest).
  assert (Forall (fun d => 0 <= d <= top c) l) as Hl.
  { unfold l. destruct (_ && _); [|done]. destruct (drop_skippable_suffix c rest) as [k ->]. by apply Forall_drop. }
  assert (Good (set_course (set_warmup l (course c)) c)) as H1 by (apply good_set_course; [done|by apply sane_set_warmup; [apply Hc|]]).
  destruct l as [|next l].
  - match goal with |- context [unmeasured_width ?c2] => assert (Good c2) as H2 end.
    { apply good_set_course; [done|]. apply sane_set_current; [apply H1|by apply best_depth_range]. }
    destruct (unmeasured_width _) as [d|] eqn:Ed.
    + apply unmeasured_width_range in Ed as [Hd _]; [|done].
      apply good_set_course; [by apply measure_next_good; [|lia]|].
      apply sane_set_since. apply measure_next_good; [done|lia].
    + apply good_set_course; [done|]. apply sane_set_since, H2.
  - apply good_set_course; [done|]. apply sane_set_current; [apply H1|by inversion Hl].
Qed.

Lemma start_probe_good ms c : Good c -> Good (start_probe ms c).
Proof.
  intros Hc. unfold start_probe. destruct (fl_ltb _ _); [done|]. cbv zeta. set (baseline_due := _ && _ && _).
  pose proof (good_top c Hc). destruct (if baseline_due then _ else _) as [d|] eqn:Ed; [|done].
  apply good_set_course; [done|]. apply sane_set_since, sane_set_probe; [|lia]. apply sane_set_current; [apply Hc|].
  destruct baseline_due; [injection Ed as <-; lia|]. destruct (top c <=? 1); [done|].
  enough (d ∈ others (current_depth (course c)) (top c)) as Hd by (apply others_elem in Hd; lia).
  destruct (fl_leb _ _); [by eapply most_stale_elem|by eapply best_rival_elem].
Qed.

Lemma settle_good used ms t c : Good c -> Good (settle used ms t c).
Proof.
  intros Hc. pose proof (good_course c Hc) as Hx. pose proof (sane_warmup _ _ Hx) as Hw.
  pose proof (sane_probe _ _ Hx) as Hp. unfold settle. destruct (warmup (course c)) as [|front rest].
  2: { destruct (_ || _); [done|]. apply consume_warmup_good; [done|by inversion Hw]. }
  destruct (unmeasured_width c) as [d|] eqn:Ed.
  { apply unmeasured_width_range in Ed as [Hd _]; [|done]. apply measure_next_good; [done|lia]. }
  destruct (0 <? probe_left (course c)) eqn:Epl.
  - destruct (_ || _); [done|]. cbv zeta.
    match goal with |- Good (if probe_left (course ?c2) =? 0 then _ else _) => assert (Good c2) as H2 end.
    { apply good_set_course; [done|]. apply sane_set_probe; [done|lia]. }
    destruct (_ =? 0); [|done]. apply good_set_course; [done|]. apply sane_set_since, sane_set_current; [apply H2|].
    by apply best_depth_range.
  - cbv zeta. match goal with |- Good (if _ && _ then ?c2 else _) => assert (Good c2) as H2 end.
    { apply good_set_course; [done|]. apply sane_set_current; [done|by apply best_depth_range]. }
    destruct (_ && _); [done|by apply start_probe_good].
Qed.

(** The controller when it decides. *)
Definition prepared (used accepted : Z) (ms : float) (t : bool) (c : Controller) : Controller :=
  count_losses t (take_sample used (fl_max zero ms) t (learn used accepted (spend_cold used accepted ms t c))).

Lemma observe_prepared used accepted ms t c :
  observe used accepted ms t c =
    settle (clamp used 0 (top c)) (fl_max zero ms) t
      (prepared (clamp used 0 (top c)) (clamp accepted 0 (clamp used 0 (top c))) ms t c).
Proof. done. Qed.

Lemma spend_cold_settings used accepted ms t c : settings (spend_cold used accepted ms t c) = settings c.
Proof. unfold spend_cold. by destruct (0 <? _). Qed.

Lemma prepared_good used accepted ms t c :
  Good c -> 0 <= used <= top c -> 0 <= accepted -> Good (prepared used accepted ms t c).
Proof.
  intros Hc Hu Ha. apply count_losses_good. pose proof (spend_cold_good used accepted ms t c Hc Ha) as H1.
  destruct (learn_good used accepted _ H1) as (H2 & Es & _). apply take_sample_good; [done|].
  unfold top. by rewrite Es, spend_cold_settings.
Qed.

(** What a cycle leaves of the course. *)
Lemma prepared_course used accepted ms t c :
  Good c -> 0 <= accepted ->
  let c' := prepared used accepted ms t c in
  settings c' = settings c /\ warmup (course c') = warmup (course c) /\
  current_depth (course c') = current_depth (course c) /\ probe_left (course c') = probe_left (course c) /\
  cold_tokens_left (course c') = Z.max 0 (cold_tokens_left (course c) - accepted - 1).
Proof.
  intros Hc Ha. unfold prepared. set (c1 := spend_cold used accepted ms t c).
  assert (Good c1) as H1 by by apply spend_cold_good.
  assert (settings c1 = settings c /\ warmup (course c1) = warmup (course c) /\
    current_depth (course c1) = current_depth (course c) /\ probe_left (course c1) = probe_left (course c) /\
    cold_tokens_left (course c1) = Z.max 0 (cold_tokens_left (course c) - accepted - 1)) as (Es & Ew & Ec & Ep & Et).
  { unfold c1, spend_cold. pose proof (sane_tokens _ _ (good_course c Hc)).
    destruct (0 <? _) eqn:E; [done|]. repeat (split; [done|]). lia. }
  destruct (learn_good used accepted c1 H1) as (_ & Es2 & Ex2). set (c2 := learn used accepted c1) in *.
  unfold count_losses, take_sample. destruct t; cbn [settings course set_course set_measured set_streak set_since
    warmup current_depth probe_left cold_tokens_left andb]; rewrite ?Es2, ?Ex2, <- ?Es, <- ?Ew, <- ?Ec, <- ?Ep, <- ?Et;
    [|done].
  by destruct ((used =? 1) && _).
Qed.

(** ** Properties *)

Inductive Reaches : Controller -> Prop :=
  | reaches_make max seed marginal margin g cold w r :
      (forall c, seed = Some c -> Reaches c) -> Reaches (make_controller max seed marginal margin g cold w r)
  | reaches_observe used accepted ms t c : Reaches c -> Reaches (observe used accepted ms t c)
  | reaches_plain ms t c : Reaches c -> Reaches (observe_plain_time ms t c).

Lemma observe_good used accepted ms t c : Good c -> Good (observe used accepted ms t c).
Proof.
  intros Hc. pose proof (good_top c Hc). rewrite observe_prepared. apply settle_good.
  pose proof (clamp_range used 0 (top c) ltac:(lia)). apply prepared_good; [done|done|].
  pose proof (clamp_range accepted 0 (clamp used 0 (top c)) ltac:(lia)). lia.
Qed.

Lemma observe_plain_good ms t c : Good c -> Good (observe_plain_time ms t c).
Proof.
  intros Hc. pose proof (good_top c Hc). pose proof (good_measured c Hc) as Hm.
  unfold observe_plain_time. destruct (_ || _); [done|]. apply good_set_measured; [done|].
  pose proof (age_all_shape _ ms _ Hm) as Ha. destruct t; [|done].
  apply refresh_shape, update_time_shape; [lia|lia|done].
Qed.

Lemma depth_reaches_good c : Reaches c -> Good c.
Proof. induction 1; [by apply make_good|by apply observe_good|by apply observe_plain_good]. Qed.

Lemma known_acceptance_spec a n : known (nth 0 a None) = true ->
  exists i x, (i <= n)%nat /\ nth i a None = Some x /\ known_acceptance a n = x.
Proof.
  intros H0. induction n as [|n (i & x & Hi & Hx & Ek)].
  - destruct (nth 0 a None) as [x|] eqn:E; [|done]. exists 0%nat, x. split; [done|]. split; [done|].
    unfold known_acceptance. by rewrite E.
  - destruct (nth (S n) a None) as [x'|] eqn:E.
    + exists (S n), x'. split; [done|]. split; [done|]. unfold known_acceptance. by rewrite E.
    + exists i, x. split; [lia|]. split; [done|]. rewrite <- Ek.
      change (known_acceptance a (S n)) with
        (match nth (S n) a None, S n with
         | Some x, _ => x | None, O => zero | None, S p => known_acceptance a p end).
      by rewrite E.
Qed.

(** C39: A reachable controller, seeded by any other and fed any depths, counts and times,
    NaN and infinite ones included, is well-formed: every array has the entries the code
    indexes and every ring position is inside its ring, the first acceptance is known, so
    that the search for a known one stays inside the array; the depth it asks for is
    within its maximum, which is at most 5, and within the latency limit of the first
    tokens. *)
Theorem controller_well_formed c : Reaches c ->
  Good c /\ 0 <= depth c <= top c /\ top c <= 5 /\
  (0 < cold_tokens_left (course c) -> depth c <= cold_maximum_depth (course c)) /\
  (forall position, 0 <= position < top c -> exists i x, 0 <= i <= position /\
     at_depth (acceptance (measured c)) i = Some x /\ conditional_acceptance c position = Ok x).
Proof.
  intros Hc%depth_reaches_good. split; [done|]. destruct (good_top c Hc), (good_course c Hc), (good_measured c Hc).
  split; [unfold depth; destruct (0 <? _); lia|]. split; [done|].
  split; [intros Ht; unfold depth; rewrite (proj2 (Z.ltb_lt _ _)) by done; lia|].
  intros position Hp. unfold conditional_acceptance. rewrite (proj2 (Z.ltb_ge _ _)), (proj2 (Z.leb_gt _ _)) by lia.
  cbn [orb]. unfold acceptance_at. assert (exists i x, (i <= Z.to_nat position)%nat /\
    nth i (acceptance (measured c)) None = Some x /\
    known_acceptance (acceptance (measured c)) (Z.to_nat position) = x) as (i & x & Hi & Hx & ->).
  { by apply known_acceptance_spec. }
  exists (Z.of_nat i), x. split; [lia|]. split; [|done]. unfold at_depth. by rewrite Nat2Z.id.
Qed.

(** Cycles at the depth the controller asks for, each timed. *)
Definition follow_cycles (cycles : list (Z * float)) (c : Controller) : Controller :=
  foldl (fun c cycle => observe (depth c) cycle.1 cycle.2 true c) c cycles.

Lemma follow_cons cycle l c :
  follow_cycles (cycle :: l) c = follow_cycles l (observe (depth c) cycle.1 cycle.2 true c).
Proof. unfold follow_cycles. cbn [foldl]. reflexivity. Qed.

(** The warmup is over, or one wide depth is still to be measured. *)
Definition calibrated (c : Controller) : Prop :=
  warmup (course c) = [] \/
  exists d, 2 <= d /\ warmup (course c) = [d] /\ width_needs_measurement c d = true.

(** The next entry of the warmup is the current depth. *)
Definition headed (c : Controller) : Prop :=
  forall d l, warmup (course c) = d :: l -> current_depth (course c) = d.

Definition work_left (c : Controller) : Z := cold_tokens_left (course c) + size_of (warmup (course c)).

Lemma consume_progress rest c :
  Good c -> calibrated (consume_warmup rest c) \/
  (headed (consume_warmup rest c) /\ size_of (warmup (course (consume_warmup rest c))) <= size_of rest /\
   cold_tokens_left (course (consume_warmup rest c)) = cold_tokens_left (course c)).
Proof.
  intros Hc. unfold consume_warmup. cbv zeta. set (l := if _ && _ then _ else rest).
  assert (size_of l <= size_of rest) as Hl.
  { unfold l, size_of. destruct (_ && _); [|done]. destruct (drop_skippable_suffix c rest) as [k ->].
    rewrite length_drop. lia. }
  destruct l as [|next l]; [left|right].
  - match goal with |- context [unmeasured_width ?c2] => set (c1 := c2) end.
    destruct (unmeasured_width c1) as [d|] eqn:Ed; [right|by left].
    unfold unmeasured_width in Ed. destruct (needs_wider_measurement c1); [|done].
    apply List.find_some in Ed as [Hin%list_elem_of_In%elem_of_seqZ Hneed]. exists d.
    split; [lia|]. split; [done|]. exact Hneed.
  - split; [|done]. by intros d l' [= <- <-].
Qed.

Lemma follow_progress accepted ms c :
  Good c -> headed c -> warmup (course c) <> [] ->
  let c' := observe (depth c) accepted ms true c in
  calibrated c' \/ (headed c' /\ work_left c' < work_left c).
Proof.
  intros Hc Hh Hne. pose proof (good_top c Hc). destruct (good_course c Hc) as [Hcur Hw _ _ Htok Hcold].
  assert (0 <= depth c <= top c) as Hd by (unfold depth; destruct (0 <? _); lia).
  cbv zeta. rewrite observe_prepared. rewrite (clamp_id (depth c)) by lia.
  set (a := clamp accepted 0 (depth c)). assert (0 <= a) as Ha by (pose proof (clamp_range accepted 0 (depth c) ltac:(lia)); lia).
  destruct (prepared_course (depth c) a ms true c Hc Ha) as (Es & Ew & Ec & _ & Et).
  pose proof (prepared_good (depth c) a ms true c Hc ltac:(lia) Ha) as Hp.
  set (p := prepared (depth c) a ms true c) in *.
  destruct (warmup (course c)) as [|front rest] eqn:Ewc; [done|]. pose proof (Hh _ _ Ewc) as Hf.
  unfold settle. rewrite Ew. cbn [negb orb]. destruct (depth c =? front) eqn:E; cbn [negb].
  - destruct (consume_progress rest p Hp) as [Hcal|(Hh' & Hl & Ht)]; [by left|right]. split; [done|].
    unfold work_left. rewrite Ht, Et, Ewc. unfold size_of in *. cbn [length]. lia.
  - right. assert (0 < cold_tokens_left (course c)) as Hpos.
    { unfold depth in E. destruct (0 <? _) eqn:E0; lia. }
    split; [intros d l Hdl; rewrite Ec; rewrite Ew in Hdl; by injection Hdl as <- _|].
    unfold work_left. rewrite Et, Ew, Ewc. lia.
Qed.

Lemma follow_calibrates cycles : forall c,
  Good c -> headed c -> work_left c <= Z.of_nat (length cycles) ->
  exists k, (k <= length cycles)%nat /\ calibrated (follow_cycles (take k cycles) c).
Proof.
  induction cycles as [|[a ms] cycles IH]; intros c Hc Hh Hlen.
  - exists 0%nat. split; [done|]. left. cbn. pose proof (sane_tokens _ _ (good_course c Hc)).
    unfold work_left, size_of in Hlen. cbn in Hlen. destruct (warmup (course c)); [done|cbn in Hlen; lia].
  - destruct (decide (warmup (course c) = [])) as [Hnil|Hne].
    { exists 0%nat. split; [lia|]. left. exact Hnil. }
    destruct (follow_progress a ms c Hc Hh Hne) as [Hcal|[Hh' Hlt]].
    + exists 1%nat. split; [cbn; lia|]. rewrite firstn_cons, take_0, follow_cons. exact Hcal.
    + destruct (IH (observe (depth c) a ms true c)) as (k & Hk & Hcal).
      * by apply observe_good.
      * done.
      * cbn [length] in Hlen. lia.
      * exists (S k). split; [cbn; lia|]. rewrite firstn_cons, follow_cons. exact Hcal.
Qed.

Lemma first_warmup_length m g f : 1 <= m <= 5 -> (length (first_warmup m g f) <= 24)%nat.
Proof.
  intros Hm. assert (length (sweep m) <= 5)%nat as Hs by (unfold sweep; rewrite length_reverse, length_seqZ; lia).
  assert (length (seqZ 2 (m - 1)) <= 4)%nat as Hz by (rewrite length_seqZ; lia).
  unfold first_warmup, first_sweep. destruct g, f, (1 <? m); cbn [andb]; rewrite ?length_app; cbn [length]; lia.
Qed.

Lemma make_headed max seed marginal margin g cold w r :
  headed (make_controller max seed marginal margin g cold w r).
Proof.
  unfold headed, make_controller. cbn [course warmup current_depth].
  pose proof (clamp_range max 1 5 ltac:(lia)). destruct (first_sweep_head (clamp max 1 5) g) as (d & l & E); [lia|].
  unfold first_warmup. rewrite E. by intros d' l' [= <- _].
Qed.

(** Calibration ends: whatever it was seeded with and whatever the times and
    acceptances are, a new controller whose depth is followed with timed cycles has left
    its first warmup after at most 72 of them, except for one wide depth it may still
    want to measure. Each cycle consumes an entry of the warmup, of which there are at
    most 24, or one of the 48 tokens of the latency limit. *)
Theorem calibration_ends max seed marginal margin g cold w r cycles :
  (forall c, seed = Some c -> Good c) -> (72 <= length cycles)%nat ->
  exists k, (k <= length cycles)%nat /\
    calibrated (follow_cycles (take k cycles) (make_controller max seed marginal margin g cold w r)).
Proof.
  intros Hseed Hlen. apply follow_calibrates; [by apply make_good|apply make_headed|].
  unfold work_left, make_controller, size_of. cbn [course cold_tokens_left warmup].
  pose proof (first_warmup_length (clamp max 1 5) g (fresh seed) (clamp_range max 1 5 ltac:(lia))).
  destruct (_ && _ && _); lia.
Qed.

(** *** Without a gradual warmup *)

Definition plain_start (c : Controller) : Prop :=
  Good c /\ headed c /\ gradual c = false /\ cold_tokens_left (course c) = 0.

Lemma plain_sample accepted ms front rest c :
  plain_start c -> warmup (course c) = front :: rest ->
  let c' := observe (depth c) accepted ms true c in
  plain_start c' /\ warmup (course c') = rest.
Proof.
  intros (Hc & Hh & Hg & Ht) Ew. cbv zeta. pose proof (observe_good (depth c) accepted ms true c Hc) as Hgood.
  revert Hgood. pose proof (good_top c Hc). pose proof (Hh _ _ Ew) as Hf.
  assert (depth c = front) as Ed by (unfold depth; rewrite Ht; exact Hf).
  pose proof (sane_current _ _ (good_course c Hc)). rewrite observe_prepared, (clamp_id (depth c)) by lia.
  set (a := clamp accepted 0 (depth c)).
  assert (0 <= a) as Ha by (pose proof (clamp_range accepted 0 (depth c) ltac:(lia)); lia).
  destruct (prepared_course (depth c) a ms true c Hc Ha) as (Es & Ew' & _ & _ & Et).
  set (p := prepared (depth c) a ms true c) in *. rewrite Ht in Et. unfold settle. rewrite Ew', Ew, Ed, Z.eqb_refl.
  cbn [negb orb]. assert (gradual p = false) as Hgp by (unfold gradual; by rewrite Es).
  unfold consume_warmup. rewrite Hgp. cbn [andb]. intros Hgood. destruct rest as [|next rest].
  - cbv zeta in *. match goal with |- context [unmeasured_width ?c2] => assert (unmeasured_width c2 = None) as E end.
    { unfold unmeasured_width, needs_wider_measurement. change (gradual (set_course _ _)) with (gradual p).
      by rewrite Hgp. }
    rewrite E in *. split; [|done]. split; [done|]. split; [by intros d l|]. split; [exact Hgp|]. change (cold_tokens_left (course p) = 0). lia.
  - split; [|done]. split; [done|]. split; [by intros d l [= <- <-]|]. split; [exact Hgp|]. change (cold_tokens_left (course p) = 0). lia.
Qed.

Lemma plain_consumed cycles : forall c, plain_start c -> (length cycles <= length (warmup (course c)))%nat ->
  plain_start (follow_cycles cycles c) /\
  warmup (course (follow_cycles cycles c)) = drop (length cycles) (warmup (course c)).
Proof.
  induction cycles as [|[a ms] cycles IH]; intros c Hc Hlen; [by rewrite drop_0|].
  cbn [follow_cycles foldl length]. destruct (warmup (course c)) as [|front rest] eqn:Ew; [cbn in Hlen; lia|].
  destruct (plain_sample a ms front rest c Hc Ew) as [Hc' Ew'].
  destruct (IH (observe (depth c) a ms true c) Hc') as [H1 H2]; [rewrite Ew'; cbn in Hlen; lia|].
  split; [exact H1|]. cbn [drop]. etrans; [exact H2|]. by rewrite Ew'.
Qed.

(** Without a gradual warmup the calibration is a sweep: followed with timed cycles, a
    new controller asks for every width from the greatest down to 1, then, when there is
    more than one, three times for plain decoding and once more for every width; after
    that its warmup is over, whatever the times, the acceptances and the seed. *)
Theorem calibration_sweeps max seed marginal margin cold w r cycles :
  (forall c, seed = Some c -> Good c) ->
  let c := make_controller max seed marginal margin false cold w r in
  let plan := sweep (top c) ++ (if 1 <? top c then [0; 0; 0] ++ sweep (top c) else []) in
  length cycles = length plan ->
  (forall k d, plan !! k = Some d -> depth (follow_cycles (take k cycles) c) = d) /\
  warming_up (follow_cycles cycles c) = false.
Proof.
  intros Hseed c plan Hlen.
  assert (plain_start c) as Hc by (split; [by apply make_good|split; [apply make_headed|done]]).
  assert (warmup (course c) = plan) as Ew.
  { unfold c, plan, make_controller, top, first_warmup. cbn [course warmup settings maximum_depth andb].
    unfold first_sweep. by rewrite !app_nil_r. }
  split.
  - intros k d Hk. pose proof (lookup_lt_Some _ _ _ Hk) as Hlt.
    assert (length (take k cycles) = k) as El by (rewrite length_take; lia).
    destruct (plain_consumed (take k cycles) c Hc) as [(_ & Hh & _ & Ht) Hd]; [rewrite Ew; lia|].
    rewrite El, Ew in Hd. unfold depth. rewrite Ht. cbn. rewrite (drop_S plan d k Hk) in Hd. by apply (Hh _ _ Hd).
  - destruct (plain_consumed cycles c Hc) as [_ Hd]; [rewrite Ew; lia|].
    unfold warming_up. by rewrite Hd, Ew, Hlen, drop_all.
Qed.
End Controller.

(** ** A controller with five cycles *)

Definition some_cycles (n : nat) : list (Z * spec_float) := replicate n (1, fl_of_Z (F := binary64) 20).
Definition no_exp (x : spec_float) : spec_float := x.

Definition cuda_controller : Controller :=
  make_controller (F := binary64) 3 None (fl_of_Z (F := binary64) 7) (fl_lit (F := binary64) 103 100) true
    (fl_of_Z (F := binary64) 60) true true.

Definition followed : Controller := follow_cycles (F := binary64) no_exp (some_cycles 5) cuda_controller.

Lemma controller_well_formed_witness :
  depth followed = 1 /\ top followed = 3 /\ Good followed.
Proof.
  split; [vm_compute; reflexivity|]. split; [vm_compute; reflexivity|].
  apply (controller_well_formed (F := binary64) no_exp followed).
  unfold followed, follow_cycles, some_cycles. cbn [replicate foldl].
  repeat apply reaches_observe. apply reaches_make. discriminate.
Defined.

Lemma calibration_ends_witness :
  exists k, (k <= 72)%nat /\ calibrated (F := binary64)
    (follow_cycles (F := binary64) no_exp (take k (some_cycles 72)) cuda_controller).
Proof.
  apply (calibration_ends (F := binary64) no_exp 3 None (fl_of_Z (F := binary64) 7) (fl_lit (F := binary64) 103 100)
    true (fl_of_Z (F := binary64) 60) true true (some_cycles 72)); [discriminate|].
  vm_compute. lia.
Defined.

Definition sweeping : Controller :=
  make_controller (F := binary64) 3 None (fl_of_Z (F := binary64) 7) (fl_lit (F := binary64) 115 100) false
    (S754_zero false) true true.

Lemma calibration_sweeps_witness :
  depth (follow_cycles (F := binary64) no_exp (take 2 (some_cycles 9)) sweeping) = 1 /\
  warming_up (follow_cycles (F := binary64) no_exp (some_cycles 9) sweeping) = false.
Proof.
  destruct (calibration_sweeps (F := binary64) no_exp 3 None (fl_of_Z (F := binary64) 7)
    (fl_lit (F := binary64) 115 100) (S754_zero false) true true (some_cycles 9)) as [Hd Hw];
    [discriminate|reflexivity|]. split; [|exact Hw]. apply (Hd 2%nat). reflexivity.
Defined.
