(* ===== verification/DepthPolicy.v ===== *)
(** * The depth policy of one request
      ([PolicyState], [ParkState] and [GenerationPolicy] of
      [engine/include/mtp_depth_controller.h])

    A generation drafts with the adaptive controller, with the frozen batch policy, or with
    a controller for block predictors, which is the interface [DepthChooser]. The
    adaptive controller is parked while speculation loses: plain decoding goes on for a
    number of tokens, which doubles when a re-entry fails, then a new controller, seeded
    with the measurements of the old one, gets another chance. What outlives the request is
    the [PolicyState]. Clock readings and the prefill activity of the process are
    arguments; traces are not modelled. *)

From stdpp Require Import base list strings gmap.
From Stdlib Require Import ZArith Lia SpecFloat.
From S2P Require Import Prelude Float BatchPolicy BatchPolicyV1 DepthModel DsparkController DepthController.

#[local] Set Default Proof Using "Type".
Open Scope Z_scope.

(** The template parameter [DsparkController]. *)
Class DepthChooser (C : Type) := {
  chooser_make : Z -> C;
  chooser_depth : C -> Z;
  chooser_maximum : C -> Z;
  chooser_cost : C -> Z -> outcome (option spec_float);
  chooser_observe : Z -> Z -> spec_float -> bool -> C -> C;
}.

#[export] Instance dspark_chooser {F : FloatFormat} (exp : spec_float -> spec_float) :
    DepthChooser DsparkController.Controller := {|
  chooser_make m := DsparkController.make_controller m 2;
  chooser_depth := DsparkController.depth;
  chooser_maximum := DsparkController.maximum_depth;
  chooser_cost := DsparkController.measured_cycle_ms;
  chooser_observe := DsparkController.observe exp;
|}.

Section Policy.
Context {F : FloatFormat} (exp : spec_float -> spec_float) (junk : Z).
(** The options of the environment the controllers read. *)
Context (cost_window cache_resweep : bool).
Context {C : Type} `{Chooser : DepthChooser C}.
Abbreviation float := spec_float.
Abbreviation zero := DepthModel.zero.
Abbreviation one := DepthModel.one.
Abbreviation Controller := DepthController.Controller.

(** [std::chrono::duration<double>(d).count()] of nanoseconds. *)
Definition seconds (d : Z) : float := fl_div (fl_of_Z (s64 d)) (fl_of_Z 1000000000).
Definition milliseconds_of (d : Z) : float := fl_div (fl_of_Z (s64 d)) (fl_of_Z 1000000).

(** ** [PolicyState] *)

Record PolicyState := {
  seed_controller : option Controller;
  batch_memory : Memory;
  loop_tax : option float;
  loop_tax_time : Z;
}.

Definition make_state : PolicyState :=
  {| seed_controller := None; batch_memory := make_memory; loop_tax := None; loop_tax_time := 0 |}.

Definition margin (now : Z) (gradual : bool) (s : PolicyState) : float :=
  let margin := if gradual then fl_lit 103 100 else fl_lit 115 100 in
  match loop_tax s with
  | Some tax =>
      fl_add margin (fl_mul (fl_sub tax margin)
        (exp (fl_div (SFopp (seconds (now - loop_tax_time s))) (fl_of_Z 600))))
  | None => margin
  end.

Definition begin (now maximum_depth : Z) (gradual : bool) (cold_window : float) (s : PolicyState) : Controller :=
  DepthController.make_controller maximum_depth (seed_controller s) (fl_of_Z 7) (margin now gradual s)
    gradual cold_window cost_window cache_resweep.

Definition remember (c : Controller) (s : PolicyState) : PolicyState :=
  {| seed_controller := Some c; batch_memory := batch_memory s; loop_tax := loop_tax s;
     loop_tax_time := loop_tax_time s |}.
Definition on_memory (f : Memory -> Memory) (s : PolicyState) : PolicyState :=
  {| seed_controller := seed_controller s; batch_memory := f (batch_memory s); loop_tax := loop_tax s;
     loop_tax_time := loop_tax_time s |}.

(** The usual time of plain cycles: their mean, or their upper median. *)
Definition normal_time (samples : list float) (periodic_mean : bool) : option float :=
  if periodic_mean then
    if forallb (fun x => fl_finite x && fl_ltb zero x) samples
    then Some (fl_div (foldl fl_add zero samples) (fl_of_Z (size_of samples))) else None
  else Some (nth (length samples / 2) (stable_sort fl_ltb samples) zero).

Definition record_loop_tax (now : Z) (recent : bool) (baseline_ms : float) (samples : list float)
    (periodic_mean : bool) (s : PolicyState) : PolicyState :=
  if fl_leb baseline_ms zero || (size_of samples <? 8) || recent then s
  else
    match normal_time samples periodic_mean with
    | None => s
    | Some normal =>
        if fl_leb normal zero then s
        else
          let tax := fl_clamp (fl_div baseline_ms normal) one (fl_lit 15 10) in
          let tax := match loop_tax s with
                     | Some old => fl_add (fl_mul (fl_lit 5 10) old) (fl_mul (fl_lit 5 10) tax)
                     | None => tax
                     end in
          {| seed_controller := seed_controller s; batch_memory := batch_memory s; loop_tax := Some tax;
             loop_tax_time := now |}
    end.

(** ** [ParkState] *)

Record ParkState := {
  is_parked : bool;
  reentry : bool;
  cooldown_tokens : Z;
  tokens_remaining : Z;
  tax_skip : Z;
  baseline_ms : float;
  tax_samples : list float;
}.

Definition make_park : ParkState :=
  {| is_parked := false; reentry := false; cooldown_tokens := 128; tokens_remaining := 128; tax_skip := 2;
     baseline_ms := zero; tax_samples := [] |}.

Definition enter_park (recent : bool) (c : Controller) (p : ParkState) : ParkState :=
  let cooldown := if reentry p then Z.min 4096 (cooldown_tokens p * 2) else cooldown_tokens p in
  {| is_parked := true; reentry := false; cooldown_tokens := cooldown; tokens_remaining := cooldown; tax_skip := 2;
     baseline_ms := if recent then zero
                    else default zero (at_depth (cycle_ms (measured c)) 0);
     tax_samples := [] |}.

(** A plain cycle counts a token; after two, eight samples measure the tax. *)
Definition park_observe_plain (now : Z) (recent : bool) (ms : float) (time_sample periodic_mean : bool)
    (ps : ParkState * PolicyState) : ParkState * PolicyState :=
  let '(p, s) := ps in
  let count b k l := {| is_parked := is_parked p; reentry := reentry p; cooldown_tokens := cooldown_tokens p;
                        tokens_remaining := Z.max 0 (tokens_remaining p - 1); tax_skip := k; baseline_ms := b;
                        tax_samples := l |} in
  if negb time_sample then (count zero (tax_skip p) (tax_samples p), s)
  else if 0 <? tax_skip p then (count (baseline_ms p) (tax_skip p - 1) (tax_samples p), s)
  else if 8 <=? size_of (tax_samples p) then (count (baseline_ms p) (tax_skip p) (tax_samples p), s)
  else
    let samples := tax_samples p ++ [ms] in
    (count (baseline_ms p) (tax_skip p) samples,
     if size_of samples =? 8 then record_loop_tax now recent (baseline_ms p) samples periodic_mean s else s).

Definition probe_ready (recent : bool) (p : ParkState) : bool :=
  is_parked p && (tokens_remaining p <=? 0) && negb recent.

Definition begin_probe (p : ParkState) : ParkState :=
  {| is_parked := false; reentry := true; cooldown_tokens := cooldown_tokens p;
     tokens_remaining := tokens_remaining p; tax_skip := tax_skip p; baseline_ms := baseline_ms p;
     tax_samples := tax_samples p |}.

Definition probe_succeeded (p : ParkState) : ParkState :=
  {| is_parked := is_parked p; reentry := false; cooldown_tokens := 128; tokens_remaining := tokens_remaining p;
     tax_skip := tax_skip p; baseline_ms := baseline_ms p; tax_samples := tax_samples p |}.

(** ** [GenerationPolicy] *)

(** Exactly one of [batch_], [dspark_] and [controller_] is engaged. *)
Inductive Chooses :=
  | ByBatch (p : BatchPolicyV1.Policy)
  | ByBlocks (d : C)
  | Adaptive (c : Controller).

Record GenerationPolicy := {
  state : PolicyState;
  is_gradual : bool;
  chooses : Chooses;
  seeded_batch_park : bool;
  park : ParkState;
  park_count : Z;
  reentry_count : Z;
}.

Definition set_chooses (x : Chooses) (g : GenerationPolicy) : GenerationPolicy :=
  {| state := state g; is_gradual := is_gradual g; chooses := x; seeded_batch_park := seeded_batch_park g;
     park := park g; park_count := park_count g; reentry_count := reentry_count g |}.
Definition set_state (s : PolicyState) (g : GenerationPolicy) : GenerationPolicy :=
  {| state := s; is_gradual := is_gradual g; chooses := chooses g; seeded_batch_park := seeded_batch_park g;
     park := park g; park_count := park_count g; reentry_count := reentry_count g |}.
Definition set_park (p : ParkState) (parks reentries : Z) (g : GenerationPolicy) : GenerationPolicy :=
  {| state := state g; is_gradual := is_gradual g; chooses := chooses g; seeded_batch_park := seeded_batch_park g;
     park := p; park_count := parks; reentry_count := reentries |}.

Definition batch_request : list string := ["cuda-mtp"%string].

Definition make_policy (now maximum_depth : Z) (dspark : bool) (s : PolicyState) (gradual metal_batch : bool)
    : GenerationPolicy :=
  let x :=
    if dspark then ByBlocks (chooser_make maximum_depth)
    else if metal_batch then
      ByBatch (seed (batch_memory s) (BatchPolicyV1.make_policy batch_request maximum_depth 0))
    else Adaptive (begin now maximum_depth gradual (if gradual then fl_of_Z 60 else zero) s) in
  {| state := s; is_gradual := gradual; chooses := x;
     seeded_batch_park := match x with ByBatch p => negb (BatchPolicyV1.remaining p =? 0) | _ => false end;
     park := make_park; park_count := 0; reentry_count := 0 |}.

(** The destructor: what the state keeps. *)
Definition finish_policy (g : GenerationPolicy) : PolicyState :=
  match chooses g with
  | Adaptive c => remember c (state g)
  | ByBatch p => on_memory (retired p) (state g)
  | ByBlocks _ => state g
  end.

Definition depth (g : GenerationPolicy) : Z :=
  match chooses g with
  | ByBatch p => BatchPolicyV1.depth p
  | ByBlocks d => chooser_depth d
  | Adaptive c => if is_parked (park g) then 0 else DepthController.depth c
  end.

Definition maximum_depth (g : GenerationPolicy) : Z :=
  match chooses g with
  | ByBatch p => BatchPolicyV1.maximum p
  | ByBlocks d => chooser_maximum d
  | Adaptive c => top c
  end.

Definition parked (g : GenerationPolicy) : bool :=
  match chooses g with
  | ByBatch p => negb (BatchPolicyV1.remaining p =? 0)
  | ByBlocks _ => false
  | Adaptive _ => is_parked (park g)
  end.

Definition dspark (g : GenerationPolicy) : bool := match chooses g with ByBlocks _ => true | _ => false end.

Definition measured_cycle_ms (g : GenerationPolicy) (depth : Z) : outcome (option float) :=
  match chooses g with
  | ByBatch p => BatchPolicyV1.cost p depth
  | ByBlocks d => chooser_cost d depth
  | Adaptive c => DepthController.measured_cycle_ms c depth
  end.

Definition parks (g : GenerationPolicy) : Z :=
  match chooses g with
  | ByBatch p => u64 (BatchPolicyV1.parks p + (if seeded_batch_park g then 1 else 0))
  | _ => park_count g
  end.
Definition reentries (g : GenerationPolicy) : Z := reentry_count g.

Definition observe_batch (p : BatchPolicyV1.Policy) (used accepted start finish : Z) (valid : bool)
    (g : GenerationPolicy) : outcome GenerationPolicy :=
  let g := set_state (on_memory tick (state g)) g in
  p' ← BatchPolicyV1.observe used [accepted] start finish valid false p;
  let resumed := negb (BatchPolicyV1.remaining p =? 0) && (BatchPolicyV1.remaining p' =? 0) in
  let g := set_chooses (ByBatch p') g in
  let g := set_park (park g) (park_count g)
    (if resumed then u64 (reentry_count g + 1) else reentry_count g) g in
  Ok (if BatchPolicyV1.parks p' =? BatchPolicyV1.parks p then g
      else set_state (on_memory (BatchPolicy.parked p') (state g)) g).

(** A cycle of the adaptive controller; [recent] is the prefill activity. *)
Definition observe_adaptive (c : Controller) (used accepted : Z) (ms : float) (time_sample recent : bool)
    (g : GenerationPolicy) : GenerationPolicy :=
  let c' := DepthController.observe exp used accepted ms time_sample c in
  let g := set_chooses (Adaptive c') g in
  let g :=
    if reentry (park g) && negb (warming_up c) && negb (warming_up c') && negb (speculation_losing c')
    then set_park (probe_succeeded (park g)) (park_count g) (reentry_count g) g else g in
  if should_exit c' then
    set_park (enter_park recent c' (park g)) (u64 (park_count g + 1)) (reentry_count g)
      (set_state (remember c' (state g)) g)
  else g.

(** [observe] and [observe_window]: the batch policy reads the clock, [finish], and takes
    back the elapsed time. *)
Definition observe_window (used accepted start finish : Z) (time_sample recent : bool) (g : GenerationPolicy)
    : outcome GenerationPolicy :=
  match chooses g with
  | ByBatch p => observe_batch p used accepted start finish time_sample g
  | ByBlocks d =>
      Ok (set_chooses (ByBlocks (chooser_observe used accepted (milliseconds_of (finish - start)) time_sample d)) g)
  | Adaptive c => Ok (observe_adaptive c used accepted (milliseconds_of (finish - start)) time_sample recent g)
  end.

Definition nanoseconds (ms : float) : Z := fl_to_int 64 junk (fl_mul ms (fl_of_Z 1000000)).

Definition observe (used accepted : Z) (ms : float) (time_sample recent : bool) (now : Z) (g : GenerationPolicy)
    : outcome GenerationPolicy :=
  match chooses g with
  | ByBatch p => observe_batch p used accepted (s64 (now - nanoseconds ms)) now time_sample g
  | ByBlocks d => Ok (set_chooses (ByBlocks (chooser_observe used accepted ms time_sample d)) g)
  | Adaptive c => Ok (observe_adaptive c used accepted ms time_sample recent g)
  end.

(** A plain cycle: [recent_tax] and [recent_probe] are the prefill activity when the tax
    is recorded and when the probe is considered. *)
Definition observe_plain_cycle (ms : float) (time_sample recent_tax recent_probe : bool) (now : Z)
    (g : GenerationPolicy) : GenerationPolicy :=
  let g := match chooses g with
           | Adaptive c =>
               if is_parked (park g) then set_chooses (Adaptive (observe_plain_time exp ms time_sample c)) g else g
           | _ => g
           end in
  let '(p, s) := park_observe_plain now recent_tax ms time_sample (is_gradual g) (park g, state g) in
  let g := set_park p (park_count g) (reentry_count g) (set_state s g) in
  match chooses g with
  | Adaptive c =>
      if probe_ready recent_probe (park g) then
        let g := set_state (remember c (state g)) g in
        let g := set_chooses (Adaptive (begin now (top c) (is_gradual g) zero (state g))) g in
        set_park (begin_probe (park g)) (park_count g) (u64 (reentry_count g + 1)) g
      else g
  | _ => g
  end.

Definition observe_plain (ms : float) (time_sample recent_tax recent_probe : bool) (now : Z) (g : GenerationPolicy)
    : outcome GenerationPolicy :=
  match chooses g with
  | ByBatch p => observe_batch p 0 0 (s64 (now - nanoseconds ms)) now time_sample g
  | _ => Ok (observe_plain_cycle ms time_sample recent_tax recent_probe now g)
  end.

Definition observe_plain_window (start finish : Z) (time_sample recent_tax recent_probe : bool) (now : Z)
    (g : GenerationPolicy) : outcome GenerationPolicy :=
  match chooses g with
  | ByBatch p => observe_batch p 0 0 start finish time_sample g
  | _ => Ok (observe_plain_cycle (milliseconds_of (finish - start)) time_sample recent_tax recent_probe now g)
  end.

(** ** Properties *)

Record Parks (p : ParkState) : Prop := {
  parks_cooldown : 128 <= cooldown_tokens p <= 4096;
  parks_remaining : 0 <= tokens_remaining p <= cooldown_tokens p \/ is_parked p = false;
  parks_skip : 0 <= tax_skip p <= 2;
  parks_samples : size_of (tax_samples p) <= 8;
  parks_fresh : is_parked p = true -> reentry p = false;
}.

(** A policy over the adaptive controller. *)
Record Good (g : GenerationPolicy) : Prop := {
  good_controller : exists c, chooses g = Adaptive c /\ DepthController.Good c;
  good_seed : forall c, seed_controller (state g) = Some c -> DepthController.Good c;
  good_park : Parks (park g);
  good_counts : park_count g = u64 (reentry_count g + (if is_parked (park g) then 1 else 0));
}.

(** The generation loop observes plain cycles exactly while the policy is parked. *)
Inductive Reaches : GenerationPolicy -> Prop :=
  | reaches_make now m s gradual :
      (forall c, seed_controller s = Some c -> DepthController.Good c) ->
      Reaches (make_policy now m false s gradual false)
  | reaches_window used accepted start finish t recent g g' :
      Reaches g -> parked g = false -> observe_window used accepted start finish t recent g = Ok g' -> Reaches g'
  | reaches_plain start finish t r1 r2 now g g' :
      Reaches g -> parked g = true -> observe_plain_window start finish t r1 r2 now g = Ok g' -> Reaches g'.

Lemma new_policy_good now m s gradual :
  (forall c, seed_controller s = Some c -> DepthController.Good c) -> Good (make_policy now m false s gradual false).
Proof.
  intros Hs. constructor; cbn [make_policy chooses state park park_count reentry_count].
  - eexists. split; [done|]. by apply make_good.
  - done.
  - constructor; cbn; unfold size_of; cbn; try lia; done.
  - by vm_compute.
Qed.

Lemma observe_adaptive_good c used accepted ms t recent g :
  Good g -> chooses g = Adaptive c -> is_parked (park g) = false ->
  Good (observe_adaptive c used accepted ms t recent g).
Proof.
  intros [(c0 & Ec & Hc) Hseed Hp Hn] E Hpark. rewrite E in Ec. injection Ec as <-.
  unfold observe_adaptive. cbv zeta. set (c' := DepthController.observe exp used accepted ms t c).
  assert (DepthController.Good c') as Hc' by by apply observe_good.
  set (g1 := set_chooses (Adaptive c') g).
  set (g2 := if _ && _ && _ && _ then _ else g1).
  assert (Good g2 /\ is_parked (park g2) = false /\ chooses g2 = Adaptive c') as (H2 & Hpark2 & E2).
  { assert (Good g1) as H1 by (constructor; try done; by exists c').
    unfold g2. destruct (_ && _ && _ && _); [|done]. split; [|done].
    constructor; [by exists c'|done| |exact Hn]. destruct Hp. constructor; cbn; try done; try lia.
    by right. }
  clearbody g2. destruct (should_exit c'); [|done]. destruct H2 as [_ Hseed2 [Hcool _ _ _ _] Hn2].
  constructor; cbn [set_park set_state chooses state park park_count reentry_count remember seed_controller].
  - exists c'. split; [exact E2|done].
  - by intros ? [= <-].
  - constructor; cbn [enter_park cooldown_tokens tokens_remaining is_parked reentry tax_skip tax_samples]; try done.
    + destruct (reentry _); lia.
    + left. destruct (reentry _); lia.
  - cbn [enter_park is_parked]. rewrite Hn2, Hpark2, Z.add_0_r. by rewrite u64_add_l.
Qed.

Lemma tax_seed now recent b samples periodic s :
  seed_controller (record_loop_tax now recent b samples periodic s) = seed_controller s.
Proof.
  unfold record_loop_tax. destruct (_ || _); [done|]. destruct (normal_time _ _); [|done]. by destruct (fl_leb _ _).
Qed.

(** What a plain cycle does to the park. *)
Lemma park_plain now recent ms t periodic p s :
  let r := park_observe_plain now recent ms t periodic (p, s) in
  is_parked r.1 = is_parked p /\ reentry r.1 = reentry p /\ cooldown_tokens r.1 = cooldown_tokens p /\
  tokens_remaining r.1 = Z.max 0 (tokens_remaining p - 1) /\
  seed_controller r.2 = seed_controller s /\ (Parks p -> Parks r.1).
Proof.
  assert (forall b k l, 0 <= k <= 2 -> size_of l <= 8 ->
    Parks p -> Parks {| is_parked := is_parked p; reentry := reentry p; cooldown_tokens := cooldown_tokens p;
                        tokens_remaining := Z.max 0 (tokens_remaining p - 1); tax_skip := k; baseline_ms := b;
                        tax_samples := l |}) as Hk.
  { intros b k l Hk Hl []. constructor; cbn; try done. destruct parks_remaining0; [left; lia|by right]. }
  unfold park_observe_plain. cbv zeta. destruct t; cbn [negb].
  2: { do 5 (split; [done|]). intros HP. destruct (HP) as []. by apply Hk. }
  destruct (0 <? tax_skip p) eqn:E1.
  { do 5 (split; [done|]). intros HP. destruct (HP) as []. apply Hk; [lia|done|done]. }
  destruct (8 <=? size_of (tax_samples p)) eqn:E2.
  { do 5 (split; [done|]). intros HP. destruct (HP) as []. by apply Hk. }
  do 4 (split; [done|]). cbn [snd]. split; [destruct (_ =? 8); [apply tax_seed|done]|].
  intros HP. destruct (HP) as []. apply Hk; [done| |done]. unfold size_of in *. rewrite length_app. cbn. lia.
Qed.

(** The plain cycle of a parked policy, in terms of its parts. *)
Lemma plain_cycle c ms t r1 r2 now g :
  chooses g = Adaptive c -> is_parked (park g) = true -> DepthController.Good c ->
  let g' := observe_plain_cycle ms t r1 r2 now g in
  let left := Z.max 0 (tokens_remaining (park g) - 1) in
  (forall c, seed_controller (state g) = Some c -> DepthController.Good c) ->
  (forall c, seed_controller (state g') = Some c -> DepthController.Good c) /\ (Parks (park g) -> Parks (park g')) /\
  cooldown_tokens (park g') = cooldown_tokens (park g) /\ park_count g' = park_count g /\
  if (left <=? 0) && negb r2 then
    is_parked (park g') = false /\ reentry (park g') = true /\ reentry_count g' = u64 (reentry_count g + 1) /\
    exists c', chooses g' = Adaptive c' /\ DepthController.Good c' /\ warming_up c' = true /\ top c' = top c
  else
    is_parked (park g') = true /\ reentry_count g' = reentry_count g /\ tokens_remaining (park g') = left /\
    exists c', chooses g' = Adaptive c' /\ DepthController.Good c' /\ top c' = top c.
Proof.
  intros E Hpark Hc g' left Hseed. unfold g', observe_plain_cycle. rewrite E, Hpark. cbv zeta.
  set (c1 := observe_plain_time exp ms t c). assert (DepthController.Good c1) as H1 by by apply observe_plain_good.
  assert (top c1 = top c) as Et.
  { unfold c1, observe_plain_time. by destruct (_ || _). }
  cbn [set_chooses park state is_gradual park_count reentry_count].
  destruct (park_plain now r1 ms t (is_gradual g) (park g) (state g)) as (Ep & Er & Ecool & Etok & Es & Hparks).
  destruct (park_observe_plain now r1 ms t (is_gradual g) (park g, state g)) as [p s]. cbn [fst snd] in *.
  cbn [set_park set_state set_chooses chooses park state park_count reentry_count is_gradual].
  unfold probe_ready. rewrite Ep, Hpark, Etok. cbn [andb]. fold left. destruct ((left <=? 0) && negb r2) eqn:Eready.
  - cbn [set_park set_state set_chooses chooses park state park_count reentry_count is_gradual remember seed_controller
      begin_probe is_parked reentry cooldown_tokens].
    assert (DepthController.Good (begin now (top c1) (is_gradual g) zero (remember c1 s))) as H2
      by (apply make_good; by intros ? [= <-]).
    split; [by intros ? [= <-]|]. split.
    { intros HP. destruct (Hparks HP). constructor; cbn; try done. by right. }
    split; [done|]. split; [done|]. split; [done|]. split; [done|]. split; [done|].
    eexists. split; [done|]. split; [done|]. split.
    + unfold begin, make_controller, warming_up. cbn [course warmup]. unfold first_warmup.
      destruct (first_sweep_head (clamp (top c1) 1 5) (is_gradual g)) as (d & l & Eh).
      { pose proof (clamp_range (top c1) 1 5 ltac:(lia)). lia. }
      by rewrite Eh.
    + rewrite <- Et. unfold begin, make_controller, top. cbn [settings DepthController.maximum_depth].
      apply clamp_id, (good_top c1 H1).
  - split; [intros c2 Hc2; apply Hseed; rewrite <- Es; exact Hc2|]. split; [done|]. split; [done|]. split; [done|].
    split; [exact (eq_trans Ep Hpark)|]. split; [done|]. split; [exact Etok|]. by exists c1.
Qed.

Lemma window_good used accepted start finish t recent g g' :
  Good g -> parked g = false -> observe_window used accepted start finish t recent g = Ok g' -> Good g'.
Proof.
  intros Hg Hpark. destruct (good_controller g Hg) as (c & Ec & _). unfold observe_window, parked in *.
  rewrite Ec in *. intros [= <-]. by apply observe_adaptive_good.
Qed.

Lemma plain_good start finish t r1 r2 now g g' :
  Good g -> parked g = true -> observe_plain_window start finish t r1 r2 now g = Ok g' -> Good g'.
Proof.
  intros Hg Hpark. destruct (good_controller g Hg) as (c & Ec & Hc). unfold observe_plain_window, parked in *.
  rewrite Ec in *. intros [= <-].
  destruct (plain_cycle c (milliseconds_of (finish - start)) t r1 r2 now g Ec Hpark Hc (good_seed g Hg))
    as (Hseed & Hp & _ & Hn & Hcase). pose proof (good_counts g Hg) as Hcounts. rewrite Hpark in Hcounts.
  destruct ((_ <=? 0) && negb r2).
  - destruct Hcase as (Hpk & _ & Hr & c' & E' & Hc' & _). constructor.
    + by exists c'.
    + exact Hseed.
    + apply Hp, Hg.
    + rewrite Hn, Hpk, Hr, Hcounts, Z.add_0_r. unfold u64. by rewrite Zmod_mod.
  - destruct Hcase as (Hpk & Hr & _ & c' & E' & Hc' & _). constructor.
    + by exists c'.
    + exact Hseed.
    + apply Hp, Hg.
    + by rewrite Hn, Hpk, Hr.
Qed.

(** A generation policy that the loop observes as it should drafts within its bounds:
    its depth is between 0 and its maximum and 0 while it is parked; its park lasts
    between 128 and 4096 tokens; and the parks outnumber the re-entries by one while it
    is parked and equal them otherwise. *)
Theorem policy_within_bounds g : Reaches g ->
  0 <= depth g <= maximum_depth g /\ 1 <= maximum_depth g <= 5 /\ (parked g = true -> depth g = 0) /\
  128 <= cooldown_tokens (park g) <= 4096 /\
  (parked g = true -> 0 <= tokens_remaining (park g) <= cooldown_tokens (park g)) /\
  parks g = u64 (reentries g + (if parked g then 1 else 0)).
Proof.
  intros Hr. assert (Good g) as Hg.
  { induction Hr; [by apply new_policy_good|by eapply window_good|by eapply plain_good]. }
  destruct (good_controller g Hg) as (c & Ec & Hc). destruct (good_park g Hg) as [Hcool Hrem _ _ _].
  pose proof (good_top c Hc) as Ht. pose proof (sane_current _ _ (good_course c Hc)).
  pose proof (sane_cold _ _ (good_course c Hc)). pose proof (good_counts g Hg) as Hn.
  unfold depth, maximum_depth, parked, parks, reentries. rewrite Ec.
  assert (0 <= DepthController.depth c <= top c) as Hd by (unfold DepthController.depth; destruct (0 <? _); lia).
  split; [destruct (is_parked (park g)); lia|]. split; [done|]. split; [by intros ->|]. split; [done|].
  split; [|exact Hn]. intros Hp. rewrite Hp in Hrem. by destruct Hrem.
Qed.

(** Plain cycles: elapsed time, validity, activity at the tax and at the probe, clock. *)
Definition plain_cycles (l : list (float * bool * bool * bool * Z)) (g : GenerationPolicy) : GenerationPolicy :=
  foldl (fun g x => let '(ms, t, r1, r2, now) := x in observe_plain_cycle ms t r1 r2 now g) g l.

Lemma plain_cycles_snoc l x g : plain_cycles (l ++ [x]) g = plain_cycles [x] (plain_cycles l g).
Proof. unfold plain_cycles. by rewrite foldl_app. Qed.

Lemma plain_cycles_parked l : forall c g, chooses g = Adaptive c -> is_parked (park g) = true ->
  DepthController.Good c -> (forall c, seed_controller (state g) = Some c -> DepthController.Good c) ->
  size_of l < tokens_remaining (park g) ->
  let g' := plain_cycles l g in
  is_parked (park g') = true /\ reentry_count g' = reentry_count g /\
  tokens_remaining (park g') = tokens_remaining (park g) - size_of l /\
  (forall c, seed_controller (state g') = Some c -> DepthController.Good c) /\
  exists c', chooses g' = Adaptive c' /\ DepthController.Good c' /\ top c' = top c.
Proof.
  unfold size_of. induction l as [|[[[[ms t] r1] r2] now] l IH]; intros c g Ec Hp Hc Hseed Hlen.
  { cbn. do 2 (split; [done|]). split; [lia|]. split; [done|]. by exists c. }
  cbn [plain_cycles foldl length] in *.
  destruct (plain_cycle c ms t r1 r2 now g Ec Hp Hc Hseed) as (Hseed' & _ & _ & _ & Hcase).
  rewrite (proj2 (Z.leb_gt _ 0)) in Hcase by lia. cbn [andb] in Hcase.
  destruct Hcase as (Hp' & Hr' & Ht' & c' & Ec' & Hc' & Et').
  destruct (IH c' _ Ec' Hp' Hc' Hseed') as (H1 & H2 & H3 & H4 & c2 & H5 & H6 & H7); [lia|].
  split; [exact H1|]. split; [etrans; [exact H2|done]|]. split; [etrans; [exact H3|lia]|]. split; [exact H4|].
  exists c2. split; [exact H5|]. split; [done|]. by rewrite H7.
Qed.

(** A park ends: with [n] tokens left the policy asks for plain decoding for the next
    [n - 1] plain cycles, and after one more, once no prefill is recent, it re-enters with
    a new controller, of the same maximum, that warms up. *)
Theorem park_ends c g l ms t r1 now :
  Good g -> chooses g = Adaptive c -> parked g = true -> tokens_remaining (park g) = size_of l + 1 ->
  (forall k, depth (plain_cycles (take k l) g) = 0 /\ parked (plain_cycles (take k l) g) = true) /\
  let g' := plain_cycles (l ++ [(ms, t, r1, false, now)]) g in
  parked g' = false /\ reentries g' = u64 (reentries g + 1) /\
  exists c', chooses g' = Adaptive c' /\ warming_up c' = true /\ top c' = top c.
Proof.
  intros Hg Ec Hp Hn. assert (is_parked (park g) = true) as Hpark by (unfold parked in Hp; by rewrite Ec in Hp).
  destruct (good_controller g Hg) as (c0 & Ec0 & Hc). rewrite Ec in Ec0. injection Ec0 as <-.
  pose proof (good_seed g Hg) as Hseed. split.
  - intros k. assert (size_of (take k l) < tokens_remaining (park g)) as Hlt
      by (unfold size_of in *; rewrite length_take; lia).
    destruct (plain_cycles_parked (take k l) c g Ec Hpark Hc Hseed Hlt) as (Hp' & _ & _ & _ & c' & Ec' & _).
    unfold depth, parked. by rewrite Ec', Hp'.
  - destruct (plain_cycles_parked l c g Ec Hpark Hc Hseed) as (Hp' & Hr' & Ht' & Hseed' & c' & Ec' & Hc' & Et');
      [lia|]. rewrite plain_cycles_snoc. set (g1 := plain_cycles l g) in *. cbn [plain_cycles foldl].
    destruct (plain_cycle c' ms t r1 false now g1 Ec' Hp' Hc' Hseed') as (_ & _ & _ & _ & Hcase).
    rewrite (proj2 (Z.leb_le _ 0)) in Hcase by lia. cbn [andb negb] in Hcase.
    destruct Hcase as (Hp2 & _ & Hr2 & c2 & Ec2 & _ & Hw2 & Et2).
    unfold parked, reentries. rewrite Ec2. split; [exact Hp2|]. split; [by rewrite Hr2, Hr'|].
    exists c2. split; [done|]. split; [done|]. congruence.
Qed.
End Policy.

(** ** A policy that has parked *)

Definition test_exp (x : spec_float) : spec_float := x.

Definition fresh_policy : GenerationPolicy (C := DsparkController.Controller) :=
  make_policy (F := binary64) (Chooser := dspark_chooser test_exp) test_exp true true 0 3 false make_state true false.

(** Parked by hand with three tokens left. *)
Definition parked_policy : GenerationPolicy (C := DsparkController.Controller) :=
  set_park {| is_parked := true; reentry := false; cooldown_tokens := 128; tokens_remaining := 3; tax_skip := 2;
              baseline_ms := DepthModel.zero; tax_samples := [] |} 1 0 fresh_policy.

Definition ten_ms : spec_float := fl_of_Z (F := binary64) 10.
Definition two_plain : list (spec_float * bool * bool * bool * Z) :=
  [(ten_ms, true, false, false, 1); (ten_ms, true, false, false, 2)].

Lemma policy_within_bounds_witness :
  depth (Chooser := dspark_chooser (F := binary64) test_exp) fresh_policy = 1 /\
  128 <= cooldown_tokens (park fresh_policy) <= 4096.
Proof.
  split; [vm_compute; reflexivity|].
  apply (policy_within_bounds (F := binary64) test_exp true true (Chooser := dspark_chooser (F := binary64) test_exp) fresh_policy).
  apply reaches_make. discriminate.
Defined.

Lemma fresh_adaptive : exists c, chooses fresh_policy = Adaptive c /\ DepthController.Good c.
Proof. eexists. split; [reflexivity|]. apply make_good. discriminate. Qed.

Lemma parked_good : Good parked_policy.
Proof.
  destruct fresh_adaptive as (c & Ec & Hc). constructor.
  - by exists c.
  - discriminate.
  - constructor; cbn; unfold size_of; cbn; try lia; done.
  - by vm_compute.
Qed.

Definition three_cycles (g : GenerationPolicy (C := DsparkController.Controller)) :
    GenerationPolicy (C := DsparkController.Controller) :=
  plain_cycles (F := binary64) test_exp true true (two_plain ++ [(ten_ms, true, false, false, 3)]) g.

Lemma park_ends_witness :
  parked (three_cycles parked_policy) = false /\ reentries (three_cycles parked_policy) = 1.
Proof.
  destruct (chooses parked_policy) as [p|d|c] eqn:Ec; [discriminate Ec|discriminate Ec|].
  destruct (park_ends (F := binary64) test_exp true true (Chooser := dspark_chooser (F := binary64) test_exp)
    c parked_policy two_plain ten_ms true false 3) as [_ (Hp & Hr & _)].
  - exact parked_good.
  - exact Ec.
  - reflexivity.
  - reflexivity.
  - split; [exact Hp|]. etrans; [exact Hr|]. vm_compute. reflexivity.
Defined.
