(* ===== verification/Grammar.v ===== *)
(** * The grammar matcher ([components/tokenizer/src/mfq_grammar.{h,cpp}])

    A grammar is a list of rules, each a flat array of elements; matching keeps a
    set of pushdown stacks of pointers into the rules. A pointer is a pair of a
    rule and an offset, a stack is listed from its top. The regular expressions of
    the triggers and the vocabulary are parameters. *)

From stdpp Require Import base list strings.
From Stdlib Require Import ZArith Lia.
From S2P Require Import Prelude.

#[local] Set Default Proof Using "Type".
Open Scope Z_scope.

(** ** Runs

    [GGML_ABORT], a failed [GGML_ASSERT] and a read outside a rule end the program;
    the search of [advance_stack] need not end and takes fuel. *)

Inductive run (A : Type) : Type :=
  | Done (a : A)
  | Abort
  | OutOfFuel.
Arguments Done {A} a.
Arguments Abort {A}.
Arguments OutOfFuel {A}.

#[export] Instance run_ret : MRet run := fun A a => Done a.
#[export] Instance run_bind : MBind run := fun A B k m =>
  match m with
  | Done a => k a
  | Abort => Abort
  | OutOfFuel => OutOfFuel
  end.

(** A loop that updates an accumulator. *)
Definition run_fold {A B} (f : B -> A -> run B) (l : list A) (b : B) : run B :=
  foldl (fun acc a => b ← acc; f b a) (Done b) l.

(** ** Grammars *)

Inductive gretype :=
  | END | ALT | RULE_REF | CHAR | CHAR_NOT | CHAR_RNG_UPPER | CHAR_ALT | CHAR_ANY | TOKEN | TOKEN_NOT.

#[export] Instance gretype_eq_dec : EqDecision gretype.
Proof. solve_decision. Defined.

(** [value] is a [uint32_t]: a code point, a rule or a token. *)
Record element := { type : gretype; value : Z }.

#[export] Instance element_eq_dec : EqDecision element.
Proof. solve_decision. Defined.

Abbreviation rule := (list element).
Abbreviation rules := (list rule).
Abbreviation pos := (nat * nat)%type.
Abbreviation stack := (list pos).

Record partial_utf8 := { partial_value : Z; n_remain : Z }.

Definition u32 (z : Z) : Z := z mod 2 ^ 32.

(** The elements from a pointer on. *)
Definition elements_at (g : rules) (p : pos) : list element :=
  match g !! p.1 with Some r => drop p.2 r | None => [] end.

Definition element_at (g : rules) (p : pos) : run element :=
  match elements_at g p with e :: _ => Done e | [] => Abort end.

Definition forward (n : nat) (p : pos) : pos := (p.1, (p.2 + n)%nat).

(** ** UTF-8 *)

Definition utf8_lookup (highbits : Z) : Z :=
  nth (Z.to_nat highbits) [1; 1; 1; 1; 1; 1; 1; 1; 0; 0; 0; 0; 2; 2; 3; 4] 0.

(** One more continuation byte. *)
Definition push_bits (value byte : Z) : Z := u32 (Z.shiftl value 6 + Z.land byte 63).

(** The continuation of the previous piece: [None] on an invalid byte. *)
Fixpoint continue_decode (src : list Z) (value n : Z) : option (list Z * Z * Z) :=
  match src with
  | [] => Some ([], value, n)
  | b :: src' =>
      if n <=? 0 then Some (src, value, n)
      else if negb (Z.shiftr b 6 =? 2) then None
      else continue_decode src' (push_bits value b) (n - 1)
  end.

(** Up to [n] more bytes of a sequence, whatever they are. *)
Fixpoint take_continuation (src : list Z) (value n : Z) : list Z * Z * Z :=
  match src with
  | [] => ([], value, n)
  | b :: src' => if n <=? 0 then (src, value, n)
                 else take_continuation src' (push_bits value b) (n - 1)
  end.

(** The main loop; each round takes at least a byte. *)
Fixpoint decode_loop (fuel : nat) (src : list Z) (points : list Z) (value n : Z)
    : list Z * partial_utf8 :=
  match fuel, src with
  | S fuel, first :: src =>
      let n := utf8_lookup (Z.shiftr first 4) - 1 in
      if n <? 0 then ([0], {| partial_value := 0; n_remain := n |})
      else
        let value := Z.land first (Z.shiftl 1 (7 - n) - 1) in
        let '(src, value, n) := take_continuation src value n in
        decode_loop fuel src (if n =? 0 then points ++ [value] else points) value n
  | _, _ => (points ++ [0], {| partial_value := value; n_remain := n |})
  end.

(** [src] has no zero byte: it is read up to the terminator. *)
Definition decode_utf8 (src : list Z) (start : partial_utf8) : list Z * partial_utf8 :=
  match continue_decode src (partial_value start) (n_remain start) with
  | None => ([0], {| partial_value := 0; n_remain := -1 |})
  | Some (rest, value, n) =>
      let points := if (0 <? n_remain start) && (n =? 0) then [value] else [] in
      decode_loop (length rest) rest points value n
  end.

(** The bytes of a string before its first zero. *)
Fixpoint c_str (s : list Z) : list Z :=
  match s with
  | [] => []
  | b :: s => if b =? 0 then [] else b :: c_str s
  end.

(** ** Matching an element *)

Definition is_end_type (t : gretype) : bool :=
  match t with END | ALT => true | _ => false end.

Definition is_end_of_sequence (g : rules) (p : pos) : run bool :=
  e ← element_at g p; Done (is_end_type (type e)).

Definition is_positive_char (t : gretype) : bool :=
  match t with CHAR | CHAR_ANY => true | _ => false end.

(** The loop of [match_char] over a character range, with the elements consumed. *)
Fixpoint match_ranges (l : list element) (chr : Z) (found : bool) (n : nat) : run (bool * nat) :=
  match l with
  | e :: ((e1 :: l2) as l1) =>
      if bool_decide (type e1 = CHAR_RNG_UPPER) then
        let found := found || ((value e <=? chr) && (chr <=? value e1)) in
        match l2 with
        | e2 :: _ => if bool_decide (type e2 = CHAR_ALT)
                     then match_ranges l2 chr found (n + 2) else Done (found, n + 2)%nat
        | [] => Abort
        end
      else
        let found := if bool_decide (type e = CHAR_ANY) then true else found || (value e =? chr) in
        if bool_decide (type e1 = CHAR_ALT)
        then match_ranges l1 chr found (n + 1) else Done (found, n + 1)%nat
  | _ => Abort
  end.

Definition match_char (g : rules) (p : pos) (chr : Z) : run (bool * pos) :=
  e ← element_at g p;
  let positive := is_positive_char (type e) in
  if negb (positive || bool_decide (type e = CHAR_NOT)) then Abort
  else
    r ← match_ranges (elements_at g p) chr false 0;
    Done (eqb r.1 positive, forward r.2 p).

(** The code points a partial sequence can complete to, overlong ones excluded. *)
Definition partial_low (u : partial_utf8) : Z :=
  let low := u32 (Z.shiftl (partial_value u) (n_remain u * 6)) in
  if low =? 0 then
    if n_remain u =? 2 then Z.shiftl 1 11
    else if n_remain u =? 3 then Z.shiftl 1 16 else low
  else low.
Definition partial_high (u : partial_utf8) : Z :=
  Z.lor (u32 (Z.shiftl (partial_value u) (n_remain u * 6))) (Z.shiftl 1 (n_remain u * 6) - 1).

Fixpoint match_partial_ranges (l : list element) (low high : Z) (positive : bool) : run bool :=
  match l with
  | e :: ((e1 :: l2) as l1) =>
      if bool_decide (type e1 = CHAR_RNG_UPPER) then
        if (value e <=? high) && (low <=? value e1) then Done positive
        else match l2 with
             | e2 :: _ => if bool_decide (type e2 = CHAR_ALT)
                          then match_partial_ranges l2 low high positive else Done (negb positive)
             | [] => Abort
             end
      else if bool_decide (type e = CHAR_ANY) then Done true
      else if (low <=? value e) && (value e <=? high) then Done positive
      else if bool_decide (type e1 = CHAR_ALT)
      then match_partial_ranges l1 low high positive else Done (negb positive)
  | _ => Abort
  end.

Definition match_partial_char (g : rules) (p : pos) (u : partial_utf8) : run bool :=
  e ← element_at g p;
  let positive := is_positive_char (type e) in
  if negb (positive || bool_decide (type e = CHAR_NOT)) then Abort
  else if (n_remain u <? 0) || ((n_remain u =? 1) && (partial_value u <? 2)) then Done false
  else match_partial_ranges (elements_at g p) (partial_low u) (partial_high u) positive.

Definition is_token_type (t : gretype) : bool :=
  match t with TOKEN | TOKEN_NOT => true | _ => false end.

(** [token] is cast to [uint32_t]. *)
Definition match_token (e : element) (token : Z) : bool :=
  match type e with
  | TOKEN => value e =? u32 token
  | TOKEN_NOT => negb (value e =? u32 token)
  | _ => false
  end.

(** ** [advance_stack] *)

(** The offsets where the alternates of a rule start. *)
Fixpoint alternates (l : list element) (i start : nat) : run (list nat) :=
  match l with
  | [] => Abort
  | e :: l =>
      match type e with
      | END => Done [start]
      | ALT => rest ← alternates l (S i) (S i); Done (start :: rest)
      | _ => alternates l (S i) start
      end
  end.

(** [push_back] unless the pointer is at the end of its alternate. *)
Definition push_pos (g : rules) (p : pos) (s : stack) : run stack :=
  b ← is_end_of_sequence g p;
  Done (if b : bool then s else p :: s).

(** A round of the loop over the alternates of a rule. *)
Definition push_next (g : rules) (p : pos) (rule_id : nat) (rest : stack) (acc : list stack) (i : nat)
    : run (list stack) :=
  s ← push_pos g (forward 1 p) rest;
  s ← push_pos g (rule_id, i) s;
  Done (acc ++ [s]).

(** The stacks that replace one with a rule reference on top. *)
Definition expand (g : rules) (p : pos) (rule_id : nat) (rest : stack) : run (list stack) :=
  match g !! rule_id with
  | None => Abort
  | Some r =>
      starts ← alternates r 0 0;
      run_fold (push_next g p rule_id rest) starts []
  end.

(** [push_back] of a stack the list does not hold yet. *)
Definition add_stack (s : stack) (l : list stack) : list stack :=
  if bool_decide (s ∈ l) then l else l ++ [s].

(** The worklist, its back first. *)
Fixpoint advance_loop (fuel : nat) (g : rules) (todo seen news : list stack) : run (list stack) :=
  match fuel with
  | O => OutOfFuel
  | S fuel =>
      match todo with
      | [] => Done news
      | s :: todo =>
          if bool_decide (s ∈ seen) then advance_loop fuel g todo seen news
          else
            let seen := s :: seen in
            match s with
            | [] => advance_loop fuel g todo seen (add_stack s news)
            | p :: rest =>
                e ← element_at g p;
                match type e with
                | RULE_REF =>
                    nexts ← expand g p (Z.to_nat (value e)) rest;
                    advance_loop fuel g (reverse nexts ++ todo) seen news
                | CHAR | CHAR_NOT | CHAR_ANY | TOKEN | TOKEN_NOT =>
                    advance_loop fuel g todo seen (add_stack s news)
                | _ => Abort
                end
            end
      end
  end.

Definition advance_stack (fuel : nat) (g : rules) (s : stack) (news : list stack)
    : run (list stack) :=
  advance_loop fuel g [s] [] news.

(** ** Accepting *)

Definition accept_chr (fuel : nat) (g : rules) (s : stack) (chr : Z) (news : list stack)
    : run (list stack) :=
  match s with
  | [] => Done news
  | p :: rest =>
      e ← element_at g p;
      if is_token_type (type e) then Done news
      else
        m ← match_char g p chr;
        if m.1 : bool then
          s ← push_pos g m.2 rest;
          advance_stack fuel g s news
        else Done news
  end.

Definition accept_chars (fuel : nat) (g : rules) (stacks : list stack) (chr : Z)
    : run (list stack) :=
  run_fold (fun news s => accept_chr fuel g s chr news) stacks [].


(** The stacks after the code points, given up once there are none. *)
Fixpoint accept_points (fuel : nat) (g : rules) (stacks : list stack) (points : list Z)
    : run (list stack) :=
  match points with
  | [] => Done stacks
  | chr :: points =>
      next ← accept_chars fuel g stacks chr;
      if is_nil next then Done [] else accept_points fuel g next points
  end.

(** A stack of [accept_token]. *)
Definition accept_token_stack (fuel : nat) (g : rules) (token : Z) (points : list Z)
    (news : list stack) (s : stack) : run (list stack) :=
  match s with
  | [] => Done news
  | p :: rest =>
      e ← element_at g p;
      if is_token_type (type e) then
        if match_token e token then
          s ← push_pos g (forward 1 p) rest;
          advance_stack fuel g s news
        else Done news
      else
        survivors ← accept_points fuel g [s] points;
        Done (foldl (fun news s => add_stack s news) news survivors)
  end.

Record Grammar := {
  g_rules : rules;
  stacks : list stack;
  partial : partial_utf8;
  lazy : bool;
  awaiting_trigger : bool;
  trigger_buffer : list Z;
  trigger_buffer_positions : list (Z * (nat * nat));
  trigger_tokens : list Z;
  trigger_patterns : list string;
}.

Definition set_matcher (s : list stack) (u : partial_utf8) (g : Grammar) : Grammar :=
  {| g_rules := g_rules g; stacks := s; partial := u; lazy := lazy g;
     awaiting_trigger := awaiting_trigger g; trigger_buffer := trigger_buffer g;
     trigger_buffer_positions := trigger_buffer_positions g;
     trigger_tokens := trigger_tokens g; trigger_patterns := trigger_patterns g |}.
Definition set_trigger (a : bool) (b : list Z) (l : list (Z * (nat * nat))) (g : Grammar) : Grammar :=
  {| g_rules := g_rules g; stacks := stacks g; partial := partial g; lazy := lazy g;
     awaiting_trigger := a; trigger_buffer := b; trigger_buffer_positions := l;
     trigger_tokens := trigger_tokens g; trigger_patterns := trigger_patterns g |}.

(** [*it != end - 1]: the code points without the terminator. *)
Definition points_of (decoded : list Z * partial_utf8) : list Z := removelast decoded.1.

(** The stacks are assigned before the exception. *)
Definition accept_token (fuel : nat) (token : Z) (piece : list Z) (g : Grammar)
    : run (outcome unit * Grammar) :=
  let decoded := decode_utf8 (c_str piece) (partial g) in
  news ← run_fold (accept_token_stack fuel (g_rules g) token (points_of decoded)) (stacks g) [];
  let g := set_matcher news decoded.2 g in
  Done (if is_nil news
        then Throw (RuntimeError "Unexpected empty grammar stack after accepting piece") else Ok tt, g).

Definition accept_str (fuel : nat) (piece : list Z) (g : Grammar) : run (outcome unit * Grammar) :=
  let decoded := decode_utf8 (c_str piece) (partial g) in
  news ← run_fold (fun s chr => accept_chars fuel (g_rules g) s chr) (points_of decoded) (stacks g);
  let g := set_matcher news decoded.2 g in
  Done (if is_nil news
        then Throw (RuntimeError "Unexpected empty grammar stack after accepting piece") else Ok tt, g).

(** ** Rejecting candidates *)

(** [code_points] points into the decoded piece, terminated by zero. *)
Record candidate := {
  index : nat;
  decoded_points : list Z;
  offset : nat;
  cand_partial : partial_utf8;
  id : Z;
}.

#[export] Instance partial_utf8_eq_dec : EqDecision partial_utf8.
Proof. solve_decision. Defined.
#[export] Instance candidate_eq_dec : EqDecision candidate.
Proof. solve_decision. Defined.

(** [*tok.code_points]. *)
Definition point (c : candidate) : Z := nth (offset c) (decoded_points c) 0.

Definition move_points (f : nat -> nat) (c : candidate) : candidate :=
  {| index := index c; decoded_points := decoded_points c; offset := f (offset c);
     cand_partial := cand_partial c; id := id c |}.

Definition is_partial (c : candidate) : bool := negb (n_remain (cand_partial c) =? 0).

(** A candidate on an empty stack, or on a token element. *)
Definition reject_at_end (c : candidate) : bool := negb (point c =? 0) || is_partial c.
Definition reject_at_token (e : element) (c : candidate) : bool :=
  if point c =? 0 then is_partial c else negb (match_token e (id c)).

(** The candidates rejected by a character element, and those that go on. *)
Definition sift (g : rules) (p : pos) (acc : list candidate * list candidate) (c : candidate)
    : run (list candidate * list candidate) :=
  let '(rejects, next) := acc in
  if point c =? 0 then
    if is_partial c then
      b ← match_partial_char g p (cand_partial c);
      Done (if b : bool then (rejects, next) else (rejects ++ [c], next))
    else Done (rejects, next)
  else
    m ← match_char g p (point c);
    Done (if m.1 : bool then (rejects, next ++ [move_points S c]) else (rejects ++ [c], next)).

(** [reject_candidates], over a function for one stack. *)
Definition reject_candidates_with (one : stack -> list candidate -> run (list candidate))
    (ss : list stack) (cs : list candidate) : run (list candidate) :=
  match ss with
  | [] => Abort
  | s :: ss =>
      match cs with
      | [] => Done []
      | _ =>
          rejects ← one s cs;
          run_fold (fun rejects s => one s rejects) ss rejects
      end
  end.

(** [depth] bounds the code points of the candidates. *)
Fixpoint reject_for_stack (depth fuel : nat) (g : rules) (s : stack) (cs : list candidate)
    : run (list candidate) :=
  match s with
  | [] => Done (filter (fun c => reject_at_end c = true) cs)
  | p :: rest =>
      e ← element_at g p;
      if is_token_type (type e) then Done (filter (fun c => reject_at_token e c = true) cs)
      else
        match depth with
        | O => OutOfFuel
        | S depth =>
            rn ← run_fold (sift g p) cs ([], []);
            after ← match_char g p 0;
            s ← push_pos g after.2 rest;
            nexts ← advance_stack fuel g s [];
            r ← reject_candidates_with (reject_for_stack depth fuel g) nexts rn.2;
            Done (rn.1 ++ map (move_points pred) r)
        end
  end.

Definition reject_candidates (depth fuel : nat) (g : rules) (ss : list stack)
    (cs : list candidate) : run (list candidate) :=
  reject_candidates_with (reject_for_stack depth fuel g) ss cs.

(** ** The vocabulary, the sampler's candidates and [apply] *)

(** A logit is left alone or set to minus infinity. *)
Record token_data := { tok_id : Z; masked : bool }.

Section Vocabulary.
Context (token_to_piece : Z -> list Z) (is_eog : Z -> bool).
Context (find_pattern : string -> list Z -> option nat).

Definition mask_all (l : list nat) (cur : list token_data) : list token_data :=
  imap (fun i t => if bool_decide (i ∈ l)
                   then {| tok_id := tok_id t; masked := true |} else t) cur.

Definition allow_eog (g : Grammar) : bool := existsb is_nil (stacks g).

(** What [apply] decides of a token before the grammar is consulted. *)
Inductive first_look := mask_it | keep_it | ask_grammar.

Definition look (g : Grammar) (token : Z) : first_look :=
  let piece := token_to_piece token in
  if is_eog token then (if allow_eog g then keep_it else mask_it)
  else match piece with
       | [] => mask_it
       | b :: _ => if b =? 0 then mask_it else ask_grammar
       end.

Definition decode_candidate (g : Grammar) (i : nat) (token : Z) : candidate :=
  let d := decode_utf8 (c_str (token_to_piece token)) (partial g) in
  {| index := i; decoded_points := d.1; offset := 0; cand_partial := d.2; id := token |}.

(** The indices to mask at once, and the candidates of the grammar. *)
Fixpoint sort_tokens (g : Grammar) (i : nat) (cur : list token_data) : list nat * list candidate :=
  match cur with
  | [] => ([], [])
  | t :: cur =>
      let '(l, cs) := sort_tokens g (S i) cur in
      match look g (tok_id t) with
      | mask_it => (i :: l, cs)
      | keep_it => (l, cs)
      | ask_grammar => (l, decode_candidate g i (tok_id t) :: cs)
      end
  end.

(** The callers' depth covers the longest piece. *)
Definition apply (depth fuel : nat) (g : Grammar) (cur : list token_data)
    : run (list token_data) :=
  if awaiting_trigger g then Done cur
  else
    let '(l, cs) := sort_tokens g 0 cur in
    rejects ← reject_candidates depth fuel (g_rules g) (stacks g) cs;
    Done (mask_all (map index rejects) (mask_all l cur)).

(** *** [accept_impl] *)

(** The buffered tokens that overlap with the constrained text. *)
Fixpoint replay (fuel : nat) (start : nat) (l : list (Z * (nat * nat))) (g : Grammar)
    : run (outcome unit * Grammar) :=
  match l with
  | [] => Done (Ok tt, g)
  | (token, (tok_start, tok_end)) :: l =>
      if (tok_end <=? start)%nat then replay fuel start l g
      else
        let piece_start := if (tok_start <? start)%nat then start else tok_start in
        let piece := take (tok_end - piece_start) (drop piece_start (trigger_buffer g)) in
        r ← accept_token fuel token piece g;
        match r with
        | (Ok _, g) => replay fuel start l g
        | r => Done r
        end
  end.

Fixpoint find_trigger (patterns : list string) (buffer : list Z) : option nat :=
  match patterns with
  | [] => None
  | p :: patterns =>
      match find_pattern p buffer with
      | Some start => Some start
      | None => find_trigger patterns buffer
      end
  end.

Definition accept (fuel : nat) (token : Z) (g : Grammar) : run (outcome unit * Grammar) :=
  let piece := token_to_piece token in
  if awaiting_trigger g then
    if bool_decide (token ∈ trigger_tokens g) then
      accept_token fuel token piece (set_trigger false [] (trigger_buffer_positions g) g)
    else
      let size := length (trigger_buffer g) in
      let g := set_trigger true (trigger_buffer g ++ piece)
        (trigger_buffer_positions g ++ [(token, (size, size + length piece)%nat)]) g in
      match find_trigger (trigger_patterns g) (trigger_buffer g) with
      | Some start =>
          r ← replay fuel start (trigger_buffer_positions g)
                (set_trigger false (trigger_buffer g) (trigger_buffer_positions g) g);
          match r with
          | (Ok _, g) => Done (Ok tt, set_trigger false [] [] g)
          | r => Done r
          end
      | None => Done (Ok tt, g)
      end
  else if is_eog token then
    if allow_eog g then Done (Ok tt, g) else Abort
  else accept_token fuel token piece g.
End Vocabulary.

(** ** The check for left recursion, and the initial stacks *)

Record Marks := { visited : list bool; in_progress : list bool; may_be_empty : list bool }.

Definition mark_progress (r : nat) (b : bool) (m : Marks) : Marks :=
  {| visited := visited m; in_progress := <[r := b]> (in_progress m);
     may_be_empty := may_be_empty m |}.
Definition mark_empty (r : nat) (m : Marks) : Marks :=
  {| visited := visited m; in_progress := in_progress m;
     may_be_empty := <[r := true]> (may_be_empty m) |}.
Definition mark_visited (r : nat) (m : Marks) : Marks :=
  {| visited := <[r := true]> (visited m); in_progress := in_progress m;
     may_be_empty := may_be_empty m |}.

(** Whether an alternate of the rule has no element. *)
Fixpoint has_empty_alternate (l : list element) (at_start : bool) : bool :=
  match l with
  | [] => false
  | e :: l => if is_end_type (type e)
              then at_start || has_empty_alternate l true
              else has_empty_alternate l false
  end.

(** The recursion over the leftmost references; [visit] is the call for a rule. *)
Fixpoint leftmost (visit : nat -> Marks -> run (bool * Marks)) (l : list element)
    (recurse : bool) (m : Marks) : run (bool * Marks) :=
  match l with
  | [] => Done (false, m)
  | e :: l =>
      if bool_decide (type e = RULE_REF) && recurse then
        r ← visit (Z.to_nat (value e)) m;
        if r.1 : bool then Done r
        else
          match may_be_empty r.2 !! Z.to_nat (value e) with
          | Some b => leftmost visit l b r.2
          | None => Abort
          end
      else leftmost visit l (is_end_type (type e)) m
  end.

(** [depth] bounds the nesting: one more than the number of rules. *)
Fixpoint detect_left_recursion (depth : nat) (g : rules) (r : nat) (m : Marks)
    : run (bool * Marks) :=
  match depth with
  | O => OutOfFuel
  | S depth =>
      match g !! r, in_progress m !! r with
      | Some rule, Some busy =>
          if busy : bool then Done (true, m)
          else
            let m := mark_progress r true m in
            let m := if has_empty_alternate rule true then mark_empty r m else m in
            res ← leftmost (detect_left_recursion depth g) rule true m;
            Done (if res.1 : bool then res
                  else (false, mark_visited r (mark_progress r false res.2)))
      | _, _ => Abort
      end
  end.

(** The loop over the rules. *)
Fixpoint check_rules (depth : nat) (g : rules) (todo : list nat) (m : Marks) : run bool :=
  match todo with
  | [] => Done false
  | r :: todo =>
      if bool_decide (visited m !! r = Some true) then check_rules depth g todo m
      else
        res ← detect_left_recursion depth g r m;
        if res.1 : bool then Done true else check_rules depth g todo res.2
  end.

Definition no_marks (n : nat) : Marks :=
  {| visited := replicate n false; in_progress := replicate n false;
     may_be_empty := replicate n false |}.

(** The elements of a rule up to its end, and an end. *)
Fixpoint copy_rule (r : rule) : run rule :=
  match r with
  | [] => Abort
  | e :: r => if bool_decide (type e = END) then Done [{| type := END; value := 0 |}]
              else r ← copy_rule r; Done (e :: r)
  end.

Fixpoint copy_rules (g : rules) : run rules :=
  match g with
  | [] => Done []
  | r :: g => r ← copy_rule r; g ← copy_rules g; Done (r :: g)
  end.

Definition initial_stacks (fuel : nat) (g : rules) (start : nat) : run (list stack) :=
  match g !! start with
  | None => Abort
  | Some r =>
      starts ← alternates r 0 0;
      run_fold (fun news i =>
        s ← push_pos g (start, i) [];
        advance_stack fuel g s news) starts []
  end.

(** [None] is the null pointer, after the log message. *)
Definition init_grammar (fuel : nat) (g : rules) (start : nat) (is_lazy : bool)
    (tokens : list Z) (patterns : list string) : run (option Grammar) :=
  g ← copy_rules g;
  left_recursive ← check_rules (S (length g)) g (seq 0 (length g)) (no_marks (length g));
  if left_recursive : bool then Done None
  else
    ss ← initial_stacks fuel g start;
    Done (Some {| g_rules := g; stacks := ss;
                  partial := {| partial_value := 0; n_remain := 0 |};
                  lazy := is_lazy; awaiting_trigger := is_lazy; trigger_buffer := [];
                  trigger_buffer_positions := []; trigger_tokens := tokens;
                  trigger_patterns := patterns |}).
