(* ===== verification/GrammarParser.v ===== *)
(** * The parser of grammars in text form
      ([mfq_text_grammar_parser] of [mfq_grammar.{h,cpp}])

    The text is a list of bytes without a zero, read up to its end. A parser keeps
    the names of the rules and the rules by number; an exception carries no
    position. The vocabulary's tokenizer is a parameter. *)

From stdpp Require Import base list strings gmap pretty.
From Stdlib Require Import ZArith Lia Ascii.
From S2P Require Import Prelude Grammar.

#[local] Set Default Proof Using "Type".
Open Scope Z_scope.

(** A character as a byte. *)
Definition ch (c : ascii) : Z := Z.of_N (N_of_ascii c).

Abbreviation text := (list Z).

(** [*pos] and [pos[1]]. *)
Definition peek (src : text) : Z := match src with c :: _ => c | [] => 0 end.
Definition peek1 (src : text) : Z := match src with _ :: c :: _ => c | _ => 0 end.

Definition is_digit_char (c : Z) : bool := (48 <=? c) && (c <=? 57).
Definition is_word_char (c : Z) : bool :=
  ((97 <=? c) && (c <=? 122)) || ((65 <=? c) && (c <=? 90)) || (c =? 45) || is_digit_char c.

(** ** Lexing *)

(** [decode_utf8] of one character: continuation bytes are not checked. *)
Definition char_lookup (highbits : Z) : Z :=
  nth (Z.to_nat highbits) [1; 1; 1; 1; 1; 1; 1; 1; 1; 1; 1; 1; 2; 2; 3; 4] 0.

Fixpoint decode_rest (n : nat) (src : text) (value : Z) : Z * text :=
  match n, src with
  | S n, b :: src => decode_rest n src (push_bits value b)
  | _, _ => (value, src)
  end.

Definition decode_char (first : Z) (src : text) : Z * text :=
  let len := char_lookup (Z.shiftr first 4) in
  decode_rest (Z.to_nat (len - 1)) src (Z.land first (Z.shiftl 1 (8 - len) - 1)).

Definition hex_digit (c : Z) : option Z :=
  if (97 <=? c) && (c <=? 102) then Some (c - 97 + 10)
  else if (65 <=? c) && (c <=? 70) then Some (c - 65 + 10)
  else if (48 <=? c) && (c <=? 57) then Some (c - 48) else None.

Fixpoint parse_hex (size : nat) (src : text) (value : Z) : outcome (Z * text) :=
  match size with
  | O => Ok (value, src)
  | S size =>
      match src with
      | c :: src =>
          match hex_digit c with
          | Some d => parse_hex size src (u32 (u32 (Z.shiftl value 4) + d))
          | None => Throw (RuntimeError "expecting hex chars")
          end
      | [] => Throw (RuntimeError "expecting hex chars")
      end
  end.

Fixpoint parse_space_in (newline_ok comment : bool) (src : text) : text :=
  match src with
  | [] => []
  | c :: src' =>
      let newline := (c =? 13) || (c =? 10) in
      if comment && negb newline then parse_space_in newline_ok true src'
      else if (c =? 32) || (c =? 9) then parse_space_in newline_ok false src'
      else if c =? 35 then parse_space_in newline_ok true src'
      else if newline_ok && newline then parse_space_in newline_ok false src'
      else src
  end.
Definition parse_space (src : text) (newline_ok : bool) : text := parse_space_in newline_ok false src.

(** The characters of a kind at the front, and the rest. *)
Fixpoint span (p : Z -> bool) (src : text) : text * text :=
  match src with
  | c :: src' => if p c then let '(l, rest) := span p src' in (c :: l, rest) else ([], src)
  | [] => ([], [])
  end.

Definition parse_name (src : text) : outcome (text * text) :=
  let '(name, rest) := span is_word_char src in
  if is_nil name then Throw (RuntimeError "expecting name") else Ok (name, rest).

Definition parse_int (src : text) : outcome (text * text) :=
  let '(digits, rest) := span is_digit_char src in
  if is_nil digits then Throw (RuntimeError "expecting integer") else Ok (digits, rest).

(** [std::stoull] and [std::stoul] on digits. *)
Definition to_u64 (digits : text) : outcome Z :=
  let v := foldl (fun v c => 10 * v + (c - 48)) 0 digits in
  if u64_max <? v then Throw (OutOfRange "stoull") else Ok v.

Definition parse_char (src : text) : outcome (Z * text) :=
  match src with
  | [] => Throw (RuntimeError "unexpected end of input")
  | c :: rest =>
      if c =? 92 then
        match rest with
        | [] => Throw (RuntimeError "unknown escape")
        | e :: after =>
            if e =? 120 then parse_hex 2 after 0
            else if e =? 117 then parse_hex 4 after 0
            else if e =? 85 then parse_hex 8 after 0
            else if e =? 116 then Ok (9, after)
            else if e =? 114 then Ok (13, after)
            else if e =? 110 then Ok (10, after)
            else if (e =? 92) || (e =? 34) || (e =? 91) || (e =? 93) then Ok (e, after)
            else Throw (RuntimeError "unknown escape")
        end
      else Ok (decode_char c rest)
  end.

(** ** The parser *)

Record Parser := {
  symbol_ids : gmap text Z;
  parsed_rules : list rule;
}.

Definition empty_parser : Parser := {| symbol_ids := ∅; parsed_rules := [] |}.

(** A parsing step: fuel may run out, an assertion may fail, and an exception
    leaves the parser as it is. *)
Definition Parse (A : Type) : Type := Parser -> run (outcome A * Parser).

#[export] Instance parse_ret : MRet Parse := fun A a s => Done (Ok a, s).
#[export] Instance parse_bind : MBind Parse := fun A B k m s =>
  r ← m s;
  match r with
  | (Ok a, s) => k a s
  | (Throw e, s) => Done (Throw e, s)
  end.
Definition lift_parse {A} (o : outcome A) : Parse A := fun s => Done (o, s).
Definition fail {A} (what : string) : Parse A := lift_parse (Throw (RuntimeError what)).
Definition no_fuel {A} : Parse A := fun _ => OutOfFuel.
Definition assert_fails {A} : Parse A := fun _ => Abort.

Definition ids_size (s : Parser) : Z := u32 (Z.of_nat (size (symbol_ids s))).

Definition read_size : Parse Z := fun s => Done (Ok (ids_size s), s).

Definition get_symbol_id (name : text) : Parse Z := fun s =>
  match symbol_ids s !! name with
  | Some i => Done (Ok i, s)
  | None => let i := ids_size s in
            Done (Ok i, {| symbol_ids := <[name := i]> (symbol_ids s); parsed_rules := parsed_rules s |})
  end.

(** The bytes of a string. *)
Definition text_of (s : string) : text := ch <$> String.list_ascii_of_string s.

Definition decimal (z : Z) : text := text_of (pretty (Z.to_N z)).

(** [base_name + '_' + std::to_string(next_id)]. *)
Definition generate_symbol_id (base_name : text) : Parse Z := fun s =>
  let i := ids_size s in
  Done (Ok i, {| symbol_ids := <[base_name ++ 95 :: decimal i := i]> (symbol_ids s);
                 parsed_rules := parsed_rules s |}).

(** [rules.resize(rule_id + 1)] when it is shorter, then the assignment. *)
Definition add_rule (rule_id : Z) (r : rule) : Parse unit := fun s =>
  let i := Z.to_nat rule_id in
  let rs := parsed_rules s ++ replicate (S i - length (parsed_rules s)) [] in
  Done (Ok tt, {| symbol_ids := symbol_ids s; parsed_rules := <[i := r]> rs |}).

Definition el (t : gretype) (v : Z) : element := {| type := t; value := v |}.

Section Vocabulary.
(** [tokenize] with room for two tokens: the count and the first token. No
    vocabulary is [None]. *)
Context (tokenize : option (text -> Z * Z)).

Definition parse_token (src : text) : outcome (Z * text) :=
  if negb (peek src =? 60) then Throw (RuntimeError "expecting '<'")
  else
    let rest := tail src in
    if peek rest =? 91 then
      '(digits, rest) ← parse_int (tail rest);
      v ← to_u64 digits;
      if negb (peek rest =? 93) then Throw (RuntimeError "expecting ']'")
      else if negb (peek (tail rest) =? 62) then Throw (RuntimeError "expecting '>'")
      else Ok (u32 v, tail (tail rest))
    else
      match tokenize with
      | None => Throw (RuntimeError "no vocab to parse token")
      | Some f =>
          let '(inner, rest) := span (fun c => negb (c =? 62)) rest in
          if is_nil rest then Throw (RuntimeError "expecting '>'")
          else
            let '(n, token) := f (60 :: inner ++ [62]) in
            if negb (n =? 1) then Throw (RuntimeError "invalid token") else Ok (u32 token, tail rest)
      end.

(** ** Sequences *)

Record Sequence := {
  seq_rule : rule;
  last_sym_start : nat;
  n_prev_rules : Z;
}.

(** The assignments that begin a new symbol. *)
Definition begin_symbol (n : Z) (q : Sequence) : Sequence :=
  {| seq_rule := seq_rule q; last_sym_start := length (seq_rule q); n_prev_rules := n |}.
Definition push (e : element) (q : Sequence) : Sequence :=
  {| seq_rule := seq_rule q ++ [e]; last_sym_start := last_sym_start q; n_prev_rules := n_prev_rules q |}.

(** *** Repetitions *)

(** One of the rules of a repetition. *)
Definition recursion_rule (prev_rule : rule) (no_max first : bool) (id last : Z) : rule :=
  prev_rule ++ (if negb first || no_max then [el RULE_REF (if no_max then id else last)] else []) ++
  [el ALT 0; el END 0].

Fixpoint add_recursions (n : nat) (rule_name : text) (prev_rule : rule) (no_max first : bool) (last : Z)
    : Parse Z :=
  match n with
  | O => mret last
  | S n =>
      id ← generate_symbol_id rule_name;
      add_rule id (recursion_rule prev_rule no_max first id last) ≫= fun _ =>
      add_recursions n rule_name prev_rule no_max false id
  end.

Definition repetition_total (min_times max_times : Z) (no_max : bool) : Z :=
  if negb no_max && (0 <? max_times) then max_times
  else if 0 <? min_times then min_times else 1.

(** [UINT64_MAX] stands for no maximum. *)
Definition handle_repetitions (rule_name : text) (min_times max_times : Z) (q : Sequence)
    : Parse Sequence :=
  let no_max := max_times =? u64_max in
  let start := last_sym_start q in
  if bool_decide (start = length (seq_rule q)) then fail "expecting preceding item"
  else
    let prev_rule := drop start (seq_rule q) in
    let total := repetition_total min_times max_times no_max in
    if 2000 <=? u64 (n_prev_rules q * total) then fail "number of rules exceeds sane defaults"
    else
      let r := if min_times =? 0 then take start (seq_rule q)
               else seq_rule q ++ concat (replicate (Z.to_nat min_times - 1) prev_rule) in
      let n_opt := if no_max then 1 else u64 (max_times - min_times) in
      last ← add_recursions (Z.to_nat n_opt) rule_name prev_rule no_max true 0;
      let n := u64 (n_prev_rules q * total) in
      if n <? 1 then assert_fails
      else mret {| seq_rule := if 0 <? n_opt then r ++ [el RULE_REF last] else r;
                   last_sym_start := start; n_prev_rules := n |}.

(** *** Literals and classes *)

Fixpoint parse_literal (fuel : nat) (src : text) (q : Sequence) : Parse (text * Sequence) :=
  match fuel with
  | O => no_fuel
  | S fuel =>
      match src with
      | [] => fail "unexpected end of input"
      | c :: rest =>
          if c =? 34 then mret (rest, q)
          else
            '(v, rest) ← lift_parse (parse_char src);
            parse_literal fuel rest (push (el CHAR v) q)
      end
  end.

Fixpoint parse_class (fuel : nat) (start_type : gretype) (src : text) (q : Sequence)
    : Parse (text * Sequence) :=
  match fuel with
  | O => no_fuel
  | S fuel =>
      match src with
      | [] => fail "unexpected end of input"
      | c :: rest =>
          if c =? 93 then mret (rest, q)
          else
            '(v, rest) ← lift_parse (parse_char src);
            let t := if bool_decide (last_sym_start q < length (seq_rule q))%nat
                     then CHAR_ALT else start_type in
            let q := push (el t v) q in
            if (peek rest =? 45) && negb (peek1 rest =? 93) then
              if peek1 rest =? 0 then fail "unexpected end of input"
              else
                '(v, rest) ← lift_parse (parse_char (tail rest));
                parse_class fuel start_type rest (push (el CHAR_RNG_UPPER v) q)
            else parse_class fuel start_type rest q
      end
  end.

(** *** [{m}], [{m,}] and [{m,n}] *)

(** The bounds after the brace, and the text after the closing one. *)
Definition parse_bounds (src : text) (is_nested : bool) : outcome (Z * Z * text) :=
  let pos := parse_space src is_nested in
  if negb (is_digit_char (peek pos)) then Throw (RuntimeError "expecting an int")
  else
    '(digits, rest) ← parse_int pos;
    min_times ← to_u64 digits;
    let pos := parse_space rest is_nested in
    if peek pos =? 125 then Ok (min_times, min_times, parse_space (tail pos) is_nested)
    else if peek pos =? 44 then
      let pos := parse_space (tail pos) is_nested in
      '(max_times, pos) ←
        (if is_digit_char (peek pos) then
           '(digits, rest) ← parse_int pos;
           max_times ← to_u64 digits;
           Ok (max_times, parse_space rest is_nested)
         else Ok (u64_max, pos));
      if negb (peek pos =? 125) then Throw (RuntimeError "expecting '}'")
      else Ok (min_times, max_times, parse_space (tail pos) is_nested)
    else Throw (RuntimeError "expecting ','").

Definition sane_bounds (min_times max_times : Z) : bool :=
  negb ((2000 <? min_times) || (negb (max_times =? u64_max) && (2000 <? max_times))).

(** ** Sequences, alternates and rules *)

(** [parse_sequence] loops over the symbols; a group calls [parse_alternates]. Two
    units of fuel per byte are enough. *)
Fixpoint parse_sequence (fuel : nat) (src : text) (rule_name : text) (is_nested : bool) (q : Sequence)
    : Parse (text * Sequence) :=
  match fuel with
  | O => no_fuel
  | S fuel =>
      let continue src q := parse_sequence fuel (parse_space src is_nested) rule_name is_nested q in
      match src with
      | [] => mret ([], q)
      | c :: rest =>
          if c =? 34 then
            '(src, q) ← parse_literal fuel rest (begin_symbol 1 q);
            continue src q
          else if c =? 91 then
            let '(t, rest) := if peek rest =? 94 then (CHAR_NOT, tail rest) else (CHAR, rest) in
            '(src, q) ← parse_class fuel t rest (begin_symbol 1 q);
            continue src q
          else if (c =? 60) || (c =? 33) then
            let '(t, src) := if c =? 33 then (TOKEN_NOT, rest) else (TOKEN, src) in
            '(v, src) ← lift_parse (parse_token src);
            continue src (push (el t v) (begin_symbol 1 q))
          else if is_word_char c then
            '(name, rest) ← lift_parse (parse_name src);
            id ← get_symbol_id name;
            continue rest (push (el RULE_REF id) (begin_symbol 1 q))
          else if c =? 40 then
            before ← read_size;
            id ← generate_symbol_id rule_name;
            src ← parse_alternates fuel (parse_space rest true) rule_name id true [];
            after ← read_size;
            let q := push (el RULE_REF id) (begin_symbol (Z.max 1 (u32 (after - before))) q) in
            if peek src =? 41 then continue (tail src) q else fail "expecting ')'"
          else if c =? 46 then continue rest (push (el CHAR_ANY 0) (begin_symbol 1 q))
          else if c =? 42 then
            q ← handle_repetitions rule_name 0 u64_max q; continue rest q
          else if c =? 43 then
            q ← handle_repetitions rule_name 1 u64_max q; continue rest q
          else if c =? 63 then
            q ← handle_repetitions rule_name 0 1 q; continue rest q
          else if c =? 123 then
            '(min_times, max_times, src) ← lift_parse (parse_bounds rest is_nested);
            if negb (sane_bounds min_times max_times)
            then fail "number of repetitions exceeds sane defaults"
            else
              q ← handle_repetitions rule_name min_times max_times q;
              parse_sequence fuel src rule_name is_nested q
          else mret (src, q)
      end
  end
(** From an alternate on, with the rule so far. *)
with parse_alternates (fuel : nat) (src : text) (rule_name : text) (rule_id : Z) (is_nested : bool)
    (r : rule) : Parse text :=
  match fuel with
  | O => no_fuel
  | S fuel =>
      '(src, q) ← parse_sequence fuel src rule_name is_nested
                    {| seq_rule := r; last_sym_start := length r; n_prev_rules := 1 |};
      if peek src =? 124
      then parse_alternates fuel (parse_space (tail src) true) rule_name rule_id is_nested
             (seq_rule q ++ [el ALT 0])
      else add_rule rule_id (seq_rule q ++ [el END 0]) ≫= fun _ => mret src
  end.

Definition parse_rule (fuel : nat) (src : text) : Parse text :=
  '(name, rest) ← lift_parse (parse_name src);
  let pos := parse_space rest false in
  id ← get_symbol_id name;
  match pos with
  | 58 :: 58 :: 61 :: pos =>
      pos ← parse_alternates fuel (parse_space pos true) name id false [];
      if peek pos =? 13
      then mret (parse_space (if peek1 pos =? 10 then tail (tail pos) else tail pos) true)
      else if peek pos =? 10 then mret (parse_space (tail pos) true)
      else if negb (peek pos =? 0) then fail "expecting newline or end"
      else mret (parse_space pos true)
  | _ => fail "expecting ::="
  end.

Fixpoint parse_rules (fuel : nat) (src : text) : Parse unit :=
  match fuel with
  | O => no_fuel
  | S fuel =>
      match src with
      | [] => mret tt
      | _ => src ← parse_rule fuel src; parse_rules fuel src
      end
  end.

(** The check that every reference has a rule: the exception needs the name. *)
Definition undefined_ref (s : Parser) (e : element) : bool :=
  bool_decide (type e = RULE_REF) &&
  match parsed_rules s !! Z.to_nat (value e) with
  | Some (_ :: _) => false
  | _ => existsb (fun kv => kv.2 =? value e) (map_to_list (symbol_ids s))
  end.

Definition validate (s : Parser) : bool :=
  forallb (fun r => negb (is_nil r) && negb (existsb (undefined_ref s) r)) (parsed_rules s).

(** The text is parsed with fuel for its length; an exception clears the rules. *)
Definition parse (src : text) : run (bool * Parser) :=
  r ← parse_rules (2 * length src + 3) (parse_space src true) empty_parser;
  let clear s := {| symbol_ids := symbol_ids s; parsed_rules := [] |} in
  Done (match r with
        | (Ok _, s) => if validate s then (true, s) else (false, clear s)
        | (Throw _, s) => (false, clear s)
        end).
End Vocabulary.

(** [init_impl] on a text; [None] is the null pointer. *)
Definition init_text (tokenize : option (text -> Z * Z)) (fuel : nat) (src root : text)
    (is_lazy : bool) (tokens : list Z) (patterns : list string) : run (option Grammar) :=
  r ← parse tokenize src;
  let '(ok, s) := r in
  if negb ok || is_nil (parsed_rules s) then Done None
  else match symbol_ids s !! root with
       | None => Done None
       | Some start => init_grammar fuel (parsed_rules s) (Z.to_nat start) is_lazy tokens patterns
       end.

(** ** Parsing ends *)

(** A step that ends, with a result that satisfies [Q] or with an exception. *)
Definition runs {A} (m : Parse A) (Q : A -> Prop) : Prop :=
  forall s, (exists a s', m s = Done (Ok a, s') /\ Q a) \/ exists e s', m s = Done (Throw e, s').

Lemma runs_ret {A} (a : A) (Q : A -> Prop) : Q a -> runs (mret a) Q.
Proof. intros HQ s. left. by exists a, s. Qed.

Lemma runs_fail {A} what (Q : A -> Prop) : runs (fail what) Q.
Proof. intros s. right. by eexists _, s. Qed.

Lemma runs_lift {A} (o : outcome A) (Q : A -> Prop) : (forall a, o = Ok a -> Q a) -> runs (lift_parse o) Q.
Proof. intros HQ s. destruct o as [a|e]; [left; exists a, s; auto|right; by exists e, s]. Qed.

Lemma runs_bind {A B} (m : Parse A) (k : A -> Parse B) (Q : A -> Prop) (R : B -> Prop) :
  runs m Q -> (forall a, Q a -> runs (k a) R) -> runs (m ≫= k) R.
Proof.
  intros Hm Hk s. unfold mbind, parse_bind.
  destruct (Hm s) as [(a & s' & -> & Ha)|(e & s' & ->)]; [apply (Hk a Ha)|right; by exists e, s'].
Qed.

Lemma runs_weaken {A} (m : Parse A) (Q R : A -> Prop) : runs m Q -> (forall a, Q a -> R a) -> runs m R.
Proof. intros Hm HQR s. destruct (Hm s) as [(a & s' & ? & ?)|?]; [left; exists a, s'; auto|by right]. Qed.

Lemma runs_get_symbol_id name : runs (get_symbol_id name) (fun _ => True).
Proof. intros s. left. unfold get_symbol_id. destruct (symbol_ids s !! name); by eexists _, _. Qed.

Lemma runs_generate base : runs (generate_symbol_id base) (fun _ => True).
Proof. intros s. left. by eexists _, _. Qed.

Lemma runs_add_rule i r : runs (add_rule i r) (fun _ => True).
Proof. intros s. left. by eexists _, _. Qed.

Lemma runs_size : runs read_size (fun _ => True).
Proof. intros s. left. by eexists _, _. Qed.

Create HintDb runs.
#[export] Hint Resolve runs_fail runs_get_symbol_id runs_generate runs_add_rule runs_size : runs.

(** *** Lengths *)

Lemma parse_space_in_length nl src : forall comment, (length (parse_space_in nl comment src) <= length src)%nat.
Proof.
  induction src as [|c src IH]; intros comment; cbn [parse_space_in]; [done|]. cbv zeta. simpl.
  pose proof (IH true). pose proof (IH false).
  destruct (comment && _); [lia|]. destruct (_ || _); [lia|]. destruct (c =? 35); [lia|].
  destruct (nl && _); simpl; lia.
Qed.

Lemma parse_space_length src nl : (length (parse_space src nl) <= length src)%nat.
Proof. apply parse_space_in_length. Qed.

Lemma span_length p src : forall l rest,
  span p src = (l, rest) -> (length l + length rest = length src)%nat.
Proof.
  induction src as [|c src IH]; intros l rest H; cbn [span] in H; [by injection H as <- <-|].
  destruct (p c); [|by injection H as <- <-]. destruct (span p src) as [l' rest'].
  injection H as <- <-. simpl. by rewrite <- (IH l' rest').
Qed.

Lemma parse_name_length src name rest :
  parse_name src = Ok (name, rest) -> (length rest < length src)%nat.
Proof.
  unfold parse_name. destruct (span is_word_char src) as [l r] eqn:Hs. apply span_length in Hs.
  destruct l; [done|]. intros [= <- <-]. simpl in Hs. lia.
Qed.

Lemma parse_int_length src digits rest :
  parse_int src = Ok (digits, rest) -> (length rest < length src)%nat.
Proof.
  unfold parse_int. destruct (span is_digit_char src) as [l r] eqn:Hs. apply span_length in Hs.
  destruct l; [done|]. intros [= <- <-]. simpl in Hs. lia.
Qed.

Lemma parse_hex_length n : forall src value v rest,
  parse_hex n src value = Ok (v, rest) -> (length rest <= length src)%nat.
Proof.
  induction n as [|n IH]; intros src value v rest H; cbn [parse_hex] in H; [by injection H as _ <-|].
  destruct src as [|c src]; [done|]. destruct (hex_digit c); [|done]. apply IH in H. simpl. lia.
Qed.

Lemma decode_rest_length n : forall src value, (length (decode_rest n src value).2 <= length src)%nat.
Proof.
  induction n as [|n IH]; intros [|b src] value; cbn [decode_rest]; try done.
  specialize (IH src (push_bits value b)). simpl. lia.
Qed.

Lemma parse_char_length src v rest : parse_char src = Ok (v, rest) -> (length rest < length src)%nat.
Proof.
  destruct src as [|c src]; [done|]. unfold parse_char. destruct (c =? 92).
  - destruct src as [|e after]; [done|]. cbn [length].
    destruct (e =? 120); [intros H; apply parse_hex_length in H; lia|].
    destruct (e =? 117); [intros H; apply parse_hex_length in H; lia|].
    destruct (e =? 85); [intros H; apply parse_hex_length in H; lia|].
    destruct (e =? 116); [intros [= <- <-]; lia|]. destruct (e =? 114); [intros [= <- <-]; lia|].
    destruct (e =? 110); [intros [= <- <-]; lia|]. destruct (_ || _); [intros [= <- <-]; lia|done].
  - intros [= H]. pose proof (decode_rest_length (Z.to_nat (char_lookup (Z.shiftr c 4) - 1)) src
      (Z.land c (Z.shiftl 1 (8 - char_lookup (Z.shiftr c 4)) - 1))) as Hl.
    unfold decode_char in H. rewrite H in Hl. simpl in *. lia.
Qed.

Lemma tail_length (src : text) : (length (tail src) <= length src)%nat.
Proof. destruct src; simpl; lia. Qed.

Lemma peek_length src c : c <> 0 -> peek src = c -> (length (tail src) < length src)%nat.
Proof. destruct src; simpl; [congruence|lia]. Qed.

Lemma peek_tail_length (src : text) c : c <> 0 -> (peek src =? c) = true -> (length (tail src) < length src)%nat.
Proof. intros Hc H%Z.eqb_eq. by eapply peek_length. Qed.

Section Runs.
Context (tokenize : option (text -> Z * Z)).

Lemma parse_token_length src v rest :
  parse_token tokenize src = Ok (v, rest) -> (length rest < length src)%nat.
Proof.
  unfold parse_token. destruct (peek src =? 60) eqn:Hp; [|done]. cbn [negb]. cbv zeta. set (s1 := tail src).
  apply peek_tail_length in Hp; [|done]. fold s1 in Hp.
  pose proof (tail_length s1) as Hs2. destruct (peek s1 =? 91).
  - destruct (parse_int (tail s1)) as [[digits r]|] eqn:Hi; [|done]. apply parse_int_length in Hi.
    cbn [mbind outcome_bind]. destruct (to_u64 digits); [|done]. cbn [mbind outcome_bind].
    destruct (negb _); [done|]. destruct (negb _); [done|]. intros [= _ <-].
    pose proof (tail_length (tail r)). pose proof (tail_length r). lia.
  - destruct tokenize as [f|]; [|done].
    destruct (span _ s1) as [inner r] eqn:Hs. apply span_length in Hs.
    destruct (is_nil r); [done|]. destruct (f _) as [n token]. destruct (negb _); [done|].
    intros [= _ <-]. pose proof (tail_length r). lia.
Qed.

End Runs.

Lemma parse_bounds_length src nested m n rest :
  parse_bounds src nested = Ok (m, n, rest) -> (length rest <= length src)%nat.
Proof.
  unfold parse_bounds. cbv zeta. set (s1 := parse_space src nested).
  assert (length s1 <= length src)%nat as Hs1 by apply parse_space_length.
  destruct (negb _); [done|].
  destruct (parse_int s1) as [[digits r]|] eqn:Hi; [|done]. apply parse_int_length in Hi.
  cbn [mbind outcome_bind]. destruct (to_u64 digits) as [v|]; [|done]. cbn [mbind outcome_bind].
  set (s2 := parse_space r nested). assert (length s2 <= length r)%nat by apply parse_space_length.
  pose proof (tail_length s2).
  destruct (peek s2 =? 125).
  { intros [= _ _ <-]. pose proof (parse_space_length (tail s2) nested). lia. }
  destruct (peek s2 =? 44); [|done].
  set (s3 := parse_space (tail s2) nested).
  assert (length s3 <= length (tail s2))%nat by apply parse_space_length.
  destruct (is_digit_char (peek s3)).
  - destruct (parse_int s3) as [[digits' r']|] eqn:Hi'; [|done]. apply parse_int_length in Hi'.
    cbn [mbind outcome_bind]. destruct (to_u64 digits') as [v'|]; [|done]. cbn [mbind outcome_bind].
    destruct (negb _); [done|]. intros [= _ _ <-].
    pose proof (parse_space_length (tail (parse_space r' nested)) nested).
    pose proof (tail_length (parse_space r' nested)). pose proof (parse_space_length r' nested). lia.
  - cbn [mbind outcome_bind]. destruct (negb _); [done|]. intros [= _ _ <-].
    pose proof (parse_space_length (tail s3) nested). pose proof (tail_length s3). lia.
Qed.

(** *** The bound on the rules repeated so far *)

Definition n_ok (q : Sequence) : Prop := 1 <= n_prev_rules q < 2 ^ 32.

Definition bounds_ok (m n : Z) : Prop := 0 <= m <= 2000 /\ (0 <= n <= 2000 \/ n = u64_max).

Lemma repetition_total_bounds m n :
  bounds_ok m n -> 1 <= repetition_total m n (n =? u64_max) <= 2000.
Proof.
  intros [Hm Hn]. unfold repetition_total.
  destruct (Z.eqb_spec n u64_max); destruct (Z.ltb_spec 0 n), (Z.ltb_spec 0 m); simpl; lia.
Qed.

Lemma runs_add_recursions k name r no_max : forall first last,
  runs (add_recursions k name r no_max first last) (fun _ => True).
Proof.
  induction k as [|k IH]; intros first last; cbn [add_recursions]; [by apply runs_ret|].
  eapply runs_bind; [apply runs_generate|intros id _].
  eapply runs_bind; [apply runs_add_rule|intros _ _]. apply IH.
Qed.

Lemma runs_repetitions name m n q :
  n_ok q -> bounds_ok m n -> runs (handle_repetitions name m n q) n_ok.
Proof.
  intros Hq Hb. unfold handle_repetitions. cbv zeta. case_bool_decide; [apply runs_fail|].
  pose proof (repetition_total_bounds m n Hb) as Ht. set (total := repetition_total _ _ _) in *.
  assert (u64 (n_prev_rules q * total) = n_prev_rules q * total) as ->.
  { apply Z.mod_small. unfold n_ok in Hq. nia. }
  destruct (Z.leb_spec 2000 (n_prev_rules q * total)); [apply runs_fail|].
  eapply runs_bind; [apply runs_add_recursions|intros last _].
  unfold n_ok in Hq. destruct (Z.ltb_spec (n_prev_rules q * total) 1); [nia|].
  apply runs_ret. unfold n_ok. cbn [n_prev_rules]. nia.
Qed.

(** The length of the rest of a lexed text. *)
Lemma runs_bind_lift {A B} (o : outcome (A * text)) (n : nat) (k : A * text -> Parse B) (R : B -> Prop) :
  (forall v r, o = Ok (v, r) -> (length r < n)%nat) ->
  (forall v r, (length r < n)%nat -> runs (k (v, r)) R) -> runs (lift_parse o ≫= k) R.
Proof.
  intros Ho Hk. apply runs_bind with (Q := fun vr => (length vr.2 < n)%nat).
  - apply runs_lift. intros [v r] H. exact (Ho v r H).
  - intros [v r] H. by apply Hk.
Qed.

(** *** Literals and classes end *)

Lemma runs_parse_literal fuel : forall src q,
  n_ok q -> (length src < fuel)%nat ->
  runs (parse_literal fuel src q) (fun '(rest, q) => (length rest <= length src)%nat /\ n_ok q).
Proof.
  induction fuel as [|fuel IH]; intros src q Hq Hf; [lia|]. cbn [parse_literal].
  destruct src as [|c rest]; [apply runs_fail|]. destruct (c =? 34); [apply runs_ret; simpl; auto with lia|].
  eapply runs_bind_lift; [apply parse_char_length|]. intros v r Hr.
  eapply runs_weaken; [apply IH; [exact Hq|lia]|]. intros [rest' q'] [Hl Hn]. split; [lia|done].
Qed.

Lemma runs_parse_class fuel t : forall src q,
  n_ok q -> (length src < fuel)%nat ->
  runs (parse_class fuel t src q) (fun '(rest, q) => (length rest <= length src)%nat /\ n_ok q).
Proof.
  induction fuel as [|fuel IH]; intros src q Hq Hf; [lia|]. cbn [parse_class].
  destruct src as [|c rest]; [apply runs_fail|]. destruct (c =? 93); [apply runs_ret; simpl; auto with lia|].
  eapply runs_bind_lift; [apply parse_char_length|]. intros v r Hr. cbv zeta. destruct (_ && _).
  - destruct (peek1 r =? 0); [apply runs_fail|].
    eapply runs_bind_lift; [apply parse_char_length|]. intros w r' Hr'. pose proof (tail_length r).
    eapply runs_weaken; [apply IH; [exact Hq|lia]|]. intros [rest' q'] [Hl Hn]. split; [lia|done].
  - eapply runs_weaken; [apply IH; [exact Hq|lia]|]. intros [rest' q'] [Hl Hn]. split; [lia|done].
Qed.

(** *** The bounds that are read *)

Lemma span_Forall p src : forall l rest, span p src = (l, rest) -> Forall (fun c => p c = true) l.
Proof.
  induction src as [|c src IH]; intros l rest H; cbn [span] in H; [by injection H as <- _|].
  destruct (p c) eqn:Hp; [|by injection H as <- _]. destruct (span p src) as [l' rest'].
  injection H as <- _. constructor; [done|by eapply IH].
Qed.

Lemma digits_nonneg digits : forall v,
  Forall (fun c => is_digit_char c = true) digits -> 0 <= v ->
  0 <= foldl (fun v c => 10 * v + (c - 48)) v digits.
Proof.
  induction digits as [|c digits IH]; intros v Hd Hv; [done|]. inversion Hd as [|? ? Hc Hd']; subst.
  simpl. apply IH; [done|]. unfold is_digit_char in Hc. lia.
Qed.

Lemma to_u64_parse_int src digits rest v :
  parse_int src = Ok (digits, rest) -> to_u64 digits = Ok v -> 0 <= v <= u64_max.
Proof.
  unfold parse_int, to_u64. destruct (span is_digit_char src) as [l r] eqn:Hs.
  destruct (is_nil l); [done|]. intros [= <- <-]. cbv zeta.
  destruct (Z.ltb_spec u64_max (foldl (fun v c => 10 * v + (c - 48)) 0 l)); [done|]. intros [= <-].
  split; [|done]. eapply digits_nonneg; [by eapply span_Forall|done].
Qed.

Lemma parse_bounds_range src nested m n rest :
  parse_bounds src nested = Ok (m, n, rest) -> 0 <= m <= u64_max /\ 0 <= n <= u64_max.
Proof.
  unfold parse_bounds. cbv zeta. destruct (negb _); [done|].
  destruct (parse_int _) as [[digits r]|] eqn:Hi; [|done].
  cbn [mbind outcome_bind]. destruct (to_u64 digits) as [v|] eqn:Hv; [|done]. cbn [mbind outcome_bind].
  pose proof (to_u64_parse_int _ _ _ _ Hi Hv) as Hb.
  destruct (peek _ =? 125); [intros [= <- <- _]; done|]. destruct (peek _ =? 44); [|done].
  destruct (is_digit_char _).
  - destruct (parse_int (parse_space (tail _) _)) as [[digits' r']|] eqn:Hi'; [|done].
    cbn [mbind outcome_bind]. destruct (to_u64 digits') as [v'|] eqn:Hv'; [|done]. cbn [mbind outcome_bind].
    pose proof (to_u64_parse_int _ _ _ _ Hi' Hv'). destruct (negb _); [done|]. by intros [= <- <- _].
  - cbn [mbind outcome_bind]. destruct (negb _); [done|]. intros [= <- <- _]. unfold u64_max in *. lia.
Qed.

Lemma sane_bounds_ok m n : 0 <= m -> 0 <= n -> sane_bounds m n = true -> bounds_ok m n.
Proof.
  unfold sane_bounds, bounds_ok. intros Hm Hn H. apply negb_true_iff, orb_false_iff in H as [H1 H2].
  apply Z.ltb_ge in H1. split; [lia|]. destruct (Z.eqb_spec n u64_max); [by right|]. simpl in H2. lia.
Qed.

(** *** Sequences and rules end *)

Section RunsSequence.
Context (tokenize : option (text -> Z * Z)).

Definition seq_done (src : text) (r : text * Sequence) : Prop :=
  (length r.1 <= length src)%nat /\ n_ok r.2.

Definition sequence_runs (fuel : nat) : Prop := forall src name nested q,
  n_ok q -> (2 * length src + 1 <= fuel)%nat ->
  runs (parse_sequence tokenize fuel src name nested q) (seq_done src).

Definition alternates_run (fuel : nat) : Prop := forall src name id nested r,
  (2 * length src + 2 <= fuel)%nat ->
  runs (parse_alternates tokenize fuel src name id nested r) (fun rest => (length rest <= length src)%nat).

Lemma n_ok_begin n q : 1 <= n < 2 ^ 32 -> n_ok (begin_symbol n q).
Proof. done. Qed.

(** The loop goes on with a shorter text. *)
Lemma runs_continue fuel src0 src name nested q :
  sequence_runs fuel -> n_ok q -> (length src < length src0)%nat -> (2 * length src0 <= fuel)%nat ->
  runs (parse_sequence tokenize fuel (parse_space src nested) name nested q) (seq_done src0).
Proof.
  intros IH Hq Hl Hf. pose proof (parse_space_length src nested).
  eapply runs_weaken; [apply IH; [done|lia]|]. intros [rest q'] [Hr Hn]. split; [simpl in *; lia|done].
Qed.

Lemma runs_alternates_step fuel : sequence_runs fuel -> alternates_run fuel -> alternates_run (S fuel).
Proof.
  intros IHs IHa src name id nested r Hf. cbn [parse_alternates].
  eapply runs_bind; [apply IHs; [by split|lia]|]. intros [s q] [Hs Hq]. simpl in Hs.
  destruct (peek s =? 124) eqn:Hp.
  - apply peek_tail_length in Hp; [|done]. pose proof (parse_space_length (tail s) true).
    eapply runs_weaken; [apply IHa; lia|]. cbn beta. lia.
  - eapply runs_bind; [apply runs_add_rule|intros _ _]. by apply runs_ret.
Qed.

Lemma u32_range_max z : 1 <= Z.max 1 (u32 z) < 2 ^ 32.
Proof. pose proof (Z.mod_pos_bound z (2 ^ 32) ltac:(lia)). unfold u32. lia. Qed.

Lemma runs_group_step fuel rest name nested q :
  sequence_runs fuel -> alternates_run fuel -> n_ok q -> (2 * S (length rest) <= fuel)%nat ->
  runs (before ← read_size;
        id ← generate_symbol_id name;
        src ← parse_alternates tokenize fuel (parse_space rest true) name id true [];
        after ← read_size;
        let q := push (el RULE_REF id) (begin_symbol (Z.max 1 (u32 (after - before))) q) in
        if peek src =? 41
        then parse_sequence tokenize fuel (parse_space (tail src) nested) name nested q
        else fail "expecting ')'") (seq_done (40 :: rest)).
Proof.
  intros IHs IHa Hq Hf.
  eapply runs_bind; [apply runs_size|intros before _].
  eapply runs_bind; [apply runs_generate|intros id _].
  pose proof (parse_space_length rest true).
  eapply runs_bind; [apply IHa; lia|intros src Hsrc]. cbn beta in Hsrc.
  eapply runs_bind; [apply runs_size|intros after _]. cbv zeta.
  destruct (peek src =? 41); [|apply runs_fail]. pose proof (tail_length src).
  apply runs_continue; [done|apply u32_range_max|cbn [length]; lia|cbn [length]; lia].
Qed.

Lemma runs_repeat_step fuel rest name nested m n q c :
  sequence_runs fuel -> n_ok q -> bounds_ok m n -> (2 * S (length rest) <= fuel)%nat ->
  runs (q ← handle_repetitions name m n q;
        parse_sequence tokenize fuel (parse_space rest nested) name nested q) (seq_done (c :: rest)).
Proof.
  intros IHs Hq Hb Hf. eapply runs_bind; [by apply runs_repetitions|intros q' Hq'].
  apply runs_continue; [done|done|cbn [length]; lia|cbn [length]; lia].
Qed.

Lemma runs_bounds_step fuel rest name nested q c :
  sequence_runs fuel -> n_ok q -> (2 * S (length rest) <= fuel)%nat ->
  runs ('(min_times, max_times, src) ← lift_parse (parse_bounds rest nested);
        if negb (sane_bounds min_times max_times)
        then fail "number of repetitions exceeds sane defaults"
        else
          q ← handle_repetitions name min_times max_times q;
          parse_sequence tokenize fuel src name nested q) (seq_done (c :: rest)).
Proof.
  intros IHs Hq Hf.
  apply runs_bind with (Q := fun '(m, n, src) => (length src <= length rest)%nat /\ 0 <= m /\ 0 <= n).
  { apply runs_lift. intros [[m n] src] H. pose proof (parse_bounds_length _ _ _ _ _ H).
    pose proof (parse_bounds_range _ _ _ _ _ H). repeat split; lia. }
  intros [[m n] src] (Hl & Hm & Hn). destruct (sane_bounds m n) eqn:Hs; [|apply runs_fail]. simpl negb. cbv iota.
  apply sane_bounds_ok in Hs; [|done|done].
  eapply runs_bind; [by apply runs_repetitions|intros q' Hq'].
  eapply runs_weaken; [apply IHs; [done|lia]|]. intros [r q''] [Hr Hn']. split; [simpl in *; lia|done].
Qed.

Lemma runs_sequence_step fuel : sequence_runs fuel -> alternates_run fuel -> sequence_runs (S fuel).
Proof.
  intros IHs IHa src name nested q Hq Hf. cbn [parse_sequence]. cbv zeta.
  destruct src as [|c rest]; [apply runs_ret; by split|]. cbn [length] in Hf.
  assert (forall n, 1 <= n < 2 ^ 32 -> n_ok (begin_symbol n q)) as Hb by done.
  assert (n_ok (begin_symbol 1 q)) as Hb1 by (by apply Hb).
  destruct (c =? 34).
  { eapply runs_bind; [apply runs_parse_literal; [done|lia]|]. intros [s q'] [Hs Hq'].
    apply runs_continue; [done|done|cbn [length]; lia|cbn [length]; lia]. }
  destruct (c =? 91).
  { destruct (if peek rest =? 94 then _ else _) as [t r] eqn:Ht.
    assert (length r <= length rest)%nat.
    { pose proof (tail_length rest). destruct (peek rest =? 94); injection Ht as _ <-; lia. }
    eapply runs_bind; [apply runs_parse_class; [done|lia]|]. intros [s q'] [Hs Hq'].
    apply runs_continue; [done|done|cbn [length]; lia|cbn [length]; lia]. }
  destruct (_ || _) eqn:Htok.
  { destruct (if c =? 33 then _ else _) as [t s] eqn:Ht.
    assert (length s <= S (length rest))%nat.
    { destruct (c =? 33); injection Ht as _ <-; simpl; lia. }
    eapply runs_bind_lift with (n := S (length rest)).
    { intros v r Hr. apply parse_token_length in Hr. lia. }
    intros v r Hr. apply runs_continue; [done|done|cbn [length]; lia|cbn [length]; lia]. }
  destruct (is_word_char c).
  { eapply runs_bind_lift; [apply parse_name_length|]. intros name' r Hr. cbn [length] in Hr.
    eapply runs_bind; [apply runs_get_symbol_id|intros id _].
    apply runs_continue; [done|done|cbn [length]; lia|cbn [length]; lia]. }
  destruct (c =? 40) eqn:Hc; [apply Z.eqb_eq in Hc as ->; apply runs_group_step; auto; lia|].
  destruct (c =? 46); [apply runs_continue; [done|done|cbn [length]; lia|cbn [length]; lia]|].
  assert (bounds_ok 0 u64_max /\ bounds_ok 1 u64_max /\ bounds_ok 0 1) as (H1 & H2 & H3).
  { unfold bounds_ok. repeat split; try lia; auto. }
  destruct (c =? 42); [apply runs_repeat_step; auto; lia|].
  destruct (c =? 43); [apply runs_repeat_step; auto; lia|].
  destruct (c =? 63); [apply runs_repeat_step; auto; lia|].
  destruct (c =? 123); [apply runs_bounds_step; auto; lia|]. apply runs_ret. split; [done|done].
Qed.

Lemma runs_both fuel : sequence_runs fuel /\ alternates_run fuel.
Proof.
  induction fuel as [|fuel [IHs IHa]]; [split; [intros ? ? ? ? ? ?|intros ? ? ? ? ? ?]; lia|].
  split; [by apply runs_sequence_step|by apply runs_alternates_step].
Qed.

End RunsSequence.

Section Total.
Context (tokenize : option (text -> Z * Z)).

(** The end of a rule's line. *)
Lemma runs_line_end n pos :
  (length pos <= n)%nat ->
  runs (if peek pos =? 13
        then mret (parse_space (if peek1 pos =? 10 then tail (tail pos) else tail pos) true)
        else if peek pos =? 10 then mret (parse_space (tail pos) true)
        else if negb (peek pos =? 0) then fail "expecting newline or end"
        else mret (parse_space pos true)) (fun rest => (length rest <= n)%nat).
Proof.
  intros Hn. pose proof (tail_length pos). pose proof (tail_length (tail pos)).
  assert (forall s, (length s <= n)%nat -> runs (mret (parse_space s true)) (fun rest => (length rest <= n)%nat)).
  { intros s Hs. apply runs_ret. pose proof (parse_space_length s true). lia. }
  destruct (peek pos =? 13); [destruct (peek1 pos =? 10); auto with lia|].
  destruct (peek pos =? 10); [auto with lia|]. destruct (negb _); [apply runs_fail|auto].
Qed.

Lemma runs_parse_rule fuel src :
  (2 * length src <= fuel)%nat ->
  runs (parse_rule tokenize fuel src) (fun rest => (length rest < length src)%nat).
Proof.
  intros Hf. unfold parse_rule.
  eapply runs_bind_lift; [apply parse_name_length|]. intros name rest Hr. cbv zeta.
  eapply runs_bind; [apply runs_get_symbol_id|intros id _].
  pose proof (parse_space_length rest false) as Hs. revert Hs.
  generalize (parse_space rest false). intros pos Hs.
  repeat (case_match; try apply runs_fail). subst. cbn [length] in Hs.
  match goal with |- context [parse_space ?p true] => pose proof (parse_space_length p true) end.
  eapply runs_bind; [apply runs_both; lia|]. intros pos' Hp. cbn beta in Hp.
  eapply runs_weaken; [apply (runs_line_end (length src - 1)); lia|]. cbn beta. lia.
Qed.

Lemma runs_parse_rules fuel : forall src,
  (2 * length src + 1 <= fuel)%nat -> runs (parse_rules tokenize fuel src) (fun _ => True).
Proof.
  induction fuel as [|fuel IH]; intros src Hf; [lia|]. cbn [parse_rules].
  destruct src as [|c src]; [by apply runs_ret|].
  eapply runs_bind; [apply runs_parse_rule; lia|]. intros rest Hr. cbn beta in Hr. apply IH. lia.
Qed.

End Total.
