(* ===== verification/GrammarSem.v ===== *)
(** * What the grammar matcher accepts

    The language of a grammar by leftmost derivation over symbols, independent of
    pointers and stacks; well-formed rules; and the proof that the stacks of the
    matcher always denote exactly the words that can still follow. *)

From stdpp Require Import base relations list strings.
From Stdlib Require Import ZArith Lia.
From S2P Require Import Prelude Grammar.

#[local] Set Default Proof Using "Type".
Open Scope Z_scope.

(** ** The language of a grammar *)

(** A token is consumed by a token element, or spelled in code points. *)
Inductive input := Chr (c : Z) | Tok (t : Z).

Inductive range := Any | Between (lo hi : Z).

Inductive symbol :=
  | Ref (r : nat)
  | Chars (positive : bool) (rs : list range)
  | TokenIs (v : Z)
  | TokenNot (v : Z).

Definition in_range (c : Z) (r : range) : bool :=
  match r with Any => true | Between lo hi => (lo <=? c) && (c <=? hi) end.

(** The ranges of a group of character elements. *)
Fixpoint ranges (l : list element) : list range :=
  match l with
  | e :: ((e1 :: l2) as l1) =>
      if bool_decide (type e1 = CHAR_RNG_UPPER) then
        Between (value e) (value e1) ::
        match l2 with
        | e2 :: _ => if bool_decide (type e2 = CHAR_ALT) then ranges l2 else []
        | [] => []
        end
      else
        (if bool_decide (type e = CHAR_ANY) then Any else Between (value e) (value e)) ::
        if bool_decide (type e1 = CHAR_ALT) then ranges l1 else []
  | _ => []
  end.

(** The symbols of an alternate. *)
Fixpoint symbols (l : list element) : list symbol :=
  match l with
  | [] => []
  | e :: l' =>
      match type e with
      | END | ALT => []
      | RULE_REF => Ref (Z.to_nat (value e)) :: symbols l'
      | CHAR | CHAR_ANY => Chars true (ranges l) :: symbols l'
      | CHAR_NOT => Chars false (ranges l) :: symbols l'
      | CHAR_RNG_UPPER | CHAR_ALT => symbols l'
      | TOKEN => TokenIs (value e) :: symbols l'
      | TOKEN_NOT => TokenNot (value e) :: symbols l'
      end
  end.

Fixpoint later_alternatives (l : list element) : list (list symbol) :=
  match l with
  | [] => []
  | e :: l =>
      match type e with
      | END => []
      | ALT => symbols l :: later_alternatives l
      | _ => later_alternatives l
      end
  end.

Definition alternatives (r : rule) : list (list symbol) := symbols r :: later_alternatives r.

(** Leftmost derivations. *)
Inductive generates (g : rules) : list symbol -> list input -> Prop :=
  | gen_nil : generates g [] []
  | gen_chr b rs c l w :
      existsb (in_range c) rs = b -> generates g l w ->
      generates g (Chars b rs :: l) (Chr c :: w)
  | gen_tok t l w v : v = u32 t -> generates g l w -> generates g (TokenIs v :: l) (Tok t :: w)
  | gen_not t l w v : v <> u32 t -> generates g l w -> generates g (TokenNot v :: l) (Tok t :: w)
  | gen_ref r rl alt l w :
      g !! r = Some rl -> alt ∈ alternatives rl -> generates g (alt ++ l) w ->
      generates g (Ref r :: l) w.

Lemma bind_done {A B} (a : A) (k : A -> run B) : Done a ≫= k = k a.
Proof. done. Qed.

Lemma run_fold_nil {A B} (f : B -> A -> run B) b : run_fold f [] b = Done b.
Proof. done. Qed.

Lemma run_fold_cons {A B} (f : B -> A -> run B) a l b :
  run_fold f (a :: l) b = (b' ← f b a; run_fold f l b').
Proof.
  unfold run_fold. cbn [foldl mbind run_bind].
  destruct (f b a); [done|clear..]; by induction l.
Qed.

Lemma generates_app g l1 l2 w1 w2 :
  generates g l1 w1 -> generates g l2 w2 -> generates g (l1 ++ l2) (w1 ++ w2).
Proof.
  induction 1; intros H2; simpl; [done|econstructor; eauto..].
  rewrite (assoc_L (++)). eauto.
Qed.

(** ** Well-formed rules *)

(** What the previous element was: not of a group, a character, a range. *)
Inductive place := Outside | Single | Ranged.

#[export] Instance place_eq_dec : EqDecision place.
Proof. solve_decision. Defined.

Fixpoint wf_elements (n : nat) (prev : place) (l : list element) : bool :=
  match l with
  | [] => false
  | e :: l =>
      match type e with
      | END => (value e =? 0) && is_nil l
      | ALT => wf_elements n Outside l
      | RULE_REF => (0 <=? value e) && (Z.to_nat (value e) <? n)%nat && wf_elements n Outside l
      | CHAR | CHAR_NOT => wf_elements n Single l
      | CHAR_ANY => wf_elements n Outside l
      | CHAR_RNG_UPPER => bool_decide (prev = Single) && wf_elements n Ranged l
      | CHAR_ALT => negb (bool_decide (prev = Outside)) && wf_elements n Single l
      | TOKEN | TOKEN_NOT => wf_elements n Outside l
      end
  end.

Definition wf_rules (g : rules) : bool := forallb (wf_elements (length g) Outside) g.

Section Rules.
Context (g : rules).
Abbreviation wf := (wf_elements (length g)).

Definition wf_at (p : pos) : Prop := wf Outside (elements_at g p) = true.

Definition is_group_type (t : gretype) : bool :=
  match t with CHAR | CHAR_NOT | CHAR_ANY => true | _ => false end.

Lemma forward_elements k p : elements_at g (forward k p) = drop k (elements_at g p).
Proof.
  unfold elements_at, forward. simpl. destruct (g !! p.1); [by rewrite drop_drop|by rewrite drop_nil].
Qed.

Lemma wf_at_cons p : wf_at p -> exists e l, elements_at g p = e :: l /\ element_at g p = Done e.
Proof.
  unfold wf_at, element_at. destruct (elements_at g p) as [|e l]; [done|]. intros _. by exists e, l.
Qed.

Lemma end_symbols l : wf Outside l = true ->
  forall e l', l = e :: l' -> is_end_type (type e) = true -> symbols l = [].
Proof. intros _ e l' -> He. simpl. by destruct (type e). Qed.

(** Pushing a pointer adds the symbols of its alternate. *)
Definition stack_symbols (s : stack) : list symbol := s ≫= fun p => symbols (elements_at g p).

(** The pointers a stack may hold. *)
Definition live (p : pos) : Prop :=
  wf_at p /\ exists e, element_at g p = Done e /\ is_end_type (type e) = false.

Definition valid (s : stack) : Prop := Forall live s.

Lemma push_pos_spec p s :
  wf_at p -> valid s ->
  exists s', push_pos g p s = Done s' /\ valid s' /\
    stack_symbols s' = symbols (elements_at g p) ++ stack_symbols s.
Proof.
  intros Hp Hs. destruct (wf_at_cons p Hp) as (e & l & Hel & He).
  unfold push_pos, is_end_of_sequence. rewrite He. cbn [mbind run_bind].
  destruct (is_end_type (type e)) eqn:Hend.
  - exists s. split; [done|]. split; [done|]. by rewrite (end_symbols _ Hp _ _ Hel Hend).
  - exists (p :: s). split; [done|]. split; [|done]. constructor; [|done]. split; [done|]. by exists e.
Qed.

(** *** Groups of characters *)

(** One round of the two loops over a group. *)
Lemma match_ranges_step e e1 l2 chr found n :
  match_ranges (e :: e1 :: l2) chr found n =
  if bool_decide (type e1 = CHAR_RNG_UPPER) then
    let found := found || ((value e <=? chr) && (chr <=? value e1)) in
    match l2 with
    | e2 :: _ => if bool_decide (type e2 = CHAR_ALT)
                 then match_ranges l2 chr found (n + 2) else Done (found, n + 2)%nat
    | [] => Abort
    end
  else
    let found := if bool_decide (type e = CHAR_ANY) then true else found || (value e =? chr) in
    if bool_decide (type e1 = CHAR_ALT)
    then match_ranges (e1 :: l2) chr found (n + 1) else Done (found, n + 1)%nat.
Proof. reflexivity. Qed.

Lemma ranges_step e e1 l2 :
  ranges (e :: e1 :: l2) =
  if bool_decide (type e1 = CHAR_RNG_UPPER) then
    Between (value e) (value e1) ::
    match l2 with
    | e2 :: _ => if bool_decide (type e2 = CHAR_ALT) then ranges l2 else []
    | [] => []
    end
  else
    (if bool_decide (type e = CHAR_ANY) then Any else Between (value e) (value e)) ::
    if bool_decide (type e1 = CHAR_ALT) then ranges (e1 :: l2) else [].
Proof. reflexivity. Qed.

Lemma match_ranges_spec l :
  (exists e l1, l = e :: l1 /\ type e <> CHAR_ANY /\ wf Single l1 = true) ->
  exists k, (forall chr found j, match_ranges l chr found j =
      Done (found || existsb (in_range chr) (ranges l), j + k)%nat) /\
    wf Outside (drop k l) = true /\ symbols (drop k l) = symbols (tail l).
Proof.
  induction l as [l IH] using (induction_ltof1 _ length). unfold ltof in IH.
  intros (e & l1 & -> & Hany & Hwf). destruct l1 as [|e1 l2]; [done|].
  setoid_rewrite match_ranges_step. rewrite ranges_step. cbv zeta. case_bool_decide as H1.
  - simpl in Hwf. rewrite H1 in Hwf. cbn [andb bool_decide] in Hwf.
    assert (symbols (e1 :: l2) = symbols l2) as Hsy by (simpl; by rewrite H1).
    destruct l2 as [|e2 l3]; [done|]. case_bool_decide as H2.
    + destruct (IH (e2 :: l3)) as (k & Hm & Hw & Hs).
      { simpl. lia. }
      { exists e2, l3. simpl in Hwf. by rewrite H2 in *. }
      exists (2 + k)%nat. cbn [drop Nat.add tail]. split; [|split; [done|by rewrite Hs, Hsy; simpl; rewrite H2]].
      intros chr found j. rewrite Hm. cbn [existsb in_range]. rewrite orb_assoc. do 2 f_equal. lia.
    + exists 2%nat. cbn [drop tail]. split; [|split; [|done]].
      * intros chr found j. cbn [existsb in_range]. by rewrite orb_false_r.
      * simpl in Hwf |- *. by destruct (type e2).
  - rewrite (bool_decide_eq_false_2 _ Hany).
    assert (forall c v, (v =? c) = ((v <=? c) && (c <=? v))) as Heq by (intros; lia).
    case_bool_decide as H2.
    + destruct (IH (e1 :: l2)) as (k & Hm & Hw & Hs).
      { simpl. lia. }
      { exists e1, l2. simpl in Hwf. by rewrite H2 in *. }
      exists (1 + k)%nat. cbn [drop Nat.add tail]. split; [|split; [done|by rewrite Hs; simpl; rewrite H2]].
      intros chr found j. rewrite Hm. cbn [existsb in_range]. rewrite <- Heq, orb_assoc.
      do 2 f_equal. lia.
    + exists 1%nat. cbn [drop tail]. split; [|split; [|done]].
      * intros chr found j. cbn [existsb in_range]. by rewrite <- Heq, orb_false_r.
      * simpl in Hwf |- *. by destruct (type e1).
Qed.

(** Matching a character element tests its ranges and moves past the group. *)
Lemma match_char_spec p e :
  wf_at p -> element_at g p = Done e -> is_group_type (type e) = true ->
  exists p', forall chr,
    match_char g p chr =
      Done (eqb (existsb (in_range chr) (ranges (elements_at g p))) (is_positive_char (type e)), p') /\
    wf_at p' /\
    symbols (elements_at g p) =
      Chars (is_positive_char (type e)) (ranges (elements_at g p)) :: symbols (elements_at g p').
Proof.
  intros Hp He Ht. destruct (wf_at_cons p Hp) as (e' & l & Hel & He'). rewrite He in He'.
  injection He' as <-. unfold wf_at in Hp. rewrite Hel in Hp.
  assert (exists k, forall chr,
    match_ranges (e :: l) chr false 0 = Done (existsb (in_range chr) (ranges (e :: l)), k) /\
    (wf Outside (drop k (e :: l)) = true /\ symbols (drop k (e :: l)) = symbols l)) as [k Hk].
  { destruct (decide (type e = CHAR_ANY)) as [Ha|Ha].
    - exists 1%nat. intros chr. simpl in Hp. rewrite Ha in Hp. destruct l as [|e1 l]; [done|].
      cbn [match_ranges ranges]. rewrite (bool_decide_eq_true_2 _ Ha).
      assert (type e1 <> CHAR_RNG_UPPER /\ type e1 <> CHAR_ALT) as [H1 H2]
        by (simpl in Hp; destruct (type e1); done).
      by rewrite (bool_decide_eq_false_2 _ H1), (bool_decide_eq_false_2 _ H2).
    - assert (wf Single l = true) as Hl by (simpl in Hp; by destruct (type e)).
      destruct (match_ranges_spec (e :: l)) as (k & Hm & Hw & Hs); [by exists e, l|].
      exists k. intros chr. rewrite Hm. by split. }
  exists (forward k p). intros chr. unfold match_char. rewrite He. cbn [mbind run_bind].
  assert (negb (is_positive_char (type e) || bool_decide (type e = CHAR_NOT)) = false) as ->.
  { destruct (type e); try done. }
  destruct (Hk chr) as (Hm & Hw & Hs). rewrite Hel, Hm. cbn [mbind run_bind fst snd].
  split; [done|]. unfold wf_at. rewrite forward_elements, Hel. split; [done|]. rewrite Hs.
  simpl. by destruct (type e).
Qed.

(** *** Expanding a rule *)

Lemma alternates_spec r l : forall prev i start,
  drop i r = l -> wf prev l = true ->
  exists later, alternates l i start = Done (start :: later) /\
    map (fun j => symbols (drop j r)) later = later_alternatives l /\
    Forall (fun j => wf Outside (drop j r) = true) later.
Proof.
  induction l as [|e l IH]; intros prev i start Hd Hw; [done|].
  assert (drop (S i) r = l) as Hd'.
  { rewrite <- Nat.add_1_r, <- drop_drop, Hd. done. }
  assert (type e <> END -> exists prev', wf prev' l = true) as Hnext.
  { intros He. simpl in Hw. destruct (type e); try done; try (by eexists);
      apply andb_true_iff in Hw as [_ Hw]; by eexists. }
  cbn [alternates later_alternatives]. destruct (decide (type e = END)) as [He|He].
  { rewrite He. by exists []. }
  destruct (decide (type e = ALT)) as [Ha|Ha].
  - rewrite Ha. destruct (IH Outside (S i) (S i) Hd') as (later & Hl & Hm & Hf).
    { simpl in Hw. by rewrite Ha in Hw. }
    exists (S i :: later). rewrite Hl. split; [done|]. split; [by simpl; rewrite Hd', Hm|].
    constructor; [|done]. rewrite Hd'. simpl in Hw. by rewrite Ha in Hw.
  - destruct (Hnext He) as [prev' Hw']. destruct (IH prev' (S i) start Hd' Hw') as (later & Hl & Hm & Hf).
    exists later. rewrite Hl, <- Hm. by destruct (type e).
Qed.

#[local] Set Default Proof Using "All".
Hypothesis Hg : wf_rules g = true.

Lemma rule_wf r rl : g !! r = Some rl -> wf Outside rl = true.
Proof.
  intros Hr. unfold wf_rules in Hg. rewrite forallb_forall in Hg. apply Hg, list_elem_of_In.
  by eapply list_elem_of_lookup_2.
Qed.

Lemma rule_alternates r rl :
  g !! r = Some rl -> exists starts, alternates rl 0 0 = Done starts /\
    Forall (fun i => wf_at (r, i)) starts /\
    map (fun i => symbols (elements_at g (r, i))) starts = alternatives rl.
Proof.
  intros Hr. pose proof (rule_wf r rl Hr) as Hw.
  destruct (alternates_spec rl rl Outside 0 0 eq_refl Hw) as (later & Ha & Hm & Hf).
  assert (forall i, elements_at g (r, i) = drop i rl) as Hat.
  { intros i. unfold elements_at. simpl. by rewrite Hr. }
  exists (0%nat :: later). split; [done|]. unfold wf_at. split.
  - constructor; [by rewrite Hat|]. apply (Forall_impl _ _ _ Hf). intros j. by rewrite Hat.
  - simpl. rewrite Hat. unfold alternatives. f_equal. rewrite <- Hm. apply map_ext.
    intros j. by rewrite Hat.
Qed.

Lemma live_ref p e :
  live p -> element_at g p = Done e -> type e = RULE_REF ->
  wf_at (forward 1 p) /\ (exists rl, g !! Z.to_nat (value e) = Some rl) /\
  symbols (elements_at g p) = Ref (Z.to_nat (value e)) :: symbols (elements_at g (forward 1 p)).
Proof.
  intros [Hp _] He Ht. destruct (wf_at_cons p Hp) as (e' & l & Hel & He'). rewrite He in He'.
  injection He' as <-. unfold wf_at in *. rewrite forward_elements, Hel in *. cbn [drop].
  simpl in Hp |- *. rewrite Ht in *. apply andb_true_iff in Hp as [Hv Hp].
  split; [done|]. split; [|done]. apply lookup_lt_is_Some. apply andb_true_iff in Hv as [_ Hv].
  by apply Nat.ltb_lt in Hv.
Qed.

Lemma expand_spec p e rest rl :
  live p -> valid rest -> element_at g p = Done e -> type e = RULE_REF ->
  g !! Z.to_nat (value e) = Some rl ->
  exists nexts, expand g p (Z.to_nat (value e)) rest = Done nexts /\ Forall valid nexts /\
    map stack_symbols nexts =
      map (fun alt => alt ++ symbols (elements_at g (forward 1 p)) ++ stack_symbols rest)
        (alternatives rl).
Proof.
  intros Hp Hr He Ht Hrl. destruct (live_ref p e Hp He Ht) as (Hf & _ & _).
  destruct (push_pos_spec (forward 1 p) rest Hf Hr) as (s1 & H1 & Hv1 & Hs1).
  destruct (rule_alternates _ rl Hrl) as (starts & Ha & Hw & Hm).
  unfold expand. rewrite Hrl, Ha. cbn [mbind run_bind]. rewrite <- Hm. clear Ha Hm.
  enough (forall acc, exists nexts, run_fold (push_next g p (Z.to_nat (value e)) rest) starts acc = Done (acc ++ nexts) /\ Forall valid nexts /\
    map stack_symbols nexts =
      map (fun alt => alt ++ symbols (elements_at g (forward 1 p)) ++ stack_symbols rest)
        (map (fun i => symbols (elements_at g (Z.to_nat (value e), i))) starts)) as Hall.
  { exact (Hall []). }
  induction Hw as [|i starts Hi _ IH]; intros acc.
  { exists []. by rewrite app_nil_r. }
  destruct (push_pos_spec (Z.to_nat (value e), i) s1 Hi Hv1) as (s2 & H2 & Hv2 & Hs2).
  assert (push_next g p (Z.to_nat (value e)) rest acc i = Done (acc ++ [s2])) as Hstep.
  { unfold push_next. by rewrite H1, bind_done, H2. }
  rewrite run_fold_cons, Hstep, bind_done.
  destruct (IH (acc ++ [s2])) as (nexts & Hn & Hv & Hsy). exists (s2 :: nexts).
  rewrite Hn, <- (assoc_L (++)). split; [done|]. split; [by constructor|]. simpl.
  by rewrite Hsy, Hs2, Hs1.
Qed.

(** ** The search of [advance_stack] *)

(** One replacement of a rule reference on top. *)
Definition expands (s s' : stack) : Prop :=
  exists p rest e nexts, s = p :: rest /\ element_at g p = Done e /\ type e = RULE_REF /\
    expand g p (Z.to_nat (value e)) rest = Done nexts /\ s' ∈ nexts.

(** Empty, or with a terminal on top. *)
Definition terminal (s : stack) : Prop :=
  s = [] \/ exists p rest e, s = p :: rest /\ element_at g p = Done e /\
    (is_group_type (type e) || is_token_type (type e)) = true.

Lemma expands_valid s s' : valid s -> expands s s' -> valid s'.
Proof.
  intros Hs (p & rest & e & nexts & -> & He & Ht & Hn & Hin). apply Forall_cons in Hs as [Hp Hr].
  destruct (live_ref p e Hp He Ht) as (_ & [rl Hrl] & _).
  destruct (expand_spec p e rest rl Hp Hr He Ht Hrl) as (nexts' & Hn' & Hv & _).
  rewrite Hn in Hn'. injection Hn' as <-. exact (proj1 (Forall_forall _ _) Hv _ Hin).
Qed.

Lemma reach_valid s s' : valid s -> rtc expands s s' -> valid s'.
Proof. intros Hs Hr. induction Hr; eauto using expands_valid. Qed.

Lemma valid_cases s :
  valid s -> terminal s \/ exists p rest e, s = p :: rest /\ element_at g p = Done e /\ type e = RULE_REF.
Proof.
  intros Hs. destruct s as [|p rest]; [left; by left|]. apply Forall_cons in Hs as [[Hp (e & He & Hend)] _].
  destruct (wf_at_cons p Hp) as (e' & l & Hel & He'). rewrite He in He'. injection He' as <-.
  unfold wf_at in Hp. rewrite Hel in Hp. simpl in Hp.
  destruct (type e) eqn:Ht; try done; [right; by exists p, rest, e|left; right; exists p, rest, e; by rewrite Ht..].
Qed.

Lemma terminal_not_ref p rest e :
  terminal (p :: rest) -> element_at g p = Done e -> type e <> RULE_REF.
Proof.
  intros [Hn|(p' & rest' & e' & Heq & He' & Ht)] He Hr; [done|]. injection Heq as <- <-.
  rewrite He in He'. injection He' as <-. by rewrite Hr in Ht.
Qed.

Lemma add_stack_elem s l t : t ∈ add_stack s l <-> t = s \/ t ∈ l.
Proof. unfold add_stack. case_bool_decide; set_solver. Qed.

Lemma add_stack_NoDup s l : NoDup l -> NoDup (add_stack s l).
Proof.
  unfold add_stack. case_bool_decide; [done|]. intros Hl. apply NoDup_app. split; [done|].
  split; [set_solver|apply NoDup_singleton].
Qed.

(** The invariant of the worklist started at [s0] with the stacks [news0]. *)
Record searching (s0 : stack) (news0 todo seen news : list stack) : Prop := {
  search_start : s0 ∈ seen \/ s0 ∈ todo;
  search_reach s : s ∈ seen \/ s ∈ todo -> rtc expands s0 s;
  search_closed s s' : s ∈ seen -> expands s s' -> s' ∈ seen \/ s' ∈ todo;
  search_found s : s ∈ seen -> terminal s -> s ∈ news;
  search_news s : s ∈ news -> s ∈ news0 \/ terminal s /\ rtc expands s0 s;
  search_kept s : s ∈ news0 -> s ∈ news;
}.

Lemma searching_skip s0 news0 s todo seen news :
  searching s0 news0 (s :: todo) seen news -> s ∈ seen -> searching s0 news0 todo seen news.
Proof. intros [] Hin. constructor; set_solver. Qed.

Lemma searching_terminal s0 news0 s todo seen news :
  searching s0 news0 (s :: todo) seen news -> terminal s ->
  searching s0 news0 todo (s :: seen) (add_stack s news).
Proof.
  intros [] Ht.
  assert (forall s', ~ expands s s') as Hno.
  { intros s' (p & rest & e & nexts & -> & He & Hty & _). by apply (terminal_not_ref p rest e). }
  constructor; try setoid_rewrite add_stack_elem; set_solver.
Qed.

Lemma searching_expand s0 news0 s todo seen news nexts :
  searching s0 news0 (s :: todo) seen news -> (forall s', expands s s' <-> s' ∈ nexts) -> ~ terminal s ->
  searching s0 news0 (reverse nexts ++ todo) (s :: seen) news.
Proof.
  intros [] Hex Hnt. constructor.
  - set_solver.
  - intros t. rewrite elem_of_app, elem_of_reverse, elem_of_cons. intros [[->|?]|[Hn|?]]; [set_solver..| |set_solver].
    apply rtc_r with s; [apply search_reach0; set_solver|]. by apply Hex.
  - intros t t'. rewrite elem_of_app, elem_of_reverse, !elem_of_cons. intros [->|Ht] He.
    + right. left. by apply Hex.
    + destruct (search_closed0 t t' Ht He) as [?|[->|?]%elem_of_cons]; tauto.
  - set_solver.
  - done.
  - done.
Qed.

Lemma expands_iff p rest e nexts s' :
  element_at g p = Done e -> type e = RULE_REF ->
  expand g p (Z.to_nat (value e)) rest = Done nexts ->
  expands (p :: rest) s' <-> s' ∈ nexts.
Proof.
  intros He Ht Hn. split; [|by exists p, rest, e, nexts].
  intros (p' & rest' & e' & nexts' & Heq & He' & _ & Hn' & Hin). injection Heq as <- <-.
  rewrite He in He'. injection He' as <-. rewrite Hn in Hn'. by injection Hn' as <-.
Qed.

(** The cases of one round of the worklist. *)
Lemma advance_loop_step fuel s todo seen news :
  valid s ->
  (s ∈ seen /\ advance_loop (S fuel) g (s :: todo) seen news = advance_loop fuel g todo seen news) \/
  (s ∉ seen /\ terminal s /\
   advance_loop (S fuel) g (s :: todo) seen news =
     advance_loop fuel g todo (s :: seen) (add_stack s news)) \/
  (s ∉ seen /\ ~ terminal s /\ exists nexts,
   (forall s', expands s s' <-> s' ∈ nexts) /\ Forall valid nexts /\
   advance_loop (S fuel) g (s :: todo) seen news =
     advance_loop fuel g (reverse nexts ++ todo) (s :: seen) news).
Proof.
  intros Hs. cbn [advance_loop]. destruct (decide (s ∈ seen)) as [Hin|Hin].
  { left. by rewrite bool_decide_eq_true_2. }
  rewrite bool_decide_eq_false_2 by done. right.
  destruct (valid_cases s Hs) as [Ht|(p & rest & e & -> & He & Ht)].
  - left. split; [done|]. split; [done|].
    destruct Ht as [->|(p & rest & e & -> & He & Ht)]; [done|]. rewrite He. cbn [mbind run_bind].
    by destruct (type e).
  - right. split; [done|]. apply Forall_cons in Hs as [Hp Hr].
    destruct (live_ref p e Hp He Ht) as (_ & [rl Hrl] & _).
    destruct (expand_spec p e rest rl Hp Hr He Ht Hrl) as (nexts & Hn & Hv & _).
    split; [intros Hterm; by apply (terminal_not_ref p rest e)|]. exists nexts.
    split; [intros s'; by apply expands_iff with e|]. split; [done|].
    rewrite He, bind_done, Ht, Hn. done.
Qed.

Lemma advance_loop_spec s0 news0 fuel : forall todo seen news out,
  searching s0 news0 todo seen news -> Forall valid todo -> NoDup news ->
  advance_loop fuel g todo seen news = Done out ->
  NoDup out /\ exists seen', searching s0 news0 [] seen' out.
Proof.
  induction fuel as [|fuel IH]; intros todo seen news out Hs Hv Hnd Hr; [done|].
  destruct todo as [|s todo].
  { injection Hr as <-. eauto. }
  apply Forall_cons in Hv as [Hvs Hv].
  destruct (advance_loop_step fuel s todo seen news Hvs)
    as [(Hin & Heq)|[(Hin & Ht & Heq)|(Hin & Ht & nexts & Hex & Hvn & Heq)]]; rewrite Heq in Hr.
  - apply (IH todo seen news); eauto using searching_skip.
  - apply (IH todo (s :: seen) (add_stack s news)); eauto using searching_terminal, add_stack_NoDup.
  - apply (IH (reverse nexts ++ todo) (s :: seen) news); eauto using searching_expand.
    apply Forall_app. split; [|done]. by apply Forall_reverse.
Qed.

Lemma searching_init s news : searching s news [s] [] news.
Proof.
  constructor; set_solver.
Qed.

(** Everything reachable is in the [seen] set of a finished search. *)
Lemma searching_done s0 news0 seen out t :
  searching s0 news0 [] seen out -> rtc expands s0 t -> t ∈ seen.
Proof.
  intros [] Hr. assert (s0 ∈ seen) as H0 by set_solver. clear -H0 Hr search_closed0.
  induction Hr as [|x y z Hxy _ IH]; [done|]. apply IH.
  destruct (search_closed0 x y H0 Hxy); set_solver.
Qed.

(** The result of the search: the stacks that were there and the terminal stacks
    that can be reached, each once. *)
Lemma advance_stack_elem fuel s news out :
  valid s -> NoDup news -> advance_stack fuel g s news = Done out ->
  NoDup out /\ forall t, t ∈ out <-> t ∈ news \/ terminal t /\ rtc expands s t.
Proof.
  intros Hs Hnd Hr.
  destruct (advance_loop_spec s news fuel [s] [] news out) as (Hnd' & seen & Hsr);
    [apply searching_init|by repeat constructor|done|done|].
  split; [done|]. intros t. split.
  - apply (search_news _ _ _ _ _ Hsr).
  - intros [Ht|[Ht Hrt]]; [by apply (search_kept _ _ _ _ _ Hsr)|].
    apply (search_found _ _ _ _ _ Hsr); [by eapply searching_done|done].
Qed.

(** *** The language of a stack *)

Definition follows (s : stack) (w : list input) : Prop := generates g (stack_symbols s) w.

Lemma expands_symbols p rest e rl :
  valid (p :: rest) -> element_at g p = Done e -> type e = RULE_REF ->
  g !! Z.to_nat (value e) = Some rl ->
  exists tl, stack_symbols (p :: rest) = Ref (Z.to_nat (value e)) :: tl /\
    (forall alt, alt ∈ alternatives rl ->
      exists s', expands (p :: rest) s' /\ stack_symbols s' = alt ++ tl) /\
    (forall s', expands (p :: rest) s' ->
      exists alt, alt ∈ alternatives rl /\ stack_symbols s' = alt ++ tl).
Proof.
  intros Hv He Ht Hrl. apply Forall_cons in Hv as [Hp Hr].
  destruct (live_ref p e Hp He Ht) as (_ & _ & Hsy).
  destruct (expand_spec p e rest rl Hp Hr He Ht Hrl) as (nexts & Hn & _ & Hm).
  eexists. split; [simpl; rewrite Hsy; reflexivity|]. simpl.
  setoid_rewrite (expands_iff p rest e nexts _ He Ht Hn). split.
  - intros alt Ha. apply list_elem_of_In in Ha. apply (in_map (fun alt => alt ++
      symbols (elements_at g (forward 1 p)) ++ stack_symbols rest)) in Ha.
    rewrite <- Hm in Ha. apply in_map_iff in Ha as (s' & Heq & Hin).
    exists s'. by rewrite list_elem_of_In.
  - intros s' Hin. apply list_elem_of_In in Hin. apply (in_map stack_symbols) in Hin.
    rewrite Hm in Hin. apply in_map_iff in Hin as (alt & Heq & Ha). exists alt.
    by rewrite list_elem_of_In.
Qed.

Lemma expands_follows s s' w : valid s -> expands s s' -> follows s' w -> follows s w.
Proof.
  intros Hv Hex Hw. pose proof Hex as (p & rest & e & nexts & -> & He & Ht & _).
  pose proof (live_ref p e (Forall_inv Hv) He Ht) as (_ & [rl Hrl] & _).
  destruct (expands_symbols p rest e rl Hv He Ht Hrl) as (tl & Htl & _ & Hback).
  destruct (Hback s' Hex) as (alt & Ha & Hs'). unfold follows in *. rewrite Htl.
  apply gen_ref with rl alt; [done..|]. by rewrite <- Hs'.
Qed.

Lemma reach_follows s s' w : valid s -> rtc expands s s' -> follows s' w -> follows s w.
Proof. intros Hv Hr. induction Hr; eauto using expands_follows, expands_valid. Qed.

(** Whatever follows a stack follows a terminal stack that it reaches. *)
Lemma follows_terminal s w :
  valid s -> follows s w -> exists t, terminal t /\ rtc expands s t /\ follows t w.
Proof.
  unfold follows. intros Hv Hw. remember (stack_symbols s) as l eqn:Hl. revert s Hv Hl.
  assert (forall s w, terminal s -> generates g (stack_symbols s) w ->
    exists t, terminal t /\ rtc expands s t /\ generates g (stack_symbols t) w) as Hterm.
  { intros s w' Ht Hg'. exists s. split; [done|]. split; [apply rtc_refl|done]. }
  induction Hw as [|b rs c l w Hb Hw IH|t l w v Hv' Hw IH|t l w v Hv' Hw IH|r rl alt l w Hr Ha Hw IH];
    intros s Hv Hl; (destruct (valid_cases s Hv) as [Ht|(p & rest & e & -> & He & Ht)];
      [apply Hterm; [done|rewrite <- Hl; by econstructor]|]);
    pose proof (live_ref p e (Forall_inv Hv) He Ht) as (_ & [rl' Hrl] & _);
    destruct (expands_symbols p rest e rl' Hv He Ht Hrl) as (tl & Htl & Hforth & _);
    rewrite Htl in Hl; try done.
  injection Hl as -> ->. rewrite Hr in Hrl. injection Hrl as <-.
  destruct (Hforth alt Ha) as (s' & Hex & Hs').
  destruct (IH s') as (t & Ht1 & Hreach & Hf); [by eapply expands_valid|done|].
  exists t. split; [done|]. split; [by apply rtc_l with s'|done].
Qed.

(** ** Accepting *)

Definition follows_any (ss : list stack) (w : list input) : Prop :=
  exists s, s ∈ ss /\ follows s w.

Definition settled (s : stack) : Prop := valid s /\ terminal s.

(** [out] adds to [news] settled stacks whose words are those of [P]. *)
Definition extends (news : list stack) (P : list input -> Prop) (out : list stack) : Prop :=
  NoDup out /\ (forall t, t ∈ news -> t ∈ out) /\ (forall t, t ∈ out -> t ∈ news \/ settled t) /\
  forall w, follows_any out w <-> follows_any news w \/ P w.

Lemma extends_none news (P : list input -> Prop) : NoDup news -> (forall w, ~ P w) -> extends news P news.
Proof. intros Hnd HP. split; [done|]. split; [done|]. split; [by left|]. intros w. naive_solver. Qed.

Lemma extends_iff news (P Q : list input -> Prop) out :
  (forall w, P w <-> Q w) -> extends news P out -> extends news Q out.
Proof. intros HPQ (H1 & H2 & H3 & H4). split; [done|]. split; [done|]. split; [done|]. intros w. by rewrite <- HPQ. Qed.

Lemma advance_extends fuel s news out :
  valid s -> NoDup news -> advance_stack fuel g s news = Done out -> extends news (follows s) out.
Proof.
  intros Hs Hnd Hr. destruct (advance_stack_elem fuel s news out Hs Hnd Hr) as [Hnd' Hin].
  split; [done|]. split; [intros t Ht; apply Hin; by left|]. split.
  - intros t Ht. apply Hin in Ht as [?|[? ?]]; [by left|]. right. split; [by eapply reach_valid|done].
  - intros w. unfold follows_any. setoid_rewrite Hin. split.
    + intros (t & [Ht|[_ Ht]] & Hw); [left; by exists t|]. right. by eapply reach_follows.
    + intros [(t & Ht & Hw)|Hw]; [exists t; tauto|].
      destruct (follows_terminal s w Hs Hw) as (t & ? & ? & ?). exists t. tauto.
Qed.

Lemma fold_extends {A} (f : list stack -> A -> run (list stack)) (P : A -> list input -> Prop) l :
  forall news out,
  (forall news a out, a ∈ l -> NoDup news -> f news a = Done out -> extends news (P a) out) ->
  NoDup news -> run_fold f l news = Done out ->
  extends news (fun w => exists a, a ∈ l /\ P a w) out.
Proof.
  induction l as [|a l IH]; intros news out Hf Hnd Hr.
  { injection Hr as <-. apply extends_none; [done|]. set_solver. }
  rewrite run_fold_cons in Hr. destruct (f news a) as [mid| |] eqn:Ha; [|done..]. rewrite bind_done in Hr.
  destruct (Hf news a mid) as (H1 & H2 & H3 & H4); [left|done|done|].
  destruct (IH mid out) as (H5 & H6 & H7 & H8); [intros; eapply Hf; eauto; by right|done|done|].
  split; [done|]. split; [auto|]. split; [naive_solver|]. intros w. rewrite H8, H4.
  setoid_rewrite elem_of_cons. naive_solver.
Qed.

(** *** One code point *)

Lemma accept_chr_extends fuel s chr news out :
  settled s -> NoDup news -> accept_chr fuel g s chr news = Done out ->
  extends news (fun w => follows s (Chr chr :: w)) out.
Proof.
  intros [Hv Ht] Hnd. unfold accept_chr, follows. destruct Ht as [->|(p & rest & e & -> & He & Ht)].
  { intros [= <-]. apply extends_none; [done|]. intros w Hw. inversion Hw. }
  apply Forall_cons in Hv as [[Hp _] Hr]. rewrite He, bind_done.
  destruct (wf_at_cons p Hp) as (e' & l & Hel & He'). rewrite He in He'. injection He' as <-.
  destruct (is_token_type (type e)) eqn:Htok.
  - intros [= <-]. apply extends_none; [done|]. intros w Hw. simpl in Hw. rewrite Hel in Hw.
    simpl in Hw. destruct (type e); try done; inversion Hw.
  - rewrite orb_false_r in Ht. destruct (match_char_spec p e Hp He Ht) as (p' & Hm).
    destruct (Hm chr) as (Hmc & Hp' & Hsy). rewrite Hmc, bind_done. cbn [fst snd].
    destruct (push_pos_spec p' rest Hp' Hr) as (s' & Hpush & Hv' & Hs').
    destruct (eqb _ _) eqn:Heq.
    + rewrite Hpush, bind_done. intros Hadv. apply advance_extends in Hadv; [|done..].
      apply (extends_iff _ (follows s')); [|done]. intros w. unfold follows. rewrite Hs'. simpl.
      rewrite Hsy. apply eqb_prop in Heq. split; [by apply gen_chr|by inversion 1].
    + intros [= <-]. apply extends_none; [done|]. intros w Hw. simpl in Hw. rewrite Hsy in Hw.
      inversion Hw; subst. apply eqb_false_iff in Heq. congruence.
Qed.

Definition all_settled (ss : list stack) : Prop := NoDup ss /\ Forall settled ss.

Lemma extends_settled (P : list input -> Prop) out :
  extends [] P out -> all_settled out /\ forall w, follows_any out w <-> P w.
Proof.
  intros (H1 & _ & H3 & H4). split.
  - split; [done|]. apply Forall_forall. intros t Ht. destruct (H3 t Ht); [set_solver|done].
  - intros w. rewrite H4. unfold follows_any. set_solver.
Qed.

Lemma accept_chars_spec fuel ss chr out :
  all_settled ss -> accept_chars fuel g ss chr = Done out ->
  all_settled out /\ forall w, follows_any out w <-> follows_any ss (Chr chr :: w).
Proof.
  intros [_ Hs] Hr. apply extends_settled. unfold accept_chars in Hr. unfold follows_any.
  apply (fold_extends _ (fun s w => follows s (Chr chr :: w)) _ [] out) in Hr; [done| |constructor].
  intros news s out' Hin. apply accept_chr_extends. exact (proj1 (Forall_forall _ _) Hs s Hin).
Qed.

Lemma accept_points_spec fuel points : forall ss out,
  all_settled ss -> accept_points fuel g ss points = Done out ->
  all_settled out /\ forall w, follows_any out w <-> follows_any ss (map Chr points ++ w).
Proof.
  induction points as [|chr points IH]; intros ss out Hs Hr; cbn [accept_points] in Hr.
  { by injection Hr as <-. }
  destruct (accept_chars fuel g ss chr) as [next| |] eqn:Hc; [|done..]. rewrite bind_done in Hr.
  destruct (accept_chars_spec fuel ss chr next Hs Hc) as [Hn Hw].
  destruct next as [|s0 next]; cbn [is_nil] in Hr.
  - injection Hr as <-. split; [done|]. intros w. simpl. rewrite <- Hw. unfold follows_any. set_solver.
  - destruct (IH _ _ Hn Hr) as [Ho Hw']. split; [done|]. intros w. rewrite Hw'. simpl. by rewrite Hw.
Qed.

(** *** A token *)

(** A stack that waits for a character. *)
Definition on_char (s : stack) : Prop :=
  exists p rest e, s = p :: rest /\ element_at g p = Done e /\ is_token_type (type e) = false.

(** The words left after a token with these code points: the token was taken by a
    token element, or spelled out. *)
Definition after_token (s : stack) (token : Z) (points : list Z) (w : list input) : Prop :=
  follows s (Tok token :: w) \/ on_char s /\ follows s (map Chr points ++ w).

Lemma add_stacks_elem l news t :
  t ∈ foldl (fun news s => add_stack s news) news l <-> t ∈ news \/ t ∈ l.
Proof.
  revert news. induction l as [|s l IH]; intros news; simpl; [set_solver|].
  rewrite IH, add_stack_elem. set_solver.
Qed.

Lemma add_stacks_NoDup l news :
  NoDup news -> NoDup (foldl (fun news s => add_stack s news) news l).
Proof. revert news. induction l as [|s l IH]; intros news Hnd; simpl; [done|]. by apply IH, add_stack_NoDup. Qed.

Lemma accept_token_stack_extends fuel token points news s out :
  settled s -> NoDup news -> accept_token_stack fuel g token points news s = Done out ->
  extends news (after_token s token points) out.
Proof.
  intros Hs Hnd. pose proof Hs as [Hv Ht]. unfold accept_token_stack, after_token, follows.
  destruct Ht as [->|(p & rest & e & -> & He & Ht)].
  { intros [= <-]. apply extends_none; [done|]. intros w [Hw|[(?&?&?&?&_) _]]; [inversion Hw|done]. }
  pose proof (Forall_inv Hv) as [Hp _]. pose proof (Forall_inv_tail Hv) as Hr.
  rewrite He, bind_done.
  destruct (wf_at_cons p Hp) as (e' & l & Hel & He'). rewrite He in He'. injection He' as <-.
  destruct (is_token_type (type e)) eqn:Htok.
  - assert (forall w, ~ on_char (p :: rest) /\ wf_at (forward 1 p) /\
      (generates g (stack_symbols (p :: rest)) (Tok token :: w) <->
       match_token e token = true /\
       generates g (symbols (elements_at g (forward 1 p)) ++ stack_symbols rest) w)) as Hfol.
    { intros w. split; [|split].
      - intros (p' & rest' & e' & Heq & He' & Hn). injection Heq as <- <-. congruence.
      - unfold wf_at in *. rewrite forward_elements, Hel in *. cbn [drop]. simpl in Hp.
        by destruct (type e).
      - simpl. rewrite forward_elements, Hel. cbn [drop symbols]. unfold match_token.
        destruct (type e); try done; simpl.
        + rewrite Z.eqb_eq. split; [inversion 1; by subst|intros [??]; by apply gen_tok].
        + rewrite negb_true_iff, Z.eqb_neq. split; [inversion 1; by subst|intros [??]; by apply gen_not]. }
    destruct (match_token e token).
    + destruct (push_pos_spec (forward 1 p) rest) as (s' & Hpush & Hv' & Hs'); [apply (Hfol [])|done|].
      rewrite Hpush, bind_done. intros Hadv. apply advance_extends in Hadv; [|done..].
      apply (extends_iff _ (follows s')); [|done]. intros w. destruct (Hfol w) as (Hno & _ & Hiff).
      rewrite Hiff. unfold follows. rewrite Hs'. tauto.
    + intros [= <-]. apply extends_none; [done|]. intros w. destruct (Hfol w) as (Hno & _ & Hiff).
      rewrite Hiff. intros [[? _]|[? _]]; done.
  - destruct (accept_points fuel g [p :: rest] points) as [survivors| |] eqn:Hap; [|done..].
    rewrite bind_done. intros [= <-].
    destruct (accept_points_spec fuel points [p :: rest] survivors) as [[Hnd' Hset] Hw]; [|done|].
    { split; [apply NoDup_singleton|by apply Forall_singleton]. }
    split; [by apply add_stacks_NoDup|]. setoid_rewrite add_stacks_elem. split; [tauto|]. split.
    { intros t [?|Hin]; [by left|right]. exact (proj1 (Forall_forall _ _) Hset t Hin). }
    intros w. specialize (Hw w). unfold follows_any in *. setoid_rewrite add_stacks_elem.
    assert (~ generates g (stack_symbols (p :: rest)) (Tok token :: w)) as Hno.
    { intros Hg'. simpl in Hg'. rewrite Hel in Hg'. simpl in Hg'. rewrite orb_false_r in Ht.
      destruct (type e); try done; inversion Hg'. }
    assert (on_char (p :: rest)) as Hon by (by exists p, rest, e).
    setoid_rewrite list_elem_of_singleton in Hw. unfold follows in *. naive_solver.
Qed.

(** ** Whole grammars *)

Definition matching (G : Grammar) : Prop := g_rules G = g /\ all_settled (stacks G).

Definition token_points (G : Grammar) (piece : list Z) : list Z :=
  points_of (decode_utf8 (c_str piece) (partial G)).

Lemma accept_token_spec fuel token piece G r G' :
  matching G -> accept_token fuel token piece G = Done (r, G') ->
  matching G' /\ partial G' = (decode_utf8 (c_str piece) (partial G)).2 /\
  (r = Ok tt <-> stacks G' <> []) /\ (is_ok r = false -> stacks G' = []) /\
  forall w, follows_any (stacks G') w <->
    exists s, s ∈ stacks G /\ after_token s token (token_points G piece) w.
Proof.
  intros [Hg' [Hnd Hs]]. unfold accept_token, token_points. rewrite Hg'.
  destruct (run_fold _ _ _) as [news| |] eqn:Hr; [|done..]. rewrite bind_done. intros [= <- <-].
  apply (fold_extends _ (fun s => after_token s token (points_of (decode_utf8 (c_str piece) (partial G)))))
    in Hr; [|intros news' s out Hin; apply accept_token_stack_extends;
              exact (proj1 (Forall_forall _ _) Hs s Hin)|constructor].
  apply extends_settled in Hr as [Hset Hw]. split; [done|]. split; [done|]. cbn [stacks set_matcher].
  split; [by destruct news|]. split; [by destruct news|done].
Qed.

Lemma on_char_words s points w :
  settled s -> points <> [] -> follows s (map Chr points ++ w) -> on_char s.
Proof.
  intros [Hv [->|(p & rest & e & -> & He & Ht)]] Hne Hw; unfold follows in Hw; destruct points as [|c points];
    try done; [inversion Hw|]. exists p, rest, e. split; [done|]. split; [done|].
  destruct (is_token_type (type e)) eqn:Htok; [|done]. exfalso.
  pose proof (Forall_inv Hv) as [Hp _]. destruct (wf_at_cons p Hp) as (e' & l & Hel & He').
  rewrite He in He'. injection He' as <-. simpl in Hw. rewrite Hel in Hw. simpl in Hw.
  destruct (type e); try done; inversion Hw.
Qed.

(** Over a token with a complete code point the language moves by the token or by
    its text. *)
Lemma after_token_words ss token points w :
  all_settled ss -> points <> [] ->
  (exists s, s ∈ ss /\ after_token s token points w) <->
  follows_any ss (Tok token :: w) \/ follows_any ss (map Chr points ++ w).
Proof.
  intros [_ Hs] Hne. unfold follows_any, after_token. split; [naive_solver|].
  intros [(s & Hin & Hw)|(s & Hin & Hw)]; exists s; [tauto|]. split; [done|]. right. split; [|done].
  eapply on_char_words; [|done..]. exact (proj1 (Forall_forall _ _) Hs s Hin).
Qed.

(** The end of text is allowed exactly when nothing more is needed. *)
Lemma allow_eog_follows G : matching G -> allow_eog G = true <-> follows_any (stacks G) [].
Proof.
  intros [_ [_ Hs]]. unfold allow_eog. rewrite existsb_exists. unfold follows_any. split.
  - intros (s & Hin & Hnil). exists s. rewrite list_elem_of_In. split; [done|].
    destruct s; [constructor|done].
  - intros (s & Hin & Hw). exists s. rewrite <- list_elem_of_In. split; [done|].
    destruct (proj1 (Forall_forall _ _) Hs s Hin) as [Hv [->|(p & rest & e & -> & He & Ht)]]; [done|].
    exfalso. pose proof (Forall_inv Hv) as [Hp _]. destruct (wf_at_cons p Hp) as (e' & l & Hel & He').
    rewrite He in He'. injection He' as <-. unfold follows in Hw. simpl in Hw. rewrite Hel in Hw.
    simpl in Hw. destruct (type e); try done; inversion Hw.
Qed.

Lemma initial_stacks_spec fuel start ss :
  initial_stacks fuel g start = Done ss ->
  all_settled ss /\ forall w, follows_any ss w <-> generates g [Ref start] w.
Proof.
  unfold initial_stacks. destruct (g !! start) as [rl|] eqn:Hrl; [|done].
  destruct (rule_alternates start rl Hrl) as (starts & Ha & Hw & Hm). rewrite Ha, bind_done. intros Hr.
  apply (fold_extends _ (fun i w => generates g (symbols (elements_at g (start, i))) w)) in Hr;
    [|intros news i out Hin Hnd|constructor].
  - apply extends_settled in Hr as [Hset Hl]. split; [done|]. intros w. rewrite Hl. split.
    + intros (i & Hin & Hgen). apply gen_ref with rl (symbols (elements_at g (start, i))); [done| |].
      * rewrite <- Hm. apply list_elem_of_In, (in_map (fun i => symbols (elements_at g (start, i)))).
        by apply list_elem_of_In.
      * by rewrite app_nil_r.
    + inversion 1 as [| | | |r rl' alt l w' Hrl' Halt Hgen]; subst. rewrite Hrl in Hrl'.
      injection Hrl' as <-. rewrite <- Hm in Halt. apply list_elem_of_In, in_map_iff in Halt as (i & <- & Hi).
      exists i. rewrite list_elem_of_In. split; [done|]. by rewrite app_nil_r in Hgen.
  - destruct (push_pos_spec (start, i) []) as (s' & Hpush & Hv' & Hs');
      [exact (proj1 (Forall_forall _ _) Hw i Hin)|constructor|].
    rewrite Hpush, bind_done. intros Hadv. apply advance_extends in Hadv; [|done..].
    apply (extends_iff _ (follows s')); [|done]. intros w. unfold follows. rewrite Hs'. simpl.
    by rewrite app_nil_r.
Qed.
End Rules.
