(* ===== verification/GrammarSpec.v ===== *)
(** * The grammar matcher recognises its grammar, and terminates

    The language of the tokens accepted so far; the termination of the search of
    [advance_stack] on grammars without left recursion; what the check of
    [init_impl] for left recursion shows, and a grammar it lets through on which
    the search never ends. *)

From stdpp Require Import base relations list list_numbers strings.
From Stdlib Require Import ZArith Lia.
From S2P Require Import Prelude Grammar GrammarSem.

#[local] Set Default Proof Using "Type".
Open Scope Z_scope.

(** ** The language *)

(** [accept_token] for one token after the other, until it throws. *)
Fixpoint accept_tokens (fuel : nat) (l : list (Z * list Z)) (G : Grammar)
    : run (outcome unit * Grammar) :=
  match l with
  | [] => Done (Ok tt, G)
  | (token, piece) :: l =>
      r ← accept_token fuel token piece G;
      match r with
      | (Ok _, G) => accept_tokens fuel l G
      | r => Done r
      end
  end.

(** The words a sequence of tokens stands for, from a UTF-8 state. Each token
    completes a code point. *)
Inductive spells : partial_utf8 -> list (Z * list Z) -> list input -> Prop :=
  | spells_nil u : spells u [] []
  | spells_token u token piece l w d :
      d = decode_utf8 (c_str piece) u -> spells d.2 l w ->
      spells u ((token, piece) :: l) (Tok token :: w)
  | spells_text u token piece l w d :
      d = decode_utf8 (c_str piece) u -> spells d.2 l w ->
      spells u ((token, piece) :: l) (map Chr (points_of d) ++ w).

Fixpoint complete_points (u : partial_utf8) (l : list (Z * list Z)) : bool :=
  match l with
  | [] => true
  | (_, piece) :: l =>
      let d := decode_utf8 (c_str piece) u in
      negb (is_nil (points_of d)) && complete_points d.2 l
  end.

Lemma copy_rule_wf n l : forall prev, wf_elements n prev l = true -> copy_rule l = Done l.
Proof.
  induction l as [|e l IH]; intros prev Hw; [done|]. cbn [copy_rule]. case_bool_decide as He.
  - simpl in Hw. rewrite He in Hw. apply andb_true_iff in Hw as [Hv Hl]. apply Z.eqb_eq in Hv.
    destruct l; [|done]. destruct e as [t v]. simpl in *. by subst.
  - assert (exists prev', wf_elements n prev' l = true) as [prev' Hw'].
    { simpl in Hw. destruct (type e); try done; try (by eexists);
        apply andb_true_iff in Hw as [_ Hw]; by eexists. }
    by rewrite (IH prev' Hw').
Qed.

Lemma copy_rules_wf n (g : list rule) : forallb (wf_elements n Outside) g = true -> copy_rules g = Done g.
Proof.
  induction g as [|r g IH]; [done|]. simpl. intros Hw. apply andb_true_iff in Hw as [Hr Hg].
  by rewrite (copy_rule_wf _ _ _ Hr), bind_done, IH.
Qed.

Lemma init_grammar_cases fuel g start lz tokens patterns G :
  wf_rules g = true -> init_grammar fuel g start lz tokens patterns = Done (Some G) ->
  check_rules (S (length g)) g (seq 0 (length g)) (no_marks (length g)) = Done false /\
  g_rules G = g /\ initial_stacks fuel g start = Done (stacks G) /\
  partial G = {| partial_value := 0; n_remain := 0 |} /\ awaiting_trigger G = lz.
Proof.
  intros Hg. unfold init_grammar. rewrite (copy_rules_wf _ _ Hg), bind_done.
  destruct (check_rules _ _ _ _) as [[|]| |]; [done| |done..]. rewrite bind_done.
  destruct (initial_stacks fuel g start) as [ss| |]; [|done..]. rewrite bind_done.
  by intros [= <-].
Qed.

Lemma accept_tokens_words fuel g l : wf_rules g = true -> forall G G',
  matching g G -> complete_points (partial G) l = true ->
  accept_tokens fuel l G = Done (Ok tt, G') ->
  matching g G' /\ forall w, follows_any g (stacks G') w <->
    exists u, spells (partial G) l u /\ follows_any g (stacks G) (u ++ w).
Proof.
  intros Hg. induction l as [|[token piece] l IH]; intros G G' Hm Hc Hr; cbn [accept_tokens] in Hr.
  { injection Hr as <-. split; [done|]. intros w. split; [exists []; by split; [constructor|]|].
    intros (u & Hu & Hw). by inversion Hu; subst. }
  destruct (accept_token fuel token piece G) as [[r G1]| |] eqn:Ha; [|done..]. rewrite bind_done in Hr.
  destruct r as [[]|e]; [|done].
  destruct (accept_token_spec g Hg fuel token piece G (Ok tt) G1 Hm Ha) as (Hm1 & Hp1 & _ & _ & Hw1).
  simpl in Hc. apply andb_true_iff in Hc as [Hne Hc]. rewrite <- Hp1 in Hc.
  destruct (IH G1 G' Hm1 Hc Hr) as [Hm' Hw']. split; [done|]. intros w. rewrite Hw'.
  assert (forall u, follows_any g (stacks G1) u <->
    follows_any g (stacks G) (Tok token :: u) \/
    follows_any g (stacks G) (map Chr (token_points G piece) ++ u)) as Hstep.
  { intros u. rewrite Hw1. apply after_token_words; [done|apply Hm|].
    unfold token_points. by destruct (points_of _). }
  setoid_rewrite Hstep. split.
  - intros (u & Hu & [Hf|Hf]); [exists (Tok token :: u)|exists (map Chr (token_points G piece) ++ u)].
    + split; [|done]. eapply spells_token; [done|]. by rewrite <- Hp1.
    + split; [|by rewrite <- (assoc_L (++))]. eapply spells_text; [done|]. by rewrite <- Hp1.
  - intros (u & Hu & Hf). inversion Hu as [|? ? ? ? u' d Hd Hu'|? ? ? ? u' d Hd Hu']; subst;
      exists u'; rewrite Hp1; (split; [done|]); [by left|right].
    by rewrite <- (assoc_L (++)) in Hf.
Qed.


(** ** Termination *)

(** The value of a computation with enough fuel. *)
Definition converges {A} (m : nat -> run A) (a : A) : Prop :=
  exists n, forall fuel, (n <= fuel)%nat -> m fuel = Done a.

#[export] Instance converges_proper {A} :
  Proper (pointwise_relation nat eq ==> eq ==> iff) (@converges A).
Proof. intros m m' Hm a a' <-. unfold converges. by setoid_rewrite Hm. Qed.

Lemma converges_done {A} (a : A) : converges (fun _ => Done a) a.
Proof. by exists 0%nat. Qed.

Lemma converges_bind {A B} (m : nat -> run A) (k : A -> nat -> run B) a b :
  converges m a -> converges (k a) b -> converges (fun fuel => x ← m fuel; k x fuel) b.
Proof.
  intros [n Hn] [n' Hn']. exists (n + n')%nat. intros fuel Hf.
  rewrite Hn, bind_done by lia. apply Hn'. lia.
Qed.

Lemma converges_fold {A B} (f : nat -> B -> A -> run B) (Q : B -> Prop) l :
  (forall b a, a ∈ l -> Q b -> exists b', converges (fun fuel => f fuel b a) b' /\ Q b') ->
  forall b, Q b -> exists b', converges (fun fuel => run_fold (f fuel) l b) b' /\ Q b'.
Proof.
  induction l as [|a l IH]; intros Hf b Hb; [exists b; split; [apply converges_done|done]|].
  destruct (Hf b a) as (b1 & H1 & Hb1); [left|done|].
  destruct (IH) with (b := b1) as (b2 & H2 & Hb2); [intros; apply Hf; [by right|done]|done|].
  exists b2. split; [|done]. destruct (converges_bind _ (fun x fuel => run_fold (f fuel) l x) _ _ H1 H2) as [n Hn].
  exists n. intros fuel Hfuel. rewrite run_fold_cons. by apply Hn.
Qed.

Section Termination.
Context (g : list rule).

(** [r'] can be the first reference of a derivation of [r]. *)
Definition left_corner (r' r : nat) : Prop :=
  exists rl pre post, g !! r = Some rl /\ pre ++ Ref r' :: post ∈ alternatives rl /\ generates g pre [].

(** A leftmost derivation step, reversed. *)
Definition derives (l' l : list symbol) : Prop :=
  exists r rl alt tl, l = Ref r :: tl /\ g !! r = Some rl /\ alt ∈ alternatives rl /\ l' = alt ++ tl.

Lemma Acc_terminal x tl : (forall r, x <> Ref r) -> Acc derives (x :: tl).
Proof. intros Hx. constructor. intros l' (r & ? & ? & ? & Heq & _). injection Heq as -> _. by destruct (Hx r). Qed.

Lemma Acc_nil : Acc derives [].
Proof. constructor. intros l' (?&?&?&?&?&_). done. Qed.

(** The rest of an alternate, behind a part that derives nothing. *)
Lemma Acc_alternate r rl tl l : forall pre,
  g !! r = Some rl -> pre ++ l ∈ alternatives rl -> generates g pre [] ->
  (forall r' tl, left_corner r' r -> (generates g [Ref r'] [] -> Acc derives tl) -> Acc derives (Ref r' :: tl)) ->
  (generates g l [] -> Acc derives tl) -> Acc derives (l ++ tl).
Proof.
  induction l as [|x l IH]; intros pre Hr Ha Hpre Hlc Htl; [apply Htl; constructor|].
  destruct x as [r'|b rs|v|v]; try (by apply Acc_terminal). simpl. apply Hlc.
  { by exists rl, pre, l. }
  intros Hnull. apply (IH (pre ++ [Ref r'])); [done| |by apply (generates_app g pre _ [] [])|done|].
  - by rewrite <- (assoc_L (++)).
  - intros Hl. apply Htl. by apply (generates_app g [Ref r'] l [] []).
Qed.

Lemma Acc_ref r : Acc left_corner r ->
  forall tl, (generates g [Ref r] [] -> Acc derives tl) -> Acc derives (Ref r :: tl).
Proof.
  induction 1 as [r _ IH]. intros tl Htl. constructor. intros l' (r0 & rl & alt & tl0 & Heq & Hr & Ha & ->).
  injection Heq as <- <-. apply (Acc_alternate r rl tl alt []); [done..|constructor| |].
  - intros r' tl' Hlc. by apply IH.
  - intros Hnull. apply Htl. apply gen_ref with rl alt; [done..|]. by rewrite app_nil_r.
Qed.

Hypothesis Hacc : forall r, Acc left_corner r.

Lemma Acc_derives l : Acc derives l.
Proof using Hacc.
  induction l as [|x l IH]; [apply Acc_nil|]. destruct x; try (by apply Acc_terminal).
  by apply Acc_ref.
Qed.

Hypothesis Hg : wf_rules g = true.
#[local] Set Default Proof Using "All".

Lemma Acc_expands s : valid g s -> Acc (fun t s => valid g s /\ expands g s t) s.
Proof.
  remember (stack_symbols g s) as l eqn:Hl. intros Hv. revert s Hv Hl.
  induction (Acc_derives l) as [l _ IH]. intros s Hv ->. constructor. intros t [_ Ht].
  pose proof Ht as (p & rest & e & nexts & -> & He & Hty & _).
  pose proof (live_ref g Hg p e (Forall_inv Hv) He Hty) as (_ & [rl Hrl] & _).
  destruct (expands_symbols g Hg p rest e rl Hv He Hty Hrl) as (tl & Htl & _ & Hback).
  destruct (Hback t Ht) as (alt & Ha & Hsy).
  apply (IH (stack_symbols g t)); [|by eapply expands_valid|done].
  exists (Z.to_nat (value e)), rl, alt, tl. done.
Qed.

(** The worklist empties: each stack on it leads to finitely many others. *)
Lemma advance_loop_stack s : valid g s -> forall todo,
  (forall seen news, exists out, converges (fun fuel => advance_loop fuel g todo seen news) out) ->
  forall seen news, exists out, converges (fun fuel => advance_loop fuel g (s :: todo) seen news) out.
Proof.
  intros Hv. induction (Acc_expands s Hv) as [s _ IH]. intros todo Hrest seen news.
  assert (forall todo' seen' news' out,
    (forall fuel, advance_loop (S fuel) g (s :: todo) seen news = advance_loop fuel g todo' seen' news') ->
    converges (fun fuel => advance_loop fuel g todo' seen' news') out ->
    exists out, converges (fun fuel => advance_loop fuel g (s :: todo) seen news) out) as Hstep.
  { intros todo' seen' news' out Heq [n Hn]. exists out, (S n). intros [|fuel] Hf; [lia|].
    rewrite Heq. apply Hn. lia. }
  destruct (decide (s ∈ seen)) as [Hin|Hin].
  - destruct (Hrest seen news) as [out Hout]. apply (Hstep todo seen news out); [|done]. intros fuel.
    by destruct (advance_loop_step g Hg fuel s todo seen news Hv) as [[_ Heq]|[(Hno & _)|(Hno & _)]].
  - destruct (valid_cases g Hg s Hv) as [Ht|(p & rest & e & -> & He & Hty)].
    + destruct (Hrest (s :: seen) (add_stack s news)) as [out Hout].
      apply (Hstep todo (s :: seen) (add_stack s news) out); [|done]. intros fuel.
      by destruct (advance_loop_step g Hg fuel s todo seen news Hv) as [[? _]|[(_ & _ & Heq)|(_ & Hno & _)]].
    + pose proof (live_ref g Hg p e (Forall_inv Hv) He Hty) as (_ & [rl Hrl] & _).
      destruct (expand_spec g Hg p e rest rl) as (nexts & Hn & Hvn & _);
        [exact (Forall_inv Hv)|exact (Forall_inv_tail Hv)|done..|].
      assert (forall seen news, exists out,
        converges (fun fuel => advance_loop fuel g (reverse nexts ++ todo) seen news) out) as Hall.
      { assert (Forall (fun t => valid g t /\ expands g (p :: rest) t) (reverse nexts)) as Hf.
        { apply Forall_reverse, Forall_forall. intros t Hin'.
          split; [exact (proj1 (Forall_forall _ _) Hvn t Hin')|]. by apply (expands_iff g Hg p rest e nexts). }
        induction Hf as [|t ts [Hvt Het] _ IHts]; [done|]. simpl. by apply IH. }
      destruct (Hall ((p :: rest) :: seen) news) as [out Hout].
      apply (Hstep (reverse nexts ++ todo) ((p :: rest) :: seen) news out); [|done]. intros fuel.
      cbn [advance_loop]. by rewrite bool_decide_eq_false_2, He, bind_done, Hty, Hn, bind_done.
Qed.

Lemma advance_converges s news :
  valid g s -> exists out, converges (fun fuel => advance_stack fuel g s news) out.
Proof.
  intros Hv. apply (advance_loop_stack s Hv []). intros seen news'. exists news', 1%nat.
  intros [|fuel] Hf; [lia|done].
Qed.

Lemma accept_chr_converges s chr news :
  settled g s -> exists out, converges (fun fuel => accept_chr fuel g s chr news) out.
Proof.
  intros [Hv [->|(p & rest & e & -> & He & Ht)]]; [by exists news; apply converges_done|].
  apply Forall_cons in Hv as [[Hp _] Hr]. unfold accept_chr. rewrite He. setoid_rewrite bind_done.
  destruct (is_token_type (type e)) eqn:Htok; [exists news; apply converges_done|].
  rewrite orb_false_r in Ht. destruct (match_char_spec g p e Hp He Ht) as (p' & Hm).
  destruct (Hm chr) as (Hmc & Hp' & _). rewrite Hmc. setoid_rewrite bind_done. cbn [fst snd].
  destruct (eqb _ _); [|exists news; apply converges_done].
  destruct (push_pos_spec g p' rest Hp' Hr) as (s' & Hpush & Hv' & _).
  rewrite Hpush. setoid_rewrite bind_done. by apply advance_converges.
Qed.

Lemma accept_chars_converges ss chr :
  all_settled g ss -> exists out, converges (fun fuel => accept_chars fuel g ss chr) out.
Proof.
  intros [_ Hs]. destruct (converges_fold (fun fuel news s => accept_chr fuel g s chr news)
    (fun _ => True) ss) with (b := [] : list stack) as (out & Hout & _); [|done|by exists out].
  intros news s Hin _. destruct (accept_chr_converges s chr news) as [out Hout];
    [exact (proj1 (Forall_forall _ _) Hs s Hin)|by exists out].
Qed.

(** A converging computation has the value of any run that ends. *)
Lemma converges_run {A} (m : nat -> run A) a : converges m a -> exists fuel, m fuel = Done a.
Proof. intros [n Hn]. exists n. by apply Hn. Qed.

Lemma accept_points_converges points : forall ss,
  all_settled g ss -> exists out, converges (fun fuel => accept_points fuel g ss points) out.
Proof.
  induction points as [|chr points IH]; intros ss Hs; cbn [accept_points].
  { exists ss. apply converges_done. }
  destruct (accept_chars_converges ss chr Hs) as [next Hnext].
  destruct (converges_run _ _ Hnext) as [f Hf].
  destruct (accept_chars_spec g Hg f ss chr next Hs Hf) as [Hn _].
  assert (exists out, converges (fun fuel =>
    if is_nil next then Done [] else accept_points fuel g next points) out) as [out Hout].
  { destruct (is_nil next); [exists []; apply converges_done|by apply IH]. }
  exists out. by apply (converges_bind _ (fun next fuel =>
    if is_nil next then Done [] else accept_points fuel g next points) next).
Qed.

Lemma accept_token_converges token piece G :
  matching g G -> exists r, converges (fun fuel => accept_token fuel token piece G) r.
Proof.
  intros [Hrules [_ Hs]]. unfold accept_token. rewrite Hrules.
  destruct (converges_fold (fun fuel => accept_token_stack fuel g token
    (points_of (decode_utf8 (c_str piece) (partial G)))) (fun _ => True) (stacks G))
    with (b := [] : list stack) as (out & Hout & _); [|done|].
  - intros news s Hin _. pose proof (proj1 (Forall_forall _ _) Hs s Hin) as Hset.
    pose proof Hset as [Hv [->|(p & rest & e & -> & He & Ht)]]; [by exists news; split; [apply converges_done|]|].
    unfold accept_token_stack. rewrite He. setoid_rewrite bind_done.
    destruct (is_token_type (type e)) eqn:Htok.
    + destruct (match_token e token); [|by exists news; split; [apply converges_done|]].
      pose proof (Forall_inv Hv) as [Hp _]. destruct (wf_at_cons g p Hp) as (e' & l & Hel & He').
      rewrite He in He'. injection He' as <-.
      assert (wf_at g (forward 1 p)) as Hf.
      { unfold wf_at in *. rewrite forward_elements, Hel in *. cbn [drop]. simpl in Hp. by destruct (type e). }
      destruct (push_pos_spec g (forward 1 p) rest Hf (Forall_inv_tail Hv)) as (s' & Hpush & Hv' & _).
      rewrite Hpush. setoid_rewrite bind_done. destruct (advance_converges s' news Hv') as [out Hout].
      by exists out.
    + destruct (accept_points_converges (points_of (decode_utf8 (c_str piece) (partial G))) [p :: rest])
        as [survivors Hsv]; [split; [apply NoDup_singleton|by apply Forall_singleton]|].
      eexists. split; [|done]. eapply (converges_bind _ (fun survivors _ => Done _)); [exact Hsv|].
      apply converges_done.
  - eexists. eapply (converges_bind _ (fun news _ => Done _)); [exact Hout|]. apply converges_done.
Qed.

Lemma initial_stacks_converges start :
  (start < length g)%nat -> exists ss, converges (fun fuel => initial_stacks fuel g start) ss.
Proof.
  intros Hs. apply lookup_lt_is_Some in Hs as [rl Hrl]. unfold initial_stacks. rewrite Hrl.
  destruct (rule_alternates g Hg start rl Hrl) as (starts & Ha & Hw & _). rewrite Ha.
  setoid_rewrite bind_done.
  destruct (converges_fold (fun fuel news i => s ← push_pos g (start, i) []; advance_stack fuel g s news)
    (fun _ => True) starts) with (b := [] : list stack) as (out & Hout & _); [|done|by exists out].
  intros news i Hin _. destruct (push_pos_spec g (start, i) []) as (s' & Hpush & Hv' & _);
    [exact (proj1 (Forall_forall _ _) Hw i Hin)|constructor|].
  rewrite Hpush. setoid_rewrite bind_done. destruct (advance_converges s' news Hv') as [out Hout].
  by exists out.
Qed.
End Termination.
#[local] Set Default Proof Using "Type".

(** ** The check for left recursion *)

Section Check.
Context (g : list rule) (Hg : wf_rules g = true).
#[local] Set Default Proof Using "All".

(** Every rule that can derive nothing has an alternate without elements. *)
Definition nullable_directly : Prop :=
  forall r rl, g !! r = Some rl -> generates g [Ref r] [] -> has_empty_alternate rl true = true.

Hypothesis Hnull : nullable_directly.

Definition not_cleared (l : list bool) (r : nat) : Prop := l !! r <> Some false.

Record sound_marks (m : Marks) : Prop := {
  sound_visited r : visited m !! r = Some true -> Acc (left_corner g) r;
}.

(** What a call that finds no left recursion shows. *)
Definition clears (r : nat) (m m' : Marks) : Prop :=
  sound_marks m' /\ Acc (left_corner g) r /\
  (generates g [Ref r] [] -> not_cleared (may_be_empty m') r) /\
  forall i, not_cleared (may_be_empty m) i -> not_cleared (may_be_empty m') i.

(** The references that a leftmost scan must have visited. *)
Definition corners_ok (l : list symbol) : Prop :=
  forall pre r post, l = pre ++ Ref r :: post -> generates g pre [] -> Acc (left_corner g) r.

Lemma corners_terminal x l : (forall r, x <> Ref r) -> corners_ok (x :: l).
Proof.
  intros Hx [|y pre] r post Heq Hp; simplify_eq/=; [by destruct (Hx r)|].
  inversion Hp; subst. by destruct (Hx r0).
Qed.

Lemma generates_split l w : generates g l w -> forall l1 l2, l = l1 ++ l2 ->
  exists w1 w2, w = w1 ++ w2 /\ generates g l1 w1 /\ generates g l2 w2.
Proof.
  induction 1 as [|b rs c l w Hb Hw IH|t l w v Hv Hw IH|t l w v Hv Hw IH|r rl alt l w Hr Ha Hw IH];
    intros l1 l2 Heq.
  { exists [], []. symmetry in Heq. apply app_eq_nil in Heq as [-> ->]. by repeat constructor. }
  all: destruct l1 as [|x l1]; simpl in Heq;
    [subst; eexists [], _; split; [reflexivity|]; split; [constructor|by econstructor]|].
  all: injection Heq as <- Heq.
  4:{ destruct (IH (alt ++ l1) l2) as (w1 & w2 & -> & H1 & H2);
        [by rewrite Heq, (assoc_L (++))|]. exists w1, w2. split; [done|]. split; [|done].
      by apply gen_ref with rl alt. }
  all: destruct (IH l1 l2 Heq) as (w1 & w2 & -> & H1 & H2); eexists (_ :: w1), w2; split; [reflexivity|];
    split; [|done]; by constructor.
Qed.

Lemma nullable_cons x l : generates g (x :: l) [] -> generates g [x] [] /\ generates g l [].
Proof.
  intros H. destruct (generates_split _ _ H [x] l eq_refl) as (w1 & w2 & Hw & H1 & H2).
  symmetry in Hw. apply app_eq_nil in Hw as [-> ->]. done.
Qed.

Lemma leftmost_spec visit l :
  (forall r m m', sound_marks m -> visit r m = Done (false, m') -> clears r m m') ->
  forall recurse m m', sound_marks m ->
  (l = [] \/ exists prev, wf_elements (length g) prev l = true /\ (recurse = true -> prev = Outside)) ->
  leftmost visit l recurse m = Done (false, m') ->
  sound_marks m' /\ (recurse = true -> corners_ok (symbols l)) /\
  Forall corners_ok (later_alternatives l) /\
  forall i, not_cleared (may_be_empty m) i -> not_cleared (may_be_empty m') i.
Proof.
  intros Hvisit. assert (corners_ok []) as Hnil by by intros [|] ? ? ?.
  induction l as [|e l IH]; intros recurse m m' Hm Hwf Hr; cbn [leftmost] in Hr.
  { by injection Hr as <-. }
  destruct Hwf as [|(prev & Hwf & Hprev)]; [done|]. cbn [symbols later_alternatives].
  destruct (bool_decide (type e = RULE_REF) && recurse) eqn:Eref.
  - apply andb_true_iff in Eref as [He ->]. apply bool_decide_eq_true in He. rewrite He.
    set (r := Z.to_nat (value e)) in *. simpl in Hwf. rewrite He in Hwf.
    apply andb_true_iff in Hwf as [_ Hwf].
    destruct (visit r m) as [[b m1]| |] eqn:Hv; [|done..]. rewrite bind_done in Hr. cbn [fst snd] in Hr.
    destruct b; [done|]. destruct (Hvisit r m m1 Hm Hv) as (Hm1 & Hacc & Hnc & Hmono).
    destruct (may_be_empty m1 !! r) as [b|] eqn:Hb; [|done].
    destruct (IH b m1 m' Hm1) as (Hm' & Hc & Hl & Hmono'); [right; by exists Outside|done|].
    split; [done|]. split; [|split; [done|auto]]. intros _ pre r' post Heq Hpre.
    destruct pre as [|x pre]; injection Heq as Heq Hpost; [by subst|]. rewrite <- Heq in Hpre.
    apply nullable_cons in Hpre as [Hx Hpre]. apply (Hc) with pre post; [|done..].
    specialize (Hnc Hx). unfold not_cleared in Hnc. rewrite Hb in Hnc. by destruct b.
  - assert (exists prev', l = [] \/ (wf_elements (length g) prev' l = true /\
      (is_end_type (type e) = true -> prev' = Outside))) as [prev' Hl].
    { simpl in Hwf. destruct (type e); try (exists Outside; right; by split).
      - exists Outside. left. apply andb_true_iff in Hwf as [_ Hwf]. by destruct l.
      - exists Outside. right. apply andb_true_iff in Hwf as [_ Hwf]. by split.
      - exists Single. by right.
      - exists Single. by right.
      - exists Ranged. right. by apply andb_true_iff in Hwf as [_ Hwf].
      - exists Single. right. by apply andb_true_iff in Hwf as [_ Hwf]. }
    destruct (IH (is_end_type (type e)) m m' Hm) as (Hm' & Hc & Hla & Hmono).
    { destruct Hl as [?|[? ?]]; [by left|right; by exists prev']. }
    { done. }
    split; [done|]. split; [|split; [|done]].
    + intros ->. rewrite andb_true_r in Eref. apply bool_decide_eq_false in Eref.
      rewrite (Hprev eq_refl) in Hwf. simpl in Hwf.
      clear -Hg Hnull Hnil Hwf Eref. destruct (type e);
        first [exact Hnil|discriminate Hwf|by destruct Eref|apply corners_terminal; discriminate].
    + destruct (type e); first [exact Hla|apply Forall_nil_2|apply Forall_cons_2; [by apply Hc|exact Hla]].
Qed.

Lemma sound_progress r b m : sound_marks m -> sound_marks (mark_progress r b m).
Proof. by intros []. Qed.

Lemma sound_empty r m : sound_marks m -> sound_marks (mark_empty r m).
Proof. by intros []. Qed.

Lemma not_cleared_set l i j : not_cleared l i -> not_cleared (<[j := true]> l) i.
Proof.
  unfold not_cleared. intros H Hi. destruct (decide (i = j)) as [->|Hne].
  - apply list_lookup_insert_Some in Hi as [(_ & ? & _)|[? _]]; done.
  - by rewrite list_lookup_insert_ne in Hi.
Qed.

Lemma not_cleared_here l i : not_cleared (<[i := true]> l) i.
Proof. unfold not_cleared. intros Hi. apply list_lookup_insert_Some in Hi as [(_ & ? & _)|[? _]]; done. Qed.

Lemma detect_spec depth : forall r m m',
  sound_marks m -> detect_left_recursion depth g r m = Done (false, m') -> clears r m m'.
Proof.
  induction depth as [|depth IH]; intros r m m' Hm Hr; [done|]. cbn [detect_left_recursion] in Hr.
  destruct (g !! r) as [rl|] eqn:Hrl; [|done]. destruct (in_progress m !! r) as [[|]|]; [done| |done].
  set (m1 := mark_progress r true m) in Hr.
  set (m2 := if has_empty_alternate rl true then mark_empty r m1 else m1) in Hr.
  assert (sound_marks m2) as Hm2.
  { unfold m2. destruct (has_empty_alternate rl true); [apply sound_empty|]; by apply sound_progress. }
  destruct (leftmost _ rl true m2) as [[b m3]| |] eqn:Hl; [|done..]. rewrite bind_done in Hr.
  cbn [fst snd] in Hr. destruct b; [done|]. injection Hr as <-.
  destruct (leftmost_spec _ rl IH true m2 m3 Hm2) as (Hm3 & Hc & Hla & Hmono).
  { right. exists Outside. split; [by eapply rule_wf|done]. }
  { done. }
  assert (Acc (left_corner g) r) as Hacc.
  { constructor. intros r' (rl' & pre & post & Hrl' & Ha & Hpre). rewrite Hrl in Hrl'.
    injection Hrl' as <-. apply elem_of_cons in Ha as [Ha|Ha].
    - by apply (Hc eq_refl pre r' post).
    - exact (proj1 (Forall_forall _ _) Hla _ Ha pre r' post eq_refl Hpre). }
  split; [|split; [done|split]].
  - constructor. cbn [visited mark_visited mark_progress]. intros i Hi.
    apply list_lookup_insert_Some in Hi as [(<- & _)|[_ Hi]]; [done|]. by apply (sound_visited _ Hm3).
  - intros Hnul. cbn [may_be_empty mark_visited mark_progress]. apply Hmono. unfold m2.
    rewrite (Hnull r rl Hrl Hnul). apply not_cleared_here.
  - intros i Hi. cbn [may_be_empty mark_visited mark_progress]. apply Hmono. unfold m2.
    destruct (has_empty_alternate rl true); [by apply not_cleared_set|done].
Qed.

Lemma check_rules_spec depth todo : forall m,
  sound_marks m -> check_rules depth g todo m = Done false ->
  forall r, r ∈ todo -> Acc (left_corner g) r.
Proof.
  induction todo as [|r todo IH]; intros m Hm Hr i Hi; [set_solver|]. cbn [check_rules] in Hr.
  case_bool_decide as Hv.
  - apply elem_of_cons in Hi as [->|Hi]; [by apply (sound_visited m Hm)|by apply (IH m)].
  - destruct (detect_left_recursion depth g r m) as [[b m']| |] eqn:Hd; [|done..].
    rewrite bind_done in Hr. cbn [fst snd] in Hr. destruct b; [done|].
    destruct (detect_spec depth r m m' Hm Hd) as (Hm' & Hacc & _).
    apply elem_of_cons in Hi as [->|Hi]; [done|by apply (IH m')].
Qed.

Lemma checked_acc r :
  check_rules (S (length g)) g (seq 0 (length g)) (no_marks (length g)) = Done false ->
  Acc (left_corner g) r.
Proof.
  intros Hc. destruct (decide (r < length g)%nat) as [Hr|Hr].
  - apply (check_rules_spec _ _ _) with (r := r) in Hc; [done| |].
    + constructor. cbn. intros i Hi. by apply lookup_replicate_1 in Hi as [? _].
    + apply elem_of_seq. lia.
  - constructor. intros r' (rl & pre & post & Hrl & _). apply lookup_lt_Some in Hrl. lia.
Qed.
End Check.

(** *** The check itself ends *)

Section CheckEnds.
Context (g : list rule) (Hg : wf_rules g = true).
#[local] Set Default Proof Using "All".
Abbreviation n := (length g).

Definition sized (m : Marks) : Prop :=
  length (visited m) = n /\ length (in_progress m) = n /\ length (may_be_empty m) = n.

(** A call that leaves the rules in progress as they were, unless it finds a cycle. *)
Definition ends (busy : list bool) (r : run (bool * Marks)) : Prop :=
  exists b m', r = Done (b, m') /\ sized m' /\ (b = false -> in_progress m' = busy).

Lemma leftmost_ends visit busy :
  (forall r m, (r < n)%nat -> sized m -> in_progress m = busy -> ends busy (visit r m)) ->
  forall l prev recurse m, l = [] \/ wf_elements n prev l = true ->
  sized m -> in_progress m = busy -> ends busy (leftmost visit l recurse m).
Proof.
  intros Hvisit. induction l as [|e l IH]; intros prev recurse m Hwf Hm Hb; cbn [leftmost].
  { exists false, m. done. }
  destruct Hwf as [|Hwf]; [done|].
  assert (exists prev', l = [] \/ wf_elements n prev' l = true) as [prev' Hl].
  { simpl in Hwf. destruct (type e); try (by eexists; right);
      apply andb_true_iff in Hwf as [_ Hwf]; first [by eexists; right|by destruct l; exists Outside; left]. }
  destruct (bool_decide (type e = RULE_REF) && recurse) eqn:E; [|by apply (IH prev')].
  apply andb_true_iff in E as [He _]. apply bool_decide_eq_true in He. simpl in Hwf. rewrite He in Hwf.
  apply andb_true_iff in Hwf as [Hv _]. apply andb_true_iff in Hv as [_ Hv]. apply Nat.ltb_lt in Hv.
  destruct (Hvisit (Z.to_nat (value e)) m Hv Hm Hb) as (b & m1 & -> & Hm1 & Hb1).
  rewrite bind_done. cbn [fst snd]. destruct b; [by exists true, m1|].
  destruct (lookup_lt_is_Some_2 (may_be_empty m1) (Z.to_nat (value e))) as [x ->].
  { destruct Hm1 as (_ & _ & ->). exact Hv. }
  apply (IH prev'); auto.
Qed.

Lemma detect_ends depth : forall r m,
  (r < n)%nat -> sized m -> (n < depth + count_true (in_progress m))%nat ->
  ends (in_progress m) (detect_left_recursion depth g r m).
Proof.
  induction depth as [|depth IH]; intros r m Hr Hm Hd.
  { destruct Hm as (_ & Hl & _). pose proof (count_true_le (in_progress m)). lia. }
  cbn [detect_left_recursion]. destruct (lookup_lt_is_Some_2 g r Hr) as [rl Hrl]. rewrite Hrl.
  pose proof Hm as (Hl1 & Hl2 & Hl3).
  destruct (lookup_lt_is_Some_2 (in_progress m) r) as [busy Hbusy]; [by rewrite Hl2|]. rewrite Hbusy.
  destruct busy; [by exists true, m|].
  set (m1 := mark_progress r true m).
  set (m2 := if has_empty_alternate rl true then mark_empty r m1 else m1).
  assert (sized m2 /\ in_progress m2 = <[r := true]> (in_progress m)) as [Hm2 Hp2].
  { unfold m2, m1, sized. destruct (has_empty_alternate rl true); cbn; by rewrite ?length_insert. }
  destruct (leftmost_ends (detect_left_recursion depth g) (in_progress m2)) with (l := rl)
    (prev := Outside) (recurse := true) (m := m2) as (b & m3 & -> & Hm3 & Hp3); [|right|done|done|].
  { intros r' m' Hr' Hm' Hp'. rewrite <- Hp'. apply IH; [done..|]. rewrite Hp', Hp2.
    rewrite count_true_set by done. lia. }
  { by apply rule_wf with r. }
  rewrite bind_done. cbn [fst snd]. destruct b; [by exists true, m3|].
  eexists false, _. split; [reflexivity|]. destruct Hm3 as (H1 & H2 & H3). split.
  { unfold sized. cbn. by rewrite !length_insert. }
  intros _. cbn. rewrite (Hp3 eq_refl), Hp2, list_insert_insert_eq. by apply list_insert_id.
Qed.

Lemma check_rules_ends todo : forall m,
  Forall (fun r => (r < n)%nat) todo -> sized m -> in_progress m = replicate n false ->
  exists b, check_rules (S n) g todo m = Done b.
Proof.
  induction todo as [|r todo IH]; intros m Ht Hm Hp; [by exists false|]. cbn [check_rules].
  apply Forall_cons in Ht as [Hr Ht]. case_bool_decide; [by apply IH|].
  destruct (detect_ends (S n) r m Hr Hm) as (b & m' & -> & Hm' & Hp'); [lia|].
  rewrite bind_done. cbn [fst snd]. destruct b; [by exists true|]. apply IH; [done..|].
  by rewrite Hp'.
Qed.
End CheckEnds.

(** C29: the check for left recursion always ends; when it finds none, and every
    rule that can derive nothing has an alternate without elements, building the
    initial stacks ends and so does accepting any token from there on. *)
Theorem matcher_terminates g :
  wf_rules g = true ->
  let check := check_rules (S (length g)) g (seq 0 (length g)) (no_marks (length g)) in
  (exists b, check = Done b) /\
  (check = Done false -> nullable_directly g ->
   (forall start, (start < length g)%nat ->
    exists ss, converges (fun fuel => initial_stacks fuel g start) ss) /\
   forall token piece G, matching g G ->
    exists r, converges (fun fuel => accept_token fuel token piece G) r).
Proof.
  intros Hg. cbv zeta. split.
  - apply check_rules_ends; [done| |unfold sized; cbn; by rewrite !length_replicate|done].
    apply Forall_forall. intros r Hr. apply elem_of_seq in Hr. lia.
  - intros Hc Hn. pose proof (fun r => checked_acc g Hg Hn r Hc) as Hacc. split.
    + by apply initial_stacks_converges.
    + by apply accept_token_converges.
Qed.

(** ** A left recursion the check does not see

    [root ::= ws root "x" | "y"] with [ws ::= [ ]*]: [ws] derives nothing only
    through the rule the parser makes for the repetition, and the check looks at
    the alternates of [ws] alone. *)

Definition elem (t : gretype) (v : Z) : element := {| type := t; value := v |}.

Definition looping_grammar : list rule :=
  [[elem RULE_REF 1; elem RULE_REF 0; elem CHAR 120; elem ALT 0; elem CHAR 121; elem END 0];
   [elem RULE_REF 2; elem END 0];
   [elem CHAR 32; elem RULE_REF 2; elem ALT 0; elem END 0]].

Lemma expands_by g p rest e nexts s' :
  element_at g p = Done e -> type e = RULE_REF ->
  expand g p (Z.to_nat (value e)) rest = Done nexts -> s' ∈ nexts -> expands g (p :: rest) s'.
Proof. intros. by exists p, rest, e, nexts. Qed.

Lemma looping_reach k :
  rtc (expands looping_grammar) [(0, 0)%nat] ((0, 0)%nat :: replicate k (0, 2)%nat).
Proof.
  induction k as [|k IH]; [apply rtc_refl|]. etrans; [exact IH|].
  simpl. generalize (replicate k (0, 2)%nat) as rest. intros rest.
  apply rtc_l with ((1, 0)%nat :: (0, 1)%nat :: rest);
    [eapply expands_by; [reflexivity..|apply list_elem_of_here]|].
  apply rtc_l with ((0, 1)%nat :: rest);
    [eapply expands_by; [reflexivity..|apply list_elem_of_further, list_elem_of_here]|].
  apply rtc_once. eapply expands_by; [reflexivity..|apply list_elem_of_here].
Qed.

(** A search either ends with every stack it can reach seen, or never ends. *)
Lemma advance_loop_cases g (Hg : wf_rules g = true) fuel : forall todo seen news,
  Forall (valid g) todo ->
  advance_loop fuel g todo seen news = OutOfFuel \/
  exists out, advance_loop fuel g todo seen news = Done out.
Proof.
  induction fuel as [|fuel IH]; intros todo seen news Hv; [by left|].
  destruct todo as [|s todo]; [right; by exists news|]. apply Forall_cons in Hv as [Hs Hv].
  destruct (advance_loop_step g Hg fuel s todo seen news Hs)
    as [(_ & ->)|[(_ & _ & ->)|(_ & _ & nexts & _ & Hn & ->)]]; [by apply IH..|].
  apply IH, Forall_app. split; [by apply Forall_reverse|done].
Qed.

(** The check for left recursion passes on this well-formed grammar, and no fuel
    is enough to build its initial stacks. *)
Theorem undetected_left_recursion :
  wf_rules looping_grammar = true /\
  check_rules 4 looping_grammar [0; 1; 2]%nat (no_marks 3) = Done false /\
  forall fuel, initial_stacks fuel looping_grammar 0 = OutOfFuel.
Proof.
  split; [reflexivity|]. split; [reflexivity|]. intros fuel.
  change (initial_stacks fuel looping_grammar 0) with
    (news ← advance_stack fuel looping_grammar [(0, 0)%nat] [];
     advance_stack fuel looping_grammar [(0, 4)%nat] news).
  assert (valid looping_grammar [(0, 0)%nat]) as Hv.
  { constructor; [|constructor]. split; [reflexivity|]. eexists. split; reflexivity. }
  destruct (advance_loop_cases looping_grammar eq_refl fuel [[(0, 0)%nat]] [] [])
    as [Hl|[out Hl]]; [by apply Forall_singleton|unfold advance_stack; by rewrite Hl|]. exfalso.
  destruct (advance_loop_spec looping_grammar eq_refl [(0, 0)%nat] [] fuel [[(0, 0)%nat]] [] [] out)
    as (_ & seen & Hs); [apply searching_init; reflexivity|by apply Forall_singleton|constructor|done|].
  assert (forall k, ((0, 0)%nat :: replicate k (0, 2)%nat) ∈ seen) as Hall.
  { intros k. eapply (searching_done looping_grammar eq_refl); [exact Hs|apply looping_reach]. }
  pose proof (max_list_elem_of_le) as Hmax.
  specialize (Hall (S (max_list (map length seen)))).
  apply list_elem_of_In, (in_map length), list_elem_of_In, Hmax in Hall.
  simpl in Hall. rewrite length_replicate in Hall. lia.
Qed.

(** ** A list of [a] closed by token 7 *)

Definition list_grammar : list rule :=
  [[elem CHAR 97; elem RULE_REF 0; elem ALT 0; elem TOKEN 7; elem END 0]].

Definition list_start : Grammar :=
  {| g_rules := list_grammar; stacks := [[(0, 0)%nat]; [(0, 3)%nat]];
     partial := {| partial_value := 0; n_remain := 0 |}; lazy := false; awaiting_trigger := false;
     trigger_buffer := []; trigger_buffer_positions := []; trigger_tokens := []; trigger_patterns := [] |}.

Lemma list_start_init : init_grammar 9 list_grammar 0 false [] [] = Done (Some list_start).
Proof. reflexivity. Qed.


Lemma list_grammar_nullable : nullable_directly list_grammar.
Proof.
  intros [|r] rl Hrl Hg; [|done]. exfalso. inversion Hg as [| | | |? ? alt ? ? Hr Ha Hgen]; subst.
  injection Hr as <-. rewrite app_nil_r in Hgen. vm_compute in Ha.
  repeat (apply elem_of_cons in Ha as [->|Ha]; [inversion Hgen|]). by apply not_elem_of_nil in Ha.
Qed.

Lemma matcher_terminates_witness :
  exists ss, converges (fun fuel => initial_stacks fuel list_grammar 0) ss.
Proof.
  destruct (matcher_terminates list_grammar eq_refl) as [_ H].
  destruct (H eq_refl list_grammar_nullable) as [Hi _]. apply Hi. simpl. lia.
Defined.
