(* ===== verification/GrammarText.v ===== *)
(** * What the parser of grammars promises to the matcher
      ([mfq_text_grammar_parser::parse] against [mfq_text_grammar_init_impl])

    Every accepted text gives rules in the form the matcher relies on
    ([wf_rules] of GrammarSem): a rule is well formed while it is being built
    ([good]), every step of the parser keeps its invariant ([keeps], [parser_ok]),
    and the last check turns names into rules. *)

From stdpp Require Import base list strings gmap pretty.
From Stdlib Require Import ZArith Lia Ascii.
From S2P Require Import Prelude Grammar GrammarParser GrammarSem GrammarSpec.

#[local] Set Default Proof Using "Type".
Open Scope Z_scope.

(** ** Bodies of rules *)

(** The place after some elements that are not an end. *)
Definition place_after (p : place) (e : element) : option place :=
  match type e with
  | END => None
  | ALT | RULE_REF | CHAR_ANY | TOKEN | TOKEN_NOT => Some Outside
  | CHAR | CHAR_NOT => Some Single
  | CHAR_RNG_UPPER => if bool_decide (p = Single) then Some Ranged else None
  | CHAR_ALT => if bool_decide (p = Outside) then None else Some Single
  end.

Fixpoint scan (p : place) (l : list element) : option place :=
  match l with
  | [] => Some p
  | e :: l => p ← place_after p e; scan p l
  end.

Definition good (l : list element) : Prop := is_Some (scan Outside l).

(** The references of a list have names. *)
Definition ref_named (ids : gmap text Z) (e : element) : Prop :=
  type e = RULE_REF -> 0 <= value e /\ exists k, ids !! k = Some (value e).
Definition named (ids : gmap text Z) (l : list element) : Prop := Forall (ref_named ids) l.

Definition body_ok (ids : gmap text Z) (l : list element) : Prop := good l /\ named ids l.

Definition rule_ok (ids : gmap text Z) (r : rule) : Prop :=
  r = [] \/ exists body, r = body ++ [el END 0] /\ body_ok ids body.

Lemma scan_app p l1 l2 : scan p (l1 ++ l2) = scan p l1 ≫= fun p => scan p l2.
Proof.
  revert p. induction l1 as [|e l1 IH]; intros p; [done|]. cbn [scan app].
  by destruct (place_after p e) as [p'|]; cbn [mbind option_bind].
Qed.

Lemma place_after_outside p e q : place_after Outside e = Some q -> place_after p e = Some q.
Proof. unfold place_after. by destruct (type e). Qed.

Lemma good_scan p l : good l -> is_Some (scan p l).
Proof.
  intros [q Hq]. destruct l as [|e l]; [by exists p|]. cbn [scan] in *.
  destruct (place_after Outside e) as [p'|] eqn:He; [|done].
  rewrite (place_after_outside p e p' He). by exists q.
Qed.

Lemma good_nil : good [].
Proof. by exists Outside. Qed.

Lemma good_app l1 l2 : good l1 -> good l2 -> good (l1 ++ l2).
Proof.
  intros [p Hp] H2. unfold good. rewrite scan_app, Hp. by apply good_scan.
Qed.

Lemma good_one e : type e <> END -> type e <> CHAR_RNG_UPPER -> type e <> CHAR_ALT -> good [e].
Proof. intros. unfold good. cbn [scan]. unfold place_after. destruct (type e); done. Qed.

Lemma good_replicate n l : good l -> good (concat (replicate n l)).
Proof. intros Hl. induction n as [|n IH]; simpl; [apply good_nil|by apply good_app]. Qed.

Lemma named_app ids l1 l2 : named ids l1 -> named ids l2 -> named ids (l1 ++ l2).
Proof. intros. by apply Forall_app. Qed.

Lemma named_mono ids ids' l : ids ⊆ ids' -> named ids l -> named ids' l.
Proof.
  intros Hs Hl. eapply Forall_impl; [exact Hl|]. intros e He Ht. destruct (He Ht) as [H0 [k Hk]].
  split; [done|]. exists k. by eapply lookup_weaken.
Qed.

Lemma named_replicate ids n l : named ids l -> named ids (concat (replicate n l)).
Proof. intros Hl. induction n as [|n IH]; simpl; [constructor|by apply named_app]. Qed.

Lemma body_app ids l1 l2 : body_ok ids l1 -> body_ok ids l2 -> body_ok ids (l1 ++ l2).
Proof. intros [? ?] [? ?]. split; [by apply good_app|by apply named_app]. Qed.

Lemma body_mono ids ids' l : ids ⊆ ids' -> body_ok ids l -> body_ok ids' l.
Proof. intros Hs [? ?]. split; [done|by eapply named_mono]. Qed.

Lemma body_replicate ids n l : body_ok ids l -> body_ok ids (concat (replicate n l)).
Proof. intros [? ?]. split; [by apply good_replicate|by apply named_replicate]. Qed.

Lemma body_nil ids : body_ok ids [].
Proof. split; [apply good_nil|constructor]. Qed.

Lemma body_one ids t v :
  t <> END -> t <> CHAR_RNG_UPPER -> t <> CHAR_ALT -> t <> RULE_REF -> body_ok ids [el t v].
Proof. intros. split; [by apply good_one|]. constructor; [|constructor]. by intros ?. Qed.

Lemma body_ref ids k v : ids !! k = Some v -> 0 <= v -> body_ok ids [el RULE_REF v].
Proof. intros. split; [by apply good_one|]. constructor; [|constructor]. intros _. split; [done|by exists k]. Qed.

Lemma rule_ok_mono ids ids' r : ids ⊆ ids' -> rule_ok ids r -> rule_ok ids' r.
Proof. intros Hs [->|(b & -> & Hb)]; [by left|right]. exists b. split; [done|by eapply body_mono]. Qed.

(** A body with its end, and references to rules, is what the matcher expects. *)
Lemma scan_wf n l : forall p,
  is_Some (scan p l) -> Forall (fun e => type e = RULE_REF -> 0 <= value e /\ (Z.to_nat (value e) < n)%nat) l ->
  wf_elements n p (l ++ [el END 0]) = true.
Proof.
  induction l as [|e l IH]; intros p Hs Hr; [done|]. apply Forall_cons in Hr as [He Hr].
  cbn [scan app wf_elements] in *. unfold place_after in Hs.
  destruct (type e) eqn:Ht; cbn [mbind option_bind] in Hs; try (by apply IH); [by destruct Hs| | |].
  - destruct (He eq_refl). rewrite (IH Outside); [|done..]. rewrite andb_true_r.
    apply andb_true_iff. split; [by apply Z.leb_le|by apply Nat.ltb_lt].
  - case_bool_decide as Hp; [|by destruct Hs]. cbn in Hs. by apply IH.
  - case_bool_decide as Hp; [by destruct Hs|]. cbn in Hs. by apply IH.
Qed.

(** ** The parser's invariant *)

(** A name of the text, or a generated one that ends with its number. *)
Definition key_ok (k : text) (v : Z) : Prop :=
  95 ∉ k \/ exists base, 95 ∉ base /\ k = base ++ 95 :: decimal v.

Definition ids_ok (ids : gmap text Z) : Prop :=
  forall k v, ids !! k = Some v -> 0 <= v < Z.of_nat (size ids) /\ key_ok k v.

Definition parser_ok (s : Parser) : Prop :=
  ids_ok (symbol_ids s) /\ Forall (rule_ok (symbol_ids s)) (parsed_rules s).

(** Fewer names than rule numbers. *)
Definition few (s : Parser) : Prop := Z.of_nat (size (symbol_ids s)) < 2 ^ 32.

Lemma few_size s : few s -> ids_size s = Z.of_nat (size (symbol_ids s)).
Proof. unfold few, ids_size, u32. intros. apply Z.mod_small. lia. Qed.

Lemma text_of_inj a b : text_of a = text_of b -> a = b.
Proof.
  unfold text_of. intros H. rewrite <- (String.string_of_list_ascii_of_string a).
  rewrite <- (String.string_of_list_ascii_of_string b). f_equal. revert H. apply list_fmap_eq_inj.
  intros c d Hc. unfold ch in Hc. apply (f_equal Z.to_N) in Hc. rewrite !N2Z.id in Hc.
  rewrite <- (ascii_N_embedding c), <- (ascii_N_embedding d). by f_equal.
Qed.

Lemma decimal_inj a b : 0 <= a -> 0 <= b -> decimal a = decimal b -> a = b.
Proof.
  unfold decimal. intros Ha Hb H%text_of_inj. apply (inj pretty) in H.
  apply (f_equal Z.of_N) in H. rewrite !Z2N.id in H; lia.
Qed.

Lemma split_mark (a b x y : text) : 95 ∉ a -> 95 ∉ b -> a ++ 95 :: x = b ++ 95 :: y -> x = y.
Proof.
  revert b. induction a as [|c a IH]; intros [|d b] Ha Hb H; simpl in H.
  - by injection H.
  - injection H as Hd _. exfalso. apply Hb. subst d. by left.
  - injection H as Hd _. exfalso. apply Ha. subst c. by left.
  - injection H as <- H. apply (IH b); [intros ?; apply Ha; by right|intros ?; apply Hb; by right|done].
Qed.

(** A generated name is new. *)
Lemma generated_fresh ids base :
  ids_ok ids -> 95 ∉ base -> ids !! (base ++ 95 :: decimal (Z.of_nat (size ids))) = None.
Proof.
  intros Hok Hb. destruct (ids !! _) as [v|] eqn:Hl; [|done]. exfalso.
  destruct (Hok _ _ Hl) as [Hv [Hn|(b & Hb' & He)]].
  - apply Hn, elem_of_app. right. by left.
  - apply split_mark in He; [|done..]. apply decimal_inj in He; lia.
Qed.

(** *** Adding a name *)

Lemma ids_ok_insert ids k :
  ids_ok ids -> ids !! k = None -> key_ok k (Z.of_nat (size ids)) ->
  ids_ok (<[k := Z.of_nat (size ids)]> ids).
Proof.
  intros Hok Hn Hk k' v. rewrite map_size_insert_None by done. intros [[<- <-]|[Hne Hl]]%lookup_insert_Some.
  - split; [lia|done].
  - destruct (Hok _ _ Hl). split; [lia|done].
Qed.

Lemma parser_ok_insert s k :
  parser_ok s -> symbol_ids s !! k = None -> key_ok k (Z.of_nat (size (symbol_ids s))) ->
  let ids := <[k := Z.of_nat (size (symbol_ids s))]> (symbol_ids s) in
  parser_ok {| symbol_ids := ids; parsed_rules := parsed_rules s |} /\ symbol_ids s ⊆ ids.
Proof.
  intros [Hi Hr] Hn Hk. cbv zeta. assert (symbol_ids s ⊆ <[k := Z.of_nat (size (symbol_ids s))]> (symbol_ids s)).
  { by apply insert_subseteq. }
  split; [|done]. split; [by apply ids_ok_insert|]. eapply Forall_impl; [exact Hr|].
  intros r. by apply rule_ok_mono.
Qed.

(** ** Steps that keep the invariant *)

Definition claim (A : Type) : Type := A -> gmap text Z -> Prop.

(** No name is forgotten, and while there are few of them the invariant holds and the
    result satisfies [Q]. *)
Definition keeps {A : Type} (P : gmap text Z -> Prop) (m : Parse A) (Q : claim A) : Prop :=
  forall s a s', m s = Done (Ok a, s') ->
    (size (symbol_ids s) <= size (symbol_ids s'))%nat /\
    (few s' -> parser_ok s -> P (symbol_ids s) ->
     parser_ok s' /\ symbol_ids s ⊆ symbol_ids s' /\ Q a (symbol_ids s')).

Definition stable (P : gmap text Z -> Prop) : Prop := forall ids ids', ids ⊆ ids' -> P ids -> P ids'.

Lemma keeps_ret {A : Type} (a : A) (P : gmap text Z -> Prop) (Q : claim A) :
  (forall ids, P ids -> Q a ids) -> keeps P (mret a) Q.
Proof. intros HQ s b s' [= <- <-]. split; [done|]. intros _ Hs HP. split; [done|]. auto. Qed.

Lemma keeps_fail {A : Type} what P (Q : claim A) : keeps P (fail what) Q.
Proof. by intros s a s'. Qed.

Lemma keeps_lift {A : Type} (o : outcome A) P (Q : claim A) :
  (forall a ids, o = Ok a -> P ids -> Q a ids) -> keeps P (lift_parse o) Q.
Proof. intros HQ s a s' [= -> <-]. split; [done|]. intros _ Hs HP. split; [done|]. auto. Qed.

Lemma keeps_bind {A B : Type} P (m : Parse A) (k : A -> Parse B) (Q : claim A) (R : claim B) :
  keeps P m Q -> (forall a, keeps (Q a) (k a) R) -> keeps P (m ≫= k) R.
Proof.
  intros Hm Hk s b s'' H. unfold mbind, parse_bind in H.
  destruct (m s) as [[[a|e] s']| |] eqn:Hms; cbn [mbind run_bind] in H; [|done..].
  destruct (Hm _ _ _ Hms) as [Hl Hm']. destruct (Hk a _ _ _ H) as [Hl' Hk'].
  split; [lia|]. intros Hf Hs HP. assert (few s') as Hf' by (unfold few in *; lia).
  destruct (Hm' Hf' Hs HP) as (Hs' & Hi & HQ). destruct (Hk' Hf Hs' HQ) as (Hs'' & Hi' & HR).
  split; [done|]. split; [by etrans|done].
Qed.

Lemma keeps_weaken {A : Type} (P P' : gmap text Z -> Prop) (m : Parse A) (Q Q' : claim A) :
  keeps P m Q -> (forall ids, P' ids -> P ids) -> (forall a ids, Q a ids -> Q' a ids) -> keeps P' m Q'.
Proof.
  intros Hm HP HQ s a s' H. destruct (Hm _ _ _ H) as [Hl Hm']. split; [done|].
  intros Hf Hs H'. destruct (Hm' Hf Hs (HP _ H')) as (? & ? & ?). auto.
Qed.

(** What held of the names before a step holds after it. *)
Lemma keeps_frame {A : Type} (F P : gmap text Z -> Prop) (m : Parse A) (Q : claim A) :
  stable F -> keeps P m Q -> keeps (fun ids => F ids /\ P ids) m (fun a ids => F ids /\ Q a ids).
Proof.
  intros HF Hm s a s' H. destruct (Hm _ _ _ H) as [Hl Hm']. split; [done|].
  intros Hf Hs [Hp HP]. destruct (Hm' Hf Hs HP) as (? & Hi & ?). split; [done|]. split; [done|].
  split; [by eapply HF|done].
Qed.


(** A step that keeps what the rest needs. *)
Lemma keeps_step {A B : Type} F P (m : Parse A) (k : A -> Parse B) (Q : claim A) (R : claim B) :
  stable F -> (forall ids, F ids -> P ids) -> keeps P m Q ->
  (forall a, keeps (fun ids => F ids /\ Q a ids) (k a) R) -> keeps F (m ≫= k) R.
Proof.
  intros HF HP Hm Hk. apply keeps_bind with (Q := fun a ids => F ids /\ Q a ids); [|done].
  apply keeps_weaken with (fun ids => F ids /\ P ids) (fun a ids => F ids /\ Q a ids); auto.
  by apply keeps_frame.
Qed.

(** The same for a step that needs nothing. *)
Lemma keeps_then {A B : Type} F (m : Parse A) (k : A -> Parse B) (Q : claim A) (R : claim B) :
  stable F -> keeps (fun _ => True) m Q ->
  (forall a, keeps (fun ids => F ids /\ Q a ids) (k a) R) -> keeps F (m ≫= k) R.
Proof. intros HF Hm Hk. by apply keeps_step with (fun _ => True) Q. Qed.

Lemma keeps_bind_lift {A B : Type} F (o : outcome A) (k : A -> Parse B) (R : claim B) :
  (forall a, o = Ok a -> keeps F (k a) R) -> keeps F (lift_parse o ≫= k) R.
Proof. intros Hk. destruct o as [a|e]; [by apply Hk|]. by intros s b s'. Qed.

(** ** The names *)

Definition is_id (i : Z) (ids : gmap text Z) : Prop := 0 <= i /\ exists k, ids !! k = Some i.

Lemma stable_is_id i : stable (is_id i).
Proof. intros ids ids' Hs [H0 [k Hk]]. split; [done|]. exists k. by eapply lookup_weaken. Qed.

Lemma stable_body l : stable (fun ids => body_ok ids l).
Proof. intros ids ids' Hs. by apply body_mono. Qed.

Lemma stable_and P Q : stable P -> stable Q -> stable (fun ids => P ids /\ Q ids).
Proof. intros HP HQ ids ids' Hs [? ?]. split; [by eapply HP|by eapply HQ]. Qed.

Lemma stable_or (X : Prop) P : stable P -> stable (fun ids => X \/ P ids).
Proof. intros HP ids ids' Hs [?|?]; [by left|right; by eapply HP]. Qed.

Lemma size_insert_le (ids : gmap text Z) k v : (size ids <= size (<[k := v]> ids))%nat.
Proof. rewrite map_size_insert. destruct (ids !! k); simpl; lia. Qed.

Lemma body_id i ids : is_id i ids -> body_ok ids [el RULE_REF i].
Proof. intros [H0 [k Hk]]. by eapply body_ref. Qed.

(** The state with one more name. *)
Lemma keeps_new_name s k i s' :
  i = ids_size s ->
  s' = {| symbol_ids := <[k := i]> (symbol_ids s); parsed_rules := parsed_rules s |} ->
  few s' -> parser_ok s -> symbol_ids s !! k = None -> (few s -> key_ok k i) ->
  parser_ok s' /\ symbol_ids s ⊆ symbol_ids s' /\ is_id i (symbol_ids s').
Proof.
  intros -> -> Hf Hs Hn Hk.
  assert (few s) as Hf'.
  { unfold few in *. cbn [symbol_ids] in Hf. pose proof (size_insert_le (symbol_ids s) k (ids_size s)). lia. }
  specialize (Hk Hf'). rewrite (few_size s Hf') in *.
  destruct (parser_ok_insert s k Hs Hn Hk) as [Hok Hsub]. split; [done|]. split; [done|].
  split; [lia|]. exists k. cbn [symbol_ids]. by rewrite lookup_insert_eq.
Qed.

Lemma keeps_get name : 95 ∉ name -> keeps (fun _ => True) (get_symbol_id name) is_id.
Proof.
  intros Hb s i s' H. unfold get_symbol_id in H. destruct (symbol_ids s !! name) as [v|] eqn:Hl.
  - injection H as <- <-. split; [done|]. intros _ Hs _. split; [done|]. split; [done|].
    destruct (proj1 Hs _ _ Hl) as [Hv _]. split; [lia|]. by exists name.
  - cbv zeta in H. injection H as <- <-. split; [apply size_insert_le|]. intros Hf Hs _.
    eapply keeps_new_name; [done|done|done|done|done|]. intros _. by left.
Qed.

Lemma keeps_generate base : 95 ∉ base -> keeps (fun _ => True) (generate_symbol_id base) is_id.
Proof.
  intros Hb s i s' H. unfold generate_symbol_id in H. cbv zeta in H. injection H as <- <-.
  split; [apply size_insert_le|]. intros Hf Hs _.
  assert (few s) as Hf'.
  { unfold few in *. cbn [symbol_ids] in Hf.
    pose proof (size_insert_le (symbol_ids s) (base ++ 95 :: decimal (ids_size s)) (ids_size s)). lia. }
  eapply keeps_new_name; [done|done|done|done| |].
  - rewrite (few_size s Hf'). apply generated_fresh; [apply Hs|done].
  - intros _. right. by exists base.
Qed.

Lemma keeps_read_size : keeps (fun _ => True) read_size (fun _ _ => True).
Proof. intros s a s' [= <- <-]. split; [done|]. by intros _ Hs _. Qed.

Lemma keeps_add_rule i r : keeps (fun ids => rule_ok ids r) (add_rule i r) (fun _ _ => True).
Proof.
  intros s a s' H. injection H as _ <-. split; [done|]. intros _ [Hi Hr] Hok. split; [|done].
  split; [done|]. cbn [symbol_ids parsed_rules]. apply Forall_insert; [|done].
  apply Forall_app. split; [done|]. apply Forall_replicate. by left.
Qed.

Lemma keeps_then_add_rule {B : Type} F i r (k : unit -> Parse B) (R : claim B) :
  stable F -> (forall ids, F ids -> rule_ok ids r) -> keeps F (k tt) R -> keeps F (add_rule i r ≫= k) R.
Proof.
  intros HF Hr Hk. apply keeps_step with (fun ids => rule_ok ids r) (fun _ _ => True); [done|done| |].
  - apply keeps_add_rule.
  - intros []. eapply keeps_weaken; [exact Hk| |done]. by intros ids [? _].
Qed.

(** ** Sequences *)

(** The elements before the last symbol, and the last symbol. *)
Definition seq_ok (q : Sequence) (ids : gmap text Z) : Prop :=
  exists before cur, seq_rule q = before ++ cur /\ last_sym_start q = length before /\
    body_ok ids before /\ body_ok ids cur.

Lemma stable_seq q : stable (seq_ok q).
Proof.
  intros ids ids' Hs (b & c & ? & ? & Hb & Hc). exists b, c.
  split; [done|]. split; [done|]. split; by eapply body_mono.
Qed.

Lemma seq_body q ids : seq_ok q ids -> body_ok ids (seq_rule q).
Proof. intros (b & c & -> & _ & ? & ?). by apply body_app. Qed.

Lemma seq_begin n q ids : seq_ok q ids -> seq_ok (begin_symbol n q) ids.
Proof.
  intros H%seq_body. exists (seq_rule q), []. cbn. rewrite app_nil_r.
  split; [done|]. split; [done|]. split; [done|apply body_nil].
Qed.

Lemma seq_push e q ids : seq_ok q ids -> body_ok ids [e] -> seq_ok (push e q) ids.
Proof.
  intros (b & c & Hr & Hl & Hb & Hc) He. exists b, (c ++ [e]). cbn. rewrite Hr, app_assoc.
  split; [done|]. split; [done|]. split; [done|by apply body_app].
Qed.

Lemma seq_start r n ids : body_ok ids r -> seq_ok {| seq_rule := r; last_sym_start := length r; n_prev_rules := n |} ids.
Proof.
  intros Hr. exists r, []. cbn. rewrite app_nil_r. split; [done|]. split; [done|].
  split; [done|apply body_nil].
Qed.

(** *** Repetitions *)

Lemma recursion_rule_ok ids prev no_max first id last :
  body_ok ids prev -> is_id id ids -> (first = true \/ is_id last ids) ->
  rule_ok ids (recursion_rule prev no_max first id last).
Proof.
  intros Hp Hid Hl. right. unfold recursion_rule.
  exists (prev ++ (if negb first || no_max then [el RULE_REF (if no_max then id else last)] else []) ++ [el ALT 0]).
  split; [by rewrite <- !app_assoc|]. apply body_app; [done|]. apply body_app; [|by apply body_one].
  destruct no_max, first; cbn [negb orb]; try (by apply body_id); [apply body_nil|].
  apply body_id. by destruct Hl.
Qed.

Lemma keeps_add_recursions name prev no_max n : 95 ∉ name -> forall first last,
  keeps (fun ids => body_ok ids prev /\ (first = true \/ is_id last ids))
    (add_recursions n name prev no_max first last)
    (fun i ids => (n = O /\ first = true) \/ is_id i ids).
Proof.
  intros Hb. induction n as [|n IH]; intros first last; cbn [add_recursions].
  { apply keeps_ret. intros ids [_ [->|?]]; [by left|by right]. }
  pose proof (stable_and _ _ (stable_body prev) (stable_or (first = true) _ (stable_is_id last))) as HF.
  eapply keeps_then; [exact HF|by apply keeps_generate|]. intros id. cbn beta.
  apply keeps_then_add_rule; [apply stable_and; [exact HF|apply stable_is_id]| |].
  { intros ids [[Hp Hl] Hid]. by apply recursion_rule_ok. }
  eapply keeps_weaken; [apply (IH false id)|..].
  - intros ids [[Hp _] Hid]. split; [done|by right].
  - intros i ids [[_ ?]|?]; [done|by right].
Qed.

Lemma keeps_repetitions name m n q :
  95 ∉ name -> keeps (seq_ok q) (handle_repetitions name m n q) seq_ok.
Proof.
  intros Hb. unfold handle_repetitions. cbv zeta. case_bool_decide; [apply keeps_fail|].
  destruct (2000 <=? _); [apply keeps_fail|].
  set (n_opt := if n =? u64_max then 1 else u64 (n - m)).
  eapply keeps_step; [apply stable_seq| |by apply keeps_add_recursions|].
  { intros ids (b & c & Hr & Hl & ? & ?). split; [|by left]. by rewrite Hl, Hr, drop_app_length. }
  intros last. cbn beta. destruct (_ <? 1); [by intros s a s'|]. apply keeps_ret.
  intros ids [(b & c & Hr & Hl & Hb' & Hc) Hlast].
  set (times := (Z.to_nat m - 1)%nat) in *.
  exists b, ((if m =? 0 then [] else c ++ concat (replicate times c)) ++
             (if 0 <? n_opt then [el RULE_REF last] else [])).
  cbn [seq_rule last_sym_start]. rewrite Hl, Hr, take_app_length, drop_app_length.
  split; [|split; [done|split; [done|apply body_app]]].
  - destruct (m =? 0), (0 <? n_opt); rewrite ?app_nil_r, <- ?app_assoc; done.
  - destruct (m =? 0); [apply body_nil|]. apply body_app; [done|by apply body_replicate].
  - destruct (Z.ltb_spec 0 n_opt); [|apply body_nil]. apply body_id.
    destruct Hlast as [[Hz _]|?]; [lia|done].
Qed.

(** *** Literals and classes *)

Lemma keeps_parse_literal fuel : forall src q,
  keeps (seq_ok q) (parse_literal fuel src q) (fun r => seq_ok r.2).
Proof.
  induction fuel as [|fuel IH]; intros src q; cbn [parse_literal]; [by intros s a s'|].
  destruct src as [|c rest]; [apply keeps_fail|]. destruct (c =? 34); [by apply keeps_ret|].
  apply keeps_bind_lift. intros [v r] _. eapply keeps_weaken; [apply IH| |done].
  intros ids Hq. apply seq_push; [done|by apply body_one].
Qed.

(** Within a class the place is never outside once an element is read. *)
Definition class_ok (q : Sequence) (ids : gmap text Z) : Prop :=
  exists before cur p, seq_rule q = before ++ cur /\ last_sym_start q = length before /\
    body_ok ids before /\ named ids cur /\ scan Outside cur = Some p /\ (cur = [] \/ p <> Outside).

Lemma stable_class q : stable (class_ok q).
Proof.
  intros ids ids' Hs (b & c & p & ? & ? & Hb & Hc & ?). exists b, c, p.
  split; [done|]. split; [done|]. split; [by eapply body_mono|]. split; [by eapply named_mono|done].
Qed.

Lemma class_begin n q ids : seq_ok q ids -> class_ok (begin_symbol n q) ids.
Proof.
  intros H%seq_body. exists (seq_rule q), [], Outside. cbn. rewrite app_nil_r.
  repeat split; [apply H|apply H|constructor|by left].
Qed.

Lemma class_seq q ids : class_ok q ids -> seq_ok q ids.
Proof.
  intros (b & c & p & ? & ? & Hb & Hc & Hp & _). exists b, c.
  split; [done|]. split; [done|]. split; [done|]. split; [by exists p|done].
Qed.

Lemma class_push t v q ids :
  class_ok q ids -> t = CHAR \/ t = CHAR_NOT ->
  let t' := if bool_decide (last_sym_start q < length (seq_rule q))%nat then CHAR_ALT else t in
  class_ok (push (el t' v) q) ids /\
  forall w, class_ok (push (el CHAR_RNG_UPPER w) (push (el t' v) q)) ids.
Proof.
  intros (b & c & p & Hr & Hl & Hb & Hc & Hp & Hne) Ht t'.
  assert (t' <> RULE_REF /\ scan Outside (c ++ [el t' v]) = Some Single) as [Hn Hs].
  { rewrite scan_app, Hp. cbn [mbind option_bind scan]. unfold t', place_after. cbn [type el].
    rewrite Hl, Hr, length_app. destruct c as [|e c].
    - rewrite bool_decide_eq_false_2 by (simpl; lia). by destruct Ht as [-> | ->].
    - rewrite bool_decide_eq_true_2 by (simpl; lia). destruct Hne as [?|Hne]; [done|].
      by rewrite bool_decide_eq_false_2. }
  assert (named ids (c ++ [el t' v])).
  { apply named_app; [done|]. constructor; [|constructor]. by intros ?. }
  split.
  - exists b, (c ++ [el t' v]), Single. cbn [push seq_rule last_sym_start]. rewrite Hr, app_assoc.
    split_and!; [done|done|done|done|done|by right].
  - intros w. exists b, ((c ++ [el t' v]) ++ [el CHAR_RNG_UPPER w]), Ranged.
    cbn [push seq_rule last_sym_start]. rewrite Hr, !app_assoc.
    split_and!; [done|done|done| | |by right].
    + apply named_app; [done|]. constructor; [|constructor]. by intros ?.
    + by rewrite scan_app, Hs.
Qed.

Lemma keeps_parse_class fuel t : t = CHAR \/ t = CHAR_NOT -> forall src q,
  keeps (class_ok q) (parse_class fuel t src q) (fun r => seq_ok r.2).
Proof.
  intros Ht. induction fuel as [|fuel IH]; intros src q; cbn [parse_class]; [by intros s a s'|].
  destruct src as [|c rest]; [apply keeps_fail|].
  destruct (c =? 93); [apply keeps_ret; intros ids; apply class_seq|].
  apply keeps_bind_lift. intros [v r] _. cbv zeta. destruct (_ && _).
  - destruct (peek1 r =? 0); [apply keeps_fail|]. apply keeps_bind_lift. intros [w r'] _.
    eapply keeps_weaken; [apply IH| |done]. intros ids Hq. by apply class_push.
  - eapply keeps_weaken; [apply IH| |done]. intros ids Hq. by apply class_push.
Qed.

(** ** Rules *)

Section Keeps.
Context (tokenize : option (text -> Z * Z)).

Definition sequence_keeps (fuel : nat) : Prop := forall src name nested q,
  95 ∉ name -> keeps (seq_ok q) (parse_sequence tokenize fuel src name nested q) (fun r => seq_ok r.2).

Definition alternates_keep (fuel : nat) : Prop := forall src name id nested r,
  95 ∉ name ->
  keeps (fun ids => body_ok ids r) (parse_alternates tokenize fuel src name id nested r) (fun _ _ => True).

(** After a symbol that is one element. *)
Lemma keeps_symbol F fuel src name nested n e q :
  sequence_keeps fuel -> 95 ∉ name -> (forall ids, F ids -> seq_ok q ids /\ body_ok ids [e]) ->
  keeps F (parse_sequence tokenize fuel src name nested (push e (begin_symbol n q))) (fun r => seq_ok r.2).
Proof.
  intros IH Hb HF. eapply keeps_weaken; [by apply IH| |done].
  intros ids [Hq He]%HF. apply seq_push; [by apply seq_begin|done].
Qed.

Lemma keeps_sequence_group fuel rest name nested q :
  sequence_keeps fuel -> alternates_keep fuel -> 95 ∉ name ->
  keeps (seq_ok q)
    (before ← read_size;
     id ← generate_symbol_id name;
     src ← parse_alternates tokenize fuel (parse_space rest true) name id true [];
     after ← read_size;
     let q := push (el RULE_REF id) (begin_symbol (Z.max 1 (u32 (after - before))) q) in
     if peek src =? 41
     then parse_sequence tokenize fuel (parse_space (tail src) nested) name nested q
     else fail "expecting ')'") (fun r => seq_ok r.2).
Proof.
  intros IHs IHa Hb. pose proof (stable_seq q) as HS.
  eapply keeps_then; [done|apply keeps_read_size|intros before].
  eapply keeps_then; [by apply stable_and|by apply keeps_generate|intros id].
  assert (stable (fun ids => (seq_ok q ids /\ True) /\ is_id id ids)) as HS'.
  { apply stable_and; [by apply stable_and|apply stable_is_id]. }
  eapply keeps_step; [exact HS'| |by apply IHa|intros src].
  { intros ids _. apply body_nil. }
  eapply keeps_then; [by apply stable_and|apply keeps_read_size|intros after]. cbv zeta.
  destruct (peek src =? 41); [|apply keeps_fail].
  apply keeps_symbol; [done|done|]. intros ids [[[[Hq _] Hid] _] _]. split; [done|by apply body_id].
Qed.

Lemma keeps_sequence_repeat fuel src name nested m n q :
  sequence_keeps fuel -> 95 ∉ name ->
  keeps (seq_ok q)
    (q ← handle_repetitions name m n q; parse_sequence tokenize fuel src name nested q)
    (fun r => seq_ok r.2).
Proof.
  intros IH Hb. eapply keeps_bind; [by apply keeps_repetitions|]. intros q'. by apply IH.
Qed.

Lemma word_no_mark name rest src : parse_name src = Ok (name, rest) -> 95 ∉ name.
Proof.
  unfold parse_name. destruct (span is_word_char src) as [l r] eqn:Hs. apply span_Forall in Hs.
  destruct (is_nil l); [done|]. intros [= <- _] H. rewrite Forall_forall in Hs. by apply Hs in H.
Qed.

Lemma keeps_sequence_step fuel : sequence_keeps fuel -> alternates_keep fuel -> sequence_keeps (S fuel).
Proof.
  intros IHs IHa src name nested q Hb. cbn [parse_sequence]. cbv zeta.
  destruct src as [|c rest]; [by apply keeps_ret|].
  destruct (c =? 34).
  { apply keeps_bind with (fun r => seq_ok r.2); [|intros [s q']; by apply IHs].
    eapply keeps_weaken; [apply keeps_parse_literal|intros ids; apply seq_begin|done]. }
  destruct (c =? 91).
  { destruct (if peek rest =? 94 then _ else _) as [t r] eqn:Ht.
    assert (t = CHAR \/ t = CHAR_NOT) as Ht'.
    { destruct (peek rest =? 94); injection Ht as <- _; auto. }
    apply keeps_bind with (fun r => seq_ok r.2); [|intros [s q']; by apply IHs].
    eapply keeps_weaken; [by apply keeps_parse_class|intros ids; apply class_begin|done]. }
  destruct (_ || _).
  { destruct (if c =? 33 then _ else _) as [t s] eqn:Ht. apply keeps_bind_lift. intros [v r] _.
    apply keeps_symbol; [done|done|]. intros ids Hq. split; [done|].
    destruct (c =? 33); injection Ht as <- _; by apply body_one. }
  destruct (is_word_char c).
  { apply keeps_bind_lift. intros [name' r] Hn.
    eapply keeps_then; [apply stable_seq|by eapply keeps_get, word_no_mark|intros id].
    apply keeps_symbol; [done|done|]. intros ids [Hq Hid]. split; [done|by apply body_id]. }
  destruct (c =? 40); [by apply keeps_sequence_group|].
  destruct (c =? 46).
  { apply keeps_symbol; [done|done|]. intros ids Hq. split; [done|by apply body_one]. }
  destruct (c =? 42); [by apply keeps_sequence_repeat|].
  destruct (c =? 43); [by apply keeps_sequence_repeat|].
  destruct (c =? 63); [by apply keeps_sequence_repeat|].
  destruct (c =? 123); [|by apply keeps_ret].
  apply keeps_bind_lift. intros [[m n] s] _. destruct (negb _); [apply keeps_fail|].
  by apply keeps_sequence_repeat.
Qed.

Lemma keeps_alternates_step fuel : sequence_keeps fuel -> alternates_keep fuel -> alternates_keep (S fuel).
Proof.
  intros IHs IHa src name id nested r Hb. cbn [parse_alternates].
  eapply keeps_bind; [eapply keeps_weaken; [by apply IHs|intros ids; apply seq_start|intros a ids HQ; exact HQ]|].
  intros [s q]. cbn [snd]. destruct (peek s =? 124).
  - eapply keeps_weaken; [by apply IHa| |done]. intros ids Hq%seq_body.
    apply body_app; [done|by apply body_one].
  - apply keeps_then_add_rule; [apply stable_seq| |by apply keeps_ret].
    intros ids Hq%seq_body. right. by exists (seq_rule q).
Qed.

Lemma keeps_both fuel : sequence_keeps fuel /\ alternates_keep fuel.
Proof.
  induction fuel as [|fuel [IHs IHa]]; [split; [intros ? ? ? ? ?|intros ? ? ? ? ? ?]; by intros s a s'|].
  split; [by apply keeps_sequence_step|by apply keeps_alternates_step].
Qed.

Lemma keeps_parse_rule fuel src : keeps (fun _ => True) (parse_rule tokenize fuel src) (fun _ _ => True).
Proof.
  unfold parse_rule. apply keeps_bind_lift. intros [name rest] Hn%word_no_mark. cbv zeta.
  eapply keeps_then; [done|by apply keeps_get|intros id].
  repeat (case_match; try apply keeps_fail).
  eapply keeps_bind; [eapply keeps_weaken; [by apply keeps_both| |intros a ids HQ; exact HQ]|].
  { intros ids _. apply body_nil. }
  intros pos. repeat case_match; try apply keeps_fail; by apply keeps_ret.
Qed.

Lemma keeps_parse_rules fuel : forall src,
  keeps (fun _ => True) (parse_rules tokenize fuel src) (fun _ _ => True).
Proof.
  induction fuel as [|fuel IH]; intros src; cbn [parse_rules]; [by intros s a s'|].
  destruct src as [|c src]; [by apply keeps_ret|].
  eapply keeps_bind; [apply keeps_parse_rule|]. intros rest. apply IH.
Qed.
End Keeps.

(** ** Accepted texts *)

Lemma empty_parser_ok : parser_ok empty_parser.
Proof. split; [|constructor]. intros k v H. unfold empty_parser in H. cbn in H. by rewrite lookup_empty in H. Qed.

(** The last check gives every named reference a rule. *)
Lemma validated_wf s : parser_ok s -> validate s = true -> wf_rules (parsed_rules s) = true.
Proof.
  intros [_ Hr] Hv. unfold validate in Hv. rewrite forallb_forall in Hv. rewrite Forall_forall in Hr.
  unfold wf_rules. apply forallb_forall. intros r Hin. specialize (Hv r Hin).
  apply andb_true_iff in Hv as [Hne Hrefs]. apply negb_true_iff in Hrefs.
  apply list_elem_of_In in Hin. destruct (Hr r Hin) as [->|(body & -> & Hg & Hn)]; [done|].
  apply scan_wf; [exact Hg|]. rewrite existsb_app in Hrefs. apply orb_false_iff in Hrefs as [Hrefs _].
  apply Forall_forall. intros e He Ht. unfold named in Hn. rewrite Forall_forall in Hn.
  destruct (Hn e He Ht) as [H0 [k Hk]]. split; [done|].
  assert (undefined_ref s e = false) as Hu.
  { apply not_true_is_false. intros Hu. apply not_true_iff_false in Hrefs. apply Hrefs, existsb_exists.
    exists e. split; [by apply list_elem_of_In|done]. }
  unfold undefined_ref in Hu. rewrite bool_decide_eq_true_2 in Hu by done. cbn [andb] in Hu.
  destruct (parsed_rules s !! Z.to_nat (value e)) eqn:Hl; [by eapply lookup_lt_Some|].
  exfalso. apply not_true_iff_false in Hu. apply Hu, existsb_exists. exists (k, value e).
  split; [by apply list_elem_of_In, elem_of_map_to_list|by apply Z.eqb_refl].
Qed.

Lemma parsed_ok tokenize src s : parse tokenize src = Done (true, s) -> few s -> wf_rules (parsed_rules s) = true.
Proof.
  unfold parse. destruct (parse_rules _ _ _ _) as [[[[]|e] s']| |] eqn:Hp; cbn [mbind run_bind]; [|done..].
  destruct (validate s') eqn:Hv; [|done]. intros [= <-] Hf. apply validated_wf; [|done].
  destruct (keeps_parse_rules tokenize _ _ _ _ _ Hp) as [_ Hk].
  by destruct (Hk Hf empty_parser_ok I) as [? _].
Qed.

(** C9: every text the parser accepts, with fewer than 2^32 names, gives well-formed
    rules: each is alternates of elements closed by one end, a range follows a
    character, and every reference has a rule. A matcher built from the text for a
    root has the parsed rules, and at first the words that can follow are those the
    rules generate from the root. *)
Theorem text_gives_grammar tokenize src s :
  parse tokenize src = Done (true, s) -> few s ->
  wf_rules (parsed_rules s) = true /\
  forall fuel root is_lazy tokens patterns G,
    init_text tokenize fuel src root is_lazy tokens patterns = Done (Some G) ->
    exists start, symbol_ids s !! root = Some start /\ matching (parsed_rules s) G /\
      forall w, follows_any (parsed_rules s) (stacks G) w <->
        generates (parsed_rules s) [Ref (Z.to_nat start)] w.
Proof.
  intros Hp Hf. pose proof (parsed_ok _ _ _ Hp Hf) as Hg. split; [done|].
  intros fuel root is_lazy tokens patterns G. unfold init_text. rewrite Hp, bind_done.
  destruct (_ || _); [done|]. destruct (symbol_ids s !! root) as [start|]; [|done].
  intros Hi. exists start. split; [done|].
  destruct (init_grammar_cases _ _ _ _ _ _ _ Hg Hi) as (_ & Hr & Hss & _ & _).
  destruct (initial_stacks_spec _ Hg fuel _ _ Hss) as [Hset Hw]. split; [by split|exact Hw].
Qed.

(** ** Texts *)

Definition greeting : text := text_of "root ::= ([a-z]+ | <[7]>){1,2} # words
".

Definition no_root : text := text_of "a ::= root{0}".

Lemma text_gives_grammar_witness :
  exists s, parse None greeting = Done (true, s) /\ wf_rules (parsed_rules s) = true.
Proof.
  destruct (parse None greeting) as [[[|] s]| |] eqn:Hp; [|vm_compute in Hp; discriminate..].
  exists s. split; [done|]. apply (text_gives_grammar None greeting s Hp).
  vm_compute in Hp. injection Hp as <-. vm_compute. reflexivity.
Defined.

(** The root is only looked up among the names, not among the rules: in
    [a ::= root{0}] the repetition drops the reference, so the last check of the
    parser does not see that [root] has no rule, and building the matcher reads past
    the end of the rules, whatever the fuel. *)
Theorem root_without_rule fuel is_lazy tokens patterns :
  init_text None fuel no_root (text_of "root") is_lazy tokens patterns = Abort.
Proof. vm_compute. reflexivity. Qed.
