(* ===== verification/Numbers.v ===== *)
(** * Single and double precision

    The arithmetic that code with both [float] and [double] uses, as an interface:
    [Numbers] has the operations, [NumberLaws] the facts about zeros and signs that
    hold in IEEE arithmetic as well as among exact numbers. [ieee] is the instance of
    the machine, over the Standard Library's [SpecFloat]; its exponential is a
    parameter. *)

From stdpp Require Import base list.
From Stdlib Require Import ZArith Lia SpecFloat.
From S2P Require Import Prelude.

#[local] Set Default Proof Using "Type".

Class Numbers := {
  single : Type;
  double : Type;
  s_zero : single;
  s_neg_inf : single;
  s_sub : single -> single -> single;
  s_ltb : single -> single -> bool;
  s_eqb : single -> single -> bool;
  s_finite : single -> bool;
  s_nan : single -> bool;
  widen : single -> double;
  narrow : double -> single;
  d_zero : double;
  d_one : double;
  (** [1.0e-5], and [std::nextafter(1.0, 0.0)]. *)
  d_tolerance : double;
  d_below_one : double;
  d_add : double -> double -> double;
  d_sub : double -> double -> double;
  d_mul : double -> double -> double;
  d_div : double -> double -> double;
  d_abs : double -> double;
  d_exp : double -> double;
  d_ltb : double -> double -> bool;
  d_leb : double -> double -> bool;
  d_finite : double -> bool;
}.

Section Operations.
Context `{Numbers}.

(** [x <= 0.f] on a number; a NaN is not. *)
Definition s_nonpos (x : single) : bool := s_ltb x s_zero || s_eqb x s_zero.
(** [std::max(0.f, x)]. *)
Definition s_pos_part (x : single) : single := if s_ltb s_zero x then x else s_zero.
(** [std::min(1., x)]. *)
Definition d_min_one (x : double) : double := if d_ltb x d_one then x else d_one.
(** [std::clamp(x, 0., std::nextafter(1., 0.))]. *)
Definition d_clamp_unit (x : double) : double :=
  if d_ltb x d_zero then d_zero else if d_ltb d_below_one x then d_below_one else x.

(** A probability: finite and not negative. *)
Definition valid (p : single) : bool := s_finite p && negb (s_ltb p s_zero).
End Operations.

Class NumberLaws `{Numbers} := {
  (** What a sum of probabilities can be. *)
  plain : double -> Prop;
  plain_zero : plain d_zero;
  plain_add x p : plain x -> valid p = true \/ s_ltb s_zero p = true -> plain (d_add x (widen p));
  add_zero x p : plain x -> valid p = true -> s_ltb s_zero p = false -> d_add x (widen p) = x;
  sub_pos a b : valid a = true -> valid b = true ->
    s_ltb s_zero (s_sub a b) = true -> s_ltb s_zero a = true;
  zero_div t : d_ltb d_zero t = true -> d_finite t = true ->
    narrow (d_div (widen s_zero) t) = s_zero;
  div_pos p q : valid p = true -> s_ltb s_zero p = false ->
    d_ltb d_zero (d_div (widen p) (widen q)) = false;
  div_small p q : valid p = true -> s_ltb s_zero p = false -> d_ltb d_zero (widen q) = true ->
    d_ltb (d_div (widen p) (widen q)) d_one = true;
  lt_pos u a : d_finite u = true -> d_ltb u d_zero = false -> d_ltb u a = true ->
    d_ltb d_zero a = true;
  widen_pos p : valid p = true -> s_ltb s_zero p = false -> d_ltb d_zero (widen p) = false;
  pos_valid p : s_finite p = true -> s_ltb s_zero p = true -> valid p = true;
  s_zero_valid : valid s_zero = true;
  s_zero_pos : s_ltb s_zero s_zero = false;
  nonpos_pos p : valid p = true -> s_nonpos p = negb (s_ltb s_zero p);
  d_zero_finite : d_finite d_zero = true /\ d_ltb d_zero d_zero = false;
  d_below_one_finite : d_finite d_below_one = true /\ d_ltb d_below_one d_zero = false;
  one_is_far : d_ltb d_tolerance (d_abs (d_sub d_zero d_one)) = true;
}.

(** ** Machine numbers *)

(** A value in another format. *)
Definition sf_convert (prec emax : Z) (f : spec_float) : spec_float :=
  match f with
  | S754_finite s m e => binary_normalize prec emax (cond_Zopp s (Zpos m)) e s
  | f => f
  end.

Definition sf_finite (f : spec_float) : bool :=
  match f with S754_zero _ | S754_finite _ _ _ => true | _ => false end.
Definition sf_nan (f : spec_float) : bool := match f with S754_nan => true | _ => false end.

Definition d_lit (n d : Z) : spec_float :=
  SFdiv 53 1024 (binary_normalize 53 1024 n 0 false) (binary_normalize 53 1024 d 0 false).

Definition ieee (exp : spec_float -> spec_float) : Numbers := {|
  single := spec_float;
  double := spec_float;
  s_zero := S754_zero false;
  s_neg_inf := S754_infinity true;
  s_sub := SFsub 24 128;
  s_ltb := SFltb;
  s_eqb := SFeqb;
  s_finite := sf_finite;
  s_nan := sf_nan;
  widen := sf_convert 53 1024;
  narrow := sf_convert 24 128;
  d_zero := S754_zero false;
  d_one := d_lit 1 1;
  d_tolerance := d_lit 1 100000;
  d_below_one := d_lit (2 ^ 53 - 1) (2 ^ 53);
  d_add := SFadd 53 1024;
  d_sub := SFsub 53 1024;
  d_mul := SFmul 53 1024;
  d_div := SFdiv 53 1024;
  d_abs := SFabs;
  d_exp := exp;
  d_ltb := SFltb;
  d_leb := SFleb;
  d_finite := sf_finite;
|}.

(** Not negative: in particular not the negative zero. *)
Definition sf_plain (f : spec_float) : Prop :=
  match f with
  | S754_zero s | S754_infinity s | S754_finite s _ _ => s = false
  | S754_nan => True
  end.

Lemma round_plain prec emax m e l : sf_plain (binary_round_aux prec emax false m e l).
Proof.
  unfold binary_round_aux. destruct (shr_fexp _ _ m e l) as [r1 e1].
  destruct (shr_fexp _ _ _ e1 loc_Exact) as [r2 e2]. destruct (shr_m r2); simpl; [done| |done].
  by destruct (_ <=? _)%Z.
Qed.

Lemma normalize_plain prec emax p e b : sf_plain (binary_normalize prec emax (Zpos p) e b).
Proof. unfold binary_normalize, binary_round. destruct (shl_align _ _ _). apply round_plain. Qed.

Section Ieee.
Context (exp : spec_float -> spec_float).
#[local] Existing Instance ieee.

Lemma ieee_valid p :
  valid (H := ieee exp) p = true -> (exists s, p = S754_zero s) \/ exists m e, p = S754_finite false m e.
Proof.
  destruct p as [s|s| |[] m e]; intros Hv; try done; [by left; exists s|]. right. by exists m, e.
Qed.

Lemma ieee_zero p :
  valid (H := ieee exp) p = true -> SFltb (S754_zero false) p = false -> exists s, p = S754_zero s.
Proof. intros [Hz|(m & e & ->)]%ieee_valid Hp; [done|]. by vm_compute in Hp. Qed.

#[export] Instance ieee_laws : NumberLaws (H := ieee exp).
Proof.
  refine {| plain := sf_plain : @double (ieee exp) -> Prop |}.
  - done.
  - intros x p Hx Hp. assert ((exists s, p = S754_zero s) \/ p = S754_infinity false \/
      exists m e, p = S754_finite false m e) as [[s ->]|[->|(m & e & ->)]].
    { destruct Hp as [Hp|Hp]; [apply ieee_valid in Hp as [?|?]; auto|].
      destruct p as [s|[]| |[] m e]; try done; eauto. }
    + destruct x as [[]|[]| |[] mx ex]; try done. by destruct s.
    + by destruct x as [[]|[]| |[] mx ex].
    + cbn [widen d_add ieee sf_convert]. pose proof (normalize_plain 53 1024 m e false) as Hw.
      revert Hw. cbn [cond_Zopp]. generalize (binary_normalize 53 1024 (Zpos m) e false). intros w Hw.
      destruct x as [sx|sx| |sx mx ex], w as [sw|sw| |sw mw ew]; simpl in Hx, Hw; subst; try done.
      apply normalize_plain.
  - intros x p Hx Hv Hp. destruct (ieee_zero p Hv Hp) as [s ->].
    destruct x as [[]|[]| |[] mx ex]; try done. by destruct s.
  - intros a b [[s ->]|(m & e & ->)]%ieee_valid [[s' ->]|(m' & e' & ->)]%ieee_valid Hp; try done.
    by destruct s, s'.
  - intros [s|[]| |[] m e] Ht Hf; try done.
  - intros p q Hv Hp. destruct (ieee_zero p Hv Hp) as [s ->].
    cbn [widen d_div ieee]. destruct (sf_convert 53 1024 q) as [sq|sq| |sq mq eq]; by destruct s.
  - intros p q Hv Hp Hq. destruct (ieee_zero p Hv Hp) as [s ->].
    cbn [widen d_div d_ltb d_zero ieee] in *. destruct (sf_convert 53 1024 q) as [sq|[]| |[] mq eq];
      try done; destruct s; vm_compute; reflexivity.
  - intros [su|su| |[] mu eu] [sa|[]| |[] ma ea] Hf Hz Ha; done.
  - intros p Hv Hp. by destruct (ieee_zero p Hv Hp) as [[] ->].
  - intros [s|[]| |[] m e] Hf Hp; try done; by vm_compute in Hp.
  - done.
  - done.
  - intros p [[s ->]|(m & e & ->)]%ieee_valid; done.
  - done.
  - split; vm_compute; reflexivity.
  - vm_compute. reflexivity.
Qed.
End Ieee.
