(* ===== verification/Speculation.v ===== *)
(** * Verification of drafted tokens ([engine/include/mtp_policy.h])

    Tokens are drafted from a proposal distribution and verified against the target
    model's distributions: a draft is accepted with probability [min 1 (p / q)], the
    first rejected one is replaced by a sample of the positive part of [p - q], and
    when all are accepted one more token is sampled. Distributions are vectors over
    the vocabulary, or compact lists of tokens with probabilities. Arithmetic is any
    [Numbers]; the uniform variables are arguments. *)

From stdpp Require Import base list list_numbers strings sorting.
From Stdlib Require Import ZArith Lia.
From S2P Require Import Prelude Numbers.

#[local] Set Default Proof Using "Type".
Open Scope Z_scope.

Record ChainVerification := {
  accepted_drafts : Z;
  next_token : Z;
  bonus : bool;
}.

(** ** Greedy verification *)

(** The number of leading drafts that agree with the targets. *)
Fixpoint agreeing (drafts targets : list Z) : nat :=
  match drafts, targets with
  | d :: drafts, t :: targets => if d =? t then S (agreeing drafts targets) else O
  | _, _ => O
  end.

Definition verify_greedy (drafts targets : list Z) : outcome ChainVerification :=
  if is_nil drafts || negb (length targets =? length drafts + 1)%nat
  then Throw (InvalidArgument "greedy MTP verification requires one bonus target")
  else
    let accepted := agreeing drafts targets in
    match targets !! accepted with
    | Some t => Ok {| accepted_drafts := Z.of_nat accepted; next_token := t;
                      bonus := (accepted =? length drafts)%nat |}
    | None => Throw (OutOfRange "targets")
    end.

(** ** The chain of drafts *)

Section Chain.
Context {D N : Type}.
(** The test of one draft: [None] when it is accepted, else the replacement. *)
Context (test : Z -> D -> D -> N -> outcome (option Z)).
Context (sample_last : D -> outcome Z).

Fixpoint run_chain (position : Z) (drafts : list Z) (proposals targets : list D) (uniforms : list N)
    : outcome ChainVerification :=
  match drafts, proposals, targets, uniforms with
  | d :: drafts, q :: proposals, p :: targets, u :: uniforms =>
      r ← test d q p u;
      match r with
      | None => run_chain (position + 1) drafts proposals targets uniforms
      | Some next => Ok {| accepted_drafts := position; next_token := next; bonus := false |}
      end
  | [], _, [p], _ =>
      next ← sample_last p;
      Ok {| accepted_drafts := position; next_token := next; bonus := true |}
  | _, _, _, _ => Throw (LogicError "shapes")
  end.

Definition shapes_ok (drafts : list Z) (proposals targets : list D) (uniforms : list N) : bool :=
  negb (is_nil drafts) && (length proposals =? length drafts)%nat &&
  (length targets =? length drafts + 1)%nat && (length uniforms =? length drafts)%nat.
End Chain.

Section Distributions.
Context `{Numbers}.

(** ** Vectors of probabilities *)

(** A checked sum of probabilities. *)
Fixpoint sum_probabilities (what : string) (sum : double) (l : list single) : outcome double :=
  match l with
  | [] => Ok sum
  | p :: l =>
      if negb (s_finite p) || s_ltb p s_zero then Throw (InvalidArgument what)
      else sum_probabilities what (d_add sum (widen p)) l
  end.

Definition off_one (sum : double) : bool := d_ltb d_tolerance (d_abs (d_sub sum d_one)).

Definition validate_distribution (l : list single) : outcome unit :=
  sum ← sum_probabilities "invalid MTP probability" d_zero l;
  if is_nil l || off_one sum
  then Throw (InvalidArgument "MTP probability vector is not normalized") else Ok tt.

Fixpoint sample_from (uniform cumulative : double) (fallback i : Z) (l : list single) : Z :=
  match l with
  | [] => fallback
  | p :: l =>
      if s_nonpos p then sample_from uniform cumulative fallback (i + 1) l
      else
        let cumulative := d_add cumulative (widen p) in
        if d_ltb uniform cumulative then i else sample_from uniform cumulative i (i + 1) l
  end.

Definition sample (l : list single) (uniform : double) : outcome Z :=
  validate_distribution l ≫= fun _ =>
  if negb (d_finite uniform) then Throw (InvalidArgument "invalid MTP sampling uniform")
  else Ok (sample_from (d_clamp_unit uniform) d_zero (-1) 0 l).

Definition prob_at (l : list single) (token : Z) : option single :=
  if token <? 0 then None else l !! Z.to_nat token.

Definition acceptance (p q : single) : double := d_min_one (d_div (widen p) (widen q)).

(** The replacement's distribution. *)
Definition add_up (l : list single) : double := foldl (fun total p => d_add total (widen p)) d_zero l.

Definition usable (total : double) : bool := d_ltb d_zero total && d_finite total.

Definition correction (proposal target : list single) : list single :=
  let l := zip_with (fun t p => s_pos_part (s_sub t p)) target proposal in
  let total := add_up l in
  if negb (usable total) then target
  else map (fun p => narrow (d_div (widen p) total)) l.

Record Verification := { accepted : bool; verified_token : Z }.

Definition verify (draft : Z) (proposal target bonus : list single) (acceptance_uniform sample_uniform : double)
    : outcome Verification :=
  match prob_at proposal draft, prob_at target draft with
  | Some q, Some p =>
      if negb (length proposal =? length target)%nat || negb (length target =? length bonus)%nat ||
         negb (d_finite acceptance_uniform) || negb (d_finite sample_uniform)
      then Throw (InvalidArgument "incompatible MTP verification inputs")
      else
        validate_distribution proposal ≫= fun _ =>
        validate_distribution target ≫= fun _ =>
        validate_distribution bonus ≫= fun _ =>
        if negb (d_ltb d_zero (widen q)) then Throw (InvalidArgument "draft has zero proposal probability")
        else if d_ltb (d_clamp_unit acceptance_uniform) (acceptance p q)
        then t ← sample bonus sample_uniform; Ok {| accepted := true; verified_token := t |}
        else t ← sample (correction proposal target) sample_uniform;
             Ok {| accepted := false; verified_token := t |}
  | _, _ => Throw (InvalidArgument "incompatible MTP verification inputs")
  end.

Definition test_stochastic (sample_uniform : double) (draft : Z) (proposal target : list single) (u : double)
    : outcome (option Z) :=
  match prob_at proposal draft, prob_at target draft with
  | Some q, Some p =>
      if negb (length proposal =? length target)%nat
      then Throw (InvalidArgument "stochastic MTP chain distribution is incompatible")
      else
        validate_distribution proposal ≫= fun _ =>
        validate_distribution target ≫= fun _ =>
        if negb (d_ltb d_zero (widen q)) || negb (d_finite u)
        then Throw (InvalidArgument "stochastic MTP chain probability is invalid")
        else if d_ltb (d_clamp_unit u) (acceptance p q) then Ok None
        else t ← sample (correction proposal target) sample_uniform; Ok (Some t)
  | _, _ => Throw (InvalidArgument "stochastic MTP chain distribution is incompatible")
  end.

Definition verify_stochastic_chain (drafts : list Z) (proposals targets : list (list single))
    (acceptance_uniforms : list double) (sample_uniform : double) : outcome ChainVerification :=
  if negb (shapes_ok drafts proposals targets acceptance_uniforms)
  then Throw (InvalidArgument "stochastic MTP chain shapes are incompatible")
  else run_chain (test_stochastic sample_uniform)
         (fun p => validate_distribution p ≫= fun _ => sample p sample_uniform)
         0 drafts proposals targets acceptance_uniforms.

(** ** Compact distributions *)

Record CompactDistribution := { tokens : list Z; probabilities : list single }.

(** [std::lower_bound] on sorted tokens. *)
Definition probability (c : CompactDistribution) (token : Z) : single :=
  match list_find (fun t => token <= t) (tokens c) with
  | Some (i, t) => if t =? token then default s_zero (probabilities c !! i) else s_zero
  | None => s_zero
  end.

Fixpoint is_sorted (l : list Z) : bool :=
  match l with
  | a :: (b :: _) as l => negb (b <? a) && is_sorted l
  | _ => true
  end.

Definition validate_compact_distribution (c : CompactDistribution) : outcome unit :=
  if is_nil (tokens c) || negb (length (tokens c) =? length (probabilities c))%nat ||
     negb (is_sorted (tokens c))
  then Throw (InvalidArgument "invalid compact MTP distribution")
  else
    sum ← sum_probabilities "invalid compact MTP probability" d_zero (probabilities c);
    if off_one sum then Throw (InvalidArgument "compact MTP distribution is not normalized") else Ok tt.

Fixpoint sample_entries (uniform cumulative : double) (fallback : Z) (l : list (Z * single)) : Z :=
  match l with
  | [] => fallback
  | (token, p) :: l =>
      if s_nonpos p then sample_entries uniform cumulative fallback l
      else
        let cumulative := d_add cumulative (widen p) in
        if d_ltb uniform cumulative then token else sample_entries uniform cumulative token l
  end.

Definition sample_compact (c : CompactDistribution) (uniform : double) : outcome Z :=
  validate_compact_distribution c ≫= fun _ =>
  if negb (d_finite uniform) then Throw (InvalidArgument "invalid compact MTP sampling uniform")
  else Ok (sample_entries (d_clamp_unit uniform) d_zero (default 0 (last (tokens c)))
             (zip (tokens c) (probabilities c))).

(** The tokens of two sorted lists, in order. *)
Fixpoint merge_tokens (l1 l2 : list Z) : list Z :=
  let fix go l2 :=
    match l1, l2 with
    | [], _ => l2
    | _, [] => l1
    | a :: l1, b :: l2' =>
        if a <? b then a :: merge_tokens l1 l2
        else if b <? a then b :: go l2'
        else a :: merge_tokens l1 l2'
    end in
  go l2.

Definition residual_entries (target proposal : CompactDistribution) : list (Z * single) :=
  filter (fun e => s_ltb s_zero e.2 = true)
    (map (fun token => (token, s_pos_part (s_sub (probability target token) (probability proposal token))))
       (merge_tokens (tokens target) (tokens proposal))).

Definition positive_residual (target proposal : CompactDistribution) : outcome CompactDistribution :=
  validate_compact_distribution target ≫= fun _ =>
  validate_compact_distribution proposal ≫= fun _ =>
  let entries := residual_entries target proposal in
  let total := add_up (snd <$> entries) in
  Ok (if negb (usable total) then target
      else {| tokens := fst <$> entries;
              probabilities := map (fun p => narrow (d_div (widen p) total)) (snd <$> entries) |}).

Definition test_compact (sample_uniform : double) (draft : Z) (proposal target : CompactDistribution) (u : double)
    : outcome (option Z) :=
  validate_compact_distribution proposal ≫= fun _ =>
  validate_compact_distribution target ≫= fun _ =>
  let q := probability proposal draft in
  let p := probability target draft in
  if negb (d_ltb d_zero (widen q)) || negb (d_finite u)
  then Throw (InvalidArgument "compact MTP chain probability is invalid")
  else if d_ltb (d_clamp_unit u) (acceptance p q) then Ok None
  else
    c ← positive_residual target proposal;
    t ← sample_compact c sample_uniform; Ok (Some t).

Definition verify_compact_chain (drafts : list Z) (proposals targets : list CompactDistribution)
    (acceptance_uniforms : list double) (sample_uniform : double) : outcome ChainVerification :=
  if negb (shapes_ok drafts proposals targets acceptance_uniforms)
  then Throw (InvalidArgument "compact MTP chain shapes are incompatible")
  else run_chain (test_compact sample_uniform) (fun p => sample_compact p sample_uniform)
         0 drafts proposals targets acceptance_uniforms.

(** ** Distributions of logits *)

Definition logit (logits : list single) (token : Z) : single :=
  match logits !! Z.to_nat token with
  | Some v => if s_nan v then s_neg_inf else v
  | None => s_neg_inf
  end.

Definition before (logits : list single) (a b : Z) : bool :=
  let va := logit logits a in
  let vb := logit logits b in
  s_ltb vb va || (s_eqb va vb && (a <? b)).

(** The tokens kept, best first; all of them in their order without a [top_k]. *)
Definition selection (logits : list single) (top_k : Z) : list Z :=
  let order := seqZ 0 (Z.of_nat (length logits)) in
  if 0 <? top_k then take (Z.to_nat top_k) (stable_sort (before logits) order) else order.

(** The masses of the softmax, and those of the nucleus: how many, and their sum. *)
Definition masses_of (values : list single) (maximum : single) (temperature : double) : list double :=
  map (fun v => d_exp (d_div (d_sub (widen v) (widen maximum)) temperature)) values.

Fixpoint nucleus (bound kept_mass : double) (n : nat) (masses : list double) : nat * double :=
  match masses with
  | [] => (n, kept_mass)
  | m :: masses =>
      let kept_mass := d_add kept_mass m in
      if d_leb bound kept_mass then (S n, kept_mass) else nucleus bound kept_mass (S n) masses
  end.

Definition keep_masses (top_p total : double) (masses : list double) : nat * double :=
  if d_ltb top_p d_one then nucleus (d_mul top_p total) d_zero 0 masses else (length masses, total).

(** The entries kept, with their share. *)
Definition shares (order : list Z) (masses : list double) (top_p total : double) : list (Z * single) :=
  let '(keep, kept_mass) := keep_masses top_p total masses in
  zip (take keep order) (map (fun m => narrow (d_div m kept_mass)) (take keep masses)).

Definition sane_sampling (temperature top_p : double) : bool :=
  d_finite temperature && negb (d_leb temperature d_zero) &&
  d_finite top_p && negb (d_leb top_p d_zero) && negb (d_ltb d_one top_p).

Definition distribution (logits : list single) (temperature : double) (top_k : Z) (top_p : double)
    : outcome (list single) :=
  if is_nil logits || negb (sane_sampling temperature top_p) || (top_k <? 0) || (1024 <? top_k) ||
     (Z.of_nat (length logits) <? top_k)
  then Throw (InvalidArgument "invalid MTP sampling geometry")
  else
    let top_p := if top_k =? 0 then d_one else top_p in
    let order := selection logits top_k in
    let values := map (logit logits) order in
    let maximum := foldl (fun m v => if s_ltb m v then v else m) s_neg_inf values in
    if negb (s_finite maximum) then Throw (RuntimeError "MTP logits have no finite maximum")
    else
      let masses := masses_of values maximum temperature in
      let total := foldl d_add d_zero masses in
      if negb (usable total) then Throw (RuntimeError "invalid MTP softmax mass")
      else Ok (foldl (fun l e => <[Z.to_nat e.1 := e.2]> l) (replicate (length logits) s_zero)
                 (shares order masses top_p total)).

Definition entry_before (a b : Z * single) : bool :=
  (a.1 <? b.1) || (negb (b.1 <? a.1) && s_ltb a.2 b.2).

Definition compact_distribution_from_topk (values : list single) (indices : list Z)
    (temperature top_p : double) : outcome CompactDistribution :=
  match values with
  | [] => Throw (InvalidArgument "invalid compact MTP logits or sampling")
  | first :: _ =>
      if negb (s_finite first) || negb (sane_sampling temperature top_p)
      then Throw (InvalidArgument "invalid compact MTP logits or sampling")
      else
        let masses := masses_of values first temperature in
        let total := foldl d_add d_zero masses in
        if negb (usable total) then Throw (InvalidArgument "invalid compact MTP softmax mass")
        else
          let entries := stable_sort entry_before (shares (map s32 indices) masses top_p total) in
          let c := {| tokens := fst <$> entries; probabilities := snd <$> entries |} in
          validate_compact_distribution c ≫= fun _ => Ok c
  end.
End Distributions.

(** ** Greedy verification is greedy decoding *)

Section Greedy.
(** The model's choice after a context. *)
Context (next : list Z -> Z).

Fixpoint plain_decode (context : list Z) (n : nat) : list Z :=
  match n with
  | O => []
  | S n => next context :: plain_decode (context ++ [next context]) n
  end.

(** The model's choices at each place of the drafts, and after them. *)
Fixpoint choices (context : list Z) (drafts : list Z) : list Z :=
  next context ::
  match drafts with
  | [] => []
  | d :: drafts => choices (context ++ [d]) drafts
  end.

Lemma choices_length drafts : forall context, length (choices context drafts) = S (length drafts).
Proof. induction drafts as [|d drafts IH]; intros context; simpl; [done|]. by rewrite IH. Qed.

Lemma agreeing_plain drafts : forall context,
  let n := agreeing drafts (choices context drafts) in
  (n <= length drafts)%nat /\
  exists t, choices context drafts !! n = Some t /\ take n drafts ++ [t] = plain_decode context (S n).
Proof.
  induction drafts as [|d drafts IH]; intros context; cbn [choices agreeing].
  { cbn. split; [lia|]. by exists (next context). }
  destruct (Z.eqb_spec d (next context)) as [->|Hd].
  - destruct (IH (context ++ [next context])) as (Hn & t & Ht & Hp). cbn [length].
    split; [lia|]. exists t. split; [exact Ht|]. cbn [take app plain_decode] in *. f_equal. exact Hp.
  - split; [cbn; lia|]. by exists (next context).
Qed.

(** Greedy verification against the model's choices at each place of the drafts
    gives what greedy decoding without drafts gives: the accepted drafts and the next
    token are its first tokens, at least one and one more than the accepted drafts,
    and [bonus] tells that all drafts were accepted. *)
Theorem greedy_is_plain_decoding context drafts :
  drafts <> [] ->
  exists n next_tok, (n <= length drafts)%nat /\
    verify_greedy drafts (choices context drafts) =
      Ok {| accepted_drafts := Z.of_nat n; next_token := next_tok; bonus := (n =? length drafts)%nat |} /\
    take n drafts ++ [next_tok] = plain_decode context (S n).
Proof.
  intros Hd. destruct (agreeing_plain drafts context) as (Hn & t & Ht & Hp).
  exists (agreeing drafts (choices context drafts)), t. split; [done|]. split; [|done].
  unfold verify_greedy. rewrite choices_length, Nat.add_1_r, Nat.eqb_refl, Ht. by destruct drafts.
Qed.
End Greedy.

Lemma greedy_is_plain_decoding_witness :
  exists n next_tok, take n [1; 2; 7] ++ [next_tok] = plain_decode (fun l => Z.of_nat (length l)) [0] (S n).
Proof.
  destruct (greedy_is_plain_decoding (fun l => Z.of_nat (length l)) [0] [1; 2; 7] ltac:(discriminate))
    as (n & t & _ & _ & H). by exists n, t.
Defined.

(** ** Only tokens of the target's support *)

Section Support.
#[local] Set Default Proof Using "All".
Context `{NumberLaws}.

Definition positive_at (l : list single) (token : Z) : Prop :=
  exists p, prob_at l token = Some p /\ s_ltb s_zero p = true.

Lemma sum_probabilities_valid what l : forall x sum,
  sum_probabilities what x l = Ok sum -> Forall (fun p => valid p = true) l.
Proof.
  induction l as [|p l IH]; intros x sum Hs; [constructor|]. cbn [sum_probabilities] in Hs.
  destruct (_ || _) eqn:E; [done|]. apply orb_false_iff in E as [E1%negb_false_iff E2].
  constructor; [unfold valid; by rewrite E1, E2|by eapply IH].
Qed.

Lemma sum_probabilities_zero what l : forall x sum,
  plain x -> Forall (fun p => s_ltb s_zero p = false) l -> sum_probabilities what x l = Ok sum -> sum = x.
Proof.
  induction l as [|p l IH]; intros x sum Hx Hl Hs; cbn [sum_probabilities] in Hs; [by injection Hs|].
  destruct (_ || _) eqn:E; [done|]. apply orb_false_iff in E as [E1%negb_false_iff E2].
  apply Forall_cons in Hl as [Hp Hl].
  rewrite add_zero in Hs; [by eapply IH|done|unfold valid; by rewrite E1, E2|done].
Qed.

Lemma validated l :
  validate_distribution l = Ok tt ->
  Forall (fun p => valid p = true) l /\ Exists (fun p => s_ltb s_zero p = true) l.
Proof.
  unfold validate_distribution. destruct (sum_probabilities _ d_zero l) as [sum|] eqn:Hs; [|done].
  cbn [mbind outcome_bind]. destruct (_ || _) eqn:E; [done|]. intros _. split.
  - by eapply sum_probabilities_valid.
  - destruct (decide (Exists (fun p => s_ltb s_zero p = true) l)) as [?|Hn]; [done|exfalso].
    apply orb_false_iff in E as [_ Hoff]. apply not_Exists_Forall in Hn; [|solve_decision].
    assert (sum = d_zero) as ->; [|unfold off_one in Hoff; by rewrite one_is_far in Hoff].
    eapply sum_probabilities_zero; [apply plain_zero| |exact Hs].
    eapply Forall_impl; [exact Hn|]. intros p Hp. by apply not_true_is_false.
Qed.

(** A sample is the fallback or a place with a positive probability. *)
Lemma sample_from_support u l : forall cum fallback i,
  Forall (fun p => valid p = true) l ->
  let t := sample_from u cum fallback i l in
  (t = fallback /\ Forall (fun p => s_ltb s_zero p = false) l) \/
  exists p, i <= t /\ l !! Z.to_nat (t - i) = Some p /\ s_ltb s_zero p = true.
Proof.
  induction l as [|p l IH]; intros cum fallback i Hv; [by left|].
  apply Forall_cons in Hv as [Hp Hv]. cbn [sample_from]. rewrite (nonpos_pos p Hp).
  assert (forall t p', i + 1 <= t -> l !! Z.to_nat (t - (i + 1)) = Some p' -> (p :: l) !! Z.to_nat (t - i) = Some p') as Hs.
  { intros t p' Ht Hl. by replace (Z.to_nat (t - i)) with (S (Z.to_nat (t - (i + 1)))) by lia. }
  destruct (s_ltb s_zero p) eqn:Hpos; cbn [negb]; cbv zeta.
  - right. destruct (d_ltb u _).
    + exists p. by rewrite Z.sub_diag.
    + destruct (IH (d_add cum (widen p)) i (i + 1) Hv) as [[-> _]|(p' & Hi & Hl & Hp')].
      * exists p. by rewrite Z.sub_diag.
      * exists p'. split; [lia|]. split; [by apply Hs|done].
  - destruct (IH cum fallback (i + 1) Hv) as [[-> Hz]|(p' & Hi & Hl & Hp')].
    + left. by split; [|constructor].
    + right. exists p'. split; [lia|]. split; [by apply Hs|done].
Qed.

Lemma sample_support l u t : sample l u = Ok t -> positive_at l t.
Proof.
  unfold sample. destruct (validate_distribution l) as [[]|] eqn:Hv; [|done]. cbn [mbind outcome_bind].
  apply validated in Hv as [Hv He]. destruct (negb _); [done|]. intros [= <-].
  destruct (sample_from_support (d_clamp_unit u) l d_zero (-1) 0 Hv) as [[_ Hz]|(p & Hi & Hl & Hp)].
  - exfalso. apply Exists_exists in He as (p & Hin & Hp). rewrite Forall_forall in Hz.
    by rewrite (Hz p Hin) in Hp.
  - exists p. unfold prob_at. destruct (Z.ltb_spec (sample_from (d_clamp_unit u) d_zero (-1) 0 l) 0); [lia|].
    by rewrite Z.sub_0_r in Hl.
Qed.

Lemma prob_at_valid l t p : Forall (fun p => valid p = true) l -> prob_at l t = Some p -> valid p = true.
Proof.
  unfold prob_at. destruct (t <? 0); [done|]. intros Hv Hl. rewrite Forall_forall in Hv.
  by eapply Hv, list_elem_of_lookup_2.
Qed.

(** What replaces a rejected draft is more likely in the target than proposed. *)
Lemma correction_support q p t :
  Forall (fun x => valid x = true) q -> Forall (fun x => valid x = true) p ->
  positive_at (correction q p) t -> positive_at p t.
Proof.
  intros Hq Hp (x & Hx & Hpos). unfold correction in Hx. cbv zeta in Hx.
  destruct (usable _) eqn:Hu; cbn [negb] in Hx; [|by exists x].
  unfold prob_at in *. destruct (t <? 0) eqn:Ht; [done|].
  rewrite list_lookup_fmap in Hx. apply fmap_Some in Hx as (c & Hc & ->).
  apply lookup_zip_with_Some in Hc as (a & b & -> & Ha & Hb).
  exists a. unfold prob_at. rewrite Ht. split; [done|].
  rewrite Forall_forall in Hq, Hp. pose proof (Hp a (list_elem_of_lookup_2 _ _ _ Ha)) as Hva.
  pose proof (Hq b (list_elem_of_lookup_2 _ _ _ Hb)) as Hvb. unfold usable in Hu.
  apply andb_true_iff in Hu as [Hu1 Hu2]. unfold s_pos_part in Hpos.
  destruct (s_ltb s_zero (s_sub a b)) eqn:Hs; [by eapply sub_pos|].
  by rewrite zero_div, s_zero_pos in Hpos.
Qed.

(** A uniform variable below a probability of acceptance. *)
Lemma accepted_support u p q :
  d_finite u = true -> valid p = true -> d_ltb d_zero (widen q) = true ->
  d_ltb (d_clamp_unit u) (acceptance p q) = true -> s_ltb s_zero p = true.
Proof.
  intros Hu Hp Hq Ha. destruct (s_ltb s_zero p) eqn:E; [done|]. exfalso.
  assert (d_ltb d_zero (acceptance p q) = true) as Hacc.
  { unfold d_clamp_unit in Ha. destruct (d_ltb u d_zero) eqn:E1.
    - destruct d_zero_finite as [Hf Hz]. by eapply lt_pos in Ha.
    - destruct (d_ltb d_below_one u); [|by eapply lt_pos in Ha].
      destruct d_below_one_finite as [Hf Hz]. by eapply lt_pos in Ha. }
  unfold acceptance, d_min_one in Hacc. rewrite (div_small p q Hp E Hq) in Hacc.
  by rewrite (div_pos p q Hp E) in Hacc.
Qed.

Lemma test_stochastic_support v d q p u r :
  test_stochastic v d q p u = Ok r ->
  match r with None => positive_at p d | Some t => positive_at p t end.
Proof.
  unfold test_stochastic. destruct (prob_at q d) as [qd|] eqn:Hqd; [|done].
  destruct (prob_at p d) as [pd|] eqn:Hpd; [|done]. destruct (negb _); [done|].
  destruct (validate_distribution q) as [[]|] eqn:Hvq; [|done]. cbn [mbind outcome_bind].
  destruct (validate_distribution p) as [[]|] eqn:Hvp; [|done]. cbn [mbind outcome_bind].
  apply validated in Hvq as [Hvq _], Hvp as [Hvp _].
  destruct (_ || _) eqn:E; [done|]. apply orb_false_iff in E as [E1%negb_false_iff E2%negb_false_iff].
  destruct (d_ltb (d_clamp_unit u) _) eqn:Ha.
  - intros [= <-]. exists pd. split; [done|]. eapply accepted_support; [done| |done|done].
    by eapply prob_at_valid.
  - destruct (sample _ v) as [t|] eqn:Hs; [|done]. intros [= <-].
    apply sample_support in Hs. exact (correction_support q p _ Hvq Hvp Hs).
Qed.

(** Whatever the rounding, every token that verification emits, accepted or
    sampled, has a positive probability in the target's distribution at its place: a
    token the target excludes is never emitted. *)
Theorem emitted_in_support drafts proposals targets uniforms v r :
  verify_stochastic_chain drafts proposals targets uniforms v = Ok r ->
  Forall2 (fun t p => positive_at p t)
    (take (Z.to_nat (accepted_drafts r)) drafts ++ [next_token r])
    (take (S (Z.to_nat (accepted_drafts r))) targets).
Proof.
  unfold verify_stochastic_chain. destruct (negb _); [done|].
  enough (forall k, 0 <= k -> run_chain (test_stochastic v)
      (fun p => validate_distribution p ≫= fun _ => sample p v) k drafts proposals targets uniforms = Ok r ->
    k <= accepted_drafts r /\ Forall2 (fun t p => positive_at p t)
      (take (Z.to_nat (accepted_drafts r - k)) drafts ++ [next_token r])
      (take (S (Z.to_nat (accepted_drafts r - k))) targets)) as Hrun.
  { intros Hr. destruct (Hrun 0 ltac:(lia) Hr) as [_ Hf]. by rewrite Z.sub_0_r in Hf. }
  revert proposals targets uniforms.
  induction drafts as [|d drafts IH]; intros proposals targets uniforms k Hk Hr; cbn [run_chain] in Hr.
  - destruct targets as [|p [|]]; [by destruct proposals| |by destruct proposals].
    destruct (validate_distribution p) as [[]|]; [|done]. cbn [mbind outcome_bind] in Hr.
    destruct (sample p v) as [t|] eqn:Hs; [|done]. injection Hr as <-. cbn. rewrite Z.sub_diag.
    split; [lia|]. constructor; [exact (sample_support _ _ _ Hs)|constructor].
  - destruct proposals as [|q proposals]; [done|]. destruct targets as [|p targets]; [done|].
    destruct uniforms as [|u uniforms]; [done|].
    destruct (test_stochastic v d q p u) as [[t|]|] eqn:Ht; [..|done]; cbn [mbind outcome_bind] in Hr;
      apply test_stochastic_support in Ht.
    + injection Hr as <-. cbn. rewrite Z.sub_diag. split; [lia|]. by constructor.
    + destruct (IH proposals targets uniforms (k + 1) ltac:(lia) Hr) as [Hle Hf]. split; [lia|].
      replace (Z.to_nat (accepted_drafts r - k)) with (S (Z.to_nat (accepted_drafts r - (k + 1)))) by lia.
      by constructor.
Qed.
End Support.

(** ** An example on machine numbers *)

Definition s_lit (n d : Z) : SpecFloat.spec_float :=
  SpecFloat.SFdiv 24 128 (SpecFloat.binary_normalize 24 128 n 0 false)
    (SpecFloat.binary_normalize 24 128 d 0 false).

Definition machine : Numbers := ieee (fun x => x).

Definition example_proposals : list (list SpecFloat.spec_float) :=
  [[s_lit 1 2; s_lit 1 2]; [s_lit 1 4; s_lit 3 4]].
Definition example_targets : list (list SpecFloat.spec_float) :=
  [[s_lit 3 4; s_lit 1 4]; [s_lit 1 2; s_lit 1 2]; [s_lit 0 1; s_lit 1 1]].

Lemma emitted_in_support_witness :
  verify_stochastic_chain (H := machine) [0; 1] example_proposals example_targets
    [d_lit 1 2; d_lit 95 100] (d_lit 1 2) =
    Ok {| accepted_drafts := 1; next_token := 0; bonus := false |} /\
  Forall2 (fun t p => positive_at (H := machine) p t) [0; 0] (take 2 example_targets).
Proof.
  assert (verify_stochastic_chain (H := machine) [0; 1] example_proposals example_targets
    [d_lit 1 2; d_lit 95 100] (d_lit 1 2) =
    Ok {| accepted_drafts := 1; next_token := 0; bonus := false |}) as E by (vm_compute; reflexivity).
  split; [exact E|].
  exact (emitted_in_support (H := machine) (H0 := ieee_laws _) _ _ _ _ _ _ E).
Defined.
