(* ===== verification/SpeculationCompact.v ===== *)
(** * Compact distributions agree with vectors

    [verify_compact_chain] works on sorted lists of tokens with their probabilities,
    [verify_stochastic_chain] on vectors over the vocabulary. The vector of a compact
    distribution has zeros elsewhere; adding zeros changes no sum and a zero is never
    sampled, so both give the same verdict in any arithmetic with [NumberLaws]. *)

From stdpp Require Import base list list_numbers strings sorting.
From Stdlib Require Import ZArith Lia.
From S2P Require Import Prelude Numbers Speculation.

#[local] Set Default Proof Using "Type".
Open Scope Z_scope.

(** A result up to the message of an exception. *)
Definition silent {A} (o : outcome A) : outcome A :=
  match o with Throw (InvalidArgument _) => Throw (InvalidArgument "") | o => o end.

Section Spread.
Context `{Numbers}.

(** Entries with tokens from [i] on, as a vector of length [n]. *)
Fixpoint spread (i : Z) (n : nat) (es : list (Z * single)) : list single :=
  match n with
  | O => []
  | S n =>
      match es with
      | (t, p) :: es' => if t =? i then p :: spread (i + 1) n es' else s_zero :: spread (i + 1) n es
      | [] => s_zero :: spread (i + 1) n []
      end
  end.

(** The vector over a vocabulary. *)
Definition dense (vocab : nat) (c : CompactDistribution) : list single :=
  map (probability c) (seqZ 0 (Z.of_nat vocab)).

(** Increasing tokens of the vocabulary, each with a probability. *)
Definition compact_ok (vocab : nat) (c : CompactDistribution) : Prop :=
  StronglySorted Z.lt (tokens c) /\ Forall (fun t => 0 <= t < Z.of_nat vocab) (tokens c) /\
  length (tokens c) = length (probabilities c).

(** Entries in increasing order from [i] on, below [i + n]. *)
Definition entries_in (i : Z) (n : nat) (es : list (Z * single)) : Prop :=
  StronglySorted Z.lt (fst <$> es) /\ Forall (fun t => i <= t < i + Z.of_nat n) (fst <$> es).

Lemma entries_in_cons i n t p es :
  entries_in i (S n) ((t, p) :: es) ->
  (t = i /\ entries_in (i + 1) n es) \/ (i < t /\ entries_in (i + 1) n ((t, p) :: es)).
Proof.
  unfold entries_in. cbn [fmap list_fmap fst]. intros [Hs Hf].
  apply StronglySorted_cons in Hs as [Hlt Hs]. apply Forall_cons in Hf as [Ht Hf].
  assert (Forall (fun u => t + 1 <= u < i + Z.of_nat (S n)) (fst <$> es)) as Hu.
  { apply Forall_forall. intros u Hin. rewrite Forall_forall in Hlt, Hf.
    pose proof (Hlt u Hin). pose proof (Hf u Hin). lia. }
  destruct (decide (t = i)) as [->|Hne]; [left|right]; (split; [lia|]).
  - split; [done|]. eapply Forall_impl; [exact Hu|]. cbn beta. lia.
  - split; [apply StronglySorted_cons; by split|]. constructor; [lia|].
    eapply Forall_impl; [exact Hu|]. cbn beta. lia.
Qed.

Lemma entries_in_nil i n : entries_in i n [].
Proof. split; constructor. Qed.

Lemma entries_in_0 i es : entries_in i 0 es -> es = [].
Proof. destruct es as [|[t p] es]; [done|]. intros [_ Hf]. apply Forall_cons in Hf as [? _]. simpl in *. lia. Qed.

(** A function that is zero elsewhere. *)
Lemma spread_map g ts n : forall i,
  StronglySorted Z.lt ts -> Forall (fun t => i <= t < i + Z.of_nat n) ts ->
  (forall t, i <= t -> t ∉ ts -> g t = s_zero) ->
  map g (seqZ i (Z.of_nat n)) = spread i n (map (fun t => (t, g t)) ts).
Proof.
  revert ts. induction n as [|n IH]; intros ts i Hs Hf Hz; [done|].
  rewrite seqZ_cons by lia. replace (Z.pred (Z.of_nat (S n))) with (Z.of_nat n) by lia.
  cbn [map spread]. rewrite <- Z.add_1_r.
  destruct ts as [|t ts]; cbn [map].
  - rewrite (Hz i) by (done || apply not_elem_of_nil). f_equal. rewrite (IH []); [done|constructor|constructor|].
    intros t Ht. apply Hz. lia.
  - apply StronglySorted_cons in Hs as [Hlt Hs]. apply Forall_cons in Hf as [Ht Hf].
    rewrite Forall_forall in Hlt, Hf. destruct (Z.eqb_spec t i) as [->|Hne].
    + f_equal. apply IH; [done| |].
      * apply Forall_forall. intros u Hu. pose proof (Hlt u Hu). pose proof (Hf u Hu). lia.
      * intros u Hu Hn. apply Hz; [lia|]. intros [->|?]%elem_of_cons; [lia|done].
    + rewrite (Hz i); [|lia|].
      * f_equal. apply (IH (t :: ts)); [apply StronglySorted_cons; split; [by apply Forall_forall|done]| |].
        -- constructor; [lia|]. apply Forall_forall. intros u Hu. pose proof (Hlt u Hu). pose proof (Hf u Hu). lia.
        -- intros u Hu. apply Hz. lia.
      * intros [->|Hi]%elem_of_cons; [done|]. pose proof (Hlt i Hi). lia.
Qed.

(** *** The probability of a token *)

Lemma probability_notin c t : t ∉ tokens c -> probability c t = s_zero.
Proof.
  intros Hn. unfold probability. destruct (list_find _ _) as [[i u]|] eqn:Hf; [|done].
  apply list_find_Some in Hf as (Hl & _ & _). destruct (Z.eqb_spec u t) as [->|]; [|done].
  exfalso. by eapply Hn, list_elem_of_lookup_2.
Qed.

Lemma probability_head t ts p ps :
  probability {| tokens := t :: ts; probabilities := p :: ps |} t = p.
Proof. unfold probability. cbn [tokens list_find]. rewrite decide_True by lia. by rewrite Z.eqb_refl. Qed.

Lemma probability_tail t ts p ps u :
  t < u -> probability {| tokens := t :: ts; probabilities := p :: ps |} u =
    probability {| tokens := ts; probabilities := ps |} u.
Proof.
  intros Hu. unfold probability. cbn [tokens list_find probabilities]. rewrite decide_False by lia.
  destruct (list_find _ ts) as [[i v]|]; done.
Qed.

Lemma zip_probability c vocab :
  compact_ok vocab c -> zip (tokens c) (probabilities c) = map (fun t => (t, probability c t)) (tokens c).
Proof.
  destruct c as [ts ps]. intros (Hs & _ & Hl). cbn [tokens probabilities] in *. revert ps Hl.
  induction ts as [|t ts IH]; intros [|p ps] Hl; try done.
  apply StronglySorted_cons in Hs as [Hlt Hs]. cbn [zip zip_with map]. rewrite probability_head. f_equal.
  rewrite (IH Hs ps) by (by injection Hl). apply map_ext_in. intros u Hu. f_equal.
  rewrite probability_tail; [done|]. rewrite Forall_forall in Hlt. by apply Hlt, list_elem_of_In.
Qed.

Lemma dense_spread vocab c :
  compact_ok vocab c -> dense vocab c = spread 0 vocab (zip (tokens c) (probabilities c)).
Proof.
  intros Hc. rewrite (zip_probability c vocab Hc). destruct Hc as (Hs & Hf & _).
  apply spread_map; [done|exact Hf|]. intros t _. apply probability_notin.
Qed.

Lemma zip_entries vocab c : compact_ok vocab c -> entries_in 0 vocab (zip (tokens c) (probabilities c)).
Proof.
  intros (Hs & Hf & Hl). unfold entries_in. rewrite fst_zip by lia. by split.
Qed.
End Spread.

(** ** Sums and samples of a vector *)

Section Agree.
#[local] Set Default Proof Using "All".
Context `{NumberLaws}.

Lemma s_zero_not_lt : s_ltb s_zero s_zero = false /\ s_finite s_zero = true.
Proof.
  pose proof s_zero_valid as Hv. unfold valid in Hv. apply andb_true_iff in Hv as [Hf _].
  split; [apply s_zero_pos|done].
Qed.

Lemma sum_spread w w' n : forall i es x,
  plain x -> entries_in i n es ->
  silent (sum_probabilities w x (spread i n es)) = silent (sum_probabilities w' x (snd <$> es)).
Proof.
  assert (forall x l, plain x -> sum_probabilities w x (s_zero :: l) = sum_probabilities w x l) as Hzero.
  { intros x l Hx. cbn [sum_probabilities]. destruct s_zero_not_lt as [-> ->]. cbn [negb orb].
    rewrite add_zero; [done|done|apply s_zero_valid|apply s_zero_pos]. }
  induction n as [|n IH]; intros i es x Hx He; [by rewrite (entries_in_0 i es He)|].
  destruct es as [|[t p] es]; cbn [spread].
  - rewrite Hzero by done. apply IH; [done|apply entries_in_nil].
  - apply entries_in_cons in He as [[-> He]|[Ht He]].
    + rewrite Z.eqb_refl. cbn [fmap list_fmap snd sum_probabilities].
      destruct (_ || _) eqn:E; [done|]. apply orb_false_iff in E as [E1%negb_false_iff E2].
      apply IH; [|done]. apply plain_add; [done|]. left. unfold valid. by rewrite E1, E2.
    + rewrite (proj2 (Z.eqb_neq t i)) by lia. rewrite Hzero by done. by apply IH.
Qed.

Lemma sample_spread u n : forall i es cum fallback,
  entries_in i n es -> sample_from u cum fallback i (spread i n es) = sample_entries u cum fallback es.
Proof.
  assert (s_nonpos s_zero = true) as Hz.
  { rewrite nonpos_pos by apply s_zero_valid. by rewrite s_zero_pos. }
  induction n as [|n IH]; intros i es cum fallback He; [by rewrite (entries_in_0 i es He)|].
  destruct es as [|[t p] es]; cbn [spread sample_from].
  - rewrite Hz. by rewrite (IH (i + 1) []) by apply entries_in_nil.
  - apply entries_in_cons in He as [[-> He]|[Ht He]].
    + rewrite Z.eqb_refl. cbn [sample_from sample_entries]. rewrite !IH by done. done.
    + rewrite (proj2 (Z.eqb_neq t i)) by lia. cbn [sample_from]. rewrite Hz. by apply IH.
Qed.

(** The fallback does not matter when some entry is positive. *)
Lemma sample_entries_fallback u es : forall cum f f',
  Exists (fun p => s_nonpos p = false) (snd <$> es) ->
  sample_entries u cum f es = sample_entries u cum f' es.
Proof.
  induction es as [|[t p] es IH]; intros cum f f' He; [by inversion He|]. cbn [sample_entries].
  destruct (s_nonpos p) eqn:Hp; [|done]. apply IH. by inversion He as [? ? E|]; subst; [rewrite Hp in E|].
Qed.

(** *** Validation *)

Lemma strongly_sorted_is_sorted l : StronglySorted Z.lt l -> is_sorted l = true.
Proof.
  induction l as [|a [|b l] IH]; intros Hs; [done|done|]. apply StronglySorted_cons in Hs as [Hf Hs].
  apply Forall_cons in Hf as [Hab _]. change (negb (b <? a) && is_sorted (b :: l) = true).
  rewrite (IH Hs), andb_true_r. apply negb_true_iff, Z.ltb_ge. lia.
Qed.

Lemma silent_bind {A A' B} (m : outcome A) (m' : outcome A') (k : A -> outcome B) (k' : A' -> outcome B)
    (R : A -> A' -> Prop) :
  match m, m' with
  | Ok a, Ok a' => R a a'
  | Throw e, Throw e' => silent (A := A) (Throw e) = silent (Throw e')
  | _, _ => False
  end ->
  (forall a a', m = Ok a -> m' = Ok a' -> R a a' -> silent (k a) = silent (k' a')) ->
  silent (m ≫= k) = silent (m' ≫= k').
Proof.
  intros Hm Hk. destruct m as [a|e], m' as [a'|e']; [by apply Hk|done|done|].
  cbn. destruct e, e'; simpl in *; congruence.
Qed.

Lemma silent_eq {A} (m m' : outcome A) : silent m = silent m' ->
  match m, m' with
  | Ok a, Ok a' => a = a'
  | Throw e, Throw e' => silent (A := A) (Throw e) = silent (Throw e')
  | _, _ => False
  end.
Proof. destruct m as [|[]], m' as [|[]]; simpl; congruence. Qed.

(** Steps that agree, then steps that agree after them. *)
Lemma silent_then {A B} (m m' : outcome A) (k k' : A -> outcome B) :
  silent m = silent m' -> (forall a, m = Ok a -> m' = Ok a -> silent (k a) = silent (k' a)) ->
  silent (m ≫= k) = silent (m' ≫= k').
Proof.
  intros Hm Hk. apply silent_bind with eq; [by apply silent_eq|]. intros a a' Ha Ha' <-. by apply Hk.
Qed.

Lemma validate_agree vocab c :
  (0 < vocab)%nat -> compact_ok vocab c ->
  silent (validate_compact_distribution c) = silent (validate_distribution (dense vocab c)).
Proof.
  intros Hv Hc. pose proof Hc as (Hs & _ & Hl). unfold validate_compact_distribution, validate_distribution.
  rewrite (strongly_sorted_is_sorted _ Hs), Hl, Nat.eqb_refl, orb_false_r, orb_false_r.
  pose proof (sum_spread "invalid MTP probability" "invalid compact MTP probability" vocab 0
    (zip (tokens c) (probabilities c)) d_zero plain_zero (zip_entries vocab c Hc)) as Hsum.
  rewrite <- (dense_spread vocab c Hc), snd_zip in Hsum by lia.
  assert (is_nil (dense vocab c) = false) as ->.
  { unfold dense. rewrite seqZ_cons by lia. done. }
  destruct (tokens c) as [|t ts] eqn:Ht; cbn [is_nil orb].
  - assert (probabilities c = []) as Hp by (by destruct (probabilities c)). rewrite Hp in Hsum.
    apply silent_eq in Hsum. destruct (sum_probabilities _ _ (dense vocab c)) as [x|]; [|done].
    cbn [mbind outcome_bind]. cbn in Hsum. subst x. unfold off_one. by rewrite one_is_far.
  - apply silent_then; [by symmetry|]. intros x _ _. by destruct (off_one x).
Qed.

Lemma spread_positive n : forall i es,
  entries_in i n es -> Forall (fun p => valid p = true) (spread i n es) ->
  Exists (fun p => s_ltb s_zero p = true) (spread i n es) ->
  Exists (fun p => s_nonpos p = false) (snd <$> es).
Proof.
  induction n as [|n IH]; intros i es He Hvl Hx; [by inversion Hx|].
  destruct es as [|[t p] es]; cbn [spread] in *.
  - apply Forall_cons in Hvl as [_ Hvl]. apply Exists_cons in Hx as [Hx|Hx]; [by rewrite s_zero_pos in Hx|].
    exact (IH _ [] (entries_in_nil _ _) Hvl Hx).
  - apply entries_in_cons in He as [[-> He]|[Ht He]].
    + rewrite Z.eqb_refl in *. apply Forall_cons in Hvl as [Hp Hvl]. apply Exists_cons in Hx as [Hx|Hx].
      * apply Exists_cons_hd. cbn. by rewrite (nonpos_pos p Hp), Hx.
      * apply Exists_cons_tl. exact (IH _ _ He Hvl Hx).
    + rewrite (proj2 (Z.eqb_neq t i)) in * by lia. apply Forall_cons in Hvl as [_ Hvl].
      apply Exists_cons in Hx as [Hx|Hx]; [by rewrite s_zero_pos in Hx|]. exact (IH _ _ He Hvl Hx).
Qed.

Lemma sample_agree vocab c u :
  (0 < vocab)%nat -> compact_ok vocab c -> silent (sample_compact c u) = silent (sample (dense vocab c) u).
Proof.
  intros Hv Hc. unfold sample_compact, sample.
  apply silent_then; [by apply validate_agree|]. intros [] _ Hd. destruct (negb (d_finite u)); [done|].
  f_equal. f_equal. rewrite (dense_spread vocab c Hc), sample_spread by (by apply zip_entries).
  apply sample_entries_fallback. apply validated in Hd as [Hvalid Hpos].
  rewrite (dense_spread vocab c Hc) in Hvalid, Hpos.
  by eapply spread_positive; [apply zip_entries| |].
Qed.
(** ** The replacement's distribution *)

Lemma merge_nil_l l : merge_tokens [] l = l.
Proof. by destruct l. Qed.

Lemma merge_nil_r l : merge_tokens l [] = l.
Proof. by destruct l. Qed.

Lemma merge_cons a l1 b l2 :
  merge_tokens (a :: l1) (b :: l2) =
    if a <? b then a :: merge_tokens l1 (b :: l2)
    else if b <? a then b :: merge_tokens (a :: l1) l2
    else a :: merge_tokens l1 l2.
Proof. done. Qed.

Lemma merge_elem l1 : forall l2 t, t ∈ merge_tokens l1 l2 <-> t ∈ l1 \/ t ∈ l2.
Proof.
  induction l1 as [|a l1 IH1]; intros l2 t.
  { rewrite merge_nil_l. split; [by right|]. by intros [?%elem_of_nil|?]. }
  induction l2 as [|b l2 IH2].
  { rewrite merge_nil_r. split; [by left|]. by intros [?|?%elem_of_nil]. }
  rewrite merge_cons. destruct (Z.ltb_spec a b); [|destruct (Z.ltb_spec b a)].
  - rewrite !elem_of_cons, IH1, elem_of_cons. tauto.
  - rewrite !elem_of_cons, IH2, elem_of_cons. tauto.
  - assert (a = b) as -> by lia. rewrite !elem_of_cons, IH1. tauto.
Qed.

Lemma merge_sorted l1 : forall l2,
  StronglySorted Z.lt l1 -> StronglySorted Z.lt l2 -> StronglySorted Z.lt (merge_tokens l1 l2).
Proof.
  induction l1 as [|a l1 IH1]; intros l2 H1 H2; [by rewrite merge_nil_l|].
  induction l2 as [|b l2 IH2]; [by rewrite merge_nil_r|]. rewrite merge_cons.
  pose proof H1 as [Ha H1']%StronglySorted_cons. pose proof H2 as [Hb H2']%StronglySorted_cons.
  rewrite Forall_forall in Ha, Hb.
  destruct (Z.ltb_spec a b); [|destruct (Z.ltb_spec b a)]; apply StronglySorted_cons; split; auto;
    apply Forall_forall; intros t Ht; apply merge_elem in Ht as [Ht|Ht]; auto;
    try (apply elem_of_cons in Ht as [->|Ht]; [lia|]; pose proof (Hb t Ht); lia);
    try (apply elem_of_cons in Ht as [->|Ht]; [lia|]; pose proof (Ha t Ht); lia).
  pose proof (Hb t Ht). lia.
Qed.

(** *** Vectors of entries *)

Lemma spread_later i n es : entries_in (i + 1) n es -> spread i (S n) es = s_zero :: spread (i + 1) n es.
Proof.
  destruct es as [|[t p] es]; intros He; [done|]. cbn [spread]. destruct He as [_ Hf].
  apply Forall_cons in Hf as [Ht _]. cbn [fst] in Ht. by rewrite (proj2 (Z.eqb_neq t i)) by lia.
Qed.

Lemma entries_in_filter (P : Z * single -> Prop) `{!forall e, Decision (P e)} i n es :
  entries_in i n es -> entries_in i n (filter P es).
Proof.
  intros [Hs Hf]. split.
  - clear Hf. induction es as [|e es IH]; [done|]. cbn [fmap list_fmap] in Hs.
    apply StronglySorted_cons in Hs as [He Hs]. rewrite filter_cons. destruct (decide (P e)); [|by apply IH].
    cbn [fmap list_fmap]. apply StronglySorted_cons. split; [|by apply IH].
    rewrite Forall_forall in *. intros t (u & -> & Hu)%list_elem_of_fmap. apply He.
    apply list_elem_of_filter in Hu as [_ Hu]. by apply list_elem_of_fmap_2.
  - rewrite Forall_forall in *. intros t (u & -> & Hu)%list_elem_of_fmap. apply Hf.
    apply list_elem_of_filter in Hu as [_ Hu]. by apply list_elem_of_fmap_2.
Qed.

(** Entries that are zero may be dropped. *)
Lemma spread_filter n : forall i es,
  entries_in i n es -> Forall (fun e => s_ltb s_zero e.2 = false -> e.2 = s_zero) es ->
  spread i n (filter (fun e => s_ltb s_zero e.2 = true) es) = spread i n es.
Proof.
  induction n as [|n IH]; intros i es He Hz; [done|].
  destruct es as [|[t p] es]; [done|]. apply Forall_cons in Hz as [Hp Hz]. cbn [snd] in Hp.
  apply entries_in_cons in He as [[-> He]|[Ht He]].
  - rewrite filter_cons. cbn [snd]. destruct (decide (s_ltb s_zero p = true)) as [Hpos|Hpos].
    + cbn [spread]. rewrite Z.eqb_refl. f_equal. by apply IH.
    + rewrite spread_later by (by apply entries_in_filter). cbn [spread]. rewrite Z.eqb_refl.
      rewrite Hp by (by apply not_true_is_false). f_equal. by apply IH.
  - rewrite !spread_later by (try apply entries_in_filter; done). f_equal. apply IH; [done|]. by constructor.
Qed.

Lemma spread_fmap (h : single -> single) n : h s_zero = s_zero -> forall i es,
  map h (spread i n es) = spread i n (map (fun e => (e.1, h e.2)) es).
Proof.
  intros Hh. induction n as [|n IH]; intros i es; [done|]. destruct es as [|[t p] es]; cbn [spread map fst snd].
  - rewrite Hh. f_equal. apply (IH (i + 1) []).
  - destruct (t =? i); cbn [map]; [|rewrite Hh]; f_equal; [apply IH|]. apply (IH (i + 1) ((t, p) :: es)).
Qed.

Lemma add_spread n : forall i es x,
  plain x -> entries_in i n es -> Forall (fun e => s_ltb s_zero e.2 = true) es ->
  foldl (fun total p => d_add total (widen p)) x (spread i n es) =
  foldl (fun total p => d_add total (widen p)) x (snd <$> es).
Proof.
  assert (forall x, plain x -> d_add x (widen s_zero) = x) as Hzero.
  { intros x Hx. apply add_zero; [done|apply s_zero_valid|apply s_zero_pos]. }
  induction n as [|n IH]; intros i es x Hx He Hp; [by rewrite (entries_in_0 i es He)|].
  destruct es as [|[t p] es]; cbn [spread foldl].
  - rewrite Hzero by done. apply (IH (i + 1) []); [done|apply entries_in_nil|constructor].
  - apply entries_in_cons in He as [[-> He]|[Ht He]].
    + rewrite Z.eqb_refl. cbn [foldl fmap list_fmap snd]. apply Forall_cons in Hp as [Hp Hps].
      apply IH; [|done..]. apply plain_add; [done|by right].
    + rewrite (proj2 (Z.eqb_neq t i)) by lia. cbn [foldl]. rewrite Hzero by done. by apply IH.
Qed.

(** *** Residuals *)

(** The difference at a token. *)
Definition gain (target proposal : CompactDistribution) (t : Z) : single :=
  s_pos_part (s_sub (probability target t) (probability proposal t)).

Lemma gain_zero target proposal t :
  t ∉ merge_tokens (tokens target) (tokens proposal) -> gain target proposal t = s_zero.
Proof.
  intros Hn. unfold gain. rewrite !probability_notin by (intros ?; apply Hn, merge_elem; auto).
  unfold s_pos_part. destruct (s_ltb s_zero (s_sub s_zero s_zero)) eqn:E; [|done].
  apply sub_pos in E; [by rewrite s_zero_pos in E|apply s_zero_valid..].
Qed.

Lemma gain_entries vocab target proposal :
  compact_ok vocab target -> compact_ok vocab proposal ->
  let es := residual_entries target proposal in
  zip_with (fun t p => s_pos_part (s_sub t p)) (dense vocab target) (dense vocab proposal) =
    spread 0 vocab es /\ entries_in 0 vocab es /\ Forall (fun e => s_ltb s_zero e.2 = true) es.
Proof.
  intros (Hs & Hf & _) (Hs' & Hf' & _). cbv zeta. unfold residual_entries.
  change (fun token => (token, s_pos_part _)) with (fun token => (token, gain target proposal token)).
  set (ts := merge_tokens (tokens target) (tokens proposal)).
  assert (entries_in 0 vocab (map (fun t => (t, gain target proposal t)) ts)) as He.
  { unfold entries_in. change (fst <$> ?l) with (map fst l). rewrite map_map, map_id.
    split; [by apply merge_sorted|]. rewrite Forall_forall in *. intros t [?|?]%merge_elem; auto. }
  split; [|split; [by apply entries_in_filter|]].
  - rewrite spread_filter.
    + unfold dense. rewrite zip_with_fmap_l, zip_with_fmap_r.
      transitivity (map (gain target proposal) (seqZ 0 (Z.of_nat vocab))).
      { generalize (seqZ 0 (Z.of_nat vocab)). intros l. induction l as [|t l IH]; [done|]. cbn. by rewrite IH. }
      apply spread_map; [by apply merge_sorted| |intros t _; apply gain_zero].
      rewrite Forall_forall in *. intros t [?|?]%merge_elem; auto.
    + done.
    + apply Forall_forall. intros e (t & -> & _)%list_elem_of_fmap. cbn [snd]. unfold gain, s_pos_part.
      destruct (s_ltb s_zero (s_sub _ _)) eqn:E; [|done]. by rewrite E.
  - apply Forall_forall. intros e [He' _]%list_elem_of_filter. exact He'.
Qed.
Lemma residual_agree vocab target proposal :
  compact_ok vocab target -> compact_ok vocab proposal ->
  validate_compact_distribution target = Ok tt -> validate_compact_distribution proposal = Ok tt ->
  exists c, positive_residual target proposal = Ok c /\ compact_ok vocab c /\
    dense vocab c = correction (dense vocab proposal) (dense vocab target).
Proof.
  intros Ht Hp Hvt Hvp. unfold positive_residual, correction. rewrite Hvt, Hvp. cbn [mbind outcome_bind].
  destruct (gain_entries vocab target proposal Ht Hp) as (-> & He & Hpos). cbv zeta.
  set (es := residual_entries target proposal) in *. unfold add_up.
  rewrite (add_spread vocab 0 es d_zero plain_zero He Hpos).
  set (total := foldl _ d_zero (snd <$> es)).
  destruct (usable total) eqn:Hu; cbn [negb]; [|by exists target].
  eexists. split; [done|].
  match goal with |- compact_ok _ ?x /\ _ => set (c := x) end.
  assert (compact_ok vocab c) as Hc.
  { destruct He as [Hs Hf]. split; [exact Hs|]. split; [exact Hf|]. cbn.
    by rewrite length_map, !length_fmap. }
  split; [done|]. apply andb_true_iff in Hu as [Hu1 Hu2].
  rewrite spread_fmap by (by apply zero_div). rewrite (dense_spread vocab c Hc). f_equal. unfold c. cbn [tokens probabilities].
  clearbody total. generalize es. clear. intros es. induction es as [|[t p] es IH]; [done|]. cbn. by rewrite IH.
Qed.

Lemma validate_compact_cases c :
  validate_compact_distribution c = Ok tt \/ silent (validate_compact_distribution c) = Throw (InvalidArgument "").
Proof.
  unfold validate_compact_distribution. destruct (_ || _); [by right|].
  assert (forall w x l, (exists y, sum_probabilities w x l = Ok y) \/ sum_probabilities w x l = Throw (InvalidArgument w)) as Hs.
  { intros w x l. revert x. induction l as [|p l IH]; intros x; cbn [sum_probabilities]; [left; by eexists|].
    destruct (_ || _); [by right|apply IH]. }
  destruct (Hs "invalid compact MTP probability" d_zero (probabilities c)) as [[y ->]| ->]; cbn [mbind outcome_bind];
    [|by right]. destruct (off_one y); [by right|by left].
Qed.

Lemma prob_at_dense vocab c d :
  prob_at (dense vocab c) d =
    if bool_decide (0 <= d < Z.of_nat vocab) then Some (probability c d) else None.
Proof.
  unfold prob_at, dense. case_bool_decide as Hd.
  - rewrite (proj2 (Z.ltb_ge d 0)) by lia. rewrite list_lookup_fmap, lookup_seqZ_lt by lia. cbn.
    f_equal. f_equal. lia.
  - destruct (Z.ltb_spec d 0); [done|]. rewrite list_lookup_fmap, lookup_seqZ_ge by lia. done.
Qed.

(** The tests of one draft agree. *)
Lemma test_agree vocab v d q p u :
  (0 < vocab)%nat -> compact_ok vocab q -> compact_ok vocab p ->
  silent (test_compact v d q p u) = silent (test_stochastic v d (dense vocab q) (dense vocab p) u).
Proof.
  intros Hv Hq Hp. unfold test_stochastic. rewrite !prob_at_dense. case_bool_decide as Hd.
  - rewrite (proj2 (Nat.eqb_eq (length (dense vocab q)) _)) by (unfold dense; by rewrite !length_map).
    cbn [negb]. unfold test_compact.
    apply silent_then; [by apply validate_agree|]. intros [] Hvq _.
    apply silent_then; [by apply validate_agree|]. intros [] Hvp _. cbv zeta.
    destruct (_ || _); [done|]. destruct (d_ltb _ _); [done|].
    destruct (residual_agree vocab p q Hp Hq Hvp Hvq) as (c & -> & Hc & Hdense). cbn [mbind outcome_bind].
    rewrite <- Hdense. apply silent_then; [by apply sample_agree|]. done.
  - unfold test_compact.
    destruct (validate_compact_cases q) as [-> | Hs]; cbn [mbind outcome_bind];
      [|by destruct (validate_compact_distribution q) as [|[]]].
    destruct (validate_compact_cases p) as [-> | Hs]; cbn [mbind outcome_bind];
      [|by destruct (validate_compact_distribution p) as [|[]]]. cbv zeta.
    rewrite (probability_notin q d).
    + rewrite widen_pos; [done|apply s_zero_valid|apply s_zero_pos].
    + intros Hin. apply Hd. destruct Hq as (_ & Hf & _). rewrite Forall_forall in Hf. by apply Hf.
Qed.

Lemma run_chain_agree {D D' N} (ok : D -> Prop) (h : D -> D') test test' last last' drafts :
  (forall d q p u, ok q -> ok p -> silent (test d q p u) = silent (test' d (h q) (h p) u)) ->
  (forall p, ok p -> silent (last p) = silent (last' (h p))) ->
  forall k proposals targets (uniforms : list N), Forall ok proposals -> Forall ok targets ->
  silent (run_chain test last k drafts proposals targets uniforms) =
  silent (run_chain test' last' k drafts (map h proposals) (map h targets) uniforms).
Proof.
  intros Ht Hl. induction drafts as [|d drafts IH]; intros k proposals targets uniforms Hq Hp.
  - destruct targets as [|p [|p' targets]]; [by destruct proposals| |by destruct proposals].
    apply Forall_cons in Hp as [Hp _]. destruct proposals; cbn [run_chain map];
      (apply silent_then; [by apply Hl|done]).
  - destruct proposals as [|q proposals]; [done|]. destruct targets as [|p targets]; [done|].
    destruct uniforms as [|u uniforms]; [done|]. apply Forall_cons in Hq as [Hq Hqs], Hp as [Hp Hps].
    cbn [run_chain map]. apply silent_then; [by apply Ht|]. intros [t|] _ _; [done|]. by apply IH.
Qed.

(** C11: The compact verification is the one on vectors: for any drafts, uniform
    variables and sorted distributions over a vocabulary, in any arithmetic that keeps
    the laws (that of the machine and exact numbers), both accept the same drafts and
    give the same next token, or both refuse their arguments. *)
Theorem compact_agrees_with_vectors vocab drafts proposals targets uniforms v :
  (0 < vocab)%nat -> Forall (compact_ok vocab) proposals -> Forall (compact_ok vocab) targets ->
  silent (verify_compact_chain drafts proposals targets uniforms v) =
  silent (verify_stochastic_chain drafts (map (dense vocab) proposals) (map (dense vocab) targets) uniforms v).
Proof.
  intros Hv Hq Hp. unfold verify_compact_chain, verify_stochastic_chain, shapes_ok.
  rewrite !length_map. destruct (negb _); [done|].
  apply run_chain_agree with (compact_ok vocab); [| |done..].
  - intros d q p u. by apply test_agree.
  - intros p Hc. unfold sample_compact, sample.
    pose proof (sample_agree vocab p v Hv Hc) as Hs. unfold sample_compact, sample in Hs.
    by destruct (validate_distribution (dense vocab p)) as [[]|].
Qed.
End Agree.

Lemma compact_agrees_with_vectors_witness :
  let mk l := {| tokens := [0; 3]; probabilities := l |} : @CompactDistribution machine in
  silent (verify_compact_chain [3] [mk [s_lit 1 4; s_lit 3 4]] [mk [s_lit 1 2; s_lit 1 2]; mk [s_lit 0 1; s_lit 1 1]]
    [d_lit 9 10] (d_lit 1 2)) =
  silent (verify_stochastic_chain [3] (map (dense 4) [mk [s_lit 1 4; s_lit 3 4]])
    (map (dense 4) [mk [s_lit 1 2; s_lit 1 2]; mk [s_lit 0 1; s_lit 1 1]]) [d_lit 9 10] (d_lit 1 2)).
Proof.
  intros mk.
  assert (forall l, length l = 2%nat -> compact_ok (H := machine) 4 (mk l)) as Hok.
  { intros l Hl. split; [|split; [|done]]; cbn [tokens mk].
    - repeat constructor.
    - repeat constructor; lia. }
  apply (compact_agrees_with_vectors (H := machine) (H0 := ieee_laws _));
    [lia|repeat (constructor; [by apply Hok|]); constructor..].
Defined.
