(* ===== verification/SpeculationExact.v ===== *)
(** * Speculative sampling is exact

    With real numbers for [float] and [double], and uniform variables in [0, 1), the
    verification of [mtp_policy.h] keeps the target's distribution: a draft from the
    proposal that is accepted, or its replacement, has the law of a sample of the
    target. A law is given by intervals of the uniform variable. *)

From stdpp Require Import base list list_numbers strings.
From Stdlib Require Import ZArith Lia Reals Lra.
From S2P Require Import Prelude Numbers Speculation.

#[local] Set Default Proof Using "Type".
Open Scope Z_scope.

Definition Rltb (x y : R) : bool := if Rlt_dec x y then true else false.
Definition Rleb (x y : R) : bool := if Rle_dec x y then true else false.

Lemma Rltb_spec x y : if Rltb x y then (x < y)%R else (y <= x)%R.
Proof. unfold Rltb. destruct (Rlt_dec x y); [done|lra]. Qed.

Lemma Rltb_lt x y : (x < y)%R -> Rltb x y = true.
Proof. unfold Rltb. intros. destruct (Rlt_dec x y); [done|lra]. Qed.

Lemma Rltb_ge x y : (y <= x)%R -> Rltb x y = false.
Proof. unfold Rltb. intros. destruct (Rlt_dec x y); [lra|done]. Qed.

(** Exact numbers. The bound of uniform variables is one itself; there is no
    infinity, which only the softmax of logits uses. *)
Definition exact : Numbers := {|
  single := R;
  double := R;
  s_zero := 0%R;
  s_neg_inf := 0%R;
  s_sub := Rminus;
  s_ltb := Rltb;
  s_eqb x y := Rleb x y && Rleb y x;
  s_finite _ := true;
  s_nan _ := false;
  widen x := x;
  narrow x := x;
  d_zero := 0%R;
  d_one := 1%R;
  d_tolerance := (/ 100000)%R;
  d_below_one := 1%R;
  d_add := Rplus;
  d_sub := Rminus;
  d_mul := Rmult;
  d_div := Rdiv;
  d_abs := Rabs;
  d_exp := exp;
  d_ltb := Rltb;
  d_leb := Rleb;
  d_finite _ := true;
|}.

Lemma exact_valid p : valid (H := exact) p = true -> (0 <= p)%R.
Proof.
  unfold valid. cbn. intros Hv. apply negb_true_iff in Hv. pose proof (Rltb_spec p 0) as Hs. by rewrite Hv in Hs.
Qed.

Lemma exact_zero p : valid (H := exact) p = true -> Rltb 0 p = false -> p = 0%R.
Proof. intros Hv%exact_valid Hp. pose proof (Rltb_spec 0 p) as Hs. rewrite Hp in Hs. lra. Qed.

Lemma Rltb_true x y : Rltb x y = true -> (x < y)%R.
Proof. intros E. pose proof (Rltb_spec x y) as Hs. by rewrite E in Hs. Qed.

Lemma Rltb_false x y : Rltb x y = false -> (y <= x)%R.
Proof. intros E. pose proof (Rltb_spec x y) as Hs. by rewrite E in Hs. Qed.

(** Exact numbers keep the laws, so what is proved from them holds here. *)
#[export] Instance exact_laws : NumberLaws (H := exact).
Proof.
  refine {| plain := (fun _ => True) : @double exact -> Prop |};
    cbn [s_zero s_ltb s_finite widen narrow d_zero d_one d_tolerance d_below_one d_add d_sub d_div d_abs d_ltb
         d_finite s_sub exact double single].
  - done.
  - done.
  - intros x p _ Hv Hp. rewrite (exact_zero p Hv Hp). apply Rplus_0_r.
  - intros a b _ Hb%exact_valid Hs%Rltb_true. apply Rltb_lt. lra.
  - intros t Ht%Rltb_true _. unfold Rdiv. by rewrite Rmult_0_l.
  - intros p q Hv Hp. rewrite (exact_zero p Hv Hp). apply Rltb_ge. unfold Rdiv. rewrite Rmult_0_l. lra.
  - intros p q Hv Hp _. rewrite (exact_zero p Hv Hp). apply Rltb_lt. unfold Rdiv. rewrite Rmult_0_l. lra.
  - intros u a _ Hu%Rltb_false Ha%Rltb_true. apply Rltb_lt. lra.
  - intros p Hv Hp. exact Hp.
  - intros p _ Hp%Rltb_true. unfold valid. cbn. rewrite Rltb_ge by lra. done.
  - unfold valid. cbn. rewrite Rltb_ge by lra. done.
  - apply Rltb_ge. lra.
  - intros p Hv%exact_valid. unfold s_nonpos. cbn. unfold Rltb, Rleb.
    destruct (Rlt_dec p 0), (Rle_dec p 0), (Rle_dec 0 p), (Rlt_dec 0 p); done || (exfalso; lra).
  - split; [done|]. apply Rltb_ge. lra.
  - split; [done|]. apply Rltb_ge. lra.
  - apply Rltb_lt. rewrite Rabs_left; lra.
Qed.

Section Exact.
#[local] Existing Instance exact.
Open Scope R_scope.

(** ** Sums and laws *)

Fixpoint total (l : list R) : R := match l with [] => 0 | x :: l => x + total l end.

(** A probability distribution. *)
Definition law_ok (l : list R) : Prop := Forall (fun p => 0 <= p) l /\ total l = 1.

Definition uniform (u : R) : Prop := 0 <= u < 1.

Definition mass (l : list R) (t : Z) : R := default 0 (prob_at (H := exact) l t).

(** As a function of a uniform variable, [f] has the law [l]: it is [t] on an interval
    of length [mass l t]. *)
Definition has_law (f : R -> Z) (l : list R) : Prop :=
  forall t, exists low, 0 <= low /\ low + mass l t <= 1 /\
    forall u, uniform u -> (f u = t <-> low <= u < low + mass l t).

Lemma total_nonneg l : Forall (fun p => 0 <= p) l -> 0 <= total l.
Proof. induction 1; simpl; lra. Qed.

Lemma total_split n l : total l = total (take n l) + total (drop n l).
Proof. revert n. induction l as [|x l IH]; intros [|n]; simpl; try lra. rewrite (IH n). lra. Qed.

Lemma total_take_S k l p : l !! k = Some p -> total (take (S k) l) = total (take k l) + p.
Proof.
  revert l. induction k as [|k IH]; intros [|x l] Hl; try done.
  - injection Hl as ->. simpl. lra.
  - cbn [take total]. cbn in Hl. rewrite (IH l Hl). lra.
Qed.

Lemma total_take_mono k k' l : Forall (fun p => 0 <= p) l -> (k <= k')%nat -> total (take k l) <= total (take k' l).
Proof.
  intros Hl Hk. rewrite (total_split k (take k' l)), take_take, Nat.min_l by done.
  pose proof (total_nonneg (drop k (take k' l))). assert (Forall (fun p => 0 <= p) (drop k (take k' l))).
  { by apply Forall_drop, Forall_take. } specialize (H H0). lra.
Qed.

Lemma add_up_total (l : list R) : add_up (H := exact) l = total l.
Proof.
  unfold add_up. enough (forall x, foldl (fun t p => t + p) x l = x + total l) as E.
  { etransitivity; [exact (E 0)|lra]. }
  induction l as [|p l IH]; intros x; simpl; [lra|]. rewrite IH. lra.
Qed.

Lemma sum_total w (l : list R) : forall x,
  Forall (fun p => 0 <= p) l -> sum_probabilities (H := exact) w x l = Ok (x + total l).
Proof.
  induction l as [|p l IH]; intros x Hl; [simpl; f_equal; lra|]. apply Forall_cons in Hl as [Hp Hl].
  cbn [sum_probabilities s_finite exact negb orb s_ltb s_zero]. rewrite Rltb_ge by done.
  etransitivity; [exact (IH (x + p) Hl)|]. f_equal. simpl. lra.
Qed.

Lemma law_nonempty l : law_ok l -> l <> [].
Proof. intros [_ Ht] ->. simpl in Ht. lra. Qed.

Lemma validate_law l : law_ok l -> validate_distribution (H := exact) l = Ok tt.
Proof.
  intros Hl. pose proof (law_nonempty l Hl). destruct Hl as [Hp Ht]. unfold validate_distribution.
  rewrite (sum_total _ l _ Hp). cbn [mbind outcome_bind]. rewrite Ht.
  assert (off_one (H := exact) (d_zero + 1) = false) as ->.
  { unfold off_one. cbn. apply Rltb_ge. rewrite Rabs_right; lra. }
  by destruct l.
Qed.

(** ** The law of a sample *)

Lemma sample_from_interval u (l : list R) : forall cum fallback i,
  Forall (fun p => 0 <= p) l -> cum <= u < cum + total l ->
  exists k p, sample_from (H := exact) u cum fallback i l = (i + Z.of_nat k)%Z /\ l !! k = Some p /\
    cum + total (take k l) <= u < cum + total (take k l) + p.
Proof.
  induction l as [|p l IH]; intros cum fallback i Hl Hu; [simpl in Hu; lra|].
  apply Forall_cons in Hl as [Hp Hl]. cbn [sample_from total] in *.
  assert (forall fb, cum + p <= u -> exists k x, sample_from (H := exact) u (cum + p) fb (i + 1) l = (i + Z.of_nat k)%Z /\
    (p :: l) !! k = Some x /\ cum + total (take k (p :: l)) <= u < cum + total (take k (p :: l)) + x) as Hnext.
  { intros fb Hle. destruct (IH (cum + p) fb (i + 1)%Z Hl ltac:(lra)) as (k & x & -> & Hk & Hi).
    exists (S k), x. split; [lia|]. split; [done|]. cbn [take total]. lra. }
  unfold s_nonpos. cbn [s_ltb s_eqb s_zero exact]. rewrite (Rltb_ge p 0) by done. cbn [orb].
  unfold Rleb. destruct (Rle_dec p 0), (Rle_dec 0 p); cbn [andb]; try lra.
  - assert (p = 0) as -> by lra. destruct (Hnext fallback ltac:(lra)) as (k & x & E & Hx).
    exists k, x. split; [|exact Hx]. rewrite <- E. by rewrite Rplus_0_r.
  - cbn [d_add widen d_ltb exact]. pose proof (Rltb_spec u (cum + p)) as Hs.
    destruct (Rltb u (cum + p)).
    + exists O, p. cbn. split; [lia|]. split; [done|]. lra.
    + by apply Hnext.
Qed.

Lemma clamp_uniform u : uniform u -> d_clamp_unit (H := exact) u = u.
Proof.
  intros [H0 H1]. unfold d_clamp_unit. cbn. rewrite (Rltb_ge u 0) by done. by rewrite Rltb_ge by lra.
Qed.

Lemma mass_lookup l k p : l !! k = Some p -> mass l (Z.of_nat k) = p.
Proof.
  intros Hl. unfold mass, prob_at. rewrite (proj2 (Z.ltb_ge _ _)) by lia. rewrite Nat2Z.id.
  change (default 0 (l !! k) = p). by rewrite Hl.
Qed.

Lemma sample_law l : law_ok l -> exists f, (forall u, uniform u -> sample (H := exact) l u = Ok (f u)) /\ has_law f l.
Proof.
  intros Hl. pose proof Hl as [Hp Ht]. exists (fun u => sample_from (H := exact) u 0 (-1) 0 l). split.
  { intros u Hu. unfold sample. rewrite (validate_law l Hl). cbn. by rewrite clamp_uniform. }
  assert (forall u, uniform u -> exists k p, sample_from (H := exact) u 0 (-1) 0 l = Z.of_nat k /\ l !! k = Some p /\
    total (take k l) <= u < total (take k l) + p) as Hs.
  { intros u [H0 H1]. destruct (sample_from_interval u l 0 (-1) 0 Hp) as (k & p & E & Hk & Hi); [lra|].
    exists k, p. split; [rewrite E; lia|]. split; [done|]. lra. }
  intros t. destruct (prob_at (H := exact) l t) as [p|] eqn:Hpt.
  - unfold prob_at in Hpt. destruct (Z.ltb_spec t 0); [done|].
    assert (mass l t = p) as Hm.
    { rewrite <- (Z2Nat.id t) by lia. by apply mass_lookup. }
    rewrite Hm. exists (total (take (Z.to_nat t) l)).
    pose proof (total_nonneg (take (Z.to_nat t) l) ltac:(by apply Forall_take)).
    pose proof (total_take_S _ _ _ Hpt) as HS. pose proof (total_split (S (Z.to_nat t)) l) as Hsp.
    pose proof (total_nonneg (drop (S (Z.to_nat t)) l) ltac:(by apply Forall_drop)).
    split; [lra|]. split; [lra|]. intros u Hu. destruct (Hs u Hu) as (k & x & -> & Hk & Hi). split.
    + intros <-. rewrite Nat2Z.id in *.
      assert (Some x = Some p) as [= ->] by (rewrite <- Hk; exact Hpt). exact Hi.
    + intros Hin. destruct (Nat.lt_trichotomy k (Z.to_nat t)) as [Hlt|[->|Hlt]]; [|lia|]; exfalso.
      * pose proof (total_take_mono (S k) (Z.to_nat t) l Hp Hlt). rewrite (total_take_S _ _ _ Hk) in *. lra.
      * pose proof (total_take_mono (S (Z.to_nat t)) k l Hp Hlt). lra.
  - assert (mass l t = 0) as -> by (unfold mass; by rewrite Hpt). exists 0. split; [lra|]. split; [lra|].
    intros u Hu. destruct (Hs u Hu) as (k & x & -> & Hk & Hi). split; [|lra]. intros <-.
    unfold prob_at in Hpt. rewrite (proj2 (Z.ltb_ge _ _)) in Hpt by lia. rewrite Nat2Z.id in Hpt.
    assert (Some x = None) as [=] by (rewrite <- Hk; exact Hpt).
Qed.
(** ** Rejection and replacement *)

(** The probability that a draft from [q] is rejected. *)
Definition rejection (q p : list R) : R :=
  total (zip_with (fun q p => q * (1 - acceptance (H := exact) p q)) q p).

Lemma accept_mass p q : 0 <= p -> 0 <= q -> q * acceptance (H := exact) p q = Rmin p q.
Proof.
  intros Hp Hq. unfold acceptance, d_min_one. cbn.
  destruct (Req_dec q 0) as [->|Hne]; [rewrite Rmin_right; lra|].
  assert (p = p / q * q) as Hpq by (field; done).
  pose proof (Rltb_spec (p / q) 1) as Hs. destruct (Rltb (p / q) 1).
  - assert (p < q) by (rewrite Hpq; nra). rewrite Rmin_left by lra. lra.
  - assert (q <= p) by (rewrite Hpq; nra). rewrite Rmin_right by lra. lra.
Qed.

Lemma acceptance_range p q : 0 <= p -> 0 <= q -> 0 <= acceptance (H := exact) p q <= 1.
Proof.
  intros Hp Hq. unfold acceptance, d_min_one. cbn. pose proof (Rltb_spec (p / q) 1) as Hs.
  destruct (Rltb (p / q) 1); [|lra]. split; [|lra]. unfold Rdiv.
  apply Rmult_le_pos; [done|]. destruct (Req_dec q 0) as [->|]; [rewrite Rinv_0; lra|].
  left. apply Rinv_0_lt_compat. lra.
Qed.

Lemma pos_part_max x : s_pos_part (H := exact) x = Rmax 0 x.
Proof.
  unfold s_pos_part. cbn. pose proof (Rltb_spec 0 x). destruct (Rltb 0 x); [by rewrite Rmax_right by lra|].
  by rewrite Rmax_left by lra.
Qed.

(** What is rejected is what the target has more elsewhere. *)
Lemma rejection_gain q : forall p,
  Forall (fun x => 0 <= x) q -> Forall (fun x => 0 <= x) p -> length q = length p ->
  rejection q p - total (zip_with (fun t p => Rmax 0 (t - p)) p q) = total q - total p.
Proof.
  unfold rejection. induction q as [|a q IH]; intros [|b p] Hq Hp Hl; try done.
  apply Forall_cons in Hq as [Ha Hq], Hp as [Hb Hp]. cbn [zip_with total].
  specialize (IH p Hq Hp ltac:(by injection Hl)). pose proof (accept_mass b a Hb Ha) as Hm.
  assert (Rmax 0 (b - a) = b - Rmin b a) as Hmax.
  { unfold Rmax, Rmin. destruct (Rle_dec 0 (b - a)), (Rle_dec b a); lra. }
  rewrite Hmax. lra.
Qed.

Definition gains (q p : list R) : list R := zip_with (fun t p => Rmax 0 (t - p)) p q.

Lemma gains_nonneg q p : Forall (fun x => 0 <= x) (gains q p).
Proof.
  unfold gains. revert q. induction p as [|b p IH]; intros [|a q]; try constructor; [|apply IH].
  apply Rmax_l.
Qed.

Lemma correction_exact q p :
  correction (H := exact) q p =
    if Rltb 0 (total (gains q p)) then map (fun x => x / total (gains q p)) (gains q p) else p.
Proof.
  unfold correction. assert (zip_with (fun t p => s_pos_part (H := exact) (s_sub t p)) p q = gains q p) as ->.
  { unfold gains. revert q. induction p as [|b p IH]; intros [|a q]; try done. cbn [zip_with].
    rewrite pos_part_max. f_equal. apply IH. }
  rewrite add_up_total. unfold usable. cbn [d_ltb d_zero d_finite exact]. rewrite andb_true_r.
  by destruct (Rltb 0 (total (gains q p))).
Qed.

Lemma total_div l c : total (map (fun x => x / c) l) = total l / c.
Proof. induction l as [|x l IH]; simpl; [unfold Rdiv; lra|]. rewrite IH. unfold Rdiv. lra. Qed.

Lemma correction_law q p : law_ok q -> law_ok p -> law_ok (correction (H := exact) q p).
Proof.
  intros Hq Hp. rewrite correction_exact. pose proof (Rltb_spec 0 (total (gains q p))) as Hs.
  destruct (Rltb _ _); [|done]. split.
  - apply Forall_map. eapply Forall_impl; [apply gains_nonneg|]. intros x Hx. cbn in *.
    apply Rmult_le_pos; [done|]. left. by apply Rinv_0_lt_compat.
  - rewrite total_div. field. lra.
Qed.

Lemma mass_range l t : Forall (fun p => 0 <= p) l -> 0 <= mass l t.
Proof.
  intros Hl. unfold mass, prob_at. destruct (t <? 0)%Z; [simpl; lra|]. change (0 <= default 0 (l !! Z.to_nat t)).
  destruct (l !! Z.to_nat t) as [x|] eqn:E; simpl; [|lra]. rewrite Forall_forall in Hl.
  by eapply Hl, list_elem_of_lookup_2.
Qed.

Lemma mass_gains q p t : length q = length p -> mass (gains q p) t = Rmax 0 (mass p t - mass q t).
Proof.
  intros Hl. unfold mass, prob_at. destruct (t <? 0)%Z; [simpl; by rewrite Rmax_left by lra|].
  change (default 0 (gains q p !! Z.to_nat t) = Rmax 0 (default 0 (p !! Z.to_nat t) - default 0 (q !! Z.to_nat t))).
  unfold gains. rewrite lookup_zip_with.
  destruct (p !! Z.to_nat t) as [b|] eqn:Hb.
  - destruct (lookup_lt_is_Some_2 q (Z.to_nat t)) as [a Ha]; [rewrite Hl; by eapply lookup_lt_Some|].
    by rewrite Ha.
  - rewrite (lookup_ge_None_2 q) by (rewrite Hl; by eapply lookup_ge_None_1). simpl. by rewrite Rmax_left by lra.
Qed.

Lemma mass_div l c t : mass (map (fun x => x / c) l) t = mass l t / c.
Proof.
  unfold mass, prob_at. destruct (t <? 0)%Z; [simpl; unfold Rdiv; lra|].
  change (default 0 (map (fun x => x / c) l !! Z.to_nat t) = default 0 (l !! Z.to_nat t) / c).
  change (map (fun x => x / c) l) with ((fun x => x / c) <$> l). rewrite list_lookup_fmap.
  destruct (l !! Z.to_nat t); simpl; [done|unfold Rdiv; lra].
Qed.

Lemma mass_le_total l t : Forall (fun p => 0 <= p) l -> mass l t <= total l.
Proof.
  intros Hl. unfold mass, prob_at. destruct (t <? 0)%Z; [by apply total_nonneg|].
  change (default 0 (l !! Z.to_nat t) <= total l). destruct (l !! Z.to_nat t) as [x|] eqn:E; simpl.
  - rewrite (total_split (S (Z.to_nat t)) l), (total_take_S _ _ _ E).
    pose proof (total_nonneg _ (Forall_take _ (Z.to_nat t) l Hl)).
    pose proof (total_nonneg _ (Forall_drop _ (S (Z.to_nat t)) l Hl)). lra.
  - by apply total_nonneg.
Qed.

(** Accepted drafts and replacements together have the target's mass. *)
Lemma balance q p t :
  law_ok q -> law_ok p -> length q = length p ->
  mass q t * acceptance (H := exact) (mass p t) (mass q t) + rejection q p * mass (correction (H := exact) q p) t = mass p t.
Proof.
  intros [Hq Hqt] [Hp Hpt] Hl. rewrite accept_mass by (by apply mass_range).
  pose proof (rejection_gain q p Hq Hp Hl) as Hr. fold (gains q p) in Hr. rewrite Hqt, Hpt in Hr.
  assert (rejection q p = total (gains q p)) as -> by lra. rewrite correction_exact.
  pose proof (mass_gains q p t Hl) as Hg. pose proof (mass_le_total _ t (gains_nonneg q p)) as Hle.
  pose proof (Rltb_spec 0 (total (gains q p))) as Hs. destruct (Rltb _ _).
  - rewrite mass_div. replace (total (gains q p) * (mass (gains q p) t / total (gains q p)))
      with (mass (gains q p) t) by (field; lra). rewrite Hg.
    unfold Rmin, Rmax. destruct (Rle_dec (mass p t) (mass q t)), (Rle_dec 0 (mass p t - mass q t)); lra.
  - pose proof (total_nonneg _ (gains_nonneg q p)). assert (total (gains q p) = 0) as E by lra. rewrite E.
    unfold Rmax in Hg. destruct (Rle_dec 0 (mass p t - mass q t));
      unfold Rmin; destruct (Rle_dec (mass p t) (mass q t)); lra.
Qed.

(** ** The chain *)

Definition chain_ok (drafts : list Z) (proposals targets : list (list R)) : Prop :=
  drafts <> [] /\ length targets = S (length drafts) /\
  Forall law_ok targets /\
  Forall2 (fun d q => 0 < mass q d) drafts proposals /\
  Forall2 (fun q p => law_ok q /\ length q = length p) proposals (take (length drafts) targets).

(** How many drafts are accepted. *)
Fixpoint accepted_by (drafts : list Z) (proposals targets : list (list R)) (uniforms : list R) : nat :=
  match drafts, proposals, targets, uniforms with
  | d :: drafts, q :: proposals, p :: targets, u :: uniforms =>
      if Rltb u (acceptance (H := exact) (mass p d) (mass q d))
      then S (accepted_by drafts proposals targets uniforms) else O
  | _, _, _, _ => O
  end.

(** The law of the next token after [n] accepted drafts. *)
Definition next_law (proposals targets : list (list R)) (n : nat) : list R :=
  match (proposals !! n : option (list R)), (targets !! n : option (list R)) with
  | Some q, Some p => correction (H := exact) q p
  | None, Some p => p
  | _, None => []
  end.

Lemma prob_at_mass (l : list R) d : 0 < mass l d -> prob_at (H := exact) l d = Some (mass l d).
Proof. unfold mass. destruct (prob_at _ d) eqn:E; simpl; [done|lra]. Qed.

Lemma prob_at_some (l l' : list R) d :
  length l = length l' -> 0 < mass l d -> prob_at (H := exact) l' d = Some (mass l' d).
Proof.
  intros Hl Hd. pose proof (prob_at_mass l d Hd) as E. unfold mass, prob_at in *. destruct (d <? 0)%Z; [done|].
  change (l !! Z.to_nat d = Some (default 0 (l !! Z.to_nat d))) in E.
  change (l' !! Z.to_nat d = Some (default 0 (l' !! Z.to_nat d))).
  destruct (lookup_lt_is_Some_2 l' (Z.to_nat d)) as [x Hx]; [|by rewrite Hx].
  rewrite <- Hl. by eapply lookup_lt_Some.
Qed.

(** One test, for any sample variable. *)
Lemma test_exact d q p u v :
  law_ok q -> law_ok p -> length q = length p -> 0 < mass q d -> uniform u ->
  test_stochastic (H := exact) v d q p u =
    if Rltb u (acceptance (H := exact) (mass p d) (mass q d)) then Ok None
    else t ← sample (H := exact) (correction (H := exact) q p) v; Ok (Some t).
Proof.
  intros Hq Hp Hl Hd Hu. unfold test_stochastic.
  rewrite (prob_at_mass q d Hd), (prob_at_some q p d Hl Hd).
  assert ((@length (@single exact) q =? @length (@single exact) p)%nat = true) as -> by by apply Nat.eqb_eq.
  cbn [negb].
  rewrite (validate_law q Hq), (validate_law p Hp). cbn [mbind outcome_bind].
  rewrite clamp_uniform by done. cbn [d_ltb d_zero widen d_finite exact].
  rewrite (Rltb_lt 0 (mass q d)) by done. cbn [negb orb].
  by destruct (Rltb u _).
Qed.

(** The verdict of the chain, as a function of the sample variable. *)
Lemma chain_run drafts : forall proposals targets uniforms k,
  length targets = S (length drafts) -> Forall law_ok targets ->
  Forall2 (fun d q => 0 < mass q d) drafts proposals ->
  Forall2 (fun q p => law_ok q /\ length q = length p) proposals (take (length drafts) targets) ->
  length uniforms = length drafts -> Forall uniform uniforms ->
  let n := accepted_by drafts proposals targets uniforms in
  law_ok (next_law proposals targets n) /\ (n <= length drafts)%nat /\
  forall v, run_chain (test_stochastic (H := exact) v)
      (fun p => validate_distribution (H := exact) p ≫= fun _ => sample (H := exact) p v)
      k drafts proposals targets uniforms =
    (t ← sample (H := exact) (next_law proposals targets n) v;
     Ok {| accepted_drafts := k + Z.of_nat n; next_token := t; bonus := (n =? length drafts)%nat |}).
Proof.
  induction drafts as [|d drafts IH]; intros proposals targets uniforms k Hlt Ht Hd Hq Hlu Hu.
  - destruct targets as [|p [|]]; try done. inversion Hd; subst. cbn. apply Forall_cons in Ht as [Hp _].
    split; [done|]. split; [done|]. intros v. rewrite (validate_law p Hp). cbn [mbind outcome_bind].
    by rewrite Z.add_0_r.
  - destruct proposals as [|q proposals]; [by inversion Hd|]. destruct targets as [|p targets]; [done|].
    destruct uniforms as [|u uniforms]; [done|].
    apply Forall2_cons in Hd as [Hd Hds]. cbn [length take] in Hq. apply Forall2_cons in Hq as [[Hlq Hl] Hqs].
    apply Forall_cons in Ht as [Hp Hts], Hu as [Hu Hus].
    specialize (IH proposals targets uniforms (k + 1)%Z ltac:(by injection Hlt) Hts Hds Hqs ltac:(by injection Hlu) Hus).
    cbn [accepted_by run_chain]. cbv zeta in *.
    destruct (Rltb u _) eqn:Ea.
    + destruct IH as (Hlaw & Hn & IH). split; [exact Hlaw|]. split; [cbn; lia|]. intros v.
      rewrite (test_exact d q p u v Hlq Hp Hl Hd Hu), Ea. cbn [mbind outcome_bind]. rewrite IH.
      replace (k + 1 + Z.of_nat (accepted_by drafts proposals targets uniforms))%Z
        with (k + Z.of_nat (S (accepted_by drafts proposals targets uniforms)))%Z by lia. done.
    + split; [by apply correction_law|]. split; [lia|]. intros v.
      rewrite (test_exact d q p u v Hlq Hp Hl Hd Hu), Ea. cbn [next_law lookup list_lookup].
      destruct (sample (H := exact) (correction (H := exact) q p) v); cbn [mbind outcome_bind]; [|done].
      by rewrite Z.add_0_r.
Qed.

(** C2: Speculative sampling is exact. With exact arithmetic and proposals and targets
    that are distributions, and uniform variables in [0, 1): the verification accepts
    the leading drafts whose variable is below their acceptance probability, and as a
    function of the sample variable its next token has the law of the replacement or,
    after the last draft, of the target. And at each place, for every token: the mass of
    proposing and accepting it, plus the probability of rejecting the draft times the
    mass of the token as a replacement, is its mass in the target. *)
Theorem speculation_is_exact drafts proposals targets :
  chain_ok drafts proposals targets ->
  (forall uniforms, length uniforms = length drafts -> Forall uniform uniforms ->
     let n := accepted_by drafts proposals targets uniforms in
     exists f, has_law f (next_law proposals targets n) /\
       forall v, uniform v ->
         verify_stochastic_chain (H := exact) drafts proposals targets uniforms v =
           Ok {| accepted_drafts := Z.of_nat n; next_token := f v; bonus := (n =? length drafts)%nat |}) /\
  (forall k q p t, proposals !! k = Some q -> targets !! k = Some p ->
     0 <= acceptance (H := exact) (mass p t) (mass q t) <= 1 /\
     mass q t * acceptance (H := exact) (mass p t) (mass q t) +
       rejection q p * mass (next_law proposals targets k) t = mass p t).
Proof.
  intros (Hd & Hlt & Ht & Hdq & Hqp). split.
  - intros uniforms Hlu Hu n.
    destruct (chain_run drafts proposals targets uniforms 0 Hlt Ht Hdq Hqp Hlu Hu) as (Hlaw & _ & Hrun).
    destruct (sample_law _ Hlaw) as (f & Hf & Hl). exists f. split; [done|]. intros v Hv.
    assert (shapes_ok (D := list (@single exact)) (N := @double exact) drafts proposals targets uniforms = true) as Hs.
    { pose proof (Forall2_length _ _ _ Hdq) as Hlq. unfold shapes_ok. destruct drafts as [|d drafts]; [done|].
      cbn [is_nil negb andb]. rewrite !andb_true_iff, !Nat.eqb_eq. repeat split; cbn in *; lia. }
    unfold verify_stochastic_chain. rewrite Hs. cbn [negb]. rewrite Hrun, Hf by done. done.
  - intros k q p t Hq Hp. unfold next_law. rewrite Hq, Hp.
    pose proof (Forall2_length _ _ _ Hdq) as Hlq. pose proof (lookup_lt_Some _ _ _ Hq).
    assert (take (length drafts) targets !! k = Some p) as Hp' by (rewrite lookup_take_lt by lia; done).
    destruct (Forall2_lookup_lr _ _ _ _ _ _ Hqp Hq Hp') as [Hlawq Hl].
    assert (law_ok p) as Hlawp by (rewrite Forall_forall in Ht; by eapply Ht, list_elem_of_lookup_2).
    split; [|by apply balance]. apply acceptance_range; apply mass_range; [apply Hlawp|apply Hlawq].
Qed.
End Exact.

(** A biased proposal: the law of the target is recovered. *)
Lemma speculation_is_exact_witness :
  chain_ok [0%Z] [[/ 2; / 2]%R] [[/ 4; 3 / 4]%R; [1; 0]%R] /\
  (/ 2 * acceptance (H := exact) (3 / 4) (/ 2) +
    rejection [/ 2; / 2] [/ 4; 3 / 4] * mass (next_law [[/ 2; / 2]] [[/ 4; 3 / 4]; [1; 0]] 0) 1 = 3 / 4)%R.
Proof.
  assert (chain_ok [0%Z] [[/ 2; / 2]%R] [[/ 4; 3 / 4]%R; [1; 0]%R]) as Hok.
  { assert (forall a b : R, (0 <= a -> 0 <= b -> a + b = 1 -> law_ok [a; b])%R) as Hlaw.
    { intros a b Ha Hb Hs. split; [|simpl; lra]. by repeat (apply Forall_cons; split). }
    assert (law_ok [/ 2; / 2]%R /\ law_ok [/ 4; 3 / 4]%R /\ law_ok [1; 0]%R) as (H1 & H2 & H3)
      by (split; [|split]; apply Hlaw; lra).
    split; [discriminate|]. split; [reflexivity|]. split; [by repeat (apply Forall_cons; split)|].
    split; (apply Forall2_cons; split; [|by apply Forall2_nil]); [unfold mass; simpl; lra|by split]. }
  split; [exact Hok|].
  exact (proj2 (proj2 (speculation_is_exact _ _ _ Hok) O _ _ 1%Z eq_refl eq_refl)).
Defined.
