(* ===== verification/GrammarMask.v ===== *)
(** * The mask of the grammar agrees with acceptance

    [apply] masks the tokens that [reject_candidates] rejects; [accept] throws on a
    token that leaves no stack. For grammars over characters both decide by the
    same readings of the token's code points; a token element in the middle of a
    piece makes them differ. *)

From stdpp Require Import base relations list strings.
From Stdlib Require Import ZArith Lia.
From S2P Require Import Prelude Grammar GrammarSem.

#[local] Set Default Proof Using "Type".
Open Scope Z_scope.

(** ** Readings *)

Definition over_characters (g : list rule) : bool :=
  forallb (forallb (fun e => negb (is_token_type (type e)))) g.

Section Mask.
Context (g : list rule).

(** A stack reached by one code point, and by several. *)
Definition reads (s : stack) (chr : Z) (t : stack) : Prop :=
  exists p rest p' s', s = p :: rest /\ match_char g p chr = Done (true, p') /\
    push_pos g p' rest = Done s' /\ rtc (expands g) s' t /\ terminal g t.

Fixpoint reads_all (s : stack) (points : list Z) (t : stack) : Prop :=
  match points with
  | [] => t = s
  | chr :: points => exists u, reads s chr u /\ reads_all u points t
  end.

(** A piece may end inside a code point that the stack can still complete. *)
Definition can_end (t : stack) (u : partial_utf8) : Prop :=
  n_remain u = 0 \/ exists p rest, t = p :: rest /\ match_partial_char g p u = Done true.

Definition passes (s : stack) (points : list Z) (u : partial_utf8) : Prop :=
  exists t, reads_all s points t /\ can_end t u.

Context (Hg : wf_rules g = true) (Hc : over_characters g = true).
#[local] Set Default Proof Using "All".

Lemma no_token p e : element_at g p = Done e -> is_token_type (type e) = false.
Proof.
  unfold element_at, elements_at. destruct (g !! p.1) as [r|] eqn:Hr; [|done].
  destruct (drop p.2 r) as [|e' l] eqn:Hd; [done|]. intros [= ->].
  unfold over_characters in Hc. rewrite forallb_forall in Hc.
  specialize (Hc r (proj1 (list_elem_of_In _ _) (list_elem_of_lookup_2 _ _ _ Hr))).
  rewrite forallb_forall in Hc. apply negb_true_iff, Hc, list_elem_of_In.
  rewrite <- (take_drop p.2 r), Hd. apply elem_of_app. right. left.
Qed.

(** The top of a settled stack is a character element. *)
Lemma settled_top p rest :
  settled g (p :: rest) -> exists e, element_at g p = Done e /\ is_token_type (type e) = false /\
    is_group_type (type e) = true /\ wf_at g p /\ valid g rest.
Proof.
  intros [Hv [?|(p' & rest' & e & Heq & He & Ht)]]; [done|]. injection Heq as <- <-.
  apply Forall_cons in Hv as [[Hp _] Hr]. pose proof (no_token p e He) as Hn.
  exists e. split; [done|]. split; [done|]. split; [by rewrite Hn, orb_false_r in Ht|done].
Qed.

(** *** Accepting *)

Lemma accept_chr_elem fuel s chr news out :
  settled g s -> NoDup news -> accept_chr fuel g s chr news = Done out ->
  NoDup out /\ forall t, t ∈ out <-> t ∈ news \/ reads s chr t.
Proof.
  intros Hs Hnd. destruct s as [|p rest]; unfold accept_chr.
  { intros [= <-]. split; [done|]. intros t. split; [by left|]. by intros [?|(?&?&?&?&?&_)]. }
  destruct (settled_top p rest Hs) as (e & He & Htok & Hgr & Hp & Hr). rewrite He, bind_done, Htok.
  destruct (match_char_spec g p e Hp He Hgr) as (p' & Hm). destruct (Hm chr) as (Hmc & Hp' & _).
  destruct (push_pos_spec g p' rest Hp' Hr) as (s' & Hpush & Hv' & _).
  rewrite Hmc, bind_done. cbn [fst snd]. destruct (eqb _ _) eqn:Eb.
  - rewrite Hpush, bind_done. intros Hadv.
    destruct (advance_stack_elem g Hg fuel s' news out Hv' Hnd Hadv) as [Hnd' Hin].
    split; [done|]. intros t. rewrite Hin. apply or_iff_compat_l. split.
    + intros [Ht Hrt]. by exists p, rest, p', s'.
    + intros (q & rest' & q' & s'' & Heq & Hmq & Hpq & Hrt & Ht). injection Heq as <- <-.
      rewrite Hmc in Hmq. simplify_eq. rewrite Hpush in Hpq. simplify_eq. by split.
  - intros [= <-]. split; [done|]. intros t. split; [by left|]. intros [?|(q & rest' & q' & s'' & Heq & Hmq & _)];
      [done|]. injection Heq as <- <-. rewrite Hmc in Hmq. discriminate.
Qed.

Lemma reads_settled s chr t : settled g s -> reads s chr t -> settled g t.
Proof.
  intros Hs (p & rest & p' & s' & -> & Hm & Hpush & Hr & Ht). split; [|done].
  destruct (settled_top p rest Hs) as (e & He & _ & Hgr & Hp & Hrest).
  destruct (match_char_spec g p e Hp He Hgr) as (q & Hmq). destruct (Hmq chr) as (Hmc & Hq & _).
  rewrite Hmc in Hm. simplify_eq.
  destruct (push_pos_spec g p' rest Hq Hrest) as (s'' & Hpush' & Hv & _).
  rewrite Hpush in Hpush'. injection Hpush' as ->. by apply (reach_valid g Hg s'').
Qed.

Lemma accept_chars_elem fuel ss chr out :
  Forall (settled g) ss -> accept_chars fuel g ss chr = Done out ->
  forall t, t ∈ out <-> exists s, s ∈ ss /\ reads s chr t.
Proof.
  unfold accept_chars. intros Hs Hr.
  enough (forall news out, NoDup news ->
    run_fold (fun news s => accept_chr fuel g s chr news) ss news = Done out ->
    forall t, t ∈ out <-> t ∈ news \/ exists s, s ∈ ss /\ reads s chr t) as Hall.
  { intros t. rewrite (Hall [] out (NoDup_nil_2) Hr). set_solver. }
  clear Hr out. induction Hs as [|s ss Hs _ IH]; intros news out Hnd Hr t.
  { injection Hr as <-. set_solver. }
  rewrite run_fold_cons in Hr. destruct (accept_chr fuel g s chr news) as [mid| |] eqn:Ha; [|done..].
  rewrite bind_done in Hr. destruct (accept_chr_elem fuel s chr news mid Hs Hnd Ha) as [Hnd' Hin].
  rewrite (IH mid out Hnd' Hr t), Hin. setoid_rewrite elem_of_cons. naive_solver.
Qed.

Lemma accept_points_elem fuel points : forall ss out,
  Forall (settled g) ss -> accept_points fuel g ss points = Done out ->
  forall t, t ∈ out <-> exists s, s ∈ ss /\ reads_all s points t.
Proof.
  induction points as [|chr points IH]; intros ss out Hs Hr t; cbn [accept_points] in Hr.
  { injection Hr as <-. cbn [reads_all]. naive_solver. }
  destruct (accept_chars fuel g ss chr) as [next| |] eqn:Ha; [|done..]. rewrite bind_done in Hr.
  pose proof (accept_chars_elem fuel ss chr next Hs Ha) as Hin.
  assert (Forall (settled g) next) as Hn.
  { apply Forall_forall. intros u Hu. apply Hin in Hu as (s & Hs' & Hru).
    eapply reads_settled; [|exact Hru]. exact (proj1 (Forall_forall _ _) Hs s Hs'). }
  transitivity (exists u, u ∈ next /\ reads_all u points t).
  - destruct next as [|u next]; cbn [is_nil] in Hr; [injection Hr as <-; set_solver|by apply IH].
  - cbn [reads_all]. setoid_rewrite Hin. naive_solver.
Qed.

Lemma accept_token_stack_elem fuel token points news s out :
  settled g s -> accept_token_stack fuel g token points news s = Done out ->
  forall t, t ∈ out <-> t ∈ news \/ s <> [] /\ reads_all s points t.
Proof.
  intros Hs. destruct s as [|p rest]; unfold accept_token_stack.
  { intros [= <-] t. naive_solver. }
  destruct (settled_top p rest Hs) as (e & He & Htok & _). rewrite He, bind_done, Htok.
  destruct (accept_points fuel g [p :: rest] points) as [survivors| |] eqn:Ha; [|done..].
  rewrite bind_done. intros [= <-] t. rewrite (add_stacks_elem g Hg).
  assert (Forall (settled g) [p :: rest]) as Hf by by apply Forall_singleton.
  rewrite (accept_points_elem fuel points _ survivors Hf Ha t).
  setoid_rewrite list_elem_of_singleton. naive_solver.
Qed.

Lemma fold_elem {A} (f : list stack -> A -> run (list stack)) (R : A -> stack -> Prop) l :
  forall news out,
  (forall news a out, a ∈ l -> f news a = Done out -> forall t, t ∈ out <-> t ∈ news \/ R a t) ->
  run_fold f l news = Done out -> forall t, t ∈ out <-> t ∈ news \/ exists a, a ∈ l /\ R a t.
Proof.
  induction l as [|a l IH]; intros news out Hf Hr t; [injection Hr as <-; set_solver|].
  rewrite run_fold_cons in Hr. destruct (f news a) as [mid| |] eqn:Ha; [|done..]. rewrite bind_done in Hr.
  rewrite (IH mid out (fun n b o Hb => Hf n b o (list_elem_of_further _ _ _ Hb)) Hr t).
  rewrite (Hf news a mid (list_elem_of_here _ _) Ha t). setoid_rewrite elem_of_cons. naive_solver.
Qed.

Lemma accept_token_elem fuel token piece G r G' :
  matching g G -> accept_token fuel token piece G = Done (r, G') ->
  forall t, t ∈ stacks G' <-> exists s, s ∈ stacks G /\ s <> [] /\
    reads_all s (token_points G piece) t.
Proof.
  intros [Hrules [_ Hs]]. unfold accept_token, token_points. rewrite Hrules.
  set (points := points_of _).
  destruct (run_fold _ _ _) as [news| |] eqn:Hr; [|done..]. rewrite bind_done. intros [= <- <-] t.
  cbn [stacks set_matcher].
  rewrite (fold_elem _ (fun s t => s <> [] /\ reads_all s points t) _ _ _ (fun n s o Hin =>
    accept_token_stack_elem fuel token points n s o (proj1 (Forall_forall _ _) Hs s Hin)) Hr t).
  set_solver.
Qed.

(** ** Rejecting *)

(** A candidate at these code points, none of them zero. *)
Definition at_points (c : candidate) (points : list Z) : Prop :=
  drop (offset c) (decoded_points c) = points ++ [0] /\ Forall (fun x => x <> 0) points.

Lemma at_points_head c chr points :
  at_points c (chr :: points) -> point c = chr /\ chr <> 0 /\ at_points (move_points S c) points.
Proof.
  intros [Hd Hz]. apply Forall_cons in Hz as [Hz Hzs]. unfold point, at_points.
  split; [|split; [done|split; [|done]]].
  - rewrite <- (Nat.add_0_r (offset c)), <- nth_skipn. change (skipn (offset c)) with (drop (A := Z) (offset c)).
    by rewrite Hd.
  - cbn [offset decoded_points move_points]. rewrite <- Nat.add_1_r, <- drop_drop, Hd. done.
Qed.

Lemma at_points_nil c : at_points c [] -> point c = 0.
Proof.
  intros [Hd _]. unfold point. rewrite <- (Nat.add_0_r (offset c)), <- nth_skipn.
  change (skipn (offset c)) with (drop (A := Z) (offset c)). by rewrite Hd.
Qed.

Lemma move_back c : move_points pred (move_points S c) = c.
Proof. by destruct c. Qed.

(** What [sift] does with each candidate. *)
Definition stuck (p : pos) (c : candidate) : Prop :=
  (point c = 0 /\ is_partial c = true /\ match_partial_char g p (cand_partial c) = Done false) \/
  (point c <> 0 /\ exists q, match_char g p (point c) = Done (false, q)).
Definition goes (p : pos) (c : candidate) : Prop :=
  point c <> 0 /\ exists q, match_char g p (point c) = Done (true, q).

Definition stays (p : pos) (c : candidate) : Prop :=
  point c = 0 /\ (is_partial c = false \/ match_partial_char g p (cand_partial c) = Done true).

Lemma sift_cases p acc c acc' :
  sift g p acc c = Done acc' ->
  (stuck p c /\ ~ goes p c /\ acc' = (acc.1 ++ [c], acc.2)) \/
  (goes p c /\ ~ stuck p c /\ acc' = (acc.1, acc.2 ++ [move_points S c])) \/
  (stays p c /\ ~ stuck p c /\ ~ goes p c /\ acc' = acc).
Proof.
  destruct acc as [rejects next]. unfold sift, stuck, goes, stays. cbn [fst snd].
  destruct (Z.eqb_spec (point c) 0) as [Hz|Hz].
  - destruct (is_partial c); [|intros [= <-]; naive_solver].
    destruct (match_partial_char g p (cand_partial c)) as [b| |]; [|done..]. rewrite bind_done.
    intros [= <-]. destruct b; naive_solver.
  - destruct (match_char g p (point c)) as [[b q]| |]; [|done..]. rewrite bind_done.
    cbn [fst]. intros [= <-]. destruct b; naive_solver.
Qed.

Lemma sift_spec p cs : forall acc out,
  run_fold (sift g p) cs acc = Done out ->
  (forall c, c ∈ out.1 <-> c ∈ acc.1 \/ c ∈ cs /\ stuck p c) /\
  (forall c, c ∈ out.2 <-> c ∈ acc.2 \/ exists c', c' ∈ cs /\ goes p c' /\ c = move_points S c') /\
  (forall c, c ∈ cs -> stuck p c \/ goes p c \/ stays p c).
Proof.
  induction cs as [|c cs IH]; intros acc out Hr; [injection Hr as <-; set_solver|].
  rewrite run_fold_cons in Hr. destruct (sift g p acc c) as [acc'| |] eqn:Hs; [|done..].
  rewrite bind_done in Hr. destruct (IH acc' out Hr) as (H1 & H2 & H3).
  destruct (sift_cases p acc c acc' Hs) as [(Hc1 & Hc2 & ->)|[(Hc1 & Hc2 & ->)|(Hc1 & Hc2 & Hc3 & ->)]];
    (split; [|split]; intros c0; rewrite ?H1, ?H2; cbn [fst snd]; set_solver).
Qed.

(** The stacks a candidate goes on to are those of [nexts]. *)
Lemma passes_next p rest q s' nexts fuel c points :
  settled g (p :: rest) -> match_char g p 0 = Done q -> push_pos g q.2 rest = Done s' ->
  advance_stack fuel g s' [] = Done nexts -> at_points c points -> goes p c ->
  passes (p :: rest) points (cand_partial c) <->
  exists t, t ∈ nexts /\ passes t (tail points) (cand_partial c).
Proof.
  intros Hs Hq Hpush Hadv Hat [Hz (q1 & Hm)].
  destruct (settled_top p rest Hs) as (e & He & _ & Hgr & Hp & Hrest).
  destruct (match_char_spec g p e Hp He Hgr) as (p' & Hmc).
  destruct (Hmc 0) as (Hc0 & Hp' & _). destruct (Hmc (point c)) as (Hc1 & _).
  rewrite Hc0 in Hq. injection Hq as <-. rewrite Hc1 in Hm. injection Hm as Hb <-. cbn [snd] in Hpush.
  destruct (push_pos_spec g p' rest Hp' Hrest) as (s'' & Hpush' & Hv' & _).
  rewrite Hpush' in Hpush. injection Hpush as ->.
  destruct (advance_stack_elem g Hg fuel s' [] nexts Hv' (NoDup_nil_2) Hadv) as [_ Hin].
  destruct points as [|chr points]; [by apply at_points_nil in Hat|].
  destruct (at_points_head c chr points Hat) as (Hch & _ & _). cbn [tail]. unfold passes. cbn [reads_all].
  assert (forall t, reads (p :: rest) chr t <-> t ∈ nexts) as Hreads.
  { intros t. rewrite Hin. unfold reads. split.
    - intros (? & ? & p'' & s''' & Heq & Hm' & Hpush'' & Hr & Ht). injection Heq as <- <-. right.
      rewrite <- Hch, Hc1 in Hm'. injection Hm' as _ <-. rewrite Hpush' in Hpush''. by injection Hpush'' as <-.
    - intros [Hn|[Ht Hr]]; [by apply not_elem_of_nil in Hn|]. exists p, rest, p', s'.
      split; [done|]. split; [by rewrite <- Hch, Hc1, Hb|done]. }
  setoid_rewrite Hreads. naive_solver.
Qed.

(** A candidate that stays on a character element passes, and one stuck there does not. *)
Lemma passes_here p rest c points :
  settled g (p :: rest) -> at_points c points ->
  (stays p c -> passes (p :: rest) points (cand_partial c)) /\
  (stuck p c -> ~ passes (p :: rest) points (cand_partial c)).
Proof.
  intros Hs Hat. split.
  - intros [Hz Hst]. destruct points as [|chr points];
      [|destruct (at_points_head c chr points Hat) as (Hch & Hnz & _); congruence].
    exists (p :: rest). split; [done|]. destruct Hst as [Hst|Hst]; [left|right; by exists p, rest].
    unfold is_partial in Hst. apply negb_false_iff, Z.eqb_eq in Hst. exact Hst.
  - intros Hst (t & Hr & He). destruct points as [|chr points].
    + apply at_points_nil in Hat. destruct Hst as [(_ & Hp & Hm)|[Hz _]]; [|done].
      cbn [reads_all] in Hr. subst t. destruct He as [He|(p' & rest' & Heq & Hm')].
      * unfold is_partial in Hp. by rewrite He in Hp.
      * injection Heq as <- <-. congruence.
    + destruct (at_points_head c chr points Hat) as (Hch & Hnz & _).
      destruct Hst as [(Hz & _)|[_ (q & Hm)]]; [congruence|].
      destruct Hr as (u & (p' & rest' & p'' & s' & Heq & Hm' & _) & _). injection Heq as <- <-. congruence.
Qed.
(** A candidate that some reading of a stack accepts. *)
Definition passes_at (s : stack) (c : candidate) : Prop :=
  exists points, at_points c points /\ passes s points (cand_partial c).

Definition readable (c : candidate) : Prop := exists points, at_points c points.

Lemma passes_at_iff s c points :
  at_points c points -> passes_at s c <-> passes s points (cand_partial c).
Proof.
  intros Hat. split; [|by exists points]. intros (points' & Hat' & Hp).
  destruct Hat as [H1 _], Hat' as [H2 _]. rewrite H1 in H2. by apply app_inj_2 in H2 as [-> _].
Qed.

Lemma reject_with_elem (one : stack -> list candidate -> run (list candidate)) ss :
  (forall s cs r, s ∈ ss -> (forall c, c ∈ cs -> readable c) -> one s cs = Done r ->
     forall c, c ∈ r <-> c ∈ cs /\ ~ passes_at s c) ->
  forall cs r, (forall c, c ∈ cs -> readable c) -> reject_candidates_with one ss cs = Done r ->
  forall c, c ∈ r <-> c ∈ cs /\ forall s, s ∈ ss -> ~ passes_at s c.
Proof.
  intros Hone cs r Hcs Hr. unfold reject_candidates_with in Hr. destruct ss as [|s ss]; [done|].
  destruct cs as [|c0 cs]; [injection Hr as <-; set_solver|]. revert Hr Hcs.
  generalize (c0 :: cs) as all. clear c0 cs. intros cs Hr Hcs.
  destruct (one s cs) as [r1| |] eqn:H1; [|done..]. rewrite bind_done in Hr.
  pose proof (Hone s cs r1 (list_elem_of_here _ _) Hcs H1) as Hin1.
  assert (forall c, c ∈ r1 -> readable c) as Hr1 by (intros c Hc'; apply Hcs, Hin1, Hc').
  assert (forall s' cs r, s' ∈ ss -> (forall c, c ∈ cs -> readable c) -> one s' cs = Done r ->
     forall c, c ∈ r <-> c ∈ cs /\ ~ passes_at s' c) as Hss.
  { intros s' cs' r' Hs'. apply Hone. by right. }
  assert (forall ss', (forall s', s' ∈ ss' -> s' ∈ ss) -> forall cs r, (forall c, c ∈ cs -> readable c) ->
    run_fold (fun rejects s => one s rejects) ss' cs = Done r ->
    forall c, c ∈ r <-> c ∈ cs /\ forall s, s ∈ ss' -> ~ passes_at s c) as Hfold.
  { induction ss' as [|s' ss' IH]; intros Hsub cs' r' Hcs' Hr'; [injection Hr' as <-; set_solver|].
    rewrite run_fold_cons in Hr'. destruct (one s' cs') as [r2| |] eqn:H2; [|done..].
    rewrite bind_done in Hr'.
    pose proof (Hss s' cs' r2 (Hsub s' (list_elem_of_here _ _)) Hcs' H2) as Hin2.
    intros c. rewrite (IH (fun x Hx => Hsub x (list_elem_of_further _ _ _ Hx)) r2 r'
      (fun c Hc' => Hcs' c (proj1 (proj1 (Hin2 c) Hc'))) Hr' c), Hin2.
    setoid_rewrite elem_of_cons. naive_solver. }
  intros c. rewrite (Hfold ss (fun _ H => H) r1 r Hr1 Hr c), Hin1. setoid_rewrite elem_of_cons.
  naive_solver.
Qed.

Lemma passes_empty c : readable c -> passes_at [] c <-> reject_at_end c = false.
Proof.
  intros [points Hat]. rewrite (passes_at_iff [] c points Hat). unfold reject_at_end, passes.
  destruct points as [|chr points].
  - rewrite (at_points_nil c Hat). cbn [reads_all negb Z.eqb orb]. unfold is_partial.
    rewrite negb_false_iff, Z.eqb_eq. split; [|intros Hz; exists []; split; [done|by left]].
    intros (t & -> & [Hz|(p & rest & Heq & _)]); done.
  - destruct (at_points_head c chr points Hat) as (Hch & Hz & _). rewrite Hch.
    apply Z.eqb_neq in Hz. rewrite Hz. split; [|done].
    by intros (t & (u & (p & rest & p' & s' & Heq & _) & _) & _).
Qed.

(** One element of the loop of [reject_for_stack], given the rejects of the stacks
    after it. *)
Lemma reject_group p rest cs rn q s' nexts fuel r1 :
  settled g (p :: rest) -> (forall c, c ∈ cs -> readable c) ->
  run_fold (sift g p) cs ([], []) = Done rn -> match_char g p 0 = Done q ->
  push_pos g q.2 rest = Done s' -> advance_stack fuel g s' [] = Done nexts ->
  (forall c, c ∈ r1 <-> c ∈ rn.2 /\ forall t, t ∈ nexts -> ~ passes_at t c) ->
  forall c, c ∈ rn.1 ++ map (move_points pred) r1 <-> c ∈ cs /\ ~ passes_at (p :: rest) c.
Proof.
  intros Hs Hcs Hsift Hq Hpush Hadv Hr1 c. destruct (sift_spec p cs _ _ Hsift) as (H1 & H2 & H3).
  cbn [fst snd] in H1, H2. rewrite elem_of_app, H1.
  assert (c ∈ map (move_points pred) r1 <-> move_points S c ∈ r1 /\ c ∈ cs /\ goes p c) as Hback.
  { split.
    - intros Hin. apply list_elem_of_In, in_map_iff in Hin as (c' & <- & Hin).
      apply list_elem_of_In in Hin. pose proof (proj1 (Hr1 c') Hin) as [Hin2 _].
      apply H2 in Hin2 as [?|(c0 & Hc0 & Hg0 & ->)]; [set_solver|]. by rewrite move_back.
    - intros (Hin & _). apply list_elem_of_In, in_map_iff. exists (move_points S c).
      by rewrite move_back, <- list_elem_of_In. }
  rewrite Hback, Hr1, H2. split.
  - intros [[?|[Hin Hst]]|((_ & Hno) & Hin & Hgo)]; [set_solver| |];
      (split; [done|]); destruct (Hcs c Hin) as [points Hat]; rewrite (passes_at_iff _ c points Hat).
    + by apply (passes_here p rest c points Hs Hat).
    + rewrite (passes_next p rest q s' nexts fuel c points) by done. intros (t & Ht & Hp).
      apply (Hno t Ht). destruct points as [|chr points]; [by apply at_points_nil in Hat; destruct Hgo|].
      exists points. split; [by apply (at_points_head c chr)|done].
  - intros [Hin Hno]. destruct (Hcs c Hin) as [points Hat]. rewrite (passes_at_iff _ c points Hat) in Hno.
    destruct (H3 c Hin) as [Hst|[Hgo|Hst]]; [left; right; done| |].
    + right. split; [|done]. split; [right; by exists c|]. intros t Ht Hp. apply Hno.
      rewrite (passes_next p rest q s' nexts fuel c points) by done. exists t. split; [done|].
      destruct points as [|chr points]; [by apply at_points_nil in Hat; destruct Hgo|].
      destruct (at_points_head c chr points Hat) as (_ & _ & Hat').
      by apply (passes_at_iff t (move_points S c) points Hat').
    + destruct Hno. by apply (passes_here p rest c points Hs Hat).
Qed.

(** [reject_for_stack] rejects exactly the candidates that no reading accepts. *)
Lemma reject_for_stack_elem depth fuel : forall s cs r,
  settled g s -> (forall c, c ∈ cs -> readable c) -> reject_for_stack depth fuel g s cs = Done r ->
  forall c, c ∈ r <-> c ∈ cs /\ ~ passes_at s c.
Proof.
  assert (forall cs r : list candidate, (forall c, c ∈ cs -> readable c) ->
    filter (fun c => reject_at_end c = true) cs = r ->
    forall c, c ∈ r <-> c ∈ cs /\ ~ passes_at [] c) as Hempty.
  { intros cs r Hcs <- c. rewrite list_elem_of_filter. split.
    - intros [Hr Hin]. split; [done|]. rewrite passes_empty by auto. by rewrite Hr.
    - intros [Hin Hno]. rewrite passes_empty in Hno by auto. split; [|done].
      by destruct (reject_at_end c). }
  induction depth as [|depth IH]; intros s cs r Hs Hcs Hr; destruct s as [|p rest];
    cbn [reject_for_stack] in Hr; try (apply Hempty; [done|by injection Hr]);
    destruct (settled_top p rest Hs) as (e & He & Htok & Hgr & Hp & Hrest);
    rewrite He, bind_done, Htok in Hr; [done|].
  destruct (run_fold (sift g p) cs ([], [])) as [rn| |] eqn:Hsift; [|done..]. rewrite bind_done in Hr.
  destruct (match_char g p 0) as [q| |] eqn:Hq; [|done..]. rewrite bind_done in Hr.
  destruct (push_pos g q.2 rest) as [s'| |] eqn:Hpush; [|done..]. rewrite bind_done in Hr.
  destruct (advance_stack fuel g s' []) as [nexts| |] eqn:Hadv; [|done..]. rewrite bind_done in Hr.
  destruct (reject_candidates_with _ nexts rn.2) as [r1| |] eqn:Hrc; [|done..]. rewrite bind_done in Hr.
  injection Hr as <-. apply (reject_group p rest cs rn q s' nexts fuel r1); [done..|].
  destruct (sift_spec p cs _ _ Hsift) as (_ & H2 & _).
  apply (reject_with_elem (reject_for_stack depth fuel g) nexts); [|intros c Hin|done].
  - intros t cs' r' Ht. apply IH.
    destruct (match_char_spec g p e Hp He Hgr) as (p' & Hm). destruct (Hm 0) as (Hm0 & Hp' & _).
    rewrite Hm0 in Hq. injection Hq as <-. cbn [snd] in Hpush.
    destruct (push_pos_spec g p' rest Hp' Hrest) as (s'' & Hpush' & Hv' & _).
    rewrite Hpush' in Hpush. injection Hpush as ->.
    destruct (advance_stack_elem g Hg fuel s' [] nexts Hv' (NoDup_nil_2) Hadv) as [_ Hin].
    apply Hin in Ht as [?|[Ht Hr]]; [set_solver|]. split; [by apply (reach_valid g Hg s')|done].
  - apply H2 in Hin as [?|(c' & Hc' & [Hz _] & ->)]; [set_solver|].
    destruct (Hcs c' Hc') as [[|chr points] Hat]; [by apply at_points_nil in Hat|].
    exists points. by apply (at_points_head c' chr).
Qed.
End Mask.
#[local] Set Default Proof Using "Type".

(** ** Decoding a piece *)

Lemma take_continuation_length src : forall value n rest v m,
  take_continuation src value n = (rest, v, m) -> (length rest <= length src)%nat.
Proof.
  induction src as [|b src IH]; intros value n rest v m H; cbn [take_continuation] in H.
  { by injection H as <- _ _. }
  destruct (n <=? 0); [by injection H as <- _ _|]. apply IH in H. simpl. lia.
Qed.

(** The code points end with the terminator, and a piece without a complete code
    point leaves the decoder inside one. *)
Lemma decode_loop_spec fuel : forall src points value n,
  (length src <= fuel)%nat ->
  let d := decode_loop fuel src points value n in
  d.1 = points_of d ++ [0] /\
  (points_of d = [] -> n_remain d.2 = 0 -> src = [] /\ points = [] /\ n = 0).
Proof.
  unfold points_of. induction fuel as [|fuel IH]; intros [|b src] points value n Hl; simpl in Hl; try lia;
    cbn [decode_loop]; cbv zeta; try (cbn [fst snd n_remain]; by rewrite removelast_last).
  destruct (utf8_lookup _ - 1 <? 0) eqn:Hn; [cbn [fst snd n_remain]; split; [done|lia]|].
  destruct (take_continuation src _ _) as [[rest v] m] eqn:Ht.
  apply take_continuation_length in Ht.
  destruct (IH rest (if m =? 0 then points ++ [v] else points) v m) as [H1 H2]; [lia|].
  split; [exact H1|]. intros Hd Hz. destruct (H2 Hd Hz) as (_ & Hp & ->). simpl in Hp.
  by apply app_eq_nil in Hp as [_ ?].
Qed.

Lemma decode_utf8_spec src start :
  let d := decode_utf8 src start in
  d.1 = points_of d ++ [0] /\ (src <> [] -> points_of d = [] -> n_remain d.2 <> 0).
Proof.
  unfold decode_utf8. cbv zeta. destruct (continue_decode src _ _) as [[[rest v] m]|] eqn:Hc;
    [|by split].
  set (points := if (0 <? n_remain start) && (m =? 0) then [v] else []).
  destruct (decode_loop_spec (length rest) rest points v m) as [H1 H2]; [done|].
  split; [exact H1|]. intros Hne Hd Hz. destruct (H2 Hd Hz) as (-> & Hp & ->). unfold points in Hp.
  rewrite andb_true_r in Hp. destruct (Z.ltb_spec 0 (n_remain start)) as [Hpos|Hpos]; [done|].
  destruct src as [|b src]; [done|]. cbn [continue_decode] in Hc.
  destruct (Z.leb_spec (n_remain start) 0); [done|lia].
Qed.

(** ** [apply] and [accept] *)

Section Vocabulary.
Context (token_to_piece : Z -> list Z) (is_eog : Z -> bool) (find_pattern : string -> list Z -> option nat).

Lemma sort_tokens_spec G cur : forall k,
  (forall c, c ∈ (sort_tokens token_to_piece is_eog G k cur).2 <-> exists j t,
    cur !! j = Some t /\ look token_to_piece is_eog G (tok_id t) = ask_grammar /\
    c = decode_candidate token_to_piece G (k + j) (tok_id t)) /\
  (forall i, i ∈ (sort_tokens token_to_piece is_eog G k cur).1 <-> exists j t,
    cur !! j = Some t /\ look token_to_piece is_eog G (tok_id t) = mask_it /\ i = (k + j)%nat).
Proof.
  induction cur as [|t cur IH]; intros k; [set_solver|]. cbn [sort_tokens].
  destruct (IH (S k)) as [H1 H2]. destruct (sort_tokens token_to_piece is_eog G (S k) cur) as [l cs].
  cbn [fst snd] in H1, H2.
  assert (forall (Q : nat -> token_data -> Prop), (exists j t0, (t :: cur) !! j = Some t0 /\ Q j t0) <->
    Q 0%nat t \/ exists j t0, cur !! j = Some t0 /\ Q (S j) t0) as Hsplit.
  { intros Q. split; [intros ([|j] & t0 & Hj & HQ); [injection Hj as <-; by left|right; by exists j, t0]|].
    intros [HQ|(j & t0 & Hj & HQ)]; [by exists 0%nat, t|by exists (S j), t0]. }
  split.
  - intros c. rewrite (Hsplit (fun j t0 => look token_to_piece is_eog G (tok_id t0) = ask_grammar /\
      c = decode_candidate token_to_piece G (k + j) (tok_id t0))).
    setoid_rewrite Nat.add_succ_r. rewrite Nat.add_0_r. setoid_rewrite Nat.add_succ_l in H1.
    destruct (look token_to_piece is_eog G (tok_id t)) eqn:Hl; cbn [snd]; rewrite ?elem_of_cons, H1;
      naive_solver.
  - intros i. rewrite (Hsplit (fun j t0 => look token_to_piece is_eog G (tok_id t0) = mask_it /\
      i = (k + j)%nat)).
    setoid_rewrite Nat.add_succ_r. rewrite Nat.add_0_r. setoid_rewrite Nat.add_succ_l in H2.
    destruct (look token_to_piece is_eog G (tok_id t)) eqn:Hl; cbn [fst]; rewrite ?elem_of_cons, H2;
      naive_solver.
Qed.

Lemma mask_all_lookup l cur i t :
  cur !! i = Some t -> mask_all l cur !! i = Some (if bool_decide (i ∈ l)
    then {| tok_id := tok_id t; masked := true |} else t).
Proof. intros Ht. unfold mask_all. by rewrite list_lookup_imap, Ht. Qed.

(** What [apply] does with one token. *)
Lemma apply_token g G depth fuel cur cur' i t t' :
  wf_rules g = true -> over_characters g = true -> matching g G ->
  awaiting_trigger G = false ->
  (forall token, Forall (fun x => x <> 0) (token_points G (token_to_piece token))) ->
  apply token_to_piece is_eog depth fuel G cur = Done cur' ->
  cur !! i = Some t -> masked t = false -> cur' !! i = Some t' ->
  (masked t' = true <-> look token_to_piece is_eog G (tok_id t) = mask_it \/
     look token_to_piece is_eog G (tok_id t) = ask_grammar /\
     forall s, s ∈ stacks G -> ~ passes_at g s (decode_candidate token_to_piece G i (tok_id t))).
Proof.
  intros Hg Hc [Hrules [_ Hs]] Haw Hnz Hap Ht Hm Ht'. unfold apply in Hap. rewrite Haw, Hrules in Hap.
  destruct (sort_tokens_spec G cur 0) as [H1 H2].
  destruct (sort_tokens token_to_piece is_eog G 0 cur) as [l cs]. cbn [fst snd] in H1, H2.
  destruct (reject_candidates depth fuel g (stacks G) cs) as [rejects| |] eqn:Hr; [|done..].
  rewrite bind_done in Hap. injection Hap as <-.
  assert (forall c, c ∈ cs -> readable c) as Hread.
  { intros c Hin. apply H1 in Hin as (j & t0 & _ & _ & ->).
    exists (token_points G (token_to_piece (tok_id t0))). split; [|done]. cbn [decoded_points offset decode_candidate].
    rewrite drop_0. apply decode_utf8_spec. }
  pose proof (reject_with_elem g Hg Hc (reject_for_stack depth fuel g) (stacks G)) as Hw.
  assert (forall c, c ∈ rejects <-> c ∈ cs /\ forall s, s ∈ stacks G -> ~ passes_at g s c) as Hin.
  { apply Hw; [|done|exact Hr]. intros s cs' r Hs'.
    apply (reject_for_stack_elem g Hg Hc depth fuel s cs' r).
    exact (proj1 (Forall_forall _ _) Hs s Hs'). }
  rewrite (mask_all_lookup _ _ i _ (mask_all_lookup l cur i t Ht)) in Ht'. injection Ht' as <-.
  assert (i ∈ l <-> look token_to_piece is_eog G (tok_id t) = mask_it) as Hl.
  { rewrite H2. split; [intros (j & t0 & Hj & Hk & Hij); simpl in Hij; subst j; congruence|intros Hk; by exists i, t]. }
  assert (i ∈ map index rejects <-> look token_to_piece is_eog G (tok_id t) = ask_grammar /\
    forall s, s ∈ stacks G -> ~ passes_at g s (decode_candidate token_to_piece G i (tok_id t))) as Hi.
  { rewrite list_elem_of_In, in_map_iff. setoid_rewrite <- list_elem_of_In. setoid_rewrite Hin.
    setoid_rewrite H1. split.
    - intros (c & Hidx & (j & t0 & Hj & Hk & ->) & Hno). simpl in Hidx. subst j. by simplify_eq.
    - intros [Hk Hno]. eexists. split; [|split; [exists i, t; split; [done|split; [done|reflexivity]]|exact Hno]].
      done. }
  rewrite <- Hl, <- Hi. case_bool_decide; case_bool_decide; cbn [masked]; rewrite ?Hm; naive_solver.
Qed.

Lemma accept_plain fuel token G :
  awaiting_trigger G = false -> look token_to_piece is_eog G token = ask_grammar ->
  accept token_to_piece is_eog find_pattern fuel token G =
    accept_token fuel token (token_to_piece token) G /\ c_str (token_to_piece token) <> [].
Proof.
  unfold accept, look. intros ->. destruct (is_eog token); [by destruct (allow_eog G)|].
  destruct (token_to_piece token) as [|b l]; [done|]. destruct (b =? 0) eqn:Hb; [done|].
  intros _. split; [done|]. simpl. by rewrite Hb.
Qed.

End Vocabulary.

(** ** Lists of [a], and a token after a character *)

Definition plain (t : gretype) (v : Z) : element := {| type := t; value := v |}.

Definition fresh (g : list rule) (ss : list stack) : Grammar :=
  {| g_rules := g; stacks := ss; partial := {| partial_value := 0; n_remain := 0 |}; lazy := false;
     awaiting_trigger := false; trigger_buffer := []; trigger_buffer_positions := [];
     trigger_tokens := []; trigger_patterns := [] |}.

Definition letters : list rule :=
  [[plain CHAR 97; plain RULE_REF 0; plain ALT 0; plain END 0]].

(** Token 0 is [a], token 1 is [b], token 2 the end, the others [ab]. *)
Definition sample_piece (token : Z) : list Z :=
  if token =? 0 then [97] else if token =? 1 then [98] else if token =? 2 then [] else [97; 98].

Definition unmasked (ids : list Z) : list token_data :=
  map (fun t => {| tok_id := t; masked := false |}) ids.

Lemma sample_points ss token :
  Forall (fun x => x <> 0) (token_points (fresh letters ss) (sample_piece token)).
Proof.
  unfold sample_piece. destruct (token =? 0), (token =? 1), (token =? 2); vm_compute;
    repeat constructor; discriminate.
Qed.

Lemma letters_start : matching letters (fresh letters [[(0, 0)%nat]; []]).
Proof.
  split; [reflexivity|]. split.
  - constructor; [|apply NoDup_singleton]. intros H. apply list_elem_of_singleton in H. discriminate.
  - constructor; [|constructor; [|constructor]].
    + split.
      * constructor; [|constructor]. split; [reflexivity|]. eexists. split; reflexivity.
      * right. eexists _, _, _. split; [reflexivity|]. split; reflexivity.
    + split; [constructor|by left].
Qed.


(** [root ::= "a" <[5]>]. *)
Definition letter_then_token : list rule := [[plain CHAR 97; plain TOKEN 5; plain END 0]].

(** The piece [ab] of token 5 is left unmasked after that grammar's start,
    because the token element is tried against the rest of the piece, and accepting
    it throws. *)
Theorem token_element_divergence :
  let G := fresh letter_then_token [[(0, 0)%nat]] in
  apply sample_piece (fun t => t =? 2) 5 9 G (unmasked [5]) = Done (unmasked [5]) /\
  exists what G', accept sample_piece (fun t => t =? 2) (fun _ _ => None) 9 5 G =
    Done (Throw (RuntimeError what), G').
Proof. split; [reflexivity|]. eexists _, _. reflexivity. Qed.
