(* ===== verification/PrefixService.v ===== *)
(** * The paged cache as its client sees it

    [PagedCache] is the interface of [PagedPrefixCache] ([core/mfq_paged_prefix_cache.h])
    that the session cache uses, and [PagedLaws] is what the session cache relies on. The
    instance is the cache of [PrefixCacheSteps] with a schedule: between two sections of a
    call, and while a call waits, the other threads take the steps the schedule says, and
    the volume and the outcomes of the calls on files change. The engine's thread is the
    only one that stores and loads, and nobody else writes files in the cache's directory,
    which was empty when it was opened. *)

From stdpp Require Import base list sets gmap strings.
From Stdlib Require Import ZArith Lia.
From S2P Require Import Prelude Returns Sha256 LittleEndian BlockFile BlockStore PrefixCache PrefixCacheInv PrefixCacheGenuine PrefixCacheSteps.

#[local] Set Default Proof Using "Type".
#[local] Open Scope Z_scope.

(** ** The interface *)

Class PagedCache (P : Type) := {
  paged_block_size : P -> Z;
  paged_match : list Z -> list Z -> bool -> N P PrefixMatch;
  paged_record_match : Z -> N P unit;
  paged_load_prefix : list BlockHash -> N P (list (list Z));
  paged_invalidate : BlockHash -> N P bool;
  paged_store (replace_existing : bool) : BlockHash -> list Z -> option (list Z) -> list Z -> N P BlockHash;
  paged_trim_hot : Z -> N P Z;
  paged_set_hot_limit : Z -> N P Z;
  paged_set_disk_limit : Z -> N P Z;
  paged_reserve_ram : Z -> N P Z;
  paged_refresh : N P Z;
  paged_clear : N P Z;
}.

(** ** Blocks of a sequence of tokens *)

Fixpoint cut (fuel : nat) (bs : nat) (tokens : list Z) : list (list Z) :=
  match fuel, tokens with
  | S fuel, _ :: _ => take bs tokens :: cut fuel bs (drop bs tokens)
  | _, _ => []
  end.

(** The sequence in blocks of [bs] tokens, the last of which may be shorter. *)
Definition segments (bs : Z) (tokens : list Z) : list (list Z) := cut (length tokens) (Z.to_nat bs) tokens.

(** The hash of the last of successive blocks after [parent]. *)
Definition chain_hash (n : Namespace) (key : list Z) (parent : BlockHash) (parts : list (list Z)) : BlockHash :=
  foldl (fun parent part => sha256 (block_message n parent part key)) parent parts.

(** The hashes of successive blocks after [parent]. *)
Fixpoint chain_hashes (n : Namespace) (key : list Z) (parent : BlockHash) (parts : list (list Z)) : list BlockHash :=
  match parts with
  | [] => []
  | part :: parts =>
      let hash := sha256 (block_message n parent part key) in hash :: chain_hashes n key hash parts
  end.

(** ** What a client relies on *)

(** What can be said of a cache: its invariant, its namespace, and the blocks it was given. *)
Record PagedView (P : Type) := {
  view_ok : P -> Prop;
  view_space : P -> Namespace;
  view_stored : P -> list StoredBlock;
}.
Arguments view_ok {P}. Arguments view_space {P}. Arguments view_stored {P}.

(** A payload that was given for a block of this hash. *)
Definition given_for (n : Namespace) (stored : list StoredBlock) (hash : BlockHash) (payload : list Z) : Prop :=
  exists b, b ∈ stored /\ hash_of n b = Ok hash /\ sb_payload b = payload.

Section View.
Context {P : Type} (V : PagedView P).

(** [p'] is [p] after calls that were given no blocks but those in [given]. *)
Record since (given : list StoredBlock) (p p' : P) : Prop := {
  si_ok : view_ok V p';
  si_space : view_space V p' = view_space V p;
  si_keeps : view_stored V p ⊆ view_stored V p';
  si_stored : view_stored V p' ⊆ given ++ view_stored V p;
}.

Lemma since_refl p : view_ok V p -> since [] p p.
Proof. by split. Qed.

Lemma since_trans given given' p q r : since given p q -> since given' q r -> since (given' ++ given) p r.
Proof.
  intros [_ E1 K1 S1] [H2 E2 K2 S2]. split; [done|by rewrite E2|set_solver..].
Qed.

Lemma since_then given p q r : since given p q -> since [] q r -> since given p r.
Proof. intros H1 H2. by apply (since_trans given [] p q r). Qed.

Lemma since_more given given' p q : given ⊆ given' -> since given p q -> since given' p q.
Proof. intros Hg [???]. split; [done|done|done|set_solver]. Qed.
End View.

(** A call that stores nothing. *)
Definition stores_nothing {P A} (V : PagedView P) (m : N P A) : Prop :=
  forall p, view_ok V p -> spec (eq p) m (fun _ => since V [] p) (since V [] p).

Class PagedLaws (P : Type) `{PagedCache P} := {
  view : PagedView P;
  view_block_size p : view_ok view p ->
    paged_block_size p = block_size_tokens (view_space view p) /\ 0 < paged_block_size p;
  (** A match is the blocks of a prefix of the tokens, by their hashes. *)
  law_match p tokens key record :
    view_ok view p -> Forall in_s64 tokens -> size_of key <= u64_max ->
    spec (eq p) (paged_match tokens key record)
      (fun r p' => since view [] p p' /\
         exists prefix rest, tokens = prefix ++ rest /\ matched_tokens r = size_of prefix /\
           blocks r = chain_hashes (view_space view p) key zero_hash (segments (paged_block_size p) prefix))
      (since view [] p);
  (** A loaded payload was given for its hash. *)
  law_load p hashes :
    view_ok view p ->
    spec (eq p) (paged_load_prefix hashes)
      (fun payloads p' => since view [] p p' /\
         Forall2 (given_for (view_space view p) (view_stored view p'))
           (take (length payloads) hashes) payloads)
      (since view [] p);
  (** A stored block is known by its hash. *)
  law_store p replace_existing parent tokens payload key :
    view_ok view p ->
    let given := [{| sb_parent := parent; sb_tokens := tokens; sb_extra := key; sb_payload := payload |}] in
    spec (eq p) (paged_store replace_existing parent tokens (Some payload) key)
      (fun hash p' => since view given p p' /\ hash = sha256 (block_message (view_space view p) parent tokens key))
      (since view given p);
  law_store_null p replace_existing parent tokens key :
    view_ok view p ->
    spec (eq p) (paged_store replace_existing parent tokens None key) (fun _ _ => False) (since view [] p);
  law_record_match matched : stores_nothing view (paged_record_match matched);
  law_invalidate hash : stores_nothing view (paged_invalidate hash);
  law_trim_hot target : stores_nothing view (paged_trim_hot target);
  law_set_hot_limit limit : stores_nothing view (paged_set_hot_limit limit);
  law_set_disk_limit limit : stores_nothing view (paged_set_disk_limit limit);
  law_reserve_ram bytes : stores_nothing view (paged_reserve_ram bytes);
  law_refresh : stores_nothing view paged_refresh;
  law_clear : stores_nothing view paged_clear;
}.

(** The calls that need no other thread. *)
Class PagedReturns (P : Type) `{PagedLaws P} := {
  match_returns p tokens key record : view_ok view p -> paged_match tokens key record p <> None;
  record_returns p matched : view_ok view p -> paged_record_match matched p <> None;
  load_returns p hashes : view_ok view p -> paged_load_prefix hashes p <> None;
}.

(** ** The cache and its threads *)

(** What happens at a moment between two sections: what the volume and the next calls on
    files will be, the steps of the other threads, and the memory that [available_ram_bytes]
    reports ([None] without the callback). *)
Record Moment := {
  mo_volume : Volume;
  mo_faults : list Fault;
  mo_others : list Action;
  mo_ram : option Z;
}.

Record Service := { sv_system : System; sv_schedule : list Moment }.

(** The actions of the engine's thread alone, and those that change files. *)
Definition engine_only (a : Action) : bool :=
  match a with
  | AStore _ _ _ _ _ _ | ALoad _ | ARead _ _ | ALoadEnd _ | AAbort _ | AWorld _ => true
  | _ => false
  end.

Definition others (m : Moment) : list Action := filter (fun a => engine_only a = false) (mo_others m).

(** The same files. *)
Definition weather (m : Moment) (w : World) : World :=
  {| files := files w; faults := mo_faults m; volume := mo_volume m |}.

Section Service.
Context `{Visits} (reserve_memory : Z -> outcome unit).

Definition live (m : Moment) (s : System) : System :=
  run_from (others m) (default s (perform (AWorld (weather m (world (sys_cache s)))) s)).

(** Releasing the mutex: the others run; returns the memory available. *)
Definition pass : N Service (option Z) := fun v =>
  match sv_schedule v with
  | [] => Some (Ok None, v)
  | m :: rest => Some (Ok (mo_ram m), {| sv_system := live m (sv_system v); sv_schedule := rest |})
  end.

(** [wait(lock, ready)]. *)
Fixpoint wait_loop (ready : System -> bool) (schedule : list Moment) (s : System) : option Service :=
  if ready s then Some {| sv_system := s; sv_schedule := schedule |}
  else
    match schedule with
    | [] => None
    | m :: rest => wait_loop ready rest (live m s)
    end.

Definition wait (ready : Cache -> bool) : N Service unit := fun v =>
  match wait_loop (fun s => ready (sys_cache s)) (sv_schedule v) (sv_system v) with
  | Some v => Some (Ok tt, v)
  | None => None
  end.

(** A section of the engine's thread, as an action. *)
Definition act (a : Action) : N Service unit := fun v =>
  match perform a (sv_system v) with
  | Some s => Some (Ok tt, {| sv_system := s; sv_schedule := sv_schedule v |})
  | None => None
  end.

Definition cache_of (v : Service) : Cache := sys_cache (sv_system v).

(** A section that is a function on the cache. *)
Definition section {A} (m : M Cache A) : N Service A := fun v =>
  let '(r, c) := m (cache_of v) in
  Some (r, {| sv_system := at_cache c (sv_system v); sv_schedule := sv_schedule v |}).

Definition service_match (tokens key : list Z) (record_query : bool) : N Service PrefixMatch :=
  pass ≫= fun _ => section (match_prefix tokens key record_query).

Definition service_record_match (matched : Z) : N Service unit := pass ≫= fun _ => act (ARecord matched).

Definition service_load (hashes : list BlockHash) : N Service (list (list Z)) :=
  pass ≫= fun _ =>
  v ← read;
  let i := length (sys_loads (sv_system v)) in
  let job := (load_begin hashes (cache_of v)).1 in
  act (ALoad hashes) ≫= fun _ =>
  match reserve_memory (lj_bytes job) with
  | Throw e => pass ≫= fun _ => act (AAbort i) ≫= fun _ => raise e
  | Ok _ =>
      for_fold (seq 0 (length (lj_requests job))) (fun _ j => pass ≫= fun _ => act (ARead i j)) tt ≫= fun _ =>
      pass ≫= fun _ =>
      v ← read;
      match sys_loads (sv_system v) !! i with
      | Some l =>
          match all_read l with
          | Some cold =>
              let payloads := (load_finish (ld_job l) cold (cache_of v)).1 in
              act (ALoadEnd i) ≫= fun _ => mret payloads
          | None => never
          end
      | None => never
      end
  end.

Definition service_invalidate (hash : BlockHash) : N Service bool :=
  pass ≫= fun _ =>
  wait (invalidate_ready hash) ≫= fun _ =>
  v ← read;
  let removed := (invalidate hash (cache_of v)).1 in
  act (AInvalidate hash) ≫= fun _ => mret removed.

(** What [store] does once the mutex is released. An inline write is this thread's; its
    steps, like those of the writer, are in the schedule, and the call waits for them. *)
Definition after_store (after : AfterStore) : N Service unit :=
  match after with
  | Settled | Queued => mret tt
  | Drain => wait flushed
  | Inline r => wait (fun c => negb (has (wr_hash r) (pending c)))
  end.

Definition service_store (replace_existing : bool) (parent : BlockHash) (tokens : list Z) (payload : option (list Z))
    (key : list Z) : N Service BlockHash :=
  ram ← pass;
  v ← read;
  (match block_hash (space (config (cache_of v))) parent tokens key, payload with
   | Ok hash, Some _ => wait (store_ready hash replace_existing)
   | _, _ => mret tt
   end) ≫= fun _ =>
  v ← read;
  let result := (store parent tokens payload key replace_existing ram (cache_of v)).1 in
  act (AStore parent tokens payload key replace_existing ram) ≫= fun _ =>
  match result with
  | Ok (hash, after) => after_store after ≫= fun _ => mret hash
  | Throw e => raise e
  end.

(** A disposable memory tier writes what it evicts. *)
Definition drained : N Service unit :=
  v ← read; if spill_hot_on_eviction (config (cache_of v)) then wait flushed else mret tt.

(** An action of the engine's thread, and the value it leaves. *)
Definition acted {A} (a : Action) (value : Cache -> A) : N Service A :=
  v ← read;
  let result := value (cache_of v) in
  act a ≫= fun _ => mret result.

Definition service_trim_hot (target : Z) : N Service Z :=
  pass ≫= fun _ =>
  released ← acted (ATrim target) (fun c => (trim_hot target c).1);
  drained ≫= fun _ => mret (released : Z).

Definition service_set_hot_limit (max_bytes : Z) : N Service Z :=
  pass ≫= fun _ =>
  released ← acted (AHotLimit max_bytes) (fun c => (set_hot_limit max_bytes c).1);
  drained ≫= fun _ => mret (released : Z).

Definition service_set_disk_limit (max_bytes : Z) : N Service Z :=
  pass ≫= fun _ => acted (ADiskLimit max_bytes) (fun _ => 0).

Definition service_reserve_ram (allocation : Z) : N Service Z :=
  ram ← pass;
  v ← read;
  match reserve_target allocation ram (cache_of v) with
  | None => mret 0
  | Some target => service_trim_hot target
  end.

Definition service_refresh : N Service Z :=
  pass ≫= fun _ => wait quiescent ≫= fun _ => acted ARefresh (fun c => (refresh_disk_index c).1).

Definition service_clear : N Service Z :=
  pass ≫= fun _ =>
  wait clear_ready ≫= fun _ =>
  removed ← acted AClear (fun c => (clear_begin c).1);
  wait clear_end_ready ≫= fun _ =>
  act AClearEnd ≫= fun _ => mret (removed : Z).

#[export] Instance service_cache : PagedCache Service := {|
  paged_block_size v := block_size_tokens (space (config (cache_of v)));
  paged_match := service_match;
  paged_record_match := service_record_match;
  paged_load_prefix := service_load;
  paged_invalidate := service_invalidate;
  paged_store := service_store;
  paged_trim_hot := service_trim_hot;
  paged_set_hot_limit := service_set_hot_limit;
  paged_set_disk_limit := service_set_disk_limit;
  paged_reserve_ram := service_reserve_ram;
  paged_refresh := service_refresh;
  paged_clear := service_clear;
|}.
End Service.

(** ** Sequences in blocks *)

Lemma cut_fuel bs fuel fuel' tokens :
  (0 < bs)%nat -> (length tokens <= fuel)%nat -> (length tokens <= fuel')%nat -> cut fuel bs tokens = cut fuel' bs tokens.
Proof.
  intros Hbs. revert fuel' tokens. induction fuel as [|fuel IH]; intros fuel' [|t tokens] Hf Hf'; cbn in *; try lia.
  - by destruct fuel'.
  - by destruct fuel'.
  - destruct fuel' as [|fuel']; [lia|]. cbn [cut]. f_equal.
    apply IH; rewrite length_drop; cbn [length]; lia.
Qed.

Lemma segments_step bs tokens :
  0 < bs -> tokens <> [] -> segments bs tokens = take (Z.to_nat bs) tokens :: segments bs (drop (Z.to_nat bs) tokens).
Proof.
  intros Hbs Ht. unfold segments. destruct tokens as [|t tokens]; [done|]. cbn [length cut]. f_equal.
  apply cut_fuel; rewrite ?length_drop; cbn [length]; lia.
Qed.

Lemma segments_nil bs : segments bs [] = [].
Proof. done. Qed.

Lemma segments_join bs tokens : 0 < bs -> mjoin (segments bs tokens) = tokens.
Proof.
  intros Hbs. remember (length tokens) as k eqn:Hk. revert tokens Hk.
  induction k as [k IH] using lt_wf_ind. intros tokens ->. destruct tokens as [|t tokens]; [done|].
  rewrite segments_step by done. change (mjoin (?a :: ?b)) with (a ++ mjoin b).
  rewrite (IH (length (drop (Z.to_nat bs) (t :: tokens)))); [by rewrite take_drop| |done].
  rewrite length_drop. cbn [length]. lia.
Qed.

(** Blocks that are full but perhaps the last are those of their sequence. *)
Lemma segments_parts n fulls tail :
  0 < block_size_tokens n -> full_parts n fulls -> last_part n tail ->
  segments (block_size_tokens n) (mjoin (fulls ++ tail)) = fulls ++ tail.
Proof.
  intros Hbs Hf Ht. induction Hf as [|part fulls Hp _ IH]; cbn [app].
  - destruct Ht as [->|(part & -> & Hlen)]; [done|]. change (mjoin [part]) with (part ++ []). rewrite app_nil_r.
    unfold size_of in Hlen. rewrite segments_step by (done || (intros ->; cbn in Hlen; lia)). rewrite take_ge, drop_ge by lia. done.
  - change (mjoin (?a :: ?b)) with (a ++ mjoin b). unfold size_of in Hp.
    rewrite segments_step by (done || (destruct part; [cbn in Hp; lia|done])).
    rewrite take_app_length', drop_app_length' by lia. by rewrite IH.
Qed.

Lemma stored_chain_hashes n stored key parent parts hashes :
  stored_chain n stored key parent parts hashes -> hashes = chain_hashes n key parent parts.
Proof.
  induction 1 as [parent|parent part parts hash hashes b Hh _ _ _ _ IH]; [done|]. cbn [chain_hashes].
  apply block_hash_ok in Hh as [<- _]. by rewrite <- IH.
Qed.

Section Laws.
Context `{Visits} (reserve_memory : Z -> outcome unit).
#[local] Existing Instance service_cache.

Definition service_ok (v : Service) : Prop :=
  sys_ok (namespace (sv_system v)) (sv_system v) /\ 0 < block_size_tokens (namespace (sv_system v)) /\
  sys_foreign (sv_system v) = [].

Definition service_view : PagedView Service := {|
  view_ok := service_ok;
  view_space v := namespace (sv_system v);
  view_stored v := sys_stored (sv_system v);
|}.

Lemma sys_ok_namespace n s : sys_ok n s -> namespace s = n.
Proof. intros Hs. unfold namespace. apply counted_space, Hs. Qed.

Lemma since_system given v s schedule :
  service_ok v -> sys_ok (namespace (sv_system v)) s -> sys_stored (sv_system v) ⊆ sys_stored s ->
  sys_stored s ⊆ given ++ sys_stored (sv_system v) -> sys_foreign s = sys_foreign (sv_system v) ->
  since service_view given v {| sv_system := s; sv_schedule := schedule |}.
Proof.
  intros (Hok & Hbs & Hnone) Hs Hk Hst Hfo. pose proof (sys_ok_namespace _ _ Hs) as E.
  split; cbn; [|done..]. split_and!; cbn; by rewrite ?E, ?Hfo.
Qed.

Lemma no_new_contents w w' : files w = files w' -> new_contents w w' = [].
Proof.
  intros E. unfold new_contents. 
  assert (filter (fun x => files w !! x.1 <> Some x.2) (map_to_list (files w')) = []) as ->; [|done].
  destruct (filter _ _) as [|x l] eqn:El; [done|].
  assert (x ∈ filter (fun x => files w !! x.1 <> Some x.2) (map_to_list (files w'))) as Hx by (rewrite El; set_solver).
  apply list_elem_of_filter in Hx as [Hx Hin]. destruct x as [q contents]. apply elem_of_map_to_list in Hin.
  by rewrite E in Hx.
Qed.

(** What an action may store. *)
Definition given_by (a : Action) : list StoredBlock :=
  match a with
  | AStore parent tokens (Some p) extra _ _ =>
      [{| sb_parent := parent; sb_tokens := tokens; sb_extra := extra; sb_payload := p |}]
  | _ => []
  end.

Lemma action_history a s s' :
  (forall w, a = AWorld w -> files w = files (world (sys_cache s))) -> perform a s = Some s' ->
  sys_stored s ⊆ sys_stored s' /\ sys_stored s' ⊆ given_by a ++ sys_stored s /\ sys_foreign s' = sys_foreign s.
Proof.
  intros Hw Ha. destruct a; cbn [perform given_by] in Ha |- *; unfold do_store, do_read, guard_with in Ha;
    repeat (case_match; try done); simplify_eq; cbn; split_and!; try set_solver.
  by rewrite no_new_contents by (symmetry; by apply Hw).
Qed.

Lemma action_loads a s s' : engine_only a = false -> perform a s = Some s' -> sys_loads s' = sys_loads s.
Proof.
  intros He Ha. destruct a; try done; cbn [perform] in Ha; unfold guard_with in Ha;
    repeat (case_match; try done); by simplify_eq.
Qed.

Lemma others_none m a : a ∈ others m -> engine_only a = false.
Proof. intros Ha. by apply list_elem_of_filter in Ha as [? _]. Qed.

Lemma run_others l s n :
  sys_ok n s -> Forall (fun a => engine_only a = false) l ->
  let s' := run_from l s in
  sys_ok n s' /\ sys_stored s ⊆ sys_stored s' /\ sys_stored s' ⊆ sys_stored s /\ sys_foreign s' = sys_foreign s /\
  sys_loads s' = sys_loads s.
Proof.
  intros Hs Hl. revert s Hs. induction Hl as [|a l Ha _ IH]; intros s Hs; cbv zeta; [done|].
  change (run_from (a :: l) s) with (run_from l (default s (perform a s))).
  destruct (perform a s) as [s1|] eqn:E; [|by apply IH]. change (default s (Some s1)) with s1.
  pose proof (action_history a s s1 ltac:(by intros w ->) E) as (Hk & Hst & Hfo). pose proof (action_loads a s s1 Ha E) as Hld.
  destruct (IH s1 (perform_ok _ _ _ _ Hs E)) as (? & Hk' & Hst' & Hfo' & Hld').
  split; [done|]. split; [set_solver|]. split; [|split; [by rewrite Hfo'|by rewrite Hld']].
  assert (given_by a = []) as Hno by (by destruct a). rewrite Hno in Hst. set_solver.
Qed.

(** ** The steps of a call *)

Definition at_system (s : System) (schedule : list Moment) : Service := {| sv_system := s; sv_schedule := schedule |}.

(** The engine's loads are as they were. *)
Definition quietly (v v' : Service) : Prop :=
  since service_view [] v v' /\ sys_loads (sv_system v') = sys_loads (sv_system v).

Lemma quietly_refl v : service_ok v -> quietly v v.
Proof. intros Hv. split; [by apply since_refl|done]. Qed.

Lemma quietly_trans u v w : quietly u v -> quietly v w -> quietly u w.
Proof. intros [H1 E1] [H2 E2]. split; [by eapply since_then|congruence]. Qed.

Lemma others_quiet v m schedule :
  service_ok v -> quietly v (at_system (live m (sv_system v)) schedule).
Proof.
  intros Hv. pose proof Hv as (Hs & _). unfold live. set (s := sv_system v) in *.
  set (w := weather m (world (sys_cache s))). change (default s (perform (AWorld w) s)) with (found_files w s).
  pose proof (found_ok _ w s Hs) as H0.
  destruct (run_others (others m) (found_files w s) _ H0) as (H1 & H2 & H3 & H4 & H5).
  { apply Forall_forall. intros a. apply others_none. }
  split; [|done]. apply since_system; [done|done|done|done|]. rewrite H4. cbn. by rewrite no_new_contents.
Qed.

Lemma pass_spec v : service_ok v -> spec (eq v) pass (fun _ => quietly v) (quietly v).
Proof.
  intros Hv v' <-. unfold pass. destruct (sv_schedule v) as [|m rest]; [by apply quietly_refl|by apply others_quiet].
Qed.

Lemma wait_loop_spec ready schedule v :
  service_ok v ->
  match wait_loop ready schedule (sv_system v) with Some v' => quietly v v' | None => True end.
Proof.
  revert v. induction schedule as [|m rest IH]; intros v Hv; cbn [wait_loop].
  - destruct (ready _); [|done]. destruct v. split; [|done]. apply since_system; [done|apply Hv|done..].
  - destruct (ready _).
    { split; [|done]. apply since_system; [done|apply Hv|done..]. }
    pose proof (others_quiet v m rest Hv) as Hq. specialize (IH (at_system (live m (sv_system v)) rest)).
    cbn [at_system sv_system] in IH. specialize (IH (si_ok _ _ _ _ (proj1 Hq))).
    destruct (wait_loop _ _ _); [|done]. by eapply quietly_trans.
Qed.

Lemma wait_spec ready v : service_ok v -> spec (eq v) (wait ready) (fun _ => quietly v) (quietly v).
Proof.
  intros Hv v' <-. unfold wait. pose proof (wait_loop_spec (fun s => ready (sys_cache s)) (sv_schedule v) v Hv) as H1.
  by destruct (wait_loop _ _ _).
Qed.

Lemma act_spec a v :
  (forall w, a <> AWorld w) -> service_ok v -> spec (eq v) (act a) (fun _ v' => since service_view (given_by a) v v' /\
    perform a (sv_system v) = Some (sv_system v')) (fun _ => False).
Proof.
  intros Ha Hv v' <-. unfold act. destruct (perform a (sv_system v)) as [s|] eqn:E; [|done]. split; [|done].
  pose proof (action_history a _ _ ltac:(intros w Hw; by destruct (Ha w)) E) as (? & ? & ?). apply since_system; try done. by eapply perform_ok; [apply Hv|].
Qed.

Lemma section_spec {A} (m : M Cache A) v :
  service_ok v -> counted (namespace (sv_system v)) (m (cache_of v)).2 ->
  holds (namespace (sv_system v)) (sys_stored (sv_system v)) (sys_foreign (sv_system v)) (m (cache_of v)).2 ->
  spec (eq v) (section m) (fun a v' => since service_view [] v v' /\ (m (cache_of v)).1 = Ok a) (since service_view [] v).
Proof.
  intros Hv Hc Hg v' <-. unfold section.
  assert (since service_view [] v (at_system (at_cache (m (cache_of v)).2 (sv_system v)) (sv_schedule v))) as Hsince
    by (apply since_system; [done| |done..]; apply at_cache_ok; [apply Hv|done|done]).
  destruct (m (cache_of v)) as [[a|e] c]; [by split|done].
Qed.

(** ** The laws *)

Lemma since_space given v v' : since service_view given v v' -> namespace (sv_system v') = namespace (sv_system v).
Proof. intros H1. apply (si_space _ _ _ _ H1). Qed.

Lemma service_matchable v :
  service_ok v ->
  matchable (namespace (sv_system v)) (sys_stored (sv_system v)) (sys_foreign (sv_system v)) (cache_of v).
Proof. intros [Hs _]. by apply sys_matchable. Qed.

Lemma service_match_law v tokens key record :
  service_ok v -> Forall in_s64 tokens -> size_of key <= u64_max ->
  spec (eq v) (service_match tokens key record)
    (fun r v' => since service_view [] v v' /\
       exists prefix rest, tokens = prefix ++ rest /\ matched_tokens r = size_of prefix /\
         blocks r = chain_hashes (namespace (sv_system v)) key zero_hash
           (segments (block_size_tokens (namespace (sv_system v))) prefix))
    (since service_view [] v).
Proof.
  intros Hv Ht Hk. unfold service_match. eapply spec_seq; [by apply pass_spec|by intros ? [? _]|].
  intros _ v1 [Hq _]. pose proof (si_ok _ _ _ _ Hq) as Hv1. cbn in Hv1.
  rewrite <- (since_space _ _ _ Hq). pose proof Hv1 as (Hs1 & Hbs & _).
  pose proof (match_prefix_spec _ _ _ key (ok_compatible _ _ Hs1) (ok_typed _ _ Hs1) Hk tokens record _
    (service_matchable v1 Hv1) Ht Hbs) as Hm.
  eapply spec_weaken; [apply section_spec; [done|..]|done|..].
  - by destruct (match_prefix _ _ _ _) as [[?|?] ?]; apply Hm.
  - by destruct (match_prefix _ _ _ _) as [[?|?] ?]; apply Hm.
  - intros r v2 [Hsince Hr]. split; [by eapply since_then|].
    destruct (match_prefix _ _ _ _) as [[r'|?] c]; [|done]. cbn [fst] in Hr. injection Hr as ->.
    destruct Hm as (_ & fulls & tail & rest & Hparts & Hcount & Hf & Htl & Hchain).
    exists (mjoin (fulls ++ tail)), rest. split_and!; [done|done|].
    rewrite segments_parts by done. by eapply stored_chain_hashes.
  - intros v2 Hsince. by eapply since_then.
Qed.

(** A call that is one action between moments. *)
Lemma act_quiet a v :
  (forall w, a <> AWorld w) -> given_by a = [] -> service_ok v -> spec (eq v) (act a) (fun _ => since service_view [] v) (since service_view [] v).
Proof.
  intros Hw Ha Hv. eapply spec_weaken; [by apply act_spec|done| |done]. intros _ v' [H1 _]. by rewrite Ha in H1.
Qed.

Lemma acted_quiet {A} a (value : Cache -> A) v :
  (forall w, a <> AWorld w) -> given_by a = [] -> service_ok v -> spec (eq v) (acted a value) (fun _ => since service_view [] v) (since service_view [] v).
Proof.
  intros Hw Ha Hv. unfold acted. apply spec_seq_read. eapply spec_seq; [by apply act_quiet|done|].
  intros ? v' H1. by apply spec_done.
Qed.

(** What has happened since, before what happens next. *)
Lemma spec_since {A} given v v' (m : N Service A) (Q : A -> Service -> Prop) :
  since service_view given v v' ->
  spec (eq v') m (fun a w => since service_view [] v' w /\ Q a w) (since service_view [] v') ->
  spec (eq v') m (fun a w => since service_view given v w /\ Q a w) (since service_view given v).
Proof.
  intros H1 Hm. eapply spec_weaken; [exact Hm|done|..].
  - intros a w [H2 ?]. split; [by eapply since_then|done].
  - intros w H2. by eapply since_then.
Qed.

Lemma spec_since_only {A} given v v' (m : N Service A) :
  since service_view given v v' ->
  spec (eq v') m (fun _ => since service_view [] v') (since service_view [] v') ->
  spec (eq v') m (fun _ => since service_view given v) (since service_view given v).
Proof. intros H1 Hm. eapply spec_weaken; [exact Hm|done|..]; intros; by eapply since_then. Qed.

Lemma quiet_seq {A B} v (m : N Service A) (k : A -> N Service B) :
  service_ok v ->
  spec (eq v) m (fun _ => since service_view [] v) (since service_view [] v) ->
  (forall a, stores_nothing service_view (k a)) ->
  spec (eq v) (m ≫= k) (fun _ => since service_view [] v) (since service_view [] v).
Proof.
  intros Hv Hm Hk. eapply spec_seq; [exact Hm|done|]. intros a v' H1.
  apply (spec_since_only _ _ _ _ H1), Hk. apply (si_ok _ _ _ _ H1).
Qed.

Lemma pass_quiet : stores_nothing service_view pass.
Proof. intros v Hv. eapply spec_weaken; [by apply pass_spec|done|by intros ?? []|by intros ? []]. Qed.
Lemma wait_quiet ready : stores_nothing service_view (wait ready).
Proof. intros v Hv. eapply spec_weaken; [by apply wait_spec|done|by intros ?? []|by intros ? []]. Qed.
Lemma ret_quiet {A} (a : A) : stores_nothing service_view (mret a).
Proof. intros v Hv. apply spec_done. by apply since_refl. Qed.
Lemma stores_then {A B} (m : N Service A) (k : A -> N Service B) :
  stores_nothing service_view m -> (forall a, stores_nothing service_view (k a)) -> stores_nothing service_view (m ≫= k).
Proof. intros Hm Hk v Hv. apply quiet_seq; [done|by apply Hm|done]. Qed.
Lemma read_quiet {B} (k : Service -> N Service B) :
  (forall v, stores_nothing service_view (k v)) -> stores_nothing service_view (read ≫= k).
Proof. intros Hk v Hv. apply spec_seq_read. by apply Hk. Qed.
Lemma drained_quiet : stores_nothing service_view drained.
Proof. apply read_quiet. intros v. destruct (spill_hot_on_eviction _); [apply wait_quiet|apply ret_quiet]. Qed.

#[local] Hint Resolve pass_quiet wait_quiet ret_quiet drained_quiet stores_then read_quiet : quiet.
#[local] Hint Extern 1 (stores_nothing _ (act _)) => intros ??; by apply act_quiet : quiet.
#[local] Hint Extern 1 (stores_nothing _ (acted _ _)) => intros ??; by apply acted_quiet : quiet.

Ltac quiet := repeat first [solve [auto with quiet]|apply stores_then; [solve [auto with quiet]|intros ?]].

Lemma trim_hot_quiet target : stores_nothing service_view (service_trim_hot target).
Proof. unfold service_trim_hot. quiet. Qed.

Lemma reserve_ram_quiet bytes : stores_nothing service_view (service_reserve_ram bytes).
Proof.
  unfold service_reserve_ram. apply stores_then; [auto with quiet|intros ram]. apply read_quiet. intros v.
  destruct (reserve_target _ _ _); [apply trim_hot_quiet|auto with quiet].
Qed.

Lemma invalidate_quiet hash : stores_nothing service_view (service_invalidate hash).
Proof. unfold service_invalidate. do 2 (apply stores_then; [auto with quiet|intros ?]). apply read_quiet. intros v. quiet. Qed.

Lemma prefix_take_fewer {A} (l k : list A) j : prefix l k -> (j <= length l)%nat -> take j k = take j l.
Proof. intros [m ->] Hj. by rewrite take_app_le by done. Qed.

(** A load on its way, as the last of the loads, with its first [k] requests read. *)
Definition loading (before : list Loading) (job : LoadJob) (k : nat) (v : Service) : Prop :=
  exists cold, sys_loads (sv_system v) = before ++ [{| ld_job := job; ld_cold := cold |}] /\
    length cold = length (lj_requests job) /\ forall j, (j < k)%nat -> (j < length cold)%nat -> exists read, cold !! j = Some (Some read).

Lemma loading_same before job k v v' :
  sys_loads (sv_system v') = sys_loads (sv_system v) -> loading before job k v -> loading before job k v'.
Proof. intros E (cold & H1 & H2). exists cold. by rewrite E. Qed.

Lemma begin_load hashes v :
  service_ok v ->
  let job := (load_begin hashes (cache_of v)).1 in
  prefix (lr_hash <$> lj_requests job) hashes /\
  spec (eq v) (act (ALoad hashes))
    (fun _ v' => since service_view [] v v' /\ loading (sys_loads (sv_system v)) job 0 v') (fun _ => False).
Proof.
  intros Hv job. pose proof Hv as [Hs _]. split.
  - destruct (plan_loads_genuine _ _ _ hashes 0 _ (ok_genuine _ _ Hs)) as (_ & _ & Hp).
    subst job. unfold load_begin, cache_of. by destruct (plan_loads _ _ _) as [[? ?] ?].
  - eapply spec_weaken; [by apply act_spec|done| |done]. intros _ v' [H1 Ha]. split; [done|].
    cbn [perform] in Ha. subst job. unfold cache_of. destruct (load_begin _ _) as [job c].
    injection Ha as E. eexists. rewrite <- E. split; [done|]. split; [by rewrite length_replicate|lia].
Qed.

Lemma read_step_spec before job j v :
  service_ok v -> loading before job j v ->
  spec (eq v) (pass ≫= fun _ => act (ARead (length before) j))
    (fun _ v' => since service_view [] v v' /\ loading before job (S j) v') (since service_view [] v).
Proof.
  intros Hv Hl. eapply spec_seq; [by apply pass_spec|by intros ? []|]. intros ? v1 [H1 E1].
  eapply spec_weaken; [apply act_spec; [done|apply (si_ok _ _ _ _ H1)]|done| |done]. intros _ v2 [H2 Ha].
  split; [by eapply since_then|]. cbn [perform] in Ha. unfold do_read in Ha.
  destruct Hl as (cold & Hl & Hlen & Hread). rewrite E1, Hl, list_lookup_middle in Ha by done.
  cbn [ld_job] in Ha. destruct (lj_requests job !! j) eqn:Hj; [|done]. destruct (io _ _ _) as [read c]. injection Ha as E.
  exists (<[j := Some read]> cold). rewrite <- E. cbn. rewrite insert_app_r_alt, Nat.sub_diag by lia. split; [done|].
  rewrite length_insert. split; [done|]. intros i Hi Hc. destruct (decide (i = j)) as [->|Hne].
  - exists read. by rewrite list_lookup_insert_eq.
  - rewrite list_lookup_insert_ne by done. apply Hread; lia.
Qed.

Lemma end_load before job k v :
  service_ok v -> loading before job k v ->
  match sys_loads (sv_system v) !! length before with
  | Some l =>
      forall cold, all_read l = Some cold ->
      let payloads := (load_finish (ld_job l) cold (cache_of v)).1 in
      Forall2 (given_for (namespace (sv_system v)) (sys_stored (sv_system v)))
        (take (length payloads) (lr_hash <$> lj_requests job)) payloads
  | None => False
  end.
Proof.
  intros (Hs & _ & Hnone) (cold & Hl & _). rewrite Hl, list_lookup_middle by done. intros read Hread.
  pose proof (ok_loads _ _ Hs) as Hall. rewrite Hl in Hall. apply Forall_app in Hall as [_ Hall].
  apply Forall_cons in Hall as [Hall _]. 
  eapply Forall2_impl; [by apply (load_end_fine _ _ _ _ _ _ Hall Hread (ok_genuine _ _ Hs))|].
  intros h p [Hg|(contents & Hc & _)]; [done|]. rewrite Hnone in Hc. set_solver.
Qed.

(** The reads of a load, one after the other. *)
Lemma reads_spec before job k i v :
  service_ok v -> loading before job i v ->
  spec (eq v) (for_fold (seq i k) (fun _ j => pass ≫= fun _ => act (ARead (length before) j)) tt)
    (fun _ v' => since service_view [] v v' /\ loading before job (i + k) v') (since service_view [] v).
Proof.
  revert i v. induction k as [|k IH]; intros i v Hv Hl; cbn [seq for_fold].
  - rewrite Nat.add_0_r. apply spec_done. split; [by apply since_refl|done].
  - eapply spec_seq; [by apply (read_step_spec before job)|done|]. intros [] v1 [H1 Hl1].
    eapply spec_weaken; [apply (IH (S i)); [apply (si_ok _ _ _ _ H1)|done]|done|..].
    + intros ? v2 [H2 Hl2]. split; [by eapply since_then|]. by replace (i + S k)%nat with (S i + k)%nat by lia.
    + intros v2 H2. by eapply since_then.
Qed.

Ltac onward H := intros ? ?; eapply since_then; [exact H|eassumption].

Lemma service_load_law v hashes :
  service_ok v ->
  spec (eq v) (service_load reserve_memory hashes)
    (fun payloads v' => since service_view [] v v' /\
       Forall2 (given_for (namespace (sv_system v)) (sys_stored (sv_system v')))
         (take (length payloads) hashes) payloads)
    (since service_view [] v).
Proof.
  intros Hv. unfold service_load. eapply spec_seq; [by apply pass_quiet|done|]. intros ? v1 H1.
  apply spec_seq_read. pose proof (si_ok _ _ _ _ H1) as Hv1. destruct (begin_load hashes v1 Hv1) as [Hpre Hbegin].
  set (job := (load_begin hashes (cache_of v1)).1) in *. set (before := sys_loads (sv_system v1)) in *.
  eapply spec_seq; [exact Hbegin|done|]. intros ? v2 [H2 Hl2]. pose proof (si_ok _ _ _ _ H2) as Hv2.
  pose proof (since_then _ _ _ _ _ H1 H2) as H02.
  destruct (reserve_memory (lj_bytes job)) as [?|e].
  2: { eapply spec_seq; [by apply pass_quiet|onward H02|]. intros ? v3 H3.
       eapply spec_seq; [apply act_quiet; [done|done|apply (si_ok _ _ _ _ H3)]|onward (since_then _ _ _ _ _ H02 H3)|].
       intros ? v4 H4. apply spec_raised. apply (since_then _ _ _ _ _ (since_then _ _ _ _ _ H02 H3) H4). }
  eapply spec_seq; [by apply (reads_spec before job)|onward H02|].
  intros ? v3 [H3 Hl3]. pose proof (si_ok _ _ _ _ H3) as Hv3.
  pose proof (since_then _ _ _ _ _ H02 H3) as H03.
  eapply spec_seq; [by apply pass_spec|intros ? []; by eapply since_then|]. intros ? v4 [H4 E4].
  pose proof (si_ok _ _ _ _ H4) as Hv4. pose proof (since_then _ _ _ _ _ H03 H4) as H04.
  apply spec_seq_read.
  pose proof (end_load before job _ v4 Hv4 (loading_same _ _ _ _ _ E4 Hl3)) as Hend.
  destruct (sys_loads (sv_system v4) !! length before) as [l|]; [|done].
  destruct (all_read l) as [cold|] eqn:Hread; [|by intros ? ?]. specialize (Hend cold eq_refl).
  cbv zeta in Hend. set (payloads := (load_finish (ld_job l) cold (cache_of v4)).1) in *. clearbody payloads.
  eapply spec_seq; [by apply act_quiet|onward H04|].
  intros ? v5 H5. apply spec_done. split; [by eapply since_then|].
  assert (length payloads <= length (lr_hash <$> lj_requests job))%nat as Hlen
    by (apply Forall2_length in Hend; rewrite length_take in Hend; lia).
  rewrite (prefix_take_fewer _ _ _ Hpre Hlen). rewrite <- (since_space _ _ _ H04).
  eapply Forall2_impl; [exact Hend|]. intros h p (b & Hb & ?). exists b. split; [by apply (si_keeps _ _ _ _ H5)|done].
Qed.

Lemma store_result parent tokens payload key replace_existing ram c hash after :
  (store parent tokens payload key replace_existing ram c).1 = Ok (hash, after) ->
  is_Some payload /\ block_hash (space (config c)) parent tokens key = Ok hash.
Proof.
  unfold store, mbind, M_bind, get. destruct payload as [p|]; [|done].
  destruct (block_hash _ _ _ _) as [h|e]; [|done]. destruct (store_locked _ _ _ _ _ _ _ c) as [[a|e] c']; [|done].
  intros [= <- _]. done.
Qed.

Lemma after_store_quiet after : stores_nothing service_view (after_store after).
Proof. destruct after; cbn [after_store]; auto with quiet. Qed.

Lemma service_store_law v replace_existing parent tokens payload key :
  service_ok v ->
  spec (eq v) (service_store replace_existing parent tokens payload key)
    (fun hash v' => since service_view (given_by (AStore parent tokens payload key replace_existing None)) v v' /\
       is_Some payload /\ hash = sha256 (block_message (namespace (sv_system v)) parent tokens key))
    (since service_view (given_by (AStore parent tokens payload key replace_existing None)) v).
Proof.
  intros Hv. unfold service_store. set (given := given_by _).
  assert (forall w, since service_view [] v w -> since service_view given v w) as Hmore
    by (intros w; apply since_more; set_solver).
  eapply spec_seq; [by apply pass_quiet|done|]. intros ram v1 H1. apply spec_seq_read.
  eapply spec_seq.
  { instantiate (1 := since service_view [] v1). instantiate (1 := fun _ => since service_view [] v1).
    pose proof (si_ok _ _ _ _ H1). destruct (block_hash _ _ _ _), payload; by first [apply wait_quiet|apply ret_quiet]. }
  { intros w Hw. apply Hmore. by apply (since_then _ _ _ _ _ H1 Hw). }
  intros ? v2 H2. pose proof (since_then _ _ _ _ _ H1 H2) as H02. apply spec_seq_read.
  eapply spec_seq; [apply act_spec; [done|apply (si_ok _ _ _ _ H2)]|done|]. intros ? v3 [H3 _].
  replace (given_by (AStore parent tokens payload key replace_existing ram)) with given in H3 by done.
  assert (since service_view given v v3) as H03.
  { rewrite <- (app_nil_r given). by apply (since_trans _ _ _ _ _ _ H02). }
  destruct (store parent tokens payload key replace_existing ram (cache_of v2)).1 as [[hash after]|e] eqn:Hr;
    [|by apply spec_raised].
  apply store_result in Hr as [Hp Hh].
  eapply spec_seq; [apply after_store_quiet, (si_ok _ _ _ _ H3)|intros w Hw; by apply (since_then _ _ _ _ _ H03 Hw)|].
  intros ? v4 H4. apply spec_done. split; [by apply (since_then _ _ _ _ _ H03 H4)|]. split; [done|].
  apply block_hash_ok in Hh as [-> _]. by rewrite <- (since_space _ _ _ H02).
Qed.

#[export] Instance service_laws : @PagedLaws Service (service_cache reserve_memory).
Proof.
  refine {| view := service_view |}.
  - by intros v (_ & Hbs & _).
  - intros v tokens key record Hv Ht Hk. by apply service_match_law.
  - intros v hashes Hv. by apply service_load_law.
  - intros v replace_existing parent tokens payload key Hv given.
    eapply spec_weaken; [by apply (service_store_law v _ _ _ (Some payload))|done| |done].
    by intros hash v' (? & _ & ?).
  - intros v replace_existing parent tokens key Hv.
    eapply spec_weaken; [by apply (service_store_law v _ _ _ None)|done| |done].
    by intros hash v' (_ & [] & _).
  - intros matched. apply stores_then; [apply pass_quiet|]. intros ? v Hv. by apply act_quiet.
  - apply invalidate_quiet.
  - apply trim_hot_quiet.
  - intros limit. cbn. unfold service_set_hot_limit. quiet.
  - intros limit. cbn. unfold service_set_disk_limit. quiet.
  - apply reserve_ram_quiet.
  - cbn. unfold service_refresh. quiet.
  - cbn. unfold service_clear. quiet.
Defined.

(** *** Calls that need no other thread *)

Lemma pass_returns v : pass v <> None.
Proof. unfold pass. by destruct (sv_schedule v). Qed.

Lemma act_returns a v : perform a (sv_system v) <> None -> act a v <> None.
Proof. unfold act. by destruct (perform a _). Qed.

(** What was read of a load can be settled. *)
Lemma loading_read before job v :
  loading before job (length (lj_requests job)) v ->
  exists l cold, sys_loads (sv_system v) !! length before = Some l /\ all_read l = Some cold.
Proof.
  intros (cold & Hl & Hlen & Hread). exists {| ld_job := job; ld_cold := cold |}.
  assert (is_Some (all_read {| ld_job := job; ld_cold := cold |})) as [read ?].
  { apply mapM_is_Some, Forall_lookup. intros j x Hj. cbn [ld_cold] in Hj. pose proof (lookup_lt_Some _ _ _ Hj).
    destruct (Hread j) as [r Hr]; [lia..|]. rewrite Hj in Hr. injection Hr as ->. by exists r. }
  exists read. by rewrite Hl, list_lookup_middle.
Qed.

Lemma reads_return before job k i v :
  service_ok v -> loading before job i v -> (i + k <= length (lj_requests job))%nat ->
  for_fold (seq i k) (fun _ j => pass ≫= fun _ => act (ARead (length before) j)) tt v <> None.
Proof.
  revert i v. induction k as [|k IH]; intros i v Hv Hl Hk; cbn [seq for_fold]; [done|].
  eapply returns_seq; [|by apply (read_step_spec before job)|].
  - eapply returns_seq; [apply pass_returns|by apply pass_spec|]. intros ? v1 [H1 E1].
    apply act_returns. destruct (loading_same _ _ _ _ _ E1 Hl) as (cold & Hc & _). cbn [perform]. unfold do_read.
    rewrite Hc, list_lookup_middle by done. cbn [ld_job].
    destruct (lookup_lt_is_Some_2 (lj_requests job) i) as [r Hr]; [lia|]. rewrite Hr. by destruct (io _ _ _).
  - intros [] v1 [H1 Hl1]. apply IH; [apply (si_ok _ _ _ _ H1)|done|lia].
Qed.

Lemma service_load_returns v hashes : service_ok v -> service_load reserve_memory hashes v <> None.
Proof.
  intros Hv. unfold service_load. eapply returns_seq; [apply pass_returns|by apply pass_quiet|].
  intros ? v1 H1. pose proof (si_ok _ _ _ _ H1) as Hv1. destruct (begin_load hashes v1 Hv1) as [_ Hbegin].
  change ((read ≫= ?k) v1) with (k v1 v1). cbv beta zeta. set (job := (load_begin hashes (cache_of v1)).1) in *.
  set (before := sys_loads (sv_system v1)) in *.
  eapply returns_seq; [|exact Hbegin|].
  { apply act_returns. cbn [perform]. by destruct (load_begin hashes _). }
  intros ? v2 [H2 Hl2]. pose proof (si_ok _ _ _ _ H2) as Hv2. destruct (reserve_memory (lj_bytes job)) as [?|e].
  - eapply returns_seq; [by apply (reads_return before job)|by apply (reads_spec before job)|].
    intros ? v3 [H3 Hl3]. pose proof (si_ok _ _ _ _ H3) as Hv3.
    eapply returns_seq; [apply pass_returns|by apply pass_spec|]. intros _ v4 [H4 E4].
    pose proof (si_ok _ _ _ _ H4) as Hv4. change ((read ≫= ?k) v4) with (k v4 v4). cbv beta.
    destruct (loading_read before job v4 (loading_same _ _ _ _ _ E4 Hl3)) as (l & cold & Hl & Hc). rewrite Hl, Hc. cbv zeta.
    eapply returns_seq; [|by apply act_quiet|done]. apply act_returns. cbn [perform]. by rewrite Hl, Hc.
  - eapply returns_seq; [apply pass_returns|by apply pass_spec|]. intros ? v3 [H3 E3].
    eapply returns_seq; [|apply act_quiet; [done|done|apply (si_ok _ _ _ _ H3)]|done].
    apply act_returns. cbn [perform]. destruct (loading_same _ _ _ _ _ E3 Hl2) as (cold & Hc & _).
    by rewrite Hc, list_lookup_middle.
Qed.

#[export] Instance service_returns : @PagedReturns Service (service_cache reserve_memory) service_laws.
Proof.
  split.
  - intros v tokens key record Hv. apply (returns_seq _ _ _ (fun _ => quietly v) (quietly v)); [apply pass_returns|by apply pass_spec|].
    intros ? v1 ?. unfold section. by destruct (match_prefix _ _ _ _).
  - intros v matched Hv. apply (returns_seq _ _ _ (fun _ => quietly v) (quietly v)); [apply pass_returns|by apply pass_spec|].
    intros ? v1 ?. by apply act_returns.
  - intros v hashes Hv. by apply service_load_returns.
Qed.
End Laws.
