(* ===== verification/SessionCache.v ===== *)
(** * The session cache ([engine/include/session_cache.h])

    [SessionCache] joins the cache of snapshots ([SnapshotCache]), the paged prefix cache
    behind its interface ([PrefixService.PagedCache]) and the bindings of sessions to blocks
    ([SessionBindings]). Its template parameters are classes: [Backend] is the snapshot type
    and the codec of paged payloads, [Device] the model and the predictor it restores. An
    optional member of the backend ([requires] in the source) is an [option]. The log, the
    published metrics and [release_host_cache], which gives memory back to the system, are
    not modelled. *)

From stdpp Require Import base list strings gmap pretty.
From Stdlib Require Import ZArith Lia.
From S2P Require Import Prelude Returns SnapshotCache SessionBindings LittleEndian BlockFile PrefixCache PrefixService.

#[local] Set Default Proof Using "Type".
#[local] Open Scope Z_scope.

(** ** Template parameters *)

Class Backend (State MState : Type) `{SnapshotState State} := {
  input_key : State -> list Z;
  set_input_key : list Z -> State -> State;
  state_mtp : State -> option MState;
  is_state_error : exn -> bool;
  state_error : string -> exn;
  encode : State -> Z -> Z -> outcome (option (list Z));
  decode : list (list Z) -> list Z -> Z -> outcome State;
  decodable_blocks : option (list (list Z) -> outcome Z);
  token_count : option (list Z -> outcome Z);
  paged_mtp : option (State -> bool);
  paged_media : option (State -> bool);
  partial_blocks : option (State -> bool);
  checkpoint_needs_update : option (list Z -> State -> outcome bool);
}.

Class Device (D State MState Hidden : Type) := {
  supports_text_session_state : D -> bool;
  supports_paged_text_session_state : D -> bool;
  restore_text_session_state : State -> M D unit;
  reset_model : M D unit;
  mtp_supports_session_state : D -> bool;
  restore_session_state : MState -> M D unit;
  reset_mtp : M D unit;
  last_target_hidden : MState -> Hidden;
}.

(** The configuration the constructor reads. *)
Record PrefixConfig := { px_enabled : bool; px_disk_bytes : Z; px_hot_bytes : Z; px_ram_bytes : Z }.

Record Restore (Hidden : Type) := { re_tokens : Z; re_hidden : option Hidden }.
Arguments re_tokens {Hidden} _.
Arguments re_hidden {Hidden} _.

(** ** State

    [se_device] is the model and the predictor the calls are given. *)

Record Session (P D State : Type) := {
  se_snapshots : SnapshotCache.Cache State;
  se_paged : option P;
  se_bindings : Bindings;
  se_disk_budget : Z;
  se_hot_budget : Z;
  se_ram_budget : Z;
  se_supported : bool;
  se_disabled_reason : Z;
  se_native_hot : bool;
  se_anonymous : Z;
  se_device : D;
}.
Arguments se_snapshots {P D State} _.
Arguments se_paged {P D State} _.
Arguments se_bindings {P D State} _.
Arguments se_disk_budget {P D State} _.
Arguments se_hot_budget {P D State} _.
Arguments se_ram_budget {P D State} _.
Arguments se_supported {P D State} _.
Arguments se_disabled_reason {P D State} _.
Arguments se_native_hot {P D State} _.
Arguments se_anonymous {P D State} _.
Arguments se_device {P D State} _.

Section SessionCache.
Context {P D State MState Hidden : Type}.
Context `{PagedCache P} `{Backend State MState} `{Device D State MState Hidden}.
Context (iter : gmap string (list (SnapshotCache.Entry State)) -> list (string * list (SnapshotCache.Entry State))).
Context (visits : binding_order).

Abbreviation Sess := (Session P D State).
Abbreviation Rest := (Restore Hidden).

Definition set_snapshots (v : SnapshotCache.Cache State) (s : Sess) : Sess :=
  {| se_snapshots := v; se_paged := se_paged s; se_bindings := se_bindings s; se_disk_budget := se_disk_budget s;
     se_hot_budget := se_hot_budget s; se_ram_budget := se_ram_budget s; se_supported := se_supported s;
     se_disabled_reason := se_disabled_reason s; se_native_hot := se_native_hot s; se_anonymous := se_anonymous s;
     se_device := se_device s |}.
Definition set_paged (v : option P) (s : Sess) : Sess :=
  {| se_snapshots := se_snapshots s; se_paged := v; se_bindings := se_bindings s; se_disk_budget := se_disk_budget s;
     se_hot_budget := se_hot_budget s; se_ram_budget := se_ram_budget s; se_supported := se_supported s;
     se_disabled_reason := se_disabled_reason s; se_native_hot := se_native_hot s; se_anonymous := se_anonymous s;
     se_device := se_device s |}.
Definition set_bindings (v : Bindings) (s : Sess) : Sess :=
  {| se_snapshots := se_snapshots s; se_paged := se_paged s; se_bindings := v; se_disk_budget := se_disk_budget s;
     se_hot_budget := se_hot_budget s; se_ram_budget := se_ram_budget s; se_supported := se_supported s;
     se_disabled_reason := se_disabled_reason s; se_native_hot := se_native_hot s; se_anonymous := se_anonymous s;
     se_device := se_device s |}.
Definition set_budgets (disk hot ram : Z) (s : Sess) : Sess :=
  {| se_snapshots := se_snapshots s; se_paged := se_paged s; se_bindings := se_bindings s; se_disk_budget := disk;
     se_hot_budget := hot; se_ram_budget := ram; se_supported := se_supported s;
     se_disabled_reason := se_disabled_reason s; se_native_hot := se_native_hot s; se_anonymous := se_anonymous s;
     se_device := se_device s |}.
Definition set_anonymous (v : Z) (s : Sess) : Sess :=
  {| se_snapshots := se_snapshots s; se_paged := se_paged s; se_bindings := se_bindings s;
     se_disk_budget := se_disk_budget s; se_hot_budget := se_hot_budget s; se_ram_budget := se_ram_budget s;
     se_supported := se_supported s; se_disabled_reason := se_disabled_reason s; se_native_hot := se_native_hot s;
     se_anonymous := v; se_device := se_device s |}.
Definition set_device (v : D) (s : Sess) : Sess :=
  {| se_snapshots := se_snapshots s; se_paged := se_paged s; se_bindings := se_bindings s;
     se_disk_budget := se_disk_budget s; se_hot_budget := se_hot_budget s; se_ram_budget := se_ram_budget s;
     se_supported := se_supported s; se_disabled_reason := se_disabled_reason s; se_native_hot := se_native_hot s;
     se_anonymous := se_anonymous s; se_device := v |}.

Definition has_paged (s : Sess) : bool := match se_paged s with Some _ => true | None => false end.

(** With native snapshots on the device the paged cache is behind them, and they have the
    budget of its memory tier. *)
Definition make_session (snapshots : SessionSnapshotCacheConfig) (prefix : PrefixConfig) (paged : option P)
    (supported : bool) (disabled_reason : Z) (native_hot : bool) (device : D) : Sess :=
  let configuration :=
    if native_hot
    then {| max_sessions := max_sessions snapshots;
            max_snapshots_per_session := max_snapshots_per_session snapshots;
            max_bytes := if px_enabled prefix then px_hot_bytes prefix else 0 |}
    else snapshots in
  let present := match paged with Some _ => true | None => false end in
  {| se_snapshots := SnapshotCache.make configuration;
     se_paged := paged;
     se_bindings := SessionBindings.make present (max_sessions configuration);
     se_disk_budget := if present then px_disk_bytes prefix else 0;
     se_hot_budget := if present then px_hot_bytes prefix else 0;
     se_ram_budget := if present && native_hot then px_ram_bytes prefix else 0;
     se_supported := supported; se_disabled_reason := disabled_reason; se_native_hot := native_hot;
     se_anonymous := 0; se_device := device |}.

Definition persistent_prefix_enabled (s : Sess) : bool :=
  has_paged s || (se_native_hot s && se_supported s && SnapshotCache.enabled (se_snapshots s)).

(** ** Calls on the parts *)

(** The callers have tested the pointer. *)
Definition on_paged {A} (m : N P A) : N Sess A := fun s =>
  match se_paged s with
  | None => None
  | Some p => match m p with
              | Some (r, p) => Some (r, set_paged (Some p) s)
              | None => None
              end
  end.

Definition on_device {A} (m : M D A) : N Sess A := fun s =>
  let '(r, d) := m (se_device s) in Some (r, set_device d s).

Definition on_snapshots {A} (f : SnapshotCache.Cache State -> A * SnapshotCache.Cache State) : N Sess A := fun s =>
  let '(a, c) := f (se_snapshots s) in Some (Ok a, set_snapshots c s).

Definition on_bindings {A} (f : Bindings -> A * Bindings) : N Sess A := fun s =>
  let '(a, b) := f (se_bindings s) in Some (Ok a, set_bindings b s).

Definition bind_blocks (id : string) (blocks : list BlockHash) (tokens : Z) : N Sess unit :=
  on_bindings (fun b => (tt, SessionBindings.bind visits id blocks tokens b)).

Definition record_match (matched : Z) : N Sess unit := on_paged (paged_record_match matched).

(** [++anonymous_snapshots_]. *)
Definition next_anonymous : N Sess Z :=
  write (fun s => set_anonymous (u64 (se_anonymous s + 1)) s) ≫= fun _ => s ← read; mret (se_anonymous s).

Definition marker : string := String (Ascii.ascii_of_N 1) EmptyString.
Definition global_session : string := marker +:+ "prefix-global".

Definition snapshot_name (id : string) : N Sess string :=
  if bool_decide (id = EmptyString)
  then n ← next_anonymous; mret (marker +:+ "prefix-" +:+ pretty (Z.to_N n))
  else mret id.

Definition same_snapshot (saved candidate : State) : bool :=
  bool_decide (snap_tokens saved = snap_tokens candidate) && bool_decide (input_key saved = input_key candidate).

Definition store_snapshot (id : string) (st : State) : N Sess unit := fun s =>
  let '(r, c) := SnapshotCache.store iter id st same_snapshot (se_snapshots s) in
  Some (match r with Ok _ => Ok tt | Throw e => Throw e end, set_snapshots c s).

Definition nothing_restored : Rest := {| re_tokens := 0; re_hidden := None |}.

(** The model's state, and the predictor's if there is one. *)
Definition restore_device (mtp : bool) (st : State) (tokens : Z) : N Sess Rest :=
  on_device (restore_text_session_state st) ≫= fun _ =>
  if mtp then
    match state_mtp st with
    | None => never
    | Some m =>
        on_device (restore_session_state m) ≫= fun _ =>
        mret {| re_tokens := tokens; re_hidden := Some (last_target_hidden m) |}
    end
  else mret {| re_tokens := tokens; re_hidden := None |}.

Definition reset_device (mtp : bool) : N Sess unit :=
  on_device reset_model ≫= fun _ => if mtp then on_device reset_mtp else mret tt.

(** ** Restoring from the paged cache *)

(** The handler of [restore_paged]. *)
Definition fail (mtp : bool) (blocks : list BlockHash) (error : exn) : N Sess Rest :=
  (if is_state_error error
   then match last blocks with
        | Some block => on_paged (paged_invalidate block) ≫= fun _ => mret tt
        | None => mret tt
        end
   else mret tt) ≫= fun _ =>
  record_match 0 ≫= fun _ =>
  reset_device mtp ≫= fun _ => mret nothing_restored.

(** The tokens the payloads say they hold. *)
Fixpoint count_tokens (count_of : list Z -> outcome Z) (block_size limit matched : Z) (payloads : list (list Z)) :
    outcome Z :=
  match payloads with
  | [] => Ok matched
  | payload :: payloads =>
      count ← count_of payload;
      if (count =? 0) || (block_size <? count) || (limit - matched <? count)
      then Throw (state_error "invalid paged prefix token count")
      else count_tokens count_of block_size limit (matched + count) payloads
  end.

(** The body of the [try], once the blocks are those of the payloads. *)
Definition decode_and_restore (mtp : bool) (requested : string) (prompt key : list Z) (limit : Z)
    (payloads : list (list Z)) (blocks : list BlockHash) (matched block_size : Z) : N Sess Rest :=
  matched ← of_outcome (match token_count with
                        | Some count_of => count_tokens count_of block_size limit 0 payloads
                        | None => Ok matched
                        end);
  if limit <? matched then raise (state_error "paged prefix exceeds the requested prefix")
  else
    st ← of_outcome (decode payloads (take (Z.to_nat matched) prompt) block_size);
    let st := set_input_key key st in
    s ← read;
    if mtp && (negb (mtp_supports_session_state (se_device s)) || negb (bool_decide (is_Some (state_mtp st))))
    then record_match 0 ≫= fun _ => mret nothing_restored
    else
      restored ← restore_device mtp st matched;
      (if se_native_hot s then id ← snapshot_name requested; store_snapshot id st else mret tt) ≫= fun _ =>
      (if bool_decide (requested = EmptyString) then mret tt else bind_blocks requested blocks matched) ≫= fun _ =>
      record_match matched ≫= fun _ => mret (restored : Rest).

(** The rest of the body, with the payloads the codec can use: the blocks and tokens they
    leave of the match. *)
Definition restore_payloads (mtp : bool) (requested : string) (prompt key : list Z) (limit : Z)
    (found : PrefixMatch) (payloads : list (list Z)) (block_size : Z) : N Sess Rest :=
  match (match decodable_blocks with Some count => count payloads | None => Ok (size_of payloads) end) with
  | Throw e => fail mtp (blocks found) e
  | Ok count =>
      let payloads := resize (Z.to_nat count) [] payloads in
      if is_nil payloads
      then try_with (record_match 0 ≫= fun _ => mret nothing_restored) (fail mtp (blocks found))
      else
        let shorter := negb (size_of payloads =? size_of (blocks found)) in
        let blocks := if shorter then resize (length payloads) zero_hash (blocks found) else blocks found in
        let matched := if shorter then u64 (size_of payloads * block_size) else matched_tokens found in
        try_with (decode_and_restore mtp requested prompt key limit payloads blocks matched block_size)
          (fail mtp blocks)
  end.

Definition restore_paged (mtp : bool) (requested : string) (prompt : list Z) (maximum_prefix_tokens : Z) (key : list Z) :
    N Sess Rest :=
  s ← read;
  if (max_sessions (SnapshotCache.config (se_snapshots s)) =? 0) ||
     negb (supports_paged_text_session_state (se_device s)) || (size_of prompt <? 2)
  then mret nothing_restored
  else
    let limit := Z.min maximum_prefix_tokens (size_of prompt - 1) in
    found ← on_paged (paged_match (take (Z.to_nat limit) prompt) key false);
    if matched_tokens found =? 0 then record_match 0 ≫= fun _ => mret nothing_restored
    else
      payloads ← on_paged (paged_load_prefix (blocks found));
      if is_nil payloads then record_match 0 ≫= fun _ => mret nothing_restored
      else
        block_size ← on_paged (fun p => Some (Ok (paged_block_size p), p));
        restore_payloads mtp requested prompt key limit found payloads block_size.

(** ** Restoring *)

(** [*match.state]. *)
Definition match_state (m : SnapshotCache.Match) (c : SnapshotCache.Cache State) : option State :=
  history ← SnapshotCache.states c !! SnapshotCache.session_id m;
  SnapshotCache.state <$> history !! SnapshotCache.index m.

Definition record_hit (m : SnapshotCache.Match) : N Sess unit := fun s =>
  let '(r, c) := SnapshotCache.record_hit true m (se_snapshots s) in Some (r, set_snapshots c s).

Definition erase_match (m : SnapshotCache.Match) : N Sess unit :=
  on_snapshots (fun c => (tt, SnapshotCache.erase iter m c)).

(** A matched snapshot; the handler forgets one that could not be restored. *)
Definition restore_match (mtp : bool) (m : SnapshotCache.Match) : N Sess Rest :=
  s ← read;
  match match_state m (se_snapshots s) with
  | None => never
  | Some st =>
      let tokens := size_of (snap_tokens st) in
      try_with
        (restored ← restore_device mtp st tokens;
         record_hit m ≫= fun _ =>
         (if has_paged s && se_native_hot s then record_match tokens else mret tt) ≫= fun _ =>
         mret (restored : Rest))
        (fun _ => erase_match m ≫= fun _ => reset_device mtp ≫= fun _ => mret nothing_restored)
  end.

Definition eligible (mtp : bool) (key : list Z) (d : D) (st : State) : bool :=
  bool_decide (input_key st = key) &&
  (negb mtp || (mtp_supports_session_state d && bool_decide (is_Some (state_mtp st)))).

Definition restore_snapshot (mtp : bool) (requested : string) (prompt : list Z) (maximum_prefix_tokens : Z)
    (key : list Z) : N Sess Rest :=
  s ← read;
  if negb (supports_text_session_state (se_device s)) then mret nothing_restored
  else
    let session := if se_native_hot s && bool_decide (requested = EmptyString) then global_session else requested in
    found ← on_snapshots (SnapshotCache.find_best iter session prompt maximum_prefix_tokens
                            (eligible mtp key (se_device s)));
    match found : option SnapshotCache.Match with
    | Some m => restore_match mtp m
    | None =>
        if has_paged s && se_native_hot s
        then restore_paged mtp requested prompt maximum_prefix_tokens key
        else mret nothing_restored
    end.

Definition restore_best (mtp : bool) (requested : string) (prompt : list Z) (maximum_prefix_tokens : Z)
    (key : list Z) : N Sess Rest :=
  s ← read;
  if negb (se_supported s) then mret nothing_restored
  else if has_paged s && negb (se_native_hot s) then
    restored ← restore_paged mtp requested prompt maximum_prefix_tokens key;
    if negb (re_tokens restored =? 0) then mret (restored : Rest)
    else restore_snapshot mtp requested prompt maximum_prefix_tokens key
  else restore_snapshot mtp requested prompt maximum_prefix_tokens key.

(** ** Storing *)

Definition is_partial (st : State) : bool := match partial_blocks with Some f => f st | None => false end.

(** The tokens of block [index]. *)
Definition block_tokens (tokens : list Z) (block_size index : Z) : list Z :=
  take (Z.to_nat (Z.min block_size (size_of tokens - index * block_size))) (drop (Z.to_nat (index * block_size)) tokens).

Definition store_block (replace_existing : bool) (st : State) (block_size : Z) (parent : BlockHash) (index : Z) :
    N Sess BlockHash :=
  payload ← of_outcome (encode st block_size index);
  on_paged (paged_store replace_existing parent (block_tokens (snap_tokens st) block_size index) payload (input_key st)).

(** The blocks from [first] on. *)
Definition store_blocks (st : State) (block_size : Z) (blocks : list BlockHash) (full_blocks : Z) :
    N Sess (list BlockHash) :=
  for_fold (seqZ (size_of blocks) (full_blocks - size_of blocks))
    (fun blocks index =>
       parent ← store_block false st block_size (default zero_hash (last blocks)) index;
       mret (blocks ++ [parent : BlockHash])) blocks.

(** The last block, stored before, gets the checkpoint of this state. *)
Definition refresh_checkpoint (st : State) (block_size : Z) (blocks : list BlockHash) (full_blocks : Z) : N Sess unit :=
  match checkpoint_needs_update with
  | None => mret tt
  | Some needs_update =>
      final ← on_paged (paged_load_prefix [default zero_hash (last blocks)]);
      needed ← of_outcome (match head (final : list (list Z)) with
                           | Some payload => needs_update payload st
                           | None => Ok true
                           end);
      if negb (needed : bool) then mret tt
      else
        let index := full_blocks - 1 in
        let previous := default zero_hash (last (removelast blocks)) in
        refreshed ← store_block true st block_size previous index;
        if bool_decide ((refreshed : BlockHash) = default zero_hash (last blocks)) then mret tt
        else raise (RuntimeError "prefix checkpoint changed block identity")
  end.

(** The blocks of the state that are in the cache: a shorter tail is no parent of a block. *)
Definition known_blocks (existing : PrefixMatch) (tokens : list Z) (block_size : Z) : list BlockHash :=
  if matched_tokens existing =? size_of tokens then blocks existing
  else take (Z.to_nat (Z.min (size_of (blocks existing)) (matched_tokens existing / block_size))) (blocks existing).

Definition full_blocks_of (st : State) (block_size : Z) : Z :=
  let count := size_of (snap_tokens st) in
  count / block_size + (if is_partial st && negb (count mod block_size =? 0) then 1 else 0).

Definition store_paged (id : string) (st : State) : N Sess unit :=
  s ← read;
  if (max_sessions (SnapshotCache.config (se_snapshots s)) =? 0) || is_nil (snap_tokens st) then mret tt
  else
    block_size ← on_paged (fun p => Some (Ok (paged_block_size p), p));
    let full_blocks := full_blocks_of st block_size in
    if full_blocks =? 0 then mret tt
    else
      existing ← on_paged (paged_match (snap_tokens st) (input_key st) false);
      let known := known_blocks existing (snap_tokens st) block_size in
      if full_blocks <? size_of known then raise (RuntimeError "paged prefix match exceeds the session state")
      else
        blocks ← store_blocks st block_size known full_blocks;
        (if size_of known =? full_blocks then refresh_checkpoint st block_size known full_blocks else mret tt) ≫= fun _ =>
        if bool_decide (id = EmptyString) then mret tt
        else bind_blocks id blocks (if is_partial st then size_of (snap_tokens st) else full_blocks * block_size).

Definition flag (f : option (State -> bool)) (st : State) : bool := match f with Some f => f st | None => false end.

Definition store (id : string) (st : State) : N Sess unit :=
  s ← read;
  if negb (se_supported s) then mret tt
  else
    let paged := has_paged s && (is_nil (input_key st) || flag paged_media st) &&
                 (negb (bool_decide (is_Some (state_mtp st))) || flag paged_mtp st) in
    (if paged then store_paged id st else mret tt) ≫= fun _ =>
    if paged && negb (se_native_hot s) then mret tt
    else
      s ← read;
      if (negb (se_native_hot s) && bool_decide (id = EmptyString)) || negb (SnapshotCache.enabled (se_snapshots s))
      then mret tt
      else if max_bytes (SnapshotCache.config (se_snapshots s)) <? snap_bytes st then mret tt
      else
        name ← (if se_native_hot s then snapshot_name id else mret id);
        store_snapshot name st.

(** ** Sessions and limits *)

Definition fork_session (source target : string) : N Sess Z :=
  copied_paged ← on_bindings (SessionBindings.fork visits source target);
  copied_snapshots ← on_snapshots (SnapshotCache.fork iter source target);
  mret (copied_snapshots + copied_paged).

Definition close_session (id : string) : N Sess Z :=
  released_paged ← on_bindings (SessionBindings.close visits id);
  released ← on_snapshots (SnapshotCache.close iter id);
  mret (closed_snapshots released + released_paged).

Definition clear_live_sessions : N Sess Z :=
  snapshots ← on_snapshots (SnapshotCache.clear iter);
  bindings ← on_bindings (SessionBindings.clear visits);
  mret (snapshots + bindings).

Definition clear : N Sess Z :=
  snapshots ← on_snapshots (SnapshotCache.clear iter);
  on_bindings (SessionBindings.clear visits) ≫= fun _ =>
  s ← read;
  if has_paged s then removed ← on_paged paged_clear; mret (snapshots + removed) else mret snapshots.

Definition trim_hot (target : Z) : N Sess Z :=
  s ← read;
  if se_native_hot s then on_snapshots (SnapshotCache.trim iter target)
  else if has_paged s then on_paged (paged_trim_hot target)
  else mret 0.

Definition set_hot_budget (v : Z) (s : Sess) : Sess := set_budgets (se_disk_budget s) v (se_ram_budget s) s.

Definition set_hot_limit (limit : Z) : N Sess Z :=
  s ← read;
  if se_native_hot s then
    write (set_hot_budget limit) ≫= fun _ => on_snapshots (SnapshotCache.set_limit iter limit)
  else if negb (has_paged s) then mret 0
  else write (set_hot_budget limit) ≫= fun _ => on_paged (paged_set_hot_limit limit).

Definition set_disk_limit (limit : Z) : N Sess Z :=
  s ← read;
  if negb (has_paged s) then mret 0
  else
    write (fun s => set_budgets limit (se_hot_budget s) (se_ram_budget s) s) ≫= fun _ =>
    on_paged (paged_set_disk_limit limit).

Definition set_ram_limit (limit : Z) : N Sess Z :=
  s ← read;
  if negb (has_paged s) || negb (se_native_hot s) then mret 0
  else
    write (fun s => set_budgets (se_disk_budget s) (se_hot_budget s) limit s) ≫= fun _ =>
    on_paged (paged_set_hot_limit limit).

Definition reserve_ram (bytes : Z) : N Sess unit :=
  s ← read;
  if has_paged s && se_native_hot s then on_paged (paged_reserve_ram bytes) ≫= fun _ => mret tt else mret tt.

Definition refresh_disk_index : N Sess Z :=
  s ← read;
  if negb (has_paged s) then mret 0 else on_paged paged_refresh.

End SessionCache.
