(* ===== verification/SessionCacheLaws.v ===== *)
(** * What the session cache restores

    [restored_is_computed]: whatever [SessionCache.restore_best] gives the model, from a
    snapshot or decoded from blocks of the paged cache, is the state of having computed
    exactly the first tokens of the prompt, and a restore that fails leaves the device as it
    was or reset. It is proved against the interface [PrefixService.PagedLaws], for any
    codec that decodes what it encoded. *)

From stdpp Require Import base list sets strings gmap pretty.
From Stdlib Require Import ZArith Lia.
From S2P Require Import Prelude Returns Sha256 SnapshotCache SessionBindings LittleEndian BlockFile PrefixCache PrefixCacheSteps PrefixService SessionCache.

#[local] Set Default Proof Using "Type".
#[local] Open Scope Z_scope.

(** ** What every snapshot satisfies *)

Section Snapshots.
Context {State : Type} `{SnapshotState State} (iter : gmap string (list (Entry State)) -> list (string * list (Entry State))).
Context (Q : State -> Prop).
Implicit Types c : SnapshotCache.Cache State.

Definition all_states c : Prop :=
  forall id h e, SnapshotCache.states c !! id = Some h -> e ∈ h -> Q (SnapshotCache.state e).

(** Same sessions, or fewer snapshots. *)
Definition fewer (m m' : gmap string (list (Entry State))) : Prop :=
  forall id h' e, m' !! id = Some h' -> e ∈ h' -> exists h, m !! id = Some h /\ e ∈ h.

Lemma fewer_states c c' : fewer (SnapshotCache.states c) (SnapshotCache.states c') -> all_states c -> all_states c'.
Proof. intros Hf Hc id h' e Hh He. destruct (Hf id h' e Hh He) as (h & Hh' & He'). by apply (Hc id h e). Qed.

Lemma fewer_refl m : fewer m m.
Proof. intros id h e Hh He. by exists h. Qed.

Lemma delete_fewer id m : fewer m (delete id m).
Proof. intros k h e. rewrite lookup_delete_Some. intros [_ Hh] He. by exists h. Qed.

Lemma erase_states id i c : all_states c -> all_states (erase_snapshot iter id i c).
Proof.
  unfold erase_snapshot. destruct (SnapshotCache.states c !! id) as [h|] eqn:Hh; [|done].
  destruct (h !! i) as [e|]; [|done]. apply fewer_states. cbn. case_bool_decide; [apply delete_fewer|].
  intros k h' x. rewrite lookup_insert_Some. intros [[<- <-]|[_ Hk]] Hx; [|by exists h'].
  exists h. split; [done|]. eapply elem_of_sublist; [exact Hx|]. apply sublist_delete.
Qed.

Lemma close_states id c : all_states c -> all_states (SnapshotCache.close iter id c).2.
Proof.
  unfold SnapshotCache.close. destruct (SnapshotCache.states c !! id); [|done]. apply fewer_states, delete_fewer.
Qed.

Lemma evict_history_states id t c : all_states c -> all_states (evict_history_to_limit iter id t c).
Proof.
  unfold evict_history_to_limit. generalize (length (default [] (SnapshotCache.states c !! id))) as fuel.
  intros fuel. revert c. induction fuel as [|fuel IH]; intros c Hc; cbn [evict_history_loop]; [done|].
  destruct (SnapshotCache.states c !! id); [|done]. destruct (_ <? _); [|done].
  destruct (history_victim t l) as [[victim ?]|]; [|done]. by apply IH, erase_states.
Qed.

Lemma evict_budget_states id t c : all_states c -> all_states (evict_to_budget iter id t c).
Proof.
  unfold evict_to_budget. set (c1 := evict_sessions_loop _ _ _ _). intros Hc.
  assert (all_states c1) as H1.
  { subst c1. generalize (base.size (SnapshotCache.states c)) as fuel. intros fuel. revert c Hc.
    induction fuel as [|fuel IH]; intros c Hc; cbn [evict_sessions_loop]; [done|].
    destruct (_ <? _); [|done]. destruct (session_victim _ _ _) as [[victim ?]|]; [|done]. by apply IH, close_states. }
  clearbody c1. generalize (length (all_snapshots iter (SnapshotCache.states c1))) as fuel. intros fuel. revert c1 H1.
  induction fuel as [|fuel IH]; intros c1 H1; cbn [evict_bytes_loop]; [done|].
  destruct (_ <? _); [|done]. destruct (snapshot_victim _ _ _ _) as [[? [? ?]]|]; [|done]. by apply IH, erase_states.
Qed.

Lemma insert_states id h c b :
  (forall e, e ∈ h -> Q (SnapshotCache.state e)) -> all_states c ->
  all_states (SnapshotCache.set_store (<[id := h]> (SnapshotCache.states c)) b c).
Proof.
  intros Hh Hc k h' e. cbn. rewrite lookup_insert_Some. intros [[<- <-]|[_ Hk]] He; [by apply Hh|by apply (Hc k h')].
Qed.

Lemma store_states id st same c : Q st -> all_states c -> all_states (SnapshotCache.store iter id st same c).2.
Proof.
  intros Hst Hc. unfold SnapshotCache.store. destruct (_ || _); [done|].
  set (t := u64 (SnapshotCache.clock c + 1)). set (entry := {| SnapshotCache.state := st; SnapshotCache.last_used := t |}).
  change (SnapshotCache.states (SnapshotCache.set_clock t c)) with (SnapshotCache.states c).
  set (h := default [] (SnapshotCache.states c !! id)).
  assert (forall e, e ∈ h -> Q (SnapshotCache.state e)) as Hh.
  { intros e He. subst h. destruct (SnapshotCache.states c !! id) eqn:E; [by apply (Hc id l)|set_solver]. }
  match goal with |- context [let '(history, b) := ?p in _] => destruct p as [h' b] eqn:Ep end.
  assert (forall e, e ∈ h' -> Q (SnapshotCache.state e)) as Hh'.
  { destruct (list_find _ h) as [[i saved]|]; injection Ep as <- _; intros e He.
    - apply list_elem_of_lookup in He as [j Hj]. apply list_lookup_insert_Some in Hj as [(_ & <- & _)|[_ Hj]]; [done|].
      apply Hh. by apply list_elem_of_lookup_2 in Hj.
    - apply elem_of_app in He as [He|He%list_elem_of_singleton]; [by apply Hh|by subst e]. }
  pose proof (insert_states id h' (SnapshotCache.set_clock t c) b Hh' Hc) as H1.
  set (c1 := SnapshotCache.set_store _ _ _) in *. destruct (list_find _ h') as [[? stored]|]; [|done].
  set (c2 := SnapshotCache.sync_metrics _ _).
  assert (all_states c2) as H2 by (apply evict_budget_states, evict_history_states; exact H1). clearbody c2.
  destruct (SnapshotCache.states c2 !! id); [|done]. by destruct (list_find _ l) as [[? ?]|].
Qed.

Lemma record_hit_states b m c : all_states c -> all_states (SnapshotCache.record_hit b m c).2.
Proof.
  intros Hc. unfold SnapshotCache.record_hit. destruct (SnapshotCache.states c !! session_id m) as [h|] eqn:Hh; [|done].
  destruct (h !! index m) as [e|] eqn:He; [|done]. destruct (negb b); [done|]. cbn [snd].
  apply (insert_states (session_id m) (<[index m := _]> h) c); [|done]. intros x Hx.
  apply list_elem_of_lookup in Hx as [j Hj]. apply list_lookup_insert_Some in Hj as [(_ & <- & _)|[_ Hj]].
  - apply (Hc (session_id m) h e Hh). by apply list_elem_of_lookup_2 in He.
  - apply (Hc (session_id m) h x Hh). by apply list_elem_of_lookup_2 in Hj.
Qed.

Lemma fork_copies_states t b l : forall e, e ∈ (fork_copies t b l).1.1 -> SnapshotCache.state e ∈ SnapshotCache.state <$> l.
Proof.
  revert t b. induction l as [|x l IH]; intros t b e; cbn [fork_copies]; [set_solver|].
  specialize (IH (u64 (t + 1)) (u64 (b + entry_bytes x))).
  destruct (fork_copies _ _ l) as [[rest t'] b']. cbn [fst] in *. intros [->|He]%elem_of_cons; [cbn; set_solver|].
  rewrite fmap_cons. apply elem_of_cons. right. by apply IH.
Qed.

Lemma fork_states source target c : all_states c -> all_states (SnapshotCache.fork iter source target c).2.
Proof.
  intros Hc. unfold SnapshotCache.fork. destruct (_ || _); [done|].
  destruct (SnapshotCache.states c !! source) as [copied|] eqn:Hs; [|done].
  pose proof (close_states target c Hc) as H1. set (c1 := (SnapshotCache.close iter target c).2) in *. clearbody c1.
  pose proof (fork_copies_states (SnapshotCache.clock c1) (SnapshotCache.bytes c1) copied) as Hcopy.
  destruct (fork_copies _ _ copied) as [[target' t] b]. cbn [fst] in Hcopy. cbv zeta. cbn [snd].
  apply evict_budget_states, evict_history_states, (insert_states target target' c1 b); [|done].
  intros e He. apply Hcopy in He. apply list_elem_of_fmap in He as (x & -> & Hx). by apply (Hc source copied).
Qed.

Lemma clear_states c : all_states c -> all_states (SnapshotCache.clear iter c).2.
Proof. intros _ id h e. cbn. by rewrite lookup_empty. Qed.

Lemma trim_states n c : all_states c -> all_states (SnapshotCache.trim iter n c).2.
Proof. intros Hc. apply evict_budget_states. exact Hc. Qed.

Lemma set_limit_states n c : all_states c -> all_states (SnapshotCache.set_limit iter n c).2.
Proof. intros Hc. by apply trim_states. Qed.

(** What a match is. *)
Lemma selected_candidate req prompt limit eligible l :
  let '(id, i, _) := foldl (select_step req prompt limit eligible) (EmptyString, O, 0) l in
  id = EmptyString \/ exists e, (id, (i, e)) ∈ l /\ matches prompt limit eligible (SnapshotCache.state e).
Proof.
  induction l as [|x l IH] using rev_ind; [by left|]. rewrite foldl_snoc.
  destruct (foldl _ _ _) as [[id i] n]. destruct x as [id' [i' e]]. cbn [select_step].
  assert (id = EmptyString \/ exists e0, (id, (i, e0)) ∈ l ++ [(id', (i', e))] /\
    matches prompt limit eligible (SnapshotCache.state e0)) as Hold by (destruct IH as [?|(e0 & ? & ?)]; [by left|right; exists e0; set_solver]).
  destruct (prefix_candidate prompt limit eligible (SnapshotCache.state e)) eqn:Hc; cbn [negb orb]; [|done].
  destruct (_ <? n); [done|]. destruct (_ || _); [|done]. right. exists e. split; [set_solver|].
  by apply prefix_candidate_spec.
Qed.

Lemma find_best_match req prompt limit eligible c m :
  (forall m, iter m ≡ₚ map_to_list m) -> (find_best iter req prompt limit eligible c).1 = Some m ->
  exists st, match_state m (find_best iter req prompt limit eligible c).2 = Some st /\ matches prompt limit eligible st.
Proof.
  intros Hp. unfold find_best. destruct (_ || _); [done|].
  pose proof (selected_candidate req prompt limit eligible (all_snapshots iter (SnapshotCache.states c))) as Hsel.
  cbn [SnapshotCache.states SnapshotCache.set_stats].
  destruct (foldl _ _ _) as [[id i] n]. case_bool_decide; [done|]. intros [= <-].
  destruct Hsel as [?|(e & He & Hm)]; [done|]. exists (SnapshotCache.state e). split; [|done].
  apply all_snapshots_elem in He as (h & Hh & He); [|done]. unfold match_state. cbn. by rewrite Hh; cbn; rewrite He.
Qed.

Lemma find_best_states req prompt limit eligible c :
  all_states c -> all_states (find_best iter req prompt limit eligible c).2.
Proof.
  intros Hc. unfold find_best. destruct (_ || _); [done|]. destruct (foldl _ _ _) as [[? ?] ?]. by case_bool_decide.
Qed.

Lemma match_state_holds m c st : all_states c -> match_state m c = Some st -> Q st.
Proof.
  intros Hc. unfold match_state. destruct (SnapshotCache.states c !! session_id m) as [h|] eqn:Hh; cbn; [|done].
  destruct (h !! index m) as [e|] eqn:He; cbn; [|done]. intros [= <-].
  apply (Hc (session_id m) h e Hh). by apply list_elem_of_lookup_2 in He.
Qed.
End Snapshots.

(** ** Blocks of a prefix *)

#[local] Opaque sha256 block_message.

Section Blocks.
Context (n : Namespace) (Hbs : 0 < block_size_tokens n).
#[local] Set Default Proof Using "All".
#[local] Notation bs := (block_size_tokens n).
#[local] Notation B := (Z.to_nat (block_size_tokens n)).

(** The tokens through block [j]. *)
Definition upto (j : nat) (tokens : list Z) : list Z := take (S j * B) tokens.

Definition prefix_hash (key tokens : list Z) : BlockHash := chain_hash n key zero_hash (segments bs tokens).

Lemma segments_take j tokens : take j (segments bs tokens) = segments bs (take (j * B) tokens).
Proof.
  revert tokens. induction j as [|j IH]; intros tokens; [done|]. destruct tokens as [|t tokens]; [by rewrite take_nil|].
  rewrite (segments_step bs (t :: tokens)) by done. cbn [take].
  rewrite (segments_step bs (take (S j * B) (t :: tokens))) by (done || (destruct B eqn:E; [lia|done])).
  rewrite IH, take_take, skipn_firstn_comm. f_equal; [f_equal; lia|]. f_equal. f_equal. lia.
Qed.

Lemma segments_lookup j tokens :
  segments bs tokens !! j = if (j * B <? length tokens)%nat then Some (take B (drop (j * B) tokens)) else None.
Proof.
  revert tokens. induction j as [|j IH]; intros tokens; (destruct tokens as [|t tokens]; [by rewrite segments_nil|]);
    rewrite segments_step by done; [done|].
  cbn [lookup list_lookup]. rewrite IH, length_drop, drop_drop.
  replace (B + j * B)%nat with (S j * B)%nat by lia.
  destruct (Nat.ltb_spec (j * B) (length (t :: tokens) - B)), (Nat.ltb_spec (S j * B) (length (t :: tokens))); try done; lia.
Qed.

(** The number of blocks of a sequence. *)
Lemma segments_bound j tokens : (j < length (segments bs tokens))%nat <-> (j * B < length tokens)%nat.
Proof.
  rewrite <- lookup_lt_is_Some, segments_lookup. destruct (Nat.ltb_spec (j * B) (length tokens)); [by split; eauto|].
  split; [by intros [? [=]]|lia].
Qed.

Lemma chain_hashes_lookup key parent parts j :
  chain_hashes n key parent parts !! j =
  if (j <? length parts)%nat then Some (chain_hash n key parent (take (S j) parts)) else None.
Proof.
  revert parent j. induction parts as [|part parts IH]; intros parent j; [done|].
  destruct j as [|j]; [reflexivity|]. cbn [chain_hashes lookup list_lookup]. rewrite IH. done.
Qed.

Lemma chain_hashes_length key parent parts : length (chain_hashes n key parent parts) = length parts.
Proof. revert parent. induction parts as [|part parts IH]; intros parent; [done|]. cbn. by rewrite IH. Qed.

(** The hashes of the blocks of a sequence are those of its prefixes. *)
Lemma block_prefix_hash key tokens j :
  chain_hashes n key zero_hash (segments bs tokens) !! j =
  if (j * B <? length tokens)%nat then Some (prefix_hash key (upto j tokens)) else None.
Proof.
  rewrite chain_hashes_lookup. unfold prefix_hash, upto. rewrite <- segments_take.
  destruct (Nat.ltb_spec j (length (segments bs tokens))) as [Hj|Hj],
    (Nat.ltb_spec (j * B) (length tokens)) as [Hl|Hl]; try done; pose proof (segments_bound j tokens); lia.
Qed.

(** One more block. *)
Lemma prefix_hash_step key tokens j :
  (j * B < length tokens)%nat ->
  prefix_hash key (upto j tokens) =
  sha256 (block_message n (prefix_hash key (take (j * B) tokens)) (take B (drop (j * B) tokens)) key).
Proof.
  intros Hj. unfold prefix_hash, upto. rewrite <- !segments_take.
  assert (segments bs tokens !! j = Some (take B (drop (j * B) tokens))) as Hl
    by (rewrite segments_lookup; by destruct (Nat.ltb_spec (j * B) (length tokens)); [|lia]).
  rewrite (take_S_r _ _ _ Hl). unfold chain_hash. by rewrite foldl_app.
Qed.

Lemma upto_length j tokens : length (upto j tokens) = Nat.min (S j * B) (length tokens).
Proof. unfold upto. by rewrite length_take. Qed.

(** Sequences that agree through a block of each agree on which block it is. *)
Lemma upto_index i j a b :
  (i * B < length a)%nat -> (j * B < length b)%nat -> upto i a = upto j b -> i = j.
Proof.
  intros Hi Hj E%(f_equal length). rewrite !upto_length in E.
  assert (0 < B)%nat by lia. destruct (Nat.lt_trichotomy i j) as [Hlt|[?|Hlt]]; [|done|].
  - assert (S i * B <= j * B)%nat by (apply Nat.mul_le_mono_r; lia). lia.
  - assert (S j * B <= i * B)%nat by (apply Nat.mul_le_mono_r; lia). lia.
Qed.

Lemma upto_prefix j tokens rest :
  (j * B < length tokens)%nat -> (S j * B <= length tokens)%nat -> upto j (tokens ++ rest) = upto j tokens.
Proof. intros _ Hj. unfold upto. by rewrite take_app_le. Qed.

Lemma upto_nonempty j tokens : (j * B < length tokens)%nat -> upto j tokens <> [].
Proof. intros Hj E%(f_equal length). rewrite upto_length in E. cbn in E. lia. Qed.

Lemma block_tokens_upto i a b : upto i a = upto i b -> take B (drop (i * B) a) = take B (drop (i * B) b).
Proof.
  unfold upto. intros E%(f_equal (drop (i * B))). rewrite !skipn_firstn_comm in E.
  by replace (S i * B - i * B)%nat with B in E by lia.
Qed.

(** The tokens the session cache stores for a block. *)
Lemma block_tokens_nth tokens j : block_tokens tokens bs (Z.of_nat j) = take B (drop (j * B) tokens).
Proof.
  unfold block_tokens, size_of. replace (Z.to_nat (Z.of_nat j * bs)) with (j * B)%nat by lia.
  destruct (decide (S j * B <= length tokens)%nat); [f_equal; lia|]. rewrite !take_ge; [done|rewrite length_drop; lia..].
Qed.

End Blocks.

(** ** What is assumed of the engine, the codec and the texts

    [computed] says of a snapshot that it is the state of having computed its tokens with
    its media. [texts] are the sequences, with their keys, that are stored or restored in a
    run; among their prefixes no two have one hash. *)

Section Restoring.
Context {P D State MState Hidden : Type}.
Context `{Hlaws : PagedLaws P} `{Hbackend : Backend State MState} `{Hdevice : Device D State MState Hidden}.
Context (iter : gmap string (list (Entry State)) -> list (string * list (Entry State))).
Context (Hiter : forall m, iter m ≡ₚ map_to_list m).
Context (visits : binding_order).
Context (n : Namespace) (Hbs : 0 < block_size_tokens n).
Context (computed : State -> Prop) (texts : list (list Z * list Z)).

#[local] Notation bs := (block_size_tokens n).
#[local] Notation B := (Z.to_nat (block_size_tokens n)).
#[local] Notation Sess := (Session P D State).
#[local] Notation Rest := (Restore Hidden).

Definition text_of (st : State) : list Z * list Z := (input_key st, snap_tokens st).

(** A payload of block [j] of a computed state that has these tokens through the block. *)
Definition block_of (key tokens : list Z) (j : nat) (payload : list Z) : Prop :=
  exists st, computed st /\ input_key st = key /\ (j * B < length (snap_tokens st))%nat /\
    encode st bs (Z.of_nat j) = Ok (Some payload) /\ upto n j (snap_tokens st) = upto n j tokens.

Definition blocks_of (key tokens : list Z) (payloads : list (list Z)) : Prop :=
  forall j payload, payloads !! j = Some payload -> block_of key tokens j payload.

(** The codec decodes the blocks of a sequence to its computed state, and counts the
    tokens of a block. *)
Record CodecLaws : Prop := {
  codec_key key st : input_key (set_input_key key st) = key;
  codec_decode key tokens payloads st :
    blocks_of key tokens payloads -> length payloads = length (segments bs tokens) ->
    decode payloads tokens bs = Ok st ->
    computed (set_input_key key st) /\ snap_tokens (set_input_key key st) = tokens;
  codec_decodable count_of payloads count :
    decodable_blocks = Some count_of -> count_of payloads = Ok count -> count <= size_of payloads;
  codec_count count_of st j payload count :
    token_count = Some count_of -> computed st -> encode st bs (Z.of_nat j) = Ok (Some payload) ->
    count_of payload = Ok count -> count = size_of (take B (drop (j * B) (snap_tokens st)));
}.

(** What the clients give: tokens of machine integers, no two prefixes of which have one
    hash. *)
Record Texts : Prop := {
  texts_typed key tokens :
    (key, tokens) ∈ texts -> Forall in_s64 tokens /\ size_of tokens <= s64_max /\ size_of key <= u64_max;
  texts_distinct key tokens rest key' tokens' rest' :
    (key, tokens ++ rest) ∈ texts -> (key', tokens' ++ rest') ∈ texts -> tokens <> [] -> tokens' <> [] ->
    prefix_hash n key tokens = prefix_hash n key' tokens' -> key = key' /\ tokens = tokens';
}.

Context (codec : CodecLaws) (distinct : Texts).
#[local] Set Default Proof Using "All".

(** ** Blocks given to the paged cache *)

(** A block of a computed state, under the hash of its prefix. *)
Definition sourced (b : StoredBlock) : Prop :=
  forall hash, hash_of n b = Ok hash ->
  exists st j, computed st /\ text_of st ∈ texts /\ (j * B < length (snap_tokens st))%nat /\
    hash = prefix_hash n (input_key st) (upto n j (snap_tokens st)) /\
    encode st bs (Z.of_nat j) = Ok (Some (sb_payload b)).

Lemma sourced_block key prefix rest stored j payload :
  (key, prefix ++ rest) ∈ texts -> (forall b, b ∈ stored -> sourced b) -> (j * B < length prefix)%nat ->
  given_for n stored (prefix_hash n key (upto n j prefix)) payload -> block_of key prefix j payload.
Proof.
  intros Ht Hstored Hj (b & Hb & Hh & Hp). destruct (Hstored b Hb _ Hh) as (st & i & Hst & Htext & Hi & E & He).
  destruct (texts_distinct distinct key (upto n j prefix) (drop (S j * B) prefix ++ rest)
    (input_key st) (upto n i (snap_tokens st)) (drop (S i * B) (snap_tokens st))) as [Hkey Hupto];
    [by rewrite app_assoc; unfold upto; rewrite take_drop|by unfold upto; rewrite take_drop|by apply upto_nonempty..|done|].
  assert (i = j) as -> by (symmetry; by eapply upto_index). exists st. rewrite <- Hp. by split_and!.
Qed.

(** Payloads loaded for the first blocks of a prefix of a text. *)
Lemma loaded_blocks key prefix rest stored payloads :
  (key, prefix ++ rest) ∈ texts -> (forall b, b ∈ stored -> sourced b) ->
  Forall2 (given_for n stored)
    (take (length payloads) (chain_hashes n key zero_hash (segments bs prefix))) payloads ->
  (length payloads <= length (segments bs prefix))%nat /\ blocks_of key prefix payloads.
Proof.
  intros Ht Hstored Hall. pose proof (Forall2_length _ _ _ Hall) as Hlen.
  rewrite length_take, chain_hashes_length in Hlen by done. split; [lia|]. intros j payload Hj.
  pose proof (lookup_lt_Some _ _ _ Hj) as Hlt.
  assert (j * B < length prefix)%nat as Hb by (apply (segments_bound n Hbs); lia).
  destruct (Forall2_lookup_r _ _ _ _ _ Hall Hj) as (h & Hh & Hg).
  rewrite lookup_take_lt, block_prefix_hash in Hh by done.
  destruct (Nat.ltb_spec (j * B) (length prefix)); [|lia]. injection Hh as <-. by eapply sourced_block.
Qed.

(** Fewer payloads are those of a shorter prefix. *)
Lemma fewer_blocks key prefix payloads m :
  blocks_of key prefix payloads -> (length payloads <= length (segments bs prefix))%nat -> (m <= length payloads)%nat ->
  blocks_of key (take (m * B) prefix) (take m payloads) /\
  length (take m payloads) = length (segments bs (take (m * B) prefix)).
Proof.
  intros Hall Hlen Hm. split.
  - intros j payload Hj. apply lookup_take_Some in Hj as [Hj Hlt].
    destruct (Hall j payload Hj) as (st & ? & ? & ? & ? & E). exists st. split_and!; try done.
    rewrite E. unfold upto. rewrite take_take. f_equal. assert (S j * B <= m * B)%nat by (apply Nat.mul_le_mono_r; lia). lia.
  - rewrite length_take, <- segments_take, length_take by done. lia.
Qed.

(** What the codec counts is the length of the prefix. *)
Lemma counted_tokens count_of limit key prefix payloads : 
  token_count = Some count_of -> blocks_of key prefix payloads -> 
  forall k total, (k <= length payloads)%nat ->
  count_tokens count_of bs limit (Z.min (Z.of_nat k * bs) (size_of prefix)) (drop k payloads) = Ok total ->
  total = Z.min (size_of payloads * bs) (size_of prefix).
Proof.
  intros Hcount Hall k total Hk. remember (length payloads - k)%nat as m eqn:Em. revert k Em Hk.
  induction m as [|m IH]; intros k Em Hk; cbn [count_tokens].
  - rewrite drop_ge by lia. intros [= <-]. unfold size_of. f_equal; f_equal; lia.
  - assert (exists payload, payloads !! k = Some payload) as [payload Hp] by (apply lookup_lt_is_Some; lia).
    rewrite (drop_S _ _ _ Hp). cbn [count_tokens]. destruct (count_of payload) as [count|] eqn:Ec; [|done].
    unfold mbind, outcome_bind. destruct (orb (orb _ _) _); [done|]. intros Htotal. apply (IH (S k)); [lia..|].
    destruct (Hall k payload Hp) as (st & Hst & _ & Hj & He & E).
    rewrite (codec_count codec _ _ _ _ _ Hcount Hst He Ec), (block_tokens_upto n Hbs _ _ _ E) in Htotal.
    match goal with H : count_tokens _ _ _ ?a _ = _ |- count_tokens _ _ _ ?b _ = _ => replace b with a; [done|] end.
    assert (k * B < length prefix)%nat.
    { apply (f_equal length) in E. rewrite !upto_length in E by done. lia. }
    unfold size_of. rewrite length_take, length_drop. lia.
Qed.

(** ** The invariant *)

Record good (s : Sess) : Prop := {
  gd_snapshots : all_states computed (se_snapshots s);
  gd_paged p :
    se_paged s = Some p ->
    view_ok view p /\ view_space view p = n /\ forall b, b ∈ view_stored view p -> sourced b;
}.

(** The device as it was left. *)
Definition at_device (d : D) (s : Sess) : Prop := good s /\ se_device s = d.

Lemma good_device d s : good s -> good (set_device d s).
Proof. by intros [??]. Qed.

Lemma since_good given p p' s :
  good s -> se_paged s = Some p -> since view given p p' -> (forall b, b ∈ given -> sourced b) ->
  good (set_paged (Some p') s).
Proof.
  intros [Hs Hp] E [H1 H2 H3 H4] Hg. split; [done|]. intros ? [= <-]. destruct (Hp p E) as (Hok & Hn & Hst).
  split_and!; [done|by rewrite H2|]. intros b Hb. apply H4 in Hb. apply elem_of_app in Hb as [Hb|Hb]; auto.
Qed.

(** A call on the paged cache. *)
Lemma paged_spec {A} given (m : N P A) (R : P -> A -> P -> Prop) d s :
  at_device d s -> (forall b, b ∈ given -> sourced b) ->
  (forall p, view_ok view p -> view_space view p = n ->
   spec (eq p) m (fun a p' => since view given p p' /\ R p a p') (since view given p)) ->
  spec (eq s) (on_paged m)
    (fun a s' => at_device d s' /\ exists p p', se_paged s = Some p /\ se_paged s' = Some p' /\ R p a p') (at_device d).
Proof.
  intros [Hs Hd] Hg Hm s' <-. unfold on_paged. destruct (se_paged s) as [p|] eqn:Ep; [|done].
  destruct (gd_paged _ Hs p Ep) as (Hok & Hn & _). specialize (Hm p Hok Hn p eq_refl).
  destruct (m p) as [[[a|e] p']|]; [destruct Hm as [Hsince HR]| |done].
  - split; [split; [by eapply since_good|done]|]. by exists p, p'.
  - split; [by eapply since_good|done].
Qed.

Lemma paged_quiet {A} (m : N P A) d : stores_nothing view m -> spec (at_device d) (on_paged m) (fun _ => at_device d) (at_device d).
Proof.
  intros Hm. apply spec_each. intros s Hs. 
  eapply spec_weaken; [apply (paged_spec [] m (fun _ _ _ => True) d s Hs); [set_solver|]|done|by intros ?? [? _]|done].
  intros p Hp _. eapply spec_weaken; [by apply Hm|done|done|done].
Qed.

Lemma snapshots_spec {A} (f : SnapshotCache.Cache State -> A * SnapshotCache.Cache State) d :
  (forall c, all_states computed c -> all_states computed (f c).2) ->
  spec (at_device d) (on_snapshots f) (fun _ => at_device d) (at_device d).
Proof.
  intros Hf s [[Hs Hp] Hd]. unfold on_snapshots. specialize (Hf _ Hs). destruct (f (se_snapshots s)) as [a c]. by split; [split|].
Qed.

Lemma bindings_spec {A} (f : Bindings -> A * Bindings) d :
  spec (at_device d) (on_bindings f) (fun _ => at_device d) (at_device d).
Proof. intros s [[Hs Hp] Hd]. unfold on_bindings. destruct (f (se_bindings s)) as [a b]. by split; [split|]. Qed.

Lemma store_snapshot_spec id st d :
  computed st -> spec (at_device d) (store_snapshot iter id st) (fun _ => at_device d) (at_device d).
Proof.
  intros Hst s [[Hs Hp] Hd]. unfold store_snapshot.
  pose proof (store_states iter computed id st same_snapshot _ Hst Hs) as H1.
  destruct (SnapshotCache.store _ _ _ _ _) as [[?|?] c]; by split; [split|].
Qed.

Lemma record_match_spec matched d : spec (at_device d) (record_match matched) (fun _ => at_device d) (at_device d).
Proof. apply paged_quiet, law_record_match. Qed.

Lemma snapshot_name_spec id d : spec (at_device d) (snapshot_name id) (fun _ => at_device d) (at_device d).
Proof.
  unfold snapshot_name. destruct (bool_decide (id = EmptyString)); [|by apply spec_ret].
  apply (spec_bind _ _ _ (fun _ => at_device d)); [|intros ?; by apply spec_ret].
  apply (spec_bind _ _ _ (fun _ => at_device d)); [apply spec_write; by intros s [[? ?] ?]|]. intros ?.
  apply (spec_bind _ _ _ (fun _ => at_device d)); [by apply spec_read|]. intros ?. by apply spec_ret.
Qed.

(** ** The device *)

(** The model, and the predictor if there is one, were given the state. *)
Definition given (mtp : bool) (st : State) (d d' : D) (hidden : option Hidden) : Prop :=
  exists d1, restore_text_session_state st d = (Ok tt, d1) /\
  if mtp
  then exists m, state_mtp st = Some m /\ restore_session_state m d1 = (Ok tt, d') /\ hidden = Some (last_target_hidden m)
  else d' = d1 /\ hidden = None.

(** The model, then the predictor, were reset. *)
Definition emptied (mtp : bool) (d : D) : Prop :=
  exists d0 d1, reset_model d0 = (Ok tt, d1) /\ if mtp then reset_mtp d1 = (Ok tt, d) else d = d1.

Definition fresh (mtp : bool) (d d' : D) : Prop := d' = d \/ emptied mtp d'.

(** The answer of a restore started with device [d], and the device it leaves. *)
Record restored (mtp : bool) (key prompt : list Z) (maximum : Z) (d : D) (r : Rest) (d' : D) : Prop := {
  rs_tokens : 0 < re_tokens r < size_of prompt /\ re_tokens r <= maximum;
  rs_state : exists st d1, computed st /\ input_key st = key /\
    snap_tokens st = take (Z.to_nat (re_tokens r)) prompt /\ fresh mtp d d1 /\ given mtp st d1 d' (re_hidden r);
}.

Definition answer (mtp : bool) (key prompt : list Z) (maximum : Z) (d : D) (r : Rest) (d' : D) : Prop :=
  (r = nothing_restored /\ fresh mtp d d') \/ restored mtp key prompt maximum d r d'.

Lemma restore_device_spec mtp st tokens d :
  spec (at_device d) (restore_device mtp st tokens)
    (fun r s => good s /\ given mtp st d (se_device s) (re_hidden r) /\ re_tokens r = tokens) good.
Proof.
  intros s [Hs <-]. unfold restore_device, on_device, mbind, N_bind, given.
  destruct (restore_text_session_state st (se_device s)) as [[[]|e] d1]; [|by apply good_device].
  destruct mtp; [|cbn; split; [by apply good_device|split; [by exists d1|done]]].
  destruct (state_mtp st) as [m|]; [|done]. cbn.
  destruct (restore_session_state m d1) as [[[]|e] d2] eqn:E; cbn; [|by do 2 apply good_device].
  split; [by do 2 apply good_device|split; [|done]]; exists d1; split; [done|]; by exists m.
Qed.

Lemma reset_device_spec mtp : spec good (reset_device mtp) (fun _ s => good s /\ emptied mtp (se_device s)) good.
Proof.
  intros s Hs. unfold reset_device, on_device, mbind, N_bind, emptied.
  destruct (reset_model (se_device s)) as [[[]|e] d1] eqn:E; [|by apply good_device].
  destruct mtp; [|cbn; split; [by apply good_device|eauto]]. cbn.
  destruct (reset_mtp d1) as [[[]|e] d2] eqn:E2; cbn; [|by do 2 apply good_device].
  split; [by do 2 apply good_device|eauto].
Qed.

(** ** Restoring from blocks *)

Lemma fresh_refl mtp d : fresh mtp d d.
Proof. by left. Qed.

Lemma fresh_trans mtp d d1 d2 : fresh mtp d d1 -> fresh mtp d1 d2 -> fresh mtp d d2.
Proof. intros H1 [->|H2]; [done|by right]. Qed.

Lemma answer_nothing mtp key prompt maximum d d' : fresh mtp d d' -> answer mtp key prompt maximum d nothing_restored d'.
Proof. by left. Qed.

Lemma at_device_good d s : at_device d s -> good s.
Proof. by intros []. Qed.

Definition answers (mtp : bool) (key prompt : list Z) (maximum : Z) (d : D) (m : N Sess Rest) (P0 : Sess -> Prop) : Prop :=
  spec P0 m (fun r s => good s /\ answer mtp key prompt maximum d r (se_device s)) good.

Lemma answers_at mtp key prompt maximum d m s :
  at_device d s -> answers mtp key prompt maximum d m (at_device d) -> answers mtp key prompt maximum d m (eq s).
Proof. intros Hs Hm ? <-. by apply Hm. Qed.

(** Nothing is restored, and the device is left alone. *)
Lemma nothing_spec mtp key prompt maximum d :
  answers mtp key prompt maximum d (mret nothing_restored) (at_device d).
Proof. apply spec_ret. intros s [Hs <-]. split; [done|]. by apply answer_nothing, fresh_refl. Qed.

Lemma record_nothing_spec mtp key prompt maximum d :
  answers mtp key prompt maximum d (record_match 0 ≫= fun _ => mret nothing_restored) (at_device d).
Proof.
  apply (spec_bind _ _ _ (fun _ => at_device d)); [|intros ?; apply nothing_spec].
  eapply spec_weaken; [apply record_match_spec|done|done|apply at_device_good].
Qed.

Lemma quiet_good {A} (m : N Sess A) :
  (forall d, spec (at_device d) m (fun _ => at_device d) (at_device d)) -> spec good m (fun _ => good) good.
Proof.
  intros Hm s Hs. specialize (Hm (se_device s) s (conj Hs eq_refl)).
  destruct (m s) as [[[a|e] s']|]; by try apply at_device_good in Hm.
Qed.

Lemma fail_spec mtp key prompt maximum d blocks error :
  answers mtp key prompt maximum d (fail mtp blocks error) good.
Proof.
  unfold fail. apply (spec_bind _ _ _ (fun _ => good)).
  { destruct (is_state_error error); [|by apply spec_ret]. destruct (last blocks); [|by apply spec_ret].
    apply (spec_bind _ _ _ (fun _ => good)); [|intros ?; by apply spec_ret].
    apply quiet_good. intros ?. apply paged_quiet, law_invalidate. }
  intros ?. apply (spec_bind _ _ _ (fun _ => good)); [apply quiet_good, record_match_spec|]. intros ?.
  eapply spec_bind; [apply reset_device_spec|]. intros ?. apply spec_ret. intros s [Hs He].
  split; [done|]. apply answer_nothing. by right.
Qed.

Lemma bind_blocks_spec id blocks tokens d :
  spec (at_device d) (bind_blocks visits id blocks tokens) (fun _ => at_device d) (at_device d).
Proof. apply bindings_spec. Qed.

(** The device is given a computed state of the prompt, and then the caches are told. *)
Lemma restore_told_spec mtp key prompt maximum d st tokens (k : Rest -> N Sess Rest) :
  0 < tokens < size_of prompt -> tokens <= maximum -> computed st -> input_key st = key ->
  snap_tokens st = take (Z.to_nat tokens) prompt ->
  (forall r d', spec (at_device d') (k r) (fun r' s => r' = r /\ at_device d' s) (at_device d')) ->
  answers mtp key prompt maximum d (restore_device mtp st tokens ≫= k) (at_device d).
Proof.
  intros Ht Hmax Hst Hkey Htokens Hk. eapply spec_bind; [apply restore_device_spec|].
  intros r. apply spec_each. intros s (Hs & Hgiven & Hr).
  eapply spec_weaken; [apply (Hk r (se_device s))|by intros ? <-| |apply at_device_good].
  intros ? s' (-> & Hs' & ->). split; [done|]. right. split; [by rewrite Hr|].
  exists st, d. split_and!; [done|done|by rewrite Hr|apply fresh_refl|done].
Qed.

Lemma decode_and_restore_spec mtp requested prompt key maximum d payloads blocks prefix rest :
  let limit := Z.min maximum (size_of prompt - 1) in
  blocks_of key prefix payloads -> prompt = prefix ++ rest -> (0 < length payloads)%nat ->
  (length payloads <= length (segments bs prefix))%nat ->
  answers mtp key prompt maximum d
    (decode_and_restore iter visits mtp requested prompt key limit payloads blocks
       (Z.min (size_of payloads * bs) (size_of prefix)) bs) (at_device d).
Proof.
  intros limit Hall Hprompt Hpos Hlen. unfold decode_and_restore.
  set (matched := Z.min (size_of payloads * bs) (size_of prefix)).
  assert (0 < length prefix)%nat as Hprefix.
  { pose proof (proj1 (segments_bound n Hbs 0 prefix)). lia. }
  assert (0 < matched) as Hmatched by (unfold matched, size_of; lia).
  eapply spec_bind.
  { apply (spec_outcome _ _ (fun m s => at_device d s /\ m = matched)); [|apply at_device_good].
    intros m s Hm Hs. split; [done|]. destruct token_count as [count_of|] eqn:Hc; [|by injection Hm].
    apply (counted_tokens count_of limit key prefix payloads Hc Hall 0 m); [lia|].
    replace (Z.min (Z.of_nat 0 * bs) (size_of prefix)) with 0 by (unfold size_of; lia). done. }
  intros m. apply spec_each. intros s [Hs ->].
  destruct (Z.ltb_spec limit matched) as [|Hlimit]; [apply spec_raised; by apply at_device_good in Hs|].
  destruct (fewer_blocks key prefix payloads (length payloads) Hall Hlen) as [Hblocks Hcount]; [lia|].
  rewrite firstn_all in Hblocks, Hcount.
  assert (take (Z.to_nat matched) prompt = take (length payloads * B) prefix) as Etake.
  { rewrite Hprompt, take_app_le by (unfold matched, size_of; lia). unfold matched, size_of.
    destruct (decide (length payloads * B <= length prefix)%nat); [f_equal; lia|]. rewrite !take_ge by lia. done. }
  rewrite Etake. eapply spec_bind.
  { apply (spec_outcome _ _ (fun st s' => at_device d s' /\ decode payloads (take (length payloads * B) prefix) bs = Ok st));
      [|intros ? <-; by apply at_device_good in Hs]. by intros st ? Hst <-. }
  intros st0. apply spec_each. clear s Hs. intros s [Hs Hdecode].
  destruct (codec_decode codec key _ payloads st0 Hblocks Hcount Hdecode) as [Hst Htokens].
  set (st := set_input_key key st0) in *.
  apply spec_seq_read. destruct (mtp && _).
  { apply (answers_at _ _ _ _ _ _ _ Hs), record_nothing_spec. }
  apply (answers_at _ _ _ _ _ _ _ Hs).
  apply (restore_told_spec _ _ _ _ _ st matched); try done; [unfold limit in Hlimit; lia|unfold limit in Hlimit; lia|apply (codec_key codec)|by rewrite Htokens|].
  intros r d'. apply (spec_bind _ _ _ (fun _ => at_device d')).
  { destruct (se_native_hot _); [|by apply spec_ret].
    apply (spec_bind _ _ _ (fun _ => at_device d')); [apply snapshot_name_spec|]. intros ?. by apply store_snapshot_spec. }
  intros ?. apply (spec_bind _ _ _ (fun _ => at_device d')).
  { destruct (bool_decide _); [by apply spec_ret|by apply bind_blocks_spec]. }
  intros ?. apply (spec_bind _ _ _ (fun _ => at_device d')); [apply record_match_spec|].
  intros ?. by apply spec_ret.
Qed.

Lemma answers_try mtp key prompt maximum d m blocks :
  answers mtp key prompt maximum d m (at_device d) ->
  answers mtp key prompt maximum d (try_with m (fail mtp blocks)) (at_device d).
Proof. intros Hm. eapply spec_try; [exact Hm|]. intros e. apply fail_spec. Qed.

Lemma restore_payloads_spec mtp requested prompt key maximum d found payloads prefix rest :
  (key, prompt) ∈ texts -> prompt = prefix ++ rest ->
  matched_tokens found = size_of prefix -> blocks found = chain_hashes n key zero_hash (segments bs prefix) ->
  blocks_of key prefix payloads -> (length payloads <= length (segments bs prefix))%nat ->
  answers mtp key prompt maximum d
    (restore_payloads iter visits mtp requested prompt key (Z.min maximum (size_of prompt - 1)) found payloads bs) (at_device d).
Proof.
  intros Htext Hprompt Hmatched Hfound Hall Hlen. unfold restore_payloads.
  destruct (match decodable_blocks with Some count => count payloads | None => Ok (size_of payloads) end) as [count|e] eqn:Hcount.
  2: { eapply spec_weaken; [apply fail_spec|apply at_device_good|intros ?? H1; exact H1|done]. }
  assert (count <= size_of payloads) as Hle.
  { destruct decodable_blocks as [count_of|] eqn:Hc; [by eapply (codec_decodable codec)|]. by injection Hcount as <-. }
  rewrite resize_le by (unfold size_of in Hle; lia).
  set (kept := take (Z.to_nat count) payloads). destruct (is_nil kept) eqn:Hnil; [apply answers_try, record_nothing_spec|].
  assert (blocks_of key prefix kept) as Hkept.
  { intros j payload Hj. apply lookup_take_Some in Hj as [Hj _]. by apply Hall. }
  assert (length kept <= length (segments bs prefix))%nat as Hklen by (unfold kept; rewrite length_take; lia).
  assert (0 < length kept)%nat as Hkpos by (by destruct kept; [|cbn; lia]).
  assert ((if negb (size_of kept =? size_of (blocks found)) then u64 (size_of kept * bs) else matched_tokens found) =
          Z.min (size_of kept * bs) (size_of prefix)) as ->.
  { destruct (texts_typed distinct _ _ Htext) as (_ & Hsize & _).
    assert (size_of prefix <= size_of prompt) as Hp by (rewrite Hprompt, size_of_app; pose proof (size_of_nonneg rest); lia).
    rewrite Hfound, Hmatched. unfold size_of in *. rewrite chain_hashes_length by done.
    pose proof (segments_bound n Hbs (length kept) prefix) as Hb. destruct (Z.eqb_spec (Z.of_nat (length kept)) (Z.of_nat (length (segments bs prefix)))) as [E|E]; cbn [negb].
    - assert (~ (length kept * B < length prefix)%nat) by lia. lia.
    - assert (length kept * B < length prefix)%nat by lia.
      unfold u64. rewrite Z.mod_small; unfold s64_max in *; lia. }
  apply answers_try. by eapply decode_and_restore_spec.
Qed.

Lemma view_block p : view_ok view p -> view_space view p = n -> paged_block_size p = bs.
Proof. intros Hok <-. by apply view_block_size. Qed.

(** A match of the paged cache is the blocks of a prefix. *)
Lemma matched_spec tokens rest key record d :
  (key, tokens ++ rest) ∈ texts ->
  spec (at_device d) (on_paged (paged_match tokens key record))
    (fun r s => at_device d s /\ exists prefix rest, tokens = prefix ++ rest /\ matched_tokens r = size_of prefix /\
       blocks r = chain_hashes n key zero_hash (segments bs prefix)) (at_device d).
Proof.
  intros Htext. destruct (texts_typed distinct _ _ Htext) as (Htyped & _ & Hkey). apply Forall_app in Htyped as [Htyped _].
  apply spec_each. intros s Hs.
  eapply spec_weaken; [apply (paged_spec [] _ (fun _ r _ => exists prefix rest, tokens = prefix ++ rest /\
    matched_tokens r = size_of prefix /\ blocks r = chain_hashes n key zero_hash (segments bs prefix)) d s Hs); [set_solver|]|done| |done].
  - intros p Hok Hn. pose proof (law_match p tokens key record Hok Htyped Hkey) as Hm.
    rewrite (view_block p Hok Hn), Hn in Hm. exact Hm.
  - intros r s' (? & p & p' & _ & _ & Hr). done.
Qed.

Lemma loaded_spec hashes d :
  spec (at_device d) (on_paged (paged_load_prefix hashes))
    (fun payloads s => at_device d s /\ exists stored, (forall b, b ∈ stored -> sourced b) /\
       Forall2 (given_for n stored) (take (length payloads) hashes) payloads) (at_device d).
Proof.
  apply spec_each. intros s Hs.
  eapply spec_weaken; [apply (paged_spec [] _ (fun _ payloads p' => 
       Forall2 (given_for n (view_stored view p')) (take (length payloads) hashes) payloads) d s Hs); [set_solver|]|done| |done].
  - intros p Hok Hn. pose proof (law_load p hashes Hok) as Hm. by rewrite Hn in Hm.
  - intros payloads s' ([Hs' ?] & p & p' & _ & Hp' & Hall). split; [done|]. exists (view_stored view p').
    split; [|done]. by apply (gd_paged _ Hs' p').
Qed.

Lemma block_size_spec d :
  spec (at_device d) (on_paged (fun p => Some (Ok (paged_block_size p), p)))
    (fun r s => at_device d s /\ r = bs) (at_device d).
Proof.
  apply spec_each. intros s Hs.
  eapply spec_weaken; [apply (paged_spec [] _ (fun _ r _ => r = bs) d s Hs); [set_solver|]|done| |done].
  - intros p Hok Hn ? <-. split; [by apply since_refl|by apply view_block].
  - by intros r s' (? & ? & ? & _ & _ & ->).
Qed.

Lemma restore_paged_spec mtp requested prompt key maximum d :
  (key, prompt) ∈ texts ->
  answers mtp key prompt maximum d (restore_paged iter visits mtp requested prompt maximum key) (at_device d).
Proof.
  intros Htext. unfold restore_paged. apply spec_each. intros s0 H0s. apply spec_seq_read.
  apply (answers_at _ _ _ _ _ _ _ H0s). destruct (orb _ _); [apply nothing_spec|].
  set (limit := Z.min maximum (size_of prompt - 1)).
  pose proof (take_drop (Z.to_nat limit) prompt) as Hsplit.
  eapply spec_bind.
  { eapply spec_weaken; [apply (matched_spec _ (drop (Z.to_nat limit) prompt)); by rewrite Hsplit|done|intros ?? H1; exact H1|apply at_device_good]. }
  intros found. apply spec_each. intros s (Hs & prefix & rest & Htake & Hmatched & Hblocks).
  apply (answers_at _ _ _ _ _ _ _ Hs). clear s Hs. destruct (_ =? _); [apply record_nothing_spec|].
  eapply spec_bind.
  { eapply spec_weaken; [apply loaded_spec|done|intros ?? H1; exact H1|apply at_device_good]. }
  intros payloads. apply spec_each. intros s (Hs & stored & Hstored & Hall).
  apply (answers_at _ _ _ _ _ _ _ Hs). clear s Hs. destruct (is_nil payloads); [apply record_nothing_spec|].
  eapply spec_bind.
  { eapply spec_weaken; [apply block_size_spec|done|intros ?? H1; exact H1|apply at_device_good]. }
  intros block_size. apply spec_each. intros s [Hs ->]. apply (answers_at _ _ _ _ _ _ _ Hs).
  assert (prompt = prefix ++ rest ++ drop (Z.to_nat limit) prompt) as Hprompt by (by rewrite app_assoc, <- Htake).
  rewrite Hblocks in Hall. rewrite Hprompt in Htext.
  destruct (loaded_blocks key prefix _ stored payloads Htext Hstored Hall) as [Hlen Hof].
  rewrite <- Hprompt in Htext. by eapply restore_payloads_spec.
Qed.

(** ** Restoring from a snapshot *)

Lemma record_hit_spec m d : spec (at_device d) (record_hit m) (fun _ => at_device d) (at_device d).
Proof.
  intros s [[Hs Hp] Hd]. unfold record_hit.
  pose proof (record_hit_states computed true m _ Hs) as H1.
  destruct (SnapshotCache.record_hit _ _ _) as [[?|?] c]; by split; [split|].
Qed.

Lemma restore_match_spec mtp m prompt key maximum d st s :
  at_device d s -> match_state m (se_snapshots s) = Some st -> matches prompt maximum (eligible mtp key d) st ->
  answers mtp key prompt maximum d (restore_match iter mtp m) (eq s).
Proof.
  intros Hs Hst [Hne Hprefix Hproper Hlimit Heligible]. apply spec_seq_read. rewrite Hst.
  pose proof (match_state_holds computed m _ st (gd_snapshots _ (at_device_good _ _ Hs)) Hst) as Hcomputed.
  unfold eligible in Heligible. apply andb_true_iff in Heligible as [Hkey%bool_decide_eq_true _].
  apply (answers_at _ _ _ _ _ _ _ Hs). eapply spec_try.
  - apply (restore_told_spec _ _ _ _ _ st); try done.
    + split; [|done]. unfold size_of. destruct (snap_tokens st); [done|cbn [length]; lia].
    + destruct Hprefix as [rest ->]. unfold size_of. by rewrite Nat2Z.id, take_app_length.
    + intros r d'. apply (spec_bind _ _ _ (fun _ => at_device d')); [apply record_hit_spec|]. intros ?.
      apply (spec_bind _ _ _ (fun _ => at_device d')); [|intros ?; by apply spec_ret].
      destruct (_ && _); [apply record_match_spec|by apply spec_ret].
  - intros e. apply (spec_bind _ _ _ (fun _ => good)).
    + apply quiet_good. intros d'. apply snapshots_spec. intros c. apply erase_states.
    + intros ?. eapply spec_bind; [apply reset_device_spec|]. intros ?. apply spec_ret. intros s' [Hs' He].
      split; [done|]. apply answer_nothing. by right.
Qed.

Lemma restore_snapshot_spec mtp requested prompt key maximum d :
  (key, prompt) ∈ texts ->
  answers mtp key prompt maximum d (restore_snapshot iter visits mtp requested prompt maximum key) (at_device d).
Proof.
  intros Htext. apply spec_each. intros s Hs. apply spec_seq_read. apply (answers_at _ _ _ _ _ _ _ Hs).
  destruct (negb _); [apply nothing_spec|]. destruct Hs as [_ ->]. set (session := if _ && _ then _ else _). clearbody session.
  eapply (spec_bind _ _ _ (fun found s => at_device d s /\ forall m, found = Some m -> exists st,
    match_state m (se_snapshots s) = Some st /\ matches prompt maximum (eligible mtp key d) st)).
  - intros s' [[Hs' Hp] Hd]. unfold on_snapshots.
    pose proof (find_best_states iter computed session prompt maximum (eligible mtp key d) _ Hs') as H1.
    pose proof (fun m => find_best_match iter session prompt maximum (eligible mtp key d) (se_snapshots s') m Hiter) as H2.
    destruct (find_best _ _ _ _ _ _) as [found c]. split; [by split; [split|]|]. exact H2.
  - intros found. apply spec_each. intros s' [Hs' Hfound]. destruct found as [m|].
    + destruct (Hfound m eq_refl) as (st & Hst & Hm). by eapply restore_match_spec.
    + apply (answers_at _ _ _ _ _ _ _ Hs'). destruct (has_paged s && _); [by apply restore_paged_spec|apply nothing_spec].
Qed.

(** A second attempt, after a first that restored nothing. *)
Lemma answer_after mtp key prompt maximum d d1 r d' :
  fresh mtp d d1 -> answer mtp key prompt maximum d1 r d' -> answer mtp key prompt maximum d r d'.
Proof.
  intros H1 [[-> H2]|[Ht (st & d2 & ? & ? & ? & H2 & ?)]].
  - left. split; [done|]. by eapply fresh_trans.
  - right. split; [done|]. exists st, d2. split_and!; try done. by eapply fresh_trans.
Qed.

Lemma restore_best_spec mtp requested prompt key maximum d :
  (key, prompt) ∈ texts ->
  answers mtp key prompt maximum d (restore_best iter visits mtp requested prompt maximum key) (at_device d).
Proof.
  intros Htext. apply spec_each. intros s Hs. apply spec_seq_read. apply (answers_at _ _ _ _ _ _ _ Hs).
  destruct (negb (se_supported s)); [apply nothing_spec|].
  destruct (has_paged s && negb (se_native_hot s)); [|by apply restore_snapshot_spec].
  eapply spec_bind; [by apply (restore_paged_spec mtp requested prompt key maximum d)|].
  intros r. apply spec_each. intros s1 [Hs1 Hanswer]. destruct (Z.eqb_spec (re_tokens r) 0) as [Hz|Hz]; cbn [negb].
  - destruct Hanswer as [[_ Hfresh]|[? _]]; [|lia].
    intros s' <-. pose proof (restore_snapshot_spec mtp requested prompt key maximum _ Htext s1 (conj Hs1 eq_refl)) as H1.
    destruct (restore_snapshot _ _ _ _ _ _ _ s1) as [[[r'|e] s']|]; [|done..].
    destruct H1 as [Hs' Ha]. split; [done|]. by eapply answer_after.
  - apply spec_ret. by intros ? <-.
Qed.

(** ** Storing *)

(** The first blocks of a text, by the hashes of its prefixes. *)
Definition on_chain (key tokens : list Z) (blocks : list BlockHash) : Prop :=
  forall j h, blocks !! j = Some h -> h = prefix_hash n key (upto n j tokens).

Lemma parent_hash key tokens blocks :
  on_chain key tokens blocks -> default zero_hash (last blocks) = prefix_hash n key (take (length blocks * B) tokens).
Proof.
  intros Hchain. rewrite last_lookup. destruct blocks as [|h l]; [done|]. cbn [length Nat.pred].
  destruct ((h :: l) !! length l) as [h'|] eqn:Hl; [|apply lookup_ge_None in Hl; cbn in Hl; lia].
  cbn [default]. by apply Hchain in Hl.
Qed.

Lemma known_blocks_chain key tokens prefix rest r :
  tokens = prefix ++ rest -> matched_tokens r = size_of prefix ->
  blocks r = chain_hashes n key zero_hash (segments bs prefix) -> on_chain key tokens (known_blocks r tokens bs).
Proof.
  intros -> Hm Hb j h. unfold known_blocks. rewrite Hm, Hb. destruct (Z.eqb_spec (size_of prefix) (size_of (prefix ++ rest))) as [E|_].
  - assert (rest = []) as -> by (apply size_of_nil_iff; rewrite size_of_app in E; lia). rewrite app_nil_r.
    rewrite block_prefix_hash by done. by destruct (Nat.ltb_spec (j * B) (length prefix)); [intros [= <-]|].
  - intros [Hj Hlt]%lookup_take_Some. rewrite block_prefix_hash in Hj by done.
    destruct (Nat.ltb_spec (j * B) (length prefix)); [injection Hj as <-|done].
    assert (Z.of_nat (S j) <= size_of prefix / bs) as Hfull by lia.
    assert (Z.of_nat (S j) * bs <= size_of prefix) by (pose proof (Z.mul_div_le (size_of prefix) bs Hbs); nia).
    rewrite upto_prefix; [done|done|done|unfold size_of in *; lia].
Qed.

(** A store of a block of a computed state. *)
Lemma store_block_spec replace_existing st j parent d :
  computed st -> text_of st ∈ texts -> (j * B < length (snap_tokens st))%nat ->
  parent = prefix_hash n (input_key st) (take (j * B) (snap_tokens st)) ->
  spec (at_device d) (store_block replace_existing st bs parent (Z.of_nat j))
    (fun h s => at_device d s /\ h = prefix_hash n (input_key st) (upto n j (snap_tokens st))) (at_device d).
Proof.
  intros Hst Htext Hj ->. unfold store_block. eapply spec_bind.
  { apply (spec_outcome _ _ (fun p s => at_device d s /\ encode st bs (Z.of_nat j) = Ok p)); [|done]. by intros p s Hp Hs. }
  intros payload. apply spec_each. intros s [Hs He]. rewrite (block_tokens_nth n Hbs).
  set (parent := prefix_hash _ _ _). set (tokens := take B _).
  destruct payload as [payload|].
  2: { eapply spec_weaken; [apply (paged_spec [] _ (fun _ _ _ => False) d s Hs); [set_solver|]|done|by intros ?? (? & ? & ? & ? & ? & [])|done].
       intros p Hok Hn. eapply spec_weaken; [by apply law_store_null|done|done|done]. }
  set (b := {| sb_parent := parent; sb_tokens := tokens; sb_extra := input_key st; sb_payload := payload |}).
  eapply spec_weaken; [apply (paged_spec [b] _ (fun _ h _ => h = sha256 (block_message n parent tokens (input_key st))) d s Hs)|done| |done].
  - intros ? ->%list_elem_of_singleton hash Hh%block_hash_ok. destruct Hh as [-> _]. exists st, j. split_and!; try done.
    by rewrite prefix_hash_step.
  - intros p Hok Hn. pose proof (law_store p replace_existing parent tokens payload (input_key st) Hok) as Hl.
    cbv zeta in Hl. by rewrite Hn in Hl.
  - intros h s' (Hs' & ? & ? & _ & _ & ->). split; [done|]. by rewrite prefix_hash_step.
Qed.

Lemma store_blocks_spec st full d :
  computed st -> text_of st ∈ texts -> (forall j, (j < full)%nat -> (j * B < length (snap_tokens st))%nat) ->
  forall k blocks, (length blocks + k = full)%nat -> on_chain (input_key st) (snap_tokens st) blocks ->
  spec (at_device d) (store_blocks st bs blocks (Z.of_nat full)) (fun _ => at_device d) (at_device d).
Proof.
  intros Hst Htext Hfull. unfold store_blocks. induction k as [|k IH]; intros blocks Hk Hchain.
  - unfold size_of. replace (Z.of_nat full - Z.of_nat (length blocks)) with 0 by lia. by apply spec_ret.
  - rewrite seqZ_cons by (unfold size_of; lia). cbn [for_fold].
    eapply spec_bind.
    { eapply spec_bind; [apply (store_block_spec false st (length blocks)); [done|done|apply Hfull; lia|by apply parent_hash]|].
      intros h. apply (spec_ret _ _ (fun blocks' s => at_device d s /\ blocks' = blocks ++ [prefix_hash n (input_key st) (upto n (length blocks) (snap_tokens st))])).
      intros s [Hs ->]. done. }
    intros blocks'. apply spec_each. intros s [Hs ->]. set (h0 := prefix_hash n _ _).
    replace (seqZ _ _) with (seqZ (size_of (blocks ++ [h0])) (Z.of_nat full - size_of (blocks ++ [h0])))
      by (rewrite size_of_app; f_equal; unfold size_of; cbn [length]; lia).
    eapply spec_weaken; [apply (IH (blocks ++ [h0]))|by intros ? <-|done|done].
    + rewrite length_app. cbn. lia.
    + intros j h [Hj|[Hj Hl]]%lookup_app_Some; [by apply Hchain|].
      apply list_lookup_singleton_Some in Hl as [Hl <-]. by replace j with (length blocks) by lia.
Qed.

Lemma refresh_checkpoint_spec st blocks d :
  computed st -> text_of st ∈ texts -> on_chain (input_key st) (snap_tokens st) blocks ->
  (0 < length blocks)%nat -> ((length blocks - 1) * B < length (snap_tokens st))%nat ->
  spec (at_device d) (refresh_checkpoint st bs blocks (size_of blocks)) (fun _ => at_device d) (at_device d).
Proof.
  intros Hst Htext Hchain Hpos Hlast. unfold refresh_checkpoint.
  destruct checkpoint_needs_update as [needs|]; [|by apply spec_ret].
  eapply spec_bind; [eapply spec_weaken; [apply loaded_spec|done|intros ?? [H1 _]; exact H1|done]|]. intros final.
  eapply (spec_bind _ _ _ (fun _ => at_device d)); [by apply spec_outcome|]. intros needed.
  destruct (negb needed); [by apply spec_ret|]. cbv zeta.
  destruct (exists_last (l := blocks)) as (before & h & Eb); [by intros ->; cbn in Hpos; lia|].
  assert (length blocks = S (length before)) as El by (rewrite Eb, length_app; cbn; lia).
  replace (size_of blocks - 1) with (Z.of_nat (length before)) by (unfold size_of; lia).
  replace (removelast blocks) with before by (by rewrite Eb, removelast_last).
  eapply spec_bind.
  - apply (store_block_spec true st (length before)); [done|done|by replace (length before) with (length blocks - 1)%nat by lia|].
    apply parent_hash. intros j x Hj. apply Hchain. rewrite Eb. by apply lookup_app_l_Some.
  - intros h'. apply spec_each. intros s [Hs _]. intros ? <-. by destruct (bool_decide _).
Qed.

(** The blocks of a state begin within it. *)
Lemma full_blocks_bound st j :
  Z.of_nat j < full_blocks_of st bs -> (j * B < length (snap_tokens st))%nat.
Proof.
  unfold full_blocks_of, size_of. intros Hj. pose proof (Z.div_mod (Z.of_nat (length (snap_tokens st))) bs ltac:(lia)) as E.
  pose proof (Z.mod_pos_bound (Z.of_nat (length (snap_tokens st))) bs Hbs).
  destruct (_ && negb (Z.eqb _ _)) eqn:Hp; [apply andb_true_iff in Hp as [_ Hp%negb_true_iff%Z.eqb_neq]|]; nia.
Qed.

Lemma full_blocks_nonneg st : 0 <= full_blocks_of st bs.
Proof.
  unfold full_blocks_of. pose proof (Z.div_pos (size_of (snap_tokens st)) bs (size_of_nonneg _) Hbs).
  destruct (_ && _); lia.
Qed.

Lemma store_paged_spec id st d :
  computed st -> text_of st ∈ texts ->
  spec (at_device d) (store_paged visits id st) (fun _ => at_device d) (at_device d).
Proof.
  intros Hst Htext. apply spec_each. intros s Hs. apply spec_seq_read.
  destruct (orb _ _); [by apply spec_done|]. apply (spec_start _ _ _ _ _ Hs).
  eapply spec_bind; [apply block_size_spec|]. intros block_size. apply spec_each. intros s1 [Hs1 ->].
  pose proof (full_blocks_nonneg st) as Hnonneg. pose proof (full_blocks_bound st) as Hbound.
  cbv zeta. destruct (Z.eqb_spec (full_blocks_of st bs) 0); [by apply spec_done|].
  eapply spec_seq; [apply (spec_start _ _ _ _ _ Hs1), (matched_spec (snap_tokens st) []); by rewrite app_nil_r|done|].
  intros existing s2 (Hs2 & prefix & rest & Htokens & Hm & Hb).
  pose proof (known_blocks_chain (input_key st) _ _ _ existing Htokens Hm Hb) as Hchain.
  set (known := known_blocks _ _ _) in *. clearbody known.
  destruct (Z.ltb_spec (full_blocks_of st bs) (size_of known)) as [|Hle]; [by apply spec_raised|].
  set (full := Z.to_nat (full_blocks_of st bs)).
  assert (full_blocks_of st bs = Z.of_nat full) as Efull by lia. rewrite Efull in *.
  assert (forall j, (j < full)%nat -> (j * B < length (snap_tokens st))%nat) as Hin by (intros j Hj; apply Hbound; lia).
  eapply spec_seq.
  { apply (spec_start _ _ _ _ _ Hs2), (store_blocks_spec st full d Hst Htext Hin (full - length known) known); [unfold size_of in *; lia|done]. }
  { done. }
  intros blocks s3 Hs3. apply (spec_start _ _ _ _ _ Hs3).
  apply (spec_bind _ _ _ (fun _ => at_device d)); [|intros ?; destruct (bool_decide _); [by apply spec_ret|apply bind_blocks_spec]].
  destruct (Z.eqb_spec (size_of known) (Z.of_nat full)) as [E|]; [|by apply spec_ret].
  rewrite <- E. apply refresh_checkpoint_spec; try done; [unfold size_of in *; lia|].
  apply Hin. unfold size_of in *. lia.
Qed.

Lemma store_spec id st d :
  computed st -> text_of st ∈ texts ->
  spec (at_device d) (store iter visits id st) (fun _ => at_device d) (at_device d).
Proof.
  intros Hst Htext. apply spec_each. intros s Hs. apply spec_seq_read. destruct (negb _); [by apply spec_done|].
  apply (spec_start _ _ _ _ _ Hs). cbv zeta. apply (spec_bind _ _ _ (fun _ => at_device d)).
  { destruct (_ && _); [by apply store_paged_spec|by apply spec_ret]. }
  intros ?. destruct (_ && negb _); [by apply spec_ret|]. apply spec_each. intros s1 Hs1. apply spec_seq_read.
  destruct (orb _ _); [by apply spec_done|]. destruct (_ <? _); [by apply spec_done|].
  apply (spec_start _ _ _ _ _ Hs1). apply (spec_bind _ _ _ (fun _ => at_device d)).
  - destruct (se_native_hot s1); [apply snapshot_name_spec|by apply spec_ret].
  - intros name. by apply store_snapshot_spec.
Qed.
End Restoring.
