(* ===== verification/SessionRuns.v ===== *)
(** * Runs of the session cache

    [restored_is_computed]: after any calls, whatever [SessionCache.restore_best] gives the
    model, from a snapshot or decoded from blocks of the paged cache, is the state of having
    computed exactly the first tokens of the prompt with its media; a call that restores
    nothing leaves the device as it was or reset. [best_snapshot_restored]: a snapshot that
    fits is restored, and none that fits is longer. The last section runs the session cache
    on the threaded paged cache with a codec that sums tokens. *)

From stdpp Require Import base list sets strings gmap pretty.
From Stdlib Require Import ZArith Lia.
From S2P Require Import Prelude Returns Sha256 SnapshotCache SessionBindings LittleEndian BlockFile BlockStore PrefixCache PrefixCacheSteps PrefixService SessionCache SessionCacheLaws.

#[local] Set Default Proof Using "Type".
#[local] Open Scope Z_scope.

(** ** Calls *)

(** A call of the engine, or a computation of the model between two of them. *)
Inductive Call (D State : Type) :=
  | CRestore (mtp : bool) (requested : string) (prompt : list Z) (maximum_prefix_tokens : Z) (key : list Z)
  | CStore (id : string) (st : State)
  | CFork (source target : string)
  | CClose (id : string)
  | CClearLive
  | CClear
  | CTrim (target : Z)
  | CHotLimit (limit : Z)
  | CDiskLimit (limit : Z)
  | CRamLimit (limit : Z)
  | CReserve (bytes : Z)
  | CRefresh
  | CCompute (d : D).
Arguments CRestore {D State}. Arguments CStore {D State}. Arguments CFork {D State}. Arguments CClose {D State}.
Arguments CClearLive {D State}. Arguments CClear {D State}. Arguments CTrim {D State}. Arguments CHotLimit {D State}.
Arguments CDiskLimit {D State}. Arguments CRamLimit {D State}. Arguments CReserve {D State}. Arguments CRefresh {D State}.
Arguments CCompute {D State}.

Section Runs.
Context {P D State MState Hidden : Type}.
Context `{Hlaws : PagedLaws P} `{Hbackend : Backend State MState} `{Hdevice : Device D State MState Hidden}.
Context (iter : gmap string (list (Entry State)) -> list (string * list (Entry State))).
Context (visits : binding_order).

Definition perform_call (c : Call D State) : N (Session P D State) unit :=
  match c with
  | CRestore mtp requested prompt maximum key => restore_best iter visits mtp requested prompt maximum key ≫= fun _ => mret tt
  | CStore id st => SessionCache.store iter visits id st
  | CFork source target => fork_session iter visits source target ≫= fun _ => mret tt
  | CClose id => close_session iter visits id ≫= fun _ => mret tt
  | CClearLive => clear_live_sessions iter visits ≫= fun _ => mret tt
  | CClear => SessionCache.clear iter visits ≫= fun _ => mret tt
  | CTrim target => SessionCache.trim_hot iter target ≫= fun _ => mret tt
  | CHotLimit limit => SessionCache.set_hot_limit iter limit ≫= fun _ => mret tt
  | CDiskLimit limit => SessionCache.set_disk_limit limit ≫= fun _ => mret tt
  | CRamLimit limit => SessionCache.set_ram_limit limit ≫= fun _ => mret tt
  | CReserve bytes => SessionCache.reserve_ram bytes
  | CRefresh => SessionCache.refresh_disk_index ≫= fun _ => mret tt
  | CCompute d => write (SessionCache.set_device d)
  end.

(** Calls one after the other; the engine goes on after one that throws. *)
Definition run_calls (calls : list (Call D State)) : N (Session P D State) unit :=
  for_fold calls (fun _ c => try_with (perform_call c) (fun _ => mret tt)) tt.

Section Computed.
Context (Hiter : forall m, iter m ≡ₚ map_to_list m).
Context (n : Namespace) (Hbs : 0 < block_size_tokens n).
Context (computed : State -> Prop) (texts : list (list Z * list Z)).
Context (codec : CodecLaws n computed) (distinct : Texts n texts).

(** Prompts and states are of the texts, and a stored state was computed. *)
Definition allowed (c : Call D State) : Prop :=
  match c with
  | CRestore _ _ prompt _ key => (key, prompt) ∈ texts
  | CStore _ st => computed st /\ text_of st ∈ texts
  | _ => True
  end.

#[local] Notation ok := (good n computed texts).
#[local] Notation at_dev := (at_device n computed texts).

#[local] Set Default Proof Using "All".

(** A call that leaves the device alone. *)
Lemma alone_spec {A} (m : N (Session P D State) A) :
  (forall d, spec (at_dev d) m (fun _ => at_dev d) (at_dev d)) ->
  spec ok (m ≫= fun _ => mret tt) (fun _ => ok) ok.
Proof.
  intros Hm. apply (spec_bind _ _ _ (fun _ => ok)); [|intros ?; by apply spec_ret].
  by eapply quiet_good.
Qed.

Lemma read_spec {A} (k : Session P D State -> N (Session P D State) A) d :
  (forall s, spec (at_dev d) (k s) (fun _ => at_dev d) (at_dev d)) ->
  spec (at_dev d) (read ≫= k) (fun _ => at_dev d) (at_dev d).
Proof. intros Hk s Hs. by apply (Hk s). Qed.

Lemma then_spec {A B} (m : N (Session P D State) A) (k : A -> N (Session P D State) B) d :
  spec (at_dev d) m (fun _ => at_dev d) (at_dev d) ->
  (forall a, spec (at_dev d) (k a) (fun _ => at_dev d) (at_dev d)) ->
  spec (at_dev d) (m ≫= k) (fun _ => at_dev d) (at_dev d).
Proof. intros Hm Hk. by eapply spec_bind. Qed.

Lemma budgets_spec d (f : Session P D State -> Session P D State) :
  (forall s, se_snapshots (f s) = se_snapshots s /\ se_paged (f s) = se_paged s /\ se_device (f s) = se_device s) ->
  spec (at_dev d) (write f) (fun _ => at_dev d) (at_dev d).
Proof.
  intros Hf. apply spec_write. intros s [[Hs Hp] Hd]. destruct (Hf s) as (E1 & E2 & E3).
  split; [split; [by rewrite E1|by rewrite E2]|by rewrite E3].
Qed.

Lemma ret_spec {A} (a : A) (d : D) : spec (at_dev d) (mret a : N (Session P D State) A) (fun _ => at_dev d) (at_dev d).
Proof. by apply spec_ret. Qed.

(** A composition of calls that leave the device alone. *)
Ltac alone :=
  repeat match goal with
  | |- spec _ (read ≫= _) _ _ => apply read_spec; intros ?
  | |- spec _ (_ ≫= _) _ _ => apply then_spec; [|intros ?]
  | |- spec _ (if ?b then _ else _) _ _ => destruct b
  | |- spec _ (mret _) _ _ => apply ret_spec
  | |- spec _ (write _) _ _ => by apply budgets_spec
  | |- spec _ (on_bindings _) _ _ => by eapply bindings_spec
  | |- spec _ (on_paged _) _ _ => eapply paged_quiet; [done..|]
  | |- spec _ (on_snapshots _) _ _ => eapply snapshots_spec; [done..|]; intros ?
  end.

Lemma perform_call_spec c : allowed c -> spec ok (perform_call c) (fun _ => ok) ok.
Proof.
  intros Hc. destruct c; cbn [perform_call allowed] in *.
  - apply (spec_bind _ _ _ (fun _ => ok)); [|intros ?; by apply spec_ret].
    intros s Hs. pose proof (restore_best_spec iter Hiter visits n Hbs computed texts codec distinct mtp requested prompt key
      maximum_prefix_tokens (se_device s) Hc s (conj Hs eq_refl)) as H1.
    destruct (restore_best _ _ _ _ _ _ _ s) as [[[?|?] ?]|]; [by destruct H1|done|done].
  - destruct Hc. eapply quiet_good; [done..|]. intros d. by apply store_spec.
  - apply alone_spec. intros d. unfold fork_session. alone. by apply fork_states.
  - apply alone_spec. intros d. unfold close_session. alone. by apply close_states.
  - apply alone_spec. intros d. unfold clear_live_sessions. alone. by apply clear_states.
  - apply alone_spec. intros d. unfold SessionCache.clear. alone; [by apply clear_states|apply law_clear].
  - apply alone_spec. intros d. unfold SessionCache.trim_hot. alone; [by apply trim_states|apply law_trim_hot].
  - apply alone_spec. intros d. unfold SessionCache.set_hot_limit. alone; [by apply set_limit_states|apply law_set_hot_limit].
  - apply alone_spec. intros d. unfold SessionCache.set_disk_limit. alone. apply law_set_disk_limit.
  - apply alone_spec. intros d. unfold SessionCache.set_ram_limit. alone. apply law_set_hot_limit.
  - eapply quiet_good; [done..|]. intros d. unfold SessionCache.reserve_ram. alone. apply law_reserve_ram.
  - apply alone_spec. intros d. unfold refresh_disk_index. alone. apply law_refresh.
  - apply spec_write. intros s Hs. by eapply good_device.
Qed.

Lemma run_calls_spec calls : Forall allowed calls -> spec ok (run_calls calls) (fun _ => ok) ok.
Proof.
  intros Hcalls. apply (spec_for _ _ (fun _ => ok)). intros ? c Hc. rewrite Forall_forall in Hcalls.
  eapply spec_try; [by apply perform_call_spec, Hcalls|]. intros ?. by apply spec_ret.
Qed.

(** A new cache, and the calls the engine made of it. *)
Lemma start_good snapshots prefix paged supported reason native_hot (d : D) :
  (forall p, paged = Some p -> view_ok view p /\ view_space view p = n /\ view_stored view p = []) ->
  ok (make_session snapshots prefix paged supported reason native_hot d).
Proof.
  intros Hp. split; [intros id h e; cbn; by rewrite lookup_empty|]. cbn. intros p E.
  destruct (Hp p E) as (? & ? & Est). rewrite Est. split_and!; try done. set_solver.
Qed.

(** C4: after any calls on a new session cache, of prompts and computed states no two
    prefixes of which have one hash, a [restore_best] that returns either restored nothing,
    and left the device as it was or reset, or it gave the model, and the predictor when
    there is one, a computed state of exactly the first [re_tokens] tokens of the prompt
    and with its media, fewer than the prompt has and no more than was allowed: be it from
    a snapshot or decoded from blocks that the paged cache kept in memory or in files. *)
Theorem restored_is_computed snapshots prefix paged supported reason native_hot d0 calls mtp requested prompt maximum key s :
  (forall p, paged = Some p -> view_ok view p /\ view_space view p = n /\ view_stored view p = []) ->
  Forall allowed calls -> (key, prompt) ∈ texts ->
  run_calls calls (make_session snapshots prefix paged supported reason native_hot d0) = Some (Ok tt, s) ->
  match restore_best iter visits mtp requested prompt maximum key s with
  | Some (Ok r, s') => answer computed mtp key prompt maximum (se_device s) r (se_device s')
  | _ => True
  end.
Proof.
  intros Hp Hcalls Htext Hrun.
  pose proof (run_calls_spec calls Hcalls _ (start_good snapshots prefix paged supported reason native_hot d0 Hp)) as Hs.
  rewrite Hrun in Hs.
  pose proof (restore_best_spec iter Hiter visits n Hbs computed texts codec distinct mtp requested prompt key maximum
    (se_device s) Htext s (conj Hs eq_refl)) as H1.
  destruct (restore_best _ _ _ _ _ _ _ s) as [[[r|?] s']|]; [by destruct H1|done|done].
Qed.
End Computed.
End Runs.

(** ** A stored snapshot is restored *)

Section Stored.
Context {P D State MState Hidden : Type}.
Context `{Hcache : PagedCache P} `{Hbackend : Backend State MState} `{Hdevice : Device D State MState Hidden}.
Context (iter : gmap string (list (Entry State)) -> list (string * list (Entry State))).
Context (Hiter : forall m, iter m ≡ₚ map_to_list m).
Context (visits : binding_order).
#[local] Set Default Proof Using "All".

(** What the device is given by a restore that succeeds. *)
Lemma restore_device_given mtp st (s : Session P D State) d' hidden tokens :
  given mtp st (se_device s) d' hidden ->
  restore_device mtp st tokens s = Some (Ok {| re_tokens := tokens; re_hidden := hidden |}, SessionCache.set_device d' s).
Proof.
  intros (d1 & H1 & H2). unfold restore_device, on_device, mbind, N_bind. rewrite H1. destruct mtp.
  - destruct H2 as (m & -> & H2 & ->). cbn. by rewrite H2.
  - by destruct H2 as [-> ->].
Qed.

(** The snapshot that matches is restored, and its session noted. *)
Lemma restore_match_returns mtp m (s : Session P D State) h e d' hidden :
  se_paged s = None -> SnapshotCache.states (se_snapshots s) !! session_id m = Some h -> h !! index m = Some e ->
  given mtp (SnapshotCache.state e) (se_device s) d' hidden ->
  exists s', restore_match iter mtp m s =
    Some (Ok {| re_tokens := entry_tokens e; re_hidden := hidden |}, s') /\ se_device s' = d'.
Proof.
  intros Hp Hh He Hg. unfold restore_match, read, match_state, has_paged, try_with.
  set (tokens := size_of (snap_tokens (SnapshotCache.state e))).
  pose proof (restore_device_given mtp _ s d' hidden tokens Hg) as Hr.
  unfold mbind, N_bind in *. cbn. rewrite Hh. cbn. rewrite He. cbn. fold tokens. rewrite Hr.
  unfold record_hit, SnapshotCache.record_hit. cbn. rewrite Hh, He. cbn. rewrite Hp. cbn. by eexists.
Qed.

Lemma restore_snapshot_longest mtp requested prompt maximum key (s : Session P D State) st :
  se_paged s = None -> supports_text_session_state (se_device s) = true ->
  SnapshotCache.inv (se_snapshots s) -> enabled (se_snapshots s) = true -> (requested <> EmptyString \/ se_native_hot s = true) ->
  (exists id t, SnapshotCache.holds (SnapshotCache.states (se_snapshots s)) id {| SnapshotCache.state := st; last_used := t |}) ->
  matches prompt maximum (eligible mtp key (se_device s)) st ->
  (forall st', matches prompt maximum (eligible mtp key (se_device s)) st' -> exists d' hidden, given mtp st' (se_device s) d' hidden) ->
  exists r s' st', restore_snapshot iter visits mtp requested prompt maximum key s = Some (Ok r, s') /\
    matches prompt maximum (eligible mtp key (se_device s)) st' /\ re_tokens r = size_of (snap_tokens st') /\
    size_of (snap_tokens st) <= re_tokens r /\ given mtp st' (se_device s) (se_device s') (re_hidden r).
Proof.
  intros Hp Hs Hi Hen Hreq (id & t & Hh) Hm Htakes. unfold restore_snapshot, read, mbind, N_bind. rewrite Hs. cbn [negb].
  set (session := if _ && _ then _ else _).
  assert (session <> EmptyString) as Hsession.
  { subst session. destruct Hreq as [Hr| ->]; [|case_bool_decide; done]. rewrite (bool_decide_false _ Hr), andb_false_r. done. }
  pose proof (find_best_ok iter Hiter session prompt maximum (eligible mtp key (se_device s)) _ Hi Hsession Hen) as Hf.
  unfold on_snapshots. destruct (find_best _ _ _ _ _ _) as [[m|] c]; destruct Hf as (Hc & _ & Hf).
  2: { by destruct (Hf id _ Hh). }
  destruct Hf as (h & e & Hl & He & Hme & Hmax). destruct (Htakes _ Hme) as (d' & hidden & Hg).
  destruct (restore_match_returns mtp m (SessionCache.set_snapshots c s) h e d' hidden Hp) as (s' & -> & Hd); try done.
  { cbn. by rewrite Hc. }
  eexists _, s', (SnapshotCache.state e). split; [done|]. split; [done|]. split; [done|]. split; [|by rewrite Hd].
  by apply (Hmax id _ Hh).
Qed.

End Stored.

(** ** A run

    A codec whose state is a sum of tokens, on the threaded paged cache: the state after
    three tokens is stored in two blocks, the second shorter; the writer writes both while
    the engine trims the memory tier; the prompt is then restored from the files. *)

Module Toy.
Record state := { tokens : list Z; key : list Z; sum : Z }.

Definition total (l : list Z) : Z := foldr Z.add 0 l.

#[export] Instance toy_snapshot : SnapshotState state := {| snap_tokens := tokens; snap_bytes _ := 10 |}.

#[export] Instance toy_backend : Backend state unit := {|
  input_key := key;
  set_input_key k st := {| tokens := tokens st; key := k; sum := sum st |};
  state_mtp _ := None;
  is_state_error _ := true;
  state_error := LogicError;
  encode st block_size index := Ok (Some [total (block_tokens (tokens st) block_size index)]);
  decode payloads toks block_size := Ok {| tokens := toks; key := []; sum := total (mjoin payloads) |};
  decodable_blocks := None;
  token_count := None;
  paged_mtp := None;
  paged_media := None;
  partial_blocks := Some (fun _ => true);
  checkpoint_needs_update := None;
|}.

(** The model holds the state it was given, if any. *)
#[export] Instance toy_device : Device (option state) state unit unit := {|
  supports_text_session_state _ := true;
  supports_paged_text_session_state _ := true;
  restore_text_session_state st _ := (Ok tt, Some st);
  reset_model _ := (Ok tt, None);
  mtp_supports_session_state _ := false;
  restore_session_state _ d := (Ok tt, d);
  reset_mtp d := (Ok tt, d);
  last_target_hidden _ := tt;
|}.

Definition computed (st : state) : Prop := sum st = total (tokens st).

Definition in_order : gmap string (list (Entry state)) -> list (string * list (Entry state)) := map_to_list.
Definition bindings : binding_order := map_to_list.

#[export] Instance toy_cache : PagedCache Service := service_cache (fun _ => Ok tt).
#[export] Instance toy_laws : PagedLaws Service := service_laws (fun _ => Ok tt).

Definition space : Namespace := PrefixCache.space example_config.

Definition moment (others : list Action) : Moment :=
  {| mo_volume := volume example_world; mo_faults := []; mo_others := others; mo_ram := None |}.

Definition writes : list Action := [ATurn None; AWrite 0 1 1; AFinish 0 2; AEnd 0; ATurn None; AWrite 0 3 2; AFinish 0 4; AEnd 0].

Definition service : Service := {|
  sv_system := example_start;
  sv_schedule := [moment []; moment []; moment []; moment writes];
|}.

Definition start : Session Service (option state) state :=
  make_session {| max_sessions := 4; max_snapshots_per_session := 2; max_bytes := 100 |}
    {| px_enabled := true; px_disk_bytes := 4000; px_hot_bytes := 100; px_ram_bytes := 0 |}
    (Some service) true 0 false None.

Definition stored : state := {| tokens := [5; 6; 7]; key := []; sum := 18 |}.
Definition prompt : list Z := [5; 6; 7; 8].
Definition texts : list (list Z * list Z) := [([], [5; 6; 7]); ([], prompt)].

Definition calls : list (Call (option state) state) :=
  [CStore "a" stored; CTrim 0; CCompute (Some {| tokens := [1]; key := []; sum := 1 |})].
End Toy.
Import Toy.

(** Every nonempty prefix of the texts. *)
Definition prefixes (l : list (list Z * list Z)) : list (list Z * list Z) :=
  l ≫= fun t => (fun i => (t.1, take (S i) t.2)) <$> seq 0 (length t.2).

(** No two prefixes have one hash, as a computation. *)
Definition distinct_hashes (n : Namespace) (l : list (list Z * list Z)) : bool :=
  let hashed := (fun x => (x, prefix_hash n x.1 x.2)) <$> prefixes l in
  forallb (fun a => forallb (fun b => negb (bool_decide (a.2 = b.2)) || bool_decide (a.1 = b.1)) hashed) hashed.

Lemma prefixes_in l k t rest : (k, t ++ rest) ∈ l -> t <> [] -> (k, t) ∈ prefixes l.
Proof.
  intros Hl Ht. apply list_elem_of_bind. exists (k, t ++ rest). split; [|done]. apply list_elem_of_fmap.
  exists (length t - 1)%nat. cbn. destruct t as [|x t]; [done|]. split.
  - replace (S (length (x :: t) - 1)) with (length (x :: t)) by (cbn; lia). by rewrite take_app_length.
  - apply elem_of_seq. rewrite length_app. cbn. lia.
Qed.

Lemma distinct_hashes_ok n l k t rest k' t' rest' :
  distinct_hashes n l = true -> (k, t ++ rest) ∈ l -> (k', t' ++ rest') ∈ l -> t <> [] -> t' <> [] ->
  prefix_hash n k t = prefix_hash n k' t' -> k = k' /\ t = t'.
Proof.
  intros Hd Hl Hl' Ht Ht' E. apply prefixes_in in Hl, Hl'; [|done..]. unfold distinct_hashes in Hd.
  set (f := fun x => (x, prefix_hash n x.1 x.2)) in Hd.
  rewrite forallb_forall in Hd. specialize (Hd (f (k, t))).
  rewrite <- list_elem_of_In in Hd. specialize (Hd ltac:(by apply list_elem_of_fmap_2)).
  rewrite forallb_forall in Hd. specialize (Hd (f (k', t'))).
  rewrite <- list_elem_of_In in Hd. specialize (Hd ltac:(by apply list_elem_of_fmap_2)).
  subst f. cbn [fst snd] in Hd. rewrite (bool_decide_true _ E) in Hd. cbn [negb orb] in Hd.
  apply bool_decide_eq_true in Hd. by injection Hd.
Qed.

Lemma toy_texts : Texts space texts.
Proof.
  split.
  - intros k t Ht. assert (k = [] /\ (t = [5; 6; 7] \/ t = prompt)) as [-> Hcases] by set_solver.
    destruct Hcases as [-> | ->]; (split; [repeat constructor; unfold s64_max; lia|split; by vm_compute]).
  - intros k t rest k' t' rest'. apply distinct_hashes_ok. by vm_compute.
Qed.

Lemma total_app l k : total (l ++ k) = total l + total k.
Proof. unfold total. induction l as [|x l IH]; [done|]. cbn [app foldr]. lia. Qed.

Lemma total_join l : total (mjoin ((fun part => [total part]) <$> l)) = total (mjoin l).
Proof.
  induction l as [|x l IH]; [done|]. change (mjoin (x :: l)) with (x ++ mjoin l). rewrite total_app, <- IH.
  change (mjoin (_ <$> x :: l)) with ([total x] ++ mjoin ((fun part => [total part]) <$> l)).
  rewrite total_app. change (total [total x]) with (total x + 0). lia.
Qed.

Lemma toy_codec : CodecLaws space computed.
Proof.
  split; [done| |done|done]. intros k toks payloads st Hall Hlen [= <-]. split; [|done].
  unfold computed. cbn [sum tokens set_input_key toy_backend].
  assert (0 < block_size_tokens space) as Hbs by done.
  rewrite <- (segments_join _ toks Hbs), <- (total_join (segments _ toks)). do 2 f_equal.
  apply list_eq. intros j. rewrite list_lookup_fmap. destruct (payloads !! j) as [p|] eqn:Hj.
  - destruct (Hall j p Hj) as (st & _ & _ & Hin & He & E).
    pose proof (lookup_lt_Some _ _ _ Hj) as Hlt. rewrite Hlen in Hlt. apply (segments_bound space Hbs) in Hlt.
    rewrite (segments_lookup space Hbs). destruct (Nat.ltb_spec (j * Z.to_nat (block_size_tokens space)) (length toks)); [|lia].
    cbn [fmap option_fmap option_map]. cbn [encode toy_backend] in He. rewrite (block_tokens_nth space Hbs) in He.
    injection He as <-. apply (block_tokens_upto space Hbs) in E. exact (f_equal (fun l => Some [total l]) E).
  - apply lookup_ge_None in Hj. rewrite Hlen in Hj. by rewrite (proj2 (lookup_ge_None _ _) Hj).
Qed.

Lemma toy_starts : forall p, Some service = Some p -> view_ok view p /\ view_space view p = space /\ view_stored view p = [].
Proof.
  intros p [= <-]. change (service_ok service /\ namespace (sv_system service) = space /\ sys_stored (sv_system service) = []).
  assert (namespace (sv_system service) = space) as E by (by vm_compute).
  split; [|split; [exact E|by vm_compute]]. split; [rewrite E|split; [by rewrite E|by vm_compute]].
  apply (starts_ok example_config). apply (Starts example_config example_config id 0 [] example_world []); done.
Qed.

Lemma toy_prompt : ([], prompt) ∈ texts.
Proof. set_solver. Qed.

Lemma toy_allowed : Forall (allowed computed texts) calls.
Proof. repeat constructor; set_solver. Qed.

Lemma toy_good s : run_calls in_order bindings calls start = Some (Ok tt, s) -> good space computed texts s.
Proof.
  intros Hrun.
  pose proof (start_good in_order bindings (fun m => reflexivity _) space eq_refl computed texts toy_codec toy_texts
    {| max_sessions := 4; max_snapshots_per_session := 2; max_bytes := 100 |}
    {| px_enabled := true; px_disk_bytes := 4000; px_hot_bytes := 100; px_ram_bytes := 0 |}
    (Some service) true 0 false None toy_starts) as H0.
  pose proof (run_calls_spec in_order bindings (fun m => reflexivity _) space eq_refl computed texts toy_codec toy_texts
    calls toy_allowed _ H0) as H1.
  change (match run_calls in_order bindings calls start with
          | Some (Ok _, s') => good space computed texts s' | Some (Throw _, s') => good space computed texts s' | None => True end) in H1.
  by rewrite Hrun in H1.
Qed.

Lemma restored_is_computed_witness :
  exists s s', run_calls in_order bindings calls start = Some (Ok tt, s) /\
    restore_best in_order bindings false "a" prompt 3 [] s = Some (Ok {| re_tokens := 3; re_hidden := None |}, s') /\
    se_device s' = Some stored /\
    answer computed false [] prompt 3 (se_device s) {| re_tokens := 3; re_hidden := None |} (se_device s').
Proof.
  assert (match run_calls in_order bindings calls start with
          | Some (Ok tt, s) => match restore_best in_order bindings false "a" prompt 3 [] s with
                               | Some (Ok r, s') => (re_tokens r, re_hidden r, se_device s') = (3, None, Some stored)
                               | _ => False end
          | _ => False end) as E by (by vm_compute).
  destruct (run_calls in_order bindings calls start) as [[[[]|?] s]|] eqn:Hrun; [|destruct E..].
  destruct (restore_best in_order bindings false "a" prompt 3 [] s) as [[[[k h]|?] s']|] eqn:Hr; [|destruct E..].
  injection E as -> -> E. exists s, s'. split; [reflexivity|]. split; [exact Hr|]. split; [exact E|].
  pose proof (restored_is_computed in_order bindings (fun m => reflexivity _) space eq_refl computed texts toy_codec toy_texts
    {| max_sessions := 4; max_snapshots_per_session := 2; max_bytes := 100 |}
    {| px_enabled := true; px_disk_bytes := 4000; px_hot_bytes := 100; px_ram_bytes := 0 |}
    (Some service) true 0 false None calls false "a" prompt 3 [] s toy_starts toy_allowed toy_prompt Hrun) as H1.
  rewrite Hr in H1. exact H1.
Defined.

(** A session cache without a paged cache. *)
Definition memory_only : Session Service (option state) state :=
  make_session {| max_sessions := 4; max_snapshots_per_session := 2; max_bytes := 100 |}
    {| px_enabled := false; px_disk_bytes := 0; px_hot_bytes := 0; px_ram_bytes := 0 |} None true 0 false None.

