(* ===== verification/SessionReturns.v ===== *)
(** * A restore returns

    [restore_returns]: a [SessionCache.restore_best] waits for another thread only when it
    invalidates a block that is still being written; every other call it makes returns,
    whatever the other threads do. *)

From stdpp Require Import base list sets strings gmap.
From Stdlib Require Import ZArith Lia.
From S2P Require Import Prelude Returns SnapshotCache SessionBindings LittleEndian BlockFile PrefixCache PrefixCacheSteps PrefixService SessionCache SessionCacheLaws SessionRuns.

#[local] Set Default Proof Using "Type".
#[local] Open Scope Z_scope.

Section Returning.
Context {P D State MState Hidden : Type}.
Context `{Hreturns : PagedReturns P} `{Hbackend : Backend State MState} `{Hdevice : Device D State MState Hidden}.
Context (iter : gmap string (list (Entry State)) -> list (string * list (Entry State))).
Context (Hiter : forall m, iter m ≡ₚ map_to_list m).
Context (visits : binding_order).
#[local] Notation Sess := (Session P D State).
#[local] Set Default Proof Using "All".

(** The one call that may wait does. *)
Definition invalidation_waits : Prop := exists hash p, view_ok view p /\ paged_invalidate hash p = None.

(** The paged cache is there or not, and in order. *)
Definition able (b : bool) (s : Sess) : Prop :=
  has_paged s = b /\ forall p, se_paged s = Some p -> view_ok view p.

(** The call returns, or the invalidation waits. *)
Definition ends {A} (b : bool) (m : N Sess A) : Prop :=
  forall s, able b s -> match m s with Some (_, s') => able b s' | None => invalidation_waits end.

Lemma ends_ret {A} b (a : A) : ends b (mret a).
Proof. by intros s Hs. Qed.

Lemma ends_raise {A} b e : ends b (raise e : N Sess A).
Proof. by intros s Hs. Qed.

Lemma ends_outcome {A} b (o : outcome A) : ends b (of_outcome o).
Proof. by intros s Hs. Qed.

Lemma ends_bind {A B} b (m : N Sess A) (k : A -> N Sess B) : ends b m -> (forall a, ends b (k a)) -> ends b (m ≫= k).
Proof.
  intros Hm Hk s Hs. specialize (Hm s Hs). unfold mbind, N_bind. destruct (m s) as [[[a|e] s']|]; [by apply Hk|done..].
Qed.

Lemma ends_reading {A} b (k : Sess -> N Sess A) : (forall s, ends b (k s)) -> ends b (read ≫= k).
Proof. intros Hk s Hs. by apply Hk. Qed.

(** The state that is read is that in which the rest is called. *)
Lemma ends_read {A} b (k : Sess -> N Sess A) :
  (forall s, able b s -> match k s s with Some (_, s') => able b s' | None => invalidation_waits end) -> ends b (read ≫= k).
Proof. intros Hk s Hs. by apply Hk. Qed.

Lemma ends_try {A} b (m : N Sess A) h : ends b m -> (forall e, ends b (h e)) -> ends b (try_with m h).
Proof.
  intros Hm Hh s Hs. specialize (Hm s Hs). unfold try_with. destruct (m s) as [[[a|e] s']|]; [done|by apply Hh|done].
Qed.

Lemma ends_device {A} b (m : M D A) : ends b (on_device m).
Proof. intros s Hs. unfold on_device. by destruct (m (se_device s)). Qed.

Lemma ends_snapshots {A} b (f : SnapshotCache.Cache State -> A * SnapshotCache.Cache State) : ends b (on_snapshots f).
Proof. intros s Hs. unfold on_snapshots. by destruct (f (se_snapshots s)). Qed.

Lemma ends_bindings {A} b (f : Bindings -> A * Bindings) : ends b (on_bindings f).
Proof. intros s Hs. unfold on_bindings. by destruct (f (se_bindings s)). Qed.

Lemma ends_write b (f : Sess -> Sess) : (forall s, se_paged (f s) = se_paged s) -> ends b (write f).
Proof. intros Hf s [Hb Hs]. split; unfold has_paged in *; by rewrite Hf. Qed.

(** A call on the paged cache, in a branch that has one. *)
Lemma ends_paged {A} (m : N P A) (Q : P -> A -> P -> Prop) :
  (forall p, view_ok view p -> m p = None -> invalidation_waits) ->
  (forall p, view_ok view p -> spec (eq p) m (fun a p' => since view [] p p' /\ Q p a p') (since view [] p)) ->
  ends true (on_paged m).
Proof.
  intros Hm Hspec s [Hb Hs]. unfold on_paged, has_paged in *. destruct (se_paged s) as [p|] eqn:Hp; [|done].
  specialize (Hspec p (Hs p eq_refl) p eq_refl). specialize (Hm p (Hs p eq_refl)).
  destruct (m p) as [[[a|e] p']|]; [destruct Hspec as [[Hok _ _ _] _]|destruct Hspec as [Hok _ _ _]|by apply Hm];
    (split; [done|]; by intros ? [= <-]).
Qed.

Lemma ends_stores_nothing {A} (m : N P A) :
  (forall p, view_ok view p -> m p = None -> invalidation_waits) -> stores_nothing view m -> ends true (on_paged m).
Proof.
  intros Hm Hq. apply (ends_paged m (fun _ _ _ => True)); [done|]. intros p Hp.
  by eapply spec_weaken; [apply (Hq p Hp)|done|..].
Qed.

Lemma ends_record matched : ends true (record_match (P := P) (D := D) (State := State) matched).
Proof. apply ends_stores_nothing, law_record_match. intros p Hp Hno. by apply record_returns in Hno. Qed.

Lemma ends_name b id : ends b (snapshot_name (P := P) (D := D) (State := State) id).
Proof.
  unfold snapshot_name. destruct (bool_decide (id = EmptyString)); [|apply ends_ret].
  apply ends_bind; [|intros ?; apply ends_ret]. apply ends_bind; [by apply ends_write|]. intros _. apply ends_read.
  intros s Hs. done.
Qed.

Lemma ends_store_snapshot b id st : ends b (store_snapshot (P := P) (D := D) iter id st).
Proof. intros s Hs. unfold store_snapshot. by destruct (SnapshotCache.store _ _ _ _ _). Qed.

Lemma ends_record_hit b m : ends b (record_hit (P := P) (D := D) (State := State) m).
Proof. intros s Hs. unfold record_hit. by destruct (SnapshotCache.record_hit _ _ _). Qed.

(** A composition of calls that return. *)
Ltac ending :=
  repeat match goal with
  | |- ends _ (_ ≫= _) => apply ends_bind; [|intros ?]
  | |- ends _ (if ?b then _ else _) => destruct b
  | |- ends _ (mret _) => apply ends_ret
  | |- ends _ (raise _) => apply ends_raise
  | |- ends _ (of_outcome _) => apply ends_outcome
  | |- ends _ (on_device _) => apply ends_device
  | |- ends _ (on_snapshots _) => apply ends_snapshots
  | |- ends _ (erase_match _ _) => apply ends_snapshots
  | |- ends _ (bind_blocks _ _ _ _) => apply ends_bindings
  | |- ends _ (record_match _) => apply ends_record
  | |- ends _ (record_hit _) => apply ends_record_hit
  | |- ends _ (snapshot_name _) => apply ends_name
  | |- ends _ (store_snapshot _ _ _) => apply ends_store_snapshot
  end.

Lemma ends_reset b mtp : ends b (reset_device (P := P) (State := State) mtp).
Proof. unfold reset_device. ending. Qed.

Lemma ends_fail mtp blocks error : ends true (fail (P := P) (Hidden := Hidden) mtp blocks error).
Proof.
  unfold fail. apply ends_bind; [|intros ?; ending; apply ends_reset].
  destruct (is_state_error error); [|ending]. destruct (last blocks) as [block|]; [|ending]. ending.
  apply ends_stores_nothing, law_invalidate. intros p Hp Hno. by exists block, p.
Qed.

(** The predictor is restored from a state that has one. *)
Lemma ends_restore_device b mtp st tokens :
  (mtp = true -> is_Some (state_mtp st)) -> ends b (restore_device (P := P) mtp st tokens).
Proof.
  intros Hmtp. unfold restore_device. ending. destruct (state_mtp st); [ending|]. by destruct (Hmtp eq_refl).
Qed.

Lemma ends_decode_and_restore mtp requested prompt key limit payloads blocks matched block_size :
  ends true (decode_and_restore (P := P) iter visits mtp requested prompt key limit payloads blocks matched block_size).
Proof.
  unfold decode_and_restore. apply ends_bind; [ending|intros count]. destruct (limit <? count); [ending|].
  apply ends_bind; [ending|intros st]. apply ends_reading. intros s. destruct (_ && _) eqn:Hguard; [ending|].
  apply ends_bind; [|intros r; ending]. apply ends_restore_device. intros ->. apply orb_false_iff in Hguard as [_ Hguard%negb_false_iff].
  by apply bool_decide_eq_true in Hguard.
Qed.

Lemma ends_restore_paged mtp requested prompt maximum key :
  Forall in_s64 prompt -> size_of key <= u64_max ->
  ends true (restore_paged (P := P) iter visits mtp requested prompt maximum key).
Proof.
  intros Htyped Hkey. unfold restore_paged. apply ends_reading. intros s0.
  destruct (orb _ _); [ending|]. apply ends_bind.
  { eapply ends_paged; [intros p Hp Hno; by apply match_returns in Hno|]. intros p Hp. apply law_match; [done|by apply Forall_take|done]. }
  intros found. destruct (_ =? _); [ending|]. apply ends_bind.
  { eapply ends_paged; [intros p Hp Hno; by apply load_returns in Hno|]. intros p Hp. by apply law_load. }
  intros payloads. destruct (is_nil payloads); [ending|]. apply ends_bind.
  { apply ends_stores_nothing; [done|]. intros p Hp. intros ? <-. by apply since_refl. }
  intros block_size. unfold restore_payloads.
  destruct (match decodable_blocks with Some count => count payloads | None => Ok (size_of payloads) end); [|apply ends_fail].
  cbv zeta. destruct (is_nil _); (apply ends_try; [|intros e; apply ends_fail]); [ending|apply ends_decode_and_restore].
Qed.

Lemma ends_restore_match b mtp m st s :
  able b s -> match_state m (se_snapshots s) = Some st -> (mtp = true -> is_Some (state_mtp st)) ->
  match restore_match (P := P) (Hidden := Hidden) iter mtp m s with Some (_, s') => able b s' | None => invalidation_waits end.
Proof.
  intros Hs Hst Hmtp. change (restore_match iter mtp m s) with
    (match match_state m (se_snapshots s) with
     | None => never
     | Some st => try_with
         (restored ← restore_device mtp st (size_of (snap_tokens st));
          record_hit m ≫= fun _ =>
          (if has_paged s && se_native_hot s then record_match (size_of (snap_tokens st)) else mret tt) ≫= fun _ =>
          mret (restored : Restore Hidden))
         (fun _ => erase_match iter m ≫= fun _ => reset_device mtp ≫= fun _ => mret nothing_restored)
     end s). rewrite Hst. revert s Hs Hst. intros s Hs _. assert (b = has_paged s) as -> by (by destruct Hs).
  revert s Hs.
  enough (forall b native, ends b (try_with
         (restored ← restore_device mtp st (size_of (snap_tokens st));
          record_hit m ≫= fun _ =>
          (if b && native then record_match (size_of (snap_tokens st)) else mret tt) ≫= fun _ =>
          mret (restored : Restore Hidden))
         (fun _ => erase_match iter m ≫= fun _ => reset_device mtp ≫= fun _ => mret nothing_restored) : N Sess (Restore Hidden))) as Hall
    by (intros s Hs; by apply Hall).
  intros b native. apply ends_try; [|intros e; ending; apply ends_reset].
  apply ends_bind; [by apply ends_restore_device|intros r]. destruct b; cbn [andb]; ending.
Qed.

Lemma ends_restore_snapshot b mtp requested prompt maximum key :
  Forall in_s64 prompt -> size_of key <= u64_max ->
  ends b (restore_snapshot (P := P) iter visits mtp requested prompt maximum key).
Proof.
  intros Htyped Hkey. unfold restore_snapshot. apply ends_read. intros s Hs.
  destruct (negb _); [done|]. set (session := if se_native_hot s && bool_decide (requested = EmptyString) then _ else _). clearbody session.
  unfold mbind, N_bind, on_snapshots.
  pose proof (find_best_match iter session prompt maximum (eligible mtp key (se_device s)) (se_snapshots s)) as Hf.
  destruct (find_best _ _ _ _ _ _) as [[m|] c].
  - destruct (Hf m Hiter eq_refl) as (st & Hst & Hm). apply (ends_restore_match b mtp m st); [done|done|].
    intros ->. pose proof (mt_eligible _ _ _ _ Hm) as He. unfold eligible in He.
    apply andb_true_iff in He as [_ He]. cbn in He. apply andb_true_iff in He as [_ He]. by apply bool_decide_eq_true in He.
  - destruct Hs as [<- Hs]. destruct (has_paged s) eqn:Hp; cbn [andb]; [|done].
    destruct (se_native_hot s); [|done]. by apply ends_restore_paged.
Qed.

End Returning.

(** ** The run of [SessionRuns], restored *)

Import Toy.

