(* ===== verification/SpeculativeOps.v ===== *)
(** * The operations of a speculative generation

    What [engine/include/speculative_sequence.h] asks of its template parameter [Ops]: the
    target model, the predictor and the sampler of a backend. A tensor of hidden states is
    the list of its rows, one of logits the list of its rows. What the code tests with
    [requires] is an [option]. The depth policy is the interface [DepthControl], which the
    policy of [DepthPolicy] implements. *)

From stdpp Require Import base list strings.
From Stdlib Require Import ZArith Lia SpecFloat.
From S2P Require Import Prelude Float GenerationPolicy Numbers Speculation BatchPolicy BatchPolicyV1 DepthModel DsparkController DepthController DepthPolicy.

#[local] Set Default Proof Using "Type".
Open Scope Z_scope.

(** The positions a predictor is given: none, a part of the prompt's, or those of tokens
    decoded from a start on. *)
Inductive Positions := NoPositions | PromptPositions (offset count : Z) | DecodePositions (start count : Z).

(** The fields of [MfqSamplingParams] a generation reads. *)
Record Sampling := {
  temperature : spec_float;
  top_k : Z;
  top_p : spec_float;
  mtp_max_draft_tokens : Z;
}.

(** [Ops], its [model], its [mtp] and its sampler. *)
Class Ops `{Numbers} := {
  device : Type;
  row : Type;
  logits : Type;
  count_table : Type;
  cursor : Type;  (** [MfqTokenConstraint] *)
  (** The clock, and [PrefillActivity::recent()]. *)
  clock_now : M device Z;
  prefill_recent : M device bool;
  (** The target model. *)
  vocab_size : Z;
  max_position_embeddings : Z;
  cache_pos : device -> Z;
  set_decode_position_delta : Z -> M device unit;
  prefill : PrefillChunk -> M device (list row * list row * spec_float);
  target_forward : list Z -> Z -> M device (list row * list row);
  begin_speculative_suffix : Z -> M device unit;
  target_suffix : list Z -> M device (list row * list row);
  commit_speculative : M device unit;
  rollback_speculative : Z -> M device unit;
  logits_for : list row -> M device (list logits);
  (** Sampling. *)
  initialize : M device (option count_table);
  penalties : bool;
  sampler_greedy : bool;
  add_counts : list Z -> count_table -> count_table;
  sample_normal : logits -> option count_table -> M device Z;
  sample_constrained : logits -> option count_table -> option cursor -> M device Z;
  probabilities : logits -> option count_table -> Sampling -> M device (list single);
  compact_probabilities : logits -> option count_table -> Sampling -> M device CompactDistribution;
  compact_probability_rows : list logits -> Sampling -> M device (list CompactDistribution);
  next_uniform : M device double;
  greedy_tokens : option (list logits -> M device (list Z));
  (** The constraint of the request. *)
  cursor_allows : Z -> cursor -> bool;
  cursor_accept : Z -> cursor -> outcome cursor;
  cursor_clone : cursor -> option cursor;
  (** The predictor. *)
  cache_position : device -> Z;
  supports_session_state : bool;
  blockwise_drafting : bool;
  dspark_policy : bool;
  teacher_forced_prompt_prime : bool;
  target_bootstrap_decode : bool;
  split_target_verification : bool;
  predictor_retains_prefix : bool;
  maximum_draft_depth : Z;
  trim_cache_to : Z -> M device unit;
  append_target_context : list row -> Z -> M device unit;
  seed_target_context : option (list row -> Z -> M device unit);
  draft_block : Z -> Z -> M device (list row);
  draft_next : list row -> Z -> M device (list logits);
  predictor_step : list row -> list Z -> Positions -> M device (list row * list row);
  (** What a backend may have. *)
  blockwise_prompt_context : option (list row -> Z -> bool -> M device spec_float);
  stream_prompt_history : option (Z -> bool);
  predictor_prefill_chunk_size : option (Z -> Z);
  begin_predictor_prefill : option (Z -> M device spec_float);
  predictor_prefill : option (list row -> list Z -> Positions -> M device spec_float);
  end_predictor_prefill : option (M device spec_float);
  predictor_history_step : option (list row -> list Z -> Positions -> M device unit);
  predictor_history_flush_threshold : option Z;
  predictor_parked_history_flush_threshold : option Z;
  predictor_history_merge_limit : option Z;
  bootstrap_before_publication : option bool;
  prefetch_committed : option (Z -> M device unit);
  prefetch_target_first : option (Z -> M device unit);
  prefetch_target_prefix : option (Z -> list Z -> M device unit);
  begin_target_routes : option (Z -> M device unit);
  resolve_target_routes : option (Z -> bool -> M device unit);
  retains_partial_target_prefix : option (Z -> bool);
  take_target_maintenance : option (M device bool);
  gradual_mtp_warmup : option bool;
  metal_mtp_policy : option bool;
}.

(** ** The depth policy *)

Class DepthControl := {
  depth_policy : Type;
  depth_memory : Type;  (** [PolicyState] *)
  (** Clock, maximum, [dspark], gradual warmup and [metal_mtp_policy]. *)
  policy_make : Z -> Z -> bool -> depth_memory -> bool -> bool -> depth_policy;
  policy_finish : depth_policy -> depth_memory;
  policy_depth : depth_policy -> Z;
  policy_maximum : depth_policy -> Z;
  policy_parked : depth_policy -> bool;
  policy_dspark : depth_policy -> bool;
  policy_parks : depth_policy -> Z;
  policy_reentries : depth_policy -> Z;
  policy_cost : depth_policy -> Z -> outcome (option spec_float);
  (** [observe_window] and [observe_plain_window]: depth, accepted, start, end, whether the
      time counts, and prefill activity; then start, end, whether the time counts, prefill
      activity at the tax and at the probe, and the clock. *)
  policy_observe : Z -> Z -> Z -> Z -> bool -> bool -> depth_policy -> outcome depth_policy;
  policy_observe_plain : Z -> Z -> bool -> bool -> bool -> Z -> depth_policy -> outcome depth_policy;
}.

#[export] Instance generation_policy {F : FloatFormat} (exp : spec_float -> spec_float) (cost_window cache_resweep : bool)
    {C : Type} {chooser : DepthChooser C} : DepthControl := {|
  depth_policy := GenerationPolicy (C := C);
  depth_memory := PolicyState;
  policy_make := make_policy exp cost_window cache_resweep;
  policy_finish := finish_policy;
  policy_depth := DepthPolicy.depth;
  policy_maximum := DepthPolicy.maximum_depth;
  policy_parked := DepthPolicy.parked;
  policy_dspark := DepthPolicy.dspark;
  policy_parks := DepthPolicy.parks;
  policy_reentries := DepthPolicy.reentries;
  policy_cost := DepthPolicy.measured_cycle_ms;
  policy_observe := DepthPolicy.observe_window exp;
  policy_observe_plain := DepthPolicy.observe_plain_window exp cost_window cache_resweep;
|}.

(** ** Rows of tensors *)

(** [slice] along the rows, and [concatenate]. *)
Definition slice {A} (l : list A) (offset count : Z) : outcome (list A) :=
  throw_if (offset <? 0) || (count <? 0) || (size_of l <? offset + count) with OtherException;
  Ok (take (Z.to_nat count) (drop (Z.to_nat offset) l)).

Definition last_row {A} (l : list A) : outcome (list A) := slice l (size_of l - 1) 1.

Definition concatenate {A} (l : list (list A)) : outcome (list A) :=
  throw_if is_nil l with OtherException; Ok (mjoin l).

(** A single tensor is moved, several are concatenated. *)
Definition join_rows {A} (l : list (list A)) : outcome (list A) :=
  match l with [rows] => Ok rows | _ => concatenate l end.

(** ** [GenerationStats] *)

Definition kMaximumDraftDepth : Z := 5.

Record GenerationStats := {
  available : bool;
  used : bool;
  cycles : Z;
  drafted_tokens : Z;
  accepted_tokens : Z;
  depth_cycles : list Z;
  position_drafted : list Z;
  position_accepted : list Z;
  measured_depth_ms : list spec_float;
  selected_depth : Z;
  standard_tokens : Z;
  park_count : Z;
  reentry_probes : Z;
  target_ms : spec_float;
  head_ms : spec_float;
  rollback_ms : spec_float;
}.

Definition set_cycles (v : Z) (r : GenerationStats) : GenerationStats :=
  {| available := available r; used := used r; cycles := v; drafted_tokens := drafted_tokens r;
     accepted_tokens := accepted_tokens r; depth_cycles := depth_cycles r;
     position_drafted := position_drafted r; position_accepted := position_accepted r;
     measured_depth_ms := measured_depth_ms r; selected_depth := selected_depth r;
     standard_tokens := standard_tokens r; park_count := park_count r; reentry_probes := reentry_probes r;
     target_ms := target_ms r; head_ms := head_ms r; rollback_ms := rollback_ms r |}.
Definition set_drafted_tokens (v : Z) (r : GenerationStats) : GenerationStats :=
  {| available := available r; used := used r; cycles := cycles r; drafted_tokens := v;
     accepted_tokens := accepted_tokens r; depth_cycles := depth_cycles r;
     position_drafted := position_drafted r; position_accepted := position_accepted r;
     measured_depth_ms := measured_depth_ms r; selected_depth := selected_depth r;
     standard_tokens := standard_tokens r; park_count := park_count r; reentry_probes := reentry_probes r;
     target_ms := target_ms r; head_ms := head_ms r; rollback_ms := rollback_ms r |}.
Definition set_accepted_tokens (v : Z) (r : GenerationStats) : GenerationStats :=
  {| available := available r; used := used r; cycles := cycles r; drafted_tokens := drafted_tokens r;
     accepted_tokens := v; depth_cycles := depth_cycles r; position_drafted := position_drafted r;
     position_accepted := position_accepted r; measured_depth_ms := measured_depth_ms r;
     selected_depth := selected_depth r; standard_tokens := standard_tokens r; park_count := park_count r;
     reentry_probes := reentry_probes r; target_ms := target_ms r; head_ms := head_ms r;
     rollback_ms := rollback_ms r |}.
Definition set_depth_cycles (v : list Z) (r : GenerationStats) : GenerationStats :=
  {| available := available r; used := used r; cycles := cycles r; drafted_tokens := drafted_tokens r;
     accepted_tokens := accepted_tokens r; depth_cycles := v; position_drafted := position_drafted r;
     position_accepted := position_accepted r; measured_depth_ms := measured_depth_ms r;
     selected_depth := selected_depth r; standard_tokens := standard_tokens r; park_count := park_count r;
     reentry_probes := reentry_probes r; target_ms := target_ms r; head_ms := head_ms r;
     rollback_ms := rollback_ms r |}.
Definition set_position_drafted (v : list Z) (r : GenerationStats) : GenerationStats :=
  {| available := available r; used := used r; cycles := cycles r; drafted_tokens := drafted_tokens r;
     accepted_tokens := accepted_tokens r; depth_cycles := depth_cycles r; position_drafted := v;
     position_accepted := position_accepted r; measured_depth_ms := measured_depth_ms r;
     selected_depth := selected_depth r; standard_tokens := standard_tokens r; park_count := park_count r;
     reentry_probes := reentry_probes r; target_ms := target_ms r; head_ms := head_ms r;
     rollback_ms := rollback_ms r |}.
Definition set_position_accepted (v : list Z) (r : GenerationStats) : GenerationStats :=
  {| available := available r; used := used r; cycles := cycles r; drafted_tokens := drafted_tokens r;
     accepted_tokens := accepted_tokens r; depth_cycles := depth_cycles r;
     position_drafted := position_drafted r; position_accepted := v; measured_depth_ms := measured_depth_ms r;
     selected_depth := selected_depth r; standard_tokens := standard_tokens r; park_count := park_count r;
     reentry_probes := reentry_probes r; target_ms := target_ms r; head_ms := head_ms r;
     rollback_ms := rollback_ms r |}.
Definition set_measured_depth_ms (v : list spec_float) (r : GenerationStats) : GenerationStats :=
  {| available := available r; used := used r; cycles := cycles r; drafted_tokens := drafted_tokens r;
     accepted_tokens := accepted_tokens r; depth_cycles := depth_cycles r;
     position_drafted := position_drafted r; position_accepted := position_accepted r; measured_depth_ms := v;
     selected_depth := selected_depth r; standard_tokens := standard_tokens r; park_count := park_count r;
     reentry_probes := reentry_probes r; target_ms := target_ms r; head_ms := head_ms r;
     rollback_ms := rollback_ms r |}.
Definition set_selected_depth (v : Z) (r : GenerationStats) : GenerationStats :=
  {| available := available r; used := used r; cycles := cycles r; drafted_tokens := drafted_tokens r;
     accepted_tokens := accepted_tokens r; depth_cycles := depth_cycles r;
     position_drafted := position_drafted r; position_accepted := position_accepted r;
     measured_depth_ms := measured_depth_ms r; selected_depth := v; standard_tokens := standard_tokens r;
     park_count := park_count r; reentry_probes := reentry_probes r; target_ms := target_ms r;
     head_ms := head_ms r; rollback_ms := rollback_ms r |}.
Definition set_standard_tokens (v : Z) (r : GenerationStats) : GenerationStats :=
  {| available := available r; used := used r; cycles := cycles r; drafted_tokens := drafted_tokens r;
     accepted_tokens := accepted_tokens r; depth_cycles := depth_cycles r;
     position_drafted := position_drafted r; position_accepted := position_accepted r;
     measured_depth_ms := measured_depth_ms r; selected_depth := selected_depth r; standard_tokens := v;
     park_count := park_count r; reentry_probes := reentry_probes r; target_ms := target_ms r;
     head_ms := head_ms r; rollback_ms := rollback_ms r |}.
Definition set_park_count (v : Z) (r : GenerationStats) : GenerationStats :=
  {| available := available r; used := used r; cycles := cycles r; drafted_tokens := drafted_tokens r;
     accepted_tokens := accepted_tokens r; depth_cycles := depth_cycles r;
     position_drafted := position_drafted r; position_accepted := position_accepted r;
     measured_depth_ms := measured_depth_ms r; selected_depth := selected_depth r;
     standard_tokens := standard_tokens r; park_count := v; reentry_probes := reentry_probes r;
     target_ms := target_ms r; head_ms := head_ms r; rollback_ms := rollback_ms r |}.
Definition set_reentry_probes (v : Z) (r : GenerationStats) : GenerationStats :=
  {| available := available r; used := used r; cycles := cycles r; drafted_tokens := drafted_tokens r;
     accepted_tokens := accepted_tokens r; depth_cycles := depth_cycles r;
     position_drafted := position_drafted r; position_accepted := position_accepted r;
     measured_depth_ms := measured_depth_ms r; selected_depth := selected_depth r;
     standard_tokens := standard_tokens r; park_count := park_count r; reentry_probes := v;
     target_ms := target_ms r; head_ms := head_ms r; rollback_ms := rollback_ms r |}.
Definition set_target_ms (v : spec_float) (r : GenerationStats) : GenerationStats :=
  {| available := available r; used := used r; cycles := cycles r; drafted_tokens := drafted_tokens r;
     accepted_tokens := accepted_tokens r; depth_cycles := depth_cycles r;
     position_drafted := position_drafted r; position_accepted := position_accepted r;
     measured_depth_ms := measured_depth_ms r; selected_depth := selected_depth r;
     standard_tokens := standard_tokens r; park_count := park_count r; reentry_probes := reentry_probes r;
     target_ms := v; head_ms := head_ms r; rollback_ms := rollback_ms r |}.
Definition set_head_ms (v : spec_float) (r : GenerationStats) : GenerationStats :=
  {| available := available r; used := used r; cycles := cycles r; drafted_tokens := drafted_tokens r;
     accepted_tokens := accepted_tokens r; depth_cycles := depth_cycles r;
     position_drafted := position_drafted r; position_accepted := position_accepted r;
     measured_depth_ms := measured_depth_ms r; selected_depth := selected_depth r;
     standard_tokens := standard_tokens r; park_count := park_count r; reentry_probes := reentry_probes r;
     target_ms := target_ms r; head_ms := v; rollback_ms := rollback_ms r |}.
Definition set_rollback_ms (v : spec_float) (r : GenerationStats) : GenerationStats :=
  {| available := available r; used := used r; cycles := cycles r; drafted_tokens := drafted_tokens r;
     accepted_tokens := accepted_tokens r; depth_cycles := depth_cycles r;
     position_drafted := position_drafted r; position_accepted := position_accepted r;
     measured_depth_ms := measured_depth_ms r; selected_depth := selected_depth r;
     standard_tokens := standard_tokens r; park_count := park_count r; reentry_probes := reentry_probes r;
     target_ms := target_ms r; head_ms := head_ms r; rollback_ms := v |}.

(** The statistics of a new generation. *)
Definition new_stats {F : FloatFormat} : GenerationStats :=
  {| available := true; used := true; cycles := 0; drafted_tokens := 0; accepted_tokens := 0;
     depth_cycles := replicate 6 0; position_drafted := replicate 5 0; position_accepted := replicate 5 0;
     measured_depth_ms := replicate 6 DepthModel.zero; selected_depth := 0; standard_tokens := 0; park_count := 0;
     reentry_probes := 0; target_ms := DepthModel.zero; head_ms := DepthModel.zero; rollback_ms := DepthModel.zero |}.

(** [++counts.at(index)], and assignment to an element. *)
Definition bump_at (index : Z) (counts : list Z) : outcome (list Z) :=
  match counts !! Z.to_nat index with
  | Some n => if index <? 0 then Throw (OutOfRange "array::at") else Ok (<[Z.to_nat index := u64 (n + 1)]> counts)
  | None => Throw (OutOfRange "array::at")
  end.

Definition store_at (index : Z) (value : spec_float) (l : list spec_float) : outcome (list spec_float) :=
  if (0 <=? index) && (index <? size_of l) then Ok (<[Z.to_nat index := value]> l) else Throw (OutOfRange "array::at").

(** [for (position < count) ++counts.at(position);] *)
Fixpoint bump_below (count : nat) (counts : list Z) : outcome (list Z) :=
  match count with
  | O => Ok counts
  | S count => counts ← bump_below count counts; bump_at (Z.of_nat count) counts
  end.
