(* ===== verification/SpeculativeSequence.v ===== *)
(** * The speculative generation of one request

    [speculative_sequence] ([engine/include/speculative_sequence.h]): a coroutine that runs
    the prompt, primes the predictor, and then drafts, verifies and publishes tokens until
    the output stops. As in [Generation], a frame holds what lives across a [co_yield], and
    [next] runs from one to the next. Traces, and the phases of the prefill time that only
    they show, are not modelled. *)

From stdpp Require Import base list strings.
From Stdlib Require Import ZArith Lia SpecFloat.
From S2P Require Import Prelude Float GenerationPolicy TextEmitter ChatDiff Inference Numbers Speculation DepthModel DepthPolicy SpeculativeOps.

#[local] Set Default Proof Using "Type".
Open Scope Z_scope.

(** What a generation yields: [PrefillProgress] with [session_boundary], or [OutputDelta]. *)
Inductive Event := Progress (t : Timing (Ms := spec_float)) (session_boundary : bool) | Delta (o : TokenOutput).

(** [None] is the end of the sequence. *)
Abbreviation Step := (option Event).

(** The prompt a processor prepared. *)
Record PreparedPrompt := {
  prepared_ids : list Z;
  transformed : bool;
  has_embeddings : bool;
  has_positions : bool;
  position_delta : Z;
}.

(** The arguments of [speculative_sequence]; [session_last_hidden] may be null. *)
Class Call `{Ops} := {
  request : InferenceRequest;
  tokenizer : option Tokenizer;
  response_id : string;
  parse_chat : bytes -> bool -> outcome Msg;
  prompt : list Z;
  sampling : Sampling;
  prepared : option PreparedPrompt;
  prefill_chunk_size : Z;
  reused_tokens : Z;
  restored_last_hidden : option (list row);
  keeps_session : bool;
  stable_prefix_tokens : Z;
}.

Section Sequence.
Context {F : FloatFormat} `{Call} `{DepthControl}.

Record DraftChain := {
  draft_tokens : list Z;
  draft_probabilities : list (list single);
  draft_compact : list CompactDistribution;
}.

(** Locals of the prefill. *)
Record Prompt := {
  offset : Z;
  prefill_ms : spec_float;
  raw : list row;
  hidden : list row;
  raw_chunks : list (list row);
  seeded : bool;
}.

(** Locals of the loop that primes the predictor. *)
Record Priming := {
  prime_hidden : list row;
  prime_ids_offset : Z;
  pairs : Z;
  primed : Z;
}.

(** The committed boundary: its hidden row, the token after it, and the row the first draft
    starts from. *)
Record Heads := {
  committed_last_hidden : list row;
  pending : Z;
  initial_hidden : list row;
}.

(** What the predictor has not seen yet. *)
Record History := {
  history_position : Z;
  pending_hidden : list (list row);
  pending_ids : list Z;
  maintenance : bool;
}.

(** Where the coroutine resumes. *)
Inductive Resume :=
  | AtStart
  | AfterTile
  | AfterCheckpoint
  | AfterPriming (p : Priming)
  | AfterPrompt
  | AfterFirst (bootstrapped : bool)
  | AfterBootstrap
  | AfterPlain
  | AfterCycle (rows : list row) (next_ids : list Z)
  | AfterLast
  | AtEnd.

Record Run := {
  dev : device;
  out : Output (Ms := spec_float);
  token_constraint : option cursor;
  session_hidden : option (list row);  (** [*session_last_hidden] *)
  memory : depth_memory;  (** [mtp.policy_state] *)
  stats : GenerationStats;
  last_counts : Z * Z * Z;  (** [last_cycles], [last_accepted], [last_rejected] *)
  published : option GenerationStats;  (** [output.metrics.mtp] *)
  policy : option depth_policy;
  limit : Z;
  maximum_depth : Z;
  counts : option count_table;
  generated : Z;
  prompt_part : Prompt;
  heads : Heads;
  history : History;
  constraint_cursor : option cursor;
  flushes : bool;  (** [flush_history] is set *)
  resume : Resume;
}.

Definition set_offset (v : Z) (r : Prompt) : Prompt :=
  {| offset := v; prefill_ms := prefill_ms r; raw := raw r; hidden := hidden r; raw_chunks := raw_chunks r;
     seeded := seeded r |}.
Definition set_raw (v : list row) (r : Prompt) : Prompt :=
  {| offset := offset r; prefill_ms := prefill_ms r; raw := v; hidden := hidden r; raw_chunks := raw_chunks r;
     seeded := seeded r |}.
Definition set_hidden (v : list row) (r : Prompt) : Prompt :=
  {| offset := offset r; prefill_ms := prefill_ms r; raw := raw r; hidden := v; raw_chunks := raw_chunks r;
     seeded := seeded r |}.
Definition set_raw_chunks (v : list (list row)) (r : Prompt) : Prompt :=
  {| offset := offset r; prefill_ms := prefill_ms r; raw := raw r; hidden := hidden r; raw_chunks := v;
     seeded := seeded r |}.
Definition set_seeded (v : bool) (r : Prompt) : Prompt :=
  {| offset := offset r; prefill_ms := prefill_ms r; raw := raw r; hidden := hidden r;
     raw_chunks := raw_chunks r; seeded := v |}.

Definition set_dev (v : device) (r : Run) : Run :=
  {| dev := v; out := out r; token_constraint := token_constraint r; session_hidden := session_hidden r;
     memory := memory r; stats := stats r; last_counts := last_counts r; published := published r;
     policy := policy r; limit := limit r; maximum_depth := maximum_depth r; counts := counts r;
     generated := generated r; prompt_part := prompt_part r; heads := heads r; history := history r;
     constraint_cursor := constraint_cursor r; flushes := flushes r; resume := resume r |}.
Definition set_out (v : Output (Ms := spec_float)) (r : Run) : Run :=
  {| dev := dev r; out := v; token_constraint := token_constraint r; session_hidden := session_hidden r;
     memory := memory r; stats := stats r; last_counts := last_counts r; published := published r;
     policy := policy r; limit := limit r; maximum_depth := maximum_depth r; counts := counts r;
     generated := generated r; prompt_part := prompt_part r; heads := heads r; history := history r;
     constraint_cursor := constraint_cursor r; flushes := flushes r; resume := resume r |}.
Definition set_token_constraint (v : option cursor) (r : Run) : Run :=
  {| dev := dev r; out := out r; token_constraint := v; session_hidden := session_hidden r; memory := memory r;
     stats := stats r; last_counts := last_counts r; published := published r; policy := policy r;
     limit := limit r; maximum_depth := maximum_depth r; counts := counts r; generated := generated r;
     prompt_part := prompt_part r; heads := heads r; history := history r;
     constraint_cursor := constraint_cursor r; flushes := flushes r; resume := resume r |}.
Definition set_session_hidden (v : option (list row)) (r : Run) : Run :=
  {| dev := dev r; out := out r; token_constraint := token_constraint r; session_hidden := v;
     memory := memory r; stats := stats r; last_counts := last_counts r; published := published r;
     policy := policy r; limit := limit r; maximum_depth := maximum_depth r; counts := counts r;
     generated := generated r; prompt_part := prompt_part r; heads := heads r; history := history r;
     constraint_cursor := constraint_cursor r; flushes := flushes r; resume := resume r |}.
Definition set_memory (v : depth_memory) (r : Run) : Run :=
  {| dev := dev r; out := out r; token_constraint := token_constraint r; session_hidden := session_hidden r;
     memory := v; stats := stats r; last_counts := last_counts r; published := published r; policy := policy r;
     limit := limit r; maximum_depth := maximum_depth r; counts := counts r; generated := generated r;
     prompt_part := prompt_part r; heads := heads r; history := history r;
     constraint_cursor := constraint_cursor r; flushes := flushes r; resume := resume r |}.
Definition set_stats (v : GenerationStats) (r : Run) : Run :=
  {| dev := dev r; out := out r; token_constraint := token_constraint r; session_hidden := session_hidden r;
     memory := memory r; stats := v; last_counts := last_counts r; published := published r;
     policy := policy r; limit := limit r; maximum_depth := maximum_depth r; counts := counts r;
     generated := generated r; prompt_part := prompt_part r; heads := heads r; history := history r;
     constraint_cursor := constraint_cursor r; flushes := flushes r; resume := resume r |}.
Definition set_last_counts (v : Z * Z * Z) (r : Run) : Run :=
  {| dev := dev r; out := out r; token_constraint := token_constraint r; session_hidden := session_hidden r;
     memory := memory r; stats := stats r; last_counts := v; published := published r; policy := policy r;
     limit := limit r; maximum_depth := maximum_depth r; counts := counts r; generated := generated r;
     prompt_part := prompt_part r; heads := heads r; history := history r;
     constraint_cursor := constraint_cursor r; flushes := flushes r; resume := resume r |}.
Definition set_published (v : option GenerationStats) (r : Run) : Run :=
  {| dev := dev r; out := out r; token_constraint := token_constraint r; session_hidden := session_hidden r;
     memory := memory r; stats := stats r; last_counts := last_counts r; published := v; policy := policy r;
     limit := limit r; maximum_depth := maximum_depth r; counts := counts r; generated := generated r;
     prompt_part := prompt_part r; heads := heads r; history := history r;
     constraint_cursor := constraint_cursor r; flushes := flushes r; resume := resume r |}.
Definition set_policy (v : option depth_policy) (r : Run) : Run :=
  {| dev := dev r; out := out r; token_constraint := token_constraint r; session_hidden := session_hidden r;
     memory := memory r; stats := stats r; last_counts := last_counts r; published := published r; policy := v;
     limit := limit r; maximum_depth := maximum_depth r; counts := counts r; generated := generated r;
     prompt_part := prompt_part r; heads := heads r; history := history r;
     constraint_cursor := constraint_cursor r; flushes := flushes r; resume := resume r |}.
Definition set_limit (v : Z) (r : Run) : Run :=
  {| dev := dev r; out := out r; token_constraint := token_constraint r; session_hidden := session_hidden r;
     memory := memory r; stats := stats r; last_counts := last_counts r; published := published r;
     policy := policy r; limit := v; maximum_depth := maximum_depth r; counts := counts r;
     generated := generated r; prompt_part := prompt_part r; heads := heads r; history := history r;
     constraint_cursor := constraint_cursor r; flushes := flushes r; resume := resume r |}.
Definition set_maximum_depth (v : Z) (r : Run) : Run :=
  {| dev := dev r; out := out r; token_constraint := token_constraint r; session_hidden := session_hidden r;
     memory := memory r; stats := stats r; last_counts := last_counts r; published := published r;
     policy := policy r; limit := limit r; maximum_depth := v; counts := counts r; generated := generated r;
     prompt_part := prompt_part r; heads := heads r; history := history r;
     constraint_cursor := constraint_cursor r; flushes := flushes r; resume := resume r |}.
Definition set_counts (v : option count_table) (r : Run) : Run :=
  {| dev := dev r; out := out r; token_constraint := token_constraint r; session_hidden := session_hidden r;
     memory := memory r; stats := stats r; last_counts := last_counts r; published := published r;
     policy := policy r; limit := limit r; maximum_depth := maximum_depth r; counts := v;
     generated := generated r; prompt_part := prompt_part r; heads := heads r; history := history r;
     constraint_cursor := constraint_cursor r; flushes := flushes r; resume := resume r |}.
Definition set_generated (v : Z) (r : Run) : Run :=
  {| dev := dev r; out := out r; token_constraint := token_constraint r; session_hidden := session_hidden r;
     memory := memory r; stats := stats r; last_counts := last_counts r; published := published r;
     policy := policy r; limit := limit r; maximum_depth := maximum_depth r; counts := counts r;
     generated := v; prompt_part := prompt_part r; heads := heads r; history := history r;
     constraint_cursor := constraint_cursor r; flushes := flushes r; resume := resume r |}.
Definition set_prompt_part (v : Prompt) (r : Run) : Run :=
  {| dev := dev r; out := out r; token_constraint := token_constraint r; session_hidden := session_hidden r;
     memory := memory r; stats := stats r; last_counts := last_counts r; published := published r;
     policy := policy r; limit := limit r; maximum_depth := maximum_depth r; counts := counts r;
     generated := generated r; prompt_part := v; heads := heads r; history := history r;
     constraint_cursor := constraint_cursor r; flushes := flushes r; resume := resume r |}.
Definition set_heads (v : Heads) (r : Run) : Run :=
  {| dev := dev r; out := out r; token_constraint := token_constraint r; session_hidden := session_hidden r;
     memory := memory r; stats := stats r; last_counts := last_counts r; published := published r;
     policy := policy r; limit := limit r; maximum_depth := maximum_depth r; counts := counts r;
     generated := generated r; prompt_part := prompt_part r; heads := v; history := history r;
     constraint_cursor := constraint_cursor r; flushes := flushes r; resume := resume r |}.
Definition set_history (v : History) (r : Run) : Run :=
  {| dev := dev r; out := out r; token_constraint := token_constraint r; session_hidden := session_hidden r;
     memory := memory r; stats := stats r; last_counts := last_counts r; published := published r;
     policy := policy r; limit := limit r; maximum_depth := maximum_depth r; counts := counts r;
     generated := generated r; prompt_part := prompt_part r; heads := heads r; history := v;
     constraint_cursor := constraint_cursor r; flushes := flushes r; resume := resume r |}.
Definition set_constraint_cursor (v : option cursor) (r : Run) : Run :=
  {| dev := dev r; out := out r; token_constraint := token_constraint r; session_hidden := session_hidden r;
     memory := memory r; stats := stats r; last_counts := last_counts r; published := published r;
     policy := policy r; limit := limit r; maximum_depth := maximum_depth r; counts := counts r;
     generated := generated r; prompt_part := prompt_part r; heads := heads r; history := history r;
     constraint_cursor := v; flushes := flushes r; resume := resume r |}.
Definition set_flushes (v : bool) (r : Run) : Run :=
  {| dev := dev r; out := out r; token_constraint := token_constraint r; session_hidden := session_hidden r;
     memory := memory r; stats := stats r; last_counts := last_counts r; published := published r;
     policy := policy r; limit := limit r; maximum_depth := maximum_depth r; counts := counts r;
     generated := generated r; prompt_part := prompt_part r; heads := heads r; history := history r;
     constraint_cursor := constraint_cursor r; flushes := v; resume := resume r |}.
Definition set_resume (v : Resume) (r : Run) : Run :=
  {| dev := dev r; out := out r; token_constraint := token_constraint r; session_hidden := session_hidden r;
     memory := memory r; stats := stats r; last_counts := last_counts r; published := published r;
     policy := policy r; limit := limit r; maximum_depth := maximum_depth r; counts := counts r;
     generated := generated r; prompt_part := prompt_part r; heads := heads r; history := history r;
     constraint_cursor := constraint_cursor r; flushes := flushes r; resume := v |}.

Abbreviation Op := (M Run).

(** Running an operation of the backend, or of the output. *)
Definition on_dev {A} (m : M device A) : Op A := fun s =>
  let '(r, d) := m (dev s) in (r, set_dev d s).
Definition on_out {A} (m : M (Output (Ms := spec_float)) A) : Op A := fun s =>
  let '(r, o) := m (out s) in (r, set_out o s).
(** One a backend may not have. *)
Definition hint {A} (o : option (A -> M device unit)) (a : A) : Op unit :=
  match o with Some m => on_dev (m a) | None => mret tt end.

Definition require_execution (condition : bool) (message : string) : Op unit :=
  if condition then mret tt else throw (RuntimeError message).

Definition is_stopped (s : Run) : bool := stopped request (out s).
Definition is_cancelled (s : Run) : bool := cancelled (result (out s)).

(** [co_yield] and [co_return]. *)
Definition suspend (r : Resume) (event : Event) : Op Step :=
  modify (set_resume r) ≫= fun _ => mret (Some event).
Definition return_end : Op Step := modify (set_resume AtEnd) ≫= fun _ => mret None.

Definition in_policy (s : Run) : Op depth_policy :=
  match policy s with Some p => mret p | None => throw (LogicError "no policy") end.

Definition transformed_prompt : bool := match prepared with Some p => transformed p | None => false end.
Definition positioned_prompt : bool :=
  match prepared with Some p => transformed p && has_positions p | None => false end.
Definition decode_position_delta : Z := match prepared with Some p => position_delta p | None => 0 end.

Definition prompt_positions (offset count : Z) : Positions :=
  if positioned_prompt then PromptPositions offset count else NoPositions.
Definition decode_positions (start count : Z) : Positions :=
  if positioned_prompt then DecodePositions start count else NoPositions.

Definition greedy : bool := sampler_greedy.
Definition compact_stochastic : bool := negb greedy && (0 <? top_k sampling) && (top_k sampling <=? 64).

Definition draft_sampling : Sampling :=
  if compact_stochastic && dspark_policy
  then {| temperature := fl_lit 6 10; top_k := top_k sampling; top_p := fl_lit 95 100;
          mtp_max_draft_tokens := mtp_max_draft_tokens sampling |}
  else sampling.

Definition depth_bound : Z :=
  Z.min maximum_draft_depth
    (if negb greedy && negb compact_stochastic then 1
     else Z.max 1 (Z.min (mtp_max_draft_tokens sampling) kMaximumDraftDepth)).

Definition checkpoint : Z :=
  if blockwise_drafting && keeps_session && (reused_tokens <? stable_prefix_tokens) &&
     (stable_prefix_tokens <? size_of prompt)
  then stable_prefix_tokens else 0.

Definition streams_history : bool :=
  teacher_forced_prompt_prime && negb blockwise_drafting &&
  match stream_prompt_history with Some f => f (size_of prompt) | None => false end.

Definition predictor_chunk : Z :=
  match predictor_prefill_chunk_size with Some f => f prefill_chunk_size | None => Z.min 512 prefill_chunk_size end.

(** The counts of a clone; without penalties there is no table. *)
Definition clone_counts (counts : option count_table) : option count_table := if penalties then counts else None.
Definition with_counts (tokens : list Z) (counts : option count_table) : option count_table :=
  if penalties then add_counts tokens <$> counts else counts.

(** ** The prompt *)

(** Checks, the plan and the policy. *)
Definition check_arguments : Op unit :=
  require_execution (reused_tokens <? size_of prompt) "restored MTP prefix must be shorter than the prompt" ≫= fun _ =>
  require_execution (match prepared with Some p => bool_decide (prepared_ids p = prompt) | None => true end)
    "prepared MTP prompt disagrees with rendered token IDs" ≫= fun _ =>
  require_execution
    (match prepared with
     | Some p => negb (transformed p) || (has_embeddings p && (positioned_prompt || (position_delta p =? 0)))
     | None => true
     end)
    "prepared MTP prompt is missing embeddings or valid position metadata" ≫= fun _ =>
  s ← get;
  require_execution
    ((reused_tokens =? 0) ||
     (supports_session_state && bool_decide (is_Some restored_last_hidden) && (cache_pos (dev s) =? reused_tokens) &&
      (cache_position (dev s) =? reused_tokens - (if blockwise_drafting then 0 else 1))))
    "restored MTP session boundary is incompatible".

Definition next_logical_position : Z :=
  size_of prompt + (if transformed_prompt then decode_position_delta else 0).

Definition begin_generation (plan_limit : Z) : Op unit :=
  counts ← on_dev initialize;
  now ← on_dev clock_now;
  modify (fun s =>
    let p := policy_make now depth_bound dspark_policy (memory s) (default false gradual_mtp_warmup)
               (default false metal_mtp_policy) in
    set_policy (Some p) (set_limit plan_limit (set_maximum_depth depth_bound (set_counts counts
      (set_stats (set_park_count (policy_parks p) (stats s)) s))))).

(** [ids] of the prompt. *)
Definition prompt_ids (offset count : Z) : outcome (list Z) := slice prompt offset count.

Definition add_prefill_ms (ms : spec_float) (p : Prompt) : Prompt :=
  {| offset := offset p; prefill_ms := fl_add (prefill_ms p) ms; raw := raw p; hidden := hidden p;
     raw_chunks := raw_chunks p; seeded := seeded p |}.
Definition take_time (ms : spec_float) : Op unit := modify (fun s => set_prompt_part (add_prefill_ms ms (prompt_part s)) s).
Definition timed {A} (o : option (A -> M device spec_float)) (a : A) : Op unit :=
  match o with Some m => ms ← on_dev (m a); take_time ms | None => mret tt end.

(** One tile of the predictor's prompt. *)
Definition prime_tile (rows : list row) (ids_offset : Z) (chunk : PrefillChunk) : Op unit :=
  prime ← lift (slice rows (GenerationPolicy.offset chunk) (count chunk));
  ids ← lift (prompt_ids (ids_offset + GenerationPolicy.offset chunk) (count chunk));
  let positions := prompt_positions (ids_offset + GenerationPolicy.offset chunk) (count chunk) in
  match predictor_prefill with
  | Some m => ms ← on_dev (m prime ids positions); take_time ms
  | None => on_dev (predictor_step prime ids positions) ≫= fun _ => mret tt
  end.

Definition end_priming : Op unit :=
  match end_predictor_prefill with Some m => ms ← on_dev m; take_time ms | None => mret tt end.

(** [prime_rows]; a tile has at least one row, so [pairs] turns are enough. *)
Fixpoint prime_loop (fuel : nat) (rows : list row) (ids_offset pairs done : Z) : Op unit :=
  match fuel with
  | O => end_priming
  | S fuel =>
      if pairs <=? done then end_priming
      else
        s ← get;
        if is_cancelled s then mret tt
        else
          chunk ← lift (next_prefill_chunk pairs done predictor_chunk);
          prime_tile rows ids_offset chunk ≫= fun _ =>
          prime_loop fuel rows ids_offset pairs (done + count chunk)
  end.

Definition prime_rows (rows : list row) (ids_offset pairs : Z) : Op unit :=
  if pairs <=? 0 then mret tt
  else timed begin_predictor_prefill pairs ≫= fun _ => prime_loop (Z.to_nat pairs) rows ids_offset pairs 0.

(** [prime_blockwise]. *)
Definition prime_blockwise (context : list row) (position : Z) (seed : bool) : Op unit :=
  match blockwise_prompt_context with
  | Some m => ms ← on_dev (m context position seed); take_time ms
  | None =>
      if seed
      then match seed_target_context with
           | Some m => on_dev (m context position)
           | None => on_dev (append_target_context context 0)
           end
      else on_dev (append_target_context context (position - size_of context))
  end.

Definition progress (tokens : Z) (session_boundary : bool) (s : Run) : Event :=
  let ms := prefill_ms (prompt_part s) in
  Progress {| prompt_tokens := tokens; llm_ms := ms; multimodal_ms := DepthModel.zero; model_ms := ms |} session_boundary.

(** The tile of the target at [offset]. *)
Definition tile_at (offset : Z) : outcome PrefillChunk :=
  chunk ← next_prefill_chunk (size_of prompt) offset prefill_chunk_size;
  let tokens := if offset <? checkpoint then Z.min (count chunk) (checkpoint - offset) else count chunk in
  Ok {| GenerationPolicy.offset := offset; count := tokens; last := offset + tokens =? size_of prompt |}.

(** The predictor follows the target: row [i] pairs with token [i + 1]. Only the last row
    of the tile is kept. *)
Definition stream_tile (offset count : Z) (rows : list row) : Op unit :=
  (if (offset =? reused_tokens) && (0 <? reused_tokens)
   then prime_rows (default [] restored_last_hidden) offset 1 else mret tt) ≫= fun _ =>
  let pairs := Z.min count (size_of prompt - offset - 1) in
  prime ← lift (slice rows 0 pairs);
  prime_rows prime (offset + 1) pairs ≫= fun _ =>
  kept ← lift (last_row rows);
  modify (fun s => set_prompt_part (set_raw kept (prompt_part s)) s).

(** An exact checkpoint of the stable prefix, for block predictors. *)
Definition reach_checkpoint : Op Step :=
  s ← get;
  let reached := offset (prompt_part s) in
  context ← lift (join_rows (raw_chunks (prompt_part s)));
  kept ← lift (last_row context);
  modify (set_session_hidden (Some kept)) ≫= fun _ =>
  prime_blockwise context reached (reused_tokens =? 0) ≫= fun _ =>
  modify (fun s => set_prompt_part (set_seeded true (set_raw_chunks [] (prompt_part s))) s) ≫= fun _ =>
  s ← get;
  suspend AfterCheckpoint (progress (reached - reused_tokens) true s).

(** ** Publication *)

Fixpoint read_clock (tokens : list Z) : Op (list (Z * Z)) :=
  match tokens with
  | [] => mret []
  | token :: tokens => now ← on_dev clock_now; rest ← read_clock tokens; mret ((token, now) :: rest)
  end.

(** [output.append]: each token is stamped with the clock. *)
Definition append_output (tokens : list Z) : Op TokenOutput :=
  stamped ← read_clock tokens;
  on_out (append_tokens request tokenizer response_id parse_chat stamped).

(** [accept]. *)
Definition accept_token (token : Z) : Op unit :=
  require_execution ((0 <=? token) && (token <? vocab_size)) "MTP sampled token outside vocabulary" ≫= fun _ =>
  s ← get;
  (match token_constraint s with
   | Some k => k ← lift (cursor_accept token k); modify (set_token_constraint (Some k))
   | None => mret tt
   end) ≫= fun _ =>
  modify (fun s => set_counts (with_counts [token] (counts s)) (set_generated (s32 (generated s + 1)) s)).

Definition accept_output (delta : TokenOutput) : Op unit := for_each (token_ids delta) accept_token.

Definition clone_constraint (what : string) : Op (option cursor) :=
  s ← get;
  match token_constraint s with
  | None => mret None
  | Some k => match cursor_clone k with Some k => mret (Some k) | None => throw (RuntimeError what) end
  end.

Definition prefetch_committed_token (token : Z) : Op unit :=
  s ← get; if is_stopped s then mret tt else hint prefetch_committed token.

(** The predictor sees the rows it was not given yet. *)
Definition flush_history : Op unit :=
  s ← get;
  let h := history s in
  if is_nil (pending_ids h) then mret tt
  else
    rows ← lift (join_rows (pending_hidden h));
    let positions := decode_positions (history_position h + 1) (size_of (pending_ids h)) in
    (match predictor_history_step with
     | Some m => on_dev (m rows (pending_ids h) positions)
     | None => on_dev (predictor_step rows (pending_ids h) positions) ≫= fun _ => mret tt
     end) ≫= fun _ =>
    modify (fun s => let h := history s in
      set_history {| history_position := history_position h + size_of (pending_ids h); pending_hidden := [];
                     pending_ids := []; maintenance := maintenance h |} s).

(** [finish]. *)
Definition finish : Op unit :=
  s ← get;
  (if is_stopped s && flushes s then flush_history else mret tt) ≫= fun _ =>
  modify (fun s => set_published (Some (stats s))
    (if keeps_session then set_session_hidden (Some (committed_last_hidden (heads s))) s else s)).

Definition finish_end : Op Step := finish ≫= fun _ => return_end.

(** Tokens become output: [append], [accept], the prefetch of [next] and [finish]. *)
Definition publish (tokens : list Z) (next : Z) (r : Resume) : Op Step :=
  delta ← append_output tokens;
  accept_output delta ≫= fun _ =>
  prefetch_committed_token next ≫= fun _ =>
  finish ≫= fun _ =>
  suspend r (Delta delta).

Definition one_row (l : list logits) : outcome logits :=
  match l with [l] => Ok l | _ => Throw OtherException end.

Definition sample_row (rows : list row) (counts : option count_table) (k : option cursor) : Op Z :=
  l ← on_dev (logits_for rows);
  l ← lift (one_row l);
  on_dev (sample_constrained l counts k).

Definition accept_cursor (token : Z) (k : option cursor) : Op (option cursor) :=
  match k with Some k => k ← lift (cursor_accept token k); mret (Some k) | None => mret None end.

(** ** After the prompt *)

(** [bootstrap]: the target decodes the pending token; the cursor comes back. *)
Definition bootstrap (token_counts : option count_table) (k : option cursor) : Op (option cursor) :=
  s ← get;
  (if teacher_forced_prompt_prime
   then on_dev (predictor_step (initial_hidden (heads s)) [pending (heads s)]
                  (decode_positions (cache_pos (dev s)) 1)) ≫= fun _ => mret tt
   else mret tt) ≫= fun _ =>
  '(next_hidden, rows) ← on_dev (target_forward [pending (heads s)] 0);
  committed ← lift (last_row rows);
  token ← sample_row next_hidden token_counts k;
  k ← accept_cursor token k;
  modify (set_heads {| committed_last_hidden := committed; pending := token; initial_hidden := committed |}) ≫= fun _ =>
  mret k.

(** The bootstrap before the first publication, unless the first token already stops the
    output; what is to be published, and whether it ran. *)
Definition early_bootstrap (first : Z) : Op (list Z * bool) :=
  s ← get;
  if default false bootstrap_before_publication && target_bootstrap_decode && (1 <? limit s) then
    stamped ← read_clock [first];
    s ← get;
    match append_tokens request tokenizer response_id parse_chat stamped (out s) with
    | (Throw e, _) => throw e
    | (Ok _, preview) =>
        if stopped request preview then mret ([first], false)
        else
          k ← clone_constraint "MTP bootstrap constraint cursor is incomplete";
          k ← accept_cursor first k;
          bootstrap (with_counts [first] (clone_counts (counts s))) k ≫= fun _ =>
          s ← get;
          mret ([first; pending (heads s)], true)
    end
  else mret ([first], false).

Definition publish_first : Op Step :=
  modify (fun s => let h := heads s in
    set_heads {| committed_last_hidden := committed_last_hidden h; pending := pending h;
                 initial_hidden := committed_last_hidden h |} s) ≫= fun _ =>
  s ← get;
  '(first, bootstrapped) ← early_bootstrap (pending (heads s));
  s ← get;
  if is_cancelled s then return_end
  else publish first (pending (heads s)) (AfterFirst bootstrapped).

(** The predictor is primed: the large tensors go, the boundary is cached. *)
Definition after_priming : Op Step :=
  s ← get;
  if is_cancelled s then return_end
  else
    modify (fun s => set_prompt_part (set_raw [] (set_hidden [] (prompt_part s))) s) ≫= fun _ =>
    if keeps_session then
      modify (fun s => set_session_hidden (Some (committed_last_hidden (heads s))) s) ≫= fun _ =>
      s ← get;
      suspend AfterPrompt (progress (size_of prompt - reused_tokens) true s)
    else publish_first.

Definition prime_head (p : Priming) : Op Step :=
  if primed p <? pairs p then
    s ← get;
    if is_cancelled s then return_end
    else
      chunk ← lift (next_prefill_chunk (pairs p) (primed p) predictor_chunk);
      prime_tile (prime_hidden p) (prime_ids_offset p) chunk ≫= fun _ =>
      s ← get;
      if is_cancelled s then return_end
      else
        let done := primed p + count chunk in
        (if done =? pairs p then end_priming else mret tt) ≫= fun _ =>
        s ← get;
        suspend (AfterPriming {| prime_hidden := prime_hidden p; prime_ids_offset := prime_ids_offset p;
                                 pairs := pairs p; primed := done |})
          (progress (size_of prompt - reused_tokens) false s)
  else after_priming.

(** The rows the predictor is primed with, after the whole prompt. *)
Definition priming_rows (rows : list row) : outcome Priming :=
  if 0 <? reused_tokens then
    let restored := default [] restored_last_hidden in
    rows' ← (if size_of rows =? 1 then Ok restored
             else (before ← slice rows 0 (size_of rows - 1); Ok (restored ++ before)));
    Ok {| prime_hidden := rows'; prime_ids_offset := reused_tokens; pairs := size_of rows; primed := 0 |}
  else
    rows' ← (if 0 <? size_of rows - 1 then slice rows 0 (size_of rows - 1) else Ok []);
    Ok {| prime_hidden := rows'; prime_ids_offset := 1; pairs := size_of rows - 1; primed := 0 |}.

Definition prime_predictor (rows : list row) : Op Step :=
  if teacher_forced_prompt_prime && negb streams_history then
    p ← lift (priming_rows rows);
    timed begin_predictor_prefill (pairs p) ≫= fun _ => prime_head p
  else after_priming.

(** The prompt has run: the first token is sampled. *)
Definition after_prompt : Op Step :=
  s ← get;
  if is_cancelled s then return_end
  else
    (if transformed_prompt then on_dev (set_decode_position_delta decode_position_delta) else mret tt) ≫= fun _ =>
    rows ← (if streams_history then mret (raw (prompt_part s)) else lift (join_rows (raw_chunks (prompt_part s))));
    modify (fun s => set_prompt_part (set_raw_chunks [] (prompt_part s)) s) ≫= fun _ =>
    committed ← lift (last_row rows);
    sampled ← lift (last_row (hidden (prompt_part s)));
    l ← on_dev (logits_for sampled);
    k ← clone_constraint "MTP token constraint clone is incomplete";
    l ← lift (one_row l);
    token ← on_dev (sample_constrained l (counts s) k);
    modify (set_heads {| committed_last_hidden := committed; pending := token; initial_hidden := [] |}) ≫= fun _ =>
    (if blockwise_drafting
     then prime_blockwise rows (size_of prompt) ((reused_tokens =? 0) && negb (seeded (prompt_part s))) else mret tt)
      ≫= fun _ =>
    prime_predictor rows.

(** The head of the prefill loop. *)
Definition prefill_head : Op Step :=
  s ← get;
  let at_ := offset (prompt_part s) in
  if at_ <? size_of prompt then
    if is_cancelled s then return_end
    else
      chunk ← lift (tile_at at_);
      '(hidden, rows, elapsed) ← on_dev (prefill chunk);
      (if streams_history then stream_tile at_ (count chunk) rows
       else modify (fun s => set_prompt_part (set_raw_chunks (raw_chunks (prompt_part s) ++ [rows]) (prompt_part s)) s))
        ≫= fun _ =>
      modify (fun s => set_prompt_part (set_hidden hidden (set_offset (at_ + count chunk)
        (add_prefill_ms elapsed (prompt_part s)))) s) ≫= fun _ =>
      if at_ + count chunk =? checkpoint then reach_checkpoint
      else s ← get; suspend AfterTile (progress (at_ + count chunk - reused_tokens) false s)
  else after_prompt.

Definition start : Op Step :=
  modify (fun s => if keeps_session then set_session_hidden None s else s) ≫= fun _ =>
  s ← get;
  if is_cancelled s then return_end
  else
    check_arguments ≫= fun _ =>
    modify (fun s => set_stats new_stats (set_last_counts (0, 0, 0) s)) ≫= fun _ =>
    require_execution ((0 <=? next_logical_position) && (next_logical_position <=? max_position_embeddings))
      "prepared MTP decode position is outside context capacity" ≫= fun _ =>
    plan ← lift (plan_generation prompt vocab_size max_position_embeddings (max_tokens request) 0
                   (Z.max (size_of prompt) next_logical_position));
    if generation_tokens plan <=? 0 then return_end
    else begin_generation (generation_tokens plan) ≫= fun _ => prefill_head.

(** ** Drafting *)

(** How far a draft may reach: the context and the tokens left. *)
Definition bounded_depth (desired : Z) (s : Run) : Z :=
  let context_depth := Z.max 0 (max_position_embeddings - cache_pos (dev s) - 1) in
  let output_depth := Z.max 0 (limit s - generated s - 1) in
  Z.min desired (Z.min context_depth output_depth).

Definition no_draft : DraftChain := {| draft_tokens := []; draft_probabilities := []; draft_compact := [] |}.

(** [select_draft]: the token, the chain with it, and the counts after it. *)
Definition select_draft (l : list logits) (chain : DraftChain) (counts : option count_table) :
    Op (Z * DraftChain * option count_table) :=
  l ← lift (one_row l);
  '(token, chain) ←
    (if greedy then token ← on_dev (sample_normal l counts); mret (token, chain)
     else if compact_stochastic then
       proposal ← on_dev (compact_probabilities l counts draft_sampling);
       u ← on_dev next_uniform;
       token ← lift (sample_compact proposal u);
       mret (token, {| draft_tokens := draft_tokens chain; draft_probabilities := draft_probabilities chain;
                       draft_compact := draft_compact chain ++ [proposal] |})
     else
       proposal ← on_dev (probabilities l counts draft_sampling);
       u ← on_dev next_uniform;
       token ← lift (sample proposal u);
       mret (token, {| draft_tokens := draft_tokens chain;
                       draft_probabilities := draft_probabilities chain ++ [proposal];
                       draft_compact := draft_compact chain |}));
  mret (token, {| draft_tokens := draft_tokens chain ++ [token]; draft_probabilities := draft_probabilities chain;
                  draft_compact := draft_compact chain |}, with_counts [token] counts).

(** The tokens of a block predictor. *)
Fixpoint draft_from_block (todo : nat) (position : Z) (block : list row) (previous : Z) (chain : DraftChain)
    (counts : option count_table) : Op DraftChain :=
  match todo with
  | O => mret chain
  | S todo =>
      rows ← lift (slice block position 1);
      l ← on_dev (draft_next rows previous);
      '(token, chain, counts) ← select_draft l chain counts;
      draft_from_block todo (position + 1) block token chain counts
  end.

(** The tokens of a chain predictor: each step feeds the last token back. *)
Fixpoint draft_from_chain (todo : nat) (position : Z) (last : Z) (sample_hidden chain_hidden : list row)
    (chain : DraftChain) (counts : option count_table) : Op DraftChain :=
  match todo with
  | O => mret chain
  | S todo =>
      l ← on_dev (logits_for sample_hidden);
      '(token, chain, counts) ← select_draft l chain counts;
      match todo with
      | O => mret chain
      | _ =>
          (match prefetch_target_prefix with
           | Some m => on_dev (m last (draft_tokens chain))
           | None => mret tt
           end) ≫= fun _ =>
          s ← get;
          '(sample_hidden, chain_hidden) ← on_dev (predictor_step chain_hidden [token]
             (decode_positions (history_position (history s) + position + 1) 1));
          draft_from_chain todo (position + 1) last sample_hidden chain_hidden chain counts
      end
  end.

Definition advance_history (rows : Z) : Op unit :=
  modify (fun s => let h := history s in
    set_history {| history_position := history_position h + rows; pending_hidden := pending_hidden h;
                   pending_ids := pending_ids h; maintenance := maintenance h |} s).

Definition set_maintenance (b : bool) : Op unit :=
  modify (fun s => let h := history s in
    set_history {| history_position := history_position h; pending_hidden := pending_hidden h;
                   pending_ids := pending_ids h; maintenance := b |} s).

Definition last_id (ids : list Z) : outcome Z :=
  match List.last (Some <$> ids) None with Some t => Ok t | None => Throw OtherException end.

Definition draft_blockwise (rows : list row) (next_ids : list Z) (depth : Z) (initial : bool)
    (counts : option count_table) : Op DraftChain :=
  (if initial then mret tt
   else s ← get;
        on_dev (append_target_context rows (history_position (history s))) ≫= fun _ =>
        advance_history (size_of next_ids)) ≫= fun _ =>
  s ← get;
  require_execution (cache_position (dev s) =? history_position (history s))
    "block predictor cache did not advance" ≫= fun _ =>
  if 0 <? depth then
    previous ← lift (last_id next_ids);
    block ← on_dev (draft_block previous depth);
    require_execution (size_of block =? depth) "block predictor returned an incomplete draft" ≫= fun _ =>
    draft_from_block (Z.to_nat depth) 0 block previous no_draft counts
  else mret no_draft.

(** Without a draft the rows wait, up to a threshold. *)
Definition hold_history (rows : list row) (next_ids : list Z) (parked : bool) : Op unit :=
  modify (fun s => let h := history s in
    set_history {| history_position := history_position h; pending_hidden := pending_hidden h ++ [rows];
                   pending_ids := pending_ids h ++ next_ids; maintenance := maintenance h |} s) ≫= fun _ =>
  let threshold := default 512 predictor_history_flush_threshold in
  let threshold := if parked then default threshold predictor_parked_history_flush_threshold else threshold in
  s ← get;
  if threshold <=? size_of (pending_ids (history s)) then set_maintenance true ≫= fun _ => flush_history
  else mret tt.

(** Waiting rows go before the new ones in one step, or are flushed. *)
Definition merge_history (rows : list row) (shifted : list Z) : Op (list row * list Z) :=
  s ← get;
  let h := history s in
  if is_nil (pending_ids h) then mret (rows, shifted)
  else
    set_maintenance true ≫= fun _ =>
    if size_of (pending_ids h) + size_of shifted <=? default 0 predictor_history_merge_limit then
      rows ← lift (concatenate (pending_hidden h ++ [rows]));
      modify (fun s => let h := history s in
        set_history {| history_position := history_position h; pending_hidden := []; pending_ids := [];
                       maintenance := maintenance h |} s) ≫= fun _ =>
      mret (rows, pending_ids h ++ shifted)
    else flush_history ≫= fun _ => mret (rows, shifted).

Definition draft_chained (rows : list row) (next_ids : list Z) (depth : Z) (counts : option count_table) : Op DraftChain :=
  last ← lift (last_id next_ids);
  '(rows, shifted) ← merge_history rows next_ids;
  s ← get;
  '(sample_hidden, chain_hidden) ← on_dev (predictor_step rows shifted
     (decode_positions (history_position (history s) + 1) (size_of shifted)));
  advance_history (size_of shifted) ≫= fun _ =>
  s ← get;
  require_execution (cache_position (dev s) =? history_position (history s))
    "MTP predictor cache did not advance" ≫= fun _ =>
  sample_hidden ← lift (last_row sample_hidden);
  chain_hidden ← lift (last_row chain_hidden);
  draft_from_chain (Z.to_nat depth) 0 last sample_hidden chain_hidden no_draft counts.

Definition prepare_draft (rows : list row) (next_ids : list Z) (depth : Z) (initial : bool) : Op DraftChain :=
  s ← get;
  require_execution ((size_of rows =? size_of next_ids) && negb (is_nil next_ids) && (0 <=? depth) &&
                     (depth <=? maximum_depth s)) "MTP committed history is incompatible" ≫= fun _ =>
  last ← lift (last_id next_ids);
  (if 0 <? depth then hint prefetch_target_first last else mret tt) ≫= fun _ =>
  on_dev (trim_cache_to (history_position (history s))) ≫= fun _ =>
  let counts := clone_counts (counts s) in
  if blockwise_drafting then draft_blockwise rows next_ids depth initial counts
  else
    p ← in_policy s;
    if negb (policy_dspark p) && (depth =? 0)
    then hold_history rows next_ids (policy_parked p) ≫= fun _ => mret no_draft
    else draft_chained rows next_ids depth counts.

(** ** Verification *)

Definition elapsed_ms (start finish : Z) : spec_float := milliseconds_of (finish - start).

Definition add_target_ms (ms : spec_float) : Op unit :=
  modify (fun s => set_stats (set_target_ms (fl_add (target_ms (stats s)) ms) (stats s)) s).
Definition add_head_ms (ms : spec_float) : Op unit :=
  modify (fun s => set_stats (set_head_ms (fl_add (head_ms (stats s)) ms) (stats s)) s).

(** The target sees the pending token and the drafts: at once, or the drafts as a suffix. *)
Definition target_pass (pending : Z) (drafts : list Z) : Op (list row * list row) :=
  if split_target_verification then
    '(hidden, rows) ← on_dev (target_forward [pending] 0);
    if is_nil drafts then mret (hidden, rows)
    else
      hint begin_target_routes (size_of drafts) ≫= fun _ =>
      on_dev (begin_speculative_suffix (size_of drafts)) ≫= fun _ =>
      '(draft_hidden, draft_rows) ← on_dev (target_suffix drafts);
      mret (hidden ++ draft_hidden, rows ++ draft_rows)
  else
    (if is_nil drafts then mret tt else hint begin_target_routes (size_of drafts + 1)) ≫= fun _ =>
    on_dev (target_forward (pending :: drafts) (if is_nil drafts then 0 else 1)).

(** The target's samples at each place; the drafts are counted on the way. *)
Fixpoint sample_rows {A} (f : logits -> option count_table -> M device A) (targets : list logits) (drafts : list Z)
    (counts : option count_table) : Op (list A) :=
  match targets with
  | [] => mret []
  | l :: targets =>
      x ← on_dev (f l counts);
      xs ← (match drafts with
            | d :: drafts => sample_rows f targets drafts (with_counts [d] counts)
            | [] => sample_rows f targets [] counts
            end);
      mret (x :: xs)
  end.

Definition verify_by_argmax (draft : DraftChain) (targets : list logits) (counts : option count_table) :
    Op ChainVerification :=
  tokens ← (match greedy_tokens with
            | Some m => if penalties then mret [] else on_dev (m targets)
            | None => mret []
            end);
  tokens ← (if is_nil (tokens : list Z) then sample_rows sample_normal targets (draft_tokens draft) counts
            else mret tokens);
  lift (verify_greedy (draft_tokens draft) tokens).

Fixpoint draw_uniforms (count : nat) : Op (list double) :=
  match count with
  | O => mret []
  | S count => u ← on_dev next_uniform; us ← draw_uniforms count; mret (u :: us)
  end.

Definition verify_compact (draft : DraftChain) (targets : list logits) (counts : option count_table) :
    Op ChainVerification :=
  rows ← (if penalties
          then sample_rows (fun l c => compact_probabilities l c sampling) targets (draft_tokens draft) counts
          else on_dev (compact_probability_rows targets sampling));
  us ← draw_uniforms (length (draft_tokens draft));
  u ← on_dev next_uniform;
  lift (verify_compact_chain (draft_tokens draft) (draft_compact draft) rows us u).

Definition verify_vectors (draft : DraftChain) (targets : list logits) (counts : option count_table) :
    Op ChainVerification :=
  rows ← sample_rows (fun l c => probabilities l c sampling) targets (draft_tokens draft) counts;
  us ← draw_uniforms (length (draft_tokens draft));
  u ← on_dev next_uniform;
  lift (verify_stochastic_chain (draft_tokens draft) (draft_probabilities draft) rows us u).

Definition verify_draft (draft : DraftChain) (targets : list logits) : Op ChainVerification :=
  s ← get;
  let counts := clone_counts (counts s) in
  match draft_tokens draft, targets with
  | [], l :: _ =>
      token ← on_dev (sample_normal l counts);
      mret {| accepted_drafts := 0; next_token := token; bonus := true |}
  | [], [] => throw OtherException
  | _, _ =>
      if greedy then verify_by_argmax draft targets counts
      else if compact_stochastic then verify_compact draft targets counts
      else verify_vectors draft targets counts
  end.

(** The drafts the constraint allows, and the token after them: one it forbids is sampled
    again under the constraint. *)
Fixpoint constrain_drafts (drafts : list Z) (targets : list logits) (k : cursor) (counts : option count_table)
    (next : Z) (kept : Z) : Op (Z * Z * cursor) :=
  match targets, drafts with
  | [], _ => throw OtherException
  | l :: targets, d :: drafts =>
      if cursor_allows d k then
        k ← lift (cursor_accept d k);
        constrain_drafts drafts targets k (with_counts [d] counts) next (kept + 1)
      else token ← on_dev (sample_constrained l counts (Some k)); mret (kept, token, k)
  | l :: _, [] =>
      if cursor_allows next k then mret (kept, next, k)
      else token ← on_dev (sample_constrained l counts (Some k)); mret (kept, token, k)
  end.

Definition constrain (draft : DraftChain) (targets : list logits) (v : ChainVerification) : Op (Z * Z) :=
  s ← get;
  match constraint_cursor s with
  | None => mret (accepted_drafts v, next_token v)
  | Some k =>
      '(kept, token, k) ← constrain_drafts (take (Z.to_nat (accepted_drafts v)) (draft_tokens draft)) targets k
                            (clone_counts (counts s)) (next_token v) 0;
      k ← lift (cursor_accept token k);
      modify (set_constraint_cursor (Some k)) ≫= fun _ =>
      mret (kept, token)
  end.

(** The cache of the target keeps the drafts that became output. *)
Definition resolve_routes (rows : Z) : Op unit :=
  match resolve_target_routes with
  | Some m => s ← get; on_dev (m (rows - (if split_target_verification then 1 else 0)) (is_cancelled s))
  | None => mret tt
  end.

Definition commit_drafts (drafts : list Z) (emitted : Z) : Op unit :=
  if is_nil drafts then resolve_routes 1
  else if emitted =? size_of drafts then on_dev commit_speculative ≫= fun _ => resolve_routes (emitted + 1)
  else
    let retained := match retains_partial_target_prefix with Some f => f emitted | None => predictor_retains_prefix end in
    on_dev (rollback_speculative (if retained then emitted else 0)) ≫= fun _ =>
    resolve_routes (if retained then emitted + 1 else 1) ≫= fun _ =>
    if negb retained && (0 <? emitted)
    then on_dev (target_forward (take (Z.to_nat emitted) drafts) 0) ≫= fun _ => mret tt
    else mret tt.

(** ** The loop *)

Definition count_drafts (count : Z) : Op unit :=
  s ← get;
  depths ← lift (bump_at count (depth_cycles (stats s)));
  positions ← lift (bump_below (Z.to_nat count) (position_drafted (stats s)));
  modify (fun s => set_stats (set_position_drafted positions (set_depth_cycles depths
    (set_drafted_tokens (u64 (drafted_tokens (stats s) + count)) (set_cycles (u64 (cycles (stats s) + 1)) (stats s))))) s).

Definition count_accepted (count : Z) : Op unit :=
  s ← get;
  positions ← lift (bump_below (Z.to_nat count) (position_accepted (stats s)));
  modify (fun s => set_stats (set_position_accepted positions
    (set_accepted_tokens (u64 (accepted_tokens (stats s) + count)) (stats s))) s).

(** [last_accepted], [last_rejected] and [last_cycles]. *)
Definition count_cycle (drafted accepted : Z) : Op unit :=
  modify (fun s =>
    let '(cycles, ok, bad) := last_counts s in
    let '(ok, bad) :=
      if 0 <? drafted then (u64 (ok + accepted), if accepted =? drafted then bad else u64 (bad + 1)) else (ok, bad) in
    set_last_counts (u64 (cycles + 1), ok, bad) s).

Fixpoint measure_depths (count : nat) (p : depth_policy) : Op unit :=
  match count with
  | O => mret tt
  | S count =>
      measure_depths count p ≫= fun _ =>
      cost ← lift (policy_cost p (Z.of_nat count));
      match cost with
      | Some ms =>
          s ← get;
          l ← lift (store_at (Z.of_nat count) ms (measured_depth_ms (stats s)));
          modify (fun s => set_stats (set_measured_depth_ms l (stats s)) s)
      | None => mret tt
      end
  end.

(** Whether the time of the cycle counts. *)
Definition time_counts : Op bool :=
  s ← get;
  let clean := negb (maintenance (history s)) in
  match take_target_maintenance with
  | Some m => initialized ← on_dev m; mret (clean && negb initialized)
  | None => mret clean
  end.

Definition observe_cycle (drafted accepted start finish : Z) : Op unit :=
  timed ← time_counts;
  s ← get;
  p ← in_policy s;
  recent ← on_dev prefill_recent;
  p ← lift (policy_observe drafted accepted start finish timed recent p);
  modify (fun s => set_policy (Some p)
    (set_stats (set_selected_depth (policy_depth p) (set_park_count (policy_parks p) (stats s))) s)) ≫= fun _ =>
  measure_depths (Z.to_nat (policy_maximum p + 1)) p.

Definition observe_plain (start : Z) : Op unit :=
  timed ← time_counts;
  finish ← on_dev clock_now;
  s ← get;
  p ← in_policy s;
  recent_tax ← on_dev prefill_recent;
  recent_probe ← on_dev prefill_recent;
  now ← on_dev clock_now;
  p ← lift (policy_observe_plain start finish timed recent_tax recent_probe now p);
  modify (set_policy (Some p)) ≫= fun _ =>
  cost ← lift (policy_cost p 0);
  (match cost with
   | Some ms =>
       s ← get;
       l ← lift (store_at 0 ms (measured_depth_ms (stats s)));
       modify (fun s => set_stats (set_measured_depth_ms l (stats s)) s)
   | None => mret tt
   end) ≫= fun _ =>
  modify (fun s => set_stats (set_reentry_probes (policy_reentries p) (set_selected_depth (policy_depth p) (stats s))) s).

Definition set_pending (token : Z) : Op unit :=
  modify (fun s => let h := heads s in
    set_heads {| committed_last_hidden := committed_last_hidden h; pending := token; initial_hidden := initial_hidden h |} s).
Definition set_committed (rows : list row) : Op unit :=
  modify (fun s => let h := heads s in
    set_heads {| committed_last_hidden := rows; pending := pending h; initial_hidden := initial_hidden h |} s).

(** A cycle without drafts, while the policy is parked. *)
Definition plain_cycle (started : Z) : Op Step :=
  plain_started ← on_dev clock_now;
  s ← get;
  '(hidden, rows) ← on_dev (target_forward [pending (heads s)] 0);
  next ← sample_row hidden (counts s) (constraint_cursor s);
  now ← on_dev clock_now;
  add_target_ms (elapsed_ms plain_started now) ≫= fun _ =>
  k ← accept_cursor next (constraint_cursor s);
  modify (set_constraint_cursor k) ≫= fun _ =>
  committed ← lift (last_row rows);
  set_committed committed ≫= fun _ =>
  delta ← append_output [next];
  accept_output delta ≫= fun _ =>
  prefetch_committed_token next ≫= fun _ =>
  modify (fun s => set_stats (set_standard_tokens (u64 (standard_tokens (stats s) + 1)) (stats s)) s) ≫= fun _ =>
  observe_plain started ≫= fun _ =>
  set_pending next ≫= fun _ =>
  finish ≫= fun _ =>
  suspend AfterPlain (Delta delta).

(** The predictor takes the committed tokens of a generation that stops. *)
Definition settle_history (rows : list row) (delta : TokenOutput) : Op unit :=
  s ← get;
  if blockwise_drafting then
    let count := cache_pos (dev s) - history_position (history s) in
    require_execution ((0 <=? count) && (count <=? size_of rows))
      "block predictor final target boundary is incompatible" ≫= fun _ =>
    if 0 <? count then
      kept ← lift (slice rows 0 count);
      on_dev (append_target_context kept (history_position (history s))) ≫= fun _ => advance_history count
    else mret tt
  else if teacher_forced_prompt_prime && negb (is_nil (token_ids delta)) then
    kept ← lift (slice rows 0 (size_of (token_ids delta)));
    prepare_draft kept (token_ids delta) 0 false ≫= fun _ => mret tt
  else mret tt.

(** The accepted part of a draft is published, and the target's cache follows it. *)
Definition publish_draft (started verify_started : Z) (drafts : list Z) (rows : list row) (accepted next : Z) : Op Step :=
  now ← on_dev clock_now;
  add_target_ms (elapsed_ms verify_started now) ≫= fun _ =>
  count_accepted accepted ≫= fun _ =>
  delta ← append_output (take (Z.to_nat accepted) drafts ++ [next]);
  accept_output delta ≫= fun _ =>
  let emitted := Z.min accepted (size_of (token_ids delta)) in
  resolve_started ← on_dev clock_now;
  commit_drafts drafts emitted ≫= fun _ =>
  committed ← lift (slice rows emitted 1);
  set_committed committed ≫= fun _ =>
  now ← on_dev clock_now;
  modify (fun s => set_stats (set_rollback_ms (fl_add (rollback_ms (stats s)) (elapsed_ms resolve_started now)) (stats s)) s)
    ≫= fun _ =>
  s ← get;
  if is_stopped s then
    settle_history rows delta ≫= fun _ => finish ≫= fun _ => suspend AfterLast (Delta delta)
  else
    prefetch_committed_token next ≫= fun _ =>
    finished ← on_dev clock_now;
    observe_cycle (size_of drafts) accepted started finished ≫= fun _ =>
    count_cycle (size_of drafts) accepted ≫= fun _ =>
    set_pending next ≫= fun _ =>
    finish ≫= fun _ =>
    suspend (AfterCycle (take (Z.to_nat (accepted + 1)) rows) (take (Z.to_nat accepted) drafts ++ [next])) (Delta delta).

(** One draft is verified, and its accepted part published. *)
Definition cycle (started : Z) (draft : DraftChain) : Op Step :=
  let drafts := draft_tokens draft in
  verify_started ← on_dev clock_now;
  s ← get;
  '(hidden, rows) ← target_pass (pending (heads s)) drafts;
  targets ← on_dev (logits_for hidden);
  (if size_of targets =? size_of drafts + 1 then mret tt else throw OtherException) ≫= fun _ =>
  count_drafts (size_of drafts) ≫= fun _ =>
  v ← verify_draft draft targets;
  require_execution ((0 <=? accepted_drafts v) && (accepted_drafts v <=? size_of drafts) && (0 <=? next_token v) &&
                     (next_token v <? vocab_size)) "MTP verification returned invalid data" ≫= fun _ =>
  '(accepted, next) ← constrain draft targets v;
  publish_draft started verify_started drafts rows accepted next.

Definition loop_head (started : Z) (draft : DraftChain) : Op Step :=
  s ← get;
  if generated s <? limit s then
    if is_stopped s then finish_end
    else
      p ← in_policy s;
      if policy_parked p then plain_cycle started else cycle started draft
  else finish_end.

(** The next draft, timed. *)
Definition draft_next_cycle (rows : list row) (next_ids : list Z) (initial : bool) (depth : Run -> depth_policy -> Z) :
    Op (Z * DraftChain) :=
  started ← on_dev clock_now;
  (if initial then mret tt else set_maintenance false) ≫= fun _ =>
  s ← get;
  p ← in_policy s;
  draft ← prepare_draft rows next_ids (depth s p) initial;
  now ← on_dev clock_now;
  add_head_ms (elapsed_ms started now) ≫= fun _ =>
  mret (started, draft).

Definition begin_decode : Op Step :=
  modify (fun s => set_flushes true (set_history
    {| history_position := cache_position (dev s); pending_hidden := []; pending_ids := []; maintenance := false |} s))
    ≫= fun _ =>
  s ← get;
  '(started, draft) ← draft_next_cycle (initial_hidden (heads s)) [pending (heads s)] true
                        (fun s p => bounded_depth (policy_depth p) s);
  loop_head started draft.

(** After a publication, the next draft; a stopped output only keeps the history. *)
Definition continue (rows : list row) (next_ids : list Z) : Op Step :=
  '(started, draft) ← draft_next_cycle rows next_ids false
     (fun s p => if is_stopped s then 0 else bounded_depth (policy_depth p) s);
  s ← get;
  if is_stopped s then finish_end else loop_head started draft.

Definition after_plain : Op Step :=
  s ← get; continue (committed_last_hidden (heads s)) [pending (heads s)].

Definition after_first (bootstrapped : bool) : Op Step :=
  s ← get;
  if is_stopped s then return_end
  else
    k ← clone_constraint "MTP token constraint cursor is incomplete";
    modify (set_constraint_cursor k) ≫= fun _ =>
    if target_bootstrap_decode && negb bootstrapped then
      s ← get;
      k ← bootstrap (counts s) k;
      modify (set_constraint_cursor k) ≫= fun _ =>
      s ← get;
      publish [pending (heads s)] (pending (heads s)) AfterBootstrap
    else begin_decode.

Definition unless_stopped (m : Op Step) : Op Step := s ← get; if is_stopped s then return_end else m.

Definition resume_at (r : Resume) : Op Step :=
  match r with
  | AtStart => start
  | AfterTile => prefill_head
  | AfterCheckpoint => unless_stopped prefill_head
  | AfterPriming p => prime_head p
  | AfterPrompt => unless_stopped publish_first
  | AfterFirst bootstrapped => after_first bootstrapped
  | AfterBootstrap => unless_stopped begin_decode
  | AfterPlain => after_plain
  | AfterCycle rows next_ids => continue rows next_ids
  | AfterLast => return_end
  | AtEnd => mret None
  end.

(** The end of the frame: the policy leaves what it learned. *)
Definition close (s : Run) : Run :=
  match policy s with
  | Some p => set_policy None (set_memory (policy_finish p) s)
  | None => s
  end.

(** [StepSequence::next]: an exception ends the coroutine. *)
Definition next : Op Step := fun s =>
  match resume_at (resume s) s with
  | (Ok (Some e), s) => (Ok (Some e), s)
  | (Ok None, s) => (Ok None, close s)
  | (Throw e, s) => (Throw e, close (set_resume AtEnd s))
  end.

(** ** A new sequence *)

Definition new_run (d : device) (o : Output (Ms := spec_float)) (k : option cursor) (session : option (list row))
    (m : depth_memory) (st : GenerationStats) (c : Z * Z * Z) : Run :=
  {| dev := d; out := o; token_constraint := k; session_hidden := session; memory := m; stats := st; last_counts := c;
     published := None; policy := None; limit := 0; maximum_depth := 0; counts := None; generated := 0;
     prompt_part := {| offset := reused_tokens; prefill_ms := DepthModel.zero; raw := []; hidden := []; raw_chunks := [];
                       seeded := false |};
     heads := {| committed_last_hidden := []; pending := 0; initial_hidden := [] |};
     history := {| history_position := 0; pending_hidden := []; pending_ids := []; maintenance := false |};
     constraint_cursor := None; flushes := false; resume := AtStart |}.

End Sequence.
