(* ===== verification/SpeculativeLaws.v ===== *)
(** * Speculation changes nothing but time

    The laws of a target model ([TargetLaws], which [models/common/causal_forward.h] documents:
    a pass appends to the cache, a rollback keeps the accepted part), and the theorem that a
    greedy speculative generation emits the tokens of plain greedy decoding, whatever the
    predictor drafts, whatever depths the policy chooses and wherever it stops
    ([generation_is_plain]). *)

From stdpp Require Import base list strings.
From Stdlib Require Import ZArith Lia SpecFloat.
From S2P Require Import Prelude Float GenerationPolicy TextEmitter ChatDiff Inference Numbers Speculation DepthModel DepthPolicy SpeculativeOps SpeculativeSequence.

#[local] Set Default Proof Using "Type".
Open Scope Z_scope.

(** ** The laws *)

(** The contexts of the rows of a pass. *)
Definition contexts (context ids : list Z) : list (list Z) :=
  (fun i => context ++ take (S i) ids) <$> seq 0 (length ids).

Section Quiet.
Context {D : Type} (context : D -> list Z) (journal : D -> option Z).

(** The target's cache is as before. *)
Definition quiet {A} (m : M D A) : Prop := forall d, context (m d).2 = context d /\ journal (m d).2 = journal d.

Definition quiet_option {A B} (o : option (A -> M D B)) : Prop :=
  match o with Some m => forall a, quiet (m a) | None => True end.
Definition quiet_option2 {A B C} (o : option (A -> B -> M D C)) : Prop :=
  match o with Some m => forall a b, quiet (m a b) | None => True end.
Definition quiet_option3 {A B C E} (o : option (A -> B -> C -> M D E)) : Prop :=
  match o with Some m => forall a b c, quiet (m a b c) | None => True end.
Definition quiet_action {A} (o : option (M D A)) : Prop := match o with Some m => quiet m | None => True end.
End Quiet.

(** [context] is what the target has cached, [journal] where the suffix of a speculative
    pass starts; the laws of a pass hold within the capacity of the model. A greedy sampler
    is a function [choose] of the logits and the counts, and [choose_allowed] under a
    constraint. *)
Class TargetLaws `{Call} := {
  context : device -> list Z;
  journal : device -> option Z;
  raw_row : list Z -> row;
  hidden_row : list Z -> row;
  logits_of : list Z -> logits;
  choose : logits -> option count_table -> Z;
  choose_allowed : cursor -> logits -> option count_table -> Z;
  first_counts : option count_table;
  (** The target model. *)
  cache_pos_law d : cache_pos d = size_of (context d);
  prefill_law chunk d h r ms d' :
    prefill chunk d = (Ok (h, r, ms), d') -> 0 <= GenerationPolicy.offset chunk -> 0 < count chunk ->
    GenerationPolicy.offset chunk + count chunk <= size_of prompt -> context d = take (Z.to_nat (GenerationPolicy.offset chunk)) prompt ->
    context d' = take (Z.to_nat (GenerationPolicy.offset chunk + count chunk)) prompt /\ journal d' = journal d /\
    (exists h', h = h' ++ [hidden_row (context d')]) /\
    r = raw_row <$> contexts (context d)
      (take (Z.to_nat (count chunk)) (drop (Z.to_nat (GenerationPolicy.offset chunk)) prompt));
  forward_law ids confirmed d h r d' :
    target_forward ids confirmed d = (Ok (h, r), d') -> size_of (context d) + size_of ids <= max_position_embeddings ->
    h = hidden_row <$> contexts (context d) ids /\ r = raw_row <$> contexts (context d) ids /\
    context d' = context d ++ ids /\
    journal d' = if 0 <? confirmed then Some (size_of (context d) + confirmed) else journal d;
  suffix_law ids d h r d' :
    target_suffix ids d = (Ok (h, r), d') -> size_of (context d) + size_of ids <= max_position_embeddings ->
    h = hidden_row <$> contexts (context d) ids /\ r = raw_row <$> contexts (context d) ids /\
    context d' = context d ++ ids /\ journal d' = journal d;
  begin_law n d u d' :
    begin_speculative_suffix n d = (Ok u, d') -> context d' = context d /\ journal d' = Some (size_of (context d));
  commit_law d u d' : commit_speculative d = (Ok u, d') -> context d' = context d;
  rollback_law kept start d u d' :
    rollback_speculative kept d = (Ok u, d') -> journal d = Some start ->
    context d' = take (Z.to_nat (start + kept)) (context d);
  logits_law cs d l d' : logits_for (hidden_row <$> cs) d = (Ok l, d') -> l = logits_of <$> cs;
  (** Sampling and the constraint. *)
  initialize_law d c d' : initialize d = (Ok c, d') -> c = first_counts;
  no_penalties : penalties = false -> first_counts = None;
  normal_law l c d t d' : sampler_greedy = true -> sample_normal l c d = (Ok t, d') -> t = choose l c;
  constrained_law l c k d t d' :
    sampler_greedy = true -> sample_constrained l c k d = (Ok t, d') ->
    t = match k with Some k => choose_allowed k l c | None => choose l c end;
  allowed_law k l c : cursor_allows (choose l c) k = true -> choose_allowed k l c = choose l c;
  argmax_law : match greedy_tokens with
               | Some m => forall l d ts d', m l d = (Ok ts, d') -> ts = [] \/ ts = (fun l => choose l None) <$> l
               | None => True
               end;
  clone_law k k' : cursor_clone k = Some k' -> k' = k;
  (** Everything else leaves the target alone. *)
  quiet_clock : quiet context journal clock_now;
  quiet_recent : quiet context journal prefill_recent;
  quiet_delta z : quiet context journal (set_decode_position_delta z);
  quiet_logits rows : quiet context journal (logits_for rows);
  quiet_initialize : quiet context journal initialize;
  quiet_normal l c : quiet context journal (sample_normal l c);
  quiet_constrained l c k : quiet context journal (sample_constrained l c k);
  quiet_probabilities l c p : quiet context journal (probabilities l c p);
  quiet_compact l c p : quiet context journal (compact_probabilities l c p);
  quiet_rows l p : quiet context journal (compact_probability_rows l p);
  quiet_uniform : quiet context journal next_uniform;
  quiet_argmax : quiet_option context journal greedy_tokens;
  quiet_trim z : quiet context journal (trim_cache_to z);
  quiet_append rows z : quiet context journal (append_target_context rows z);
  quiet_seed : quiet_option2 context journal seed_target_context;
  quiet_block t n : quiet context journal (draft_block t n);
  quiet_next rows t : quiet context journal (draft_next rows t);
  quiet_step rows ids p : quiet context journal (predictor_step rows ids p);
  quiet_prompt : quiet_option3 context journal blockwise_prompt_context;
  quiet_begin : quiet_option context journal begin_predictor_prefill;
  quiet_prime : quiet_option3 context journal predictor_prefill;
  quiet_end : quiet_action context journal end_predictor_prefill;
  quiet_history : quiet_option3 context journal predictor_history_step;
  quiet_committed : quiet_option context journal prefetch_committed;
  quiet_first : quiet_option context journal prefetch_target_first;
  quiet_prefix : quiet_option2 context journal prefetch_target_prefix;
  quiet_routes : quiet_option context journal begin_target_routes;
  quiet_resolve : quiet_option2 context journal resolve_target_routes;
  quiet_maintenance : quiet_action context journal take_target_maintenance;
}.

(** ** Plain decoding *)

Section Plain.
Context `{Laws : TargetLaws}.

(** Where plain decoding is: what was read, the constraint, and the counts. *)
Record Place := { pl_context : list Z; pl_cursor : option cursor; pl_counts : option count_table }.

Definition pick (p : Place) : Z :=
  match pl_cursor p with
  | Some k => choose_allowed k (logits_of (pl_context p)) (pl_counts p)
  | None => choose (logits_of (pl_context p)) (pl_counts p)
  end.

(** A token is read: the constraint accepts it. *)
Definition move (t : Z) (p : Place) : option Place :=
  let at_cursor k :=
    {| pl_context := pl_context p ++ [t]; pl_cursor := k; pl_counts := with_counts [t] (pl_counts p) |} in
  match pl_cursor p with
  | None => Some (at_cursor None)
  | Some k => match cursor_accept t k with Ok k => Some (at_cursor (Some k)) | Throw _ => None end
  end.

(** The first [n] tokens of plain greedy decoding. *)
Fixpoint plain_decode (n : nat) (p : Place) : list Z :=
  match n with
  | O => []
  | S n => pick p :: match move (pick p) p with Some p => plain_decode n p | None => [] end
  end.

(** [ts] are the tokens plain decoding gives from [p] on, and [q] is where it is then. *)
Fixpoint decodes (p : Place) (ts : list Z) (q : Place) : Prop :=
  match ts with
  | [] => q = p
  | t :: ts => t = pick p /\ exists p', move t p = Some p' /\ decodes p' ts q
  end.

Lemma decodes_plain ts : forall p q, decodes p ts q -> plain_decode (length ts) p = ts.
Proof.
  induction ts as [|t ts IH]; intros p q; [done|]. intros [-> (p' & Hm & Hd)].
  cbn [length plain_decode]. rewrite Hm. f_equal. by apply (IH p' q).
Qed.

Lemma decodes_app ts us : forall p q, decodes p (ts ++ us) q <-> exists r, decodes p ts r /\ decodes r us q.
Proof.
  induction ts as [|t ts IH]; intros p q; cbn [app decodes].
  - split; [intros Hd; by exists p|]. by intros (r & -> & Hd).
  - split.
    + intros [-> (p' & Hm & (r & Hr & Hq)%IH)]. exists r. split; [|done]. split; [done|]. by exists p'.
    + intros (r & [-> (p' & Hm & Hr)] & Hq). split; [done|]. exists p'. split; [done|]. apply IH. by exists r.
Qed.

Lemma decodes_context ts : forall p q, decodes p ts q -> pl_context q = pl_context p ++ ts.
Proof.
  induction ts as [|t ts IH]; intros p q; cbn [decodes].
  - intros ->. by rewrite app_nil_r.
  - intros [_ (p' & Hm & Hd)]. rewrite (IH p' q Hd). revert Hm. unfold move.
    destruct (pl_cursor p) as [k|]; [destruct (cursor_accept t k); [|done]|]; intros [= <-]; cbn; by rewrite <- app_assoc.
Qed.

(** Reading tokens, whoever chose them. *)
Fixpoint reads (p : Place) (ts : list Z) : option Place :=
  match ts with [] => Some p | t :: ts => p ← move t p; reads p ts end.

(** [ts] leads from [p] to [q]: the constraint accepts it, and a greedy sampler chose it. *)
Definition follows (p : Place) (ts : list Z) (q : Place) : Prop :=
  reads p ts = Some q /\ (sampler_greedy = true -> decodes p ts q).

Lemma decodes_reads ts : forall p q, decodes p ts q -> reads p ts = Some q.
Proof.
  induction ts as [|t ts IH]; intros p q; cbn [decodes reads]; [by intros ->|].
  intros [_ (p' & Hm & Hd)]. rewrite Hm. cbn. by apply IH.
Qed.

Lemma reads_app ts us p : reads p (ts ++ us) = (q ← reads p ts; reads q us).
Proof.
  revert p. induction ts as [|t ts IH]; intros p; cbn [app reads]; [done|].
  destruct (move t p) as [q|]; [apply IH|done].
Qed.

Lemma follows_app ts us p q : follows p (ts ++ us) q <-> exists r, follows p ts r /\ follows r us q.
Proof.
  unfold follows. rewrite reads_app. split.
  - intros [Hr Hd]. destruct (reads p ts) as [r|] eqn:Er; [|done]. exists r. split_and!; [done| |exact Hr|].
    + intros Hg. destruct (proj1 (decodes_app _ _ _ _) (Hd Hg)) as (r' & Hr' & _). pose proof (decodes_reads _ _ _ Hr').
      by simplify_eq.
    + intros Hg. destruct (proj1 (decodes_app _ _ _ _) (Hd Hg)) as (r' & Hr' & Hq). pose proof (decodes_reads _ _ _ Hr').
      by simplify_eq.
  - intros (r & [Hr Hdr] & Hq & Hdq). rewrite Hr. split; [exact Hq|]. intros Hg. apply decodes_app. exists r. auto.
Qed.

Lemma follows_nil p : follows p [] p.
Proof. done. Qed.

Lemma follows_one p t q : move t p = Some q -> (sampler_greedy = true -> t = pick p) -> follows p [t] q.
Proof. intros Hm Ht. split; cbn; [by rewrite Hm|]. intros Hg. split; [auto|]. by exists q. Qed.

Lemma follows_prefix p ts us q : follows p ts q -> us `prefix_of` ts -> exists r, follows p us r.
Proof. intros Hf [vs ->]. apply follows_app in Hf as (r & Hr & _). by exists r. Qed.

Lemma move_place t p q :
  move t p = Some q -> pl_context q = pl_context p ++ [t] /\ pl_counts q = with_counts [t] (pl_counts p) /\
  match pl_cursor p with
  | None => pl_cursor q = None
  | Some k => exists k', cursor_accept t k = Ok k' /\ pl_cursor q = Some k'
  end.
Proof.
  unfold move. destruct (pl_cursor p) as [k|]; [destruct (cursor_accept t k) as [k'|] eqn:Ek; [|done]|];
    intros [= <-]; cbn; eauto.
Qed.

Lemma reads_context ts : forall p q, reads p ts = Some q -> pl_context q = pl_context p ++ ts.
Proof.
  induction ts as [|t ts IH]; intros p q; cbn [reads].
  - intros [= ->]. by rewrite app_nil_r.
  - destruct (move t p) as [r|] eqn:Em; [cbn; intros Hr|done]. apply move_place in Em as (Hc & _).
    by rewrite (IH r q Hr), Hc, <- app_assoc.
Qed.

Lemma reads_counts ts : forall p q, reads p ts = Some q -> penalties = false -> pl_counts q = pl_counts p.
Proof.
  induction ts as [|t ts IH]; intros p q; cbn [reads]; [by intros [= ->]|].
  destruct (move t p) as [r|] eqn:Em; [cbn; intros Hr Hp|done]. apply move_place in Em as (_ & Hc & _).
  rewrite (IH r q Hr Hp), Hc. unfold with_counts. by rewrite Hp.
Qed.

(** Without a constraint everything is read. *)
Lemma reads_free ts : forall context c,
  reads {| pl_context := context; pl_cursor := None; pl_counts := c |} ts =
  Some {| pl_context := context ++ ts; pl_cursor := None; pl_counts := foldl (fun c t => with_counts [t] c) c ts |}.
Proof.
  induction ts as [|t ts IH]; intros context c; cbn; [by rewrite app_nil_r|]. by rewrite IH, <- app_assoc.
Qed.

(** The logits after the context, and after each draft. *)
Fixpoint targets_along (context drafts : list Z) : list logits :=
  logits_of context :: match drafts with [] => [] | d :: drafts => targets_along (context ++ [d]) drafts end.

Lemma targets_along_contexts drafts : forall context t,
  targets_along (context ++ [t]) drafts = logits_of <$> contexts context (t :: drafts).
Proof.
  unfold contexts. induction drafts as [|d drafts IH]; intros context t; [done|].
  cbn [targets_along]. rewrite IH. cbn [length seq fmap list_fmap take].
  rewrite <- !list_fmap_compose. f_equal. f_equal; [by rewrite <- app_assoc|].
  rewrite <- !fmap_S_seq, <- !list_fmap_compose. apply list_fmap_ext. intros i j _. cbn. by rewrite <- app_assoc.
Qed.

(** Greedy choices that ignore the constraint. *)
Fixpoint greedy_along (context : list Z) (c : option count_table) (ts : list Z) : Prop :=
  match ts with
  | [] => True
  | t :: ts => t = choose (logits_of context) c /\ greedy_along (context ++ [t]) (with_counts [t] c) ts
  end.

Fixpoint choices_along (context : list Z) (c : option count_table) (drafts : list Z) : list Z :=
  choose (logits_of context) c ::
  match drafts with
  | [] => []
  | d :: drafts => choices_along (context ++ [d]) (with_counts [d] c) drafts
  end.

Lemma choices_along_length drafts : forall context c, length (choices_along context c drafts) = S (length drafts).
Proof. induction drafts as [|d drafts IH]; intros context c; cbn; [done|]. by rewrite IH. Qed.

Lemma choices_along_none drafts : forall context,
  penalties = false -> choices_along context None drafts = (fun l => choose l None) <$> targets_along context drafts.
Proof.
  intros context Hp. revert context. induction drafts as [|d drafts IH]; intros context; cbn; [done|]. f_equal.
  rewrite <- IH. unfold with_counts. by rewrite Hp.
Qed.

Lemma agreeing_greedy drafts : forall context c,
  let n := agreeing drafts (choices_along context c drafts) in
  exists t, choices_along context c drafts !! n = Some t /\ greedy_along context c (take n drafts ++ [t]).
Proof.
  induction drafts as [|d drafts IH]; intros context c; cbn [choices_along agreeing]; [by eexists|].
  destruct (Z.eqb_spec d (choose (logits_of context) c)) as [->|Hd]; [|by eexists].
  destruct (IH (context ++ [choose (logits_of context) c]) (with_counts [choose (logits_of context) c] c)) as (t & Ht & Hg).
  exists t. split; [exact Ht|]. by cbn.
Qed.

(** Greedy verification accepts the drafts that are greedy choices, and adds the next. *)
Lemma verify_greedy_along context c drafts v :
  verify_greedy drafts (choices_along context c drafts) = Ok v ->
  greedy_along context c (take (Z.to_nat (accepted_drafts v)) drafts ++ [next_token v]).
Proof.
  unfold verify_greedy. destruct (is_nil drafts || _); [done|].
  destruct (agreeing_greedy drafts context c) as (t & Ht & Hg). rewrite Ht. intros [= <-]. cbn. by rewrite Nat2Z.id.
Qed.

(** Without a constraint plain decoding makes these choices. *)
Lemma greedy_along_decodes ts : forall context c,
  greedy_along context c ts ->
  decodes {| pl_context := context; pl_cursor := None; pl_counts := c |} ts
    {| pl_context := context ++ ts; pl_cursor := None; pl_counts := foldl (fun c t => with_counts [t] c) c ts |}.
Proof.
  induction ts as [|t ts IH]; intros context c; cbn [greedy_along decodes].
  - by rewrite app_nil_r.
  - intros [Ht Hg]. split; [done|]. eexists. split; [reflexivity|]. cbn.
    specialize (IH _ _ Hg). by rewrite <- app_assoc in IH.
Qed.
End Plain.

(** ** What matters of a state *)

Section Core.
Context {F : FloatFormat} `{Laws : TargetLaws} `{DepthControl}.

Record Core := {
  co_context : list Z;
  co_journal : option Z;
  co_constraint : option cursor;
  co_counts : option count_table;
  co_cursor : option cursor;
  co_generated : Z;
  co_limit : Z;
  co_heads : Heads;
  co_out : Output (Ms := spec_float);
  co_session : option (list row);
  co_offset : Z;
  co_raw : list row;
  co_hidden : list row;
  co_chunks : list (list row);
  co_resume : Resume;
}.

Definition core (s : Run) : Core :=
  {| co_context := context (dev s); co_journal := journal (dev s); co_constraint := token_constraint s;
     co_counts := counts s; co_cursor := constraint_cursor s; co_generated := generated s; co_limit := limit s; co_heads := heads s; co_out := out s;
     co_session := session_hidden s; co_offset := offset (prompt_part s); co_raw := raw (prompt_part s);
     co_hidden := hidden (prompt_part s); co_chunks := raw_chunks (prompt_part s); co_resume := resume s |}.

Definition up_context (v : list Z) (r : Core) : Core :=
  {| co_context := v; co_journal := co_journal r; co_constraint := co_constraint r; co_counts := co_counts r;
     co_cursor := co_cursor r; co_generated := co_generated r; co_limit := co_limit r; co_heads := co_heads r;
     co_out := co_out r; co_session := co_session r; co_offset := co_offset r; co_raw := co_raw r;
     co_hidden := co_hidden r; co_chunks := co_chunks r; co_resume := co_resume r |}.
Definition up_journal (v : option Z) (r : Core) : Core :=
  {| co_context := co_context r; co_journal := v; co_constraint := co_constraint r; co_counts := co_counts r;
     co_cursor := co_cursor r; co_generated := co_generated r; co_limit := co_limit r; co_heads := co_heads r;
     co_out := co_out r; co_session := co_session r; co_offset := co_offset r; co_raw := co_raw r;
     co_hidden := co_hidden r; co_chunks := co_chunks r; co_resume := co_resume r |}.
Definition up_constraint (v : option cursor) (r : Core) : Core :=
  {| co_context := co_context r; co_journal := co_journal r; co_constraint := v; co_counts := co_counts r;
     co_cursor := co_cursor r; co_generated := co_generated r; co_limit := co_limit r; co_heads := co_heads r;
     co_out := co_out r; co_session := co_session r; co_offset := co_offset r; co_raw := co_raw r;
     co_hidden := co_hidden r; co_chunks := co_chunks r; co_resume := co_resume r |}.
Definition up_counts (v : option count_table) (r : Core) : Core :=
  {| co_context := co_context r; co_journal := co_journal r; co_constraint := co_constraint r; co_counts := v;
     co_cursor := co_cursor r; co_generated := co_generated r; co_limit := co_limit r; co_heads := co_heads r;
     co_out := co_out r; co_session := co_session r; co_offset := co_offset r; co_raw := co_raw r;
     co_hidden := co_hidden r; co_chunks := co_chunks r; co_resume := co_resume r |}.
Definition up_cursor (v : option cursor) (r : Core) : Core :=
  {| co_context := co_context r; co_journal := co_journal r; co_constraint := co_constraint r;
     co_counts := co_counts r; co_cursor := v; co_generated := co_generated r; co_limit := co_limit r;
     co_heads := co_heads r; co_out := co_out r; co_session := co_session r; co_offset := co_offset r;
     co_raw := co_raw r; co_hidden := co_hidden r; co_chunks := co_chunks r; co_resume := co_resume r |}.
Definition up_generated (v : Z) (r : Core) : Core :=
  {| co_context := co_context r; co_journal := co_journal r; co_constraint := co_constraint r;
     co_counts := co_counts r; co_cursor := co_cursor r; co_generated := v; co_limit := co_limit r;
     co_heads := co_heads r; co_out := co_out r; co_session := co_session r; co_offset := co_offset r;
     co_raw := co_raw r; co_hidden := co_hidden r; co_chunks := co_chunks r; co_resume := co_resume r |}.
Definition up_limit (v : Z) (r : Core) : Core :=
  {| co_context := co_context r; co_journal := co_journal r; co_constraint := co_constraint r;
     co_counts := co_counts r; co_cursor := co_cursor r; co_generated := co_generated r; co_limit := v;
     co_heads := co_heads r; co_out := co_out r; co_session := co_session r; co_offset := co_offset r;
     co_raw := co_raw r; co_hidden := co_hidden r; co_chunks := co_chunks r; co_resume := co_resume r |}.
Definition up_heads (v : Heads) (r : Core) : Core :=
  {| co_context := co_context r; co_journal := co_journal r; co_constraint := co_constraint r;
     co_counts := co_counts r; co_cursor := co_cursor r; co_generated := co_generated r;
     co_limit := co_limit r; co_heads := v; co_out := co_out r; co_session := co_session r;
     co_offset := co_offset r; co_raw := co_raw r; co_hidden := co_hidden r; co_chunks := co_chunks r;
     co_resume := co_resume r |}.
Definition up_out (v : Output (Ms := spec_float)) (r : Core) : Core :=
  {| co_context := co_context r; co_journal := co_journal r; co_constraint := co_constraint r;
     co_counts := co_counts r; co_cursor := co_cursor r; co_generated := co_generated r;
     co_limit := co_limit r; co_heads := co_heads r; co_out := v; co_session := co_session r;
     co_offset := co_offset r; co_raw := co_raw r; co_hidden := co_hidden r; co_chunks := co_chunks r;
     co_resume := co_resume r |}.
Definition up_session (v : option (list row)) (r : Core) : Core :=
  {| co_context := co_context r; co_journal := co_journal r; co_constraint := co_constraint r;
     co_counts := co_counts r; co_cursor := co_cursor r; co_generated := co_generated r;
     co_limit := co_limit r; co_heads := co_heads r; co_out := co_out r; co_session := v;
     co_offset := co_offset r; co_raw := co_raw r; co_hidden := co_hidden r; co_chunks := co_chunks r;
     co_resume := co_resume r |}.
Definition up_offset (v : Z) (r : Core) : Core :=
  {| co_context := co_context r; co_journal := co_journal r; co_constraint := co_constraint r;
     co_counts := co_counts r; co_cursor := co_cursor r; co_generated := co_generated r;
     co_limit := co_limit r; co_heads := co_heads r; co_out := co_out r; co_session := co_session r;
     co_offset := v; co_raw := co_raw r; co_hidden := co_hidden r; co_chunks := co_chunks r;
     co_resume := co_resume r |}.
Definition up_raw (v : list row) (r : Core) : Core :=
  {| co_context := co_context r; co_journal := co_journal r; co_constraint := co_constraint r;
     co_counts := co_counts r; co_cursor := co_cursor r; co_generated := co_generated r;
     co_limit := co_limit r; co_heads := co_heads r; co_out := co_out r; co_session := co_session r;
     co_offset := co_offset r; co_raw := v; co_hidden := co_hidden r; co_chunks := co_chunks r;
     co_resume := co_resume r |}.
Definition up_hidden (v : list row) (r : Core) : Core :=
  {| co_context := co_context r; co_journal := co_journal r; co_constraint := co_constraint r;
     co_counts := co_counts r; co_cursor := co_cursor r; co_generated := co_generated r;
     co_limit := co_limit r; co_heads := co_heads r; co_out := co_out r; co_session := co_session r;
     co_offset := co_offset r; co_raw := co_raw r; co_hidden := v; co_chunks := co_chunks r;
     co_resume := co_resume r |}.
Definition up_chunks (v : list (list row)) (r : Core) : Core :=
  {| co_context := co_context r; co_journal := co_journal r; co_constraint := co_constraint r;
     co_counts := co_counts r; co_cursor := co_cursor r; co_generated := co_generated r;
     co_limit := co_limit r; co_heads := co_heads r; co_out := co_out r; co_session := co_session r;
     co_offset := co_offset r; co_raw := co_raw r; co_hidden := co_hidden r; co_chunks := v;
     co_resume := co_resume r |}.
Definition up_resume (v : Resume) (r : Core) : Core :=
  {| co_context := co_context r; co_journal := co_journal r; co_constraint := co_constraint r;
     co_counts := co_counts r; co_cursor := co_cursor r; co_generated := co_generated r;
     co_limit := co_limit r; co_heads := co_heads r; co_out := co_out r; co_session := co_session r;
     co_offset := co_offset r; co_raw := co_raw r; co_hidden := co_hidden r; co_chunks := co_chunks r;
     co_resume := v |}.

(** [m] changes none of it. *)
Definition keeps {A} (m : M Run A) : Prop := forall s, core (m s).2 = core s.

(** From a state with the core [c], [m] returns with [Q] of its result and of the new core,
    or throws. *)
Definition runs {A} (c : Core) (m : M Run A) (Q : A -> Core -> Prop) : Prop :=
  forall s, core s = c -> match m s with (Ok a, s') => Q a (core s') | (Throw _, _) => True end.

Lemma kept_ret {A} (a : A) : keeps (mret a).
Proof. done. Qed.
Lemma keeps_throw {A} e : keeps (throw (A := A) e).
Proof. done. Qed.
Lemma kept_get : keeps get.
Proof. done. Qed.
Lemma kept_lift {A} (o : outcome A) : keeps (lift o).
Proof. done. Qed.
Lemma keeps_modify f : (forall s, core (f s) = core s) -> keeps (modify f).
Proof. intros Hf s. apply Hf. Qed.
Lemma kept_bind {A B} (m : M Run A) (k : A -> M Run B) : keeps m -> (forall a, keeps (k a)) -> keeps (m ≫= k).
Proof.
  intros Hm Hk s. unfold mbind, M_bind. specialize (Hm s). destruct (m s) as [[a|e] s']; [|done].
  cbn in Hm. by rewrite (Hk a s').
Qed.
Lemma keeps_dev {A} (m : M device A) : quiet context journal m -> keeps (on_dev m).
Proof.
  intros Hm s. destruct (Hm (dev s)) as [Hc Hj]. unfold on_dev. destruct (m (dev s)) as [r d]. cbn in Hc, Hj.
  unfold core. cbn. by rewrite Hc, Hj.
Qed.
Lemma keeps_require b what : keeps (require_execution b what).
Proof. unfold require_execution. by destruct b. Qed.
Lemma keeps_policy s : keeps (in_policy s).
Proof. unfold in_policy. by destruct (policy s). Qed.
Lemma keeps_hint {A} (o : option (A -> M device unit)) a : quiet_option context journal o -> keeps (hint o a).
Proof. intros Ho. unfold hint. destruct o; [by apply keeps_dev|done]. Qed.
Lemma keeps_timed {A} (o : option (A -> M device spec_float)) a : quiet_option context journal o -> keeps (timed o a).
Proof.
  intros Ho. unfold timed. destruct o; [|done]. apply kept_bind; [by apply keeps_dev|]. intros ms. by apply keeps_modify.
Qed.

Lemma ran_ret {A} c (a : A) (Q : A -> Core -> Prop) : Q a c -> runs c (mret a) Q.
Proof. intros HQ s <-. done. Qed.
Lemma runs_throw {A} c e (Q : A -> Core -> Prop) : runs c (throw e) Q.
Proof. by intros s Hs. Qed.
Lemma ran_bind {A B} c (m : M Run A) (k : A -> M Run B) R Q :
  runs c m R -> (forall a c', R a c' -> runs c' (k a) Q) -> runs c (m ≫= k) Q.
Proof.
  intros Hm Hk s Hs. specialize (Hm s Hs). unfold mbind, M_bind. destruct (m s) as [[a|e] s']; [|done].
  by apply (Hk a _ Hm s').
Qed.
Lemma runs_keeps {A B} c (m : M Run A) (k : A -> M Run B) Q :
  keeps m -> (forall a, runs c (k a) Q) -> runs c (m ≫= k) Q.
Proof.
  intros Hm Hk s Hs. specialize (Hm s). unfold mbind, M_bind. destruct (m s) as [[a|e] s']; [|done].
  apply (Hk a s'). cbn in Hm. congruence.
Qed.
Lemma runs_get {B} c (k : Run -> M Run B) Q : (forall s, core s = c -> runs c (k s) Q) -> runs c (get ≫= k) Q.
Proof. intros Hk s Hs. by apply (Hk s Hs s). Qed.
Lemma ran_lift {A B} c (o : outcome A) (k : A -> M Run B) Q :
  (forall a, o = Ok a -> runs c (k a) Q) -> runs c (lift o ≫= k) Q.
Proof. intros Hk s Hs. unfold lift, mbind, M_bind. destruct o as [a|e]; [|done]. by apply (Hk a eq_refl s). Qed.
Lemma runs_require {B} c b what (k : unit -> M Run B) Q :
  (b = true -> runs c (k tt) Q) -> runs c (require_execution b what ≫= k) Q.
Proof. intros Hk s Hs. unfold require_execution. destruct b; [|done]. by apply (Hk eq_refl s). Qed.
Lemma runs_modify {B} c f (g : Core -> Core) (k : unit -> M Run B) Q :
  (forall s, core (f s) = g (core s)) -> runs (g c) (k tt) Q -> runs c (modify f ≫= k) Q.
Proof. intros Hf Hk s Hs. apply (Hk (f s)). by rewrite Hf, Hs. Qed.
Lemma ran_weaken {A} c (m : M Run A) (Q Q' : A -> Core -> Prop) :
  runs c m Q -> (forall a c', Q a c' -> Q' a c') -> runs c m Q'.
Proof. intros Hm HQ s Hs. specialize (Hm s Hs). destruct (m s) as [[a|e] s']; auto. Qed.
Lemma runs_done {A} c (m : M Run A) (Q : A -> Core -> Prop) : keeps m -> (forall a, Q a c) -> runs c m Q.
Proof.
  intros Hm HQ s Hs. specialize (Hm s). destruct (m s) as [[a|e] s']; [|done]. cbn in Hm. rewrite Hm, Hs. apply HQ.
Qed.

(** The result of a quiet operation of the backend, by its law. *)
Lemma runs_dev {A B} c (m : M device A) (k : A -> M Run B) (R : A -> Prop) Q :
  quiet context journal m -> (forall d a d', m d = (Ok a, d') -> R a) ->
  (forall a, R a -> runs c (k a) Q) -> runs c (on_dev m ≫= k) Q.
Proof.
  intros Hm HR Hk. eapply ran_bind.
  - instantiate (1 := fun a c' => R a /\ c' = c). intros s Hs. pose proof (keeps_dev m Hm s) as Hc.
    unfold on_dev in *. destruct (m (dev s)) as [[a|e] d] eqn:Em; [|done]. cbn in Hc. split; [by apply (HR _ _ _ Em)|].
    by rewrite Hc.
  - intros a c' [Ha ->]. by apply Hk.
Qed.

(** One that changes the target. *)
Lemma runs_pass {A B} c (m : M device A) (k : A -> M Run B) (R : A -> list Z -> option Z -> Prop) Q :
  (forall d a d', m d = (Ok a, d') -> context d = co_context c -> journal d = co_journal c ->
     R a (context d') (journal d')) ->
  (forall a x y, R a x y -> runs (up_journal y (up_context x c)) (k a) Q) ->
  runs c (on_dev m ≫= k) Q.
Proof.
  intros HR Hk s Hs. unfold mbind, M_bind, on_dev. destruct (m (dev s)) as [[a|e] d] eqn:Em; [|done].
  apply (Hk a _ _ (HR _ _ _ Em ltac:(by rewrite <- Hs) ltac:(by rewrite <- Hs))). by rewrite <- Hs.
Qed.
End Core.

Section Some.
Context {D : Type} {ctx : D -> list Z} {jr : D -> option Z} {A B C E : Type}.
Lemma quiet_some0 {m : M D A} {o} : o = Some m -> quiet_action ctx jr o -> quiet ctx jr m.
Proof. by intros ->. Qed.
Lemma quiet_some1 {m : A -> M D B} {o} : o = Some m -> quiet_option ctx jr o -> forall a, quiet ctx jr (m a).
Proof. by intros ->. Qed.
Lemma quiet_some2 {m : A -> B -> M D C} {o} : o = Some m -> quiet_option2 ctx jr o -> forall a b, quiet ctx jr (m a b).
Proof. by intros ->. Qed.
Lemma quiet_some3 {m : A -> B -> C -> M D E} {o} :
  o = Some m -> quiet_option3 ctx jr o -> forall a b c, quiet ctx jr (m a b c).
Proof. by intros ->. Qed.
End Some.

Create HintDb core.
#[export] Hint Resolve kept_ret keeps_throw kept_get kept_lift keeps_require keeps_policy : core.

(** Quietness of the backend's operations, from the laws. *)
#[export] Hint Resolve quiet_clock quiet_recent quiet_delta quiet_logits quiet_initialize quiet_normal quiet_constrained
  quiet_probabilities quiet_compact quiet_rows quiet_uniform quiet_argmax quiet_trim quiet_append quiet_seed quiet_block
  quiet_next quiet_step quiet_prompt quiet_begin quiet_prime quiet_end quiet_history quiet_committed quiet_first
  quiet_prefix quiet_routes quiet_resolve quiet_maintenance : core.

(** An operation that keeps the core, piece by piece. *)
Ltac keep :=
  repeat first
    [ progress intros
    | progress eauto 2 with core
    | apply keeps_modify; intros; reflexivity
    | apply kept_bind
    | apply keeps_hint | apply keeps_timed | apply keeps_dev
    | match goal with
      | E : _ = Some _ |- quiet _ _ _ =>
          solve [ apply (quiet_some0 E); auto 1 with core | apply (quiet_some1 E); auto 1 with core
                | apply (quiet_some2 E); auto 1 with core | apply (quiet_some3 E); auto 1 with core ]
      end
    | match goal with
      | |- keeps (match ?x with _ => _ end) => let E := fresh "E" in destruct x eqn:E
      | |- keeps (let '(_, _) := ?x in _) => destruct x
      end ].
