(* ===== verification/SpeculativeSteps.v ===== *)
(** * The steps of a speculative generation, one by one

    What each part of [SpeculativeSequence] does to the target's cache, the constraint, the
    counts and the output: those of the predictor and of the policy do nothing; a pass, its
    verification and its publication move them along the tokens read. *)

From stdpp Require Import base list strings.
From Stdlib Require Import ZArith Lia SpecFloat.
From S2P Require Import Prelude Float GenerationPolicy TextEmitter ChatDiff Inference Numbers Speculation DepthModel DepthPolicy SpeculativeOps SpeculativeSequence SpeculativeLaws.

#[local] Set Default Proof Using "Type".
Open Scope Z_scope.

Section Steps.
Context {F : FloatFormat} `{Laws : TargetLaws} `{DepthControl}.

(** ** What leaves the target alone *)

Lemma keeps_clock : keeps (on_dev clock_now).
Proof. keep. Qed.

Lemma keeps_prime_tile rows offset chunk : keeps (prime_tile rows offset chunk).
Proof. unfold prime_tile, take_time. keep. Qed.

Lemma keeps_end_priming : keeps end_priming.
Proof. unfold end_priming, take_time. keep. Qed.

#[local] Hint Resolve keeps_clock keeps_prime_tile keeps_end_priming : core.

Lemma keeps_prime_loop fuel rows offset pairs : forall done, keeps (prime_loop fuel rows offset pairs done).
Proof. induction fuel as [|fuel IH]; intros done; cbn [prime_loop]; keep. Qed.

#[local] Hint Resolve keeps_prime_loop : core.

Lemma keeps_prime_rows rows offset pairs : keeps (prime_rows rows offset pairs).
Proof. unfold prime_rows. keep. Qed.

Lemma keeps_prime_blockwise rows position seed : keeps (prime_blockwise rows position seed).
Proof. unfold prime_blockwise, take_time. keep. Qed.

Lemma keeps_prefetch token : keeps (prefetch_committed_token token).
Proof. unfold prefetch_committed_token. keep. Qed.

Lemma keeps_flush_history : keeps flush_history.
Proof. unfold flush_history. keep. Qed.

Lemma keeps_advance_history n : keeps (advance_history n).
Proof. unfold advance_history. keep. Qed.

Lemma keeps_set_maintenance b : keeps (set_maintenance b).
Proof. unfold set_maintenance. keep. Qed.

#[local] Hint Resolve keeps_prime_rows keeps_prime_blockwise keeps_prefetch keeps_flush_history keeps_advance_history
  keeps_set_maintenance : core.

Lemma keeps_select_draft l chain c : keeps (select_draft l chain c).
Proof. unfold select_draft. keep. Qed.

#[local] Hint Resolve keeps_select_draft : core.

Lemma keeps_draft_from_block todo : forall position block previous chain c,
  keeps (draft_from_block todo position block previous chain c).
Proof. induction todo as [|todo IH]; intros; cbn [draft_from_block]; keep. Qed.

Lemma keeps_draft_from_chain todo : forall position last a b chain c,
  keeps (draft_from_chain todo position last a b chain c).
Proof. induction todo as [|todo IH]; intros; cbn [draft_from_chain]; keep. Qed.

#[local] Hint Resolve keeps_draft_from_block keeps_draft_from_chain : core.

Lemma keeps_draft_blockwise rows ids depth initial c : keeps (draft_blockwise rows ids depth initial c).
Proof. unfold draft_blockwise. keep. Qed.

Lemma keeps_hold_history rows ids parked : keeps (hold_history rows ids parked).
Proof. unfold hold_history. keep. Qed.

Lemma keeps_merge_history rows ids : keeps (merge_history rows ids).
Proof. unfold merge_history. keep. Qed.

#[local] Hint Resolve keeps_draft_blockwise keeps_hold_history keeps_merge_history : core.

Lemma keeps_draft_chained rows ids depth c : keeps (draft_chained rows ids depth c).
Proof. unfold draft_chained. keep. Qed.

#[local] Hint Resolve keeps_draft_chained : core.

Lemma keeps_prepare_draft rows ids depth initial : keeps (prepare_draft rows ids depth initial).
Proof. unfold prepare_draft. keep. Qed.

Lemma keeps_add_target_ms ms : keeps (add_target_ms ms).
Proof. unfold add_target_ms. keep. Qed.

Lemma keeps_add_head_ms ms : keeps (add_head_ms ms).
Proof. unfold add_head_ms. keep. Qed.

#[local] Hint Resolve keeps_prepare_draft keeps_add_target_ms keeps_add_head_ms : core.

Lemma keeps_draft_next_cycle rows ids initial depth : keeps (draft_next_cycle rows ids initial depth).
Proof. unfold draft_next_cycle. keep. Qed.

Lemma keeps_sample_rows {A} (f : logits -> option count_table -> M device A) targets :
  (forall l c, quiet context journal (f l c)) -> forall drafts c, keeps (sample_rows f targets drafts c).
Proof. intros Hf. induction targets as [|l targets IH]; intros drafts c; cbn [sample_rows]; keep. Qed.

Lemma keeps_draw_uniforms count : keeps (draw_uniforms count).
Proof. induction count as [|count IH]; cbn [draw_uniforms]; keep. Qed.

#[local] Hint Resolve keeps_draw_uniforms : core.

Lemma keeps_verify_draft draft targets : keeps (verify_draft draft targets).
Proof.
  unfold verify_draft, verify_by_argmax, verify_compact, verify_vectors.
  keep; try (apply keeps_sample_rows; eauto with core).
Qed.

Lemma keeps_count_drafts n : keeps (count_drafts n).
Proof. unfold count_drafts. keep. Qed.

Lemma keeps_count_accepted n : keeps (count_accepted n).
Proof. unfold count_accepted. keep. Qed.

Lemma keeps_count_cycle n m : keeps (count_cycle n m).
Proof.
  unfold count_cycle. apply keeps_modify. intros s. destruct (last_counts s) as [[cycles ok] bad]. by destruct (0 <? n).
Qed.

Lemma keeps_measure_depths count p : keeps (measure_depths count p).
Proof. induction count as [|count IH]; cbn [measure_depths]; keep. Qed.

Lemma keeps_time_counts : keeps time_counts.
Proof. unfold time_counts. keep. Qed.

#[local] Hint Resolve keeps_measure_depths keeps_time_counts : core.

Lemma keeps_observe_cycle drafted accepted start finish : keeps (observe_cycle drafted accepted start finish).
Proof. unfold observe_cycle. keep. Qed.

Lemma keeps_observe_plain start : keeps (observe_plain start).
Proof. unfold observe_plain. keep. Qed.

Lemma keeps_resolve_routes n : keeps (resolve_routes n).
Proof. unfold resolve_routes. keep. Qed.

Lemma keeps_settle_history rows delta : keeps (settle_history rows delta).
Proof. unfold settle_history. keep. Qed.

(** ** The lengths of drafts *)

(** A result of [m] satisfies [P]. *)
Definition gives {A} (m : M Run A) (P : A -> Prop) : Prop := forall s a s', m s = (Ok a, s') -> P a.

Lemma gives_bind {A B} (m : M Run A) (k : A -> M Run B) (R : A -> Prop) P :
  gives m R -> (forall a, R a -> gives (k a) P) -> gives (m ≫= k) P.
Proof.
  intros Hm Hk s b s'. unfold mbind, M_bind. destruct (m s) as [[a|e] s1] eqn:Em; [|done].
  apply Hk. by apply (Hm _ _ _ Em).
Qed.
Lemma gives_any {A B} (m : M Run A) (k : A -> M Run B) P : (forall a, gives (k a) P) -> gives (m ≫= k) P.
Proof. intros Hk. apply (gives_bind _ _ (fun _ => True)); [by intros s a s' _|auto]. Qed.
Lemma gives_ret {A} (a : A) (P : A -> Prop) : P a -> gives (mret a) P.
Proof. by intros HP s b s' [= <- _]. Qed.
Lemma gives_throw {A} e (P : A -> Prop) : gives (throw e) P.
Proof. done. Qed.

Lemma select_draft_length l chain c :
  gives (select_draft l chain c) (fun x => length (draft_tokens x.1.2) = S (length (draft_tokens chain))).
Proof.
  unfold select_draft. apply gives_any. intros l'.
  eapply (gives_bind _ _ (fun x => draft_tokens x.2 = draft_tokens chain)).
  - destruct greedy; [|destruct compact_stochastic]; repeat (apply gives_any; intros); by apply gives_ret.
  - intros [token chain'] Hc. cbn in Hc. apply gives_ret. cbn. rewrite Hc, length_app. cbn. lia.
Qed.

Lemma draft_from_block_length todo : forall position block previous chain c,
  gives (draft_from_block todo position block previous chain c)
    (fun r => length (draft_tokens r) = (length (draft_tokens chain) + todo)%nat).
Proof.
  induction todo as [|todo IH]; intros; cbn [draft_from_block]; [apply gives_ret; lia|].
  do 2 (apply gives_any; intros). eapply gives_bind; [apply select_draft_length|]. intros [[token chain'] c'] Hl.
  cbn in Hl. intros s r s' Hr. specialize (IH _ _ _ _ _ s r s' Hr). cbn in IH. lia.
Qed.

Lemma draft_from_chain_length todo : forall position last a b chain c,
  gives (draft_from_chain todo position last a b chain c)
    (fun r => length (draft_tokens r) = (length (draft_tokens chain) + todo)%nat).
Proof.
  induction todo as [|todo IH]; intros; cbn [draft_from_chain]; [apply gives_ret; lia|].
  apply gives_any. intros l. eapply gives_bind; [apply select_draft_length|]. intros [[token chain'] c'] Hl. cbn in Hl.
  destruct todo as [|todo]; [apply gives_ret; lia|].
  do 2 (apply gives_any; intros). apply gives_any. intros [sample_hidden chain_hidden].
  intros s r s' Hr. specialize (IH _ _ _ _ _ _ s r s' Hr). cbn in IH, Hl. lia.
Qed.

(** A draft is as long as it was asked to be, or empty. *)
Lemma prepare_draft_length rows ids depth initial :
  gives (prepare_draft rows ids depth initial)
    (fun r => 0 <= depth /\ (size_of (draft_tokens r) = depth \/ draft_tokens r = [])).
Proof.
  unfold prepare_draft. apply gives_any. intros s0.
  eapply (gives_bind _ _ (fun _ => 0 <= depth)).
  { intros s u s'. unfold require_execution. destruct (_ && _) eqn:E; [|done]. intros _. lia. }
  intros _ Hd. do 3 (apply gives_any; intros).
  assert (forall r : DraftChain, length (draft_tokens r) = (0 + Z.to_nat depth)%nat -> 0 <= depth /\ (size_of (draft_tokens r) = depth \/ draft_tokens r = []))
    as Hl by (intros r Hr; unfold size_of; lia).
  destruct blockwise_drafting.
  - unfold draft_blockwise. do 3 (apply gives_any; intros). destruct (0 <? depth); [|apply gives_ret; cbn; auto].
    do 3 (apply gives_any; intros). intros s r s' Hr. apply Hl. by apply (draft_from_block_length _ _ _ _ _ _ _ _ _ Hr).
  - apply gives_any. intros p. destruct (_ && _); [apply gives_any; intros; apply gives_ret; cbn; auto|].
    unfold draft_chained. do 1 (apply gives_any; intros). apply gives_any. intros [rows' shifted].
    apply gives_any. intros s1. apply gives_any. intros [sh ch]. do 5 (apply gives_any; intros).
    intros s r s' Hr. apply Hl. by apply (draft_from_chain_length _ _ _ _ _ _ _ _ _ _ Hr).
Qed.

(** ** Publication *)

Lemma read_clock_tokens tokens : gives (read_clock tokens) (fun l => l.*1 = tokens).
Proof.
  induction tokens as [|t tokens IH]; cbn [read_clock]; [by apply gives_ret|].
  apply gives_any. intros now. eapply gives_bind; [apply IH|]. intros l Hl. apply gives_ret. cbn. by rewrite Hl.
Qed.

Lemma keeps_read_clock tokens : keeps (read_clock tokens).
Proof. induction tokens as [|t tokens IH]; cbn [read_clock]; keep. Qed.

(** A delta has the first tokens it was given: all of them, unless the output stops. *)
Lemma append_loop_prefix tokens : forall out (s : Output (Ms := spec_float)),
  match append_loop request tokenizer response_id parse_chat tokens out s with
  | (Ok out', s') => exists taken, token_ids out' = token_ids out ++ taken /\ taken `prefix_of` tokens.*1 /\
      (taken = tokens.*1 \/ stopped request s' = true) /\
      (stopped request s = false -> tokens <> [] -> taken <> [])
  | (Throw _, _) => True
  end.
Proof.
  induction tokens as [|[t now] tokens IH]; intros out s; cbn [append_loop fmap list_fmap fst].
  { exists []. rewrite app_nil_r. split_and!; auto. }
  rewrite bind_get. destruct (stopped request s) eqn:Es.
  { exists []. rewrite app_nil_r. split_and!; auto using prefix_nil; congruence. }
  rewrite bind_modify.
  assert (forall out1 (s1 : Output (Ms := spec_float)), token_ids out1 = token_ids out ++ [t] ->
    match append_loop request tokenizer response_id parse_chat tokens out1 s1 with
    | (Ok out', s') => exists taken, token_ids out' = token_ids out ++ taken /\ taken `prefix_of` t :: tokens.*1 /\
        (taken = t :: tokens.*1 \/ stopped request s' = true) /\
        (false = false -> (t, now) :: tokens <> [] -> taken <> [])
    | (Throw _, _) => True
    end) as Hrec.
  { intros out1 s1 Ho. specialize (IH out1 s1). destruct (append_loop _ _ _ _ tokens out1 s1) as [[out'|e] s']; [|done].
    destruct IH as (taken & Ht & Hp & Hs & _). exists (t :: taken). rewrite Ht, Ho, <- app_assoc. split_and!; auto.
    - by apply prefix_cons.
    - destruct Hs as [->|]; auto. }
  destruct (is_end request tokenizer t).
  { destruct (benchmark_fixed_tokens request); [by apply Hrec|]. rewrite bind_modify. exists [t].
    split_and!; auto; try congruence; by exists tokens.*1. }
  destruct tokenizer as [tk|]; [|by apply Hrec].
  rewrite bind_lift. destruct (tk_piece tk t _) as [piece|e]; [|done].
  rewrite bind_modify. unfold take_text. unfold mbind at 1, M_bind at 1. cbn [take_output].
  match goal with |- context [mbind _ (parse ?r ?tk ?i ?pc ?p true ?q) ?s2] =>
    pose proof (parse_frame r tk i pc p true q s2) as Hpf end.
  unfold mbind at 1, M_bind at 1. destruct (parse _ _ _ _ _ true _ _) as [[out1|e] s3]; [|done].
  destruct Hpf as (_ & _ & _ & _ & Hids). rewrite bind_modify. apply Hrec. exact Hids.
Qed.

(** What [runs] says of a publication: the delta [d], and the output after it. *)
Lemma runs_append {B} c tokens (k : TokenOutput -> M Run B) Q :
  (forall d (o : Output (Ms := spec_float)), token_ids d `prefix_of` tokens -> (token_ids d = tokens \/ stopped request o = true) ->
     (stopped request (co_out c) = false -> tokens <> [] -> token_ids d <> []) -> runs (up_out o c) (k d) Q) ->
  runs c (append_output tokens ≫= k) Q.
Proof.
  intros Hk s Hs. unfold append_output. unfold mbind, M_bind.
  pose proof (keeps_read_clock tokens s) as Hc. pose proof (read_clock_tokens tokens s) as Hl.
  destruct (read_clock tokens s) as [[stamped|e] s1]; [|done]. specialize (Hl stamped s1 eq_refl). cbn in Hc, Hl.
  unfold on_out, append_tokens. pose proof (append_loop_prefix stamped no_output (out s1)) as Hp.
  destruct (append_loop _ _ _ _ stamped no_output (out s1)) as [[d|e] o]; [|done].
  destruct Hp as (taken & Ht & Hp & Hst & Hne). cbn in Ht. subst taken. rewrite Hl in Hp, Hst.
  assert (co_out c = out s1) as Ho by (rewrite <- Hs, <- Hc; done).
  apply (Hk d o Hp Hst); [|by rewrite <- Hs, <- Hc].
  rewrite Ho. intros Hns Hn. apply Hne; [done|]. intros ->. by subst tokens.
Qed.

(** ** The constraint and the counts *)

Lemma runs_val {A B} c (m : M Run A) (k : A -> M Run B) (R : A -> Prop) Q :
  runs c m (fun a c' => c' = c /\ R a) -> (forall a, R a -> runs c (k a) Q) -> runs c (m ≫= k) Q.
Proof. intros Hm Hk. eapply ran_bind; [exact Hm|]. intros a c' [-> Ha]. by apply Hk. Qed.

Lemma runs_gives {A} c (k : Run -> M Run A) (P : A -> Prop) :
  keeps (get ≫= k) -> (forall s, core s = c -> gives (k s) P) -> runs c (get ≫= k) (fun a c' => c' = c /\ P a).
Proof.
  intros Hm Hk s Hs. specialize (Hm s). specialize (Hk s Hs s). unfold mbind, M_bind, get in *.
  destruct (k s s) as [[a|e] s']; [|done]. cbn in Hm. split; [congruence|]. by apply (Hk a s').
Qed.

Lemma gives_dev {A} (m : M device A) (P : A -> Prop) : (forall d a d', m d = (Ok a, d') -> P a) -> gives (on_dev m) P.
Proof.
  intros HP s a s'. unfold on_dev. destruct (m (dev s)) as [r d] eqn:E. intros [= -> _]. by apply (HP _ _ _ E).
Qed.

(** The state after reading up to a place. *)
Definition up_place (q : Place) (c : Core) : Core := up_counts (pl_counts q) (up_constraint (pl_cursor q) c).

Lemma runs_accept_token c p t :
  pl_cursor p = co_constraint c -> pl_counts p = co_counts c -> 0 <= co_generated c < s32_max ->
  runs c (accept_token t) (fun _ c' => exists q, move t p = Some q /\ c' = up_generated (co_generated c + 1) (up_place q c)).
Proof.
  intros Hk Hc Hg. unfold accept_token. apply runs_require. intros _. apply runs_get. intros s Hs.
  assert (token_constraint s = co_constraint c) as -> by (by rewrite <- Hs).
  assert (s32 (co_generated c + 1) = co_generated c + 1) as Hw by (apply s32_small; unfold in_s32, s32_max in *; lia).
  assert (forall c' k', c' = up_constraint k' c -> (forall q, pl_context q = pl_context p ++ [t] -> pl_cursor q = k' ->
      pl_counts q = with_counts [t] (pl_counts p) -> move t p = Some q) ->
    runs c' (modify (fun s => set_counts (with_counts [t] (counts s)) (set_generated (s32 (generated s + 1)) s)))
      (fun _ c' => exists q, move t p = Some q /\ c' = up_generated (co_generated c + 1) (up_place q c))) as Hend.
  { intros c' k' -> Hq s' Hs'. cbn. eexists {| pl_context := pl_context p ++ [t]; pl_cursor := k'; pl_counts := _ |}.
    split; [by apply Hq|]. transitivity (up_counts (with_counts [t] (co_counts (core s'))) (up_generated (s32 (co_generated (core s') + 1)) (core s'))); [done|].
    rewrite Hs'. cbn. by rewrite Hw, Hc. }
  destruct (co_constraint c) as [k|] eqn:Ek.
  - eapply ran_bind.
    { apply ran_lift. intros k' Ek'. instantiate (1 := fun _ c' => exists k', cursor_accept t k = Ok k' /\ c' = up_constraint (Some k') c).
      intros s' <-. by exists k'. }
    intros _ c' (k' & Hk' & ->). apply (Hend _ (Some k')); [done|]. intros [x y z]; cbn. intros -> -> ->.
    unfold move. by rewrite Hk, Hk'.
  - apply runs_keeps; [keep|]. intros _. apply (Hend _ None).
    + destruct c; cbn in *. by subst.
    + intros [x y z]; cbn. intros -> -> ->. unfold move. by rewrite Hk.
Qed.

(** [accept] reads the published tokens. *)
Lemma runs_accept c p d :
  pl_cursor p = co_constraint c -> pl_counts p = co_counts c -> 0 <= co_generated c ->
  co_generated c + size_of (token_ids d) <= s32_max ->
  runs c (accept_output d) (fun _ c' => exists q, reads p (token_ids d) = Some q /\
    c' = up_generated (co_generated c + size_of (token_ids d)) (up_place q c)).
Proof.
  unfold accept_output. generalize (token_ids d) as ts. intros ts. revert c p.
  induction ts as [|t ts IH]; intros c p Hk Hc Hg Hb; cbn [for_each reads].
  - apply ran_ret. exists p. split; [done|]. rewrite Z.add_0_r. unfold up_place. rewrite Hk, Hc. by destruct c.
  - unfold size_of in Hb. cbn [length] in Hb. eapply ran_bind; [apply (runs_accept_token c p t Hk Hc); lia|].
    intros _ c' (q & Hq & ->). rewrite Hq. cbn. eapply ran_weaken.
    + apply (IH _ q); cbn; [done|done|lia|unfold size_of; lia].
    + intros _ c' (r & Hr & ->). exists r. split; [done|].
      replace (co_generated c + size_of (t :: ts)) with (co_generated c + 1 + size_of ts) by (unfold size_of; cbn; lia).
      reflexivity.
Qed.

Lemma runs_clone c what : runs c (clone_constraint what) (fun k c' => c' = c /\ k = co_constraint c).
Proof.
  unfold clone_constraint. apply runs_gives; [keep|]. intros s <-. cbn.
  destruct (token_constraint s) as [k|]; [|by apply gives_ret].
  destruct (cursor_clone k) as [k'|] eqn:Ek; [|done]. apply gives_ret. by apply clone_law in Ek as ->.
Qed.

(** A copy of the constraint reads a token. *)
Lemma runs_accept_cursor c p t :
  runs c (accept_cursor t (pl_cursor p)) (fun k c' => c' = c /\ exists q, move t p = Some q /\ pl_cursor q = k).
Proof.
  unfold accept_cursor, move. destruct (pl_cursor p) as [k|].
  - apply ran_lift. intros k' ->. apply ran_ret. split; [done|]. by eexists.
  - apply ran_ret. split; [done|]. by eexists.
Qed.

(** A target samples after a context. *)
Lemma runs_sample c context c0 k :
  runs c (on_dev (sample_constrained (logits_of context) c0 k)) (fun t c' => c' = c /\
    (sampler_greedy = true -> t = pick {| pl_context := context; pl_cursor := k; pl_counts := c0 |})).
Proof.
  intros s Hs. pose proof (keeps_dev _ (quiet_constrained (logits_of context) c0 k) s) as Hk. unfold on_dev in *.
  destruct (sample_constrained _ _ _ (dev s)) as [[t|e] d] eqn:E; [|done]. cbn in Hk. split; [congruence|].
  intros Hg. rewrite (constrained_law _ _ _ _ _ _ Hg E). unfold pick. cbn. by destruct k.
Qed.

Lemma runs_logits {B} c cs (k : list logits -> M Run B) Q :
  runs c (k (logits_of <$> cs)) Q -> runs c (on_dev (logits_for (hidden_row <$> cs)) ≫= k) Q.
Proof. intros Hk. eapply runs_dev; [apply quiet_logits|apply logits_law|]. by intros l ->. Qed.

Lemma runs_sample_row c context c0 k :
  runs c (sample_row [hidden_row context] c0 k) (fun t c' => c' = c /\
    (sampler_greedy = true -> t = pick {| pl_context := context; pl_cursor := k; pl_counts := c0 |})).
Proof.
  unfold sample_row. apply (runs_logits c [context]). apply ran_lift. intros l [= <-]. apply runs_sample.
Qed.

Lemma clone_counts_id c : (penalties = false -> c = None) -> clone_counts c = c.
Proof. unfold clone_counts. destruct penalties; [done|]. intros Hc. by rewrite Hc. Qed.

(** ** Verification *)

Lemma gives_normal l c : gives (on_dev (sample_normal l c)) (fun t => sampler_greedy = true -> t = choose l c).
Proof. apply gives_dev. intros d t d' E Hg. exact (normal_law _ _ _ _ _ Hg E). Qed.

Lemma sample_rows_choices drafts : forall context c,
  gives (sample_rows sample_normal (targets_along context drafts) drafts c)
    (fun l => sampler_greedy = true -> l = choices_along context c drafts).
Proof.
  induction drafts as [|d drafts IH]; intros context c; cbn [targets_along sample_rows choices_along];
    (eapply gives_bind; [apply gives_normal|]); intros t Ht.
  - apply (gives_bind _ _ (fun l => l = [])); [by apply gives_ret|]. intros l ->. apply gives_ret. intros Hg. by rewrite Ht.
  - eapply gives_bind; [apply IH|]. intros l Hl. apply gives_ret. intros Hg. by rewrite Ht, Hl.
Qed.

Lemma verify_by_argmax_along draft context c :
  (penalties = false -> c = None) ->
  gives (verify_by_argmax draft (targets_along context (draft_tokens draft)) c)
    (fun v => sampler_greedy = true ->
       greedy_along context c (take (Z.to_nat (accepted_drafts v)) (draft_tokens draft) ++ [next_token v])).
Proof.
  intros Hp. unfold verify_by_argmax. set (drafts := draft_tokens draft).
  assert (forall ts, (sampler_greedy = true -> ts = choices_along context c drafts) ->
    gives (lift (verify_greedy drafts ts)) (fun v => sampler_greedy = true ->
      greedy_along context c (take (Z.to_nat (accepted_drafts v)) drafts ++ [next_token v]))) as Hend.
  { intros ts Hts s v s' [= Hv _] Hg. apply verify_greedy_along. by rewrite <- (Hts Hg). }
  apply (gives_bind _ _ (fun ts => ts = [] \/ ts = choices_along context c drafts)).
  - pose proof argmax_law as Ha. destruct greedy_tokens as [m|]; [|apply gives_ret; auto].
    destruct penalties eqn:Ep; [apply gives_ret; auto|]. apply gives_dev. intros d ts d' E.
    destruct (Ha _ _ _ _ E) as [->| ->]; [by left|right]. rewrite (Hp eq_refl). by rewrite choices_along_none.
  - intros ts Hts. apply (gives_bind _ _ (fun ts => sampler_greedy = true -> ts = choices_along context c drafts)).
    + destruct Hts as [->| ->]; [apply sample_rows_choices|]. destruct (is_nil _) eqn:E; [|by apply gives_ret].
      apply sample_rows_choices.
    + apply Hend.
Qed.

(** Verification accepts what a greedy sampler would have chosen. *)
Lemma runs_verify c draft context c0 :
  co_counts c = c0 -> (penalties = false -> c0 = None) ->
  runs c (verify_draft draft (targets_along context (draft_tokens draft))) (fun v c' => c' = c /\
    (sampler_greedy = true ->
     greedy_along context c0 (take (Z.to_nat (accepted_drafts v)) (draft_tokens draft) ++ [next_token v]))).
Proof.
  intros Hc Hp. pose proof (keeps_verify_draft draft (targets_along context (draft_tokens draft))) as Hk.
  unfold verify_draft in *. apply runs_gives; [exact Hk|]. clear Hk. intros s Hs. cbv zeta.
  assert (clone_counts (counts s) = c0) as ->.
  { rewrite clone_counts_id; [by rewrite <- Hc, <- Hs|]. intros E. rewrite <- (Hp E), <- Hc, <- Hs. done. }
  pose proof (verify_by_argmax_along draft context c0 Hp) as Ha.
  destruct (draft_tokens draft) as [|d drafts] eqn:Ed.
  - cbn [targets_along]. eapply gives_bind; [apply gives_normal|]. intros t Ht. apply gives_ret. intros Hg. by split; [apply Ht|].
  - cbn [targets_along] in *. destruct greedy eqn:Eg; [exact Ha|].
    unfold greedy in Eg. rewrite Eg. intros s1 v s' _. done.
Qed.

(** The drafts the constraint lets through, and the token after them. *)
Lemma constrain_drafts_follows : forall drafts context rest k c0 next kept c,
  (sampler_greedy = true -> greedy_along context c0 (drafts ++ [next])) ->
  let p := {| pl_context := context; pl_cursor := Some k; pl_counts := c0 |} in
  runs c (constrain_drafts drafts (targets_along context (drafts ++ rest)) k c0 next kept) (fun '(n, t, k') c' =>
    c' = c /\ exists m q, (m <= length drafts)%nat /\ n = kept + Z.of_nat m /\ follows p (take m drafts) q /\
      pl_cursor q = Some k' /\ (sampler_greedy = true -> t = pick q)).
Proof.
  assert (forall context k c0 kept c (drafts : list Z),
    let p := {| pl_context := context; pl_cursor := Some k; pl_counts := c0 |} in
    runs c (token ← on_dev (sample_constrained (logits_of context) c0 (Some k)); mret (kept, token, k)) (fun '(n, t, k') c' =>
      c' = c /\ exists m q, (m <= length drafts)%nat /\ n = kept + Z.of_nat m /\ follows p (take m drafts) q /\
        pl_cursor q = Some k' /\ (sampler_greedy = true -> t = pick q))) as Hagain.
  { intros context k c0 kept c drafts p. eapply runs_val; [apply runs_sample|]. intros t Ht. apply ran_ret.
    split; [done|]. exists 0%nat, p. split_and!; auto with lia. apply follows_nil. }
  induction drafts as [|d drafts IH]; intros context rest k c0 next kept c Hg p; cbn [app].
  - destruct rest as [|r rest]; cbn [targets_along constrain_drafts]; (destruct (cursor_allows next k) eqn:Ek; [|apply (Hagain _ _ _ _ _ [])]);
      (apply ran_ret; split; [done|]; exists 0%nat, p; split_and!; auto with lia; [apply follows_nil|];
       intros Hs; destruct (Hg Hs) as [-> _]; unfold pick; cbn; symmetry; by apply allowed_law).
  - cbn [targets_along constrain_drafts]. destruct (cursor_allows d k) eqn:Ek; [|apply (Hagain _ _ _ _ _ (d :: drafts))].
    apply ran_lift. intros k1 Hk1. cbn [app] in Hg. eapply ran_weaken.
    { apply (IH (context ++ [d]) rest k1 (with_counts [d] c0) next (kept + 1)). intros Hs. apply (Hg Hs). }
    intros [[n t] k'] c' (-> & m & q & Hm & -> & Hf & Hq & Ht). split; [done|]. exists (S m), q. cbn [length take].
    split_and!; [lia|lia| |done|done].
    apply (follows_app [d]). eexists. split; [|exact Hf]. apply follows_one.
    + unfold move. cbn. by rewrite Hk1.
    + intros Hs. destruct (Hg Hs) as [-> _]. unfold pick. cbn. symmetry. by apply allowed_law.
Qed.

(** The accepted drafts and the next token follow the place of the generation, and the
    cursor of the cycle has read them. *)
Lemma runs_constrain c p draft v :
  co_cursor c = pl_cursor p -> co_counts c = pl_counts p -> (penalties = false -> pl_counts p = None) ->
  0 <= accepted_drafts v <= size_of (draft_tokens draft) ->
  (sampler_greedy = true -> greedy_along (pl_context p) (pl_counts p)
     (take (Z.to_nat (accepted_drafts v)) (draft_tokens draft) ++ [next_token v])) ->
  runs c (constrain draft (targets_along (pl_context p) (draft_tokens draft)) v) (fun '(n, t) c' =>
    0 <= n <= accepted_drafts v /\ exists q, follows p (take (Z.to_nat n) (draft_tokens draft) ++ [t]) q /\
    c' = up_cursor (pl_cursor q) c).
Proof.
  intros Hk Hc Hp Hv Hg. destruct p as [context k c0]; cbn in *. unfold constrain. apply runs_get. intros s Hs.
  assert (constraint_cursor s = k) as -> by (by rewrite <- Hk, <- Hs). destruct k as [k|].
  2:{ apply ran_ret. split; [lia|]. eexists. split.
      - split; [apply reads_free|]. intros Hs'. by apply greedy_along_decodes, Hg.
      - cbn. destruct c; cbn in *; by subst. }
  assert (clone_counts (counts s) = c0) as ->.
  { rewrite clone_counts_id; [by rewrite <- Hc, <- Hs|]. intros E. rewrite <- (Hp E), <- Hc, <- Hs. done. }
  set (a := Z.to_nat (accepted_drafts v)) in *. assert (a <= length (draft_tokens draft))%nat as Ha by (unfold a, size_of in *; lia).
  eapply ran_bind.
  { rewrite <- (take_drop a (draft_tokens draft)) at 2. apply (constrain_drafts_follows _ _ (drop a (draft_tokens draft))). exact Hg. }
  intros [[n t] k'] c' (-> & m & q & Hm & -> & Hf & Hq & Ht). rewrite length_take, min_l in Hm by lia.
  rewrite take_take, min_l in Hf by lia.
  apply ran_lift. intros k1 Hk1. apply (runs_modify _ _ (up_cursor (Some k1))); [done|]. apply ran_ret.
  split; [lia|]. rewrite Z.add_0_l, Nat2Z.id.
  exists {| pl_context := pl_context q ++ [t]; pl_cursor := Some k1; pl_counts := with_counts [t] (pl_counts q) |}.
  split; [|done]. apply follows_app. exists q. split; [done|]. apply follows_one; [|done].
  unfold move. by rewrite Hq, Hk1.
Qed.

(** ** Passes of the target *)

Lemma contexts_cons context t ids : contexts context (t :: ids) = (context ++ [t]) :: contexts (context ++ [t]) ids.
Proof.
  unfold contexts. cbn [length seq fmap list_fmap take]. f_equal. rewrite <- fmap_S_seq, <- list_fmap_compose.
  apply list_fmap_ext. intros i j _. cbn. by rewrite <- app_assoc.
Qed.

Lemma contexts_length context ids : length (contexts context ids) = length ids.
Proof. unfold contexts. by rewrite length_fmap, length_seq. Qed.

Lemma contexts_lookup context ids i : (i < length ids)%nat -> contexts context ids !! i = Some (context ++ take (S i) ids).
Proof. intros Hi. unfold contexts. rewrite list_lookup_fmap, lookup_seq_lt by done. done. Qed.

(** The rows after the [n] first tokens, of the [n]-th. *)
Lemma slice_contexts {A} (f : list Z -> A) context ids n l :
  slice (f <$> contexts context ids) n 1 = Ok l -> 0 <= n -> l = [f (context ++ take (S (Z.to_nat n)) ids)].
Proof.
  unfold slice. intros Hs Hn. revert Hs.
  destruct (_ || _) eqn:E; [done|]. intros [= <-]. unfold size_of in E. rewrite length_fmap, contexts_length in E.
  assert (Z.to_nat n < length ids)%nat as Hl by lia.
  rewrite (drop_S _ (f (context ++ take (S (Z.to_nat n)) ids)) (Z.to_nat n)); [done|].
  by rewrite list_lookup_fmap, contexts_lookup.
Qed.

Lemma last_row_app {A} (l : list A) x : last_row (l ++ [x]) = Ok [x].
Proof.
  unfold last_row, slice, size_of. rewrite length_app. cbn [length].
  rewrite (proj2 (orb_false_iff _ _)); [|split; [apply orb_false_iff; split|]; apply Z.ltb_ge; lia].
  cbn. do 2 f_equal. replace (Z.to_nat (Z.of_nat (length l + 1) - 1)) with (length l) by lia. by rewrite drop_app_length.
Qed.

Lemma contexts_snoc context ids t : contexts context (ids ++ [t]) = contexts context ids ++ [context ++ ids ++ [t]].
Proof.
  unfold contexts. rewrite length_app. cbn [length]. rewrite Nat.add_1_r, seq_S, fmap_app. cbn. f_equal.
  - apply list_fmap_ext. intros i x Hx. apply lookup_seq in Hx as [-> Hi]. cbn. by rewrite take_app_le by lia.
  - rewrite take_ge by (rewrite length_app; cbn; lia). done.
Qed.

(** The last row of a pass is that of the whole context. *)
Lemma last_row_contexts {A} (f : list Z -> A) context ids :
  ids <> [] -> last_row (f <$> contexts context ids) = Ok [f (context ++ ids)].
Proof.
  destruct ids as [|t ids _] using rev_ind; [done|]. intros _. rewrite contexts_snoc, fmap_app. apply last_row_app.
Qed.

Definition up_pass (j : option Z) (context : list Z) (c : Core) : Core := up_journal j (up_context context c).

(** A pass over [ids]. *)
Lemma runs_forward c ids confirmed :
  size_of (co_context c) + size_of ids <= max_position_embeddings ->
  runs c (on_dev (target_forward ids confirmed)) (fun a c' =>
    a = (hidden_row <$> contexts (co_context c) ids, raw_row <$> contexts (co_context c) ids) /\
    c' = up_pass (if 0 <? confirmed then Some (size_of (co_context c) + confirmed) else co_journal c) (co_context c ++ ids) c).
Proof.
  intros Hb s <-. cbn in *. unfold on_dev. destruct (target_forward ids confirmed (dev s)) as [[[h r]|e] d] eqn:E; [|done].
  destruct (forward_law _ _ _ _ _ _ E Hb) as (-> & -> & Hc & Hj). split; [done|].
  unfold core. cbn. by rewrite Hc, Hj.
Qed.

(** Verification reads the pending token and the drafts. *)
Lemma runs_target_pass c pending drafts :
  size_of (co_context c) + 1 + size_of drafts <= max_position_embeddings ->
  runs c (target_pass pending drafts) (fun '(h, r) c' =>
    h = hidden_row <$> contexts (co_context c) (pending :: drafts) /\
    r = raw_row <$> contexts (co_context c) (pending :: drafts) /\
    exists j, c' = up_pass j (co_context c ++ pending :: drafts) c /\
      (drafts <> [] -> j = Some (size_of (co_context c) + 1))).
Proof.
  intros Hb. unfold target_pass. destruct split_target_verification.
  - eapply ran_bind; [apply runs_forward; unfold size_of in *; cbn; lia|]. intros a c' [-> ->]. cbn beta iota. destruct (is_nil drafts) eqn:En.
    { destruct drafts; [|done]. apply ran_ret. split_and!; [done|done|]. eexists. split; [reflexivity|done]. }
    apply runs_keeps; [keep|]. intros _.
    eapply (runs_pass _ _ _ (fun _ x y => x = co_context c ++ [pending] /\ y = Some (size_of (co_context c ++ [pending])))).
    { intros d u d' E Hc Hj. cbn in Hc. destruct (begin_law _ _ _ _ E) as [-> ->]. by rewrite Hc. }
    intros _ x y [-> ->].
    eapply (runs_pass _ _ _ (fun a x y => a = (hidden_row <$> contexts (co_context c ++ [pending]) drafts,
      raw_row <$> contexts (co_context c ++ [pending]) drafts) /\ x = (co_context c ++ [pending]) ++ drafts /\
      y = Some (size_of (co_context c ++ [pending])))).
    { intros d [h r] d' E Hc Hj. cbn in Hc, Hj. destruct (suffix_law _ _ _ _ _ E) as (-> & -> & -> & ->).
      - rewrite Hc, size_of_app. unfold size_of in *. cbn. lia.
      - by rewrite Hc, Hj. }
    intros a x y (-> & -> & ->). apply ran_ret. rewrite !contexts_cons, !fmap_cons, <- app_assoc.
    split; [done|]. split; [done|]. eexists. split; [reflexivity|]. intros _. by rewrite size_of_app.
  - apply runs_keeps; [keep|]. intros _. eapply ran_weaken; [apply runs_forward; unfold size_of in *; cbn; lia|].
    intros a c' [-> ->]. split; [done|]. split; [done|]. eexists. split; [reflexivity|]. by destruct drafts.
Qed.

(** What is kept of a verified draft. *)
Lemma runs_commit_drafts c base drafts emitted :
  co_context c = base ++ drafts -> (drafts <> [] -> co_journal c = Some (size_of base)) ->
  0 <= emitted <= size_of drafts -> size_of base + size_of drafts <= max_position_embeddings ->
  runs c (commit_drafts drafts emitted) (fun _ c' => exists j, c' = up_pass j (base ++ take (Z.to_nat emitted) drafts) c).
Proof.
  intros Hc Hj He Hb. unfold commit_drafts. destruct (is_nil drafts) eqn:En.
  { destruct drafts; [|done]. apply runs_done; [apply keeps_resolve_routes|]. intros _. exists (co_journal c).
    rewrite take_nil, app_nil_r in *. destruct c; cbn in *; by subst. }
  assert (drafts <> []) as Hn by (by destruct drafts). destruct (Z.eqb_spec emitted (size_of drafts)) as [->|He'].
  - eapply (runs_pass _ _ _ (fun _ x y => x = co_context c)).
    { intros d u d' E Hd _. by rewrite (commit_law _ _ _ E). }
    intros _ x y ->. apply runs_done; [apply keeps_resolve_routes|]. intros _. exists y.
    unfold size_of. rewrite Nat2Z.id, firstn_all, <- Hc. done.
  - set (retained := match retains_partial_target_prefix with Some f => f emitted | None => predictor_retains_prefix end).
    eapply (runs_pass _ _ _ (fun _ x y => x = base ++ take (Z.to_nat (if retained then emitted else 0)) drafts)).
    { intros d u d' E Hd Hjd. rewrite (rollback_law _ _ _ _ _ E (eq_trans Hjd (Hj Hn))), Hd, Hc.
      unfold size_of. rewrite Z2Nat.inj_add, Nat2Z.id, take_app_add' by (done || lia || destruct retained; lia). done. }
    intros _ x y ->. apply runs_keeps; [apply keeps_resolve_routes|]. intros _. destruct retained; cbn [negb andb].
    { apply ran_ret. by exists y. }
    rewrite take_0, app_nil_r. destruct (Z.ltb_spec 0 emitted).
    + eapply ran_bind; [apply runs_forward; cbn; unfold size_of in *; rewrite length_take; lia|].
      intros a c' [_ ->]. apply ran_ret. by eexists.
    + apply ran_ret. replace (Z.to_nat emitted) with 0%nat by lia. rewrite take_0, app_nil_r. by exists y.
Qed.

(** [finish] caches the boundary. *)
Lemma runs_finish c :
  runs c finish (fun _ c' => c' = if keeps_session then up_session (Some (committed_last_hidden (co_heads c))) c else c).
Proof.
  unfold finish. apply runs_get. intros s0 _. apply runs_keeps.
  { destruct (_ && _); [apply keeps_flush_history|keep]. }
  intros _ s <-. by destruct keeps_session.
Qed.
End Steps.
