(* ===== verification/SpeculativeToy.v ===== *)
(** * A small model that satisfies the laws

    A target whose rows are its contexts, a sampler that adds the tokens up, a constraint
    that forbids one token, and a predictor that is often right: the examples of
    [SpeculativeLossless] run on it, with the depth policy of [DepthPolicy]. *)

From stdpp Require Import base list strings gmap.
From Stdlib Require Import ZArith Lia SpecFloat.
From S2P Require Import Prelude Float GenerationPolicy TextEmitter ChatDiff Inference Numbers Speculation DepthModel DsparkController DepthController DepthPolicy SpeculativeOps SpeculativeSequence SpeculativeLaws SpeculativeSteps.

Open Scope Z_scope.

Record Toy := {
  toy_context : list Z;
  toy_journal : option Z;
  toy_time : Z;
  toy_cache : Z;  (** of the predictor *)
}.

Definition set_context (c : list Z) (d : Toy) : Toy :=
  {| toy_context := c; toy_journal := toy_journal d; toy_time := toy_time d; toy_cache := toy_cache d |}.
Definition set_journal (j : option Z) (d : Toy) : Toy :=
  {| toy_context := toy_context d; toy_journal := j; toy_time := toy_time d; toy_cache := toy_cache d |}.
Definition set_cache (n : Z) (d : Toy) : Toy :=
  {| toy_context := toy_context d; toy_journal := toy_journal d; toy_time := toy_time d; toy_cache := n |}.

Definition toy_prompt : list Z := [1; 2; 5; 1; 4].

Definition toy_next (l : list Z) : Z := (foldl Z.add 0 l + size_of l) mod 8.

(** The forbidden token. *)
Definition toy_allows (t k : Z) : bool := negb (t =? 3).
Definition toy_accept (t k : Z) : outcome Z := if toy_allows t k then Ok (k + 1) else Throw (RuntimeError "token").
Definition toy_choice (k : option Z) (l : list Z) : Z :=
  match k with Some k => if toy_allows (toy_next l) k then toy_next l else 4 | None => toy_next l end.

Definition toy_forward (ids : list Z) (confirmed : Z) : M Toy (list (list Z) * list (list Z)) := fun d =>
  let rows := contexts (toy_context d) ids in
  (Ok (rows, rows),
   set_journal (if 0 <? confirmed then Some (size_of (toy_context d) + confirmed) else toy_journal d)
     (set_context (toy_context d ++ ids) d)).

(** The predictor reads a row and a token; after every third token it errs. *)
Definition toy_step (rows : list (list Z)) (ids : list Z) (p : Positions) : M Toy (list (list Z) * list (list Z)) := fun d =>
  let out := zip_with (fun r t => if size_of r mod 3 =? 0 then r ++ [t; 1] else r ++ [t]) rows ids in
  (Ok (out, out), set_cache (toy_cache d + size_of ids) d).

Definition pure {D A} (a : A) : M D A := mret a.

(** [early] bootstraps before the publication, [boot] at all; the context has room for
    [capacity] tokens. *)
#[export] Instance toy_ops (early boot : bool) (capacity : Z) : Ops (H := machine) := {|
  device := Toy;
  row := list Z;
  logits := list Z;
  count_table := unit;
  cursor := Z;
  clock_now := fun d => (Ok (toy_time d), {| toy_context := toy_context d; toy_journal := toy_journal d;
                           toy_time := toy_time d + 1000000; toy_cache := toy_cache d |});
  prefill_recent := pure false;
  vocab_size := 8;
  max_position_embeddings := capacity;
  cache_pos := fun d => size_of (toy_context d);
  set_decode_position_delta := fun _ => pure tt;
  prefill := fun chunk d =>
    let ids := take (Z.to_nat (count chunk)) (drop (Z.to_nat (GenerationPolicy.offset chunk)) toy_prompt) in
    let '(_, d') := toy_forward ids 0 d in
    (Ok (contexts (toy_context d) ids, contexts (toy_context d) ids, DepthModel.zero), d');
  target_forward := toy_forward;
  begin_speculative_suffix := fun _ d => (Ok tt, set_journal (Some (size_of (toy_context d))) d);
  target_suffix := fun ids => toy_forward ids 0;
  commit_speculative := pure tt;
  rollback_speculative := fun kept d =>
    match toy_journal d with
    | Some start => (Ok tt, set_context (take (Z.to_nat (start + kept)) (toy_context d)) d)
    | None => (Throw (LogicError "no journal"), d)
    end;
  logits_for := pure;
  initialize := pure None;
  penalties := false;
  sampler_greedy := true;
  add_counts := fun _ c => c;
  sample_normal := fun l _ => pure (toy_next l);
  sample_constrained := fun l _ k => pure (toy_choice k l);
  probabilities := fun _ _ _ => throw OtherException;
  compact_probabilities := fun _ _ _ => throw OtherException;
  compact_probability_rows := fun _ _ => throw OtherException;
  next_uniform := throw OtherException;
  greedy_tokens := Some (fun l => pure (toy_next <$> l));
  cursor_allows := toy_allows;
  cursor_accept := toy_accept;
  cursor_clone := Some;
  cache_position := toy_cache;
  supports_session_state := true;
  blockwise_drafting := false;
  dspark_policy := false;
  teacher_forced_prompt_prime := true;
  target_bootstrap_decode := boot;
  split_target_verification := false;
  predictor_retains_prefix := true;
  maximum_draft_depth := 3;
  trim_cache_to := fun n d => (Ok tt, set_cache n d);
  append_target_context := fun _ _ => pure tt;
  seed_target_context := None;
  draft_block := fun _ _ => throw OtherException;
  draft_next := fun _ _ => throw OtherException;
  predictor_step := toy_step;
  blockwise_prompt_context := None;
  stream_prompt_history := None;
  predictor_prefill_chunk_size := None;
  begin_predictor_prefill := None;
  predictor_prefill := None;
  end_predictor_prefill := None;
  predictor_history_step := None;
  predictor_history_flush_threshold := None;
  predictor_parked_history_flush_threshold := None;
  predictor_history_merge_limit := None;
  bootstrap_before_publication := Some early;
  prefetch_committed := None;
  prefetch_target_first := None;
  prefetch_target_prefix := None;
  begin_target_routes := None;
  resolve_target_routes := None;
  retains_partial_target_prefix := Some (fun n => n =? 1);
  take_target_maintenance := None;
  gradual_mtp_warmup := None;
  metal_mtp_policy := None;
|}.

Definition toy_request (tokens : Z) : InferenceRequest :=
  {| benchmark_fixed_tokens := false; chat := false; continues := false; preserved_tokens := ∅; req_stops := [];
     stop_token_ids := ∅; max_tokens := tokens |}.

#[export] Instance toy_call (early boot : bool) (capacity tokens : Z) : Call (H0 := toy_ops early boot capacity) := {|
  request := toy_request tokens;
  tokenizer := None;
  response_id := "r";
  parse_chat := fun _ _ => Ok empty_msg;
  prompt := toy_prompt;
  sampling := {| temperature := DepthModel.zero; top_k := 0; top_p := DepthModel.zero; mtp_max_draft_tokens := 3 |};
  prepared := None;
  prefill_chunk_size := 2;
  reused_tokens := 0;
  restored_last_hidden := None;
  keeps_session := true;
  stable_prefix_tokens := 0;
|}.

Lemma toy_prefill early boot capacity (chunk : PrefillChunk) d h r ms d' :
  prefill (Ops := toy_ops early boot capacity) chunk d = (Ok (h, r, ms), d') -> 0 <= GenerationPolicy.offset chunk -> 0 < count chunk ->
  GenerationPolicy.offset chunk + count chunk <= size_of toy_prompt ->
  toy_context d = take (Z.to_nat (GenerationPolicy.offset chunk)) toy_prompt ->
  toy_context d' = take (Z.to_nat (GenerationPolicy.offset chunk + count chunk)) toy_prompt /\ toy_journal d' = toy_journal d /\
  (exists h', h = h' ++ [toy_context d']) /\
  r = id <$> contexts (toy_context d) (take (Z.to_nat (count chunk)) (drop (Z.to_nat (GenerationPolicy.offset chunk)) toy_prompt)).
Proof.
  cbn. intros [= <- <- _ <-] Ho Hn Hb Hc. cbn. rewrite Hc.
  set (ids := take (Z.to_nat (count chunk)) (drop (Z.to_nat (GenerationPolicy.offset chunk)) toy_prompt)).
  assert (take (Z.to_nat (GenerationPolicy.offset chunk)) toy_prompt ++ ids =
          take (Z.to_nat (GenerationPolicy.offset chunk + count chunk)) toy_prompt) as Htake.
  { unfold ids. rewrite take_take_drop. f_equal. lia. }
  split_and!; [exact Htake|done| |by rewrite list_fmap_id].
  assert (ids <> []) as Hi.
  { unfold ids. intros E. apply (f_equal length) in E. rewrite length_take, length_drop in E. unfold size_of in Hb. cbn [length] in E. lia. }
  clearbody ids. destruct ids as [|t ids _] using rev_ind; [done|].
  exists (contexts (take (Z.to_nat (GenerationPolicy.offset chunk)) toy_prompt) ids). by rewrite contexts_snoc.
Qed.

#[export, refine] Instance toy_laws (early boot : bool) (capacity tokens : Z) :
  TargetLaws (H1 := toy_call early boot capacity tokens) := {
  context := toy_context : device (Ops := toy_ops early boot capacity) -> list Z;
  journal := toy_journal : device (Ops := toy_ops early boot capacity) -> option Z;
  raw_row := fun l => l;
  hidden_row := fun l => l;
  logits_of := fun l => l;
  choose := fun l _ => toy_next l;
  choose_allowed := fun k l _ => toy_choice (Some k) l;
  first_counts := None;
}.
Proof.
  all: try done.
  - exact (toy_prefill early boot capacity).
  - intros ids confirmed d h r d' [= <- <- <-] _. by rewrite list_fmap_id.
  - intros ids d h r d' [= <- <- <-] _. by rewrite list_fmap_id.
  - by intros n d u d' [= _ <-].
  - by intros d u d' [= _ <-].
  - intros kept start d u d'. cbn. intros Hr Hj. rewrite Hj in Hr. by injection Hr as _ <-.
  - by intros cs d l d' [= <- _].
  - by intros d c d' [= <- _].
  - by intros l c d t d' _ [= <- _].
  - intros l c k d t d' _ [= <- _]. by destruct k.
  - cbn. intros k l _ ->. done.
  - intros l d ts d' [= <- _]. by right.
  - by intros k k' [= <-].
Defined.
