(* ===== verification/SpeculativeLossless.v ===== *)
(** * Speculation changes nothing but time

    A speculative generation publishes what plain decoding publishes ([generation_is_plain]):
    whatever the predictor drafts, whatever depths the policy chooses, and wherever the
    output stops or the client cancels. At every yield the constraint has read what was
    published, and the target's cache is at the boundary the session keeps
    ([cache_follows_output]). *)

From stdpp Require Import base list strings.
From Stdlib Require Import ZArith Lia SpecFloat.
From S2P Require Import Prelude Float GenerationPolicy TextEmitter ChatDiff Inference Numbers Speculation DepthModel DsparkController DepthPolicy SpeculativeOps SpeculativeSequence SpeculativeLaws SpeculativeSteps SpeculativeToy.

#[local] Set Default Proof Using "Type".
Open Scope Z_scope.

Section Lossless.
Context {F : FloatFormat} `{Laws : TargetLaws} `{DepthControl} (k0 : option cursor).

(** ** The invariant *)

(** Where plain decoding starts: after the prompt, under the constraint [k0]. *)
Definition first_place : Place := {| pl_context := prompt; pl_cursor := k0; pl_counts := first_counts |}.

(** The tokens [em] were published, and led to [q]. *)
Record placed (em : list Z) (q : Place) (c : Core) : Prop := {
  at_follows : follows first_place em q;
  at_constraint : co_constraint c = pl_cursor q;
  at_counts : co_counts c = pl_counts q;
  at_generated : co_generated c = size_of em;
  at_limit : 1 <= co_limit c <= s32_max;
  at_capacity : size_of prompt + co_limit c <= max_position_embeddings;
  at_bound : size_of em <= Z.max (co_limit c) 2;
}.

(** The target has read the prompt and what was published, but perhaps the last token. *)
Definition cached (em : list Z) (c : Core) : Prop :=
  exists n, co_context c = prompt ++ take n em /\ (length em <= S n)%nat.

Definition boundary (c : Core) : Prop := committed_last_hidden (co_heads c) = [raw_row (co_context c)].
Definition good_session (c : Core) : Prop := keeps_session = true -> co_session c = Some [raw_row (co_context c)].

Definition output_stopped (c : Core) : bool := stopped request (co_out c).

Record served (em : list Z) (q : Place) (c : Core) : Prop := {
  sv_placed : placed em q c;
  sv_cached : cached em c;
  sv_boundary : boundary c;
}.

(** The pending token is the last one published, and the target has not read it. *)
Definition live (q : Place) (c : Core) : Prop := pl_context q = co_context c ++ [pending (co_heads c)].

(** The target is in the prompt. *)
Record prefilling (c : Core) : Prop := {
  in_prompt : 0 <= co_offset c <= size_of prompt;
  has_read : co_context c = take (Z.to_nat (co_offset c)) prompt;
  prompt_hidden : co_offset c = size_of prompt -> exists h, co_hidden c = h ++ [hidden_row prompt];
  prompt_raw : co_offset c = size_of prompt ->
    if streams_history then co_raw c = [raw_row prompt]
    else exists rs l, co_chunks c = rs ++ [l ++ [raw_row prompt]];
  prompt_chunks : size_of (mjoin (co_chunks c)) <= co_offset c;
}.

(** The first token is chosen. *)
Record first_ready (c : Core) : Prop := {
  read_prompt : co_context c = prompt;
  first_boundary : boundary c;
  first_pick : sampler_greedy = true -> pending (co_heads c) = pick first_place;
}.

Definition ended (em : list Z) (c : Core) : Prop :=
  (output_stopped c = true \/ co_limit c <= size_of em) /\
  (em = [] \/ exists q, served em q c /\ good_session c).

(** What holds where a generation is suspended. *)
Definition invariant (em : list Z) (c : Core) : Prop :=
  match co_resume c with
  | AtStart => em = [] /\ co_constraint c = k0 /\ co_context c = take (Z.to_nat (co_offset c)) prompt /\
      co_offset c = reused_tokens /\ co_chunks c = [] /\ co_generated c = 0 /\ co_limit c = 0
  | AfterTile | AfterCheckpoint => em = [] /\ placed [] first_place c /\ prefilling c
  | AfterPriming p => em = [] /\ placed [] first_place c /\ first_ready c /\ pairs p <= size_of prompt
  | AfterPrompt => em = [] /\ placed [] first_place c /\ first_ready c
  | AfterFirst bootstrapped => (bootstrapped = false -> size_of em <= 1) /\
      exists q, served em q c /\ good_session c /\ (output_stopped c = true \/ live q c)
  | AfterBootstrap | AfterPlain | AfterCycle _ _ =>
      exists q, served em q c /\ good_session c /\ (output_stopped c = true \/ live q c /\ co_cursor c = pl_cursor q)
  | AfterLast => (exists q, served em q c) /\ good_session c /\ output_stopped c = true
  | AtEnd => ended em c
  end.

(** The tokens there is room for, and how many yields may still come: every delta of the
    loop has a token, every tile of the prompt and of the predictor's prompt has one. *)
Definition room (em : list Z) : Z := Z.max (max_position_embeddings - size_of prompt) 2 - size_of em.

Definition rank (em : list Z) (c : Core) : Z :=
  match co_resume c with
  | AtStart => room [] + 3 + 2 * size_of prompt
  | AfterTile | AfterCheckpoint => room [] + 3 + size_of prompt + (size_of prompt - co_offset c)
  | AfterPriming p => room [] + 3 + Z.max 0 (pairs p - primed p)
  | AfterPrompt => room [] + 2
  | AfterFirst _ => room em + 1
  | AfterBootstrap | AfterPlain | AfterCycle _ _ | AfterLast => room em
  | AtEnd => 0
  end.

(** What a step from [em] and of the rank [n] leaves. *)
Definition post (em : list Z) (n : Z) (o : Step) (c : Core) : Prop :=
  match o with
  | Some (Delta d) => invariant (em ++ token_ids d) c /\ rank (em ++ token_ids d) c < n
  | Some (Progress _ b) => invariant em c /\ rank em c < n /\ (b = true -> co_session c = Some [raw_row (co_context c)])
  | None => co_resume c = AtEnd /\ ended em c
  end.

(** ** Shared steps *)

Lemma runs_suspend c r e (Q : Step -> Core -> Prop) : Q (Some e) (up_resume r c) -> runs c (suspend r e) Q.
Proof. intros HQ s Hs. cbn. by rewrite <- Hs in HQ. Qed.

Lemma runs_return_end c em n : ended em (up_resume AtEnd c) -> runs c return_end (post em n).
Proof. intros He s Hs. rewrite <- Hs in He. by split. Qed.

Lemma is_stopped_core s c : core s = c -> is_stopped s = output_stopped c.
Proof. by intros <-. Qed.

Lemma is_cancelled_core s c : core s = c -> is_cancelled s = true -> output_stopped c = true.
Proof. intros <-. unfold is_cancelled, output_stopped, stopped. cbn. intros ->. by rewrite orb_true_r. Qed.

Lemma room_app em d : room (em ++ d) = room em - size_of d.
Proof. unfold room. rewrite size_of_app. lia. Qed.

Lemma room_less em d : d <> [] -> room (em ++ d) < room em.
Proof. intros Hd. rewrite room_app. destruct d; [done|]. unfold size_of. cbn. lia. Qed.

Lemma room_app_le em d : room (em ++ d) <= room em.
Proof. rewrite room_app. pose proof (size_of_nonneg d). lia. Qed.

Lemma runs_rank {em n n'} c (m : M Run Step) : runs c m (post em n) -> n <= n' -> runs c m (post em n').
Proof.
  intros Hm Hn. eapply ran_weaken; [exact Hm|]. intros [[t b|d]|] c'; cbn; [|intros [Hi Hr]; split; [done|lia]|by intros ?].
  intros (Hi & Hr & Hb). split_and!; [done|lia|done].
Qed.

(** An output that keeps the place of the generation. *)
Ltac same_place := let Hp := fresh "Hp" in intros Hp; destruct Hp; constructor; assumption.

Lemma placed_resume em q r c : placed em q c -> placed em q (up_resume r c).
Proof. same_place. Qed.
Lemma placed_session em q h c : placed em q c -> placed em q (up_session h c).
Proof. same_place. Qed.
Lemma placed_heads em q h c : placed em q c -> placed em q (up_heads h c).
Proof. same_place. Qed.
Lemma placed_cursor em q k c : placed em q c -> placed em q (up_cursor k c).
Proof. same_place. Qed.
Lemma placed_pass em q j x c : placed em q c -> placed em q (up_pass j x c).
Proof. same_place. Qed.

Lemma placed_counts em q c : placed em q c -> penalties = false -> pl_counts q = None.
Proof. intros Hp Hn. rewrite (reads_counts _ _ _ (proj1 (at_follows _ _ _ Hp)) Hn). by apply no_penalties. Qed.

Lemma placed_context em q c : placed em q c -> pl_context q = prompt ++ em.
Proof. intros Hp. apply (reads_context _ _ _ (proj1 (at_follows _ _ _ Hp))). Qed.

(** The state once the delta [d] is published. *)
Definition published (d : TokenOutput) (o : Output (Ms := spec_float)) (q : Place) (c : Core) : Core :=
  up_generated (co_generated c + size_of (token_ids d)) (up_place q (up_out o c)).

(** The tokens [ts], from [q], are those a greedy sampler chooses. *)
Definition chosen (q : Place) (ts : list Z) : Prop :=
  forall d r, d `prefix_of` ts -> reads q d = Some r -> follows q d r.

Lemma chosen_one q t : (sampler_greedy = true -> t = pick q) -> chosen q [t].
Proof.
  intros Ht d r Hd Hr. destruct d as [|u d]; [injection Hr as <-; apply follows_nil|].
  apply prefix_cons_inv_1 in Hd as Hu. subst u. apply prefix_cons_inv_2, prefix_nil_inv in Hd as ->.
  cbn in Hr. destruct (move t q) as [r'|] eqn:Em; [|done]. injection Hr as <-. by apply follows_one.
Qed.

Lemma chosen_follows q ts r : follows q ts r -> chosen q ts.
Proof.
  intros Hf d r' Hd Hr. destruct (follows_prefix _ _ _ _ Hf Hd) as (r'' & Hf').
  pose proof (proj1 Hf'). by simplify_eq.
Qed.

(** Tokens are appended to the output, and accepted. *)
Lemma runs_emit {B} em q c ts (k : TokenOutput -> M Run B) Q :
  placed em q c -> chosen q ts -> size_of em + size_of ts <= Z.max (co_limit c) 2 ->
  (forall d o r, token_ids d `prefix_of` ts -> (token_ids d = ts \/ stopped request o = true) ->
     (output_stopped c = false -> ts <> [] -> token_ids d <> []) ->
     follows q (token_ids d) r -> placed (em ++ token_ids d) r (published d o r c) ->
     runs (published d o r c) (k d) Q) ->
  runs c (delta ← append_output ts; accept_output delta ≫= fun _ => k delta) Q.
Proof.
  intros Hp Hc Hb Hk. apply runs_append. intros d o Hd Hs Hn.
  assert (size_of (token_ids d) <= size_of ts) as Hl.
  { destruct Hd as [us ->]. rewrite size_of_app. pose proof (size_of_nonneg us). lia. }
  pose proof (at_generated _ _ _ Hp). pose proof (at_limit _ _ _ Hp). pose proof (size_of_nonneg em).
  eapply ran_bind.
  { apply (runs_accept _ q); cbn.
    - symmetry. apply (at_constraint _ _ _ Hp).
    - symmetry. apply (at_counts _ _ _ Hp).
    - lia.
    - unfold s32_max in *. lia. }
  intros _ c' (r & Hr & ->). pose proof (Hc _ _ Hd Hr) as Hf. apply (Hk d o r Hd Hs Hn Hf).
  destruct Hp. constructor; cbn; try done; [|rewrite size_of_app; lia|rewrite size_of_app; lia].
  apply follows_app. by exists q.
Qed.

(** After [finish], the session has the boundary. *)
Definition finished (c : Core) : Core :=
  if keeps_session then up_session (Some (committed_last_hidden (co_heads c))) c else c.

Lemma served_finished em q r c : served em q c -> served em q (up_resume r (finished c)) /\ good_session (up_resume r (finished c)).
Proof.
  intros [Hp Hc Hb]. unfold finished, good_session. split.
  - destruct keeps_session; constructor; try done; by repeat apply placed_session || apply placed_resume.
  - destruct keeps_session; [|done]. intros _. cbn. by f_equal.
Qed.

Lemma finished_same c : output_stopped (finished c) = output_stopped c /\ co_heads (finished c) = co_heads c /\
  co_context (finished c) = co_context c /\ co_cursor (finished c) = co_cursor c /\ co_limit (finished c) = co_limit c.
Proof. unfold finished. by destruct keeps_session. Qed.

Lemma runs_finish_end em q c n :
  served em q c -> (output_stopped c = true \/ co_limit c <= size_of em) -> runs c finish_end (post em n).
Proof.
  intros Hs Hend. unfold finish_end. eapply ran_bind; [apply runs_finish|]. intros _ c' ->.
  apply runs_return_end. cbn. destruct (served_finished _ _ AtEnd _ Hs) as [Hs' Hg].
  destruct (finished_same c) as (Ho & _ & _ & _ & Hl). split; [|right; by exists q].
  unfold finished, output_stopped in *. cbn. by destruct keeps_session.
Qed.

(** ** The loop *)

(** A draft that fits in the context and in the tokens left. *)
Definition fits (c : Core) (draft : DraftChain) : Prop :=
  let n := size_of (draft_tokens draft) in
  n <= Z.max 0 (max_position_embeddings - size_of (co_context c) - 1) /\ n <= Z.max 0 (co_limit c - co_generated c - 1).

Definition bounded (c : Core) (depth : Run -> depth_policy -> Z) : Prop :=
  forall s p, core s = c ->
    depth s p <= Z.max 0 (max_position_embeddings - size_of (co_context c) - 1) /\
    depth s p <= Z.max 0 (co_limit c - co_generated c - 1).

Lemma bounded_depth_bounded c : bounded c (fun s p => bounded_depth (policy_depth p) s).
Proof. intros s p <-. unfold bounded_depth. rewrite cache_pos_law. cbn. lia. Qed.

Lemma bounded_depth_unless c : bounded c (fun s p => if is_stopped s then 0 else bounded_depth (policy_depth p) s).
Proof. intros s p Hs. pose proof (bounded_depth_bounded c s p Hs). destruct (is_stopped s); [|done]. lia. Qed.

Lemma runs_draft c rows ids initial depth :
  bounded c depth ->
  runs c (draft_next_cycle rows ids initial depth) (fun '(_, draft) c' => c' = c /\ fits c draft).
Proof.
  intros Hd. unfold draft_next_cycle. apply runs_keeps; [keep|]. intros started.
  apply runs_keeps; [destruct initial; [keep|apply keeps_set_maintenance]|]. intros _.
  apply runs_get. intros s Hs. apply runs_keeps; [keep|]. intros p.
  apply (runs_val _ _ _ (fits c)).
  - intros s1 Hs1. pose proof (keeps_prepare_draft rows ids (depth s p) initial s1) as Hk.
    pose proof (prepare_draft_length rows ids (depth s p) initial s1) as Hl.
    destruct (prepare_draft _ _ _ _ s1) as [[draft|e] s2]; [|done]. cbn in Hk. split; [congruence|].
    specialize (Hd s p Hs). destruct (Hl draft s2 eq_refl) as [Hz [Hn|Hn]]; unfold fits; cbv zeta; rewrite Hn; [lia|].
    unfold size_of; cbn [length]. lia.
  - intros draft Hf. apply runs_keeps; [keep|]. intros now. apply runs_keeps; [apply keeps_add_head_ms|]. intros _.
    by apply ran_ret.
Qed.

(** A place of the loop that is not stopped. *)
Record ready (em : list Z) (q : Place) (c : Core) : Prop := {
  rd_served : served em q c;
  rd_live : live q c;
  rd_cursor : co_cursor c = pl_cursor q;
  rd_running : output_stopped c = false;
}.

Lemma ready_context em q c : ready em q c -> co_context c ++ [pending (co_heads c)] = prompt ++ em.
Proof. intros Hr. rewrite <- (placed_context _ _ _ (sv_placed _ _ _ (rd_served _ _ _ Hr))). symmetry. apply (rd_live _ _ _ Hr). Qed.

Lemma ready_size em q c : ready em q c -> size_of (co_context c) + 1 = size_of prompt + size_of em.
Proof. intros Hr. rewrite <- size_of_app, <- (ready_context _ _ _ Hr), size_of_app. done. Qed.

(** What a publication leaves: tokens [d] of [ts] from [q], the target [n] tokens behind [q]. *)
Lemma cached_after em d ts q c c' n :
  placed em q c -> co_context c' = pl_context q ++ take n ts -> d `prefix_of` ts -> (n <= length d <= S n)%nat ->
  cached (em ++ d) c'.
Proof.
  intros Hp Hc [us ->] Hl. exists (length em + n)%nat. rewrite length_app. split; [|lia].
  rewrite Hc, (placed_context _ _ _ Hp), <- app_assoc, (take_app_le d us) by lia. f_equal. by rewrite take_app_add.
Qed.

Definition with_committed (rows : list row) (c : Core) : Core :=
  up_heads {| committed_last_hidden := rows; pending := pending (co_heads c); initial_hidden := initial_hidden (co_heads c) |} c.
Definition with_pending (t : Z) (c : Core) : Core :=
  up_heads {| committed_last_hidden := committed_last_hidden (co_heads c); pending := t;
              initial_hidden := initial_hidden (co_heads c) |} c.

Lemma runs_set_committed {B} c rows (k : unit -> M Run B) Q : runs (with_committed rows c) (k tt) Q -> runs c (set_committed rows ≫= k) Q.
Proof. by apply runs_modify. Qed.
Lemma runs_set_pending {B} c t (k : unit -> M Run B) Q : runs (with_pending t c) (k tt) Q -> runs c (set_pending t ≫= k) Q.
Proof. by apply runs_modify. Qed.

(** The end of a cycle: [finish], and the yield. *)
Lemma runs_finish_suspend c r e (Q : Step -> Core -> Prop) :
  Q (Some e) (up_resume r (finished c)) -> runs c (finish ≫= fun _ => suspend r e) Q.
Proof. intros HQ. eapply ran_bind; [apply runs_finish|]. intros _ c' ->. by apply runs_suspend. Qed.

(** At the yield of a cycle the generation may go on. *)
Lemma ready_invariant em q c r :
  (r = AfterBootstrap \/ r = AfterPlain \/ exists rows ids, r = AfterCycle rows ids) ->
  served em q c -> (output_stopped c = true \/ live q c /\ co_cursor c = pl_cursor q) ->
  invariant em (up_resume r (finished c)).
Proof.
  intros Hr Hs Hl. destruct (served_finished _ _ r _ Hs) as [Hs' Hg]. destruct (finished_same c) as (Ho & Hh & Hc & Hk & _).
  assert (output_stopped (up_resume r (finished c)) = true \/
          live q (up_resume r (finished c)) /\ co_cursor (up_resume r (finished c)) = pl_cursor q) as Hl'.
  { unfold live, output_stopped in *. cbn. rewrite Hh, Hc, Hk, Ho. done. }
  unfold invariant. destruct Hr as [-> | [-> | (rows & ids & ->)]]; by exists q.
Qed.

Lemma follows_same q ts r r' : follows q ts r -> reads q ts = Some r' -> r' = r.
Proof. intros [Hr _] Hr'. congruence. Qed.

Lemma follows_place q ts r : follows q ts r -> pl_context r = pl_context q ++ ts.
Proof. intros [Hr _]. by apply reads_context. Qed.

Lemma runs_plain_cycle em q c started :
  ready em q c -> co_generated c < co_limit c -> runs c (plain_cycle started) (post em (room em)).
Proof.
  intros Hr Hg. pose proof (sv_placed _ _ _ (rd_served _ _ _ Hr)) as Hp. pose proof (ready_size _ _ _ Hr) as Hsize.
  pose proof (at_generated _ _ _ Hp) as Hgen. pose proof (at_capacity _ _ _ Hp) as Hcap.
  pose proof (rd_live _ _ _ Hr) as Hlive. unfold live in Hlive.
  unfold plain_cycle. apply runs_keeps; [keep|]. intros t0. apply runs_get. intros s Hs.
  assert (heads s = co_heads c) as -> by (by rewrite <- Hs).
  assert (counts s = pl_counts q) as -> by (by rewrite <- (at_counts _ _ _ Hp), <- Hs).
  assert (constraint_cursor s = pl_cursor q) as -> by (by rewrite <- (rd_cursor _ _ _ Hr), <- Hs).
  eapply ran_bind; [apply runs_forward; unfold size_of at 2; cbn; lia|]. intros a c1 [-> ->]. cbn beta iota.
  rewrite contexts_cons, <- Hlive. cbn [contexts length seq fmap list_fmap].
  eapply runs_val; [apply runs_sample_row|]. intros t Ht.
  apply runs_keeps; [keep|]. intros now. apply runs_keeps; [apply keeps_add_target_ms|]. intros _.
  assert (sampler_greedy = true -> t = pick q) as Htq by (destruct q; apply Ht).
  eapply runs_val; [apply runs_accept_cursor|]. intros k (r & Hm & <-).
  apply (runs_modify _ _ (up_cursor (pl_cursor r))); [done|]. apply ran_lift. intros l [= <-].
  apply runs_set_committed. set (c2 := with_committed _ _).
  assert (placed em q c2) as Hp2 by (apply placed_heads, placed_cursor, placed_pass, Hp).
  apply (runs_emit em q _ [t] _ _ Hp2); [by apply chosen_one|unfold size_of at 2; cbn; lia|].
  intros d o r' Hd Hs' Hne Hf Hp'. apply runs_keeps; [apply keeps_prefetch|]. intros _.
  apply runs_keeps; [keep|]. intros _. apply runs_keeps; [apply keeps_observe_plain|]. intros _.
  apply runs_set_pending, runs_finish_suspend. cbn [post].
  split; [|apply room_less, Hne; [apply Hr|done]]. apply (ready_invariant _ r'); [auto| |].
  - constructor; [by apply placed_heads| |done].
    apply (cached_after em _ [t] q c _ 0 Hp); [by rewrite app_nil_r|done|]. apply prefix_length in Hd. cbn in Hd. lia.
  - destruct Hs' as [Hs'|Hs']; [right|by left]. rewrite Hs' in Hf.
    assert (r' = r) as -> by (destruct Hf as [Hf _]; cbn in Hf; rewrite Hm in Hf; by injection Hf).
    split; [|done]. apply (follows_place _ _ _ Hf).
Qed.

(** The tokens of a cycle that were read with the first [e] of them. *)
Lemma take_drafts (drafts : list Z) (t : Z) n e : (e <= n)%nat -> (n <= length drafts)%nat -> take e (take n drafts ++ [t]) = take e drafts.
Proof. intros He Hn. rewrite take_app_le by (rewrite length_take; lia). by rewrite take_take, min_l. Qed.

Lemma runs_publish_draft em q c drafts n t rows started verify_started :
  placed em q c -> output_stopped c = false -> co_context c = pl_context q ++ drafts ->
  (drafts <> [] -> co_journal c = Some (size_of (pl_context q))) ->
  size_of (pl_context q) + size_of drafts <= max_position_embeddings ->
  0 <= n <= size_of drafts ->
  size_of em + n + 1 <= Z.max (co_limit c) 2 ->
  (forall e l, 0 <= e -> slice rows e 1 = Ok l -> l = [raw_row (pl_context q ++ take (Z.to_nat e) drafts)]) ->
  (exists r, follows q (take (Z.to_nat n) drafts ++ [t]) r /\ co_cursor c = pl_cursor r) ->
  runs c (publish_draft started verify_started drafts rows n t) (post em (room em)).
Proof.
  intros Hp Hrun Hc Hj Hcap Hn Hb Hrows (r & Hf & Hcur). unfold publish_draft. set (ts := take (Z.to_nat n) drafts ++ [t]) in *.
  assert (size_of ts = n + 1) as Hts by (unfold ts, size_of in *; rewrite length_app, length_take; cbn; lia).
  apply runs_keeps; [keep|]. intros now. apply runs_keeps; [apply keeps_add_target_ms|]. intros _.
  apply runs_keeps; [apply keeps_count_accepted|]. intros _.
  apply (runs_emit em q _ ts _ _ Hp); [by apply (chosen_follows _ _ r)|lia|].
  intros d o r' Hd Hs Hne Hf' Hp'.
  assert (room (em ++ token_ids d) < room em) as Hroom by (apply room_less, Hne; [exact Hrun|by destruct (take _ _)]).
  set (e := Z.min n (size_of (token_ids d))).
  assert (0 <= e <= n) as He by (unfold e, size_of; lia).
  assert (size_of (token_ids d) <= n + 1) as Hdl by (apply prefix_length in Hd; unfold size_of in *; lia).
  apply runs_keeps; [keep|]. intros resolve_started.
  eapply ran_bind; [apply (runs_commit_drafts _ (pl_context q)); [exact Hc|exact Hj|lia|exact Hcap]|].
  intros _ c' (j & ->). apply ran_lift. intros l Hl. apply (Hrows e l) in Hl as ->; [|lia].
  apply runs_set_committed. apply runs_keeps; [keep|]. intros now'. apply runs_keeps; [keep|]. intros _.
  set (c1 := with_committed _ _).
  assert (served (em ++ token_ids d) r' c1) as Hserved.
  { constructor; [by apply placed_heads, placed_pass| |done].
    apply (cached_after em _ ts q c _ (Z.to_nat e) Hp); [|done|unfold e, size_of in *; lia].
    unfold ts. rewrite take_drafts by (unfold size_of in *; lia). done. }
  apply runs_get. intros s Hs1. rewrite (is_stopped_core _ _ Hs1). destruct (output_stopped c1) eqn:Es.
  - apply runs_keeps; [apply keeps_settle_history|]. intros _. apply runs_finish_suspend. cbn [post].
    destruct (served_finished _ _ AfterLast _ Hserved) as [Hs' Hg]. split; [|exact Hroom]. split_and!; [by exists r'|done|].
    unfold finished, output_stopped in *. by destruct keeps_session.
  - apply runs_keeps; [apply keeps_prefetch|]. intros _. apply runs_keeps; [keep|]. intros finished_at.
    apply runs_keeps; [apply keeps_observe_cycle|]. intros _. apply runs_keeps; [apply keeps_count_cycle|]. intros _.
    apply runs_set_pending, runs_finish_suspend. cbn [post].
    destruct Hs as [Hs|Hs]; [|by unfold output_stopped, c1 in Es; cbn in Es; congruence].
    assert (r' = r) as -> by (rewrite Hs in Hf'; destruct Hf' as [Hr' _]; by apply (follows_same _ _ _ _ Hf)).
    assert (e = n) as Hen by (unfold e; rewrite Hs; lia).
    split; [|exact Hroom]. apply (ready_invariant _ r); [eauto|destruct Hserved; constructor; [by apply placed_heads|done|done]|].
    right. split; [|exact Hcur]. unfold live. cbn. rewrite (follows_place _ _ _ Hf). unfold ts. by rewrite Hen, <- app_assoc.
Qed.

Lemma runs_cycle em q c started draft :
  ready em q c -> co_generated c < co_limit c -> fits c draft -> runs c (cycle started draft) (post em (room em)).
Proof.
  intros Hr Hg [Hfc Hfl]. pose proof (sv_placed _ _ _ (rd_served _ _ _ Hr)) as Hp. pose proof (ready_size _ _ _ Hr) as Hsize.
  pose proof (at_generated _ _ _ Hp) as Hgen. pose proof (at_capacity _ _ _ Hp) as Hcap.
  pose proof (rd_live _ _ _ Hr) as Hlive. unfold live in Hlive. pose proof (size_of_nonneg (draft_tokens draft)) as Hd0.
  assert (size_of (pl_context q) = size_of (co_context c) + 1) as Hq by (by rewrite Hlive, size_of_app).
  unfold cycle. cbv zeta. set (drafts := draft_tokens draft) in *.
  apply runs_keeps; [keep|]. intros verify_started. apply runs_get. intros s Hs.
  assert (heads s = co_heads c) as -> by (by rewrite <- Hs).
  eapply ran_bind; [apply runs_target_pass; lia|]. intros [h rows] c1 (-> & -> & j & -> & Hj).
  apply runs_logits. rewrite <- targets_along_contexts, <- Hlive.
  apply runs_keeps; [destruct (_ =? _); keep|]. intros _. apply runs_keeps; [apply keeps_count_drafts|]. intros _.
  eapply runs_val.
  { apply runs_verify; [exact (at_counts _ _ _ Hp)|exact (placed_counts _ _ _ Hp)]. }
  intros v Hv. apply runs_require. intros Hrange. fold drafts in Hv.
  eapply ran_bind.
  { apply (runs_constrain _ q draft v); [exact (rd_cursor _ _ _ Hr)|exact (at_counts _ _ _ Hp)|exact (placed_counts _ _ _ Hp)| |exact Hv].
    fold drafts. lia. }
  intros [n t] c' (Hn & r & Hf & ->). fold drafts in Hf.
  apply (runs_publish_draft em q).
  - by apply placed_cursor, placed_pass.
  - apply Hr.
  - cbn. by rewrite Hlive, <- app_assoc.
  - cbn. intros Hne. rewrite (Hj Hne), Hq. done.
  - lia.
  - lia.
  - cbn. lia.
  - intros e l He Hl. apply slice_contexts in Hl as ->; [|done]. rewrite Hlive, <- app_assoc. done.
  - by exists r.
Qed.

Lemma runs_loop_head em q c started draft : ready em q c -> fits c draft -> runs c (loop_head started draft) (post em (room em)).
Proof.
  intros Hr Hf. unfold loop_head. apply runs_get. intros s Hs.
  assert (generated s = co_generated c /\ limit s = co_limit c) as [-> ->] by (by rewrite <- Hs).
  pose proof (at_generated _ _ _ (sv_placed _ _ _ (rd_served _ _ _ Hr))) as Hgen.
  destruct (Z.ltb_spec (co_generated c) (co_limit c)).
  - rewrite (is_stopped_core _ _ Hs). destruct (output_stopped c) eqn:Es.
    + apply (runs_finish_end _ q); [apply Hr|auto].
    + apply runs_keeps; [keep|]. intros p. destruct (policy_parked p); [by apply (runs_plain_cycle _ q)|by apply (runs_cycle _ q)].
  - apply (runs_finish_end _ q); [apply Hr|]. right. lia.
Qed.

Lemma ran_continue em q c rows ids :
  served em q c -> (output_stopped c = true \/ live q c /\ co_cursor c = pl_cursor q) -> runs c (continue rows ids) (post em (room em)).
Proof.
  intros Hs Hl. unfold continue. eapply ran_bind; [apply runs_draft, bounded_depth_unless|].
  intros [started draft] c' [-> Hf]. apply runs_get. intros s Hs1. rewrite (is_stopped_core _ _ Hs1).
  destruct (output_stopped c) eqn:Es; [apply (runs_finish_end _ q); auto|].
  destruct Hl as [Hl|[Hl Hk]]; [done|]. by apply (runs_loop_head _ q).
Qed.

Lemma runs_begin_decode em q c : ready em q c -> runs c begin_decode (post em (room em)).
Proof.
  intros Hr. unfold begin_decode. apply runs_keeps; [keep|]. intros _. apply runs_get. intros s _.
  eapply ran_bind; [apply runs_draft, bounded_depth_bounded|].
  intros [started draft] c' [-> Hf]. by apply (runs_loop_head _ q).
Qed.

(** ** The first tokens *)

(** Tokens are published at the boundary of the target. *)
Lemma runs_publish em q c ts next r n :
  placed em q c -> chosen q ts -> ts <> [] -> size_of em + size_of ts <= Z.max (co_limit c) 2 -> boundary c ->
  (forall d, d `prefix_of` ts -> (output_stopped c = false -> d <> []) -> cached (em ++ d) c) ->
  (forall d r' c', served (em ++ d) r' c' -> good_session c' -> follows q d r' -> d `prefix_of` ts ->
     (output_stopped c' = true \/ d = ts) -> co_resume c' = r -> co_context c' = co_context c ->
     co_heads c' = co_heads c -> co_cursor c' = co_cursor c -> (output_stopped c = false -> d <> []) ->
     invariant (em ++ d) c' /\ rank (em ++ d) c' < n) ->
  runs c (publish ts next r) (post em n).
Proof.
  intros Hp Hc Hn Hb Hbound Hcached Hinv. unfold publish. apply (runs_emit em q _ ts _ _ Hp Hc Hb).
  intros d o r' Hd Hs Hne Hf Hp'. apply runs_keeps; [apply keeps_prefetch|]. intros _. apply runs_finish_suspend.
  assert (served (em ++ token_ids d) r' (published d o r' c)) as Hserved.
  { constructor; [done| |done]. apply Hcached; [done|]. intros Hns. by apply Hne. }
  destruct (served_finished _ _ r _ Hserved) as [Hs' Hg]. destruct (finished_same (published d o r' c)) as (Ho & Hh & Hx & Hk & _).
  apply (Hinv _ r'); try done; [|intros Hns; by apply Hne].
  unfold output_stopped in *. cbn. rewrite Ho. destruct Hs as [Hs|Hs]; auto.
Qed.

Lemma runs_bootstrap c p c0 k :
  pl_context p = co_context c ++ [pending (co_heads c)] -> pl_counts p = c0 -> pl_cursor p = k ->
  size_of (co_context c) + 1 <= max_position_embeddings ->
  runs c (bootstrap c0 k) (fun k' c' => exists t q j, follows p [t] q /\ pl_cursor q = k' /\
    c' = up_heads {| committed_last_hidden := [raw_row (pl_context p)]; pending := t; initial_hidden := [raw_row (pl_context p)] |}
           (up_pass j (pl_context p) c)).
Proof.
  intros Hp <- <- Hb. unfold bootstrap. apply runs_get. intros s Hs.
  assert (heads s = co_heads c) as -> by (by rewrite <- Hs). apply runs_keeps; [keep|]. intros _.
  eapply ran_bind; [apply runs_forward; unfold size_of in *; cbn; lia|]. intros a c1 [-> ->]. cbn beta iota.
  rewrite contexts_cons, <- Hp. cbn [contexts length seq fmap list_fmap]. apply ran_lift. intros l [= <-].
  eapply runs_val; [apply runs_sample_row|]. intros t Ht.
  assert (sampler_greedy = true -> t = pick p) as Htp by (destruct p; apply Ht).
  eapply runs_val; [apply runs_accept_cursor|]. intros k (r & Hm & <-).
  apply (runs_modify _ _ (up_heads {| committed_last_hidden := [raw_row (pl_context p)]; pending := t;
    initial_hidden := [raw_row (pl_context p)] |})); [done|]. apply ran_ret. exists t, r, (co_journal c).
  split; [by apply follows_one|]. done.
Qed.

Lemma runs_after_first em q c bootstrapped :
  (bootstrapped = false -> size_of em <= 1) -> served em q c -> good_session c -> (output_stopped c = true \/ live q c) ->
  runs c (after_first bootstrapped) (post em (room em + 1)).
Proof.
  intros Hone Hs Hg Hl. pose proof (sv_placed _ _ _ Hs) as Hp. unfold after_first. apply runs_get. intros s Hs1.
  rewrite (is_stopped_core _ _ Hs1). destruct (output_stopped c) eqn:Es.
  { apply runs_return_end. cbn. split; [by left|]. right. exists q. split; [|done].
    destruct Hs; constructor; [by apply placed_resume|done|done]. }
  destruct Hl as [Hl|Hl]; [done|]. clear s Hs1. eapply runs_val; [apply runs_clone|]. intros k ->.
  rewrite (at_constraint _ _ _ Hp). apply (runs_modify _ _ (up_cursor (pl_cursor q))); [done|].
  destruct (target_bootstrap_decode && negb bootstrapped) eqn:Eb.
  - apply andb_true_iff in Eb as [_ Eb%negb_true_iff]. specialize (Hone Eb).
    pose proof (at_limit _ _ _ Hp). pose proof (at_capacity _ _ _ Hp).
    assert (size_of (co_context c) <= size_of prompt) as Hsize.
    { assert (size_of (co_context c) + 1 = size_of prompt + size_of em); [|lia].
      pose proof (placed_context _ _ _ Hp) as Hq. rewrite Hl in Hq. apply (f_equal size_of) in Hq.
      by rewrite !size_of_app in Hq. }
    apply runs_get. intros s Hs1. assert (counts s = co_counts c) as -> by exact (f_equal co_counts Hs1).
    rewrite (at_counts _ _ _ Hp).
    eapply ran_bind; [apply (runs_bootstrap _ q); [exact Hl|done|done|cbn; lia]|].
    intros k' c' (t & r & j & Hf & <- & ->). apply (runs_modify _ _ (up_cursor (pl_cursor r))); [done|].
    apply runs_get. intros s2 Hs2. assert (pending (heads s2) = t) as -> by exact (f_equal (fun c => pending (co_heads c)) Hs2).
    set (c' := up_cursor _ _).
    assert (placed em q c') as Hp' by (apply placed_cursor, placed_heads, placed_pass, placed_cursor, Hp).
    apply (runs_publish em q); [done|by apply (chosen_follows _ _ r)|done|unfold size_of at 2; cbn; lia|done| |].
    + intros d Hd _. apply (cached_after em d [t] q c _ 0 Hp); [by rewrite app_nil_r|done|].
      apply prefix_length in Hd. cbn in Hd. lia.
    + intros d r' c'' Hs' Hg' Hf' _ Hst Hr Hx Hh Hk _. split; [|unfold rank; rewrite Hr; pose proof (room_app_le em d); lia].
      unfold invariant. rewrite Hr. exists r'. split_and!; [done|done|].
      destruct Hst as [Hst| ->]; [by left|right].
      assert (r' = r) as -> by (by apply (follows_same _ _ _ _ Hf), Hf').
      split; [|by rewrite Hk]. unfold live. rewrite Hx, Hh. apply (follows_place _ _ _ Hf).
  - apply (runs_rank (n := room em)); [|lia]. apply (runs_begin_decode em q). constructor; [|exact Hl|done|done].
    destruct Hs; constructor; [by apply placed_cursor|done|done].
Qed.

Lemma append_stopped stamped (o : Output (Ms := spec_float)) :
  stopped request o = true -> append_tokens request tokenizer response_id parse_chat stamped o = (Ok no_output, o).
Proof.
  intros Hs. unfold append_tokens. destruct stamped as [|[t now] stamped]; [done|]. cbn [append_loop]. by rewrite bind_get, Hs.
Qed.

(** Whether the bootstrap ran early, and what it leaves. *)
Definition bootstrapped_to (first : Z) (c : Core) (ts : list Z) (b : bool) (c' : Core) : Prop :=
  if b then exists t p q j, follows first_place [first] p /\ follows p [t] q /\ ts = [first; t] /\
    output_stopped c = false /\ 1 < co_limit c /\
    c' = up_heads {| committed_last_hidden := [raw_row (pl_context p)]; pending := t; initial_hidden := [raw_row (pl_context p)] |}
           (up_pass j (pl_context p) c)
  else ts = [first] /\ c' = c.

Lemma runs_early_bootstrap c :
  placed [] first_place c -> first_ready c ->
  runs c (early_bootstrap (pending (co_heads c))) (fun '(ts, b) c' => bootstrapped_to (pending (co_heads c)) c ts b c').
Proof.
  intros Hp [Hread _ Hpick]. unfold early_bootstrap. apply runs_get. intros s Hs.
  destruct (_ && _ && _) eqn:Eb; [|by apply ran_ret].
  apply andb_true_iff in Eb as [_ Hlim%Z.ltb_lt]. replace (limit s) with (co_limit c) in Hlim by (by rewrite <- Hs).
  apply runs_keeps; [apply keeps_read_clock|]. intros stamped. apply runs_get. intros s1 Hs1.
  pose proof (append_stopped stamped (out s1)) as Hst.
  destruct (append_tokens _ _ _ _ stamped (out s1)) as [[d|e] preview] eqn:Ea; [|apply runs_throw].
  destruct (stopped request preview) eqn:Es; [by apply ran_ret|].
  assert (output_stopped c = false) as Hns.
  { unfold output_stopped. destruct (stopped request (co_out c)) eqn:E; [|done]. exfalso.
    replace (co_out c) with (out s1) in E by (by rewrite <- Hs1). specialize (Hst E). injection Hst as _ ->. congruence. }
  eapply runs_val; [apply runs_clone|]. intros k ->. rewrite (at_constraint _ _ _ Hp).
  eapply runs_val; [apply runs_accept_cursor|]. intros k (p & Hm & <-). pose proof (move_place _ _ _ Hm) as (Hx & Hc & _).
  assert (with_counts [pending (co_heads c)] (clone_counts (counts s1)) = pl_counts p) as ->.
  { rewrite Hc, <- (at_counts _ _ _ Hp). replace (counts s1) with (co_counts c) by (by rewrite <- Hs1).
    rewrite clone_counts_id; [done|]. rewrite (at_counts _ _ _ Hp). apply (placed_counts _ _ _ Hp). }
  pose proof (at_limit _ _ _ Hp). pose proof (at_capacity _ _ _ Hp).
  eapply ran_bind.
  { apply (runs_bootstrap _ p); [by rewrite Hx, Hread|done|done|rewrite Hread; lia]. }
  intros k' c' (t & q & j & Hf & <- & ->). apply runs_get. intros s2 Hs2. apply ran_ret.
  exists t, p, q, j. split_and!; try done.
  - by apply follows_one.
  - do 2 f_equal. exact (f_equal (fun c => pending (co_heads c)) Hs2).
Qed.

Lemma first_ready_heads h c :
  first_ready c -> committed_last_hidden h = committed_last_hidden (co_heads c) -> pending h = pending (co_heads c) ->
  first_ready (up_heads h c).
Proof. intros [Hr Hb Hp] Hc Ht. constructor; [done|unfold boundary; cbn; by rewrite Hc|intros Hg; cbn; rewrite Ht; auto]. Qed.

Lemma runs_publish_first c : placed [] first_place c -> first_ready c -> runs c publish_first (post [] (room [] + 2)).
Proof.
  intros Hp Hr. unfold publish_first.
  apply (runs_modify _ _ (fun c => up_heads {| committed_last_hidden := committed_last_hidden (co_heads c);
    pending := pending (co_heads c); initial_hidden := committed_last_hidden (co_heads c) |} c)); [done|].
  set (c1 := up_heads _ _). assert (placed [] first_place c1) as Hp1 by (by apply placed_heads).
  assert (first_ready c1) as Hr1 by (by apply first_ready_heads). clearbody c1. clear Hp Hr c.
  pose proof (at_limit _ _ _ Hp1) as Hlim. destruct Hr1 as [Hread Hb Hpick] eqn:E; clear E.
  apply runs_get. intros s Hs. replace (heads s) with (co_heads c1) by (by rewrite <- Hs).
  eapply ran_bind; [by apply runs_early_bootstrap|]. intros [ts b] c' Hboot. apply runs_get. intros s2 Hs2.
  destruct (is_cancelled s2) eqn:Ec.
  { apply runs_return_end. cbn. split; [|by left]. left. exact (is_cancelled_core _ _ Hs2 Ec). }
  clear s Hs. destruct b; cbn in Hboot.
  - destruct Hboot as (t & p & q & j & Hf & Hf' & -> & Hns & Hlim2 & ->). set (c2 := up_heads _ _).
    assert (follows first_place [pending (co_heads c1); t] q) as Hfq by (apply (follows_app [_]); by exists p).
    assert (pl_context p = prompt ++ [pending (co_heads c1)]) as Hxp by apply (follows_place _ _ _ Hf).
    apply (runs_publish [] first_place);
      [by apply placed_heads, placed_pass|by apply (chosen_follows _ _ q)|done|unfold size_of; cbn; lia|done| |].
    + intros d [us Hd] Hne. specialize (Hne Hns). exists 1%nat. cbn. rewrite Hxp.
      destruct d as [|x d]; [done|]. injection Hd as <- Hd. split; [done|].
      apply (f_equal length) in Hd. rewrite length_app in Hd. cbn in *. lia.
    + intros d r' c'' Hs' Hg' Hf'' _ Hst Hres Hx Hh _ _.
      split; [|unfold rank; rewrite Hres; pose proof (room_app_le [] d); lia]. unfold invariant. rewrite Hres. split; [done|].
      exists r'. split_and!; [done|done|]. destruct Hst as [Hst| ->]; [by left|right].
      assert (r' = q) as -> by (by apply (follows_same _ _ _ _ Hfq), Hf''). unfold live. rewrite Hx, Hh. cbn.
      apply (follows_place _ _ _ Hf').
  - destruct Hboot as [-> ->]. apply (runs_publish [] first_place); [done|by apply chosen_one|done|unfold size_of; cbn; lia|done| |].
    + intros d Hd _. exists 0%nat. cbn. rewrite Hread, app_nil_r. split; [done|]. apply prefix_length in Hd. done.
    + intros d r' c'' Hs' Hg' Hf'' Hd Hst Hres Hx Hh _ _.
      split; [|unfold rank; rewrite Hres; pose proof (room_app_le [] d); lia]. unfold invariant. rewrite Hres. split.
      { intros _. apply prefix_length in Hd. unfold size_of. cbn in *. lia. }
      exists r'. split_and!; [done|done|]. destruct Hst as [Hst| ->]; [by left|right].
      unfold live. rewrite Hx, Hh, Hread. apply (follows_place _ _ _ Hf'').
Qed.

(** ** The prompt *)

(** The arguments are machine numbers. *)
Record representable : Prop := {
  reused_range : 0 <= reused_tokens;
  prompt_range : size_of prompt <= s64_max;
  request_range : in_s32 (max_tokens request);
  capacity_range : in_s64 max_position_embeddings;
}.

Lemma first_ready_session h c : first_ready c -> first_ready (up_session h c).
Proof. by intros [Hr Hb Hp]; constructor. Qed.
Lemma first_ready_resume r c : first_ready c -> first_ready (up_resume r c).
Proof. by intros [Hr Hb Hp]; constructor. Qed.

(** The prompt's rows go. *)
Definition without_rows (c : Core) : Core := up_raw [] (up_hidden [] c).

Lemma runs_after_priming c : placed [] first_place c -> first_ready c -> runs c after_priming (post [] (room [] + 3)).
Proof.
  intros Hp Hr. unfold after_priming. apply runs_get. intros s Hs. destruct (is_cancelled s) eqn:Ec.
  { apply runs_return_end. cbn. split; [|by left]. left. exact (is_cancelled_core _ _ Hs Ec). }
  apply (runs_modify _ _ without_rows); [done|]. set (c1 := without_rows c).
  assert (placed [] first_place c1 /\ first_ready c1) as [Hp1 Hr1] by (destruct Hp, Hr; split; by constructor).
  clearbody c1. destruct keeps_session; [|apply (runs_rank (n := room [] + 2)); [by apply runs_publish_first|lia]].
  apply (runs_modify _ _ (fun c => up_session (Some (committed_last_hidden (co_heads c))) c)); [done|].
  apply runs_get. intros s1 _. apply runs_suspend. cbn [post progress]. split_and!.
  - split_and!; [done|by apply placed_resume, placed_session|by apply first_ready_resume, first_ready_session].
  - cbn. lia.
  - intros _. cbn. f_equal. apply Hr1.
Qed.

Lemma runs_prime_head c p :
  representable -> placed [] first_place c -> first_ready c -> pairs p <= size_of prompt ->
  runs c (prime_head p) (post [] (room [] + 3 + Z.max 0 (pairs p - primed p))).
Proof.
  intros Hm Hp Hr Hpairs. pose proof (prompt_range Hm). unfold prime_head. destruct (Z.ltb_spec (primed p) (pairs p)).
  2:{ apply (runs_rank (n := room [] + 3)); [by apply runs_after_priming|lia]. }
  set (n := room [] + 3 + _).
  assert (forall s, core s = c -> is_cancelled s = true -> runs c return_end (post [] n)) as Hend.
  { intros s Hs Ec. apply runs_return_end. cbn. split; [|by left]. left. exact (is_cancelled_core _ _ Hs Ec). }
  apply runs_get. intros s Hs. destruct (is_cancelled s) eqn:Ec; [by apply (Hend s)|].
  apply ran_lift. intros chunk Hchunk. assert (0 < count chunk) as Hpos.
  { revert Hchunk. unfold next_prefill_chunk. destruct (_ || _) eqn:E; [done|]. intros [= <-]. cbn.
    rewrite s64_small by (unfold in_s64, s64_max in *; lia). lia. }
  apply runs_keeps; [apply keeps_prime_tile|]. intros _.
  apply runs_get. intros s1 Hs1. destruct (is_cancelled s1) eqn:Ec1; [by apply (Hend s1)|].
  apply runs_keeps; [destruct (_ =? _); [apply keeps_end_priming|keep]|]. intros _. apply runs_get. intros s2 _.
  apply runs_suspend. cbn. split_and!; [done|by apply placed_resume|by apply first_ready_resume|done| |done].
  unfold n. cbn. lia.
Qed.

Lemma runs_prime_predictor c rows :
  representable -> placed [] first_place c -> first_ready c -> (streams_history = false -> size_of rows <= size_of prompt) ->
  runs c (prime_predictor rows) (post [] (room [] + 3 + size_of prompt)).
Proof.
  intros Hm Hp Hr Hrows. unfold prime_predictor.
  pose proof (size_of_nonneg prompt). destruct (_ && _) eqn:E; [|apply (runs_rank (n := room [] + 3)); [by apply runs_after_priming|lia]].
  apply andb_true_iff in E as [_ E%negb_true_iff]. specialize (Hrows E).
  apply ran_lift. intros p Hpr. assert (pairs p <= size_of prompt /\ primed p = 0) as [Hpp Hz].
  { unfold priming_rows in Hpr. destruct (0 <? reused_tokens).
    - destruct (if size_of rows =? 1 then _ else _) as [l|e]; [|done]. injection Hpr as <-. cbn. lia.
    - destruct (if 0 <? _ then _ else _) as [l|e]; [|done]. injection Hpr as <-. cbn. lia. }
  apply runs_keeps; [keep|]. intros _.
  apply (runs_rank (n := room [] + 3 + Z.max 0 (pairs p - primed p))); [by apply runs_prime_head|lia].
Qed.

Lemma join_rows_snoc {A} (rs : list (list A)) l x rows :
  join_rows (rs ++ [l ++ [x]]) = Ok rows -> exists l', rows = l' ++ [x].
Proof.
  destruct rs as [|r rs]; cbn; [intros [= <-]; by eexists|].
  destruct (rs ++ [l ++ [x]]) as [|y ys] eqn:E; [by destruct rs|].
  unfold concatenate. cbn [is_nil]. intros [= <-]. exists (r ++ mjoin rs ++ l).
  transitivity (r ++ mjoin (y :: ys)); [done|]. rewrite <- E, join_app. cbn. by rewrite app_nil_r, !app_assoc.
Qed.

Lemma join_rows_join {A} (l : list (list A)) rows : join_rows l = Ok rows -> rows = mjoin l.
Proof.
  destruct l as [|a [|b l]]; [done| |]; intros [= <-]; [|done]. cbn. by rewrite app_nil_r.
Qed.

Lemma runs_after_prompt c :
  placed [] first_place c -> prefilling c -> co_offset c = size_of prompt -> representable ->
  runs c after_prompt (post [] (room [] + 3 + size_of prompt)).
Proof.
  intros Hp [Hin Hread Hhid Hraw Hsize] Hoff Hm. specialize (Hhid Hoff) as [h Hhid]. specialize (Hraw Hoff).
  rewrite Hoff in Hread. unfold size_of in Hread. rewrite Nat2Z.id, firstn_all in Hread. unfold after_prompt.
  apply runs_get. intros s Hs. destruct (is_cancelled s) eqn:Ec.
  { apply runs_return_end. cbn. split; [|by left]. left. exact (is_cancelled_core _ _ Hs Ec). }
  apply runs_keeps; [keep|]. intros _.
  replace (raw (prompt_part s)) with (co_raw c) by (by rewrite <- Hs).
  replace (raw_chunks (prompt_part s)) with (co_chunks c) by (by rewrite <- Hs).
  replace (SpeculativeSequence.hidden (prompt_part s)) with (co_hidden c) by (by rewrite <- Hs).
  eapply (runs_val _ _ _ (fun rows => (exists l, rows = l ++ [raw_row prompt]) /\
    (streams_history = false -> size_of rows <= size_of prompt))).
  { destruct streams_history; [apply ran_ret; split; [done|by split; [exists []|]]|]. destruct Hraw as (rs & l & Hchunks). rewrite Hchunks in *.
    intros s1 Hs1. unfold lift. destruct (join_rows _) as [rows|e] eqn:E; [|done]. split; [done|].
    pose proof (join_rows_join _ _ E) as ->. split; [by apply join_rows_snoc in E|]. intros _. lia. }
  intros rows [[l ->] Hrows]. apply (runs_modify _ _ (up_chunks [])); [done|]. set (c1 := up_chunks [] c).
  apply ran_lift. intros committed Hc. rewrite last_row_app in Hc. injection Hc as <-.
  apply ran_lift. intros sampled Hsm. rewrite Hhid, last_row_app in Hsm. injection Hsm as <-.
  apply (runs_logits c1 [prompt]). eapply runs_val; [apply runs_clone|]. intros k ->. apply ran_lift. intros x [= <-].
  replace (counts s) with (co_counts c) by (by rewrite <- Hs).
  replace (co_constraint c1) with (co_constraint c) by done. rewrite (at_constraint _ _ _ Hp), (at_counts _ _ _ Hp).
  eapply runs_val; [apply runs_sample|]. intros t Ht.
  eapply (runs_modify _ _ (up_heads {| committed_last_hidden := [raw_row prompt]; pending := t; initial_hidden := [] |})); [done|].
  apply runs_keeps; [destruct blockwise_drafting; [apply keeps_prime_blockwise|keep]|]. intros _.
  apply runs_prime_predictor; [done| | |exact Hrows].
  - apply placed_heads. by destruct Hp; constructor.
  - constructor; [exact Hread|unfold boundary; cbn; by rewrite Hread|exact Ht].
Qed.

Lemma checkpoint_cases :
  representable ->
  checkpoint = 0 \/ (streams_history = false /\ keeps_session = true /\ 0 < checkpoint < size_of prompt).
Proof.
  intros Hm. pose proof (reused_range Hm). unfold checkpoint, streams_history.
  destruct (_ && _) eqn:E; [right|by left].
  apply andb_true_iff in E as [E Hl]. apply andb_true_iff in E as [E Hr]. apply andb_true_iff in E as [-> ->].
  rewrite andb_false_r. split_and!; [done|done|lia|lia].
Qed.

Lemma tile_at_spec off chunk :
  representable -> 0 <= off < size_of prompt -> tile_at off = Ok chunk ->
  GenerationPolicy.offset chunk = off /\ 0 < count chunk /\ off + count chunk <= size_of prompt.
Proof.
  intros Hm Ho. pose proof (prompt_range Hm). unfold tile_at. destruct (Z.leb_spec prefill_chunk_size 0).
  { unfold next_prefill_chunk. rewrite (proj2 (Z.leb_le prefill_chunk_size 0)) by lia. by rewrite !orb_true_r. }
  rewrite next_prefill_chunk_ok by lia. cbn. intros [= <-]. cbn. destruct (Z.ltb_spec off checkpoint); lia.
Qed.

Lemma take_tile off n :
  0 <= off -> 0 < n -> off + n <= size_of prompt ->
  let ids := take (Z.to_nat n) (drop (Z.to_nat off) prompt) in
  ids <> [] /\ take (Z.to_nat off) prompt ++ ids = take (Z.to_nat (off + n)) prompt.
Proof.
  intros Ho Hn Hb ids. split.
  - unfold ids. intros E. apply (f_equal length) in E. rewrite length_take, length_drop in E. unfold size_of in Hb. cbn in E. lia.
  - unfold ids. rewrite take_take_drop. f_equal. lia.
Qed.

Lemma runs_stream_tile c off n context ids :
  ids <> [] ->
  runs c (stream_tile off n (raw_row <$> contexts context ids)) (fun _ c' => c' = up_raw [raw_row (context ++ ids)] c).
Proof.
  intros Hi. unfold stream_tile. apply runs_keeps; [destruct (_ && _); [apply keeps_prime_rows|keep]|]. intros _.
  apply ran_lift. intros rows _. apply runs_keeps; [apply keeps_prime_rows|]. intros _. apply ran_lift. intros kept Hk.
  rewrite last_row_contexts in Hk by done. injection Hk as <-. intros s <-. done.
Qed.

(** At the checkpoint the session has the row of the stable prefix. *)
Lemma runs_reach_checkpoint c rs l x :
  co_chunks c = rs ++ [l ++ [x]] ->
  runs c reach_checkpoint (fun o c' =>
    c' = up_resume AfterCheckpoint (up_chunks [] (up_session (Some [x]) c)) /\ exists t, o = Some (Progress t true)).
Proof.
  intros Hc. unfold reach_checkpoint. apply runs_get. intros s Hs.
  replace (raw_chunks (prompt_part s)) with (co_chunks c) by (by rewrite <- Hs). rewrite Hc.
  apply ran_lift. intros context Hj. apply join_rows_snoc in Hj as [l' ->]. apply ran_lift. intros kept Hk.
  rewrite last_row_app in Hk. injection Hk as <-.
  apply (runs_modify _ _ (up_session (Some [x]))); [done|]. apply runs_keeps; [apply keeps_prime_blockwise|]. intros _.
  apply (runs_modify _ _ (up_chunks [])); [done|]. apply runs_get. intros s1 _. apply runs_suspend. split; [done|].
  by eexists.
Qed.

Lemma runs_prefill_head c :
  representable -> placed [] first_place c -> prefilling c -> runs c prefill_head (post [] (room [] + 3 + size_of prompt + (size_of prompt - co_offset c))).
Proof.
  intros Hm Hp Hpre. destruct Hpre as [Hin Hread Hhid Hraw Hsize] eqn:E; clear E. unfold prefill_head.
  apply runs_get. intros s Hs. replace (offset (prompt_part s)) with (co_offset c) by (by rewrite <- Hs).
  set (off := co_offset c) in *. destruct (Z.ltb_spec off (size_of prompt)).
  2:{ apply (runs_rank (n := room [] + 3 + size_of prompt)); [|unfold off in *; lia]. apply runs_after_prompt; [done|done|unfold off in *; lia|done]. }
  destruct (is_cancelled s) eqn:Ec.
  { apply runs_return_end. cbn. split; [|by left]. left. exact (is_cancelled_core _ _ Hs Ec). }
  apply ran_lift. intros chunk Hchunk. apply tile_at_spec in Hchunk as (Hco & Hcn & Hcb); [|done|lia].
  destruct (take_tile off (count chunk)) as [Hids Htake]; [lia|lia|lia|].
  set (ids := take (Z.to_nat (count chunk)) (drop (Z.to_nat off) prompt)) in *.
  set (x := take (Z.to_nat (off + count chunk)) prompt) in *.
  eapply (runs_pass _ _ _ (fun a y _ => y = x /\ (exists h, a.1.1 = h ++ [hidden_row x]) /\
    a.1.2 = raw_row <$> contexts (take (Z.to_nat off) prompt) ids)).
  { intros d [[h r] ms] d' Hd Hcd _. pose proof (prefill_law _ _ _ _ _ _ Hd) as Hlaw.
    rewrite Hco in Hlaw. destruct Hlaw as (Hx & _ & Hh & ->); [lia|lia|lia|congruence|].
    rewrite Hx in Hh. split; [done|]. split; [done|]. cbn. by rewrite Hcd, Hread. }
  intros [[h r] ms] y j (-> & Hh & Hr). cbn in Hh, Hr. destruct Hh as [h' ->]. subst r. cbn beta iota.
  set (c1 := up_journal j (up_context x c)).
  apply (ran_bind _ _ _ (fun _ c' => exists k, c' = k c1 /\
    k = if streams_history then up_raw [raw_row x] else up_chunks (co_chunks c ++ [raw_row <$> contexts (take (Z.to_nat off) prompt) ids]))).
  { destruct streams_history.
    - eapply ran_weaken; [by apply runs_stream_tile|]. intros _ c' ->. rewrite Htake. by eexists.
    - intros s1 Hs1. cbn. eexists. split; [|done]. change (co_chunks c) with (co_chunks c1). by rewrite <- Hs1. }
  intros _ c2 (k & -> & ->).
  apply (runs_modify _ _ (fun c => up_hidden (h' ++ [hidden_row x]) (up_offset (off + count chunk) c))); [done|].
  set (c3 := up_hidden _ _). assert (placed [] first_place c3) as Hp3 by (unfold c3; destruct Hp, streams_history; by constructor).
  assert (exists l, raw_row <$> contexts (take (Z.to_nat off) prompt) ids = l ++ [raw_row x]) as [l Hl].
  { clearbody ids. destruct ids as [|t ids _] using rev_ind; [done|]. rewrite contexts_snoc, fmap_app. eexists. cbn. by rewrite Htake. }
  destruct (Z.eqb_spec (off + count chunk) checkpoint) as [Hck|Hck].
  - destruct (checkpoint_cases Hm) as [Hz|(Hst & Hks & Hpos)]; [lia|].
    eapply ran_weaken.
    { eapply (runs_reach_checkpoint c3 (co_chunks c) l (raw_row x)). unfold c3. rewrite Hst, Hl. done. }
    intros o c' (-> & t & ->). cbn [post]. unfold c3. rewrite Hst. split; [|split; [cbn; lia|done]].
    split_and!; [done|by destruct Hp; constructor|]. constructor; cbn; [lia|done|lia|lia|unfold size_of; cbn; lia].
  - apply runs_get. intros s2 _. apply runs_suspend. cbn [post].
    assert (size_of (raw_row <$> contexts (take (Z.to_nat off) prompt) ids) = count chunk) as Hrows.
    { unfold size_of in *. rewrite length_fmap, contexts_length. unfold ids. rewrite length_take, length_drop. lia. }
    split; [|split; [unfold c3; cbn; destruct streams_history; cbn; lia|done]].
    split_and!; [done|by apply placed_resume|]. unfold c3.
    assert (off + count chunk = size_of prompt -> x = prompt) as Hall.
    { intros Hoff. unfold x, size_of in *. rewrite Hoff, Nat2Z.id. apply firstn_all. }
    constructor.
    + destruct streams_history; cbn; lia.
    + by destruct streams_history.
    + destruct streams_history; cbn; intros Hoff; rewrite (Hall Hoff); by eexists.
    + destruct streams_history; cbn; intros Hoff; [by rewrite (Hall Hoff)|].
      exists (co_chunks c), l. rewrite Hl. by rewrite (Hall Hoff).
    + destruct streams_history; cbn; [lia|]. rewrite join_app, size_of_app. cbn. rewrite app_nil_r. lia.
Qed.

Lemma plan_limit occ plan :
  representable -> size_of prompt <= occ ->
  plan_generation prompt vocab_size max_position_embeddings (max_tokens request) 0 occ = Ok plan ->
  0 < generation_tokens plan ->
  generation_tokens plan <= s32_max /\ size_of prompt + generation_tokens plan <= max_position_embeddings.
Proof.
  intros [_ Hp Hr Hc] Hocc. unfold plan_generation. pose proof (size_of_nonneg prompt).
  destruct (bool_decide _); [done|]. destruct (_ || _ || _); [done|]. destruct (_ <? 0) eqn:Ereq; [done|].
  destruct (existsb _ _); [done|]. rewrite (proj2 (Z.ltb_ge occ 0)) by lia.
  rewrite (s64_small (size_of prompt)) by (unfold in_s64, s64_max in *; lia).
  destruct (_ || _) eqn:Eo; [done|]. apply orb_false_iff in Eo as [_ Eo%Z.ltb_ge].
  unfold in_s32, in_s64, s32_max, s64_max in *. apply Z.ltb_ge in Ereq.
  rewrite s64_small by (unfold in_s64, s64_max; lia). intros [= <-]. cbn.
  rewrite s32_small by (unfold in_s32, s32_max; lia). lia.
Qed.

Lemma runs_check_arguments c : runs c check_arguments (fun _ c' => c' = c /\ reused_tokens < size_of prompt).
Proof.
  unfold check_arguments. apply runs_require. intros Hr%Z.ltb_lt. do 2 (apply runs_require; intros _).
  apply runs_get. intros s0 _ s Hs. unfold require_execution. by destruct (_ || _).
Qed.

Lemma runs_start c :
  representable -> co_resume c = AtStart -> invariant [] c -> runs c start (post [] (rank [] c)).
Proof.
  intros Hm Hr Hi. unfold invariant in Hi. rewrite Hr in Hi. destruct Hi as (_ & Hk & Hx & Hoff & Hch & Hgen & Hlim). unfold rank. rewrite Hr.
  pose proof (reused_range Hm) as Hreused. unfold start.
  apply (runs_modify _ _ (fun c => if keeps_session then up_session None c else c)); [by destruct keeps_session|].
  set (c1 := if keeps_session then _ else _).
  assert (co_constraint c1 = k0 /\ co_context c1 = take (Z.to_nat reused_tokens) prompt /\ co_offset c1 = reused_tokens /\ co_chunks c1 = [] /\
    co_generated c1 = 0 /\ co_limit c1 = 0) as (Hk1 & Hx1 & Ho1 & Hch1 & Hg1 & Hl1).
  { unfold c1. rewrite Hoff in Hx. by destruct keeps_session. }
  clearbody c1. apply runs_get. intros s Hs. destruct (is_cancelled s) eqn:Ec.
  { apply runs_return_end. cbn. split; [|by left]. left. exact (is_cancelled_core _ _ Hs Ec). }
  eapply runs_val; [apply runs_check_arguments|]. intros u Hlt. cbn in Hlt. apply runs_keeps; [keep|]. intros _.
  apply runs_require. intros _. apply ran_lift. intros plan Hplan.
  destruct (Z.leb_spec (generation_tokens plan) 0).
  { apply runs_return_end. cbn. split; [|by left]. right. change (co_limit c1 <= size_of (@nil Z)). by rewrite Hl1. }
  apply plan_limit in Hplan as [Hl Hcap]; [|done|lia|done]. unfold begin_generation.
  apply (ran_bind _ _ _ (fun _ c' => c' = up_limit (generation_tokens plan) (up_counts first_counts c1))).
  - eapply (runs_dev _ _ _ (fun x => x = first_counts)); [apply quiet_initialize|apply initialize_law|]. intros x ->.
    apply runs_keeps; [keep|]. intros now s1 <-. done.
  - intros _ c2 ->. set (c2 := up_limit _ _). apply (runs_rank (n := room [] + 3 + size_of prompt + (size_of prompt - co_offset c2))).
    2:{ unfold c2. cbn. lia. }
    apply runs_prefill_head; [done| |]; unfold c2.
    + constructor; first [done|unfold size_of; cbn; unfold size_of in *; lia].
    + constructor; cbn; rewrite ?Ho1, ?Hch1; [lia|done|lia|lia|unfold size_of; cbn; lia].
Qed.

(** ** The whole generation *)

(** Each resumption goes from the invariant to the invariant. *)
Lemma runs_resume em c : representable -> invariant em c -> runs c (resume_at (co_resume c)) (post em (rank em c)).
Proof.
  intros Hm Hi. pose proof Hi as Hi'. unfold invariant in Hi. unfold rank.
  destruct (co_resume c) as [| | |p| |b| | |rows ids| |] eqn:Er; cbn [resume_at].
  - pose proof (runs_start c Hm Er) as Hst. unfold rank in Hst. rewrite Er in Hst. destruct Hi as [-> _]. by apply Hst.
  - destruct Hi as (-> & Hp & Hpre). by apply runs_prefill_head.
  - destruct Hi as (-> & Hp & Hpre). unfold unless_stopped. apply runs_get. intros s Hs. rewrite (is_stopped_core _ _ Hs).
    destruct (output_stopped c) eqn:Es; [|by apply runs_prefill_head].
    apply runs_return_end. cbn. split; [by left|by left].
  - destruct Hi as (-> & Hp & Hr & Hpairs). by apply runs_prime_head.
  - destruct Hi as (-> & Hp & Hr). unfold unless_stopped. apply runs_get. intros s Hs. rewrite (is_stopped_core _ _ Hs).
    destruct (output_stopped c) eqn:Es; [|by apply runs_publish_first].
    apply runs_return_end. cbn. split; [by left|by left].
  - destruct Hi as (Hone & q & Hs & Hg & Hl). by apply (runs_after_first _ q).
  - destruct Hi as (q & Hs & Hg & Hl). unfold unless_stopped. apply runs_get. intros s Hs1. rewrite (is_stopped_core _ _ Hs1).
    destruct (output_stopped c) eqn:Es.
    + apply runs_return_end. cbn. split; [by left|]. right. exists q. split; [|done].
      destruct Hs; constructor; [by apply placed_resume|done|done].
    + destruct Hl as [Hl|[Hl Hk]]; [done|]. by apply (runs_begin_decode _ q).
  - destruct Hi as (q & Hs & Hg & Hl). unfold after_plain. apply runs_get. intros s _. by apply (ran_continue _ q).
  - destruct Hi as (q & Hs & Hg & Hl). by apply (ran_continue _ q).
  - destruct Hi as ((q & Hs) & Hg & Hst). apply runs_return_end. cbn. split; [by left|]. right. exists q. split; [|done].
    destruct Hs; constructor; [by apply placed_resume|done|done].
  - apply ran_ret. by split.
Qed.

Lemma core_close s : core (close s) = core s.
Proof. unfold close. by destruct (policy s). Qed.

Lemma runs_next em c : representable -> invariant em c -> runs c next (post em (rank em c)).
Proof.
  intros Hm Hi s Hs. unfold next. pose proof (runs_resume em c Hm Hi s Hs) as Hr.
  replace (co_resume c) with (resume s) in Hr by (by rewrite <- Hs).
  destruct (resume_at (resume s) s) as [[[e|]|e] s']; [exact Hr| |done]. by rewrite core_close.
Qed.

(** While a generation is suspended, nothing but its output changes, which may stop. *)
Lemma invariant_output em o c :
  (output_stopped c = true -> stopped request o = true) -> invariant em c -> invariant em (up_out o c).
Proof.
  intros Ho Hi.
  assert (forall em q, served em q c -> served em q (up_out o c)) as Hsv.
  { intros em' q [Hp Hc Hb]. constructor; [by destruct Hp; constructor|done|done]. }
  assert (forall em q, placed em q c -> placed em q (up_out o c)) as Hpl by (intros ? ? Hp; by destruct Hp; constructor).
  assert (prefilling c -> prefilling (up_out o c)) as Hpf by (intros Hp; by destruct Hp; constructor).
  assert (first_ready c -> first_ready (up_out o c)) as Hfr by (intros Hp; by destruct Hp; constructor).
  unfold invariant in *. change (co_resume (up_out o c)) with (co_resume c).
  destruct (co_resume c) as [| | |p| |b| | |rows ids| |].
  1-5: naive_solver.
  - destruct Hi as (Hone & q & Hs & Hg & Hl). split; [done|]. exists q. split_and!; [auto|done|]. destruct Hl; auto.
  - destruct Hi as (q & Hs & Hg & Hl). exists q. split_and!; [auto|done|]. destruct Hl; auto.
  - destruct Hi as (q & Hs & Hg & Hl). exists q. split_and!; [auto|done|]. destruct Hl; auto.
  - destruct Hi as (q & Hs & Hg & Hl). exists q. split_and!; [auto|done|]. destruct Hl; auto.
  - destruct Hi as ((q & Hs) & Hg & Hst). split_and!; [by exists q; auto|done|auto].
  - destruct Hi as [Hend Hs]. split; [destruct Hend; auto|]. destruct Hs as [->|(q & Hs & Hg)]; [by left|right].
    exists q. auto.
Qed.

Definition tokens_of (o : Step) : list Z := match o with Some (Delta d) => token_ids d | _ => [] end.

Definition yields (o : Step) : nat := match o with Some _ => 1 | None => 0 end.

(** The states a generation is suspended in, how often it yielded, and the tokens it
    published. Between two resumptions the device may do anything but touch the target's
    cache, and the output may change but not come back from a stop (the client may cancel). *)
Inductive reaches (s0 : Run) : nat -> list Z -> Run -> Prop :=
  | reaches_start : reaches s0 0 [] s0
  | reaches_next n em s o s' :
      reaches s0 n em s -> next s = (Ok o, s') -> reaches s0 (n + yields o) (em ++ tokens_of o) s'
  | reaches_env n em s d o :
      reaches s0 n em s -> context d = context (dev s) -> journal d = journal (dev s) ->
      (stopped request (out s) = true -> stopped request o = true) -> reaches s0 n em (set_out o (set_dev d s)).

Lemma room_nonneg em q c : placed em q c -> 0 <= room em.
Proof. intros [_ _ _ _ ? ? ?]. unfold room. lia. Qed.

Lemma rank_nonneg em c : representable -> invariant em c -> 0 <= rank em c.
Proof.
  intros Hm. pose proof (size_of_nonneg prompt). assert (0 <= room []) as Hr by (unfold room, size_of at 2; cbn; lia).
  assert (forall q, served em q c -> 0 <= room em) as Hs by (intros q Hq; apply (room_nonneg em q c), Hq).
  unfold invariant, rank. destruct (co_resume c); intros Hi; try lia.
  1-2: destruct Hi as (_ & _ & [Hin _ _ _ _]); lia.
  - destruct Hi as (_ & q & Hq & _). specialize (Hs q Hq). lia.
  - destruct Hi as (q & Hq & _). exact (Hs q Hq).
  - destruct Hi as (q & Hq & _). exact (Hs q Hq).
  - destruct Hi as (q & Hq & _). exact (Hs q Hq).
  - destruct Hi as ((q & Hq) & _). exact (Hs q Hq).
Qed.

(** The generations of one call: its device has read the reused tokens. *)
Definition begun (d : device) (s0 : Run) : Prop :=
  context d = take (Z.to_nat reused_tokens) prompt /\ exists o session m st n, s0 = new_run d o k0 session m st n.

Lemma reaches_invariant d s0 n em s :
  representable -> begun d s0 -> reaches s0 n em s ->
  invariant em (core s) /\ Z.of_nat n + rank em (core s) <= room [] + 3 + 2 * size_of prompt.
Proof.
  intros Hm (Hd & o & session & m & st & ns & ->).
  induction 1 as [|n em s e s' _ [IH IHr] Hn|n em s d' o' _ [IH IHr] Hx Hj Ho].
  - split; [cbn; by split_and!|]. cbn. lia.
  - pose proof (runs_next em _ Hm IH s eq_refl) as Hp. pose proof (rank_nonneg _ _ Hm IH) as Hr. rewrite Hn in Hp.
    destruct e as [[t b|dl]|]; cbn [post tokens_of yields] in *.
    + rewrite app_nil_r. destruct Hp as (Hi & Hlt & _). split; [done|lia].
    + destruct Hp as [Hi Hlt]. split; [done|lia].
    + rewrite app_nil_r. destruct Hp as [He Hi]. unfold invariant, rank. rewrite He. split; [done|lia].
  - replace (core (set_out o' (set_dev d' s))) with (up_out o' (core s)); [split; [by apply invariant_output|exact IHr]|].
    unfold core, up_out. cbn. by rewrite Hx, Hj.
Qed.

(** What was published is served, and the session has the boundary. *)
Lemma invariant_served em c : invariant em c -> em <> [] -> exists q, served em q c /\ good_session c.
Proof.
  intros Hi Hn. unfold invariant in Hi. destruct (co_resume c) as [| | |p| |b| | |rows ids| |].
  1-5: by destruct Hi as [-> _].
  - destruct Hi as (_ & q & Hs & Hg & _). by exists q.
  - destruct Hi as (q & Hs & Hg & _). by exists q.
  - destruct Hi as (q & Hs & Hg & _). by exists q.
  - destruct Hi as (q & Hs & Hg & _). by exists q.
  - destruct Hi as ((q & Hs) & Hg & _). by exists q.
  - destruct Hi as [_ [->|(q & Hs & Hg)]]; [done|]. by exists q.
Qed.

(** C3: a greedy speculative generation publishes exactly the tokens plain greedy decoding
    gives, one by one, from the prompt, the penalties and the constraint: whatever the
    predictor drafts and the policy chooses, whether verification is joint or split, with
    partial or replayed rollbacks, early or late bootstrap, from a restored session or not,
    and wherever the output stops. *)
Theorem generation_is_plain d s0 n em s :
  representable -> sampler_greedy = true -> begun d s0 -> reaches s0 n em s ->
  em = plain_decode (length em) first_place.
Proof.
  intros Hm Hg Hb Hr. destruct (reaches_invariant _ _ _ _ _ Hm Hb Hr) as [Hi _].
  destruct em as [|t em]; [done|]. destruct (invariant_served _ _ Hi) as (q & [[Hf _ _ _ _ _ _] _ _] & _); [done|].
  symmetry. apply (decodes_plain _ _ q), Hf, Hg.
Qed.

(** C13: in every sampling mode, once tokens were published, the constraint and the counts
    have read exactly those tokens, the target's cache is the prompt and the tokens, but
    perhaps the last, and the session keeps the row of that boundary. *)
Theorem cache_follows_output d s0 n em s :
  representable -> begun d s0 -> reaches s0 n em s -> em <> [] ->
  (exists q, reads first_place em = Some q /\ token_constraint s = pl_cursor q /\ counts s = pl_counts q) /\
  (exists m, context (dev s) = prompt ++ take m em /\ (length em <= S m)%nat) /\
  (keeps_session = true -> session_hidden s = Some [raw_row (context (dev s))]).
Proof.
  intros Hm Hb Hr Hn. destruct (reaches_invariant _ _ _ _ _ Hm Hb Hr) as [Hi _].
  destruct (invariant_served _ _ Hi Hn) as (q & [[Hf Hk Hc _ _ _ _] Hx _] & Hg).
  split; [exists q; split_and!; [apply Hf|exact Hk|exact Hc]|]. split; [exact Hx|exact Hg].
Qed.

(** When a prefill yields a session boundary (the stable prefix, or the whole prompt),
    nothing was published yet, and the session has the row of what the target has read. *)
Theorem prefill_boundary d s0 n em s t s' :
  representable -> begun d s0 -> reaches s0 n em s -> next s = (Ok (Some (Progress t true)), s') ->
  session_hidden s' = Some [raw_row (context (dev s'))].
Proof.
  intros Hm Hb Hr Hn. destruct (reaches_invariant _ _ _ _ _ Hm Hb Hr) as [Hi _].
  pose proof (runs_next em _ Hm Hi s eq_refl) as Hp. rewrite Hn in Hp. by apply Hp.
Qed.

(** C16: a generation yields boundedly often (a tile of the prompt or of the predictor's, a
    boundary, or a delta that has a token, but for the first), it never passes its limit (or two tokens), and where it has ended the
    output is stopped or the limit reached. *)
Theorem generation_ends d s0 n em s :
  representable -> begun d s0 -> reaches s0 n em s ->
  Z.of_nat n <= Z.max (max_position_embeddings - size_of prompt) 2 + 2 * size_of prompt + 3 /\
  size_of em <= Z.max (limit s) 2 /\
  (resume s = AtEnd -> stopped request (out s) = true \/ limit s <= size_of em).
Proof.
  intros Hm Hb Hr. destruct (reaches_invariant _ _ _ _ _ Hm Hb Hr) as [Hi Hn].
  pose proof (rank_nonneg _ _ Hm Hi). split; [unfold room, size_of at 2 in Hn; cbn in Hn; lia|]. split.
  { destruct em as [|t em]; [unfold size_of; cbn; lia|]. destruct (invariant_served _ _ Hi) as (q & [[_ _ _ _ _ _ ?] _ _] & _); done. }
  intros He. unfold invariant in Hi. replace (co_resume (core s)) with (resume s) in Hi by done. rewrite He in Hi.
  exact (proj1 Hi).
Qed.

(** Resuming [k] times. *)
Fixpoint resumed (k : nat) (n : nat) (em : list Z) (s : Run) : option (nat * list Z * Run) :=
  match k with
  | O => Some (n, em, s)
  | S k => match next s with
           | (Ok o, s) => resumed k (n + yields o) (em ++ tokens_of o) s
           | (Throw _, _) => None
           end
  end.

Lemma resumed_reaches s0 k : forall n em s n' em' s',
  reaches s0 n em s -> resumed k n em s = Some (n', em', s') -> reaches s0 n' em' s'.
Proof.
  induction k as [|k IH]; intros n em s n' em' s' Hr; cbn [resumed]; [by intros [= <- <- <-]|].
  destruct (next s) as [[o|e] s1] eqn:E; [|done]. apply IH. by apply (reaches_next _ _ _ _ _ _ Hr E).
Qed.

End Lossless.

(** ** Examples *)

Definition toy_policy : DepthControl :=
  generation_policy (F := binary64) test_exp true true (chooser := dspark_chooser (F := binary64) test_exp).

Definition toy_output : Output (Ms := spec_float) :=
  {| result := {| text := []; reasoning_text := []; result_calls := []; finish_reason := "length"; completion_tokens := 0;
                  cancelled := false |};
     metrics := {| started := 0; first_token := 0; last_token := 0; prefill_tokens := 0; Inference.prefill_ms := DepthModel.zero;
                   media_ms := DepthModel.zero; model_prefill_ms := DepthModel.zero; saw_token := false; saw_prefill := false |};
     Inference.generated := []; emitter := make_emitter []; message := empty_msg; tool_ids := []; out_stopped := false;
     out_finished := false |}.

Definition toy_device : Toy := {| toy_context := []; toy_journal := None; toy_time := 0; toy_cache := 0 |}.

(** The laws of [toy_laws], with the constraint [Some 0]. *)
Abbreviation toy_reaches early boot capacity tokens :=
  (reaches (F := binary64) (H2 := toy_policy) (Laws := toy_laws early boot capacity tokens)).
Abbreviation toy_place early boot capacity tokens := (first_place (Laws := toy_laws early boot capacity tokens) (Some 0)).

Definition toy_run (early boot : bool) (capacity tokens : Z) : Run (H0 := toy_ops early boot capacity) (H2 := toy_policy) :=
  new_run (H1 := toy_call early boot capacity tokens) (H2 := toy_policy) toy_device toy_output (Some 0) None make_state
    (new_stats (F := binary64)) (0, 0, 0).

Definition toy_resumed (k : nat) (early boot : bool) (capacity tokens : Z) :=
  resumed (F := binary64) (H1 := toy_call early boot capacity tokens) (H2 := toy_policy) k 0 [] (toy_run early boot capacity tokens).

Lemma toy_representable early boot :
  representable (H1 := toy_call early boot 40 9).
Proof. constructor; vm_compute; repeat split; discriminate. Qed.

Lemma toy_begun early boot capacity tokens :
  begun (H2 := toy_policy) (Laws := toy_laws early boot capacity tokens) (Some 0) toy_device
    (toy_run early boot capacity tokens).
Proof. split; [done|]. by repeat eexists. Qed.

(** Resuming the example leads to a state that is reached. *)
Lemma toy_reached k early boot capacity tokens n em :
  fst <$> toy_resumed k early boot capacity tokens = Some (n, em) ->
  exists s, toy_resumed k early boot capacity tokens = Some (n, em, s) /\
    toy_reaches early boot capacity tokens (toy_run early boot capacity tokens) n em s.
Proof.
  destruct (toy_resumed k early boot capacity tokens) as [[[n' em'] s]|] eqn:E; [|done]. intros [= -> ->].
  exists s. split; [done|]. exact (resumed_reaches (Laws := toy_laws early boot capacity tokens) _ k _ _ _ _ _ _ (reaches_start _) E).
Qed.

Definition toy_tokens : list Z := [2; 5; 4; 0; 1; 4; 0; 1; 4].

Lemma generation_is_plain_witness :
  (exists s, toy_reaches false false 40 9 (toy_run false false 40 9) 11 toy_tokens s) /\
  toy_tokens = plain_decode (Laws := toy_laws false false 40 9) 9 (toy_place false false 40 9).
Proof.
  destruct (toy_reached 13 false false 40 9 11 toy_tokens) as (s & _ & Hs); [vm_compute; reflexivity|].
  split; [by exists s|]. exact (generation_is_plain (Laws := toy_laws false false 40 9) (Some 0) toy_device _ _ _ _
    (toy_representable _ _) eq_refl (toy_begun _ _ _ _) Hs).
Defined.

(** After the second cycle the target is one token behind. *)
Lemma cache_follows_output_witness :
  exists s, toy_reaches true true 40 9 (toy_run true true 40 9) 8 [2; 5; 4] s /\
    exists m, toy_context (dev s) = toy_prompt ++ take m [2; 5; 4] /\ (3 <= S m)%nat.
Proof.
  destruct (toy_reached 8 true true 40 9 8 [2; 5; 4]) as (s & _ & Hs); [vm_compute; reflexivity|].
  exists s. split; [exact Hs|]. exact (proj1 (proj2 (cache_follows_output (Laws := toy_laws true true 40 9) (Some 0) toy_device _ _ _ _
    (toy_representable _ _) (toy_begun _ _ _ _) Hs ltac:(discriminate)))).
Defined.

Definition yields_boundary (o : outcome (Step)) : bool :=
  match o with Ok (Some (Progress _ b)) => b | _ => false end.

Lemma prefill_boundary_witness :
  exists s t s', toy_reaches false false 40 9 (toy_run false false 40 9) 5 [] s /\
    next (H1 := toy_call false false 40 9) s = (Ok (Some (Progress t true)), s') /\
    session_hidden s' = Some [toy_context (dev s')].
Proof.
  destruct (toy_reached 5 false false 40 9 5 []) as (s & E & Hs); [vm_compute; reflexivity|].
  assert (yields_boundary (from_option (fun x => (next (H1 := toy_call false false 40 9) x.2).1) (Ok None)
            (toy_resumed 5 false false 40 9)) = true) as Hb by (vm_compute; reflexivity).
  rewrite E in Hb. cbn [from_option snd] in Hb.
  destruct (next (H1 := toy_call false false 40 9) s) as [[[[t [|]|d]|]|e] s'] eqn:En; try discriminate Hb.
  exists s, t, s'. split; [exact Hs|]. split; [exact En|].
  exact (prefill_boundary (Laws := toy_laws false false 40 9) (Some 0) toy_device _ _ _ _ _ _ (toy_representable _ _)
    (toy_begun _ _ _ _) Hs En).
Defined.

(** The example ends at its limit, after eleven yields. *)
Lemma generation_ends_witness :
  exists s, toy_reaches false false 40 9 (toy_run false false 40 9) 11 toy_tokens s /\
    (11 <= Z.max (40 - 5) 2 + 2 * 5 + 3) /\ resume s = AtEnd /\
    (stopped (toy_request 9) (out s) = true \/ limit s <= 9).
Proof.
  destruct (toy_reached 13 false false 40 9 11 toy_tokens) as (s & E & Hs); [vm_compute; reflexivity|].
  assert (match toy_resumed 13 false false 40 9 with Some (_, _, s) => match resume s with AtEnd => true | _ => false end
          | None => false end = true) as He by (vm_compute; reflexivity).
  rewrite E in He. assert (resume s = AtEnd) as Hr by (by destruct (resume s)).
  destruct (generation_ends (Laws := toy_laws false false 40 9) (Some 0) toy_device _ _ _ _ (toy_representable _ _)
    (toy_begun _ _ _ _) Hs) as (Hn & _ & Hend).
  exists s. split; [exact Hs|]. split; [exact Hn|]. split; [exact Hr|]. exact (Hend Hr).
Defined.

(** With room for one token, the bootstrap after the first publication passes the limit. *)
Example bootstrap_passes_limit :
  (fun x => (x.1, limit x.2)) <$> toy_resumed 10 true true 6 9 = Some (8%nat, [2; 5], 1).
Proof. vm_compute. reflexivity. Qed.
