(* ===== verification/GenerationFlow.v ===== *)
(** * The generation of one request in its session ([engine/include/generation_flow.h])

    [generate_request] is a coroutine around another, plain or speculative: it admits the
    prompt, restores the longest prefix the session cache has, resumes the inner sequence,
    follows what it publishes, and stores snapshots of the model at the boundaries. As in
    [Generation], a frame holds the locals and the point of resumption. The session cache is
    that of [SessionCache]; the model, the predictor and the inner sequence are the class
    [FlowOps]. Traces are not modelled, and every exception counts as a [std::exception]. *)

From stdpp Require Import base list strings gmap.
From Stdlib Require Import ZArith Lia.
From S2P Require Import SnapshotCache SessionBindings PrefixCache PrefixService SessionCache Prelude Returns GenerationPolicy TextEmitter ChatDiff Inference Generation.

#[local] Set Default Proof Using "Type".
#[local] Open Scope Z_scope.

(** ** Requests that may be batched *)

(** What [batch_compatible] reads of an [EngineRequest]. *)
Record BatchInput := {
  bi_media : bool;
  bi_session : string;
  bi_token_ids : list Z;
  bi_stable_prefix : Z;
  bi_enable_mtp : bool;
}.

Definition batch_compatible (r : BatchInput) (persistent_prefix has_mtp : bool) : bool :=
  negb (bi_media r) && bool_decide (bi_session r = EmptyString) &&
  negb ((is_nil (bi_token_ids r) || negb (bi_stable_prefix r =? 0)) && persistent_prefix) &&
  negb (bi_enable_mtp r && has_mtp).

(** ** Parameters *)

(** [PrefillProgress] with [session_boundary], or [OutputDelta]. *)
Inductive FlowEvent {Ms : Type} :=
  | FProgress (t : Timing (Ms := Ms)) (session_boundary : bool)
  | FDelta (o : TokenOutput).
Arguments FlowEvent : clear implicits.

(** [StepResult<EventData>]. *)
Record FlowStep {Ms : Type} := { fs_state : StepState; fs_value : option (FlowEvent Ms) }.
Arguments FlowStep : clear implicits.

(** The prompt a processor prepared. *)
Record FlowPrompt := {
  fp_ids : list Z;
  fp_transformed : bool;
  fp_position_delta : Z;
  fp_cache_key : list Z;
}.

(** [request]: its prompt, plan and options, and the configuration. *)
Record FlowRequest := {
  fr_inference : InferenceRequest;
  fr_prompt : list Z;
  fr_session : string;
  fr_stable_prefix : Z;
  fr_enable_mtp : bool;
  fr_prepared : option FlowPrompt;
  fr_chunk_size : Z;
}.

(** [Ops]: its model and predictor, and what it constructs. A tensor of hidden states is of
    type [Hidden]; the inner sequence writes the last one to a variable of the caller. *)
Class FlowOps (D State MState Hidden Ms : Type) := {
  fo_vocab_size : Z;
  fo_max_position_embeddings : Z;
  fo_batched : bool;
  fo_has_mtp : bool;
  fo_cache_pos : D -> Z;
  fo_capture : list Z -> M D State;
  fo_capture_mtp : Z -> Hidden -> M D MState;
  fo_set_mtp : MState -> State -> State;
  fo_no_hidden : Hidden;
  fo_has_hidden : Hidden -> bool;
  fo_clear_stats : M D unit;
  fo_set_prefix_boundary : option (Z -> M D unit);
  fo_prepare_request : option (M D unit);
  fo_allow_prefix_restore : option (M D bool);
  fo_prepare_snapshot : option (M D bool);
  fo_invalidate_plan : M D unit;
  fo_reset : M D unit;
  fo_release : M D unit;
  (** The inner sequence: its construction, a resumption, and its destruction. *)
  fo_sequence : Type;
  fo_speculate : FlowRequest -> Z -> Z -> option Hidden -> M D fo_sequence;
  fo_plain : FlowRequest -> Z -> Z -> Z -> M D fo_sequence;
  fo_next : fo_sequence -> M (D * Output (Ms := Ms) * Hidden) (FlowStep Ms * fo_sequence);
  fo_destroy : fo_sequence -> D -> D;
}.

(** [sampling.max_tokens = n]. *)
Definition limit_tokens (n : Z) (r : InferenceRequest) : InferenceRequest :=
  {| benchmark_fixed_tokens := benchmark_fixed_tokens r; chat := chat r; continues := continues r;
     preserved_tokens := preserved_tokens r; req_stops := req_stops r; stop_token_ids := stop_token_ids r;
     max_tokens := n |}.

Section Flow.
Context {P D State MState Hidden Ms : Type}.
Context `{PagedCache P} `{Backend State MState} `{Device D State MState Hidden} `{FlowOps D State MState Hidden Ms}.
Context (iter : gmap string (list (SnapshotCache.Entry State)) -> list (string * list (SnapshotCache.Entry State))).
Context (visits : binding_order).
Context (request : FlowRequest) (tokenizer : option Tokenizer) (response_id : string)
  (parse_chat : bytes -> bool -> outcome Msg).

#[local] Notation Sess := (Session P D State).
#[local] Notation Out := (Output (Ms := Ms)).

(** ** The frame *)

Inductive FlowResume := FlowStart | InSequence | AfterTail | FlowEnd.

(** The locals that are set before the inner sequence starts. *)
Record FlowPlan := {
  pl_stable : Z;  (** [plan.stable_prefix_tokens] *)
  pl_key : list Z;  (** [input_key] *)
  pl_caching : bool;
  pl_use_mtp : bool;
  pl_restored : Z;  (** [restored.tokens] *)
}.

Record FlowFrame := {
  ff_resume : FlowResume;
  ff_plan : FlowPlan;
  ff_sequence : option fo_sequence;
  ff_history : list Z;
  ff_hidden : Hidden;  (** [last_target_hidden] *)
  ff_last_snapshot : Z;
  ff_attempted : bool;  (** [initial_snapshot_attempted] *)
  ff_cleanup : bool;  (** [cleanup.pending] *)
}.

Record FlowRun := {
  fw_session : Sess;
  fw_out : Out;
  fw_max_tokens : Z;  (** [request.sampling.max_tokens] *)
  fw_cleanup_failure : option exn;  (** [output.cleanup_failure] *)
  fw_frame : FlowFrame;
}.

Definition set_session (v : Sess) (s : FlowRun) : FlowRun :=
  {| fw_session := v; fw_out := fw_out s; fw_max_tokens := fw_max_tokens s;
     fw_cleanup_failure := fw_cleanup_failure s; fw_frame := fw_frame s |}.
Definition set_flow_out (v : Out) (s : FlowRun) : FlowRun :=
  {| fw_session := fw_session s; fw_out := v; fw_max_tokens := fw_max_tokens s;
     fw_cleanup_failure := fw_cleanup_failure s; fw_frame := fw_frame s |}.
Definition set_max_tokens (v : Z) (s : FlowRun) : FlowRun :=
  {| fw_session := fw_session s; fw_out := fw_out s; fw_max_tokens := v;
     fw_cleanup_failure := fw_cleanup_failure s; fw_frame := fw_frame s |}.
Definition set_cleanup_failure (v : option exn) (s : FlowRun) : FlowRun :=
  {| fw_session := fw_session s; fw_out := fw_out s; fw_max_tokens := fw_max_tokens s;
     fw_cleanup_failure := v; fw_frame := fw_frame s |}.
Definition on_frame (f : FlowFrame -> FlowFrame) (s : FlowRun) : FlowRun :=
  {| fw_session := fw_session s; fw_out := fw_out s; fw_max_tokens := fw_max_tokens s;
     fw_cleanup_failure := fw_cleanup_failure s; fw_frame := f (fw_frame s) |}.

Definition set_flow_resume (v : FlowResume) (f : FlowFrame) : FlowFrame :=
  {| ff_resume := v; ff_plan := ff_plan f; ff_sequence := ff_sequence f; ff_history := ff_history f;
     ff_hidden := ff_hidden f; ff_last_snapshot := ff_last_snapshot f; ff_attempted := ff_attempted f;
     ff_cleanup := ff_cleanup f |}.
Definition set_plan (v : FlowPlan) (f : FlowFrame) : FlowFrame :=
  {| ff_resume := ff_resume f; ff_plan := v; ff_sequence := ff_sequence f; ff_history := ff_history f;
     ff_hidden := ff_hidden f; ff_last_snapshot := ff_last_snapshot f; ff_attempted := ff_attempted f;
     ff_cleanup := ff_cleanup f |}.
Definition set_sequence (v : option fo_sequence) (f : FlowFrame) : FlowFrame :=
  {| ff_resume := ff_resume f; ff_plan := ff_plan f; ff_sequence := v; ff_history := ff_history f;
     ff_hidden := ff_hidden f; ff_last_snapshot := ff_last_snapshot f; ff_attempted := ff_attempted f;
     ff_cleanup := ff_cleanup f |}.
Definition set_flow_history (v : list Z) (f : FlowFrame) : FlowFrame :=
  {| ff_resume := ff_resume f; ff_plan := ff_plan f; ff_sequence := ff_sequence f; ff_history := v;
     ff_hidden := ff_hidden f; ff_last_snapshot := ff_last_snapshot f; ff_attempted := ff_attempted f;
     ff_cleanup := ff_cleanup f |}.
Definition set_last_hidden (v : Hidden) (f : FlowFrame) : FlowFrame :=
  {| ff_resume := ff_resume f; ff_plan := ff_plan f; ff_sequence := ff_sequence f; ff_history := ff_history f;
     ff_hidden := v; ff_last_snapshot := ff_last_snapshot f; ff_attempted := ff_attempted f;
     ff_cleanup := ff_cleanup f |}.
Definition set_last_snapshot (v : Z) (f : FlowFrame) : FlowFrame :=
  {| ff_resume := ff_resume f; ff_plan := ff_plan f; ff_sequence := ff_sequence f; ff_history := ff_history f;
     ff_hidden := ff_hidden f; ff_last_snapshot := v; ff_attempted := ff_attempted f;
     ff_cleanup := ff_cleanup f |}.
Definition set_attempted (v : bool) (f : FlowFrame) : FlowFrame :=
  {| ff_resume := ff_resume f; ff_plan := ff_plan f; ff_sequence := ff_sequence f; ff_history := ff_history f;
     ff_hidden := ff_hidden f; ff_last_snapshot := ff_last_snapshot f; ff_attempted := v;
     ff_cleanup := ff_cleanup f |}.
Definition set_cleanup (v : bool) (f : FlowFrame) : FlowFrame :=
  {| ff_resume := ff_resume f; ff_plan := ff_plan f; ff_sequence := ff_sequence f; ff_history := ff_history f;
     ff_hidden := ff_hidden f; ff_last_snapshot := ff_last_snapshot f; ff_attempted := ff_attempted f;
     ff_cleanup := v |}.

(** The frame before the first resumption. *)
Definition new_frame : FlowFrame :=
  {| ff_resume := FlowStart;
     ff_plan := {| pl_stable := 0; pl_key := []; pl_caching := false; pl_use_mtp := false; pl_restored := 0 |};
     ff_sequence := None; ff_history := []; ff_hidden := fo_no_hidden; ff_last_snapshot := 0; ff_attempted := false;
     ff_cleanup := false |}.

(** ** Calls on the parts *)

#[local] Notation Op := (N FlowRun).

Definition flow_session {A} (m : N Sess A) : Op A := fun s =>
  match m (fw_session s) with
  | Some (r, v) => Some (r, set_session v s)
  | None => None
  end.

Definition flow_device {A} (m : M D A) : Op A := flow_session (on_device m).

Definition flow_output {A} (m : M Out A) : Op A := fun s =>
  let '(r, o) := m (fw_out s) in Some (r, set_flow_out o s).

Definition frame_write (f : FlowFrame -> FlowFrame) : Op unit := write (on_frame f).

Definition optional {A} (f : option A) (use : A -> M D unit) : Op unit :=
  match f with Some f => flow_device (use f) | None => mret tt end.

(** The request, with the limit it now has. *)
Definition flow_request (s : FlowRun) : InferenceRequest := limit_tokens (fw_max_tokens s) (fr_inference request).

Definition flow_stopped (s : FlowRun) : bool := stopped (flow_request s) (fw_out s).

(** [co_yield]. *)
Definition flow_suspend (r : FlowResume) (result : FlowStep Ms) : Op (FlowStep Ms) :=
  frame_write (set_flow_resume r) ≫= fun _ => mret result.
Definition flow_ended : FlowStep Ms := {| fs_state := complete; fs_value := None |}.

(** [ExecutionCleanup::finish]. *)
Definition finish_cleanup : Op unit :=
  s ← read;
  if negb (ff_cleanup (fw_frame s)) then mret tt
  else
    frame_write (set_cleanup false) ≫= fun _ =>
    try_with (flow_device fo_release) (fun e => write (set_cleanup_failure (Some e)) ≫= fun _ => raise e).

(** The destruction of the frame: of the inner sequence, then of the cleanup, which
    swallows what [release] throws. *)
Definition destroy_frame : Op unit :=
  s ← read;
  (match ff_sequence (fw_frame s) with
   | Some q => flow_device (fun d => (Ok tt, fo_destroy q d))
   | None => mret tt
   end) ≫= fun _ =>
  try_with finish_cleanup (fun _ => mret tt) ≫= fun _ =>
  frame_write (fun f => set_flow_resume FlowEnd (set_sequence None f)).

(** [co_return] destroys the locals. *)
Definition flow_return : Op (FlowStep Ms) := destroy_frame ≫= fun _ => mret flow_ended.

(** ** Snapshots *)

(** The body of the [try]; the exception and the early returns skip the snapshot. *)
Definition take_snapshot (position : Z) : Op unit :=
  ready ← (match fo_prepare_snapshot with Some f => flow_device f | None => mret true end);
  if negb (ready : bool) then mret tt
  else
    s ← read;
    let f := fw_frame s in
    let plan := ff_plan f in
    st ← flow_device (fo_capture (take (Z.to_nat position) (ff_history f)));
    let st := set_input_key (pl_key plan) st in
    if pl_use_mtp plan && (negb (fo_has_hidden (ff_hidden f)) || (position <=? 1)) then mret tt
    else
      st ← (if pl_use_mtp plan
            then m ← flow_device (fo_capture_mtp position (ff_hidden f)); mret (fo_set_mtp m st)
            else mret st);
      flow_session (SessionCache.store iter visits (fr_session request) st) ≫= fun _ =>
      frame_write (set_last_snapshot (u64 position)).

Definition snapshot : Op unit :=
  s ← read;
  let f := fw_frame s in
  let position := fo_cache_pos (se_device (fw_session s)) in
  if negb (pl_caching (ff_plan f)) || cancelled (result (fw_out s)) || (position <=? 0) ||
     (size_of (ff_history f) <? u64 position) || (u64 position =? ff_last_snapshot f)
  then mret tt
  else try_with (take_snapshot position) (fun _ => mret tt).

(** ** The loop over the inner sequence *)

(** What a step of the inner sequence says, before it is passed on. *)
Definition observe (event : option (FlowEvent Ms)) : Op unit :=
  s ← read;
  let f := fw_frame s in
  let plan := ff_plan f in
  match event with
  | Some (FProgress t boundary) =>
      (if negb (pl_use_mtp plan) && pl_caching plan && (u64 (prompt_tokens t + pl_restored plan) =? pl_stable plan)
       then snapshot else mret tt) ≫= fun _ =>
      if boundary && pl_use_mtp plan && pl_caching plan && negb (ff_attempted f)
      then frame_write (set_attempted true) ≫= fun _ => snapshot
      else mret tt
  | Some (FDelta delta) =>
      frame_write (set_flow_history (ff_history f ++ token_ids delta)) ≫= fun _ =>
      if pl_use_mtp plan && pl_caching plan && negb (ff_attempted f)
      then frame_write (set_attempted true) ≫= fun _ => snapshot
      else mret tt
  | None => mret tt
  end.

(** The last snapshot and the cleanup. *)
Definition flow_finish : Op (FlowStep Ms) :=
  snapshot ≫= fun _ => finish_cleanup ≫= fun _ => flow_return.

(** The text the parser still holds, before the last snapshot. *)
Definition flow_tail : Op (FlowStep Ms) :=
  s ← read;
  if pl_caching (ff_plan (fw_frame s)) then
    tail ← flow_output (finish_output (flow_request s) tokenizer response_id parse_chat);
    if is_nil (diffs (tail : TokenOutput)) then flow_finish
    else flow_suspend AfterTail {| fs_state := advanced; fs_value := Some (FDelta tail) |}
  else flow_finish.

(** [sequence.next()]. *)
Definition sequence_next : Op (FlowStep Ms) := fun s =>
  match ff_sequence (fw_frame s) with
  | None => None
  | Some q =>
      let '(r, (d, o, h)) := fo_next q (se_device (fw_session s), fw_out s, ff_hidden (fw_frame s)) in
      let s := on_frame (set_last_hidden h) (set_flow_out o (set_session (SessionCache.set_device d (fw_session s)) s)) in
      Some (match r with
            | Ok (step, q) => (Ok step, on_frame (set_sequence (Some q)) s)
            | Throw e => (Throw e, s)
            end)
  end.

Definition flow_step : Op (FlowStep Ms) :=
  step ← sequence_next;
  match fs_state step with
  | complete => flow_tail
  | _ => observe (fs_value step) ≫= fun _ => flow_suspend InSequence step
  end.

(** ** The start *)

Definition occupied_tokens : Z :=
  s64 (size_of (fr_prompt request)) +
  match fr_prepared request with Some p => if fp_transformed p then fp_position_delta p else 0 | None => 0 end.

Definition input_key_of : list Z :=
  match fr_prepared request with Some p => fp_cache_key p | None => [] end.

(** Whether the session cache is used. *)
Definition caching_of (stable : Z) (s : Sess) : bool :=
  negb fo_batched && supports_text_session_state (se_device s) &&
  (match fr_prepared request with Some p => negb (fp_transformed p) || negb (is_nil input_key_of) | None => true end) &&
  (0 <? stable) && (negb (bool_decide (fr_session request = EmptyString)) || persistent_prefix_enabled s).

(** From the construction of the cleanup to the loop. *)
Definition flow_prepare (stable : Z) (caching use_mtp : bool) : Op unit :=
  optional fo_prepare_request (fun f => f) ≫= fun _ =>
  allowed ← (match fo_allow_prefix_restore with Some f => flow_device f | None => mret true end);
  s ← read;
  restored ← (if caching && (allowed : bool) && (negb use_mtp || mtp_supports_session_state (se_device (fw_session s)))
              then flow_session (restore_best iter visits use_mtp (fr_session request) (fr_prompt request) stable input_key_of)
              else mret nothing_restored);
  (if negb (re_tokens restored =? 0) || use_mtp then flow_device fo_invalidate_plan else mret tt) ≫= fun _ =>
  (if re_tokens restored =? 0 then flow_device fo_reset else mret tt) ≫= fun _ =>
  frame_write (fun f => set_flow_history (fr_prompt request) (set_plan
    {| pl_stable := stable; pl_key := input_key_of; pl_caching := caching; pl_use_mtp := use_mtp;
       pl_restored := re_tokens restored |} f)) ≫= fun _ =>
  s ← read;
  sequence ← flow_device (if use_mtp
    then fo_speculate request (fw_max_tokens s) (re_tokens restored) (re_hidden restored)
    else fo_plain request (fw_max_tokens s) (re_tokens restored) (if caching then stable else 0));
  frame_write (set_sequence (Some sequence)).

Definition flow_start : Op (FlowStep Ms) :=
  s ← read;
  if fr_chunk_size request <=? 0 then raise (InvalidArgument "prefill chunk size must be positive")
  else if (match fr_prepared request with Some p => negb (bool_decide (fp_ids p = fr_prompt request)) | None => false end)
  then raise (InvalidArgument "prepared prompt token IDs disagree")
  else
    plan ← of_outcome (plan_generation (fr_prompt request) fo_vocab_size fo_max_position_embeddings (fw_max_tokens s)
                         (fr_stable_prefix request) (Z.max (size_of (fr_prompt request)) occupied_tokens));
    write (set_max_tokens (generation_tokens plan)) ≫= fun _ =>
    s ← read;
    if flow_stopped s then flow_return
    else
      let stable := stable_prefix_tokens plan in
      let caching := caching_of stable (fw_session s) in
      let use_mtp := fo_has_mtp && fr_enable_mtp request && (1 <? generation_tokens plan) in
      optional fo_set_prefix_boundary
        (fun f => f (if caching then Z.min stable (size_of (fr_prompt request) - 1) else 0)) ≫= fun _ =>
      (if fo_has_mtp then flow_device fo_clear_stats else mret tt) ≫= fun _ =>
      frame_write (set_cleanup true) ≫= fun _ =>
      flow_prepare stable caching use_mtp ≫= fun _ => flow_step.

(** ** Resumption *)

Definition flow_resume_at (r : FlowResume) : Op (FlowStep Ms) :=
  match r with
  | FlowStart => flow_start
  | InSequence => flow_step
  | AfterTail => flow_finish
  | FlowEnd => mret flow_ended
  end.

(** [StepSequence::next]: an exception destroys the locals and ends the coroutine. *)
Definition flow_next : Op (FlowStep Ms) :=
  s ← read;
  try_with (flow_resume_at (ff_resume (fw_frame s))) (fun e => destroy_frame ≫= fun _ => raise e).

End Flow.

(** ** Media before the prompt

    [generate_prepared]: the media of a request are prepared in steps, then the prompt is
    generated. The preparation in progress is part of the world [W], until [po_drop]; the
    sequence that [ops.generate_text] returns is of type [Seq]. *)

Class PreparationOps (W Prepared Seq Ms : Type) := {
  po_prepare : M W unit;
  po_advance : M W (StepState * option Prepared * Ms);
  po_recover : option (exn -> bool -> M W unit);
  po_generate : option Prepared -> M (W * Output (Ms := Ms)) Seq;
  po_next : Seq -> M (W * Output (Ms := Ms)) (FlowStep Ms * Seq);
  (** The destruction of the preparation, if there is one, and of the sequence. *)
  po_drop : W -> W;
  po_destroy : Seq -> W -> W;
}.

Inductive PreparedResume := PrepareStart | InPreparation | AfterPreparation | InGeneration | PrepareEnd.

Record PrepareRun {W Prepared Seq Ms : Type} := {
  pr_world : W;
  pr_out : Output (Ms := Ms);
  pr_prepared : option Prepared;
  pr_reclaimed : bool;
  pr_sequence : option Seq;
  pr_resume : PreparedResume;
}.
Arguments PrepareRun : clear implicits.

Section Prepared.
Context {W Prepared Seq Ms : Type} (zero : Ms) (ms_add : Ms -> Ms -> Ms) `{PreparationOps W Prepared Seq Ms}.
Context (request : InferenceRequest) (vision : bool).

#[local] Notation PRun := (PrepareRun W Prepared Seq Ms).
#[local] Notation Op := (N PRun).

Definition set_world (w : W) (o : Output (Ms := Ms)) (s : PRun) : PRun :=
  {| pr_world := w; pr_out := o; pr_prepared := pr_prepared s; pr_reclaimed := pr_reclaimed s;
     pr_sequence := pr_sequence s; pr_resume := pr_resume s |}.
Definition set_prepared (v : option Prepared) (s : PRun) : PRun :=
  {| pr_world := pr_world s; pr_out := pr_out s; pr_prepared := v; pr_reclaimed := pr_reclaimed s;
     pr_sequence := pr_sequence s; pr_resume := pr_resume s |}.
Definition set_reclaimed (s : PRun) : PRun :=
  {| pr_world := pr_world s; pr_out := pr_out s; pr_prepared := pr_prepared s; pr_reclaimed := true;
     pr_sequence := pr_sequence s; pr_resume := pr_resume s |}.
Definition set_generation (v : option Seq) (s : PRun) : PRun :=
  {| pr_world := pr_world s; pr_out := pr_out s; pr_prepared := pr_prepared s; pr_reclaimed := pr_reclaimed s;
     pr_sequence := v; pr_resume := pr_resume s |}.
Definition set_prepared_resume (v : PreparedResume) (s : PRun) : PRun :=
  {| pr_world := pr_world s; pr_out := pr_out s; pr_prepared := pr_prepared s; pr_reclaimed := pr_reclaimed s;
     pr_sequence := pr_sequence s; pr_resume := v |}.

Definition on_world {A} (m : M W A) : Op A := fun s =>
  let '(r, w) := m (pr_world s) in Some (r, set_world w (pr_out s) s).
Definition on_generation {A} (m : M (W * Output (Ms := Ms)) A) : Op A := fun s =>
  let '(r, (w, o)) := m (pr_world s, pr_out s) in Some (r, set_world w o s).

Definition prepared_stopped (s : PRun) : bool := stopped request (pr_out s).

Definition prepared_suspend (r : PreparedResume) (step : FlowStep Ms) : Op (FlowStep Ms) :=
  write (set_prepared_resume r) ≫= fun _ => mret step.

Definition drop_preparation : Op unit := write (fun s => set_world (po_drop (pr_world s)) (pr_out s) s).

(** The destruction of the locals, at the end of the coroutine or with its frame. *)
Definition destroy_prepared : Op unit :=
  write (fun s =>
    let w := match pr_sequence s with Some q => po_destroy q (pr_world s) | None => pr_world s end in
    set_prepared_resume PrepareEnd (set_generation None (set_prepared None (set_world (po_drop w) (pr_out s) s)))).
Definition prepared_return : Op (FlowStep Ms) :=
  destroy_prepared ≫= fun _ => mret {| fs_state := complete; fs_value := None |}.

(** [output.metrics.multimodal_ms += elapsed]. *)
Definition add_media_ms (elapsed : Ms) (s : PRun) : PRun :=
  let m := metrics (pr_out s) in
  set_world (pr_world s) (set_metrics
    {| started := started m; first_token := first_token m; last_token := last_token m; prefill_tokens := prefill_tokens m;
       prefill_ms := prefill_ms m; media_ms := ms_add (media_ms m) elapsed; model_prefill_ms := model_prefill_ms m;
       saw_token := saw_token m; saw_prefill := saw_prefill m |} (pr_out s)) s.

(** The end of the media, or of the request. *)
Definition end_preparation : Op (FlowStep Ms) :=
  s ← read;
  if prepared_stopped s then prepared_return
  else
    let elapsed := media_ms (metrics (pr_out s)) in
    prepared_suspend AfterPreparation {| fs_state := advanced;
      fs_value := Some (FProgress {| prompt_tokens := 0; llm_ms := zero; multimodal_ms := elapsed; model_ms := elapsed |} false) |}.

(** A step of the preparation; what it threw, if anything, is kept. *)
Definition advance_preparation : Op (outcome (StepState * option Prepared * Ms)) := fun s =>
  let '(r, w) := po_advance (pr_world s) in Some (Ok r, set_world w (pr_out s) s).

(** The loop; a failure that is recovered from starts the preparation again. *)
Fixpoint prepare_loop (fuel : nat) : Op (FlowStep Ms) :=
  match fuel with
  | O => never
  | S fuel =>
      s ← read;
      if prepared_stopped s then end_preparation
      else
        step ← advance_preparation;
        match step with
        | Throw failure =>
            drop_preparation ≫= fun _ =>
            match po_recover with
            | None => raise failure
            | Some recover =>
                s ← read;
                on_world (recover failure (pr_reclaimed s)) ≫= fun _ =>
                write set_reclaimed ≫= fun _ =>
                on_world po_prepare ≫= fun _ => prepare_loop fuel
            end
        | Ok (state, value, elapsed) =>
            write (add_media_ms elapsed) ≫= fun _ =>
            match value, state with
            | Some prepared, _ => write (set_prepared (Some prepared)) ≫= fun _ => end_preparation
            | None, complete => raise (RuntimeError "media preparation returned no prompt")
            | None, _ => prepared_suspend InPreparation {| fs_state := state; fs_value := None |}
            end
        end
  end.

(** The media count into the prefill's time. *)
Definition add_media_time (media : Ms) (step : FlowStep Ms) : FlowStep Ms :=
  match fs_value step with
  | Some (FProgress t boundary) =>
      {| fs_state := fs_state step;
         fs_value := Some (FProgress {| prompt_tokens := prompt_tokens t; llm_ms := llm_ms t; multimodal_ms := media;
                                        model_ms := ms_add (model_ms t) media |} boundary) |}
  | _ => step
  end.

Definition generation_step : Op (FlowStep Ms) :=
  s ← read;
  match pr_sequence s with
  | None => never
  | Some q =>
      next ← on_generation (po_next q);
      write (set_generation (Some next.2)) ≫= fun _ =>
      s ← read;
      match fs_state next.1 with
      | complete => prepared_return
      | _ => prepared_suspend InGeneration (add_media_time (media_ms (metrics (pr_out s))) next.1)
      end
  end.

Definition begin_generation : Op (FlowStep Ms) :=
  s ← read;
  if prepared_stopped s then prepared_return
  else
    q ← on_generation (po_generate (pr_prepared s));
    write (set_generation (Some q)) ≫= fun _ => generation_step.

Definition prepare_resume_at (fuel : nat) (r : PreparedResume) : Op (FlowStep Ms) :=
  match r with
  | PrepareStart =>
      s ← read;
      if vision && negb (prepared_stopped s) then on_world po_prepare ≫= fun _ => prepare_loop fuel
      else begin_generation
  | InPreparation => prepare_loop fuel
  | AfterPreparation => drop_preparation ≫= fun _ => begin_generation
  | InGeneration => generation_step
  | PrepareEnd => mret {| fs_state := complete; fs_value := None |}
  end.

(** A backend recovers from one failure, then passes it on: two turns are enough. *)
Definition preparation_fuel : nat := 2.

Definition prepared_next : Op (FlowStep Ms) :=
  s ← read;
  try_with (prepare_resume_at preparation_fuel (pr_resume s)) (fun e => destroy_prepared ≫= fun _ => raise e).

(** ** A resumption returns *)

#[local] Set Default Proof Using "All".

Lemma end_preparation_returns (s : PRun) : end_preparation s <> None.
Proof. unfold end_preparation, mbind, N_bind, read. by destruct (prepared_stopped s). Qed.

(** A preparation whose recovery gives up the second time is stopped, has advanced or
    throws within its fuel. *)
Lemma prepare_loop_returns :
  (forall recover e w, po_recover = Some recover -> exists e' w', recover e true w = (Throw e', w')) ->
  forall s : PRun, prepare_loop preparation_fuel s <> None.
Proof.
  intros Hgive.
  assert (forall fuel (s : PRun), (pr_reclaimed s = false -> forall s', pr_reclaimed s' = true -> prepare_loop fuel s' <> None) ->
    prepare_loop (S fuel) s <> None) as Hstep.
  { intros fuel s Hnext. cbn [prepare_loop]. change ((read ≫= ?k) s) with (k s s). cbv beta.
    destruct (prepared_stopped s); [apply end_preparation_returns|]. unfold advance_preparation, mbind, N_bind at 1.
    destruct (po_advance (pr_world s)) as [[[[state value] elapsed]|e] w].
    - cbn [write]. destruct value as [p|]; [apply end_preparation_returns|by destruct state].
    - unfold N_bind, drop_preparation, write, read, on_world. cbn [pr_world pr_out set_world]. set (w' := po_drop w).
      destruct po_recover as [recover|] eqn:Hr; [|done]. cbn [pr_reclaimed pr_world pr_out set_world].
      destruct (pr_reclaimed s) eqn:Hrec.
      + destruct (Hgive recover e w' eq_refl) as (e' & w1 & Hw). by rewrite Hw.
      + destruct (recover e false w') as [[?|?] w1]; [|done]. cbn [pr_world pr_out set_world set_reclaimed].
        destruct (po_prepare w1) as [[?|?] w2]; [|done]. by apply Hnext. }
  intros s. apply Hstep. intros _ s1 Hs1. apply Hstep. by rewrite Hs1.
Qed.
End Prepared.
