(* ===== verification/GenerationFlowLaws.v ===== *)
(** * Requests keep the sessions genuine

    [requests_keep_sessions]: the states that [GenerationFlow.generate_request] stores are
    those the model has computed, for the tokens it is stored under: the first tokens of
    the prompt and of what was published. So whatever requests ran, finished, failed or
    were dropped, on a session cache, a restore gives the model a computed state of the
    prompt's first tokens. The inner sequence is a parameter that keeps the model behind
    what it publishes ([FlowLaws]), as [SpeculativeLossless] proves of the speculative one. *)

From stdpp Require Import base list sets strings gmap.
From Stdlib Require Import ZArith Lia.
From S2P Require Import SnapshotCache SessionBindings LittleEndian BlockFile PrefixCacheSteps PrefixService SessionCache SessionCacheLaws SessionRuns Prelude Returns GenerationPolicy TextEmitter ChatDiff Inference Generation GenerationFlow.

#[local] Set Default Proof Using "Type".
#[local] Open Scope Z_scope.

(** The tokens an event publishes. *)
Definition published {Ms} (event : option (FlowEvent Ms)) : list Z :=
  match event with Some (FDelta o) => token_ids o | _ => [] end.

Section Requests.
Context {P D State MState Hidden Ms : Type}.
Context `{Hlaws : PagedLaws P} `{Hbackend : Backend State MState} `{Hdevice : Device D State MState Hidden}.
Context `{Hflow : !FlowOps D State MState Hidden Ms}.
Context (iter : gmap string (list (Entry State)) -> list (string * list (Entry State))).
Context (Hiter : forall m, iter m ≡ₚ map_to_list m).
Context (visits : binding_order).
Context (n : Namespace) (Hbs : 0 < block_size_tokens n).
Context (computed : State -> Prop) (texts : list (list Z * list Z)).
Context (codec : CodecLaws n computed) (distinct : Texts n texts).
Context (tokenizer : option Tokenizer) (response_id : string) (parse_chat : bytes -> bool -> outcome Msg).

#[local] Notation Sess := (Session P D State).
#[local] Notation Run := (FlowRun (P := P) (D := D) (State := State) (MState := MState) (Hidden := Hidden) (Ms := Ms)).
#[local] Notation ok := (good n computed texts).
#[local] Notation at_dev := (at_device n computed texts).

(** ** What is assumed of the model and the inner sequences

    [computes mtp d key tokens hidden]: the model, and the predictor if [mtp], are in the state
    of having computed these tokens with this media, and [hidden] is what a predictor was
    restored with. [follows mtp q key history d hidden]: the inner sequence [q] has the
    model behind this history. *)
Context (computes : bool -> D -> list Z -> list Z -> option Hidden -> Prop).
Context (follows : bool -> fo_sequence -> list Z -> list Z -> D -> Hidden -> Prop).

(** What a call on the device keeps, whether it throws or not. *)
Definition keeps_following {A} (m : M D A) : Prop :=
  forall mtp q key history d hidden, follows mtp q key history d hidden ->
    follows mtp q key history (m d).2 hidden /\ fo_cache_pos (m d).2 = fo_cache_pos d.

(** The first tokens of the history that are in the model's cache. *)
Definition behind (history : list Z) (d : D) : Prop := 0 < fo_cache_pos d <= size_of history.

Record FlowLaws : Prop := {
  fl_given mtp st d d' hidden :
    computed st -> given mtp st d d' hidden -> computes mtp d' (input_key st) (snap_tokens st) hidden;
  fl_reset mtp key d d' : fo_reset d = (Ok tt, d') -> computes mtp d' key [] None;
  fl_invalidate mtp key tokens d d' hidden :
    computes mtp d key tokens hidden -> fo_invalidate_plan d = (Ok tt, d') -> computes mtp d' key tokens hidden;
  fl_plain request limit reused stable d d' q hidden hidden' :
    let key := input_key_of request in
    let prompt := fr_prompt request in
    (key, prompt) ∈ texts -> computes false d key (take (Z.to_nat reused) prompt) hidden ->
    fo_plain request limit reused stable d = (Ok q, d') -> follows false q key prompt d' hidden';
  fl_speculate request limit reused d d' q hidden hidden' :
    let key := input_key_of request in
    let prompt := fr_prompt request in
    (key, prompt) ∈ texts -> computes true d key (take (Z.to_nat reused) prompt) hidden ->
    fo_speculate request limit reused hidden d = (Ok q, d') -> follows true q key prompt d' hidden';
  fl_next mtp q key history d o hidden step q' d' o' hidden' :
    follows mtp q key history d hidden -> fo_next q (d, o, hidden) = (Ok (step, q'), (d', o', hidden')) ->
    follows mtp q' key (history ++ published (fs_value step)) d' hidden';
  fl_ended q w step q' w' :
    fo_next q w = (Ok (step, q'), w') -> fs_state step = complete -> fs_value step = None;
  fl_text mtp q key history d hidden :
    follows mtp q key history d hidden -> behind history d ->
    (key, take (Z.to_nat (fo_cache_pos d)) history) ∈ texts;
  fl_position mtp q key history d hidden : follows mtp q key history d hidden -> in_s64 (fo_cache_pos d);
  fl_prepare_snapshot m : fo_prepare_snapshot = Some m -> keeps_following m;
  fl_capture_keeps tokens : keeps_following (fo_capture tokens);
  fl_capture_mtp_keeps position hidden : keeps_following (fo_capture_mtp position hidden);
  (** What is captured is computed. *)
  fl_capture q key history d hidden st d' :
    follows false q key history d hidden -> behind history d ->
    fo_capture (take (Z.to_nat (fo_cache_pos d)) history) d = (Ok st, d') ->
    computed (set_input_key key st) /\
    SessionCacheLaws.text_of (set_input_key key st) = (key, take (Z.to_nat (fo_cache_pos d)) history);
  fl_capture_mtp q key history d hidden st d' m d'' :
    follows true q key history d hidden -> behind history d -> fo_has_hidden hidden = true -> 1 < fo_cache_pos d ->
    fo_capture (take (Z.to_nat (fo_cache_pos d)) history) d = (Ok st, d') ->
    fo_capture_mtp (fo_cache_pos d) hidden d' = (Ok m, d'') ->
    computed (fo_set_mtp m (set_input_key key st)) /\
    SessionCacheLaws.text_of (fo_set_mtp m (set_input_key key st)) = (key, take (Z.to_nat (fo_cache_pos d)) history);
}.

Context (laws : FlowLaws).
#[local] Set Default Proof Using "All".

(** ** The invariant of a coroutine *)

Definition device_of (s : Run) : D := se_device (fw_session s).

Definition with_device (d : D) (s : Run) : Run := set_session (SessionCache.set_device d (fw_session s)) s.

(** The inner sequence is there, and follows a history. *)
Definition following (history : list Z) (s : Run) : Prop :=
  exists q, ff_sequence (fw_frame s) = Some q /\
    follows (pl_use_mtp (ff_plan (fw_frame s))) q (pl_key (ff_plan (fw_frame s))) history (device_of s) (ff_hidden (fw_frame s)).

Record underway (s : Run) : Prop := {
  uw_good : ok (fw_session s);
  uw_follows : following (ff_history (fw_frame s)) s;
}.

Definition sound (s : Run) : Prop :=
  ok (fw_session s) /\
  match ff_resume (fw_frame s) with InSequence | AfterTail => underway s | FlowStart | FlowEnd => True end.

Definition kept (s : Run) : Prop := ok (fw_session s).

Lemma underway_kept s : underway s -> kept s.
Proof. by intros []. Qed.

(** ** Calls on the parts *)

Lemma flow_session_spec {A} s (m : N Sess A) Q X :
  spec (eq (fw_session s)) m Q X ->
  spec (eq s) (flow_session m : N Run A)
    (fun a s' => exists v, s' = set_session v s /\ Q a v) (fun s' => exists v, s' = set_session v s /\ X v).
Proof.
  intros Hm ? <-. specialize (Hm (fw_session s) eq_refl). unfold flow_session.
  destruct (m (fw_session s)) as [[[a|e] v]|]; [by exists v|by exists v|done].
Qed.

Lemma flow_device_spec {A} s (m : M D A) :
  spec (eq s) (flow_device m : N Run A)
    (fun a s' => m (device_of s) = (Ok a, (m (device_of s)).2) /\ s' = with_device (m (device_of s)).2 s)
    (fun s' => s' = with_device (m (device_of s)).2 s).
Proof.
  intros ? <-. unfold flow_device, flow_session, on_device, with_device, device_of.
  by destruct (m (se_device (fw_session s))) as [[a|e] d].
Qed.

Lemma kept_device d s : kept s -> kept (with_device d s).
Proof. intros Hs. by eapply good_device. Qed.

Lemma kept_device_spec {A} (m : M D A) : spec kept (flow_device m : N Run A) (fun _ => kept) kept.
Proof.
  apply spec_each. intros s Hs. eapply spec_weaken; [apply flow_device_spec|done|..].
  - intros a ? [_ ->]. by apply kept_device.
  - intros ? ->. by apply kept_device.
Qed.

Lemma kept_frame_spec f : spec kept (frame_write f : N Run unit) (fun _ => kept) kept.
Proof. by apply spec_write. Qed.

Lemma finish_cleanup_spec : spec kept (finish_cleanup : N Run unit) (fun _ => kept) kept.
Proof.
  apply spec_each. intros s Hs. apply spec_seq_read. apply (spec_start _ _ _ _ _ Hs).
  destruct (negb _); [by apply spec_ret|]. apply (spec_bind _ _ _ (fun _ => kept)); [apply kept_frame_spec|].
  intros ?. eapply spec_try; [apply kept_device_spec|]. intros e.
  apply (spec_bind _ _ _ (fun _ => kept)); [by apply spec_write|]. intros ?. by apply spec_raise.
Qed.

(** A call that keeps the sequence behind its history. *)
Lemma underway_device {A} (m : M D A) : keeps_following m ->
  forall s, underway s -> underway (with_device (m (device_of s)).2 s) /\
    fo_cache_pos (m (device_of s)).2 = fo_cache_pos (device_of s).
Proof.
  intros Hm s [Hs (q & Hq & Hf)]. destruct (Hm _ _ _ _ _ _ Hf) as [Hf' Hpos]. split; [|done].
  split; [by apply kept_device|]. exists q. by split.
Qed.

(** ** Snapshots *)

(** A frame whose sequence, plan, history and hidden state are as they were. *)
Definition same_following (f f' : FlowFrame (Hidden := Hidden)) : Prop :=
  ff_sequence f' = ff_sequence f /\ ff_plan f' = ff_plan f /\ ff_history f' = ff_history f /\ ff_hidden f' = ff_hidden f.

Lemma underway_frame g s : same_following (fw_frame s) (g (fw_frame s)) -> underway s -> underway (on_frame g s).
Proof.
  intros (E1 & E2 & E3 & E4) [Hs (q & Hq & Hf)]. split; [done|]. exists q. cbn. rewrite E1, E2, E3, E4. by split.
Qed.

Lemma underway_frame_spec g : 
  (forall f, same_following f (g f)) -> spec underway (frame_write g : N Run unit) (fun _ => underway) underway.
Proof. intros Hg. apply spec_write. intros s Hs. by apply underway_frame. Qed.

(** A call on the device that keeps the sequence behind its history, from a known state. *)
Lemma underway_device_spec {A} (m : M D A) s :
  keeps_following m -> underway s ->
  spec (eq s) (flow_device m : N Run A)
    (fun a s' => underway s' /\ fw_frame s' = fw_frame s /\ fo_cache_pos (device_of s') = fo_cache_pos (device_of s) /\
       m (device_of s) = (Ok a, device_of s')) underway.
Proof.
  intros Hm Hs. destruct (underway_device m Hm s Hs) as [Hs' Hpos].
  eapply spec_weaken; [apply flow_device_spec|done| |by intros ? ->].
  intros a ? [Ha ->]. by split_and!.
Qed.

Lemma underway_store id st s :
  underway s -> computed st -> SessionCacheLaws.text_of st ∈ texts ->
  spec (eq s) (flow_session (SessionCache.store iter visits id st) : N Run unit) (fun _ => underway) underway.
Proof.
  intros Hs Hst Htext. pose proof Hs as [Hok (q & Hq & Hf)].
  assert (forall v, at_dev (device_of s) v -> underway (set_session v s)) as Hset.
  { intros v [Hv Hd]. split; [done|]. exists q. split; [done|]. unfold device_of. cbn. by rewrite Hd. }
  eapply spec_weaken; [apply flow_session_spec, (spec_start (at_dev (device_of s))); [done|]|done|..].
  - by apply store_spec.
  - intros [] ? (v & -> & Hv). by apply Hset.
  - intros ? (v & -> & Hv). by apply Hset.
Qed.

Lemma take_snapshot_spec request s :
  underway s -> behind (ff_history (fw_frame s)) (device_of s) ->
  spec (eq s) (take_snapshot iter visits request (fo_cache_pos (device_of s)) : N Run unit) (fun _ => underway) underway.
Proof.
  intros Hs Hpos. unfold take_snapshot. set (position := fo_cache_pos (device_of s)) in *.
  eapply (spec_seq _ _ _ (fun _ s1 => underway s1 /\ fw_frame s1 = fw_frame s /\ fo_cache_pos (device_of s1) = position) underway).
  { destruct fo_prepare_snapshot as [m|] eqn:Hm; [|by apply spec_done].
    eapply spec_weaken; [apply underway_device_spec; [by apply fl_prepare_snapshot|done]|done| |done].
    by intros ? ? (? & ? & ? & _). }
  { done. }
  intros ready s1 (Hs1 & Ef & Ep). destruct (negb ready); [by apply spec_done|]. apply spec_seq_read. rewrite Ef. cbv zeta.
  assert (behind (ff_history (fw_frame s)) (device_of s1)) as Hpos1 by (unfold behind in *; by rewrite Ep).
  eapply spec_seq; [apply underway_device_spec; [apply (fl_capture_keeps laws)|done]|done|].
  intros st s2 (Hs2 & Ef2 & Ep2 & Hcap). rewrite Ef in Ef2. rewrite <- Ep in Hcap.
  destruct (uw_follows _ Hs1) as (q & Hq & Hf). rewrite Ef in Hf.
  pose proof (fl_text laws _ _ _ _ _ _ Hf Hpos1) as Htext.
  destruct (pl_use_mtp (ff_plan (fw_frame s))) eqn:Hmtp; cbn [andb].
  - destruct (negb _ || (position <=? 1)) eqn:Hguard; [by apply spec_done|].
    apply orb_false_iff in Hguard as [Hhid%negb_false_iff Hone%Z.leb_gt].
    eapply spec_seq.
    { eapply spec_seq; [apply underway_device_spec; [apply (fl_capture_mtp_keeps laws)|done]|done|].
      intros m s3 (Hs3 & Ef3 & Ep3 & Hcap3).
      apply (spec_done _ _ (fun st' s' => underway s' /\ computed st' /\ SessionCacheLaws.text_of st' ∈ texts) underway).
      rewrite <- Ep, <- Ep2 in Hcap3. rewrite Ep2 in Hcap3.
      destruct (fl_capture_mtp laws _ _ _ _ _ _ _ _ _ Hf Hpos1 Hhid ltac:(by rewrite Ep) Hcap Hcap3) as [? E].
      rewrite E. by split_and!. }
    { done. }
    intros st' s3 (Hs3 & Hst & Htx). eapply spec_seq; [by apply underway_store|done|].
    intros [] s4 Hs4. apply (spec_start _ _ _ _ _ Hs4). by apply underway_frame_spec.
  - destruct (fl_capture laws _ _ _ _ _ _ _ Hf Hpos1 Hcap) as [Hst E].
    eapply spec_seq; [by apply (spec_done _ _ (fun st' s' => s' = s2 /\ st' = set_input_key (pl_key (ff_plan (fw_frame s))) st) underway)|done|].
    intros ? ? [-> ->]. eapply spec_seq; [apply underway_store; [done|done|by rewrite E]|done|].
    intros [] s4 Hs4. apply (spec_start _ _ _ _ _ Hs4). by apply underway_frame_spec.
Qed.

Lemma snapshot_spec request : spec underway (snapshot iter visits request : N Run unit) (fun _ => underway) underway.
Proof.
  apply spec_each. intros s Hs. apply spec_seq_read. cbv zeta.
  destruct (_ || _ || _ || _ || _) eqn:Hguard; [by apply spec_done|].
  apply orb_false_iff in Hguard as [Hguard _]. apply orb_false_iff in Hguard as [Hguard Hsize%Z.ltb_ge].
  apply orb_false_iff in Hguard as [_ Hpos%Z.leb_gt].
  eapply spec_try; [apply take_snapshot_spec; [done|]|intros ?; by apply spec_ret].
  destruct (uw_follows _ Hs) as (q & _ & Hf). apply (fl_position laws) in Hf as [_ Hmax]. unfold device_of, behind in *. split; [done|].
  unfold u64 in Hsize. rewrite Z.mod_small in Hsize; unfold s64_max in *; lia.
Qed.

(** ** The loop *)

(** The inner sequence has published more than the history says yet. *)
Definition ahead (more : list Z) (s : Run) : Prop :=
  ok (fw_session s) /\ following (ff_history (fw_frame s) ++ more) s.

Lemma ahead_nothing s : ahead [] s -> underway s.
Proof. intros [Hs Hf]. rewrite app_nil_r in Hf. by split. Qed.

Lemma attempt_spec request :
  spec underway (frame_write (set_attempted true) ≫= fun _ => snapshot iter visits request : N Run unit) (fun _ => underway) underway.
Proof.
  apply (spec_bind _ _ _ (fun _ => underway)); [by apply underway_frame_spec|]. intros ?. apply snapshot_spec.
Qed.

Lemma observe_spec request event :
  spec (ahead (published event)) (observe iter visits request event : N Run unit) (fun _ => underway) kept.
Proof.
  apply spec_each. intros s Hs. apply spec_seq_read. cbv zeta. destruct event as [[t boundary|o]|]; cbn [published] in Hs.
  - apply ahead_nothing in Hs. apply (spec_start _ _ _ _ _ Hs).
    eapply spec_weaken; [|done|intros ?? H1; exact H1|apply underway_kept].
    apply (spec_bind _ _ _ (fun _ => underway)).
    + destruct (_ && _); [apply snapshot_spec|by apply spec_ret].
    + intros ?. destruct (_ && _); [apply attempt_spec|by apply spec_ret].
  - eapply spec_weaken; [|done|intros ?? H1; exact H1|apply underway_kept].
    apply (spec_seq _ _ _ (fun _ => underway) (fun _ => False)); [|done|].
    + intros ? <-. destruct Hs as [Hs Hf]. split; [done|]. exact Hf.
    + intros [] s1 Hs1. apply (spec_start _ _ _ _ _ Hs1). destruct (_ && _); [apply attempt_spec|by apply spec_ret].
  - apply spec_done. by apply ahead_nothing.
Qed.

Lemma sequence_next_spec :
  spec underway (sequence_next : N Run (FlowStep Ms)) 
    (fun step s => ahead (published (fs_value step)) s /\ (fs_state step = complete -> fs_value step = None)) kept.
Proof.
  intros s [Hs (q & Hq & Hf)]. unfold sequence_next. rewrite Hq. unfold device_of in Hf.
  destruct (fo_next q _) as [r [[d o] h]] eqn:Hn. destruct r as [[step q']|e].
  - split; [|by eapply (fl_ended laws)]. split; [by eapply good_device|]. exists q'. split; [done|]. by eapply (fl_next laws).
  - by eapply good_device.
Qed.

Lemma suspend_spec (R : Run -> Prop) r step :
  (forall s, R s -> sound (on_frame (set_flow_resume r) s)) ->
  spec R (flow_suspend r step : N Run (FlowStep Ms)) (fun _ => sound) kept.
Proof. intros HR s Hs. by apply HR. Qed.

Lemma destroy_spec : spec kept (destroy_frame : N Run unit) (fun _ => sound) (fun _ => False).
Proof.
  apply spec_each. intros s Hs. apply spec_seq_read. apply (spec_start _ _ _ _ _ Hs).
  apply (spec_bind _ _ _ (fun _ => kept)).
  { destruct (ff_sequence _); [|by apply spec_ret]. intros s1 Hs1. by eapply good_device. }
  intros ?. apply (spec_bind _ _ _ (fun _ => kept)); [eapply spec_try; [apply finish_cleanup_spec|intros ?; by apply spec_ret]|]. intros ?.
  apply spec_write. intros s1 Hs1. by split.
Qed.

Lemma return_spec : spec kept (flow_return : N Run (FlowStep Ms)) (fun _ => sound) kept.
Proof.
  apply (spec_bind _ _ _ (fun _ => sound)); [|intros ?; by apply spec_ret].
  eapply spec_weaken; [apply destroy_spec|done|done|by intros ? []].
Qed.

Lemma flow_finish_spec request : spec underway (flow_finish iter visits request : N Run (FlowStep Ms)) (fun _ => sound) kept.
Proof.
  apply (spec_bind _ _ _ (fun _ => kept)).
  - eapply spec_weaken; [apply snapshot_spec|done|intros ? s; apply underway_kept|apply underway_kept].
  - intros ?. apply (spec_bind _ _ _ (fun _ => kept)); [apply finish_cleanup_spec|]. intros ?. apply return_spec.
Qed.

Lemma flow_output_spec {A} (m : M (Output (Ms := Ms)) A) : spec underway (flow_output m : N Run A) (fun _ => underway) underway.
Proof.
  intros s [Hs Hf]. unfold flow_output. destruct (m (fw_out s)) as [[a|e] o]; by split.
Qed.

Lemma flow_tail_spec request :
  spec underway (flow_tail iter visits request tokenizer response_id parse_chat : N Run (FlowStep Ms)) (fun _ => sound) kept.
Proof.
  apply spec_each. intros s Hs. apply spec_seq_read. apply (spec_start _ _ _ _ _ Hs).
  destruct (pl_caching _); [|apply flow_finish_spec].
  apply (spec_bind _ _ _ (fun _ => underway)).
  { eapply spec_weaken; [apply flow_output_spec|done|intros ?? H1; exact H1|apply underway_kept]. }
  intros tail. destruct (is_nil _); [apply flow_finish_spec|]. apply suspend_spec.
  intros s1 Hs1. split; [apply Hs1|]. by apply underway_frame.
Qed.

Lemma flow_step_spec request :
  spec underway (flow_step iter visits request tokenizer response_id parse_chat : N Run (FlowStep Ms)) (fun _ => sound) kept.
Proof.
  eapply spec_bind; [apply sequence_next_spec|]. intros step. apply spec_each. intros s [Hs Hend].
  assert (spec (ahead (published (fs_value step)))
    (observe iter visits request (fs_value step) ≫= fun _ => flow_suspend InSequence step : N Run (FlowStep Ms)) (fun _ => sound) kept) as Hgo.
  { eapply spec_bind; [apply observe_spec|]. intros ?. apply suspend_spec. intros s1 Hs1. split; [apply Hs1|]. by apply underway_frame. }
  destruct (fs_state step); [by apply (spec_start _ _ _ _ _ Hs)..|]. rewrite Hend in Hs by done.
  apply ahead_nothing in Hs. apply (spec_start _ _ _ _ _ Hs), flow_tail_spec.
Qed.

(** ** The start *)

Lemma kept_optional {A} (f : option A) use : spec kept (optional f use : N Run unit) (fun _ => kept) kept.
Proof. destruct f; [apply kept_device_spec|by apply spec_ret]. Qed.

(** What the model was given for the first tokens of the prompt. *)
Definition prepared_for (use_mtp : bool) (key prompt : list Z) (r : Restore Hidden) (s : Run) : Prop :=
  kept s /\ computes use_mtp (device_of s) key (take (Z.to_nat (re_tokens r)) prompt) (re_hidden r).

(** A restore has restored a prefix, or nothing. *)
Definition restored_for (use_mtp : bool) (key prompt : list Z) (r : Restore Hidden) (s : Run) : Prop :=
  kept s /\ (r = nothing_restored \/ (re_tokens r <> 0 /\ prepared_for use_mtp key prompt r s)).

Lemma restore_for_spec use_mtp session prompt stable key s :
  kept s -> (key, prompt) ∈ texts ->
  spec (eq s) (flow_session (restore_best iter visits use_mtp session prompt stable key) : N Run (Restore Hidden))
    (restored_for use_mtp key prompt) kept.
Proof.
  intros Hs Htext. eapply spec_weaken; [apply flow_session_spec, (spec_start (at_dev (device_of s))); [by split|]|done|..].
  - by apply (restore_best_spec iter Hiter visits n Hbs computed texts codec distinct).
  - intros r ? (v & -> & Hv & [[-> _]|[Hr (st & d1 & Hst & Hkey & Htokens & _ & Hgiven)]]); (split; [done|]); [by left|right].
    split; [lia|]. split; [done|]. rewrite <- Hkey, <- Htokens. by eapply (fl_given laws).
  - by intros ? (v & -> & Hv).
Qed.

(** The plan is dropped. *)
Lemma invalidate_spec use_mtp key prompt (r : Restore Hidden) :
  spec (restored_for use_mtp key prompt r)
    (if negb (re_tokens r =? 0) || use_mtp then flow_device fo_invalidate_plan else mret tt : N Run unit)
    (fun _ => restored_for use_mtp key prompt r) kept.
Proof.
  destruct (_ || _); [|by apply spec_ret]. apply spec_each. intros s [Hs Hr].
  eapply spec_weaken; [apply flow_device_spec|done|intros [] ? [E ->]|intros ? ->; by apply kept_device].
  split; [by apply kept_device|]. destruct Hr as [->|[Hne [_ Hc]]]; [by left|right].
  split; [done|]. split; [by apply kept_device|]. by eapply (fl_invalidate laws).
Qed.

(** A model nothing was restored to is reset. *)
Lemma reset_spec use_mtp key prompt (r : Restore Hidden) :
  spec (restored_for use_mtp key prompt r)
    (if re_tokens r =? 0 then flow_device fo_reset else mret tt : N Run unit)
    (fun _ => prepared_for use_mtp key prompt r) kept.
Proof.
  apply spec_each. intros s [Hs [->|[Hne Hr]]].
  - cbn [re_tokens nothing_restored Z.eqb].
    eapply spec_weaken; [apply flow_device_spec|done|intros [] ? [E ->]|intros ? ->; by apply kept_device].
    split; [by apply kept_device|]. by apply (fl_reset laws use_mtp key) in E.
  - rewrite (proj2 (Z.eqb_neq _ _) Hne). by apply spec_done.
Qed.

Lemma construct_spec use_mtp request limit stable (r : Restore Hidden) s :
  let key := input_key_of request in
  let prompt := fr_prompt request in
  prepared_for use_mtp key prompt r s -> (key, prompt) ∈ texts ->
  pl_use_mtp (ff_plan (fw_frame s)) = use_mtp -> pl_key (ff_plan (fw_frame s)) = key -> ff_history (fw_frame s) = prompt ->
  spec (eq s) (sequence ← flow_device (if use_mtp then fo_speculate request limit (re_tokens r) (re_hidden r)
                                       else fo_plain request limit (re_tokens r) stable);
               frame_write (set_sequence (Some sequence)) : N Run unit) (fun _ => underway) kept.
Proof.
  intros key prompt [Hs Hc] Htext E1 E2 E3. eapply spec_seq; [apply flow_device_spec|intros ? ->; by apply kept_device|].
  intros q ? [E ->] ? <-. split; [by apply kept_device|]. exists q. split; [done|]. cbn. rewrite E1, E2, E3.
  set (d' := snd _) in *. clearbody d'. destruct use_mtp; [by eapply (fl_speculate laws)|by eapply (fl_plain laws)].
Qed.

Lemma flow_prepare_spec request stable caching use_mtp :
  (input_key_of request, fr_prompt request) ∈ texts ->
  spec kept (flow_prepare iter visits request stable caching use_mtp : N Run unit) (fun _ => underway) kept.
Proof.
  intros Htext. apply (spec_bind _ _ _ (fun _ => kept)); [apply kept_optional|]. intros ?.
  apply (spec_bind _ _ _ (fun _ => kept)); [destruct fo_allow_prefix_restore; [apply kept_device_spec|by apply spec_ret]|].
  intros allowed. apply spec_each. intros s Hs. apply spec_seq_read.
  eapply (spec_seq _ _ _ (restored_for use_mtp (input_key_of request) (fr_prompt request)) kept).
  { destruct (_ && _); [by apply restore_for_spec|]. apply spec_done. split; [done|by left]. }
  { done. }
  intros r s1 Hs1. apply (spec_start _ _ _ _ _ Hs1).
  eapply spec_bind; [apply invalidate_spec|]. intros ?. eapply spec_bind; [apply reset_spec|]. intros ?.
  apply spec_each. intros s2 Hs2. apply (spec_seq _ _ _ (fun _ s3 => prepared_for use_mtp (input_key_of request) (fr_prompt request) r s3 /\
    pl_use_mtp (ff_plan (fw_frame s3)) = use_mtp /\ pl_key (ff_plan (fw_frame s3)) = input_key_of request /\
    ff_history (fw_frame s3) = fr_prompt request) kept).
  { by apply (spec_write _ _ _ kept); intros ? <-. }
  { done. }
  intros [] s3 (Hs3 & E1 & E2 & E3). apply spec_seq_read. by eapply construct_spec.
Qed.

Lemma flow_start_spec request :
  (input_key_of request, fr_prompt request) ∈ texts ->
  spec kept (flow_start iter visits request tokenizer response_id parse_chat : N Run (FlowStep Ms)) (fun _ => sound) kept.
Proof.
  intros Htext. apply spec_each. intros s Hs. apply spec_seq_read. destruct (_ <=? 0); [by apply spec_raised|].
  destruct (match fr_prepared request with Some _ => _ | None => _ end); [by apply spec_raised|]. apply (spec_start _ _ _ _ _ Hs).
  apply (spec_bind _ _ _ (fun _ => kept)); [by apply spec_outcome|]. intros plan.
  apply (spec_bind _ _ _ (fun _ => kept)); [by apply spec_write|]. intros ?. apply spec_each. intros s1 Hs1.
  apply spec_seq_read. apply (spec_start _ _ _ _ _ Hs1). destruct (flow_stopped _ _); [apply return_spec|]. cbv zeta.
  apply (spec_bind _ _ _ (fun _ => kept)); [apply kept_optional|]. intros ?.
  apply (spec_bind _ _ _ (fun _ => kept)); [destruct fo_has_mtp; [apply kept_device_spec|by apply spec_ret]|]. intros ?.
  apply (spec_bind _ _ _ (fun _ => kept)); [apply kept_frame_spec|]. intros ?.
  apply (spec_bind _ _ _ (fun _ => underway)); [by apply flow_prepare_spec|]. intros ?. apply flow_step_spec.
Qed.

(** ** Resumption *)

Lemma flow_next_spec request :
  (input_key_of request, fr_prompt request) ∈ texts ->
  spec sound (flow_next iter visits request tokenizer response_id parse_chat : N Run (FlowStep Ms)) (fun _ => sound) sound.
Proof.
  intros Htext. apply spec_each. intros s [Hs Hr]. apply spec_seq_read. apply (spec_try _ _ _ _ kept).
  - destruct (ff_resume (fw_frame s)) eqn:E; cbn [flow_resume_at].
    + apply (spec_start kept _ _ _ _ Hs). by apply flow_start_spec.
    + apply (spec_start _ _ _ _ _ Hr). apply flow_step_spec.
    + apply (spec_start _ _ _ _ _ Hr). apply flow_finish_spec.
    + apply spec_done. split; [done|]. by rewrite E.
  - intros e. eapply spec_bind; [eapply spec_weaken; [apply destroy_spec|done|intros ?? H1; exact H1|by intros ? []]|].
    intros ?. by apply spec_raise.
Qed.

(** ** Requests on a session cache *)

(** A client may cancel the request between two resumptions. *)
Definition cancel_request_output (o : Output (Ms := Ms)) : Output (Ms := Ms) :=
  set_result {| text := text (result o); reasoning_text := reasoning_text (result o); result_calls := result_calls (result o);
                finish_reason := finish_reason (result o); completion_tokens := completion_tokens (result o);
                cancelled := true |} o.

(** A resumption, after which the executor goes on or drops the request. *)
Definition resume_request (request : FlowRequest) (cancelled_before : bool) : N Run unit :=
  (if cancelled_before then write (fun s => set_flow_out (cancel_request_output (fw_out s)) s) else mret tt) ≫= fun _ =>
  try_with (flow_next iter visits request tokenizer response_id parse_chat ≫= fun _ => mret tt) (fun _ => mret tt).

(** A request on the session cache: resumed as often as [resumptions] says, then dropped. *)
Definition serve (request : FlowRequest) (limit : Z) (o : Output (Ms := Ms)) (resumptions : list bool) : N Sess unit := fun v =>
  let s := {| fw_session := v; fw_out := o; fw_max_tokens := limit; fw_cleanup_failure := None; fw_frame := new_frame |} in
  match (for_fold resumptions (fun _ => resume_request request) tt ≫= fun _ => destroy_frame) s with
  | Some (r, s) => Some (r, fw_session s)
  | None => None
  end.

Lemma serve_spec request limit o resumptions :
  (input_key_of request, fr_prompt request) ∈ texts ->
  spec ok (serve request limit o resumptions) (fun _ => ok) ok.
Proof.
  intros Htext v Hv. unfold serve. set (s := Build_FlowRun _ _ _ _ _).
  assert (sound s) as Hs by (by split).
  assert (spec sound (for_fold resumptions (fun _ => resume_request request) tt ≫= fun _ => destroy_frame) (fun _ => sound) sound) as Hall.
  { apply (spec_bind _ _ _ (fun _ => sound)).
    - apply (spec_for _ _ (fun _ => sound)). intros ? b _. apply (spec_bind _ _ _ (fun _ => sound)).
      + destruct b; [|by apply spec_ret]. apply spec_write. intros s1 [? Hr]. split; [done|]. cbn.
        destruct (ff_resume (fw_frame s1)); try done; by destruct Hr.
      + intros ?. eapply spec_try; [|intros ?; by apply spec_ret].
        apply (spec_bind _ _ _ (fun _ => sound)); [by apply flow_next_spec|]. intros ?. by apply spec_ret.
    - intros ?. eapply spec_weaken; [apply destroy_spec|by intros ? []|done|by intros ? []]. }
  specialize (Hall s Hs). destruct ((for_fold _ _ _ ≫= fun _ => destroy_frame) s) as [[[a|e] s']|]; [by destruct Hall|by destruct Hall|done].
Qed.

(** What the engine does with a session cache. *)
Inductive Activity :=
  | Talk (c : Call D State)
  | Serve (request : FlowRequest) (limit : Z) (o : Output (Ms := Ms)) (resumptions : list bool).

Definition perform_activity (a : Activity) : N Sess unit :=
  match a with
  | Talk c => perform_call iter visits c
  | Serve request limit o resumptions => serve request limit o resumptions
  end.

Definition run_activities (l : list Activity) : N Sess unit :=
  for_fold l (fun _ a => try_with (perform_activity a) (fun _ => mret tt)) tt.

(** Prompts are of the texts; only requests store. *)
Definition fair (a : Activity) : Prop :=
  match a with
  | Talk (CStore _ _) => False
  | Talk c => allowed computed texts c
  | Serve request _ _ _ => (input_key_of request, fr_prompt request) ∈ texts
  end.

Lemma perform_activity_spec a : fair a -> spec ok (perform_activity a) (fun _ => ok) ok.
Proof.
  intros Ha. destruct a as [c|request limit o resumptions]; [|by apply serve_spec].
  apply (perform_call_spec iter visits Hiter n Hbs computed texts codec distinct). by destruct c.
Qed.

(** C5: on a new session cache that only requests store to, whatever requests ran, were
    cancelled, threw or were dropped, and whatever else was called, a [restore_best] that
    returns gave the model a computed state of the first tokens of the prompt and with its
    media, or nothing: every snapshot a request stores at the end of its prefix, at a
    boundary or at its end is of what the model had then computed. It is assumed that the
    inner sequence keeps the model behind what it publishes, that what is captured of such
    a model is a computed state, and that no two prefixes of the run have one hash. *)
Theorem requests_keep_sessions snapshots prefix paged supported reason native_hot d0 activities mtp requested prompt maximum key s :
  (forall p, paged = Some p -> view_ok PrefixService.view p /\ view_space PrefixService.view p = n /\ view_stored PrefixService.view p = []) ->
  Forall fair activities -> (key, prompt) ∈ texts ->
  run_activities activities (make_session snapshots prefix paged supported reason native_hot d0) = Some (Ok tt, s) ->
  match restore_best iter visits mtp requested prompt maximum key s with
  | Some (Ok r, s') => answer computed mtp key prompt maximum (se_device s) r (se_device s')
  | _ => True
  end.
Proof.
  intros Hp Hfair Htext Hrun.
  assert (spec ok (run_activities activities) (fun _ => ok) ok) as Hall.
  { apply (spec_for _ _ (fun _ => ok)). intros ? a Ha. rewrite Forall_forall in Hfair.
    eapply spec_try; [by apply perform_activity_spec, Hfair|]. intros ?. by apply spec_ret. }
  specialize (Hall _ (start_good iter visits Hiter n Hbs computed texts codec distinct snapshots prefix paged supported reason native_hot d0 Hp)).
  rewrite Hrun in Hall.
  pose proof (restore_best_spec iter Hiter visits n Hbs computed texts codec distinct mtp requested prompt key maximum
    (se_device s) Htext s (conj Hall eq_refl)) as H1.
  destruct (restore_best _ _ _ _ _ _ _ s) as [[[r|?] s']|]; [by destruct H1|done|done].
Qed.
End Requests.

(** ** A run

    The model of [SessionRuns.Toy], and an inner sequence that runs the prompt, then
    publishes two tokens, computing the first of them before the second. *)

Module FlowToy.
Import Toy.

Definition full : list Z := [5; 6; 7; 8; 9; 10].
Definition texts : list (list Z * list Z) := (fun k => ([], take k full)) <$> seq 1 6.

Abbreviation script := (list (list Z * FlowEvent Z)).

(** The model computes tokens more. *)
Definition extend (more : list Z) (d : option state) : option state :=
  let before := match d with Some st => tokens st | None => [] end in
  if is_nil (before ++ more) then None
  else Some {| tokens := before ++ more; key := []; sum := total (before ++ more) |}.

Definition publish (l : list Z) : FlowEvent Z := FDelta {| token_ids := l; diffs := [] |}.

Definition script_for (prompt : list Z) (reused : Z) : script :=
  let next k := take 1 (drop k full) in
  let k := length prompt in
  [(drop (Z.to_nat reused) prompt,
    FProgress {| prompt_tokens := size_of prompt - reused; llm_ms := 0; multimodal_ms := 0; model_ms := 0 |} false);
   ([], publish (next k)); (next k, publish (next (S k)))].

#[export] Instance toy_flow : FlowOps (option state) state unit unit Z := {|
  fo_vocab_size := 100;
  fo_max_position_embeddings := 100;
  fo_batched := false;
  fo_has_mtp := false;
  fo_cache_pos d := match d with Some st => size_of (tokens st) | None => 0 end;
  fo_capture toks d :=
    match d with Some st => (Ok {| tokens := toks; key := []; sum := sum st |}, d) | None => (Throw (LogicError "no state"), d) end;
  fo_capture_mtp _ _ d := (Throw (LogicError "no predictor"), d);
  fo_set_mtp _ st := st;
  fo_no_hidden := tt;
  fo_has_hidden _ := false;
  fo_clear_stats d := (Ok tt, d);
  fo_set_prefix_boundary := None;
  fo_prepare_request := None;
  fo_allow_prefix_restore := None;
  fo_prepare_snapshot := None;
  fo_invalidate_plan d := (Ok tt, d);
  fo_reset _ := (Ok tt, None);
  fo_release d := (Ok tt, d);
  fo_sequence := script;
  fo_speculate _ _ _ _ d := (Throw (LogicError "no predictor"), d);
  fo_plain request _ reused _ d := (Ok (script_for (fr_prompt request) reused), d);
  fo_next q w :=
    let '(d, o, h) := w in
    match q with
    | [] => (Ok ({| fs_state := complete; fs_value := None |}, []), w)
    | (more, event) :: q => (Ok ({| fs_state := advanced; fs_value := Some event |}, q), (extend more d, o, h))
    end;
  fo_destroy _ d := d;
|}.

Definition asked (prompt : list Z) : FlowRequest :=
  {| fr_inference := {| benchmark_fixed_tokens := false; chat := false; continues := false; preserved_tokens := ∅;
                        req_stops := []; stop_token_ids := ∅; max_tokens := 8 |};
     fr_prompt := prompt; fr_session := "a"; fr_stable_prefix := 3; fr_enable_mtp := false; fr_prepared := None;
     fr_chunk_size := 4 |}.

Definition parse (_ : bytes) (_ : bool) : outcome Msg := Ok empty_msg.

Definition output : Output (Ms := Z) :=
  match make_output 0 (fr_inference (asked [])) None parse 0 with
  | Ok o => o
  | Throw _ => {| result := {| text := []; reasoning_text := []; result_calls := []; finish_reason := ""; completion_tokens := 0;
                               cancelled := false |};
                  metrics := {| started := 0; first_token := 0; last_token := 0; prefill_tokens := 0; prefill_ms := 0; media_ms := 0;
                                model_prefill_ms := 0; saw_token := false; saw_prefill := false |};
                  generated := []; emitter := make_emitter []; message := empty_msg; tool_ids := []; out_stopped := false;
                  out_finished := false |}
  end.

Definition activities : list (Activity (D := option state) (State := state) (Ms := Z)) :=
  [Serve (asked [5; 6; 7; 8]) 8 output [false; false; false; false]; Talk (CTrim 0); Talk (CCompute None)].

(** The model holds these tokens. *)
Definition stands (d : option state) (toks : list Z) : Prop :=
  match d with None => toks = [] | Some st => st = {| tokens := toks; key := []; sum := total toks |} end.

Definition computes (mtp : bool) (d : option state) (k toks : list Z) (hidden : option unit) : Prop :=
  mtp = false -> k = [] -> stands d toks.

(** The rest of the script keeps the model behind the history, and both within the text. *)
Fixpoint within (q : script) (history toks : list Z) : Prop :=
  toks `prefix_of` history /\ history `prefix_of` full /\
  match q with
  | [] => True
  | (more, event) :: q => within q (history ++ published (Some event)) (toks ++ more)
  end.

Definition follows (mtp : bool) (q : script) (k history : list Z) (d : option state) (hidden : unit) : Prop :=
  mtp = false /\ k = [] /\ exists toks, stands d toks /\ within q history toks.

Lemma within_here q history toks : within q history toks -> toks `prefix_of` history /\ history `prefix_of` full.
Proof. destruct q as [|[? ?] ?]; cbn; naive_solver. Qed.

Lemma stands_position d toks : stands d toks -> fo_cache_pos d = size_of toks.
Proof. unfold stands. destruct d; by intros ->. Qed.

Lemma stands_extend d toks more : stands d toks -> stands (extend more d) (toks ++ more).
Proof.
  unfold extend. intros Hs. assert (match d with Some st => tokens st | None => [] end = toks) as ->
    by (unfold stands in Hs; destruct d; by rewrite Hs).
  by destruct (toks ++ more).
Qed.

Lemma texts_prefix k t : (k, t) ∈ texts -> k = [] /\ exists m, (1 <= m <= 6)%nat /\ t = take m full.
Proof.
  intros (m & E & Hm)%list_elem_of_fmap. injection E as -> ->. apply elem_of_seq in Hm. split; [done|]. exists m. split; [lia|done].
Qed.

Lemma prefix_text t : t `prefix_of` full -> t <> [] -> ([], t) ∈ texts.
Proof.
  intros [rest E] Ht. apply list_elem_of_fmap. exists (length t). split.
  - f_equal. by rewrite E, take_app_length.
  - apply elem_of_seq. apply (f_equal length) in E. rewrite length_app in E. destruct t; [done|]. cbn in *. lia.
Qed.

Lemma behind_prefix d history toks :
  stands d toks -> toks `prefix_of` history -> behind history d ->
  take (Z.to_nat (fo_cache_pos d)) history = toks /\ toks <> [].
Proof.
  intros Hs [rest ->] [Hpos _]. rewrite (stands_position _ _ Hs) in *. unfold size_of in *. rewrite Nat2Z.id, take_app_length.
  split; [done|]. by intros ->.
Qed.

Lemma script_within prompt reused :
  ([], prompt) ∈ texts -> within (script_for prompt reused) prompt (take (Z.to_nat reused) prompt).
Proof.
  intros (_ & m & Hm & ->)%texts_prefix.
  assert (length (take m full) = m) as Hlen by (rewrite length_take; cbn; lia).
  assert (take m full ++ take 1 (drop m full) = take (S m) full) as E1
    by (by rewrite take_take_drop; replace (m + 1)%nat with (S m) by lia).
  assert (take (S m) full ++ take 1 (drop (S m) full) = take (S (S m)) full) as E2
    by (by rewrite take_take_drop; replace (S m + 1)%nat with (S (S m)) by lia).
  unfold script_for. rewrite Hlen. cbn [within published publish token_ids]. rewrite take_drop, !app_nil_r.
  rewrite ?E1, ?E2. assert (forall i (l : list Z), take i l `prefix_of` l) as Htake by (intros i l; exists (drop i l); by rewrite take_drop).
  split_and!; try apply Htake; try done; [rewrite <- E1|rewrite <- E2]; by eexists.
Qed.

Lemma toy_flow_laws : FlowLaws computed texts computes follows.
Proof.
  split.
  - intros mtp st d d' hidden Hst (d1 & E & Hd) -> Hkey. destruct Hd as [-> _]. injection E as <-.
    unfold Toy.computed in Hst. destruct st as [toks k v]. cbn in *. by subst.
  - intros mtp k d d' [= <-] _ _. done.
  - intros mtp k toks d d' hidden Hc [= <-]. done.
  - intros request limit reused stable d d' q hidden hidden' k p Htext Hc [= <- <-].
    pose proof (texts_prefix _ _ Htext) as [Hk _]. split; [done|]. split; [done|].
    exists (take (Z.to_nat reused) p). split; [by apply Hc|]. apply script_within. by rewrite <- Hk.
  - done.
  - intros mtp q k history d o hidden step q' d' o' hidden' (-> & -> & toks & Hs & Hw) Hn.
    destruct q as [|[more event] q]; cbn in Hn; injection Hn as <- <- <- <- <-; (split; [done|split; [done|]]).
    + exists toks. by rewrite app_nil_r.
    + exists (toks ++ more). split; [by apply stands_extend|]. apply Hw.
  - intros q [[d o] h] step q' w' Hn Hc. destruct q as [|[more event] q]; cbn in Hn; injection Hn as <- <- <-; done.
  - intros mtp q k history d hidden (-> & -> & toks & Hs & Hw) Hb. apply within_here in Hw as [Ht Hh].
    destruct (behind_prefix _ _ _ Hs Ht Hb) as [-> Hne]. apply prefix_text; [by etrans|done].
  - intros mtp q k history d hidden (-> & -> & toks & Hs & Hw). apply within_here in Hw as [Ht Hh].
    rewrite (stands_position _ _ Hs). assert (toks `prefix_of` full) as Hl%prefix_length by (by etrans).
    unfold in_s64, s64_max, size_of. cbn in Hl. lia.
  - done.
  - intros toks mtp q k history d hidden Hf. by destruct d.
  - intros position h mtp q k history d hidden Hf. done.
  - intros q k history d hidden st d' (_ & -> & toks & Hs & Hw) Hb Hcap. apply within_here in Hw as [Ht Hh].
    destruct (behind_prefix _ _ _ Hs Ht Hb) as [E Hne]. rewrite E in Hcap |- *.
    unfold stands in Hs. destruct d as [?|]; [|done]. subst s. cbn in Hcap. injection Hcap as <- <-. done.
  - by intros q k history d hidden st d' m d'' [? _].
Qed.

Lemma flow_texts : Texts space texts.
Proof.
  split.
  - intros k t (-> & m & Hm & ->)%texts_prefix. split; [|split; [|by vm_compute]].
    + apply Forall_take. repeat constructor; unfold s64_max; lia.
    + unfold size_of, s64_max. rewrite length_take. lia.
  - intros k t rest k' t' rest'. apply distinct_hashes_ok. by vm_compute.
Qed.

Lemma flow_fair : Forall (fair computed texts) activities.
Proof. repeat constructor. Qed.

Lemma full_text : ([], full) ∈ texts.
Proof. apply list_elem_of_fmap. exists 6%nat. split; [done|]. apply elem_of_seq. lia. Qed.

Lemma requests_keep_sessions_witness :
  exists s s', run_activities in_order bindings None "r" parse activities start = Some (Ok tt, s) /\
    restore_best in_order bindings false "a" full 5 [] s = Some (Ok {| re_tokens := 5; re_hidden := None |}, s') /\
    se_device s' = Some {| tokens := [5; 6; 7; 8; 9]; key := []; sum := 35 |} /\
    answer computed false [] full 5 (se_device s) {| re_tokens := 5; re_hidden := None |} (se_device s').
Proof.
  assert (match run_activities in_order bindings None "r" parse activities start with
          | Some (Ok tt, s) => match restore_best in_order bindings false "a" full 5 [] s with
                               | Some (Ok r, s') => (re_tokens r, re_hidden r, se_device s') =
                                   (5, None, Some {| tokens := [5; 6; 7; 8; 9]; key := []; sum := 35 |})
                               | _ => False end
          | _ => False end) as E by (by vm_compute).
  destruct (run_activities in_order bindings None "r" parse activities start) as [[[[]|?] s]|] eqn:Hrun; [|destruct E..].
  destruct (restore_best in_order bindings false "a" full 5 [] s) as [[[[k h]|?] s']|] eqn:Hr; [|destruct E..].
  injection E as -> -> E. exists s, s'. split; [reflexivity|]. split; [exact Hr|]. split; [exact E|].
  pose proof (requests_keep_sessions in_order (fun m => reflexivity _) bindings space eq_refl computed texts toy_codec flow_texts
    None "r" parse computes follows toy_flow_laws
    {| max_sessions := 4; max_snapshots_per_session := 2; max_bytes := 100 |}
    {| px_enabled := true; px_disk_bytes := 4000; px_hot_bytes := 100; px_ram_bytes := 0 |}
    (Some service) true 0 false None activities false "a" full 5 [] s toy_starts flow_fair full_text Hrun) as H1.
  rewrite Hr in H1. exact H1.
Defined.
End FlowToy.
