(* ===== verification/PackedRows.v ===== *)
(** * Streams of packed bits ([core/include/mfq/packed_row_range.h])

    A quantised tensor keeps small codes in streams, each code in the next few bits. The
    number a stream spells, its least significant byte first, makes a code a range of bits
    of that number ([bits]). [append_packed_range] copies such a range so that it starts at
    the first bit of a byte; [append_packed_range_spec] states that it copies just that range.
    The storage a stream is read from is the reader of [Reads]. *)

From stdpp Require Import base list strings.
From Stdlib Require Import ZArith Lia.
From S2P Require Import Prelude Sha256 LittleEndian.

#[local] Set Default Proof Using "Type".
#[local] Open Scope Z_scope.

(** ** Readers *)

(** [Read]: the bytes at an offset; what the callback throws is passed on. *)
Definition Reader : Type := Z -> Z -> outcome (list Z).

Definition slice (data : list Z) (offset count : Z) : list Z :=
  take (Z.to_nat count) (drop (Z.to_nat offset) data).

(** The reader of storage in memory. *)
Definition memory_read (data : list Z) : Reader := fun offset count => Ok (slice data offset count).

(** [ReadBatch]: the ranges of a list of spans. *)
Definition BatchReader : Type := list (Z * Z) -> outcome (list (list Z)).

Definition within (data : list Z) (offset count : Z) : Prop :=
  0 <= offset /\ 0 <= count /\ offset + count <= size_of data.

(** An operation that gives [v], or throws what a reader may throw. *)
Definition attempt {A} (faults : exn -> Prop) (o : outcome A) (v : A) : Prop :=
  match o with Ok a => a = v | Throw e => faults e end.

(** A reader of [data]: a range inside is read, or the reader throws one of its faults. *)
Definition Reads (faults : exn -> Prop) (data : list Z) (read : Reader) : Prop := forall offset count,
  within data offset count -> attempt faults (read offset count) (slice data offset count).

Definition ReadsBatch (faults : exn -> Prop) (data : list Z) (read : BatchReader) : Prop := forall spans,
  Forall (fun span => within data span.1 span.2) spans ->
  attempt faults (read spans) ((fun span => slice data span.1 span.2) <$> spans).

(** ** Ranges of bits *)

(** [std::numeric_limits<std::size_t>::max()], [vector::max_size()]. *)
Definition size_max : Z := u64_max.
Definition vector_max : Z := s64_max.

Definition bytes_for (count : Z) : Z := (count + 7) / 8.

(** A shifted range, byte by byte. *)
Definition rebased_byte (source : list Z) (shift : Z) (i : nat) : Z :=
  let word := source !!! i in
  let word := if (S i <? length source)%nat then Z.lor word (Z.shiftl (source !!! S i) 8) else word in
  byte_of (Z.shiftr word shift).

Definition rebase (bytes : Z) (source : list Z) (shift : Z) : list Z :=
  rebased_byte source shift <$> seq 0 (Z.to_nat bytes).

(** [back() &= (1u << tail) - 1], if the range ends within a byte. *)
Definition trim_tail (tail : Z) (range : list Z) : list Z :=
  if tail =? 0 then range else alter (fun b => Z.land b (Z.ones tail)) (length range - 1)%nat range.

Definition append_packed_range (read : Reader) (output : list Z) (stream bit count : Z) : outcome (list Z) :=
  if count =? 0 then Ok output
  else
    let shift := Z.land bit 7 in
    throw_if u64_max - shift - 7 <? count with OverflowError "packed row range is too large";
    let bytes64 := (count + 7) / 8 in
    let source64 := (count + shift + 7) / 8 in
    throw_if (size_max <? source64) || (size_max - stream <? bit / 8) || (vector_max - size_of output <? bytes64)
      with OverflowError "packed row range is too large";
    let offset := stream + bit / 8 in
    range ← (if shift =? 0 then read offset bytes64
             else source ← read offset source64; Ok (rebase bytes64 source shift));
    Ok (output ++ trim_tail (Z.land count 7) range).

(** The bits of a number, and [n] codes of [width] bits from a bit on. *)
Definition bits (value bit count : Z) : Z := Z.shiftr value bit mod 2 ^ count.

Definition codes_at (n : nat) (width value bit : Z) : list Z := (fun i => bits value (bit + Z.of_nat i * width) width) <$> seq 0 n.

(** A range of a stream, as bytes. *)
Definition packed_range (value bit count : Z) : list Z := le_bytes (Z.to_nat (bytes_for count)) (bits value bit count).

(** ** Attempts *)

Lemma attempt_ret {A} X (v : A) : attempt X (Ok v) v.
Proof. done. Qed.

Lemma attempt_bind {A B} X (o : outcome A) (k : A -> outcome B) v w :
  attempt X o v -> attempt X (k v) w -> attempt X (o ≫= k) w.
Proof. destruct o; simpl; [by intros ->|done]. Qed.

Lemma attempt_ok {A} (o : outcome A) v : attempt (fun _ => False) o v -> o = Ok v.
Proof. destruct o; simpl; [by intros ->|done]. Qed.

Lemma attempt_inv {A} X (o : outcome A) v a : attempt X o v -> o = Ok a -> a = v.
Proof. by intros H ->. Qed.

Lemma memory_reads X data : Reads X data (memory_read data).
Proof. by intros ???. Qed.

(** ** Lemmas on ranges *)

Lemma bits_testbit value bit count i : 0 <= bit -> 0 <= count -> 0 <= i ->
  Z.testbit (bits value bit count) i = (i <? count) && Z.testbit value (bit + i).
Proof.
  intros. unfold bits. destruct (Z.ltb_spec i count).
  - rewrite Z.mod_pow2_bits_low, Z.shiftr_spec by lia. simpl. f_equal. lia.
  - by rewrite Z.mod_pow2_bits_high by lia.
Qed.

Lemma bits_range value bit count : 0 <= count -> 0 <= bits value bit count < 2 ^ count.
Proof. intros. apply Z.mod_pos_bound. lia. Qed.

Lemma bits_bits value bit count i n : 0 <= bit -> 0 <= i -> 0 <= n -> i + n <= count ->
  bits (bits value bit count) i n = bits value (bit + i) n.
Proof.
  intros. apply Z.bits_inj'. intros j Hj. rewrite !bits_testbit by lia.
  destruct (Z.ltb_spec j n); [|done]. simpl. destruct (Z.ltb_spec (i + j) count); [|lia]. simpl. f_equal. lia.
Qed.

Lemma bits_small value count : 0 <= value < 2 ^ count -> bits value 0 count = value.
Proof. intros. unfold bits. by rewrite Z.shiftr_0_r, Z.mod_small. Qed.

Lemma bits_mod value bit count n : 0 <= bit -> 0 <= n -> bit + n <= count -> bits (value mod 2 ^ count) bit n = bits value bit n.
Proof.
  intros. pose proof (bits_bits value 0 count bit n) as Hb. unfold bits at 2 in Hb. rewrite Z.shiftr_0_r in Hb.
  apply Hb; lia.
Qed.

Lemma codes_at_eq n width value bit value' bit' :
  0 <= width -> 0 <= bit -> 0 <= bit' ->
  bits value bit (Z.of_nat n * width) = bits value' bit' (Z.of_nat n * width) ->
  codes_at n width value bit = codes_at n width value' bit'.
Proof.
  intros ??? Heq. apply list_fmap_ext. intros i k Hi. apply lookup_seq in Hi as [-> Hi].
  rewrite <- (bits_bits value bit (Z.of_nat n * width)), <- (bits_bits value' bit' (Z.of_nat n * width)) by nia. by rewrite Heq.
Qed.

Lemma bytes_for_bound count : 0 <= count -> count <= 8 * bytes_for count < count + 8.
Proof. intros. unfold bytes_for. pose proof (Z.div_mod (count + 7) 8). pose proof (Z.mod_pos_bound (count + 7) 8). lia. Qed.

Lemma bytes_for_nonneg count : 0 <= count -> 0 <= bytes_for count.
Proof. intros. pose proof (bytes_for_bound count). lia. Qed.

(** ** Streams as numbers *)

Lemma le_value_app a b : le_value (a ++ b) = le_value a + 2 ^ (8 * size_of a) * le_value b.
Proof.
  induction a as [|x a IH]; [unfold size_of; simpl; lia|]. cbn [app le_value]. rewrite IH.
  replace (8 * size_of (x :: a)) with (8 + 8 * size_of a) by (unfold size_of; cbn; lia).
  rewrite Z.pow_add_r by (unfold size_of; lia). lia.
Qed.

Lemma le_value_drop j l : Forall is_byte l -> le_value (drop j l) = Z.shiftr (le_value l) (8 * Z.of_nat j).
Proof.
  intros Hl. destruct (decide (j <= length l)%nat) as [Hj|].
  - rewrite <- (take_drop j l) at 2. rewrite le_value_app.
    assert (size_of (take j l) = Z.of_nat j) as Hs by (unfold size_of; rewrite length_take; lia).
    pose proof (le_value_range (take j l) (Forall_take _ _ _ Hl)) as Hr. rewrite Hs in *.
    rewrite Z.shiftr_div_pow2, Z.mul_comm, Z.div_add, Z.div_small by lia. done.
  - rewrite drop_ge by lia. pose proof (le_value_range l Hl). rewrite Z.shiftr_div_pow2 by lia.
    rewrite Z.div_small; [done|]. split; [lia|].
    eapply Z.lt_le_trans; [apply H|]. apply Z.pow_le_mono_r; unfold size_of in *; lia.
Qed.

Lemma le_value_take j l : Forall is_byte l -> (j <= length l)%nat -> le_value (take j l) = le_value l mod 2 ^ (8 * Z.of_nat j).
Proof.
  intros Hl Hj. rewrite <- (take_drop j l) at 2. rewrite le_value_app.
  assert (size_of (take j l) = Z.of_nat j) as Hs by (unfold size_of; rewrite length_take; lia).
  pose proof (le_value_range (take j l) (Forall_take _ _ _ Hl)) as Hr. rewrite Hs in *.
  rewrite Z.mul_comm, Z.mod_add, Z.mod_small by lia. done.
Qed.

Lemma slice_length data offset count : within data offset count -> size_of (slice data offset count) = count.
Proof. intros (?&?&?). unfold slice, size_of in *. rewrite length_take, length_drop. lia. Qed.

Lemma slice_bytes data offset count : Forall is_byte data -> Forall is_byte (slice data offset count).
Proof. intros. by apply Forall_take, Forall_drop. Qed.

Lemma slice_value data offset count : Forall is_byte data -> within data offset count ->
  le_value (slice data offset count) = bits (le_value data) (8 * offset) (8 * count).
Proof.
  intros Hd (?&?&?). unfold slice, size_of in *.
  rewrite le_value_take, le_value_drop by (try done; try (by apply Forall_drop); rewrite length_drop; lia).
  unfold bits. by rewrite !Z2Nat.id by lia.
Qed.

Lemma le_bytes_mod n v : le_bytes n (v mod 2 ^ (8 * Z.of_nat n)) = le_bytes n v.
Proof.
  rewrite <- le_value_bytes. rewrite <- (le_bytes_length n v) at 1.
  apply le_bytes_value, le_bytes_are_bytes.
Qed.

Lemma slice_packed data offset count : Forall is_byte data -> within data offset count ->
  slice data offset count = packed_range (le_value data) (8 * offset) (8 * count).
Proof.
  intros Hd Hw. rewrite <- (le_bytes_value (slice data offset count)) by by apply slice_bytes.
  rewrite slice_value by done. unfold packed_range. f_equal.
  pose proof (slice_length _ _ _ Hw). unfold size_of in *. destruct Hw as (?&?&?). unfold bytes_for.
  replace (8 * count + 7) with (7 + count * 8) by lia. rewrite Z.div_add by lia. change (7 / 8) with 0. lia.
Qed.

Lemma le_bytes_lookup n v i : (i < n)%nat -> le_bytes n v !! i = Some (byte_of (Z.shiftr v (8 * Z.of_nat i))).
Proof.
  intros Hi. unfold le_bytes. rewrite list_lookup_fmap, lookup_seq_lt by done. simpl. by rewrite (Z.mul_comm 8).
Qed.

Lemma byte_testbit v i : 0 <= i -> Z.testbit (byte_of v) i = (i <? 8) && Z.testbit v i.
Proof.
  intros. unfold byte_of. destruct (Z.ltb_spec i 8); [by rewrite Z.mod_pow2_bits_low by lia|by rewrite Z.mod_pow2_bits_high by lia].
Qed.

(** A byte of a stream, and a stream's bits in its bytes. *)
Lemma byte_bits l i : Forall is_byte l -> (i < length l)%nat -> l !!! i = bits (le_value l) (8 * Z.of_nat i) 8.
Proof.
  intros Hl Hi. apply list_lookup_total_correct.
  rewrite <- (le_bytes_value l) at 1 by done. by rewrite le_bytes_lookup.
Qed.

(** Two adjacent bytes hold any eight bits that start in the first. *)
Lemma rebased_byte_spec source shift i :
  Forall is_byte source -> 0 <= shift < 8 -> (i < length source)%nat ->
  rebased_byte source shift i = byte_of (Z.shiftr (Z.shiftr (le_value source) shift) (8 * Z.of_nat i)).
Proof.
  intros Hs Hshift Hi. unfold rebased_byte. apply Z.bits_inj'. intros j Hj. rewrite !byte_testbit by done.
  destruct (Z.ltb_spec j 8); [|done]. rewrite !andb_true_l, !Z.shiftr_spec by lia.
  rewrite (byte_bits source i) by done.
  assert (forall k, 0 <= k < 8 -> Z.testbit (bits (le_value source) (8 * Z.of_nat i) 8) k = Z.testbit (le_value source) (8 * Z.of_nat i + k)) as Hlow.
  { intros k Hk. rewrite bits_testbit by lia. by destruct (Z.ltb_spec k 8); [|lia]. }
  assert (forall k, 8 <= k -> Z.testbit (bits (le_value source) (8 * Z.of_nat i) 8) k = false) as Hhigh.
  { intros k Hk. rewrite bits_testbit by lia. by destruct (Z.ltb_spec k 8); [lia|]. }
  destruct (Nat.ltb_spec (S i) (length source)) as [Hn|Hn].
  - rewrite Z.lor_spec, Z.shiftl_spec by lia. rewrite (byte_bits source (S i)) by done.
    destruct (decide (j + shift < 8)).
    + rewrite Hlow by lia. rewrite (Z.testbit_neg_r _ (j + shift - 8)) by lia. rewrite orb_false_r. f_equal. lia.
    + rewrite Hhigh, bits_testbit by lia. destruct (Z.ltb_spec (j + shift - 8) 8); [|lia]. simpl. f_equal. lia.
  - destruct (decide (j + shift < 8)); [rewrite Hlow by lia; f_equal; lia|]. rewrite Hhigh by lia. symmetry.
    pose proof (le_value_range source Hs) as Hr. rewrite <- (Z.mod_small (le_value source) (2 ^ (8 * size_of source))) by lia.
    apply Z.mod_pow2_bits_high. unfold size_of in *. lia.
Qed.

Lemma rebase_spec bytes source shift :
  Forall is_byte source -> 0 <= shift < 8 -> 0 <= bytes <= size_of source ->
  rebase bytes source shift = le_bytes (Z.to_nat bytes) (Z.shiftr (le_value source) shift).
Proof.
  intros Hs ??. apply list_eq. intros i. destruct (decide (i < Z.to_nat bytes)%nat).
  - rewrite le_bytes_lookup by done. unfold rebase. rewrite list_lookup_fmap, lookup_seq_lt by done. simpl.
    f_equal. apply rebased_byte_spec; unfold size_of in *; [done..|lia].
  - rewrite !lookup_ge_None_2; [done|rewrite le_bytes_length; lia|unfold rebase; rewrite length_fmap, length_seq; lia].
Qed.

Lemma land_7 v : Z.land v 7 = v mod 8.
Proof. change 7 with (Z.ones 3). by rewrite Z.land_ones. Qed.

(** The bits past the range are cleared. *)
Lemma trimmed_spec v count : 0 < count ->
  trim_tail (Z.land count 7) (le_bytes (Z.to_nat (bytes_for count)) v) = packed_range v 0 count.
Proof.
  intros Hc. unfold packed_range, bits. rewrite Z.shiftr_0_r.
  pose proof (bytes_for_bound count ltac:(lia)) as Hb.
  rewrite land_7. pose proof (Z.mod_pos_bound count 8 ltac:(lia)) as Htail. unfold trim_tail.
  destruct (Z.eqb_spec (count mod 8) 0) as [H0|H0].
  { rewrite <- (le_bytes_mod _ v). do 3 f_equal. rewrite Z2Nat.id by lia.
    pose proof (Z.div_mod count 8 ltac:(lia)). lia. }
  apply list_eq. intros i. rewrite list_lookup_alter, le_bytes_length.
  destruct (decide (i < Z.to_nat (bytes_for count))%nat).
  2: { rewrite decide_False by lia. by rewrite !lookup_ge_None_2 by (rewrite le_bytes_length; lia). }
  rewrite !le_bytes_lookup by lia. pose proof (Z.div_mod count 8 ltac:(lia)) as Hdm.
  assert (bytes_for count = count / 8 + 1) as Hbytes by lia.
  assert (forall j, 0 <= j -> Z.testbit (byte_of (Z.shiftr (v mod 2 ^ count) (8 * Z.of_nat i))) j =
    (j <? 8) && ((j + 8 * Z.of_nat i <? count) && Z.testbit v (j + 8 * Z.of_nat i))) as Hbit.
  { intros j Hj. rewrite byte_testbit, Z.shiftr_spec by lia. f_equal.
    destruct (Z.ltb_spec (j + 8 * Z.of_nat i) count); [by rewrite Z.mod_pow2_bits_low by lia|by rewrite Z.mod_pow2_bits_high by lia]. }
  case_decide as Hlast; [rewrite Hlast|]; simpl; f_equal; apply Z.bits_inj'; intros j Hj; rewrite Hbit by done.
  - rewrite Z.land_spec, Z.testbit_ones_nonneg, byte_testbit, Z.shiftr_spec by lia.
    replace (j + 8 * Z.of_nat i <? count) with (j <? count mod 8)
      by (destruct (Z.ltb_spec j (count mod 8)), (Z.ltb_spec (j + 8 * Z.of_nat i) count); lia).
    destruct (j <? 8), (j <? count mod 8), (Z.testbit v (j + 8 * Z.of_nat i)); done.
  - rewrite byte_testbit, Z.shiftr_spec by lia. destruct (Z.ltb_spec j 8); [|done].
    destruct (Z.ltb_spec (j + 8 * Z.of_nat i) count); [done|lia].
Qed.

Lemma bytes_for_shift count shift : 0 <= count -> 0 <= shift < 8 ->
  bytes_for count <= (count + shift + 7) / 8 /\ count + shift <= 8 * ((count + shift + 7) / 8) < count + shift + 8.
Proof.
  intros. unfold bytes_for. pose proof (bytes_for_bound (count + shift) ltac:(lia)). unfold bytes_for in *.
  split; [apply Z.div_le_mono; lia|lia].
Qed.

Lemma packed_range_le_bytes value bit count : 0 <= bit -> 0 < count ->
  trim_tail (Z.land count 7) (le_bytes (Z.to_nat (bytes_for count)) (Z.shiftr value bit)) = packed_range value bit count.
Proof. intros. rewrite trimmed_spec by done. unfold packed_range, bits. by rewrite Z.shiftr_0_r. Qed.

Lemma packed_range_bytes value bit count : Forall is_byte (packed_range value bit count).
Proof. apply le_bytes_are_bytes. Qed.

Lemma packed_range_size value bit count : 0 <= count -> size_of (packed_range value bit count) = bytes_for count.
Proof. intros. pose proof (bytes_for_nonneg count). unfold packed_range, size_of. rewrite le_bytes_length. lia. Qed.

(** What a range spells. *)
Lemma packed_range_value value bit count : 0 <= bit -> 0 <= count -> le_value (packed_range value bit count) = bits value bit count.
Proof.
  intros. unfold packed_range. rewrite le_value_bytes. pose proof (bytes_for_bound count ltac:(lia)).
  apply Z.mod_small. pose proof (bits_range value bit count ltac:(lia)) as [??]. split; [done|].
  eapply Z.lt_le_trans; [done|]. apply Z.pow_le_mono_r; lia.
Qed.

(** The bytes a range is read from, and what shifting and trimming make of them. *)
Definition source_bytes (bit count : Z) : Z := (count + bit mod 8 + 7) / 8.

Lemma source_bytes_bound stream bit count : 0 <= bit -> 0 <= count ->
  bytes_for count <= source_bytes bit count /\ count + bit mod 8 <= 8 * source_bytes bit count /\
  stream + bit / 8 + source_bytes bit count <= stream + bytes_for (bit + count).
Proof.
  intros. unfold source_bytes. pose proof (Z.mod_pos_bound bit 8 ltac:(lia)). pose proof (Z.div_mod bit 8 ltac:(lia)).
  pose proof (bytes_for_shift count (bit mod 8) ltac:(lia) ltac:(lia)). pose proof (bytes_for_bound (bit + count) ltac:(lia)).
  split_and!; lia.
Qed.

Lemma within_source data stream bit count : 0 <= stream -> 0 <= bit -> 0 <= count ->
  stream + bytes_for (bit + count) <= size_of data -> within data (stream + bit / 8) (source_bytes bit count).
Proof.
  intros. pose proof (source_bytes_bound stream bit count ltac:(lia) ltac:(lia)). pose proof (bytes_for_nonneg count ltac:(lia)).
  pose proof (Z.div_pos bit 8 ltac:(lia) ltac:(lia)). unfold within. lia.
Qed.

Lemma shifted_range data stream bit count :
  Forall is_byte data -> 0 <= stream -> 0 <= bit -> 0 < count -> stream + bytes_for (bit + count) <= size_of data ->
  trim_tail (Z.land count 7) (rebase (bytes_for count) (slice data (stream + bit / 8) (source_bytes bit count)) (bit mod 8)) =
  packed_range (le_value data) (8 * stream + bit) count.
Proof.
  intros Hd ??? Hin. pose proof (within_source data stream bit count ltac:(lia) ltac:(lia) ltac:(lia) Hin) as Hw.
  pose proof (source_bytes_bound stream bit count ltac:(lia) ltac:(lia)) as (? & ? & ?).
  pose proof (Z.mod_pos_bound bit 8 ltac:(lia)). pose proof (Z.div_mod bit 8 ltac:(lia)). pose proof (bytes_for_nonneg count ltac:(lia)).
  rewrite rebase_spec; [|by apply slice_bytes|lia|rewrite slice_length by done; lia].
  rewrite packed_range_le_bytes by lia. unfold packed_range. rewrite slice_value, bits_bits by (done || lia).
  by replace (8 * (stream + bit / 8) + bit mod 8) with (8 * stream + bit) by lia.
Qed.

Lemma aligned_range data stream bit count :
  Forall is_byte data -> 0 <= stream -> 0 <= bit -> 0 < count -> bit mod 8 = 0 -> stream + bytes_for (bit + count) <= size_of data ->
  trim_tail (Z.land count 7) (slice data (stream + bit / 8) (bytes_for count)) = packed_range (le_value data) (8 * stream + bit) count.
Proof.
  intros Hd ??? Haligned Hin. pose proof (within_source data stream bit count ltac:(lia) ltac:(lia) ltac:(lia) Hin) as Hw.
  assert (source_bytes bit count = bytes_for count) as Hs by (unfold source_bytes, bytes_for; rewrite Haligned; f_equal; lia).
  pose proof (Z.div_mod bit 8 ltac:(lia)). rewrite Hs in Hw.
  rewrite <- (le_bytes_value (slice data (stream + bit / 8) (bytes_for count))) by by apply slice_bytes.
  pose proof (slice_length _ _ _ Hw) as Hl. pose proof (bytes_for_bound count ltac:(lia)).
  replace (length (slice data (stream + bit / 8) (bytes_for count))) with (Z.to_nat (bytes_for count)) by (unfold size_of in Hl; lia).
  rewrite trimmed_spec by lia. unfold packed_range. rewrite slice_value, bits_bits by (done || lia).
  by replace (8 * (stream + bit / 8) + 0) with (8 * stream + bit) by lia.
Qed.

(** [append_packed_range] copies the range. *)
Lemma append_packed_range_spec X data read output stream bit count :
  Forall is_byte data -> Reads X data read ->
  0 <= stream -> 0 <= bit -> 0 <= count -> stream + bytes_for (bit + count) <= size_of data ->
  count + 15 < 2 ^ 64 -> size_of output + bytes_for count <= vector_max -> size_of data <= size_max ->
  attempt X (append_packed_range read output stream bit count)
    (output ++ packed_range (le_value data) (8 * stream + bit) count).
Proof.
  intros Hd Hread ??? Hin Hmax Hout Hdata. unfold append_packed_range.
  destruct (Z.eqb_spec count 0) as [->|]. { unfold packed_range. simpl. by rewrite app_nil_r. }
  rewrite !land_7. fold (bytes_for count). fold (source_bytes bit count).
  pose proof (within_source data stream bit count ltac:(lia) ltac:(lia) ltac:(lia) Hin) as Hw.
  pose proof (source_bytes_bound stream bit count ltac:(lia) ltac:(lia)) as (? & ? & ?).
  pose proof (Z.mod_pos_bound bit 8 ltac:(lia)). pose proof Hw as (? & ? & ?). unfold size_max, u64_max in *.
  destruct (_ <? count) eqn:?; [lia|]. destruct (_ || _ || _) eqn:?; [lia|]. rewrite <- (land_7 count).
  destruct (Z.eqb_spec (bit mod 8) 0) as [Haligned|Haligned].
  - apply (attempt_bind _ _ _ (slice data (stream + bit / 8) (bytes_for count))); [apply Hread; unfold within in *; pose proof (bytes_for_nonneg count); lia|].
    simpl. f_equal. apply aligned_range; (done || lia).
  - apply (attempt_bind _ _ _ (rebase (bytes_for count) (slice data (stream + bit / 8) (source_bytes bit count)) (bit mod 8))).
    + apply (attempt_bind _ _ _ (slice data (stream + bit / 8) (source_bytes bit count))); [by apply Hread|done].
    + simpl. f_equal. apply shifted_range; (done || lia).
Qed.
