(* ===== verification/NintRows.v ===== *)
(** * Rows of a NINT tensor ([core/nint_rows.cpp], [core/include/mfq/nint_rows.h])

    A NINT tensor is a header, the anchors of its rows, and streams of packed codes. In
    adaptive storage each row has its own widths: a selector per row names its cohort, and
    a cohort's rows lie together in a stream of that width, so a row's place is its rank
    among the rows of its cohort. [initialize] indexes a tensor; [slice_rows_blob] cuts a
    range of rows out as a tensor of its own; [append_rows] gathers rows for the kernels. *)

From stdpp Require Import base numbers strings list.
From Stdlib Require Import ZArith Lia.
From S2P Require Import Prelude Sha256 LittleEndian PackedRows.

#[local] Set Default Proof Using "Type".
#[local] Open Scope Z_scope.

(** ** Data *)

(** [NintRowBatch]. *)
Record NintRowBatch := {
  nb_packed : list Z;
  nb_descriptors : list Z;
  nb_source_bytes_read : Z;
  nb_width : Z;
}.

Definition empty_batch : NintRowBatch :=
  {| nb_packed := []; nb_descriptors := []; nb_source_bytes_read := 0; nb_width := 0 |}.

(** [NintRows]; the pointers to selectors are what they point to. *)
Record NintRows := {
  nr_read : Reader;
  nr_read_batch : option BatchReader;
  nr_nbytes : Z;
  nr_parallel_reads : bool;
  nr_k_selectors : list Z;
  nr_q_selectors : list Z;
  nr_owned : Z;  (** [owned_k_.size() + owned_q_.size()] *)
  nr_k_ranks : list (list Z);
  nr_q_ranks : list (list Z);
  nr_k_counts : list Z;
  nr_q_counts : list Z;
  nr_scale_offsets : list Z;
  nr_min_offsets : list Z;
  nr_q_offsets : list Z;
  nr_neuron_scale_offset : Z;
  nr_neuron_min_offset : Z;
  nr_rows : Z;
  nr_width : Z;
  nr_groups : Z;
  nr_group_size : Z;
  nr_bits : Z;
  nr_sub_bits : Z;
  nr_adaptive : bool;
}.

(** ** Sizes and selectors *)

Definition u32_max : Z := 2 ^ 32 - 1.

Definition kRankStride : nat := 256.

Definition packed_size (count bits : Z) : outcome Z :=
  throw_if (u64_max - 7) / bits <? count with OverflowError "NINT row stream size overflow";
  Ok ((count * bits + 7) / 8).

Definition kNintAdaptiveStorageFlag : Z := 128.
Definition nint_has_adaptive_storage (raw_bits : Z) : bool := negb (Z.land raw_bits kNintAdaptiveStorageFlag =? 0).
Definition nint_logical_bits (raw_bits : Z) : Z := byte_of (Z.land raw_bits (Z.lnot kNintAdaptiveStorageFlag)).

Definition selector (stream : list Z) (row bits : Z) : Z :=
  let bit := u64 (row * bits) in
  let byte := bit / 8 in
  let value := stream !!! Z.to_nat byte in
  let value := if 8 <? Z.land bit 7 + bits then Z.lor value (Z.shiftl (stream !!! Z.to_nat (byte + 1)) 8) else value in
  Z.land (Z.shiftr value (Z.land bit 7)) (Z.shiftl 1 bits - 1).

(** A turn of the loop of [build_ranks]: the counts, and those at every 256th row. *)
Definition count_row (selectors : list Z) (bits : Z) (acc : list Z * list (list Z)) (row : nat) : list Z * list (list Z) :=
  let '(counts, checkpoints) := acc in
  let checkpoints := if (row mod kRankStride =? 0)%nat then checkpoints ++ [counts] else checkpoints in
  (alter (fun c => u32 (c + 1)) (Z.to_nat (selector selectors (Z.of_nat row) bits)) counts, checkpoints).

Definition build_ranks (cohorts : nat) (selectors : list Z) (rows bits : Z) : list Z * list (list Z) :=
  foldl (count_row selectors bits) (replicate cohorts 0, []) (seq 0 (Z.to_nat rows)).

Definition cohort_rank (selectors : list Z) (row bits cohort : Z) (checkpoints : list (list Z)) : Z :=
  let row := Z.to_nat row in
  foldl (fun rank index => u32 (rank + (if selector selectors (Z.of_nat index) bits =? cohort then 1 else 0)))
    (checkpoints !!! (row / kRankStride)%nat !!! Z.to_nat cohort)
    (seq (row - row mod kRankStride) (row mod kRankStride)).

(** ** The index of a tensor *)

Definition lift {S A} (o : outcome A) : M S A := fun s => (o, s).

Section Cursor.
Context (size : Z) (header : list Z).

(** [Cursor]; the state is its offset. *)
Definition skip (count : Z) : M Z Z := fun offset =>
  if (size <? offset) || (size - offset <? count)
  then (Throw (RuntimeError "truncated mapped NINT row tensor"), offset)
  else (Ok offset, offset + count).

Definition header_size : Z := 42.

Definition scalar (bytes : Z) : M Z Z :=
  start ← skip bytes;
  if (header_size <? start) || (header_size - start <? bytes)
  then throw (RuntimeError "invalid mapped NINT row header offset")
  else mret (le_value (slice header start bytes)).

Record Geometry := {
  ge_adaptive : bool;
  ge_bits : Z;
  ge_sub_bits : Z;
  ge_group_size : Z;
  ge_width : Z;
  ge_rows : Z;
  ge_groups : Z;
}.

Definition read_geometry : M Z Geometry :=
  raw_bits ← scalar 1;
  let bits := nint_logical_bits raw_bits in
  sub_bits ← scalar 1;
  group_size ← scalar 4; let group_size := s32 group_size in
  axis ← scalar 4; let axis := s32 axis in
  width ← scalar 4; let width := s32 width in
  dimensions ← scalar 4;
  if (bits <? 1) || (8 <? bits) || (sub_bits <? 1) || (8 <? sub_bits) || (group_size <=? 0) ||
     negb (axis =? 0) || (width <=? 0) || negb (dimensions =? 2)
  then throw (RuntimeError "invalid mapped NINT row geometry")
  else
    shape_rows ← scalar 8; let shape_rows := s64 shape_rows in
    shape_width ← scalar 8; let shape_width := s64 shape_width in
    rows ← scalar 4;
    groups ← scalar 4;
    if (rows =? 0) || (s32_max <? rows) || negb (shape_rows =? rows) || negb (shape_width =? width) ||
       negb (groups =? (width + group_size - 1) / group_size)
    then throw (RuntimeError "inconsistent mapped NINT row shape")
    else mret {| ge_adaptive := nint_has_adaptive_storage raw_bits; ge_bits := bits; ge_sub_bits := sub_bits;
                 ge_group_size := group_size; ge_width := width; ge_rows := rows; ge_groups := groups |}.

(** The streams of one cohort of scales and minima. *)
Definition skip_k_cohort (sub_bits groups : Z) (counts : list Z) (offsets : list Z * list Z) (cohort : nat) : M Z (list Z * list Z) :=
  let width := sub_bits - 1 + Z.of_nat cohort in
  let count := counts !!! cohort in
  if negb (count =? 0) && ((width <? 1) || (8 <? width)) then throw (RuntimeError "invalid mapped NINT k selector")
  else
    bytes ← (if negb (count =? 0) then lift (packed_size (u64 (count * groups)) width) else mret 0);
    scale ← skip bytes;
    minimum ← skip bytes;
    mret (offsets.1 ++ [scale], offsets.2 ++ [minimum]).

Definition skip_q_cohort (values_per_row : Z) (counts : list Z) (offsets : list Z) (cohort : nat) : M Z (list Z) :=
  bytes ← lift (packed_size (u64 (counts !!! cohort * values_per_row)) (Z.of_nat cohort + 1));
  offset ← skip bytes;
  mret (offsets ++ [offset]).
End Cursor.

(** Where a table is read from: storage in memory, or callbacks. *)
Inductive Source :=
  | Borrowed (data : list Z)
  | Ranges (read : Reader) (batch : option BatchReader) (parallel_reads : bool).

Definition source_read (source : Source) : Reader :=
  match source with Borrowed data => memory_read data | Ranges read _ _ => read end.
Definition source_batch (source : Source) : option BatchReader :=
  match source with Borrowed _ => None | Ranges _ batch _ => batch end.
Definition source_parallel (source : Source) : bool :=
  match source with Borrowed _ => true | Ranges _ _ parallel => parallel end.

Definition selectors (source : Source) (offset size : Z) : outcome (list Z) :=
  match source with Borrowed data => Ok (drop (Z.to_nat offset) data) | Ranges read _ _ => read offset size end.
Definition owned (source : Source) (size : Z) : Z := match source with Borrowed _ => 0 | Ranges _ _ _ => size end.

(** The streams of adaptive storage. *)
Definition index_adaptive (source : Source) (nbytes : Z) (g : Geometry) (scale_offset min_offset : Z) : M Z NintRows :=
  let values_per_row := u64 (ge_groups g * ge_group_size g) in
  ksize ← lift (packed_size (ge_rows g) 2);
  koffset ← skip nbytes ksize;
  kselectors ← lift (selectors source koffset ksize);
  let k := build_ranks 4 kselectors (ge_rows g) 2 in
  offsets ← fold_each (seq 0 4) (skip_k_cohort nbytes (ge_sub_bits g) (ge_groups g) k.1) ([], []);
  qsize ← lift (packed_size (ge_rows g) 3);
  qoffset ← skip nbytes qsize;
  qselectors ← lift (selectors source qoffset qsize);
  let q := build_ranks 8 qselectors (ge_rows g) 3 in
  qoffsets ← fold_each (seq 0 8) (skip_q_cohort nbytes values_per_row q.1) [];
  mret {| nr_read := source_read source; nr_read_batch := source_batch source; nr_nbytes := nbytes;
          nr_parallel_reads := source_parallel source; nr_k_selectors := kselectors; nr_q_selectors := qselectors;
          nr_owned := owned source (ksize + qsize); nr_k_ranks := k.2; nr_q_ranks := q.2; nr_k_counts := k.1; nr_q_counts := q.1;
          nr_scale_offsets := offsets.1; nr_min_offsets := offsets.2; nr_q_offsets := qoffsets;
          nr_neuron_scale_offset := scale_offset; nr_neuron_min_offset := min_offset; nr_rows := ge_rows g;
          nr_width := ge_width g; nr_groups := ge_groups g; nr_group_size := ge_group_size g; nr_bits := ge_bits g;
          nr_sub_bits := ge_sub_bits g; nr_adaptive := true |}.

(** The streams of storage with one width. *)
Definition index_uniform (source : Source) (nbytes : Z) (g : Geometry) (scale_offset min_offset : Z) : M Z NintRows :=
  let values_per_row := u64 (ge_groups g * ge_group_size g) in
  metadata_bytes ← lift (packed_size (u64 (ge_rows g * ge_groups g)) (ge_sub_bits g));
  scale ← skip nbytes metadata_bytes;
  minimum ← skip nbytes metadata_bytes;
  qbytes ← lift (packed_size (u64 (ge_rows g * values_per_row)) (ge_bits g));
  qoffset ← skip nbytes qbytes;
  mret {| nr_read := source_read source; nr_read_batch := source_batch source; nr_nbytes := nbytes;
          nr_parallel_reads := source_parallel source; nr_k_selectors := []; nr_q_selectors := []; nr_owned := 0;
          nr_k_ranks := []; nr_q_ranks := []; nr_k_counts := replicate 4 0; nr_q_counts := replicate 8 0;
          nr_scale_offsets := scale :: replicate 3 0; nr_min_offsets := minimum :: replicate 3 0;
          nr_q_offsets := qoffset :: replicate 7 0;
          nr_neuron_scale_offset := scale_offset; nr_neuron_min_offset := min_offset; nr_rows := ge_rows g;
          nr_width := ge_width g; nr_groups := ge_groups g; nr_group_size := ge_group_size g; nr_bits := ge_bits g;
          nr_sub_bits := ge_sub_bits g; nr_adaptive := false |}.

Definition index_tensor (source : Source) (nbytes : Z) (header : list Z) : M Z NintRows :=
  g ← read_geometry nbytes header;
  scale_offset ← skip nbytes (u64 (ge_rows g * 2));
  min_offset ← skip nbytes (u64 (ge_rows g * 2));
  (if ge_adaptive g then index_adaptive else index_uniform) source nbytes g scale_offset min_offset.

Definition initialize (source : Source) (nbytes : Z) : outcome NintRows :=
  throw_if nbytes <? header_size with RuntimeError "truncated mapped NINT row header";
  header ← source_read source 0 header_size;
  match index_tensor source nbytes header 0 with
  | (Ok t, offset) => throw_if negb (offset =? nbytes) with RuntimeError "trailing mapped NINT row bytes"; Ok t
  | (Throw e, _) => Throw e
  end.

(** The two constructors. *)
Definition open_memory (data : list Z) : outcome NintRows := initialize (Borrowed data) (size_of data).
Definition open_ranges (size : Z) (read : Reader) (parallel_reads : bool) (batch : option BatchReader) : outcome NintRows :=
  initialize (Ranges read batch parallel_reads) size.

Definition index_nbytes (t : NintRows) : Z := size_of (nr_k_ranks t) * 16 + size_of (nr_q_ranks t) * 32 + nr_owned t.

(** ** A range of rows as a tensor *)

Definition rank_k (t : NintRows) (row : Z) (cohort : nat) : Z :=
  if negb (nr_adaptive t) then u32 row
  else if row =? nr_rows t then nr_k_counts t !!! cohort
  else cohort_rank (nr_k_selectors t) row 2 (Z.of_nat cohort) (nr_k_ranks t).

Definition rank_q (t : NintRows) (row : Z) (cohort : nat) : Z :=
  if negb (nr_adaptive t) then u32 row
  else if row =? nr_rows t then nr_q_counts t !!! cohort
  else cohort_rank (nr_q_selectors t) row 3 (Z.of_nat cohort) (nr_q_ranks t).

(** The cohorts of the two kinds of streams, and the widths of their codes. *)
Definition k_cohorts (t : NintRows) : nat := if nr_adaptive t then 4 else 1.
Definition q_cohorts (t : NintRows) : nat := if nr_adaptive t then 8 else 1.
Definition k_bits (t : NintRows) (cohort : nat) : Z := if nr_adaptive t then nr_sub_bits t - 1 + Z.of_nat cohort else nr_sub_bits t.
Definition q_bits (t : NintRows) (cohort : nat) : Z := if nr_adaptive t then Z.of_nat cohort + 1 else nr_bits t.

Definition bad_range (t : NintRows) (first last : Z) : bool := (first <? 0) || (last <=? first) || (nr_rows t <? last).

(** What is collected before a batch of reads: the result, with room for what is read; the
    reads into sources of [rebases]; the reads into the result; the ranges to shift or trim. *)
Record Rebase := { rb_offset : Z; rb_bytes : Z; rb_shift : Z; rb_tail : Z }.

Record Collected := {
  co_result : list Z;
  co_reads : list (Z * Z * nat);  (** offset, size, index of the rebase *)
  co_output_reads : list (Z * Z * Z);  (** source, destination, bytes *)
  co_rebases : list Rebase;
}.

Definition nothing_collected : Collected :=
  {| co_result := []; co_reads := []; co_output_reads := []; co_rebases := [] |}.

Definition on_result (f : list Z -> list Z) (c : Collected) : Collected :=
  {| co_result := f (co_result c); co_reads := co_reads c; co_output_reads := co_output_reads c; co_rebases := co_rebases c |}.

Definition append_bytes (bytes : list Z) : M Collected unit := modify (on_result (fun r => r ++ bytes)).

(** An operation that appends to the result at once. *)
Definition direct (f : list Z -> outcome (list Z)) : M Collected unit := fun c =>
  match f (co_result c) with
  | Ok r => (Ok tt, on_result (fun _ => r) c)
  | Throw e => (Throw e, c)
  end.

(** The part of [append_range] for batches of reads. *)
Definition collect_range (stream bit bits : Z) : M Collected unit := fun c =>
  if bits =? 0 then (Ok tt, c)
  else
    let shift := Z.land bit 7 in
    if u64_max - shift - 7 <? bits then (Throw (OverflowError "packed row batch range is too large"), c)
    else
      let bytes64 := (bits + 7) / 8 in
      let source64 := (bits + shift + 7) / 8 in
      if (size_max <? source64) || (size_max - stream <? bit / 8) || (vector_max - size_of (co_result c) <? bytes64)
      then (Throw (OverflowError "packed row batch exceeds reserved storage"), c)
      else
        let offset := stream + bit / 8 in
        let start := size_of (co_result c) in
        let result := co_result c ++ replicate (Z.to_nat bytes64) 0 in
        let tail := Z.land bits 7 in
        let range := {| rb_offset := start; rb_bytes := bytes64; rb_shift := shift; rb_tail := tail |} in
        (Ok tt,
         if negb (shift =? 0) then
           {| co_result := result; co_reads := co_reads c ++ [(offset, source64, length (co_rebases c))];
              co_output_reads := co_output_reads c; co_rebases := co_rebases c ++ [range] |}
         else
           {| co_result := result; co_reads := co_reads c; co_output_reads := co_output_reads c ++ [(offset, start, bytes64)];
              co_rebases := if negb (tail =? 0) then co_rebases c ++ [range] else co_rebases c |}).

Definition append_range (t : NintRows) (stream bit bits : Z) : M Collected unit :=
  match nr_read_batch t with
  | None => direct (fun result => append_packed_range (nr_read t) result stream bit bits)
  | Some _ => collect_range stream bit bits
  end.

(** The anchors of the rows. *)
Definition append_anchors (t : NintRows) (base first count : Z) : M Collected unit :=
  let bytes := u64 (count * 2) in
  match nr_read_batch t with
  | None => direct (fun result => range ← nr_read t (base + first * 2) bytes; Ok (result ++ range))
  | Some _ => modify (fun c =>
      {| co_result := co_result c ++ replicate (Z.to_nat bytes) 0; co_reads := co_reads c;
         co_output_reads := co_output_reads c ++ [(base + first * 2, size_of (co_result c), bytes)]; co_rebases := co_rebases c |})
  end.

Definition selected_bits (selectors : list Z) (first count bits : Z) : M Collected unit :=
  direct (fun result => append_packed_range (memory_read selectors) result 0 (u64 (first * bits)) (u64 (count * bits))).

Definition slice_header (t : NintRows) (count : Z) : list Z :=
  le_bytes 1 (Z.lor (nr_bits t) (if nr_adaptive t then kNintAdaptiveStorageFlag else 0)) ++ le_bytes 1 (nr_sub_bits t) ++
  le_bytes 4 (nr_group_size t) ++ le_bytes 4 0 ++ le_bytes 4 (nr_width t) ++ le_bytes 4 2 ++
  le_bytes 8 count ++ le_bytes 8 (nr_width t) ++ le_bytes 4 count ++ le_bytes 4 (nr_groups t).

Definition slice_k_cohort (t : NintRows) (begin_ end_ : Z) (cohort : nat) : M Collected unit :=
  let first := rank_k t begin_ cohort in
  let last := rank_k t end_ cohort in
  if first =? last then mret tt
  else
    let first_bit := u64 (u64 (first * nr_groups t) * k_bits t cohort) in
    let total_bits := u64 (u64 (u32 (last - first) * nr_groups t) * k_bits t cohort) in
    append_range t (nr_scale_offsets t !!! cohort) first_bit total_bits ≫= fun _ =>
    append_range t (nr_min_offsets t !!! cohort) first_bit total_bits.

Definition slice_q_cohort (t : NintRows) (begin_ end_ : Z) (cohort : nat) : M Collected unit :=
  let first := rank_q t begin_ cohort in
  let last := rank_q t end_ cohort in
  let values := u64 (nr_groups t * nr_group_size t) in
  append_range t (nr_q_offsets t !!! cohort)
    (u64 (u64 (first * values) * q_bits t cohort)) (u64 (u64 (u32 (last - first) * values) * q_bits t cohort)).

Definition collect_rows (t : NintRows) (begin_ end_ : Z) : M Collected unit :=
  let count := u32 (end_ - begin_) in
  append_bytes (slice_header t count) ≫= fun _ =>
  append_anchors t (nr_neuron_scale_offset t) begin_ count ≫= fun _ =>
  append_anchors t (nr_neuron_min_offset t) begin_ count ≫= fun _ =>
  (if nr_adaptive t then selected_bits (nr_k_selectors t) begin_ count 2 else mret tt) ≫= fun _ =>
  for_each (seq 0 (k_cohorts t)) (slice_k_cohort t begin_ end_) ≫= fun _ =>
  (if nr_adaptive t then selected_bits (nr_q_selectors t) begin_ count 3 else mret tt) ≫= fun _ =>
  for_each (seq 0 (q_cohorts t)) (slice_q_cohort t begin_ end_).

(** Bytes written at an offset of the result. *)
Definition overwrite (offset : Z) (bytes result : list Z) : list Z := put result (Z.to_nat offset) bytes.

Definition output_read (result : list Z) (p : (Z * Z * Z) * list Z) : list Z := overwrite p.1.1.2 p.2 result.

(** A shifted or trimmed range; [source] is what was read for it. *)
Definition apply_rebase (sources : list (list Z)) (result : list Z) (p : nat * Rebase) : list Z :=
  let '(index, range) := p in
  let result :=
    if negb (rb_shift range =? 0)
    then overwrite (rb_offset range) (rebase (rb_bytes range) (sources !!! index) (rb_shift range)) result
    else result in
  if negb (rb_tail range =? 0)
  then alter (fun b => Z.land b (Z.ones (rb_tail range))) (Z.to_nat (rb_offset range + rb_bytes range - 1)) result
  else result.

Definition sources_of (c : Collected) (ranges : list (list Z)) : list (list Z) :=
  foldl (fun sources p => <[p.1.2 := p.2]> sources) (replicate (length (co_rebases c)) []) (zip (co_reads c) ranges).

(** The reads of a batch, and the result when [ranges] were read. *)
Definition batch_spans (c : Collected) : list (Z * Z) :=
  ((fun r => (r.1.1, r.1.2)) <$> co_reads c) ++ ((fun o => (o.1.1, o.2)) <$> co_output_reads c).

Definition resolve (c : Collected) (ranges : list (list Z)) : list Z :=
  let sources := sources_of c ranges in
  let result := foldl output_read (co_result c) (zip (co_output_reads c) (drop (length (co_reads c)) ranges)) in
  foldl (apply_rebase sources) result (imap pair (co_rebases c)).

Definition row_range_nbytes (t : NintRows) (begin_ end_ : Z) : outcome Z :=
  throw_if bad_range t begin_ end_ with OutOfRange "NINT contiguous row range";
  let count := u64 (end_ - begin_) in
  let bytes := 42 + count * 4 in
  selected ← (if nr_adaptive t then k ← packed_size count 2; q ← packed_size count 3; Ok (k + q) else Ok 0);
  k ← foldl (fun acc cohort =>
        bytes ← acc;
        let rows := u32 (rank_k t end_ cohort - rank_k t begin_ cohort) in
        if negb (rows =? 0) then n ← packed_size (u64 (rows * nr_groups t)) (k_bits t cohort); Ok (u64 (bytes + u64 (2 * n))) else Ok bytes)
      (Ok (u64 (bytes + selected))) (seq 0 (k_cohorts t));
  foldl (fun acc cohort =>
    bytes ← acc;
    let rows := u32 (rank_q t end_ cohort - rank_q t begin_ cohort) in
    n ← packed_size (u64 (u64 (rows * nr_groups t) * nr_group_size t)) (q_bits t cohort); Ok (u64 (bytes + n)))
    (Ok k) (seq 0 (q_cohorts t)).

Definition slice_rows_blob (t : NintRows) (begin_ end_ : Z) : outcome (list Z) :=
  throw_if bad_range t begin_ end_ with OutOfRange "NINT contiguous row range";
  nbytes ← row_range_nbytes t begin_ end_;
  throw_if vector_max <? nbytes with LengthError "vector::reserve";
  match collect_rows t begin_ end_ nothing_collected with
  | (Throw e, _) => Throw e
  | (Ok _, c) =>
      match nr_read_batch t with
      | None => Ok (co_result c)
      | Some read_batch => ranges ← read_batch (batch_spans c); Ok (resolve c ranges)
      end
  end.

(** The bits of the values of the rows before [row]. *)
Definition prefix_bits (t : NintRows) (row : Z) : Z :=
  if negb (nr_adaptive t) then u64 (row * nr_bits t)
  else
    let counts := if row =? nr_rows t then nr_q_counts t else nr_q_ranks t !!! (Z.to_nat row / kRankStride)%nat in
    let sum := foldl (fun sum cohort => u64 (sum + u64 (counts !!! cohort * (Z.of_nat cohort + 1)))) 0 (seq 0 8) in
    if negb (row =? nr_rows t) then
      foldl (fun sum index => u64 (sum + (selector (nr_q_selectors t) (Z.of_nat index) 3 + 1))) sum
        (seq (Z.to_nat row - Z.to_nat row mod kRankStride) (Z.to_nat row mod kRankStride))
    else sum.

Definition row_values_bits (t : NintRows) (begin_ end_ : Z) : outcome Z :=
  throw_if bad_range t begin_ end_ with OutOfRange "NINT contiguous row range";
  Ok (u64 (u64 (u64 (prefix_bits t end_ - prefix_bits t begin_) * nr_groups t) * nr_group_size t)).

(** ** Rows gathered for a kernel *)

Definition batch_rows (b : NintRowBatch) : Z := size_of (nb_descriptors b) / 6.

Definition selected_row_nbytes_bound (t : NintRows) : Z := nr_groups t * nr_group_size t + nr_groups t * 2 + 6.

Definition set_packed (v : list Z) (b : NintRowBatch) : NintRowBatch :=
  {| nb_packed := v; nb_descriptors := nb_descriptors b; nb_source_bytes_read := nb_source_bytes_read b; nb_width := nb_width b |}.
Definition add_bytes_read (n : Z) (b : NintRowBatch) : NintRowBatch :=
  {| nb_packed := nb_packed b; nb_descriptors := nb_descriptors b; nb_source_bytes_read := u64 (nb_source_bytes_read b + n); nb_width := nb_width b |}.
Definition add_descriptor (words : list Z) (width : Z) (b : NintRowBatch) : NintRowBatch :=
  {| nb_packed := nb_packed b; nb_descriptors := nb_descriptors b ++ words; nb_source_bytes_read := nb_source_bytes_read b; nb_width := width |}.

(** Where a row is: its cohorts, widths and the first bits in its streams. *)
Record RowPlace := { rp_kc : nat; rp_qc : nat; rp_k : Z; rp_q : Z; rp_kbit : Z; rp_qbit : Z }.

Definition place_of (t : NintRows) (row : Z) : RowPlace :=
  let kc := if nr_adaptive t then Z.to_nat (selector (nr_k_selectors t) row 2) else 0%nat in
  let qc := if nr_adaptive t then Z.to_nat (selector (nr_q_selectors t) row 3) else 0%nat in
  let k := if nr_adaptive t then nr_sub_bits t - 1 + Z.of_nat kc else nr_sub_bits t in
  let q := if nr_adaptive t then Z.of_nat qc + 1 else nr_bits t in
  let kr := if nr_adaptive t then cohort_rank (nr_k_selectors t) row 2 (Z.of_nat kc) (nr_k_ranks t) else row in
  let qr := if nr_adaptive t then cohort_rank (nr_q_selectors t) row 3 (Z.of_nat qc) (nr_q_ranks t) else row in
  {| rp_kc := kc; rp_qc := qc; rp_k := k; rp_q := q; rp_kbit := u64 (u64 (kr * nr_groups t) * k);
     rp_qbit := u64 (u64 (u64 (qr * nr_groups t) * nr_group_size t) * q) |}.

(** [q | k << 4 | ...]. *)
Definition layout_word (p : RowPlace) : Z :=
  u32 (Z.lor (Z.lor (Z.lor (Z.lor (rp_q p) (Z.shiftl (rp_k p) 4)) (Z.shiftl (Z.land (rp_qbit p) 7) 8))
                    (Z.shiftl (Z.land (rp_kbit p) 7) 12)) (Z.shiftl (Z.land (rp_kbit p) 7) 16)).

Definition not_finite (anchor : Z) : bool := Z.land anchor 31744 =? 31744.

(** [copy_stream]. *)
Definition copy_stream (t : NintRows) (offset bit count width : Z) : M NintRowBatch Z :=
  let start := offset + bit / 8 in
  let exact_bytes := (Z.land bit 7 + count * width + 7) / 8 in
  batch ← get;
  if (nr_nbytes t <? start) || (nr_nbytes t - start <? exact_bytes) || (s32_max <=? exact_bytes) ||
     (s32_max - exact_bytes - 1 <? size_of (nb_packed batch))
  then throw (RuntimeError "NINT selected row stream exceeds bounds")
  else
    let destination := u32 (size_of (nb_packed batch)) in
    modify (set_packed (nb_packed batch ++ replicate (Z.to_nat exact_bytes) 0)) ≫= fun _ =>
    range ← lift (nr_read t start exact_bytes);
    modify (set_packed (nb_packed batch ++ range ++ [0])) ≫= fun _ =>
    modify (add_bytes_read exact_bytes) ≫= fun _ =>
    mret destination.

Definition append_row (t : NintRows) (row : Z) : M NintRowBatch unit :=
  if (row <? 0) || (nr_rows t <=? row) then throw (OutOfRange "mapped NINT row ID")
  else
    batch ← get;
    if negb (nb_width batch =? 0) && negb (nb_width batch =? nr_width t)
    then throw (RuntimeError "NINT row batch widths disagree")
    else
      let p := place_of t row in
      scale ← lift (nr_read t (nr_neuron_scale_offset t + row * 2) 2); let scale := le_value scale in
      minimum ← lift (nr_read t (nr_neuron_min_offset t + row * 2) 2); let minimum := le_value minimum in
      if not_finite scale || not_finite minimum then throw (RuntimeError "NINT row anchors must be finite")
      else
        qoffset ← copy_stream t (nr_q_offsets t !!! rp_qc p) (rp_qbit p) (u64 (nr_groups t * nr_group_size t)) (rp_q p);
        soffset ← copy_stream t (nr_scale_offsets t !!! rp_kc p) (rp_kbit p) (nr_groups t) (rp_k p);
        moffset ← copy_stream t (nr_min_offsets t !!! rp_kc p) (rp_kbit p) (nr_groups t) (rp_k p);
        modify (add_descriptor [qoffset; soffset; moffset; layout_word p; nr_group_size t; Z.lor scale (Z.shiftl minimum 16)] (nr_width t)) ≫= fun _ =>
        modify (add_bytes_read 4).

(** The descriptors of appended rows: their offsets are moved. *)
Definition moved (offset : Z) (descriptors : list Z) : list Z :=
  imap (fun i word => if (i mod 6 <? 3)%nat then u32 (word + offset) else word) descriptors.

Definition publish_piece (batch piece : NintRowBatch) : NintRowBatch :=
  {| nb_packed := nb_packed batch ++ nb_packed piece;
     nb_descriptors := nb_descriptors batch ++ moved (u32 (size_of (nb_packed batch))) (nb_descriptors piece);
     nb_source_bytes_read := u64 (nb_source_bytes_read batch + nb_source_bytes_read piece);
     nb_width := nb_width batch |}.

Definition set_batch_width (width : Z) (b : NintRowBatch) : NintRowBatch :=
  {| nb_packed := nb_packed b; nb_descriptors := nb_descriptors b; nb_source_bytes_read := nb_source_bytes_read b; nb_width := width |}.

(** [validate]. *)
Definition validate (b : NintRowBatch) : outcome unit :=
  throw_if (batch_rows b =? 0) || (s32_max / 6 <? batch_rows b) || (u32_max <? u64 (batch_rows b * nb_width b))
    with RuntimeError "invalid NINT row decode batch size";
  Ok tt.

(** [append_batch]; [same] is [this == &other]. *)
Definition append_batch (batch other : NintRowBatch) (same : bool) : outcome NintRowBatch :=
  _ ← validate other;
  throw_if same || (negb (nb_width batch =? 0) && negb (nb_width batch =? nb_width other))
    with InvalidArgument "NINT row batch merge disagrees";
  throw_if (s32_max <? size_of (nb_packed other)) || (s32_max - size_of (nb_packed other) <? size_of (nb_packed batch)) ||
    (s32_max / 6 <? batch_rows batch + batch_rows other) || (u32_max <? u64 ((batch_rows batch + batch_rows other) * nb_width other))
    with OverflowError "NINT merged row batch exceeds bounds";
  Ok (set_batch_width (nb_width other) (publish_piece batch other)).

(** *** Many rows *)

Section Gather.
(** Of several workers that throw, the exception that is passed on. *)
Context (passed_on : list exn -> exn).

(** The rows of a worker, appended to a batch of its own. *)
Definition gather_part (t : NintRows) (ids : list Z) (workers part : Z) : outcome NintRowBatch * NintRowBatch :=
  let count := size_of ids in
  let first := u64 (count * part) / workers in
  let last := u64 (count * (part + 1)) / workers in
  match for_each (take (Z.to_nat (last - first)) (drop (Z.to_nat first) ids)) (append_row t) empty_batch with
  | (Ok _, piece) => (Ok piece, piece)
  | (Throw e, piece) => (Throw e, piece)
  end.

(** [host_parallel_for] over the parts. *)
Definition failures (pieces : list (outcome NintRowBatch)) : list exn :=
  omap (fun o => match o with Throw e => Some e | Ok _ => None end) pieces.
Definition gathered (pieces : list (outcome NintRowBatch)) : list NintRowBatch :=
  omap (fun o => match o with Ok piece => Some piece | Throw _ => None end) pieces.

Definition gather_parts (t : NintRows) (ids : list Z) (workers : Z) : outcome (list NintRowBatch) :=
  let pieces := (fun part => (gather_part t ids workers (Z.of_nat part)).1) <$> seq 0 (Z.to_nat workers) in
  match failures pieces with
  | [] => Ok (gathered pieces)
  | es => Throw (passed_on es)
  end.

(** Whether the pieces fit behind [total] bytes. *)
Fixpoint pieces_fit (total : Z) (pieces : list NintRowBatch) : bool :=
  match pieces with
  | [] => true
  | piece :: pieces =>
      (size_of (nb_packed piece) <=? s32_max - total) && pieces_fit (total + size_of (nb_packed piece)) pieces
  end.

(** *** One batch of reads *)

(** The streams of a row, planned. A span is source, size, destination and whether it is of an
    anchor; anchors go to halves of the descriptor's last word. *)
Record Planned := { pn_packed : Z; pn_spans : list (Z * Z * Z * bool); pn_words : list Z; pn_bytes_read : Z }.

Definition plan_stream (t : NintRows) (start bit values width : Z) : M Planned Z := fun p =>
  let start := start + bit / 8 in
  let n := (Z.land bit 7 + values * width + 7) / 8 in
  let offset := pn_packed p in
  if (nr_nbytes t <? start) || (nr_nbytes t - start <? n) || (s32_max <=? n) || (s32_max - n - 1 <? offset)
  then (Throw (OutOfRange "NINT batch stream exceeds bounds"), p)
  else (Ok (u32 offset),
        {| pn_packed := offset + n + 1; pn_spans := pn_spans p ++ [(start, n, offset, false)]; pn_words := pn_words p;
           pn_bytes_read := u64 (pn_bytes_read p + n) |}).

Definition plan_anchors (t : NintRows) (row : Z) (words : list Z) : M Planned unit := modify (fun p =>
  let at_ := (size_of (pn_words p) + 5) * 4 in
  {| pn_packed := pn_packed p;
     pn_spans := pn_spans p ++ [(nr_neuron_scale_offset t + row * 2, 2, at_, true); (nr_neuron_min_offset t + row * 2, 2, at_ + 2, true)];
     pn_words := pn_words p ++ words ++ [0]; pn_bytes_read := u64 (pn_bytes_read p + 4) |}).

Definition plan_row (t : NintRows) (row : Z) : M Planned unit :=
  let p := place_of t row in
  q ← plan_stream t (nr_q_offsets t !!! rp_qc p) (rp_qbit p) (u64 (nr_groups t * nr_group_size t)) (rp_q p);
  s ← plan_stream t (nr_scale_offsets t !!! rp_kc p) (rp_kbit p) (nr_groups t) (rp_k p);
  m ← plan_stream t (nr_min_offsets t !!! rp_kc p) (rp_kbit p) (nr_groups t) (rp_k p);
  plan_anchors t row [q; s; m; layout_word p; nr_group_size t].

(** Two bytes written into the words, at a byte offset. *)
Definition write_half (words : list Z) (destination value : Z) : list Z :=
  alter (fun w => if destination mod 4 =? 0 then Z.lor (Z.land w (Z.shiftl (Z.ones 16) 16)) value
                  else Z.lor (Z.land w (Z.ones 16)) (Z.shiftl value 16)) (Z.to_nat (destination / 4)) words.

Definition scatter (acc : list Z * list Z) (p : (Z * Z * Z * bool) * list Z) : list Z * list Z :=
  let '(packed, words) := acc in
  let '((source, size, destination, anchor), range) := p in
  if (anchor : bool) then (packed, write_half words destination (le_value range)) else (overwrite destination range packed, words).

Definition anchors_of (words : list Z) (i : nat) : Z := words !!! (i * 6 + 5)%nat.

Definition append_rows_batched (t : NintRows) (read_batch : BatchReader) (ids : list Z) (batch : NintRowBatch) : outcome NintRowBatch :=
  match for_each ids (plan_row t) {| pn_packed := 0; pn_spans := []; pn_words := []; pn_bytes_read := 0 |} with
  | (Throw e, _) => Throw e
  | (Ok _, p) =>
      ranges ← read_batch ((fun s => (s.1.1.1, s.1.1.2)) <$> pn_spans p);
      let '(packed, words) := foldl scatter (replicate (Z.to_nat (pn_packed p)) 0, pn_words p) (zip (pn_spans p) ranges) in
      throw_if existsb (fun i => not_finite (anchors_of words i) || not_finite (Z.shiftr (anchors_of words i) 16)) (seq 0 (length ids))
        with RuntimeError "NINT row anchors must be finite";
      throw_if s32_max - size_of (nb_packed batch) <? size_of packed with OverflowError "NINT selected batch exceeds bounds";
      Ok (set_batch_width (nr_width t)
            (publish_piece batch {| nb_packed := packed; nb_descriptors := words; nb_source_bytes_read := pn_bytes_read p; nb_width := nr_width t |}))
  end.

(** *** [append_rows]; [None] is a null pointer. *)
Definition append_rows (t : NintRows) (ids : option (list Z)) (count : Z) (batch : NintRowBatch) (threads : Z) : outcome NintRowBatch :=
  if count =? 0 then Ok batch
  else
    match ids with
    | None => Throw (InvalidArgument "null NINT row IDs")
    | Some ids =>
        throw_if (negb (nb_width batch =? 0) && negb (nb_width batch =? nr_width t)) || (s32_max / 6 <? batch_rows batch) ||
          (s32_max / 6 - batch_rows batch <? count) || (u32_max / nr_width t <? batch_rows batch + count)
          with RuntimeError "NINT selected row batch exceeds bounds";
        throw_if existsb (fun row => (row <? 0) || (nr_rows t <=? row)) ids with OutOfRange "mapped NINT row ID";
        match nr_read_batch t with
        | Some read_batch => append_rows_batched t read_batch ids batch
        | None =>
            let workers := if nr_parallel_reads t then Z.min count (Z.max threads 1) else 1 in
            pieces ← gather_parts t ids workers;
            throw_if s32_max <? size_of (nb_packed batch) with RuntimeError "NINT selected row stream exceeds bounds";
            throw_if negb (pieces_fit (size_of (nb_packed batch)) pieces) with RuntimeError "NINT selected row stream exceeds bounds";
            Ok (set_batch_width (nr_width t) (foldl publish_piece batch pieces))
        end
    end.
End Gather.

(** *** [copy_row] *)

Definition stream_sizes (b : NintRowBatch) (d : list Z) : list Z :=
  let q := Z.land (d !!! 3%nat) 15 in
  let k := Z.land (Z.shiftr (d !!! 3%nat) 4) 15 in
  let group := s32 (d !!! 4%nat) in
  let groups := (nb_width b + group - 1) / group in
  [(Z.land (Z.shiftr (d !!! 3%nat) 8) 7 + groups * group * q + 7) / 8;
   (Z.land (Z.shiftr (d !!! 3%nat) 12) 7 + groups * k + 7) / 8;
   (Z.land (Z.shiftr (d !!! 3%nat) 16) 7 + groups * k + 7) / 8].

(** A stream and its guard byte. *)
Definition copy_field (b : NintRowBatch) (d : list Z) (result : NintRowBatch) (f : nat) : outcome NintRowBatch :=
  let start := d !!! f in
  let size := stream_sizes b d !!! f in
  throw_if (size_of (nb_packed b) <? start) || (size_of (nb_packed b) - start <? size) with OutOfRange "NINT cached row wire bounds";
  Ok (set_packed (nb_packed result ++ slice (nb_packed b) start size ++ [0])
       (add_descriptor [u32 (size_of (nb_packed result))] (nb_width result) result)).

Definition copy_row (b : NintRowBatch) (row : Z) (output : NintRowBatch) : outcome NintRowBatch :=
  throw_if batch_rows b <=? row with OutOfRange "NINT row cache index";
  let d := slice (nb_descriptors b) (row * 6) 6 in
  result ← foldl (fun acc f => result ← acc; copy_field b d result f) (Ok (set_batch_width (nb_width b) empty_batch)) (seq 0 3);
  append_batch output (add_descriptor (drop 3 d) (nb_width result) result) false.
