(* ===== verification/NintIndex.v ===== *)
(** * The index of a NINT tensor

    Ranks by checkpoints are counts of rows ([cohort_rank_spec]), a selector is a range of
    bits, and [initialize] accepts a tensor exactly when its header is sound and its streams
    fill it: [layout] gives the places of the streams, and [index_iff] relates it to the code. *)

From stdpp Require Import base numbers strings list.
From Stdlib Require Import ZArith Lia.
From S2P Require Import Prelude Sha256 LittleEndian PackedRows NintRows.

#[local] Set Default Proof Using "Type".
#[local] Open Scope Z_scope.

(** ** Selectors *)

Lemma selector_spec stream row width :
  Forall is_byte stream -> 0 <= row -> 0 < width <= 8 -> (row + 1) * width <= 8 * size_of stream -> row * width < 2 ^ 64 ->
  selector stream row width = bits (le_value stream) (row * width) width.
Proof.
  intros Hs ?? Hin Hbig. unfold selector. rewrite u64_small by nia. set (bit := row * width) in *.
  assert (0 <= bit) by nia. rewrite !land_7. pose proof (Z.div_mod bit 8 ltac:(lia)). pose proof (Z.mod_pos_bound bit 8 ltac:(lia)).
  assert (bit / 8 < size_of stream) as Hbyte by nia.
  assert (forall i, 0 <= i < size_of stream -> stream !!! Z.to_nat i = bits (le_value stream) (8 * i) 8) as Hlookup.
  { intros i Hi. rewrite byte_bits by (unfold size_of in *; try done; lia). by rewrite Z2Nat.id by lia. }
  replace (Z.shiftl 1 width - 1) with (Z.ones width) by (unfold Z.ones; lia).
  rewrite Z.land_ones by lia. apply Z.bits_inj'. intros j Hj. rewrite bits_testbit by lia.
  destruct (Z.ltb_spec j width); [|by rewrite Z.mod_pow2_bits_high by lia].
  rewrite Z.mod_pow2_bits_low, Z.shiftr_spec by lia. cbn [andb].
  assert (forall i, 0 <= i < 8 -> Z.testbit (stream !!! Z.to_nat (bit / 8)) i = Z.testbit (le_value stream) (8 * (bit / 8) + i)) as Hfirst.
  { intros i Hi. rewrite Hlookup, bits_testbit by lia. by destruct (Z.ltb_spec i 8); [|lia]. }
  destruct (Z.ltb_spec 8 (bit mod 8 + width)).
  - rewrite Z.lor_spec, Z.shiftl_spec by lia. rewrite (Hlookup (bit / 8 + 1)) by lia.
    destruct (decide (j + bit mod 8 < 8)).
    + rewrite (Z.testbit_neg_r _ (j + bit mod 8 - 8)) by lia. rewrite orb_false_r, Hfirst by lia. f_equal. lia.
    + rewrite (Hlookup (bit / 8)), !bits_testbit by lia.
      destruct (Z.ltb_spec (j + bit mod 8) 8); [lia|]. destruct (Z.ltb_spec (j + bit mod 8 - 8) 8); [|lia]. simpl. f_equal. lia.
  - rewrite Hfirst by lia. f_equal. lia.
Qed.

Lemma selector_range stream row width : 0 <= width -> 0 <= selector stream row width < 2 ^ width.
Proof.
  intros. unfold selector. replace (Z.shiftl 1 width - 1) with (Z.ones width) by (unfold Z.ones; lia).
  rewrite Z.land_ones by done. apply Z.mod_pos_bound. lia.
Qed.

(** ** Ranks *)

(** How many of the first [n] rows are of cohort [c]. *)
Fixpoint rank_of (sel : nat -> Z) (c : Z) (n : nat) : Z :=
  match n with
  | O => 0
  | S n => rank_of sel c n + (if sel n =? c then 1 else 0)
  end.

Lemma rank_of_range sel c n : 0 <= rank_of sel c n <= Z.of_nat n.
Proof. induction n; simpl rank_of; [lia|]. destruct (_ =? c); lia. Qed.

Lemma rank_of_mono sel c n m : (n <= m)%nat -> rank_of sel c n <= rank_of sel c m.
Proof. induction 1; [lia|]. simpl rank_of. destruct (_ =? c); lia. Qed.

Lemma rank_of_lt sel c n m : sel n = c -> (n < m)%nat -> rank_of sel c n < rank_of sel c m.
Proof.
  intros Hn Hm. pose proof (rank_of_mono sel c (S n) m ltac:(lia)) as H. simpl in H.
  destruct (Z.eqb_spec (sel n) c); lia.
Qed.

Lemma rank_of_shift sel c b n : rank_of (fun i => sel (b + i)%nat) c n = rank_of sel c (b + n) - rank_of sel c b.
Proof.
  induction n as [|n IH]; simpl rank_of; [rewrite Nat.add_0_r; lia|].
  rewrite IH, Nat.add_succ_r. simpl rank_of. lia.
Qed.

Lemma rank_of_ext sel sel' c n : (forall i, (i < n)%nat -> sel i = sel' i) -> rank_of sel c n = rank_of sel' c n.
Proof. induction n; intros H; simpl; [done|]. rewrite IHn by auto. by rewrite H by lia. Qed.

Lemma rank_of_const c n : rank_of (fun _ => c) c n = Z.of_nat n.
Proof. induction n; simpl rank_of; [done|]. rewrite Z.eqb_refl. lia. Qed.

Lemma rank_of_foldl sel c start n r : 0 <= r -> r + Z.of_nat n < 2 ^ 32 ->
  foldl (fun rank index => u32 (rank + (if sel index =? c then 1 else 0))) r (seq start n) =
  r + (rank_of sel c (start + n) - rank_of sel c start).
Proof.
  revert start r. induction n as [|n IH]; intros start r ??; simpl foldl; [rewrite Nat.add_0_r; lia|].
  assert (u32 (r + (if sel start =? c then 1 else 0)) = r + (if sel start =? c then 1 else 0)) as ->
    by (unfold u32; apply Z.mod_small; destruct (_ =? c); lia).
  rewrite IH by (destruct (_ =? c); lia).
  replace (start + S n)%nat with (S start + n)%nat by lia. simpl rank_of at 2. lia.
Qed.

(** *** [build_ranks] *)

Section Ranks.
Context (cohorts : nat) (stream : list Z) (width : Z).

#[local] Notation sel := (fun i : nat => selector stream (Z.of_nat i) width).

Definition counted (n : nat) (acc : list Z * list (list Z)) : Prop :=
  length acc.1 = cohorts /\
  (forall c, (c < cohorts)%nat -> acc.1 !!! c = rank_of sel (Z.of_nat c) n) /\
  (forall j, (j * kRankStride < n)%nat -> exists counts, acc.2 !! j = Some counts /\
    forall c, (c < cohorts)%nat -> counts !!! c = rank_of sel (Z.of_nat c) (j * kRankStride)) /\
  Z.of_nat (length acc.2) = (Z.of_nat n + 255) / 256.

Lemma count_row_counted n acc : 0 <= width -> Z.of_nat n + 1 < 2 ^ 32 ->
  counted n acc -> counted (S n) (count_row stream width acc n).
Proof.
  intros Hw Hn (Hlen & Hcounts & Hchecks & Hsize). destruct acc as [counts checks]. unfold counted, count_row. cbn [fst snd] in *.
  repeat split.
  - by rewrite length_alter.
  - intros c Hc. pose proof (selector_range stream (Z.of_nat n) width Hw) as Hr. pose proof (rank_of_range sel (Z.of_nat c) n) as Hrank.
    apply list_lookup_total_correct. rewrite list_lookup_alter. simpl rank_of.
    assert (counts !! c = Some (rank_of sel (Z.of_nat c) n)) as Hl.
    { rewrite <- (Hcounts c) by done. apply list_lookup_lookup_total_lt. lia. }
    destruct (Z.eqb_spec (selector stream (Z.of_nat n) width) (Z.of_nat c)) as [He|He].
    + rewrite decide_True by lia. replace (Z.to_nat (selector stream (Z.of_nat n) width)) with c by lia.
      rewrite Hl. simpl. f_equal. unfold u32. rewrite Z.mod_small; lia.
    + rewrite decide_False by lia. rewrite Hl. f_equal. lia.
  - intros j Hj. destruct (Nat.eqb_spec (n mod kRankStride) 0) as [H0|H0].
    + destruct (decide (j * kRankStride < n)%nat) as [Hjn|Hjn].
      * destruct (Hchecks j Hjn) as (cs & Hcs & Hv). exists cs. split; [|done]. by apply lookup_app_l_Some.
      * assert (n = j * kRankStride)%nat as -> by lia. exists counts. split; [|done].
        assert (length checks = j) as <-; [|by apply list_lookup_middle].
        enough (Z.of_nat (length checks) = Z.of_nat j) by lia. rewrite Hsize. unfold kRankStride.
        replace (Z.of_nat (j * 256) + 255) with (255 + Z.of_nat j * 256) by lia. rewrite Z.div_add by lia. change (255 / 256) with 0. lia.
    + apply Hchecks. assert (j * kRankStride <> n)%nat; [|lia]. intros <-. apply H0. by apply Nat.Div0.mod_mul.
  - pose proof (Nat.div_mod_eq n kRankStride) as Hdm. pose proof (Nat.mod_upper_bound n kRankStride ltac:(done)) as Hub. unfold kRankStride in *.
    destruct (Nat.eqb_spec (n mod 256) 0) as [H0|H0].
    + rewrite length_app. simpl length. rewrite Nat2Z.inj_add, Hsize. rewrite H0 in Hdm.
      replace (Z.of_nat n + 255) with (255 + Z.of_nat (n / 256) * 256) by lia.
      replace (Z.of_nat (S n) + 255) with (0 + (Z.of_nat (n / 256) + 1) * 256) by lia. rewrite !Z.div_add by lia. done.
    + rewrite Hsize. replace (Z.of_nat n + 255) with (Z.of_nat (n mod 256) - 1 + (Z.of_nat (n / 256) + 1) * 256) by lia.
      replace (Z.of_nat (S n) + 255) with (Z.of_nat (n mod 256) + (Z.of_nat (n / 256) + 1) * 256) by lia.
      rewrite !Z.div_add, !Z.div_small by lia. done.
Qed.

Lemma build_ranks_counted rows : 0 <= width -> 0 <= rows <= s32_max ->
  counted (Z.to_nat rows) (build_ranks cohorts stream rows width).
Proof.
  intros Hw Hrows. unfold build_ranks.
  assert (forall n m acc, counted n acc -> Z.of_nat (n + m) < 2 ^ 32 ->
    counted (n + m) (foldl (count_row stream width) acc (seq n m))) as Hfold.
  { intros n m. revert n. induction m as [|m IH]; intros n acc Hacc Hm; simpl; [by rewrite Nat.add_0_r|].
    rewrite <- Nat.add_succ_comm. apply IH; [|lia]. apply count_row_counted; [done|lia|done]. }
  apply (Hfold 0%nat); [|unfold s32_max in *; simpl; lia].
  repeat split; simpl.
  - apply length_replicate.
  - intros c Hc. apply list_lookup_total_correct. by apply lookup_replicate_2.
  - intros j Hj. lia.
Qed.

(** A rank by checkpoint is a count of rows. *)
Lemma cohort_rank_spec rows row c : 0 <= width -> 0 <= rows <= s32_max -> 0 <= row < rows -> (c < cohorts)%nat ->
  cohort_rank stream row width (Z.of_nat c) (build_ranks cohorts stream rows width).2 = rank_of sel (Z.of_nat c) (Z.to_nat row).
Proof.
  intros Hw Hrows Hrow Hc. destruct (build_ranks_counted rows Hw Hrows) as (_ & _ & Hchecks & _). unfold cohort_rank.
  set (n := Z.to_nat row). pose proof (Nat.div_mod_eq n kRankStride) as Hdm. pose proof (Nat.mod_upper_bound n kRankStride ltac:(done)) as Hub.
  destruct (Hchecks (n / kRankStride)%nat) as (counts & Hcounts & Hv); [lia|].
  rewrite (list_lookup_total_correct _ _ _ Hcounts), Nat2Z.id, Hv by done.
  set (start := (n / kRankStride * kRankStride)%nat).
  replace (n - n mod kRankStride)%nat with start by lia.
  pose proof (rank_of_range sel (Z.of_nat c) start) as Hr.
  rewrite (rank_of_foldl sel) by (unfold s32_max in *; lia).
  replace (start + n mod kRankStride)%nat with n by lia. lia.
Qed.

Lemma counts_spec rows c : 0 <= width -> 0 <= rows <= s32_max -> (c < cohorts)%nat ->
  (build_ranks cohorts stream rows width).1 !!! c = rank_of sel (Z.of_nat c) (Z.to_nat rows).
Proof. intros Hw Hrows Hc. destruct (build_ranks_counted rows Hw Hrows) as (_ & H & _). by apply H. Qed.
End Ranks.

(** ** The cursor *)

Lemma bind_ok_iff {S A B} (m : M S A) (k : A -> M S B) s r s' :
  (m ≫= k) s = (Ok r, s') <-> exists a s1, m s = (Ok a, s1) /\ k a s1 = (Ok r, s').
Proof.
  unfold mbind, M_bind. destruct (m s) as [[a|e] s1]; split; [by exists a, s1|by intros (? & ? & [= -> ->] & ?)|done|by intros (? & ? & ? & ?)].
Qed.

Lemma lift_ok_iff {S A} (o : outcome A) (s s' : S) r : lift o s = (Ok r, s') <-> o = Ok r /\ s' = s.
Proof. unfold lift. split; [by intros [= -> ->]|by intros [-> ->]]. Qed.

Lemma packed_size_iff count width n : 0 <= count -> 0 < width ->
  packed_size count width = Ok n <-> count * width <= u64_max - 7 /\ n = bytes_for (count * width).
Proof.
  intros ??. unfold packed_size. assert ((u64_max - 7) / width < count <-> u64_max - 7 < count * width) as Hiff.
  { split; intros H1.
    - pose proof (Z.mul_succ_div_gt (u64_max - 7) width ltac:(lia)). nia.
    - apply Z.div_lt_upper_bound; lia. }
  destruct (Z.ltb_spec ((u64_max - 7) / width) count); split; [done|intros [? _]; lia|intros [= <-]; split; [lia|done]|by intros [_ ->]].
Qed.

Section Cursors.
Context (size : Z) (header : list Z).

Lemma skip_iff count offset start offset' : 0 <= count -> 0 <= offset <= size ->
  skip size count offset = (Ok start, offset') <-> start = offset /\ offset' = offset + count /\ offset + count <= size.
Proof.
  intros ??. unfold skip. destruct (Z.ltb_spec size offset); [lia|]. destruct (Z.ltb_spec (size - offset) count); simpl.
  - split; [done|intros (? & ? & ?); lia].
  - split; [by intros [= <- <-]; lia|by intros (-> & -> & _)].
Qed.

Lemma scalar_eq bytes offset : 0 <= bytes -> 0 <= offset -> offset + bytes <= header_size -> header_size <= size ->
  scalar size header bytes offset = (Ok (le_value (slice header offset bytes)), offset + bytes).
Proof.
  intros. unfold scalar, header_size in *. unfold mbind, M_bind, skip.
  destruct (Z.ltb_spec size offset); [lia|]. destruct (Z.ltb_spec (size - offset) bytes); [lia|]. simpl.
  destruct (Z.ltb_spec 42 offset); [lia|]. destruct (Z.ltb_spec (42 - offset) bytes); [lia|]. done.
Qed.

(** Where streams of given sizes start. *)
Fixpoint starts (offset : Z) (sizes : list Z) : list Z :=
  match sizes with [] => [] | n :: sizes => offset :: starts (offset + n) sizes end.

Lemma starts_lookup offset sizes i n : sizes !! i = Some n -> starts offset sizes !! i = Some (offset + Zsum id (take i sizes)).
Proof.
  revert offset i. induction sizes as [|m sizes IH]; intros offset [|i] Hi; simplify_eq/=; [f_equal; unfold Zsum; simpl; lia|].
  rewrite (IH _ _ Hi). f_equal. unfold Zsum. simpl. lia.
Qed.

Lemma starts_length offset sizes : length (starts offset sizes) = length sizes.
Proof. revert offset. induction sizes; intros; simpl; auto. Qed.

(** *** The streams of the values *)

Section QCohorts.
Context (values : Z) (counts : list Z).

Definition q_total (c : nat) : Z := counts !!! c * values * (Z.of_nat c + 1).

Context (Hvalues : forall c, 0 <= counts !!! c * values < 2 ^ 64).

Lemma q_bytes_nonneg c : 0 <= bytes_for (q_total c).
Proof using Hvalues. apply bytes_for_nonneg. unfold q_total. pose proof (Hvalues c). nia. Qed.

Lemma skip_q_cohort_iff acc c offset r offset' : 0 <= offset <= size ->
  skip_q_cohort size values counts acc c offset = (Ok r, offset') <->
  r = acc ++ [offset] /\ offset' = offset + bytes_for (q_total c) /\ offset' <= size /\ q_total c <= u64_max - 7.
Proof using Hvalues.
  intros Ho. pose proof (Hvalues c) as Hc. pose proof (q_bytes_nonneg c) as Hb. unfold skip_q_cohort. rewrite u64_small by done. rewrite bind_ok_iff. split.
  - intros (n & s1 & (Hn & ->)%lift_ok_iff & (start & s2 & Hs & [= <- ->])%bind_ok_iff).
    apply packed_size_iff in Hn as [Hn ->]; [|lia..]. fold (q_total c) in *. apply skip_iff in Hs as (-> & -> & ?); [|lia..]. done.
  - intros (-> & -> & ? & ?). exists (bytes_for (q_total c)), offset. split; [apply lift_ok_iff; split; [by apply packed_size_iff; [lia..|]|done]|].
    apply bind_ok_iff. exists offset, (offset + bytes_for (q_total c)). split; [by apply skip_iff|done].
Qed.

Lemma skip_q_iff l acc offset r offset' : 0 <= offset <= size ->
  fold_each l (skip_q_cohort size values counts) acc offset = (Ok r, offset') <->
  r = acc ++ starts offset ((fun c => bytes_for (q_total c)) <$> l) /\
  offset' = offset + Zsum (fun c => bytes_for (q_total c)) l /\ offset' <= size /\
  Forall (fun c => q_total c <= u64_max - 7) l.
Proof using Hvalues.
  revert acc offset. induction l as [|c l IH]; intros acc offset Hoffset; simpl fold_each.
  { unfold Zsum. simpl. rewrite app_nil_r, Z.add_0_r. split; [by intros [= -> ->]; split_and!; try lia|by intros (-> & -> & _)]. }
  pose proof (q_bytes_nonneg c) as Hb.
  assert (0 <= Zsum (fun c => bytes_for (q_total c)) l) as Hsum by (apply Zsum_nonneg, Forall_true; apply q_bytes_nonneg).
  rewrite bind_ok_iff, Forall_cons, fmap_cons. cbn [starts].
  change (Zsum (fun c => bytes_for (q_total c)) (c :: l)) with (bytes_for (q_total c) + Zsum (fun c => bytes_for (q_total c)) l).
  split.
  - intros (a & s1 & (-> & -> & ? & ?)%skip_q_cohort_iff & Hrest); [|done].
    apply IH in Hrest as (-> & -> & Hin & Hall); [|lia]. rewrite <- app_assoc. split_and!; [done|lia|lia|done..].
  - intros (-> & -> & Hin & Hn & Hall). exists (acc ++ [offset]), (offset + bytes_for (q_total c)). split.
    + apply skip_q_cohort_iff; [done|]. split_and!; [done..|lia|done].
    + apply IH; [lia|]. rewrite <- app_assoc. split_and!; [done|lia|lia|done].
Qed.
End QCohorts.

(** *** The streams of the scales and minima *)

Section KCohorts.
Context (sub_bits groups : Z) (counts : list Z).

Definition k_width (c : nat) : Z := sub_bits - 1 + Z.of_nat c.
Definition k_total (c : nat) : Z := counts !!! c * groups * k_width c.

(** A cohort with rows has a width of one to eight bits. *)
Definition k_sound (c : nat) : Prop :=
  k_total c <= u64_max - 7 /\ (counts !!! c <> 0 -> 1 <= k_width c <= 8).

Context (Hcounts : forall c, 0 <= counts !!! c * groups < 2 ^ 64) (Hsub : 1 <= sub_bits).

Lemma k_bytes_nonneg c : 0 <= bytes_for (k_total c).
Proof using Hcounts Hsub. apply bytes_for_nonneg. unfold k_total, k_width. pose proof (Hcounts c). nia. Qed.

Lemma skip_k_cohort_iff acc c offset r offset' : 0 <= offset <= size ->
  skip_k_cohort size sub_bits groups counts acc c offset = (Ok r, offset') <->
  r = (acc.1 ++ [offset], acc.2 ++ [offset + bytes_for (k_total c)]) /\ offset' = offset + 2 * bytes_for (k_total c) /\
  offset' <= size /\ k_sound c.
Proof using Hcounts Hsub.
  intros Ho. pose proof (Hcounts c) as Hc. pose proof (k_bytes_nonneg c) as Hb. unfold skip_k_cohort, k_sound. fold (k_width c).
  rewrite u64_small by done.
  assert ((negb (counts !!! c =? 0) && ((k_width c <? 1) || (8 <? k_width c)) = true) <-> ~ (counts !!! c <> 0 -> 1 <= k_width c <= 8)) as Hcheck by lia.
  destruct (negb (counts !!! c =? 0) && _) eqn:Hbad; [split; [done|intros (_ & _ & _ & _ & Hw); by destruct (proj1 Hcheck eq_refl)]|].
  assert (counts !!! c <> 0 -> 1 <= k_width c <= 8) as Hwidth by lia. clear Hcheck Hbad.
  assert (forall n s1, ((if negb (counts !!! c =? 0) then lift (packed_size (counts !!! c * groups) (k_width c)) else mret 0) : M Z Z) offset = (Ok n, s1) <->
    n = bytes_for (k_total c) /\ s1 = offset /\ k_total c <= u64_max - 7) as Hbytes.
  { intros n s1. unfold k_total in *. destruct (Z.eqb_spec (counts !!! c) 0) as [H0|H0]; simpl.
    - rewrite H0. unfold u64_max, bytes_for. simpl. split; [by intros [= <- <-]|by intros (-> & -> & _)].
    - rewrite lift_ok_iff, packed_size_iff by lia. split; [by intros [[? ->] ->]|by intros (-> & -> & ?)]. }
  rewrite bind_ok_iff. split.
  - intros (n & s1 & (-> & -> & Hn)%Hbytes & (start & s2 & Hs & (low & s3 & Hl & [= <- ->])%bind_ok_iff)%bind_ok_iff).
    apply skip_iff in Hs as (-> & -> & ?); [|lia..]. apply skip_iff in Hl as (-> & -> & ?); [|lia..]. split_and!; [done|lia|lia|done..].
  - intros (-> & -> & ? & Hn & _). exists (bytes_for (k_total c)), offset. split; [by apply Hbytes|].
    apply bind_ok_iff. exists offset, (offset + bytes_for (k_total c)). split; [apply skip_iff; lia|].
    apply bind_ok_iff. exists (offset + bytes_for (k_total c)), (offset + 2 * bytes_for (k_total c)). split; [apply skip_iff; lia|done].
Qed.

Lemma skip_k_iff l acc offset r offset' : 0 <= offset <= size ->
  fold_each l (skip_k_cohort size sub_bits groups counts) acc offset = (Ok r, offset') <->
  r = (acc.1 ++ starts offset ((fun c => 2 * bytes_for (k_total c)) <$> l),
       acc.2 ++ zip_with Z.add (starts offset ((fun c => 2 * bytes_for (k_total c)) <$> l)) ((fun c => bytes_for (k_total c)) <$> l)) /\
  offset' = offset + Zsum (fun c => 2 * bytes_for (k_total c)) l /\ offset' <= size /\ Forall k_sound l.
Proof using Hcounts Hsub.
  revert acc offset. induction l as [|c l IH]; intros acc offset Hoffset; simpl fold_each.
  { unfold Zsum. simpl. rewrite !app_nil_r, Z.add_0_r. destruct acc. split; [intros [= <- ->]; split_and!; (done || lia)|by intros (-> & -> & _)]. }
  pose proof (k_bytes_nonneg c) as Hb.
  assert (0 <= Zsum (fun c => 2 * bytes_for (k_total c)) l) as Hsum
    by (apply Zsum_nonneg, Forall_true; intros c'; pose proof (k_bytes_nonneg c'); lia).
  rewrite bind_ok_iff, Forall_cons, !fmap_cons. cbn [starts zip_with].
  change (Zsum (fun c => 2 * bytes_for (k_total c)) (c :: l)) with (2 * bytes_for (k_total c) + Zsum (fun c => 2 * bytes_for (k_total c)) l).
  split.
  - intros (a & s1 & (-> & -> & ? & ?)%skip_k_cohort_iff & Hrest); [|done].
    apply IH in Hrest as (-> & -> & Hin & Hall); [|lia]. cbn [fst snd]. rewrite <- !app_assoc. split_and!; [done|lia|lia|done..].
  - intros (-> & -> & Hin & Hn & Hall). eexists _, (offset + 2 * bytes_for (k_total c)). split.
    + apply skip_k_cohort_iff; [done|]. split_and!; [done..|lia|done].
    + apply IH; [lia|]. cbn [fst snd]. rewrite <- !app_assoc. split_and!; [done|lia|lia|done].
Qed.
End KCohorts.

(** ** The header *)

Record sound_geometry (g : Geometry) : Prop := {
  sg_bits : 1 <= ge_bits g <= 8;
  sg_sub_bits : 1 <= ge_sub_bits g <= 8;
  sg_group_size : 0 < ge_group_size g <= s32_max;
  sg_width : 0 < ge_width g <= s32_max;
  sg_rows : 0 < ge_rows g <= s32_max;
  sg_groups : ge_groups g = (ge_width g + ge_group_size g - 1) / ge_group_size g;
}.

Definition field (offset bytes : Z) : Z := le_value (slice header offset bytes).

Context (Hheader : Forall is_byte header) (Hlength : size_of header = header_size) (Hsize : header_size <= size).

Lemma field_range offset bytes : 0 <= offset -> 0 <= bytes -> offset + bytes <= header_size -> 0 <= field offset bytes < 2 ^ (8 * bytes).
Proof using Hheader Hlength.
  intros. assert (within header offset bytes) as Hw by (unfold within; lia).
  pose proof (le_value_range _ (slice_bytes header offset bytes Hheader)) as Hr. by rewrite (slice_length _ _ _ Hw) in Hr.
Qed.

Lemma next_scalar {B} bytes offset (k : Z -> M Z B) : 0 <= bytes -> 0 <= offset -> offset + bytes <= header_size ->
  (scalar size header bytes ≫= k) offset = k (field offset bytes) (offset + bytes).
Proof using Hsize. intros. unfold mbind, M_bind. by rewrite scalar_eq. Qed.

(** The header as it is read. *)
Definition header_ok (g : Geometry) : Prop :=
  sound_geometry g /\ ge_adaptive g = nint_has_adaptive_storage (field 0 1) /\ ge_bits g = nint_logical_bits (field 0 1) /\
  ge_sub_bits g = field 1 1 /\ ge_group_size g = s32 (field 2 4) /\ s32 (field 6 4) = 0 /\ ge_width g = s32 (field 10 4) /\
  field 14 4 = 2 /\ s64 (field 18 8) = ge_rows g /\ s64 (field 26 8) = ge_width g /\ ge_rows g = field 34 4 /\ ge_groups g = field 38 4.

Lemma read_geometry_iff g offset : read_geometry size header 0 = (Ok g, offset) <-> offset = header_size /\ header_ok g.
Proof using Hheader Hlength Hsize.
  unfold read_geometry, header_ok. do 6 (rewrite next_scalar by (unfold header_size; lia); cbv beta zeta).
  change (0 + 1) with 1. change (1 + 1) with 2. change (2 + 4) with 6. change (6 + 4) with 10. change (10 + 4) with 14. change (14 + 4) with 18.
  pose proof (field_range 34 4 ltac:(lia) ltac:(lia) ltac:(unfold header_size; lia)) as Hrows.
  assert (0 <= field 38 4) as Hgroups by (apply field_range; unfold header_size; lia).
  match goal with |- context [if ?c then _ else _] => destruct c eqn:Hgeometry end.
  { split; [done|]. intros (_ & Hsg & _ & Hb & Hs & Hg & Ha & Hw & Hd & _). destruct Hsg. rewrite Hb, Hs, Hg, Hw in *. lia. }
  do 4 (rewrite next_scalar by (unfold header_size; lia); cbv beta zeta).
  change (18 + 8) with 26. change (26 + 8) with 34. change (34 + 4) with 38. change (38 + 4) with 42.
  match goal with |- context [if ?c then _ else _] => destruct c eqn:Hshape end.
  { split; [done|]. intros (_ & Hsg & _ & Hb & Hs & Hg & Ha & Hw & Hd & Hsr & Hsw & Hr & Hgr). destruct Hsg. rewrite Hr, Hg, Hw, Hgr, Hsr, Hsw in *. lia. }
  split.
  - intros Heq. injection Heq as <- <-. split; [done|]. assert (forall z, s32 z <= s32_max) as Hs32 by (intros z; unfold s32, s32_max; pose proof (Z.mod_pos_bound (z + 2 ^ 31) (2 ^ 32)); lia).
    pose proof (Hs32 (field 2 4)). pose proof (Hs32 (field 10 4)). split; [constructor; simpl; lia|]. simpl. split_and!; try done; lia.
  - intros (-> & _ & ? & ? & ? & ? & _ & ? & _ & _ & _ & ? & ?). destruct g. simpl in *. by subst.
Qed.
End Cursors.

(** ** The index *)

(** What a table promises of the reader of [data]. *)
Definition serves (X : exn -> Prop) (data : list Z) (source : Source) : Prop :=
  match source with
  | Borrowed d => d = data
  | Ranges read batch _ => Reads X data read /\ (forall b, batch = Some b -> ReadsBatch X data b)
  end.

(** A stream of selectors is that of [data] at an offset. *)
Definition selects (data stream : list Z) (offset size : Z) : Prop :=
  Forall is_byte stream /\ size <= size_of stream <= size_of data /\
  forall i n, 0 <= i -> 0 <= n -> i + n <= 8 * size -> bits (le_value stream) i n = bits (le_value data) (8 * offset + i) n.

Definition geometry_of (t : NintRows) : Geometry :=
  {| ge_adaptive := nr_adaptive t; ge_bits := nr_bits t; ge_sub_bits := nr_sub_bits t; ge_group_size := nr_group_size t;
     ge_width := nr_width t; ge_rows := nr_rows t; ge_groups := nr_groups t |}.

(** The bits of the streams of a cohort. *)
Definition k_stream (t : NintRows) (c : nat) : Z := rank_k t (nr_rows t) c * nr_groups t * k_bits t c.
Definition q_stream (t : NintRows) (c : nat) : Z := rank_q t (nr_rows t) c * (nr_groups t * nr_group_size t) * q_bits t c.

Definition selector_bytes (t : NintRows) (width : Z) : Z := if nr_adaptive t then bytes_for (nr_rows t * width) else 0.

(** The places of the streams. *)
Definition k_start (t : NintRows) (c : nat) : Z :=
  42 + 4 * nr_rows t + selector_bytes t 2 + Zsum (fun c => 2 * bytes_for (k_stream t c)) (seq 0 c).
Definition q_start (t : NintRows) (c : nat) : Z :=
  k_start t (k_cohorts t) + selector_bytes t 3 + Zsum (fun c => bytes_for (q_stream t c)) (seq 0 c).

Record Indexed (data : list Z) (t : NintRows) : Prop := {
  ix_geometry : sound_geometry (geometry_of t);
  ix_nbytes : nr_nbytes t = size_of data;
  ix_anchors : nr_neuron_scale_offset t = 42 /\ nr_neuron_min_offset t = 42 + 2 * nr_rows t;
  ix_k_ranks : nr_adaptive t = true -> (nr_k_counts t, nr_k_ranks t) = build_ranks 4 (nr_k_selectors t) (nr_rows t) 2;
  ix_q_ranks : nr_adaptive t = true -> (nr_q_counts t, nr_q_ranks t) = build_ranks 8 (nr_q_selectors t) (nr_rows t) 3;
  ix_k_selects : nr_adaptive t = true -> selects data (nr_k_selectors t) (42 + 4 * nr_rows t) (selector_bytes t 2);
  ix_q_selects : nr_adaptive t = true -> selects data (nr_q_selectors t) (k_start t 4) (selector_bytes t 3);
  ix_scales : forall c, (c < k_cohorts t)%nat -> nr_scale_offsets t !!! c = k_start t c;
  ix_mins : forall c, (c < k_cohorts t)%nat -> nr_min_offsets t !!! c = k_start t c + bytes_for (k_stream t c);
  ix_values : forall c, (c < q_cohorts t)%nat -> nr_q_offsets t !!! c = q_start t c;
  ix_k_sound : forall c, (c < k_cohorts t)%nat ->
    k_stream t c <= u64_max - 7 /\ (rank_k t (nr_rows t) c <> 0 -> 1 <= k_bits t c <= 8);
  ix_q_sound : forall c, (c < q_cohorts t)%nat -> q_stream t c <= u64_max - 7;
  ix_total : q_start t (q_cohorts t) = size_of data;
}.

(** *** Geometry *)

Lemma groups_bounds g : sound_geometry g ->
  1 <= ge_groups g <= ge_width g /\ ge_width g <= ge_groups g * ge_group_size g < ge_width g + ge_group_size g.
Proof.
  intros [? ? Hgs Hw ? ->]. pose proof (Z.div_mod (ge_width g + ge_group_size g - 1) (ge_group_size g) ltac:(lia)) as Hdm.
  pose proof (Z.mod_pos_bound (ge_width g + ge_group_size g - 1) (ge_group_size g) ltac:(lia)) as Hm.
  set (n := (ge_width g + ge_group_size g - 1) / ge_group_size g) in *. nia.
Qed.

(** Products that fit 64 bits: rows times groups, and times the group size. *)
Lemma products_fit g : sound_geometry g -> forall n, 0 <= n <= ge_rows g ->
  0 <= n * ge_groups g < 2 ^ 62 /\ 0 <= n * (ge_groups g * ge_group_size g) < 2 ^ 63 /\ 0 <= ge_groups g * ge_group_size g < 2 ^ 32.
Proof.
  intros Hg n Hn. destruct (groups_bounds g Hg) as [? ?]. destruct Hg. unfold s32_max in *.
  assert (0 <= n * ge_groups g <= (2 ^ 31 - 1) * (2 ^ 31 - 1)) by nia.
  assert (0 <= n * (ge_groups g * ge_group_size g) <= (2 ^ 31 - 1) * (2 ^ 32 - 1)) by nia. lia.
Qed.

Lemma selects_source X data source offset size stream :
  Forall is_byte data -> serves X data source -> within data offset size ->
  selectors source offset size = Ok stream -> selects data stream offset size.
Proof.
  intros Hd Hs Hw Hsel. unfold selects. destruct source as [d|read batch parallel]; simpl in *.
  - subst d. injection Hsel as <-. destruct Hw as (? & ? & ?). split_and!; [by apply Forall_drop|unfold size_of in *; rewrite length_drop; lia..|].
    intros i n ???. rewrite le_value_drop, Z2Nat.id by (done || lia). unfold bits. by rewrite Z.shiftr_shiftr by lia.
  - destruct Hs as [Hread _]. apply (attempt_inv _ _ _ _ (Hread _ _ Hw)) in Hsel as ->. split_and!; [by apply slice_bytes|rewrite slice_length by done; unfold within in *; lia..|].
    intros i n ???. destruct Hw as (? & ? & ?). rewrite slice_value, bits_bits by (done || lia). done.
Qed.

Lemma counts_range cohorts stream rows width c : 0 <= width -> 0 < rows <= s32_max ->
  0 <= (build_ranks cohorts stream rows width).1 !!! c <= rows.
Proof.
  intros Hw Hr. destruct (decide (c < cohorts)%nat).
  - rewrite counts_spec by (done || lia). pose proof (rank_of_range (fun i => selector stream (Z.of_nat i) width) (Z.of_nat c) (Z.to_nat rows)). lia.
  - destruct (build_ranks_counted cohorts stream width rows Hw ltac:(lia)) as [Hlen _].
    rewrite list_lookup_total_alt, lookup_ge_None_2 by lia. change (0 <= 1 <= rows). lia.
Qed.

Lemma Zsum_ext {A} (f g : A -> Z) l : (forall x, x ∈ l -> f x = g x) -> Zsum f l = Zsum g l.
Proof.
  induction l as [|x l IH]; intros H; [done|]. change (f x + Zsum f l = g x + Zsum g l).
  rewrite IH by (intros; apply H; by right). rewrite H by left. done.
Qed.

Lemma Zsum_fmap {A} (f : A -> Z) l : Zsum id (f <$> l) = Zsum f l.
Proof. induction l as [|x l IH]; [done|]. change (f x + Zsum id (f <$> l) = f x + Zsum f l). by rewrite IH. Qed.

Lemma starts_seq offset (f : nat -> Z) n c : (c < n)%nat ->
  starts offset (f <$> seq 0 n) !! c = Some (offset + Zsum f (seq 0 c)).
Proof.
  intros Hc. rewrite (starts_lookup _ _ _ (f c)) by (rewrite list_lookup_fmap, lookup_seq_lt by done; done).
  rewrite <- fmap_take, take_seq, Zsum_fmap. by replace (c `min` n)%nat with c by lia.
Qed.

(** *** Adaptive storage *)

Section Adaptive.
#[local] Set Default Proof Using "Hg".
Context (source : Source) (nbytes : Z) (g : Geometry) (Hg : sound_geometry g).

#[local] Notation start := (42 + 4 * ge_rows g).
#[local] Notation values := (ge_groups g * ge_group_size g).

Definition k_ranked (ksel : list Z) := build_ranks 4 ksel (ge_rows g) 2.
Definition q_ranked (qsel : list Z) := build_ranks 8 qsel (ge_rows g) 3.
Definition k_size (ksel : list Z) (c : nat) : Z := bytes_for (k_total (ge_sub_bits g) (ge_groups g) (k_ranked ksel).1 c).
Definition q_size (qsel : list Z) (c : nat) : Z := bytes_for (q_total values (q_ranked qsel).1 c).
Definition k_end (ksel : list Z) : Z := start + bytes_for (ge_rows g * 2) + Zsum (fun c => 2 * k_size ksel c) (seq 0 4).
Definition q_end (ksel qsel : list Z) : Z := k_end ksel + bytes_for (ge_rows g * 3) + Zsum (q_size qsel) (seq 0 8).

Definition adaptive_table (ksel qsel : list Z) : NintRows :=
  let scales := starts (start + bytes_for (ge_rows g * 2)) ((fun c => 2 * k_size ksel c) <$> seq 0 4) in
  {| nr_read := source_read source; nr_read_batch := source_batch source; nr_nbytes := nbytes;
     nr_parallel_reads := source_parallel source; nr_k_selectors := ksel; nr_q_selectors := qsel;
     nr_owned := owned source (bytes_for (ge_rows g * 2) + bytes_for (ge_rows g * 3));
     nr_k_ranks := (k_ranked ksel).2; nr_q_ranks := (q_ranked qsel).2; nr_k_counts := (k_ranked ksel).1; nr_q_counts := (q_ranked qsel).1;
     nr_scale_offsets := scales; nr_min_offsets := zip_with Z.add scales (k_size ksel <$> seq 0 4);
     nr_q_offsets := starts (k_end ksel + bytes_for (ge_rows g * 3)) (q_size qsel <$> seq 0 8);
     nr_neuron_scale_offset := 42; nr_neuron_min_offset := 42 + 2 * ge_rows g; nr_rows := ge_rows g;
     nr_width := ge_width g; nr_groups := ge_groups g; nr_group_size := ge_group_size g; nr_bits := ge_bits g;
     nr_sub_bits := ge_sub_bits g; nr_adaptive := true |}.

Lemma k_counts_fit ksel c : 0 <= (k_ranked ksel).1 !!! c * ge_groups g < 2 ^ 64.
Proof.
  pose proof (counts_range 4 ksel (ge_rows g) 2 c ltac:(lia) (sg_rows _ Hg)) as Hc.
  destruct (products_fit g Hg _ Hc) as (? & _ & _). unfold k_ranked. lia.
Qed.

Lemma q_counts_fit qsel c : 0 <= (q_ranked qsel).1 !!! c * values < 2 ^ 64.
Proof.
  pose proof (counts_range 8 qsel (ge_rows g) 3 c ltac:(lia) (sg_rows _ Hg)) as Hc.
  destruct (products_fit g Hg _ Hc) as (_ & ? & _). unfold q_ranked. lia.
Qed.

Lemma k_size_nonneg ksel c : 0 <= k_size ksel c.
Proof. apply k_bytes_nonneg; [apply k_counts_fit|apply (sg_sub_bits _ Hg)]. Qed.

Lemma q_size_nonneg qsel c : 0 <= q_size qsel c.
Proof. apply q_bytes_nonneg, q_counts_fit. Qed.

Lemma k_end_bound ksel : start + bytes_for (ge_rows g * 2) <= k_end ksel.
Proof.
  enough (0 <= Zsum (fun c => 2 * k_size ksel c) (seq 0 4)) by (unfold k_end; lia).
  apply Zsum_nonneg, Forall_true. intros c. pose proof (k_size_nonneg ksel c). lia.
Qed.

Lemma q_end_bound ksel qsel : k_end ksel + bytes_for (ge_rows g * 3) <= q_end ksel qsel.
Proof.
  enough (0 <= Zsum (q_size qsel) (seq 0 8)) by (unfold q_end; lia). apply Zsum_nonneg, Forall_true. apply q_size_nonneg.
Qed.

Lemma selector_bytes_iff width offset size s1 : 0 < width <= 3 ->
  (lift (packed_size (ge_rows g) width) : M Z Z) offset = (Ok size, s1) <-> size = bytes_for (ge_rows g * width) /\ s1 = offset.
Proof.
  intros. destruct Hg. unfold s32_max in *. rewrite lift_ok_iff, packed_size_iff by lia. unfold u64_max.
  split; [by intros [[? ->] ->]|intros [-> ->]; split; [split; [nia|done]|done]].
Qed.

(** The streams are those of the table, and end where the tensor does. *)
Definition fills (ksel qsel : list Z) : Prop :=
  selectors source start (bytes_for (ge_rows g * 2)) = Ok ksel /\
  selectors source (k_end ksel) (bytes_for (ge_rows g * 3)) = Ok qsel /\
  Forall (k_sound (ge_sub_bits g) (ge_groups g) (k_ranked ksel).1) (seq 0 4) /\
  Forall (fun c => q_total values (q_ranked qsel).1 c <= u64_max - 7) (seq 0 8) /\
  q_end ksel qsel = nbytes.

Lemma index_adaptive_inv t : start <= nbytes ->
  index_adaptive source nbytes g 42 (42 + 2 * ge_rows g) start = (Ok t, nbytes) ->
  exists ksel qsel, fills ksel qsel /\ t = adaptive_table ksel qsel.
Proof.
  intros Hstart. unfold index_adaptive. pose proof Hg as [_ _ _ _ Hrows _].
  pose proof (bytes_for_nonneg (ge_rows g * 2) ltac:(lia)) as Hk0. pose proof (bytes_for_nonneg (ge_rows g * 3) ltac:(lia)) as Hq0.
  intros (ksize & s1 & Hksize & (koff & s2 & Hkskip & (ksel & s3 & (Hksel & ->)%lift_ok_iff & Hrest)%bind_ok_iff)%bind_ok_iff)%bind_ok_iff.
  apply selector_bytes_iff in Hksize as [-> ->]; [|lia]. apply skip_iff in Hkskip as (-> & -> & Hkin); [|lia..].
  fold (k_ranked ksel) in Hrest. apply bind_ok_iff in Hrest as (offsets & s4 & Hoffsets & Hrest).
  apply skip_k_iff in Hoffsets as (-> & -> & Hkend & Hksound); [|apply k_counts_fit|apply (sg_sub_bits _ Hg)|lia].
  match type of Hkend with ?e <= _ => change e with (k_end ksel) in * end. pose proof (k_end_bound ksel) as Hkb.
  apply bind_ok_iff in Hrest as (qsize & s5 & Hqsize & (qoff & s6 & Hqskip & (qsel & s7 & (Hqsel & ->)%lift_ok_iff & Hrest)%bind_ok_iff)%bind_ok_iff).
  apply selector_bytes_iff in Hqsize as [-> ->]; [|lia]. apply skip_iff in Hqskip as (-> & -> & Hqin); [|lia..].
  fold (q_ranked qsel) in Hrest. apply bind_ok_iff in Hrest as (qoffsets & s8 & Hqoffsets & Ht).
  destruct (products_fit g Hg 0 ltac:(lia)) as (_ & _ & Hvalues). rewrite u64_small in Hqoffsets by lia.
  apply skip_q_iff in Hqoffsets as (-> & -> & Hqend & Hqsound); [|apply q_counts_fit|lia].
  injection Ht as <- Hend. exists ksel, qsel. by split.
Qed.

Lemma index_adaptive_intro ksel qsel : fills ksel qsel ->
  index_adaptive source nbytes g 42 (42 + 2 * ge_rows g) start = (Ok (adaptive_table ksel qsel), nbytes).
Proof.
  intros (Hksel & Hqsel & Hksound & Hqsound & Hend). unfold index_adaptive. pose proof Hg as [_ _ _ _ Hrows _].
  pose proof (bytes_for_nonneg (ge_rows g * 2) ltac:(lia)) as Hk0. pose proof (bytes_for_nonneg (ge_rows g * 3) ltac:(lia)) as Hq0.
  pose proof (k_end_bound ksel) as Hkb. pose proof (q_end_bound ksel qsel) as Hqb.
  apply bind_ok_iff. exists (bytes_for (ge_rows g * 2)), start. split; [by apply selector_bytes_iff|].
  apply bind_ok_iff. exists start, (start + bytes_for (ge_rows g * 2)). split; [apply skip_iff; lia|].
  apply bind_ok_iff. exists ksel, (start + bytes_for (ge_rows g * 2)). split; [by apply lift_ok_iff|]. fold (k_ranked ksel).
  apply bind_ok_iff. eexists _, (k_end ksel). split.
  { apply skip_k_iff; [apply k_counts_fit|apply (sg_sub_bits _ Hg)|lia|]. split_and!; [done|done|lia|done]. }
  apply bind_ok_iff. exists (bytes_for (ge_rows g * 3)), (k_end ksel). split; [by apply selector_bytes_iff|].
  apply bind_ok_iff. exists (k_end ksel), (k_end ksel + bytes_for (ge_rows g * 3)). split; [apply skip_iff; lia|].
  apply bind_ok_iff. exists qsel, (k_end ksel + bytes_for (ge_rows g * 3)). split; [by apply lift_ok_iff|]. fold (q_ranked qsel).
  apply bind_ok_iff. eexists _, nbytes. split; [|done].
  destruct (products_fit g Hg 0 ltac:(lia)) as (_ & _ & Hvalues). rewrite u64_small by lia.
  apply skip_q_iff; [apply q_counts_fit|lia|]. split_and!; [done|by symmetry|lia|done].
Qed.
End Adaptive.

(** *** Storage of one width *)

Section Uniform.
#[local] Set Default Proof Using "Hg".
Context (source : Source) (nbytes : Z) (g : Geometry) (Hg : sound_geometry g).

#[local] Notation start := (42 + 4 * ge_rows g).
#[local] Notation values := (ge_groups g * ge_group_size g).

Definition meta_bits : Z := ge_rows g * ge_groups g * ge_sub_bits g.
Definition value_bits : Z := ge_rows g * values * ge_bits g.

Definition uniform_table : NintRows :=
  {| nr_read := source_read source; nr_read_batch := source_batch source; nr_nbytes := nbytes;
     nr_parallel_reads := source_parallel source; nr_k_selectors := []; nr_q_selectors := []; nr_owned := 0;
     nr_k_ranks := []; nr_q_ranks := []; nr_k_counts := replicate 4 0; nr_q_counts := replicate 8 0;
     nr_scale_offsets := start :: replicate 3 0; nr_min_offsets := (start + bytes_for meta_bits) :: replicate 3 0;
     nr_q_offsets := (start + 2 * bytes_for meta_bits) :: replicate 7 0;
     nr_neuron_scale_offset := 42; nr_neuron_min_offset := 42 + 2 * ge_rows g; nr_rows := ge_rows g;
     nr_width := ge_width g; nr_groups := ge_groups g; nr_group_size := ge_group_size g; nr_bits := ge_bits g;
     nr_sub_bits := ge_sub_bits g; nr_adaptive := false |}.

Definition fills_uniform : Prop :=
  meta_bits <= u64_max - 7 /\ value_bits <= u64_max - 7 /\ start + 2 * bytes_for meta_bits + bytes_for value_bits = nbytes.

Lemma uniform_bits : 0 <= meta_bits /\ 0 <= value_bits /\ u64 (ge_rows g * ge_groups g) = ge_rows g * ge_groups g /\
  u64 (ge_rows g * u64 values) = ge_rows g * values.
Proof.
  pose proof Hg as [Hb Hs _ _ Hrows _]. destruct (products_fit g Hg (ge_rows g) ltac:(lia)) as (? & ? & ?). unfold meta_bits, value_bits.
  rewrite !u64_small by (rewrite ?u64_small by lia; lia). nia.
Qed.

Lemma index_uniform_iff t : start <= nbytes ->
  index_uniform source nbytes g 42 (42 + 2 * ge_rows g) start = (Ok t, nbytes) <-> fills_uniform /\ t = uniform_table.
Proof.
  intros Hstart. pose proof Hg as [Hb Hs _ _ Hrows _]. destruct uniform_bits as (Hm0 & Hv0 & Hmeta & Hvalue).
  destruct (products_fit g Hg (ge_rows g) ltac:(lia)) as (? & ? & ?).
  pose proof (bytes_for_nonneg _ Hm0) as Hmb. pose proof (bytes_for_nonneg _ Hv0) as Hvb.
  unfold index_uniform. rewrite Hmeta, Hvalue. split.
  - intros (m & s1 & (Hm & ->)%lift_ok_iff & (so & s2 & Hso & (mo & s3 & Hmo & (q & s4 & (Hq & ->)%lift_ok_iff & (qo & s5 & Hqo & Ht)%bind_ok_iff)%bind_ok_iff)%bind_ok_iff)%bind_ok_iff)%bind_ok_iff.
    apply packed_size_iff in Hm as [Hm ->]; [|lia..]. apply packed_size_iff in Hq as [Hq ->]; [|lia..]. fold meta_bits value_bits in *.
    apply skip_iff in Hso as (-> & -> & ?); [|lia..]. apply skip_iff in Hmo as (-> & -> & ?); [|lia..]. apply skip_iff in Hqo as (-> & -> & ?); [|lia..].
    injection Ht as <- Hend. replace (start + bytes_for meta_bits + bytes_for meta_bits) with (start + 2 * bytes_for meta_bits) in * by lia. done.
  - intros [(Hm & Hv & Hend) ->].
    apply bind_ok_iff. exists (bytes_for meta_bits), start. split; [apply lift_ok_iff; split; [by apply packed_size_iff; [lia..|]|done]|].
    apply bind_ok_iff. exists start, (start + bytes_for meta_bits). split; [apply skip_iff; lia|].
    apply bind_ok_iff. exists (start + bytes_for meta_bits), (start + 2 * bytes_for meta_bits). split; [apply skip_iff; lia|].
    apply bind_ok_iff. exists (bytes_for value_bits), (start + 2 * bytes_for meta_bits).
    split; [apply lift_ok_iff; split; [by apply packed_size_iff; [lia..|]|done]|].
    apply bind_ok_iff. exists (start + 2 * bytes_for meta_bits), nbytes. split; [apply skip_iff; lia|done].
Qed.
End Uniform.

(** *** The tables are indexed *)

Lemma adaptive_table_indexed X data source g ksel qsel :
  Forall is_byte data -> serves X data source -> sound_geometry g -> ge_adaptive g = true ->
  fills source (size_of data) g ksel qsel -> Indexed data (adaptive_table source (size_of data) g ksel qsel).
Proof.
  intros Hd Hs Hg Ha (Hksel & Hqsel & Hksound & Hqsound & Hend). pose proof Hg as [_ _ _ _ Hrows _].
  set (t := adaptive_table _ _ _ _ _).
  pose proof (bytes_for_nonneg (ge_rows g * 2) ltac:(lia)) as Hk0. pose proof (bytes_for_nonneg (ge_rows g * 3) ltac:(lia)) as Hq0.
  pose proof (k_end_bound g Hg ksel) as Hkb. pose proof (q_end_bound g Hg ksel qsel) as Hqb.
  assert (forall c, rank_k t (ge_rows g) c = (k_ranked g ksel).1 !!! c) as Hrk by (intros c; unfold rank_k; simpl; by rewrite Z.eqb_refl).
  assert (forall c, rank_q t (ge_rows g) c = (q_ranked g qsel).1 !!! c) as Hrq by (intros c; unfold rank_q; simpl; by rewrite Z.eqb_refl).
  assert (forall c, bytes_for (k_stream t c) = k_size g ksel c) as Hks by (intros c; unfold k_stream; simpl; by rewrite Hrk).
  assert (forall c, bytes_for (q_stream t c) = q_size g qsel c) as Hqs by (intros c; unfold q_stream; simpl; by rewrite Hrq).
  assert (forall c, k_start t c = 42 + 4 * ge_rows g + bytes_for (ge_rows g * 2) + Zsum (fun c => 2 * k_size g ksel c) (seq 0 c)) as Hkstart.
  { intros c. unfold k_start, selector_bytes. simpl. f_equal. apply Zsum_ext. intros c' _. by rewrite Hks. }
  assert (forall c, q_start t c = k_end g ksel + bytes_for (ge_rows g * 3) + Zsum (q_size g qsel) (seq 0 c)) as Hqstart.
  { intros c. unfold q_start. rewrite Hkstart. unfold selector_bytes. simpl. fold (k_end g ksel). f_equal. apply Zsum_ext. intros c' _. apply Hqs. }
  constructor; cbn [t adaptive_table nr_rows nr_adaptive nr_nbytes nr_neuron_scale_offset nr_neuron_min_offset nr_k_counts nr_k_ranks
    nr_q_counts nr_q_ranks nr_k_selectors nr_q_selectors nr_scale_offsets nr_min_offsets nr_q_offsets]; try done.
  - by destruct g; simpl in *; subst.
  - intros _. symmetry. apply surjective_pairing.
  - intros _. symmetry. apply surjective_pairing.
  - intros _. unfold selector_bytes. simpl. eapply selects_source; [done..| |done]. unfold within. lia.
  - intros _. rewrite Hkstart. fold (k_end g ksel). unfold selector_bytes. simpl. eapply selects_source; [done..| |done]. unfold within. lia.
  - intros c Hc. rewrite Hkstart. apply list_lookup_total_correct. by apply starts_seq.
  - intros c Hc. rewrite Hkstart, Hks. apply list_lookup_total_correct. rewrite lookup_zip_with, starts_seq by done.
    rewrite list_lookup_fmap, lookup_seq_lt by done. done.
  - intros c Hc. rewrite Hqstart. apply list_lookup_total_correct. by apply starts_seq.
  - intros c Hc. rewrite Hrk. unfold k_stream. simpl. rewrite Hrk.
    rewrite Forall_forall in Hksound. apply Hksound, elem_of_seq. unfold k_cohorts in Hc. simpl in Hc. lia.
  - intros c Hc. unfold q_stream. simpl. rewrite Hrq. rewrite Forall_forall in Hqsound. apply Hqsound, elem_of_seq.
    unfold q_cohorts in Hc. simpl in Hc. lia.
  - by rewrite Hqstart.
Qed.

Lemma uniform_table_indexed data source g :
  sound_geometry g -> ge_adaptive g = false -> fills_uniform (size_of data) g ->
  Indexed data (uniform_table source (size_of data) g).
Proof.
  intros Hg Ha (Hm & Hv & Hend). pose proof Hg as [Hb Hsb _ _ Hrows _]. set (t := uniform_table _ _ _).
  assert (forall c, rank_k t (ge_rows g) c = ge_rows g) as Hrk by (intros c; unfold rank_k, u32, s32_max in *; simpl; apply Z.mod_small; lia).
  assert (forall c, rank_q t (ge_rows g) c = ge_rows g) as Hrq by (intros c; unfold rank_q, u32, s32_max in *; simpl; apply Z.mod_small; lia).
  assert (k_stream t 0 = meta_bits g) as Hk by (unfold k_stream; simpl; by rewrite Hrk).
  assert (q_stream t 0 = value_bits g) as Hq by (unfold q_stream; simpl; by rewrite Hrq).
  constructor; simpl; try done.
  - by destruct g; simpl in *; subst.
  - intros [|c] Hc; [|unfold k_cohorts in Hc; simpl in Hc; lia]. unfold k_start, selector_bytes, Zsum. simpl. lia.
  - intros [|c] Hc; [|unfold k_cohorts in Hc; simpl in Hc; lia]. rewrite Hk. unfold k_start, selector_bytes, Zsum. simpl. lia.
  - intros [|c] Hc; [|unfold q_cohorts in Hc; simpl in Hc; lia]. unfold q_start, k_start, selector_bytes, Zsum. simpl. rewrite Hk. lia.
  - intros [|c] Hc; [|unfold k_cohorts in Hc; simpl in Hc; lia]. by rewrite Hk.
  - intros [|c] Hc; [|unfold q_cohorts in Hc; simpl in Hc; lia]. by rewrite Hq.
  - unfold q_start, k_start, selector_bytes, Zsum. simpl. rewrite Hk, Hq. lia.
Qed.

(** *** [initialize] *)

Lemma initialize_inv X data source t :
  Forall is_byte data -> serves X data source -> initialize source (size_of data) = Ok t ->
  header_size <= size_of data /\ exists g, header_ok (slice data 0 header_size) g /\ sound_geometry g /\
  42 + 4 * ge_rows g <= size_of data /\
  (if ge_adaptive g then index_adaptive else index_uniform) source (size_of data) g 42 (42 + 2 * ge_rows g) (42 + 4 * ge_rows g) = (Ok t, size_of data).
Proof.
  intros Hd Hs. unfold initialize. destruct (Z.ltb_spec (size_of data) header_size) as [|Hsize]; [done|].
  assert (within data 0 header_size) as Hw by (unfold within, header_size in *; lia).
  assert (attempt X (source_read source 0 header_size) (slice data 0 header_size)) as Hread.
  { destruct source; simpl in *; [by subst|by apply Hs]. }
  destruct (source_read source 0 header_size) as [header|e]; [|done]. simpl in Hread. subst header. simpl.
  destruct (index_tensor _ _ _ _) as [[t'|e] offset] eqn:Ht; [|done]. destruct (Z.eqb_spec offset (size_of data)) as [->|]; [|done].
  intros [= ->]. split; [done|]. unfold index_tensor in Ht. apply bind_ok_iff in Ht as (g & o & Hgeo & Ht).
  apply read_geometry_iff in Hgeo as [-> Hok]; [|by apply slice_bytes|by apply slice_length|done].
  exists g. pose proof (proj1 Hok) as Hg. destruct Hg as [? ? ? ? Hrows ?]. unfold s32_max, header_size in *.
  apply bind_ok_iff in Ht as (so & o1 & Hso & Ht). rewrite u64_small in Hso by lia. apply skip_iff in Hso as (-> & -> & Hso); [|lia..].
  apply bind_ok_iff in Ht as (mo & o2 & Hmo & Ht). rewrite u64_small in Hmo by lia. apply skip_iff in Hmo as (-> & -> & Hmo); [|lia..].
  split_and!; [done|by apply (proj1 Hok)|lia|].
  replace (42 + ge_rows g * 2) with (42 + 2 * ge_rows g) in Ht by lia.
  by replace (42 + 2 * ge_rows g + ge_rows g * 2) with (42 + 4 * ge_rows g) in Ht by lia.
Qed.

Lemma open_intro data g t :
  Forall is_byte data ->
  header_size <= size_of data -> header_ok (slice data 0 header_size) g -> 42 + 4 * ge_rows g <= size_of data ->
  (if ge_adaptive g then index_adaptive else index_uniform) (Borrowed data) (size_of data) g 42 (42 + 2 * ge_rows g) (42 + 4 * ge_rows g) = (Ok t, size_of data) ->
  open_memory data = Ok t.
Proof.
  intros Hd Hsize Hok Hstart Ht. unfold open_memory, initialize. destruct (Z.ltb_spec (size_of data) header_size) as [|_]; [lia|].
  simpl.
  assert (within data 0 header_size) as Hw by (unfold within, header_size in *; lia). pose proof (proj1 Hok) as Hg. destruct Hg as [? ? ? ? Hrows ?].
  unfold s32_max, header_size in *.
  assert (index_tensor (Borrowed data) (size_of data) (slice data 0 42) 0 = (Ok t, size_of data)) as ->; [|by rewrite Z.eqb_refl].
  unfold index_tensor. apply bind_ok_iff. exists g, 42. split; [apply read_geometry_iff; [by apply slice_bytes|by apply slice_length|done|done]|].
  apply bind_ok_iff. exists 42, (42 + 2 * ge_rows g). split; [rewrite u64_small by lia; apply skip_iff; lia|].
  apply bind_ok_iff. exists (42 + 2 * ge_rows g), (42 + 4 * ge_rows g). split; [rewrite u64_small by lia; apply skip_iff; lia|done].
Qed.

(** A table that opens is indexed, and reads where it was opened. *)
Lemma initialize_indexed X data source t :
  Forall is_byte data -> serves X data source -> initialize source (size_of data) = Ok t ->
  Indexed data t /\ nr_read t = source_read source /\ nr_read_batch t = source_batch source.
Proof.
  intros Hd Hs Ht. destruct (initialize_inv _ _ _ _ Hd Hs Ht) as (Hsize & g & Hok & Hg & Hstart & Hindex).
  destruct (ge_adaptive g) eqn:Ha.
  - apply index_adaptive_inv in Hindex as (ksel & qsel & Hfill & ->); [|done..]. split; [|done]. by eapply adaptive_table_indexed.
  - apply index_uniform_iff in Hindex as [Hfill ->]; [|done..]. split; [|done]. by apply uniform_table_indexed.
Qed.
