(* ===== verification/NintSlice.v ===== *)
(** * Slices of a NINT tensor

    [slice_rows_blob] collects its result either at once or, with a reader of batches, as a
    plan that is resolved after one batch of reads. Both append the same bytes ([adds]), so
    a slice is [sliced], whichever reader the table has; [slice_keeps_rows] states that the
    slice opens as a tensor whose rows are the rows of the range, code by code. *)

From stdpp Require Import base numbers strings list.
From Stdlib Require Import ZArith Lia.
From S2P Require Import Prelude Sha256 LittleEndian PackedRows NintRows NintIndex.

#[local] Set Default Proof Using "Type".
#[local] Open Scope Z_scope.

(** ** Writing into the result *)

Lemma overwrite_app offset bytes a ext : 0 <= offset -> offset + size_of bytes <= size_of a ->
  overwrite offset bytes (a ++ ext) = overwrite offset bytes a ++ ext.
Proof.
  intros ??. unfold overwrite, put, size_of in *. rewrite take_app_le, drop_app_le by lia. by rewrite !(assoc_L (++)).
Qed.

Lemma overwrite_end bytes a ext : length bytes = length ext -> overwrite (size_of a) bytes (a ++ ext) = a ++ bytes.
Proof.
  intros Hl. unfold overwrite, size_of. rewrite Nat2Z.id, put_app by lia. by rewrite Hl, drop_all, app_nil_r.
Qed.

Lemma overwrite_length offset bytes a : 0 <= offset -> offset + size_of bytes <= size_of a -> length (overwrite offset bytes a) = length a.
Proof. intros. unfold overwrite, size_of in *. apply put_length. lia. Qed.

Lemma trim_end tail a bytes : (0 < length bytes)%nat -> tail <> 0 ->
  alter (fun b => Z.land b (Z.ones tail)) (Z.to_nat (size_of a + size_of bytes - 1)) (a ++ bytes) = a ++ trim_tail tail bytes.
Proof.
  intros ??. unfold trim_tail. rewrite (proj2 (Z.eqb_neq tail 0)) by done. unfold size_of.
  replace (Z.to_nat (Z.of_nat (length a) + Z.of_nat (length bytes) - 1)) with (length a + (length bytes - 1))%nat by lia. apply alter_app_r.
Qed.

Lemma trim_tail_length tail bytes : length (trim_tail tail bytes) = length bytes.
Proof. unfold trim_tail. destruct (tail =? 0); [done|apply length_alter]. Qed.

Lemma rebase_length bytes source shift : length (rebase bytes source shift) = Z.to_nat bytes.
Proof. unfold rebase. by rewrite length_fmap, length_seq. Qed.

(** ** Plans and what they resolve to *)

Section Plans.
Context (data : list Z).

Definition perfect (spans : list (Z * Z)) : list (list Z) := (fun s => slice data s.1 s.2) <$> spans.

Definition placed (sources : list (list Z)) (r : Z * Z * nat) : list (list Z) := <[r.2 := slice data r.1.1 r.1.2]> sources.
Definition written (result : list Z) (o : Z * Z * Z) : list Z := overwrite o.1.2 (slice data o.1.1 o.2) result.

Definition sources_read (c : Collected) : list (list Z) := foldl placed (replicate (length (co_rebases c)) []) (co_reads c).

(** The result when everything is read. *)
Definition resolved (c : Collected) : list Z :=
  foldl (apply_rebase (sources_read c)) (foldl written (co_result c) (co_output_reads c)) (imap pair (co_rebases c)).

Lemma resolve_perfect c : resolve c (perfect (batch_spans c)) = resolved c.
Proof.
  unfold resolve, resolved, perfect, batch_spans. rewrite fmap_app, <- !list_fmap_compose. f_equal; [f_equal|].
  - unfold sources_of, sources_read. generalize (replicate (length (co_rebases c)) ([] : list Z)).
    induction (co_reads c) as [|r reads IH]; intros s; [done|]. simpl. apply IH.
  - rewrite drop_app_length' by by rewrite length_fmap.
    generalize (co_result c). induction (co_output_reads c) as [|o outs IH]; intros r; [done|]. simpl. apply IH.
Qed.

Definition rebase_in (size : Z) (r : Rebase) : Prop := 0 <= rb_offset r /\ 0 < rb_bytes r /\ rb_offset r + rb_bytes r <= size.

(** A plan whose reads are inside the data and whose writes are inside the result. *)
Record planned (batched : bool) (c : Collected) : Prop := {
  pl_reads : Forall (fun r => within data r.1.1 r.1.2 /\ (r.2 < length (co_rebases c))%nat) (co_reads c);
  pl_outputs : Forall (fun o => within data o.1.1 o.2 /\ 0 <= o.1.2 /\ o.1.2 + o.2 <= size_of (co_result c)) (co_output_reads c);
  pl_rebases : Forall (rebase_in (size_of (co_result c))) (co_rebases c);
  pl_direct : batched = false -> co_reads c = [] /\ co_output_reads c = [] /\ co_rebases c = [];
}.

Lemma written_app outs a ext :
  Forall (fun o => within data o.1.1 o.2 /\ 0 <= o.1.2 /\ o.1.2 + o.2 <= size_of a) outs ->
  foldl written (a ++ ext) outs = foldl written a outs ++ ext /\ length (foldl written a outs) = length a.
Proof.
  revert a. induction outs as [|o outs IH]; intros a Hall; [done|]. apply Forall_cons in Hall as [(Hw & ? & ?) Hall].
  pose proof (slice_length _ _ _ Hw) as Hl. simpl. unfold written at 2 4 6. rewrite overwrite_app by lia.
  assert (length (overwrite o.1.2 (slice data o.1.1 o.2) a) = length a) as Hsame by (apply overwrite_length; lia).
  rewrite <- Hsame. apply IH. unfold size_of in *. by rewrite Hsame.
Qed.

Lemma apply_rebase_app sources sources' i r a ext :
  rebase_in (size_of a) r -> sources' !!! i = sources !!! i ->
  apply_rebase sources' (a ++ ext) (i, r) = apply_rebase sources a (i, r) ++ ext /\ length (apply_rebase sources a (i, r)) = length a.
Proof.
  intros (? & ? & ?) Hs. unfold apply_rebase. rewrite Hs.
  assert (size_of (rebase (rb_bytes r) (sources !!! i) (rb_shift r)) = rb_bytes r) as Hl by (unfold size_of; rewrite rebase_length; lia).
  set (write := fun l => if negb (rb_shift r =? 0) then overwrite (rb_offset r) (rebase (rb_bytes r) (sources !!! i) (rb_shift r)) l else l).
  assert (write (a ++ ext) = write a ++ ext /\ length (write a) = length a) as [Happ Hlen].
  { unfold write. destruct (negb _); [|done]. split; [apply overwrite_app; lia|apply overwrite_length; lia]. }
  fold (write (a ++ ext)). fold (write a). rewrite Happ. destruct (negb (rb_tail r =? 0)); [|done].
  rewrite length_alter. split; [|done]. apply alter_app_l. unfold size_of in *. lia.
Qed.

Lemma apply_rebases_app sources sources' l a ext :
  Forall (fun p => rebase_in (size_of a) p.2 /\ sources' !!! p.1 = sources !!! p.1) l ->
  foldl (apply_rebase sources') (a ++ ext) l = foldl (apply_rebase sources) a l ++ ext /\
  length (foldl (apply_rebase sources) a l) = length a.
Proof.
  revert a. induction l as [|[i r] l IH]; intros a Hall; [done|]. apply Forall_cons in Hall as [[Hr Hs] Hall]. cbn [foldl].
  destruct (apply_rebase_app sources sources' i r a ext Hr Hs) as [-> Hlen]. rewrite <- Hlen. apply IH.
  unfold size_of in *. by rewrite Hlen.
Qed.
Lemma placed_app reads a ext : Forall (fun r : Z * Z * nat => (r.2 < length a)%nat) reads ->
  foldl placed (a ++ ext) reads = foldl placed a reads ++ ext /\ length (foldl placed a reads) = length a.
Proof.
  revert a. induction reads as [|r reads IH]; intros a Hall; [done|]. apply Forall_cons in Hall as [Hr Hall]. cbn [foldl].
  unfold placed at 2 4 6. rewrite insert_app_l by done. rewrite <- (length_insert a r.2 (slice data r.1.1 r.1.2)). apply IH.
  by rewrite length_insert.
Qed.

Lemma sources_length batched c : planned batched c -> length (sources_read c) = length (co_rebases c).
Proof.
  intros Hc. unfold sources_read. destruct (placed_app (co_reads c) (replicate (length (co_rebases c)) []) []) as [_ H].
  { eapply Forall_impl; [apply (pl_reads _ _ Hc)|]. intros r [_ ?]. by rewrite length_replicate. }
  rewrite H. apply length_replicate.
Qed.

(** What is behind the planned part stays out of reach of the plan. *)
Lemma resolved_behind batched c sources' ext : planned batched c ->
  (forall i, (i < length (co_rebases c))%nat -> sources' !!! i = sources_read c !!! i) ->
  foldl (apply_rebase sources') (foldl written (co_result c) (co_output_reads c) ++ ext) (imap pair (co_rebases c)) = resolved c ++ ext.
Proof.
  intros Hc Hs. destruct (written_app (co_output_reads c) (co_result c) [] (pl_outputs _ _ Hc)) as [_ Hlen].
  apply (apply_rebases_app (sources_read c)). apply Forall_lookup_2. intros i [j r] Hi. rewrite list_lookup_imap in Hi.
  destruct (co_rebases c !! i) as [r'|] eqn:Hr; [|done]. injection Hi as <- <-. split.
  - pose proof (pl_rebases _ _ Hc) as Hall. rewrite Forall_lookup in Hall. unfold size_of. rewrite Hlen. by apply (Hall i).
  - apply Hs. by apply lookup_lt_Some in Hr.
Qed.

Lemma resolved_length batched c : planned batched c -> length (resolved c) = length (co_result c).
Proof.
  intros Hc. destruct (written_app (co_output_reads c) (co_result c) [] (pl_outputs _ _ Hc)) as [_ Hlen]. rewrite <- Hlen.
  apply (apply_rebases_app (sources_read c) (sources_read c) _ _ []). apply Forall_lookup_2. intros i [j r] Hi. rewrite list_lookup_imap in Hi.
  destruct (co_rebases c !! i) as [r'|] eqn:Hr; [|done]. injection Hi as <- <-. split; [|done].
  pose proof (pl_rebases _ _ Hc) as Hall. rewrite Forall_lookup in Hall. unfold size_of. rewrite Hlen. by apply (Hall i).
Qed.

(** The plan grows at its end. *)
Definition grown (c : Collected) (ext : list Z) (reads : list (Z * Z * nat)) (outs : list (Z * Z * Z)) (rebases : list Rebase) : Collected :=
  {| co_result := co_result c ++ ext; co_reads := co_reads c ++ reads; co_output_reads := co_output_reads c ++ outs;
     co_rebases := co_rebases c ++ rebases |}.

Lemma planned_grown batched c ext reads outs rebases : planned batched c ->
  Forall (fun r => within data r.1.1 r.1.2 /\ (r.2 < length (co_rebases c) + length rebases)%nat) reads ->
  Forall (fun o => within data o.1.1 o.2 /\ 0 <= o.1.2 /\ o.1.2 + o.2 <= size_of (co_result c) + size_of ext) outs ->
  Forall (rebase_in (size_of (co_result c) + size_of ext)) rebases ->
  (batched = false -> reads = [] /\ outs = [] /\ rebases = []) ->
  planned batched (grown c ext reads outs rebases).
Proof.
  intros [Hr Ho Hb Hd] Hr' Ho' Hb' Hd'. pose proof (size_of_nonneg ext). constructor; simpl; rewrite ?size_of_app, ?length_app.
  - apply Forall_app. split; [|done]. eapply Forall_impl; [done|]. intros r [? ?]. split; [done|lia].
  - apply Forall_app. split; [|done]. eapply Forall_impl; [done|]. intros o (? & ? & ?). split_and!; [done..|lia].
  - apply Forall_app. split; [|done]. eapply Forall_impl; [done|]. unfold rebase_in. intros r. lia.
  - intros Hf. destruct (Hd Hf) as (-> & -> & ->), (Hd' Hf) as (-> & -> & ->). done.
Qed.

(** The plan's part is resolved as before; the new part by the new reads and ranges. *)
Lemma resolved_grown batched c ext reads outs rebases : planned batched c ->
  Forall (fun r : Z * Z * nat => (length (co_rebases c) <= r.2)%nat) reads ->
  Forall (fun o => within data o.1.1 o.2 /\ o.1.2 = size_of (co_result c) /\ o.2 = size_of ext) outs ->
  let sources' := foldl placed (sources_read c ++ replicate (length rebases) []) reads in
  resolved (grown c ext reads outs rebases) =
  foldl (apply_rebase sources') (resolved c ++ foldl (fun _ o => slice data o.1.1 o.2) ext outs)
    (imap (fun i r => ((i + length (co_rebases c))%nat, r)) rebases).
Proof.
  intros Hc Hreads Houts sources'. unfold resolved at 1. simpl. rewrite imap_app, foldl_app.
  assert (sources_read (grown c ext reads outs rebases) = sources') as ->.
  { unfold sources_read, sources'. simpl. rewrite length_app, replicate_add, foldl_app. f_equal. apply placed_app.
    eapply Forall_impl; [apply (pl_reads _ _ Hc)|]. intros r [_ ?]. by rewrite length_replicate. }
  rewrite foldl_app. destruct (written_app (co_output_reads c) (co_result c) ext (pl_outputs _ _ Hc)) as [-> Hlen].
  assert (forall a e, size_of a = size_of (co_result c) -> size_of e = size_of ext ->
    foldl written (a ++ e) outs = a ++ foldl (fun _ o => slice data o.1.1 o.2) e outs) as ->; [| |by unfold size_of; rewrite Hlen|done].
  { intros a. induction outs as [|o outs IH]; intros e Ha He; [done|]. apply Forall_cons in Houts as [(Hw & Hd & Hn) Houts]. simpl.
    pose proof (slice_length _ _ _ Hw) as Hl. rewrite <- IH by (done || lia). f_equal. unfold written. rewrite Hd, <- Ha.
    apply overwrite_end. unfold size_of in *. lia. }
  rewrite (resolved_behind _ _ _ _ Hc); [|].
  - f_equal. apply imap_ext. intros. simpl. f_equal. lia.
  - intros i Hi. pose proof (sources_length _ _ Hc) as Hsl.
    assert (forall s, length (sources_read c) <= length s -> s !! i = sources_read c !! i -> foldl placed s reads !! i = sources_read c !! i)%nat as Hkeep.
    { clear - Hreads Hi. induction reads as [|r reads IH]; intros s Hs Heq; [done|]. apply Forall_cons in Hreads as [Hr Hreads].
      apply IH; [done|by unfold placed; rewrite length_insert|]. unfold placed. by rewrite list_lookup_insert_ne by lia. }
    rewrite !list_lookup_total_alt. f_equal. apply Hkeep; [rewrite length_app; lia|]. apply lookup_app_l. lia.
Qed.
End Plans.

(** ** Operations that append *)

Section Adds.
Context (X : exn -> Prop) (data : list Z) (Hdata : Forall is_byte data) (Hmax : size_of data <= vector_max) (batched : bool).

(** [m] appends [bytes] to what the plan resolves to, or a reader throws. *)
Definition adds (m : M Collected unit) (bytes : list Z) : Prop := forall c,
  planned data batched c -> size_of (co_result c) + size_of bytes <= vector_max ->
  match m c with
  | (Ok _, c') => planned data batched c' /\ resolved data c' = resolved data c ++ bytes
  | (Throw e, _) => X e
  end.

Lemma resolved_size c : planned data batched c -> size_of (resolved data c) = size_of (co_result c).
Proof. intros Hc. unfold size_of. by rewrite (resolved_length _ _ _ Hc). Qed.

Lemma adds_ret : adds (mret tt) [].
Proof. intros c Hc _. by rewrite app_nil_r. Qed.

Lemma adds_bind m k a b : adds m a -> adds k b -> adds (m ≫= fun _ => k) (a ++ b).
Proof.
  intros Hm Hk c Hc Hsize. rewrite size_of_app in Hsize. unfold mbind, M_bind. pose proof (size_of_nonneg b). specialize (Hm c Hc ltac:(lia)).
  destruct (m c) as [[u|e] c1]; [|done]. destruct Hm as [Hc1 Hr]. specialize (Hk c1 Hc1). rewrite <- (resolved_size _ Hc1), Hr, size_of_app in Hk.
  rewrite (resolved_size _ Hc) in Hk. specialize (Hk ltac:(lia)). destruct (k c1) as [[?|?] c2]; [|done]. destruct Hk as [? ->].
  by rewrite (assoc_L (++)).
Qed.

Lemma adds_for_each {A} (l : list A) f g : (forall a, a ∈ l -> adds (f a) (g a)) -> adds (for_each l f) (mjoin (g <$> l)).
Proof.
  induction l as [|a l IH]; intros Hf; [apply adds_ret|]. simpl. apply adds_bind; [apply Hf; by left|]. apply IH. intros. apply Hf. by right.
Qed.

Lemma adds_grown m bytes ext reads outs rebases :
  (forall c, planned data batched c -> size_of (co_result c) + size_of bytes <= vector_max ->
    m c = (Ok tt, grown c ext (reads c) (outs c) (rebases c)) /\ planned data batched (grown c ext (reads c) (outs c) (rebases c)) /\
    resolved data (grown c ext (reads c) (outs c) (rebases c)) = resolved data c ++ bytes) ->
  adds m bytes.
Proof. intros Hm c Hc Hs. destruct (Hm c Hc Hs) as (-> & ? & ?). done. Qed.

Lemma grown_result c bytes : on_result (fun r => r ++ bytes) c = grown c bytes [] [] [].
Proof. unfold on_result, grown. by rewrite !app_nil_r. Qed.

Lemma grown_bytes c bytes : planned data batched c ->
  planned data batched (grown c bytes [] [] []) /\ resolved data (grown c bytes [] [] []) = resolved data c ++ bytes.
Proof.
  intros Hc. split; [apply planned_grown; [done|constructor..|done]|]. rewrite (resolved_grown _ _ _ _ _ _ _ Hc); [done|constructor..].
Qed.

Lemma adds_append_bytes bytes : adds (append_bytes bytes) bytes.
Proof. intros c Hc _. unfold append_bytes, modify. rewrite grown_result. by apply grown_bytes. Qed.

Lemma adds_direct f bytes :
  (forall output, size_of output + size_of bytes <= vector_max -> attempt X (f output) (output ++ bytes)) -> adds (direct f) bytes.
Proof.
  intros Hf c Hc Hs. unfold direct. specialize (Hf _ Hs). destruct (f (co_result c)) as [r|e]; [|done]. simpl in Hf. subst r.
  change (on_result (fun _ => co_result c ++ bytes) c) with (on_result (fun r => r ++ bytes) c). rewrite grown_result. by apply grown_bytes.
Qed.

(** *** Collected ranges *)

Lemma lookup_total_end {A} `{Inhabited A} (l : list A) x : (l ++ [x]) !!! length l = x.
Proof. apply list_lookup_total_correct. by rewrite lookup_app_r, Nat.sub_diag by lia. Qed.

Lemma sources_end sources (r : Z * Z * nat) : r.2 = length sources ->
  placed data (sources ++ [[]]) r !!! length sources = slice data r.1.1 r.1.2.
Proof.
  intros Hr. unfold placed. rewrite Hr, insert_app_r_alt, Nat.sub_diag by lia. apply lookup_total_end.
Qed.

(** A range that starts within a byte: read aside, shifted, trimmed. *)
Lemma resolved_shifted c offset source64 bytes shift tail : planned data batched c -> within data offset source64 -> 0 < bytes -> shift <> 0 ->
  resolved data (grown c (replicate (Z.to_nat bytes) 0) [(offset, source64, length (co_rebases c))] []
    [{| rb_offset := size_of (co_result c); rb_bytes := bytes; rb_shift := shift; rb_tail := tail |}]) =
  resolved data c ++ trim_tail tail (rebase bytes (slice data offset source64) shift).
Proof.
  intros Hc Hw Hb Hshift. rewrite (resolved_grown _ _ _ _ _ _ _ Hc); [|constructor; [simpl; lia|done]|done]. cbn [imap foldl length replicate].
  rewrite <- (sources_length _ _ _ Hc). unfold apply_rebase. simpl Nat.add.
  rewrite sources_end by done. cbn [rb_offset rb_bytes rb_shift rb_tail fst snd]. rewrite (proj2 (Z.eqb_neq shift 0)) by done. cbn [negb].
  rewrite <- (resolved_size _ Hc), overwrite_end by (rewrite rebase_length, length_replicate; done).
  set (range := rebase _ _ _). assert (size_of range = bytes) as Hr by (unfold range, size_of; rewrite rebase_length; lia).
  destruct (Z.eqb_spec tail 0) as [->|Ht]; simpl; [done|]. rewrite <- Hr. apply trim_end; [unfold size_of in Hr; lia|done].
Qed.

(** A range that starts with a byte: read in its place, trimmed. *)
Lemma resolved_aligned c offset bytes tail : planned data batched c -> within data offset bytes -> 0 < bytes ->
  resolved data (grown c (replicate (Z.to_nat bytes) 0) [] [(offset, size_of (co_result c), bytes)]
    (if negb (tail =? 0) then [{| rb_offset := size_of (co_result c); rb_bytes := bytes; rb_shift := 0; rb_tail := tail |}] else [])) =
  resolved data c ++ trim_tail tail (slice data offset bytes).
Proof.
  intros Hc Hw Hb. rewrite (resolved_grown _ _ _ _ _ _ _ Hc); [|done|constructor; [|done]].
  2: { simpl. split_and!; [done..|]. unfold size_of. rewrite length_replicate. lia. }
  pose proof (slice_length _ _ _ Hw) as Hl. cbn [foldl fst snd]. destruct (Z.eqb_spec tail 0) as [->|Ht]; [done|]. cbn [negb imap foldl].
  unfold apply_rebase. cbn [rb_offset rb_bytes rb_shift rb_tail]. rewrite (proj2 (Z.eqb_neq tail 0)) by done. cbn [negb Z.eqb].
  rewrite <- (resolved_size _ Hc). pose proof (trim_end tail (resolved data c) (slice data offset bytes)) as He. rewrite Hl in He.
  apply He; [unfold size_of in Hl; lia|done].
Qed.

Lemma collect_range_eq stream bit count c :
  0 <= stream -> 0 <= bit -> 0 < count -> stream + bytes_for (bit + count) <= size_of data -> count + 15 < 2 ^ 64 ->
  size_of (co_result c) + bytes_for count <= vector_max ->
  let start := size_of (co_result c) in
  let range := {| rb_offset := start; rb_bytes := bytes_for count; rb_shift := bit mod 8; rb_tail := Z.land count 7 |} in
  collect_range stream bit count c = (Ok tt,
    if negb (bit mod 8 =? 0)
    then grown c (replicate (Z.to_nat (bytes_for count)) 0) [(stream + bit / 8, source_bytes bit count, length (co_rebases c))] [] [range]
    else grown c (replicate (Z.to_nat (bytes_for count)) 0) [] [(stream + bit / 8, start, bytes_for count)]
           (if negb (Z.land count 7 =? 0) then [range] else [])).
Proof using Hmax.
  intros ??? Hin Hcount Hsize start range. pose proof (within_source data stream bit count ltac:(lia) ltac:(lia) ltac:(lia) Hin) as (? & ? & ?).
  pose proof (Z.mod_pos_bound bit 8 ltac:(lia)). unfold collect_range. rewrite (proj2 (Z.eqb_neq count 0)) by lia. rewrite (land_7 bit).
  fold (bytes_for count) (source_bytes bit count). unfold size_max, u64_max, vector_max, s64_max in *.
  destruct (_ <? count) eqn:?; [lia|]. destruct (_ || _ || _) eqn:?; [lia|]. unfold grown. rewrite !app_nil_r.
  destruct (negb (bit mod 8 =? 0)); [done|]. destruct (negb (Z.land count 7 =? 0)); [done|]. by rewrite app_nil_r.
Qed.

(** *** Ranges and anchors, read either way *)

#[local] Set Default Proof Using "All".
Context (t : NintRows) (Hread : Reads X data (nr_read t)) (Hmode : batched = (if nr_read_batch t then true else false)).

Lemma adds_append_range stream bit count :
  0 <= stream -> 0 <= bit -> 0 <= count -> stream + bytes_for (bit + count) <= size_of data -> count + 15 < 2 ^ 64 ->
  adds (append_range t stream bit count) (packed_range (le_value data) (8 * stream + bit) count).
Proof.
  intros ??? Hin Hcount. unfold append_range. pose proof (packed_range_size (le_value data) (8 * stream + bit) count ltac:(lia)) as Hps.
  destruct (nr_read_batch t) as [batch|] eqn:Hbatch.
  2: { apply adds_direct. intros output Ho. rewrite Hps in Ho. apply append_packed_range_spec; try done. unfold size_max, u64_max, vector_max, s64_max in *. lia. }
  intros c Hc Hs. rewrite Hps in Hs. destruct (decide (count = 0)) as [->|].
  { unfold collect_range. split; [done|]. unfold packed_range. simpl. by rewrite app_nil_r. }
  pose proof (within_source data stream bit count ltac:(lia) ltac:(lia) ltac:(lia) Hin) as Hw.
  pose proof (bytes_for_bound count ltac:(lia)) as Hb. pose proof (source_bytes_bound stream bit count ltac:(lia) ltac:(lia)) as (? & _ & _).
  pose proof (size_of_nonneg (co_result c)). rewrite collect_range_eq by (done || lia).
  assert (size_of (replicate (Z.to_nat (bytes_for count)) 0) = bytes_for count) as Hz by (unfold size_of; rewrite length_replicate; lia).
  assert (forall tail shift, rebase_in (size_of (co_result c) + bytes_for count) {| rb_offset := size_of (co_result c); rb_bytes := bytes_for count; rb_shift := shift; rb_tail := tail |}) as Hreb
    by (intros; unfold rebase_in; simpl; lia).
  destruct (Z.eqb_spec (bit mod 8) 0) as [Haligned|Haligned]; cbn [negb]; split.
  - apply planned_grown; rewrite ?Hz; [done|constructor| | |congruence].
    + constructor; [|done]. simpl. unfold within in *. lia.
    + destruct (negb _); [|done]. constructor; [apply Hreb|done].
  - rewrite Haligned, resolved_aligned; [|done|unfold within in *; lia|lia]. f_equal. apply aligned_range; (done || lia).
  - apply planned_grown; rewrite ?Hz; [done| |constructor| |congruence].
    + constructor; [|done]. simpl. split; [done|lia].
    + constructor; [apply Hreb|done].
  - rewrite resolved_shifted by (done || lia). f_equal. apply shifted_range; (done || lia).
Qed.

Lemma adds_append_anchors base first count : 0 <= count -> 2 * count < 2 ^ 64 -> within data (base + first * 2) (2 * count) -> 0 < count ->
  adds (append_anchors t base first count) (slice data (base + first * 2) (2 * count)).
Proof.
  intros ?? Hw ?. unfold append_anchors. rewrite u64_small by lia. replace (count * 2) with (2 * count) by lia.
  destruct (nr_read_batch t) as [batch|] eqn:Hbatch.
  2: { apply adds_direct. intros output _. eapply attempt_bind; [by apply Hread|done]. }
  intros c Hc _. unfold modify. pose proof (resolved_aligned c (base + first * 2) (2 * count) 0 Hc Hw ltac:(lia)) as Hr.
  unfold grown in Hr. simpl in Hr. rewrite !app_nil_r in Hr. split; [|exact Hr].
  pose proof (planned_grown data batched c (replicate (Z.to_nat (2 * count)) 0) [] [(base + first * 2, size_of (co_result c), 2 * count)] [] Hc) as Hp.
  unfold grown in Hp. rewrite !app_nil_r in Hp. apply Hp; [constructor| |constructor|congruence].
  constructor; [|done]. simpl. split; [done|]. pose proof (size_of_nonneg (co_result c)). split; [done|]. unfold size_of at 3. rewrite length_replicate. lia.
Qed.
End Adds.

(** ** Ranks of a table *)

(** The cohort of a row, for scales and minima and for values. *)
Definition sel_k (t : NintRows) (row : nat) : Z := if nr_adaptive t then selector (nr_k_selectors t) (Z.of_nat row) 2 else 0.
Definition sel_q (t : NintRows) (row : nat) : Z := if nr_adaptive t then selector (nr_q_selectors t) (Z.of_nat row) 3 else 0.

Section Table.
#[local] Set Default Proof Using "Type*".
Context (data : list Z) (t : NintRows) (Hindexed : Indexed data t).

#[local] Notation rows := (nr_rows t).
#[local] Notation values := (nr_groups t * nr_group_size t).

Lemma rows_range : 0 < rows <= s32_max.
Proof. apply (sg_rows _ (ix_geometry _ _ Hindexed)). Qed.

Lemma rank_k_spec row c : 0 <= row <= rows -> (c < k_cohorts t)%nat -> rank_k t row c = rank_of (sel_k t) (Z.of_nat c) (Z.to_nat row).
Proof.
  intros Hrow Hc. pose proof rows_range as Hr. unfold rank_k, sel_k, k_cohorts in *. destruct (nr_adaptive t) eqn:Ha; cbn [negb].
  - pose proof (ix_k_ranks _ _ Hindexed Ha) as Hranks.
    destruct (Z.eqb_spec row rows) as [->|]; [|rewrite (f_equal snd Hranks : nr_k_ranks t = _); apply cohort_rank_spec; lia].
    rewrite (f_equal fst Hranks : nr_k_counts t = _). apply counts_spec; lia.
  - assert (c = 0%nat) as -> by lia. rewrite rank_of_const. unfold u32, s32_max in *. rewrite Z.mod_small; lia.
Qed.

Lemma rank_q_spec row c : 0 <= row <= rows -> (c < q_cohorts t)%nat -> rank_q t row c = rank_of (sel_q t) (Z.of_nat c) (Z.to_nat row).
Proof.
  intros Hrow Hc. pose proof rows_range as Hr. unfold rank_q, sel_q, q_cohorts in *. destruct (nr_adaptive t) eqn:Ha; cbn [negb].
  - pose proof (ix_q_ranks _ _ Hindexed Ha) as Hranks.
    destruct (Z.eqb_spec row rows) as [->|]; [|rewrite (f_equal snd Hranks : nr_q_ranks t = _); apply cohort_rank_spec; lia].
    rewrite (f_equal fst Hranks : nr_q_counts t = _). apply counts_spec; lia.
  - assert (c = 0%nat) as -> by lia. rewrite rank_of_const. unfold u32, s32_max in *. rewrite Z.mod_small; lia.
Qed.

(** The cohort of a row is one of the table's. *)
Lemma sel_k_range row : 0 <= sel_k t row < Z.of_nat (k_cohorts t).
Proof. unfold sel_k, k_cohorts. destruct (nr_adaptive t); [apply (selector_range _ _ 2)|]; lia. Qed.

Lemma sel_q_range row : 0 <= sel_q t row < Z.of_nat (q_cohorts t).
Proof. unfold sel_q, q_cohorts. destruct (nr_adaptive t); [apply (selector_range _ _ 3)|]; lia. Qed.

(** *** Bounds of the streams *)

(** The bits of the first [row] rows of a cohort. *)
Definition k_before (row c : nat) : Z := rank_of (sel_k t) (Z.of_nat c) row * nr_groups t * k_bits t c.
Definition q_before (row c : nat) : Z := rank_of (sel_q t) (Z.of_nat c) row * values * q_bits t c.

Lemma k_before_next row c : sel_k t row = Z.of_nat c -> k_before (S row) c = k_before row c + nr_groups t * k_bits t c.
Proof using. intros Hs. unfold k_before. simpl rank_of. rewrite Hs, Z.eqb_refl. lia. Qed.

Lemma q_before_next row c : sel_q t row = Z.of_nat c -> q_before (S row) c = q_before row c + nr_groups t * nr_group_size t * q_bits t c.
Proof using. intros Hs. unfold q_before. simpl rank_of. rewrite Hs, Z.eqb_refl. lia. Qed.

Lemma k_before_all c : (c < k_cohorts t)%nat -> k_before (Z.to_nat rows) c = k_stream t c.
Proof. intros. unfold k_before, k_stream. pose proof rows_range. by rewrite rank_k_spec by lia. Qed.

Lemma q_before_all c : (c < q_cohorts t)%nat -> q_before (Z.to_nat rows) c = q_stream t c.
Proof. intros. unfold q_before, q_stream. pose proof rows_range. by rewrite rank_q_spec by lia. Qed.

Lemma groups_range : 1 <= nr_groups t /\ 0 < values < 2 ^ 32.
Proof.
  pose proof (ix_geometry _ _ Hindexed) as Hg. destruct (groups_bounds _ Hg) as [? ?]. destruct (products_fit _ Hg 0) as (_ & _ & ?); [destruct Hg; lia|].
  destruct Hg. simpl in *. nia.
Qed.

(** A rank that is not zero has a width. *)
Lemma k_before_mono row row' c : (c < k_cohorts t)%nat -> (row <= row' <= Z.to_nat rows)%nat -> 0 <= k_before row c <= k_before row' c.
Proof.
  intros Hc Hrow. pose proof (rank_of_range (sel_k t) (Z.of_nat c) row) as ?. pose proof (rank_of_mono (sel_k t) (Z.of_nat c) row row' ltac:(lia)) as ?.
  pose proof (rank_of_mono (sel_k t) (Z.of_nat c) row' (Z.to_nat rows) ltac:(lia)) as ?. pose proof groups_range as [? _]. pose proof rows_range.
  destruct (ix_k_sound _ _ Hindexed c Hc) as [_ Hw]. rewrite rank_k_spec in Hw by lia. unfold k_before.
  destruct (decide (rank_of (sel_k t) (Z.of_nat c) (Z.to_nat rows) = 0)).
  { assert (rank_of (sel_k t) (Z.of_nat c) row = 0) as -> by lia. assert (rank_of (sel_k t) (Z.of_nat c) row' = 0) as -> by lia. lia. }
  specialize (Hw ltac:(done)).
  assert (0 <= nr_groups t * k_bits t c) by nia. nia.
Qed.

Lemma q_bits_range c : (c < q_cohorts t)%nat -> 1 <= q_bits t c <= 8.
Proof. pose proof (sg_bits _ (ix_geometry _ _ Hindexed)) as Hb. simpl in Hb. unfold q_bits, q_cohorts. destruct (nr_adaptive t); lia. Qed.

Lemma q_before_mono row row' c : (c < q_cohorts t)%nat -> (row <= row')%nat -> 0 <= q_before row c <= q_before row' c.
Proof.
  intros Hc Hrow. pose proof (rank_of_range (sel_q t) (Z.of_nat c) row) as ?. pose proof (rank_of_mono (sel_q t) (Z.of_nat c) row row' ltac:(lia)) as ?.
  pose proof groups_range as [_ ?]. pose proof (q_bits_range c Hc). unfold q_before. assert (0 <= values * q_bits t c) by nia. nia.
Qed.

Lemma k_stream_nonneg c : (c < k_cohorts t)%nat -> 0 <= k_stream t c.
Proof. intros. rewrite <- k_before_all by done. by apply (k_before_mono (Z.to_nat rows) (Z.to_nat rows)). Qed.

Lemma q_stream_nonneg c : (c < q_cohorts t)%nat -> 0 <= q_stream t c.
Proof. intros. rewrite <- q_before_all by done. by apply (q_before_mono (Z.to_nat rows) (Z.to_nat rows)). Qed.

Lemma seq_cohort n c : c ∈ seq 0 n -> (c < n)%nat.
Proof. intros ?%elem_of_seq. lia. Qed.

Lemma selector_bytes_nonneg width : 0 <= width -> 0 <= selector_bytes t width.
Proof. intros. pose proof rows_range. unfold selector_bytes. destruct (nr_adaptive t); [apply bytes_for_nonneg; nia|lia]. Qed.

Lemma k_start_S c : k_start t (S c) = k_start t c + 2 * bytes_for (k_stream t c).
Proof. unfold k_start. rewrite seq_S, Zsum_app. unfold Zsum at 2. simpl. lia. Qed.

Lemma q_start_S c : q_start t (S c) = q_start t c + bytes_for (q_stream t c).
Proof. unfold q_start. rewrite seq_S, Zsum_app. unfold Zsum at 2. simpl. lia. Qed.

Lemma k_start_mono c n : (c <= n <= k_cohorts t)%nat -> 0 <= k_start t c <= k_start t n.
Proof.
  intros [Hcn Hn]. induction Hcn as [|n Hcn IH].
  - pose proof rows_range. pose proof (selector_bytes_nonneg 2 ltac:(lia)).
    enough (0 <= Zsum (fun c => 2 * bytes_for (k_stream t c)) (seq 0 c)) by (unfold k_start; lia).
    apply Zsum_nonneg, Forall_forall. intros c' Hc'%seq_cohort. pose proof (bytes_for_nonneg _ (k_stream_nonneg c' ltac:(lia))). lia.
  - rewrite k_start_S. pose proof (bytes_for_nonneg _ (k_stream_nonneg n ltac:(lia))). specialize (IH ltac:(lia)). lia.
Qed.

Lemma q_start_mono c n : (c <= n <= q_cohorts t)%nat -> k_start t (k_cohorts t) <= q_start t c <= q_start t n.
Proof.
  intros [Hcn Hn]. induction Hcn as [|n Hcn IH].
  - pose proof (selector_bytes_nonneg 3 ltac:(lia)).
    enough (0 <= Zsum (fun c => bytes_for (q_stream t c)) (seq 0 c)) by (unfold q_start; lia).
    apply Zsum_nonneg, Forall_forall. intros c' Hc'%seq_cohort. by apply bytes_for_nonneg, q_stream_nonneg; lia.
  - rewrite q_start_S. pose proof (bytes_for_nonneg _ (q_stream_nonneg n ltac:(lia))). specialize (IH ltac:(lia)). lia.
Qed.

(** The streams of a cohort are inside the tensor. *)
Lemma k_stream_inside c : (c < k_cohorts t)%nat -> 42 + 4 * rows <= k_start t c /\ k_start t c + 2 * bytes_for (k_stream t c) <= size_of data.
Proof.
  intros Hc. pose proof (k_start_mono (S c) (k_cohorts t) ltac:(lia)) as Hk. pose proof (q_start_mono 0 (q_cohorts t) ltac:(lia)) as Hq.
  rewrite k_start_S in Hk. rewrite (ix_total _ _ Hindexed) in Hq. split; [|lia].
  pose proof (selector_bytes_nonneg 2 ltac:(lia)). pose proof (k_start_mono 0 c ltac:(lia)) as H0. unfold k_start at 2, Zsum in H0. simpl in H0. lia.
Qed.

Lemma q_stream_inside c : (c < q_cohorts t)%nat -> 0 <= q_start t c /\ q_start t c + bytes_for (q_stream t c) <= size_of data.
Proof.
  intros Hc. pose proof (k_start_mono (k_cohorts t) (k_cohorts t) ltac:(lia)) as Hk. pose proof (q_start_mono (S c) (q_cohorts t) ltac:(lia)) as Hq.
  pose proof (q_start_mono c c ltac:(lia)). rewrite q_start_S, (ix_total _ _ Hindexed) in Hq. lia.
Qed.

(** ** The slice *)

Section Range.
Context (b e : Z) (Hrange : 0 <= b < e /\ e <= rows).

#[local] Notation D := (le_value data).
#[local] Notation n := (e - b).

(** The bits of the range in the streams of a cohort: the first, and how many. *)
Definition k_first (c : nat) : Z := k_before (Z.to_nat b) c.
Definition k_taken (c : nat) : Z := k_before (Z.to_nat e) c - k_before (Z.to_nat b) c.
Definition q_first (c : nat) : Z := q_before (Z.to_nat b) c.
Definition q_taken (c : nat) : Z := q_before (Z.to_nat e) c - q_before (Z.to_nat b) c.

Definition k_piece (c : nat) : list Z :=
  packed_range D (8 * k_start t c + k_first c) (k_taken c) ++
  packed_range D (8 * (k_start t c + bytes_for (k_stream t c)) + k_first c) (k_taken c).
Definition q_piece (c : nat) : list Z := packed_range D (8 * q_start t c + q_first c) (q_taken c).
Definition selector_piece (stream : list Z) (width : Z) : list Z :=
  if nr_adaptive t then packed_range (le_value stream) (b * width) (n * width) else [].
Definition anchor_piece (base : Z) : list Z := slice data (base + b * 2) (2 * n).

(** The slice, piece by piece. *)
Definition sliced : list Z :=
  slice_header t n ++ anchor_piece 42 ++ anchor_piece (42 + 2 * rows) ++ selector_piece (nr_k_selectors t) 2 ++
  mjoin (k_piece <$> seq 0 (k_cohorts t)) ++ selector_piece (nr_q_selectors t) 3 ++ mjoin (q_piece <$> seq 0 (q_cohorts t)).

Lemma k_taken_bounds c : (c < k_cohorts t)%nat -> 0 <= k_first c /\ 0 <= k_taken c /\ k_first c + k_taken c <= k_stream t c.
Proof.
  intros Hc. rewrite <- k_before_all by done. unfold k_first, k_taken.
  pose proof (k_before_mono (Z.to_nat b) (Z.to_nat e) c Hc ltac:(lia)). pose proof (k_before_mono (Z.to_nat e) (Z.to_nat rows) c Hc ltac:(lia)). lia.
Qed.

Lemma q_taken_bounds c : (c < q_cohorts t)%nat -> 0 <= q_first c /\ 0 <= q_taken c /\ q_first c + q_taken c <= q_stream t c.
Proof.
  intros Hc. rewrite <- q_before_all by done. unfold q_first, q_taken.
  pose proof (q_before_mono (Z.to_nat b) (Z.to_nat e) c Hc ltac:(lia)). pose proof (q_before_mono (Z.to_nat e) (Z.to_nat rows) c Hc ltac:(lia)). lia.
Qed.

Lemma bytes_for_mono x y : x <= y -> bytes_for x <= bytes_for y.
Proof. intros. unfold bytes_for. apply Z.div_le_mono; lia. Qed.

(** *** What the code computes for a cohort *)

Lemma k_numbers c : (c < k_cohorts t)%nat ->
  let first := rank_k t b c in let last := rank_k t e c in
  u64 (u64 (first * nr_groups t) * k_bits t c) = k_first c /\
  u64 (u64 (u32 (last - first) * nr_groups t) * k_bits t c) = k_taken c /\
  u32 (last - first) = last - first /\ 0 <= (last - first) * nr_groups t < 2 ^ 64 /\ (last - first) * nr_groups t * k_bits t c = k_taken c /\
  (last <> first -> 0 < k_bits t c).
Proof.
  intros Hc first last. unfold first, last. pose proof rows_range as Hr. rewrite !rank_k_spec by lia.
  destruct (k_taken_bounds c Hc) as (Hf & Ht & Hft). destruct (ix_k_sound _ _ Hindexed c Hc) as [Hs _]. unfold k_first, k_taken, k_before in *.
  set (rb := rank_of (sel_k t) (Z.of_nat c) (Z.to_nat b)) in *. set (re := rank_of (sel_k t) (Z.of_nat c) (Z.to_nat e)) in *.
  pose proof (rank_of_range (sel_k t) (Z.of_nat c) (Z.to_nat b)) as Hrb. pose proof (rank_of_mono (sel_k t) (Z.of_nat c) (Z.to_nat b) (Z.to_nat e) ltac:(lia)) as Hm.
  pose proof (rank_of_range (sel_k t) (Z.of_nat c) (Z.to_nat e)) as Hre. fold rb re in Hrb, Hm, Hre. unfold s32_max, u64_max in *.
  pose proof (products_fit _ (ix_geometry _ _ Hindexed)) as Hfit. simpl in Hfit.
  destruct (Hfit rb ltac:(lia)) as (? & _). destruct (Hfit (re - rb) ltac:(lia)) as (? & _).
  assert (u32 (re - rb) = re - rb) as Hu by (unfold u32; apply Z.mod_small; lia). rewrite Hu, (u64_small (rb * _)), (u64_small ((re - rb) * _)) by lia.
  rewrite !u64_small by nia. destruct (ix_k_sound _ _ Hindexed c Hc) as [_ Hw]. rewrite rank_k_spec in Hw by lia.
  pose proof (rank_of_mono (sel_k t) (Z.of_nat c) (Z.to_nat e) (Z.to_nat rows) ltac:(lia)) as Hall.
  split_and!; [done|lia|done|lia|lia|lia|]. intros Hne. fold re in Hall. specialize (Hw ltac:(lia)). lia.
Qed.

Lemma q_numbers c : (c < q_cohorts t)%nat ->
  let first := rank_q t b c in let last := rank_q t e c in
  u64 (u64 (first * u64 values) * q_bits t c) = q_first c /\
  u64 (u64 (u32 (last - first) * u64 values) * q_bits t c) = q_taken c /\
  u32 (last - first) = last - first /\ 0 <= (last - first) * nr_groups t < 2 ^ 64 /\ 0 <= (last - first) * values < 2 ^ 64 /\
  (last - first) * values * q_bits t c = q_taken c.
Proof.
  intros Hc first last. unfold first, last. pose proof rows_range as Hr. rewrite !rank_q_spec by lia.
  destruct (q_taken_bounds c Hc) as (Hf & Ht & Hft). pose proof (ix_q_sound _ _ Hindexed c Hc) as Hs. unfold q_first, q_taken, q_before in *.
  set (rb := rank_of (sel_q t) (Z.of_nat c) (Z.to_nat b)) in *. set (re := rank_of (sel_q t) (Z.of_nat c) (Z.to_nat e)) in *.
  pose proof (rank_of_range (sel_q t) (Z.of_nat c) (Z.to_nat b)) as Hrb. pose proof (rank_of_mono (sel_q t) (Z.of_nat c) (Z.to_nat b) (Z.to_nat e) ltac:(lia)) as Hm.
  pose proof (rank_of_range (sel_q t) (Z.of_nat c) (Z.to_nat e)) as Hre. fold rb re in Hrb, Hm, Hre. unfold s32_max, u64_max in *.
  pose proof (products_fit _ (ix_geometry _ _ Hindexed)) as Hfit. simpl in Hfit.
  destruct (Hfit rb ltac:(lia)) as (? & ? & ?). destruct (Hfit (re - rb) ltac:(lia)) as (? & ? & _).
  assert (u32 (re - rb) = re - rb) as Hu by (unfold u32; apply Z.mod_small; lia). rewrite (u64_small values) by lia.
  rewrite Hu, (u64_small (rb * _)), (u64_small ((re - rb) * _)) by lia.
  rewrite !u64_small by nia. split_and!; [done|lia|done|lia..].
Qed.

(** *** Its size *)

Lemma size_of_mjoin {A} (f : A -> list Z) l : size_of (mjoin (f <$> l)) = Zsum (fun a => size_of (f a)) l.
Proof using. induction l as [|a l IH]; [done|]. change (size_of (f a ++ mjoin (f <$> l)) = size_of (f a) + Zsum (fun a => size_of (f a)) l). by rewrite size_of_app, IH. Qed.

Definition taken_bytes (width : Z) : Z := if nr_adaptive t then bytes_for (n * width) else 0.

Definition sliced_size : Z :=
  42 + 4 * n + taken_bytes 2 + Zsum (fun c => 2 * bytes_for (k_taken c)) (seq 0 (k_cohorts t)) + taken_bytes 3 +
  Zsum (fun c => bytes_for (q_taken c)) (seq 0 (q_cohorts t)).

Lemma slice_header_size : size_of (slice_header t n) = 42.
Proof using. unfold slice_header, size_of. rewrite !length_app, !le_bytes_length. done. Qed.

Lemma anchor_piece_size base : 0 <= base -> base + 2 * rows <= size_of data -> size_of (anchor_piece base) = 2 * n.
Proof. intros. unfold anchor_piece. apply slice_length. unfold within. lia. Qed.

Lemma selector_piece_size stream width : 0 <= width -> size_of (selector_piece stream width) = taken_bytes width.
Proof. intros. unfold selector_piece, taken_bytes. destruct (nr_adaptive t); [|done]. apply packed_range_size. nia. Qed.

Lemma k_piece_size c : (c < k_cohorts t)%nat -> size_of (k_piece c) = 2 * bytes_for (k_taken c).
Proof. intros Hc. destruct (k_taken_bounds c Hc) as (_ & ? & _). unfold k_piece. rewrite size_of_app, !packed_range_size by done. lia. Qed.

Lemma q_piece_size c : (c < q_cohorts t)%nat -> size_of (q_piece c) = bytes_for (q_taken c).
Proof. intros Hc. destruct (q_taken_bounds c Hc) as (_ & ? & _). unfold q_piece. by rewrite packed_range_size. Qed.

Lemma k_pieces_size m : (m <= k_cohorts t)%nat -> size_of (mjoin (k_piece <$> seq 0 m)) = Zsum (fun c => 2 * bytes_for (k_taken c)) (seq 0 m).
Proof. intros Hm. rewrite size_of_mjoin. apply Zsum_ext. intros c Hc%seq_cohort. apply k_piece_size. lia. Qed.

Lemma q_pieces_size m : (m <= q_cohorts t)%nat -> size_of (mjoin (q_piece <$> seq 0 m)) = Zsum (fun c => bytes_for (q_taken c)) (seq 0 m).
Proof. intros Hm. rewrite size_of_mjoin. apply Zsum_ext. intros c Hc%seq_cohort. apply q_piece_size. lia. Qed.

Lemma anchors_inside : 42 + 4 * rows <= size_of data.
Proof.
  assert (0 < k_cohorts t)%nat as Hc by (unfold k_cohorts; destruct (nr_adaptive t); lia). destruct (k_stream_inside 0 Hc) as [? ?].
  pose proof (bytes_for_nonneg _ (k_stream_nonneg 0%nat Hc)). lia.
Qed.

Lemma size_of_sliced : size_of sliced = sliced_size.
Proof.
  pose proof anchors_inside. pose proof rows_range. unfold sliced, sliced_size. rewrite !size_of_app, slice_header_size, !anchor_piece_size by lia.
  rewrite !selector_piece_size, k_pieces_size, q_pieces_size by lia. lia.
Qed.

Lemma sliced_size_bound : 0 <= sliced_size <= size_of data.
Proof.
  rewrite <- size_of_sliced. split; [apply size_of_nonneg|]. rewrite size_of_sliced. pose proof rows_range.
  assert (forall width, 0 <= width -> taken_bytes width <= selector_bytes t width) as Hsel.
  { intros width Hw. unfold taken_bytes, selector_bytes. destruct (nr_adaptive t); [|done]. apply bytes_for_mono. nia. }
  pose proof (Hsel 2 ltac:(lia)). pose proof (Hsel 3 ltac:(lia)). rewrite <- (ix_total _ _ Hindexed). unfold sliced_size, q_start, k_start.
  enough (Zsum (fun c => 2 * bytes_for (k_taken c)) (seq 0 (k_cohorts t)) <= Zsum (fun c => 2 * bytes_for (k_stream t c)) (seq 0 (k_cohorts t)) /\
          Zsum (fun c => bytes_for (q_taken c)) (seq 0 (q_cohorts t)) <= Zsum (fun c => bytes_for (q_stream t c)) (seq 0 (q_cohorts t))) by lia.
  split; apply Zsum_le; intros c Hc%seq_cohort.
  - destruct (k_taken_bounds c Hc) as (? & ? & ?). pose proof (bytes_for_mono (k_taken c) (k_stream t c)). lia.
  - destruct (q_taken_bounds c Hc) as (? & ? & ?). apply bytes_for_mono. lia.
Qed.

Lemma foldl_sizes (step : outcome Z -> nat -> outcome Z) (f : nat -> Z) l start :
  (forall c s, c ∈ l -> 0 <= s -> 0 <= f c -> s + f c <= 2 ^ 60 -> step (Ok s) c = Ok (s + f c)) -> (forall c, c ∈ l -> 0 <= f c) ->
  0 <= start -> start + Zsum f l <= 2 ^ 60 -> foldl step (Ok start) l = Ok (start + Zsum f l).
Proof using.
  revert start. induction l as [|c l IH]; intros start Hstep Hf Hs Hb; [unfold Zsum; simpl; by rewrite Z.add_0_r|].
  change (Zsum f (c :: l)) with (f c + Zsum f l) in *.
  assert (0 <= Zsum f l) by (apply Zsum_nonneg, Forall_forall; intros; apply Hf; by right).
  assert (0 <= f c) by (apply Hf; by left). cbn [foldl]. rewrite Hstep by (try (by left); lia).
  rewrite IH; [f_equal; lia|intros; apply Hstep; [by right|done..]|intros; apply Hf; by right|lia|lia].
Qed.


Context (Hdata : Forall is_byte data) (Hsmall : size_of data <= 2 ^ 60).

Lemma vector_holds : size_of data <= vector_max.
Proof. unfold vector_max, s64_max. lia. Qed.

Lemma row_range_nbytes_spec : row_range_nbytes t b e = Ok (size_of sliced).
Proof.
  rewrite size_of_sliced. pose proof sliced_size_bound as Hbound. pose proof rows_range. unfold s32_max in *. unfold row_range_nbytes, bad_range.
  destruct (_ || _ || _) eqn:?; [lia|]. rewrite u64_small by lia.
  assert (forall width, 0 < width <= 3 -> packed_size n width = Ok (bytes_for (n * width))) as Hsel.
  { intros width Hw. apply packed_size_iff; [lia..|]. unfold u64_max. split; [nia|done]. }
  assert ((if nr_adaptive t then k ← packed_size n 2; q ← packed_size n 3; Ok (k + q) else Ok 0) = Ok (taken_bytes 2 + taken_bytes 3)) as ->.
  { unfold taken_bytes. destruct (nr_adaptive t); [|done]. by rewrite !Hsel by lia. }
  assert (0 <= taken_bytes 2 /\ 0 <= taken_bytes 3) as [? ?] by (unfold taken_bytes; destruct (nr_adaptive t); [|done]; split; apply bytes_for_nonneg; nia).
  assert (forall c, c ∈ seq 0 (k_cohorts t) -> 0 <= 2 * bytes_for (k_taken c)) as Hkn.
  { intros c Hc%seq_cohort. destruct (k_taken_bounds c Hc) as (_ & ? & _). pose proof (bytes_for_nonneg (k_taken c)). lia. }
  assert (forall c, c ∈ seq 0 (q_cohorts t) -> 0 <= bytes_for (q_taken c)) as Hqn.
  { intros c Hc%seq_cohort. destruct (q_taken_bounds c Hc) as (_ & ? & _). by apply bytes_for_nonneg. }
  assert (0 <= Zsum (fun c => 2 * bytes_for (k_taken c)) (seq 0 (k_cohorts t))) by by apply Zsum_nonneg, Forall_forall.
  assert (0 <= Zsum (fun c => bytes_for (q_taken c)) (seq 0 (q_cohorts t))) by by apply Zsum_nonneg, Forall_forall.
  unfold sliced_size in *. cbn [mbind outcome_bind]. rewrite u64_small by lia.
  rewrite (foldl_sizes _ (fun c => 2 * bytes_for (k_taken c))); [cbn [mbind outcome_bind]|..|done|lia|lia].
  - rewrite (foldl_sizes _ (fun c => bytes_for (q_taken c))); [f_equal; lia| |done|lia|lia].
    intros c s Hc%seq_cohort ???. cbn [mbind outcome_bind].
    destruct (q_numbers c ltac:(lia)) as (_ & _ & -> & ? & ? & Htaken). pose proof (q_bits_range c ltac:(lia)).
    rewrite (u64_small (_ * nr_groups t)) by lia. replace (_ * nr_groups t * nr_group_size t) with ((rank_q t e c - rank_q t b c) * values) by lia.
    rewrite (u64_small (_ * values)) by lia. destruct (q_taken_bounds c ltac:(lia)) as (? & ? & ?). pose proof (ix_q_sound _ _ Hindexed c ltac:(lia)).
    rewrite (proj2 (packed_size_iff ((rank_q t e c - rank_q t b c) * values) (q_bits t c) (bytes_for (q_taken c)) ltac:(lia) ltac:(lia))) by (rewrite Htaken; split; [lia|done]).
    cbn [mbind outcome_bind]. rewrite u64_small by lia. done.
  - intros c s Hc%seq_cohort ???. cbn [mbind outcome_bind]. destruct (k_numbers c ltac:(lia)) as (_ & _ & -> & ? & Htaken & Hw).
    destruct (k_taken_bounds c ltac:(lia)) as (? & ? & ?). destruct (ix_k_sound _ _ Hindexed c ltac:(lia)) as [? _].
    destruct (Z.eqb_spec (rank_k t e c - rank_k t b c) 0) as [Hzero|Hzero]; cbn [negb].
    + assert (k_taken c = 0) as -> by (rewrite <- Htaken, Hzero; lia). change (bytes_for 0) with 0. f_equal. lia.
    + rewrite u64_small by lia. specialize (Hw ltac:(lia)).
      rewrite (proj2 (packed_size_iff ((rank_k t e c - rank_k t b c) * nr_groups t) (k_bits t c) (bytes_for (k_taken c)) ltac:(lia) ltac:(lia))) by (rewrite Htaken; split; [lia|done]).
      cbn [mbind outcome_bind]. rewrite (u64_small (2 * _)) by lia. rewrite u64_small by lia. done.
Qed.

(** *** Its pieces *)

Lemma pieces_bytes {A} (f : A -> list Z) l : (forall a, Forall is_byte (f a)) -> Forall is_byte (mjoin (f <$> l)).
Proof using. intros Hf. induction l as [|a l IH]; [constructor|]. simpl. by apply Forall_app. Qed.

Lemma sliced_bytes : Forall is_byte sliced.
Proof.
  unfold sliced, slice_header, anchor_piece, selector_piece. rewrite !Forall_app. split_and!; try apply le_bytes_are_bytes; try by apply slice_bytes.
  - destruct (nr_adaptive t); [apply packed_range_bytes|done].
  - apply pieces_bytes. intros c. apply Forall_app. split; apply packed_range_bytes.
  - destruct (nr_adaptive t); [apply packed_range_bytes|done].
  - apply pieces_bytes. intros c. apply packed_range_bytes.
Qed.
(** *** The collection *)

Context (X : exn -> Prop) (Hread : Reads X data (nr_read t)).

#[local] Notation batched := (if nr_read_batch t then true else false).

Lemma adds_k_cohort c : (c < k_cohorts t)%nat -> adds X data batched (slice_k_cohort t b e c) (k_piece c).
Proof.
  intros Hc. destruct (k_numbers c Hc) as (Hf & Ht & _ & _ & Htaken & _). destruct (k_taken_bounds c Hc) as (? & ? & ?).
  destruct (k_stream_inside c Hc) as [? ?]. pose proof rows_range. destruct (ix_k_sound _ _ Hindexed c Hc) as [Hs _]. unfold slice_k_cohort, k_piece.
  destruct (Z.eqb_spec (rank_k t b c) (rank_k t e c)) as [Heq|].
  { assert (k_taken c = 0) as -> by (rewrite <- Htaken, Heq, Z.sub_diag; lia). unfold packed_range. simpl. apply adds_ret. }
  rewrite Hf, Ht, (ix_scales _ _ Hindexed) , (ix_mins _ _ Hindexed) by done.
  pose proof (bytes_for_mono (k_first c + k_taken c) (k_stream t c) ltac:(lia)). pose proof (bytes_for_bound (k_stream t c) ltac:(lia)).
  pose proof vector_holds. apply adds_bind; (apply adds_append_range; [done..|lia|lia|lia|lia|lia]).
Qed.

Lemma adds_q_cohort c : (c < q_cohorts t)%nat -> adds X data batched (slice_q_cohort t b e c) (q_piece c).
Proof.
  intros Hc. destruct (q_numbers c Hc) as (Hf & Ht & _). destruct (q_taken_bounds c Hc) as (? & ? & ?).
  destruct (q_stream_inside c Hc) as [? ?]. pose proof (ix_q_sound _ _ Hindexed c Hc) as Hs. unfold slice_q_cohort, q_piece.
  rewrite Hf, Ht, (ix_values _ _ Hindexed) by done. pose proof (bytes_for_mono (q_first c + q_taken c) (q_stream t c) ltac:(lia)). pose proof (bytes_for_bound (q_stream t c) ltac:(lia)).
  pose proof vector_holds. apply adds_append_range; [done..|lia|lia|lia|lia|lia].
Qed.

Lemma adds_selected stream offset width : 0 < width <= 3 -> (nr_adaptive t = true -> selects data stream offset (selector_bytes t width)) ->
  adds X data batched (if nr_adaptive t then selected_bits stream b (u32 n) width else mret tt) (selector_piece stream width).
Proof.
  intros Hw Hsel. unfold selector_piece, selector_bytes in *. destruct (nr_adaptive t); [|apply adds_ret].
  destruct (Hsel eq_refl) as (Hs & Hsize & _). pose proof rows_range. unfold s32_max in *.
  assert (u32 n = n) as -> by (unfold u32; apply Z.mod_small; lia). unfold selected_bits. rewrite !u64_small by nia.
  apply adds_direct. intros output Ho. rewrite packed_range_size in Ho by nia.
  assert (0 <= b * width /\ 0 <= n * width /\ b * width + n * width <= rows * width <= 2 ^ 31 * 3) as (? & ? & ?) by nia.
  pose proof (bytes_for_mono (b * width + n * width) (rows * width) ltac:(lia)).
  replace (b * width) with (8 * 0 + b * width) at 2 by lia. eapply append_packed_range_spec; [done|apply memory_reads|unfold size_max, vector_max, u64_max, s64_max in *; lia..].
Qed.

Lemma adds_collect_rows : adds X data batched (collect_rows t b e) sliced.
Proof.
  pose proof rows_range. pose proof vector_holds. unfold s32_max in *. unfold collect_rows. assert (u32 n = n) as Hn by (unfold u32; apply Z.mod_small; lia).
  pose proof (k_stream_inside 0) as Hk. assert (0 < k_cohorts t)%nat by (unfold k_cohorts; destruct (nr_adaptive t); lia).
  destruct (Hk ltac:(done)) as [? ?]. pose proof (bytes_for_nonneg _ (k_stream_nonneg 0%nat ltac:(done))).
  destruct (ix_anchors _ _ Hindexed) as [-> ->]. unfold sliced. rewrite Hn.
  apply adds_bind; [apply adds_append_bytes|].
  apply adds_bind; [apply adds_append_anchors; first [done|lia|unfold within; lia]|].
  apply adds_bind; [apply adds_append_anchors; first [done|lia|unfold within; lia]|].
  apply adds_bind; [rewrite <- Hn at 1; apply (adds_selected _ (42 + 4 * rows)); [lia|apply (ix_k_selects _ _ Hindexed)]|].
  apply adds_bind; [apply adds_for_each; intros c Hc%seq_cohort; by apply adds_k_cohort|].
  apply adds_bind; [rewrite <- Hn at 1; apply (adds_selected _ (k_start t 4)); [lia|apply (ix_q_selects _ _ Hindexed)]|].
  apply adds_for_each; intros c Hc%seq_cohort; by apply adds_q_cohort.
Qed.

(** Whichever reader the table has, the slice is [sliced], or the reader throws. *)
Lemma slice_attempt : (forall batch, nr_read_batch t = Some batch -> ReadsBatch X data batch) ->
  attempt X (slice_rows_blob t b e) sliced.
Proof.
  intros Hbatch. unfold slice_rows_blob. rewrite row_range_nbytes_spec. cbn [mbind outcome_bind].
  pose proof vector_holds as Hv. pose proof sliced_size_bound as Hs. rewrite <- size_of_sliced in Hs.
  unfold bad_range. destruct (_ || _ || _) eqn:?; [lia|]. destruct (Z.ltb_spec vector_max (size_of sliced)); [lia|].
  assert (planned data batched nothing_collected) as Hempty by (constructor; [constructor..|done]).
  pose proof (adds_collect_rows _ Hempty) as Hadds. specialize (Hadds ltac:(unfold nothing_collected, size_of at 1; simpl; lia)).
  destruct (collect_rows t b e nothing_collected) as [[u|ex] c]; [|done]. destruct Hadds as [Hc Hr]. change (resolved data nothing_collected) with ([] : list Z) in Hr. simpl in Hr.
  destruct (nr_read_batch t) as [batch|] eqn:Hb.
  - apply (attempt_bind _ _ _ (perfect data (batch_spans c))); [apply (Hbatch _ eq_refl)|].
    + unfold batch_spans. apply Forall_app. split; apply Forall_fmap; [eapply Forall_impl; [apply (pl_reads _ _ _ Hc)|]|eapply Forall_impl; [apply (pl_outputs _ _ _ Hc)|]].
      * by intros r [? _].
      * by intros r [? _].
    + simpl. by rewrite resolve_perfect.
  - simpl. destruct (pl_direct _ _ _ Hc eq_refl) as (H1 & H2 & H3). unfold resolved in Hr. rewrite H2, H3 in Hr. simpl in Hr. by rewrite Hr.
Qed.

End Range.
End Table.

(** A piece of a tensor, and the bits in it. *)
Lemma slice_piece pre piece post : slice (pre ++ piece ++ post) (size_of pre) (size_of piece) = piece.
Proof. unfold slice, size_of. by rewrite !Nat2Z.id, drop_app_length, take_app_length. Qed.

Lemma bits_piece pre piece post i count :
  Forall is_byte (pre ++ piece ++ post) -> 0 <= i -> 0 <= count -> i + count <= 8 * size_of piece ->
  bits (le_value (pre ++ piece ++ post)) (8 * size_of pre + i) count = bits (le_value piece) i count.
Proof.
  intros Hb ???. pose proof (size_of_nonneg pre). pose proof (size_of_nonneg piece). pose proof (size_of_nonneg post).
  transitivity (bits (le_value (slice (pre ++ piece ++ post) (size_of pre) (size_of piece))) i count); [|by rewrite slice_piece].
  rewrite slice_value; [|done|unfold within; rewrite !size_of_app; lia]. by rewrite bits_bits by lia.
Qed.

Lemma mjoin_piece {A} (f : A -> list Z) l c x : l !! c = Some x -> mjoin (f <$> l) = mjoin (f <$> take c l) ++ f x ++ mjoin (f <$> drop (S c) l).
Proof.
  intros Hx. rewrite <- (take_drop_middle l c x Hx) at 1. rewrite fmap_app, fmap_cons, join_app. done.
Qed.

Lemma pieces_at (f : nat -> list Z) m c : (c < m)%nat ->
  exists post, mjoin (f <$> seq 0 m) = mjoin (f <$> seq 0 c) ++ f c ++ post.
Proof.
  intros Hc. rewrite (mjoin_piece f (seq 0 m) c c) by (by rewrite lookup_seq_lt). rewrite take_seq.
  replace (c `min` m)%nat with c by lia. by eexists.
Qed.
