(* ===== verification/NintRowsLaws.v ===== *)
(** * A slice keeps its rows

    A slice opens as a tensor of its own, with a selector per row of the range and streams
    of just the codes taken. [row_code] is what a row holds; [slice_keeps_rows] states that a
    row of the slice holds what the row of the tensor held. *)

From stdpp Require Import base numbers strings list.
From Stdlib Require Import ZArith Lia.
From S2P Require Import Prelude Sha256 LittleEndian PackedRows NintRows NintIndex NintSlice.

#[local] Set Default Proof Using "Type".
#[local] Open Scope Z_scope.

(** ** What a row holds *)

Record RowCode := {
  rc_scale : Z;
  rc_minimum : Z;
  rc_value_bits : Z;
  rc_meta_bits : Z;
  rc_values : list Z;
  rc_scales : list Z;
  rc_minima : list Z;
}.

(** The anchors of row [row], and its codes from the streams of its cohorts. *)
Definition row_code (data : list Z) (t : NintRows) (row : nat) : RowCode :=
  let kc := Z.to_nat (sel_k t row) in
  let qc := Z.to_nat (sel_q t row) in
  let anchor base := le_value (slice data (base + Z.of_nat row * 2) 2) in
  let meta base := codes_at (Z.to_nat (nr_groups t)) (k_bits t kc) (le_value data) (8 * base + k_before t row kc) in
  {| rc_scale := anchor (nr_neuron_scale_offset t); rc_minimum := anchor (nr_neuron_min_offset t);
     rc_value_bits := q_bits t qc; rc_meta_bits := k_bits t kc;
     rc_values := codes_at (Z.to_nat (nr_groups t * nr_group_size t)) (q_bits t qc) (le_value data) (8 * nr_q_offsets t !!! qc + q_before t row qc);
     rc_scales := meta (nr_scale_offsets t !!! kc); rc_minima := meta (nr_min_offsets t !!! kc) |}.

(** ** The header of a slice *)

Definition with_rows (n : Z) (g : Geometry) : Geometry :=
  {| ge_adaptive := ge_adaptive g; ge_bits := ge_bits g; ge_sub_bits := ge_sub_bits g; ge_group_size := ge_group_size g;
     ge_width := ge_width g; ge_rows := n; ge_groups := ge_groups g |}.

Lemma raw_bits_fields bits adaptive : 1 <= bits <= 8 ->
  let raw := Z.lor bits (if adaptive : bool then kNintAdaptiveStorageFlag else 0) mod 2 ^ 8 in
  nint_has_adaptive_storage raw = adaptive /\ nint_logical_bits raw = bits.
Proof.
  intros Hb. assert (bits ∈ [1; 2; 3; 4; 5; 6; 7; 8]) as Hin.
  { rewrite !elem_of_cons. lia. }
  apply list_elem_of_In in Hin. simpl in Hin. destruct adaptive; repeat (destruct Hin as [<-|Hin]; [done|]); done.
Qed.

Lemma slice_header_ok t n : sound_geometry (geometry_of t) -> 0 < n <= s32_max -> header_ok (slice_header t n) (with_rows n (geometry_of t)).
Proof.
  intros Hg Hn. destruct (groups_bounds _ Hg) as [Hgroups _]. pose proof Hg as [Hb Hs Hgs Hw Hr Hgr]. simpl in *.
  unfold header_ok, field. simpl ge_bits. simpl ge_sub_bits. simpl ge_group_size. simpl ge_width. simpl ge_rows. simpl ge_groups. simpl ge_adaptive.
  change (slice (slice_header t n) 0 1) with (le_bytes 1 (Z.lor (nr_bits t) (if nr_adaptive t then kNintAdaptiveStorageFlag else 0))).
  change (slice (slice_header t n) 1 1) with (le_bytes 1 (nr_sub_bits t)).
  change (slice (slice_header t n) 2 4) with (le_bytes 4 (nr_group_size t)).
  change (slice (slice_header t n) 6 4) with (le_bytes 4 0).
  change (slice (slice_header t n) 10 4) with (le_bytes 4 (nr_width t)).
  change (slice (slice_header t n) 14 4) with (le_bytes 4 2).
  change (slice (slice_header t n) 18 8) with (le_bytes 8 n).
  change (slice (slice_header t n) 26 8) with (le_bytes 8 (nr_width t)).
  change (slice (slice_header t n) 34 4) with (le_bytes 4 n).
  change (slice (slice_header t n) 38 4) with (le_bytes 4 (nr_groups t)).
  rewrite !le_value_bytes. change (8 * Z.of_nat 1) with 8. change (8 * Z.of_nat 4) with 32. change (8 * Z.of_nat 8) with 64.
  destruct (raw_bits_fields (nr_bits t) (nr_adaptive t) Hb) as [-> ->]. unfold s32_max in *.
  rewrite !Z.mod_small by lia. unfold s32, s64. rewrite !Z.mod_small by lia.
  split_and!; try done; try lia.
Qed.

(** ** The slice as a tensor *)

Section Reopen.
#[local] Set Default Proof Using "All".
Context (data : list Z) (t : NintRows) (Hindexed : Indexed data t).
Context (b e : Z) (Hrange : 0 <= b < e /\ e <= nr_rows t).
Context (Hdata : Forall is_byte data) (Hsmall : size_of data <= 2 ^ 60).

#[local] Notation n := (e - b).
#[local] Notation blob := (sliced data t b e).
#[local] Notation g := (with_rows n (geometry_of t)).

Lemma blob_bytes : Forall is_byte blob.
Proof. by apply sliced_bytes. Qed.

Lemma blob_size : size_of blob = sliced_size t b e.
Proof. by apply size_of_sliced. Qed.

Lemma n_range : 0 < n <= s32_max.
Proof. pose proof (rows_range _ _ Hindexed). lia. Qed.

Lemma slice_sound : sound_geometry g.
Proof. pose proof (ix_geometry _ _ Hindexed) as []. pose proof n_range. by constructor. Qed.

(** The pieces before a piece have the size of its place. *)
Lemma before_selectors : size_of (slice_header t n ++ anchor_piece data b e 42 ++ anchor_piece data b e (42 + 2 * nr_rows t)) = 42 + 4 * n.
Proof.
  pose proof (anchors_inside _ _ Hindexed b e Hrange). pose proof (rows_range _ _ Hindexed). rewrite !size_of_app, slice_header_size.
  rewrite !(anchor_piece_size data t Hindexed b e Hrange) by lia. lia.
Qed.

(** A stream of selectors of the slice selects as the tensor's does, from row [b] on. *)
Lemma piece_selects pre stream stream' post offset offset' width row :
  0 < width <= 3 -> nr_adaptive t = true -> blob = pre ++ selector_piece t b e stream width ++ post -> size_of pre = offset' ->
  selects data stream offset (selector_bytes t width) -> selects blob stream' offset' (bytes_for (n * width)) -> (row < Z.to_nat n)%nat ->
  selector stream' (Z.of_nat row) width = selector stream (Z.of_nat (Z.to_nat b + row)) width.
Proof.
  intros Hw Ha Hblob <- (Hs & [Hsize _] & _) (Hs' & [Hsize' _] & Hbits) Hrow. pose proof n_range. pose proof (rows_range _ _ Hindexed).
  unfold s32_max, selector_bytes, selector_piece in *. rewrite Ha in *.
  pose proof (bytes_for_bound (n * width) ltac:(nia)). pose proof (bytes_for_bound (nr_rows t * width) ltac:(nia)).
  assert ((Z.of_nat row + 1) * width <= n * width /\ n * width <= 2 ^ 33) as [? ?] by nia.
  assert ((Z.of_nat (Z.to_nat b + row) + 1) * width <= nr_rows t * width /\ nr_rows t * width <= 2 ^ 33) as [? ?] by nia.
  rewrite (selector_spec stream'), (selector_spec stream) by (done || nia).
  rewrite Hbits by nia. pose proof blob_bytes as Hbb. rewrite Hblob in Hbb |- *.
  pose proof (packed_range_size (le_value stream) (b * width) (n * width) ltac:(nia)) as Hps.
  rewrite bits_piece, packed_range_value, bits_bits by (done || nia). f_equal. nia.
Qed.

(** The ranks of the slice are those of the tensor, less those before the slice. *)
Lemma shifted_ranks sel sel' c row :
  (forall i, (i < Z.to_nat n)%nat -> sel' i = sel (Z.to_nat b + i)%nat) -> (row <= Z.to_nat n)%nat ->
  rank_of sel' c row = rank_of sel c (Z.to_nat b + row) - rank_of sel c (Z.to_nat b).
Proof. intros Hsel Hrow. rewrite <- rank_of_shift. apply rank_of_ext. intros i Hi. apply Hsel. lia. Qed.

Lemma to_end : (Z.to_nat b + Z.to_nat n)%nat = Z.to_nat e.
Proof. lia. Qed.

(** *** It opens *)

Lemma k_sizes ksel : nr_adaptive t = true ->
  (forall i, (i < Z.to_nat n)%nat -> selector ksel (Z.of_nat i) 2 = sel_k t (Z.to_nat b + i)%nat) ->
  forall c, (c < 4)%nat -> k_total (ge_sub_bits g) (ge_groups g) (k_ranked g ksel).1 c = k_taken t b e c /\
    k_sound (ge_sub_bits g) (ge_groups g) (k_ranked g ksel).1 c.
Proof.
  intros Ha Hsel c Hc. assert (c < k_cohorts t)%nat as Hc' by (unfold k_cohorts; by rewrite Ha). pose proof n_range.
  assert ((k_ranked g ksel).1 !!! c = rank_of (sel_k t) (Z.of_nat c) (Z.to_nat e) - rank_of (sel_k t) (Z.of_nat c) (Z.to_nat b)) as Hcount.
  { unfold k_ranked. simpl ge_rows. rewrite counts_spec by (done || lia). rewrite <- to_end. by apply (shifted_ranks (sel_k t)). }
  assert (k_total (ge_sub_bits g) (ge_groups g) (k_ranked g ksel).1 c = k_taken t b e c) as Htotal.
  { unfold k_total, k_width, k_taken, k_before, k_bits. rewrite Hcount, Ha. simpl. lia. }
  split; [done|]. unfold k_sound. rewrite Htotal, Hcount. destruct (k_taken_bounds _ _ Hindexed b e Hrange c Hc') as (? & ? & ?).
  destruct (ix_k_sound _ _ Hindexed c Hc') as [? Hw]. split; [lia|]. intros Hne. unfold k_bits in Hw. rewrite Ha in Hw. apply Hw.
  pose proof (rows_range _ _ Hindexed). rewrite (rank_k_spec _ _ Hindexed) by (done || lia).
  pose proof (rank_of_range (sel_k t) (Z.of_nat c) (Z.to_nat b)). pose proof (rank_of_mono (sel_k t) (Z.of_nat c) (Z.to_nat b) (Z.to_nat e) ltac:(lia)).
  pose proof (rank_of_mono (sel_k t) (Z.of_nat c) (Z.to_nat e) (Z.to_nat (nr_rows t)) ltac:(lia)). lia.
Qed.

Lemma q_sizes qsel : nr_adaptive t = true ->
  (forall i, (i < Z.to_nat n)%nat -> selector qsel (Z.of_nat i) 3 = sel_q t (Z.to_nat b + i)%nat) ->
  forall c, (c < 8)%nat -> q_total (ge_groups g * ge_group_size g) (q_ranked g qsel).1 c = q_taken t b e c /\ q_taken t b e c <= u64_max - 7.
Proof.
  intros Ha Hsel c Hc. assert (c < q_cohorts t)%nat as Hc' by (unfold q_cohorts; by rewrite Ha). pose proof n_range.
  assert ((q_ranked g qsel).1 !!! c = rank_of (sel_q t) (Z.of_nat c) (Z.to_nat e) - rank_of (sel_q t) (Z.of_nat c) (Z.to_nat b)) as Hcount.
  { unfold q_ranked. simpl ge_rows. rewrite counts_spec by (done || lia). rewrite <- to_end. by apply (shifted_ranks (sel_q t)). }
  destruct (q_taken_bounds _ _ Hindexed b e Hrange c Hc') as (? & ? & ?). pose proof (ix_q_sound _ _ Hindexed c Hc').
  split; [|lia]. unfold q_total, q_taken, q_before, q_bits. rewrite Hcount, Ha. simpl. lia.
Qed.

(** *** Where its pieces are *)

#[local] Notation kpos m := (42 + 4 * n + taken_bytes t b e 2 + Zsum (fun c => 2 * bytes_for (k_taken t b e c)) (seq 0 m)).
#[local] Notation qpos m := (kpos (k_cohorts t) + taken_bytes t b e 3 + Zsum (fun c => bytes_for (q_taken t b e c)) (seq 0 m)).

Lemma at_k_selectors : exists pre post, blob = pre ++ selector_piece t b e (nr_k_selectors t) 2 ++ post /\ size_of pre = 42 + 4 * n.
Proof. eexists (slice_header t n ++ _ ++ _), _. rewrite <- before_selectors. split; [|done]. unfold sliced. by rewrite <- !(assoc_L (++)). Qed.

Lemma at_k_cohort c : (c < k_cohorts t)%nat -> exists pre post, blob = pre ++ k_piece data t b e c ++ post /\ size_of pre = kpos c.
Proof.
  intros Hc. destruct (pieces_at (k_piece data t b e) _ _ Hc) as [post Hpost].
  eexists (slice_header t n ++ anchor_piece data b e 42 ++ anchor_piece data b e (42 + 2 * nr_rows t) ++ selector_piece t b e (nr_k_selectors t) 2 ++
    mjoin (k_piece data t b e <$> seq 0 c)), _. split; [unfold sliced; rewrite Hpost, <- !(assoc_L (++)); done|].
  pose proof before_selectors as Hb. rewrite !size_of_app in *.
  rewrite (selector_piece_size _ _ Hindexed b e Hrange), (k_pieces_size _ _ Hindexed b e Hrange) by lia. lia.
Qed.

Lemma at_q_selectors : exists pre post, blob = pre ++ selector_piece t b e (nr_q_selectors t) 3 ++ post /\ size_of pre = kpos (k_cohorts t).
Proof.
  eexists (slice_header t n ++ anchor_piece data b e 42 ++ anchor_piece data b e (42 + 2 * nr_rows t) ++ selector_piece t b e (nr_k_selectors t) 2 ++
    mjoin (k_piece data t b e <$> seq 0 (k_cohorts t))), _. split; [unfold sliced; rewrite <- !(assoc_L (++)); done|].
  pose proof before_selectors as Hb. rewrite !size_of_app in *.
  rewrite (selector_piece_size _ _ Hindexed b e Hrange), (k_pieces_size _ _ Hindexed b e Hrange) by lia. lia.
Qed.

Lemma at_q_cohort c : (c < q_cohorts t)%nat -> exists pre post, blob = pre ++ q_piece data t b e c ++ post /\ size_of pre = qpos c.
Proof.
  intros Hc. destruct (pieces_at (q_piece data t b e) _ _ Hc) as [post Hpost].
  eexists (slice_header t n ++ anchor_piece data b e 42 ++ anchor_piece data b e (42 + 2 * nr_rows t) ++ selector_piece t b e (nr_k_selectors t) 2 ++
    mjoin (k_piece data t b e <$> seq 0 (k_cohorts t)) ++ selector_piece t b e (nr_q_selectors t) 3 ++ mjoin (q_piece data t b e <$> seq 0 c)), _.
  split; [unfold sliced; rewrite Hpost, <- !(assoc_L (++)); done|]. pose proof before_selectors as Hb. rewrite !size_of_app in *.
  rewrite !(selector_piece_size _ _ Hindexed b e Hrange), (k_pieces_size _ _ Hindexed b e Hrange), (q_pieces_size _ _ Hindexed b e Hrange) by lia. lia.
Qed.

Lemma qpos_end : qpos (q_cohorts t) = size_of blob.
Proof. rewrite blob_size. done. Qed.

Lemma blob_selects offset size : 0 <= offset -> 0 <= size -> offset + size <= size_of blob ->
  selects blob (drop (Z.to_nat offset) blob) offset size.
Proof. intros. apply (selects_source (fun _ => False) _ (Borrowed blob)); [apply blob_bytes|done|done|done]. Qed.

Lemma taken_adaptive width : nr_adaptive t = true -> taken_bytes t b e width = bytes_for (n * width).
Proof. intros Ha. unfold taken_bytes. by rewrite Ha. Qed.

Lemma positions_nonneg : 0 <= bytes_for (n * 2) /\ 0 <= bytes_for (n * 3) /\
  0 <= Zsum (fun c => 2 * bytes_for (k_taken t b e c)) (seq 0 (k_cohorts t)) /\ 0 <= Zsum (fun c => bytes_for (q_taken t b e c)) (seq 0 (q_cohorts t)).
Proof.
  pose proof n_range. split_and!; [apply bytes_for_nonneg; lia|apply bytes_for_nonneg; lia|..]; apply Zsum_nonneg, Forall_forall; intros c Hc%seq_cohort.
  - destruct (k_taken_bounds _ _ Hindexed b e Hrange c Hc) as (_ & ? & _). pose proof (bytes_for_nonneg (k_taken t b e c)). lia.
  - destruct (q_taken_bounds _ _ Hindexed b e Hrange c Hc) as (_ & ? & _). by apply bytes_for_nonneg.
Qed.

Lemma slice_fills : nr_adaptive t = true -> exists ksel qsel, fills (Borrowed blob) (size_of blob) g ksel qsel.
Proof.
  intros Ha. pose proof n_range. pose proof positions_nonneg as (? & ? & ? & ?). pose proof qpos_end as Hend. rewrite !taken_adaptive in Hend by done.
  assert (k_cohorts t = 4%nat /\ q_cohorts t = 8%nat) as [Hk Hq] by (unfold k_cohorts, q_cohorts; by rewrite Ha).
  set (ksel := drop (Z.to_nat (42 + 4 * n)) blob). exists ksel.
  destruct at_k_selectors as (pre & post & Hblob & Hpre).
  assert (forall c, (c < 4)%nat -> k_total (ge_sub_bits g) (ge_groups g) (k_ranked g ksel).1 c = k_taken t b e c /\
    k_sound (ge_sub_bits g) (ge_groups g) (k_ranked g ksel).1 c) as Hks.
  { apply k_sizes; [done|]. intros i Hi. unfold sel_k. rewrite Ha.
    eapply (piece_selects pre _ _ post); [lia|done|done|done|by apply (ix_k_selects _ _ Hindexed)|apply blob_selects; lia|done]. }
  assert (k_end g ksel = kpos 4) as Hkend.
  { unfold k_end. simpl ge_rows. rewrite taken_adaptive by done. f_equal. apply Zsum_ext. intros c Hc%seq_cohort. unfold k_size. by destruct (Hks c Hc) as [-> _]. }
  set (qsel := drop (Z.to_nat (k_end g ksel)) blob). exists qsel.
  destruct at_q_selectors as (pre' & post' & Hblob' & Hpre'). rewrite Hk in Hpre', Hend.
  assert (forall c, (c < 8)%nat -> q_total (ge_groups g * ge_group_size g) (q_ranked g qsel).1 c = q_taken t b e c /\ q_taken t b e c <= u64_max - 7) as Hqs.
  { apply q_sizes; [done|]. intros i Hi. unfold sel_q. rewrite Ha.
    eapply (piece_selects pre' _ _ post'); [lia|done|done|exact Hpre'|by apply (ix_q_selects _ _ Hindexed)| |done].
    unfold qsel. rewrite Hkend. apply blob_selects; rewrite ?taken_adaptive by done; rewrite ?Hk in *; lia. }
  unfold fills. split_and!; [done|done|apply Forall_forall; intros c Hc%seq_cohort; by apply Hks| |].
  - apply Forall_forall. intros c Hc%seq_cohort. by destruct (Hqs c Hc) as [-> ?].
  - unfold q_end. rewrite Hkend, <- qpos_end, Hk, Hq, (taken_adaptive 3) by done. f_equal.
    apply Zsum_ext. intros c Hc%seq_cohort. unfold q_size. by destruct (Hqs c Hc) as [-> _].
Qed.

Lemma slice_fills_uniform : nr_adaptive t = false -> fills_uniform (size_of blob) g.
Proof.
  intros Ha. pose proof qpos_end as Hend. unfold taken_bytes, k_cohorts, q_cohorts in Hend. rewrite Ha in Hend. pose proof n_range.
  pose proof (rows_range _ _ Hindexed).
  assert (meta_bits g = k_taken t b e 0) as Hm.
  { unfold meta_bits, k_taken, k_before, k_bits. rewrite !(rank_of_ext (sel_k t) (fun _ => 0)) by (intros; unfold sel_k; by rewrite Ha).
    rewrite Ha, !(rank_of_const (Z.of_nat 0)), !Z2Nat.id by lia. simpl. lia. }
  assert (value_bits g = q_taken t b e 0) as Hv.
  { unfold value_bits, q_taken, q_before, q_bits. rewrite !(rank_of_ext (sel_q t) (fun _ => 0)) by (intros; unfold sel_q; by rewrite Ha).
    rewrite Ha, !(rank_of_const (Z.of_nat 0)), !Z2Nat.id by lia. simpl. lia. }
  assert (0 < k_cohorts t)%nat as Hk by (unfold k_cohorts; rewrite Ha; lia). assert (0 < q_cohorts t)%nat as Hq by (unfold q_cohorts; rewrite Ha; lia).
  destruct (k_taken_bounds _ _ Hindexed b e Hrange 0%nat Hk) as (? & ? & ?). destruct (ix_k_sound _ _ Hindexed 0%nat Hk).
  destruct (q_taken_bounds _ _ Hindexed b e Hrange 0%nat Hq) as (? & ? & ?). pose proof (ix_q_sound _ _ Hindexed 0%nat Hq).
  unfold fills_uniform. rewrite Hm, Hv. unfold Zsum in Hend. simpl in Hend. simpl ge_rows. split_and!; lia.
Qed.

Lemma sliced_opens : exists t', open_memory blob = Ok t' /\ Indexed blob t' /\ geometry_of t' = g.
Proof.
  pose proof slice_sound as Hg. pose proof n_range as Hn. pose proof qpos_end as Hend. pose proof (anchors_inside _ _ Hindexed b e Hrange).
  assert (header_size <= 42 + 4 * n <= size_of blob) as [? Hin].
  { unfold header_size. destruct at_k_selectors as (pre & post & -> & Hpre). rewrite size_of_app, Hpre.
    pose proof (size_of_nonneg (selector_piece t b e (nr_k_selectors t) 2 ++ post)). lia. }
  assert (header_ok (slice blob 0 header_size) g) as Hheader.
  { assert (slice blob 0 header_size = slice_header t n) as ->; [|apply slice_header_ok; [apply (ix_geometry _ _ Hindexed)|done]].
    unfold sliced. apply (slice_piece [] (slice_header t n)). }
  assert (exists t', (if ge_adaptive g then index_adaptive else index_uniform) (Borrowed blob) (size_of blob) g 42 (42 + 2 * ge_rows g) (42 + 4 * ge_rows g) =
    (Ok t', size_of blob) /\ Indexed blob t' /\ geometry_of t' = g) as (t' & Ht & ? & ?).
  { change (ge_adaptive g) with (nr_adaptive t). destruct (nr_adaptive t) eqn:Ha.
    - destruct (slice_fills Ha) as (ksel & qsel & Hf). exists (adaptive_table (Borrowed blob) (size_of blob) g ksel qsel).
      split; [by apply index_adaptive_intro|]. split; [|unfold geometry_of, with_rows; simpl; by rewrite Ha].
      by apply (adaptive_table_indexed (fun _ => False)); [apply blob_bytes|..].
    - exists (uniform_table (Borrowed blob) (size_of blob) g). split; [apply index_uniform_iff; [done|simpl ge_rows; lia|]; split; [by apply slice_fills_uniform|done]|].
      split; [|unfold geometry_of, with_rows; simpl; by rewrite Ha]. by apply uniform_table_indexed; [..|apply slice_fills_uniform]. }
  exists t'. split; [|done]. eapply (open_intro _ g); [apply blob_bytes|lia|done|simpl ge_rows; lia|done].
Qed.

(** ** Its rows *)

Section Opened.
Context (t' : NintRows) (Hindexed' : Indexed blob t') (Hgeometry : geometry_of t' = g).

Lemma same_fields : nr_adaptive t' = nr_adaptive t /\ nr_rows t' = n /\ nr_groups t' = nr_groups t /\ nr_group_size t' = nr_group_size t /\
  nr_bits t' = nr_bits t /\ nr_sub_bits t' = nr_sub_bits t.
Proof. destruct t'. unfold geometry_of, with_rows in Hgeometry. simpl in *. by injection Hgeometry. Qed.

Lemma same_cohorts : k_cohorts t' = k_cohorts t /\ q_cohorts t' = q_cohorts t /\ (forall c, k_bits t' c = k_bits t c) /\ (forall c, q_bits t' c = q_bits t c).
Proof. destruct same_fields as (Ha & _ & _ & _ & Hb & Hs). unfold k_cohorts, q_cohorts, k_bits, q_bits. rewrite Ha, Hb, Hs. done. Qed.

Lemma same_selector_bytes width : selector_bytes t' width = taken_bytes t b e width.
Proof. destruct same_fields as (Ha & Hr & _). unfold selector_bytes, taken_bytes. by rewrite Ha, Hr. Qed.

Lemma same_sel_k i : (i < Z.to_nat n)%nat -> sel_k t' i = sel_k t (Z.to_nat b + i)%nat.
Proof.
  intros Hi. destruct same_fields as (Ha & Hr & _). unfold sel_k. rewrite Ha. destruct (nr_adaptive t) eqn:Hat; [|done].
  pose proof (ix_k_selects _ _ Hindexed' Ha) as Hsel. rewrite Hr, same_selector_bytes, taken_adaptive in Hsel by done.
  destruct at_k_selectors as (pre & post & Hblob & Hpre).
  eapply (piece_selects pre _ _ post); [lia|done|done|done|by apply (ix_k_selects _ _ Hindexed)|done|done].
Qed.

Lemma same_k_before c row : (c < k_cohorts t)%nat -> (row <= Z.to_nat n)%nat ->
  k_before t' row c = k_before t (Z.to_nat b + row) c - k_first t b c.
Proof.
  intros Hc Hrow. destruct same_fields as (_ & _ & Hg & _). destruct same_cohorts as (_ & _ & Hk & _). unfold k_before, k_first, k_before.
  rewrite Hk, Hg, (shifted_ranks (sel_k t) (sel_k t')) by (done || apply same_sel_k). lia.
Qed.

Lemma same_k_stream c : (c < k_cohorts t)%nat -> k_stream t' c = k_taken t b e c.
Proof.
  intros Hc. destruct same_fields as (_ & Hr & _). destruct same_cohorts as (Hkc & _).
  rewrite <- (k_before_all _ _ Hindexed') by lia. rewrite Hr, same_k_before, to_end by lia. done.
Qed.

Lemma same_k_start c : (c <= k_cohorts t)%nat -> k_start t' c = kpos c.
Proof.
  intros Hc. destruct same_fields as (_ & Hr & _). unfold k_start. rewrite Hr, same_selector_bytes. f_equal.
  apply Zsum_ext. intros c' Hc'%seq_cohort. rewrite same_k_stream by lia. done.
Qed.

Lemma same_sel_q i : (i < Z.to_nat n)%nat -> sel_q t' i = sel_q t (Z.to_nat b + i)%nat.
Proof.
  intros Hi. destruct same_fields as (Ha & Hr & _). unfold sel_q. rewrite Ha. destruct (nr_adaptive t) eqn:Hat; [|done].
  assert (k_cohorts t = 4%nat) as Hk by (unfold k_cohorts; by rewrite Hat).
  pose proof (ix_q_selects _ _ Hindexed' Ha) as Hsel. rewrite same_selector_bytes, (taken_adaptive 3), same_k_start in Hsel by (done || lia).
  destruct at_q_selectors as (pre & post & Hblob & Hpre). rewrite Hk in Hpre.
  eapply (piece_selects pre _ _ post); [lia|done|done|exact Hpre|by apply (ix_q_selects _ _ Hindexed)|done|done].
Qed.

Lemma same_q_before c row : (c < q_cohorts t)%nat -> (row <= Z.to_nat n)%nat ->
  q_before t' row c = q_before t (Z.to_nat b + row) c - q_first t b c.
Proof.
  intros Hc Hrow. destruct same_fields as (_ & _ & Hg & Hgs & _). destruct same_cohorts as (_ & _ & _ & Hq). unfold q_before, q_first, q_before.
  rewrite Hq, Hg, Hgs, (shifted_ranks (sel_q t) (sel_q t')) by (done || apply same_sel_q). lia.
Qed.

Lemma same_q_stream c : (c < q_cohorts t)%nat -> q_stream t' c = q_taken t b e c.
Proof.
  intros Hc. destruct same_fields as (_ & Hr & _). destruct same_cohorts as (_ & Hqc & _).
  rewrite <- (q_before_all _ _ Hindexed') by lia. rewrite Hr, same_q_before, to_end by lia. done.
Qed.

Lemma same_q_start c : (c <= q_cohorts t)%nat -> q_start t' c = qpos c.
Proof.
  intros Hc. destruct same_cohorts as (Hkc & _). unfold q_start. rewrite Hkc, same_k_start, same_selector_bytes by lia. f_equal.
  apply Zsum_ext. intros c' Hc'%seq_cohort. rewrite same_q_stream by lia. done.
Qed.

(** *** The codes of a row *)

(** A range of a packed piece of the slice is a range of the tensor. *)
Lemma bits_of_piece pre post first taken i count : blob = pre ++ packed_range (le_value data) first taken ++ post ->
  0 <= first -> 0 <= taken -> 0 <= i -> 0 <= count -> i + count <= taken ->
  bits (le_value blob) (8 * size_of pre + i) count = bits (le_value data) (first + i) count.
Proof.
  intros Hblob ?????. pose proof blob_bytes as Hbb. rewrite Hblob in Hbb |- *.
  pose proof (packed_range_size (le_value data) first taken ltac:(lia)) as Hps. pose proof (bytes_for_bound taken ltac:(lia)).
  rewrite bits_piece, packed_range_value, bits_bits by (done || lia). done.
Qed.

Lemma anchor_code row base base' pre post : (row < Z.to_nat n)%nat -> blob = pre ++ anchor_piece data b e base ++ post ->
  size_of pre = base' -> 0 <= base -> base + 2 * nr_rows t <= size_of data ->
  le_value (slice blob (base' + Z.of_nat row * 2) 2) = le_value (slice data (base + Z.of_nat (Z.to_nat b + row) * 2) 2).
Proof.
  intros Hrow Hblob <- ??. pose proof (anchor_piece_size _ _ Hindexed b e Hrange base ltac:(lia) ltac:(lia)) as Hs. pose proof blob_bytes as Hbb.
  pose proof (size_of_nonneg pre). pose proof (size_of_nonneg post).
  assert (size_of blob = size_of pre + 2 * n + size_of post) as Hsize by (rewrite Hblob, !size_of_app, Hs; lia).
  rewrite !slice_value by (done || unfold within; lia). rewrite Hblob in Hbb |- *.
  replace (8 * (size_of pre + Z.of_nat row * 2)) with (8 * size_of pre + 16 * Z.of_nat row) by lia.
  rewrite bits_piece by (done || lia). unfold anchor_piece. rewrite slice_value, bits_bits by (done || unfold within; lia). f_equal. lia.
Qed.

Lemma meta_code row c pre post first base base' : (row < Z.to_nat n)%nat -> sel_k t (Z.to_nat b + row)%nat = Z.of_nat c -> (c < k_cohorts t)%nat ->
  blob = pre ++ packed_range (le_value data) first (k_taken t b e c) ++ post -> first = 8 * base + k_first t b c -> 0 <= base ->
  size_of pre = base' ->
  codes_at (Z.to_nat (nr_groups t')) (k_bits t' c) (le_value blob) (8 * base' + k_before t' row c) =
  codes_at (Z.to_nat (nr_groups t)) (k_bits t c) (le_value data) (8 * base + k_before t (Z.to_nat b + row) c).
Proof.
  intros Hrow Hsel Hc Hblob -> Hbase <-. destruct same_fields as (_ & _ & Hg & _). destruct same_cohorts as (_ & _ & Hk & _). rewrite Hg, Hk.
  pose proof (groups_range _ _ Hindexed) as [? _]. pose proof (rows_range _ _ Hindexed).
  destruct (k_taken_bounds _ _ Hindexed b e Hrange c Hc) as (? & ? & _).
  pose proof (k_before_mono _ _ Hindexed (Z.to_nat b) (Z.to_nat b + row) c Hc ltac:(lia)). pose proof (k_before_next t _ _ Hsel) as Hnext.
  pose proof (k_before_mono _ _ Hindexed (Z.to_nat b + row) (S (Z.to_nat b + row)) c Hc ltac:(lia)).
  pose proof (k_before_mono _ _ Hindexed (S (Z.to_nat b + row)) (Z.to_nat e) c Hc ltac:(lia)).
  pose proof (size_of_nonneg pre). unfold k_taken, k_first in *.
  assert (0 <= k_bits t c) as Hkb by nia. rewrite (same_k_before c row) by lia. unfold k_first.
  apply codes_at_eq; [done|lia|lia|]. rewrite Z2Nat.id by lia.
  rewrite (bits_of_piece pre post (8 * base + k_before t (Z.to_nat b) c) (k_before t (Z.to_nat e) c - k_before t (Z.to_nat b) c)) by (done || lia).
  f_equal. lia.
Qed.

Lemma value_code row c : (row < Z.to_nat n)%nat -> sel_q t (Z.to_nat b + row)%nat = Z.of_nat c -> (c < q_cohorts t)%nat ->
  codes_at (Z.to_nat (nr_groups t' * nr_group_size t')) (q_bits t' c) (le_value blob) (8 * qpos c + q_before t' row c) =
  codes_at (Z.to_nat (nr_groups t * nr_group_size t)) (q_bits t c) (le_value data) (8 * q_start t c + q_before t (Z.to_nat b + row) c).
Proof.
  intros Hrow Hsel Hc. destruct same_fields as (_ & _ & Hg & Hgs & _). destruct same_cohorts as (_ & _ & _ & Hq). rewrite Hg, Hgs, Hq.
  pose proof (groups_range _ _ Hindexed) as [_ ?]. pose proof (q_bits_range _ _ Hindexed c Hc). destruct (q_stream_inside _ _ Hindexed c Hc) as [? _].
  destruct (q_taken_bounds _ _ Hindexed b e Hrange c Hc) as (? & ? & _).
  pose proof (q_before_mono _ _ Hindexed (Z.to_nat b) (Z.to_nat b + row) c Hc ltac:(lia)). pose proof (q_before_next t _ _ Hsel) as Hnext.
  pose proof (q_before_mono _ _ Hindexed (S (Z.to_nat b + row)) (Z.to_nat e) c Hc ltac:(lia)).
  destruct (at_q_cohort c Hc) as (pre & post & Hblob & Hpre). pose proof (size_of_nonneg pre). unfold q_piece in Hblob. rewrite <- Hpre.
  unfold q_taken, q_first in *. rewrite (same_q_before c row) by lia. unfold q_first.
  apply codes_at_eq; [lia|lia|lia|]. rewrite Z2Nat.id by lia.
  rewrite (bits_of_piece pre post (8 * q_start t c + q_before t (Z.to_nat b) c) (q_before t (Z.to_nat e) c - q_before t (Z.to_nat b) c)) by (done || lia).
  f_equal. lia.
Qed.

Lemma slice_row_code row : (row < Z.to_nat n)%nat -> row_code blob t' row = row_code data t (Z.to_nat b + row).
Proof.
  intros Hrow. pose proof (anchors_inside _ _ Hindexed b e Hrange). pose proof (rows_range _ _ Hindexed).
  destruct same_fields as (_ & Hr & _). destruct same_cohorts as (Hkc & Hqc & Hkb & Hqb).
  pose proof (sel_k_range _ _ Hindexed (Z.to_nat b + row)) as Hk. pose proof (sel_q_range _ _ Hindexed (Z.to_nat b + row)) as Hq.
  unfold row_code. rewrite same_sel_k, same_sel_q by done.
  set (kc := Z.to_nat (sel_k t (Z.to_nat b + row))). set (qc := Z.to_nat (sel_q t (Z.to_nat b + row))).
  assert (sel_k t (Z.to_nat b + row) = Z.of_nat kc /\ (kc < k_cohorts t)%nat) as [Hkc1 Hkc2] by (unfold kc; lia).
  assert (sel_q t (Z.to_nat b + row) = Z.of_nat qc /\ (qc < q_cohorts t)%nat) as [Hqc1 Hqc2] by (unfold qc; lia).
  destruct (ix_anchors _ _ Hindexed) as [-> ->]. destruct (ix_anchors _ _ Hindexed') as [-> ->].
  rewrite (ix_scales _ _ Hindexed), (ix_mins _ _ Hindexed), (ix_values _ _ Hindexed) by done.
  rewrite (ix_scales _ _ Hindexed'), (ix_mins _ _ Hindexed'), (ix_values _ _ Hindexed') by lia.
  rewrite same_k_start, same_q_start, same_k_stream by lia. destruct (at_k_cohort kc Hkc2) as (pre & post & Hblob & Hpre).
  destruct (k_stream_inside _ _ Hindexed kc Hkc2) as [? ?]. destruct (k_taken_bounds _ _ Hindexed b e Hrange kc Hkc2) as (? & ? & ?).
  pose proof (bytes_for_nonneg (k_stream t kc) ltac:(lia)). unfold k_piece in Hblob. rewrite Hqb, Hkb. f_equal.
  - eapply (anchor_code row 42 42 (slice_header t n)); [done|unfold sliced; reflexivity|apply slice_header_size|lia|lia].
  - eapply (anchor_code row _ _ (slice_header t n ++ anchor_piece data b e 42)); [done|unfold sliced; rewrite <- (assoc_L (++)); reflexivity| |lia|lia].
    rewrite size_of_app, slice_header_size, (anchor_piece_size _ _ Hindexed b e Hrange) by lia. lia.
  - pose proof (value_code row qc Hrow Hqc1 Hqc2) as Hv. by rewrite Hqb in Hv.
  - rewrite <- (Hkb kc) at 1. eapply (meta_code row kc pre); [done..|rewrite Hblob, <- (assoc_L (++)); reflexivity|done|lia|done].
  - rewrite <- (Hkb kc) at 1. eapply (meta_code row kc (pre ++ packed_range (le_value data) (8 * k_start t kc + k_first t b kc) (k_taken t b e kc))); [done..|rewrite Hblob, <- !(assoc_L (++)); reflexivity|done|lia|].
    rewrite size_of_app, packed_range_size by done. lia.
Qed.
End Opened.
End Reopen.

(** ** The property *)

Lemma serves_reads X data source : serves X data source -> Reads X data (source_read source).
Proof. destruct source; simpl; [intros ->; apply memory_reads|by intros [? _]]. Qed.

Lemma serves_batch X data source batch : serves X data source -> source_batch source = Some batch -> ReadsBatch X data batch.
Proof. destruct source as [|read b parallel]; simpl; [done|]. intros [_ Hb]. apply Hb. Qed.

(** C7: cutting rows out of a NINT tensor keeps what they hold. For every tensor that opens,
    in memory or through a reader, and every range of its rows, [slice_rows_blob] returns,
    unless the reader throws, a blob of just the size [row_range_nbytes] announces; the blob
    opens as a tensor of the range's rows, with the widths, groups and storage of the
    original; and each row of it holds the anchors, code widths, values, scales and minima of
    the row it was cut from. Tensors are below 2^60 bytes. *)
Theorem slice_keeps_rows X data source t begin_ end_ :
  Forall is_byte data -> size_of data <= 2 ^ 60 -> serves X data source -> initialize source (size_of data) = Ok t ->
  0 <= begin_ < end_ -> end_ <= nr_rows t ->
  exists blob t', attempt X (slice_rows_blob t begin_ end_) blob /\ row_range_nbytes t begin_ end_ = Ok (size_of blob) /\
    open_memory blob = Ok t' /\ geometry_of t' = with_rows (end_ - begin_) (geometry_of t) /\
    forall row, (row < Z.to_nat (end_ - begin_))%nat -> row_code blob t' row = row_code data t (Z.to_nat begin_ + row).
Proof.
  intros Hdata Hsmall Hserves Ht ??. destruct (initialize_indexed _ _ _ _ Hdata Hserves Ht) as (Hindexed & Hread & Hbatch).
  destruct (sliced_opens data t Hindexed begin_ end_) as (t' & Hopen & Hindexed' & Hg); [done..|].
  exists (sliced data t begin_ end_), t'. split_and!; [|by apply row_range_nbytes_spec|done|done|].
  - apply slice_attempt; [done..|rewrite Hread; by apply serves_reads|]. rewrite Hbatch. intros batch. by apply serves_batch.
  - intros row Hrow. by apply slice_row_code.
Qed.

(** ** A small tensor *)

Module NintToy.

Definition pack (width : Z) (values : list Z) : list Z :=
  le_bytes (Z.to_nat (bytes_for (size_of values * width))) (foldr (fun v acc => v + 2 ^ width * acc) 0 values).

(** Three rows of two values, in cohorts 1, 0, 1 of scales and minima and 2, 0, 2 of values. *)
Definition tensor : list Z :=
  le_bytes 1 (128 + 3) ++ le_bytes 1 2 ++ le_bytes 4 2 ++ le_bytes 4 0 ++ le_bytes 4 2 ++ le_bytes 4 2 ++
  le_bytes 8 3 ++ le_bytes 8 2 ++ le_bytes 4 3 ++ le_bytes 4 1 ++
  mjoin (le_bytes 2 <$> [15360; 14336; 15360]) ++ mjoin (le_bytes 2 <$> [13312; 13312; 0]) ++
  pack 2 [1; 0; 1] ++ pack 1 [1] ++ pack 1 [0] ++ pack 2 [3; 2] ++ pack 2 [1; 0] ++
  pack 3 [2; 0; 2] ++ pack 1 [1; 0] ++ pack 3 [5; 6; 7; 1].

Definition table : NintRows :=
  match open_memory tensor with
  | Ok t => t
  | Throw _ => adaptive_table (Borrowed []) 0 {| ge_adaptive := false; ge_bits := 0; ge_sub_bits := 0; ge_group_size := 0;
                 ge_width := 0; ge_rows := 0; ge_groups := 0 |} [] []
  end.

Lemma tensor_bytes : Forall is_byte tensor.
Proof. unfold is_byte. apply Forall_forall. intros v Hv. apply list_elem_of_In in Hv. vm_compute in Hv. intuition lia. Qed.

Lemma tensor_opens : initialize (Borrowed tensor) (size_of tensor) = Ok table.
Proof. vm_compute. reflexivity. Qed.

(** The last row holds its values [7; 1], scale 2 and minimum 0; it is the second row of the slice. *)
Lemma slice_keeps_rows_witness :
  row_code tensor table 2 =
    {| rc_scale := 15360; rc_minimum := 0; rc_value_bits := 3; rc_meta_bits := 2; rc_values := [7; 1]; rc_scales := [2]; rc_minima := [0] |} /\
  exists blob t', slice_rows_blob table 1 3 = Ok blob /\ open_memory blob = Ok t' /\ row_code blob t' 1 = row_code tensor table 2.
Proof.
  split; [vm_compute; reflexivity|].
  destruct (slice_keeps_rows (fun _ => False) tensor (Borrowed tensor) table 1 3 tensor_bytes) as (blob & t' & Ha & _ & Ho & _ & Hr);
    [vm_compute; discriminate|reflexivity|apply tensor_opens|lia|vm_compute; discriminate|].
  exists blob, t'. split; [apply (attempt_ok _ _ Ha)|]. split; [exact Ho|]. apply (Hr 1%nat). vm_compute. lia.
Defined.
End NintToy.
