(* ===== verification/NintWire.v ===== *)
(** * What a batch of rows says

    A batch holds, for every row, a copy of its three streams and a descriptor of six words;
    [wire_code] is what a kernel reads by such a descriptor. A batch is [Sound] when every
    descriptor keeps to the packed bytes. [publish_codes] states that merging two batches
    appends the rows of the second to those of the first; [copy_row_codes], that a row is
    copied to another batch as it is. *)

From stdpp Require Import base numbers strings list.
From Stdlib Require Import ZArith Lia.
From S2P Require Import Prelude Sha256 LittleEndian PackedRows NintRows NintIndex NintSlice NintRowsLaws.

#[local] Set Default Proof Using "Type".
#[local] Open Scope Z_scope.

(** ** What a kernel reads *)

Definition wire_code (packed : list Z) (width : Z) (d : list Z) : RowCode :=
  let layout := d !!! 3%nat in
  let q := Z.land layout 15 in
  let k := Z.land (Z.shiftr layout 4) 15 in
  let group := d !!! 4%nat in
  let groups := (width + group - 1) / group in
  let at_ offset shift n w := codes_at (Z.to_nat n) w (le_value packed) (8 * offset + Z.land (Z.shiftr layout shift) 7) in
  {| rc_scale := Z.land (d !!! 5%nat) 65535; rc_minimum := Z.shiftr (d !!! 5%nat) 16; rc_value_bits := q; rc_meta_bits := k;
     rc_values := at_ (d !!! 0%nat) 8 (groups * group) q; rc_scales := at_ (d !!! 1%nat) 12 groups k;
     rc_minima := at_ (d !!! 2%nat) 16 groups k |}.

Definition descriptor (b : NintRowBatch) (i : nat) : list Z := slice (nb_descriptors b) (Z.of_nat i * 6) 6.

Definition row_count (b : NintRowBatch) : nat := Z.to_nat (batch_rows b).

(** The rows of a batch. *)
Definition batch_codes (b : NintRowBatch) : list RowCode :=
  (fun i => wire_code (nb_packed b) (nb_width b) (descriptor b i)) <$> seq 0 (row_count b).

(** ** Sound batches *)

(** The bounds [copy_row] checks, and a group size that is one. *)
Definition wire_in (b : NintRowBatch) (d : list Z) : Prop :=
  length d = 6%nat /\ 0 < d !!! 4%nat <= s32_max /\
  forall f, (f < 3)%nat -> 0 <= d !!! f /\ d !!! f + stream_sizes b d !!! f <= size_of (nb_packed b).

Record Sound (b : NintRowBatch) : Prop := {
  so_bytes : Forall is_byte (nb_packed b);
  so_read : 0 <= nb_source_bytes_read b < 2 ^ 64;
  so_words : length (nb_descriptors b) = (row_count b * 6)%nat;
  so_rows : forall i, (i < row_count b)%nat -> wire_in b (descriptor b i);
  so_width : 0 <= nb_width b /\ (nb_width b = 0 -> nb_descriptors b = []);
}.

Lemma empty_sound : Sound empty_batch.
Proof. split; simpl; try done. intros i Hi. change (row_count empty_batch) with 0%nat in Hi. lia. Qed.

Lemma u32_small v : 0 <= v < 2 ^ 32 -> u32 v = v.
Proof. unfold u32. intros. by apply Z.mod_small. Qed.

(** *** Six words *)

Lemma slice_app_l {A} (l k : list A) i : (S i * 6 <= length l)%nat ->
  take 6 (drop (i * 6) (l ++ k)) = take 6 (drop (i * 6) l).
Proof. intros. rewrite drop_app_le by lia. apply take_app_le. rewrite length_drop. lia. Qed.

Lemma descriptor_eq b i : descriptor b i = take 6 (drop (i * 6) (nb_descriptors b)).
Proof. unfold descriptor, slice. f_equal. f_equal. lia. Qed.

Lemma six_words {A} (d : list A) : length d = 6%nat -> exists a0 a1 a2 a3 a4 a5, d = [a0; a1; a2; a3; a4; a5].
Proof. intros. do 7 (destruct d as [|? d]; try done). eauto 10. Qed.

Lemma moved_app offset a n b : length a = (n * 6)%nat -> moved offset (a ++ b) = moved offset a ++ moved offset b.
Proof.
  intros Ha. unfold moved. rewrite imap_app. f_equal. apply imap_ext. intros i w _. unfold compose.
  by rewrite Ha, Nat.add_comm, Nat.Div0.mod_add.
Qed.

Lemma moved_length offset d : length (moved offset d) = length d.
Proof. apply length_imap. Qed.

Lemma moved_take offset d n : take n (moved offset d) = moved offset (take n d).
Proof. unfold moved. apply list_eq. intros i. destruct (decide (i < n)%nat); rewrite ?lookup_take_lt, ?list_lookup_imap, ?lookup_take_lt, ?lookup_take_ge by lia; done. Qed.

Lemma moved_drop offset d i : drop (i * 6) (moved offset d) = moved offset (drop (i * 6) d).
Proof.
  unfold moved. apply list_eq. intros j. rewrite lookup_drop, !list_lookup_imap, lookup_drop.
  by rewrite Nat.add_comm, Nat.Div0.mod_add.
Qed.

Lemma moved_six offset a0 a1 a2 a3 a4 a5 :
  moved offset [a0; a1; a2; a3; a4; a5] = [u32 (a0 + offset); u32 (a1 + offset); u32 (a2 + offset); a3; a4; a5].
Proof. done. Qed.

(** *** A row that moves *)

Lemma land_7_range v : 0 <= Z.land v 7 < 8.
Proof. rewrite land_7. apply Z.mod_pos_bound. lia. Qed.

Lemma land_15_range v : 0 <= Z.land v 15 < 16.
Proof. change 15 with (Z.ones 4). rewrite Z.land_ones by lia. apply Z.mod_pos_bound. lia. Qed.

(** Bits behind and before a piece do not matter. *)
Lemma moved_codes pre piece post offset shift n width :
  Forall is_byte (pre ++ piece ++ post) -> 0 <= offset -> 0 <= shift -> 0 <= width -> 0 <= n ->
  offset + bytes_for (shift + n * width) <= size_of piece ->
  codes_at (Z.to_nat n) width (le_value (pre ++ piece ++ post)) (8 * (offset + size_of pre) + shift) =
  codes_at (Z.to_nat n) width (le_value piece) (8 * offset + shift).
Proof.
  intros Hb ?????. pose proof (size_of_nonneg pre). pose proof (bytes_for_bound (shift + n * width) ltac:(nia)).
  apply codes_at_eq; [lia..|]. rewrite Z2Nat.id by lia.
  replace (8 * (offset + size_of pre) + shift) with (8 * size_of pre + (8 * offset + shift)) by lia.
  apply bits_piece; [done|lia|nia|nia].
Qed.

Lemma stream_sizes_eq b d : 0 < d !!! 4%nat <= s32_max ->
  let layout := d !!! 3%nat in let group := d !!! 4%nat in let groups := (nb_width b + group - 1) / group in
  let q := Z.land layout 15 in let k := Z.land (Z.shiftr layout 4) 15 in
  stream_sizes b d =
    [bytes_for (Z.land (Z.shiftr layout 8) 7 + groups * group * q); bytes_for (Z.land (Z.shiftr layout 12) 7 + groups * k);
     bytes_for (Z.land (Z.shiftr layout 16) 7 + groups * k)].
Proof. intros Hg. unfold stream_sizes. rewrite s32_small by (unfold in_s32, s32_max in *; lia). done. Qed.

Lemma stream_sizes_nonneg b d f : 0 < d !!! 4%nat <= s32_max -> 0 <= nb_width b -> (f < 3)%nat -> 0 <= stream_sizes b d !!! f.
Proof.
  intros Hg Hw Hf. rewrite stream_sizes_eq by done. assert (0 <= (nb_width b + d !!! 4%nat - 1) / d !!! 4%nat) by (apply Z.div_pos; lia).
  pose proof (land_15_range (d !!! 3%nat)). pose proof (land_15_range (Z.shiftr (d !!! 3%nat) 4)).
  destruct f as [|[|[|f]]]; [| | |lia]; apply bytes_for_nonneg; apply Z.add_nonneg_nonneg; (apply land_7_range || nia).
Qed.

(** The offsets of a sound row fit their words, moved or not. *)
Lemma offset_range b d f : wire_in b d -> 0 <= nb_width b -> (f < 3)%nat -> 0 <= d !!! f <= size_of (nb_packed b).
Proof. intros (_ & Hg & Hin) Hw Hf. pose proof (stream_sizes_nonneg b d f Hg Hw Hf). specialize (Hin f Hf). lia. Qed.

Lemma moved_words b d offset : wire_in b d -> 0 <= nb_width b -> 0 <= offset -> offset + size_of (nb_packed b) <= s32_max ->
  moved offset d = [d !!! 0%nat + offset; d !!! 1%nat + offset; d !!! 2%nat + offset; d !!! 3%nat; d !!! 4%nat; d !!! 5%nat].
Proof.
  intros Hd Hw Ho Hs. pose proof (fun f => offset_range b d f Hd Hw) as Hr. destruct Hd as [Hlength _].
  pose proof (Hr 0%nat ltac:(lia)). pose proof (Hr 1%nat ltac:(lia)). pose proof (Hr 2%nat ltac:(lia)). clear Hr. unfold s32_max in *.
  destruct (six_words d Hlength) as (a0 & a1 & a2 & a3 & a4 & a5 & ->). rewrite moved_six. simpl in *. by rewrite !u32_small by lia.
Qed.

Lemma wire_code_moved b pre post d :
  wire_in b d -> 0 <= nb_width b -> Forall is_byte (pre ++ nb_packed b ++ post) -> size_of (pre ++ nb_packed b ++ post) <= s32_max ->
  wire_code (pre ++ nb_packed b ++ post) (nb_width b) (moved (size_of pre) d) = wire_code (nb_packed b) (nb_width b) d.
Proof.
  intros Hd Hwidth Hb Hsize. rewrite !size_of_app in Hsize. pose proof (size_of_nonneg pre). pose proof (size_of_nonneg post).
  rewrite (moved_words b d) by (done || lia). destruct Hd as (_ & Hg & Hin). rewrite (stream_sizes_eq b d Hg) in Hin.
  pose proof (Hin 0%nat ltac:(lia)) as [??]. pose proof (Hin 1%nat ltac:(lia)) as [??]. pose proof (Hin 2%nat ltac:(lia)) as [??].
  clear Hin. unfold wire_code. simpl in *. pose proof (land_15_range (d !!! 3%nat)). pose proof (land_15_range (Z.shiftr (d !!! 3%nat) 4)).
  set (groups := (nb_width b + d !!! 4%nat - 1) / d !!! 4%nat) in *. assert (0 <= groups) by (apply Z.div_pos; lia).
  f_equal; apply moved_codes; (done || apply land_7_range || nia).
Qed.

(** *** Merging *)

Lemma row_count_words b n : length (nb_descriptors b) = (n * 6)%nat -> row_count b = n.
Proof. intros Hn. unfold row_count, batch_rows, size_of. rewrite Hn, Nat2Z.inj_mul, Z.div_mul by lia. lia. Qed.

Section Publish.
Context (b p : NintRowBatch) (Hb : Sound b) (Hp : Sound p) (Hwidth : nb_width b = 0 \/ nb_width b = nb_width p) (Hpos : 0 < nb_width p).
Context (Hsize : size_of (nb_packed b) + size_of (nb_packed p) <= s32_max).
#[local] Set Default Proof Using "All".

#[local] Notation both := (set_batch_width (nb_width p) (publish_piece b p)).

Lemma both_words : nb_descriptors both = nb_descriptors b ++ moved (size_of (nb_packed b)) (nb_descriptors p).
Proof. simpl. pose proof (size_of_nonneg (nb_packed b)). pose proof (size_of_nonneg (nb_packed p)). unfold s32_max in Hsize. rewrite u32_small by lia. done. Qed.

Lemma both_count : row_count both = (row_count b + row_count p)%nat.
Proof. apply row_count_words. rewrite both_words, length_app, moved_length, !so_words by done. lia. Qed.

Lemma both_first i : (i < row_count b)%nat -> descriptor both i = descriptor b i.
Proof. intros. rewrite !descriptor_eq, both_words. apply slice_app_l. rewrite so_words by done. lia. Qed.

Lemma both_second i : descriptor both (row_count b + i) = moved (size_of (nb_packed b)) (descriptor p i).
Proof.
  rewrite !descriptor_eq, both_words, drop_app_ge by (rewrite so_words by done; lia). rewrite so_words by done.
  replace ((row_count b + i) * 6 - row_count b * 6)%nat with (i * 6)%nat by lia. by rewrite moved_drop, moved_take.
Qed.

Lemma first_width : row_count b <> 0%nat -> nb_width b = nb_width p.
Proof.
  intros Hn. destruct Hwidth as [H0|]; [|done]. destruct Hn. apply so_width in H0; [|done]. apply row_count_words. by rewrite H0.
Qed.

Lemma both_bytes : Forall is_byte (nb_packed both).
Proof. simpl. apply Forall_app. split; by apply so_bytes. Qed.

Lemma publish_sound : Sound both.
Proof.
  split; [apply both_bytes|apply (Z.mod_pos_bound _ (2 ^ 64)); lia| |..].
  - rewrite both_count, both_words, length_app, moved_length, !so_words by done. lia.
  - rewrite both_count. intros i Hi. destruct (decide (i < row_count b)%nat) as [Hlt|Hge].
    + rewrite both_first by done. destruct (so_rows _ Hb i Hlt) as (? & Hg & Hin). pose proof (first_width ltac:(lia)) as Hw.
      split_and!; [done|lia|lia|]. intros f Hf. specialize (Hin f Hf). rewrite stream_sizes_eq in Hin |- * by done. simpl.
      rewrite <- Hw, size_of_app. pose proof (size_of_nonneg (nb_packed p)). lia.
    + replace i with (row_count b + (i - row_count b))%nat by lia. rewrite both_second.
      pose proof (so_rows _ Hp (i - row_count b) ltac:(lia)) as Hd. pose proof Hd as (_ & Hg & Hin).
      pose proof (size_of_nonneg (nb_packed b)) as Hs. pose proof (so_width _ Hp) as [? _]. unfold s32_max in Hsize.
      rewrite (moved_words p) by (done || lia). split_and!; [done|apply Hg|apply Hg|]. intros f Hf. specialize (Hin f Hf).
      rewrite stream_sizes_eq in Hin |- * by done. simpl. rewrite size_of_app. destruct f as [|[|[|f]]]; simpl in *; lia.
  - simpl. lia.
Qed.

(** The rows of both, in order. *)
Lemma publish_codes : batch_codes both = batch_codes b ++ batch_codes p.
Proof.
  unfold batch_codes at 1. rewrite both_count, seq_app, fmap_app. f_equal.
  - apply list_fmap_ext. intros i ? Hi. apply lookup_seq in Hi as [-> Hi]. simpl. rewrite both_first by lia.
    destruct (so_width _ Hb) as [? _]. pose proof (wire_code_moved b [] (nb_packed p) (descriptor b i) (so_rows _ Hb i ltac:(lia)) ltac:(lia) both_bytes) as Hm.
    assert (row_count b <> 0%nat) as Hn by lia. rewrite <- (first_width Hn). change (@size_of Z []) with 0 in Hm. simpl in Hm. rewrite <- Hm by (rewrite size_of_app; lia). f_equal.
    pose proof (so_rows _ Hb i ltac:(lia)). pose proof (size_of_nonneg (nb_packed p)). rewrite (moved_words b) by (done || lia). rewrite !Z.add_0_r. destruct (so_rows _ Hb i ltac:(lia)) as [Hlength _].
    by destruct (six_words _ Hlength) as (a0 & a1 & a2 & a3 & a4 & a5 & ->).
  - rewrite Nat.add_0_l. replace (seq (row_count b) (row_count p)) with (Nat.add (row_count b) <$> seq 0 (row_count p)) by by rewrite fmap_add_seq, Nat.add_0_r.
    rewrite <- list_fmap_compose. apply list_fmap_ext. intros i ? Hi. apply lookup_seq in Hi as [-> Hi]. simpl.
    rewrite both_second. destruct (so_width _ Hp) as [? _]. pose proof (wire_code_moved p (nb_packed b) [] (descriptor p i) (so_rows _ Hp i ltac:(lia)) ltac:(lia)) as Hm.
    rewrite app_nil_r in Hm. apply Hm; [apply both_bytes|rewrite size_of_app; lia].
Qed.
End Publish.

(** [append_batch] accepts what fits, and appends its rows. *)
Definition fits (b other : NintRowBatch) : Prop :=
  (nb_width b = 0 \/ nb_width b = nb_width other) /\ 0 < nb_width other /\ (0 < row_count other)%nat /\
  size_of (nb_packed b) + size_of (nb_packed other) <= s32_max /\
  Z.of_nat (row_count b + row_count other) <= s32_max / 6 /\
  Z.of_nat (row_count b + row_count other) * nb_width other <= u32_max.

Lemma batch_rows_count b : batch_rows b = Z.of_nat (row_count b).
Proof. unfold row_count, batch_rows. pose proof (Z.div_pos (size_of (nb_descriptors b)) 6 (size_of_nonneg _)). lia. Qed.

Lemma append_batch_codes b other : Sound b -> Sound other -> fits b other ->
  exists b', append_batch b other false = Ok b' /\ Sound b' /\ nb_width b' = nb_width other /\
    batch_codes b' = batch_codes b ++ batch_codes other.
Proof.
  intros Hb Ho (Hw & Hpos & Hn & Hs & Hr & Hp). exists (set_batch_width (nb_width other) (publish_piece b other)).
  split_and!; [|by apply publish_sound|done|by apply publish_codes].
  pose proof (size_of_nonneg (nb_packed b)). pose proof (size_of_nonneg (nb_packed other)).
  unfold append_batch, validate. rewrite !batch_rows_count. unfold u32_max, s32_max in *.
  assert (0 <= Z.of_nat (row_count other) * nb_width other <= Z.of_nat (row_count b + row_count other) * nb_width other) by nia.
  rewrite <- Nat2Z.inj_add, !u64_small by lia. cbn -[Z.pow Z.div].
  clear Hb Ho. destruct (negb _ && negb _) eqn:?; [lia|]. destruct (_ || _ || (_ <? Z.of_nat (row_count other) * _)) eqn:?; [lia|]. cbn -[Z.pow Z.div].
  destruct (_ || _ || _ || _) eqn:Hbad; [|done]. rewrite !orb_true_iff, !Z.ltb_lt in Hbad. destruct Hbad as [[[?|?]|?]|?]; lia.
Qed.

(** ** One row *)

(** The streams of a row, and the last three words of its descriptor. *)
Record Wire := { wi_values : list Z; wi_scales : list Z; wi_minima : list Z; wi_layout : Z; wi_group : Z; wi_anchors : Z }.

Definition wire_packed (w : Wire) : list Z := wi_values w ++ [0] ++ wi_scales w ++ [0] ++ wi_minima w ++ [0].
Definition wire_words (base : Z) (w : Wire) : list Z :=
  [base; base + size_of (wi_values w) + 1; base + size_of (wi_values w) + size_of (wi_scales w) + 2;
   wi_layout w; wi_group w; wi_anchors w].
Definition wire_batch (width bytes_read : Z) (w : Wire) : NintRowBatch :=
  {| nb_packed := wire_packed w; nb_descriptors := wire_words 0 w; nb_source_bytes_read := bytes_read; nb_width := width |}.

(** What the row says, stream by stream. *)
Definition wire_decode (width : Z) (w : Wire) : RowCode :=
  let layout := wi_layout w in
  let q := Z.land layout 15 in
  let k := Z.land (Z.shiftr layout 4) 15 in
  let groups := (width + wi_group w - 1) / wi_group w in
  let at_ stream shift n w := codes_at (Z.to_nat n) w (le_value stream) (Z.land (Z.shiftr layout shift) 7) in
  {| rc_scale := Z.land (wi_anchors w) 65535; rc_minimum := Z.shiftr (wi_anchors w) 16; rc_value_bits := q; rc_meta_bits := k;
     rc_values := at_ (wi_values w) 8 (groups * wi_group w) q; rc_scales := at_ (wi_scales w) 12 groups k;
     rc_minima := at_ (wi_minima w) 16 groups k |}.

Record wire_ok (width : Z) (w : Wire) : Prop := {
  wo_bytes : Forall is_byte (wi_values w) /\ Forall is_byte (wi_scales w) /\ Forall is_byte (wi_minima w);
  wo_width : 0 < width;
  wo_group : 0 < wi_group w <= s32_max;
  wo_sizes : let sizes := stream_sizes (wire_batch width 0 w) (wire_words 0 w) in
    sizes !!! 0%nat <= size_of (wi_values w) /\ sizes !!! 1%nat <= size_of (wi_scales w) /\ sizes !!! 2%nat <= size_of (wi_minima w);
}.

Lemma wire_packed_size w : size_of (wire_packed w) = size_of (wi_values w) + size_of (wi_scales w) + size_of (wi_minima w) + 3.
Proof. unfold wire_packed. rewrite !size_of_app. change (size_of [0]) with 1. lia. Qed.

Section OneRow.
Context (width bytes_read : Z) (w : Wire) (Hok : wire_ok width w) (Hread : 0 <= bytes_read < 2 ^ 64).
#[local] Set Default Proof Using "All".

Lemma one_row : row_count (wire_batch width bytes_read w) = 1%nat /\ descriptor (wire_batch width bytes_read w) 0 = wire_words 0 w.
Proof using. done. Qed.

Lemma wire_packed_bytes : Forall is_byte (wire_packed w).
Proof.
  destruct (wo_bytes _ _ Hok) as (? & ? & ?). assert (Forall is_byte [0]) by (repeat constructor; done).
  unfold wire_packed. rewrite !Forall_app. done.
Qed.

Lemma wire_batch_sound : Sound (wire_batch width bytes_read w).
Proof.
  destruct one_row as [Hc Hd]. pose proof (wo_width _ _ Hok). pose proof (wo_group _ _ Hok). destruct (wo_sizes _ _ Hok) as (? & ? & ?).
  split; [apply wire_packed_bytes|done|done| |simpl; lia]. rewrite Hc. intros i Hi. replace i with 0%nat by lia. rewrite Hd.
  split_and!; [done|simpl; lia|simpl; lia|]. intros f Hf. simpl nb_packed. rewrite wire_packed_size.
  pose proof (size_of_nonneg (wi_values w)). pose proof (size_of_nonneg (wi_scales w)). pose proof (size_of_nonneg (wi_minima w)).
  change (stream_sizes (wire_batch width bytes_read w)) with (stream_sizes (wire_batch width 0 w)).
  destruct f as [|[|[|f]]]; [| | |lia]; cbn -[stream_sizes] in *; lia.
Qed.

Lemma stream_codes pre piece post shift n bits :
  wire_packed w = pre ++ piece ++ post -> 0 <= shift -> 0 <= bits -> 0 <= n -> bytes_for (shift + n * bits) <= size_of piece ->
  codes_at (Z.to_nat n) bits (le_value (wire_packed w)) (8 * size_of pre + shift) = codes_at (Z.to_nat n) bits (le_value piece) shift.
Proof.
  intros Hw ????. pose proof wire_packed_bytes as Hb. rewrite Hw in Hb |- *.
  pose proof (moved_codes pre piece post 0 shift n bits Hb) as Hm. simpl in Hm. apply Hm; lia.
Qed.

Lemma wire_batch_codes : batch_codes (wire_batch width bytes_read w) = [wire_decode width w].
Proof.
  destruct one_row as [Hc Hd]. unfold batch_codes. rewrite Hc. simpl seq. rewrite fmap_cons. f_equal. rewrite Hd.
  pose proof (wo_width _ _ Hok). pose proof (wo_group _ _ Hok) as Hg. destruct (wo_sizes _ _ Hok) as (H0 & H1 & H2).
  rewrite stream_sizes_eq in H0, H1, H2 by done. unfold wire_code, wire_decode. simpl in *.
  pose proof (land_15_range (wi_layout w)). pose proof (land_15_range (Z.shiftr (wi_layout w) 4)).
  set (groups := (width + wi_group w - 1) / wi_group w) in *. assert (0 <= groups) by (apply Z.div_pos; lia).
  f_equal.
  - apply (stream_codes [] _ ([0] ++ wi_scales w ++ [0] ++ wi_minima w ++ [0])); (done || apply land_7_range || nia).
  - replace (0 + size_of (wi_values w) + 1) with (size_of (wi_values w ++ [0])) by (by rewrite size_of_app).
    apply (stream_codes _ _ ([0] ++ wi_minima w ++ [0])); [unfold wire_packed; by rewrite <- !app_assoc|apply land_7_range|lia..].
  - replace (0 + size_of (wi_values w) + size_of (wi_scales w) + 2) with (size_of (wi_values w ++ [0] ++ wi_scales w ++ [0]))
      by (rewrite !size_of_app; change (size_of [0]) with 1; lia).
    apply (stream_codes _ _ [0]); [unfold wire_packed; by rewrite <- !app_assoc|apply land_7_range|lia..].
Qed.
End OneRow.

(** *** A row copied to another batch *)

Definition copied (b : NintRowBatch) (d : list Z) : Wire :=
  let stream f := slice (nb_packed b) (d !!! f) (stream_sizes b d !!! f) in
  {| wi_values := stream 0%nat; wi_scales := stream 1%nat; wi_minima := stream 2%nat;
     wi_layout := d !!! 3%nat; wi_group := d !!! 4%nat; wi_anchors := d !!! 5%nat |}.

Section Copied.
Context (b : NintRowBatch) (d : list Z) (Hbytes : Forall is_byte (nb_packed b)) (Hd : wire_in b d) (Hwidth : 0 < nb_width b).
#[local] Set Default Proof Using "All".

Lemma copied_within f : (f < 3)%nat -> within (nb_packed b) (d !!! f) (stream_sizes b d !!! f).
Proof.
  intros Hf. destruct Hd as (_ & Hg & Hin). pose proof (stream_sizes_nonneg b d f Hg ltac:(lia) Hf). specialize (Hin f Hf).
  unfold within. lia.
Qed.

Lemma copied_size f : (f < 3)%nat -> size_of (slice (nb_packed b) (d !!! f) (stream_sizes b d !!! f)) = stream_sizes b d !!! f.
Proof. intros. apply slice_length. by apply copied_within. Qed.

Lemma copied_ok : wire_ok (nb_width b) (copied b d).
Proof.
  destruct Hd as (_ & Hg & _). split; [split_and!; by apply slice_bytes|done|done|].
  change (stream_sizes (wire_batch (nb_width b) 0 (copied b d)) (wire_words 0 (copied b d))) with (stream_sizes b d).
  simpl. rewrite !copied_size by lia. done.
Qed.

Lemma copied_stream f shift n bits : (f < 3)%nat -> 0 <= shift -> 0 <= bits -> 0 <= n -> stream_sizes b d !!! f = bytes_for (shift + n * bits) ->
  codes_at (Z.to_nat n) bits (le_value (slice (nb_packed b) (d !!! f) (stream_sizes b d !!! f))) shift =
  codes_at (Z.to_nat n) bits (le_value (nb_packed b)) (8 * d !!! f + shift).
Proof.
  intros Hf ??? Hs. pose proof (copied_within f Hf) as Hw. pose proof (bytes_for_bound (shift + n * bits) ltac:(nia)). pose proof Hw as (? & ? & ?).
  apply codes_at_eq; [lia..|]. rewrite Z2Nat.id by lia. rewrite slice_value by done. apply bits_bits; nia.
Qed.

Lemma copied_decode : wire_decode (nb_width b) (copied b d) = wire_code (nb_packed b) (nb_width b) d.
Proof.
  pose proof Hd as (_ & Hg & _). pose proof (stream_sizes_eq b d Hg) as Hs. cbv zeta in Hs.
  unfold wire_decode, wire_code, copied. cbn [wi_layout wi_group wi_anchors wi_values wi_scales wi_minima].
  pose proof (land_15_range (d !!! 3%nat)). pose proof (land_15_range (Z.shiftr (d !!! 3%nat) 4)).
  set (groups := (nb_width b + d !!! 4%nat - 1) / d !!! 4%nat) in *. assert (0 <= groups) by (apply Z.div_pos; lia).
  f_equal; apply copied_stream; (lia || apply land_7_range || nia || by rewrite Hs).
Qed.

(** The loop over the fields makes the batch of the copied row. *)
Lemma stream_total : Zsum id (stream_sizes b d) = stream_sizes b d !!! 0%nat + stream_sizes b d !!! 1%nat + stream_sizes b d !!! 2%nat.
Proof. destruct Hd as (_ & Hg & _). rewrite stream_sizes_eq by done. unfold Zsum. simpl. lia. Qed.

Lemma copy_fields : size_of (nb_packed b) <= s32_max -> Zsum id (stream_sizes b d) + 3 <= s32_max ->
  foldl (fun acc f => result ← acc; copy_field b d result f) (Ok (set_batch_width (nb_width b) empty_batch)) (seq 0 3) =
  Ok {| nb_packed := wire_packed (copied b d); nb_descriptors := take 3 (wire_words 0 (copied b d)); nb_source_bytes_read := 0; nb_width := nb_width b |}.
Proof.
  rewrite stream_total. intros Hsmall Hroom. pose proof (fun f Hf => copied_within f Hf) as Hw. pose proof (fun f Hf => copied_size f Hf) as Hs.
  pose proof (Hw 0%nat ltac:(lia)) as (? & ? & ?). pose proof (Hw 1%nat ltac:(lia)) as (? & ? & ?). pose proof (Hw 2%nat ltac:(lia)) as (? & ? & ?).
  pose proof (Hs 0%nat ltac:(lia)) as Hs0. pose proof (Hs 1%nat ltac:(lia)) as Hs1. clear Hw Hs.
  assert (forall result f, (f < 3)%nat -> copy_field b d result f =
    Ok (set_packed (nb_packed result ++ slice (nb_packed b) (d !!! f) (stream_sizes b d !!! f) ++ [0])
         (add_descriptor [u32 (size_of (nb_packed result))] (nb_width result) result))) as Hcopy.
  { intros result f Hf. unfold copy_field. destruct (copied_within f Hf) as (? & ? & ?). destruct (_ || _) eqn:?; [lia|done]. }
  cbn [seq foldl mbind outcome_bind]. rewrite (Hcopy _ 0%nat) by lia. cbn [mbind outcome_bind]. rewrite (Hcopy _ 1%nat) by lia.
  cbn [mbind outcome_bind]. rewrite (Hcopy _ 2%nat) by lia.
  unfold set_packed, add_descriptor, set_batch_width, empty_batch, wire_packed, wire_words, copied.
  cbn [nb_packed nb_descriptors nb_source_bytes_read nb_width wi_values wi_scales wi_minima app take]. unfold s32_max in *.
  rewrite !size_of_app, Hs0, Hs1. change (size_of [0]) with 1. change (@size_of Z []) with 0.
  rewrite !u32_small by lia. rewrite <- !app_assoc. rewrite !Z.add_0_l.
  replace (stream_sizes b d !!! 0%nat + 1 + (stream_sizes b d !!! 1%nat + 1)) with (stream_sizes b d !!! 0%nat + stream_sizes b d !!! 1%nat + 2) by lia. done.
Qed.
End Copied.


(** ** A small batch *)

Module WireToy.

(** Two values of three bits, from the second bit of their byte on; one group. *)
Definition row : Wire :=
  {| wi_values := [2 * (5 + 8 * 6)]; wi_scales := [3]; wi_minima := [1]; wi_layout := 3 + 2 * 2 ^ 4 + 1 * 2 ^ 8; wi_group := 2; wi_anchors := 15360 |}.

Lemma row_ok : wire_ok 2 row.
Proof.
  split; [|lia|simpl; unfold s32_max; lia|vm_compute; split_and!; discriminate].
  split_and!; (constructor; [vm_compute; split; [discriminate|reflexivity]|constructor]).
Qed.

End WireToy.
