(* ===== verification/NintGather.v ===== *)
(** * Rows gathered for a kernel

    [append_rows] reads rows one by one on a thread, on several threads whose pieces are
    published in order, or plans all reads and issues one batch. [gather_is_lookup] states
    that each way appends just the rows asked for, in order. *)

From stdpp Require Import base numbers strings list.
From Stdlib Require Import ZArith Lia.
From S2P Require Import Prelude Sha256 LittleEndian PackedRows NintRows NintIndex NintSlice NintRowsLaws NintWire.

#[local] Set Default Proof Using "Type".
#[local] Open Scope Z_scope.

(** ** The words of a descriptor *)

Lemma layout_fields q k s r : 1 <= q <= 8 -> 1 <= k <= 8 -> 0 <= s < 8 -> 0 <= r < 8 ->
  let w := u32 (Z.lor (Z.lor (Z.lor (Z.lor q (Z.shiftl k 4)) (Z.shiftl s 8)) (Z.shiftl r 12)) (Z.shiftl r 16)) in
  Z.land w 15 = q /\ Z.land (Z.shiftr w 4) 15 = k /\ Z.land (Z.shiftr w 8) 7 = s /\ Z.land (Z.shiftr w 12) 7 = r /\ Z.land (Z.shiftr w 16) 7 = r.
Proof.
  intros Hq Hk Hs Hr.
  assert (forallb (fun q => forallb (fun k => forallb (fun s => forallb (fun r =>
    let w := u32 (Z.lor (Z.lor (Z.lor (Z.lor q (Z.shiftl k 4)) (Z.shiftl s 8)) (Z.shiftl r 12)) (Z.shiftl r 16)) in
    (Z.land w 15 =? q) && (Z.land (Z.shiftr w 4) 15 =? k) && (Z.land (Z.shiftr w 8) 7 =? s) && (Z.land (Z.shiftr w 12) 7 =? r) &&
    (Z.land (Z.shiftr w 16) 7 =? r)) (seqZ 0 8)) (seqZ 0 8)) (seqZ 1 8)) (seqZ 1 8) = true) as Hall by (vm_compute; reflexivity).
  assert (forall (P : Z -> bool) m n x, forallb P (seqZ m n) = true -> m <= x < m + n -> P x = true) as Hin.
  { intros P m n x HP Hx. rewrite forallb_forall in HP. apply HP, list_elem_of_In, elem_of_seqZ. lia. }
  apply (Hin _ _ _ q) in Hall; [|lia]. apply (Hin _ _ _ k) in Hall; [|lia]. apply (Hin _ _ _ s) in Hall; [|lia]. apply (Hin _ _ _ r) in Hall; [|lia].
  cbv zeta in *. rewrite !andb_true_iff, !Z.eqb_eq in Hall. tauto.
Qed.

Lemma halves_fields s m : 0 <= s < 2 ^ 16 -> 0 <= m -> Z.land (Z.lor s (Z.shiftl m 16)) 65535 = s /\ Z.shiftr (Z.lor s (Z.shiftl m 16)) 16 = m.
Proof.
  intros Hs Hm. change 65535 with (Z.ones 16). split.
  - rewrite Z.land_lor_distr_l, !Z.land_ones by lia. rewrite Z.shiftl_mul_pow2, Z.mod_mul, Z.lor_0_r by lia. by apply Z.mod_small.
  - rewrite Z.shiftr_lor, Z.shiftr_shiftl_l, Z.shiftr_div_pow2, (Z.div_small s) by lia. simpl. by rewrite Z.shiftl_0_r.
Qed.

(** Products that do not wrap. *)
Lemma wrapped_product a g k : 0 <= a -> 0 <= g -> 1 <= k -> a * g * k < 2 ^ 64 -> u64 (u64 (a * g) * k) = a * g * k.
Proof.
  intros. assert (0 <= a * g) by nia. assert (a * g * 1 <= a * g * k) by (apply Z.mul_le_mono_nonneg_l; lia).
  rewrite (u64_small (a * g)) by lia. apply u64_small. lia.
Qed.

Lemma wrapped_product3 a g s k : 0 <= a -> 0 <= g -> 1 <= s -> 1 <= k -> a * (g * s) * k < 2 ^ 64 ->
  u64 (u64 (u64 (a * g) * s) * k) = a * (g * s) * k.
Proof.
  intros Ha Hg Hs Hk. rewrite Z.mul_assoc. intros Hlt. assert (0 <= a * g) by nia. assert (0 <= a * g * s) by nia.
  assert (a * g * s * 1 <= a * g * s * k) by (apply Z.mul_le_mono_nonneg_l; lia).
  rewrite (wrapped_product a g s) by lia. apply u64_small. lia.
Qed.

(** ** Runs

    An operation that ends with a result in a state, or throws what a reader may throw. *)
Definition yields {S A} (X : exn -> Prop) (m : M S A) (s : S) (a : A) (s' : S) : Prop :=
  match m s with (Ok r, s1) => r = a /\ s1 = s' | (Throw e, _) => X e end.

Lemma yields_ret {S A} X (a : A) (s : S) : yields X (mret a) s a s.
Proof. done. Qed.

Lemma yields_bind {S A B} X (m : M S A) (k : A -> M S B) s a s1 b s2 :
  yields X m s a s1 -> yields X (k a) s1 b s2 -> yields X (m ≫= k) s b s2.
Proof. unfold yields, mbind, M_bind. destruct (m s) as [[r|e] s']; [|done]. by intros [-> ->]. Qed.

Lemma yields_get {S} X (s : S) : yields X get s s s.
Proof. done. Qed.

Lemma yields_modify {S} X (f : S -> S) s : yields X (modify f) s tt (f s).
Proof. done. Qed.

Lemma yields_lift {S A} X (o : outcome A) a (s : S) : attempt X o a -> yields X (lift o) s a s.
Proof. unfold yields, lift, attempt. by destruct o. Qed.

Lemma yields_eq {S A} X (m : M S A) s a s1 s2 : yields X m s a s1 -> s1 = s2 -> yields X m s a s2.
Proof. by intros ? ->. Qed.

(** ** Rows on the wire *)

Definition wire_read (w : Wire) : Z := size_of (wi_values w) + size_of (wi_scales w) + size_of (wi_minima w) + 4.

(** A row appended to a batch. *)
Definition push (b : NintRowBatch) (w : Wire) : NintRowBatch :=
  {| nb_packed := nb_packed b ++ wire_packed w; nb_descriptors := nb_descriptors b ++ wire_words (size_of (nb_packed b)) w;
     nb_source_bytes_read := u64 (nb_source_bytes_read b + wire_read w); nb_width := nb_width b |}.

Lemma wire_read_nonneg w : 0 <= wire_read w.
Proof. unfold wire_read. pose proof (size_of_nonneg (wi_values w)). pose proof (size_of_nonneg (wi_scales w)). pose proof (size_of_nonneg (wi_minima w)). lia. Qed.

Definition wires_size (ws : list Wire) : Z := Zsum (fun w => size_of (wire_packed w)) ws.

Lemma wires_size_nonneg ws : 0 <= wires_size ws.
Proof. apply Zsum_nonneg, Forall_true. intros. apply size_of_nonneg. Qed.

Lemma wires_size_app ws ws' : wires_size (ws ++ ws') = wires_size ws + wires_size ws'.
Proof. apply Zsum_app. Qed.

Lemma wires_size_cons w ws : wires_size (w :: ws) = size_of (wire_packed w) + wires_size ws.
Proof. done. Qed.

Lemma pushes_size b ws : size_of (nb_packed (foldl push b ws)) = size_of (nb_packed b) + wires_size ws.
Proof.
  revert b. induction ws as [|w ws IH]; intros b; cbn [foldl]; [unfold wires_size; simpl; lia|].
  rewrite IH, wires_size_cons. simpl. rewrite size_of_app. lia.
Qed.

Lemma pushes_width width b ws : foldl push (set_batch_width width b) ws = set_batch_width width (foldl push b ws).
Proof. revert b. induction ws as [|w ws IH]; intros b; [done|]. apply (IH (push b w)). Qed.

Lemma pushes_words b ws : length (nb_descriptors (foldl push b ws)) = (length (nb_descriptors b) + length ws * 6)%nat.
Proof. revert b. induction ws as [|w ws IH]; intros b; simpl; [lia|]. rewrite IH. simpl. rewrite length_app. simpl. lia. Qed.

Lemma pushes_read b ws : 0 <= nb_source_bytes_read b < 2 ^ 64 -> 0 <= nb_source_bytes_read (foldl push b ws) < 2 ^ 64.
Proof. revert b. induction ws as [|w ws IH]; intros b Hb; [done|]. apply (IH (push b w)). apply Z.mod_pos_bound. lia. Qed.

(** *** Pieces *)

Lemma moved_wire offset base w : 0 <= base -> 0 <= offset -> offset + base + size_of (wire_packed w) <= s32_max ->
  moved offset (wire_words base w) = wire_words (offset + base) w.
Proof.
  intros ???. rewrite wire_packed_size in *. unfold s32_max in *.
  pose proof (size_of_nonneg (wi_values w)). pose proof (size_of_nonneg (wi_scales w)). pose proof (size_of_nonneg (wi_minima w)).
  unfold wire_words. rewrite moved_six, !u32_small by lia.
  rewrite (Z.add_comm base). replace (base + size_of (wi_values w) + 1 + offset) with (offset + base + size_of (wi_values w) + 1) by lia.
  by replace (base + size_of (wi_values w) + size_of (wi_scales w) + 2 + offset) with (offset + base + size_of (wi_values w) + size_of (wi_scales w) + 2) by lia.
Qed.

(** Publishing the piece some rows were pushed to pushes them. *)
Lemma publish_pushes width b ws : 0 <= nb_source_bytes_read b < 2 ^ 64 -> size_of (nb_packed b) + wires_size ws <= s32_max ->
  publish_piece b (set_batch_width width (foldl push empty_batch ws)) = foldl push b ws.
Proof.
  intros Hread. change (publish_piece b (set_batch_width width (foldl push empty_batch ws))) with (publish_piece b (foldl push empty_batch ws)).
  induction ws as [|w ws IH] using rev_ind; intros Hroom.
  - simpl. unfold publish_piece, empty_batch. simpl. rewrite !app_nil_r, Z.add_0_r, u64_small by done. by destruct b.
  - rewrite wires_size_app, wires_size_cons in Hroom. change (wires_size []) with 0 in Hroom.
    pose proof (size_of_nonneg (wire_packed w)). pose proof (size_of_nonneg (nb_packed b)). rewrite !foldl_app. simpl. rewrite <- IH by lia.
    pose proof (pushes_size empty_batch ws) as Hs. pose proof (wires_size_nonneg ws). change (size_of (nb_packed empty_batch)) with 0 in Hs.
    pose proof (pushes_words empty_batch ws) as Hw. simpl in Hw. set (p := foldl push empty_batch ws) in *.
    unfold push, publish_piece. cbn [nb_packed nb_descriptors nb_source_bytes_read nb_width].
    rewrite !app_assoc, (moved_app _ _ (length ws)) by done. unfold s32_max in *. rewrite u32_small by lia.
    rewrite moved_wire by (unfold s32_max in *; lia). rewrite size_of_app, !app_assoc. by rewrite u64_add_l, u64_add_r, Z.add_assoc.
Qed.

Lemma push_publish width b w : 0 <= nb_source_bytes_read b < 2 ^ 64 -> size_of (nb_packed b) + size_of (wire_packed w) <= s32_max ->
  push b w = publish_piece b (wire_batch width (u64 (wire_read w)) w).
Proof.
  intros Hread Hroom. pose proof (publish_pushes width b [w] Hread) as Hp. rewrite wires_size_cons in Hp. change (wires_size []) with 0 in Hp.
  simpl foldl in Hp. rewrite <- Hp by lia. done.
Qed.

(** *** The rows of pushed wires *)

Lemma set_width_sound width b : Sound b -> 0 < width -> nb_width b = 0 \/ nb_width b = width ->
  Sound (set_batch_width width b) /\ batch_codes (set_batch_width width b) = batch_codes b.
Proof.
  intros Hb Hpos [H0| <-]; [|by destruct b]. pose proof (proj2 (so_width _ Hb) H0) as Hd.
  assert (row_count b = 0%nat) as Hz by (apply row_count_words; by rewrite Hd).
  assert (row_count (set_batch_width width b) = 0%nat) as Hz' by done. split.
  - split; [apply Hb|apply Hb|simpl; by rewrite Hz', Hd|rewrite Hz'; lia|simpl; lia].
  - unfold batch_codes. by rewrite Hz, Hz'.
Qed.

Lemma pushes_codes width ws b : 0 < width -> Sound b -> nb_width b = width -> Forall (wire_ok width) ws ->
  size_of (nb_packed b) + wires_size ws <= s32_max ->
  Sound (foldl push b ws) /\ batch_codes (foldl push b ws) = batch_codes b ++ (wire_decode width <$> ws).
Proof.
  intros Hpos. revert b. induction ws as [|w ws IH]; intros b Hb Hw Hws Hroom; simpl; [by rewrite app_nil_r|].
  apply Forall_cons in Hws as [Hok Hws]. rewrite wires_size_cons in Hroom.
  pose proof (wires_size_nonneg ws). assert (0 <= u64 (wire_read w) < 2 ^ 64) as Hr by (apply Z.mod_pos_bound; lia).
  pose proof (wire_batch_sound width _ w Hok Hr) as Hone. pose proof (so_read _ Hb) as Hread.
  assert (push b w = set_batch_width width (publish_piece b (wire_batch width (u64 (wire_read w)) w))) as Hpush.
  { rewrite <- push_publish by (done || lia). rewrite <- Hw. by destruct b. }
  pose proof (publish_sound b _ Hb Hone (or_intror Hw) Hpos ltac:(simpl; lia)) as Hsound.
  pose proof (publish_codes b _ Hb Hone (or_intror Hw) Hpos ltac:(simpl; lia)) as Hcodes. simpl nb_width in Hsound, Hcodes. rewrite <- Hpush in *.
  destruct (IH (push b w)) as [IHs IHc]; [done|simpl; done|done|simpl; rewrite size_of_app; lia|].
  split; [done|]. rewrite IHc, Hcodes, wire_batch_codes by done. by rewrite <- app_assoc.
Qed.

(** *** What the workers come to *)

Lemma gathered_attempt {A} X (passed_on : list exn -> exn) (f : A -> outcome NintRowBatch) (g : A -> NintRowBatch) l :
  (forall es, es <> [] -> passed_on es ∈ es) -> (forall a, a ∈ l -> attempt X (f a) (g a)) ->
  attempt X (match failures (f <$> l) with [] => Ok (gathered (f <$> l)) | es => Throw (passed_on es) end) (g <$> l).
Proof.
  intros Hpassed Hf. assert (Forall X (failures (f <$> l))) as Hfaults.
  { apply Forall_forall. intros e He. apply list_elem_of_omap in He as (o & Ho & He). apply list_elem_of_fmap in Ho as (a & -> & Ha).
    specialize (Hf a Ha). destruct (f a); [done|]. by simplify_eq/=. }
  destruct (failures (f <$> l)) as [|e es] eqn:Hes.
  - simpl. clear Hfaults Hpassed. induction l as [|a l IH]; [done|]. pose proof (Hf a ltac:(left)) as Ha. cbn in Hes |- *.
    destruct (f a) as [b|]; [|done]. simpl in Ha. subst b. f_equal. apply IH; [|done]. intros. apply Hf. by right.
  - pose proof (Hpassed (e :: es) ltac:(done)) as Hin. rewrite Forall_forall in Hfaults. by apply Hfaults.
Qed.

Section Table.
#[local] Set Default Proof Using "Type*".
Context (X : exn -> Prop) (data : list Z) (t : NintRows) (Hindexed : Indexed data t) (Hdata : Forall is_byte data).

#[local] Notation values := (nr_groups t * nr_group_size t).
#[local] Notation rows := (Z.to_nat (nr_rows t)).

(** ** Where a row is *)

Definition row_place (row : nat) : RowPlace :=
  let kc := Z.to_nat (sel_k t row) in
  let qc := Z.to_nat (sel_q t row) in
  {| rp_kc := kc; rp_qc := qc; rp_k := k_bits t kc; rp_q := q_bits t qc; rp_kbit := k_before t row kc; rp_qbit := q_before t row qc |}.

Record placed_row (row : nat) : Prop := {
  pr_kc : sel_k t row = Z.of_nat (rp_kc (row_place row)) /\ (rp_kc (row_place row) < k_cohorts t)%nat;
  pr_qc : sel_q t row = Z.of_nat (rp_qc (row_place row)) /\ (rp_qc (row_place row) < q_cohorts t)%nat;
  pr_k : 1 <= rp_k (row_place row) <= 8;
  pr_q : 1 <= rp_q (row_place row) <= 8;
  pr_kbit : 0 <= rp_kbit (row_place row) /\ rp_kbit (row_place row) + nr_groups t * rp_k (row_place row) <= k_stream t (rp_kc (row_place row));
  pr_qbit : 0 <= rp_qbit (row_place row) /\ rp_qbit (row_place row) + values * rp_q (row_place row) <= q_stream t (rp_qc (row_place row));
}.

Lemma place_row row : (row < rows)%nat -> placed_row row.
Proof.
  intros Hrow. pose proof (sel_k_range _ _ Hindexed row). pose proof (sel_q_range _ _ Hindexed row). pose proof (rows_range _ _ Hindexed).
  pose proof (groups_range _ _ Hindexed) as [? ?].
  assert (sel_k t row = Z.of_nat (Z.to_nat (sel_k t row)) /\ (Z.to_nat (sel_k t row) < k_cohorts t)%nat) as [Hk Hkc] by lia.
  assert (sel_q t row = Z.of_nat (Z.to_nat (sel_q t row)) /\ (Z.to_nat (sel_q t row) < q_cohorts t)%nat) as [Hq Hqc] by lia.
  pose proof (k_before_next t row _ Hk) as Hkn. pose proof (q_before_next t row _ Hq) as Hqn.
  pose proof (k_before_mono _ _ Hindexed row (S row) _ Hkc ltac:(lia)). pose proof (k_before_mono _ _ Hindexed (S row) rows _ Hkc ltac:(lia)).
  pose proof (q_before_mono _ _ Hindexed row (S row) _ Hqc ltac:(lia)). pose proof (q_before_mono _ _ Hindexed (S row) rows _ Hqc ltac:(lia)).
  pose proof (k_before_all _ _ Hindexed _ Hkc). pose proof (q_before_all _ _ Hindexed _ Hqc).
  assert (1 <= k_bits t (Z.to_nat (sel_k t row)) <= 8) as Hkb.
  { destruct (ix_k_sound _ _ Hindexed _ Hkc) as [_ Hs]. apply Hs. rewrite (rank_k_spec _ _ Hindexed) by (done || lia).
    pose proof (rank_of_lt (sel_k t) (Z.of_nat (Z.to_nat (sel_k t row))) row rows Hk Hrow). pose proof (rank_of_range (sel_k t) (Z.of_nat (Z.to_nat (sel_k t row))) row). lia. }
  split; simpl; [done|done|done|by apply (q_bits_range _ _ Hindexed)|lia|lia].
Qed.

Lemma place_of_ranks row : 0 <= row < nr_rows t ->
  let kc := Z.to_nat (sel_k t (Z.to_nat row)) in let qc := Z.to_nat (sel_q t (Z.to_nat row)) in
  place_of t row =
    {| rp_kc := kc; rp_qc := qc; rp_k := k_bits t kc; rp_q := q_bits t qc;
       rp_kbit := u64 (u64 (rank_k t row kc * nr_groups t) * k_bits t kc);
       rp_qbit := u64 (u64 (u64 (rank_q t row qc * nr_groups t) * nr_group_size t) * q_bits t qc) |}.
Proof.
  intros Hrow. pose proof (rows_range _ _ Hindexed). unfold s32_max in *. unfold place_of, rank_k, rank_q, k_bits, q_bits, sel_k, sel_q.
  destruct (Z.eqb_spec row (nr_rows t)); [lia|]. rewrite Z2Nat.id by lia. destruct (nr_adaptive t); cbn [negb]; [done|].
  unfold u32. by rewrite Z.mod_small by lia.
Qed.

Lemma place_of_spec row : (row < rows)%nat -> place_of t (Z.of_nat row) = row_place row.
Proof.
  intros Hrow. destruct (place_row row Hrow) as [[Hk Hkc] [Hq Hqc] Hkb Hqb Hkbit Hqbit]. pose proof (rows_range _ _ Hindexed).
  pose proof (groups_range _ _ Hindexed) as [? ?]. pose proof (sg_group_size _ (ix_geometry _ _ Hindexed)). simpl in *.
  destruct (ix_k_sound _ _ Hindexed _ Hkc) as [Hks _]. pose proof (ix_q_sound _ _ Hindexed _ Hqc) as Hqs.
  rewrite place_of_ranks, Nat2Z.id by lia. rewrite (rank_k_spec _ _ Hindexed), (rank_q_spec _ _ Hindexed), Nat2Z.id by (done || lia).
  pose proof (rank_of_range (sel_k t) (Z.of_nat (Z.to_nat (sel_k t row))) row). pose proof (rank_of_range (sel_q t) (Z.of_nat (Z.to_nat (sel_q t row))) row).
  unfold row_place, k_before, q_before, u64_max in *.
  rewrite wrapped_product, wrapped_product3 by lia. by rewrite Z.mul_assoc.
Qed.

(** ** The wire of a row *)

Definition stream_of (offset bit count : Z) : list Z := slice data (offset + bit / 8) (source_bytes bit count).

Definition row_wire (row : nat) : Wire :=
  let p := row_place row in
  {| wi_values := stream_of (nr_q_offsets t !!! rp_qc p) (rp_qbit p) (values * rp_q p);
     wi_scales := stream_of (nr_scale_offsets t !!! rp_kc p) (rp_kbit p) (nr_groups t * rp_k p);
     wi_minima := stream_of (nr_min_offsets t !!! rp_kc p) (rp_kbit p) (nr_groups t * rp_k p);
     wi_layout := layout_word p; wi_group := nr_group_size t;
     wi_anchors := Z.lor (rc_scale (row_code data t row)) (Z.shiftl (rc_minimum (row_code data t row)) 16) |}.

(** Its streams lie in the tensor. *)
Record streams_in (row : nat) : Prop := {
  si_values : 0 <= nr_q_offsets t !!! rp_qc (row_place row) /\
    nr_q_offsets t !!! rp_qc (row_place row) + bytes_for (rp_qbit (row_place row) + values * rp_q (row_place row)) <= size_of data;
  si_scales : 0 <= nr_scale_offsets t !!! rp_kc (row_place row) /\
    nr_scale_offsets t !!! rp_kc (row_place row) + bytes_for (rp_kbit (row_place row) + nr_groups t * rp_k (row_place row)) <= size_of data;
  si_minima : 0 <= nr_min_offsets t !!! rp_kc (row_place row) /\
    nr_min_offsets t !!! rp_kc (row_place row) + bytes_for (rp_kbit (row_place row) + nr_groups t * rp_k (row_place row)) <= size_of data;
}.

Lemma row_streams_in row : (row < rows)%nat -> streams_in row.
Proof.
  intros Hrow. destruct (place_row row Hrow) as [[_ Hkc] [_ Hqc] _ _ Hkbit Hqbit]. pose proof (rows_range _ _ Hindexed).
  pose proof (k_stream_inside _ _ Hindexed _ Hkc) as [? ?]. pose proof (q_stream_inside _ _ Hindexed _ Hqc) as [? ?].
  pose proof (k_stream_nonneg _ _ Hindexed _ Hkc). pose proof (bytes_for_nonneg (k_stream t (rp_kc (row_place row))) ltac:(done)).
  split; rewrite ?(ix_values _ _ Hindexed), ?(ix_scales _ _ Hindexed), ?(ix_mins _ _ Hindexed) by done.
  - pose proof (bytes_for_mono _ _ (proj2 Hqbit)). lia.
  - pose proof (bytes_for_mono _ _ (proj2 Hkbit)). lia.
  - pose proof (bytes_for_mono _ _ (proj2 Hkbit)). lia.
Qed.

Lemma stream_of_bytes offset bit count : Forall is_byte (stream_of offset bit count).
Proof. by apply slice_bytes. Qed.

Section Stream.
Context (offset bit n width : Z) (Ho : 0 <= offset) (Hbit : 0 <= bit) (Hn : 0 <= n) (Hw : 0 <= width)
  (Hin : offset + bytes_for (bit + n * width) <= size_of data).

Lemma stream_within : within data (offset + bit / 8) (source_bytes bit (n * width)).
Proof. apply within_source; (done || nia). Qed.

Lemma stream_size : size_of (stream_of offset bit (n * width)) = bytes_for (bit mod 8 + n * width).
Proof. unfold stream_of. rewrite slice_length by apply stream_within. unfold source_bytes, bytes_for. f_equal. lia. Qed.

Lemma stream_codes_at : codes_at (Z.to_nat n) width (le_value (stream_of offset bit (n * width))) (bit mod 8) =
  codes_at (Z.to_nat n) width (le_value data) (8 * offset + bit).
Proof.
  pose proof (source_bytes_bound offset bit (n * width) Hbit ltac:(nia)) as (_ & ? & _). pose proof (Z.mod_pos_bound bit 8 ltac:(lia)).
  pose proof (Z.div_mod bit 8 ltac:(lia)). apply codes_at_eq; [done|lia|lia|]. rewrite Z2Nat.id by done. unfold stream_of.
  rewrite slice_value by (done || apply stream_within). rewrite bits_bits by nia. f_equal. lia.
Qed.
End Stream.

Lemma groups_of_width : (nr_width t + nr_group_size t - 1) / nr_group_size t = nr_groups t.
Proof. symmetry. apply (sg_groups _ (ix_geometry _ _ Hindexed)). Qed.

Lemma row_layout row : (row < rows)%nat -> let w := wi_layout (row_wire row) in
  Z.land w 15 = rp_q (row_place row) /\ Z.land (Z.shiftr w 4) 15 = rp_k (row_place row) /\
  Z.land (Z.shiftr w 8) 7 = rp_qbit (row_place row) mod 8 /\ Z.land (Z.shiftr w 12) 7 = rp_kbit (row_place row) mod 8 /\
  Z.land (Z.shiftr w 16) 7 = rp_kbit (row_place row) mod 8.
Proof.
  intros Hrow. destruct (place_row row Hrow) as [_ _ Hk Hq _ _]. rewrite <- !land_7. unfold row_wire. cbn [wi_layout]. unfold layout_word.
  apply layout_fields; (done || apply land_7_range).
Qed.

Lemma row_stream_sizes row : (row < rows)%nat ->
  size_of (wi_values (row_wire row)) = bytes_for (rp_qbit (row_place row) mod 8 + values * rp_q (row_place row)) /\
  size_of (wi_scales (row_wire row)) = bytes_for (rp_kbit (row_place row) mod 8 + nr_groups t * rp_k (row_place row)) /\
  size_of (wi_minima (row_wire row)) = bytes_for (rp_kbit (row_place row) mod 8 + nr_groups t * rp_k (row_place row)).
Proof.
  intros Hrow. destruct (place_row row Hrow) as [_ _ Hk Hq [Hkbit _] [Hqbit _]]. destruct (row_streams_in row Hrow) as [[??] [??] [??]].
  pose proof (groups_range _ _ Hindexed) as [? ?]. unfold row_wire. cbn [wi_values wi_scales wi_minima]. split_and!; apply stream_size; lia.
Qed.

Lemma row_wire_ok row : (row < rows)%nat -> wire_ok (nr_width t) (row_wire row).
Proof.
  intros Hrow. pose proof (sg_width _ (ix_geometry _ _ Hindexed)) as Hw. pose proof (sg_group_size _ (ix_geometry _ _ Hindexed)) as Hg. simpl in Hw, Hg.
  destruct (row_layout row Hrow) as (Hl1 & Hl2 & Hl3 & Hl4 & Hl5). destruct (row_stream_sizes row Hrow) as (Hv & Hs & Hm).
  split; [split_and!; apply stream_of_bytes|lia|done|]. cbv zeta. rewrite stream_sizes_eq by done. rewrite Hv, Hs, Hm.
  change (wire_words 0 (row_wire row) !!! 3%nat) with (wi_layout (row_wire row)). change (wire_words 0 (row_wire row) !!! 4%nat) with (nr_group_size t).
  cbn [nb_width wire_batch]. rewrite groups_of_width, Hl1, Hl2, Hl3, Hl4, Hl5. simpl. lia.
Qed.

Lemma anchor_range base row : (row < rows)%nat -> 0 <= base -> base + 2 * nr_rows t <= size_of data ->
  within data (base + Z.of_nat row * 2) 2 /\ 0 <= le_value (slice data (base + Z.of_nat row * 2) 2) < 2 ^ 16.
Proof.
  intros Hrow ??. assert (within data (base + Z.of_nat row * 2) 2) as Hw by (unfold within; lia). split; [done|].
  pose proof (le_value_range (slice data (base + Z.of_nat row * 2) 2) (slice_bytes _ _ _ Hdata)) as Hr. by rewrite slice_length in Hr.
Qed.

Lemma anchors_in : 42 + 4 * nr_rows t <= size_of data.
Proof. pose proof (rows_range _ _ Hindexed). apply (anchors_inside _ _ Hindexed 0 (nr_rows t)). lia. Qed.

Lemma row_anchors row : (row < rows)%nat ->
  (within data (nr_neuron_scale_offset t + Z.of_nat row * 2) 2 /\ within data (nr_neuron_min_offset t + Z.of_nat row * 2) 2) /\
  0 <= rc_scale (row_code data t row) < 2 ^ 16 /\ 0 <= rc_minimum (row_code data t row) < 2 ^ 16.
Proof.
  intros Hrow. destruct (ix_anchors _ _ Hindexed) as [Hs Hm]. pose proof anchors_in. pose proof (rows_range _ _ Hindexed).
  pose proof (anchor_range (nr_neuron_scale_offset t) row Hrow ltac:(lia) ltac:(lia)) as [??].
  pose proof (anchor_range (nr_neuron_min_offset t) row Hrow ltac:(lia) ltac:(lia)) as [??]. done.
Qed.

(** The wire of a row says what the row holds. *)
Lemma row_wire_decode row : (row < rows)%nat -> wire_decode (nr_width t) (row_wire row) = row_code data t row.
Proof.
  intros Hrow. destruct (place_row row Hrow) as [_ _ Hk Hq [Hkbit _] [Hqbit _]]. destruct (row_streams_in row Hrow) as [[??] [??] [??]].
  destruct (row_layout row Hrow) as (Hl1 & Hl2 & Hl3 & Hl4 & Hl5). pose proof (groups_range _ _ Hindexed) as [? ?].
  destruct (row_anchors row Hrow) as (_ & Hs & Hm). destruct (halves_fields _ _ Hs (proj1 Hm)) as [Hlow Hhigh].
  unfold wire_decode. rewrite Hl1, Hl2, Hl3, Hl4, Hl5. change (wi_group (row_wire row)) with (nr_group_size t). rewrite groups_of_width.
  change (wi_anchors (row_wire row)) with (Z.lor (rc_scale (row_code data t row)) (Z.shiftl (rc_minimum (row_code data t row)) 16)).
  rewrite Hlow, Hhigh. unfold row_wire. cbn [wi_values wi_scales wi_minima]. rewrite !stream_codes_at by lia. done.
Qed.

Lemma exact_bytes offset bit n width : 0 <= bit -> 0 <= n -> 0 <= width -> 0 <= offset ->
  offset + bytes_for (bit + n * width) <= size_of data ->
  (Z.land bit 7 + n * width + 7) / 8 = size_of (stream_of offset bit (n * width)) /\ size_of (stream_of offset bit (n * width)) = source_bytes bit (n * width).
Proof. intros. rewrite stream_size by done. rewrite land_7. unfold source_bytes, bytes_for. split; [done|f_equal; lia]. Qed.

(** ** One row at a time *)

Context (Hread : Reads X data (nr_read t)).

Definition finite_row (row : nat) : Prop :=
  not_finite (rc_scale (row_code data t row)) = false /\ not_finite (rc_minimum (row_code data t row)) = false.

Lemma copy_stream_yields offset bit n width b :
  0 <= offset -> 0 <= bit -> 0 <= n -> 0 <= width -> offset + bytes_for (bit + n * width) <= size_of data ->
  size_of (nb_packed b) + size_of (stream_of offset bit (n * width)) + 1 <= s32_max ->
  yields X (copy_stream t offset bit n width) b (size_of (nb_packed b))
    {| nb_packed := nb_packed b ++ stream_of offset bit (n * width) ++ [0]; nb_descriptors := nb_descriptors b;
       nb_source_bytes_read := u64 (nb_source_bytes_read b + size_of (stream_of offset bit (n * width))); nb_width := nb_width b |}.
Proof.
  intros Ho Hbit Hn Hw Hin Hroom. destruct (exact_bytes offset bit n width) as [He Hs]; [done..|].
  pose proof (stream_within offset bit n width Ho Hbit Hn Hw Hin) as Hwithin. pose proof Hwithin as (? & ? & ?).
  pose proof (size_of_nonneg (nb_packed b)). pose proof (ix_nbytes _ _ Hindexed). unfold s32_max in *.
  unfold copy_stream. rewrite He. eapply yields_bind; [apply yields_get|]. cbv beta zeta. unfold s32_max.
  destruct (_ || _ || _ || _) eqn:Hbad; [rewrite !orb_true_iff, !Z.ltb_lt, Z.leb_le in Hbad; destruct Hbad as [[[?|?]|?]|?]; lia|]. clear Hbad.
  rewrite u32_small by lia. eapply yields_bind; [apply yields_modify|]. eapply yields_bind; [apply yields_lift; rewrite Hs; by apply Hread|].
  eapply yields_bind; [apply yields_modify|]. eapply yields_bind; [apply yields_modify|]. eapply yields_eq; [apply yields_ret|]. done.
Qed.

Lemma append_row_yields row b : (row < rows)%nat -> finite_row row -> nb_width b = 0 \/ nb_width b = nr_width t ->
  size_of (nb_packed b) + size_of (wire_packed (row_wire row)) <= s32_max ->
  yields X (append_row t (Z.of_nat row)) b tt (set_batch_width (nr_width t) (push b (row_wire row))).
Proof.
  intros Hrow [Hfs Hfm] Hwidth Hroom. rewrite wire_packed_size in Hroom.
  destruct (place_row row Hrow) as [_ _ Hk Hq [Hkbit _] [Hqbit _]]. destruct (row_streams_in row Hrow) as [[Hqo Hqi] [Hso Hsi] [Hmo Hmi]].
  pose proof (groups_range _ _ Hindexed) as [? ?]. destruct (row_anchors row Hrow) as ((Hws & Hwm) & Hs & Hm).
  pose proof (rows_range _ _ Hindexed). unfold append_row.
  destruct (_ || _) eqn:Hbad; [lia|]. clear Hbad. eapply yields_bind; [apply yields_get|]. destruct (_ && _) eqn:Hbad; [lia|]. clear Hbad.
  rewrite place_of_spec by done. cbv zeta.
  eapply yields_bind; [apply yields_lift, Hread, Hws|]. eapply yields_bind; [apply yields_lift, Hread, Hwm|].
  change (le_value (slice data (nr_neuron_scale_offset t + Z.of_nat row * 2) 2)) with (rc_scale (row_code data t row)).
  change (le_value (slice data (nr_neuron_min_offset t + Z.of_nat row * 2) 2)) with (rc_minimum (row_code data t row)).
  rewrite Hfs, Hfm. cbn [orb]. rewrite u64_small by lia.
  change (wi_values (row_wire row)) with (stream_of (nr_q_offsets t !!! rp_qc (row_place row)) (rp_qbit (row_place row)) (values * rp_q (row_place row))) in Hroom.
  change (wi_scales (row_wire row)) with (stream_of (nr_scale_offsets t !!! rp_kc (row_place row)) (rp_kbit (row_place row)) (nr_groups t * rp_k (row_place row))) in Hroom.
  change (wi_minima (row_wire row)) with (stream_of (nr_min_offsets t !!! rp_kc (row_place row)) (rp_kbit (row_place row)) (nr_groups t * rp_k (row_place row))) in Hroom.
  set (v := stream_of _ (rp_qbit _) _) in *. set (s := stream_of (nr_scale_offsets t !!! _) _ _) in *. set (m := stream_of (nr_min_offsets t !!! _) _ _) in *.
  pose proof (size_of_nonneg v). pose proof (size_of_nonneg s). pose proof (size_of_nonneg m). pose proof (size_of_nonneg (nb_packed b)).
  eapply yields_bind; [apply copy_stream_yields; (lia || fold v; lia)|]. fold v.
  eapply yields_bind; [apply copy_stream_yields; (lia || cbn [nb_packed]; fold s; rewrite !size_of_app; change (size_of [0]) with 1; lia)|]. fold s.
  eapply yields_bind; [apply copy_stream_yields; (lia || cbn [nb_packed]; fold m; rewrite !size_of_app; change (size_of [0]) with 1; lia)|]. fold m.
  eapply yields_bind; [apply yields_modify|]. eapply yields_eq; [apply yields_modify|].
  unfold add_bytes_read, add_descriptor, set_batch_width, push, wire_packed, wire_words, wire_read.
  change (wi_values (row_wire row)) with v. change (wi_scales (row_wire row)) with s. change (wi_minima (row_wire row)) with m.
  cbn [nb_packed nb_descriptors nb_source_bytes_read nb_width]. rewrite !size_of_app. change (size_of [0]) with 1. rewrite <- !app_assoc.
  replace (size_of (nb_packed b) + (size_of v + 1) + (size_of s + 1)) with (size_of (nb_packed b) + size_of v + size_of s + 2) by lia.
  repeat (rewrite u64_add_l, <- ?Z.add_assoc). done.
Qed.

(** ** Many rows *)

Definition wires (ids : list Z) : list Wire := (fun id => row_wire (Z.to_nat id)) <$> ids.

(** The width of a batch some rows were appended to. *)
Definition width_after (ids : list Z) (b : NintRowBatch) : Z := match ids with [] => nb_width b | _ => nr_width t end.

Definition known (id : Z) : Prop := 0 <= id < nr_rows t /\ finite_row (Z.to_nat id).

Lemma append_each ids b : Forall known ids -> nb_width b = 0 \/ nb_width b = nr_width t ->
  size_of (nb_packed b) + wires_size (wires ids) <= s32_max ->
  yields X (for_each ids (append_row t)) b tt (set_batch_width (width_after ids b) (foldl push b (wires ids))).
Proof.
  intros Hids. revert b. induction Hids as [|id ids [Hid Hf] _ IH]; intros b Hw Hroom; cbn [for_each width_after]; [by destruct b|].
  simpl wires in Hroom. rewrite wires_size_cons in Hroom. pose proof (wires_size_nonneg (wires ids)).
  assert (yields X (append_row t id) b tt (set_batch_width (nr_width t) (push b (row_wire (Z.to_nat id))))) as Hone.
  { rewrite <- (Z2Nat.id id) at 1 by lia. apply append_row_yields; (done || lia). }
  eapply yields_bind; [exact Hone|].
  eapply yields_eq; [apply IH|].
  - by right.
  - simpl. rewrite size_of_app. unfold wires in *. lia.
  - rewrite pushes_width. by destruct ids.
Qed.

(** *** Pieces *)

Definition piece_of (ids : list Z) : NintRowBatch := set_batch_width (width_after ids empty_batch) (foldl push empty_batch (wires ids)).

Definition cut (count workers part : Z) : nat := Z.to_nat (count * part / workers).
Definition part_of (ids : list Z) (workers : Z) (part : nat) : list Z :=
  let first := cut (size_of ids) workers (Z.of_nat part) in
  take (cut (size_of ids) workers (Z.of_nat (S part)) - first) (drop first ids).

Lemma parts_prefix ids workers n : 0 < workers -> mjoin (part_of ids workers <$> seq 0 n) = take (cut (size_of ids) workers (Z.of_nat n)) ids.
Proof using.
  intros Hw. induction n as [|n IH]; [unfold cut; by rewrite Z.mul_0_r|].
  rewrite seq_S, fmap_app, join_app, IH. simpl. rewrite app_nil_r. unfold part_of at 1. pose proof (size_of_nonneg ids).
  assert (cut (size_of ids) workers (Z.of_nat n) <= cut (size_of ids) workers (Z.of_nat (S n)))%nat.
  { unfold cut. apply Z2Nat.inj_le; [apply Z.div_pos; nia..|]. apply Z.div_le_mono; nia. }
  rewrite take_take_drop. f_equal. lia.
Qed.

(** The parts are the rows asked for. *)
Lemma parts_all ids workers : 0 < workers -> mjoin (part_of ids workers <$> seq 0 (Z.to_nat workers)) = ids.
Proof using.
  intros Hw. rewrite parts_prefix by done. unfold cut. rewrite Z2Nat.id, Z.div_mul by lia. apply take_ge. unfold size_of. lia.
Qed.

Lemma wires_app ids ids' : wires_size (wires (ids ++ ids')) = wires_size (wires ids) + wires_size (wires ids').
Proof using. unfold wires. by rewrite fmap_app, wires_size_app. Qed.

Lemma wires_part i n ids : wires_size (wires (take n (drop i ids))) <= wires_size (wires ids).
Proof using.
  rewrite <- (take_drop i ids) at 2. rewrite <- (take_drop n (drop i ids)) at 2. rewrite !wires_app.
  pose proof (wires_size_nonneg (wires (take i ids))). pose proof (wires_size_nonneg (wires (drop n (drop i ids)))). lia.
Qed.

Lemma gather_part_attempt ids workers part : Forall known ids -> 0 < workers -> (part < Z.to_nat workers)%nat ->
  size_of ids * workers < 2 ^ 64 -> wires_size (wires ids) <= s32_max ->
  attempt X (gather_part t ids workers (Z.of_nat part)).1 (piece_of (part_of ids workers part)).
Proof.
  intros Hids Hw Hpart Hwide Hroom. pose proof (size_of_nonneg ids). unfold gather_part.
  rewrite !u64_small by nia. rewrite Z2Nat.inj_sub by (apply Z.div_pos; nia).
  replace (Z.of_nat part + 1) with (Z.of_nat (S part)) by lia. fold (cut (size_of ids) workers (Z.of_nat part)).
  fold (cut (size_of ids) workers (Z.of_nat (S part))). fold (part_of ids workers part).
  pose proof (append_each (part_of ids workers part) empty_batch) as Hrun.
  assert (yields X (for_each (part_of ids workers part) (append_row t)) empty_batch tt (piece_of (part_of ids workers part))) as Hpiece.
  { apply Hrun; [by apply Forall_take, Forall_drop|by left|]. change (size_of (nb_packed empty_batch)) with 0. pose proof (wires_part (cut (size_of ids) workers (Z.of_nat part)) (cut (size_of ids) workers (Z.of_nat (S part)) - cut (size_of ids) workers (Z.of_nat part)) ids).
    fold (part_of ids workers part) in *. lia. }
  unfold yields in Hpiece. unfold attempt. destruct (for_each _ _ _) as [[[]|e] b]; [|done]. by destruct Hpiece as [_ ->].
Qed.

Context (passed_on : list exn -> exn) (Hpassed : forall es, es <> [] -> passed_on es ∈ es).

Lemma gather_parts_attempt ids workers : Forall known ids -> 0 < workers -> size_of ids * workers < 2 ^ 64 -> wires_size (wires ids) <= s32_max ->
  attempt X (gather_parts passed_on t ids workers) ((fun part => piece_of (part_of ids workers part)) <$> seq 0 (Z.to_nat workers)).
Proof.
  intros ????. unfold gather_parts. apply (gathered_attempt X passed_on (fun part => (gather_part t ids workers (Z.of_nat part)).1)); [done|].
  intros part Hpart%elem_of_seq. apply gather_part_attempt; (done || lia).
Qed.

(** Publishing the pieces pushes all rows. *)
Lemma publish_pieces parts b : 0 <= nb_source_bytes_read b < 2 ^ 64 -> size_of (nb_packed b) + wires_size (wires (mjoin parts)) <= s32_max ->
  pieces_fit (size_of (nb_packed b)) (piece_of <$> parts) = true /\
  foldl publish_piece b (piece_of <$> parts) = foldl push b (wires (mjoin parts)).
Proof.
  revert b. induction parts as [|part parts IH]; intros b Hr Hroom; [done|].
  change (mjoin (part :: parts)) with (part ++ mjoin parts) in *. rewrite wires_app in Hroom.
  pose proof (wires_size_nonneg (wires part)). pose proof (wires_size_nonneg (wires (mjoin parts))).
  pose proof (pushes_size empty_batch (wires part)) as Hs. change (size_of (nb_packed empty_batch)) with 0 in Hs.
  destruct (IH (foldl push b (wires part))) as [Hfit Hfold]; [by apply pushes_read|rewrite pushes_size; lia|].
  split; cbn [fmap list_fmap pieces_fit foldl]; unfold piece_of at 1.
  - unfold piece_of at 1. cbn [nb_packed set_batch_width]. rewrite Hs, Z.add_0_l. rewrite pushes_size in Hfit. rewrite Hfit. lia.
  - rewrite publish_pushes by (done || lia). rewrite Hfold. unfold wires. by rewrite fmap_app, foldl_app.
Qed.
End Table.
