(* ===== verification/NintBatched.v ===== *)
(** * Rows gathered by one batch of reads

    With a reader of batches [append_rows] plans where every stream and anchor goes, reads
    them all at once, and publishes the result. [gather_is_lookup] states that the rows come
    out as they do one by one. *)

From stdpp Require Import base numbers strings list.
From Stdlib Require Import ZArith Lia.
From S2P Require Import Prelude Sha256 LittleEndian PackedRows NintRows NintIndex NintSlice NintRowsLaws NintWire NintGather.

#[local] Set Default Proof Using "Type".
#[local] Open Scope Z_scope.

(** ** Scattered reads *)

Lemma overwrite_at a old new rest : length old = length new -> overwrite (size_of a) new (a ++ old ++ rest) = a ++ new ++ rest.
Proof.
  intros Hl. rewrite (assoc_L (++) a old rest), overwrite_app.
  - rewrite overwrite_end by done. by rewrite (assoc_L (++)).
  - apply size_of_nonneg.
  - rewrite size_of_app. unfold size_of. lia.
Qed.

(** The halves of a word that was 0. *)
Lemma write_halves l six s m : length l = 6%nat -> 0 <= s < 2 ^ 16 -> l !!! 5%nat = 0 ->
  write_half (write_half (six ++ l) ((size_of six + 5) * 4) s) ((size_of six + 5) * 4 + 2) m =
  six ++ take 5 l ++ [Z.lor s (Z.shiftl m 16)].
Proof.
  intros Hl Hs H5. unfold write_half. pose proof (size_of_nonneg six).
  replace (((size_of six + 5) * 4) mod 4) with 0 by (Z.div_mod_to_equations; lia).
  replace (((size_of six + 5) * 4 + 2) mod 4) with 2 by (Z.div_mod_to_equations; lia).
  replace ((size_of six + 5) * 4 / 4) with (size_of six + 5) by (Z.div_mod_to_equations; lia).
  replace (((size_of six + 5) * 4 + 2) / 4) with (size_of six + 5) by (Z.div_mod_to_equations; lia).
  replace (Z.to_nat (size_of six + 5)) with (length six + 5)%nat by (unfold size_of; lia). rewrite !alter_app_r. f_equal.
  destruct (six_words l Hl) as (a0 & a1 & a2 & a3 & a4 & a5 & ->). simpl in *. subst a5. do 6 f_equal.
  change 65535 with (Z.ones 16). rewrite Z.land_ones by lia. rewrite Z.mod_small by done. done.
Qed.

Section Scatter.
Context (data : list Z).

#[local] Notation Span := (Z * Z * Z * bool)%type.

Definition scattered (acc : list Z * list Z) (s : Span) : list Z * list Z := scatter acc (s, slice data s.1.1.1 s.1.1.2).

(** A span inside [bytes] bytes and [words] words. *)
Definition span_in (bytes words : Z) (s : Span) : Prop :=
  let '(source, size, destination, anchor) := s in
  within data source size /\ 0 <= destination /\ if (anchor : bool) then destination / 4 < words else destination + size <= bytes.

Lemma scattered_app a w e f s : span_in (size_of a) (size_of w) s ->
  scattered (a ++ e, w ++ f) s = ((scattered (a, w) s).1 ++ e, (scattered (a, w) s).2 ++ f) /\
  length (scattered (a, w) s).1 = length a /\ length (scattered (a, w) s).2 = length w.
Proof.
  destruct s as [[[source size] destination] anchor]. intros (Hw & Hd & Hin). unfold scattered, scatter. cbn [fst snd].
  pose proof (slice_length _ _ _ Hw) as Hs. destruct anchor.
  - pose proof (Z.div_pos destination 4 Hd ltac:(lia)). unfold write_half, size_of in *. rewrite alter_app_l by lia.
    split_and!; cbn [fst snd]; by rewrite ?length_alter.
  - rewrite overwrite_app by lia. split_and!; cbn [fst snd]; by rewrite ?overwrite_length by lia.
Qed.

Lemma scattereds_app spans a w e f : Forall (span_in (size_of a) (size_of w)) spans ->
  foldl scattered (a ++ e, w ++ f) spans = ((foldl scattered (a, w) spans).1 ++ e, (foldl scattered (a, w) spans).2 ++ f).
Proof.
  intros Hin. revert a w Hin. induction spans as [|s spans IH]; intros a w Hin; [done|].
  apply Forall_cons in Hin as [Hs Hin]. destruct (scattered_app a w e f s Hs) as (Heq & Hla & Hlw). cbn [foldl]. rewrite Heq.
  destruct (scattered (a, w) s) as [a' w'] eqn:Hsw. simpl in *. apply IH. unfold size_of in *. by rewrite Hla, Hlw.
Qed.

Lemma scatter_read acc (spans : list Span) :
  foldl scatter acc (zip spans ((fun s : Z * Z => slice data s.1 s.2) <$> ((fun s : Span => (s.1.1.1, s.1.1.2)) <$> spans))) = foldl scattered acc spans.
Proof. revert acc. induction spans as [|s spans IH]; intros acc; [done|]. apply IH. Qed.
End Scatter.

(** ** The plan of a batch *)

Record Plans (data : list Z) (p : Planned) (b : NintRowBatch) : Prop := {
  pl_packed : pn_packed p = size_of (nb_packed b);
  pl_words : length (pn_words p) = length (nb_descriptors b);
  pl_read : pn_bytes_read p = nb_source_bytes_read b;
  pl_spans : Forall (span_in data (pn_packed p) (size_of (pn_words p))) (pn_spans p);
  pl_filled : foldl (scattered data) (replicate (Z.to_nat (pn_packed p)) 0, pn_words p) (pn_spans p) = (nb_packed b, nb_descriptors b);
}.

Definition no_plan : Planned := {| pn_packed := 0; pn_spans := []; pn_words := []; pn_bytes_read := 0 |}.

Lemma no_plan_plans data : Plans data no_plan empty_batch.
Proof. by split. Qed.

Lemma span_in_grown data bytes bytes' words words' s : bytes <= bytes' -> words <= words' -> span_in data bytes words s -> span_in data bytes' words' s.
Proof. destruct s as [[[source size] destination] []]; simpl; intros ?? (? & ? & ?); (split; [done|lia]). Qed.

Section Table.
#[local] Set Default Proof Using "Type*".
Context (X : exn -> Prop) (data : list Z) (t : NintRows) (Hindexed : Indexed data t) (Hdata : Forall is_byte data).

#[local] Notation values := (nr_groups t * nr_group_size t).
#[local] Notation rows := (Z.to_nat (nr_rows t)).

Lemma plan_stream_eq offset bit n width p : 0 <= offset -> 0 <= bit -> 0 <= n -> 0 <= width -> offset + bytes_for (bit + n * width) <= size_of data ->
  let piece := stream_of data offset bit (n * width) in
  0 <= pn_packed p -> pn_packed p + size_of piece + 1 <= s32_max ->
  plan_stream t offset bit n width p = (Ok (pn_packed p),
    {| pn_packed := pn_packed p + size_of piece + 1; pn_spans := pn_spans p ++ [(offset + bit / 8, size_of piece, pn_packed p, false)];
       pn_words := pn_words p; pn_bytes_read := u64 (pn_bytes_read p + size_of piece) |}).
Proof.
  intros Ho Hbit Hn Hw Hin piece Hp Hroom. destruct (exact_bytes data t Hindexed Hdata offset bit n width) as [He Hs]; [done..|]. fold piece in He, Hs.
  pose proof (stream_within data t Hindexed Hdata offset bit n width Ho Hbit Hn Hw Hin) as (? & ? & ?). pose proof (ix_nbytes _ _ Hindexed).
  unfold plan_stream. rewrite He. unfold s32_max in *.
  destruct (_ || _ || _ || _) eqn:Hbad; [rewrite !orb_true_iff, !Z.ltb_lt, Z.leb_le in Hbad; destruct Hbad as [[[?|?]|?]|?]; lia|].
  by rewrite u32_small by lia.
Qed.

(** The words of a row whose anchors are still to be read. *)
Definition bare_words (base : Z) (w : Wire) : list Z := take 5 (wire_words base w) ++ [0].

(** The spans of a row, whose bytes and words go behind [packed] bytes and [words] words. *)
Definition row_spans (packed words : Z) (row : nat) : list (Z * Z * Z * bool) :=
  let p := row_place t row in
  let w := row_wire data t row in
  [(nr_q_offsets t !!! rp_qc p + rp_qbit p / 8, size_of (wi_values w), packed, false);
   (nr_scale_offsets t !!! rp_kc p + rp_kbit p / 8, size_of (wi_scales w), packed + size_of (wi_values w) + 1, false);
   (nr_min_offsets t !!! rp_kc p + rp_kbit p / 8, size_of (wi_minima w), packed + size_of (wi_values w) + size_of (wi_scales w) + 2, false);
   (nr_neuron_scale_offset t + Z.of_nat row * 2, 2, (words + 5) * 4, true);
   (nr_neuron_min_offset t + Z.of_nat row * 2, 2, (words + 5) * 4 + 2, true)].

Lemma plan_row_eq row p : (row < rows)%nat -> 0 <= pn_packed p -> pn_packed p + size_of (wire_packed (row_wire data t row)) <= s32_max ->
  plan_row t (Z.of_nat row) p = (Ok tt,
    {| pn_packed := pn_packed p + size_of (wire_packed (row_wire data t row));
       pn_spans := pn_spans p ++ row_spans (pn_packed p) (size_of (pn_words p)) row;
       pn_words := pn_words p ++ bare_words (pn_packed p) (row_wire data t row);
       pn_bytes_read := u64 (pn_bytes_read p + wire_read (row_wire data t row)) |}).
Proof.
  intros Hrow Hp Hroom. rewrite wire_packed_size in Hroom |- *.
  destruct (place_row data t Hindexed Hdata row Hrow) as [_ _ Hk Hq [Hkbit _] [Hqbit _]].
  destruct (row_streams_in data t Hindexed Hdata row Hrow) as [[Hqo Hqi] [Hso Hsi] [Hmo Hmi]].
  pose proof (groups_range _ _ Hindexed) as [? ?].
  unfold row_spans, bare_words, wire_words, wire_read. unfold row_wire in *. cbn [wi_values wi_scales wi_minima wi_layout wi_group] in *.
  set (v := stream_of _ _ (rp_qbit _) _) in *. set (s := stream_of _ (nr_scale_offsets t !!! _) _ _) in *. set (m := stream_of _ (nr_min_offsets t !!! _) _ _) in *.
  pose proof (size_of_nonneg v). pose proof (size_of_nonneg s). pose proof (size_of_nonneg m).
  unfold plan_row. rewrite (place_of_spec data t Hindexed Hdata) by done. cbv zeta. rewrite (u64_small values) by lia.
  erewrite bind_ok; [|apply plan_stream_eq; (done || lia || fold v; lia)]. fold v.
  erewrite bind_ok; [|apply plan_stream_eq; (done || lia || cbn [pn_packed]; fold s; lia)]. fold s. cbn [pn_packed pn_spans pn_words pn_bytes_read].
  erewrite bind_ok; [|apply plan_stream_eq; (done || lia || cbn [pn_packed]; fold m; lia)]. fold m.
  unfold plan_anchors, modify. cbn [pn_packed pn_spans pn_words pn_bytes_read app take]. rewrite <- !app_assoc.
  replace (pn_packed p + size_of v + 1 + size_of s + 1) with (pn_packed p + size_of v + size_of s + 2) by lia.
  replace (pn_packed p + size_of v + size_of s + 2 + size_of m + 1) with (pn_packed p + (size_of v + size_of s + size_of m + 3)) by lia.
  repeat (rewrite u64_add_l, <- ?Z.add_assoc). done.
Qed.

(** *** What the spans of a row read *)

Lemma stream_read offset bit n width : 0 <= offset -> 0 <= bit -> 0 <= n -> 0 <= width -> offset + bytes_for (bit + n * width) <= size_of data ->
  let piece := stream_of data offset bit (n * width) in
  slice data (offset + bit / 8) (size_of piece) = piece /\ within data (offset + bit / 8) (size_of piece).
Proof.
  intros ????? piece. destruct (exact_bytes data t Hindexed Hdata offset bit n width) as [_ Hs]; [done..|]. fold piece in Hs. rewrite Hs.
  split; [done|]. by apply (stream_within data t Hindexed Hdata).
Qed.

Record spans_read (row : nat) : Prop := {
  sr_values : let w := wi_values (row_wire data t row) in let source := nr_q_offsets t !!! rp_qc (row_place t row) + rp_qbit (row_place t row) / 8 in
    slice data source (size_of w) = w /\ within data source (size_of w);
  sr_scales : let w := wi_scales (row_wire data t row) in let source := nr_scale_offsets t !!! rp_kc (row_place t row) + rp_kbit (row_place t row) / 8 in
    slice data source (size_of w) = w /\ within data source (size_of w);
  sr_minima : let w := wi_minima (row_wire data t row) in let source := nr_min_offsets t !!! rp_kc (row_place t row) + rp_kbit (row_place t row) / 8 in
    slice data source (size_of w) = w /\ within data source (size_of w);
}.

Lemma row_spans_of row : (row < rows)%nat -> spans_read row.
Proof.
  intros Hrow. destruct (place_row data t Hindexed Hdata row Hrow) as [_ _ Hk Hq [Hkbit _] [Hqbit _]].
  destruct (row_streams_in data t Hindexed Hdata row Hrow) as [[Hqo Hqi] [Hso Hsi] [Hmo Hmi]].
  pose proof (groups_range _ _ Hindexed) as [? ?]. split; apply stream_read; (done || lia).
Qed.

Lemma row_spans_in packed words row : (row < rows)%nat -> 0 <= packed -> 0 <= words ->
  Forall (span_in data (packed + size_of (wire_packed (row_wire data t row))) (words + 6)) (row_spans packed words row).
Proof.
  intros Hrow ??. rewrite wire_packed_size. destruct (row_spans_of row Hrow) as [[_ Hv] [_ Hs] [_ Hm]].
  destruct (row_anchors data t Hindexed Hdata row Hrow) as ((Hws & Hwm) & _).
  pose proof (size_of_nonneg (wi_values (row_wire data t row))). pose proof (size_of_nonneg (wi_scales (row_wire data t row))).
  pose proof (size_of_nonneg (wi_minima (row_wire data t row))).
  unfold row_spans. repeat (constructor; [split_and!; (done || lia || (Z.div_mod_to_equations; lia))|]). done.
Qed.

Lemma scattered_stream a w old rest source size : length old = Z.to_nat size -> within data source size ->
  scattered data (a ++ old ++ rest, w) (source, size, size_of a, false) = (a ++ slice data source size ++ rest, w).
Proof.
  intros Hl Hw. unfold scattered, scatter. cbn [fst snd]. rewrite overwrite_at; [done|]. pose proof (slice_length _ _ _ Hw). unfold size_of in *. lia.
Qed.

Lemma row_spans_read a d row : (row < rows)%nat ->
  let w := row_wire data t row in
  foldl (scattered data) (a ++ replicate (Z.to_nat (size_of (wire_packed w))) 0, d ++ bare_words (size_of a) w) (row_spans (size_of a) (size_of d) row) =
  (a ++ wire_packed w, d ++ wire_words (size_of a) w).
Proof.
  intros Hrow w. destruct (row_spans_of row Hrow) as [[Hvr Hv] [Hsr Hs] [Hmr Hm]]. fold w in Hvr, Hv, Hsr, Hs, Hmr, Hm.
  destruct (row_anchors data t Hindexed Hdata row Hrow) as ((Hws & Hwm) & Hsc & Hmn).
  pose proof (size_of_nonneg (wi_values w)). pose proof (size_of_nonneg (wi_scales w)). pose proof (size_of_nonneg (wi_minima w)).
  rewrite wire_packed_size.
  replace (replicate (Z.to_nat (size_of (wi_values w) + size_of (wi_scales w) + size_of (wi_minima w) + 3)) 0) with
    (replicate (length (wi_values w)) 0 ++ [0] ++ replicate (length (wi_scales w)) 0 ++ [0] ++ replicate (length (wi_minima w)) 0 ++ [0])
    by (change [0] with (replicate 1 0); rewrite <- !replicate_add; f_equal; unfold size_of; lia).
  unfold row_spans. fold w. cbn [foldl].
  rewrite scattered_stream by (rewrite ?length_replicate; unfold size_of; lia || done). rewrite Hvr.
  rewrite 2!(assoc_L (++)). replace (size_of a + size_of (wi_values w) + 1) with (size_of ((a ++ wi_values w) ++ [0])) by (rewrite !size_of_app; change (size_of [0]) with 1; lia).
  rewrite scattered_stream by (rewrite ?length_replicate; unfold size_of; lia || done). rewrite Hsr.
  rewrite 2!(assoc_L (++)).
  replace (size_of a + size_of (wi_values w) + size_of (wi_scales w) + 2) with (size_of ((((a ++ wi_values w) ++ [0]) ++ wi_scales w) ++ [0]))
    by (rewrite !size_of_app; change (size_of [0]) with 1; lia).
  rewrite scattered_stream by (rewrite ?length_replicate; unfold size_of; lia || done). rewrite Hmr.
  unfold scattered at 2. unfold scatter at 1. unfold scattered at 1. unfold scatter at 1. cbn [fst snd].
  rewrite write_halves by done. unfold wire_packed. by rewrite <- !app_assoc.
Qed.

(** *** Planning rows *)

Lemma plan_row_plans row p b : (row < rows)%nat -> Plans data p b -> size_of (nb_packed b) + size_of (wire_packed (row_wire data t row)) <= s32_max ->
  exists p', plan_row t (Z.of_nat row) p = (Ok tt, p') /\ Plans data p' (push b (row_wire data t row)).
Proof.
  intros Hrow [Hp Hw Hr Hin Hfill] Hroom. pose proof (size_of_nonneg (nb_packed b)). eexists. split; [apply plan_row_eq; (done || lia)|].
  set (w := row_wire data t row) in *. pose proof (size_of_nonneg (wire_packed w)).
  assert (size_of (pn_words p) = size_of (nb_descriptors b)) as Hw' by (unfold size_of; by rewrite Hw).
  split; cbn [pn_packed pn_words pn_spans pn_bytes_read push nb_packed nb_descriptors nb_source_bytes_read].
  - by rewrite size_of_app, Hp.
  - by rewrite !length_app, Hw.
  - by rewrite Hr.
  - rewrite size_of_app. change (size_of (bare_words (pn_packed p) w)) with 6. apply Forall_app. split.
    + eapply Forall_impl; [done|]. intros s. apply span_in_grown; lia.
    + apply row_spans_in; [done|lia|apply size_of_nonneg].
  - rewrite Z2Nat.inj_add, replicate_add by lia. rewrite foldl_app, scattereds_app, Hfill.
    + cbn [fst snd]. rewrite Hp, Hw'. by apply row_spans_read.
    + eapply Forall_impl; [done|]. intros s. unfold size_of. rewrite length_replicate. apply span_in_grown; lia.
Qed.

Lemma plan_rows ids p b : Forall (known data t) ids -> Plans data p b -> size_of (nb_packed b) + wires_size (wires data t ids) <= s32_max ->
  exists p', for_each ids (plan_row t) p = (Ok tt, p') /\ Plans data p' (foldl push b (wires data t ids)).
Proof.
  intros Hids. revert p b. induction Hids as [|id ids [Hid Hf] _ IH]; intros p b Hp Hroom; [by exists p|].
  change (wires data t (id :: ids)) with (row_wire data t (Z.to_nat id) :: wires data t ids) in *. rewrite wires_size_cons in Hroom.
  pose proof (wires_size_nonneg (wires data t ids)).
  destruct (plan_row_plans (Z.to_nat id) p b) as (p1 & Hone & Hp1); [lia|done|lia|]. rewrite Z2Nat.id in Hone by lia.
  destruct (IH p1 (push b (row_wire data t (Z.to_nat id)))) as (p2 & Hrest & Hp2); [done|simpl; rewrite size_of_app; lia|].
  exists p2. split; [|done]. cbn [for_each]. by rewrite (bind_ok _ _ _ _ _ Hone).
Qed.

(** The anchors of a batch of pushed rows are finite. *)
Lemma not_finite_low s m : 0 <= s < 2 ^ 16 -> 0 <= m -> not_finite (Z.lor s (Z.shiftl m 16)) = not_finite s.
Proof using.
  intros Hs Hm. destruct (halves_fields s m Hs Hm) as [Hlow _]. unfold not_finite.
  assert (Z.land (Z.lor s (Z.shiftl m 16)) 31744 = Z.land s 31744) as ->; [|done].
  change 31744 with (Z.land 65535 31744). rewrite Z.land_assoc, Hlow, Z.land_assoc. f_equal. symmetry.
  change 65535 with (Z.ones 16). rewrite Z.land_ones by lia. by apply Z.mod_small.
Qed.

Lemma pushed_anchors ids i b : Forall (known data t) ids -> (i < length ids)%nat -> nb_descriptors b = [] ->
  let word := anchors_of (nb_descriptors (foldl push b (wires data t ids))) i in
  not_finite word || not_finite (Z.shiftr word 16) = false.
Proof.
  revert i. induction ids as [|id ids IH] using rev_ind; intros i Hids Hi Hb; [simpl in Hi; lia|].
  apply Forall_app in Hids as [Hids [Hid [Hfs Hfm]]%Forall_singleton].
  rewrite length_app in Hi. unfold wires. rewrite fmap_app, foldl_app. fold (wires data t ids). cbn [foldl fmap list_fmap].
  pose proof (pushes_words b (wires data t ids)) as Hwords. rewrite Hb in Hwords. unfold wires at 2 in Hwords. rewrite length_fmap in Hwords. simpl in Hwords.
  cbn [push nb_descriptors]. unfold anchors_of. destruct (decide (i < length ids)%nat) as [Hlt|Hge].
  - rewrite lookup_total_app_l by lia. by apply IH.
  - simpl in Hi. rewrite lookup_total_app_r by lia. replace (i * 6 + 5 - _)%nat with 5%nat by lia.
    change (wire_words _ _ !!! 5%nat) with (wi_anchors (row_wire data t (Z.to_nat id))).
    destruct (row_anchors data t Hindexed Hdata (Z.to_nat id) ltac:(lia)) as (_ & Hs & Hm).
    unfold row_wire. cbn [wi_anchors]. destruct (halves_fields _ _ Hs (proj1 Hm)) as [_ Hhigh].
    by rewrite not_finite_low, Hhigh, Hfs, Hfm by (done || lia).
Qed.

(** ** [append_rows] *)

Context (Hread : Reads X data (nr_read t)) (Hbatch : forall batch, nr_read_batch t = Some batch -> ReadsBatch X data batch).
Context (passed_on : list exn -> exn) (Hpassed : forall es, es <> [] -> passed_on es ∈ es).

(** The bound the code announces for a row. *)
Lemma row_bound row : (row < rows)%nat -> size_of (wire_packed (row_wire data t row)) <= selected_row_nbytes_bound t.
Proof.
  intros Hrow. rewrite wire_packed_size. destruct (row_stream_sizes data t Hindexed Hdata row Hrow) as (-> & -> & ->).
  destruct (place_row data t Hindexed Hdata row Hrow) as [_ _ Hk Hq _ _]. pose proof (groups_range _ _ Hindexed) as [? ?].
  pose proof (Z.mod_pos_bound (rp_qbit (row_place t row)) 8 ltac:(lia)). pose proof (Z.mod_pos_bound (rp_kbit (row_place t row)) 8 ltac:(lia)).
  pose proof (bytes_for_bound (rp_qbit (row_place t row) mod 8 + values * rp_q (row_place t row)) ltac:(nia)).
  pose proof (bytes_for_bound (rp_kbit (row_place t row) mod 8 + nr_groups t * rp_k (row_place t row)) ltac:(nia)).
  assert (values * rp_q (row_place t row) <= values * 8) by (apply Z.mul_le_mono_nonneg_l; lia).
  assert (nr_groups t * rp_k (row_place t row) <= nr_groups t * 8) by (apply Z.mul_le_mono_nonneg_l; lia).
  unfold selected_row_nbytes_bound. lia.
Qed.

Lemma rows_bound ids : Forall (known data t) ids -> wires_size (wires data t ids) <= size_of ids * selected_row_nbytes_bound t.
Proof.
  intros Hids. induction Hids as [|id ids [Hid _] _ IH]; [done|].
  change (wires data t (id :: ids)) with (row_wire data t (Z.to_nat id) :: wires data t ids). rewrite wires_size_cons.
  pose proof (row_bound (Z.to_nat id) ltac:(lia)). change (size_of (id :: ids)) with (size_of ([id] ++ ids)). rewrite size_of_app.
  change (size_of [id]) with 1. lia.
Qed.

Definition appended (ids : list Z) (b : NintRowBatch) : NintRowBatch := set_batch_width (nr_width t) (foldl push b (wires data t ids)).

Lemma batched_attempt read_batch ids b : nr_read_batch t = Some read_batch -> Forall (known data t) ids -> 0 <= nb_source_bytes_read b < 2 ^ 64 ->
  size_of (nb_packed b) + wires_size (wires data t ids) <= s32_max ->
  attempt X (append_rows_batched t read_batch ids b) (appended ids b).
Proof.
  intros Hmode Hids Hr Hroom. pose proof (size_of_nonneg (nb_packed b)).
  destruct (plan_rows ids no_plan empty_batch Hids (no_plan_plans data)) as (p & Hplan & Hp); [change (size_of (nb_packed empty_batch)) with 0; lia|].
  unfold append_rows_batched. fold no_plan. rewrite Hplan.
  eapply attempt_bind.
  - apply (Hbatch _ Hmode). apply Forall_fmap. eapply Forall_impl; [apply (pl_spans _ _ _ Hp)|]. intros [[[source size] destination] anchor] (Hw & _). done.
  - rewrite scatter_read, (pl_filled _ _ _ Hp). destruct (existsb _ _) eqn:Hbad.
    { apply existsb_exists in Hbad as (i & Hi & Hbad). apply list_elem_of_In, elem_of_seq in Hi. rewrite pushed_anchors in Hbad; (done || lia). }
    pose proof (pushes_size empty_batch (wires data t ids)) as Hs. change (size_of (nb_packed empty_batch)) with 0 in Hs.
    destruct (_ <? _) eqn:?; [lia|]. simpl. unfold appended. rewrite <- (publish_pushes (nr_width t) b) by done.
    rewrite (pl_read _ _ _ Hp). done.
Qed.

Lemma threads_attempt ids b workers : Forall (known data t) ids -> 0 <= nb_source_bytes_read b < 2 ^ 64 -> 0 < workers <= size_of ids ->
  size_of ids <= s32_max -> size_of (nb_packed b) + wires_size (wires data t ids) <= s32_max ->
  attempt X (pieces ← gather_parts passed_on t ids workers;
    throw_if s32_max <? size_of (nb_packed b) with RuntimeError "NINT selected row stream exceeds bounds";
    throw_if negb (pieces_fit (size_of (nb_packed b)) pieces) with RuntimeError "NINT selected row stream exceeds bounds";
    Ok (set_batch_width (nr_width t) (foldl publish_piece b pieces))) (appended ids b).
Proof.
  intros Hids Hr Hworkers Hsmall Hroom. pose proof (wires_size_nonneg (wires data t ids)). pose proof (size_of_nonneg (nb_packed b)).
  eapply attempt_bind; [apply (gather_parts_attempt X data t Hindexed Hdata Hread); (done || unfold s32_max in *; nia)|].
  pose proof (parts_all ids workers ltac:(lia)) as Hall.
  destruct (publish_pieces X data t Hindexed Hdata Hread (part_of ids workers <$> seq 0 (Z.to_nat workers)) b) as [Hfit Hfold]; [done|by rewrite Hall|].
  rewrite <- list_fmap_compose in Hfit, Hfold. unfold compose in Hfit, Hfold. rewrite Hall in Hfold.
  destruct (s32_max <? _) eqn:?; [lia|]. rewrite Hfit, Hfold. done.
Qed.
End Table.

Lemma appended_codes data t ids b : Indexed data t -> Forall is_byte data -> Forall (known data t) ids -> Sound b ->
  nb_width b = 0 \/ nb_width b = nr_width t -> size_of (nb_packed b) + wires_size (wires data t ids) <= s32_max ->
  Sound (appended data t ids b) /\ batch_codes (appended data t ids b) = batch_codes b ++ ((fun id => row_code data t (Z.to_nat id)) <$> ids).
Proof.
  intros Hindexed Hdata Hids Hb Hw Hroom. pose proof (sg_width _ (ix_geometry _ _ Hindexed)) as Hpos. simpl in Hpos.
  destruct (set_width_sound (nr_width t) b Hb ltac:(lia) Hw) as [Hb' Hsame]. unfold appended. rewrite <- pushes_width, <- Hsame.
  destruct (pushes_codes (nr_width t) (wires data t ids) (set_batch_width (nr_width t) b)) as [Hs Hc]; [lia|done|done| |done|].
  - apply Forall_fmap. eapply Forall_impl; [done|]. intros id [Hid _]. apply row_wire_ok; (done || lia).
  - split; [done|]. rewrite Hc. f_equal. unfold wires. rewrite <- list_fmap_compose. apply list_fmap_ext. intros i id Hid. unfold compose.
    apply row_wire_decode; [done..|]. rewrite Forall_lookup in Hids. destruct (Hids i id Hid) as [? _]. lia.
Qed.

(** The width and the sizes [append_rows] checks for, with the bytes the code announces. *)
Definition rows_fit (t : NintRows) (ids : list Z) (b : NintRowBatch) : Prop :=
  (nb_width b = 0 \/ nb_width b = nr_width t) /\
  Z.of_nat (row_count b) + size_of ids <= s32_max / 6 /\
  (Z.of_nat (row_count b) + size_of ids) * nr_width t <= u32_max /\
  size_of (nb_packed b) + size_of ids * selected_row_nbytes_bound t <= s32_max.


(** ** On the small tensor *)

(** The first of the exceptions. *)
Definition first_thrown (es : list exn) : exn := match es with e :: _ => e | [] => RuntimeError "" end.

Lemma first_thrown_in es : es <> [] -> first_thrown es ∈ es.
Proof. destruct es; [done|]. left. Qed.

